(* ===== verification/_CoqProject ===== *)
-Q . S2P
Prelude.v
Effects.v
Deque.v
SlidingWindow.v
Float64.v
Recommendation.v
Revision.v
Autoscaler.v
RoleRatio.v
Disaggregated.v
Optimizer.v
GoHeap.v
FairnessQueue.v
Admission.v
TokenTracker.v
Names.v
ServingStore.v
RolePopulation.v
RoleRollout.v
RoleCandidates.v
CoordinationPartition.v
CoordinationWebhook.v
CapacityWebhook.v
RolloutProgress.v
RouteStore.v
PrefixStore.v
ScaleDown.v
PodStore.v
Scheduler.v
ServingPods.v
DeletionTargets.v
InPlaceState.v
RevisionHistory.v
Readiness.v
RevisionCleanup.v
ServingStatus.v
StatusTruth.v
PodEvents.v
PodRecovery.v
PodCreation.v
InPlaceRun.v
InPlaceUnit.v
Eviction.v
EvictionRun.v
GroupRollout.v
GroupRounds.v
GroupReconcile.v
RoleReconcile.v
KvIndex.v
KvScore.v
HttpMatch.v
HttpStore.v
SessionSticky.v
