(* ===== verification/Prelude.v ===== *)
(** * Kthena: a verification development

    Kthena runs LLM inference on Kubernetes. Its Go code falls into three
    programs, and this development models the core logic of each:

    - the _autoscaler_ (src/pkg/autoscaler) recommends replica counts from
      metrics, corrects them by the history of the target, and distributes them
      over backends or over the roles of a disaggregated deployment;
    - the _model serving controller_ (src/pkg/model-serving-controller) keeps
      serving groups of role instances, scales them, and rolls new templates
      out under availability budgets, partitions, skews and dependencies;
    - the _router_ (src/pkg/kthena-router) queues and admits requests, selects
      a route and a model server, and schedules the request onto pods.

    ** Conventions

    A definition is the translation of the Go function of the same name, and
    every definition runs. State is passed explicitly; what runs under one lock
    is one step. Code that changes a state and may stop with an error is written
    in the monad of Effects. An [option] result is a Go panic, an error return or an
    exhausted fuel, as the comment of the definition says. Integers are [Z],
    with the wrap-around of their width written out ([+₆₄], [int32], ...)
    except where a file says that counts fit; float64 is IEEE binary64 (Float64).
    Maps are finite maps. The order in which Go visits a map, the result
    of an unstable sort and the clock readings are arguments: a theorem holds
    for all of them. Third-party code enters as a class, a record or a section
    variable with its documented behaviour as laws: the deque (Deque), the LRU
    caches (FairnessQueue, PrefixStore), the API server's answers to a
    deletion, a creation or a patch (DeletionTargets, PodEvents, PodCreation,
    InPlaceUnit), the conditions of apimachinery (ServingStatus), intstr
    scaling, label selectors, the regular expression compiler, hash functions,
    Kubernetes quantities. Each has a concrete instance on which witnesses are
    computed.

    Assumptions that several files share: a handler, a reconcile and an attempt
    to write run on one state of the informer's cache and of the API server,
    unless the file interleaves them; a delayed enqueue counts as an enqueue;
    the API server has defaulted the replicas of an object; events for users,
    log lines and what plugins clean up are left out; messages of
    conditions and hosts of requests are ASCII text.

    ** Files

    Shared: this file (integers, lists, sorted lists, runs of clocked objects);
    Effects (programs with a state and errors, and their program logic);
    Float64; GoHeap (container/heap, correct for any [Less] that is a
    strict weak order on the elements it holds).

    Autoscaler. SlidingWindow (datastructure/sliding_window.go) over the
    interface Deque: each window refines the history of what was recorded.
    Recommendation (algorithm/recommendation.go): the replica count the metrics
    ask for, what unready pods and missing metrics may change, and the rounding.
    Revision (algorithm/revision.go): stabilisation, rate limits and panic
    mode. Autoscaler (autoscaler/status.go, scaler.go): no cycle
    panics and every result is within bounds. RoleRatio
    (algorithm/disaggregated_ratio.go) and Disaggregated
    (disaggregated_scaler.go): the same for roles and their ratio. Optimizer
    (optimizer.go): distribution over backends, cheapest blocks first.

    Model serving controller, its data. Names (utils/utils.go): printing and
    parsing of names with ordinals. ServingStore (datastore/store.go): the
    nested store refines three flat maps. ServingPods (utils/utils.go): what the
    components read of a pod.

    Model serving controller, role rollouts. RolePopulation, RoleRollout,
    RoleCandidates (controller/role_rolling_update_coordinator.go,
    coordinated_role_observation.go): the ordinals that take part in a rollout,
    how far each role may advance (against bounds stated without the code's
    search for the slowest role), and which instances are replaced.
    CoordinationPartition (utils/coordination_partition.go) and
    CoordinationWebhook (webhook/role_coordination_validator.go): what
    admission asks of partitions and dependencies, and that the controller
    never fails on what is admitted. CapacityWebhook (the same file): the
    capacity an update must leave. RolloutProgress composes both webhooks, the
    limits and the candidates: a rollout that admission accepts ends. ScaleDown
    (controller/binpack_scaledown.go, the scaling functions of
    model_serving_controller.go and coordinated_role_observation.go): what a scale-down
    deletes and which ordinals a scale-up fills.

    Model serving controller, group rollouts. GroupRollout
    (controller/model_serving_controller.go): one reconcile of the groups, over an interface that
    creates, deletes and compares one group. GroupRounds runs the
    reconciles with what the cluster does in between: deletions finish and
    groups become ready. PodCreation (controller/model_serving_controller.go,
    utils/utils.go): the pods of a group, of a role instance and one pod.
    GroupReconcile discharges the interface with PodCreation and PodEvents.
    RoleReconcile (the role functions of model_serving_controller.go): the
    instances of every role of a group for a serving without coordination, how
    many there are, at which revision, and with which pods.

    Model serving controller, revisions. RevisionHistory
    (controller/revision_history.go, utils/revision_*.go): comparisons of
    templates with recorded revisions, all of one reconcile as by one
    assignment of snapshots. Readiness
    (controller/revision_history.go, model_serving_controller.go): when an
    instance and a group are ready. RevisionCleanup
    (utils/controller_revision.go): which revisions are collected.

    Model serving controller, pods. PodEvents and PodRecovery
    (controller/model_serving_controller.go): the handlers of pods, services and
    pod groups, and the recovery goroutines that run next to them, as a step
    relation. DeletionTargets (controller/pod_deletion_targets.go): an
    intentional deletion hits the captured incarnations only. InPlaceState
    (inplace/state.go), InPlaceRun (under a kubelet and a pod server given by
    their steps; a runtime reports the name of an image or a digest, and may
    start late, restart or crash a container) and InPlaceUnit (controller/inplace_update.go): updates of
    images without deleting pods. Eviction and EvictionRun
    (webhook/eviction_handler.go): the decision on an eviction, the admission
    request from the lookups to the check, and several webhook replicas that share the tracker. ServingStatus and StatusTruth
    (controller/model_serving_controller.go, utils/utils.go): the status and
    what it says of the store.

    Router, requests. FairnessQueue and Admission (datastore/fairness_queue.go,
    session_boost_queue.go): the order and conservation of queued requests, and
    the hand-over of permits as a step relation of interleaved callers.
    TokenTracker (datastore/token_tracker.go): windowed counts are exact.
    RouteStore (datastore/store.go, routes): the indexes are those of one map
    and a request takes the first matching rule. HttpMatch
    (router/httproute_match.go, the rewriting of router.go) and HttpStore
    (datastore/store.go): HTTPRoutes, their order of precedence and their
    backends. SessionSticky (sessionsticky, router/router.go): the stores of
    session bindings behind one interface, and sessions that keep their pods.

    Router, scheduling. PodStore (datastore/store.go,
    model_server.go, pdgroup_pods.go): model servers, pods and the
    prefill/decode index, which refines one map from a pod to its role and group.
    Scheduler (scheduler/scheduler_impl.go and two plugins), over PodStore:
    what a scheduling decision guarantees after any history of the store.
    PrefixStore (scheduler/plugins/cache/prefix_store.go, prefix_cache.go): the
    prefix index agrees with the LRUs and a search finds longest prefixes.
    KvIndex (scheduler/plugins/kvcache_memory_index.go): the index of KV cache
    blocks refines one flat map. KvScore (scheduler/plugins/kvcache_aware.go):
    the scores computed from it.

    ** Groups of theorems

    - Refinement of an abstract state by a history of operations: the windows,
      the token tracker, the serving store, the routes, the prefix
      index, the block index; the status written to the API server.
    - Safety of whole cycles and of interleavings: autoscaling, the optimizer,
      permits, queued requests, rollout limits, replacement,
      deletions, recoveries, restarts of in-place updates, concurrent
      evictions, collected revisions, created pods, sessions.
    - Exact functional behaviour with every error branch: recommendation,
      revision, scores of the KV cache, the order of the queue.
    - Termination and liveness: the dependency closure, the cycle search, the
      scale-up loops; coordinated rollouts and group rollouts complete, an
      interrupted creation or in-place update resumes.
    - Round trip and equivalence: names; partitions and a common fraction;
      the cycle search and reachability; one history for all comparisons; the
      match of a request and the first of all accepting matches; the two
      stores of sessions.

    Lemmas that are no properties say more about single functions: the bounds
    of a ratio, what a scale-down chooses, the population of a role, what a
    scheduling decision uses, the outcomes of one unit's reconciliation, the
    statuses after pod events, the weights of backends, the answer of an
    admission request. They hold of the code as it is, also where a document
    asks for something else, which is listed as a finding.

    Lemmas that are no properties but show a defect on a concrete state stand
    next to the code they are about: [RoleRatio.repair_starves_a_role],
    [FairnessQueue.same_user_fifo_violated],
    [RolloutProgress.small_dependency_blocks],
    [EvictionRun.failed_listing_unchecked],
    [RouteStore.delete_closes_served_queue],
    [ScaleDown.deleting_group_counted],
    [Scheduler.replaced_pods_stay_indexed],
    [StatusTruth.complete_status_rewritten],
    [GroupReconcile.protected_down_is_spent],
    [PodCreation.template_label_hides_role],
    [HttpStore.root_prefix_glued], [KvScore.percent_rounded_down] and
    [SessionSticky.racing_requests_split] among them.

    ** Fuel

    Where Go loops without a structural bound the model takes fuel and a
    theorem shows that it is enough: one more than the number of roles for the
    graph searches (a node is entered once); the length of the deque for its
    loops; the count of ordinals below the bound, and the limit plus the number
    of occupied ordinals, for the scale-up loops; the number of blocks for the
    prompt hash; the number of rounds of a rollout is
    bounded by the instances or the groups left to replace. The retries of a status
    update and of the tracker are those of client-go, five.

    ** Not modelled

    Calls to the API server, Redis, HTTP and the pods' metrics endpoints are
    outside; their results are arguments where a decision depends on them. So
    are metrics, access logs and debugging, generated code, clients,
    flags and command lines. Left out for what they are: the proxying and
    streaming of requests, connectors and providers (HTTP), tokenizers (remote
    calls), rate limits and authentication (a token bucket library, Redis
    scripts, JWT), the booster's templates, pod group objects and plugins
    (construction of objects without decisions), the controllers of the router
    (they call the operations of its store) and the random and latency scores.
    Of the model serving controller these remain: the order of the steps of one
    reconcile, the coordinated branches of the synchronisation of roles and the
    pass that deletes outdated roles, around the modelled choice of what to
    delete and create, the scale-down when the revision cannot be read, the choice of the desired revision, and the field
    checks of the webhooks other than coordination. Of the autoscaler: its
    controller, the collection of metrics, the histograms and the validation of
    policies. Of the KV scores: the mode over Redis. *)
From Stdlib Require Export ZArith Lia.
#[export] Set Warnings "-clear-no-such-hyp".
From stdpp Require Export base gmap sets strings option numbers sorting list.

(** ** Machine integers

    Go's fixed-width integers are [Z] with the wrap-around written out: the
    result of an operation of width [w] is the value of [[-2^(w-1), 2^(w-1))]
    congruent to the mathematical result. *)

Declare Scope go_scope.
Delimit Scope go_scope with go.
Local Open Scope Z_scope.

Definition wrap (w : Z) (z : Z) : Z := (z + 2 ^ (w - 1)) mod 2 ^ w - 2 ^ (w - 1).

Definition in_width (w : Z) (z : Z) : Prop := - 2 ^ (w - 1) <= z < 2 ^ (w - 1).

Abbreviation int32 := (wrap 32).
Abbreviation int64 := (wrap 64).
Abbreviation in_int32 := (in_width 32).
Abbreviation in_int64 := (in_width 64).

Definition MaxInt32 : Z := 2147483647.
Definition MinInt32 : Z := -2147483648.

Notation "x +₃₂ y" := (int32 (x + y)) (at level 50, left associativity) : go_scope.
Notation "x -₃₂ y" := (int32 (x - y)) (at level 50, left associativity) : go_scope.
Notation "x *₃₂ y" := (int32 (x * y)) (at level 40, left associativity) : go_scope.
Notation "x +₆₄ y" := (int64 (x + y)) (at level 50, left associativity) : go_scope.
Notation "x -₆₄ y" := (int64 (x - y)) (at level 50, left associativity) : go_scope.
Notation "x *₆₄ y" := (int64 (x * y)) (at level 40, left associativity) : go_scope.

(** The hint databases of the development: [kthena] holds the facts the
    components export to each other, [go_int] the rewriting rules on machine
    integers. *)
Create HintDb kthena.
Create Rewrite HintDb go_int.

Lemma wrap_id w z : 0 < w -> in_width w z -> wrap w z = z.
Proof.
  intros Hw Hz. unfold wrap, in_width in *.
  assert (2 ^ w = 2 * 2 ^ (w - 1)) as E.
  { replace w with (Z.succ (w - 1)) at 1 by lia. rewrite Z.pow_succ_r; lia. }
  rewrite E, Z.mod_small; lia.
Qed.

Lemma wrap_in_width w z : 0 < w -> in_width w (wrap w z).
Proof.
  intros Hw. unfold wrap, in_width.
  assert (2 ^ w = 2 * 2 ^ (w - 1)) as E.
  { replace w with (Z.succ (w - 1)) at 1 by lia. rewrite Z.pow_succ_r; lia. }
  assert (0 < 2 ^ (w - 1)) by (apply Z.pow_pos_nonneg; lia).
  rewrite E. pose proof (Z.mod_pos_bound (z + 2 ^ (w - 1)) (2 * 2 ^ (w - 1))). lia.
Qed.

Lemma int32_id z : in_int32 z -> int32 z = z.
Proof. by apply wrap_id. Qed.

Lemma int64_id z : in_int64 z -> int64 z = z.
Proof. by apply wrap_id. Qed.

Lemma int32_range z : in_int32 (int32 z).
Proof. by apply wrap_in_width. Qed.

Lemma in_int32_unfold z : in_int32 z <-> -2147483648 <= z < 2147483648.
Proof. unfold in_width. simpl. lia. Qed.

Lemma in_int64_unfold z :
  in_int64 z <-> -9223372036854775808 <= z < 9223372036854775808.
Proof. unfold in_width. simpl. lia. Qed.

#[export] Hint Rewrite in_int32_unfold in_int64_unfold : go_int.
#[export] Hint Resolve int32_id int64_id int32_range : kthena.

(** [go_lia] proves bounds on machine integers: it unfolds the width
    predicates and the named bounds everywhere and calls [lia]. *)
Ltac go_lia :=
  repeat match goal with
  | H : context [in_int32 _] |- _ => rewrite in_int32_unfold in H
  | H : context [in_int64 _] |- _ => rewrite in_int64_unfold in H
  end;
  rewrite ?in_int32_unfold, ?in_int64_unfold;
  unfold MaxInt32, MinInt32 in *; lia.

(** Remove a wrap-around whose argument is in range. *)
Ltac no_wrap :=
  repeat match goal with
  | |- context [wrap 32 ?z] => rewrite (int32_id z) by go_lia
  | |- context [wrap 64 ?z] => rewrite (int64_id z) by go_lia
  end.

Ltac no_wrap_in H :=
  repeat match type of H with
  | context [wrap 32 ?z] => rewrite (int32_id z) in H by go_lia
  | context [wrap 64 ?z] => rewrite (int64_id z) in H by go_lia
  end.

(** Discharge the side conditions of a witness: split the conjunctions and
    decide each comparison of constants. *)
Ltac compute_ok :=
  repeat match goal with |- _ /\ _ => split end;
  try done; first [reflexivity | vm_compute; (reflexivity || congruence) | lia].

(** Case analysis on the boolean tests of the code, turning each into the
    proposition it decides. *)
Ltac case_bool :=
  match goal with
  | |- context [Z.ltb ?a ?b] => destruct (Z.ltb_spec a b)
  | |- context [Z.leb ?a ?b] => destruct (Z.leb_spec a b)
  | |- context [Z.eqb ?a ?b] => destruct (Z.eqb_spec a b)
  | |- context [if ?b then _ else _] => destruct b eqn:?
  end.

Ltac case_bool_in H :=
  match type of H with
  | context [Z.ltb ?a ?b] => destruct (Z.ltb_spec a b)
  | context [Z.leb ?a ?b] => destruct (Z.leb_spec a b)
  | context [Z.eqb ?a ?b] => destruct (Z.eqb_spec a b)
  | context [if ?b then _ else _] => destruct b eqn:?
  end.

(** ** Strict weak orders

    The shape of the comparison functions the code passes to its windows,
    queues and sorts: irreflexive, transitive, with transitive
    incomparability (in the form: the negation of the order is transitive). *)
Class StrictWeakOrder {A} (lt : A -> A -> bool) : Prop := {
  swo_irrefl x : lt x x = false;
  swo_trans x y z : lt x y = true -> lt y z = true -> lt x z = true;
  swo_neg_trans x y z : lt x y = false -> lt y z = false -> lt x z = false
}.

Lemma swo_asym {A} (lt : A -> A -> bool) `{!StrictWeakOrder lt} x y :
  lt x y = true -> lt y x = false.
Proof.
  intros H. destruct (lt y x) eqn:E; [|done].
  pose proof (swo_trans x y x H E) as Hx. by rewrite swo_irrefl in Hx.
Qed.

Lemma swo_lt_false_trans {A} (lt : A -> A -> bool) `{!StrictWeakOrder lt} x y z :
  lt x y = false -> lt z y = true -> lt x z = false.
Proof. intros H1 H2. eapply swo_neg_trans; [exact H1|]. by apply swo_asym. Qed.

#[export] Instance Zltb_swo : StrictWeakOrder Z.ltb.
Proof. split; intros; rewrite ?Z.ltb_lt, ?Z.ltb_ge in *; lia. Qed.

#[export] Instance Zgtb_swo : StrictWeakOrder Z.gtb.
Proof. split; intros *; rewrite !Z.gtb_ltb, ?Z.ltb_lt, ?Z.ltb_ge; lia. Qed.

(** ** Lists *)

Section lists.
Context {A : Type}.
Implicit Types (l : list A) (keep : A -> bool).

(** Drop from the front until an element satisfies [keep]. *)
Fixpoint drop_until keep l : list A :=
  match l with
  | [] => []
  | x :: l' => if keep x then l else drop_until keep l'
  end.

(** The same from the back. *)
Definition drop_back_until keep l : list A := rev (drop_until keep (rev l)).

Lemma drop_until_suffix keep l : exists l1,
  l = l1 ++ drop_until keep l /\ Forall (fun x => keep x = false) l1.
Proof.
  induction l as [|x l [l1 [E F]]]; simpl; [by exists []|].
  destruct (keep x) eqn:Ek; [by exists []|].
  exists (x :: l1). simpl. split; [by f_equal|by constructor].
Qed.

Lemma drop_until_head keep l x l' : drop_until keep l = x :: l' -> keep x = true.
Proof.
  induction l as [|y l IH]; simpl; [done|].
  destruct (keep y) eqn:Ek; [congruence|auto].
Qed.

Lemma drop_back_until_prefix keep l : exists l2,
  l = drop_back_until keep l ++ l2 /\ Forall (fun x => keep x = false) l2.
Proof.
  destruct (drop_until_suffix keep (rev l)) as [l1 [E F]].
  exists (rev l1). unfold drop_back_until. split.
  - by rewrite <- rev_app_distr, <- E, rev_involutive.
  - by apply Forall_rev.
Qed.

Lemma drop_back_until_last keep l x l' :
  drop_back_until keep l = l' ++ [x] -> keep x = true.
Proof.
  unfold drop_back_until. intros E. apply (f_equal (@rev A)) in E.
  rewrite rev_involutive, rev_unit in E. by eapply drop_until_head.
Qed.

(** Where [keep] is upwards closed along the list, dropping from the front
    is filtering. *)
Lemma drop_until_filter keep l (R : A -> A -> Prop) :
  StronglySorted R l ->
  (forall x y, R x y -> keep x = true -> keep y = true) ->
  drop_until keep l = filter (fun x => keep x = true) l.
Proof.
  intros Hs HR. induction Hs as [|x l Hs IH Hx]; [done|]. simpl.
  destruct (keep x) eqn:Ek.
  - rewrite filter_cons_True by done. f_equal.
    assert (Forall (fun y => keep y = true) l) as Hall.
    { eapply Forall_impl; [exact Hx|]. eauto. }
    clear -Hall. induction Hall; [done|]. rewrite filter_cons_True; congruence.
  - rewrite filter_cons_False by congruence. done.
Qed.
End lists.

Lemma StronglySorted_app_inv {A} (R : A -> A -> Prop) l1 l2 :
  StronglySorted R (l1 ++ l2) ->
  StronglySorted R l1 /\ StronglySorted R l2 /\ (forall x y, x ∈ l1 -> y ∈ l2 -> R x y).
Proof.
  induction l1 as [|x l1 IH]; simpl.
  - intros H. split_and!; [constructor|done|set_solver].
  - intros H. inversion H as [|? ? H1 H2]; subst.
    destruct (IH H1) as (H3 & H4 & H5). rewrite Forall_app in H2. destruct H2 as [H2 H2'].
    rewrite Forall_forall in H2'.
    split_and!; [by constructor|done|].
    intros y z Hy Hz. apply elem_of_cons in Hy as [->|Hy]; [|by apply H5].
    by apply H2'.
Qed.

Lemma StronglySorted_app_intro {A} (R : A -> A -> Prop) l1 l2 :
  StronglySorted R l1 -> StronglySorted R l2 ->
  (forall x y, x ∈ l1 -> y ∈ l2 -> R x y) -> StronglySorted R (l1 ++ l2).
Proof.
  intros H1 H2 H3. induction H1 as [|x l1 H1 IH Hx]; [done|]. simpl. constructor.
  - apply IH. set_solver.
  - apply Forall_app. split; [done|]. apply Forall_forall.
    intros y Hy. apply H3; [apply elem_of_cons; by left|done].
Qed.

Lemma StronglySorted_strengthen {A} (R R' : A -> A -> Prop) l :
  StronglySorted R l -> (forall x y, x ∈ l -> y ∈ l -> R x y -> R' x y) ->
  StronglySorted R' l.
Proof.
  induction 1 as [|x l Hs IH Hx]; intros HR; constructor.
  - apply IH. intros y z Hy Hz. apply HR; by apply elem_of_cons; right.
  - rewrite Forall_forall in *. intros y Hy.
    apply HR; [by apply elem_of_cons; left|by apply elem_of_cons; right|by apply Hx].
Qed.

(** ** Runs of a clocked object

    A component whose methods read the clock is run against a trace of
    operations stamped with the time at which each happens. [None] is a Go
    panic. *)
Section runs.
Context {W Op Out : Type} (step : Z -> Op -> W -> option (W * Out)).

Fixpoint run (tr : list (Z * Op)) (w : W) : option (W * list Out) :=
  match tr with
  | [] => Some (w, [])
  | (t, op) :: tr =>
    '(w, o) ← step t op w;
    '(w, os) ← run tr w;
    Some (w, o :: os)
  end.

(** The clock of a trace: valid times, none before the one preceding it. *)
Fixpoint clock_ok (valid : Z -> Prop) (prev : Z) (tr : list (Z * Op)) : Prop :=
  match tr with
  | [] => True
  | (t, _) :: tr => valid t /\ prev <= t /\ clock_ok valid t tr
  end.

Fixpoint last_time (prev : Z) (tr : list (Z * Op)) : Z :=
  match tr with
  | [] => prev
  | (t, _) :: tr => last_time t tr
  end.

(** An invariant indexed by the history of operations holds of every run. *)
Lemma run_invariant valid (Inv : list (Z * Op) -> Z -> W -> Prop) :
  (forall h now w t op, Inv h now w -> now <= t -> valid t ->
     exists w' o, step t op w = Some (w', o) /\ Inv (h ++ [(t, op)]) t w') ->
  forall tr h now w, Inv h now w -> clock_ok valid now tr ->
    exists w' os, run tr w = Some (w', os) /\ Inv (h ++ tr) (last_time now tr) w'.
Proof.
  intros Hstep. induction tr as [|[t op] tr IH]; intros h now w HI Hc; simpl in *.
  - exists w, []. by rewrite app_nil_r.
  - destruct Hc as (Hv & Hle & Hc).
    destruct (Hstep h now w t op HI Hle Hv) as (w1 & o & -> & HI1). simpl.
    destruct (IH _ _ _ HI1 Hc) as (w2 & os & -> & HI2). simpl.
    exists w2, (o :: os). by rewrite <- app_assoc in HI2.
Qed.
End runs.

Lemma filter_none {A} (P : A -> Prop) `{!forall x, Decision (P x)} l :
  Forall (fun x => ~ P x) l -> filter P l = [].
Proof. induction 1; [done|]. by rewrite filter_cons_False. Qed.

Lemma filter_full {A} (P : A -> Prop) `{!forall x, Decision (P x)} l : length (filter P l) = length l <-> forall x, x ∈ l -> P x.
Proof.
  induction l as [|x l IH]; [split; [by intros _ x Hx%not_elem_of_nil|done]|].
  rewrite filter_cons. setoid_rewrite elem_of_cons. pose proof (length_filter P l). case_decide; cbn [length]; [|naive_solver lia].
  rewrite Nat.succ_inj_wd, IH. naive_solver.
Qed.

Lemma filter_other {A} (P : A -> Prop) `{!forall x, Decision (P x)} l : (forall x, x ∈ l -> P x) <-> filter (fun x => ~ P x) l = [].
Proof.
  split.
  - intros Hall. apply elem_of_nil_inv. intros x. rewrite list_elem_of_filter. intros [Hn Hx]. by apply Hn, Hall.
  - intros E x Hx. destruct (decide (P x)) as [|Hn]; [done|]. by destruct (filter_nil_not_elem_of _ _ x E Hn).
Qed.

Lemma length_filter_split {A} (P Q : A -> Prop) `{!forall x, Decision (P x)} `{!forall x, Decision (Q x)} (l : list A) :
  length (filter P l) = (length (filter (fun x => P x /\ Q x) l) + length (filter (fun x => P x /\ ~ Q x) l))%nat.
Proof.
  induction l as [|x l IH]; [done|]. rewrite !filter_cons. repeat case_decide; try (exfalso; tauto); cbn [length]; lia.
Qed.

Lemma filter_ext_in {A} (P Q : A -> Prop) `{!forall x, Decision (P x)} `{!forall x, Decision (Q x)} (l : list A) :
  (forall x, x ∈ l -> P x <-> Q x) -> filter P l = filter Q l.
Proof.
  induction l as [|x l IH]; intros Hpq; [done|]. rewrite !filter_cons. rewrite IH by (intros y Hy; apply Hpq; by right).
  pose proof (Hpq x ltac:(by left)). repeat case_decide; try done; tauto.
Qed.

Lemma filter_fmap {A B} (f : A -> B) (P : B -> Prop) `{!forall x, Decision (P x)} (l : list A) :
  filter P (f <$> l) = f <$> filter (fun x => P (f x)) l.
Proof. induction l as [|x l IH]; [done|]. rewrite fmap_cons, !filter_cons, IH. by case_decide. Qed.

(** ** [sort.Strings] *)

Lemma existsb_false {A} (f : A -> bool) l : existsb f l = false <-> forall x, x ∈ l -> f x = false.
Proof.
  rewrite <- not_true_iff_false, existsb_exists. setoid_rewrite <- not_true_iff_false. setoid_rewrite <- list_elem_of_In. naive_solver.
Qed.

Lemma existsb_true {A} (f : A -> bool) l : existsb f l = true <-> exists x, x ∈ l /\ f x = true.
Proof. rewrite existsb_exists. by setoid_rewrite list_elem_of_In. Qed.

Lemma ltb_negb_leb x y : String.ltb x y = negb (String.leb y x).
Proof. unfold String.ltb, String.leb. rewrite String.compare_antisym. by destruct (String.compare y x). Qed.

#[export] Instance StringLtb_swo : StrictWeakOrder String.ltb.
Proof.
  assert (Hle : forall x y, String.ltb x y = false <-> String.le y x).
  { intros x y. rewrite ltb_negb_leb. unfold String.le. by destruct (String.leb y x). }
  split.
  - intros x. by apply Hle.
  - intros x y z H1 H2. destruct (String.ltb x z) eqn:E; [done|]. apply Hle in E. destruct (total String.le x y) as [H|H]; [|apply Hle in H; congruence].
    assert (Hzy : String.le z y) by (by etrans). apply Hle in Hzy. congruence.
  - intros x y z H1%Hle H2%Hle. apply Hle. by etrans.
Qed.

Lemma ltb_total x y : String.ltb x y = false -> String.ltb y x = false -> x = y.
Proof.
  rewrite !ltb_negb_leb. intros H1%negb_false_iff H2%negb_false_iff. apply (anti_symm String.le); unfold String.le; by rewrite ?H1, ?H2.
Qed.

Definition sortStrings (l : list string) : list string := merge_sort String.le l.

Lemma sortStrings_perm l : sortStrings l ≡ₚ l.
Proof. apply merge_sort_Permutation. Qed.

Lemma sortStrings_sorted l : StronglySorted String.le (sortStrings l).
Proof. apply StronglySorted_merge_sort; apply _. Qed.

(** Two strongly sorted permutations of each other are equal. *)
Lemma sortStrings_canonical l k : l ≡ₚ k -> sortStrings l = sortStrings k.
Proof.
  intros Hp. apply (StronglySorted_unique String.le);
    [apply sortStrings_sorted..|by rewrite !sortStrings_perm].
Qed.

(** ** Sums *)

Definition sumZ (l : list Z) : Z := foldr Z.add 0 l.

Lemma sumZ_cons {A} (f : A -> Z) x l : sumZ (f <$> x :: l) = f x + sumZ (f <$> l).
Proof. done. Qed.

Lemma sumZ_app l k : sumZ (l ++ k) = sumZ l + sumZ k.
Proof. induction l; simpl; lia. Qed.

#[export] Instance sumZ_perm : Proper ((≡ₚ) ==> eq) sumZ.
Proof. intros l k Hp. induction Hp; simpl; lia. Qed.

Lemma sumZ_fmap_add {A} (f g : A -> Z) l :
  sumZ ((fun x => f x + g x) <$> l) = sumZ (f <$> l) + sumZ (g <$> l).
Proof. induction l; csimpl; lia. Qed.

Lemma sumZ_fmap_mul {A} (f : A -> Z) k l :
  sumZ ((fun x => k * f x) <$> l) = k * sumZ (f <$> l).
Proof. induction l; csimpl; lia. Qed.

Lemma sumZ_fmap_le {A} (f g : A -> Z) l :
  (forall x, x ∈ l -> f x <= g x) -> sumZ (f <$> l) <= sumZ (g <$> l).
Proof.
  induction l as [|x l IH]; intros Hl; csimpl; [lia|].
  assert (f x <= g x) by (apply Hl; by left).
  assert (sumZ (f <$> l) <= sumZ (g <$> l)) by (apply IH; intros; apply Hl; by right). lia.
Qed.

Lemma sumZ_fmap_nonneg {A} (f : A -> Z) l : (forall x, x ∈ l -> 0 <= f x) -> 0 <= sumZ (f <$> l).
Proof.
  induction l as [|x l IH]; intros Hl; csimpl; [lia|].
  assert (0 <= f x) by (apply Hl; by left).
  assert (0 <= sumZ (f <$> l)) by (apply IH; intros; apply Hl; by right). lia.
Qed.

Lemma sumZ_elem_le {A} (f : A -> Z) l x :
  (forall x, x ∈ l -> 0 <= f x) -> x ∈ l -> f x <= sumZ (f <$> l).
Proof.
  intros Hl Hx. apply list_elem_of_split in Hx as (l1 & l2 & ->).
  rewrite fmap_app, sumZ_app, sumZ_cons.
  pose proof (sumZ_fmap_nonneg f l1 ltac:(intros; apply Hl; set_solver)).
  pose proof (sumZ_fmap_nonneg f l2 ltac:(intros; apply Hl; set_solver)). lia.
Qed.

Lemma sumZ_fmap_ext {A} (f g : A -> Z) l :
  (forall x, x ∈ l -> f x = g x) -> sumZ (f <$> l) = sumZ (g <$> l).
Proof. intros Hl. f_equal. apply list_fmap_ext. intros i x Hx. apply Hl. by eapply list_elem_of_lookup_2. Qed.

(** Summing over the elements of each key, then over the keys. *)
Lemma sumZ_by_key {A K} `{EqDecision K} (key : A -> K) (f : A -> Z) (ks : list K) (l : list A) :
  NoDup ks -> (forall x, x ∈ l -> key x ∈ ks) ->
  sumZ ((fun k => sumZ (f <$> filter (fun x => key x = k) l)) <$> ks) = sumZ (f <$> l).
Proof.
  intros Hnd. induction l as [|x l IH]; intros Hl.
  - clear. induction ks as [|k ks IH]; csimpl; [done|]. exact IH.
  - csimpl. rewrite <- IH by (intros; apply Hl; by right).
    assert (Hx : key x ∈ ks) by (apply Hl; by left). clear IH Hl.
    induction Hnd as [|k ks Hk Hnd IHk]; [by apply elem_of_nil in Hx|]. csimpl.
    destruct (decide (key x = k)) as [E|E].
    + rewrite filter_cons_True by done. csimpl.
      rewrite (sumZ_fmap_ext _ (fun k => sumZ (f <$> filter (fun x => key x = k) l)) ks); [lia|].
      intros k' Hk'. rewrite filter_cons_False; [done|]. intros E'. congruence.
    + rewrite filter_cons_False by done.
      apply elem_of_cons in Hx as [?|Hx]; [congruence|]. rewrite (IHk Hx). lia.
Qed.
