(* ===== verification/Effects.v ===== *)
(** * Effects

    Code that changes a state and may return an error: a run keeps the state it
    reached when it stops. [spec] is its program logic: a run from a state that
    satisfies the precondition ends in the first postcondition, or stops in the
    second. *)
From S2P Require Import Prelude.

Definition run (St A : Type) := St -> St * option A.

Section effects.
Context {St : Type}.

#[export] Instance run_ret : MRet (run St) := fun _ x s => (s, Some x).
#[export] Instance run_bind : MBind (run St) := fun _ _ f m s =>
  match m s with (s, Some x) => f x s | (s, None) => (s, None) end.

(** An error is returned. *)
Definition stop {A} : run St A := fun s => (s, None).
Definition need {A} (o : option A) : run St A := fun s => (s, o).
Definition require (b : bool) : run St unit := if b then mret () else stop.
Definition modify (f : St -> St) : run St unit := fun s => (f s, Some ()).
(** An operation that answers. *)
Definition call {A} (f : St -> A * St) : run St A := fun s => let '(x, s) := f s in (s, Some x).

(** The first error ends the loop. *)
Fixpoint forEach {A} (f : A -> run St unit) (l : list A) : run St unit :=
  match l with [] => mret () | x :: l => f x ≫= fun _ => forEach f l end.

Definition spec {A} (P : St -> Prop) (m : run St A) (Q : A -> St -> Prop) (E : St -> Prop) : Prop :=
  forall s, P s -> match m s with (s', Some x) => Q x s' | (s', None) => E s' end.

Lemma spec_ret {A} (x : A) P (Q : A -> St -> Prop) E : (forall s, P s -> Q x s) -> spec P (mret x) Q E.
Proof. intros H s Hs. by apply H. Qed.

Lemma spec_stop {A} P (Q : A -> St -> Prop) (E : St -> Prop) : (forall s, P s -> E s) -> spec P stop Q E.
Proof. intros H s Hs. by apply H. Qed.

Lemma spec_bind {A B} P R (m : run St A) (f : A -> run St B) Q E :
  spec P m R E -> (forall x, spec (R x) (f x) Q E) -> spec P (m ≫= f) Q E.
Proof.
  intros Hm Hf s Hs. specialize (Hm s Hs). unfold mbind, run_bind. destruct (m s) as [s' [x|]]; [|done].
  apply (Hf x s' Hm).
Qed.

Lemma spec_weaken {A} (P P' : St -> Prop) (m : run St A) (Q Q' : A -> St -> Prop) (E E' : St -> Prop) :
  spec P m Q E -> (forall s, P' s -> P s) -> (forall x s, Q x s -> Q' x s) -> (forall s, E s -> E' s) -> spec P' m Q' E'.
Proof. intros Hm HP HQ HE s Hs. specialize (Hm s (HP s Hs)). destruct (m s) as [s' [x|]]; eauto. Qed.

Lemma spec_need {A} (o : option A) P (Q : A -> St -> Prop) (E : St -> Prop) :
  (forall x s, o = Some x -> P s -> Q x s) -> (forall s, o = None -> P s -> E s) -> spec P (need o) Q E.
Proof. intros HQ HE s Hs. unfold need. destruct o; eauto. Qed.

Lemma spec_require b P (Q : unit -> St -> Prop) (E : St -> Prop) :
  (forall s, b = true -> P s -> Q () s) -> (forall s, b = false -> P s -> E s) -> spec P (require b) Q E.
Proof. intros HQ HE s Hs. unfold require, stop. destruct b; [by apply HQ|by apply HE]. Qed.

Lemma spec_modify f P (Q : unit -> St -> Prop) E : (forall s, P s -> Q () (f s)) -> spec P (modify f) Q E.
Proof. intros H s Hs. by apply H. Qed.

Lemma spec_call {A} (f : St -> A * St) P (Q : A -> St -> Prop) E : (forall s, P s -> Q (f s).1 (f s).2) -> spec P (call f) Q E.
Proof. intros H s Hs. unfold call. specialize (H s Hs). by destruct (f s). Qed.

(** [I] holds of the elements that are done. *)
Lemma spec_forEach {A} (f : A -> run St unit) (I : list A -> St -> Prop) E l seen :
  (forall seen x, x ∈ l -> spec (I seen) (f x) (fun _ => I (seen ++ [x])) E) ->
  spec (I seen) (forEach f l) (fun _ => I (seen ++ l)) E.
Proof.
  revert seen. induction l as [|x l IH]; intros seen H; cbn [forEach].
  - apply spec_ret. intros s Hs. by rewrite app_nil_r.
  - replace (seen ++ x :: l) with ((seen ++ [x]) ++ l) by (by rewrite <- app_assoc).
    apply (spec_bind _ (fun _ => I (seen ++ [x]))); [apply H; by left|]. intros _. apply IH. intros d y Hy. apply H. by right.
Qed.

(** ** Runs that only move along a preorder *)

Definition follows (R : St -> St -> Prop) {A} (m : run St A) : Prop := forall s, R s (m s).1.

Section order.
Context (R : St -> St -> Prop) `{!PreOrder R}.

Lemma follows_ret {A} (x : A) : follows R (mret x).
Proof. intros s. by cbn. Qed.

Lemma follows_stop {A} : follows R (stop : run St A).
Proof. intros s. by cbn. Qed.

Lemma follows_need {A} (o : option A) : follows R (need o).
Proof. intros s. by cbn. Qed.

Lemma follows_require b : follows R (require b).
Proof. intros s. by destruct b. Qed.

Lemma follows_modify f : (forall s, R s (f s)) -> follows R (modify f).
Proof. done. Qed.

Lemma follows_call {A} (f : St -> A * St) : (forall s, R s (f s).2) -> follows R (call f).
Proof. intros H s. specialize (H s). unfold call. by destruct (f s). Qed.

Lemma follows_bind {A B} (m : run St A) (f : A -> run St B) : follows R m -> (forall x, follows R (f x)) -> follows R (m ≫= f).
Proof.
  intros Hm Hf s. specialize (Hm s). unfold mbind, run_bind. destruct (m s) as [s' [x|]]; [|done].
  etrans; [exact Hm|apply (Hf x s')].
Qed.

Lemma follows_forEach {A} (f : A -> run St unit) l : (forall x, follows R (f x)) -> follows R (forEach f l).
Proof. intros Hf. induction l as [|x l IH]; cbn [forEach]; [apply follows_ret|]. apply follows_bind; [apply Hf|done]. Qed.

(** A loop keeps [I] and collects what its iterations establish. *)
Lemma spec_collect {A} (f : A -> run St unit) (I : St -> Prop) (G : A -> St -> Prop) E l :
  (forall x, x ∈ l -> spec I (f x) (fun _ s => I s /\ G x s) E) -> (forall x, follows R (f x)) ->
  (forall x s s', R s s' -> G x s -> G x s') ->
  spec I (forEach f l) (fun _ s => I s /\ forall x, x ∈ l -> G x s) E.
Proof.
  intros Hf HR HG. pose (J := fun (d : list A) s => I s /\ forall x, x ∈ d -> G x s).
  eapply (spec_weaken (J []) _ _ (fun _ => J ([] ++ l)) _ E); [apply (spec_forEach f J E l [])| |done|done].
  - intros d x Hx s [Hs Hd]. pose proof (Hf x Hx s Hs) as H1. pose proof (HR x s) as H2.
    destruct (f x s) as [s' [[]|]]; [|done]. destruct H1 as [H1 H1']. split; [done|]. intros y Hy.
    apply elem_of_app in Hy as [Hy|Hy]; [by eapply HG, Hd|]. by apply list_elem_of_singleton in Hy as ->.
  - intros s Hs. split; [done|]. intros x Hx. by apply not_elem_of_nil in Hx.
Qed.
(** What the order keeps is kept. *)
Lemma spec_frame {A} (m : run St A) (P K : St -> Prop) (Q : A -> St -> Prop) E :
  spec P m Q E -> follows R m -> (forall s s', R s s' -> K s -> K s') -> spec (fun s => P s /\ K s) m (fun x s => Q x s /\ K s) E.
Proof.
  intros Hm HR HK s [Hs Hk]. specialize (Hm s Hs). specialize (HR s). destruct (m s) as [s' [x|]]; [|done]. split; [done|]. by eapply HK.
Qed.
End order.
End effects.

(** Split a run along its operations. *)
Ltac follow_step :=
  lazymatch goal with
  | |- follows _ (_ ≫= _) => apply follows_bind; [apply _| |intros ?]
  | |- follows _ (mret _) => apply follows_ret, _
  | |- follows _ stop => apply follows_stop, _
  | |- follows _ (need _) => apply follows_need, _
  | |- follows _ (require _) => apply follows_require, _
  | |- follows _ (modify _) => apply follows_modify; intros ?
  | |- follows _ (call _) => apply follows_call; intros ?
  | |- follows _ (forEach _ _) => apply follows_forEach; [apply _|intros ?]
  end.
