(* ===== verification/Deque.v ===== *)
(** * The double-ended queue the autoscaler's windows are built on

    [gammazero/deque] is third-party code, so it enters the development as an
    interface: [DequeOps] lists the methods the windows call ([option] is the
    panic of [Front], [PopFront], ... on an empty queue) and [DequeLaws] states
    their documented behaviour through the list of the queue's elements, front
    first. The windows are proved against the interface; [list_deque] is an
    instance on which the witnesses compute. *)
From S2P Require Import Prelude.
Local Open Scope Z_scope.

Class DequeOps (D : Type -> Type) := {
  dq_empty {A} : D A;
  dq_len {A} : D A -> Z;
  dq_front {A} : D A -> option A;
  dq_back {A} : D A -> option A;
  dq_at {A} : D A -> Z -> option A;
  dq_push_back {A} : D A -> A -> D A;
  dq_pop_front {A} : D A -> option (A * D A);
  dq_pop_back {A} : D A -> option (A * D A)
}.

Class DequeLaws (D : Type -> Type) `{DequeOps D} := {
  dq_list {A} : D A -> list A;
  dq_list_empty {A} : dq_list (dq_empty (A:=A)) = [];
  dq_len_spec {A} (d : D A) : dq_len d = Z.of_nat (length (dq_list d));
  dq_front_spec {A} (d : D A) : dq_front d = head (dq_list d);
  dq_back_spec {A} (d : D A) : dq_back d = last (dq_list d);
  dq_at_spec {A} (d : D A) (i : nat) : dq_at d (Z.of_nat i) = dq_list d !! i;
  dq_push_back_spec {A} (d : D A) x : dq_list (dq_push_back d x) = dq_list d ++ [x];
  dq_pop_front_spec {A} (d : D A) x l :
    dq_list d = x :: l -> exists d', dq_pop_front d = Some (x, d') /\ dq_list d' = l;
  dq_pop_back_spec {A} (d : D A) x l :
    dq_list d = l ++ [x] -> exists d', dq_pop_back d = Some (x, d') /\ dq_list d' = l
}.

#[export] Instance list_deque_ops : DequeOps list := {
  dq_empty A := [];
  dq_len A l := Z.of_nat (length l);
  dq_front A l := head l;
  dq_back A l := last l;
  dq_at A l i := if i <? 0 then None else l !! Z.to_nat i;
  dq_push_back A l x := l ++ [x];
  dq_pop_front A l := match l with [] => None | x :: l' => Some (x, l') end;
  dq_pop_back A l := match rev l with [] => None | x :: l' => Some (x, rev l') end
}.

#[export] Instance list_deque_laws : DequeLaws list.
Proof.
  refine {| dq_list A l := l |}; try done.
  - intros A d i. simpl. rewrite Nat2Z.id. by destruct (Z.ltb_spec (Z.of_nat i) 0); [lia|].
  - intros A d x l ->. by exists l.
  - intros A d x l ->. simpl. rewrite rev_unit. exists l. by rewrite rev_involutive.
Defined.

(** The two loops every window uses: pop from the front (the back) until an
    element satisfies [keep] or the queue is empty. The fuel is the queue's
    length, which every iteration that goes on decreases: [None] is a panic of
    the queue or the end of the fuel, and the lemmas show that neither
    happens. *)
Section loops.
Context {D : Type -> Type} `{DequeLaws D} {A : Type}.
Implicit Types d : D A.

Fixpoint pop_front_loop (keep : A -> bool) (fuel : nat) d : option (D A) :=
  match fuel with
  | O => None
  | S fuel =>
    if 0 <? dq_len d then
      x ← dq_front d;
      if keep x then Some d else '(_, d') ← dq_pop_front d; pop_front_loop keep fuel d'
    else Some d
  end.

Fixpoint pop_back_loop (keep : A -> bool) (fuel : nat) d : option (D A) :=
  match fuel with
  | O => None
  | S fuel =>
    if 0 <? dq_len d then
      x ← dq_back d;
      if keep x then Some d else '(_, d') ← dq_pop_back d; pop_back_loop keep fuel d'
    else Some d
  end.

Definition loop_fuel d : nat := S (Z.to_nat (dq_len d)).

Lemma pop_front_loop_fuel keep fuel d :
  (length (dq_list d) < fuel)%nat ->
  exists d', pop_front_loop keep fuel d = Some d' /\
             dq_list d' = drop_until keep (dq_list d).
Proof.
  revert d. induction fuel as [|fuel IH]; intros d Hf; [lia|]. simpl.
  rewrite dq_len_spec, dq_front_spec.
  destruct (dq_list d) as [|x l] eqn:E; simpl; [by exists d; rewrite E|].
  destruct (keep x); [by exists d; rewrite E|].
  destruct (dq_pop_front_spec d x l E) as (d' & -> & <-). simpl in *. apply IH. lia.
Qed.

Lemma pop_back_loop_fuel keep fuel d :
  (length (dq_list d) < fuel)%nat ->
  exists d', pop_back_loop keep fuel d = Some d' /\
             dq_list d' = drop_back_until keep (dq_list d).
Proof.
  revert d. induction fuel as [|fuel IH]; intros d Hf; [lia|]. simpl.
  rewrite dq_len_spec, dq_back_spec. unfold drop_back_until in *.
  destruct (dq_list d) as [|x l _] eqn:E using rev_ind; simpl; [by exists d; rewrite E|].
  rewrite length_app, last_snoc, rev_unit in *. simpl in *.
  destruct (Z.ltb_spec 0 (Z.of_nat (length l + 1))); [|lia].
  destruct (keep x) eqn:Ek; [exists d; by rewrite E; simpl; rewrite rev_involutive|].
  destruct (dq_pop_back_spec d x l E) as (d' & -> & <-). simpl in *. apply IH. lia.
Qed.

Lemma pop_front_loop_spec keep d :
  exists d', pop_front_loop keep (loop_fuel d) d = Some d' /\
             dq_list d' = drop_until keep (dq_list d).
Proof. apply pop_front_loop_fuel. unfold loop_fuel. rewrite dq_len_spec. lia. Qed.

Lemma pop_back_loop_spec keep d :
  exists d', pop_back_loop keep (loop_fuel d) d = Some d' /\
             dq_list d' = drop_back_until keep (dq_list d).
Proof. apply pop_back_loop_fuel. unfold loop_fuel. rewrite dq_len_spec. lia. Qed.
End loops.

#[global] Arguments pop_front_loop : simpl never.
#[global] Arguments pop_back_loop : simpl never.
