(* ===== verification/SlidingWindow.v ===== *)
(** * pkg/autoscaler/datastructure/sliding_window.go

    The three time windows the autoscaler keeps: [RmqRecordSlidingWindow] (the
    best recorded value still fresh), [RmqLineChartSlidingWindow] (the best
    value a step function took during the window) and
    [SnapshotSlidingWindow] (the last snapshot older than the window). Each
    method is translated with the clock ([getCurrentTimestamp]) read once and
    passed as [now]; the result type is [option], [None] being a panic of the
    underlying queue. The theorems relate every sequence of calls to the
    history of the values appended: [option] is always [Some], and the window
    answers what a scan of the whole history would. *)
From S2P Require Import Prelude Deque.
Local Open Scope Z_scope.

(** The [Number] constraint: what the windows use of a numeric type. *)
Class GoNumber (T : Type) := {
  num_zero : T;
  num_ltb : T -> T -> bool
}.

#[export] Instance int_number : GoNumber Z := {| num_zero := 0; num_ltb := Z.ltb |}.

Record snapshotRecord (T : Type) := SnapshotRecord { timestamp : Z; value : T }.
Arguments SnapshotRecord {T} _ _.
Arguments timestamp {T} _.
Arguments value {T} _.

Definition isFresh (freshMilliseconds currentTimestamp snapshotTimestamp : Z) : bool :=
  (currentTimestamp <=? int64 (snapshotTimestamp + freshMilliseconds)).

Definition better_max {T} `{GoNumber T} (me other : T) : bool := num_ltb other me.
Definition better_min {T} `{GoNumber T} (me other : T) : bool := num_ltb me other.

Module RmqRecord.
Section window.
Context {D : Type -> Type} `{DequeLaws D} {T : Type} `{GoNumber T}.

Record RmqRecordSlidingWindow := Window {
  pool : D (snapshotRecord T);
  freshMilliseconds : Z;
  isBetter : T -> T -> bool
}.

Definition NewMaximumRecordSlidingWindow (freshMilliseconds : Z) :=
  Window dq_empty freshMilliseconds better_max.
Definition NewMinimumRecordSlidingWindow (freshMilliseconds : Z) :=
  Window dq_empty freshMilliseconds better_min.

Definition set_pool (w : RmqRecordSlidingWindow) p :=
  Window p (freshMilliseconds w) (isBetter w).

Definition expire (w : RmqRecordSlidingWindow) (currentTimestamp : Z) :
    option RmqRecordSlidingWindow :=
  p ← pop_front_loop (fun r => isFresh (freshMilliseconds w) currentTimestamp (timestamp r))
        (loop_fuel (pool w)) (pool w);
  Some (set_pool w p).

Definition Append (w : RmqRecordSlidingWindow) (now : Z) (v : T) :
    option RmqRecordSlidingWindow :=
  w ← expire w now;
  p ← pop_back_loop (fun r => isBetter w (value r) v) (loop_fuel (pool w)) (pool w);
  Some (set_pool w (dq_push_back p (SnapshotRecord now v))).

Definition GetBest (w : RmqRecordSlidingWindow) (now : Z) :
    option (RmqRecordSlidingWindow * (T * bool)) :=
  w ← expire w now;
  if (dq_len (pool w) =? 0) || (freshMilliseconds w =? 0) then Some (w, (num_zero, false))
  else r ← dq_front (pool w); Some (w, (value r, true)).
End window.
Arguments RmqRecordSlidingWindow D T : clear implicits.
End RmqRecord.

Module RmqLineChart.
Section window.
Context {D : Type -> Type} `{DequeLaws D} {T : Type} `{GoNumber T}.

Record RmqLineChartSlidingWindow := Window {
  pool : D (snapshotRecord T);
  freshMilliseconds : Z;
  driftingValue : T;
  driftTimestamp : Z;
  maxDriftingMilliseconds : Z;
  isBetter : T -> T -> bool
}.

Definition NewMaximumLineChartSlidingWindow (freshMilliseconds : Z) :=
  Window dq_empty freshMilliseconds num_zero 0 (int64 (freshMilliseconds * 2)) better_max.
Definition NewMinimumLineChartSlidingWindow (freshMilliseconds : Z) :=
  Window dq_empty freshMilliseconds num_zero 0 (int64 (freshMilliseconds * 2)) better_min.

Definition set_pool (w : RmqLineChartSlidingWindow) p :=
  Window p (freshMilliseconds w) (driftingValue w) (driftTimestamp w)
    (maxDriftingMilliseconds w) (isBetter w).
Definition set_drift (w : RmqLineChartSlidingWindow) v ts :=
  Window (pool w) (freshMilliseconds w) v ts (maxDriftingMilliseconds w) (isBetter w).

Definition expire (w : RmqLineChartSlidingWindow) (currentTimestamp : Z) :
    option RmqLineChartSlidingWindow :=
  p ← pop_front_loop (fun r => isFresh (freshMilliseconds w) currentTimestamp (timestamp r))
        (loop_fuel (pool w)) (pool w);
  let w := set_pool w p in
  if negb (isFresh (maxDriftingMilliseconds w) currentTimestamp (driftTimestamp w))
  then Some (set_drift w (driftingValue w) 0)
  else Some w.

Definition Append (w : RmqLineChartSlidingWindow) (now : Z) (v : T) :
    option RmqLineChartSlidingWindow :=
  w ← expire w now;
  w ← (if 0 <? driftTimestamp w then
         p ← pop_back_loop (fun r => isBetter w (value r) (driftingValue w))
               (loop_fuel (pool w)) (pool w);
         Some (set_pool w (dq_push_back p (SnapshotRecord now (driftingValue w))))
       else Some w);
  Some (set_drift w v now).

Definition GetBest (w : RmqLineChartSlidingWindow) (now : Z) (currentValue : T) :
    option (RmqLineChartSlidingWindow * (T * bool)) :=
  if freshMilliseconds w =? 0 then Some (w, (num_zero, false))
  else
    w ← expire w now;
    let v := currentValue in
    let v := if (0 <? driftTimestamp w) && isBetter w (driftingValue w) v
             then driftingValue w else v in
    if 0 <? dq_len (pool w) then
      front ← dq_front (pool w);
      let v := if isBetter w (value front) v then value front else v in
      Some (w, (v, true))
    else Some (w, (v, true)).
End window.
Arguments RmqLineChartSlidingWindow D T : clear implicits.
End RmqLineChart.

Module Snapshot.
Section window.
Context {D : Type -> Type} `{DequeLaws D} {T : Type} `{!Inhabited T}.

Record SnapshotSlidingWindow := Window {
  pool : D (snapshotRecord T);
  freshMilliseconds : Z;
  expireMilliseconds : Z
}.

Definition NewSnapshotSlidingWindow (freshMilliseconds expireMilliseconds : Z) :=
  Window dq_empty freshMilliseconds expireMilliseconds.

(** The second loop of [expire]: while the element after the front is no
    longer fresh, drop the front. *)
Fixpoint drop_stale_loop (fresh now : Z) (fuel : nat) (p : D (snapshotRecord T)) :
    option (D (snapshotRecord T)) :=
  match fuel with
  | O => None
  | S fuel =>
    if 1 <? dq_len p then
      r ← dq_at p 1;
      if isFresh fresh now (timestamp r) then Some p
      else '(_, p') ← dq_pop_front p; drop_stale_loop fresh now fuel p'
    else Some p
  end.

Definition expire (w : SnapshotSlidingWindow) (currentTimestamp : Z) :
    option SnapshotSlidingWindow :=
  p ← pop_front_loop (fun r => isFresh (expireMilliseconds w) currentTimestamp (timestamp r))
        (loop_fuel (pool w)) (pool w);
  p ← drop_stale_loop (freshMilliseconds w) currentTimestamp (loop_fuel p) p;
  Some (Window p (freshMilliseconds w) (expireMilliseconds w)).

Definition Append (w : SnapshotSlidingWindow) (now : Z) (v : T) :
    option SnapshotSlidingWindow :=
  w ← expire w now;
  Some (Window (dq_push_back (pool w) (SnapshotRecord now v))
          (freshMilliseconds w) (expireMilliseconds w)).

Definition GetLastUnfreshSnapshot (w : SnapshotSlidingWindow) (now : Z) :
    option (SnapshotSlidingWindow * (T * bool)) :=
  if freshMilliseconds w =? 0 then Some (w, (inhabitant, false))
  else
    w ← expire w now;
    if dq_len (pool w) =? 0 then Some (w, (inhabitant, false))
    else
      front ← dq_front (pool w);
      if isFresh (freshMilliseconds w) now (timestamp front) then Some (w, (inhabitant, false))
      else Some (w, (value front, true)).
End window.
Arguments SnapshotSlidingWindow D T : clear implicits.
End Snapshot.

(** ** The monotone pool

    Both [Rmq] windows keep their pool as the records of a history that are
    fresh and strictly better than everything appended after them. *)
Definition time_ok (t : Z) : Prop := 0 < t < 2 ^ 61.
Definition duration_ok (d : Z) : Prop := 0 <= d < 2 ^ 61.

Lemma isFresh_spec F now t :
  0 <= F < 2 ^ 62 -> 0 <= t < 2 ^ 61 -> isFresh F now t = true <-> now <= t + F.
Proof. intros. unfold isFresh. rewrite int64_id by go_lia. lia. Qed.

Lemma isFresh_false F now t :
  0 <= F < 2 ^ 62 -> 0 <= t < 2 ^ 61 -> isFresh F now t = false <-> t + F < now.
Proof. intros. rewrite <- not_true_iff_false, isFresh_spec by done. lia. Qed.

#[export] Instance better_max_swo {T} `{GoNumber T} :
  StrictWeakOrder num_ltb -> StrictWeakOrder (better_max (T:=T)).
Proof.
  intros HO. split; unfold better_max.
  - apply swo_irrefl.
  - intros x y z Hxy Hyz. by eapply swo_trans.
  - intros x y z Hxy Hyz. by eapply swo_neg_trans.
Qed.

#[export] Instance better_min_swo {T} `{GoNumber T} :
  StrictWeakOrder num_ltb -> StrictWeakOrder (better_min (T:=T)).
Proof. intros HO. split; unfold better_min; apply HO. Qed.

#[export] Instance int_number_swo : StrictWeakOrder (num_ltb (T:=Z)).
Proof. apply Zltb_swo. Qed.

Section rmq_pool.
Context {T : Type} (better : T -> T -> bool) `{!StrictWeakOrder better}.
Context (F : Z) (F_ok : duration_ok F).
Implicit Types (h p : list (snapshotRecord T)).

Definition staircase (r s : snapshotRecord T) : Prop :=
  timestamp r <= timestamp s /\ better (value r) (value s) = true.

Record rmq_inv h p (now : Z) : Prop := {
  inv_sub r : r ∈ p -> r ∈ h;
  inv_sorted : StronglySorted staircase p;
  inv_times r : r ∈ h -> time_ok (timestamp r) /\ timestamp r <= now;
  inv_dom r : r ∈ h -> isFresh F now (timestamp r) = true ->
    exists s, s ∈ p /\ timestamp r <= timestamp s /\ better (value r) (value s) = false
}.

Lemma rmq_inv_empty now : rmq_inv [] [] now.
Proof. split; [set_solver|constructor|set_solver|set_solver]. Qed.

Lemma fresh_mono t t' now now' :
  time_ok t -> time_ok t' -> t <= t' -> now' <= now ->
  isFresh F now t = true -> isFresh F now' t' = true.
Proof. unfold time_ok, duration_ok in *. intros. rewrite isFresh_spec in *; lia. Qed.

Lemma rmq_inv_mono h p now now' : rmq_inv h p now -> now <= now' -> rmq_inv h p now'.
Proof.
  intros [Hsub Hsort Ht Hdom] Hle. split; [done|done| |].
  - intros r Hr. destruct (Ht r Hr). split; [done|lia].
  - intros r Hr Hf. apply Hdom; [done|].
    eapply (fresh_mono (timestamp r) _ now' now); [..|exact Hf]; try lia; by apply Ht.
Qed.

Lemma rmq_inv_expire h p now now' :
  rmq_inv h p now -> now <= now' ->
  rmq_inv h (drop_until (fun r => isFresh F now' (timestamp r)) p) now' /\
  Forall (fun r => isFresh F now' (timestamp r) = true)
    (drop_until (fun r => isFresh F now' (timestamp r)) p).
Proof.
  intros [Hsub Hsort Ht Hdom] Hnow. set (keep := fun r => _).
  assert (Hupd : forall r s : snapshotRecord T,
    staircase r s /\ r ∈ p /\ s ∈ p -> keep r = true -> keep s = true).
  { intros r s ([Hrs _] & Hr & Hs). apply fresh_mono; try lia;
      (apply Ht; by apply Hsub). }
  assert (Hdf : drop_until keep p = filter (fun r => keep r = true) p).
  { eapply drop_until_filter; [|exact Hupd].
    eapply StronglySorted_strengthen; [exact Hsort|]. auto. }
  split; [split|].
  - intros r. rewrite Hdf, list_elem_of_filter. naive_solver.
  - destruct (drop_until_suffix keep p) as (l1 & E & _). rewrite E in Hsort.
    by apply StronglySorted_app_inv in Hsort as (_ & ? & _).
  - intros r Hr. destruct (Ht r Hr). split; [done|lia].
  - intros r Hr Hf. destruct (Hdom r Hr) as (s & Hs & Hts & Hb).
    { eapply (fresh_mono (timestamp r) _ now' now); [..|exact Hf]; try lia; by apply Ht. }
    exists s. split_and!; [|done|done]. rewrite Hdf, list_elem_of_filter. split; [|done].
    eapply (fresh_mono (timestamp r) _ now' now'); [..|exact Hf]; try lia; [by apply Ht|].
    apply Ht, Hsub, Hs.
  - rewrite Hdf. apply Forall_forall. intros r. rewrite list_elem_of_filter. by intros [? _].
Qed.

Lemma rmq_inv_push h p now v :
  rmq_inv h p now -> time_ok now ->
  rmq_inv (h ++ [SnapshotRecord now v])
    (drop_back_until (fun r => better (value r) v) p ++ [SnapshotRecord now v]) now.
Proof.
  intros [Hsub Hsort Ht Hdom] Hnow. set (keep := fun r => _).
  destruct (drop_back_until_prefix keep p) as (l2 & E & Hl2).
  set (q := drop_back_until keep p) in *.
  assert (Hkeep : forall r, r ∈ q -> better (value r) v = true).
  { intros r Hr. destruct q as [|x q' _] eqn:Eq using rev_ind; [set_solver|].
    pose proof (drop_back_until_last keep p x q' Eq) as Hx. unfold keep in Hx.
    rewrite E in Hsort. apply StronglySorted_app_inv in Hsort as (Hq & _ & _).
    apply StronglySorted_app_inv in Hq as (_ & _ & Hq).
    apply elem_of_app in Hr as [Hr|Hr]; [|set_solver].
    destruct (Hq r x Hr) as [_ Hb]; [set_solver|]. by eapply swo_trans. }
  rewrite E in Hsort. apply StronglySorted_app_inv in Hsort as (Hq & _ & _).
  split.
  - intros r. rewrite !elem_of_app. intros [Hr|Hr]; [left|by right].
    apply Hsub. rewrite E. set_solver.
  - apply StronglySorted_app_intro; [done|by repeat constructor|].
    intros r s Hr Hs. apply list_elem_of_singleton in Hs as ->. split; [|by apply Hkeep].
    simpl. apply (Ht r), Hsub. rewrite E. set_solver.
  - intros r [Hr|Hr]%elem_of_app; [by apply Ht|].
    apply list_elem_of_singleton in Hr as ->. simpl. split; [done|lia].
  - intros r [Hr|Hr]%elem_of_app Hf.
    + destruct (Hdom r Hr Hf) as (s & Hs & Hts & Hb). rewrite E in Hs.
      apply elem_of_app in Hs as [Hs|Hs]; [exists s; set_solver|].
      rewrite Forall_forall in Hl2. pose proof (Hl2 s Hs) as Hv. unfold keep in Hv.
      exists (SnapshotRecord now v). split_and!; [set_solver|simpl; by apply Ht|].
      simpl. by eapply swo_neg_trans.
    + apply list_elem_of_singleton in Hr as ->. exists (SnapshotRecord now v).
      split_and!; [set_solver|done|apply swo_irrefl].
Qed.

Lemma history_fresh h p now :
  rmq_inv h p now -> forall s, s ∈ h ->
  isFresh F now (timestamp s) = true <-> now <= timestamp s + F.
Proof.
  intros Hinv s Hs. destruct (inv_times _ _ _ Hinv s Hs).
  unfold time_ok, duration_ok in *. apply isFresh_spec; lia.
Qed.

(** The front of the pool is the best fresh record of the history. *)
Lemma rmq_inv_front h p now r l :
  rmq_inv h p now -> p = r :: l ->
  forall s, s ∈ h -> isFresh F now (timestamp s) = true -> better (value s) (value r) = false.
Proof.
  intros [_ Hsort _ Hdom] -> s Hs Hf. destruct (Hdom s Hs Hf) as (x & Hx & _ & Hb).
  inversion Hsort as [|? ? _ Hr]; subst. apply elem_of_cons in Hx as [->|Hx]; [done|].
  rewrite Forall_forall in Hr. destruct (Hr x Hx) as [_ Hrx].
  by apply (swo_lt_false_trans better _ (value x)).
Qed.

Lemma rmq_inv_nil h now :
  rmq_inv h [] now -> forall s, s ∈ h -> isFresh F now (timestamp s) = false.
Proof.
  intros [_ _ _ Hdom] s Hs. destruct (isFresh F now (timestamp s)) eqn:E; [|done].
  destruct (Hdom s Hs E). set_solver.
Qed.
End rmq_pool.

(** ** [RmqRecordSlidingWindow]: the best fresh record *)
Section record_window.
Context {D : Type -> Type} `{DequeLaws D} {T : Type} `{GoNumber T}.
Import RmqRecord.

Inductive record_op := rec_append (v : T) | rec_best.

Definition record_step (now : Z) (op : record_op) (w : RmqRecordSlidingWindow D T) :
    option (RmqRecordSlidingWindow D T * (T * bool)) :=
  match op with
  | rec_append v => w ← Append w now v; Some (w, (num_zero, false))
  | rec_best => GetBest w now
  end.

(** The history: the values appended, with the time of the call. *)
Definition record_history (tr : list (Z * record_op)) : list (snapshotRecord T) :=
  omap (fun '(t, op) => match op with
                        | rec_append v => Some (SnapshotRecord t v)
                        | rec_best => None
                        end) tr.

(** What a scan of the whole history answers at time [now]. *)
Definition best_answer (better : T -> T -> bool) (F now : Z)
    (h : list (snapshotRecord T)) (ans : T * bool) : Prop :=
  let fresh r := now <= timestamp r + F in
  match ans with
  | (v, true) => F <> 0 /\ (exists r, r ∈ h /\ fresh r /\ value r = v) /\
                 (forall s, s ∈ h -> fresh s -> better (value s) v = false)
  | (v, false) => v = num_zero /\ (F = 0 \/ forall s, s ∈ h -> ~ fresh s)
  end.

Definition record_inv better F (h : list (snapshotRecord T)) now w : Prop :=
  isBetter w = better /\ freshMilliseconds w = F /\
  rmq_inv better F h (dq_list (pool w)) now.

Context (better : T -> T -> bool) `{!StrictWeakOrder better}.
Context (F : Z) (F_ok : duration_ok F).

Lemma record_expire h now w t :
  record_inv better F h now w -> now <= t ->
  exists w', expire w t = Some w' /\ record_inv better F h t w' /\
    Forall (fun r => isFresh F t (timestamp r) = true) (dq_list (pool w')).
Proof.
  intros (Hb & HF & Hinv) Ht. unfold expire. rewrite HF.
  destruct (pop_front_loop_spec (fun r => isFresh F t (timestamp r)) (pool w))
    as (p & -> & Hp). simpl.
  destruct (rmq_inv_expire better F F_ok _ _ now t Hinv Ht) as [Hi Hf].
  rewrite <- Hp in Hi, Hf. eexists. split; [done|]. by split_and!.
Qed.

Lemma record_best h now w t :
  record_inv better F h now w -> now <= t -> time_ok t ->
  exists w' ans, GetBest w t = Some (w', ans) /\ record_inv better F h t w' /\
    best_answer better F t h ans.
Proof.
  intros Hinv Ht Hok. unfold GetBest.
  destruct (record_expire h now w t Hinv Ht) as (w1 & -> & Hi & Hf). simpl.
  pose proof Hi as (Hb & HF & Hr). rewrite HF, dq_len_spec, dq_front_spec.
  pose proof (history_fresh better F F_ok _ _ _ Hr) as Hfresh.
  destruct (dq_list (pool w1)) as [|r l] eqn:E; simpl.
  - exists w1, (num_zero, false). split_and!; [done|done|]. split; [done|]. right.
    intros s Hs. rewrite <- Hfresh by done.
    apply not_true_iff_false. by eapply rmq_inv_nil.
  - destruct (Z.eqb_spec F 0) as [->|HF0]; simpl.
    + exists w1, (num_zero, false). split_and!; [done|done|]. split; [done|by left].
    + exists w1, (value r, true). split_and!; [done|done|]. simpl.
      assert (r ∈ h) as Hrh.
      { apply (inv_sub _ _ _ _ _ Hr). apply elem_of_cons. by left. }
      split_and!; [done| |].
      * exists r. split_and!; [done| |done]. apply Hfresh; [done|].
        by inversion Hf.
      * intros s Hs Hsf. apply Hfresh in Hsf; [|done].
        by eapply (rmq_inv_front better F).
Qed.

Lemma record_inv_mono h now w t :
  record_inv better F h now w -> now <= t -> record_inv better F h t w.
Proof. intros (Hb & HF & Hr) Ht. split_and!; [done|done|]. by eapply rmq_inv_mono. Qed.

Lemma record_append h now w t v :
  record_inv better F h now w -> now <= t -> time_ok t ->
  exists w', Append w t v = Some w' /\ record_inv better F (h ++ [SnapshotRecord t v]) t w'.
Proof.
  intros Hinv Ht Hok. unfold Append.
  destruct (record_expire h now w t Hinv Ht) as (w1 & -> & Hi & _). simpl.
  destruct Hi as (Hb & HF & Hr). rewrite Hb.
  destruct (pop_back_loop_spec (fun r => better (value r) v) (pool w1)) as (p & -> & Hp).
  simpl. eexists. split; [done|]. split_and!; [done|done|].
  simpl. rewrite dq_push_back_spec, Hp. by apply rmq_inv_push.
Qed.

Lemma record_step_inv h now w t op :
  record_inv better F (record_history h) now w -> now <= t -> time_ok t ->
  exists w' o, record_step t op w = Some (w', o) /\
               record_inv better F (record_history (h ++ [(t, op)])) t w'.
Proof.
  intros Hinv Ht Hok. unfold record_history. rewrite omap_app.
  destruct op as [v|]; cbn [record_step omap list_omap].
  - destruct (record_append _ now w t v Hinv Ht Hok) as (w' & -> & Hi). simpl.
    eexists _, _. split; [done|exact Hi].
  - destruct (record_best _ now w t Hinv Ht Hok) as (w' & ans & -> & Hi & _).
    exists w', ans. rewrite app_nil_r. by split.
Qed.
Lemma record_inv_new now :
  record_inv better F [] now (Window dq_empty F better).
Proof. split_and!; [done|done|]. simpl. rewrite dq_list_empty. by apply rmq_inv_empty. Qed.
End record_window.

(** C36: for every sequence of calls on a new record window, at
    non-decreasing times, no call panics, and [GetBest] answers what a scan of
    the whole history of appended values answers: the value of a record still
    fresh that no fresh record beats, or nothing when no record is fresh (or
    the window has no length). The popping [Append] does from the back of the
    pool never loses the answer. *)
Theorem record_window_refines_history {D : Type -> Type} `{DequeLaws D} {T} `{GoNumber T}
    (F now : Z) (w0 : RmqRecord.RmqRecordSlidingWindow D T) better (tr : list (Z * record_op)) :
  StrictWeakOrder (num_ltb (T:=T)) -> duration_ok F ->
  (w0 = RmqRecord.NewMaximumRecordSlidingWindow F /\ better = better_max) \/
  (w0 = RmqRecord.NewMinimumRecordSlidingWindow F /\ better = better_min) ->
  clock_ok time_ok 0 tr -> last_time 0 tr <= now -> time_ok now ->
  exists w outs w' ans,
    run record_step tr w0 = Some (w, outs) /\
    RmqRecord.GetBest w now = Some (w', ans) /\
    best_answer better F now (record_history tr) ans.
Proof.
  intros HO HF Hw Hc Hl Hnow.
  assert (StrictWeakOrder better /\ record_inv better F [] 0 w0) as [HB Hnew].
  { destruct Hw as [[-> ->]|[-> ->]]; (split; [apply _|]); by apply record_inv_new; try apply _. }
  destruct (run_invariant record_step time_ok (fun h => record_inv better F (record_history h))
    (record_step_inv better F HF) tr [] 0 w0 Hnew Hc) as (w & outs & Hrun & Hinv).
  destruct (record_best better F HF _ _ w now Hinv Hl Hnow) as (w' & ans & Hg & _ & Ha).
  by exists w, outs, w', ans.
Qed.

Lemma record_window_refines_history_witness :
  exists w outs w' ans,
    run record_step [(10, rec_append 4); (20, rec_append 9); (30, rec_append 7); (45, rec_best)]
      (RmqRecord.NewMaximumRecordSlidingWindow (D:=list) 20) = Some (w, outs) /\
    RmqRecord.GetBest w 45 = Some (w', ans) /\
    best_answer better_max 20 45
      (record_history
         [(10, rec_append 4); (20, rec_append 9); (30, rec_append 7); (45, rec_best)]) ans.
Proof.
  apply (record_window_refines_history 20 45 _ _
    [(10, rec_append 4); (20, rec_append 9); (30, rec_append 7); (45, rec_best)]);
    [apply _|by compute_ok|by left|by compute_ok..].
Defined.

(** ** [RmqLineChartSlidingWindow]: the best value of a step function *)

(** The code's [if isBetter(x, y) { y = x }]. *)
Definition pick {T} (better : T -> T -> bool) (x y : T) : T := if better x y then x else y.

Section pick.
Context {T : Type} (better : T -> T -> bool) `{!StrictWeakOrder better}.

Lemma pick_not_worse_l u x y : better u x = false -> better u (pick better x y) = false.
Proof.
  intros Hu. unfold pick. destruct (better x y) eqn:E; [done|]. by eapply swo_neg_trans.
Qed.

Lemma pick_not_worse_r u x y : better u y = false -> better u (pick better x y) = false.
Proof.
  intros Hu. unfold pick. destruct (better x y) eqn:E; [|done].
  by apply (swo_lt_false_trans better _ y).
Qed.
End pick.

Section line_window.
Context {D : Type -> Type} `{DequeLaws D} {T : Type} `{GoNumber T}.
Import RmqLineChart.

Inductive line_op := line_append (v : T) | line_best (currentValue : T).

Definition line_step (now : Z) (op : line_op) (w : RmqLineChartSlidingWindow D T) :
    option (RmqLineChartSlidingWindow D T * (T * bool)) :=
  match op with
  | line_append v => w ← Append w now v; Some (w, (num_zero, false))
  | line_best cur => GetBest w now cur
  end.

Definition line_history (tr : list (Z * line_op)) : list (Z * T) :=
  omap (fun '(t, op) => match op with
                        | line_append v => Some (t, v)
                        | line_best _ => None
                        end) tr.

(** The closed pieces of the step function: [v1], appended at [t1], held
    until the next call of [Append], at [t2]; a piece longer than twice the
    window counts as a gap in the data and is left out. *)
Fixpoint segments (F : Z) (h : list (Z * T)) : list (snapshotRecord T) :=
  match h with
  | (t1, v1) :: (((t2, _) :: _) as h') =>
    (if t2 <=? t1 + 2 * F then [SnapshotRecord t2 v1] else []) ++ segments F h'
  | _ => []
  end.

(** The value still in effect at [now], if it is not too old. *)
Definition open_piece (F now : Z) (h : list (Z * T)) : list T :=
  match last h with
  | Some (t, v) => if now <=? t + 2 * F then [v] else []
  | None => []
  end.

(** The values the step function took during the last [F] milliseconds. *)
Definition candidates (F now : Z) (cur : T) (h : list (Z * T)) : list T :=
  cur :: open_piece F now h ++
  (value <$> filter (fun r => now <= timestamp r + F) (segments F h)).

Definition line_answer (better : T -> T -> bool) (F now : Z) (cur : T)
    (h : list (Z * T)) (ans : T * bool) : Prop :=
  if F =? 0 then ans = (num_zero, false)
  else exists v, ans = (v, true) /\ v ∈ candidates F now cur h /\
                 forall u, u ∈ candidates F now cur h -> better u v = false.

Lemma segments_snoc F h t v :
  segments F (h ++ [(t, v)]) =
  segments F h ++ match last h with
                  | Some (t1, v1) => if t <=? t1 + 2 * F then [SnapshotRecord t v1] else []
                  | None => []
                  end.
Proof.
  induction h as [|[t1 v1] h IH]; [done|]. destruct h as [|[t2 v2] h].
  - simpl. by rewrite app_nil_r.
  - change (segments F (((t1, v1) :: (t2, v2) :: h) ++ [(t, v)])) with
      ((if t2 <=? t1 + 2 * F then [SnapshotRecord t2 v1] else []) ++
       segments F (((t2, v2) :: h) ++ [(t, v)])).
    rewrite IH, app_assoc. done.
Qed.

Definition drift_inv (F : Z) (h : list (Z * T)) (now : Z)
    (w : RmqLineChartSlidingWindow D T) : Prop :=
  match last h with
  | Some (t, v) => time_ok t /\ t <= now /\
      ((driftTimestamp w = t /\ driftingValue w = v) \/
       (driftTimestamp w = 0 /\ t + 2 * F < now))
  | None => driftTimestamp w = 0
  end.

Definition line_inv better F (h : list (Z * T)) now w : Prop :=
  isBetter w = better /\ freshMilliseconds w = F /\ maxDriftingMilliseconds w = 2 * F /\
  rmq_inv better F (segments F h) (dq_list (pool w)) now /\
  drift_inv F h now w.

(** After [expire] the drifting value is the open piece. *)
Definition drift_exact (F : Z) (h : list (Z * T)) (now : Z)
    (w : RmqLineChartSlidingWindow D T) : Prop :=
  open_piece F now h = if 0 <? driftTimestamp w then [driftingValue w] else [].

Context (better : T -> T -> bool) `{!StrictWeakOrder better}.
Context (F : Z) (F_ok : duration_ok F).

Lemma line_expire h now w t :
  line_inv better F h now w -> now <= t -> time_ok t ->
  exists w', expire w t = Some w' /\ line_inv better F h t w' /\
    drift_exact F h t w' /\
    Forall (fun r => isFresh F t (timestamp r) = true) (dq_list (pool w')).
Proof.
  intros (Hb & HF & HM & Hinv & Hd) Ht Hok. unfold expire. rewrite HF.
  destruct (pop_front_loop_spec (fun r => isFresh F t (timestamp r)) (pool w))
    as (p & -> & Hp). simpl.
  destruct (rmq_inv_expire better F F_ok _ _ now t Hinv Ht) as [Hi Hf].
  rewrite <- Hp in Hi, Hf. rewrite HM.
  assert (HFb : 0 <= 2 * F < 2 ^ 62) by (unfold duration_ok in *; lia).
  unfold drift_inv in Hd. unfold line_inv, drift_inv, drift_exact, open_piece.
  destruct (last h) as [[t1 v1]|].
  - destruct Hd as (Ht1 & Ht1n & Hd). unfold time_ok in *.
    destruct (isFresh (2 * F) t (driftTimestamp w)) eqn:E; simpl.
    + rewrite isFresh_spec in E by lia. eexists. split; [done|]. simpl.
      destruct Hd as [[Hdt Hdv]|[Hdt Hlt]]; rewrite Hdt, ?Hdv in *.
      * split_and!; try done; try lia; [by left|].
        destruct (Z.leb_spec t (t1 + 2 * F)); [|lia]. by destruct (Z.ltb_spec 0 t1); [|lia].
      * lia.
    + rewrite isFresh_false in E by (destruct Hd as [[? _]|[? _]]; lia).
      eexists. split; [done|]. simpl.
      assert (t1 + 2 * F < t) by (destruct Hd as [[E1 _]|[_ ?]]; lia).
      split_and!; try done; try lia.
      by destruct (Z.leb_spec t (t1 + 2 * F)); [lia|].
  - assert (negb (isFresh (2 * F) t (driftTimestamp w)) = true ->
      driftTimestamp w = 0) by done.
    destruct (negb _); eexists; (split; [done|]); simpl; rewrite ?Hd; by split_and!.
Qed.

Lemma line_inv_mono h now w t :
  line_inv better F h now w -> now <= t -> line_inv better F h t w.
Proof.
  intros (Hb & HF & HM & Hi & Hd) Ht. split_and!; [done|done|done| |].
  - by eapply rmq_inv_mono.
  - unfold drift_inv in *. destruct (last h) as [[t1 v1]|]; [|done].
    destruct Hd as (? & ? & Hd). split_and!; [done|lia|].
    destruct Hd as [?|[? ?]]; [by left|right; lia].
Qed.

(** The first comparison of [GetBest]: the current value against the value
    in effect. *)
Lemma drift_pick (drifting : bool) (dv cur : T) :
  let v1 := if drifting && better dv cur then dv else cur in
  let dr := if drifting then [dv] else [] in
  v1 ∈ cur :: dr /\ forall u, u ∈ cur :: dr -> better u v1 = false.
Proof.
  destruct drifting; simpl.
  - change (if better dv cur then dv else cur) with (pick better dv cur). split.
    + unfold pick. destruct (better _ _); set_solver.
    + intros u [->|[->|[]%not_elem_of_nil]%elem_of_cons]%elem_of_cons.
      * apply pick_not_worse_r; [done|apply swo_irrefl].
      * apply pick_not_worse_l; [done|apply swo_irrefl].
  - split; [set_solver|]. intros u ->%list_elem_of_singleton. apply swo_irrefl.
Qed.

Lemma line_best_step h now w t cur :
  line_inv better F h now w -> now <= t -> time_ok t ->
  exists w' ans, GetBest w t cur = Some (w', ans) /\ line_inv better F h t w' /\
    line_answer better F t cur h ans.
Proof.
  intros Hinv Ht Hok. unfold GetBest, line_answer.
  pose proof Hinv as (Hb & HF & HM & Hi & Hd). rewrite HF.
  destruct (Z.eqb_spec F 0) as [E0|HF0].
  { exists w, (num_zero, false). split_and!; [done| |done]. by eapply line_inv_mono. }
  destruct (line_expire h now w t Hinv Ht Hok) as (w1 & -> & Hinv1 & Hex & Hf). simpl.
  destruct Hinv1 as (Hb1 & HF1 & HM1 & Hi1 & Hd1).
  unfold drift_exact in Hex. unfold candidates. rewrite Hex, dq_len_spec, dq_front_spec, Hb1.
  destruct (drift_pick (0 <? driftTimestamp w1) (driftingValue w1) cur) as [Hv1 Hv1m].
  set (dr := if 0 <? driftTimestamp w1 then _ else _) in *.
  set (v1 := if (0 <? driftTimestamp w1) && _ then _ else _) in *. clearbody v1 dr.
  pose proof (history_fresh better F F_ok _ _ _ Hi1) as Hseg.
  destruct (dq_list (pool w1)) as [|r l] eqn:E; simpl.
  - exists w1, (v1, true). split_and!; [done|by rewrite <- E in *; split_and!|].
    exists v1. split_and!; [done|set_solver|]. intros u Hu.
    apply elem_of_cons in Hu as [->|[Hu|Hu]%elem_of_app]; [apply Hv1m; set_solver..|].
    apply list_elem_of_fmap in Hu as (s & -> & Hs). apply list_elem_of_filter in Hs as [Hs1 Hs2].
    apply Hseg in Hs1; [|done]. exfalso.
    assert (isFresh F t (timestamp s) = false) by (by eapply rmq_inv_nil). congruence.
  - change (if better (value r) v1 then value r else v1) with (pick better (value r) v1).
    exists w1, (pick better (value r) v1, true).
    split_and!; [done|by rewrite <- E in *; split_and!|].
    assert (r ∈ segments F h) as Hrs.
    { apply (inv_sub _ _ _ _ _ Hi1). apply elem_of_cons. by left. }
    assert (t <= timestamp r + F) as Hrf.
    { apply Hseg; [done|]. by inversion Hf. }
    eexists. split_and!; [done| |].
    + unfold pick. destruct (better _ _); [|set_solver].
      apply elem_of_cons. right. apply elem_of_app. right.
      apply list_elem_of_fmap. exists r. split; [done|]. by apply list_elem_of_filter.
    + intros u Hu. apply elem_of_cons in Hu as [->|[Hu|Hu]%elem_of_app].
      * apply pick_not_worse_r; [done|]. apply Hv1m. set_solver.
      * apply pick_not_worse_r; [done|]. apply Hv1m. set_solver.
      * apply pick_not_worse_l; [done|].
        apply list_elem_of_fmap in Hu as (s & -> & [Hs1 Hs2]%list_elem_of_filter).
        eapply (rmq_inv_front better F); [done|done|done|]. by apply Hseg.
Qed.

Lemma line_append_inv h now w t v :
  line_inv better F h now w -> now <= t -> time_ok t ->
  exists w', Append w t v = Some w' /\ line_inv better F (h ++ [(t, v)]) t w'.
Proof.
  intros Hinv Ht Hok. unfold Append.
  destruct (line_expire h now w t Hinv Ht Hok) as (w1 & -> & Hinv1 & Hex & _). simpl.
  destruct Hinv1 as (Hb & HF & HM & Hi & _).
  unfold line_inv. rewrite segments_snoc. unfold drift_exact, open_piece in Hex.
  set (tl := match last h with Some _ => _ | None => _ end).
  assert (Htl : tl = if 0 <? driftTimestamp w1
                     then [SnapshotRecord t (driftingValue w1)] else []).
  { unfold tl. destruct (last h) as [[t1 v1]|];
      [destruct (t <=? t1 + 2 * F)|]; destruct (0 <? driftTimestamp w1); congruence. }
  rewrite Htl. clear tl Htl Hex. destruct (0 <? driftTimestamp w1); simpl.
  - rewrite Hb.
    destruct (pop_back_loop_spec (fun r => better (value r) (driftingValue w1)) (pool w1))
      as (p & -> & Hp). simpl.
    eexists. split; [done|]. split_and!; [done|done|done| |].
    + simpl. rewrite dq_push_back_spec, Hp. by apply rmq_inv_push.
    + unfold drift_inv. rewrite last_snoc. split_and!; [done|lia|by left].
  - rewrite app_nil_r. eexists. split; [done|]. split_and!; [done|done|done|done|].
    unfold drift_inv. rewrite last_snoc. split_and!; [done|lia|by left].
Qed.

Lemma line_step_inv h now w t op :
  line_inv better F (line_history h) now w -> now <= t -> time_ok t ->
  exists w' o, line_step t op w = Some (w', o) /\
               line_inv better F (line_history (h ++ [(t, op)])) t w'.
Proof.
  intros Hinv Ht Hok. unfold line_history. rewrite omap_app.
  destruct op as [v|cur]; cbn [line_step omap list_omap].
  - destruct (line_append_inv _ now w t v Hinv Ht Hok) as (w' & -> & Hi). simpl.
    eexists _, _. split; [done|exact Hi].
  - destruct (line_best_step _ now w t cur Hinv Ht Hok) as (w' & ans & -> & Hi & _).
    exists w', ans. rewrite app_nil_r. by split.
Qed.
Lemma line_inv_new now :
  line_inv better F [] now (Window dq_empty F num_zero 0 (int64 (F * 2)) better).
Proof.
  assert (int64 (F * 2) = 2 * F) as HM.
  { unfold duration_ok in F_ok. rewrite int64_id by go_lia. lia. }
  split_and!; [done|done|done| |done]. simpl. rewrite dq_list_empty. by apply rmq_inv_empty.
Qed.
End line_window.

(** For every sequence of calls on a new line-chart window, at
    non-decreasing times, no call panics, and [GetBest] answers the best of
    the current value, the value still in effect (unless it is older than
    twice the window) and every piece of the step function that ended within
    the window; with a window of length 0 it answers nothing. *)
Theorem line_window_refines_history {D : Type -> Type} `{DequeLaws D} {T} `{GoNumber T}
    (F now : Z) (w0 : RmqLineChart.RmqLineChartSlidingWindow D T) better
    (tr : list (Z * line_op)) (cur : T) :
  StrictWeakOrder (num_ltb (T:=T)) -> duration_ok F ->
  (w0 = RmqLineChart.NewMaximumLineChartSlidingWindow F /\ better = better_max) \/
  (w0 = RmqLineChart.NewMinimumLineChartSlidingWindow F /\ better = better_min) ->
  clock_ok time_ok 0 tr -> last_time 0 tr <= now -> time_ok now ->
  exists w outs w' ans,
    run line_step tr w0 = Some (w, outs) /\
    RmqLineChart.GetBest w now cur = Some (w', ans) /\
    line_answer better F now cur (line_history tr) ans.
Proof.
  intros HO HF Hw Hc Hl Hnow.
  assert (StrictWeakOrder better /\ line_inv better F [] 0 w0) as [HB Hnew].
  { destruct Hw as [[-> ->]|[-> ->]]; (split; [apply _|]); by apply line_inv_new; try apply _. }
  destruct (run_invariant line_step time_ok (fun h => line_inv better F (line_history h))
    (line_step_inv better F HF) tr [] 0 w0 Hnew Hc) as (w & outs & Hrun & Hinv).
  destruct (line_best_step better F HF _ _ w now cur Hinv Hl Hnow)
    as (w' & ans & Hg & _ & Ha).
  by exists w, outs, w', ans.
Qed.

Lemma line_window_refines_history_witness :
  exists w outs w' ans,
    run line_step [(10, line_append 4); (20, line_append 9); (30, line_append 7)]
      (RmqLineChart.NewMinimumLineChartSlidingWindow (D:=list) 20) = Some (w, outs) /\
    RmqLineChart.GetBest w 35 8 = Some (w', ans) /\
    line_answer better_min 20 35 8
      (line_history [(10, line_append 4); (20, line_append 9); (30, line_append 7)]) ans.
Proof.
  apply (line_window_refines_history 20 35 _ _
    [(10, line_append 4); (20, line_append 9); (30, line_append 7)]);
    [apply _|by compute_ok|by right|by compute_ok..].
Defined.

(** ** [SnapshotSlidingWindow]: the last snapshot older than the window *)
Section drop_stale.
Context {A : Type} (keep : A -> bool).

(** Drop from the front while the element after the front is not kept. *)
Fixpoint drop_stale (l : list A) : list A :=
  match l with
  | x :: ((y :: _) as l') => if keep y then l else drop_stale l'
  | _ => l
  end.

Lemma drop_stale_suffix l : exists l1,
  l = l1 ++ drop_stale l /\
  (l1 = [] \/ exists x l', drop_stale l = x :: l' /\ keep x = false).
Proof.
  induction l as [|x l IH]; [by exists []; split; [|left]|].
  destruct l as [|y l]; [by exists []; split; [|left]|].
  simpl. destruct (keep y) eqn:E; [by exists []; split; [|left]|].
  destruct IH as (l1 & El & Hl1). simpl in El.
  exists (x :: l1). simpl. split; [by rewrite El at 1|]. right.
  destruct Hl1 as [->|Hl1]; [|done].
  exists y, l. split; [|done]. destruct l as [|z l]; [done|]. simpl in El.
  simpl in *. by rewrite <- El.
Qed.

Lemma drop_stale_second l x y l' : drop_stale l = x :: y :: l' -> keep y = true.
Proof.
  induction l as [|a l IH]; [done|]. destruct l as [|b l]; [done|]. simpl.
  destruct (keep b) eqn:E; [congruence|exact IH].
Qed.
End drop_stale.

Section snapshot_window.
Context {D : Type -> Type} `{DequeLaws D} {T : Type} `{!Inhabited T}.
Import Snapshot.

Inductive snap_op := snap_append (v : T) | snap_last.

Definition snap_step (now : Z) (op : snap_op) (w : SnapshotSlidingWindow D T) :
    option (SnapshotSlidingWindow D T * (T * bool)) :=
  match op with
  | snap_append v => w ← Append w now v; Some (w, (inhabitant, false))
  | snap_last => GetLastUnfreshSnapshot w now
  end.

Definition snap_history (tr : list (Z * snap_op)) : list (snapshotRecord T) :=
  omap (fun '(t, op) => match op with
                        | snap_append v => Some (SnapshotRecord t v)
                        | snap_last => None
                        end) tr.

(** The last snapshot of the history older than [F], unless older than [E]. *)
Definition snap_answer (F E now : Z) (h : list (snapshotRecord T)) : T * bool :=
  if F =? 0 then (inhabitant, false)
  else match last (filter (fun r => timestamp r + F < now) h) with
       | Some r => if now <=? timestamp r + E then (value r, true) else (inhabitant, false)
       | None => (inhabitant, false)
       end.

Lemma drop_stale_loop_spec fresh now (d : D (snapshotRecord T)) :
  exists d', drop_stale_loop fresh now (loop_fuel d) d = Some d' /\
    dq_list d' = drop_stale (fun r => isFresh fresh now (timestamp r)) (dq_list d).
Proof.
  assert (Hf : (length (dq_list d) < loop_fuel d)%nat).
  { unfold loop_fuel. rewrite dq_len_spec. lia. }
  revert Hf. generalize (loop_fuel d) as fuel. intros fuel. revert d.
  induction fuel as [|fuel IH]; intros d Hf; [lia|]. simpl.
  rewrite dq_len_spec, (dq_at_spec d 1%nat).
  destruct (dq_list d) as [|x [|y l]] eqn:El; [by exists d; rewrite El..|].
  change ([x; y] ++ l) with (x :: y :: l) in *. cbn [length lookup list_lookup drop_stale].
  destruct (Z.ltb_spec 1 (Z.of_nat (S (S (length l))))); [|lia]. simpl (_ ≫= _).
  destruct (isFresh fresh now (timestamp y)); [by exists d; rewrite El|].
  destruct (dq_pop_front_spec d x (y :: l) El) as (d' & -> & El'). cbn [mbind option_bind].
  destruct (IH d') as (d'' & -> & Hd''); [rewrite El'; simpl in *; lia|].
  exists d''. by rewrite Hd'', El'.
Qed.

#[local] Arguments drop_stale_loop : simpl never.

Context (F E : Z) (F_ok : duration_ok F) (E_ok : duration_ok E).

Definition before_now (now : Z) (r : snapshotRecord T) : Prop :=
  time_ok (timestamp r) /\ timestamp r <= now.

(** The pool is a suffix of the history; what was dropped is expired or
    followed by a snapshot that is itself older than the window. *)
Definition dropped_ok (now : Z) (pre p : list (snapshotRecord T)) : Prop :=
  Forall (fun r => timestamp r + E < now) pre \/
  exists r p', p = r :: p' /\ timestamp r + F < now.

Definition snap_inv (h : list (Z * snap_op)) (now : Z) (w : SnapshotSlidingWindow D T) : Prop :=
  freshMilliseconds w = F /\ expireMilliseconds w = E /\
  StronglySorted (fun r s => timestamp r <= timestamp s) (snap_history h) /\
  Forall (before_now now) (snap_history h) /\
  exists pre, snap_history h = pre ++ dq_list (pool w) /\
              dropped_ok now pre (dq_list (pool w)).

Lemma dropped_ok_mono now now' pre p :
  now <= now' -> dropped_ok now pre p -> dropped_ok now' pre p.
Proof.
  intros Hle [Hp|(r & p' & -> & Hr)]; [left|right].
  - eapply Forall_impl; [exact Hp|]. simpl. lia.
  - exists r, p'. split; [done|lia].
Qed.

(** Popping the expired front, then the stale front, keeps the invariant. *)
Lemma dropped_ok_expire now pre p :
  StronglySorted (fun r s => timestamp r <= timestamp s) (pre ++ p) ->
  Forall (before_now now) (pre ++ p) -> dropped_ok now pre p ->
  exists l1, p = l1 ++ drop_until (fun r => isFresh E now (timestamp r)) p /\
    dropped_ok now (pre ++ l1) (drop_until (fun r => isFresh E now (timestamp r)) p).
Proof.
  intros Hs Hb Hd. set (keep := fun r : snapshotRecord T => isFresh E now (timestamp r)).
  destruct (drop_until_suffix keep p) as (l1 & Ep & Hl1). exists l1. split; [done|].
  assert (Hl1' : Forall (fun r => timestamp r + E < now) l1).
  { rewrite Ep in Hb. apply Forall_app in Hb as [_ Hb]. apply Forall_app in Hb as [Hb _].
    rewrite Forall_forall in *. intros r Hr. destruct (Hb r Hr) as [? ?].
    unfold time_ok, duration_ok in *. pose proof (Hl1 r Hr) as Hk. unfold keep in Hk.
    apply isFresh_false in Hk; lia. }
  destruct Hd as [Hd|(r & p' & Ep' & Hr)]; [left; by apply Forall_app|].
  destruct l1 as [|r1 l1]; [right; exists r, p'; simpl in Ep; by rewrite <- Ep|].
  left. apply Forall_app. split; [|done].
  rewrite Ep' in Ep. simpl in Ep. injection Ep as <- _.
  apply StronglySorted_app_inv in Hs as (_ & _ & Hs).
  apply Forall_forall. intros x Hx. inversion Hl1'; subst.
  specialize (Hs x r Hx). assert (timestamp x <= timestamp r) by (apply Hs; set_solver). lia.
Qed.

(** So does dropping the stale front. *)
Lemma dropped_ok_stale now pre p :
  Forall (before_now now) p -> dropped_ok now pre p ->
  exists l2, p = l2 ++ drop_stale (fun r => isFresh F now (timestamp r)) p /\
    dropped_ok now (pre ++ l2) (drop_stale (fun r => isFresh F now (timestamp r)) p).
Proof.
  intros Hb Hd. set (keep := fun r : snapshotRecord T => isFresh F now (timestamp r)).
  destruct (drop_stale_suffix keep p) as (l2 & Ep & Hl2). exists l2. split; [done|].
  destruct Hl2 as [->|(r & p' & Er & Hr)].
  { rewrite app_nil_r. simpl in Ep. by rewrite <- Ep. }
  right. exists r, p'. split; [done|].
  assert (before_now now r) as [Hok Hle].
  { rewrite Forall_forall in Hb. apply Hb. rewrite Ep, Er. set_solver. }
  unfold keep in Hr. unfold time_ok, duration_ok in *. apply isFresh_false in Hr; lia.
Qed.

Lemma drop_until_nonexpired now p :
  StronglySorted (fun r s => timestamp r <= timestamp s) p -> Forall (before_now now) p ->
  Forall (fun r => now <= timestamp r + E)
    (drop_until (fun r => isFresh E now (timestamp r)) p).
Proof.
  intros Hs Hb. rewrite Forall_forall in Hb.
  erewrite drop_until_filter; [| |].
  - apply Forall_forall. intros r [Hr1 Hr2]%list_elem_of_filter.
    destruct (Hb r Hr2) as [Hok _]. unfold time_ok, duration_ok in *.
    apply isFresh_spec in Hr1; lia.
  - eapply (StronglySorted_strengthen _
      (fun r s => timestamp r <= timestamp s /\ r ∈ p /\ s ∈ p)); [exact Hs|done].
  - intros r s (Hle & Hr & Hs'). apply (fresh_mono E E_ok); [by apply Hb..|done|done].
Qed.

Lemma drop_stale_tail_fresh now p :
  StronglySorted (fun r s => timestamp r <= timestamp s) p -> Forall (before_now now) p ->
  Forall (fun r => now <= timestamp r + F)
    (tail (drop_stale (fun r => isFresh F now (timestamp r)) p)).
Proof.
  intros Hs Hb. set (keep := fun r : snapshotRecord T => isFresh F now (timestamp r)).
  destruct (drop_stale_suffix keep p) as (l2 & Ep & _).
  destruct (drop_stale keep p) as [|x [|y p']] eqn:Eq; simpl; [constructor..|].
  apply drop_stale_second in Eq. unfold keep in Eq.
  assert (before_now now y) as [Hok _].
  { rewrite Forall_forall in Hb. apply Hb. rewrite Ep, elem_of_app, !elem_of_cons. auto. }
  rewrite Ep in Hs. apply StronglySorted_app_inv in Hs as (_ & Hs & _).
  inversion Hs as [|? ? Hs' _]; subst. inversion Hs' as [|? ? _ Hy]; subst.
  unfold time_ok, duration_ok in *. apply isFresh_spec in Eq; [|lia..].
  constructor; [done|]. eapply Forall_impl; [exact Hy|]. simpl. lia.
Qed.

Lemma snap_expire h now w t :
  snap_inv h now w -> now <= t -> time_ok t ->
  exists w', expire w t = Some w' /\ snap_inv h t w' /\
    Forall (fun r => t <= timestamp r + E) (dq_list (pool w')) /\
    Forall (fun r => t <= timestamp r + F) (tail (dq_list (pool w'))).
Proof.
  intros (HF & HE & Hs & Hb & pre & Eh & Hd) Ht Hok. unfold expire. rewrite HF, HE.
  destruct (pop_front_loop_spec (fun r => isFresh E t (timestamp r)) (pool w))
    as (p1 & -> & Hp1). simpl.
  destruct (drop_stale_loop_spec F t p1) as (p2 & -> & Hp2). simpl.
  eexists. split; [done|]. simpl.
  assert (Hb' : Forall (before_now t) (snap_history h)).
  { eapply Forall_impl; [exact Hb|]. intros r [? ?]. split; [done|lia]. }
  apply (dropped_ok_mono _ t) in Hd; [|done].
  pose proof Hs as Hs0. pose proof Hb' as Hb0. rewrite Eh in Hs0, Hb0.
  destruct (dropped_ok_expire t pre _ Hs0 Hb0 Hd) as (l1 & E1 & Hd1).
  rewrite <- Hp1 in E1, Hd1.
  apply StronglySorted_app_inv in Hs0 as (_ & Hs0 & _). apply Forall_app in Hb0 as [_ Hb0].
  pose proof (drop_until_nonexpired t _ Hs0 Hb0) as Hexp. rewrite <- Hp1 in Hexp.
  rewrite E1 in Hs0, Hb0.
  apply StronglySorted_app_inv in Hs0 as (_ & Hs1 & _). apply Forall_app in Hb0 as [_ Hb1].
  pose proof (drop_stale_tail_fresh t _ Hs1 Hb1) as Htail. rewrite <- Hp2 in Htail.
  destruct (dropped_ok_stale t _ _ Hb1 Hd1) as (l2 & E2 & Hd2). rewrite <- Hp2 in E2, Hd2.
  split_and!; [split_and!; try done|..|done].
  - exists ((pre ++ l1) ++ l2). split; [|done]. rewrite Eh, E1, E2 at 1. by rewrite !app_assoc.
  - rewrite E2 in Hexp. by apply Forall_app in Hexp as [_ ?].
Qed.

(** The front of the pool after [expire] decides the answer. *)
Lemma snap_front h now w :
  snap_inv h now w ->
  Forall (fun r => now <= timestamp r + E) (dq_list (pool w)) ->
  Forall (fun r => now <= timestamp r + F) (tail (dq_list (pool w))) ->
  F <> 0 ->
  snap_answer F E now (snap_history h) =
  match dq_list (pool w) with
  | r :: _ => if now <=? timestamp r + F then (inhabitant, false) else (value r, true)
  | [] => (inhabitant, false)
  end.
Proof.
  intros (_ & _ & Hs & _ & pre & Eh & Hd) HE Ht HF0. unfold snap_answer.
  destruct (Z.eqb_spec F 0); [done|]. rewrite Eh.
  assert (Hpre : Forall (fun r => timestamp r + E < now) pre ->
    Forall (fun r => now <= timestamp r + F) (dq_list (pool w)) ->
    match last (filter (fun r => timestamp r + F < now) (pre ++ dq_list (pool w))) with
    | Some r => if now <=? timestamp r + E then (value r, true) else (inhabitant, false)
    | None => (inhabitant, false)
    end = (inhabitant, false)).
  { intros Hp Hf. rewrite filter_app, (filter_none _ (dq_list (pool w))), app_nil_r.
    - destruct (last _) as [r|] eqn:El; [|done].
      apply last_Some_elem_of, list_elem_of_filter in El as [_ Hr].
      rewrite Forall_forall in Hp. specialize (Hp r Hr). simpl in Hp.
      by destruct (Z.leb_spec now (timestamp r + E)); [lia|].
    - eapply Forall_impl; [exact Hf|]. simpl. lia. }
  destruct (dq_list (pool w)) as [|r p'] eqn:Ep.
  - apply Hpre; [|constructor]. by destruct Hd as [?|(? & ? & ? & _)].
  - simpl in Ht. destruct (Z.leb_spec now (timestamp r + F)).
    + apply Hpre; [|by constructor]. destruct Hd as [?|(? & ? & [= <- <-] & ?)]; [done|lia].
    + rewrite filter_app, filter_cons_True by lia. rewrite (filter_none _ p'), last_snoc.
      * apply Forall_cons in HE as [HE _]. by destruct (Z.leb_spec now (timestamp r + E)); [|lia].
      * eapply Forall_impl; [exact Ht|]. simpl. lia.
Qed.

Lemma snap_last_step h now w t :
  snap_inv h now w -> now <= t -> time_ok t ->
  exists w', GetLastUnfreshSnapshot w t = Some (w', snap_answer F E t (snap_history h)) /\
             snap_inv h t w'.
Proof.
  intros Hinv Ht Hok. pose proof Hinv as (HF & _). unfold GetLastUnfreshSnapshot. rewrite HF.
  destruct (Z.eqb_spec F 0) as [E0|HF0].
  - exists w. unfold snap_answer. rewrite E0. split; [done|].
    destruct Hinv as (_ & HE & Hs & Hb & pre & Eh & Hd).
    split_and!; [by rewrite HF|done|done| |].
    + eapply Forall_impl; [exact Hb|]. intros r [? ?]. split; [done|lia].
    + exists pre. split; [done|]. by eapply dropped_ok_mono.
  - destruct (snap_expire h now w t Hinv Ht Hok) as (w1 & -> & Hinv1 & HE & Htl). simpl.
    rewrite dq_len_spec, dq_front_spec, (snap_front h t w1 Hinv1 HE Htl HF0).
    exists w1. split; [|done].
    destruct Hinv1 as (HF1 & _ & _ & Hb & pre & Eh & _).
    destruct (dq_list (pool w1)) as [|r p'] eqn:Ep; [done|]. simpl.
    assert (before_now t r) as [Hr _].
    { rewrite Forall_forall in Hb. apply Hb. rewrite Eh, elem_of_app, elem_of_cons. auto. }
    unfold time_ok, duration_ok in *.
    rewrite HF1. destruct (isFresh F t (timestamp r)) eqn:Ef.
    + apply isFresh_spec in Ef; [|lia..]. by destruct (Z.leb_spec t (timestamp r + F)); [|lia].
    + apply isFresh_false in Ef; [|lia..]. by destruct (Z.leb_spec t (timestamp r + F)); [lia|].
Qed.

Lemma snap_step_inv h now w t op :
  snap_inv h now w -> now <= t -> time_ok t ->
  exists w' o, snap_step t op w = Some (w', o) /\ snap_inv (h ++ [(t, op)]) t w'.
Proof.
  intros Hinv Ht Hok. destruct op as [v|]; simpl.
  - unfold Append.
    destruct (snap_expire h now w t Hinv Ht Hok) as (w1 & -> & Hinv1 & _ & _). simpl.
    destruct Hinv1 as (HF & HE & Hs & Hb & pre & Eh & Hd).
    assert (Hh : snap_history (h ++ [(t, snap_append v)]) =
                 snap_history h ++ [SnapshotRecord t v]).
    { unfold snap_history. by rewrite omap_app. }
    eexists _, _. split; [done|]. unfold snap_inv. rewrite Hh. simpl.
    split_and!; [done|done| | |].
    + apply StronglySorted_app_intro; [done|by repeat constructor|].
      intros r s Hr ->%list_elem_of_singleton. simpl. rewrite Forall_forall in Hb.
      by apply Hb.
    + apply Forall_app. split; [done|]. repeat constructor; simpl; unfold time_ok in *; lia.
    + exists pre. rewrite dq_push_back_spec, Eh, <- app_assoc. split; [done|].
      destruct Hd as [Hd|(r & p' & -> & Hr)]; [by left|right].
      exists r, (p' ++ [SnapshotRecord t v]). by rewrite <- app_comm_cons.
  - destruct (snap_last_step h now w t Hinv Ht Hok) as (w' & -> & Hi).
    eexists w', _. split; [done|]. unfold snap_inv, snap_history in *.
    rewrite omap_app. simpl. by rewrite app_nil_r.
Qed.
End snapshot_window.

(** For every sequence of calls on a new snapshot window, at
    non-decreasing times, no call panics, and [GetLastUnfreshSnapshot] answers
    exactly the last snapshot of the whole history that is older than the
    window, unless that snapshot is past the expiry time or the window has
    length 0. *)
Theorem snapshot_window_refines_history {D : Type -> Type} `{DequeLaws D} {T}
    `{!Inhabited T} (F E now : Z) (tr : list (Z * snap_op)) :
  duration_ok F -> duration_ok E -> clock_ok time_ok 0 tr -> last_time 0 tr <= now ->
  time_ok now ->
  exists w outs w',
    run snap_step tr (Snapshot.NewSnapshotSlidingWindow (D:=D) F E) = Some (w, outs) /\
    Snapshot.GetLastUnfreshSnapshot w now =
      Some (w', snap_answer (T:=T) F E now (snap_history tr)).
Proof.
  intros HF HE Hc Hl Hnow.
  assert (Hnew : snap_inv (D:=D) (T:=T) F E [] 0 (Snapshot.NewSnapshotSlidingWindow F E)).
  { split_and!; [done|done|constructor|constructor|]. exists []. simpl.
    rewrite dq_list_empty. split; [done|]. left. constructor. }
  destruct (run_invariant snap_step time_ok (snap_inv F E) (snap_step_inv F E HF HE)
    tr [] 0 _ Hnew Hc) as (w & outs & Hrun & Hinv).
  destruct (snap_last_step F E HF HE _ _ w now Hinv Hl Hnow) as (w' & Hg & _).
  by exists w, outs, w'.
Qed.

Lemma snapshot_window_refines_history_witness :
  exists w outs w',
    run snap_step [(10, snap_append 4); (20, snap_append 9); (30, snap_append 7)]
      (Snapshot.NewSnapshotSlidingWindow (D:=list) 12 40) = Some (w, outs) /\
    Snapshot.GetLastUnfreshSnapshot w 35 =
      Some (w', snap_answer 12 40 35
        (snap_history [(10, snap_append 4); (20, snap_append 9); (30, snap_append 7)])).
Proof.
  apply (snapshot_window_refines_history 12 40 35
    [(10, snap_append 4); (20, snap_append 9); (30, snap_append 7)]); by compute_ok.
Defined.

Example snapshot_window_example :
  snap_answer 12 40 35
    (snap_history [(10, snap_append 4); (20, snap_append 9); (30, snap_append 7)]) = (9, true).
Proof. reflexivity. Qed.
