(* ===== verification/Float64.v ===== *)
(** * Go's float64

    [float64] is IEEE binary64, executable and free of axioms: the Standard
    Library's [spec_float] at 53 bits of precision. Every operation rounds to
    nearest, ties to even, as the Go specification requires of a single
    operation (a compiler is allowed to fuse [x*y + z]; the model rounds twice,
    as on amd64). The comparisons are the language's: any comparison with a NaN
    is false. The second half shows that the arithmetic is exact on integers
    below [2^53] in absolute value, which is what token and request counts
    are. *)
From S2P Require Import Prelude.
From Stdlib Require Export SpecFloat.
Local Open Scope Z_scope.

Abbreviation float64 := spec_float.

Definition f_add : float64 -> float64 -> float64 := SFadd 53 1024.
Definition f_sub : float64 -> float64 -> float64 := SFsub 53 1024.
Definition f_mul : float64 -> float64 -> float64 := SFmul 53 1024.
Definition f_div : float64 -> float64 -> float64 := SFdiv 53 1024.
Definition f_abs : float64 -> float64 := SFabs.

Definition f_lt (x y : float64) : bool := SFltb x y.
Definition f_le (x y : float64) : bool := SFleb x y.
Definition f_gt (x y : float64) : bool := SFltb y x.
Definition f_ge (x y : float64) : bool := SFleb y x.
Definition f_eq (x y : float64) : bool := SFeqb x y.

Definition f_isNaN (x : float64) : bool := match x with S754_nan => true | _ => false end.
Definition f_isInf (x : float64) : bool := match x with S754_infinity _ => true | _ => false end.

(** The conversion [float64(n)] of an integer, rounded. *)
Definition f_of_Z (n : Z) : float64 := binary_normalize 53 1024 n 0 false.

Definition f_zero : float64 := S754_zero false.
Definition f_one : float64 := f_of_Z 1.

#[global] Arguments f_add : simpl never.
#[global] Arguments f_sub : simpl never.
#[global] Arguments f_mul : simpl never.
#[global] Arguments f_div : simpl never.
#[global] Arguments f_of_Z : simpl never.

Declare Scope float_scope.
Delimit Scope float_scope with float.
Notation "x + y" := (f_add x y) : float_scope.
Notation "x - y" := (f_sub x y) : float_scope.
Notation "x * y" := (f_mul x y) : float_scope.
Notation "x / y" := (f_div x y) : float_scope.
Notation "x <? y" := (f_lt x y) : float_scope.
Notation "x <=? y" := (f_le x y) : float_scope.
Notation "x >? y" := (f_gt x y) : float_scope.
Notation "x >=? y" := (f_ge x y) : float_scope.
Notation "x =? y" := (f_eq x y) : float_scope.

(** The integers around the value of a finite float. *)
Definition sign_Z (s : bool) (m : positive) : Z := if s then Zneg m else Zpos m.

Definition floorZ (s : bool) (m : positive) (e : Z) : Z :=
  if 0 <=? e then sign_Z s m * 2 ^ e else sign_Z s m / 2 ^ (- e).
Definition ceilZ (s : bool) (m : positive) (e : Z) : Z :=
  if 0 <=? e then sign_Z s m * 2 ^ e else - (- sign_Z s m / 2 ^ (- e)).
Definition truncZ (s : bool) (m : positive) (e : Z) : Z :=
  if 0 <=? e then sign_Z s m * 2 ^ e else Z.quot (sign_Z s m) (2 ^ (- e)).

(** [math.Ceil] and [math.Floor]: the sign of a zero result is the sign of the
    argument. *)
Definition of_Z_signed (s : bool) (z : Z) : float64 :=
  if z =? 0 then S754_zero s else f_of_Z z.
Definition f_ceil (x : float64) : float64 :=
  match x with
  | S754_finite s m e => if 0 <=? e then x else of_Z_signed s (ceilZ s m e)
  | _ => x
  end.
Definition f_floor (x : float64) : float64 :=
  match x with
  | S754_finite s m e => if 0 <=? e then x else of_Z_signed s (floorZ s m e)
  | _ => x
  end.

(** The conversion [int32(x)]: truncation. The Go specification leaves the
    result implementation-dependent when the truncated value does not fit;
    [oor] is that value. *)
Definition f_to_int32 (oor : float64 -> Z) (x : float64) : Z :=
  match x with
  | S754_zero _ => 0
  | S754_finite s m e =>
    let z := truncZ s m e in
    if (-2147483648 <=? z) && (z <? 2147483648) then z else int32 (oor x)
  | _ => int32 (oor x)
  end.

Lemma f_to_int32_range oor x : in_int32 (f_to_int32 oor x).
Proof.
  unfold f_to_int32. destruct x; try apply int32_range; [go_lia|].
  destruct (_ && _) eqn:E; [|apply int32_range]. go_lia.
Qed.

(** ** Exactness on integers *)

Lemma digits2_log2 p : Zpos (digits2_pos p) = Z.log2 (Zpos p) + 1.
Proof.
  induction p as [p IH|p IH|]; [| |done]; simpl digits2_pos; rewrite Pos2Z.inj_succ, IH.
  - rewrite (Pos2Z.inj_xI p), Z.log2_succ_double by lia. lia.
  - rewrite (Pos2Z.inj_xO p), Z.log2_double by lia. lia.
Qed.

Lemma iter_shr_exact (k : positive) (m : Z) :
  0 <= m -> iter_pos shr_1 k (Build_shr_record (m * 2 ^ Zpos k) false false) =
            Build_shr_record m false false.
Proof.
  assert (Hone : forall m, 0 <= m ->
    shr_1 (Build_shr_record (2 * m) false false) = Build_shr_record m false false).
  { intros [|p|p] Hp; [done|done|lia]. }
  assert (Hpow : forall j, 2 ^ Zpos j~0 = 2 ^ Zpos j * 2 ^ Zpos j).
  { intros j. rewrite <- Z.pow_add_r by lia. f_equal. lia. }
  assert (Hpow1 : forall j, 2 ^ Zpos j~1 = 2 * (2 ^ Zpos j * 2 ^ Zpos j)).
  { intros j. rewrite <- Hpow, <- Z.pow_succ_r by lia. f_equal. }
  revert m. induction k as [k IH|k IH|]; intros m Hm; cbn [iter_pos].
  - replace (m * 2 ^ Zpos k~1) with (2 * ((m * 2 ^ Zpos k) * 2 ^ Zpos k)).
    + rewrite Hone by nia. rewrite !IH by nia. done.
    + rewrite Hpow1. lia.
  - rewrite Hpow, Z.mul_assoc. rewrite !IH by nia. done.
  - rewrite (Z.mul_comm m). by apply Hone.
Qed.

(** Shifting an exact mantissa right by [k] bits. *)
Lemma shr_exact k m e :
  0 <= k -> 0 <= m ->
  shr (shr_record_of_loc (m * 2 ^ k) loc_Exact) e k = (Build_shr_record m false false, e + k).
Proof.
  intros Hk Hm. destruct k as [|p|p]; [|simpl; by rewrite iter_shr_exact|lia].
  simpl. by rewrite Z.mul_1_r, Z.add_0_r.
Qed.

(** The canonical representation of an integer [0 < n < 2^53]. *)
Definition exp_of (n : Z) : Z := Z.log2 n + 1 - 53.
Definition mant_of (n : Z) : Z := n * 2 ^ (- exp_of n).
Definition canon (s : bool) (n : Z) : float64 :=
  S754_finite s (Z.to_pos (mant_of n)) (exp_of n).

Section exact.
Context (n : Z) (n_ok : 0 < n < 2 ^ 53).

Lemma exp_of_bound : -52 <= exp_of n <= 0.
Proof.
  unfold exp_of. assert (0 <= Z.log2 n) by apply Z.log2_nonneg.
  assert (Z.log2 n < 53) by (apply Z.log2_lt_pow2; lia). lia.
Qed.

Lemma mant_of_bound : 2 ^ 52 <= mant_of n < 2 ^ 53.
Proof.
  pose proof exp_of_bound as He. unfold mant_of, exp_of in *.
  pose proof (Z.log2_spec n) as [H1 H2]; [lia|].
  set (k := - (Z.log2 n + 1 - 53)) in *. unfold Z.succ in H2.
  assert (E1 : 2 ^ Z.log2 n * 2 ^ k = 2 ^ 52) by (rewrite <- Z.pow_add_r by lia; f_equal; lia).
  assert (E2 : 2 ^ (Z.log2 n + 1) * 2 ^ k = 2 ^ 53)
    by (rewrite <- Z.pow_add_r by lia; f_equal; lia).
  assert (0 < 2 ^ k) by (apply Z.pow_pos_nonneg; lia). nia.
Qed.

Lemma mant_of_log2 : Z.log2 (mant_of n) = 52.
Proof. apply Z.log2_unique; [lia|]. apply mant_of_bound. Qed.

Lemma fexp_exp_of : fexp 53 1024 (Z.log2 n + 1) = exp_of n.
Proof. pose proof exp_of_bound. unfold fexp, SpecFloat.emin, exp_of in *. lia. Qed.

(** Rounding an exact representation of [n] gives the canonical one. *)
Lemma round_aux_exact s M E :
  E <= exp_of n -> M = n * 2 ^ (- E) -> binary_round_aux 53 1024 s M E loc_Exact = canon s n.
Proof.
  intros HE HM. pose proof exp_of_bound as He. pose proof mant_of_bound as Hm.
  assert (EM : M = mant_of n * 2 ^ (exp_of n - E)).
  { rewrite HM. unfold mant_of. rewrite <- Z.mul_assoc, <- Z.pow_add_r by lia.
    do 2 f_equal. lia. }
  assert (0 < 2 ^ (exp_of n - E)) by (apply Z.pow_pos_nonneg; lia).
  assert (HM0 : 0 < M) by nia.
  assert (HlM : Zdigits2 M = Z.log2 n + 1 - E).
  { destruct M as [|p|p]; [lia| |lia]. simpl Zdigits2. rewrite digits2_log2, HM.
    rewrite <- Z.shiftl_mul_pow2, Z.log2_shiftl by lia. lia. }
  unfold binary_round_aux, shr_fexp. rewrite HlM.
  replace (Z.log2 n + 1 - E + E) with (Z.log2 n + 1) by lia. rewrite fexp_exp_of.
  rewrite EM, shr_exact by lia. cbn [shr_m loc_of_shr_record round_nearest_even].
  replace (E + (exp_of n - E)) with (exp_of n) by lia.
  assert (Hd : Zdigits2 (mant_of n) = 53).
  { destruct (mant_of n) as [|p|p] eqn:Ep; [lia| |lia]. simpl Zdigits2.
    rewrite digits2_log2, <- Ep, mant_of_log2. done. }
  rewrite Hd. replace (fexp 53 1024 (53 + exp_of n) - exp_of n) with 0
    by (unfold fexp, SpecFloat.emin; lia).
  cbn [shr shr_record_of_loc shr_m]. unfold canon.
  destruct (mant_of n) as [|p|p]; [lia| |lia].
  destruct (Z.leb_spec (exp_of n) (1024 - 53)); [done|lia].
Qed.
End exact.

Lemma pos_iter_xO m d : Zpos (Pos.iter xO m d) = Zpos m * 2 ^ Zpos d.
Proof.
  induction d as [|d IH] using Pos.peano_ind; [simpl; lia|].
  rewrite Pos.iter_succ, Pos2Z.inj_xO, IH, Pos2Z.inj_succ, Z.pow_succ_r by lia. lia.
Qed.

Lemma binary_round_exact n s mx E :
  0 < n < 2 ^ 53 -> E <= 0 -> Zpos mx = n * 2 ^ (- E) ->
  binary_round 53 1024 s mx E = canon s n.
Proof.
  intros Hn HE Hmx. unfold binary_round.
  assert (Hd : Zpos (digits2_pos mx) + E = Z.log2 n + 1).
  { rewrite digits2_log2, Hmx, <- Z.shiftl_mul_pow2, Z.log2_shiftl by lia. lia. }
  rewrite Hd, fexp_exp_of by done. unfold shl_align.
  destruct (exp_of n - E) as [|d|d] eqn:Ed.
  - apply round_aux_exact; [done|lia|done].
  - apply round_aux_exact; [done|lia|done].
  - apply round_aux_exact; [done|lia|]. rewrite pos_iter_xO, Hmx, <- Z.mul_assoc.
    rewrite <- Z.pow_add_r by lia. do 2 f_equal. lia.
Qed.

(** The float of an integer below [2^53] in absolute value. *)
Definition exact_Z (n : Z) : Prop := - 2 ^ 53 < n < 2 ^ 53.

Definition canon_Z (n : Z) : float64 :=
  if n =? 0 then f_zero else canon (n <? 0) (Z.abs n).

Lemma binary_normalize_exact n N E :
  exact_Z n -> E <= 0 -> N = n * 2 ^ (- E) -> binary_normalize 53 1024 N E false = canon_Z n.
Proof.
  intros Hn HE HN. unfold exact_Z, canon_Z in *.
  assert (Hp : 0 < 2 ^ (- E)) by (apply Z.pow_pos_nonneg; lia).
  destruct (Z.eqb_spec n 0) as [->|Hn0]; [by rewrite HN|].
  destruct N as [|p|p]; simpl; [nia| |].
  - destruct (Z.ltb_spec n 0); [nia|]. rewrite Z.abs_eq by lia.
    by apply binary_round_exact; [lia|..].
  - destruct (Z.ltb_spec n 0); [|nia]. rewrite Z.abs_neq by lia.
    apply binary_round_exact; [lia|done|]. lia.
Qed.

Lemma f_of_Z_exact n : exact_Z n -> f_of_Z n = canon_Z n.
Proof. intros Hn. apply binary_normalize_exact; [done|lia|]. lia. Qed.

Lemma canon_cases n :
  exact_Z n ->
  (n = 0 /\ f_of_Z n = f_zero) \/
  (n <> 0 /\ f_of_Z n = canon (n <? 0) (Z.abs n) /\ 0 < Z.abs n < 2 ^ 53).
Proof.
  intros Hn. rewrite f_of_Z_exact by done. unfold canon_Z, exact_Z in *.
  destruct (Z.eqb_spec n 0); [by left|right]. split_and!; [done|done|lia|lia].
Qed.

(** The value of a canonical mantissa scaled to a lower exponent. *)
Lemma shl_align_exact n ez :
  0 < n < 2 ^ 53 -> ez <= exp_of n ->
  Zpos (fst (shl_align (Z.to_pos (mant_of n)) (exp_of n) ez)) = n * 2 ^ (- ez).
Proof.
  intros Hn Hez. pose proof (exp_of_bound n Hn). pose proof (mant_of_bound n Hn).
  unfold shl_align. destruct (ez - exp_of n) as [|d|d] eqn:Ed; [|lia|].
  - simpl. rewrite Z2Pos.id by lia. unfold mant_of. do 3 f_equal. lia.
  - simpl fst. rewrite pos_iter_xO, Z2Pos.id by lia. unfold mant_of.
    rewrite <- Z.mul_assoc, <- Z.pow_add_r by lia. do 2 f_equal. lia.
Qed.

Lemma cond_Zopp_abs n m : cond_Zopp (n <? 0) (Z.abs n * m) = n * m.
Proof. unfold cond_Zopp. destruct (Z.ltb_spec n 0); lia. Qed.

Lemma f_add_exact a b :
  exact_Z a -> exact_Z b -> exact_Z (a + b) -> f_add (f_of_Z a) (f_of_Z b) = f_of_Z (a + b).
Proof.
  intros Ha Hb Hab.
  destruct (canon_cases a Ha) as [[-> ->]|(Ha0 & Ea & Ha1)].
  { rewrite Z.add_0_l. by destruct (canon_cases b Hb) as [[-> ->]|(_ & -> & _)]. }
  destruct (canon_cases b Hb) as [[-> ->]|(Hb0 & Eb & Hb1)].
  { by rewrite Z.add_0_r, Ea. }
  rewrite Ea, Eb, (f_of_Z_exact (a + b)) by done. unfold f_add, canon, SFadd.
  pose proof (exp_of_bound _ Ha1). pose proof (exp_of_bound _ Hb1).
  apply binary_normalize_exact; [done|lia|].
  rewrite !shl_align_exact, !cond_Zopp_abs by lia. lia.
Qed.

Lemma f_sub_exact a b :
  exact_Z a -> exact_Z b -> exact_Z (a - b) -> b <> 0 ->
  f_sub (f_of_Z a) (f_of_Z b) = f_of_Z (a - b).
Proof.
  intros Ha Hb Hab Hb0.
  destruct (canon_cases b Hb) as [[? _]|(_ & Eb & Hb1)]; [done|].
  destruct (canon_cases a Ha) as [[-> ->]|(Ha0 & Ea & Ha1)].
  { rewrite Eb, (f_of_Z_exact (0 - b)) by done. unfold canon_Z, f_sub, canon, SFsub, f_zero.
    destruct (Z.eqb_spec (0 - b) 0); [lia|]. rewrite Z.sub_0_l, Z.abs_opp. f_equal.
    destruct (Z.ltb_spec b 0), (Z.ltb_spec (- b) 0); simpl; lia || done. }
  rewrite Ea, Eb, (f_of_Z_exact (a - b)) by done. unfold f_sub, canon, SFsub.
  pose proof (exp_of_bound _ Ha1). pose proof (exp_of_bound _ Hb1).
  apply binary_normalize_exact; [done|lia|].
  rewrite !shl_align_exact, !cond_Zopp_abs by lia. lia.
Qed.

Lemma f_sub_zero_r a : exact_Z a -> f_sub (f_of_Z a) (f_of_Z 0) = f_of_Z a.
Proof. intros Ha. by destruct (canon_cases a Ha) as [[-> ->]|(_ & -> & _)]. Qed.

(** [a - b] for counts: no case on zero. *)
Lemma f_sub_exact' a b :
  exact_Z a -> exact_Z b -> exact_Z (a - b) -> f_sub (f_of_Z a) (f_of_Z b) = f_of_Z (a - b).
Proof.
  intros. destruct (Z.eq_dec b 0) as [->|]; [|by apply f_sub_exact].
  by rewrite f_sub_zero_r, Z.sub_0_r.
Qed.

Lemma f_mul_exact a b :
  0 <= a -> 0 <= b -> exact_Z a -> exact_Z b -> exact_Z (a * b) ->
  f_mul (f_of_Z a) (f_of_Z b) = f_of_Z (a * b).
Proof.
  intros Ha0 Hb0 Ha Hb Hab.
  destruct (canon_cases a Ha) as [[-> ->]|(Ha1 & Ea & Ha2)].
  { rewrite Z.mul_0_l. destruct (canon_cases b Hb) as [[-> ->]|(_ & -> & _)]; [done|].
    destruct (Z.ltb_spec b 0); [lia|done]. }
  destruct (canon_cases b Hb) as [[-> ->]|(Hb1 & Eb & Hb2)].
  { rewrite Z.mul_0_r, Ea. destruct (Z.ltb_spec a 0); [lia|done]. }
  destruct (canon_cases (a * b) Hab) as [[? _]|(_ & Eab & Hab2)]; [lia|].
  rewrite Ea, Eb, Eab. unfold exact_Z in *. rewrite !Z.abs_eq in * by lia.
  destruct (Z.ltb_spec a 0); [lia|]. destruct (Z.ltb_spec b 0); [lia|].
  destruct (Z.ltb_spec (a * b) 0); [lia|].
  unfold f_mul, SFmul, canon at 1 2. cbn [xorb].
  pose proof (exp_of_bound _ Ha2). pose proof (exp_of_bound _ Hb2).
  pose proof (mant_of_bound _ Ha2). pose proof (mant_of_bound _ Hb2).
  apply round_aux_exact; [done| |].
  - pose proof (Z.log2_mul_below a b). unfold exp_of in *. lia.
  - rewrite Pos2Z.inj_mul, !Z2Pos.id by lia. unfold mant_of.
    replace (- (exp_of a + exp_of b)) with (- exp_of a + - exp_of b) by lia.
    rewrite Z.pow_add_r by lia. lia.
Qed.

(** ** Order *)

(** The position of a number in the order, as a triple compared
    lexicographically; a NaN has none. *)
Definition f_key (x : float64) : option (Z * Z * Z) :=
  match x with
  | S754_nan => None
  | S754_infinity s => Some (if s then -2 else 2, 0, 0)
  | S754_zero _ => Some (0, 0, 0)
  | S754_finite s m e => Some (if s then (-1, - e, Zneg m) else (1, e, Zpos m))
  end.

Definition key_lt (j k : Z * Z * Z) : Prop :=
  let '(a, b, c) := j in
  let '(a', b', c') := k in
  a < a' \/ (a = a' /\ (b < b' \/ (b = b' /\ c < c'))).

Lemma SFcompare_key x y :
  match SFcompare x y, f_key x, f_key y with
  | Some Lt, Some j, Some k => key_lt j k
  | Some Gt, Some j, Some k => key_lt k j
  | Some Eq, Some j, Some k => j = k
  | None, None, _ | None, _, None => True
  | _, _, _ => False
  end.
Proof.
  destruct x as [s| [] | |s m e], y as [s'|[]| |[] m' e']; try destruct s;
    unfold key_lt; simpl; try lia; try done.
  - destruct (Z.compare_spec e e'); subst; simpl; try lia.
    change (Pos.compare_cont Eq m m') with (Pos.compare m m').
    destruct (Pos.compare_spec m m'); subst; simpl; try lia; done.
  - destruct (Z.compare_spec e e'); subst; simpl; try lia.
    change (Pos.compare_cont Eq m m') with (Pos.compare m m').
    destruct (Pos.compare_spec m m'); subst; simpl; try lia; done.
Qed.

Lemma f_lt_key x y :
  f_lt x y = true <-> exists j k, f_key x = Some j /\ f_key y = Some k /\ key_lt j k.
Proof.
  unfold f_lt, SFltb. pose proof (SFcompare_key x y) as Hc.
  destruct (SFcompare x y) as [[]|], (f_key x) as [[[a b] c]|], (f_key y) as [[[a' b'] c']|];
    unfold key_lt in *; try done; try naive_solver lia.
Qed.

Lemma f_lt_irrefl x : f_lt x x = false.
Proof.
  apply not_true_iff_false. rewrite f_lt_key. intros (j & k & Hj & Hk & Hlt).
  assert (k = j) as -> by congruence. destruct j as [[? ?] ?]. unfold key_lt in *. lia.
Qed.

Lemma f_lt_trans x y z : f_lt x y = true -> f_lt y z = true -> f_lt x z = true.
Proof.
  rewrite !f_lt_key. intros (i & j & Hi & Hj & H1) (j' & k & Hj' & Hk & H2).
  assert (j' = j) as -> by congruence. exists i, k. split_and!; [done|done|].
  destruct i as [[? ?] ?], j as [[? ?] ?], k as [[? ?] ?]. unfold key_lt in *. lia.
Qed.

(** Incomparability is transitive through a number. *)
Lemma f_lt_neg_trans x y z :
  f_isNaN y = false -> f_lt x y = false -> f_lt y z = false -> f_lt x z = false.
Proof.
  intros Hy. rewrite <- !not_true_iff_false, !f_lt_key. intros H1 H2 (i & k & Hi & Hk & H3).
  destruct (f_key y) as [j|] eqn:Hj; [|by destruct y].
  assert (~ key_lt i j) by naive_solver. assert (~ key_lt j k) by naive_solver.
  destruct i as [[? ?] ?], j as [[? ?] ?], k as [[? ?] ?]. unfold key_lt in *. lia.
Qed.

Lemma f_lt_key_false x y j k :
  f_key x = Some j -> f_key y = Some k -> f_lt x y = false <-> ~ key_lt j k.
Proof.
  intros Hx Hy. rewrite <- not_true_iff_false, f_lt_key. naive_solver.
Qed.

(** [x = y] and [x <= y] through the strict order, on numbers. *)
Lemma f_eq_lt x y :
  f_isNaN x = false -> f_isNaN y = false ->
  f_eq x y = negb (f_lt x y) && negb (f_lt y x).
Proof.
  intros Hx Hy. unfold f_eq, f_lt, SFeqb, SFltb.
  pose proof (SFcompare_key x y) as H1. pose proof (SFcompare_key y x) as H2.
  destruct (SFcompare x y) as [[]|], (SFcompare y x) as [[]|],
    (f_key x) as [[[? ?] ?]|] eqn:Ex, (f_key y) as [[[? ?] ?]|] eqn:Ey;
    unfold key_lt in *; try done; try lia; try (by destruct x); try (by destruct y);
    naive_solver lia.
Qed.

Lemma f_le_lt x y :
  f_isNaN x = false -> f_isNaN y = false -> f_le x y = negb (f_lt y x).
Proof.
  intros Hx Hy. unfold f_le, f_lt, SFleb, SFltb.
  pose proof (SFcompare_key x y) as H1. pose proof (SFcompare_key y x) as H2.
  destruct (SFcompare x y) as [[]|], (SFcompare y x) as [[]|],
    (f_key x) as [[[? ?] ?]|] eqn:Ex, (f_key y) as [[[? ?] ?]|] eqn:Ey;
    unfold key_lt in *; try done; try lia; try (by destruct x); try (by destruct y);
    naive_solver lia.
Qed.

(** On integers the order is the order of the integers. *)
Lemma canon_key_lt a b :
  0 < a < 2 ^ 53 -> 0 < b < 2 ^ 53 ->
  (exp_of a < exp_of b \/
   (exp_of a = exp_of b /\ Zpos (Z.to_pos (mant_of a)) < Zpos (Z.to_pos (mant_of b)))) <-> a < b.
Proof.
  intros Ha Hb. pose proof (mant_of_bound _ Ha). pose proof (mant_of_bound _ Hb).
  pose proof (exp_of_bound _ Ha). pose proof (exp_of_bound _ Hb).
  rewrite !Z2Pos.id by lia.
  destruct (Z.lt_trichotomy (exp_of a) (exp_of b)) as [E|[E|E]].
  - split; [intros _|by left].
    destruct (Z.le_gt_cases b a) as [Hle|]; [|done].
    apply Z.log2_le_mono in Hle. unfold exp_of in *. lia.
  - unfold mant_of. rewrite <- E.
    assert (0 < 2 ^ (- exp_of a)) by (apply Z.pow_pos_nonneg; lia). split; [nia|right; nia].
  - split; [lia|intros Hlt].
    assert (a <= b) as Hle by lia. apply Z.log2_le_mono in Hle. unfold exp_of in *. lia.
Qed.

Lemma f_key_of_Z n :
  exact_Z n ->
  f_key (f_of_Z n) =
  Some (if n =? 0 then (0, 0, 0)
        else if n <? 0 then (-1, - exp_of (- n), - Zpos (Z.to_pos (mant_of (- n))))
        else (1, exp_of n, Zpos (Z.to_pos (mant_of n)))).
Proof.
  intros Hn. destruct (canon_cases n Hn) as [[-> ->]|(Hn0 & -> & _)]; [done|].
  destruct (Z.eqb_spec n 0); [done|].
  destruct (Z.ltb_spec n 0); simpl; [rewrite Z.abs_neq by lia|rewrite Z.abs_eq by lia]; done.
Qed.

Lemma f_lt_of_Z a b : exact_Z a -> exact_Z b -> f_lt (f_of_Z a) (f_of_Z b) = (a <? b).
Proof.
  intros Ha Hb. apply eq_bool_prop_intro. rewrite !Is_true_true, f_lt_key, Z.ltb_lt.
  rewrite (f_key_of_Z a Ha), (f_key_of_Z b Hb). unfold exact_Z in *.
  transitivity (key_lt
    (if a =? 0 then (0, 0, 0) else if a <? 0
     then (-1, - exp_of (- a), - Zpos (Z.to_pos (mant_of (- a))))
     else (1, exp_of a, Zpos (Z.to_pos (mant_of a))))
    (if b =? 0 then (0, 0, 0) else if b <? 0
     then (-1, - exp_of (- b), - Zpos (Z.to_pos (mant_of (- b))))
     else (1, exp_of b, Zpos (Z.to_pos (mant_of b))))); [naive_solver|].
  destruct (Z.eqb_spec a 0), (Z.ltb_spec a 0), (Z.eqb_spec b 0), (Z.ltb_spec b 0);
    unfold key_lt; try lia.
  - pose proof (canon_key_lt (- b) (- a)). lia.
  - pose proof (canon_key_lt a b). lia.
Qed.

(** ** Conversions back to integers *)

Lemma truncZ_canon n :
  0 < Z.abs n < 2 ^ 53 ->
  truncZ (n <? 0) (Z.to_pos (mant_of (Z.abs n))) (exp_of (Z.abs n)) = n.
Proof.
  intros Hn. pose proof (exp_of_bound _ Hn). pose proof (mant_of_bound _ Hn).
  set (m := Z.to_pos _). assert (Hm : Zpos m = Z.abs n * 2 ^ (- exp_of (Z.abs n))).
  { unfold m. by rewrite Z2Pos.id by lia. }
  assert (0 < 2 ^ (- exp_of (Z.abs n))) by (apply Z.pow_pos_nonneg; lia).
  assert (Hs : sign_Z (n <? 0) m = n * 2 ^ (- exp_of (Z.abs n))).
  { unfold sign_Z. destruct (Z.ltb_spec n 0); [rewrite <- Pos2Z.opp_pos|]; rewrite Hm; lia. }
  unfold truncZ. rewrite Hs. destruct (Z.leb_spec 0 (exp_of (Z.abs n))).
  - replace (exp_of (Z.abs n)) with 0 by lia. lia.
  - by rewrite Z.quot_mul by lia.
Qed.

Lemma f_to_int32_of_Z oor n : in_int32 n -> f_to_int32 oor (f_of_Z n) = n.
Proof.
  intros Hn. assert (exact_Z n) as Hx by (unfold exact_Z; go_lia).
  destruct (canon_cases n Hx) as [[-> ->]|(_ & -> & Hb)]; [done|].
  unfold f_to_int32, canon. rewrite truncZ_canon by done.
  destruct (_ && _) eqn:E; [done|]. go_lia.
Qed.

(** A canonical mantissa has at most 53 bits; exactly 53 when the exponent is
    not negative. *)
Lemma valid_mantissa s m e : valid_binary 53 1024 (S754_finite s m e) = true -> Zpos m < 2 ^ 53.
Proof.
  simpl. unfold bounded, canonical_mantissa, fexp, SpecFloat.emin. rewrite andb_true_iff.
  intros [H1%Z.eqb_eq _]. rewrite digits2_log2 in H1. pose proof (Z.log2_spec (Zpos m)).
  assert (2 ^ Z.succ (Z.log2 (Zpos m)) <= 2 ^ 53) by (apply Z.pow_le_mono_r; lia). lia.
Qed.

Lemma valid_mantissa_large s m e :
  valid_binary 53 1024 (S754_finite s m e) = true -> 0 <= e -> 2 ^ 52 <= Zpos m.
Proof.
  simpl. unfold bounded, canonical_mantissa, fexp, SpecFloat.emin. rewrite andb_true_iff.
  intros [H1%Z.eqb_eq _] He. rewrite digits2_log2 in H1. pose proof (Z.log2_spec (Zpos m)).
  replace (Z.log2 (Zpos m)) with 52 in * by lia. lia.
Qed.

(** The ceiling and the floor of a float below [2^52] are integers below
    [2^53]. *)
Lemma ceilZ_exact s m e :
  valid_binary 53 1024 (S754_finite s m e) = true -> e < 0 -> exact_Z (ceilZ s m e).
Proof.
  intros Hv%valid_mantissa He. unfold ceilZ, exact_Z, sign_Z.
  destruct (Z.leb_spec 0 e); [lia|].
  assert (1 < 2 ^ (- e)) by (apply Z.pow_gt_1; lia).
  set (z := if s then Zneg m else Zpos m). assert (- 2 ^ 53 < z < 2 ^ 53) by (destruct s; lia).
  pose proof (Z.div_mod (- z) (2 ^ (- e))). pose proof (Z.mod_pos_bound (- z) (2 ^ (- e))).
  nia.
Qed.
