(* ===== verification/Recommendation.v ===== *)
(** * pkg/autoscaler/algorithm/recommendation.go

    The replica count the metrics ask for. Go maps are [gmap]s; a [range]
    over a map visits the entries in an order the language leaves open, so the
    loop over the metric targets takes that order as an argument, a list of
    entries. Log lines are left out. The value [int32(x)] of a float that does
    not fit is implementation-dependent in Go: the section variable [oor]. *)
From S2P Require Import Prelude Float64.
Local Open Scope Z_scope.
Local Open Scope go_scope.

Abbreviation Metrics := (gmap string float64).

Record RecommendedInstancesAlgorithm := {
  MinInstances : Z;
  MaxInstances : Z;
  CurrentInstancesCount : Z;
  Tolerance : float64;
  MetricTargets : Metrics;
  UnreadyInstancesCountByMetric : gmap string Z;
  ReadyInstancesMetrics : gmap string (list Metrics);
  ExternalMetrics : Metrics
}.

Section recommendation.
Context (oor : float64 -> Z).

Definition getDirection (ratio : float64) : Z := if f_ge ratio f_one then 1 else -1.

Definition getCeilDesiredInstances (value : float64) : Z :=
  if f_isNaN value then 0
  else
    let value := f_ceil value in
    let bound := 1000000000 in
    if f_lt value (f_of_Z bound) then Z.max 0 (f_to_int32 oor value) else bound.

Definition getDesiredInstancesForSingleExternalMetric
    (currentCount : Z) (tolerance target metric : float64) : Z :=
  let desired := f_div metric target in
  let ratio := f_div desired (f_of_Z currentCount) in
  if f_le (f_abs (f_sub ratio f_one)) tolerance then currentCount
  else getCeilDesiredInstances desired.

(** The loop over the ready pods: (metricsCount, currentMetricSum,
    missingCount). *)
Definition countMetrics (name : string) (readyMetrics : list Metrics) : Z * float64 * Z :=
  fold_left (fun '(metricsCount, currentMetricSum, missingCount) readyInstance =>
    match readyInstance !! name with
    | Some metric => (metricsCount +₃₂ 1, f_add currentMetricSum metric, missingCount)
    | None => (metricsCount, currentMetricSum, missingCount +₃₂ 1)
    end) readyMetrics (0, f_zero, 0).

Definition getDesiredInstancesForSingleInstanceMetric
    (currentCount : Z) (tolerance : float64) (name : string) (target : float64)
    (unreadyCount : Z) (readyMetrics : list Metrics) : Z * bool :=
  let '(metricsCount, currentMetricSum, missingCount) := countMetrics name readyMetrics in
  if metricsCount =? 0 then (0, false)
  else
    let ratio := f_div (f_div currentMetricSum (f_of_Z metricsCount)) target in
    let shouldAddUnready := (0 <? unreadyCount) && (0 <? getDirection ratio) in
    if negb shouldAddUnready && (missingCount =? 0) then
      if f_le (f_abs (f_sub ratio f_one)) tolerance then (currentCount, true)
      else (getCeilDesiredInstances (f_mul ratio (f_of_Z metricsCount)), true)
    else
      let metricsCount := metricsCount +₃₂ missingCount in
      let currentMetricSum :=
        if getDirection ratio <? 0
        then f_add currentMetricSum (f_mul (f_of_Z missingCount) target)
        else currentMetricSum in
      let metricsCount := if shouldAddUnready then metricsCount +₃₂ unreadyCount
                          else metricsCount in
      let newRatio := f_div (f_div currentMetricSum (f_of_Z metricsCount)) target in
      if f_le (f_abs (f_sub newRatio f_one)) tolerance
         || negb (getDirection ratio =? getDirection newRatio)
      then (currentCount, true)
      else
        let desired := getCeilDesiredInstances (f_mul newRatio (f_of_Z metricsCount)) in
        if ((getDirection newRatio <? 0) && (currentCount <? desired))
           || ((0 <? getDirection newRatio) && (desired <? currentCount))
        then (currentCount, true)
        else (desired, true).

Definition updateRecommendation (recommendedInstances : Z) (skip : bool) (desired : Z) :
    Z * bool :=
  if skip then (desired, false) else (Z.max recommendedInstances desired, false).

(** One iteration of the loop over the metric targets. *)
Definition recommendStep (alg : RecommendedInstancesAlgorithm) (acc : Z * bool)
    (entry : string * float64) : Z * bool :=
  let '(recommendedInstances, skip) := acc in
  let '(name, target) := entry in
  match ExternalMetrics alg !! name with
  | Some externalMetric =>
    updateRecommendation recommendedInstances skip
      (getDesiredInstancesForSingleExternalMetric (CurrentInstancesCount alg)
         (Tolerance alg) target externalMetric)
  | None =>
    let '(desired, ok) :=
      getDesiredInstancesForSingleInstanceMetric (CurrentInstancesCount alg) (Tolerance alg)
        name target (default 0 (UnreadyInstancesCountByMetric alg !! name))
        (default [] (ReadyInstancesMetrics alg !! name)) in
    if ok then updateRecommendation recommendedInstances skip desired
    else (recommendedInstances, skip)
  end.

(** [order]: the entries of [MetricTargets] in the order [range] visits them. *)
Definition GetRecommendedInstances (alg : RecommendedInstancesAlgorithm)
    (order : list (string * float64)) : Z * bool :=
  if CurrentInstancesCount alg <? MinInstances alg then (MinInstances alg, false)
  else if MaxInstances alg <? CurrentInstancesCount alg then (MaxInstances alg, false)
  else
    let '(recommendedInstances, skip) := fold_left (recommendStep alg) order (0, true) in
    if negb skip then
      (Z.min (Z.max recommendedInstances (MinInstances alg)) (MaxInstances alg), skip)
    else (recommendedInstances, skip).
End recommendation.

(** ** The loop over the targets *)
Section spec.
Context (oor : float64 -> Z).

(** What one metric asks for, if its samples say anything. *)
Definition entry_desired (alg : RecommendedInstancesAlgorithm) (entry : string * float64) :
    option Z :=
  let '(name, target) := entry in
  match ExternalMetrics alg !! name with
  | Some metric =>
    Some (getDesiredInstancesForSingleExternalMetric oor (CurrentInstancesCount alg)
            (Tolerance alg) target metric)
  | None =>
    match getDesiredInstancesForSingleInstanceMetric oor (CurrentInstancesCount alg)
            (Tolerance alg) name target (default 0 (UnreadyInstancesCountByMetric alg !! name))
            (default [] (ReadyInstancesMetrics alg !! name)) with
    | (desired, true) => Some desired
    | (_, false) => None
    end
  end.

Definition is_maximum (m : Z) (ds : list Z) : Prop := m ∈ ds /\ forall d, d ∈ ds -> d <= m.

Lemma recommendStep_desired alg r skip entry :
  recommendStep oor alg (r, skip) entry =
  match entry_desired alg entry with
  | Some d => updateRecommendation r skip d
  | None => (r, skip)
  end.
Proof.
  destruct entry as [name target]. unfold recommendStep, entry_desired.
  destruct (ExternalMetrics alg !! name); [done|].
  by destruct (getDesiredInstancesForSingleInstanceMetric _ _ _ _ _ _ _) as [d []].
Qed.

Lemma recommend_fold_running alg order r : exists m,
  fold_left (recommendStep oor alg) order (r, false) = (m, false) /\
  is_maximum m (r :: omap (entry_desired alg) order).
Proof.
  revert r. induction order as [|en order IH]; intros r.
  - exists r. split; [done|]. split; [set_solver|]. intros d ->%list_elem_of_singleton. lia.
  - cbn [fold_left omap list_omap]. rewrite recommendStep_desired.
    destruct (entry_desired alg en) as [d|]; [|apply IH].
    destruct (IH (Z.max r d)) as (m & Hm & Hin & Hle). exists m. split; [exact Hm|].
    split.
    + rewrite !elem_of_cons in *. destruct Hin as [->|]; [lia|by auto].
    + intros d' [->|[->|Hd]%elem_of_cons]%elem_of_cons.
      * specialize (Hle (Z.max r d)). rewrite elem_of_cons in Hle. lia.
      * specialize (Hle (Z.max r d)). rewrite elem_of_cons in Hle. lia.
      * apply Hle, elem_of_cons. by right.
Qed.

Lemma recommend_fold alg order :
  match fold_left (recommendStep oor alg) order (0, true) with
  | (r, true) => r = 0 /\ omap (entry_desired alg) order = []
  | (r, false) => is_maximum r (omap (entry_desired alg) order)
  end.
Proof.
  induction order as [|en order IH]; [done|].
  cbn [fold_left omap list_omap]. rewrite recommendStep_desired.
  destruct (entry_desired alg en) as [d|]; [|exact IH].
  destruct (recommend_fold_running alg order d) as (m & Hm & Hmax).
  change (updateRecommendation 0 true d) with (d, false). by rewrite Hm.
Qed.
End spec.

(** C37: in whatever order the language visits the metric targets, the
    recommendation is the bound the current count violates, or else the
    largest count any metric asks for, clamped to [MinInstances] and
    [MaxInstances]; it is skipped exactly when the current count is within
    the bounds and no metric has a sample. *)
Theorem recommended_instances_spec oor (alg : RecommendedInstancesAlgorithm)
    (order : list (string * float64)) :
  order ≡ₚ map_to_list (MetricTargets alg) ->
  MinInstances alg <= MaxInstances alg ->
  let desires d := exists name target,
    MetricTargets alg !! name = Some target /\ entry_desired oor alg (name, target) = Some d in
  let in_bounds := MinInstances alg <= CurrentInstancesCount alg <= MaxInstances alg in
  match GetRecommendedInstances oor alg order with
  | (n, true) => in_bounds /\ n = 0 /\ forall d, ~ desires d
  | (n, false) =>
    (CurrentInstancesCount alg < MinInstances alg /\ n = MinInstances alg) \/
    (MaxInstances alg < CurrentInstancesCount alg /\ n = MaxInstances alg) \/
    (in_bounds /\ exists m, desires m /\ (forall d, desires d -> d <= m) /\
       n = Z.min (Z.max m (MinInstances alg)) (MaxInstances alg))
  end.
Proof.
  intros Hperm Hb desires in_bounds. subst in_bounds.
  assert (Hdes : forall d, d ∈ omap (entry_desired oor alg) order <-> desires d).
  { intros d. rewrite list_elem_of_omap. subst desires. simpl. split.
    - intros ([name target] & Hin & Hd). rewrite Hperm in Hin.
      apply elem_of_map_to_list in Hin. eauto.
    - intros (name & target & Hl & Hd). exists (name, target).
      rewrite Hperm. by rewrite elem_of_map_to_list. }
  unfold GetRecommendedInstances.
  destruct (Z.ltb_spec (CurrentInstancesCount alg) (MinInstances alg)); [by left|].
  destruct (Z.ltb_spec (MaxInstances alg) (CurrentInstancesCount alg)); [by right; left|].
  pose proof (recommend_fold oor alg order) as Hf.
  destruct (fold_left _ order (0, true)) as [r []]; simpl.
  - destruct Hf as [-> Hnil]. split_and!; try lia. intros d. rewrite <- Hdes, Hnil. set_solver.
  - destruct Hf as [Hin Hmax]. right. right. split; [lia|].
    exists r. rewrite <- Hdes. split_and!; [done| |done].
    intros d Hd. apply Hmax. by apply Hdes.
Qed.

Definition example_alg : RecommendedInstancesAlgorithm := {|
  MinInstances := 1; MaxInstances := 10; CurrentInstancesCount := 2;
  Tolerance := f_div (f_of_Z 1) (f_of_Z 10);
  MetricTargets := <["load" := f_of_Z 5]> (<["queue" := f_of_Z 4]> ∅);
  UnreadyInstancesCountByMetric := ∅;
  ReadyInstancesMetrics := <["load" := [<["load" := f_of_Z 6]> ∅; <["load" := f_of_Z 10]> ∅]]> ∅;
  ExternalMetrics := <["queue" := f_of_Z 18]> ∅
|}.

Example example_recommendation oor :
  GetRecommendedInstances oor example_alg [("load", f_of_Z 5); ("queue", f_of_Z 4)] = (5, false).
Proof. vm_compute. reflexivity. Qed.

Lemma recommended_instances_spec_witness :
  exists n m,
    GetRecommendedInstances (fun _ => 0) example_alg (map_to_list (MetricTargets example_alg)) =
      (n, false) /\ n = Z.min (Z.max m 1) 10.
Proof.
  pose proof (recommended_instances_spec (fun _ => 0) example_alg
    (map_to_list (MetricTargets example_alg)) (reflexivity _) ltac:(by compute_ok)) as H.
  assert (E : GetRecommendedInstances (fun _ => 0) example_alg
    (map_to_list (MetricTargets example_alg)) = (5, false)) by (vm_compute; reflexivity).
  cbv zeta in H. rewrite E in H. exists 5.
  destruct H as [[H _]|[[H _]|(_ & m & _ & _ & Hn)]].
  - change (2 < 1) in H. exfalso. clear -H. lia.
  - change (10 < 2) in H. exfalso. clear -H. lia.
  - exists m. split; [exact E|exact Hn].
Defined.

(** ** Bounds and direction *)

(** The rounding of a fractional replica count: a NaN counts as none, an
    infinity as the cap of 10^9, and every other float64 that is not below the
    range of an int32 as its ceiling, clamped to [0, 10^9]. *)
Theorem ceil_desired_spec oor (value : float64) :
  valid_binary 53 1024 value = true ->
  match value with
  | S754_nan => getCeilDesiredInstances oor value = 0
  | S754_infinity false => getCeilDesiredInstances oor value = 1000000000
  | S754_infinity true => True
  | S754_zero _ => getCeilDesiredInstances oor value = 0
  | S754_finite s m e =>
    MinInt32 <= ceilZ s m e ->
    getCeilDesiredInstances oor value = Z.max 0 (Z.min (ceilZ s m e) 1000000000)
  end.
Proof.
  intros Hv. destruct value as [s|[]| |s m e]; try done. intros Hz.
  unfold getCeilDesiredInstances. cbn [f_isNaN f_ceil].
  destruct (Z.leb_spec 0 e) as [He|He].
  - pose proof (valid_mantissa_large s m e Hv He) as Hm.
    assert (0 < 2 ^ e) by (apply Z.pow_pos_nonneg; lia).
    unfold ceilZ, sign_Z, MinInt32 in *. destruct (Z.leb_spec 0 e); [|lia].
    destruct s; [nia|]. rewrite (proj2 (f_lt_key_false (S754_finite false m e) _ _ _
      eq_refl (f_key_of_Z 1000000000 ltac:(by unfold exact_Z)))); [nia|].
    unfold key_lt. simpl. unfold exp_of. simpl. lia.
  - pose proof (ceilZ_exact s m e Hv He) as Hx. unfold of_Z_signed.
    destruct (Z.eqb_spec (ceilZ s m e) 0) as [->|Hn0]; [by destruct s|].
    rewrite f_lt_of_Z by (done || by unfold exact_Z).
    destruct (Z.ltb_spec (ceilZ s m e) 1000000000); [|lia].
    rewrite f_to_int32_of_Z by (unfold MinInt32 in *; go_lia). lia.
Qed.

Lemma ceil_desired_spec_witness :
  valid_binary 53 1024 (S754_finite false 5629499534213120 (-50)) = true /\
  getCeilDesiredInstances (fun _ => 0) (S754_finite false 5629499534213121 (-50)) = 6.
Proof.
  split; [reflexivity|].
  refine (ceil_desired_spec (fun _ => 0) (S754_finite false 5629499534213121 (-50)) _ _);
    [reflexivity|vm_compute; discriminate].
Defined.

(** When some pods have no sample or are not ready, the recommendation
    never moves against the observed load: with a ratio of usage to target
    below 1 it does not exceed the current count, and with a ratio of at least
    1 it is not below it. *)
Theorem unready_pods_never_reverse oor current tolerance name target unready ready
    metricsCount sum missing :
  countMetrics name ready = (metricsCount, sum, missing) ->
  let ratio := f_div (f_div sum (f_of_Z metricsCount)) target in
  0 < missing \/ (0 < unready /\ getDirection ratio = 1) ->
  match getDesiredInstancesForSingleInstanceMetric oor current tolerance name target unready ready with
  | (desired, true) =>
    if getDirection ratio <? 0 then desired <= current else current <= desired
  | (_, false) => metricsCount = 0
  end.
Proof.
  intros Ecm ratio Hmiss. unfold getDesiredInstancesForSingleInstanceMetric. rewrite Ecm.
  destruct (Z.eqb_spec metricsCount 0); [done|]. fold ratio.
  assert (Hskip : negb ((0 <? unready) && (0 <? getDirection ratio)) && (missing =? 0) = false).
  { destruct Hmiss as [|[? ->]]; destruct (Z.eqb_spec missing 0), (Z.ltb_spec 0 unready);
      rewrite ?andb_false_r; try lia; done. }
  rewrite Hskip. set (nr := f_div _ target). set (d := getCeilDesiredInstances _ _).
  destruct (f_le _ tolerance); cbn [orb]; [by destruct (getDirection ratio <? 0)|].
  destruct (Z.eqb_spec (getDirection ratio) (getDirection nr)) as [->|];
    cbn [negb]; [|by destruct (getDirection ratio <? 0)].
  unfold getDirection. destruct (f_ge nr f_one); simpl;
    destruct (Z.ltb_spec current d), (Z.ltb_spec d current); simpl; lia.
Qed.

Definition example_ready : list Metrics := [<["load" := f_of_Z 30]> ∅; ∅].

Lemma unready_pods_never_reverse_witness : exists desired,
  getDesiredInstancesForSingleInstanceMetric (fun _ => 0) 2 f_zero "load" (f_of_Z 10) 0
    example_ready = (desired, true) /\ 2 <= desired.
Proof.
  pose proof (unready_pods_never_reverse (fun _ => 0) 2 f_zero "load" (f_of_Z 10) 0
    example_ready 1 (f_of_Z 30) 1 ltac:(vm_compute; reflexivity) ltac:(by left)) as H.
  assert (E : getDesiredInstancesForSingleInstanceMetric (fun _ => 0) 2 f_zero "load"
    (f_of_Z 10) 0 example_ready = (3, true)) by (vm_compute; reflexivity).
  rewrite E in H. exists 3. split; [exact E|exact H].
Defined.
