(* ===== verification/Revision.v ===== *)
(** * pkg/autoscaler/algorithm/revision.go

    The correction of a recommended replica count by the scaling behaviour:
    stabilisation windows and rate limits over the history kept in sliding
    windows. A [GetBest] call also expires records of its window, so every
    function returns the updated [History]; each takes the clock readings of
    the calls it makes, in order. [None] is a nil dereference (an unset field
    of the behaviour) or a panic of a window. *)
From S2P Require Import Prelude Float64 Deque SlidingWindow.
Local Open Scope Z_scope.
Local Open Scope go_scope.

Definition SelectPolicyOr : string := "Or".
Definition SelectPolicyAnd : string := "And".

(** Durations are in milliseconds; a nil pointer is [None]. *)
Record AutoscalingPolicyStablePolicy := StablePolicy {
  Instances : option Z;
  Percent : option Z;
  Period : option Z;
  SelectPolicy : string;
  StabilizationWindow : option Z
}.

Record AutoscalingPolicyPanicPolicy := PanicPolicy {
  PanicPercent : option Z;
  PanicPeriod : Z;
  PanicThresholdPercent : option Z;
  PanicModeHold : option Z
}.

Record AutoscalingPolicyBehavior := Behavior {
  ScaleUpStable : AutoscalingPolicyStablePolicy;
  ScaleUpPanic : AutoscalingPolicyPanicPolicy;
  ScaleDown : AutoscalingPolicyStablePolicy
}.

Section revision.
Context {D : Type -> Type} `{DequeLaws D}.

Record History := MkHistory {
  MaxRecommendation : RmqRecord.RmqRecordSlidingWindow D Z;
  MinRecommendation : RmqRecord.RmqRecordSlidingWindow D Z;
  MaxCorrected : RmqLineChart.RmqLineChartSlidingWindow D Z;
  MinCorrectedForStable : RmqLineChart.RmqLineChartSlidingWindow D Z;
  MinCorrectedForPanic : RmqLineChart.RmqLineChartSlidingWindow D Z
}.

Definition set_MaxRecommendation (h : History) w :=
  MkHistory w (MinRecommendation h) (MaxCorrected h) (MinCorrectedForStable h)
    (MinCorrectedForPanic h).
Definition set_MinRecommendation (h : History) w :=
  MkHistory (MaxRecommendation h) w (MaxCorrected h) (MinCorrectedForStable h)
    (MinCorrectedForPanic h).
Definition set_MaxCorrected (h : History) w :=
  MkHistory (MaxRecommendation h) (MinRecommendation h) w (MinCorrectedForStable h)
    (MinCorrectedForPanic h).
Definition set_MinCorrectedForStable (h : History) w :=
  MkHistory (MaxRecommendation h) (MinRecommendation h) (MaxCorrected h) w
    (MinCorrectedForPanic h).
Definition set_MinCorrectedForPanic (h : History) w :=
  MkHistory (MaxRecommendation h) (MinRecommendation h) (MaxCorrected h)
    (MinCorrectedForStable h) w.

Record CorrectedInstancesAlgorithm := MkCorrected {
  IsPanic : bool;
  BehaviorOf : AutoscalingPolicyBehavior;
  MinInstances : Z;
  MaxInstances : Z;
  CurrentInstances : Z;
  RecommendedInstances : Z
}.

Definition selectConstraintDown (policy : string) (absolute relative : Z) : Z :=
  if decide (policy = SelectPolicyOr) then Z.min absolute relative
  else if decide (policy = SelectPolicyAnd) then Z.max absolute relative
  else MinInt32.

Definition selectConstraintUp (policy : string) (absolute relative : Z) : Z :=
  if decide (policy = SelectPolicyOr) then Z.max absolute relative
  else if decide (policy = SelectPolicyAnd) then Z.min absolute relative
  else MaxInt32.

(** The clock readings [t1] (recommendations) and [t2] (corrections). *)
Definition getCorrectedInstancesForStableScaleDown (alg : CorrectedInstancesAlgorithm)
    (t1 t2 : Z) (hist : History) : option (Z * History) :=
  let corrected := RecommendedInstances alg in
  '(w, (betterRecommendation, ok)) ← RmqRecord.GetBest (MaxRecommendation hist) t1;
  let hist := set_MaxRecommendation hist w in
  let corrected := if ok : bool then Z.max corrected betterRecommendation else corrected in
  '(w, (pastSample, ok)) ← RmqLineChart.GetBest (MaxCorrected hist) t2 (CurrentInstances alg);
  let hist := set_MaxCorrected hist w in
  corrected ← (if ok : bool then
    instances ← Instances (ScaleDown (BehaviorOf alg));
    percent ← Percent (ScaleDown (BehaviorOf alg));
    let absoluteConstraint := pastSample -₃₂ instances in
    let relativeConstraint := pastSample -₃₂ Z.quot (pastSample *₃₂ percent) 100 in
    let constraint := selectConstraintDown (SelectPolicy (ScaleDown (BehaviorOf alg)))
                        absoluteConstraint relativeConstraint in
    Some (Z.max corrected constraint)
  else Some corrected);
  Some (Z.min corrected (CurrentInstances alg), hist).

Definition getCorrectedInstancesForStableScaleUp (alg : CorrectedInstancesAlgorithm)
    (t1 t2 : Z) (hist : History) : option (Z * History) :=
  let corrected := RecommendedInstances alg in
  '(w, (betterRecommendation, ok)) ← RmqRecord.GetBest (MinRecommendation hist) t1;
  let hist := set_MinRecommendation hist w in
  let corrected := if ok : bool then Z.min corrected betterRecommendation else corrected in
  '(w, (pastSample, ok)) ←
    RmqLineChart.GetBest (MinCorrectedForStable hist) t2 (CurrentInstances alg);
  let hist := set_MinCorrectedForStable hist w in
  corrected ← (if ok : bool then
    instances ← Instances (ScaleUpStable (BehaviorOf alg));
    percent ← Percent (ScaleUpStable (BehaviorOf alg));
    let absoluteConstraint := pastSample +₃₂ instances in
    let relativeConstraint := pastSample +₃₂ Z.quot (pastSample *₃₂ percent) 100 in
    let constraint := selectConstraintUp (SelectPolicy (ScaleUpStable (BehaviorOf alg)))
                        absoluteConstraint relativeConstraint in
    Some (Z.min corrected constraint)
  else Some corrected);
  Some (Z.max corrected (CurrentInstances alg), hist).

Definition getCorrectedInstancesForStable (alg : CorrectedInstancesAlgorithm)
    (t1 t2 : Z) (hist : History) : option (Z * History) :=
  if RecommendedInstances alg <? CurrentInstances alg then
    getCorrectedInstancesForStableScaleDown alg t1 t2 hist
  else if CurrentInstances alg <? RecommendedInstances alg then
    getCorrectedInstancesForStableScaleUp alg t1 t2 hist
  else Some (RecommendedInstances alg, hist).

(** [oor]: the implementation-dependent [int32] of a float out of range. *)
Definition getCorrectedInstancesForPanic (oor : float64 -> Z)
    (alg : CorrectedInstancesAlgorithm) (t1 : Z) (hist : History) : option (Z * History) :=
  let corrected := RecommendedInstances alg in
  '(w, (pastSample, ok)) ←
    RmqLineChart.GetBest (MinCorrectedForPanic hist) t1 (CurrentInstances alg);
  let hist := set_MinCorrectedForPanic hist w in
  corrected ← (if (ok : bool) && (0 <? pastSample) then
    percent ← PanicPercent (ScaleUpPanic (BehaviorOf alg));
    let relativeConstraint := pastSample +₃₂ f_to_int32 oor
      (f_div (f_mul (f_of_Z pastSample) (f_of_Z percent)) (f_of_Z 100)) in
    Some (Z.min corrected relativeConstraint)
  else Some corrected);
  Some (Z.max corrected (CurrentInstances alg), hist).

Definition GetCorrectedInstances (oor : float64 -> Z) (alg : CorrectedInstancesAlgorithm)
    (t1 t2 : Z) (hist : History) : option (Z * History) :=
  '(corrected, hist) ← (if IsPanic alg then getCorrectedInstancesForPanic oor alg t1 hist
                        else getCorrectedInstancesForStable alg t1 t2 hist);
  Some (Z.min (Z.max corrected (MinInstances alg)) (MaxInstances alg), hist).

(** ** The history behind the windows

    The five lengths are those of the windows; the logs are the values each
    window was given so far, with the time of the call (the windows read the
    clock one after the other). *)
Record HistoryLengths := MkLengths {
  len_max_rec : Z; len_min_rec : Z; len_max_cor : Z; len_min_stable : Z; len_min_panic : Z
}.

Record HistoryLogs := MkLogs {
  log_max_rec : list (snapshotRecord Z);
  log_min_rec : list (snapshotRecord Z);
  log_max_cor : list (Z * Z);
  log_min_stable : list (Z * Z);
  log_min_panic : list (Z * Z)
}.

Definition empty_logs : HistoryLogs := MkLogs [] [] [] [] [].

Definition lengths_ok (l : HistoryLengths) : Prop :=
  duration_ok (len_max_rec l) /\ duration_ok (len_min_rec l) /\ duration_ok (len_max_cor l) /\
  duration_ok (len_min_stable l) /\ duration_ok (len_min_panic l).

Definition history_inv (l : HistoryLengths) (g : HistoryLogs) (now : Z) (hist : History) : Prop :=
  record_inv better_max (len_max_rec l) (log_max_rec g) now (MaxRecommendation hist) /\
  record_inv better_min (len_min_rec l) (log_min_rec g) now (MinRecommendation hist) /\
  line_inv better_max (len_max_cor l) (log_max_cor g) now (MaxCorrected hist) /\
  line_inv better_min (len_min_stable l) (log_min_stable g) now (MinCorrectedForStable hist) /\
  line_inv better_min (len_min_panic l) (log_min_panic g) now (MinCorrectedForPanic hist).
End revision.
Arguments History D : clear implicits.

(** The windows of a new autoscaler. *)
Definition NewHistory {D : Type -> Type} `{DequeOps D} (l : HistoryLengths) : History D :=
  MkHistory (RmqRecord.NewMaximumRecordSlidingWindow (len_max_rec l))
    (RmqRecord.NewMinimumRecordSlidingWindow (len_min_rec l))
    (RmqLineChart.NewMaximumLineChartSlidingWindow (len_max_cor l))
    (RmqLineChart.NewMinimumLineChartSlidingWindow (len_min_stable l))
    (RmqLineChart.NewMinimumLineChartSlidingWindow (len_min_panic l)).

Lemma NewHistory_inv {D : Type -> Type} `{DequeLaws D} l now :
  lengths_ok l -> history_inv l empty_logs now (NewHistory (D:=D) l).
Proof.
  intros (L1 & L2 & L3 & L4 & L5).
  split_and!; [apply record_inv_new|apply record_inv_new|apply line_inv_new..]; (done || apply _).
Qed.

(** ** Correction against the history *)
Section correction.
Context {D : Type -> Type} `{DequeLaws D}.

Definition valid_now (now t : Z) : Prop := now <= t /\ time_ok t.

(** [best_of]: the extremum of a window of recommendations, or of the pieces
    of the corrected count, in the sense of the client. *)
Definition max_piece (F now cur : Z) (cors : list (Z * Z)) (past : Z) : Prop :=
  past ∈ candidates F now cur cors /\ forall u, u ∈ candidates F now cur cors -> u <= past.
Definition min_piece (F now cur : Z) (cors : list (Z * Z)) (past : Z) : Prop :=
  past ∈ candidates F now cur cors /\ forall u, u ∈ candidates F now cur cors -> past <= u.

(** What a scale-down may not go below: the recommendation, every
    recommendation of the stabilisation window, the rate limit applied to the
    largest count of the period. *)
Inductive down_floor (alg : CorrectedInstancesAlgorithm) (l : HistoryLengths)
    (g : HistoryLogs) (t1 t2 : Z) : Z -> Prop :=
| floor_recommended : down_floor alg l g t1 t2 (RecommendedInstances alg)
| floor_stabilized r :
    len_max_rec l <> 0 -> r ∈ log_max_rec g -> t1 <= timestamp r + len_max_rec l ->
    down_floor alg l g t1 t2 (value r)
| floor_rate past instances percent :
    len_max_cor l <> 0 -> max_piece (len_max_cor l) t2 (CurrentInstances alg) (log_max_cor g) past ->
    Instances (ScaleDown (BehaviorOf alg)) = Some instances ->
    Percent (ScaleDown (BehaviorOf alg)) = Some percent ->
    down_floor alg l g t1 t2
      (selectConstraintDown (SelectPolicy (ScaleDown (BehaviorOf alg)))
         (past -₃₂ instances) (past -₃₂ Z.quot (past *₃₂ percent) 100)).

(** What a scale-up may not exceed. *)
Inductive up_ceiling (alg : CorrectedInstancesAlgorithm) (l : HistoryLengths)
    (g : HistoryLogs) (t1 t2 : Z) : Z -> Prop :=
| ceiling_recommended : up_ceiling alg l g t1 t2 (RecommendedInstances alg)
| ceiling_stabilized r :
    len_min_rec l <> 0 -> r ∈ log_min_rec g -> t1 <= timestamp r + len_min_rec l ->
    up_ceiling alg l g t1 t2 (value r)
| ceiling_rate past instances percent :
    len_min_stable l <> 0 -> min_piece (len_min_stable l) t2 (CurrentInstances alg) (log_min_stable g) past ->
    Instances (ScaleUpStable (BehaviorOf alg)) = Some instances ->
    Percent (ScaleUpStable (BehaviorOf alg)) = Some percent ->
    up_ceiling alg l g t1 t2
      (selectConstraintUp (SelectPolicy (ScaleUpStable (BehaviorOf alg)))
         (past +₃₂ instances) (past +₃₂ Z.quot (past *₃₂ percent) 100)).

Lemma best_answer_max F now recs v ok :
  best_answer better_max F now recs (v, ok) ->
  (if ok then F <> 0 /\ exists r, r ∈ recs /\ now <= timestamp r + F /\ value r = v else True) /\
  (forall r, F <> 0 -> r ∈ recs -> now <= timestamp r + F -> ok = true /\ value r <= v).
Proof.
  destruct ok; simpl.
  - intros (HF & Hr & Hmax). split; [naive_solver|]. intros r _ Hin Hf. split; [done|].
    specialize (Hmax r Hin Hf). unfold better_max, num_ltb, int_number in Hmax. lia.
  - intros (_ & Hn). split; [done|]. naive_solver.
Qed.

Lemma best_answer_min F now recs v ok :
  best_answer better_min F now recs (v, ok) ->
  (if ok then F <> 0 /\ exists r, r ∈ recs /\ now <= timestamp r + F /\ value r = v else True) /\
  (forall r, F <> 0 -> r ∈ recs -> now <= timestamp r + F -> ok = true /\ v <= value r).
Proof.
  destruct ok; simpl.
  - intros (HF & Hr & Hmax). split; [naive_solver|]. intros r _ Hin Hf. split; [done|].
    specialize (Hmax r Hin Hf). unfold better_min, num_ltb, int_number in Hmax. lia.
  - intros (_ & Hn). split; [done|]. naive_solver.
Qed.

Lemma line_answer_max F now cur cors ans :
  line_answer better_max F now cur cors ans ->
  (F = 0 /\ ans = (0, false)) \/ (F <> 0 /\ exists v, ans = (v, true) /\ max_piece F now cur cors v).
Proof.
  unfold line_answer. destruct (Z.eqb_spec F 0); [by left|].
  intros (v & -> & Hv & Hmax). right. split; [done|]. exists v. split; [done|].
  split; [done|]. intros u Hu. specialize (Hmax u Hu).
  unfold better_max, num_ltb, int_number in Hmax. lia.
Qed.

Lemma line_answer_min F now cur cors ans :
  line_answer better_min F now cur cors ans ->
  (F = 0 /\ ans = (0, false)) \/ (F <> 0 /\ exists v, ans = (v, true) /\ min_piece F now cur cors v).
Proof.
  unfold line_answer. destruct (Z.eqb_spec F 0); [by left|].
  intros (v & -> & Hv & Hmax). right. split; [done|]. exists v. split; [done|].
  split; [done|]. intros u Hu. specialize (Hmax u Hu).
  unfold better_min, num_ltb, int_number in Hmax. lia.
Qed.

Lemma max_piece_unique F now cur cors p q :
  max_piece F now cur cors p -> max_piece F now cur cors q -> p = q.
Proof. intros [H1 H2] [H3 H4]. apply Z.le_antisymm; auto. Qed.

Lemma min_piece_unique F now cur cors p q :
  min_piece F now cur cors p -> min_piece F now cur cors q -> p = q.
Proof. intros [H1 H2] [H3 H4]. apply Z.le_antisymm; auto. Qed.
End correction.

(** [c] is the largest (the smallest) of the limits [P]. *)
Definition is_sup (P : Z -> Prop) (c : Z) : Prop := P c /\ forall f, P f -> f <= c.
Definition is_inf (P : Z -> Prop) (c : Z) : Prop := P c /\ forall f, P f -> c <= f.

Section limits.
Implicit Types P : Z -> Prop.

Lemma is_sup_ext P Q c : (forall f, P f <-> Q f) -> is_sup P c -> is_sup Q c.
Proof. unfold is_sup. naive_solver. Qed.

Lemma is_inf_ext P Q c : (forall f, P f <-> Q f) -> is_inf P c -> is_inf Q c.
Proof. unfold is_inf. naive_solver. Qed.

Lemma is_sup_add P c k : is_sup P c -> is_sup (fun f => P f \/ f = k) (Z.max c k).
Proof.
  intros [H1 H2]. split.
  - destruct (Z.max_spec c k) as [[_ ->]|[_ ->]]; auto.
  - intros f [Hf| ->]; [specialize (H2 f Hf)|]; lia.
Qed.

Lemma is_inf_add P c k : is_inf P c -> is_inf (fun f => P f \/ f = k) (Z.min c k).
Proof.
  intros [H1 H2]. split.
  - destruct (Z.min_spec c k) as [[_ ->]|[_ ->]]; auto.
  - intros f [Hf| ->]; [specialize (H2 f Hf)|]; lia.
Qed.

Definition stabilized (F now : Z) (recs : list (snapshotRecord Z)) (f : Z) : Prop :=
  F <> 0 /\ exists r, r ∈ recs /\ now <= timestamp r + F /\ f = value r.

Lemma is_sup_window P c F now recs v ok :
  is_sup P c -> best_answer better_max F now recs (v, ok) ->
  is_sup (fun f => P f \/ stabilized F now recs f) (if ok then Z.max c v else c).
Proof.
  intros [H1 H2] [Hv Hmax]%best_answer_max. destruct ok; split.
  - destruct (Z.max_spec c v) as [[_ ->]|[_ ->]]; [right|by left].
    destruct Hv as (HF & r & Hr & Hf & <-). split; [done|by exists r].
  - intros f [Hf|(HF & r & Hr & Hf & ->)]; [specialize (H2 f Hf); lia|].
    destruct (Hmax r HF Hr Hf). lia.
  - by left.
  - intros f [Hf|(HF & r & Hr & Hf & ->)]; [by apply H2|]. by destruct (Hmax r HF Hr Hf).
Qed.

Lemma is_inf_window P c F now recs v ok :
  is_inf P c -> best_answer better_min F now recs (v, ok) ->
  is_inf (fun f => P f \/ stabilized F now recs f) (if ok then Z.min c v else c).
Proof.
  intros [H1 H2] [Hv Hmax]%best_answer_min. destruct ok; split.
  - destruct (Z.min_spec c v) as [[_ ->]|[_ ->]]; [by left|right].
    destruct Hv as (HF & r & Hr & Hf & <-). split; [done|by exists r].
  - intros f [Hf|(HF & r & Hr & Hf & ->)]; [specialize (H2 f Hf); lia|].
    destruct (Hmax r HF Hr Hf). lia.
  - by left.
  - intros f [Hf|(HF & r & Hr & Hf & ->)]; [by apply H2|]. by destruct (Hmax r HF Hr Hf).
Qed.
End limits.

Section correction_theorems.
Context {D : Type -> Type} `{DequeLaws D}.
Implicit Types hist : History D.

Lemma history_inv_mono l g now t hist :
  lengths_ok l -> history_inv l g now hist -> now <= t -> history_inv l g t hist.
Proof.
  intros (L1 & L2 & L3 & L4 & L5) (I1 & I2 & I3 & I4 & I5) Ht.
  split_and!; [eapply record_inv_mono|eapply record_inv_mono|eapply line_inv_mono..]; eauto.
Qed.

Lemma scale_down_step alg l g now t1 t2 hist instances percent :
  lengths_ok l -> history_inv l g now hist -> valid_now now t1 -> valid_now t1 t2 ->
  Instances (ScaleDown (BehaviorOf alg)) = Some instances ->
  Percent (ScaleDown (BehaviorOf alg)) = Some percent ->
  exists c hist',
    getCorrectedInstancesForStableScaleDown alg t1 t2 hist = Some (c, hist') /\
    history_inv l g t2 hist' /\
    exists s, is_sup (down_floor alg l g t1 t2) s /\ c = Z.min s (CurrentInstances alg).
Proof.
  intros Hl Hinv [Hn1 Ht1] [Hn2 Ht2] Hi Hp.
  unfold getCorrectedInstancesForStableScaleDown.
  pose proof Hl as (L1 & _ & L3 & _ & _). pose proof Hinv as (I1 & _ & I3 & _ & _).
  destruct (record_best better_max _ L1 _ now _ t1 I1 Hn1 Ht1)
    as (w1 & [v1 ok1] & -> & J1 & A1). simpl.
  apply (is_sup_window (eq (RecommendedInstances alg)) (RecommendedInstances alg)) in A1;
    [|split; [done|lia]].
  destruct (line_best_step better_max _ L3 _ now _ t2 (CurrentInstances alg) I3 ltac:(lia) Ht2)
    as (w2 & ans & -> & J2 & A3%line_answer_max).
  set (c1 := if ok1 then Z.max _ v1 else _) in *.
  assert (Jh : history_inv l g t2 (set_MaxCorrected (set_MaxRecommendation hist w1) w2)).
  { destruct (history_inv_mono l g now t2 hist Hl Hinv) as (_ & ? & _ & ? & ?); [lia|].
    split_and!; simpl; try done. by eapply record_inv_mono. }
  destruct A3 as [[HF0 ->]|(HF0 & past & -> & Hpast)]; simpl.
  - eexists _, _. split; [done|]. split; [done|]. exists c1. split; [|done].
    eapply is_sup_ext; [|exact A1]. intros f. split.
    + intros [<-|(HF & r & Hr & Hf & ->)]; by econstructor.
    + intros [|r HF Hr Hf|? ? ? HF]; [by left|right; split; [done|by exists r]|done].
  - rewrite Hi, Hp. simpl. eexists _, _. split; [done|]. split; [done|].
    set (k := selectConstraintDown _ _ _). exists (Z.max c1 k). split; [|done].
    eapply is_sup_ext; [|exact (is_sup_add _ _ k A1)]. intros f. split.
    + intros [[<-|(HF & r & Hr & Hf & ->)]| ->]; by econstructor.
    + intros [|r HF Hr Hf|past' i' p' HF Hm' Hi' Hp']; [by left; left|left; right; split; [done|by exists r]|].
      right. rewrite (max_piece_unique _ _ _ _ _ _ Hm' Hpast). rewrite Hi in Hi'.
      rewrite Hp in Hp'. by simplify_eq.
Qed.

Lemma scale_up_step alg l g now t1 t2 hist instances percent :
  lengths_ok l -> history_inv l g now hist -> valid_now now t1 -> valid_now t1 t2 ->
  Instances (ScaleUpStable (BehaviorOf alg)) = Some instances ->
  Percent (ScaleUpStable (BehaviorOf alg)) = Some percent ->
  exists c hist',
    getCorrectedInstancesForStableScaleUp alg t1 t2 hist = Some (c, hist') /\
    history_inv l g t2 hist' /\
    exists s, is_inf (up_ceiling alg l g t1 t2) s /\ c = Z.max s (CurrentInstances alg).
Proof.
  intros Hl Hinv [Hn1 Ht1] [Hn2 Ht2] Hi Hp.
  unfold getCorrectedInstancesForStableScaleUp.
  pose proof Hl as (_ & L2 & _ & L4 & _). pose proof Hinv as (_ & I2 & _ & I4 & _).
  destruct (record_best better_min _ L2 _ now _ t1 I2 Hn1 Ht1)
    as (w1 & [v1 ok1] & -> & J1 & A1). simpl.
  apply (is_inf_window (eq (RecommendedInstances alg)) (RecommendedInstances alg)) in A1;
    [|split; [done|lia]].
  destruct (line_best_step better_min _ L4 _ now _ t2 (CurrentInstances alg) I4 ltac:(lia) Ht2)
    as (w2 & ans & -> & J2 & A3%line_answer_min).
  set (c1 := if ok1 then Z.min _ v1 else _) in *.
  assert (Jh : history_inv l g t2
    (set_MinCorrectedForStable (set_MinRecommendation hist w1) w2)).
  { destruct (history_inv_mono l g now t2 hist Hl Hinv) as (? & _ & ? & _ & ?); [lia|].
    split_and!; simpl; try done. by eapply record_inv_mono. }
  destruct A3 as [[HF0 ->]|(HF0 & past & -> & Hpast)]; simpl.
  - eexists _, _. split; [done|]. split; [done|]. exists c1. split; [|done].
    eapply is_inf_ext; [|exact A1]. intros f. split.
    + intros [<-|(HF & r & Hr & Hf & ->)]; by econstructor.
    + intros [|r HF Hr Hf|? ? ? HF]; [by left|right; split; [done|by exists r]|done].
  - rewrite Hi, Hp. simpl. eexists _, _. split; [done|]. split; [done|].
    set (k := selectConstraintUp _ _ _). exists (Z.min c1 k). split; [|done].
    eapply is_inf_ext; [|exact (is_inf_add _ _ k A1)]. intros f. split.
    + intros [[<-|(HF & r & Hr & Hf & ->)]| ->]; by econstructor.
    + intros [|r HF Hr Hf|past' i' p' HF Hm' Hi' Hp']; [by left; left|left; right; split; [done|by exists r]|].
      right. rewrite (min_piece_unique _ _ _ _ _ _ Hm' Hpast). rewrite Hi in Hi'.
      rewrite Hp in Hp'. by simplify_eq.
Qed.

(** The panic window's cap on a scale-up: the smallest count of the period
    plus a percentage of it, computed in float64. *)
Definition panic_cap (oor : float64 -> Z) (past percent : Z) : Z :=
  past +₃₂ f_to_int32 oor (f_div (f_mul (f_of_Z past) (f_of_Z percent)) (f_of_Z 100)).

Definition panic_raw oor alg l g t1 percent (raw : Z) : Prop :=
  (exists past, len_min_panic l <> 0 /\
     min_piece (len_min_panic l) t1 (CurrentInstances alg) (log_min_panic g) past /\ 0 < past /\
     raw = Z.max (CurrentInstances alg)
             (Z.min (RecommendedInstances alg) (panic_cap oor past percent))) \/
  ((len_min_panic l = 0 \/
    exists past, min_piece (len_min_panic l) t1 (CurrentInstances alg) (log_min_panic g) past /\ past <= 0) /\
   raw = Z.max (CurrentInstances alg) (RecommendedInstances alg)).

Lemma panic_step oor alg l g now t1 hist percent :
  lengths_ok l -> history_inv l g now hist -> valid_now now t1 ->
  PanicPercent (ScaleUpPanic (BehaviorOf alg)) = Some percent ->
  exists c hist',
    getCorrectedInstancesForPanic oor alg t1 hist = Some (c, hist') /\
    history_inv l g t1 hist' /\ panic_raw oor alg l g t1 percent c.
Proof.
  intros Hl Hinv [Hn1 Ht1] Hp. unfold getCorrectedInstancesForPanic.
  pose proof Hl as (_ & _ & _ & _ & L5). pose proof Hinv as (_ & _ & _ & _ & I5).
  destruct (line_best_step better_min _ L5 _ now _ t1 (CurrentInstances alg) I5 Hn1 Ht1)
    as (w & ans & -> & J & A%line_answer_min). simpl.
  assert (Jh : history_inv l g t1 (set_MinCorrectedForPanic hist w)).
  { destruct (history_inv_mono l g now t1 hist Hl Hinv) as (? & ? & ? & ? & _); [lia|].
    by split_and!. }
  destruct A as [[HF0 ->]|(HF0 & past & -> & Hpast)]; simpl.
  - eexists _, _. split; [done|]. split; [done|]. right. split; [by left|]. lia.
  - destruct (Z.ltb_spec 0 past); simpl.
    + rewrite Hp. simpl. eexists _, _. split; [done|]. split; [done|].
      left. exists past. split_and!; [done|done|done|]. unfold panic_cap. lia.
    + eexists _, _. split; [done|]. split; [done|]. right. split; [|lia].
      right. by exists past.
Qed.
End correction_theorems.

Definition clamp (lo hi z : Z) : Z := Z.min (Z.max z lo) hi.

(** C38: a stable scale-down settles on the largest of: the recommendation,
    every recommendation recorded within the stabilisation window, and the
    rate limit applied to the largest count of the period; never on more than
    the current count, and always within the bounds of the policy. The
    history of the windows is unchanged. *)
Theorem stable_scale_down_spec {D} `{DequeLaws D} oor alg l g now t1 t2
    (hist : History D) instances percent :
  lengths_ok l -> history_inv l g now hist -> valid_now now t1 -> valid_now t1 t2 ->
  IsPanic alg = false -> RecommendedInstances alg < CurrentInstances alg ->
  Instances (ScaleDown (BehaviorOf alg)) = Some instances ->
  Percent (ScaleDown (BehaviorOf alg)) = Some percent ->
  exists s hist',
    GetCorrectedInstances oor alg t1 t2 hist =
      Some (clamp (MinInstances alg) (MaxInstances alg) (Z.min s (CurrentInstances alg)), hist') /\
    is_sup (down_floor alg l g t1 t2) s /\ history_inv l g t2 hist'.
Proof.
  intros Hl Hinv H1 H2 Hnp Hlt Hi Hp.
  destruct (scale_down_step alg l g now t1 t2 hist instances percent)
    as (c & hist' & Hc & Hinv' & s & Hs & ->); [done..|].
  exists s, hist'. split_and!; [|done|done].
  unfold GetCorrectedInstances, getCorrectedInstancesForStable. rewrite Hnp.
  destruct (Z.ltb_spec (RecommendedInstances alg) (CurrentInstances alg)); [|lia].
  by rewrite Hc.
Qed.

Definition example_alg (panic : bool) (current recommended : Z) : CorrectedInstancesAlgorithm :=
  MkCorrected panic
    (Behavior (StablePolicy (Some 4) (Some 100) (Some 60000) SelectPolicyOr (Some 0))
       (PanicPolicy (Some 50) 60000 (Some 200) (Some 60000))
       (StablePolicy (Some 1) (Some 10) (Some 60000) SelectPolicyOr (Some 300000)))
    1 50 current recommended.

Definition example_lengths : HistoryLengths := MkLengths 300000 0 60000 60000 60000.

Lemma stable_scale_down_spec_witness :
  exists s hist',
    GetCorrectedInstances (fun _ => 0) (example_alg false 20 5) 10 11
      (NewHistory (D:=list) example_lengths) =
      Some (clamp 1 50 (Z.min s 20), hist') /\
    is_sup (down_floor (example_alg false 20 5) example_lengths empty_logs 10 11) s.
Proof.
  destruct (stable_scale_down_spec (fun _ => 0) (example_alg false 20 5) example_lengths empty_logs
    0 10 11 (NewHistory (D:=list) example_lengths) 1 10) as (s & hist' & H1 & H2 & _);
    [by compute_ok|apply NewHistory_inv; by compute_ok|by compute_ok..|].
  exists s, hist'. split; [exact H1|exact H2].
Defined.

(** A stable scale-up settles on the smallest of: the recommendation,
    every recommendation recorded within the stabilisation window, and the
    rate limit applied to the smallest count of the period; never on less than
    the current count, and always within the bounds of the policy. *)
Theorem stable_scale_up_spec {D} `{DequeLaws D} oor alg l g now t1 t2
    (hist : History D) instances percent :
  lengths_ok l -> history_inv l g now hist -> valid_now now t1 -> valid_now t1 t2 ->
  IsPanic alg = false -> CurrentInstances alg < RecommendedInstances alg ->
  Instances (ScaleUpStable (BehaviorOf alg)) = Some instances ->
  Percent (ScaleUpStable (BehaviorOf alg)) = Some percent ->
  exists s hist',
    GetCorrectedInstances oor alg t1 t2 hist =
      Some (clamp (MinInstances alg) (MaxInstances alg) (Z.max s (CurrentInstances alg)), hist') /\
    is_inf (up_ceiling alg l g t1 t2) s /\ history_inv l g t2 hist'.
Proof.
  intros Hl Hinv H1 H2 Hnp Hlt Hi Hp.
  destruct (scale_up_step alg l g now t1 t2 hist instances percent)
    as (c & hist' & Hc & Hinv' & s & Hs & ->); [done..|].
  exists s, hist'. split_and!; [|done|done].
  unfold GetCorrectedInstances, getCorrectedInstancesForStable. rewrite Hnp.
  destruct (Z.ltb_spec (RecommendedInstances alg) (CurrentInstances alg)); [lia|].
  destruct (Z.ltb_spec (CurrentInstances alg) (RecommendedInstances alg)); [|lia].
  by rewrite Hc.
Qed.

Lemma stable_scale_up_spec_witness :
  exists s hist',
    GetCorrectedInstances (fun _ => 0) (example_alg false 5 20) 10 11
      (NewHistory (D:=list) example_lengths) =
      Some (clamp 1 50 (Z.max s 5), hist') /\
    is_inf (up_ceiling (example_alg false 5 20) example_lengths empty_logs 10 11) s.
Proof.
  destruct (stable_scale_up_spec (fun _ => 0) (example_alg false 5 20) example_lengths empty_logs
    0 10 11 (NewHistory (D:=list) example_lengths) 4 100) as (s & hist' & H1 & H2 & _);
    [by compute_ok|apply NewHistory_inv; by compute_ok|by compute_ok..|].
  exists s, hist'. split; [exact H1|exact H2].
Defined.

(** In panic mode the count never drops below the current one (the
    bounds of the policy apart); it follows the recommendation up to the
    smallest count of the panic period plus the panic percentage of it. *)
Theorem panic_scale_spec {D} `{DequeLaws D} oor alg l g now t1 t2
    (hist : History D) percent :
  lengths_ok l -> history_inv l g now hist -> valid_now now t1 ->
  IsPanic alg = true -> PanicPercent (ScaleUpPanic (BehaviorOf alg)) = Some percent ->
  exists raw hist',
    GetCorrectedInstances oor alg t1 t2 hist =
      Some (clamp (MinInstances alg) (MaxInstances alg) raw, hist') /\
    CurrentInstances alg <= raw <= Z.max (CurrentInstances alg) (RecommendedInstances alg) /\
    panic_raw oor alg l g t1 percent raw /\ history_inv l g t1 hist'.
Proof.
  intros Hl Hinv H1 Hpn Hp.
  destruct (panic_step oor alg l g now t1 hist percent)
    as (raw & hist' & Hc & Hinv' & Hraw); [done..|].
  exists raw, hist'. unfold GetCorrectedInstances. rewrite Hpn, Hc.
  split_and!; [done| | |done|done]; destruct Hraw as [(? & _ & _ & _ & ->)|[_ ->]]; lia.
Qed.

Lemma panic_scale_spec_witness :
  exists raw hist',
    GetCorrectedInstances (fun _ => 0) (example_alg true 10 40) 10 11
      (NewHistory (D:=list) example_lengths) = Some (clamp 1 50 raw, hist') /\
    10 <= raw <= 40.
Proof.
  destruct (panic_scale_spec (fun _ => 0) (example_alg true 10 40) example_lengths empty_logs
    0 10 11 (NewHistory (D:=list) example_lengths) 50) as (raw & hist' & H1 & H2 & _);
    [by compute_ok|apply NewHistory_inv; by compute_ok|by compute_ok..|].
  exists raw, hist'. split; [exact H1|exact H2].
Defined.

(** A cap: 10 replicas at 50 percent become 15. *)
Example panic_cap_example : panic_cap (fun _ => 0) 10 50 = 15.
Proof. vm_compute. reflexivity. Qed.

(** With the replica counts and percentages the API server admits, no
    rate limit overflows an int32: the limits are the mathematical ones. *)
Theorem rate_limits_exact past instances percent policy :
  0 <= past <= 1000000 -> 0 <= instances <= 1000000000 -> 0 <= percent <= 1000 ->
  selectConstraintDown policy (past -₃₂ instances) (past -₃₂ Z.quot (past *₃₂ percent) 100) =
  selectConstraintDown policy (past - instances) (past - past * percent / 100) /\
  selectConstraintUp policy (past +₃₂ instances) (past +₃₂ Z.quot (past *₃₂ percent) 100) =
  selectConstraintUp policy (past + instances) (past + past * percent / 100).
Proof.
  intros Hp Hi Hq.
  assert (0 <= past * percent <= 1000000000) by nia.
  assert (0 <= past * percent / 100 <= 10000000).
  { split; [apply Z.div_pos; lia|]. apply Z.div_le_upper_bound; lia. }
  assert (E : Z.quot (past *₃₂ percent) 100 = past * percent / 100).
  { rewrite int32_id by go_lia. rewrite Z.quot_div_nonneg by lia. done. }
  rewrite E. by rewrite !int32_id by go_lia.
Qed.

Lemma rate_limits_exact_witness :
  selectConstraintUp SelectPolicyOr (1000000 +₃₂ 4) (1000000 +₃₂ Z.quot (1000000 *₃₂ 1000) 100)
    = 11000000.
Proof.
  destruct (rate_limits_exact 1000000 4 1000 SelectPolicyOr) as [_ ->]; [lia..|].
  vm_compute. reflexivity.
Defined.
