(* ===== verification/Autoscaler.v ===== *)
(** * pkg/autoscaler/autoscaler/status.go and scaler.go

    One autoscaling cycle: the recommendation from the metrics, the panic
    mode, the correction by the history, and the recording of the result. The
    metrics of a cycle (what [MetricCollector.UpdateMetrics] returns, [None]
    being its error) are an argument. A cycle reads the clock several times:
    [clk i] is the [i]-th reading. [None] is a Go panic. *)
From S2P Require Import Prelude Float64 Deque SlidingWindow Recommendation Revision.
Local Open Scope Z_scope.
Local Open Scope go_scope.

Section status.
Context {D : Type -> Type} `{DequeLaws D}.

Record Status := MkStatus {
  PanicModeEndsAt : Z;
  PanicModeHoldMilliseconds : Z;
  HistoryOf : History D
}.

(** The window lengths [NewStatus] derives from a behaviour; unset durations
    count as 0. *)
Definition status_lengths (behavior : AutoscalingPolicyBehavior) : HistoryLengths :=
  MkLengths (default 0 (StabilizationWindow (ScaleDown behavior)))
    (default 0 (StabilizationWindow (ScaleUpStable behavior)))
    (default 0 (Period (ScaleDown behavior)))
    (default 0 (Period (ScaleUpStable behavior)))
    (PanicPeriod (ScaleUpPanic behavior)).

Definition NewStatus (behavior : AutoscalingPolicyBehavior) : Status :=
  MkStatus 0 (default 0 (PanicModeHold (ScaleUpPanic behavior)))
    (NewHistory (status_lengths behavior)).

Definition AppendRecommendation (s : Status) (t1 t2 : Z) (recommendedInstances : Z) :
    option Status :=
  let h := HistoryOf s in
  w1 ← RmqRecord.Append (MaxRecommendation h) t1 recommendedInstances;
  w2 ← RmqRecord.Append (MinRecommendation h) t2 recommendedInstances;
  Some (MkStatus (PanicModeEndsAt s) (PanicModeHoldMilliseconds s)
          (set_MinRecommendation (set_MaxRecommendation h w1) w2)).

Definition AppendCorrected (s : Status) (t1 t2 t3 : Z) (correctedInstances : Z) :
    option Status :=
  let h := HistoryOf s in
  w1 ← RmqLineChart.Append (MaxCorrected h) t1 correctedInstances;
  w2 ← RmqLineChart.Append (MinCorrectedForStable h) t2 correctedInstances;
  w3 ← RmqLineChart.Append (MinCorrectedForPanic h) t3 correctedInstances;
  Some (MkStatus (PanicModeEndsAt s) (PanicModeHoldMilliseconds s)
          (set_MinCorrectedForPanic (set_MinCorrectedForStable (set_MaxCorrected h w1) w2) w3)).

Definition RefreshPanicMode (s : Status) (now : Z) : Status :=
  MkStatus (if PanicModeHoldMilliseconds s =? 0 then 0 else now +₆₄ PanicModeHoldMilliseconds s)
    (PanicModeHoldMilliseconds s) (HistoryOf s).

Definition IsPanicMode (s : Status) (now : Z) : bool :=
  (0 <? PanicModeHoldMilliseconds s) && (now <=? PanicModeEndsAt s).
End status.
Arguments Status D : clear implicits.

Section scaler.
Context {D : Type -> Type} `{DequeLaws D} (oor : float64 -> Z).

Record scaleOneTargetInput := MkInput {
  InBehavior : AutoscalingPolicyBehavior;
  InMinReplicas : Z;
  InMaxReplicas : Z;
  InCurrentReplicas : Z;
  InTolerancePercent : Z;
  InMetricTargets : Metrics;
  InUnreadyInstancesCountByMetric : gmap string Z;
  InReadyInstancesMetrics : gmap string (list Metrics);
  InExternalMetrics : Metrics;
  InOrder : list (string * float64)
}.

Record scaleOneTargetResult := MkResult {
  RecommendedReplicas : Z;
  CorrectedReplicas : Z;
  NeedRefreshPanicMode : bool;
  Skip : bool
}.

Definition instancesAlgorithm (input : scaleOneTargetInput) : RecommendedInstancesAlgorithm := {|
  Recommendation.MinInstances := InMinReplicas input;
  Recommendation.MaxInstances := InMaxReplicas input;
  CurrentInstancesCount := InCurrentReplicas input;
  Tolerance := f_mul (f_of_Z (InTolerancePercent input)) (f_div (f_of_Z 1) (f_of_Z 100));
  MetricTargets := InMetricTargets input;
  UnreadyInstancesCountByMetric := InUnreadyInstancesCountByMetric input;
  ReadyInstancesMetrics := InReadyInstancesMetrics input;
  ExternalMetrics := InExternalMetrics input
|}.

(** Whether the recommendation crosses the panic threshold. *)
Definition panicThresholdReached (input : scaleOneTargetInput) (recommendedReplicas : Z) : bool :=
  match PanicThresholdPercent (ScaleUpPanic (InBehavior input)) with
  | Some percent => (InCurrentReplicas input *₃₂ percent) <=? (recommendedReplicas *₃₂ 100)
  | None => false
  end.

(** Clock readings: [clk 0] in [IsPanicMode], [clk 1] and [clk 2] in the
    correction. *)
Definition scaleOneTarget (input : scaleOneTargetInput) (st : Status D) (clk : nat -> Z) :
    option (scaleOneTargetResult * Status D) :=
  let '(recommendedReplicas, skip) :=
    GetRecommendedInstances oor (instancesAlgorithm input) (InOrder input) in
  if skip then Some (MkResult 0 0 false true, st)
  else
    let isPanic := IsPanicMode st (clk 0%nat) in
    let '(refreshPanicMode, isPanic) :=
      if panicThresholdReached input recommendedReplicas
      then (true, 0 <? PanicModeHoldMilliseconds st)
      else (false, isPanic) in
    let correctedAlgorithm := MkCorrected isPanic (InBehavior input) (InMinReplicas input)
      (InMaxReplicas input) (InCurrentReplicas input) recommendedReplicas in
    '(correctedReplicas, h) ←
      GetCorrectedInstances oor correctedAlgorithm (clk 1%nat) (clk 2%nat) (HistoryOf st);
    Some (MkResult recommendedReplicas correctedReplicas refreshPanicMode false,
          MkStatus (PanicModeEndsAt st) (PanicModeHoldMilliseconds st) h).

(** Clock readings 3 to 8. *)
Definition recordScaleOneTargetResult (st : Status D) (result : scaleOneTargetResult)
    (clk : nat -> Z) : option (Status D) :=
  let st := if NeedRefreshPanicMode result then RefreshPanicMode st (clk 3%nat) else st in
  st ← AppendRecommendation st (clk 4%nat) (clk 5%nat) (RecommendedReplicas result);
  AppendCorrected st (clk 6%nat) (clk 7%nat) (clk 8%nat) (CorrectedReplicas result).

(** The metrics [UpdateMetrics] collects, [None] on an error. *)
Definition collected : Type := gmap string Z * gmap string (list Metrics) * Metrics.

(** What the autoscaler reads of an [AutoscalingPolicy]; [PolicyMetricTargets]
    is what [GetMetricTargets] makes of its metrics. *)
Record AutoscalingPolicy := MkPolicy {
  PolicyGeneration : Z;
  PolicyBehavior : AutoscalingPolicyBehavior;
  PolicyTolerancePercent : Z;
  PolicyMetricTargets : Metrics;
  PolicyMinReplicas : Z;
  PolicyMaxReplicas : Z
}.

Record Autoscaler := MkAutoscaler {
  CollectorMetricTargets : Metrics;
  StatusOf : Status D;
  ConfigMinReplicas : Z;
  ConfigMaxReplicas : Z;
  AutoscalePolicyGeneration : Z
}.

Definition NewAutoscaler (policy : AutoscalingPolicy) : Autoscaler :=
  MkAutoscaler (PolicyMetricTargets policy) (NewStatus (PolicyBehavior policy))
    (PolicyMinReplicas policy) (PolicyMaxReplicas policy) (PolicyGeneration policy).

Definition NeedUpdate (a : Autoscaler) (policy : AutoscalingPolicy) : bool :=
  negb (AutoscalePolicyGeneration a =? PolicyGeneration policy).

Definition UpdateAutoscalePolicy (a : Autoscaler) (policy : AutoscalingPolicy) : Autoscaler :=
  if AutoscalePolicyGeneration a =? PolicyGeneration policy then a
  else MkAutoscaler (CollectorMetricTargets a) (StatusOf a) (ConfigMinReplicas a)
         (ConfigMaxReplicas a) (PolicyGeneration policy).

Definition set_StatusOf (a : Autoscaler) (st : Status D) : Autoscaler :=
  MkAutoscaler (CollectorMetricTargets a) st (ConfigMinReplicas a) (ConfigMaxReplicas a)
    (AutoscalePolicyGeneration a).

(** The input [Scale] hands to [scaleOneTarget]. *)
Definition scaleInput (a : Autoscaler) (policy : AutoscalingPolicy) (metrics : collected)
    (order : list (string * float64)) (currentInstancesCount : Z) : scaleOneTargetInput :=
  let '(unready, ready, external) := metrics in
  MkInput (PolicyBehavior policy) (ConfigMinReplicas a) (ConfigMaxReplicas a)
    currentInstancesCount (PolicyTolerancePercent policy) (CollectorMetricTargets a)
    unready ready external order.

(** [Autoscaler.Scale]: the new replica count ([-1]: leave it alone), whether
    an error is returned, and the autoscaler afterwards. *)
Definition Scale (a : Autoscaler) (policy : AutoscalingPolicy) (update : option collected)
    (order : list (string * float64)) (currentInstancesCount : Z) (clk : nat -> Z) :
    option (Z * bool * Autoscaler) :=
  match update with
  | None => Some (-1, true, a)
  | Some metrics =>
    '(result, st) ←
      scaleOneTarget (scaleInput a policy metrics order currentInstancesCount) (StatusOf a) clk;
    if Skip result then Some (-1, false, set_StatusOf a st)
    else
      st ← recordScaleOneTargetResult st result clk;
      Some (CorrectedReplicas result, false, set_StatusOf a st)
  end.
End scaler.
Arguments Autoscaler D : clear implicits.

(** ** One cycle *)

(** The behaviours the API server admits: every pointer the correction
    dereferences is set. *)
Definition behavior_set (b : AutoscalingPolicyBehavior) : Prop :=
  is_Some (Instances (ScaleDown b)) /\ is_Some (Percent (ScaleDown b)) /\
  is_Some (Instances (ScaleUpStable b)) /\ is_Some (Percent (ScaleUpStable b)) /\
  is_Some (PanicPercent (ScaleUpPanic b)).

(** The readings of one cycle: monotone, from [now] on. *)
Definition cycle_clock (now : Z) (clk : nat -> Z) : Prop :=
  now <= clk 0%nat /\ (forall i, clk i <= clk (S i)) /\ forall i, time_ok (clk i).

Lemma cycle_clock_le now clk i j : cycle_clock now clk -> (i <= j)%nat -> clk i <= clk j.
Proof.
  intros (_ & Hm & _) Hij. induction Hij as [|j Hij IH]; [lia|]. specialize (Hm j). lia.
Qed.

Lemma cycle_clock_valid now clk i : cycle_clock now clk -> valid_now now (clk i).
Proof.
  intros Hc. pose proof (cycle_clock_le now clk 0 i Hc ltac:(lia)).
  destruct Hc as (H0 & _ & Ht). split; [lia|apply Ht].
Qed.

Lemma cycle_clock_valid2 now clk i j :
  cycle_clock now clk -> (i <= j)%nat -> valid_now (clk i) (clk j).
Proof.
  intros Hc Hij. pose proof (cycle_clock_le now clk i j Hc Hij).
  destruct Hc as (_ & _ & Ht). split; [lia|apply Ht].
Qed.

(** The logs after a cycle that recommended [rec] and settled on [cor]. *)
Definition log_cycle (g : HistoryLogs) (clk : nat -> Z) (rec cor : Z) : HistoryLogs :=
  MkLogs (log_max_rec g ++ [SnapshotRecord (clk 4%nat) rec])
    (log_min_rec g ++ [SnapshotRecord (clk 5%nat) rec])
    (log_max_cor g ++ [(clk 6%nat, cor)])
    (log_min_stable g ++ [(clk 7%nat, cor)])
    (log_min_panic g ++ [(clk 8%nat, cor)]).

(** A count that undercuts neither the recommendation nor a recommendation of
    the scale-down stabilisation window, unless the current count or the
    upper bound is lower still. *)
Definition not_undercut (l : HistoryLengths) (g : HistoryLogs) (t cur hi rec n : Z) : Prop :=
  Z.min rec (Z.min cur hi) <= n /\
  forall r, len_max_rec l <> 0 -> r ∈ log_max_rec g -> t <= timestamp r + len_max_rec l ->
    Z.min (value r) (Z.min cur hi) <= n.

Section cycle.
Context {D : Type -> Type} `{DequeLaws D} (oor : float64 -> Z).

Lemma record_cycle l g now now' (st : Status D) result clk :
  lengths_ok l -> history_inv l g now' (HistoryOf st) -> now' <= clk 4%nat ->
  cycle_clock now clk ->
  exists st', recordScaleOneTargetResult st result clk = Some st' /\
    PanicModeHoldMilliseconds st' = PanicModeHoldMilliseconds st /\
    PanicModeEndsAt st' =
      PanicModeEndsAt (if NeedRefreshPanicMode result then RefreshPanicMode st (clk 3%nat) else st) /\
    history_inv l (log_cycle g clk (RecommendedReplicas result) (CorrectedReplicas result))
      (clk 8%nat) (HistoryOf st').
Proof.
  intros (L1 & L2 & L3 & L4 & L5) (I1 & I2 & I3 & I4 & I5) H4 Hc.
  pose proof (fun i j => cycle_clock_le now clk i j Hc) as Hle.
  pose proof (fun i => proj2 (cycle_clock_valid now clk i Hc)) as Hok.
  set (rec := RecommendedReplicas result). set (cor := CorrectedReplicas result).
  destruct (record_append better_max _ L1 _ now' _ (clk 4%nat) rec I1 H4 (Hok _)) as (w1 & E1 & J1).
  destruct (record_append better_min _ L2 _ now' _ (clk 5%nat) rec I2
    ltac:(specialize (Hle 4%nat 5%nat); lia) (Hok _)) as (w2 & E2 & J2).
  destruct (line_append_inv better_max _ L3 _ now' _ (clk 6%nat) cor I3
    ltac:(specialize (Hle 4%nat 6%nat); lia) (Hok _)) as (w3 & E3 & J3).
  destruct (line_append_inv better_min _ L4 _ now' _ (clk 7%nat) cor I4
    ltac:(specialize (Hle 4%nat 7%nat); lia) (Hok _)) as (w4 & E4 & J4).
  destruct (line_append_inv better_min _ L5 _ now' _ (clk 8%nat) cor I5
    ltac:(specialize (Hle 4%nat 8%nat); lia) (Hok _)) as (w5 & E5 & J5).
  unfold recordScaleOneTargetResult.
  set (st1 := if NeedRefreshPanicMode result then _ else _).
  assert (HistoryOf st1 = HistoryOf st /\
    PanicModeHoldMilliseconds st1 = PanicModeHoldMilliseconds st) as [Eh Ep]
    by (unfold st1; by destruct (NeedRefreshPanicMode result)).
  unfold AppendRecommendation, AppendCorrected. rewrite Eh.
  fold rec cor. rewrite E1. simpl. rewrite E2. simpl. rewrite E3. simpl. rewrite E4. simpl.
  rewrite E5. simpl. eexists. split; [done|]. split; [exact Ep|]. split; [done|]. unfold history_inv; simpl.
  split_and!; [| | | |exact J5].
  - eapply record_inv_mono; [..|exact J1|]; [done|]. apply Hle. lia.
  - eapply record_inv_mono; [..|exact J2|]; [done|]. apply Hle. lia.
  - eapply line_inv_mono; [..|exact J3|]; [done|]. apply Hle. lia.
  - eapply line_inv_mono; [..|exact J4|]; [done|]. apply Hle. lia.
Qed.

Lemma clamp_bounds lo hi z : lo <= hi -> lo <= clamp lo hi z <= hi.
Proof. unfold clamp. lia. Qed.

(** The correction of a cycle: total, within the bounds, and no undercut. *)
Lemma correct_cycle l g now (hist : History D) alg t1 t2 :
  lengths_ok l -> history_inv l g now hist -> valid_now now t1 -> valid_now t1 t2 ->
  behavior_set (BehaviorOf alg) -> Revision.MinInstances alg <= Revision.MaxInstances alg ->
  exists n hist', GetCorrectedInstances oor alg t1 t2 hist = Some (n, hist') /\
    history_inv l g t2 hist' /\ Revision.MinInstances alg <= n <= Revision.MaxInstances alg /\
    not_undercut l g t1 (CurrentInstances alg) (Revision.MaxInstances alg)
      (RecommendedInstances alg) n /\
    (IsPanic alg = true -> Z.min (CurrentInstances alg) (Revision.MaxInstances alg) <= n).
Proof.
  intros Hl Hinv H1 H2 ([i1 B1] & [p1 B2] & [i2 B3] & [p2 B4] & [p3 B5]) Hb.
  pose proof (proj1 H2) as H12.
  destruct (IsPanic alg) eqn:Ep.
  { destruct (panic_step oor alg l g now t1 hist p3) as (raw & h' & Hc & Hi & Hraw); [done..|].
    unfold GetCorrectedInstances. rewrite Ep, Hc. simpl. eexists _, h'. split; [done|].
    split; [by eapply history_inv_mono|]. split; [lia|].
    assert (CurrentInstances alg <= raw) by (destruct Hraw as [(? & _ & _ & _ & ->)|[_ ->]]; lia).
    split; [split; intros; lia|]. intros. lia. }
  unfold GetCorrectedInstances, getCorrectedInstancesForStable. rewrite Ep.
  destruct (Z.ltb_spec (RecommendedInstances alg) (CurrentInstances alg)).
  { destruct (scale_down_step alg l g now t1 t2 hist i1 p1)
      as (c & h' & -> & Hi & s & [_ Hs] & ->); [done..|]. simpl.
    eexists _, h'. split; [done|]. split; [done|]. split; [lia|].
    pose proof (Hs _ (floor_recommended alg l g t1 t2)). split; [|done]. split; [lia|].
    intros r Hz Hr Hf. pose proof (Hs _ (floor_stabilized alg l g t1 t2 r Hz Hr Hf)). lia. }
  destruct (Z.ltb_spec (CurrentInstances alg) (RecommendedInstances alg)).
  { destruct (scale_up_step alg l g now t1 t2 hist i2 p2)
      as (c & h' & -> & Hi & s & _ & ->); [done..|]. simpl.
    eexists _, h'. split; [done|]. split; [done|]. split; [lia|].
    split; [split; intros; lia|done]. }
  simpl. eexists _, hist. split; [done|].
  split; [eapply history_inv_mono; [done..|]; destruct H1; lia|]. split; [lia|].
  split; [split; intros; lia|done].
Qed.

(** [scaleOneTarget] never panics; it skips exactly when the metrics say
    nothing, leaving the status alone. *)
Lemma scaleOneTarget_step l g now input (st : Status D) clk :
  lengths_ok l -> history_inv l g now (HistoryOf st) -> cycle_clock now clk ->
  behavior_set (InBehavior input) -> InMinReplicas input <= InMaxReplicas input ->
  match GetRecommendedInstances oor (instancesAlgorithm input) (InOrder input) with
  | (_, true) => scaleOneTarget oor input st clk = Some (MkResult 0 0 false true, st)
  | (rec, false) => exists n h',
    scaleOneTarget oor input st clk =
      Some (MkResult rec n (panicThresholdReached input rec) false,
            MkStatus (PanicModeEndsAt st) (PanicModeHoldMilliseconds st) h') /\
    history_inv l g (clk 2%nat) h' /\ InMinReplicas input <= n <= InMaxReplicas input /\
    not_undercut l g (clk 1%nat) (InCurrentReplicas input) (InMaxReplicas input) rec n /\
    (0 < PanicModeHoldMilliseconds st ->
     panicThresholdReached input rec = true \/ clk 0%nat <= PanicModeEndsAt st ->
     Z.min (InCurrentReplicas input) (InMaxReplicas input) <= n)
  end.
Proof.
  intros Hl Hi Hc Hb Hmm. unfold scaleOneTarget.
  destruct (GetRecommendedInstances oor (instancesAlgorithm input) (InOrder input)) as [rec []];
    [done|].
  set (crosses := panicThresholdReached input rec).
  set (isPanic := if crosses then 0 <? PanicModeHoldMilliseconds st
                  else IsPanicMode st (clk 0%nat)).
  replace (if crosses then _ else _) with (crosses, isPanic) by (unfold isPanic; by destruct crosses).
  destruct (correct_cycle l g now (HistoryOf st)
    (MkCorrected isPanic (InBehavior input) (InMinReplicas input) (InMaxReplicas input)
       (InCurrentReplicas input) rec) (clk 1%nat) (clk 2%nat))
    as (n & h' & -> & Hi' & Hn & Hu & Hpn); simpl in *; try done.
  { by apply cycle_clock_valid. } { apply (cycle_clock_valid2 now); [done|lia]. }
  exists n, h'. split_and!; try done; try lia; try apply Hu.
  intros Hpos Hpan. apply Hpn. unfold isPanic, IsPanicMode.
  destruct crosses; [by apply Z.ltb_lt|]. destruct Hpan as [?|?]; [done|].
  apply andb_true_iff. split; [by apply Z.ltb_lt|by apply Z.leb_le].
Qed.

Definition panic_hold (policy : AutoscalingPolicy) : Z :=
  default 0 (PanicModeHold (ScaleUpPanic (PolicyBehavior policy))).

(** The state of an autoscaler between two cycles. *)
Definition autoscaler_inv (policy : AutoscalingPolicy) (g : HistoryLogs) (now : Z)
    (a : Autoscaler D) : Prop :=
  history_inv (status_lengths (PolicyBehavior policy)) g now (HistoryOf (StatusOf a)) /\
  PanicModeHoldMilliseconds (StatusOf a) =
    panic_hold policy /\
  CollectorMetricTargets a = PolicyMetricTargets policy /\
  ConfigMinReplicas a = PolicyMinReplicas policy /\ ConfigMaxReplicas a = PolicyMaxReplicas policy.

Definition policy_ok (policy : AutoscalingPolicy) : Prop :=
  behavior_set (PolicyBehavior policy) /\ lengths_ok (status_lengths (PolicyBehavior policy)) /\
  duration_ok (panic_hold policy) /\
  0 <= PolicyMinReplicas policy <= PolicyMaxReplicas policy.

Lemma NewAutoscaler_inv policy now :
  policy_ok policy -> autoscaler_inv policy empty_logs now (NewAutoscaler policy).
Proof. intros (_ & Hl & _). split_and!; [by apply NewHistory_inv|done..]. Qed.

(** The recommendation of a cycle, if it makes one, and whether it crosses
    the panic threshold. *)
Definition cycle_recommendation policy (update : option collected) order (cur : Z) : option Z :=
  metrics ← update;
  let '(n, skip) := GetRecommendedInstances oor
    (instancesAlgorithm (scaleInput (NewAutoscaler (D:=D) policy) policy metrics order cur)) order in
  if skip : bool then None else Some n.

Definition cycle_crosses (policy : AutoscalingPolicy) (cur rec : Z) : bool :=
  match PanicThresholdPercent (ScaleUpPanic (PolicyBehavior policy)) with
  | Some percent => (cur *₃₂ percent) <=? (rec *₃₂ 100)
  | None => false
  end.

Lemma scaleInput_new policy g now (a : Autoscaler D) metrics order cur :
  autoscaler_inv policy g now a ->
  scaleInput a policy metrics order cur = scaleInput (NewAutoscaler policy) policy metrics order cur.
Proof. intros (_ & _ & E1 & E2 & E3). unfold scaleInput. by rewrite E1, E2, E3. Qed.

Lemma scaleInput_fields policy metrics order cur :
  let input := scaleInput (NewAutoscaler (D:=D) policy) policy metrics order cur in
  InOrder input = order /\ InBehavior input = PolicyBehavior policy /\
  InMinReplicas input = PolicyMinReplicas policy /\ InMaxReplicas input = PolicyMaxReplicas policy /\
  InCurrentReplicas input = cur.
Proof. by destruct metrics as [[? ?] ?]. Qed.

Lemma scale_cycle policy g now (a : Autoscaler D) update order cur clk :
  policy_ok policy -> autoscaler_inv policy g now a -> cycle_clock now clk ->
  exists n err a', Scale oor a policy update order cur clk = Some (n, err, a') /\
    match cycle_recommendation policy update order cur with
    | None => n = -1 /\ a' = a
    | Some rec =>
      err = false /\ PolicyMinReplicas policy <= n <= PolicyMaxReplicas policy /\
      not_undercut (status_lengths (PolicyBehavior policy)) g (clk 1%nat) cur
        (PolicyMaxReplicas policy) rec n /\
      (0 < panic_hold policy ->
       cycle_crosses policy cur rec = true \/ clk 0%nat <= PanicModeEndsAt (StatusOf a) ->
       Z.min cur (PolicyMaxReplicas policy) <= n) /\
      (0 < panic_hold policy -> PanicModeEndsAt (StatusOf a') =
         if cycle_crosses policy cur rec then clk 3%nat + panic_hold policy
         else PanicModeEndsAt (StatusOf a)) /\
      autoscaler_inv policy (log_cycle g clk rec n) (clk 8%nat) a'
    end.
Proof.
  intros (Hb & Hl & Hh & Hmm) Hinv Hc. unfold Scale, cycle_recommendation.
  destruct update as [metrics|]; simpl; [|by exists (-1), true, a].
  rewrite (scaleInput_new policy g now a metrics order cur Hinv).
  destruct Hinv as (Hi & Hp & Ht & Hmin & Hmax).
  destruct (scaleInput_fields policy metrics order cur) as (E1 & E2 & E3 & E4 & E5).
  set (input := scaleInput _ policy metrics order cur) in *.
  pose proof (scaleOneTarget_step _ g now input (StatusOf a) clk Hl Hi Hc
    ltac:(by rewrite E2) ltac:(rewrite E3, E4; lia)) as Hstep.
  rewrite E1, E3, E4, E5 in Hstep.
  destruct (GetRecommendedInstances oor (instancesAlgorithm input) order) as [rec []].
  { rewrite Hstep. simpl. exists (-1), false, a. by destruct a. }
  destruct Hstep as (n & h' & -> & Hi' & Hn & Hu & Hpn). simpl.
  assert (panicThresholdReached input rec = cycle_crosses policy cur rec) as Ex
    by (unfold panicThresholdReached, cycle_crosses; by rewrite E2, E5).
  rewrite Ex in *. set (crosses := cycle_crosses policy cur rec) in *.
  destruct (record_cycle (status_lengths (PolicyBehavior policy)) g now (clk 2%nat)
    (MkStatus (PanicModeEndsAt (StatusOf a)) (PanicModeHoldMilliseconds (StatusOf a)) h')
    (MkResult rec n crosses false) clk) as (st' & -> & Hp' & Hends & Hinv); simpl in *.
  { done. } { done. } { apply (cycle_clock_le now); [done|lia]. } { done. }
  exists n, false, (set_StatusOf a st').
  split_and!; [done|done|lia|lia|done| | |split_and!; [done|by simpl; rewrite Hp'|done..]].
  - intros Hpos. apply Hpn. by rewrite Hp.
  - intros Hpos. simpl. rewrite Hends. destruct crosses; [|done]. simpl. rewrite Hp.
    destruct (Z.eqb_spec (panic_hold policy) 0); [lia|]. apply int64_id.
    pose proof (cycle_clock_valid now clk 3%nat Hc) as [_ Ht3].
    unfold time_ok, duration_ok in *. go_lia.
Qed.

(** ** A run of cycles under one policy *)

Record Cycle := MkCycle {
  CycleMetrics : option collected;
  CycleOrder : list (string * float64);
  CycleCurrent : Z;
  CycleClock : nat -> Z
}.

Definition run_cycle policy (a : Autoscaler D) (c : Cycle) : option (Z * bool * Autoscaler D) :=
  Scale oor a policy (CycleMetrics c) (CycleOrder c) (CycleCurrent c) (CycleClock c).

Fixpoint run_cycles policy (a : Autoscaler D) (cs : list Cycle) : option (Autoscaler D) :=
  match cs with
  | [] => Some a
  | c :: cs => '(_, _, a') ← run_cycle policy a c; run_cycles policy a' cs
  end.

Fixpoint cycles_clock (now : Z) (cs : list Cycle) : Prop :=
  match cs with
  | [] => True
  | c :: cs => cycle_clock now (CycleClock c) /\ cycles_clock (CycleClock c 8%nat) cs
  end.

Definition recommends policy (c : Cycle) : option Z :=
  cycle_recommendation policy (CycleMetrics c) (CycleOrder c) (CycleCurrent c).

Definition crosses policy (c : Cycle) (rec : Z) : bool := cycle_crosses policy (CycleCurrent c) rec.

(** What the state remembers of the cycles [past]: their recommendations, and
    how long the panic mode they started lasts. *)
Definition run_inv policy (past : list Cycle) (now : Z) (a : Autoscaler D) : Prop :=
  exists g, autoscaler_inv policy g now a /\
    forall c rec, c ∈ past -> recommends policy c = Some rec ->
      SnapshotRecord (CycleClock c 4%nat) rec ∈ log_max_rec g /\
      CycleClock c 3%nat <= now /\
      (0 < panic_hold policy -> crosses policy c rec = true ->
       CycleClock c 3%nat + panic_hold policy <= PanicModeEndsAt (StatusOf a)).

Lemma run_cycle_inv policy past now (a : Autoscaler D) c :
  policy_ok policy -> run_inv policy past now a -> cycle_clock now (CycleClock c) ->
  exists n err a', run_cycle policy a c = Some (n, err, a') /\
    run_inv policy (past ++ [c]) (CycleClock c 8%nat) a'.
Proof.
  intros Hok (g & Hg & Hpast) Hc.
  destruct (scale_cycle policy g now a (CycleMetrics c) (CycleOrder c) (CycleCurrent c)
    (CycleClock c) Hok Hg Hc) as (n & err & a' & Hs & Hpost).
  exists n, err, a'. split; [exact Hs|]. change (cycle_recommendation _ _ _ _) with
    (recommends policy c) in Hpost.
  pose proof (cycle_clock_le now (CycleClock c) 3 8 Hc ltac:(lia)) as H38.
  pose proof (cycle_clock_le now (CycleClock c) 0 3 Hc ltac:(lia)) as H03.
  destruct (recommends policy c) as [rec|] eqn:Er.
  - destruct Hpost as (_ & _ & _ & _ & Hends & Hinv).
    eexists. split; [exact Hinv|]. intros c' rec' [Hin| ->%list_elem_of_singleton]%elem_of_app Er'.
    + destruct (Hpast c' rec' Hin Er') as (H1 & H2 & H3). split; [simpl; set_solver|].
      destruct Hc as (Hc0 & _). split; [lia|]. intros Hp Hx. rewrite (Hends Hp).
      specialize (H3 Hp Hx). destruct (cycle_crosses _ _ rec); lia.
    + assert (rec' = rec) as -> by congruence. split; [simpl; set_solver|]. split; [done|].
      intros Hp Hx. rewrite (Hends Hp). unfold crosses in Hx. rewrite Hx. lia.
  - destruct Hpost as [-> ->]. exists g. destruct Hc as (Hc0 & _).
    assert (now <= CycleClock c 8%nat) by lia. split.
    { destruct Hg as (Hi & ?). split; [|done]. eapply history_inv_mono; [|done..]. by apply Hok. }
    intros c' rec' [Hin| ->%list_elem_of_singleton]%elem_of_app Er'; [|congruence].
    destruct (Hpast c' rec' Hin Er') as (? & ? & ?). split_and!; [done|lia|done].
Qed.

Lemma run_cycles_inv policy past now (a : Autoscaler D) cs c :
  policy_ok policy -> run_inv policy past now a -> cycles_clock now (cs ++ [c]) ->
  exists now' a', run_cycles policy a cs = Some a' /\ run_inv policy (past ++ cs) now' a' /\
    cycle_clock now' (CycleClock c).
Proof.
  intros Hok. revert past now a. induction cs as [|c0 cs IH]; intros past now a Hinv Hclk; simpl.
  { exists now, a. rewrite app_nil_r. by destruct Hclk. }
  destruct Hclk as [H1 H2].
  destruct (run_cycle_inv policy past now a c0 Hok Hinv H1) as (n & err & a' & -> & Hinv').
  simpl. destruct (IH (past ++ [c0]) _ a' Hinv' H2) as (now' & a'' & ? & Hr & ?).
  exists now', a''. by rewrite <- app_assoc in Hr.
Qed.

Lemma run_inv_new policy now : policy_ok policy -> run_inv policy [] now (NewAutoscaler policy).
Proof.
  intros Hok. exists empty_logs. split; [by apply NewAutoscaler_inv|].
  intros c rec Hc. by apply elem_of_nil in Hc.
Qed.
End cycle.

(** C24: from a new autoscaler, after any number of cycles, with any metrics
    and any current counts, the next cycle of the same policy neither panics
    nor answers anything but [-1] (no metrics, nothing to say) or a count
    within the policy's bounds. Such a count never undercuts (the smaller of)
    the current count and any recommendation that an earlier cycle made within
    the scale-down stabilisation window; and it does not go below the current
    count at all during the hold of a panic an earlier cycle entered. *)
Theorem autoscaler_run_safe {D} `{DequeLaws D} oor policy (past : list Cycle) (c : Cycle) :
  policy_ok policy -> cycles_clock 0 (past ++ [c]) ->
  exists a n err a',
    run_cycles oor policy (NewAutoscaler (D:=D) policy) past = Some a /\
    run_cycle oor policy a c = Some (n, err, a') /\
    match recommends (D:=D) oor policy c with
    | None => n = -1
    | Some rec =>
      let keep := Z.min (CycleCurrent c) (PolicyMaxReplicas policy) in
      let window := default 0 (StabilizationWindow (ScaleDown (PolicyBehavior policy))) in
      PolicyMinReplicas policy <= n <= PolicyMaxReplicas policy /\
      Z.min rec keep <= n /\
      (0 < panic_hold policy -> crosses policy c rec = true -> keep <= n) /\
      forall c' rec', c' ∈ past -> recommends (D:=D) oor policy c' = Some rec' ->
        (window <> 0 -> CycleClock c 1%nat <= CycleClock c' 4%nat + window ->
         Z.min rec' keep <= n) /\
        (0 < panic_hold policy -> crosses policy c' rec' = true ->
         CycleClock c 0%nat <= CycleClock c' 3%nat + panic_hold policy -> keep <= n)
    end.
Proof.
  intros Hok Hclk.
  destruct (run_cycles_inv oor policy [] 0 (NewAutoscaler (D:=D) policy) past c Hok
    (run_inv_new oor policy 0 Hok) Hclk) as (now & a & Hrun & (g & Hg & Hpast) & Hc).
  destruct (scale_cycle oor policy g now a (CycleMetrics c) (CycleOrder c) (CycleCurrent c)
    (CycleClock c) Hok Hg Hc) as (n & err & a' & Hs & Hpost).
  exists a, n, err, a'. split; [done|]. split; [done|].
  change (cycle_recommendation _ _ _ _ _) with (recommends (D:=D) oor policy c) in Hpost.
  destruct (recommends oor policy c) as [rec|]; [|by destruct Hpost].
  destruct Hpost as (_ & Hn & (Hu & Hu') & Hp & _). cbv zeta.
  split; [done|]. split; [done|]. split; [by auto|].
  intros c' rec' Hin Er. destruct (Hpast c' rec' Hin Er) as (H1 & H2 & H3). split.
  - intros Hw Hf. exact (Hu' _ Hw H1 Hf).
  - intros Hpos Hx Hf. apply Hp; [done|]. right. specialize (H3 Hpos Hx). lia.
Qed.

Definition example_policy : AutoscalingPolicy :=
  MkPolicy 1
    (Behavior (StablePolicy (Some 4) (Some 100) (Some 60000) SelectPolicyOr (Some 0))
       (PanicPolicy (Some 1000) 60000 (Some 200) (Some 60000))
       (StablePolicy (Some 1) (Some 100) (Some 60000) SelectPolicyOr (Some 300000)))
    10 (<["queue" := f_of_Z 10]> ∅) 1 50.

(** A cycle at time [t] with [cur] replicas and a total queue of [queue]. *)
Definition example_cycle (t cur queue : Z) : Cycle :=
  MkCycle (Some (∅, ∅, <["queue" := f_of_Z queue]> ∅)) [("queue", f_of_Z 10)] cur
    (fun i => t + Z.of_nat (i `min` 8)).

Lemma example_cycle_clock now t cur queue :
  now <= t -> 0 < t < 2 ^ 60 -> cycle_clock now (CycleClock (example_cycle t cur queue)).
Proof.
  intros. unfold cycle_clock, time_ok. simpl. split_and!; [lia|intros; lia|].
  intros i. pose proof (Nat.le_min_r i 8). lia.
Qed.

(** A spike asks for 30 replicas; 15 seconds later the queue is nearly empty,
    and the count of 20 is kept. *)
Lemma autoscaler_run_safe_witness :
  exists a n err a',
    run_cycles (fun _ => 0) example_policy (NewAutoscaler (D:=list) example_policy)
      [example_cycle 1000 10 300] = Some a /\
    run_cycle (fun _ => 0) example_policy a (example_cycle 16000 20 50) = Some (n, err, a') /\
    20 <= n <= 50.
Proof.
  pose proof (autoscaler_run_safe (D:=list) (fun _ => 0) example_policy
    [example_cycle 1000 10 300] (example_cycle 16000 20 50)) as HC.
  destruct HC as (a & n & err & a' & H1 & H2 & H3).
  { by compute_ok. }
  { split; [apply example_cycle_clock; lia|]. split; [|done]. apply example_cycle_clock; [done|lia]. }
  exists a, n, err, a'. split; [exact H1|]. split; [exact H2|].
  assert (E : recommends (D:=list) (fun _ => 0) example_policy (example_cycle 16000 20 50) = Some 5)
    by (vm_compute; reflexivity).
  assert (E' : recommends (D:=list) (fun _ => 0) example_policy (example_cycle 1000 10 300) = Some 30)
    by (vm_compute; reflexivity).
  rewrite E in H3. destruct H3 as ([_ H50] & _ & _ & H3).
  destruct (H3 (example_cycle 1000 10 300) 30) as [H4 _]; [by left|exact E'|].
  split; [|exact H50]. apply H4; [done|done].
Defined.
