(* ===== verification/RoleRatio.v ===== *)
(** * pkg/autoscaler/algorithm/disaggregated_ratio.go

    The repair of a pair of role sizes so that their ratio falls into a range.
    The replica map is copied by the code before it is changed, so a function
    from map to map is the whole effect. The ratio bounds are Kubernetes
    quantities: their type and [AsFloat64Slow] are section variables. The
    decimal rendering of the final ratio ([strconv.FormatFloat], for status
    output only) is left out: the float itself is returned. *)
From S2P Require Import Prelude Float64.
Local Open Scope Z_scope.

Record ReplicaBounds := MkBounds { BoundsMin : Z; BoundsMax : Z }.

Definition bounds_ok (b : ReplicaBounds) : Prop := BoundsMin b <= BoundsMax b.
Definition in_bounds (b : ReplicaBounds) (n : Z) : Prop := BoundsMin b <= n <= BoundsMax b.

(** [min(max(value, b.Min), b.Max)]. *)
Definition clampTo (b : ReplicaBounds) (value : Z) : Z :=
  Z.min (Z.max value (BoundsMin b)) (BoundsMax b).

Lemma clampTo_in b n : bounds_ok b -> in_bounds b (clampTo b n).
Proof. unfold bounds_ok, in_bounds, clampTo. lia. Qed.

Lemma clampTo_id b n : in_bounds b n -> clampTo b n = n.
Proof. unfold in_bounds, clampTo. lia. Qed.

#[export] Hint Resolve clampTo_in : kthena.

Inductive RatioError :=
| NumeratorRoleNotFound
| DenominatorRoleNotFound
| NumeratorBoundsNotFound
| DenominatorBoundsNotFound
| NonFiniteRatio.

Section ratio.
Context (oor : float64 -> Z).

Definition ceilInt32 (value : float64) : Z :=
  if f_isNaN value then 0
  else
    let value := f_ceil value in
    if f_gt value (f_of_Z MaxInt32) then MaxInt32
    else if f_lt value (f_of_Z MinInt32) then MinInt32
    else f_to_int32 oor value.

Definition floorInt32 (value : float64) : Z :=
  if f_isNaN value then 0
  else
    let value := f_floor value in
    if f_gt value (f_of_Z MaxInt32) then MaxInt32
    else if f_lt value (f_of_Z MinInt32) then MinInt32
    else f_to_int32 oor value.

Context {Quantity : Type} (AsFloat64Slow : Quantity -> float64).

Record RoleRatioConstraint := MkConstraint {
  NumeratorRole : string;
  DenominatorRole : string;
  MinRatio : Quantity;
  MaxRatio : Quantity
}.

Record RatioResult := MkRatioResult {
  FinalReplicas : gmap string Z;
  RatioAdjusted : bool;
  CurrentRatio : option float64;
  RatioErr : option RatioError
}.

(** The loop that copies and clamps the input. *)
Definition clampReplicas (bounds : gmap string ReplicaBounds) (replicas : gmap string Z) :
    gmap string Z :=
  map_imap (fun role value =>
    Some (match bounds !! role with Some b => clampTo b value | None => value end)) replicas.

(** The deficient numerator: [ratio < minRatio]. *)
Definition raiseNumerator (nb db : ReplicaBounds) (minRatio : float64) (numerator denominator : Z) :
    Z * Z :=
  let raisedNumerator := ceilInt32 (f_mul minRatio (f_of_Z denominator)) in
  if raisedNumerator <=? BoundsMax nb then (Z.max raisedNumerator (BoundsMin nb), denominator)
  else if f_gt minRatio f_zero then
    let numerator := BoundsMax nb in
    let denominator := floorInt32 (f_div (f_of_Z numerator) minRatio) in
    (numerator, clampTo db denominator)
  else (numerator, denominator).

(** The deficient denominator: [ratio > maxRatio]. *)
Definition raiseDenominator (nb db : ReplicaBounds) (maxRatio : float64)
    (numerator denominator : Z) : Z * Z :=
  if f_le maxRatio f_zero then (0, denominator)
  else
    let raisedDenominator := ceilInt32 (f_div (f_of_Z numerator) maxRatio) in
    if raisedDenominator <=? BoundsMax db then (numerator, Z.max raisedDenominator (BoundsMin db))
    else
      let denominator := BoundsMax db in
      let numerator := floorInt32 (f_mul maxRatio (f_of_Z denominator)) in
      (clampTo nb numerator, denominator).

(** The repair of two live roles: their new sizes and whether they changed. *)
Definition repairRatio (nb db : ReplicaBounds) (minRatio maxRatio : float64)
    (numerator denominator : Z) : Z * Z * bool :=
  let '(numerator, adjusted) := if numerator =? 0 then (clampTo nb 1, true) else (numerator, false) in
  let '(denominator, adjusted) :=
    if denominator =? 0 then (clampTo db 1, true) else (denominator, adjusted) in
  let ratio := f_div (f_of_Z numerator) (f_of_Z denominator) in
  if f_lt ratio minRatio then (raiseNumerator nb db minRatio numerator denominator, true)
  else if f_gt ratio maxRatio then (raiseDenominator nb db maxRatio numerator denominator, true)
  else (numerator, denominator, adjusted).

Definition EnforceRoleRatio (replicas : gmap string Z) (bounds : gmap string ReplicaBounds)
    (constraint : option RoleRatioConstraint) : RatioResult :=
  let finalReplicas := clampReplicas bounds replicas in
  let fail e := MkRatioResult finalReplicas false None (Some e) in
  match constraint with
  | None => MkRatioResult finalReplicas false None None
  | Some c =>
    match finalReplicas !! NumeratorRole c with
    | None => fail NumeratorRoleNotFound
    | Some numerator =>
    match finalReplicas !! DenominatorRole c with
    | None => fail DenominatorRoleNotFound
    | Some denominator =>
    match bounds !! NumeratorRole c with
    | None => fail NumeratorBoundsNotFound
    | Some numeratorBounds =>
    match bounds !! DenominatorRole c with
    | None => fail DenominatorBoundsNotFound
    | Some denominatorBounds =>
      if (numerator =? 0) && (denominator =? 0) then MkRatioResult finalReplicas false None None
      else
        let minRatio := AsFloat64Slow (MinRatio c) in
        let maxRatio := AsFloat64Slow (MaxRatio c) in
        if f_isNaN minRatio || f_isNaN maxRatio || f_isInf minRatio || f_isInf maxRatio
        then fail NonFiniteRatio
        else
          let '(numerator, denominator, adjusted) :=
            repairRatio numeratorBounds denominatorBounds minRatio maxRatio numerator denominator in
          let finalReplicas :=
            <[DenominatorRole c := clampTo denominatorBounds denominator]>
              (<[NumeratorRole c := clampTo numeratorBounds numerator]> finalReplicas) in
          let finalNumerator := default 0 (finalReplicas !! NumeratorRole c) in
          let finalDenominator := default 0 (finalReplicas !! DenominatorRole c) in
          let currentRatio :=
            if finalDenominator =? 0 then None
            else Some (f_div (f_of_Z finalNumerator) (f_of_Z finalDenominator)) in
          MkRatioResult finalReplicas adjusted currentRatio None
    end end end end
  end.
End ratio.
Arguments RoleRatioConstraint Quantity : clear implicits.

Section ratio_spec.
Context (oor : float64 -> Z) {Quantity : Type} (AsFloat64Slow : Quantity -> float64).
Implicit Types c : RoleRatioConstraint Quantity.

(** The two sizes a constraint is about, and the bounds of their roles. *)
Definition constrained (replicas : gmap string Z) (bounds : gmap string ReplicaBounds) c
    (n d : Z) (nb db : ReplicaBounds) : Prop :=
  replicas !! NumeratorRole c = Some n /\ replicas !! DenominatorRole c = Some d /\
  bounds !! NumeratorRole c = Some nb /\ bounds !! DenominatorRole c = Some db.

Definition finite_ratio c : Prop :=
  f_isNaN (AsFloat64Slow (MinRatio c)) || f_isNaN (AsFloat64Slow (MaxRatio c)) ||
  f_isInf (AsFloat64Slow (MinRatio c)) || f_isInf (AsFloat64Slow (MaxRatio c)) = false.

Lemma clampReplicas_lookup bounds replicas role :
  clampReplicas bounds replicas !! role =
  value ← replicas !! role;
  Some (match bounds !! role with Some b => clampTo b value | None => value end).
Proof. unfold clampReplicas. rewrite map_lookup_imap. by destruct (replicas !! role). Qed.

Lemma clampReplicas_dom bounds replicas : dom (clampReplicas bounds replicas) = dom replicas.
Proof.
  apply set_eq. intros role. rewrite !elem_of_dom, clampReplicas_lookup.
  destruct (replicas !! role); simpl; [|done]. split; intros _; eauto.
Qed.

(** What [EnforceRoleRatio] does, case by case. *)
Lemma enforce_none replicas bounds :
  EnforceRoleRatio oor AsFloat64Slow replicas bounds None =
  MkRatioResult (clampReplicas bounds replicas) false None None.
Proof. done. Qed.

Lemma enforce_constrained replicas bounds c n d nb db :
  constrained (clampReplicas bounds replicas) bounds c n d nb db ->
  (n = 0 /\ d = 0 /\ EnforceRoleRatio oor AsFloat64Slow replicas bounds (Some c) =
     MkRatioResult (clampReplicas bounds replicas) false None None) \/
  (~ (n = 0 /\ d = 0) /\ ~ finite_ratio c /\
   EnforceRoleRatio oor AsFloat64Slow replicas bounds (Some c) =
     MkRatioResult (clampReplicas bounds replicas) false None (Some NonFiniteRatio)) \/
  (~ (n = 0 /\ d = 0) /\ finite_ratio c /\ exists n' d' adjusted r,
   repairRatio oor nb db (AsFloat64Slow (MinRatio c)) (AsFloat64Slow (MaxRatio c)) n d =
     (n', d', adjusted) /\
   EnforceRoleRatio oor AsFloat64Slow replicas bounds (Some c) =
     MkRatioResult (<[DenominatorRole c := clampTo db d']>
       (<[NumeratorRole c := clampTo nb n']> (clampReplicas bounds replicas))) adjusted r None).
Proof.
  intros (E1 & E2 & E3 & E4). unfold EnforceRoleRatio, finite_ratio. rewrite E1, E2, E3, E4.
  destruct (Z.eqb_spec n 0), (Z.eqb_spec d 0); simpl; [by left|right..].
  all: destruct (_ || _) eqn:Ef; [left|right]; (split; [lia|]).
  all: try (by split).
  all: split; [done|].
  all: match goal with |- context [repairRatio ?o ?a ?b ?mi ?ma ?x ?y] =>
         destruct (repairRatio o a b mi ma x y) as [[n' d'] adjusted]
       end.
  all: by eexists _, _, _, _.
Qed.

Lemma constrained_or_not replicas bounds c :
  (exists n d nb db, constrained replicas bounds c n d nb db) \/
  (forall n d nb db, ~ constrained replicas bounds c n d nb db).
Proof.
  unfold constrained.
  destruct (replicas !! NumeratorRole c) as [n|]; [|right; naive_solver].
  destruct (replicas !! DenominatorRole c) as [d|]; [|right; naive_solver].
  destruct (bounds !! NumeratorRole c) as [nb|]; [|right; naive_solver].
  destruct (bounds !! DenominatorRole c) as [db|]; [|right; naive_solver].
  left. by exists n, d, nb, db.
Qed.

Lemma enforce_unconstrained replicas bounds c :
  (forall n d nb db, ~ constrained (clampReplicas bounds replicas) bounds c n d nb db) ->
  exists e, EnforceRoleRatio oor AsFloat64Slow replicas bounds (Some c) =
    MkRatioResult (clampReplicas bounds replicas) false None (Some e) /\ e <> NonFiniteRatio.
Proof.
  intros Hn. unfold constrained in Hn. unfold EnforceRoleRatio.
  destruct (clampReplicas bounds replicas !! NumeratorRole c) as [n|]; [|by eexists].
  destruct (clampReplicas bounds replicas !! DenominatorRole c) as [d|]; [|by eexists].
  destruct (bounds !! NumeratorRole c) as [nb|]; [|by eexists].
  destruct (bounds !! DenominatorRole c) as [db|]; [|by eexists].
  exfalso. by apply (Hn n d nb db).
Qed.

Lemma clampReplicas_in_bounds replicas bounds role n b :
  bounds_ok b -> clampReplicas bounds replicas !! role = Some n -> bounds !! role = Some b ->
  in_bounds b n.
Proof.
  intros Hb Hn Eb. rewrite clampReplicas_lookup, Eb in Hn.
  destruct (replicas !! role); simplify_eq/=. by apply clampTo_in.
Qed.

Section bounded.
Context (replicas : gmap string Z) (bounds : gmap string ReplicaBounds).
Context (Hb : forall role b, bounds !! role = Some b -> bounds_ok b).

Lemma insert_pair_in_bounds (m : gmap string Z) c (nb db : ReplicaBounds) n d :
  (forall role x b, m !! role = Some x -> bounds !! role = Some b -> in_bounds b x) ->
  bounds !! NumeratorRole c = Some nb -> bounds !! DenominatorRole c = Some db ->
  forall role x b, <[DenominatorRole c := clampTo db d]> (<[NumeratorRole c := clampTo nb n]> m) !! role
    = Some x -> bounds !! role = Some b -> in_bounds b x.
Proof.
  intros Hm E1 E2 role x b Hx Eb. rewrite lookup_insert in Hx. case_decide; simplify_eq.
  { by apply clampTo_in, (Hb (DenominatorRole c)). }
  rewrite lookup_insert in Hx. case_decide; simplify_eq; [|by eapply Hm].
  by apply clampTo_in, (Hb (NumeratorRole c)).
Qed.

(** Every role keeps its entry and ends within its bounds. *)
Lemma enforce_in_bounds constraint :
  let r := EnforceRoleRatio oor AsFloat64Slow replicas bounds constraint in
  dom (FinalReplicas r) = dom replicas /\
  (forall role n b, FinalReplicas r !! role = Some n -> bounds !! role = Some b -> in_bounds b n) /\
  (forall role, (forall c, constraint = Some c -> role <> NumeratorRole c /\ role <> DenominatorRole c) ->
     FinalReplicas r !! role = clampReplicas bounds replicas !! role).
Proof.
  intros r. subst r.
  assert (Hclamp : forall role n b, clampReplicas bounds replicas !! role = Some n ->
    bounds !! role = Some b -> in_bounds b n).
  { intros role n b Hn Eb. eapply clampReplicas_in_bounds; eauto. }
  pose proof (clampReplicas_dom bounds replicas) as Hdom.
  destruct constraint as [c|]; [|by rewrite enforce_none; split_and!].
  destruct (constrained_or_not (clampReplicas bounds replicas) bounds c)
    as [(n & d & nb & db & Hc)|Hc].
  2: { by destruct (enforce_unconstrained replicas bounds c Hc) as (e & -> & _). }
  destruct (enforce_constrained replicas bounds c n d nb db Hc)
    as [(-> & -> & ->)|[(Hz & Hf & ->)|(Hz & Hf & n' & d' & adj & r & _ & ->)]]; simpl;
    [by split_and!..|].
  destruct Hc as (E1 & E2 & E3 & E4). split_and!.
  - rewrite !dom_insert_L, Hdom. apply set_eq. intros role.
    assert (NumeratorRole c ∈ dom replicas /\ DenominatorRole c ∈ dom replicas) as [? ?]
      by (rewrite <- Hdom; split; apply elem_of_dom; eauto).
    set_solver.
  - by apply insert_pair_in_bounds.
  - intros role Hrole. destruct (Hrole c eq_refl). by rewrite !lookup_insert_ne by congruence.
Qed.

Lemma enforce_error constraint :
  RatioErr (EnforceRoleRatio oor AsFloat64Slow replicas bounds constraint) = None <->
  forall c, constraint = Some c -> exists n d nb db,
    constrained (clampReplicas bounds replicas) bounds c n d nb db /\
    ((n = 0 /\ d = 0) \/ finite_ratio c).
Proof.
  destruct constraint as [c|]; [|by split].
  destruct (constrained_or_not (clampReplicas bounds replicas) bounds c)
    as [(n & d & nb & db & Hc)|Hc].
  2: { destruct (enforce_unconstrained replicas bounds c Hc) as (e & -> & _). simpl.
       split; [done|]. intros Hx. destruct (Hx c eq_refl) as (n & d & nb & db & ? & _).
       by destruct (Hc n d nb db). }
  assert (Hfix : (forall c', Some c = Some c' -> exists n' d' nb' db',
      constrained (clampReplicas bounds replicas) bounds c' n' d' nb' db' /\
      ((n' = 0 /\ d' = 0) \/ finite_ratio c')) <-> ((n = 0 /\ d = 0) \/ finite_ratio c)).
  { split; [|intros ? ? [= <-]; by exists n, d, nb, db].
    intros Hx. destruct (Hx c eq_refl) as (n' & d' & nb' & db' & (F1 & F2 & _) & HQ).
    destruct Hc as (E1 & E2 & _). by simplify_eq. }
  rewrite Hfix.
  destruct (enforce_constrained replicas bounds c n d nb db Hc)
    as [(-> & -> & ->)|[(Hz & Hf & ->)|(Hz & Hf & n' & d' & adj & r & _ & ->)]]; simpl; naive_solver.
Qed.

(** A constraint on two roles that have sizes and bounds can only fail on a
    ratio that is not a number. *)
Lemma enforce_error_known constraint :
  (forall c, constraint = Some c ->
    is_Some (replicas !! NumeratorRole c) /\ is_Some (replicas !! DenominatorRole c) /\
    is_Some (bounds !! NumeratorRole c) /\ is_Some (bounds !! DenominatorRole c)) ->
  forall e, RatioErr (EnforceRoleRatio oor AsFloat64Slow replicas bounds constraint) = Some e ->
    e = NonFiniteRatio.
Proof.
  intros Hc e. destruct constraint as [c|]; [|done].
  destruct (Hc c eq_refl) as ([n0 E1] & [d0 E2] & [nb E3] & [db E4]).
  destruct (enforce_constrained replicas bounds c (clampTo nb n0) (clampTo db d0) nb db)
    as [(_ & _ & ->)|[(_ & _ & ->)|(_ & _ & n' & d' & adj & r & _ & ->)]]; simpl; [|congruence..].
  by split_and!; [rewrite clampReplicas_lookup, E1, E3|rewrite clampReplicas_lookup, E2, E4| |].
Qed.
End bounded.
End ratio_spec.

(** Whatever the sizes, the ratio bounds and the rounding of the floats:
    every role that has bounds ends within them, no role appears or
    disappears, a role outside the constraint is only clamped to its bounds,
    and the error is set exactly when the constraint names a role without a
    size or without bounds, or, unless both roles are at zero, is not
    finite. *)
Theorem role_ratio_bounds {Quantity} oor (AsFloat64Slow : Quantity -> float64)
    replicas bounds (constraint : option (RoleRatioConstraint Quantity)) :
  (forall role b, bounds !! role = Some b -> bounds_ok b) ->
  let r := EnforceRoleRatio oor AsFloat64Slow replicas bounds constraint in
  dom (FinalReplicas r) = dom replicas /\
  (forall role n b, FinalReplicas r !! role = Some n -> bounds !! role = Some b -> in_bounds b n) /\
  (forall role, (forall c, constraint = Some c -> role <> NumeratorRole c /\ role <> DenominatorRole c) ->
     FinalReplicas r !! role = clampReplicas bounds replicas !! role) /\
  (RatioErr r = None <-> forall c, constraint = Some c -> exists n d nb db,
     constrained (clampReplicas bounds replicas) bounds c n d nb db /\
     ((n = 0 /\ d = 0) \/ finite_ratio AsFloat64Slow c)).
Proof.
  intros Hb r.
  destruct (enforce_in_bounds oor AsFloat64Slow replicas bounds Hb constraint) as (H1 & H2 & H3).
  split_and!; [done|done|done|apply enforce_error].
Qed.

(** Quantities in halves: [2] stands for a ratio of 1. *)
Definition example_quantity (z : Z) : float64 := f_div (f_of_Z z) (f_of_Z 2).

Definition example_constraint (lo hi : Z) : RoleRatioConstraint Z :=
  MkConstraint "prefill" "decode" lo hi.

Definition example_sizes (p d : Z) : gmap string Z := <["prefill" := p]> (<["decode" := d]> ∅).
Definition example_bounds (p d : ReplicaBounds) : gmap string ReplicaBounds :=
  <["prefill" := p]> (<["decode" := d]> ∅).

Lemma example_bounds_ok p d :
  bounds_ok p -> bounds_ok d ->
  forall role b, example_bounds p d !! role = Some b -> bounds_ok b.
Proof.
  intros Hp Hd role b. unfold example_bounds. rewrite !lookup_insert, lookup_empty.
  repeat case_decide; naive_solver.
Qed.

(** 1 prefill for 4 decode at a ratio of at least one half: prefill is raised. *)
Lemma role_ratio_bounds_witness :
  let r := EnforceRoleRatio (fun _ => 0) example_quantity (example_sizes 1 4)
    (example_bounds (MkBounds 1 10) (MkBounds 1 10)) (Some (example_constraint 1 2)) in
  (forall n, FinalReplicas r !! "prefill" = Some n -> 1 <= n <= 10) /\
  FinalReplicas r !! "prefill" = Some 2 /\ FinalReplicas r !! "decode" = Some 4.
Proof.
  intros r. split.
  - intros n Hn.
    assert (Hb : example_bounds (MkBounds 1 10) (MkBounds 1 10) !! "prefill" = Some (MkBounds 1 10))
      by (vm_compute; reflexivity).
    pose proof (example_bounds_ok (MkBounds 1 10) (MkBounds 1 10)
      ltac:(by compute_ok) ltac:(by compute_ok)) as Hok.
    pose proof (role_ratio_bounds (fun _ => 0) example_quantity (example_sizes 1 4)
      (example_bounds (MkBounds 1 10) (MkBounds 1 10)) (Some (example_constraint 1 2)) Hok) as HC.
    cbv zeta in HC. fold r in HC. destruct HC as (_ & HC & _).
    exact (HC "prefill" n (MkBounds 1 10) Hn Hb).
  - split; vm_compute; reflexivity.
Defined.

(** The repair can end outside a ratio range that is feasible within the
    bounds: at a ratio of exactly one half, 1 prefill and 3 decode become 2
    and 3, although 2 and 4 (or 1 and 2) satisfy the constraint. *)
Example repair_misses_feasible_ratio :
  let r := EnforceRoleRatio (fun _ => 0) example_quantity (example_sizes 1 3)
    (example_bounds (MkBounds 1 10) (MkBounds 1 10)) (Some (example_constraint 1 1)) in
  FinalReplicas r = example_sizes 2 3 /\ RatioErr r = None.
Proof. split; vm_compute; reflexivity. Qed.

(** The repair can leave one role without replicas and the other with some:
    with prefill in [0, 1], decode in [0, 10] and a ratio of at least 2, one
    replica of each becomes 1 prefill and no decode. *)
Example repair_starves_a_role :
  let r := EnforceRoleRatio (fun _ => 0) example_quantity (example_sizes 1 1)
    (example_bounds (MkBounds 0 1) (MkBounds 0 10)) (Some (example_constraint 4 10)) in
  FinalReplicas r !! "prefill" = Some 1 /\ FinalReplicas r !! "decode" = Some 0 /\ RatioErr r = None.
Proof. vm_compute. done. Qed.
