(* ===== verification/Disaggregated.v ===== *)
(** * pkg/autoscaler/autoscaler/disaggregated_scaler.go

    The roles of one model serving are scaled one by one, each with its own
    [Status], and the sizes are then repaired to the role ratio. The metrics
    of a cycle are an argument ([None]: [UpdateMetrics] failed), as are the
    orders in which the language visits the maps the code ranges over. A nil
    scaler and the scraping configuration ([metricSourcesForRole], handed to
    the collectors) are left out. The clock readings of a role [r] are
    [clk r 0], [clk r 1], ...: 0 to 2 while it is scaled, 3 to 8 while its
    result is recorded, 9 for the mode in the answer. *)
From S2P Require Import Prelude Float64 Deque SlidingWindow Recommendation Revision Autoscaler RoleRatio.
Local Open Scope Z_scope.

Definition ScaleModeStable : string := "Stable".
Definition ScaleModePanic : string := "Panic".

Section disaggregated.
Context {D : Type -> Type} `{DequeLaws D} (oor : float64 -> Z).
Context {Quantity : Type} (AsFloat64Slow : Quantity -> float64).

Record RoleScalingParam := MkRoleParam {
  RoleMinReplicas : Z;
  RoleMaxReplicas : Z;
  RoleMetrics : list (string * Quantity)
}.

Record DisaggregatedPolicy := MkDisaggregatedPolicy {
  DPolicyGeneration : Z;
  DPolicyBehavior : AutoscalingPolicyBehavior;
  DPolicyTolerancePercent : Z;
  DPolicyMetrics : list (string * Quantity);
  DPolicyRoles : gmap string RoleScalingParam;
  DPolicyRatioConstraint : option (RoleRatioConstraint Quantity)
}.

(** [Collectors] keeps the metric targets of each role's collector. *)
Record DisaggregatedAutoscaler := MkDisaggregated {
  ConfigRoles : gmap string RoleScalingParam;
  ConfigRatioConstraint : option (RoleRatioConstraint Quantity);
  Collectors : gmap string Metrics;
  Statuses : gmap string (Status D);
  DGeneration : Z
}.

Record RoleScaleResult := MkRoleResult {
  RoleName : string;
  RoleCurrentReplicas : Z;
  RoleDesiredReplicas : Z;
  RoleFinalReplicas : Z;
  RoleMode : string
}.

Record DisaggregatedScaleResult := MkScaleResult {
  ResultRoles : list RoleScaleResult;
  ResultRatioStatus : option (string * string * option float64);
  ResultRatioAdjusted : bool
}.

Inductive ScaleError :=
| CollectorNotFound (role : string)
| UpdateMetricsFailed (role : string)
| RatioFailed (e : RatioError).

(** What [Scale] returns: an error, [nil, nil], or a result. *)
Inductive ScaleOutcome :=
| ScaleFailed (e : ScaleError)
| ScaleSkipped
| ScaleDone (r : DisaggregatedScaleResult).

Definition isFixedRole (roleParam : RoleScalingParam) : bool :=
  (0 <? RoleMaxReplicas roleParam) && (RoleMinReplicas roleParam =? RoleMaxReplicas roleParam).

Definition metricTargetsOf (metrics : list (string * Quantity)) : Metrics :=
  fold_left (fun targets '(name, target) => <[name := AsFloat64Slow target]> targets) metrics ∅.

Definition GetDisaggregatedMetricTargets (policy : DisaggregatedPolicy) : gmap string Metrics :=
  (fun roleParam =>
     if isFixedRole roleParam then ∅
     else metricTargetsOf (match RoleMetrics roleParam with
                           | [] => DPolicyMetrics policy
                           | metrics => metrics
                           end)) <$> DPolicyRoles policy.

Definition NewDisaggregatedAutoscaler (policy : DisaggregatedPolicy) : DisaggregatedAutoscaler :=
  let metricTargetsByRole := GetDisaggregatedMetricTargets policy in
  MkDisaggregated (DPolicyRoles policy) (DPolicyRatioConstraint policy) metricTargetsByRole
    ((fun _ => NewStatus (DPolicyBehavior policy)) <$> DPolicyRoles policy)
    (DPolicyGeneration policy).

Definition DisaggregatedNeedUpdate (a : DisaggregatedAutoscaler) (policy : DisaggregatedPolicy) : bool :=
  negb (DGeneration a =? DPolicyGeneration policy).

Definition set_Statuses (a : DisaggregatedAutoscaler) (statuses : gmap string (Status D)) :
    DisaggregatedAutoscaler :=
  MkDisaggregated (ConfigRoles a) (ConfigRatioConstraint a) (Collectors a) statuses (DGeneration a).

(** The maps the loop over the roles fills. *)
Record ScaleLoop := MkLoop {
  LoopDesired : gmap string Z;
  LoopCorrected : gmap string Z;
  LoopResults : gmap string scaleOneTargetResult;
  LoopStatuses : gmap string (Status D)
}.

(** Go on, or return at once, with the statuses as they are. *)
Inductive LoopStep :=
| LoopNext (s : ScaleLoop)
| LoopReturn (o : ScaleOutcome) (statuses : gmap string (Status D)).

(** The input [Scale] hands to [scaleOneTarget] for a role. *)
Definition roleInput (policy : DisaggregatedPolicy) (roleParam : RoleScalingParam) (current : Z)
    (targets : Metrics) (metrics : collected) (order : list (string * float64)) : scaleOneTargetInput :=
  let '(unready, ready, external) := metrics in
  MkInput (DPolicyBehavior policy) (RoleMinReplicas roleParam) (RoleMaxReplicas roleParam)
    current (DPolicyTolerancePercent policy) targets unready ready external order.

(** One iteration of the loop over the sorted role names. *)
Definition scaleRole (a : DisaggregatedAutoscaler) (policy : DisaggregatedPolicy)
    (currentReplicas : gmap string Z) (update : string -> option collected)
    (order : string -> list (string * float64)) (clk : string -> nat -> Z)
    (s : ScaleLoop) (roleName : string) (roleParam : RoleScalingParam) : option LoopStep :=
  let current := default 0 (currentReplicas !! roleName) in
  if isFixedRole roleParam then
    Some (LoopNext (MkLoop (<[roleName := RoleMinReplicas roleParam]> (LoopDesired s))
                      (<[roleName := RoleMinReplicas roleParam]> (LoopCorrected s))
                      (LoopResults s) (LoopStatuses s)))
  else
    match Collectors a !! roleName with
    | None => Some (LoopReturn (ScaleFailed (CollectorNotFound roleName)) (LoopStatuses s))
    | Some targets =>
      let '(status, statuses) :=
        match LoopStatuses s !! roleName with
        | Some status => (status, LoopStatuses s)
        | None => let status := NewStatus (DPolicyBehavior policy) in
                  (status, <[roleName := status]> (LoopStatuses s))
        end in
      match update roleName with
      | None => Some (LoopReturn (ScaleFailed (UpdateMetricsFailed roleName)) statuses)
      | Some metrics =>
        '(scaleResult, status) ← scaleOneTarget oor
          (roleInput policy roleParam current targets metrics (order roleName)) status (clk roleName);
        let statuses := <[roleName := status]> statuses in
        if Skip scaleResult then Some (LoopReturn ScaleSkipped statuses)
        else Some (LoopNext (MkLoop
          (<[roleName := RecommendedReplicas scaleResult]> (LoopDesired s))
          (<[roleName := CorrectedReplicas scaleResult]> (LoopCorrected s))
          (<[roleName := scaleResult]> (LoopResults s)) statuses))
      end
    end.

Fixpoint scaleRoles a policy currentReplicas update order clk (s : ScaleLoop)
    (roleNames : list string) : option LoopStep :=
  match roleNames with
  | [] => Some (LoopNext s)
  | roleName :: roleNames =>
    let roleParam := default (MkRoleParam 0 0 []) (ConfigRoles a !! roleName) in
    step ← scaleRole a policy currentReplicas update order clk s roleName roleParam;
    match step with
    | LoopNext s => scaleRoles a policy currentReplicas update order clk s roleNames
    | LoopReturn o statuses => Some (LoopReturn o statuses)
    end
  end.

(** The loop that records the results; [entries] lists them in the order the
    language visits them. *)
Fixpoint recordResults (clk : string -> nat -> Z) (statuses : gmap string (Status D))
    (entries : list (string * scaleOneTargetResult)) : option (gmap string (Status D)) :=
  match entries with
  | [] => Some statuses
  | (roleName, scaleResult) :: entries =>
    status ← statuses !! roleName;
    status ← recordScaleOneTargetResult status scaleResult (clk roleName);
    recordResults clk (<[roleName := status]> statuses) entries
  end.

Definition buildResult (currentReplicas desired final : gmap string Z)
    (statuses : gmap string (Status D)) (clk : string -> nat -> Z) (roleName : string) :
    option RoleScaleResult :=
  status ← statuses !! roleName;
  let mode := if IsPanicMode status (clk roleName 9%nat) then ScaleModePanic else ScaleModeStable in
  Some (MkRoleResult roleName (default 0 (currentReplicas !! roleName))
          (default 0 (desired !! roleName)) (default 0 (final !! roleName)) mode).

(** [DisaggregatedAutoscaler.Scale]. [visit]: the order of the range over the
    results. *)
Definition DisaggregatedScale (a : DisaggregatedAutoscaler) (policy : DisaggregatedPolicy)
    (currentReplicas : gmap string Z) (update : string -> option collected)
    (order : string -> list (string * float64))
    (visit : gmap string scaleOneTargetResult -> list (string * scaleOneTargetResult))
    (clk : string -> nat -> Z) : option (ScaleOutcome * DisaggregatedAutoscaler) :=
  let roleNames := sortStrings (map_to_list (ConfigRoles a)).*1 in
  let bounds := (fun p => MkBounds (RoleMinReplicas p) (RoleMaxReplicas p)) <$> ConfigRoles a in
  step ← scaleRoles a policy currentReplicas update order clk (MkLoop ∅ ∅ ∅ (Statuses a)) roleNames;
  match step with
  | LoopReturn o statuses => Some (o, set_Statuses a statuses)
  | LoopNext s =>
    let ratio := EnforceRoleRatio oor AsFloat64Slow (LoopCorrected s) bounds (ConfigRatioConstraint a) in
    match RatioErr ratio with
    | Some e => Some (ScaleFailed (RatioFailed e), set_Statuses a (LoopStatuses s))
    | None =>
      statuses ← recordResults clk (LoopStatuses s) (visit (LoopResults s));
      roles ← mapM (buildResult currentReplicas (LoopDesired s) (FinalReplicas ratio) statuses clk)
                roleNames;
      let ratioStatus :=
        c ← ConfigRatioConstraint a;
        Some (NumeratorRole c, DenominatorRole c, CurrentRatio ratio) in
      Some (ScaleDone (MkScaleResult roles ratioStatus (RatioAdjusted ratio)),
            set_Statuses a statuses)
    end
  end.
End disaggregated.

(** ** One cycle of all roles *)
Section disaggregated_spec.
Context {D : Type -> Type} `{DequeLaws D} (oor : float64 -> Z).
Context {Quantity : Type} (AsFloat64Slow : Quantity -> float64).
Context (policy : DisaggregatedPolicy (Quantity:=Quantity)).
Abbreviation roles := (DPolicyRoles policy).
Abbreviation lengths := (status_lengths (DPolicyBehavior policy)).

Definition role_status_ok (now : Z) (st : Status D) : Prop :=
  exists g, history_inv lengths g now (HistoryOf st).

(** Every role of the policy has a status that is well-formed at its time. *)
Definition statuses_ok (now : string -> Z) (sts : gmap string (Status D)) : Prop :=
  forall role, role ∈ dom roles -> exists st, sts !! role = Some st /\ role_status_ok (now role) st.

Definition disaggregated_inv (now : Z) (a : DisaggregatedAutoscaler (D:=D) (Quantity:=Quantity)) : Prop :=
  ConfigRoles a = roles /\ ConfigRatioConstraint a = DPolicyRatioConstraint policy /\
  dom (Collectors a) = dom roles /\ statuses_ok (fun _ => now) (Statuses a).

(** What the API server admits. *)
Definition disaggregated_ok : Prop :=
  behavior_set (DPolicyBehavior policy) /\ lengths_ok lengths /\
  (forall role p, roles !! role = Some p -> 0 <= RoleMinReplicas p <= RoleMaxReplicas p) /\
  (forall c, DPolicyRatioConstraint policy = Some c ->
     NumeratorRole c ∈ dom roles /\ DenominatorRole c ∈ dom roles).

Context (Hok : disaggregated_ok).

Lemma role_status_ok_mono now t st : role_status_ok now st -> now <= t -> role_status_ok t st.
Proof. intros (g & Hg) Ht. exists g. eapply history_inv_mono; [apply Hok|done|done]. Qed.

Lemma statuses_ok_insert now now' sts role st :
  statuses_ok now sts -> role_status_ok (now' role) st ->
  (forall r, r <> role -> now' r = now r) -> statuses_ok now' (<[role := st]> sts).
Proof.
  intros Hs Hst Hne r Hr. rewrite lookup_insert. case_decide as E.
  - subst r. by exists st.
  - rewrite Hne by congruence. by apply Hs.
Qed.

Lemma NewDisaggregated_inv now : disaggregated_inv now (NewDisaggregatedAutoscaler AsFloat64Slow policy).
Proof.
  split_and!; [done|done|by apply dom_fmap_L|]. intros role Hr. simpl.
  apply elem_of_dom in Hr as [p Hp]. rewrite lookup_fmap, Hp. eexists. split; [done|].
  exists empty_logs. apply NewHistory_inv, Hok.
Qed.

Lemma roleInput_fields p current targets metrics order :
  let input := roleInput policy p current targets metrics order in
  InOrder input = order /\ InBehavior input = DPolicyBehavior policy /\
  InMinReplicas input = RoleMinReplicas p /\ InMaxReplicas input = RoleMaxReplicas p.
Proof. by destruct metrics as [[? ?] ?]. Qed.

Lemma role_in_dom role p : roles !! role = Some p -> role ∈ dom roles.
Proof. intros Hp. apply elem_of_dom. eauto. Qed.

Context (now : Z) (a : DisaggregatedAutoscaler (D:=D) (Quantity:=Quantity)).
Context (Ha : disaggregated_inv now a).
Context (currentReplicas : gmap string Z) (update : string -> option collected).
Context (order : string -> list (string * float64)) (clk : string -> nat -> Z).
Context (Hclk : forall r, cycle_clock now (clk r)).

(** The time a role's status is known to be well-formed at, while the roles
    [rest] are still to be scaled. *)
Definition scale_time (rest : list string) (r : string) : Z :=
  if decide (r ∈ rest) then now else clk r 2%nat.

(** The state of the loop while the roles [rest] are still to be scaled. *)
Definition loop_ok (rest : list string) (s : ScaleLoop (D:=D)) : Prop :=
  statuses_ok (scale_time rest) (LoopStatuses s) /\
  (forall r, r ∈ dom roles -> r ∈ rest \/ r ∈ dom (LoopCorrected s)) /\
  dom (LoopCorrected s) ⊆ dom roles /\
  dom (LoopResults s) ⊆ dom roles.

(** Why a cycle ends without a result. *)
Inductive no_result : ScaleOutcome -> Prop :=
| no_metrics role p :
    roles !! role = Some p -> isFixedRole p = false -> update role = None ->
    no_result (ScaleFailed (UpdateMetricsFailed role))
| no_recommendation role p targets metrics n :
    roles !! role = Some p -> isFixedRole p = false -> update role = Some metrics ->
    Collectors a !! role = Some targets ->
    GetRecommendedInstances oor (instancesAlgorithm
      (roleInput policy p (default 0 (currentReplicas !! role)) targets metrics (order role)))
      (order role) = (n, true) ->
    no_result ScaleSkipped.

Definition step_ok (rest : list string) (step : LoopStep (D:=D)) : Prop :=
  match step with
  | LoopNext s => loop_ok rest s
  | LoopReturn o sts => no_result o /\ statuses_ok (fun r => clk r 2%nat) sts
  end.

Lemma scale_time_le rest r : scale_time rest r <= clk r 2%nat.
Proof.
  unfold scale_time. case_decide; [|lia].
  pose proof (cycle_clock_valid now (clk r) 2 (Hclk r)) as [? _]. lia.
Qed.

Lemma statuses_ok_late rest sts :
  statuses_ok (scale_time rest) sts -> statuses_ok (fun r => clk r 2%nat) sts.
Proof.
  intros Hs r Hr. destruct (Hs r Hr) as (st & ? & ?). exists st. split; [done|].
  eapply role_status_ok_mono; [done|apply scale_time_le].
Qed.

Lemma scale_time_cons rest role r :
  role ∉ rest -> r <> role -> scale_time (role :: rest) r = scale_time rest r.
Proof. intros. unfold scale_time. repeat case_decide; set_solver. Qed.

Lemma scaleRole_ok rest s role p :
  role ∉ rest -> roles !! role = Some p -> loop_ok (role :: rest) s ->
  exists step, scaleRole oor a policy currentReplicas update order clk s role p = Some step /\
    step_ok rest step.
Proof.
  intros Hrest Hp (Hs & Hc & Hsub & Hsub'). unfold scaleRole.
  pose proof (role_in_dom role p Hp) as Hdom.
  destruct (Hs role Hdom) as (st & Est & g & Hg).
  assert (Et : scale_time (role :: rest) role = now) by (unfold scale_time; case_decide; set_solver).
  assert (Et' : scale_time rest role = clk role 2%nat)
    by (unfold scale_time; case_decide; set_solver).
  rewrite Et in Hg.
  assert (forall r, r <> role -> scale_time rest r = scale_time (role :: rest) r) as Hne
    by (intros; by rewrite scale_time_cons).
  destruct (isFixedRole p) eqn:Ef.
  { eexists. split; [done|]. split_and!; simpl; [|set_solver..].
    rewrite <- (insert_id _ _ _ Est).
    eapply statuses_ok_insert; [exact Hs| |done]. rewrite Et'. exists g.
    eapply history_inv_mono; [apply Hok|exact Hg|].
    by destruct (cycle_clock_valid now (clk role) 2 (Hclk role)). }
  destruct Ha as (_ & _ & Hcol & _).
  assert (is_Some (Collectors a !! role)) as [targets Etg] by (apply elem_of_dom; by rewrite Hcol).
  rewrite Etg, Est. destruct (update role) as [metrics|] eqn:Eu.
  2: { eexists. split; [done|]. split; [by eapply no_metrics|]. by eapply statuses_ok_late. }
  set (input := roleInput policy p _ targets metrics (order role)).
  destruct (roleInput_fields p (default 0 (currentReplicas !! role)) targets metrics (order role))
    as (F1 & F2 & F3 & F4). fold input in F1, F2, F3, F4.
  pose proof (scaleOneTarget_step oor lengths g now input st (clk role) ltac:(apply Hok) Hg
    (Hclk role) ltac:(rewrite F2; apply Hok)
    ltac:(rewrite F3, F4; exact (proj2 (proj1 (proj2 (proj2 Hok)) role p Hp)))) as Hstep.
  rewrite F1 in Hstep.
  destruct (GetRecommendedInstances oor (instancesAlgorithm input) (order role)) as [rec []] eqn:Eg.
  { rewrite Hstep. simpl. eexists. split; [done|]. split; [by eapply no_recommendation|].
    rewrite insert_id by done. by eapply statuses_ok_late. }
  destruct Hstep as (n & h' & -> & Hi & _). simpl. eexists. split; [done|].
  split_and!; simpl; [|set_solver..].
  eapply statuses_ok_insert; [exact Hs| |done]. rewrite Et'. exists g. exact Hi.
Qed.

Lemma scaleRoles_ok names s :
  NoDup names -> (forall r, r ∈ names -> r ∈ dom roles) -> loop_ok names s ->
  exists step, scaleRoles oor a policy currentReplicas update order clk s names = Some step /\
    step_ok [] step.
Proof.
  revert s. induction names as [|role names IH]; intros s Hnd Hin Hs; simpl.
  { by eexists. }
  apply NoDup_cons in Hnd as [Hni Hnd].
  destruct Ha as (Er & _). rewrite Er.
  assert (is_Some (roles !! role)) as [p Hp] by (apply elem_of_dom, Hin; set_solver).
  rewrite Hp. simpl.
  destruct (scaleRole_ok names s role p Hni Hp Hs) as ([s'|o sts] & -> & Hstep); simpl.
  - apply IH; [done|set_solver|done].
  - by eexists.
Qed.

(** The time a status is well-formed at while the results [rest] are still to
    be recorded. *)
Definition record_time (rest : list string) (r : string) : Z :=
  if decide (r ∈ rest) then clk r 2%nat else clk r 8%nat.

Lemma clk_le r i j : (i <= j)%nat -> clk r i <= clk r j.
Proof. by apply (cycle_clock_le now), Hclk. Qed.

Lemma recordResults_ok entries sts :
  NoDup entries.*1 -> (forall r, r ∈ entries.*1 -> r ∈ dom roles) ->
  statuses_ok (record_time entries.*1) sts ->
  exists sts', recordResults clk sts entries = Some sts' /\ statuses_ok (fun r => clk r 8%nat) sts'.
Proof.
  revert sts. induction entries as [|[role result] entries IH]; intros sts Hnd Hin Hs; simpl in *.
  { by exists sts. }
  apply NoDup_cons in Hnd as [Hni Hnd].
  destruct (Hs role) as (st & Est & g & Hg); [set_solver|]. rewrite Est. simpl.
  unfold record_time in Hg. rewrite decide_True in Hg by set_solver.
  destruct (record_cycle lengths g now (clk role 2%nat) st result (clk role))
    as (st' & -> & _ & _ & Hg'); [apply Hok|done|by apply clk_le; lia|done|]. simpl.
  apply IH; [done|set_solver|]. eapply statuses_ok_insert; [exact Hs| |].
  - exists (log_cycle g (clk role) (RecommendedReplicas result) (CorrectedReplicas result)).
    unfold record_time. by rewrite decide_False.
  - intros r Hr. unfold record_time. repeat case_decide; set_solver.
Qed.

Lemma buildResult_ok desired final sts times names :
  statuses_ok times sts -> (forall r, r ∈ names -> r ∈ dom roles) ->
  exists results, mapM (buildResult currentReplicas desired final sts clk) names = Some results /\
    RoleName <$> results = names /\
    forall x, x ∈ results -> RoleFinalReplicas x = default 0 (final !! RoleName x) /\
      RoleDesiredReplicas x = default 0 (desired !! RoleName x) /\
      RoleCurrentReplicas x = default 0 (currentReplicas !! RoleName x).
Proof.
  intros Hs. induction names as [|role names IH]; intros Hin; simpl.
  { exists []. split_and!; [done|done|]. intros x Hx. by apply elem_of_nil in Hx. }
  destruct IH as (results & Em & En & Hf); [set_solver|].
  destruct (Hs role) as (st & Est & _); [set_solver|].
  assert (exists x, buildResult currentReplicas desired final sts clk role = Some x /\
    RoleName x = role /\ RoleFinalReplicas x = default 0 (final !! role) /\
    RoleDesiredReplicas x = default 0 (desired !! role) /\
    RoleCurrentReplicas x = default 0 (currentReplicas !! role)) as (x0 & -> & Ex & Hx0)
    by (unfold buildResult; rewrite Est; by eexists).
  simpl. rewrite Em. simpl. eexists. split; [done|]. rewrite fmap_cons, Ex, En. split; [done|].
  intros x [->|Hx]%elem_of_cons; [by rewrite Ex|by apply Hf].
Qed.

(** The names the loops go over. *)
Lemma roleNames_spec : ConfigRoles a = roles ->
  NoDup (sortStrings (map_to_list (ConfigRoles a)).*1) /\
  (forall r, r ∈ sortStrings (map_to_list (ConfigRoles a)).*1 <-> r ∈ dom roles).
Proof.
  intros ->. split; [rewrite sortStrings_perm; apply NoDup_fst_map_to_list|].
  intros r. rewrite sortStrings_perm, elem_of_dom, list_elem_of_fmap. split.
  - intros ([k p] & -> & Hk%elem_of_map_to_list). eauto.
  - intros [p Hp]. exists (r, p). by rewrite elem_of_map_to_list.
Qed.

Definition role_bounds : gmap string ReplicaBounds :=
  (fun p => MkBounds (RoleMinReplicas p) (RoleMaxReplicas p)) <$> ConfigRoles a.

Lemma role_bounds_ok role b : role_bounds !! role = Some b -> bounds_ok b.
Proof.
  destruct Ha as (E & _). unfold role_bounds. rewrite E, lookup_fmap.
  destruct (roles !! role) as [p|] eqn:Hp; intros; simplify_eq/=.
  unfold bounds_ok. simpl. by apply (proj1 (proj2 (proj2 Hok)) role p).
Qed.
End disaggregated_spec.

(** C39: one cycle of a disaggregated policy never panics, in whatever order
    the maps are visited, and leaves every role with a well-formed status.
    Either it answers a size for every role of the policy, in the order of the
    names, each within the bounds of its role; or a role that is scaled had no
    metrics or no recommendation, or the ratio is not a finite number. *)
Theorem disaggregated_scale_safe {D} `{DequeLaws D} {Quantity} oor
    (AsFloat64Slow : Quantity -> float64) (policy : DisaggregatedPolicy)
    (now later : Z) (a : DisaggregatedAutoscaler (D:=D)) currentReplicas update order visit clk :
  disaggregated_ok policy -> disaggregated_inv policy now a ->
  (forall r, cycle_clock now (clk r) /\ clk r 8%nat <= later) ->
  (forall m, visit m ≡ₚ map_to_list m) ->
  exists o a',
    DisaggregatedScale oor AsFloat64Slow a policy currentReplicas update order visit clk = Some (o, a') /\
    disaggregated_inv policy later a' /\
    match o with
    | ScaleDone r =>
      RoleName <$> ResultRoles r = sortStrings (map_to_list (DPolicyRoles policy)).*1 /\
      forall x, x ∈ ResultRoles r -> exists p, DPolicyRoles policy !! RoleName x = Some p /\
        RoleMinReplicas p <= RoleFinalReplicas x <= RoleMaxReplicas p
    | ScaleFailed (RatioFailed e) => e = NonFiniteRatio
    | o => no_result oor policy a currentReplicas update order o
    end.
Proof.
  intros Hok Ha Hclk Hvisit.
  assert (Hc : forall r, cycle_clock now (clk r)) by (intros r; apply Hclk).
  pose proof Ha as (Er & Eratio & Ecol & Hsts).
  destruct (roleNames_spec policy a Er) as [Hnd Hnames].
  assert (Hlate : forall sts time, (forall r, time r <= clk r 8%nat) -> statuses_ok policy time sts ->
    disaggregated_inv policy later (set_Statuses a sts)).
  { intros sts time Ht Hs. split_and!; [done|done|done|]. intros r Hr.
    destruct (Hs r Hr) as (st & ? & Hst). exists st. split; [done|].
    eapply (role_status_ok_mono policy Hok); [exact Hst|].
    specialize (Ht r). destruct (Hclk r). lia. }
  assert (H28 : forall r, clk r 2%nat <= clk r 8%nat)
    by (intros r; apply (clk_le now clk Hc); lia).
  unfold DisaggregatedScale. set (names := sortStrings _) in *. fold (role_bounds a).
  destruct (scaleRoles_ok oor policy Hok now a Ha currentReplicas update order clk Hc names
    (MkLoop ∅ ∅ ∅ (Statuses a))) as (step & -> & Hstep); [done|by intros; apply Hnames| |].
  { split_and!; simpl; [|intros; left; by apply Hnames|set_solver..].
    intros r Hr. destruct (Hsts r Hr) as (st & ? & ?). exists st. split; [done|].
    unfold scale_time. rewrite decide_True; [done|]. by apply Hnames. }
  simpl. destruct step as [s|o sts]; simpl in Hstep.
  2: { destruct Hstep as [Ho Hs]. eexists _, _. split; [done|].
       split; [by apply (Hlate _ (fun r => clk r 2%nat))|].
       by destruct Ho; [eapply no_metrics|eapply no_recommendation]. }
  destruct Hstep as (Hs & Hcor & Hsub & Hres).
  assert (Edom : dom (LoopCorrected s) = dom (DPolicyRoles policy)) by set_solver.
  destruct (enforce_in_bounds oor AsFloat64Slow (LoopCorrected s) (role_bounds a)
    (role_bounds_ok policy Hok now a Ha) (ConfigRatioConstraint a)) as (Hfd & Hfb & _).
  assert (Hbd : dom (role_bounds a) = dom (DPolicyRoles policy))
    by (unfold role_bounds; by rewrite Er, dom_fmap_L).
  pose proof (enforce_error_known oor AsFloat64Slow (LoopCorrected s) (role_bounds a)
    (ConfigRatioConstraint a)) as Herr.
  set (ratio := EnforceRoleRatio _ _ _ _ _) in *.
  destruct (RatioErr ratio) as [e|].
  { eexists _, _. split; [done|]. split.
    { by apply (Hlate _ (fun r => clk r 2%nat)), (statuses_ok_late policy Hok now clk Hc []). }
    apply Herr; [|done]. intros c Ec. rewrite Eratio in Ec.
    destruct (proj2 (proj2 (proj2 Hok)) c Ec). rewrite <- !elem_of_dom, Hbd, Edom. done. }
  destruct (recordResults_ok policy Hok now a Ha update order clk Hc (visit (LoopResults s)) (LoopStatuses s))
    as (sts & -> & Hsts').
  { rewrite Hvisit. apply NoDup_fst_map_to_list. }
  { intros r. rewrite Hvisit, list_elem_of_fmap. intros ([k x] & -> & Hk%elem_of_map_to_list).
    apply Hres, elem_of_dom. eauto. }
  { intros r Hr. destruct (Hs r Hr) as (st & ? & Hst). exists st. split; [done|].
    eapply (role_status_ok_mono policy Hok); [exact Hst|]. simpl. unfold record_time.
    case_decide; [done|apply H28]. }
  simpl. destruct (buildResult_ok policy Hok now a Ha currentReplicas update order clk Hc (LoopDesired s) (FinalReplicas ratio)
    sts _ names Hsts') as (results & -> & Enames & Hfinal); [by intros; apply Hnames|]. simpl.
  eexists _, _. split; [done|].
  split; [by apply (Hlate _ (fun r => clk r 8%nat))|]. simpl.
  split; [rewrite Enames; unfold names; by rewrite Er|].
  intros x Hx. destruct (Hfinal x Hx) as (Ef & _).
  assert (RoleName x ∈ dom (DPolicyRoles policy)) as Hin.
  { apply Hnames. rewrite <- Enames. apply list_elem_of_fmap. by exists x. }
  pose proof Hin as [p Hp]%elem_of_dom. exists p. split; [done|].
  rewrite <- Edom, <- Hfd in Hin. apply elem_of_dom in Hin as [n En]. rewrite En in Ef.
  rewrite Ef. apply (Hfb (RoleName x) n (MkBounds (RoleMinReplicas p) (RoleMaxReplicas p)) En).
  unfold role_bounds. by rewrite Er, lookup_fmap, Hp.
Qed.

Definition example_roles : gmap string (RoleScalingParam (Quantity:=Z)) :=
  <["prefill" := MkRoleParam 2 2 []]> (<["decode" := MkRoleParam 1 10 [("queue", 20)]]> ∅).

Definition example_disaggregated : DisaggregatedPolicy (Quantity:=Z) :=
  MkDisaggregatedPolicy 1 (PolicyBehavior example_policy) 10 [] example_roles
    (Some (example_constraint 1 2)).

Lemma example_disaggregated_ok : disaggregated_ok example_disaggregated.
Proof.
  split_and!; [by compute_ok..| |].
  - intros role p. unfold example_disaggregated, example_roles. simpl.
    rewrite !lookup_insert, lookup_empty. repeat case_decide; intros; simplify_eq; simpl; lia.
  - intros c [= <-]. by compute_ok.
Qed.

(** A fixed prefill role of 2 and a decode role of 1 whose queue asks for 3. *)
Lemma disaggregated_scale_safe_witness :
  exists o a',
    DisaggregatedScale (D:=list) (fun _ => 0) example_quantity
      (NewDisaggregatedAutoscaler example_quantity example_disaggregated) example_disaggregated
      (<["prefill" := 2]> (<["decode" := 1]> ∅))
      (fun _ => Some (∅, ∅, <["queue" := f_of_Z 30]> ∅)) (fun _ => [("queue", f_of_Z 10)])
      map_to_list (fun _ => CycleClock (example_cycle 1000 0 0)) = Some (o, a') /\
    disaggregated_inv example_disaggregated 2000 a'.
Proof.
  destruct (disaggregated_scale_safe (D:=list) (fun _ => 0) example_quantity example_disaggregated
    0 2000 (NewDisaggregatedAutoscaler example_quantity example_disaggregated)
    (<["prefill" := 2]> (<["decode" := 1]> ∅))
    (fun _ => Some (∅, ∅, <["queue" := f_of_Z 30]> ∅)) (fun _ => [("queue", f_of_Z 10)])
    map_to_list (fun _ => CycleClock (example_cycle 1000 0 0))) as (o & a' & H1 & H2 & _).
  - exact example_disaggregated_ok.
  - apply NewDisaggregated_inv, example_disaggregated_ok.
  - intros r. split; [apply example_cycle_clock; lia|done].
  - done.
  - exists o, a'. split; [exact H1|exact H2].
Defined.

Example example_disaggregated_scale :
  match DisaggregatedScale (D:=list) (fun _ => 0) example_quantity
      (NewDisaggregatedAutoscaler example_quantity example_disaggregated) example_disaggregated
      (<["prefill" := 2]> (<["decode" := 1]> ∅))
      (fun _ => Some (∅, ∅, <["queue" := f_of_Z 30]> ∅)) (fun _ => [("queue", f_of_Z 10)])
      map_to_list (fun _ => CycleClock (example_cycle 1000 0 0)) with
  | Some (ScaleDone r, _) => (fun x => (RoleName x, RoleFinalReplicas x)) <$> ResultRoles r
  | _ => []
  end = [("decode", 3); ("prefill", 2)].
Proof. vm_compute. reflexivity. Qed.
