(* ===== verification/Optimizer.v ===== *)
(** * pkg/autoscaler/autoscaler/optimizer.go

    The heterogeneous optimizer: one replica count is recommended for all the
    backends of a policy together and then distributed over them, cheapest
    blocks first. The result of [sort.Slice] is any sorted permutation of its
    input: the section variable [sortSlice]. Metrics, clock readings and map
    orders are arguments as in Autoscaler.v. *)
From S2P Require Import Prelude Float64 Deque SlidingWindow Recommendation Revision Autoscaler.
Local Open Scope Z_scope.
Local Open Scope go_scope.

Record HeterogeneousTargetParam := MkParam {
  TargetNamespace : string;
  TargetName : string;
  Cost : Z;
  ParamMinReplicas : Z;
  ParamMaxReplicas : Z
}.

Record HeterogeneousTarget := MkHeterogeneous {
  Params : list HeterogeneousTargetParam;
  CostExpansionRatePercent : Z
}.

Record ReplicaBlock := MkBlock {
  targetKey : string;
  index : Z;
  replicas : Z;
  cost : Z
}.

Record OptimizerMeta := MkMeta {
  MetaConfig : HeterogeneousTarget;
  MetaMetricTargets : Metrics;
  ScalingOrder : list ReplicaBlock;
  MetaMinReplicas : Z;
  MetaMaxReplicas : Z;
  ScopeNamespace : string
}.

Definition HeterogeneousTargetKey (targetNamespace targetName policyNamespace : string) : string :=
  let namespace := if decide (targetNamespace = "") then policyNamespace else targetNamespace in
  String.append namespace (String.append "/" targetName).

Definition paramKey (policyNamespace : string) (param : HeterogeneousTargetParam) : string :=
  HeterogeneousTargetKey (TargetNamespace param) (TargetName param) policyNamespace.

(** The loop over the scaling order in [RestoreReplicasOfEachBackend]. *)
Fixpoint restoreBlocks (blocks : list ReplicaBlock) (n : Z) (replicasMap : gmap string Z) :
    gmap string Z :=
  match blocks with
  | [] => replicasMap
  | block :: blocks =>
    let slot := Z.min n (replicas block) in
    let replicasMap :=
      <[targetKey block := default 0 (replicasMap !! targetKey block) +₃₂ slot]> replicasMap in
    let n := n -₃₂ slot in
    if n <=? 0 then replicasMap else restoreBlocks blocks n replicasMap
  end.

Definition RestoreReplicasOfEachBackend (meta : OptimizerMeta) (n : Z) : gmap string Z :=
  let replicasMap := fold_left (fun m param =>
    <[paramKey (ScopeNamespace meta) param := ParamMinReplicas param]> m)
    (Params (MetaConfig meta)) ∅ in
  let n := Z.min (Z.max n (MetaMinReplicas meta)) (MetaMaxReplicas meta) in
  let n := n -₃₂ MetaMinReplicas meta in
  restoreBlocks (ScalingOrder meta) n replicasMap.

(** The comparison [NewOptimizerMeta] sorts the blocks with. *)
Definition blockLess (a b : ReplicaBlock) : bool :=
  if negb (cost a =? cost b) then cost a <? cost b else index a <? index b.

Section optimizer.
Context (oor : float64 -> Z) (sortSlice : list ReplicaBlock -> list ReplicaBlock).

(** The inner loop of [NewOptimizerMeta]: blocks of a growing size. Each block
    takes at least one replica, so [Z.to_nat n] rounds are enough. *)
Fixpoint packageBlocks (fuel : nat) (key : string) (idx unitCost ratePercent : Z)
    (n : Z) (packageLen : float64) : list ReplicaBlock :=
  match fuel with
  | O => []
  | S fuel =>
    if 0 <? n then
      let currentLen := Z.min n (Z.max (f_to_int32 oor packageLen) 1) in
      MkBlock key idx currentLen (unitCost *₆₄ currentLen) ::
      packageBlocks fuel key idx unitCost ratePercent (n -₃₂ currentLen)
        (f_div (f_mul packageLen (f_of_Z ratePercent)) (f_of_Z 100))
    else []
  end.

(** The blocks of one target. *)
Definition paramBlocks (policyNamespace : string) (ratePercent idx : Z)
    (param : HeterogeneousTargetParam) : list ReplicaBlock :=
  let key := paramKey policyNamespace param in
  let n := ParamMaxReplicas param -₃₂ ParamMinReplicas param in
  if n <=? 0 then []
  else if ratePercent =? 100 then [MkBlock key (int32 idx) n (Cost param)]
  else packageBlocks (Z.to_nat n) key (int32 idx) (Cost param) ratePercent n f_one.

(** The outer loop: (minReplicas, maxReplicas, scalingOrder). *)
Fixpoint metaLoop (policyNamespace : string) (ratePercent : Z) (idx : Z)
    (params : list HeterogeneousTargetParam) (acc : Z * Z * list ReplicaBlock) :
    Z * Z * list ReplicaBlock :=
  match params with
  | [] => acc
  | param :: params =>
    let '(minReplicas, maxReplicas, scalingOrder) := acc in
    metaLoop policyNamespace ratePercent (idx + 1) params
      (minReplicas +₃₂ ParamMinReplicas param, maxReplicas +₃₂ ParamMaxReplicas param,
       scalingOrder ++ paramBlocks policyNamespace ratePercent idx param)
  end.

Definition NewOptimizerMeta (target : HeterogeneousTarget) (policyNamespace : string)
    (metricTargets : Metrics) : OptimizerMeta :=
  let '(minReplicas, maxReplicas, scalingOrder) :=
    metaLoop policyNamespace (CostExpansionRatePercent target) 0 (Params target) (0, 0, []) in
  MkMeta target metricTargets (sortSlice scalingOrder) minReplicas maxReplicas policyNamespace.
End optimizer.

(** ** Distribution of replicas *)

(** The slots the blocks receive, in order. *)
Fixpoint allocate (blocks : list ReplicaBlock) (n : Z) : list (ReplicaBlock * Z) :=
  match blocks with
  | [] => []
  | block :: blocks =>
    let slot := Z.min n (replicas block) in (block, slot) :: allocate blocks (n - slot)
  end.

Definition capacity (blocks : list ReplicaBlock) : Z := sumZ (replicas <$> blocks).
Definition key_blocks (k : string) (blocks : list ReplicaBlock) : list ReplicaBlock :=
  filter (fun b => targetKey b = k) blocks.
Definition blocks_ok (blocks : list ReplicaBlock) : Prop := forall b, b ∈ blocks -> 0 <= replicas b.

(** What a target receives. *)
Definition received (k : string) (slots : list (ReplicaBlock * Z)) : Z :=
  sumZ (snd <$> filter (fun x => targetKey x.1 = k) slots).

Lemma allocate_blocks blocks n : (allocate blocks n).*1 = blocks.
Proof. revert n. induction blocks as [|b bs IH]; intros n; csimpl; [done|]. by rewrite IH. Qed.

Lemma allocate_slot blocks n b s :
  blocks_ok blocks -> 0 <= n -> (b, s) ∈ allocate blocks n -> 0 <= s <= replicas b.
Proof.
  revert n. induction blocks as [|b' bs IH]; intros n Hok Hn; csimpl; [by rewrite elem_of_nil|].
  assert (0 <= replicas b') by (apply Hok; by left).
  intros [[= -> ->]|Hin]%elem_of_cons; [lia|].
  eapply IH; [intros b0 Hb; apply Hok; by right| |exact Hin]. lia.
Qed.

Lemma capacity_nonneg blocks : blocks_ok blocks -> 0 <= capacity blocks.
Proof. apply sumZ_fmap_nonneg. Qed.

Lemma allocate_sum blocks n :
  blocks_ok blocks -> 0 <= n -> sumZ (allocate blocks n).*2 = Z.min n (capacity blocks).
Proof.
  unfold capacity. revert n. induction blocks as [|b bs IH]; intros n Hok Hn; csimpl; [lia|].
  assert (0 <= replicas b) by (apply Hok; by left).
  assert (Hbs : blocks_ok bs) by (intros b' Hb; apply Hok; by right).
  pose proof (capacity_nonneg bs Hbs). unfold capacity in *. rewrite IH by (done || lia). lia.
Qed.

Lemma allocate_zero blocks : blocks_ok blocks -> forall b s, (b, s) ∈ allocate blocks 0 -> s = 0.
Proof.
  induction blocks as [|b' bs IH]; intros Hok b s; csimpl; [by rewrite elem_of_nil|].
  assert (0 <= replicas b') by (apply Hok; by left). rewrite Z.min_l by lia.
  intros [[= -> ->]|Hin]%elem_of_cons; [done|]. eapply IH; [|exact Hin].
  intros b0 Hb; apply Hok; by right.
Qed.

Lemma received_zero k blocks : blocks_ok blocks -> received k (allocate blocks 0) = 0.
Proof.
  intros Hok. unfold received. rewrite (sumZ_fmap_ext snd (fun _ => 0)).
  - generalize (filter (fun x => targetKey x.1 = k) (allocate blocks 0)). intros l.
    induction l; csimpl; lia.
  - intros [b s] [_ Hin]%list_elem_of_filter. by eapply allocate_zero.
Qed.

Lemma received_cons k b s l :
  received k ((b, s) :: l) = (if decide (targetKey b = k) then s else 0) + received k l.
Proof.
  unfold received. rewrite filter_cons. simpl. case_decide; csimpl; lia.
Qed.

Lemma capacity_cons k b bs :
  capacity (key_blocks k (b :: bs)) =
  (if decide (targetKey b = k) then replicas b else 0) + capacity (key_blocks k bs).
Proof.
  unfold capacity, key_blocks. rewrite filter_cons. case_decide; csimpl; lia.
Qed.

Lemma key_blocks_ok k blocks : blocks_ok blocks -> blocks_ok (key_blocks k blocks).
Proof. intros Hok b [_ Hb]%list_elem_of_filter. by apply Hok. Qed.

Lemma received_bounds k blocks n :
  blocks_ok blocks -> 0 <= n ->
  0 <= received k (allocate blocks n) <= capacity (key_blocks k blocks).
Proof.
  revert n. induction blocks as [|b bs IH]; intros n Hok Hn; [done|].
  assert (0 <= replicas b) by (apply Hok; by left). cbn [allocate].
  rewrite received_cons, capacity_cons.
  specialize (IH (n - Z.min n (replicas b)) ltac:(intros b' Hb; apply Hok; by right) ltac:(lia)).
  case_decide; lia.
Qed.

(** No int32 operation of the loop wraps while the targets stay below their
    maxima. *)
Lemma restoreBlocks_value blocks n m :
  blocks_ok blocks -> 0 <= n <= MaxInt32 ->
  (forall k, 0 <= default 0 (m !! k) /\
             default 0 (m !! k) + capacity (key_blocks k blocks) <= MaxInt32) ->
  forall k, default 0 (restoreBlocks blocks n m !! k) =
            default 0 (m !! k) + received k (allocate blocks n).
Proof.
  revert n m. induction blocks as [|b bs IH]; intros n m Hok Hn Hm k; [unfold received; simpl; lia|].
  assert (Hb : 0 <= replicas b) by (apply Hok; by left).
  assert (Hbs : blocks_ok bs) by (intros b' ?; apply Hok; by right).
  cbn [restoreBlocks allocate]. set (slot := Z.min n (replicas b)).
  assert (0 <= slot <= n) by lia. rewrite (int32_id (n - slot)) by go_lia.
  assert (Hcap : forall k', 0 <= capacity (key_blocks k' bs))
    by (intros; by apply capacity_nonneg, key_blocks_ok).
  pose proof (Hm (targetKey b)) as [Hm1 Hm2]. rewrite capacity_cons, decide_True in Hm2 by done.
  rewrite (int32_id (default 0 (m !! targetKey b) + slot))
    by (specialize (Hcap (targetKey b)); go_lia).
  set (m' := <[targetKey b := default 0 (m !! targetKey b) + slot]> m).
  assert (Hm' : forall k', default 0 (m' !! k') =
    default 0 (m !! k') + (if decide (targetKey b = k') then slot else 0)).
  { intros k'. unfold m'. rewrite lookup_insert. repeat case_decide; simplify_eq; simpl; lia. }
  rewrite received_cons. destruct (Z.leb_spec (n - slot) 0) as [Hz|Hz].
  - replace (n - slot) with 0 by lia. rewrite received_zero, Hm' by done. lia.
  - rewrite IH; [rewrite Hm'; lia|done|lia|]. intros k'. rewrite Hm'.
    specialize (Hm k'). rewrite capacity_cons in Hm. specialize (Hcap k'). case_decide; lia.
Qed.

Lemma restoreBlocks_dom blocks n m :
  (forall b, b ∈ blocks -> targetKey b ∈ dom m) -> dom (restoreBlocks blocks n m) = dom m.
Proof.
  revert n m. induction blocks as [|b bs IH]; intros n m Hk; [done|]. cbn [restoreBlocks].
  set (v := int32 (default 0 (m !! targetKey b) + _)).
  assert (dom (<[targetKey b := v]> m) = dom m) as E.
  { rewrite dom_insert_L. specialize (Hk b ltac:(by left)). set_solver. }
  destruct (_ <=? 0); [exact E|]. rewrite IH; [exact E|]. intros b' Hb. rewrite E.
  apply Hk. by right.
Qed.

(** ** The blocks *)
Section blocks.
Context (oor : float64 -> Z).

Definition param_ok (p : HeterogeneousTargetParam) : Prop :=
  0 <= ParamMinReplicas p <= ParamMaxReplicas p.

(** The targets of a policy: distinct keys, and together within an int32. *)
Definition target_ok (policyNamespace : string) (target : HeterogeneousTarget) : Prop :=
  (forall p, p ∈ Params target -> param_ok p) /\
  NoDup (paramKey policyNamespace <$> Params target) /\
  sumZ (ParamMaxReplicas <$> Params target) <= MaxInt32.

Lemma packageBlocks_spec fuel key idx c rate n len :
  0 <= n <= MaxInt32 -> n <= Z.of_nat fuel ->
  let bs := packageBlocks oor fuel key idx c rate n len in
  capacity bs = n /\ forall b, b ∈ bs -> targetKey b = key /\ index b = idx /\ 1 <= replicas b.
Proof.
  revert n len. induction fuel as [|fuel IH]; intros n len Hn Hf; cbn [packageBlocks].
  { split; [unfold capacity; simpl; lia|]. intros b Hb. by apply elem_of_nil in Hb. }
  destruct (Z.ltb_spec 0 n).
  - set (cl := Z.min n (Z.max _ 1)). assert (1 <= cl <= n) by lia.
    rewrite (int32_id (n - cl)) by go_lia.
    destruct (IH (n - cl) (f_div (f_mul len (f_of_Z rate)) (f_of_Z 100)) ltac:(lia) ltac:(lia))
      as [Hc Hb].
    split; [unfold capacity in *; csimpl; lia|]. intros b [->|Hin]%elem_of_cons; [simpl; split_and!; [done|done|lia]|by apply Hb].
  - split; [unfold capacity; simpl; lia|]. intros b Hb. by apply elem_of_nil in Hb.
Qed.

Lemma paramBlocks_spec ns rate idx p :
  param_ok p -> ParamMaxReplicas p <= MaxInt32 ->
  let bs := paramBlocks oor ns rate idx p in
  capacity bs = ParamMaxReplicas p - ParamMinReplicas p /\
  forall b, b ∈ bs -> targetKey b = paramKey ns p /\ index b = int32 idx /\ 1 <= replicas b.
Proof.
  intros [H0 H1] H2. unfold paramBlocks. rewrite int32_id by go_lia.
  set (n := ParamMaxReplicas p - ParamMinReplicas p).
  destruct (Z.leb_spec n 0).
  { split; [unfold capacity; simpl; lia|]. intros b Hb. by apply elem_of_nil in Hb. }
  destruct (rate =? 100).
  - split; [unfold capacity; simpl; lia|]. intros b ->%list_elem_of_singleton. simpl.
    split_and!; [done|done|lia].
  - apply packageBlocks_spec; unfold n; lia.
Qed.

(** The blocks of all targets, before the sort. *)
Fixpoint allBlocks (ns : string) (rate idx : Z) (params : list HeterogeneousTargetParam) :
    list ReplicaBlock :=
  match params with
  | [] => []
  | p :: params => paramBlocks oor ns rate idx p ++ allBlocks ns rate (idx + 1) params
  end.

Lemma sum_max_nonneg params :
  (forall p, p ∈ params -> param_ok p) ->
  0 <= sumZ (ParamMinReplicas <$> params) <= sumZ (ParamMaxReplicas <$> params).
Proof.
  induction params as [|p params IH]; intros Hp; csimpl; [lia|].
  destruct (Hp p) as [? ?]; [by left|].
  specialize (IH ltac:(intros q Hq; apply Hp; by right)). lia.
Qed.

Lemma metaLoop_spec ns rate idx params mn mx bs :
  (forall p, p ∈ params -> param_ok p) ->
  0 <= mn <= mx -> mx + sumZ (ParamMaxReplicas <$> params) <= MaxInt32 ->
  metaLoop oor ns rate idx params (mn, mx, bs) =
  (mn + sumZ (ParamMinReplicas <$> params), mx + sumZ (ParamMaxReplicas <$> params),
   bs ++ allBlocks ns rate idx params).
Proof.
  revert idx mn mx bs. induction params as [|p params IH]; intros idx mn mx bs Hp Hm Hs.
  { simpl. rewrite app_nil_r. do 2 f_equal; lia. }
  destruct (Hp p) as [? ?]; [by left|].
  assert (Hps : forall q, q ∈ params -> param_ok q) by (intros q Hq; apply Hp; by right).
  pose proof (sum_max_nonneg params Hps). rewrite sumZ_cons in Hs. rewrite !sumZ_cons.
  cbn [metaLoop allBlocks]. rewrite !int32_id by go_lia. rewrite IH by (done || lia).
  rewrite <- app_assoc. f_equal. f_equal; lia.
Qed.

Lemma allBlocks_spec ns rate idx params :
  (forall p, p ∈ params -> param_ok p /\ ParamMaxReplicas p <= MaxInt32) ->
  blocks_ok (allBlocks ns rate idx params) /\
  (forall b, b ∈ allBlocks ns rate idx params -> targetKey b ∈ paramKey ns <$> params).
Proof.
  revert idx. induction params as [|p params IH]; intros idx Hp.
  { split; intros b Hb; by apply elem_of_nil in Hb. }
  destruct (Hp p) as [Hok Hmx]; [by left|].
  destruct (paramBlocks_spec ns rate idx p Hok Hmx) as [_ Hb].
  destruct (IH (idx + 1) ltac:(intros q Hq; apply Hp; by right)) as [H1 H2].
  split; intros b [Hin|Hin]%elem_of_app; csimpl.
  - destruct (Hb b Hin) as (_ & _ & ?). lia.
  - by apply H1.
  - destruct (Hb b Hin) as (-> & _). by left.
  - right. by apply H2.
Qed.

Lemma key_blocks_app k l1 l2 : key_blocks k (l1 ++ l2) = key_blocks k l1 ++ key_blocks k l2.
Proof. apply filter_app. Qed.

Lemma key_blocks_none k l : (forall b, b ∈ l -> targetKey b <> k) -> key_blocks k l = [].
Proof. intros Hl. apply filter_none, Forall_forall. exact Hl. Qed.

Lemma key_blocks_all k l : (forall b, b ∈ l -> targetKey b = k) -> key_blocks k l = l.
Proof.
  unfold key_blocks. induction l as [|b l IH]; intros Hl; [done|].
  rewrite filter_cons_True by (apply Hl; by left). rewrite IH; [done|]. intros b' Hb'.
  apply Hl. by right.
Qed.

(** The blocks of a target among all blocks. *)
Lemma allBlocks_key ns rate idx params p :
  (forall q, q ∈ params -> param_ok q /\ ParamMaxReplicas q <= MaxInt32) ->
  NoDup (paramKey ns <$> params) -> p ∈ params ->
  exists i, key_blocks (paramKey ns p) (allBlocks ns rate idx params) = paramBlocks oor ns rate i p.
Proof.
  revert idx. induction params as [|q params IH]; intros idx Hp Hnd Hin; [by apply elem_of_nil in Hin|].
  rewrite fmap_cons in Hnd. apply NoDup_cons in Hnd as [Hq Hnd].
  assert (Hps : forall q, q ∈ params -> param_ok q /\ ParamMaxReplicas q <= MaxInt32)
    by (intros r Hr; apply Hp; by right).
  destruct (Hp q) as [Hqok Hqmx]; [by left|].
  destruct (paramBlocks_spec ns rate idx q Hqok Hqmx) as [Hc Hb].
  destruct (allBlocks_spec ns rate (idx + 1) params Hps) as [_ Hkeys].
  cbn [allBlocks]. rewrite key_blocks_app.
  apply elem_of_cons in Hin as [->|Hin].
  - exists idx. rewrite key_blocks_all by (intros b Hbin; by destruct (Hb b Hbin) as (-> & _)).
    rewrite (key_blocks_none _ (allBlocks _ _ _ _)); [by rewrite app_nil_r|].
    intros b Hbin E. apply Hq. rewrite <- E. by apply Hkeys.
  - rewrite key_blocks_none; [by apply IH|].
    intros b Hbin E. destruct (Hb b Hbin) as (E' & _). apply Hq. rewrite <- E', E.
    by apply list_elem_of_fmap_2.
Qed.

(** The map the replicas are added to: every target at its minimum. *)
Definition minima ns (params : list HeterogeneousTargetParam) (m : gmap string Z) : gmap string Z :=
  fold_left (fun m p => <[paramKey ns p := ParamMinReplicas p]> m) params m.

Lemma minima_dom ns params m : dom (minima ns params m) = list_to_set (paramKey ns <$> params) ∪ dom m.
Proof.
  unfold minima. revert m. induction params as [|p params IH]; intros m; csimpl; [set_solver|].
  rewrite IH, dom_insert_L. set_solver.
Qed.

Lemma minima_other ns params m k :
  k ∉ paramKey ns <$> params -> minima ns params m !! k = m !! k.
Proof.
  unfold minima. revert m. induction params as [|p params IH]; intros m Hk; csimpl; [done|].
  rewrite IH by set_solver. apply lookup_insert_ne. set_solver.
Qed.

Lemma minima_lookup ns params m p :
  NoDup (paramKey ns <$> params) -> p ∈ params ->
  minima ns params m !! paramKey ns p = Some (ParamMinReplicas p).
Proof.
  revert m. induction params as [|q params IH]; intros m Hnd Hp; [by apply elem_of_nil in Hp|].
  rewrite fmap_cons in Hnd. apply NoDup_cons in Hnd as [Hq Hnd].
  apply elem_of_cons in Hp as [->|Hp]; [|by apply (IH (<[paramKey ns q := ParamMinReplicas q]> m))].
  change (minima ns (q :: params) m) with (minima ns params (<[paramKey ns q := ParamMinReplicas q]> m)).
  rewrite (minima_other ns params) by done.
  by rewrite lookup_insert_eq.
Qed.
End blocks.

(** ** [RestoreReplicasOfEachBackend] *)
Section restore.
Context (oor : float64 -> Z) (sortSlice : list ReplicaBlock -> list ReplicaBlock).
Context (sortSlice_perm : forall l, sortSlice l ≡ₚ l).
Context (ns : string) (target : HeterogeneousTarget) (Htarget : target_ok ns target).
Context (metricTargets : Metrics).

Abbreviation meta := (NewOptimizerMeta oor sortSlice target ns metricTargets).
Abbreviation total_min := (sumZ (ParamMinReplicas <$> Params target)).
Abbreviation total_max := (sumZ (ParamMaxReplicas <$> Params target)).
Abbreviation order := (sortSlice (allBlocks oor ns (CostExpansionRatePercent target) 0 (Params target))).

Lemma meta_eq : meta = MkMeta target metricTargets order total_min total_max ns.
Proof.
  destruct Htarget as (Hp & _ & Hs). unfold NewOptimizerMeta.
  by rewrite metaLoop_spec by (done || lia).
Qed.

Lemma param_max_bound p : p ∈ Params target -> ParamMaxReplicas p <= MaxInt32.
Proof.
  destruct Htarget as (Hp & _ & Hs). intros Hin.
  pose proof (sumZ_elem_le ParamMaxReplicas (Params target) p
    ltac:(intros q Hq; destruct (Hp q Hq); lia) Hin). lia.
Qed.

Lemma params_bounded p : p ∈ Params target -> param_ok p /\ ParamMaxReplicas p <= MaxInt32.
Proof. intros Hp. split; [by apply Htarget|by apply param_max_bound]. Qed.

Lemma order_ok : blocks_ok order /\ forall b, b ∈ order -> targetKey b ∈ paramKey ns <$> Params target.
Proof.
  destruct (allBlocks_spec oor ns (CostExpansionRatePercent target) 0 (Params target) params_bounded)
    as [H1 H2].
  split; intros b; rewrite sortSlice_perm; [apply H1|apply H2].
Qed.

Lemma order_key p : p ∈ Params target ->
  exists i, key_blocks (paramKey ns p) order ≡ₚ
            paramBlocks oor ns (CostExpansionRatePercent target) i p.
Proof.
  intros Hp. destruct (allBlocks_key oor ns (CostExpansionRatePercent target) 0 (Params target) p
    params_bounded (proj1 (proj2 Htarget)) Hp) as [i Hi].
  exists i. rewrite <- Hi. unfold key_blocks. by rewrite sortSlice_perm.
Qed.

Lemma order_capacity p : p ∈ Params target ->
  capacity (key_blocks (paramKey ns p) order) = ParamMaxReplicas p - ParamMinReplicas p.
Proof.
  intros Hp. destruct (order_key p Hp) as [i Hi]. destruct (params_bounded p Hp).
  unfold capacity. rewrite Hi. by apply paramBlocks_spec.
Qed.

Lemma order_capacity_total : capacity order = total_max - total_min.
Proof.
  destruct Htarget as (_ & Hnd & _). destruct order_ok as [_ Hk].
  unfold capacity. rewrite <- (sumZ_by_key targetKey replicas (paramKey ns <$> Params target)) by done.
  rewrite <- list_fmap_compose. pose proof order_capacity as Hc. unfold capacity, key_blocks in Hc.
  rewrite (sumZ_fmap_ext _ (fun p => ParamMaxReplicas p + -1 * ParamMinReplicas p)).
  - rewrite sumZ_fmap_add, sumZ_fmap_mul. lia.
  - intros p Hp. simpl. rewrite Hc by done. lia.
Qed.

(** The count to distribute above the minima. *)
Definition surplus (n : Z) : Z := Z.min (Z.max n total_min) total_max - total_min.

Lemma total_bounds : 0 <= total_min <= total_max /\ total_max <= MaxInt32.
Proof.
  destruct Htarget as (Hp & _ & Hs). pose proof (sum_max_nonneg (Params target) Hp). lia.
Qed.

Lemma restore_value n p : p ∈ Params target ->
  default 0 (RestoreReplicasOfEachBackend meta n !! paramKey ns p) =
  ParamMinReplicas p + received (paramKey ns p) (allocate order (surplus n)).
Proof.
  intros Hp. rewrite meta_eq. unfold RestoreReplicasOfEachBackend. simpl.
  fold (minima ns (Params target) ∅). pose proof total_bounds as Htb.
  rewrite (int32_id (Z.min _ _ - _)) by go_lia. fold (surplus n).
  destruct order_ok as [Hok Hkeys].
  rewrite restoreBlocks_value; [|done|unfold surplus; lia|].
  - by rewrite minima_lookup by (done || apply Htarget).
  - intros k. destruct (decide (k ∈ paramKey ns <$> Params target)) as [Hk|Hk].
    + apply list_elem_of_fmap in Hk as (q & -> & Hq).
      rewrite minima_lookup by (done || apply Htarget). simpl.
      rewrite order_capacity by done. destruct (params_bounded q Hq) as [[? ?] ?]. lia.
    + rewrite minima_other, lookup_empty by done. simpl.
      rewrite key_blocks_none; [unfold capacity; simpl; unfold MaxInt32; lia|].
      intros b Hb E. apply Hk. rewrite <- E. by apply Hkeys.
Qed.

Lemma restore_dom n : dom (RestoreReplicasOfEachBackend meta n) =
  list_to_set (paramKey ns <$> Params target).
Proof.
  rewrite meta_eq. unfold RestoreReplicasOfEachBackend. simpl. fold (minima ns (Params target) ∅).
  destruct order_ok as [_ Hkeys].
  rewrite restoreBlocks_dom; rewrite minima_dom; [set_solver|].
  intros b Hb. apply elem_of_union_l, elem_of_list_to_set. by apply Hkeys.
Qed.

Lemma received_total n :
  0 <= n -> sumZ ((fun p => received (paramKey ns p) (allocate order n)) <$> Params target) =
            Z.min n (total_max - total_min).
Proof.
  intros Hn. destruct order_ok as [Hok Hkeys]. rewrite <- order_capacity_total.
  rewrite <- allocate_sum by done.
  rewrite <- (sumZ_by_key (fun x : ReplicaBlock * Z => targetKey x.1) snd
    (paramKey ns <$> Params target)); [by rewrite <- list_fmap_compose|apply Htarget|].
  intros [b s] Hin. apply Hkeys. rewrite <- (allocate_blocks order n).
  apply list_elem_of_fmap. by exists (b, s).
Qed.

(** The value of a target stays within its bounds. *)
Lemma restore_in_bounds n p : p ∈ Params target ->
  ParamMinReplicas p <= default 0 (RestoreReplicasOfEachBackend meta n !! paramKey ns p)
    <= ParamMaxReplicas p.
Proof.
  intros Hp. rewrite restore_value by done. destruct order_ok as [Hok _].
  pose proof (received_bounds (paramKey ns p) order (surplus n) Hok) as Hr.
  rewrite order_capacity in Hr by done. pose proof total_bounds. unfold surplus in *. lia.
Qed.

Lemma restore_sum n :
  sumZ ((fun p => default 0 (RestoreReplicasOfEachBackend meta n !! paramKey ns p)) <$> Params target)
  = Z.min (Z.max n total_min) total_max.
Proof.
  pose proof total_bounds. rewrite (sumZ_fmap_ext _ (fun p => ParamMinReplicas p +
    received (paramKey ns p) (allocate order (surplus n)))) by (intros; by apply restore_value).
  rewrite sumZ_fmap_add, received_total; unfold surplus; lia.
Qed.

Lemma received_mono k blocks n n' :
  n <= n' -> received k (allocate blocks n) <= received k (allocate blocks n').
Proof.
  revert n n'. induction blocks as [|b bs IH]; intros n n' Hn; [done|].
  cbn [allocate]. rewrite !received_cons.
  specialize (IH (n - Z.min n (replicas b)) (n' - Z.min n' (replicas b)) ltac:(lia)).
  case_decide; lia.
Qed.
End restore.

(** The distribution of a replica count over the backends loses nothing:
    exactly the backends of the policy get a count, each within its bounds;
    the counts add up to the given count clamped to the sums of the minima and
    of the maxima; and a larger count gives no backend fewer replicas. The
    cost expansion rate, the rounding of the package lengths and the choice
    [sort.Slice] makes among equal blocks play no role. *)
Theorem restore_replicas_spec oor sortSlice ns target metricTargets :
  (forall l, sortSlice l ≡ₚ l) -> target_ok ns target ->
  let restore := RestoreReplicasOfEachBackend (NewOptimizerMeta oor sortSlice target ns metricTargets) in
  let count n p := default 0 (restore n !! paramKey ns p) in
  forall n,
    dom (restore n) = list_to_set (paramKey ns <$> Params target) /\
    (forall p, p ∈ Params target -> ParamMinReplicas p <= count n p <= ParamMaxReplicas p) /\
    sumZ (count n <$> Params target) =
      Z.min (Z.max n (sumZ (ParamMinReplicas <$> Params target)))
        (sumZ (ParamMaxReplicas <$> Params target)) /\
    (forall n' p, n <= n' -> p ∈ Params target -> count n p <= count n' p).
Proof.
  intros Hperm Hok restore count n. split_and!.
  - by apply restore_dom.
  - intros p Hp. by apply restore_in_bounds.
  - by apply restore_sum.
  - intros n' p Hn Hp. unfold count, restore. rewrite !restore_value by done.
    pose proof (received_mono (paramKey ns p) (sortSlice (allBlocks oor ns
      (CostExpansionRatePercent target) 0 (Params target))) (surplus target n) (surplus target n')
      ltac:(unfold surplus; lia)). lia.
Qed.

(** ** A sort to run the examples with *)

Definition block_le (a b : ReplicaBlock) : Prop := blockLess b a = false.

#[export] Instance block_le_dec a b : Decision (block_le a b) := decide (blockLess b a = false).

#[export] Instance blockLess_swo : StrictWeakOrder blockLess.
Proof.
  unfold blockLess. split; intros *; repeat case_bool; simpl; rewrite ?Z.ltb_lt, ?Z.ltb_ge; lia.
Qed.

#[export] Instance block_le_total : Total block_le.
Proof.
  intros a b. unfold block_le. destruct (blockLess b a) eqn:E; [|by left].
  right. by apply (swo_asym blockLess).
Qed.

#[export] Instance block_le_trans : Transitive block_le.
Proof.
  intros a b c Hab Hbc. unfold block_le in *. by eapply swo_neg_trans.
Qed.

Definition sortBlocks (l : list ReplicaBlock) : list ReplicaBlock := merge_sort block_le l.

Definition example_target (rate : Z) : HeterogeneousTarget :=
  MkHeterogeneous [MkParam "" "h100" 100 1 4; MkParam "" "a100" 60 1 6] rate.

Lemma example_target_ok rate : target_ok "default" (example_target rate).
Proof.
  split_and!.
  - intros p [->|[->|[]%not_elem_of_nil]%elem_of_cons]%elem_of_cons; unfold param_ok; simpl; lia.
  - refine (bool_decide_unpack (NoDup (paramKey "default" <$> Params (example_target rate))) _).
    vm_compute. exact I.
  - by compute_ok.
Qed.

Lemma restore_replicas_spec_witness :
  let restore := RestoreReplicasOfEachBackend (NewOptimizerMeta (fun _ => 0) sortBlocks
    (example_target 200) "default" ∅) in
  1 <= default 0 (restore 7 !! "default/h100") <= 4 /\
  default 0 (restore 7 !! "default/h100") + default 0 (restore 7 !! "default/a100") = 7.
Proof.
  destruct (restore_replicas_spec (fun _ => 0) sortBlocks "default" (example_target 200) ∅
    (fun l => merge_sort_Permutation _ l) (example_target_ok 200) 7) as (_ & H1 & H2 & _).
  split.
  - exact (H1 (MkParam "" "h100" 100 1 4) ltac:(by left)).
  - revert H2. generalize (RestoreReplicasOfEachBackend (NewOptimizerMeta (fun _ => 0) sortBlocks
      (example_target 200) "default" ∅) 7). intros m H2.
    change (default 0 (m !! "default/h100") + (default 0 (m !! "default/a100") + 0) = 7) in H2. lia.
Defined.

(** ** The cheapest distribution *)

(** A cost that separates the blocks that are full from those that are empty. *)
Lemma allocate_threshold blocks n :
  StronglySorted (fun a b => cost a <= cost b) blocks -> blocks_ok blocks -> 0 <= n ->
  exists c, forall b s, (b, s) ∈ allocate blocks n ->
    (cost b < c -> s = replicas b) /\ (c < cost b -> s = 0).
Proof.
  revert n. induction blocks as [|b bs IH]; intros n Hs Hok Hn.
  { exists 0. intros b s Hb. by apply elem_of_nil in Hb. }
  apply StronglySorted_inv in Hs as [Hs Hb]. rewrite Forall_forall in Hb.
  assert (Hbs : blocks_ok bs) by (intros b' ?; apply Hok; by right).
  assert (0 <= replicas b) by (apply Hok; by left).
  assert (Hin : forall b' s', (b', s') ∈ allocate bs (n - Z.min n (replicas b)) -> cost b <= cost b').
  { intros b' s' Hx. apply Hb. rewrite <- (allocate_blocks bs (n - Z.min n (replicas b))).
    apply list_elem_of_fmap. by exists (b', s'). }
  cbn [allocate]. destruct (Z.le_gt_cases n (replicas b)) as [Hle|Hgt].
  - exists (cost b). intros b' s' [[= -> ->]|Hx]%elem_of_cons; [lia|].
    pose proof (Hin b' s' Hx). replace (n - Z.min n (replicas b)) with 0 in Hx by lia.
    pose proof (allocate_zero bs Hbs b' s' Hx). lia.
  - destruct (IH (n - Z.min n (replicas b)) Hs Hbs ltac:(lia)) as [c Hc].
    exists (Z.max c (cost b)). intros b' s' [[= -> ->]|Hx]%elem_of_cons; [lia|].
    destruct (Hc b' s' Hx). specialize (Hin b' s' Hx). lia.
Qed.

Lemma received_single k blocks n b :
  key_blocks k blocks = [b] -> exists s, (b, s) ∈ allocate blocks n /\ received k (allocate blocks n) = s.
Proof.
  revert n. induction blocks as [|b' bs IH]; intros n Hk; [done|].
  unfold key_blocks in Hk. cbn [allocate]. rewrite received_cons. rewrite filter_cons in Hk.
  case_decide.
  - injection Hk as -> Hk. eexists. split; [by left|].
    assert (Hz : filter (fun x : ReplicaBlock * Z => targetKey x.1 = k)
      (allocate bs (n - Z.min n (replicas b))) = []).
    { apply filter_none, Forall_forall. intros [b0 s0] Hin E.
      assert (b0 ∈ filter (fun b => targetKey b = k) bs) as Hx; [|by rewrite Hk in Hx; apply elem_of_nil in Hx].
      apply list_elem_of_filter. split; [done|].
      rewrite <- (allocate_blocks bs (n - Z.min n (replicas b))). apply list_elem_of_fmap.
      by exists (b0, s0). }
    unfold received. rewrite Hz. simpl. lia.
  - destruct (IH (n - Z.min n (replicas b')) Hk) as (s & Hin & Hr). exists s.
    split; [by right|]. lia.
Qed.

Section cheapest.
Context (oor : float64 -> Z) (sortSlice : list ReplicaBlock -> list ReplicaBlock).
Context (sortSlice_perm : forall l, sortSlice l ≡ₚ l).
Context (sortSlice_sorted : forall l, StronglySorted block_le (sortSlice l)).
Context (ns : string) (target : HeterogeneousTarget) (Htarget : target_ok ns target).
Context (Hrate : CostExpansionRatePercent target = 100).

Abbreviation order := (sortSlice (allBlocks oor ns (CostExpansionRatePercent target) 0 (Params target))).

(** What a target receives, its cost against the separating cost. *)
Lemma received_threshold n : 0 <= n -> exists c, forall p, p ∈ Params target ->
  (Cost p < c -> received (paramKey ns p) (allocate order n) = ParamMaxReplicas p - ParamMinReplicas p) /\
  (c < Cost p -> received (paramKey ns p) (allocate order n) = 0).
Proof.
  intros Hn. destruct (order_ok oor sortSlice sortSlice_perm ns target Htarget) as [Hok _].
  destruct (allocate_threshold order n) as [c Hc]; [|done|done|].
  { eapply StronglySorted_strengthen; [apply sortSlice_sorted|]. intros a b _ _.
    unfold block_le, blockLess. destruct (Z.eqb_spec (cost b) (cost a)); simpl; [lia|].
    rewrite Z.ltb_ge. lia. }
  exists c. intros p Hp.
  destruct (order_key oor sortSlice sortSlice_perm ns target Htarget p Hp) as [i Hi].
  destruct (params_bounded ns target Htarget p Hp) as [[H0 H1] H2].
  unfold paramBlocks in Hi. rewrite int32_id in Hi by go_lia.
  replace (CostExpansionRatePercent target =? 100) with true in Hi by (by rewrite Hrate).
  destruct (Z.leb_spec (ParamMaxReplicas p - ParamMinReplicas p) 0).
  - pose proof (received_bounds (paramKey ns p) order n Hok Hn) as Hr.
    unfold capacity in Hr. rewrite Hi in Hr. simpl in Hr. lia.
  - simpl in Hi. apply Permutation_singleton_r in Hi.
    destruct (received_single (paramKey ns p) order n _ Hi) as (s & Hin & ->).
    destruct (Hc _ _ Hin) as [H3 H4]. simpl in *. lia.
Qed.
End cheapest.

(** At a cost expansion rate of 100 percent the distribution is the
    cheapest one: no other distribution of the same number of replicas within
    the bounds of the backends costs less. *)
Theorem restore_replicas_cheapest oor sortSlice ns target metricTargets n
    (other : HeterogeneousTargetParam -> Z) :
  (forall l, sortSlice l ≡ₚ l) -> (forall l, StronglySorted block_le (sortSlice l)) ->
  target_ok ns target -> CostExpansionRatePercent target = 100 ->
  let restored := RestoreReplicasOfEachBackend
    (NewOptimizerMeta oor sortSlice target ns metricTargets) n in
  let count p := default 0 (restored !! paramKey ns p) in
  (forall p, p ∈ Params target -> ParamMinReplicas p <= other p <= ParamMaxReplicas p) ->
  sumZ (other <$> Params target) = sumZ (count <$> Params target) ->
  sumZ ((fun p => Cost p * count p) <$> Params target) <=
  sumZ ((fun p => Cost p * other p) <$> Params target).
Proof.
  intros Hperm Hsorted Hok Hrate restored count Hother Hsum.
  pose proof (total_bounds ns target Hok) as Htb.
  destruct (received_threshold oor sortSlice Hperm Hsorted ns target Hok Hrate (surplus target n))
    as [c Hc]; [unfold surplus; lia|].
  assert (Hterm : forall p, p ∈ Params target -> 0 <= (Cost p - c) * (other p - count p)).
  { intros p Hp. destruct (Hc p Hp) as [H1 H2]. specialize (Hother p Hp).
    unfold count, restored. rewrite restore_value by done.
    destruct (Z.lt_trichotomy (Cost p) c) as [Hlt|[->|Hgt]]; [|lia|].
    - rewrite (H1 Hlt). nia.
    - rewrite (H2 Hgt). nia. }
  apply sumZ_fmap_nonneg in Hterm.
  rewrite (sumZ_fmap_ext _ (fun p => Cost p * other p + (-1 * (Cost p * count p) +
    (-c * other p + c * count p)))) in Hterm by (intros; lia).
  rewrite !sumZ_fmap_add, !sumZ_fmap_mul in Hterm. rewrite Hsum in Hterm. lia.
Qed.

Lemma restore_replicas_cheapest_witness :
  let restored := RestoreReplicasOfEachBackend (NewOptimizerMeta (fun _ => 0) sortBlocks
    (example_target 100) "default" ∅) 7 in
  100 * default 0 (restored !! "default/h100") + (60 * default 0 (restored !! "default/a100") + 0)
    <= 100 * 3 + (60 * 4 + 0).
Proof.
  pose proof (restore_replicas_cheapest (fun _ => 0) sortBlocks "default" (example_target 100) ∅ 7
    (fun p => if Cost p =? 100 then 3 else 4)
    (fun l => merge_sort_Permutation _ l) (fun l => StronglySorted_merge_sort _ l)
    (example_target_ok 100) eq_refl) as HC.
  cbv zeta in HC. intros restored. fold restored in HC.
  assert (Hsum : sumZ ((fun p => if Cost p =? 100 then 3 else 4) <$> Params (example_target 100)) =
    sumZ ((fun p => default 0 (restored !! paramKey "default" p)) <$> Params (example_target 100)))
    by (vm_compute; reflexivity).
  clearbody restored.
  exact (HC ltac:(intros p [->|[->|[]%not_elem_of_nil]%elem_of_cons]%elem_of_cons; simpl; lia) Hsum).
Defined.

(** ** [Optimize] *)

Record backendExternalSample := MkSample { sampleValue : float64; sampleReplicas : Z }.

(** [strings.ToLower] on the ASCII letters. No other letter has a lower case
    that occurs in the suffixes below. *)
Definition lowerAscii (c : Ascii.ascii) : Ascii.ascii :=
  let n := Ascii.N_of_ascii c in
  if (65 <=? n)%N && (n <=? 90)%N then Ascii.ascii_of_N (n + 32) else c.

Fixpoint lowerString (s : string) : string :=
  match s with
  | EmptyString => EmptyString
  | String.String c s => String.String (lowerAscii c) (lowerString s)
  end.

(** [strings.HasSuffix]. *)
Fixpoint hasSuffix (s sfx : string) : bool :=
  bool_decide (s = sfx) ||
  match s with
  | EmptyString => false
  | String.String _ s => hasSuffix s sfx
  end.

Definition isRatioMetric (name : string) : bool :=
  let lowerName := lowerString name in
  existsb (hasSuffix lowerName) ["_utilization"; "_usage"; "_ratio"; "_percent"; "_saturation"].

Definition sampleSum (samples : list backendExternalSample) : float64 :=
  fold_left (fun total s => f_add total (sampleValue s)) samples f_zero.

Definition aggregateExternalSamples (name : string) (samples : list backendExternalSample) : float64 :=
  if negb (isRatioMetric name) then sampleSum samples
  else
    let '(weightedSum, totalReplicas) :=
      fold_left (fun '(weightedSum, totalReplicas) s =>
        (f_add weightedSum (f_mul (sampleValue s) (f_of_Z (sampleReplicas s))),
         totalReplicas +₃₂ sampleReplicas s)) samples (f_zero, 0) in
    if totalReplicas =? 0
    then f_div (sampleSum samples) (f_of_Z (Z.of_nat (length samples)))
    else f_div weightedSum (f_of_Z totalReplicas).

Section optimize.
Context {D : Type -> Type} `{DequeLaws D} (oor : float64 -> Z).
Context (sortSlice : list ReplicaBlock -> list ReplicaBlock).

Record OptimizerPolicy := MkOptimizerPolicy {
  OPolicyGeneration : Z;
  OPolicyNamespace : string;
  OPolicyBehavior : AutoscalingPolicyBehavior;
  OPolicyTolerancePercent : Z;
  OPolicyMetricTargets : Metrics;
  OPolicyTarget : HeterogeneousTarget
}.

Record Optimizer := MkOptimizer {
  OptMeta : OptimizerMeta;
  OptCollectors : gset string;
  OptStatus : Status D;
  OptGeneration : Z
}.

Definition NewOptimizer (policy : OptimizerPolicy) : Optimizer :=
  MkOptimizer
    (NewOptimizerMeta oor sortSlice (OPolicyTarget policy) (OPolicyNamespace policy)
       (OPolicyMetricTargets policy))
    (list_to_set (paramKey (OPolicyNamespace policy) <$> Params (OPolicyTarget policy)))
    (NewStatus (OPolicyBehavior policy)) (OPolicyGeneration policy).

Definition OptimizerNeedUpdate (opt : Optimizer) (policy : OptimizerPolicy) : bool :=
  negb (OptGeneration opt =? OPolicyGeneration policy).

(** The metrics gathered from the backends. *)
Record Gathered := MkGathered {
  GatheredUnready : gmap string Z;
  GatheredReady : gmap string (list Metrics);
  GatheredSamples : gmap string (list backendExternalSample);
  InstancesCountSum : Z
}.

(** One iteration of the loop over the backends. *)
Definition gatherParam (opt : Optimizer) (policy : OptimizerPolicy)
    (currentInstancesCounts : gmap string Z) (update : string -> option collected)
    (g : Gathered) (param : HeterogeneousTargetParam) : Gathered :=
  let key := paramKey (OPolicyNamespace policy) param in
  if decide (key ∈ OptCollectors opt) then
    let backendReplicas := default 0 (currentInstancesCounts !! key) in
    let sum := InstancesCountSum g +₃₂ backendReplicas in
    match update key with
    | None => MkGathered (GatheredUnready g) (GatheredReady g) (GatheredSamples g) sum
    | Some (unready, ready, external) =>
      MkGathered
        (union_with (fun a b => Some (a +₃₂ b)) (GatheredUnready g) unready)
        (union_with (fun a b => Some (a ++ b)) (GatheredReady g) ready)
        (union_with (fun a b => Some (a ++ b)) (GatheredSamples g)
           ((fun v => [MkSample v backendReplicas]) <$> external))
        sum
    end
  else g.

(** The input of the recommendation. *)
Definition optimizerAlgorithm (opt : Optimizer) (policy : OptimizerPolicy)
    (currentInstancesCounts : gmap string Z) (update : string -> option collected) :
    RecommendedInstancesAlgorithm :=
  let g := fold_left (gatherParam opt policy currentInstancesCounts update)
             (Params (MetaConfig (OptMeta opt))) (MkGathered ∅ ∅ ∅ 0) in
  {| Recommendation.MinInstances := MetaMinReplicas (OptMeta opt);
     Recommendation.MaxInstances := MetaMaxReplicas (OptMeta opt);
     CurrentInstancesCount := InstancesCountSum g;
     Tolerance := f_mul (f_of_Z (OPolicyTolerancePercent policy)) (f_div (f_of_Z 1) (f_of_Z 100));
     MetricTargets := MetaMetricTargets (OptMeta opt);
     UnreadyInstancesCountByMetric := GatheredUnready g;
     ReadyInstancesMetrics := GatheredReady g;
     ExternalMetrics := map_imap (fun name samples => Some (aggregateExternalSamples name samples))
                          (GatheredSamples g) |}.

(** [Optimizer.Optimize]: [None] for the map it returns stands for nil.
    Clock readings: 0 when the panic mode is refreshed, 1 when it is tested, 2
    and 3 in the correction, 4 to 8 when the result is recorded. *)
Definition Optimize (opt : Optimizer) (policy : OptimizerPolicy)
    (currentInstancesCounts : gmap string Z) (update : string -> option collected)
    (order : list (string * float64)) (clk : nat -> Z) :
    option (option (gmap string Z) * Optimizer) :=
  let alg := optimizerAlgorithm opt policy currentInstancesCounts update in
  let instancesCountSum := CurrentInstancesCount alg in
  let '(recommendedInstances, skip) := GetRecommendedInstances oor alg order in
  if skip : bool then Some (None, opt)
  else
    percent ← PanicThresholdPercent (ScaleUpPanic (OPolicyBehavior policy));
    let st := if (instancesCountSum *₃₂ percent) <=? (recommendedInstances *₃₂ 100)
              then RefreshPanicMode (OptStatus opt) (clk 0%nat) else OptStatus opt in
    '(correctedInstances, h) ← GetCorrectedInstances oor
      (MkCorrected (IsPanicMode st (clk 1%nat)) (OPolicyBehavior policy)
         (MetaMinReplicas (OptMeta opt)) (MetaMaxReplicas (OptMeta opt))
         instancesCountSum recommendedInstances) (clk 2%nat) (clk 3%nat) (HistoryOf st);
    let st := MkStatus (PanicModeEndsAt st) (PanicModeHoldMilliseconds st) h in
    st ← AppendRecommendation st (clk 4%nat) (clk 5%nat) recommendedInstances;
    st ← AppendCorrected st (clk 6%nat) (clk 7%nat) (clk 8%nat) correctedInstances;
    Some (Some (RestoreReplicasOfEachBackend (OptMeta opt) correctedInstances),
          MkOptimizer (OptMeta opt) (OptCollectors opt) st (OptGeneration opt)).
End optimize.
Arguments Optimizer D : clear implicits.

Section optimize_spec.
Context {D : Type -> Type} `{DequeLaws D} (oor : float64 -> Z).
Context (sortSlice : list ReplicaBlock -> list ReplicaBlock).
Context (policy : OptimizerPolicy).
Abbreviation lengths := (status_lengths (OPolicyBehavior policy)).

Definition optimizer_inv (g : HistoryLogs) (now : Z) (opt : Optimizer D) : Prop :=
  OptMeta opt = NewOptimizerMeta oor sortSlice (OPolicyTarget policy) (OPolicyNamespace policy)
                  (OPolicyMetricTargets policy) /\
  history_inv lengths g now (HistoryOf (OptStatus opt)).

Definition optimizer_ok : Prop :=
  target_ok (OPolicyNamespace policy) (OPolicyTarget policy) /\
  behavior_set (OPolicyBehavior policy) /\ lengths_ok lengths /\
  is_Some (PanicThresholdPercent (ScaleUpPanic (OPolicyBehavior policy))).

Lemma NewOptimizer_inv now :
  optimizer_ok -> optimizer_inv empty_logs now (NewOptimizer oor sortSlice policy).
Proof. intros (_ & _ & Hl & _). split; [done|by apply NewHistory_inv]. Qed.
End optimize_spec.

(** C28: an optimization cycle from a well-formed state never panics. It
    leaves the backends alone exactly when the metrics recommend nothing;
    otherwise it gives every backend a count within its bounds, and the total
    undercuts neither (the smaller of) the current total and the
    recommendation, nor the current total and a recommendation within the
    scale-down stabilisation window, short of the sum of the maxima. *)
Theorem optimize_safe {D} `{DequeLaws D} oor sortSlice (policy : OptimizerPolicy) g now
    (opt : Optimizer D) counts update order clk :
  (forall l, sortSlice l ≡ₚ l) -> optimizer_ok policy ->
  optimizer_inv oor sortSlice policy g now opt -> cycle_clock now clk ->
  let alg := optimizerAlgorithm opt policy counts update in
  let params := Params (OPolicyTarget policy) in
  exists res opt', Optimize oor opt policy counts update order clk = Some (res, opt') /\
    match GetRecommendedInstances oor alg order, res with
    | (_, true), None => opt' = opt
    | (rec, false), Some m =>
      let total := sumZ ((fun p => default 0 (m !! paramKey (OPolicyNamespace policy) p)) <$> params) in
      (forall p, p ∈ params -> exists n, m !! paramKey (OPolicyNamespace policy) p = Some n /\
         ParamMinReplicas p <= n <= ParamMaxReplicas p) /\
      not_undercut (status_lengths (OPolicyBehavior policy)) g (clk 2%nat)
        (CurrentInstancesCount alg) (sumZ (ParamMaxReplicas <$> params)) rec total /\
      exists cor, optimizer_inv oor sortSlice policy (log_cycle g clk rec cor) (clk 8%nat) opt'
    | _, _ => False
    end.
Proof.
  intros Hperm (Htarget & Hb & Hl & [percent Hpc]) [Hmeta Hinv] Hc alg params.
  unfold Optimize. fold alg. remember (CurrentInstancesCount alg) as cur eqn:Ecur. clear Ecur.
  destruct (GetRecommendedInstances oor alg order) as [rec []]; [by exists None, opt|].
  rewrite Hpc. cbn [mbind option_bind].
  set (st := if _ <=? _ then RefreshPanicMode _ _ else _).
  assert (HistoryOf st = HistoryOf (OptStatus opt)) as Eh by (unfold st; by destruct (_ <=? _)).
  pose proof (meta_eq oor sortSlice (OPolicyNamespace policy) (OPolicyTarget policy) Htarget
    (OPolicyMetricTargets policy)) as Em.
  pose proof (total_bounds _ _ Htarget) as Htb.
  destruct (correct_cycle oor (status_lengths (OPolicyBehavior policy)) g now (HistoryOf st)
    (MkCorrected (IsPanicMode st (clk 1%nat)) (OPolicyBehavior policy) (MetaMinReplicas (OptMeta opt))
       (MetaMaxReplicas (OptMeta opt)) cur rec) (clk 2%nat) (clk 3%nat))
    as (cor & h & -> & Hi & Hbd & Hu & _).
  { done. } { by rewrite Eh. } { by apply cycle_clock_valid. }
  { apply (cycle_clock_valid2 now); [done|lia]. } { done. } { simpl. rewrite Hmeta, Em. simpl. lia. }
  simpl in Hbd, Hu. cbn [mbind option_bind].
  destruct (record_cycle (status_lengths (OPolicyBehavior policy)) g now (clk 3%nat)
    (MkStatus (PanicModeEndsAt st) (PanicModeHoldMilliseconds st) h) (MkResult rec cor false false) clk)
    as (st' & Hrec & _ & _ & Hinv').
  { done. } { done. } { apply (cycle_clock_le now); [done|lia]. } { done. }
  unfold recordScaleOneTargetResult in Hrec. simpl in Hrec. simpl.
  destruct (AppendRecommendation _ _ _ _) as [st1|]; [|done]. simpl in *. rewrite Hrec.
  eexists _, _. split; [done|]. simpl. rewrite Hmeta.
  rewrite Hmeta, Em in Hbd, Hu. simpl in Hbd, Hu.
  unfold params. rewrite restore_sum by done. rewrite Z.max_l, Z.min_l by lia.
  split; [|split; [exact Hu|]].
  - intros p Hp.
    pose proof (restore_in_bounds oor sortSlice Hperm _ _ Htarget (OPolicyMetricTargets policy) cor p Hp).
    pose proof (restore_dom oor sortSlice Hperm _ _ Htarget (OPolicyMetricTargets policy) cor) as Hd.
    assert (paramKey (OPolicyNamespace policy) p ∈ dom (RestoreReplicasOfEachBackend
      (NewOptimizerMeta oor sortSlice (OPolicyTarget policy) (OPolicyNamespace policy)
        (OPolicyMetricTargets policy)) cor)) as [n Hn]%elem_of_dom.
    { rewrite Hd. apply elem_of_list_to_set. by apply list_elem_of_fmap_2. }
    exists n. rewrite Hn in *. done.
  - exists cor. by split.
Qed.

Definition example_optimizer_policy : OptimizerPolicy :=
  MkOptimizerPolicy 1 "default" (PolicyBehavior example_policy) 10 (<["queue" := f_of_Z 10]> ∅)
    (example_target 200).

Lemma example_optimizer_ok : optimizer_ok example_optimizer_policy.
Proof.
  split; [exact (example_target_ok 200)|]. split_and!; (by eexists) || by compute_ok.
Qed.

(** 10 waiting requests per backend and replica: with 50 of them at each of
    the two backends, 10 replicas are asked for. *)
Lemma optimize_safe_witness :
  exists m opt',
    Optimize (D:=list) (fun _ => 0) (NewOptimizer (fun _ => 0) sortBlocks example_optimizer_policy)
      example_optimizer_policy (<["default/h100" := 1]> (<["default/a100" := 1]> ∅))
      (fun _ => Some (∅, ∅, <["queue" := f_of_Z 50]> ∅)) [("queue", f_of_Z 10)]
      (CycleClock (example_cycle 1000 0 0)) = Some (Some m, opt') /\
    exists n, m !! "default/h100" = Some n /\ 1 <= n <= 4.
Proof.
  pose proof (optimize_safe (D:=list) (fun _ => 0) sortBlocks example_optimizer_policy empty_logs 0
    (NewOptimizer (fun _ => 0) sortBlocks example_optimizer_policy)
    (<["default/h100" := 1]> (<["default/a100" := 1]> ∅))
    (fun _ => Some (∅, ∅, <["queue" := f_of_Z 50]> ∅)) [("queue", f_of_Z 10)]
    (CycleClock (example_cycle 1000 0 0))
    (fun l => merge_sort_Permutation _ l) example_optimizer_ok
    (NewOptimizer_inv (fun _ => 0) sortBlocks _ 0 example_optimizer_ok)
    (example_cycle_clock 0 1000 0 0 ltac:(lia) ltac:(lia))) as HC.
  cbv zeta in HC. destruct HC as (res & opt' & HO & HC).
  assert (E : GetRecommendedInstances (fun _ => 0) (optimizerAlgorithm
    (NewOptimizer (D:=list) (fun _ => 0) sortBlocks example_optimizer_policy) example_optimizer_policy
    (<["default/h100" := 1]> (<["default/a100" := 1]> ∅))
    (fun _ => Some (∅, ∅, <["queue" := f_of_Z 50]> ∅))) [("queue", f_of_Z 10)] = (10, false))
    by (vm_compute; reflexivity).
  rewrite E in HC. destruct res as [m|]; [|destruct HC]. exists m, opt'. split; [exact HO|].
  exact (proj1 HC (MkParam "" "h100" 100 1 4) ltac:(by left)).
Defined.
