(* ===== verification/GoHeap.v ===== *)
(** * container/heap

    The binary heap of Go's standard library on a slice: [Init], [Push],
    [Pop], [up] and [down] with the index arithmetic of the library. The
    client's [Less] is an arbitrary function of two elements, so what needs no
    order (nothing is lost or duplicated) is proved for every [Less], and the
    heap order for a [Less] that is a strict weak order on the elements that
    satisfy a predicate [P]. *)
From S2P Require Import Prelude.
Local Open Scope nat_scope.

Section heap.
Context {A : Type} (less : A -> A -> bool).
Implicit Types l : list A.

(** [h.Less(i, j)]; the library only calls it with indices in range. *)
Definition lessAt l (i j : nat) : bool :=
  match l !! i, l !! j with
  | Some a, Some b => less a b
  | _, _ => false
  end.

(** [h.Swap(i, j)]. *)
Definition swap (i j : nat) l : list A :=
  match l !! i, l !! j with
  | Some a, Some b => <[i := b]> (<[j := a]> l)
  | _, _ => l
  end.

Definition parent (j : nat) : nat := (j - 1) / 2.

(** Each round moves to a smaller index: [fuel] above [j] is enough. *)
Fixpoint up (fuel : nat) (j : nat) l : list A :=
  match fuel with
  | O => l
  | S fuel =>
    let i := parent j in
    if (i =? j) || negb (lessAt l j i) then l
    else up fuel i (swap i j l)
  end.

(** Each round moves to a larger index: [fuel] above [n - i] is enough. *)
Fixpoint down (fuel : nat) (i n : nat) l : list A :=
  match fuel with
  | O => l
  | S fuel =>
    let j1 := 2 * i + 1 in
    if n <=? j1 then l
    else
      let j2 := j1 + 1 in
      let j := if (j2 <? n) && lessAt l j2 j1 then j2 else j1 in
      if negb (lessAt l j i) then l
      else down fuel j n (swap i j l)
  end.

Fixpoint initLoop (k : nat) (n : nat) l : list A :=
  match k with
  | O => l
  | S i => initLoop i n (down n i n l)
  end.

Definition Init l : list A := let n := length l in initLoop (n / 2) n l.

Definition Push (x : A) l : list A := let l := l ++ [x] in up (length l) (length l - 1) l.

(** [Pop] of an empty heap panics. *)
Definition Pop l : option (A * list A) :=
  match length l with
  | O => None
  | S n =>
    let l := down (S n) 0 n (swap 0 n l) in
    x ← l !! n;
    Some (x, take n l)
  end.

(** ** Nothing is lost *)

Lemma swap_perm i j l : swap i j l ≡ₚ l.
Proof.
  unfold swap. destruct (l !! i) as [a|] eqn:Ei; [|done]. destruct (l !! j) as [b|] eqn:Ej; [|done].
  by apply Permutation_insert_swap.
Qed.

Lemma up_perm fuel j l : up fuel j l ≡ₚ l.
Proof.
  revert j l. induction fuel as [|fuel IH]; intros j l; simpl; [done|].
  destruct (_ || _); [done|]. by rewrite IH, swap_perm.
Qed.

Lemma down_perm fuel i n l : down fuel i n l ≡ₚ l.
Proof.
  revert i l. induction fuel as [|fuel IH]; intros i l; cbn [down]; [done|].
  destruct (_ <=? _); [done|]. destruct (negb _); [done|]. by rewrite IH, swap_perm.
Qed.

Lemma initLoop_perm k n l : initLoop k n l ≡ₚ l.
Proof. revert l. induction k as [|k IH]; intros l; simpl; [done|]. by rewrite IH, down_perm. Qed.

Lemma Init_perm l : Init l ≡ₚ l.
Proof. apply initLoop_perm. Qed.

Lemma Push_perm x l : Push x l ≡ₚ x :: l.
Proof. unfold Push. rewrite up_perm. by rewrite (Permutation_app_comm l [x]). Qed.

Lemma down_length fuel i n l : length (down fuel i n l) = length l.
Proof. by rewrite down_perm. Qed.

Lemma swap_length i j l : length (swap i j l) = length l.
Proof. by rewrite swap_perm. Qed.

Lemma Pop_perm l : l <> [] -> exists x l', Pop l = Some (x, l') /\ l ≡ₚ x :: l'.
Proof.
  intros Hl. unfold Pop. destruct (length l) as [|n] eqn:En; [by destruct l|].
  set (l2 := down (S n) 0 n (swap 0 n l)).
  assert (Hlen : length l2 = S n) by (unfold l2; by rewrite down_length, swap_length).
  destruct (l2 !! n) as [x|] eqn:Ex; [|apply lookup_ge_None in Ex; lia].
  exists x, (take n l2). split; [done|].
  assert (E : l2 = take n l2 ++ [x]).
  { rewrite <- (take_drop n l2) at 1. f_equal. apply list_eq. intros [|i].
    - rewrite lookup_drop, Nat.add_0_r. done.
    - rewrite lookup_drop. simpl. apply lookup_ge_None. lia. }
  transitivity l2; [unfold l2; by rewrite down_perm, swap_perm|].
  rewrite E at 1. by rewrite (Permutation_app_comm _ [x]).
Qed.

Lemma Pop_nil : Pop [] = None.
Proof. done. Qed.

(** ** The heap order *)

Context (P : A -> Prop).
Hypothesis less_irrefl : forall x, P x -> less x x = false.
Hypothesis less_asym : forall x y, P x -> P y -> less x y = true -> less y x = false.
Hypothesis less_neg_trans : forall x y z, P x -> P y -> P z ->
  less x y = false -> less y z = false -> less x z = false.

(** No element below [n] is before its parent, for the parents from [lo] on. *)
Definition heap_from (lo n : nat) l : Prop :=
  forall k, k < n -> 0 < k -> lo <= parent k -> lessAt l k (parent k) = false.

Definition is_heap l : Prop := heap_from 0 (length l) l.

Lemma parent_lt k : 0 < k -> parent k < k.
Proof. intros Hk. unfold parent. apply Nat.Div0.div_lt_upper_bound. lia. Qed.

Lemma parent_children i k : 0 < k -> parent k = i <-> k = 2 * i + 1 \/ k = 2 * i + 2.
Proof.
  intros Hk. unfold parent. split.
  - intros <-. pose proof (Nat.div_mod (k - 1) 2 ltac:(lia)).
    pose proof (Nat.mod_upper_bound (k - 1) 2 ltac:(lia)). lia.
  - intros [-> | ->].
    + replace (2 * i + 1 - 1) with (i * 2) by lia. by rewrite Nat.div_mul.
    + replace (2 * i + 2 - 1) with (1 + i * 2) by lia. by rewrite Nat.div_add.
Qed.

Lemma lessAt_asym l i j :
  Forall P l -> lessAt l i j = true -> lessAt l j i = false.
Proof.
  intros Hl. unfold lessAt. destruct (l !! i) as [a|] eqn:Ei; [|done].
  destruct (l !! j) as [b|] eqn:Ej; [|done].
  apply less_asym; eapply Forall_lookup_1; eauto.
Qed.

Lemma lessAt_neg_trans l i j k :
  Forall P l -> j < length l ->
  lessAt l i j = false -> lessAt l j k = false -> lessAt l i k = false.
Proof.
  intros Hl Hj. unfold lessAt. destruct (l !! i) as [a|] eqn:Ei; [|done].
  destruct (lookup_lt_is_Some_2 l j Hj) as [b Ej]. rewrite Ej.
  destruct (l !! k) as [c|] eqn:Ek; [|done].
  apply less_neg_trans; eapply Forall_lookup_1; eauto.
Qed.

Lemma swap_lookup l i j k : i < length l -> j < length l ->
  swap i j l !! k = if decide (k = i) then l !! j else if decide (k = j) then l !! i else l !! k.
Proof.
  intros Hi Hj. unfold swap.
  destruct (lookup_lt_is_Some_2 l i Hi) as [a Ei], (lookup_lt_is_Some_2 l j Hj) as [b Ej].
  rewrite Ei, Ej. destruct (decide (k = i)) as [->|Hki].
  - rewrite list_lookup_insert_eq by (rewrite length_insert; done). done.
  - rewrite list_lookup_insert_ne by done. destruct (decide (k = j)) as [->|Hkj].
    + by rewrite list_lookup_insert_eq.
    + by rewrite list_lookup_insert_ne.
Qed.

Definition transpose (i j k : nat) : nat :=
  if decide (k = i) then j else if decide (k = j) then i else k.

Lemma lessAt_swap l i j a b : i < length l -> j < length l ->
  lessAt (swap i j l) a b = lessAt l (transpose i j a) (transpose i j b).
Proof.
  intros Hi Hj. unfold lessAt, transpose. rewrite !swap_lookup by done.
  by repeat case_decide.
Qed.

Lemma transpose_other i j k : k <> i -> k <> j -> transpose i j k = k.
Proof. intros. unfold transpose. by rewrite !decide_False. Qed.

Lemma transpose_l i j : transpose i j i = j.
Proof. unfold transpose. by rewrite decide_True. Qed.

Lemma transpose_r i j : transpose i j j = i.
Proof. unfold transpose. case_decide; [done|]. by rewrite decide_True. Qed.

Lemma Forall_swap i j l : Forall P l -> Forall P (swap i j l).
Proof. intros Hl. by rewrite swap_perm. Qed.

(** [up] restores the order when only [j] may be before its parent. *)
Lemma up_heap fuel j l :
  Forall P l -> j < length l -> j < fuel ->
  (forall k, k < length l -> 0 < k -> k <> j -> lessAt l k (parent k) = false) ->
  (forall k, k < length l -> 0 < k -> 0 < j -> parent k = j -> lessAt l k (parent j) = false) ->
  is_heap (up fuel j l).
Proof.
  revert j l. induction fuel as [|fuel IH]; intros j l HP Hj Hf H1 H2; [lia|]. cbn [up].
  destruct (Nat.eqb_spec (parent j) j) as [E|E]; simpl.
  { intros k Hk H0 _. apply H1; [done|done|]. intros ->. pose proof (parent_lt j). lia. }
  assert (H0j : 0 < j) by (destruct j; [done|lia]).
  pose proof (parent_lt j H0j) as Hlt.
  destruct (lessAt l j (parent j)) eqn:El; simpl.
  2: { intros k Hk H0 _. destruct (decide (k = j)) as [->|Hne]; [done|by apply H1]. }
  set (i := parent j) in *.
  assert (Hsw : forall a b, lessAt (swap i j l) a b = lessAt l (transpose i j a) (transpose i j b))
    by (intros; apply lessAt_swap; lia).
  apply IH; [by apply Forall_swap|rewrite swap_length; lia|lia|..]; rewrite swap_length.
  - intros k Hk H0 Hki. pose proof (parent_lt k H0). rewrite Hsw.
    destruct (decide (k = j)) as [->|Hkj].
    { fold i. rewrite transpose_r, transpose_l. by apply lessAt_asym. }
    rewrite (transpose_other i j k) by done.
    destruct (decide (parent k = i)) as [Ep|Ep].
    { rewrite Ep, transpose_l. apply (lessAt_neg_trans l k i j); [done|lia| |by apply lessAt_asym].
      rewrite <- Ep. by apply H1. }
    destruct (decide (parent k = j)) as [Ep'|Ep'].
    { rewrite Ep', transpose_r. by apply H2. }
    rewrite transpose_other by done. by apply H1.
  - intros k Hk H0 Hi Ep. rewrite Hsw. pose proof (parent_lt i Hi) as Hpi.
    rewrite (transpose_other i j (parent i)) by lia.
    assert (Hii : lessAt l i (parent i) = false) by (apply H1; lia).
    destruct (decide (k = j)) as [->|Hkj]; [by rewrite transpose_r|].
    assert (k <> i) by (pose proof (parent_lt k H0); lia).
    rewrite transpose_other by done.
    apply (lessAt_neg_trans l k i (parent i)); [done|lia| |done]. rewrite <- Ep. by apply H1.
Qed.

(** [down] restores the order when only the children of [i] may be before
    it. *)
Lemma down_heap fuel lo i n l :
  Forall P l -> n <= length l -> n <= fuel + i -> lo <= i ->
  (forall k, k < n -> 0 < k -> lo <= parent k -> parent k <> i -> lessAt l k (parent k) = false) ->
  (forall k, k < n -> 0 < k -> parent k = i -> 0 < i -> lo <= parent i ->
     lessAt l k (parent i) = false) ->
  heap_from lo n (down fuel i n l).
Proof.
  revert i l. induction fuel as [|fuel IH]; intros i l HP Hn Hf Hlo H1 H2; cbn [down].
  { intros k Hk H0 Hp. pose proof (parent_lt k H0). apply H1; (done || lia). }
  destruct (Nat.leb_spec n (2 * i + 1)) as [Hc|Hc].
  { intros k Hk H0 Hp. apply H1; [done|done|done|]. rewrite parent_children by done. lia. }
  set (j1 := 2 * i + 1) in *. set (j2 := j1 + 1).
  set (j := if (j2 <? n) && lessAt l j2 j1 then j2 else j1).
  assert (Hj : j < n /\ parent j = i /\ i < j /\
    forall k, k < n -> 0 < k -> parent k = i -> lessAt l k j = false).
  { assert (Hirr : forall a, lessAt l a a = false).
    { intros a. unfold lessAt. destruct (l !! a) as [x|] eqn:Ea; [|done].
      apply less_irrefl. by eapply Forall_lookup_1. }
    unfold j. destruct (Nat.ltb_spec j2 n); simpl.
    - destruct (lessAt l j2 j1) eqn:E21.
      + split_and!; [lia|apply parent_children; lia|lia|]. intros k Hk H0 Hp.
        apply (parent_children i k H0) in Hp as [-> | ->].
        * by apply lessAt_asym.
        * replace (2 * i + 2) with j2 by lia. apply Hirr.
      + split_and!; [lia|apply parent_children; lia|lia|]. intros k Hk H0 Hp.
        apply (parent_children i k H0) in Hp as [-> | ->].
        * apply Hirr.
        * by replace (2 * i + 2) with j2 by lia.
    - split_and!; [lia|apply parent_children; lia|lia|]. intros k Hk H0 Hp.
      apply (parent_children i k H0) in Hp as [-> | ->].
      + apply Hirr.
      + lia. }
  destruct Hj as (Hjn & Hpj & Hij & Hmin). clearbody j.
  destruct (lessAt l j i) eqn:El; simpl.
  2: { intros k Hk H0 Hp. destruct (decide (parent k = i)) as [Ep|Ep]; [|by apply H1].
       rewrite Ep. apply (lessAt_neg_trans l k j i); [done|lia|by apply Hmin|done]. }
  assert (Hsw : forall a b, lessAt (swap i j l) a b = lessAt l (transpose i j a) (transpose i j b))
    by (intros; apply lessAt_swap; lia).
  apply IH; [by apply Forall_swap|by rewrite swap_length|lia|lia|..].
  - intros k Hk H0 Hp Hpk. rewrite Hsw. pose proof (parent_lt k H0).
    destruct (decide (parent k = i)) as [Ep|Ep].
    + rewrite Ep, transpose_l. destruct (decide (k = j)) as [->|Hkj].
      * rewrite transpose_r. by apply lessAt_asym.
      * rewrite transpose_other by lia. by apply Hmin.
    + rewrite (transpose_other i j (parent k)) by done.
      destruct (decide (k = i)) as [->|Hki].
      * rewrite transpose_l. apply H2; (done || lia).
      * rewrite transpose_other; [by apply H1|done|]. intros ->. done.
  - intros k Hk H0 Ep Hj0 Hpj'. rewrite Hsw, Hpj, transpose_l. pose proof (parent_lt k H0).
    rewrite (transpose_other i j k) by lia. rewrite <- Ep. apply H1; [done|done|lia|lia].
Qed.

Lemma down_lookup_ge fuel i n l k : n <= k -> n <= length l -> i < n \/ n <= i ->
  down fuel i n l !! k = l !! k.
Proof.
  intros Hk. revert i l. induction fuel as [|fuel IH]; intros i l Hn Hi; cbn [down]; [done|].
  destruct (Nat.leb_spec n (2 * i + 1)) as [Hc|Hc]; [done|].
  set (j := if _ && _ then _ else _).
  assert (Hj : j < n).
  { unfold j. destruct (Nat.ltb_spec (2 * i + 1 + 1) n); simpl; [|lia].
    destruct (lessAt _ _ _); lia. }
  destruct (negb _); [done|]. rewrite IH by (rewrite ?swap_length; lia).
  rewrite swap_lookup by lia. by rewrite !decide_False by lia.
Qed.

Lemma initLoop_heap k n l :
  Forall P l -> n <= length l -> heap_from k n l -> heap_from 0 n (initLoop k n l).
Proof.
  revert l. induction k as [|i IH]; intros l HP Hn Hk; cbn [initLoop]; [done|].
  apply IH; [by rewrite down_perm|by rewrite down_length|].
  apply down_heap; [done|done|lia|done|..].
  - intros k Hkn H0 Hp Hne. apply Hk; [done|done|lia].
  - intros k Hkn H0 Ep Hi Hlo. pose proof (parent_lt i Hi). lia.
Qed.

Lemma Init_heap l : Forall P l -> is_heap (Init l).
Proof.
  intros HP. unfold is_heap. rewrite (Permutation_length (Init_perm l)). unfold Init. apply initLoop_heap; [done|done|].
  intros k Hk H0 Hp. exfalso.
  assert (2 * parent k + 1 <= k).
  { destruct (proj1 (parent_children (parent k) k H0) eq_refl); lia. }
  pose proof (Nat.div_mod (length l) 2 ltac:(lia)).
  pose proof (Nat.mod_upper_bound (length l) 2 ltac:(lia)). lia.
Qed.

Lemma Push_heap x l : Forall P l -> P x -> is_heap l -> is_heap (Push x l).
Proof.
  intros HP Hx Hh. unfold Push. rewrite length_app. simpl.
  replace (length l + 1 - 1) with (length l) by lia.
  apply up_heap; [by apply Forall_app_2; [|constructor]|rewrite length_app; simpl; lia|lia|..];
    rewrite length_app; simpl.
  - intros k Hk H0 Hne. pose proof (parent_lt k H0). specialize (Hh k ltac:(lia) H0 ltac:(lia)).
    unfold lessAt in *. by rewrite !lookup_app_l by lia.
  - intros k Hk H0 _ Ep. pose proof (parent_lt k H0). lia.
Qed.

(** The root is not after any element. *)
Lemma heap_root n l k : Forall P l -> n <= length l -> heap_from 0 n l -> k < n -> lessAt l k 0 = false.
Proof.
  intros HP Hn Hh. induction (lt_wf k) as [k _ IH]. intros Hk.
  destruct (decide (k = 0)) as [->|H0].
  { unfold lessAt. destruct (l !! 0) as [x|] eqn:E; [|done]. apply less_irrefl.
    by eapply Forall_lookup_1. }
  pose proof (parent_lt k ltac:(lia)).
  apply (lessAt_neg_trans l k (parent k) 0); [done|lia|apply Hh; lia|apply IH; lia].
Qed.

Lemma heap_take n l : n <= length l -> heap_from 0 n l -> is_heap (take n l).
Proof.
  intros Hn Hh k. rewrite length_take. intros Hk H0 _. pose proof (parent_lt k H0).
  specialize (Hh k ltac:(lia) H0 ltac:(lia)). unfold lessAt in *. by rewrite !lookup_take_lt by lia.
Qed.

(** [Pop] takes an element no other element is before, and leaves a heap. *)
Lemma Pop_heap l x l' :
  Forall P l -> is_heap l -> Pop l = Some (x, l') ->
  is_heap l' /\ l !! 0 = Some x /\ forall y, y ∈ l' -> less y x = false.
Proof.
  intros HP Hh. unfold Pop. destruct (length l) as [|n] eqn:En; [done|].
  set (l1 := swap 0 n l). set (l2 := down (S n) 0 n l1).
  assert (HP1 : Forall P l1) by by apply Forall_swap.
  assert (Hlen : length l1 = S n) by (unfold l1; by rewrite swap_length).
  assert (Ex : l2 !! n = l !! 0).
  { unfold l2. rewrite down_lookup_ge by lia. unfold l1. rewrite swap_lookup by lia.
    case_decide; [subst; done|]. by rewrite decide_True. }
  assert (H2 : heap_from 0 n l2).
  { apply down_heap; [done|lia|lia|lia|..|lia]. intros k Hk H0 _ Hp.
    pose proof (parent_lt k H0). unfold l1. rewrite lessAt_swap by lia.
    rewrite !transpose_other by lia. apply Hh; lia. }
  rewrite Ex. destruct (l !! 0) as [y|] eqn:Ey; simpl; [|done].
  intros [= -> <-].
  assert (Hlen2 : length l2 = S n) by (unfold l2; by rewrite down_length).
  split_and!; [apply heap_take; [lia|done]|done|].
  intros z Hz. assert (Hzl : z ∈ l).
  { assert (l2 ≡ₚ l) as E by (unfold l2; by rewrite down_perm; apply swap_perm). rewrite <- E.
    rewrite <- (take_drop n l2).
    apply elem_of_app. by left. }
  apply list_elem_of_lookup in Hzl as [k Hk].
  pose proof (heap_root (S n) l k HP ltac:(lia) ltac:(by unfold is_heap in Hh; rewrite En in Hh)
    ltac:(apply lookup_lt_Some in Hk; lia)) as Hr.
  unfold lessAt in Hr. by rewrite Hk, Ey in Hr.
Qed.
End heap.
