(* ===== verification/FairnessQueue.v ===== *)
(** * pkg/kthena-router/datastore/fairness_queue.go and session_boost_queue.go:
      the queue

    The priority queue of one model, in its two orderings, under the lock
    [pq.mu]. A request is the value the queue orders; the admission fields of a
    request, shared with the waiting caller, are modelled in Admission.v. Whether
    a request's [CancelCh] is closed, and the counts of the token tracker, are
    arguments of each operation. The capacity-bounded LRU cache of completed
    sessions is a third-party package: a section variable with the operations
    the code calls. Of the metrics, the queue-size gauge is kept (the other
    series only count events). *)
From S2P Require Import Prelude Float64 GoHeap.
Local Open Scope Z_scope.

Record FairnessQueueConfig := MkQueueConfig {
  MaxConcurrent : Z;
  MaxQPS : Z;
  MaxPriorityRefreshRetries : Z;
  RebuildThreshold : Z;
  TokenWeight : float64;
  RequestNumWeight : float64;
  SessionBoostEnabled : bool;
  SessionBoostMaxSessions : Z;
  SessionBoostGracePeriod : Z;
  InflightPerPod : Z
}.

Definition defaultSessionBoostInflightPerPod : Z := 16.
Definition defaultSessionBoostMaxSessions : Z := 4096.

Definition DefaultFairnessQueueConfig : FairnessQueueConfig :=
  MkQueueConfig 0 100 0 64 f_one f_zero false defaultSessionBoostMaxSessions 0
    defaultSessionBoostInflightPerPod.

(** [None]: the call returns an error. *)
Record FairnessPrioritySource := MkSource {
  GetTokenCount : string -> string -> option float64;
  GetRequestCount : string -> string -> option Z
}.

Definition CalculateFairnessPriority (source : FairnessPrioritySource) (userID modelName : string)
    (tokenWeight requestNumWeight : float64) : option float64 :=
  tokenCount ← GetTokenCount source userID modelName;
  let priority := f_mul tokenWeight tokenCount in
  if f_eq requestNumWeight f_zero then Some priority
  else
    requestCount ← GetRequestCount source userID modelName;
    Some (f_add priority (f_mul requestNumWeight (f_of_Z requestCount))).

(** Times are in nanoseconds. *)
Record Request := MkRequest {
  UserID : string;
  ModelName : string;
  SessionID : string;
  Priority : float64;
  SessionBoost : bool;
  LastTurnCompletedAt : Z;
  RequestTime : Z
}.

Definition set_Priority (r : Request) (p : float64) : Request :=
  MkRequest (UserID r) (ModelName r) (SessionID r) p (SessionBoost r) (LastTurnCompletedAt r)
    (RequestTime r).

Definition boosted (r : Request) (completedAt : Z) : Request :=
  MkRequest (UserID r) (ModelName r) (SessionID r) (Priority r) true completedAt (RequestTime r).

(** [Less] on two requests; [sessionBoost] is the mode of the queue. *)
Definition Less (sessionBoost : bool) (a b : Request) : bool :=
  if sessionBoost then
    if negb (eqb (SessionBoost a) (SessionBoost b)) then SessionBoost a
    else if SessionBoost a then
      if negb (LastTurnCompletedAt a =? LastTurnCompletedAt b)
      then LastTurnCompletedAt b <? LastTurnCompletedAt a
      else RequestTime a <? RequestTime b
    else RequestTime a <? RequestTime b
  else if decide (UserID a = UserID b) then RequestTime a <? RequestTime b
  else if negb (f_eq (Priority a) (Priority b)) then f_lt (Priority a) (Priority b)
  else RequestTime a <? RequestTime b.

Section queue.
Context {Cache : Type} (Peek : Cache -> string -> option Z).

(** [stopped]: [stopCh] is closed; [notified]: a signal is buffered in
    [notifyCh]; [sizeGauge]: the queue-size gauge, by model and user (by model
    alone in session-boost mode). *)
Record RequestPriorityQueue := MkQueue {
  stopped : bool;
  notified : bool;
  heap : list Request;
  sizeGauge : gmap (string * string) Z
}.

Context (cfg : FairnessQueueConfig).
Abbreviation sessionBoost := (SessionBoostEnabled cfg).
Abbreviation less := (Less sessionBoost).

Definition NewRequestPriorityQueue : RequestPriorityQueue := MkQueue false false [] ∅.

Definition set_heap (q : RequestPriorityQueue) (h : list Request) : RequestPriorityQueue :=
  MkQueue (stopped q) (notified q) h (sizeGauge q).

Definition gaugeKey (r : Request) : string * string :=
  (ModelName r, if sessionBoost then "" else UserID r).

Definition gaugeAdd (r : Request) (d : Z) (g : gmap (string * string) Z) : gmap (string * string) Z :=
  <[gaugeKey r := default 0 (g !! gaugeKey r) + d]> g.

Definition metricIncSize (r : Request) (q : RequestPriorityQueue) : RequestPriorityQueue :=
  MkQueue (stopped q) (notified q) (heap q) (gaugeAdd r 1 (sizeGauge q)).
Definition metricDecSize (r : Request) (q : RequestPriorityQueue) : RequestPriorityQueue :=
  MkQueue (stopped q) (notified q) (heap q) (gaugeAdd r (-1) (sizeGauge q)).
Definition signal (q : RequestPriorityQueue) : RequestPriorityQueue :=
  MkQueue (stopped q) true (heap q) (sizeGauge q).

(** [SessionTracker.CompletionTime]. *)
Definition CompletionTime (cache : Cache) (sessionID : string) : option Z :=
  if decide (sessionID = "") then None else Peek cache sessionID.

(** [PushRequest]: false when the queue is closed. *)
Definition PushRequest (cache : Cache) (r : Request) (q : RequestPriorityQueue) :
    bool * RequestPriorityQueue :=
  if stopped q then (false, q)
  else
    let r := if sessionBoost && bool_decide (SessionID r <> "")
             then match CompletionTime cache (SessionID r) with
                  | Some completedAt => boosted r completedAt
                  | None => r
                  end
             else r in
    (true, signal (metricIncSize r (set_heap q (Push less r (heap q))))).

Definition requestPriority (source : FairnessPrioritySource) (r : Request) : option float64 :=
  CalculateFairnessPriority source (UserID r) (ModelName r) (TokenWeight cfg) (RequestNumWeight cfg).

Definition shouldRebuildLocked (q : RequestPriorityQueue) : bool :=
  (RebuildThreshold cfg <=? 0) || (Z.of_nat (length (heap q)) <=? RebuildThreshold cfg).

(** The loop of [rebuildHeap] over the items. *)
Definition refreshPriority (source : FairnessPrioritySource) (r : Request) : Request :=
  match requestPriority source r with
  | Some newPri => set_Priority r newPri
  | None => r
  end.

Definition rebuildHeap (source : option FairnessPrioritySource) (q : RequestPriorityQueue) :
    RequestPriorityQueue :=
  match source with
  | None => q
  | Some source => set_heap q (Init less (refreshPriority source <$> heap q))
  end.

(** The result of one pass of the loop in [popWhenAvailable]: go round again,
    return a request, or find the queue empty (and wait). *)
Inductive PopResult :=
| PopRetry (refreshRetries : Z) (q : RequestPriorityQueue)
| PopReturn (r : Request) (q : RequestPriorityQueue)
| PopEmpty.

(** The refresh of the popped request, with what is left in the heap: the
    request with its new priority, and whether it goes back. *)
Definition refreshPopped (source : option FairnessPrioritySource) (r : Request) (rest : list Request) :
    Request * bool :=
  match source with
  | Some source =>
    if 0 <? MaxPriorityRefreshRetries cfg then
      match requestPriority source r with
      | Some newPri =>
        if negb (f_eq newPri (Priority r)) then
          (set_Priority r newPri,
           match rest with [] => false | top :: _ => f_gt newPri (Priority top) end)
        else (r, false)
      | None => (r, false)
      end
    else (r, false)
  | None => (r, false)
  end.

Definition popOnce (cancelled : Request -> bool) (source : option FairnessPrioritySource)
    (refreshRetries : Z) (q : RequestPriorityQueue) : PopResult :=
  match Pop less (heap q) with
  | None => PopEmpty
  | Some (req, rest) =>
    let q := set_heap q rest in
    if cancelled req then PopRetry refreshRetries (metricDecSize req q)
    else
      let '(req, back) := refreshPopped source req rest in
      if back then
        let refreshRetries := refreshRetries + 1 in
        let q := set_heap q (Push less req rest) in
        if MaxPriorityRefreshRetries cfg <=? refreshRetries
        then PopRetry 0 (if shouldRebuildLocked q then rebuildHeap source q else q)
        else PopRetry refreshRetries q
      else PopReturn req (metricDecSize req q)
  end.

(** The loop until it returns or waits. [None]: out of fuel. *)
Fixpoint popLoop (fuel : nat) cancelled source (refreshRetries : Z) (q : RequestPriorityQueue) :
    option (option Request * RequestPriorityQueue) :=
  match fuel with
  | O => None
  | S fuel =>
    match popOnce cancelled source refreshRetries q with
    | PopRetry refreshRetries q => popLoop fuel cancelled source refreshRetries q
    | PopReturn r q => Some (Some r, q)
    | PopEmpty => Some (None, q)
    end
  end.

(** One lock-to-wait run of [popWhenAvailable]. Every pass of the loop drops a
    request or brings a stale priority up to date. *)
Definition popWhenAvailable cancelled source (q : RequestPriorityQueue) :
    option (option Request * RequestPriorityQueue) :=
  popLoop (S (2 * length (heap q))) cancelled source 0 q.

(** [requeueRequest]; true when the queue is closed and the request is
    cancelled instead. *)
Definition requeueRequest (r : Request) (q : RequestPriorityQueue) : bool * RequestPriorityQueue :=
  if stopped q then (true, q)
  else (false, signal (metricIncSize r (set_heap q (Push less r (heap q))))).

(** [drainCancelledLocked]; the number of requests removed. *)
Definition drainCancelledLocked (cancelled : Request -> bool) (q : RequestPriorityQueue) :
    Z * RequestPriorityQueue :=
  let kept := filter (fun r => cancelled r = false) (heap q) in
  let gauge := fold_left (fun g r => if cancelled r then gaugeAdd r (-1) g else g) (heap q) (sizeGauge q) in
  let drained := Z.of_nat (length (heap q)) - Z.of_nat (length kept) in
  if drained =? 0 then (0, q)
  else (drained, MkQueue (stopped q) (notified q) (Init less kept) gauge).

(** [Close]; the pending requests, which are cancelled. *)
Definition Close (q : RequestPriorityQueue) : list Request * RequestPriorityQueue :=
  if stopped q then ([], q)
  else (heap q, MkQueue true (notified q) []
          (fold_left (fun g r => gaugeAdd r (-1) g) (heap q) (sizeGauge q))).
End queue.

(** ** The two orders

    [Less] is a strict weak order in session-boost mode. In fairness mode it
    is one as long as the queued requests of a user carry the same priority;
    without that it need not even be transitive. *)

Class OrderedMode (cfg : FairnessQueueConfig) (P : Request -> Prop) : Prop := {
  om_irrefl x : P x -> Less (SessionBoostEnabled cfg) x x = false;
  om_asym x y : P x -> P y ->
    Less (SessionBoostEnabled cfg) x y = true -> Less (SessionBoostEnabled cfg) y x = false;
  om_neg_trans x y z : P x -> P y -> P z ->
    Less (SessionBoostEnabled cfg) x y = false -> Less (SessionBoostEnabled cfg) y z = false ->
    Less (SessionBoostEnabled cfg) x z = false;
  om_boost r t : SessionBoostEnabled cfg = true -> P r -> P (boosted r t);
  om_refresh :
    (forall r p, P r -> P (set_Priority r p) /\
       forall y, Less (SessionBoostEnabled cfg) y (set_Priority r p) = Less (SessionBoostEnabled cfg) y r) \/
    MaxPriorityRefreshRetries cfg <= 0
}.

Lemma session_ordered cfg : SessionBoostEnabled cfg = true -> OrderedMode cfg (fun _ => True).
Proof.
  intros E. split; rewrite ?E.
  - intros [? ? ? ? [] ? ?] _; unfold Less; simpl; repeat case_bool; simpl in *; lia.
  - intros [? ? ? ? [] ? ?] [? ? ? ? [] ? ?] _ _; unfold Less; simpl;
      repeat case_bool; simpl in *; lia || congruence.
  - intros [? ? ? ? [] ? ?] [? ? ? ? [] ? ?] [? ? ? ? [] ? ?] _ _ _; unfold Less; simpl;
      repeat case_bool; simpl in *; lia || congruence.
  - done.
  - left. intros r p _. split; [done|]. by intros [? ? ? ? [] ? ?].
Qed.

(** The queued requests of a user have the priority [pri] gives the user. *)
Definition user_priority (pri : string -> float64) (r : Request) : Prop :=
  Priority r = pri (UserID r) /\ f_isNaN (Priority r) = false.

Lemma Less_user pri a b : user_priority pri a -> user_priority pri b ->
  Less false a b =
  (f_lt (Priority a) (Priority b) ||
   negb (f_lt (Priority b) (Priority a)) && (RequestTime a <? RequestTime b)).
Proof.
  intros [Ea Na] [Eb Nb]. unfold Less. rewrite f_eq_lt by done. case_decide as E.
  - assert (Priority a = Priority b) as -> by congruence. by rewrite f_lt_irrefl.
  - destruct (f_lt (Priority a) (Priority b)) eqn:E1, (f_lt (Priority b) (Priority a)) eqn:E2; done.
Qed.

Lemma fairness_ordered cfg pri :
  SessionBoostEnabled cfg = false -> MaxPriorityRefreshRetries cfg <= 0 ->
  OrderedMode cfg (user_priority pri).
Proof.
  intros E Hr. split; rewrite ?E.
  - intros x Hx. rewrite (Less_user pri) by done. rewrite f_lt_irrefl. simpl. lia.
  - intros x y Hx Hy. rewrite !(Less_user pri) by done.
    destruct (f_lt (Priority x) (Priority y)) eqn:E1, (f_lt (Priority y) (Priority x)) eqn:E2; simpl;
      try done; [|lia].
    pose proof (f_lt_trans _ _ _ E1 E2) as H. by rewrite f_lt_irrefl in H.
  - intros x y z Hx Hy Hz. rewrite !(Less_user pri) by done.
    destruct (f_lt (Priority x) (Priority y)) eqn:E1; [done|].
    destruct (f_lt (Priority y) (Priority z)) eqn:E2; [done|]. simpl.
    rewrite (f_lt_neg_trans _ _ _ (proj2 Hy) E1 E2). simpl.
    destruct (f_lt (Priority y) (Priority x)) eqn:E3, (f_lt (Priority z) (Priority y)) eqn:E4; simpl.
    + by rewrite (f_lt_trans _ _ _ E4 E3).
    + destruct (f_lt (Priority z) (Priority x)) eqn:E5; [done|].
      by rewrite (f_lt_neg_trans _ _ _ (proj2 Hz) E2 E5) in E3.
    + destruct (f_lt (Priority z) (Priority x)) eqn:E5; [done|].
      by rewrite (f_lt_neg_trans _ _ _ (proj2 Hx) E5 E1) in E4.
    + rewrite (f_lt_neg_trans _ _ _ (proj2 Hy) E4 E3). simpl. lia.
  - congruence.
  - by right.
Qed.

(** ** Conservation and termination, whatever the order *)

(** A request up to its priority: what never changes while it is queued. *)
Definition erase (r : Request) : Request := set_Priority r f_zero.

Lemma erase_set r p : erase (set_Priority r p) = erase r.
Proof. done. Qed.

Section queue_facts.
Context (cfg : FairnessQueueConfig).
Abbreviation sessionBoost := (SessionBoostEnabled cfg).
Abbreviation less := (Less sessionBoost).
Implicit Types q : RequestPriorityQueue.

Definition count_key (k : string * string) (l : list Request) : Z :=
  Z.of_nat (length (filter (fun r => gaugeKey cfg r = k) l)).

(** The queue-size gauge counts the queued requests. *)
Definition gauge_ok q : Prop := forall k, default 0 (sizeGauge q !! k) = count_key k (heap q).

#[export] Instance count_key_perm k : Proper ((≡ₚ) ==> eq) (count_key k).
Proof. intros l l' Hl. unfold count_key. by rewrite Hl. Qed.

Lemma count_key_cons k r l :
  count_key k (r :: l) = (if decide (gaugeKey cfg r = k) then 1 else 0) + count_key k l.
Proof. unfold count_key. rewrite filter_cons. case_decide; csimpl; lia. Qed.

Lemma gaugeAdd_lookup r d g k :
  default 0 (gaugeAdd cfg r d g !! k) = default 0 (g !! k) + (if decide (gaugeKey cfg r = k) then d else 0).
Proof. unfold gaugeAdd. rewrite lookup_insert. repeat case_decide; simplify_eq; simpl; lia. Qed.

Lemma gauge_push r q l :
  gauge_ok q -> l ≡ₚ r :: heap q -> gauge_ok (metricIncSize cfg r (set_heap q l)).
Proof.
  intros Hg Hl k. simpl. rewrite gaugeAdd_lookup, Hl, count_key_cons, Hg. case_decide; lia.
Qed.

Lemma gauge_pop r q l :
  gauge_ok q -> heap q ≡ₚ r :: l -> gauge_ok (metricDecSize cfg r (set_heap q l)).
Proof.
  intros Hg Hl k. simpl. rewrite gaugeAdd_lookup, Hg, Hl, count_key_cons. case_decide; lia.
Qed.

Lemma count_key_erase k l l' : erase <$> l ≡ₚ erase <$> l' -> count_key k l = count_key k l'.
Proof.
  assert (He : forall l, count_key k l = count_key k (erase <$> l)).
  { induction l0 as [|r l0 IH]; csimpl; [done|]. rewrite !count_key_cons, IH. done. }
  intros Hl. by rewrite (He l), (He l'), Hl.
Qed.

Lemma gauge_erase q l : gauge_ok q -> erase <$> l ≡ₚ erase <$> heap q -> gauge_ok (set_heap q l).
Proof. intros Hg Hl k. simpl. rewrite Hg. symmetry. by apply count_key_erase. Qed.

Section pop.
Context (cancelled : Request -> bool) (source : option FairnessPrioritySource).
Context (cancelled_set : forall r p, cancelled (set_Priority r p) = cancelled r).

(** A queued priority the source would change (to a number). *)
Definition stale (r : Request) : bool :=
  match source with
  | Some source =>
    match requestPriority cfg source r with
    | Some p => negb (f_eq p (Priority r)) && negb (f_isNaN p)
    | None => false
    end
  | None => false
  end.

Definition stale_count (l : list Request) : nat := length (filter (fun r => stale r = true) l).

Definition measure q : nat := length (heap q) + stale_count (heap q).

#[local] Instance stale_count_perm : Proper ((≡ₚ) ==> eq) stale_count.
Proof. intros l l' Hl. unfold stale_count. by rewrite Hl. Qed.

Lemma stale_count_cons r l : stale_count (r :: l) = ((if stale r then 1 else 0) + stale_count l)%nat.
Proof. unfold stale_count. rewrite filter_cons. destruct (stale r); [by rewrite decide_True|by rewrite decide_False]. Qed.

Lemma stale_count_le l : (stale_count l <= length l)%nat.
Proof. apply length_filter. Qed.

Lemma f_eq_refl p : f_isNaN p = false -> f_eq p p = true.
Proof. intros Hp. rewrite f_eq_lt by done. by rewrite f_lt_irrefl. Qed.

Lemma requestPriority_set src r p : requestPriority cfg src (set_Priority r p) = requestPriority cfg src r.
Proof. done. Qed.

Lemma stale_fresh src r p :
  source = Some src -> requestPriority cfg src r = Some p -> stale (set_Priority r p) = false.
Proof.
  intros Es Ep. unfold stale. rewrite Es, requestPriority_set, Ep. simpl.
  destruct (f_isNaN p) eqn:Hp; [by rewrite andb_false_r|]. by rewrite f_eq_refl.
Qed.

Lemma stale_refresh src r : source = Some src -> stale (refreshPriority cfg src r) = false.
Proof.
  intros Es. unfold refreshPriority. destruct (requestPriority cfg src r) as [p|] eqn:Ep.
  - by eapply stale_fresh.
  - unfold stale. by rewrite Es, Ep.
Qed.

Lemma stale_count_refresh src l : source = Some src -> stale_count (refreshPriority cfg src <$> l) = 0%nat.
Proof.
  intros Es. induction l as [|r l IH]; csimpl; [done|].
  by rewrite stale_count_cons, stale_refresh, IH.
Qed.

Lemma erase_refresh src (l : list Request) : erase <$> (refreshPriority cfg src <$> l) = erase <$> l.
Proof.
  rewrite <- list_fmap_compose. apply list_fmap_ext. intros _ r _. simpl.
  unfold refreshPriority. by destruct (requestPriority cfg src r).
Qed.

Lemma rebuildHeap_facts q :
  stopped (rebuildHeap cfg source q) = stopped q /\ sizeGauge (rebuildHeap cfg source q) = sizeGauge q /\
  erase <$> heap (rebuildHeap cfg source q) ≡ₚ erase <$> heap q /\
  (measure (rebuildHeap cfg source q) <= measure q)%nat.
Proof.
  unfold rebuildHeap, measure. destruct source as [src|] eqn:Es; [|by split_and!]. simpl.
  split_and!; [done|done|by rewrite Init_perm, erase_refresh|].
  assert (Hp : Init less (refreshPriority cfg src <$> heap q) ≡ₚ refreshPriority cfg src <$> heap q)
    by apply Init_perm.
  rewrite (Permutation_length Hp), length_fmap.
  unfold stale_count. rewrite Hp. fold (stale_count (refreshPriority cfg src <$> heap q)).
  pose proof (stale_count_refresh src (heap q) Es). lia.
Qed.

Lemma refreshPopped_facts r rest r' back :
  refreshPopped cfg source r rest = (r', back) ->
  erase r' = erase r /\ cancelled r' = cancelled r /\
  (back = true -> stale r = true /\ stale r' = false /\ 0 < MaxPriorityRefreshRetries cfg).
Proof.
  unfold refreshPopped. destruct source as [src|] eqn:Es; [|by intros [= <- <-]].
  destruct (Z.ltb_spec 0 (MaxPriorityRefreshRetries cfg)) as [Hm|]; [|by intros [= <- <-]].
  destruct (requestPriority cfg src r) as [p|] eqn:Ep; [|by intros [= <- <-]].
  destruct (f_eq p (Priority r)) eqn:Ef; simpl; [by intros [= <- <-]|].
  intros [= <- <-]. split_and!; [done|by rewrite cancelled_set|].
  intros Hb. assert (f_isNaN p = false) as Hn.
  { destruct rest as [|top rest]; [done|]. by destruct p, (Priority top). }
  split_and!; [|by eapply stale_fresh|done].
  unfold stale. by rewrite Es, Ep, Ef, Hn.
Qed.

(** One pass loses nothing and keeps the gauge; going round again makes
    progress. *)
Lemma popOnce_facts n q : gauge_ok q ->
  match popOnce cfg cancelled source n q with
  | PopEmpty => heap q = []
  | PopReturn r q' =>
    gauge_ok q' /\ stopped q' = stopped q /\ cancelled r = false /\
    erase <$> heap q ≡ₚ erase r :: (erase <$> heap q')
  | PopRetry _ q' =>
    gauge_ok q' /\ stopped q' = stopped q /\ (measure q' < measure q)%nat /\
    exists dropped, Forall (fun r => cancelled r = true) dropped /\
      erase <$> heap q ≡ₚ (erase <$> dropped) ++ (erase <$> heap q')
  end.
Proof.
  intros Hg. unfold popOnce. destruct (heap q) as [|r0 h0] eqn:Eh; [done|].
  destruct (Pop_perm less (heap q)) as (req & rest & Ep & Hperm); [by rewrite Eh|].
  rewrite <- Eh, Ep. assert (Hlen : length (heap q) = S (length rest)) by (by rewrite Hperm).
  destruct (cancelled req) eqn:Ec.
  { split_and!; [by apply gauge_pop|done| |].
    - unfold measure. simpl. rewrite Hperm, stale_count_cons. csimpl. lia.
    - exists [req]. split; [by constructor|]. by rewrite Hperm. }
  destruct (refreshPopped cfg source req rest) as [req' back] eqn:Er.
  destruct (refreshPopped_facts req rest req' back Er) as (Ee & Ec' & Hback).
  destruct back.
  - destruct (Hback eq_refl) as (Hs & Hs' & _).
    set (q1 := set_heap (set_heap q rest) (Push less req' rest)).
    assert (H1 : erase <$> heap q1 ≡ₚ erase <$> heap q).
    { simpl. rewrite Push_perm, Hperm. csimpl. by rewrite Ee. }
    assert (Hg1 : gauge_ok q1) by by apply (gauge_erase q).
    assert (Hm1 : (measure q1 < measure q)%nat).
    { unfold measure. simpl. rewrite Push_perm, Hperm, !stale_count_cons, Hs, Hs'. csimpl. lia. }
    fold q1.
    destruct (MaxPriorityRefreshRetries cfg <=? n + 1); [destruct (shouldRebuildLocked cfg q1)|].
    + destruct (rebuildHeap_facts q1) as (E1 & E2 & E3 & E4). split_and!; [|done|lia|].
      * intros k. rewrite E2, Hg1. symmetry. by apply count_key_erase.
      * exists []. split; [constructor|]. simpl. by rewrite E3, H1.
    + split_and!; [done|done|done|]. exists []. split; [constructor|]. simpl. by rewrite <- H1.
    + split_and!; [done|done|done|]. exists []. split; [constructor|]. simpl. by rewrite <- H1.
  - split_and!; [|done|by rewrite Ec'|by rewrite Hperm; csimpl; rewrite Ee].
    assert (metricDecSize cfg req' (set_heap q rest) = metricDecSize cfg req (set_heap q rest)) as ->.
    { unfold metricDecSize. f_equal. unfold gaugeAdd, gaugeKey.
      assert (ModelName req' = ModelName req /\ UserID req' = UserID req) as [-> ->]; [|done].
      by destruct req, req'; injection Ee. }
    by apply gauge_pop.
Qed.

Lemma popLoop_facts fuel n q : gauge_ok q -> (measure q < fuel)%nat ->
  exists res q' dropped, popLoop cfg fuel cancelled source n q = Some (res, q') /\
    gauge_ok q' /\ stopped q' = stopped q /\ Forall (fun r => cancelled r = true) dropped /\
    erase <$> heap q ≡ₚ (erase <$> option_list res) ++ (erase <$> dropped) ++ (erase <$> heap q') /\
    match res with
    | Some r => cancelled r = false
    | None => heap q' = []
    end.
Proof.
  revert n q. induction fuel as [|fuel IH]; intros n q Hg Hf; [lia|]. cbn [popLoop].
  pose proof (popOnce_facts n q Hg) as Hp.
  destruct (popOnce cfg cancelled source n q) as [n' q1|r q1|].
  - destruct Hp as (Hg1 & Es & Hm & dropped1 & Hd1 & Hp1).
    destruct (IH n' q1 Hg1 ltac:(lia)) as (res & q' & dropped & -> & Hg' & Es' & Hd & Hp' & Hres).
    exists res, q', (dropped1 ++ dropped). split_and!; [done|done|congruence|by apply Forall_app_2| |done].
    rewrite Hp1, Hp', fmap_app, !app_assoc. f_equiv. by rewrite (Permutation_app_comm (erase <$> dropped1)).
  - destruct Hp as (Hg1 & Es & Hc & Hp1). exists (Some r), q1, []. by split_and!.
  - exists None, q, []. split_and!; [done|done|done|constructor|done|done].
Qed.
End pop.

(** ** The order *)
Section ordered.
Context (P : Request -> Prop) `{!OrderedMode cfg P}.

Definition queue_inv q : Prop := Forall P (heap q) /\ is_heap less (heap q) /\ gauge_ok q.

Lemma mode_push r l : Forall P l -> P r -> is_heap less l ->
  Forall P (Push less r l) /\ is_heap less (Push less r l).
Proof.
  intros Hl Hr Hh. split; [rewrite Push_perm; by constructor|].
  apply (Push_heap less P); eauto using om_irrefl, om_asym, om_neg_trans.
Qed.

Lemma mode_init l : Forall P l -> Forall P (Init less l) /\ is_heap less (Init less l).
Proof.
  intros Hl. split; [by rewrite Init_perm|].
  apply (Init_heap less P); eauto using om_irrefl, om_asym, om_neg_trans.
Qed.

Lemma mode_pop l x l' : Forall P l -> is_heap less l -> Pop less l = Some (x, l') ->
  P x /\ Forall P l' /\ is_heap less l' /\ forall y, y ∈ l' -> less y x = false.
Proof.
  intros Hl Hh Hp. assert (Hperm : l ≡ₚ x :: l').
  { destruct (Pop_perm less l) as (x' & l2 & E & ?); [by intros ->|]. by simplify_eq. }
  rewrite Hperm in Hl. apply Forall_cons in Hl as [Hx Hl'].
  destruct (Pop_heap less P om_irrefl om_asym om_neg_trans l x l') as (H1 & _ & H2);
    [by rewrite Hperm; constructor|done|done|]. by split_and!.
Qed.

Lemma refreshPopped_order source r rest r' back :
  refreshPopped cfg source r rest = (r', back) -> P r ->
  P r' /\ (forall y, less y r' = less y r) /\
  (back = true -> forall x p, P x -> P (set_Priority x p)).
Proof.
  intros Hr HP. destruct (om_refresh (cfg:=cfg) (P:=P)) as [Href|Hoff].
  - assert (r' = r \/ exists p, r' = set_Priority r p) as [->|[p ->]].
    { unfold refreshPopped in Hr. repeat case_match; simplify_eq; eauto. }
    + split_and!; [done|done|]. intros _ x p Hx. by apply Href.
    + destruct (Href r p HP). split_and!; [done|done|]. intros _ x p' Hx. by apply Href.
  - unfold refreshPopped in Hr. destruct (Z.ltb_spec 0 (MaxPriorityRefreshRetries cfg)); [lia|].
    destruct source; by simplify_eq.
Qed.

Lemma popOnce_order cancelled source n q : Forall P (heap q) -> is_heap less (heap q) ->
  match popOnce cfg cancelled source n q with
  | PopEmpty => True
  | PopReturn r q' => P r /\ Forall P (heap q') /\ is_heap less (heap q') /\
      forall y, y ∈ heap q' -> less y r = false
  | PopRetry _ q' => Forall P (heap q') /\ is_heap less (heap q')
  end.
Proof.
  intros HP Hh. unfold popOnce. destruct (Pop less (heap q)) as [[req rest]|] eqn:Ep; [|done].
  destruct (mode_pop (heap q) req rest HP Hh Ep) as (Hreq & HPr & Hhr & Hmin).
  destruct (cancelled req); [done|].
  destruct (refreshPopped cfg source req rest) as [req' back] eqn:Er.
  destruct (refreshPopped_order source req rest req' back Er Hreq) as (HP' & Hless & Hset).
  destruct back; simpl; [|split_and!; [done|done|done|intros y Hy; rewrite Hless; by apply Hmin]].
  destruct (mode_push req' rest HPr HP' Hhr) as [Hq1 Hq2].
  destruct (_ <=? _); [|done]. destruct (shouldRebuildLocked _ _); [|done].
  unfold rebuildHeap. destruct source as [src|]; [|done]. simpl. apply mode_init.
  apply Forall_fmap. eapply Forall_impl; [exact Hq1|]. intros x Hx. simpl.
  unfold refreshPriority. destruct (requestPriority cfg src x); [by apply Hset|done].
Qed.

Lemma popLoop_order fuel cancelled source n q res q' :
  Forall P (heap q) -> is_heap less (heap q) ->
  popLoop cfg fuel cancelled source n q = Some (res, q') ->
  Forall P (heap q') /\ is_heap less (heap q') /\
  forall r, res = Some r -> P r /\ forall y, y ∈ heap q' -> less y r = false.
Proof.
  revert n q. induction fuel as [|fuel IH]; intros n q HP Hh; [done|]. cbn [popLoop].
  pose proof (popOnce_order cancelled source n q HP Hh) as Hp.
  destruct (popOnce cfg cancelled source n q) as [n' q1|r q1|].
  - destruct Hp. by apply IH.
  - intros [= <- <-]. destruct Hp as (H1 & H2 & H3 & H4). split_and!; [done|done|]. by intros r' [= <-].
  - intros [= <- <-]. by split_and!.
Qed.
End ordered.
End queue_facts.

(** ** Sequences of operations *)

Inductive QueueOp {Cache : Type} :=
| OpPush (cache : Cache) (r : Request)
| OpPop (cancelled : Request -> bool) (source : option FairnessPrioritySource)
| OpRequeue (r : Request)
| OpDrain (cancelled : Request -> bool)
| OpClose.
Arguments QueueOp Cache : clear implicits.

Section ops.
Context {Cache : Type} (Peek : Cache -> string -> option Z) (cfg : FairnessQueueConfig).
Implicit Types q : RequestPriorityQueue.

Definition queueStep (op : QueueOp Cache) q : option RequestPriorityQueue :=
  match op with
  | OpPush cache r => Some (PushRequest Peek cfg cache r q).2
  | OpPop cancelled source => snd <$> popWhenAvailable cfg cancelled source q
  | OpRequeue r => Some (requeueRequest cfg r q).2
  | OpDrain cancelled => Some (drainCancelledLocked cfg cancelled q).2
  | OpClose => Some (Close cfg q).2
  end.

Fixpoint queueRun (ops : list (QueueOp Cache)) q : option RequestPriorityQueue :=
  match ops with
  | [] => Some q
  | op :: ops => q ← queueStep op q; queueRun ops q
  end.

(** A request's cancellation does not depend on its priority. *)
Definition cancelled_ok (cancelled : Request -> bool) : Prop :=
  forall r p, cancelled (set_Priority r p) = cancelled r.

Definition op_ok (P : Request -> Prop) (op : QueueOp Cache) : Prop :=
  match op with
  | OpPush _ r | OpRequeue r => P r
  | OpPop cancelled _ | OpDrain cancelled => cancelled_ok cancelled
  | OpClose => True
  end.

Lemma PushRequest_cases cache r q : exists r',
  (PushRequest Peek cfg cache r q).2 = q \/
  (PushRequest Peek cfg cache r q).2 =
    signal (metricIncSize cfg r' (set_heap q (Push (Less (SessionBoostEnabled cfg)) r' (heap q)))) /\
  (r' = r \/ exists t, SessionBoostEnabled cfg = true /\ r' = boosted r t).
Proof.
  unfold PushRequest. destruct (stopped q); [exists r; by left|].
  destruct (SessionBoostEnabled cfg && bool_decide (SessionID r <> "")) eqn:E;
    [|exists r; right; split; [done|by left]].
  destruct (CompletionTime Peek cache (SessionID r)) as [t|]; [|exists r; right; split; [done|by left]].
  apply andb_true_iff in E as [E _]. exists (boosted r t). right. split; [done|]. right. eauto.
Qed.

Lemma drain_facts cancelled q : gauge_ok cfg q ->
  gauge_ok cfg (drainCancelledLocked cfg cancelled q).2 /\
  ((drainCancelledLocked cfg cancelled q).2 = q \/
   heap (drainCancelledLocked cfg cancelled q).2 =
     Init (Less (SessionBoostEnabled cfg)) (filter (fun r => cancelled r = false) (heap q))).
Proof.
  intros Hg. unfold drainCancelledLocked. destruct (_ =? 0); [by split; [|left]|]. simpl.
  split; [|by right]. intros k. simpl. rewrite Init_perm.
  assert (Hfold : forall l g, default 0 (fold_left (fun g r => if cancelled r then gaugeAdd cfg r (-1) g else g) l g !! k)
    = default 0 (g !! k) - count_key cfg k l + count_key cfg k (filter (fun r => cancelled r = false) l)).
  { induction l as [|r l IH]; intros g; [unfold count_key; simpl; lia|]. cbn [fold_left].
    rewrite IH, count_key_cons. destruct (cancelled r) eqn:E.
    - rewrite filter_cons_False by congruence. rewrite gaugeAdd_lookup. case_decide; lia.
    - rewrite filter_cons_True by done. rewrite count_key_cons. lia. }
  rewrite Hfold, Hg. lia.
Qed.

Lemma close_facts q : gauge_ok cfg q ->
  gauge_ok cfg (Close cfg q).2 /\ ((Close cfg q).2 = q \/ heap (Close cfg q).2 = []).
Proof.
  intros Hg. unfold Close. destruct (stopped q); [by split; [|left]|]. simpl. split; [|by right].
  intros k. simpl.
  assert (Hfold : forall l g, default 0 (fold_left (fun g r => gaugeAdd cfg r (-1) g) l g !! k)
    = default 0 (g !! k) - count_key cfg k l).
  { induction l as [|r l IH]; intros g; [unfold count_key; simpl; lia|]. cbn [fold_left].
    rewrite IH, count_key_cons, gaugeAdd_lookup. case_decide; lia. }
  change (count_key cfg k []) with 0. rewrite Hfold, Hg. lia.
Qed.

Lemma popWhenAvailable_facts cancelled source q : gauge_ok cfg q -> cancelled_ok cancelled ->
  exists res q' dropped, popWhenAvailable cfg cancelled source q = Some (res, q') /\
    gauge_ok cfg q' /\ stopped q' = stopped q /\ Forall (fun r => cancelled r = true) dropped /\
    erase <$> heap q ≡ₚ (erase <$> option_list res) ++ (erase <$> dropped) ++ (erase <$> heap q') /\
    match res with
    | Some r => cancelled r = false
    | None => heap q' = []
    end.
Proof.
  intros Hg Hc. apply popLoop_facts; [done|done|]. unfold measure.
  pose proof (stale_count_le cfg source (heap q)). lia.
Qed.

Lemma queueStep_gauge op q : gauge_ok cfg q -> op_ok (fun _ => True) op ->
  exists q', queueStep op q = Some q' /\ gauge_ok cfg q'.
Proof.
  intros Hg Hop. destruct op as [cache r|cancelled source|r|cancelled|]; simpl in *.
  - eexists. split; [done|]. destruct (PushRequest_cases cache r q) as (r' & [->|[-> _]]); [done|].
    by apply (gauge_push cfg r' q), Push_perm.
  - destruct (popWhenAvailable_facts cancelled source q Hg Hop) as (res & q' & _ & -> & Hg' & _).
    by exists q'.
  - eexists. split; [done|]. unfold requeueRequest. destruct (stopped q); [done|].
    by apply (gauge_push cfg r q), Push_perm.
  - eexists. split; [done|]. by apply drain_facts.
  - eexists. split; [done|]. by apply close_facts.
Qed.

Lemma queueStep_inv P `{!OrderedMode cfg P} op q : queue_inv cfg P q -> op_ok P op ->
  exists q', queueStep op q = Some q' /\ queue_inv cfg P q'.
Proof.
  intros (HP & Hh & Hg) Hop.
  assert (Hop' : op_ok (fun _ => True) op) by by destruct op.
  destruct (queueStep_gauge op q Hg Hop') as (q' & Es & Hg'). exists q'. split; [done|].
  cut (Forall P (heap q') /\ is_heap (Less (SessionBoostEnabled cfg)) (heap q')).
  { intros [H1 H2]. exact (conj H1 (conj H2 Hg')). }
  destruct op as [cache r|cancelled source|r|cancelled|]; simpl in *; simplify_eq.
  - destruct (PushRequest_cases cache r q) as (r' & [->|[-> Hr']]); [done|]. simpl.
    apply (mode_push cfg P); [done| |done]. destruct Hr' as [->|(t & E & ->)]; [done|by apply om_boost].
  - destruct (popWhenAvailable cfg cancelled source q) as [[res q1]|] eqn:Ep; simplify_eq/=.
    by destruct (popLoop_order cfg P _ _ _ _ _ _ _ HP Hh Ep) as (? & ? & _).
  - unfold requeueRequest. destruct (stopped q); [done|]. simpl. by apply (mode_push cfg P).
  - destruct (drain_facts cancelled q Hg) as [_ [->| ->]]; [done|]. apply (mode_init cfg P).
    rewrite Forall_forall in HP |- *. intros x [_ Hx]%list_elem_of_filter. by apply HP.
  - destruct (close_facts q Hg) as [_ [->| ->]]; [done|]. split; [constructor|].
    intros k Hk. simpl in Hk. lia.
Qed.

Lemma queueRun_inv P `{!OrderedMode cfg P} ops q : queue_inv cfg P q -> Forall (op_ok P) ops ->
  exists q', queueRun ops q = Some q' /\ queue_inv cfg P q'.
Proof.
  revert q. induction ops as [|op ops IH]; intros q Hq Hops; [by exists q|].
  apply Forall_cons in Hops as [Hop Hops]. destruct (queueStep_inv P op q Hq Hop) as (q1 & Es & Hq1).
  cbn [queueRun]. rewrite Es. simpl. by apply IH.
Qed.

Lemma queueRun_gauge ops q : gauge_ok cfg q -> Forall (op_ok (fun _ => True)) ops ->
  exists q', queueRun ops q = Some q' /\ gauge_ok cfg q'.
Proof.
  revert q. induction ops as [|op ops IH]; intros q Hq Hops; [by exists q|].
  apply Forall_cons in Hops as [Hop Hops]. destruct (queueStep_gauge op q Hq Hop) as (q1 & Es & Hq1).
  cbn [queueRun]. rewrite Es. simpl. by apply IH.
Qed.

Lemma new_queue_inv P : queue_inv cfg P NewRequestPriorityQueue.
Proof.
  split_and!; [constructor| |]; [intros k Hk; simpl in Hk; lia|].
  intros k. simpl. by rewrite lookup_empty.
Qed.

(** After any operations, what a pop answers in a mode with an order. *)
Lemma run_pop_order P `{!OrderedMode cfg P} ops cancelled source :
  Forall (op_ok P) ops -> cancelled_ok cancelled ->
  exists q res q', queueRun ops NewRequestPriorityQueue = Some q /\
    popWhenAvailable cfg cancelled source q = Some (res, q') /\
    match res with
    | Some r => cancelled r = false /\ P r /\ Forall P (heap q') /\
        forall y, y ∈ heap q' -> Less (SessionBoostEnabled cfg) y r = false
    | None => heap q' = []
    end.
Proof.
  intros Hops Hc. destruct (queueRun_inv P ops NewRequestPriorityQueue (new_queue_inv P) Hops)
    as (q & Hrun & HP & Hh & Hg).
  destruct (popWhenAvailable_facts cancelled source q Hg Hc)
    as (res & q' & _ & Hpop & _ & _ & _ & _ & Hres).
  exists q, res, q'. split; [done|]. split; [done|].
  destruct (popLoop_order cfg P _ _ _ _ _ _ _ HP Hh Hpop) as (HP' & _ & Hmin).
  destruct res as [r|]; [|done]. destruct (Hmin r eq_refl). by split_and!.
Qed.
End ops.

(** C35: in session-boost mode, after any sequence of pushes, pops, requeues,
    drains and closes, with any priorities, refreshes and rebuilds, a pop
    terminates; it answers nothing only when the queue is left empty, and
    otherwise a live request that no queued request outranks: boosted requests
    first, the most recently completed session first among them, and by
    arrival among equals. *)
Theorem session_pop_order {Cache} (Peek : Cache -> string -> option Z) cfg
    (ops : list (QueueOp Cache)) cancelled source :
  SessionBoostEnabled cfg = true -> Forall (op_ok (fun _ => True)) ops -> cancelled_ok cancelled ->
  exists q res q', queueRun Peek cfg ops NewRequestPriorityQueue = Some q /\
    popWhenAvailable cfg cancelled source q = Some (res, q') /\
    match res with
    | None => heap q' = []
    | Some r => cancelled r = false /\ forall y, y ∈ heap q' ->
        (SessionBoost y = true -> SessionBoost r = true) /\
        (SessionBoost y = SessionBoost r ->
           (SessionBoost r = true -> LastTurnCompletedAt y <= LastTurnCompletedAt r) /\
           (SessionBoost r = false \/ LastTurnCompletedAt y = LastTurnCompletedAt r ->
              RequestTime r <= RequestTime y))
    end.
Proof.
  intros Hs Hops Hc. pose proof (session_ordered cfg Hs) as Hmode.
  destruct (run_pop_order Peek cfg (fun _ => True) ops cancelled source Hops Hc)
    as (q & res & q' & H1 & H2 & H3).
  exists q, res, q'. split; [done|]. split; [done|]. destruct res as [r|]; [|done].
  destruct H3 as (Hcr & _ & _ & Hmin). split; [done|]. intros y Hy. specialize (Hmin y Hy).
  rewrite Hs in Hmin. clear -Hmin. revert Hmin. unfold Less.
  destruct (SessionBoost y), (SessionBoost r); simpl; repeat case_bool; simpl in *; intros;
    split_and!; intros; try done; lia || (destruct H; [done|lia]).
Qed.

(** A cache without completed sessions, or with the given one. *)
Definition example_peek (cache : option (string * Z)) (sessionID : string) : option Z :=
  '(s, t) ← cache; if decide (s = sessionID) then Some t else None.

Definition example_request (user session : string) (priority arrival : Z) : Request :=
  MkRequest user "llama" session (f_of_Z priority) false 0 arrival.

Definition session_config : FairnessQueueConfig :=
  MkQueueConfig 0 100 0 64 f_one f_zero true 4096 0 16.

(** A first turn, then a follow-up of a completed session: the follow-up goes
    first. *)
Lemma session_pop_order_witness :
  exists q r q',
    queueRun example_peek session_config
      [OpPush None (example_request "a" "s1" 0 10);
       OpPush (Some ("s2", 15)) (example_request "b" "s2" 0 20)] NewRequestPriorityQueue = Some q /\
    popWhenAvailable session_config (fun _ => false) None q = Some (Some r, q') /\
    SessionBoost r = true.
Proof.
  destruct (session_pop_order example_peek session_config
    [OpPush None (example_request "a" "s1" 0 10);
     OpPush (Some ("s2", 15)) (example_request "b" "s2" 0 20)] (fun _ => false) None)
    as (q & res & q' & H1 & H2 & H3); [done|by repeat constructor|done|].
  assert (E : queueRun example_peek session_config
      [OpPush None (example_request "a" "s1" 0 10);
       OpPush (Some ("s2", 15)) (example_request "b" "s2" 0 20)] NewRequestPriorityQueue =
    Some (MkQueue false true [boosted (example_request "b" "s2" 0 20) 15; example_request "a" "s1" 0 10]
            (<[("llama", "") := 2]> ∅))) by (vm_compute; reflexivity).
  rewrite E in H1. injection H1 as <-. exists (MkQueue false true
    [boosted (example_request "b" "s2" 0 20) 15; example_request "a" "s1" 0 10]
    (<[("llama", "") := 2]> ∅)).
  assert (E2 : fst <$> popWhenAvailable session_config (fun _ => false) None (MkQueue false true
    [boosted (example_request "b" "s2" 0 20) 15; example_request "a" "s1" 0 10]
    (<[("llama", "") := 2]> ∅)) = Some (Some (boosted (example_request "b" "s2" 0 20) 15)))
    by (vm_compute; reflexivity).
  rewrite H2 in E2. simpl in E2. injection E2 as ->. eexists _, q'. split; [exact E|].
  split; [exact H2|]. reflexivity.
Defined.

(** In fairness mode, without priority refresh and while the requests of
    a user carry one priority, a pop answers a live request of a user no queued
    user precedes, the earliest of that user's, and of equally placed users
    the earliest request. *)
Theorem fairness_pop_order {Cache} (Peek : Cache -> string -> option Z) cfg (pri : string -> float64)
    (ops : list (QueueOp Cache)) cancelled source :
  SessionBoostEnabled cfg = false -> MaxPriorityRefreshRetries cfg <= 0 ->
  Forall (op_ok (user_priority pri)) ops -> cancelled_ok cancelled ->
  exists q res q', queueRun Peek cfg ops NewRequestPriorityQueue = Some q /\
    popWhenAvailable cfg cancelled source q = Some (res, q') /\
    match res with
    | None => heap q' = []
    | Some r => cancelled r = false /\ forall y, y ∈ heap q' ->
        f_lt (pri (UserID y)) (pri (UserID r)) = false /\
        (UserID y = UserID r \/ f_lt (pri (UserID r)) (pri (UserID y)) = false ->
           RequestTime r <= RequestTime y)
    end.
Proof.
  intros Hs Hm Hops Hc. pose proof (fairness_ordered cfg pri Hs Hm) as Hmode.
  destruct (run_pop_order Peek cfg (user_priority pri) ops cancelled source Hops Hc)
    as (q & res & q' & H1 & H2 & H3).
  exists q, res, q'. split; [done|]. split; [done|]. destruct res as [r|]; [|done].
  destruct H3 as (Hcr & Hr & HP & Hmin). split; [done|]. intros y Hy. specialize (Hmin y Hy).
  rewrite Forall_forall in HP. specialize (HP y Hy).
  rewrite Hs, (Less_user pri) in Hmin by done. destruct Hr as [Er Nr], HP as [Ey Ny].
  rewrite <- Er, <- Ey. apply orb_false_iff in Hmin as [Hlt Hor]. split; [done|].
  intros Hcase. destruct (f_lt (Priority r) (Priority y)) eqn:E; simpl in Hor; [|lia].
  destruct Hcase as [Heq|?]; [|done]. exfalso.
  assert (Priority y = Priority r) as Eq by congruence. rewrite Eq, f_lt_irrefl in E. done.
Qed.

Definition fairness_config : FairnessQueueConfig := DefaultFairnessQueueConfig.

Definition example_pri (user : string) : float64 := if decide (user = "heavy") then f_of_Z 900 else f_of_Z 5.

Lemma fairness_pop_order_witness :
  exists q r q',
    queueRun example_peek fairness_config
      [OpPush None (example_request "heavy" "" 900 10); OpPush None (example_request "light" "" 5 20)]
      NewRequestPriorityQueue = Some q /\
    popWhenAvailable fairness_config (fun _ => false) None q = Some (Some r, q') /\
    UserID r = "light".
Proof.
  destruct (fairness_pop_order example_peek fairness_config example_pri
    [OpPush None (example_request "heavy" "" 900 10); OpPush None (example_request "light" "" 5 20)]
    (fun _ => false) None) as (q & res & q' & H1 & H2 & H3); [done|done| |done|].
  { repeat constructor; vm_compute; reflexivity. }
  assert (E : queueRun example_peek fairness_config
      [OpPush None (example_request "heavy" "" 900 10); OpPush None (example_request "light" "" 5 20)]
      NewRequestPriorityQueue =
    Some (MkQueue false true [example_request "light" "" 5 20; example_request "heavy" "" 900 10]
            (<[("llama", "heavy") := 1]> (<[("llama", "light") := 1]> ∅)))) by (vm_compute; reflexivity).
  rewrite E in H1. injection H1 as <-. eexists.
  assert (E2 : fst <$> popWhenAvailable fairness_config (fun _ => false) None
    (MkQueue false true [example_request "light" "" 5 20; example_request "heavy" "" 900 10]
       (<[("llama", "heavy") := 1]> (<[("llama", "light") := 1]> ∅))) =
    Some (Some (example_request "light" "" 5 20))) by (vm_compute; reflexivity).
  rewrite H2 in E2. simpl in E2. injection E2 as ->. eexists _, q'. split; [exact E|].
  split; [exact H2|]. reflexivity.
Defined.

(** What identifies a request: its priority is refreshed while it is queued,
    and it may be boosted when it is pushed. *)
Definition who (r : Request) : string * string * string * Z := (UserID r, ModelName r, SessionID r, RequestTime r).

Lemma who_erase (l l' : list Request) : erase <$> l ≡ₚ erase <$> l' -> who <$> l ≡ₚ who <$> l'.
Proof.
  intros Hl. assert (E : forall l : list Request, who <$> l = who <$> (erase <$> l)) by (intros; by rewrite <- list_fmap_compose).
  by rewrite (E l), (E l'), Hl.
Qed.

(** What a call takes over and what it hands out. *)
Record QueueOutcome := MkOutcome { takenOver : list Request; answered : list Request; closedOut : list Request; drainedCount : Z }.

Section conservation.
Context {Cache : Type} (Peek : Cache -> string -> option Z) (cfg : FairnessQueueConfig).

Definition queueCall (op : QueueOp Cache) (q : RequestPriorityQueue) : option (QueueOutcome * RequestPriorityQueue) :=
  match op with
  | OpPush cache r => let '(ok, q) := PushRequest Peek cfg cache r q in Some (MkOutcome (if ok then [r] else []) [] [] 0, q)
  | OpPop cancelled source => '(res, q) ← popWhenAvailable cfg cancelled source q; Some (MkOutcome [] (option_list res) [] 0, q)
  | OpRequeue r => let '(refused, q) := requeueRequest cfg r q in Some (MkOutcome (if refused : bool then [] else [r]) [] [] 0, q)
  | OpDrain cancelled => let '(n, q) := drainCancelledLocked cfg cancelled q in Some (MkOutcome [] [] [] n, q)
  | OpClose => let '(l, q) := Close cfg q in Some (MkOutcome [] [] l 0, q)
  end.

Lemma queueCall_step op q : snd <$> queueCall op q = queueStep Peek cfg op q.
Proof.
  destruct op; simpl; try by repeat case_match. destruct (popWhenAvailable cfg cancelled source q) as [[]|]; done.
Qed.

(** One call on a queue [q]: what was queued and taken over is what is handed
    out, cancelled requests that are dropped, and what is still queued. *)
Record conserves (op : QueueOp Cache) (q : RequestPriorityQueue) (out : QueueOutcome) (q' : RequestPriorityQueue) (dropped : list Request) : Prop := {
  cs_requests : who <$> (takenOver out ++ heap q) ≡ₚ who <$> (answered out ++ closedOut out ++ dropped ++ heap q');
  cs_dropped : match op with
               | OpPop cancelled _ | OpDrain cancelled => Forall (fun r => cancelled r = true) dropped
               | _ => dropped = []
               end;
  cs_call : match op with
            | OpPush _ r | OpRequeue r => takenOver out = (if stopped q then [] else [r]) /\ answered out = [] /\ closedOut out = []
            | OpPop cancelled _ => takenOver out = [] /\ closedOut out = [] /\ (answered out = [] -> heap q' = []) /\
                                   Forall (fun r => cancelled r = false) (answered out) /\ (length (answered out) <= 1)%nat
            | OpDrain cancelled => takenOver out = [] /\ answered out = [] /\ closedOut out = [] /\
                                   Forall (fun r => cancelled r = false) (heap q') /\ drainedCount out = Z.of_nat (length dropped)
            | OpClose => takenOver out = [] /\ answered out = [] /\ heap q' = []
            end;
  cs_closed : stopped q' = match op with OpClose => true | _ => stopped q end
}.

Lemma cancelled_split (cancelled : Request -> bool) l : l ≡ₚ filter (fun r => cancelled r = true) l ++ filter (fun r => cancelled r = false) l.
Proof.
  induction l as [|r l IH]; [done|]. destruct (cancelled r) eqn:E.
  - rewrite filter_cons_True by done. rewrite (filter_cons_False (fun r => cancelled r = false)) by congruence. simpl. by rewrite <- IH.
  - rewrite (filter_cons_False (fun r => cancelled r = true)) by congruence. rewrite filter_cons_True by done.
    by rewrite <- Permutation_middle, <- IH.
Qed.

Lemma drain_conserves cancelled q : gauge_ok cfg q ->
  let '(n, q') := drainCancelledLocked cfg cancelled q in
  conserves (OpDrain cancelled) q (MkOutcome [] [] [] n) q' (filter (fun r => cancelled r = true) (heap q)).
Proof.
  intros Hg. unfold drainCancelledLocked. pose proof (cancelled_split cancelled (heap q)) as Hsplit.
  set (kept := filter (fun r => cancelled r = false) (heap q)) in *. set (gone := filter (fun r => cancelled r = true) (heap q)) in *.
  assert (Hkept : Forall (fun r => cancelled r = false) kept) by (apply Forall_forall; intros r Hr; by apply list_elem_of_filter in Hr as [Hr _]).
  assert (Hgone : Forall (fun r => cancelled r = true) gone) by (apply Forall_forall; intros r Hr; by apply list_elem_of_filter in Hr as [Hr _]).
  pose proof (Permutation_length Hsplit) as Hlen. rewrite length_app in Hlen.
  destruct (Z.eqb_spec (Z.of_nat (length (heap q)) - Z.of_nat (length kept)) 0) as [E|E].
  - assert (gone = []) as Hnil by (apply nil_length_inv; lia). rewrite Hnil in *. simpl in Hsplit.
    constructor; cbn [takenOver answered closedOut drainedCount app]; [done|done| |done]. split_and!; try done. by rewrite Hsplit.
  - constructor; cbn [takenOver answered closedOut drainedCount app heap stopped]; [|done| |done].
    + by rewrite fmap_app, Init_perm, Hsplit, fmap_app.
    + split_and!; [done|done|done|by rewrite Init_perm|lia].
Qed.

Lemma queueCall_conserves op q : gauge_ok cfg q -> op_ok (fun _ => True) op -> (stopped q = true -> heap q = []) ->
  exists out q' dropped, queueCall op q = Some (out, q') /\ gauge_ok cfg q' /\ conserves op q out q' dropped /\ (stopped q' = true -> heap q' = []).
Proof.
  intros Hg Hop Hclosed. pose proof (queueStep_gauge Peek cfg op q Hg Hop) as (q1 & Hstep & Hg1). rewrite <- queueCall_step in Hstep.
  destruct (queueCall op q) as [[out q2]|] eqn:E; [|done]. simpl in Hstep. injection Hstep as ->.
  cut (exists dropped, conserves op q out q1 dropped).
  { intros [dropped Hc]. exists out, q1, dropped. split_and!; [done|done|done|]. destruct Hc as [H1 H2 H3 H4]. intros Hs. rewrite H4 in Hs.
    destruct op; [| | | |apply H3]; destruct H3 as [H3 _]; rewrite ?Hs in H3; rewrite H3, (Hclosed Hs) in H1; symmetry in H1;
      apply Permutation_nil_r, fmap_nil_inv in H1; by repeat (apply app_nil in H1 as [_ H1]). }
  destruct op as [cache r|cancelled source|r|cancelled|]; cbn [queueCall] in E.
  - exists []. unfold PushRequest in E. destruct (stopped q) eqn:Es; [injection E as <- <-; constructor; rewrite ?Es; done|].
    set (r' := if _ && _ then _ else _) in E. assert (Hr : who r' = who r) by (unfold r'; repeat case_match; done). clearbody r'.
    injection E as <- <-. constructor; cbn [takenOver answered closedOut app heap signal metricIncSize set_heap stopped]; rewrite ?Es; try done.
    rewrite Push_perm, !fmap_cons. by rewrite Hr.
  - destruct (popWhenAvailable_facts cfg cancelled source q Hg Hop) as (res & q' & dropped & Ep & _ & Hs & Hd & Hperm & Hres).
    rewrite Ep in E. injection E as <- <-. exists dropped. constructor; cbn [takenOver answered closedOut app]; [|done| |done].
    + rewrite <- !fmap_app in Hperm. by apply who_erase.
    + destruct res as [r|]; simpl; split_and!; try done; [by constructor|lia].
  - exists []. unfold requeueRequest in E. destruct (stopped q) eqn:Es; [injection E as <- <-; constructor; rewrite ?Es; done|].
    injection E as <- <-. constructor; cbn [takenOver answered closedOut app heap signal metricIncSize set_heap stopped]; rewrite ?Es; try done.
    by rewrite Push_perm, !fmap_cons.
  - pose proof (drain_conserves cancelled q Hg) as Hdrain. destruct (drainCancelledLocked cfg cancelled q) as [n q'].
    injection E as <- <-. by eexists.
  - exists []. unfold Close in E. destruct (stopped q) eqn:Es; injection E as <- <-.
    + constructor; cbn [takenOver answered closedOut app]; rewrite ?Es; try done. by rewrite Hclosed.
    + constructor; cbn [takenOver answered closedOut app heap stopped]; rewrite ?Es, ?app_nil_r; done.
Qed.

Lemma queueRun_closed ops : forall q, gauge_ok cfg q -> Forall (op_ok (fun _ => True)) ops -> (stopped q = true -> heap q = []) ->
  exists q', queueRun Peek cfg ops q = Some q' /\ gauge_ok cfg q' /\ (stopped q' = true -> heap q' = []).
Proof.
  induction ops as [|op ops IH]; intros q Hg Hops Hc; [by exists q|]. apply Forall_cons in Hops as [Hop Hops].
  destruct (queueCall_conserves op q Hg Hop Hc) as (out & q1 & dropped & E & Hg1 & _ & Hc1). cbn [queueRun].
  rewrite <- queueCall_step, E. simpl. by apply IH.
Qed.

(** C30: no call loses or duplicates a request. Whatever the configuration, the
    priorities and the refreshes, any call after any sequence of calls ends,
    and the requests that were queued and the one it takes over are, one by
    one, those it answers, those it hands out for cancellation, cancelled ones
    that it drops, and those it leaves in the queue. A push or requeue takes its
    request over exactly while the queue is open; a pop answers at most one request,
    never a cancelled one, and none only when it leaves the queue empty; a
    drain leaves no cancelled request and counts what it dropped; a closed
    queue is and stays empty. The size gauge of every model and user counts the
    queued requests throughout. *)
Theorem queue_conserves ops op : Forall (op_ok (fun _ => True)) ops -> op_ok (fun _ => True) op ->
  exists q out q' dropped, queueRun Peek cfg ops NewRequestPriorityQueue = Some q /\ queueCall op q = Some (out, q') /\
    conserves op q out q' dropped /\ gauge_ok cfg q /\ gauge_ok cfg q' /\
    (stopped q = true -> heap q = []) /\ (stopped q' = true -> heap q' = []).
Proof.
  intros Hops Hop. destruct (queueRun_closed ops NewRequestPriorityQueue) as (q & Hrun & Hg & Hc);
    [by apply (new_queue_inv cfg (fun _ => True))|done|done|].
  destruct (queueCall_conserves op q Hg Hop Hc) as (out & q' & dropped & E & Hg' & Hcs & Hc'). by exists q, out, q', dropped.
Qed.
End conservation.

(** Of two queued requests one is cancelled when the next pop comes, and the
    priority of the other is refreshed. *)
Lemma queue_conserves_witness :
  exists q out q' dropped,
    queueRun example_peek fairness_config
      [OpPush None (example_request "a" "" 5 10); OpPush None (example_request "b" "" 3 20)]
      NewRequestPriorityQueue = Some q /\
    who <$> heap q ≡ₚ who <$> (answered out ++ closedOut out ++ dropped ++ heap q').
Proof.
  destruct (queue_conserves example_peek fairness_config
    [OpPush None (example_request "a" "" 5 10); OpPush None (example_request "b" "" 3 20)]
    (OpPop (fun r => bool_decide (UserID r = "b")) (Some (MkSource (fun _ _ => Some (f_of_Z 7)) (fun _ _ => Some 1)))))
    as (q & out & q' & dropped & H1 & _ & [H2 _ (H3 & _) _] & _); [by repeat constructor|done|].
  exists q, out, q', dropped. split; [exact H1|]. rewrite H3 in H2. exact H2.
Defined.

(** When a user's priority drops between two requests, [Less] has a cycle, and
    a pop answers the later request of the user before the earlier one. *)
Example same_user_fifo_violated :
  let a := example_request "u1" "" 5 1 in
  let b := example_request "u2" "" 3 2 in
  let c := example_request "u1" "" 1 3 in
  (Less false a c && Less false c b && Less false b a = true) /\
  fst <$> (q ← queueRun example_peek fairness_config [OpPush None a; OpPush None b; OpPush None c]
                 NewRequestPriorityQueue;
           popWhenAvailable fairness_config (fun _ => false) None q) = Some (Some c).
Proof. split; vm_compute; reflexivity. Qed.
