(* ===== verification/Admission.v ===== *)
(** * pkg/kthena-router/datastore/fairness_queue.go and session_boost_queue.go:
      admission

    The hand-over of a permit from the dequeue loop to the waiting caller
    (router.go), as a step relation: the loop and the callers interleave at
    the granularity of their critical sections ([admitMu], the channel
    operations, the atomic counter). Which request the loop pops is left open
    here (FairnessQueue.v has the order). [permits] is the number of tokens in
    [pq.sem], or [inflightCount] in session-boost mode. *)
From S2P Require Import Prelude Float64 FairnessQueue.
Local Open Scope Z_scope.

(** Where the caller of a request is: waiting in the [select], running
    (notified, with [Release] deferred), inside [Abandon] past its critical
    section with the permit to give back, or done. *)
Inductive CallerPc := CallerWaiting | CallerRunning | CallerMustRelease | CallerDone.

(** The shared part of a request. [releaseDone]: the [sync.Once] of its
    [Release] has fired. *)
Record Admission := MkAdmission {
  admitted : bool;
  abandoned : bool;
  releaseDone : bool;
  notifyClosed : bool;
  inQueue : bool;
  caller : CallerPc
}.

Definition newAdmission : Admission := MkAdmission false false false false true CallerWaiting.

(** [commitAdmission]: the request afterwards, and whether it was admitted. *)
Definition commitAdmission (r : Admission) : bool * Admission :=
  if abandoned r then (false, r)
  else (true, MkAdmission true (abandoned r) (releaseDone r) (notifyClosed r) (inQueue r) (caller r)).

(** The critical section of [Abandon]; [CallerMustRelease] when the call of
    [Release] is still to come. *)
Definition Abandon (r : Admission) : Admission :=
  if negb (admitted r)
  then MkAdmission (admitted r) true (releaseDone r) (notifyClosed r) (inQueue r) CallerDone
  else MkAdmission (admitted r) (abandoned r) (releaseDone r) (notifyClosed r) (inQueue r)
         CallerMustRelease.

(** [Release]: the permits it gives back, and the request afterwards. *)
Definition Release (r : Admission) : Z * Admission :=
  if releaseDone r then (0, r)
  else (1, MkAdmission (admitted r) (abandoned r) true (notifyClosed r) (inQueue r) (caller r)).

Definition set_caller (r : Admission) (c : CallerPc) : Admission :=
  MkAdmission (admitted r) (abandoned r) (releaseDone r) (notifyClosed r) (inQueue r) c.
Definition set_inQueue (r : Admission) (b : bool) : Admission :=
  MkAdmission (admitted r) (abandoned r) (releaseDone r) (notifyClosed r) b (caller r).
Definition closeNotify (r : Admission) : Admission :=
  MkAdmission (admitted r) (abandoned r) (releaseDone r) true (inQueue r) (caller r).

(** Where a dequeue loop is. [LoopHas]: a request is popped; [LoopPermit]: and
    a permit is acquired for it (semaphore mode); [LoopReturn]: admission was
    refused and the permit is to be given back; [LoopNotify]: admission is
    committed, [NotifyChan] is to be closed. In session-boost mode
    [LoopChecked n]: the inflight count was found below the limit [n]. *)
Inductive LoopPc :=
| LoopIdle
| LoopChecked (limit : Z)
| LoopHas (limit : Z) (id : nat)
| LoopPermit (id : nat)
| LoopReturn
| LoopNotify (limit : Z) (id : nat)
| LoopExit.

Record AdmState := MkAdm {
  permits : Z;
  loop : LoopPc;
  requests : gmap nat Admission
}.

Definition admInit : AdmState := MkAdm 0 LoopIdle ∅.

Definition upd (s : AdmState) (id : nat) (r : Admission) : gmap nat Admission := <[id := r]> (requests s).

(** The callers ([handleFairnessScheduling] in router.go), in either mode. *)
Inductive caller_step : AdmState -> AdmState -> Prop :=
| step_enqueue s id :
    requests s !! id = None ->
    caller_step s (MkAdm (permits s) (loop s) (upd s id newAdmission))
| step_notified s id r :
    requests s !! id = Some r -> caller r = CallerWaiting -> notifyClosed r = true ->
    caller_step s (MkAdm (permits s) (loop s) (upd s id (set_caller r CallerRunning)))
| step_abandon s id r :
    requests s !! id = Some r -> caller r = CallerWaiting ->
    caller_step s (MkAdm (permits s) (loop s) (upd s id (Abandon r)))
| step_release s id r n r' :
    requests s !! id = Some r -> caller r = CallerRunning \/ caller r = CallerMustRelease ->
    Release r = (n, r') ->
    caller_step s (MkAdm (permits s - n) (loop s) (upd s id (set_caller r' CallerDone))).

(** [runSemaphoreMode]. *)
Inductive runSemaphoreMode (maxConcurrent : Z) : AdmState -> AdmState -> Prop :=
| sem_pop s id r :
    loop s = LoopIdle -> requests s !! id = Some r -> inQueue r = true ->
    runSemaphoreMode maxConcurrent s (MkAdm (permits s) (LoopHas maxConcurrent id) (upd s id (set_inQueue r false)))
| sem_drop s id limit :
    loop s = LoopHas limit id ->
    runSemaphoreMode maxConcurrent s (MkAdm (permits s) LoopIdle (requests s))
| sem_requeue s id limit r pushed :
    loop s = LoopHas limit id -> requests s !! id = Some r ->
    runSemaphoreMode maxConcurrent s (MkAdm (permits s) LoopExit (upd s id (set_inQueue r pushed)))
| sem_acquire s id limit :
    loop s = LoopHas limit id -> permits s < maxConcurrent ->
    runSemaphoreMode maxConcurrent s (MkAdm (permits s + 1) (LoopPermit id) (requests s))
| sem_commit s id r ok r' :
    loop s = LoopPermit id -> requests s !! id = Some r -> commitAdmission r = (ok, r') ->
    runSemaphoreMode maxConcurrent s
      (MkAdm (permits s) (if ok : bool then LoopNotify maxConcurrent id else LoopReturn) (upd s id r'))
| sem_return s :
    loop s = LoopReturn ->
    runSemaphoreMode maxConcurrent s (MkAdm (permits s - 1) LoopIdle (requests s))
| sem_notify s id limit r :
    loop s = LoopNotify limit id -> requests s !! id = Some r ->
    runSemaphoreMode maxConcurrent s (MkAdm (permits s) LoopIdle (upd s id (closeNotify r)))
| sem_exit s :
    loop s = LoopIdle -> runSemaphoreMode maxConcurrent s (MkAdm (permits s) LoopExit (requests s)).

(** The inflight limit of a pass of [tryBackpressureDequeue]: [podCount] is
    what the pod counter answers, if there is one. *)
Definition maxInflight (cfg : FairnessQueueConfig) (podCount : option Z) : Z :=
  let perPod := if InflightPerPod cfg <=? 0 then defaultSessionBoostInflightPerPod
                else InflightPerPod cfg in
  match podCount with
  | Some podCount => if 0 <? podCount then int64 (podCount * perPod) else perPod
  | None => perPod
  end.

(** [tryBackpressureDequeue] and [admitSessionBoost]: a pass starts with the
    limit of the moment and goes round until it finds no capacity or no
    request. [seen]: the pod counts that can be observed. *)
Inductive tryBackpressureDequeue (cfg : FairnessQueueConfig) (seen : option Z -> Prop) :
    AdmState -> AdmState -> Prop :=
| bp_start s podCount :
    loop s = LoopIdle -> seen podCount -> permits s < maxInflight cfg podCount ->
    tryBackpressureDequeue cfg seen s (MkAdm (permits s) (LoopChecked (maxInflight cfg podCount)) (requests s))
| bp_stop s limit :
    loop s = LoopChecked limit -> tryBackpressureDequeue cfg seen s (MkAdm (permits s) LoopIdle (requests s))
| bp_pop s limit id r :
    loop s = LoopChecked limit -> requests s !! id = Some r -> inQueue r = true ->
    tryBackpressureDequeue cfg seen s
      (MkAdm (permits s) (LoopHas limit id) (upd s id (set_inQueue r false)))
| bp_skip s limit id r :
    loop s = LoopHas limit id -> requests s !! id = Some r -> (commitAdmission r).1 = false ->
    tryBackpressureDequeue cfg seen s
      (MkAdm (permits s) (if permits s <? limit then LoopChecked limit else LoopIdle) (requests s))
| bp_admit s limit id r r' :
    loop s = LoopHas limit id -> requests s !! id = Some r -> commitAdmission r = (true, r') ->
    tryBackpressureDequeue cfg seen s (MkAdm (permits s + 1) (LoopNotify limit id) (upd s id r'))
| bp_notify s limit id r :
    loop s = LoopNotify limit id -> requests s !! id = Some r ->
    tryBackpressureDequeue cfg seen s
      (MkAdm (permits s) (if permits s <? limit then LoopChecked limit else LoopIdle)
         (upd s id (closeNotify r)))
| bp_exit s :
    loop s = LoopIdle -> tryBackpressureDequeue cfg seen s (MkAdm (permits s) LoopExit (requests s)).

(** ** Invariants *)

(** The permit a request holds. *)
Definition held (r : Admission) : Z := if admitted r && negb (releaseDone r) then 1 else 0.

Definition heldTotal (m : gmap nat Admission) : Z := sumZ ((fun p => held p.2) <$> map_to_list m).

(** The permit the loop holds itself. *)
Definition loopHeld (l : LoopPc) : Z :=
  match l with LoopPermit _ | LoopReturn => 1 | _ => 0 end.

Lemma heldTotal_insert_new m id r : m !! id = None -> heldTotal (<[id := r]> m) = held r + heldTotal m.
Proof. intros Hm. unfold heldTotal. by rewrite map_to_list_insert. Qed.

Lemma heldTotal_insert m id r r' :
  m !! id = Some r -> heldTotal (<[id := r']> m) = heldTotal m - held r + held r'.
Proof.
  intros Hm. rewrite <- (insert_delete_id m id r) at 2 by done.
  rewrite <- insert_delete_eq. rewrite !heldTotal_insert_new by apply lookup_delete_eq. lia.
Qed.

Lemma heldTotal_zero m : (forall id r, m !! id = Some r -> held r = 0) -> heldTotal m = 0.
Proof.
  intros Hm. unfold heldTotal. rewrite (sumZ_fmap_ext _ (fun _ => 0)).
  - generalize (map_to_list m). intros l. induction l; csimpl; lia.
  - intros [id r] Hin%elem_of_map_to_list. by eapply Hm.
Qed.

Lemma heldTotal_nonneg m : 0 <= heldTotal m.
Proof.
  apply sumZ_fmap_nonneg. intros [id r] _. unfold held. simpl. by destruct (_ && _).
Qed.

(** A request is never both admitted and abandoned, is released at most once,
    by its caller, and a caller that is done holds nothing. *)
Definition admission_ok (r : Admission) : Prop :=
  (admitted r = true -> abandoned r = false /\ inQueue r = false) /\
  (notifyClosed r = true -> admitted r = true) /\
  match caller r with
  | CallerWaiting => abandoned r = false /\ releaseDone r = false
  | CallerRunning | CallerMustRelease => admitted r = true /\ releaseDone r = false
  | CallerDone => releaseDone r = admitted r /\ abandoned r = negb (admitted r)
  end.

Definition loop_ok (s : AdmState) : Prop :=
  match loop s with
  | LoopHas _ id | LoopPermit id =>
    exists r, requests s !! id = Some r /\ inQueue r = false /\ admitted r = false
  | LoopNotify _ id => exists r, requests s !! id = Some r /\ admitted r = true
  | _ => True
  end.

Definition adm_inv (s : AdmState) : Prop :=
  (forall id r, requests s !! id = Some r -> admission_ok r) /\ loop_ok s /\
  permits s = heldTotal (requests s) + loopHeld (loop s).

Lemma adm_inv_init : adm_inv admInit.
Proof.
  split_and!; [|done|done]. intros id r. simpl. by rewrite lookup_empty.
Qed.

Lemma admissions_insert (m : gmap nat Admission) id r :
  (forall i x, m !! i = Some x -> admission_ok x) -> admission_ok r ->
  forall i x, <[id := r]> m !! i = Some x -> admission_ok x.
Proof. intros Hm Hr i x. rewrite lookup_insert. case_decide; [congruence|apply Hm]. Qed.

(** A step of a caller leaves what the loop relies on: a request neither
    leaves the map, nor is put back in the queue, nor changes [admitted]. *)
Lemma loop_ok_upd s id r r' p :
  loop_ok s -> requests s !! id = Some r -> inQueue r' = inQueue r -> admitted r' = admitted r ->
  loop_ok (MkAdm p (loop s) (upd s id r')).
Proof.
  unfold loop_ok, upd. simpl. intros Hl Hr E1 E2.
  assert (Hx : forall i x, requests s !! i = Some x -> exists x', <[id := r']> (requests s) !! i = Some x' /\
    inQueue x' = inQueue x /\ admitted x' = admitted x).
  { intros i x Hi. rewrite lookup_insert. case_decide; simplify_eq; eauto. }
  destruct (loop s) as [|?|? i|i| |? i|]; try done.
  - destruct Hl as (x & Hi & ? & ?). destruct (Hx i x Hi) as (x' & ? & ? & ?). exists x'. by split_and!; try congruence.
  - destruct Hl as (x & Hi & ? & ?). destruct (Hx i x Hi) as (x' & ? & ? & ?). exists x'. by split_and!; try congruence.
  - destruct Hl as (x & Hi & ?). destruct (Hx i x Hi) as (x' & ? & ? & ?). exists x'. by split_and!; try congruence.
Qed.

Lemma loop_ok_new s id p : loop_ok s -> requests s !! id = None ->
  loop_ok (MkAdm p (loop s) (upd s id newAdmission)).
Proof.
  unfold loop_ok, upd. simpl. intros Hl Hid.
  assert (Hx : forall i x, requests s !! i = Some x -> <[id := newAdmission]> (requests s) !! i = Some x)
    by (intros i x Hi; rewrite lookup_insert_ne; congruence).
  destruct (loop s); try done; destruct Hl as (x & Hi & Hl); exists x; auto.
Qed.

Lemma caller_step_inv s s' : caller_step s s' -> adm_inv s -> adm_inv s'.
Proof.
  intros Hstep (Hreq & Hloop & Hp). destruct Hstep as [s id Hid|s id r Hr Hc Hn|s id r Hr Hc|s id r n r' Hr Hc Hrel].
  - split_and!; [by apply admissions_insert|by apply loop_ok_new|]. simpl.
    unfold upd. rewrite heldTotal_insert_new by done. rewrite Hp. done.
  - pose proof (Hreq id r Hr) as (H1 & H2 & H3). rewrite Hc in H3.
    split_and!; [apply admissions_insert; [done|]|by eapply loop_ok_upd|].
    + split_and!; [apply H1|apply H2|]. simpl. split; [by apply H2|apply H3].
    + simpl. unfold upd. rewrite (heldTotal_insert _ _ r) by done. unfold held. simpl. lia.
  - pose proof (Hreq id r Hr) as (H1 & H2 & H3). rewrite Hc in H3.
    split_and!; [apply admissions_insert; [done|]|eapply loop_ok_upd; [done|done|..]|].
    + unfold Abandon, admission_ok. destruct (admitted r) eqn:E; simpl; rewrite ?E; naive_solver.
    + unfold Abandon. by destruct (negb _).
    + unfold Abandon. by destruct (negb _).
    + simpl. unfold upd. rewrite (heldTotal_insert _ _ r) by done.
      unfold held, Abandon. destruct (admitted r) eqn:E; simpl; rewrite ?E; simpl; lia.
  - pose proof (Hreq id r Hr) as (H1 & H2 & H3).
    assert (admitted r = true /\ releaseDone r = false) as [Ea Ed]
      by (destruct Hc as [Hc|Hc]; by rewrite Hc in H3).
    unfold Release in Hrel. rewrite Ed in Hrel. injection Hrel as <- <-.
    destruct (H1 Ea) as [Eab Eq].
    split_and!; [apply admissions_insert; [done|]|by eapply loop_ok_upd|].
    + split_and!; simpl; [done|done|by rewrite Ea].
    + simpl. unfold upd. rewrite (heldTotal_insert _ _ r) by done.
      unfold held. simpl. rewrite Ea, Ed. simpl. lia.
Qed.

Lemma admission_ok_pop r : admission_ok r -> admission_ok (set_inQueue r false).
Proof. intros (H1 & H2 & H3). split_and!; [|done|done]. simpl. intros Ha. by destruct (H1 Ha). Qed.

Lemma admission_ok_commit r r' :
  admission_ok r -> inQueue r = false -> admitted r = false -> commitAdmission r = (true, r') ->
  admission_ok r' /\ admitted r' = true /\ held r' = held r + 1.
Proof.
  intros (H1 & H2 & H3) Eq Ea. unfold commitAdmission. destruct (abandoned r) eqn:Eb; [done|].
  intros [= <-]. unfold admission_ok, held. simpl. rewrite Ea in *. simpl. split_and!; try done.
  all: destruct (caller r); destruct H3 as [E1 E2]; simpl in *; rewrite ?E1, ?E2 in *; done || congruence.
Qed.

Lemma admission_ok_notify r : admission_ok r -> admitted r = true -> admission_ok (closeNotify r).
Proof. intros (H1 & H2 & H3) Ea. by split_and!. Qed.

Lemma inv_upd_loop s id r r' l d :
  adm_inv s -> requests s !! id = Some r -> admission_ok r' ->
  loop_ok (MkAdm (permits s + d) l (upd s id r')) ->
  loopHeld (loop s) + held r + d = loopHeld l + held r' ->
  adm_inv (MkAdm (permits s + d) l (upd s id r')).
Proof.
  intros (Hreq & _ & Hp) Hr Hok Hl Hd. split_and!; [by apply admissions_insert|done|].
  simpl. unfold upd. rewrite (heldTotal_insert _ _ r) by done. lia.
Qed.

Lemma inv_loop s l d :
  adm_inv s -> loop_ok (MkAdm (permits s + d) l (requests s)) ->
  loopHeld (loop s) + d = loopHeld l -> adm_inv (MkAdm (permits s + d) l (requests s)).
Proof. intros (Hreq & _ & Hp) Hl Hd. split_and!; [done|done|]. simpl. lia. Qed.

Lemma inv_eq_permits p p' l m : p = p' -> adm_inv (MkAdm p l m) -> adm_inv (MkAdm p' l m).
Proof. by intros ->. Qed.

Lemma pop_inv s id r limit :
  adm_inv s -> loopHeld (loop s) = 0 -> requests s !! id = Some r -> inQueue r = true ->
  adm_inv (MkAdm (permits s) (LoopHas limit id) (upd s id (set_inQueue r false))).
Proof.
  intros Hinv Hz Hr Hq. pose proof (proj1 Hinv id r Hr) as Hok.
  apply (inv_eq_permits (permits s + 0)); [lia|]. eapply inv_upd_loop; [done|done|by apply admission_ok_pop| |].
  - exists (set_inQueue r false). split; [apply lookup_insert_eq|]. split; [done|]. simpl.
    destruct (admitted r) eqn:Ea; [|done]. destruct Hok as (H1 & _). destruct (H1 Ea). congruence.
  - unfold held. simpl. lia.
Qed.

Lemma commit_inv s id r r' limit d :
  adm_inv s -> (exists l, loop s = LoopHas l id) \/ loop s = LoopPermit id ->
  requests s !! id = Some r -> commitAdmission r = (true, r') ->
  loopHeld (loop s) + d = 1 ->
  adm_inv (MkAdm (permits s + d) (LoopNotify limit id) (upd s id r')).
Proof.
  intros Hinv Hl Hr Hc Hd. pose proof Hinv as (Hreq & Hloop & _).
  assert (inQueue r = false /\ admitted r = false) as [Eq Ea].
  { unfold loop_ok in Hloop. destruct Hl as [[l El]|El]; rewrite El in Hloop;
      destruct Hloop as (x & Hx & ? & ?); by simplify_eq. }
  destruct (admission_ok_commit r r' (Hreq id r Hr) Eq Ea Hc) as (Hok & Ha & Hh).
  eapply inv_upd_loop; [done|done|done| |simpl; lia].
  exists r'. split; [apply lookup_insert_eq|done].
Qed.

Lemma commit_refused r r' : commitAdmission r = (false, r') -> r' = r.
Proof. unfold commitAdmission. by destruct (abandoned r); intros [= <-]. Qed.

Lemma notify_inv s id r limit l :
  adm_inv s -> loop s = LoopNotify limit id -> requests s !! id = Some r -> loopHeld l = 0 ->
  match l with LoopIdle | LoopChecked _ => True | _ => False end ->
  adm_inv (MkAdm (permits s) l (upd s id (closeNotify r))).
Proof.
  intros Hinv El Hr Hz Hk. pose proof Hinv as (Hreq & Hloop & _).
  unfold loop_ok in Hloop. rewrite El in Hloop. destruct Hloop as (x & Hx & Ha). simplify_eq.
  apply (inv_eq_permits (permits s + 0)); [lia|].
  eapply inv_upd_loop; [done|done|apply admission_ok_notify; [by apply (Hreq id)|done]| |].
  - unfold loop_ok. simpl. by destruct l.
  - rewrite El. unfold held. simpl. lia.
Qed.

Lemma idle_inv s l :
  adm_inv s -> loopHeld (loop s) = 0 ->
  match l with LoopIdle | LoopChecked _ | LoopExit => True | _ => False end ->
  adm_inv (MkAdm (permits s) l (requests s)).
Proof.
  intros Hinv Hz Hk. apply (inv_eq_permits (permits s + 0)); [lia|].
  apply inv_loop; [done|unfold loop_ok; simpl; by destruct l|destruct l; simpl; done || lia].
Qed.

Lemma runSemaphoreMode_inv m s s' : runSemaphoreMode m s s' -> adm_inv s -> adm_inv s'.
Proof.
  intros Hstep Hinv. destruct Hstep as [s id r El Hr Hq|s id l El|s id l r b El Hr|s id l El Hm
    |s id r ok r' El Hr Hc|s El|s id l r El Hr|s El].
  - apply (pop_inv s id r); [done|by rewrite El|done|done].
  - apply idle_inv; [done|by rewrite El|done].
  - apply (inv_eq_permits (permits s + 0)); [lia|].
    pose proof Hinv as (Hreq & Hloop & _). unfold loop_ok in Hloop. rewrite El in Hloop.
    destruct Hloop as (x & Hx & Hq & Ha). simplify_eq.
    eapply inv_upd_loop; [done|done| |done|rewrite El; unfold held; simpl; lia].
    destruct (Hreq id r Hr) as (H1 & H2 & H3). split_and!; [|done|done]. simpl. congruence.
  - apply inv_loop; [done| |by rewrite El].
    pose proof Hinv as (_ & Hloop & _). unfold loop_ok in *. by rewrite El in Hloop.
  - destruct ok.
    + apply (inv_eq_permits (permits s + 0)); [lia|].
      eapply commit_inv; [done|by right|done|done|by rewrite El].
    + apply commit_refused in Hc as ->. unfold upd. rewrite insert_id by done.
      apply (inv_eq_permits (permits s + 0)); [lia|]. apply inv_loop; [done|done|by rewrite El].
  - apply (inv_eq_permits (permits s + -1)); [lia|]. apply inv_loop; [done|done|by rewrite El].
  - eapply notify_inv; (done || by rewrite El).
  - apply idle_inv; [done|by rewrite El|done].
Qed.

Lemma tryBackpressureDequeue_inv cfg seen s s' :
  tryBackpressureDequeue cfg seen s s' -> adm_inv s -> adm_inv s'.
Proof.
  intros Hstep Hinv. destruct Hstep as [s pc El Hs Hp|s l El|s l id r El Hr Hq|s l id r El Hr Hc
    |s l id r r' El Hr Hc|s l id r El Hr|s El].
  - apply idle_inv; [done|by rewrite El|done].
  - apply idle_inv; [done|by rewrite El|done].
  - apply (pop_inv s id r); [done|by rewrite El|done|done].
  - apply idle_inv; [done|by rewrite El|by destruct (_ <? _)].
  - eapply commit_inv; [done|left; by eexists|done|done|by rewrite El].
  - eapply notify_inv; [done|done|done|by destruct (_ <? _)|by destruct (_ <? _)].
  - apply idle_inv; [done|by rewrite El|done].
Qed.

Lemma caller_step_permits s s' : caller_step s s' -> permits s' <= permits s /\ loop s' = loop s.
Proof.
  destruct 1 as [|? ? ? ? ? ?| |s id r n r' Hr Hc Hrel]; simpl; try (split; [lia|done]).
  unfold Release in Hrel. destruct (releaseDone r); injection Hrel as <- <-; split; (done || lia).
Qed.

(** A state in which nobody is in between. *)
Definition quiescent (s : AdmState) : Prop :=
  (forall id r, requests s !! id = Some r -> caller r = CallerDone) /\ loopHeld (loop s) = 0.

Lemma inv_consequences s : adm_inv s ->
  0 <= permits s /\ permits s = heldTotal (requests s) + loopHeld (loop s) /\
  (forall id r, requests s !! id = Some r ->
     ~ (admitted r = true /\ abandoned r = true) /\ (caller r = CallerDone -> held r = 0)) /\
  (quiescent s -> permits s = 0).
Proof.
  intros (Hreq & _ & Hp).
  assert (Hr : forall id r, requests s !! id = Some r ->
     ~ (admitted r = true /\ abandoned r = true) /\ (caller r = CallerDone -> held r = 0)).
  { intros id r Hr. destruct (Hreq id r Hr) as (H1 & _ & H3). split.
    - intros [Ha Hb]. destruct (H1 Ha). congruence.
    - intros Hc. rewrite Hc in H3. destruct H3 as [E _]. unfold held. rewrite E. by destruct (admitted r). }
  pose proof (heldTotal_nonneg (requests s)). split_and!; [destruct (loop s); simpl in *; lia|done|done|].
  intros [Hd Hz]. rewrite Hp, Hz, heldTotal_zero; [done|]. intros id r Hid.
  destruct (Hr id r Hid) as [_ Hh]. apply Hh. by eapply Hd.
Qed.

(** C17: in semaphore mode, in every interleaving of the dequeue loop with
    callers that enqueue, time out, run and release: at most [MaxConcurrent]
    permits are taken; each is held by the loop or by an admitted request that
    is not yet released; no request is both admitted and abandoned; a caller
    that is done holds nothing; and once all callers are done and the loop is
    between two requests, no permit is left taken. *)
Theorem semaphore_no_leak (maxConcurrent : Z) (s : AdmState) :
  0 < maxConcurrent ->
  rtc (fun s s' => caller_step s s' \/ runSemaphoreMode maxConcurrent s s') admInit s ->
  0 <= permits s <= maxConcurrent /\
  permits s = heldTotal (requests s) + loopHeld (loop s) /\
  (forall id r, requests s !! id = Some r ->
     ~ (admitted r = true /\ abandoned r = true) /\ (caller r = CallerDone -> held r = 0)) /\
  (quiescent s -> permits s = 0).
Proof.
  intros Hm Hrtc. assert (adm_inv s /\ permits s <= maxConcurrent) as [Hinv Hle].
  { assert (Hinit : adm_inv admInit /\ permits admInit <= maxConcurrent)
      by (split; [apply adm_inv_init|simpl; lia]).
    revert Hinit. induction Hrtc as [|s1 s2 s3 Hstep _ IH]; [done|]. intros [H1 H2]. apply IH.
    destruct Hstep as [Hs|Hs].
    - split; [by eapply caller_step_inv|]. destruct (caller_step_permits s1 s2 Hs). lia.
    - split; [by eapply runSemaphoreMode_inv|]. destruct Hs; simpl; lia. }
  destruct (inv_consequences s Hinv) as (H1 & H2 & H3 & H4). by split_and!.
Qed.

(** A request is admitted while its caller times out: the caller gives the
    permit back. *)
Lemma example_race_steps :
  rtc (fun s s' => caller_step s s' \/ runSemaphoreMode 1 s s') admInit
    (MkAdm 0 LoopIdle (<[0%nat := MkAdmission true false true true false CallerDone]> ∅)).
Proof.
  eapply rtc_l. { left. apply (step_enqueue admInit 0%nat). done. }
  eapply rtc_l. { right. eapply (sem_pop 1 _ 0%nat); done. }
  eapply rtc_l. { right. eapply (sem_acquire 1 _ 0%nat); done. }
  eapply rtc_l. { right. eapply (sem_commit 1 _ 0%nat); done. }
  eapply rtc_l. { left. eapply (step_abandon _ 0%nat); done. }
  eapply rtc_l. { right. eapply (sem_notify 1 _ 0%nat); done. }
  eapply rtc_l. { left. eapply (step_release _ 0%nat); [done|by right|done]. }
  unfold upd. simpl. rewrite !insert_insert_eq. apply rtc_refl.
Qed.

Lemma semaphore_no_leak_witness :
  0 <= permits (MkAdm 0 LoopIdle (<[0%nat := MkAdmission true false true true false CallerDone]> ∅)) <= 1.
Proof.
  destruct (semaphore_no_leak 1
    (MkAdm 0 LoopIdle (<[0%nat := MkAdmission true false true true false CallerDone]> ∅))) as (H & _);
    [lia|exact example_race_steps|exact H].
Defined.

(** ** Session-boost mode *)

(** The loop only goes on while the inflight count is below a limit that was
    in force at the start of the pass. *)
Definition limit_ok (cfg : FairnessQueueConfig) (seen : option Z -> Prop) (s : AdmState) : Prop :=
  match loop s with
  | LoopChecked n | LoopHas n _ => permits s < n /\ exists pc, seen pc /\ n = maxInflight cfg pc
  | LoopNotify n _ => exists pc, seen pc /\ n = maxInflight cfg pc
  | LoopPermit _ | LoopReturn => False
  | LoopIdle | LoopExit => True
  end.

Lemma limit_ok_step cfg seen s s' :
  tryBackpressureDequeue cfg seen s s' -> limit_ok cfg seen s -> limit_ok cfg seen s'.
Proof.
  intros Hstep. unfold limit_ok.
  destruct Hstep as [s pc El Hs Hp|s l El|s l id r El Hr Hq|s l id r El Hr Hc
    |s l id r r' El Hr Hc|s l id r El Hr|s El]; rewrite El; simpl; intros Hl; try done.
  - split; [done|]. by exists pc.
  - destruct Hl as [Hp Hl]. destruct (Z.ltb_spec (permits s) l); [by split|done].
  - by destruct Hl.
  - destruct (Z.ltb_spec (permits s) l); [by split|done].
Qed.

Lemma limit_ok_caller cfg seen s s' : caller_step s s' -> limit_ok cfg seen s -> limit_ok cfg seen s'.
Proof.
  intros Hs. destruct (caller_step_permits s s' Hs) as [Hp El]. unfold limit_ok. rewrite El.
  destruct (loop s); try done; intros [? ?]; (split; [lia|done]).
Qed.

(** C32: in session-boost mode, in every interleaving: the inflight count is
    the number of admitted requests not yet released; no request is both
    admitted and abandoned and a caller that is done holds nothing; an
    admission never takes the count above the limit of the moment, so the
    count stays below every bound of the limits seen; and it returns to zero
    once all callers are done. *)
Theorem session_inflight_bounded cfg (seen : option Z -> Prop) (bound : Z) (s : AdmState) :
  0 <= bound -> (forall pc, seen pc -> maxInflight cfg pc <= bound) ->
  rtc (fun s s' => caller_step s s' \/ tryBackpressureDequeue cfg seen s s') admInit s ->
  0 <= permits s <= bound /\ permits s = heldTotal (requests s) /\
  (forall id r, requests s !! id = Some r ->
     ~ (admitted r = true /\ abandoned r = true) /\ (caller r = CallerDone -> held r = 0)) /\
  (forall s', tryBackpressureDequeue cfg seen s s' -> permits s < permits s' ->
     exists pc, seen pc /\ permits s' <= maxInflight cfg pc) /\
  (quiescent s -> permits s = 0).
Proof.
  intros Hb Hbound Hrtc.
  assert (adm_inv s /\ limit_ok cfg seen s /\ permits s <= bound) as (Hinv & Hlim & Hle).
  { assert (Hinit : adm_inv admInit /\ limit_ok cfg seen admInit /\ permits admInit <= bound)
      by (split_and!; [apply adm_inv_init|done|done]).
    revert Hinit. induction Hrtc as [|s1 s2 s3 Hstep _ IH]; [done|]. intros (H1 & H2 & H3). apply IH.
    destruct Hstep as [Hs|Hs].
    - split_and!; [by eapply caller_step_inv|by eapply limit_ok_caller|].
      destruct (caller_step_permits s1 s2 Hs). lia.
    - split_and!; [by eapply tryBackpressureDequeue_inv|by eapply limit_ok_step|].
      destruct Hs as [| | | |s l id r r' El _ _| |]; simpl; try lia.
      unfold limit_ok in H2. rewrite El in H2. destruct H2 as [H2 (pc & Hpc & ->)].
      specialize (Hbound pc Hpc). lia. }
  destruct (inv_consequences s Hinv) as (H1 & H2 & H3 & H4).
  assert (Hz : loopHeld (loop s) = 0) by (unfold limit_ok in Hlim; by destruct (loop s)).
  split_and!; [done|done|lia|done| |done].
  intros s' Hs Hlt. destruct Hs as [| | | |s l id r r' El _ _| |]; simpl in Hlt; try lia.
  unfold limit_ok in Hlim. rewrite El in Hlim. destruct Hlim as [Hp (pc & Hpc & ->)].
  exists pc. split; [done|]. simpl. lia.
Qed.

Definition two_pods : FairnessQueueConfig := MkQueueConfig 0 100 0 64 f_one f_zero true 4096 0 1.

Lemma example_session_steps :
  rtc (fun s s' => caller_step s s' \/ tryBackpressureDequeue two_pods (fun pc => pc = Some 2) s s') admInit
    (MkAdm 1 (LoopNotify 2 0) (<[0%nat := MkAdmission true false false false false CallerWaiting]> ∅)).
Proof.
  eapply rtc_l. { left. apply (step_enqueue admInit 0%nat). done. }
  eapply rtc_l. { right. eapply (bp_start _ _ _ (Some 2)); done. }
  eapply rtc_l. { right. eapply (bp_pop _ _ _ 2 0%nat); done. }
  eapply rtc_l. { right. eapply (bp_admit _ _ _ 2 0%nat); done. }
  unfold upd. simpl. rewrite !insert_insert_eq. apply rtc_refl.
Qed.

Lemma session_inflight_bounded_witness :
  0 <= permits (MkAdm 1 (LoopNotify 2 0)
    (<[0%nat := MkAdmission true false false false false CallerWaiting]> ∅)) <= 2.
Proof.
  destruct (session_inflight_bounded two_pods (fun pc => pc = Some 2) 2
    (MkAdm 1 (LoopNotify 2 0) (<[0%nat := MkAdmission true false false false false CallerWaiting]> ∅)))
    as (H & _); [lia| |exact example_session_steps|exact H].
  intros pc ->. done.
Defined.
