(* ===== verification/TokenTracker.v ===== *)
(** * pkg/kthena-router/datastore/token_tracker.go

    The token and request counts of a user and model in a sliding window,
    kept as time buckets with cumulative sums. Times are nanoseconds since the
    epoch; every operation takes the clock readings it makes. *)
From S2P Require Import Prelude Float64.
Local Open Scope Z_scope.
Local Open Scope go_scope.

Record bucketNode := MkBucket {
  timestamp : Z;
  tokens : float64;
  cumSum : float64;
  reqCount : Z;
  reqCumSum : Z
}.

Record userBucketData := MkData {
  buckets : list bucketNode;
  start : nat
}.

Record InMemorySlidingWindowTokenTracker := MkTracker {
  windowSize : Z;
  inputTokenWeight : float64;
  outputTokenWeight : float64;
  userBucketStore : gmap string (gmap string userBucketData)
}.

Definition second : Z := 1000000000.
Definition defaultTokenTrackerWindowSize : Z := 300 * second.

(** [time.Time.Unix]. *)
Definition unix (t : Z) : Z := t / second.

Definition isValidTokenWeight (value : float64) : bool :=
  negb (f_isNaN value) && negb (f_isInf value) && f_ge value f_zero.

Inductive TokenTrackerOption :=
| WithWindowSize (size : Z)
| WithTokenWeights (inputWeight outputWeight : float64).

Definition applyOption (t : InMemorySlidingWindowTokenTracker) (opt : TokenTrackerOption) :
    InMemorySlidingWindowTokenTracker :=
  match opt with
  | WithWindowSize size =>
    if size <=? 0 then t
    else if (size <? 60 * second) || (3600 * second <? size) then t
    else MkTracker size (inputTokenWeight t) (outputTokenWeight t) (userBucketStore t)
  | WithTokenWeights inputWeight outputWeight =>
    if negb (isValidTokenWeight inputWeight) || negb (isValidTokenWeight outputWeight) then t
    else MkTracker (windowSize t) inputWeight outputWeight (userBucketStore t)
  end.

Definition NewInMemorySlidingWindowTokenTracker (opts : list TokenTrackerOption) :
    InMemorySlidingWindowTokenTracker :=
  fold_left applyOption opts
    (MkTracker defaultTokenTrackerWindowSize (f_of_Z 1) (f_of_Z 2) ∅).

Definition getCutoffTimestamp (t : InMemorySlidingWindowTokenTracker) (now : Z) : Z :=
  unix (now - windowSize t).

(** The scan for the first bucket from [i] on that is not before [cutoff]. *)
Fixpoint scanBuckets (fuel : nat) (l : list bucketNode) (i : nat) (cutoff : Z) : nat :=
  match fuel with
  | O => i
  | S fuel =>
    match l !! i with
    | Some b => if timestamp b <? cutoff then scanBuckets fuel l (S i) cutoff else i
    | None => i
    end
  end.

Definition rebase (tokenBase : float64) (requestBase : Z) (b : bucketNode) : bucketNode :=
  MkBucket (timestamp b) (tokens b) (f_sub (cumSum b) tokenBase) (reqCount b)
    (reqCumSum b -₆₄ requestBase).

(** [pruneExpiredBuckets] on the buckets of one user and model. *)
Definition pruneData (cutoff : Z) (d : userBucketData) : userBucketData :=
  let n := length (buckets d) in
  if (n <=? start d)%nat then d
  else
    let newStart := scanBuckets n (buckets d) (start d) cutoff in
    if (0 <? newStart)%nat && (n / 2 <=? newStart)%nat then
      let '(tokenBase, requestBase) :=
        match buckets d !! (newStart - 1)%nat with
        | Some b => (cumSum b, reqCumSum b)
        | None => (f_zero, 0)
        end in
      MkData (rebase tokenBase requestBase <$> drop newStart (buckets d)) 0
    else MkData (buckets d) newStart.

Definition lookupData (t : InMemorySlidingWindowTokenTracker) (user model : string) :
    option userBucketData :=
  modelBuckets ← userBucketStore t !! user; modelBuckets !! model.

Definition storeData (t : InMemorySlidingWindowTokenTracker) (user model : string)
    (d : userBucketData) : InMemorySlidingWindowTokenTracker :=
  MkTracker (windowSize t) (inputTokenWeight t) (outputTokenWeight t)
    (<[user := <[model := d]> (default ∅ (userBucketStore t !! user))]> (userBucketStore t)).

Definition pruneExpiredBuckets (t : InMemorySlidingWindowTokenTracker) (user model : string)
    (cutoff : Z) : InMemorySlidingWindowTokenTracker :=
  match lookupData t user model with
  | None => t
  | Some d => storeData t user model (pruneData cutoff d)
  end.

(** The index range of the active window, if any bucket is in it: the last
    index, and the first. *)
Definition activeRange (d : userBucketData) (cutoff : Z) : option (nat * nat) :=
  let n := length (buckets d) in
  if (n <=? start d)%nat then None
  else
    let startIdx := scanBuckets n (buckets d) (start d) cutoff in
    if (n - 1 <? startIdx)%nat then None else Some ((n - 1)%nat, startIdx).

Definition getActiveTotal (d : userBucketData) (cutoff : Z) : float64 :=
  match activeRange d cutoff with
  | None => f_zero
  | Some (last, startIdx) =>
    let total := from_option cumSum f_zero (buckets d !! last) in
    if (0 <? startIdx)%nat
    then f_sub total (from_option cumSum f_zero (buckets d !! (startIdx - 1)%nat))
    else total
  end.

Definition getActiveRequestCount (d : userBucketData) (cutoff : Z) : Z :=
  match activeRange d cutoff with
  | None => 0
  | Some (last, startIdx) =>
    let total := from_option reqCumSum 0 (buckets d !! last) in
    if (0 <? startIdx)%nat
    then total -₆₄ from_option reqCumSum 0 (buckets d !! (startIdx - 1)%nat)
    else total
  end.

Definition GetTokenCount (t : InMemorySlidingWindowTokenTracker) (user model : string) (now : Z) :
    float64 :=
  if bool_decide (user = "") || bool_decide (model = "") then f_zero
  else match lookupData t user model with
       | None => f_zero
       | Some d => getActiveTotal d (getCutoffTimestamp t now)
       end.

Definition GetRequestCount (t : InMemorySlidingWindowTokenTracker) (user model : string) (now : Z) : Z :=
  if bool_decide (user = "") || bool_decide (model = "") then 0
  else match lookupData t user model with
       | None => 0
       | Some d => getActiveRequestCount d (getCutoffTimestamp t now)
       end.

(** The last bucket, if it is that of [currentTimestamp], or a new one. *)
Definition addTokens (currentTimestamp : Z) (newTokens : float64) (d : userBucketData) : userBucketData :=
  let n := length (buckets d) in
  match buckets d !! (n - 1)%nat with
  | Some b =>
    if timestamp b =? currentTimestamp then
      MkData (<[(n - 1)%nat := MkBucket (timestamp b) (f_add (tokens b) newTokens)
                 (f_add (cumSum b) newTokens) (reqCount b +₆₄ 1) (reqCumSum b +₆₄ 1)]> (buckets d))
        (start d)
    else MkData (buckets d ++ [MkBucket currentTimestamp newTokens (f_add newTokens (cumSum b)) 1
                                 (1 +₆₄ reqCumSum b)]) (start d)
  | None => MkData (buckets d ++ [MkBucket currentTimestamp newTokens newTokens 1 1]) (start d)
  end.

(** [UpdateTokenCount]: false is an error. [t1] is the reading for the bucket,
    [t2] the one for the cutoff. *)
Definition UpdateTokenCount (t : InMemorySlidingWindowTokenTracker) (user model : string)
    (inputTokens outputTokens : float64) (t1 t2 : Z) : bool * InMemorySlidingWindowTokenTracker :=
  if bool_decide (user = "") || bool_decide (model = "") then (false, t)
  else
    let cutoff := getCutoffTimestamp t t2 in
    let t := match lookupData t user model with
             | None => storeData t user model (MkData [] 0)
             | Some _ => t
             end in
    let t := pruneExpiredBuckets t user model cutoff in
    let inputTokens := if f_lt inputTokens f_zero then f_zero else inputTokens in
    let outputTokens := if f_lt outputTokens f_zero then f_zero else outputTokens in
    let newTokens := f_add (f_mul inputTokens (inputTokenWeight t))
                       (f_mul outputTokens (outputTokenWeight t)) in
    (true, storeData t user model
             (addTokens (unix t1) newTokens (default (MkData [] 0) (lookupData t user model)))).

(** ** The buckets as exact numbers

    A bucket in the domain where the floats are exact: its time, its tokens
    and its requests. The cumulative sums are those of the list. *)
Record cell := MkCell { cellTime : Z; cellTokens : Z; cellRequests : Z }.

Fixpoint mkBuckets (tokenBase requestBase : Z) (l : list cell) : list bucketNode :=
  match l with
  | [] => []
  | c :: l =>
    MkBucket (cellTime c) (f_of_Z (cellTokens c)) (f_of_Z (tokenBase + cellTokens c))
      (cellRequests c) (requestBase + cellRequests c) ::
    mkBuckets (tokenBase + cellTokens c) (requestBase + cellRequests c) l
  end.

Definition totalTokens (l : list cell) : Z := sumZ (cellTokens <$> l).
Definition totalRequests (l : list cell) : Z := sumZ (cellRequests <$> l).

(** The cells hold counts whose totals are exact in a float64 and an int. *)
Definition cells_ok (l : list cell) : Prop :=
  (forall c, c ∈ l -> 0 <= cellTokens c /\ 0 <= cellRequests c) /\
  totalTokens l < 2 ^ 53 /\ totalRequests l < 2 ^ 62.

Lemma mkBuckets_length B R l : length (mkBuckets B R l) = length l.
Proof. revert B R. induction l as [|c l IH]; intros; simpl; [done|]. by rewrite IH. Qed.

Lemma mkBuckets_app B R l k :
  mkBuckets B R (l ++ k) = mkBuckets B R l ++ mkBuckets (B + totalTokens l) (R + totalRequests l) k.
Proof.
  revert B R. unfold totalTokens, totalRequests. induction l as [|c l IH]; intros B R; simpl.
  - by rewrite !Z.add_0_r.
  - rewrite IH. csimpl. by rewrite !Z.add_assoc.
Qed.

Lemma mkBuckets_lookup B R l i c : l !! i = Some c ->
  mkBuckets B R l !! i = Some (MkBucket (cellTime c) (f_of_Z (cellTokens c))
    (f_of_Z (B + totalTokens (take (S i) l))) (cellRequests c) (R + totalRequests (take (S i) l))).
Proof.
  revert B R i. unfold totalTokens, totalRequests.
  induction l as [|c0 l IH]; intros B R [|i] Hi; simplify_eq/=.
  - csimpl. by rewrite !Z.add_0_r.
  - rewrite (IH _ _ i) by done. csimpl. by rewrite !Z.add_assoc.
Qed.

Lemma mkBuckets_times B R l i : timestamp <$> mkBuckets B R l !! i = cellTime <$> l !! i.
Proof.
  destruct (l !! i) as [c|] eqn:E; [by rewrite (mkBuckets_lookup B R l i c)|].
  simpl. rewrite lookup_ge_None_2; [done|]. rewrite mkBuckets_length. by apply lookup_ge_None.
Qed.

Lemma totals_app l k : totalTokens (l ++ k) = totalTokens l + totalTokens k /\
  totalRequests (l ++ k) = totalRequests l + totalRequests k.
Proof. unfold totalTokens, totalRequests. by rewrite !fmap_app, !sumZ_app. Qed.

Lemma cells_ok_app l k : cells_ok (l ++ k) -> cells_ok l /\ cells_ok k.
Proof.
  intros (Hc & Ht & Hr). destruct (totals_app l k) as [E1 E2].
  assert (H0 : forall m, (forall c, c ∈ m -> 0 <= cellTokens c /\ 0 <= cellRequests c) ->
    0 <= totalTokens m /\ 0 <= totalRequests m).
  { intros m Hm. split; apply sumZ_fmap_nonneg; intros c Hin; by apply Hm. }
  assert (Hl : forall c, c ∈ l -> 0 <= cellTokens c /\ 0 <= cellRequests c)
    by (intros; apply Hc, elem_of_app; by left).
  assert (Hk : forall c, c ∈ k -> 0 <= cellTokens c /\ 0 <= cellRequests c)
    by (intros; apply Hc, elem_of_app; by right).
  pose proof (H0 l Hl). pose proof (H0 k Hk). split; split_and!; done || lia.
Qed.

Lemma cells_ok_range l : cells_ok l -> 0 <= totalTokens l < 2 ^ 53 /\ 0 <= totalRequests l < 2 ^ 62.
Proof.
  intros (Hc & Ht & Hr). split; split; try done; apply sumZ_fmap_nonneg; intros c Hin; by apply Hc.
Qed.

Lemma exact_small z : 0 <= z < 2 ^ 53 -> exact_Z z.
Proof. unfold exact_Z. lia. Qed.

(** Subtracting a base from the cumulative sums. *)
Lemma mkBuckets_rebase B R l b r :
  0 <= B -> 0 <= R -> 0 <= b -> 0 <= r ->
  (forall c, c ∈ l -> 0 <= cellTokens c /\ 0 <= cellRequests c) ->
  B + b + totalTokens l < 2 ^ 53 -> R + r + totalRequests l < 2 ^ 62 ->
  rebase (f_of_Z B) R <$> mkBuckets (B + b) (R + r) l = mkBuckets b r l.
Proof.
  intros HB HR. revert b r. unfold totalTokens, totalRequests.
  induction l as [|c l IH]; intros b r Hb Hr Hc Ht Hq; [done|]. rewrite !sumZ_cons in *.
  destruct (Hc c) as [Hc1 Hc2]; [by left|].
  assert (0 <= sumZ (cellTokens <$> l)) by (apply sumZ_fmap_nonneg; intros x Hx; by apply Hc; right).
  assert (0 <= sumZ (cellRequests <$> l)) by (apply sumZ_fmap_nonneg; intros x Hx; by apply Hc; right).
  cbn [mkBuckets]. rewrite fmap_cons. f_equal.
  - unfold rebase. simpl. f_equal.
    + rewrite f_sub_exact' by (apply exact_small; lia). f_equal. lia.
    + rewrite int64_id by go_lia. lia.
  - rewrite <- !Z.add_assoc. apply IH; [lia|lia|intros x Hx; by apply Hc; right|lia|lia].
Qed.

(** ** Scanning *)

Definition times_sorted (l : list cell) : Prop := StronglySorted (fun a b => cellTime a < cellTime b) l.

Lemma scanBuckets_spec l cutoff B R i fuel :
  times_sorted l -> (length l <= fuel + i)%nat -> (i <= length l)%nat ->
  (forall c, c ∈ take i l -> cellTime c < cutoff) ->
  exists j, scanBuckets fuel (mkBuckets B R l) i cutoff = j /\ (i <= j <= length l)%nat /\
    (forall c, c ∈ take j l -> cellTime c < cutoff) /\
    (forall c, c ∈ drop j l -> cutoff <= cellTime c).
Proof.
  intros Hs. revert i. induction fuel as [|fuel IH]; intros i Hf Hi Hb; cbn [scanBuckets].
  { exists i. split; [done|]. split; [lia|]. split; [done|]. intros c. rewrite drop_ge by lia.
    by rewrite elem_of_nil. }
  destruct (l !! i) as [c|] eqn:Ec.
  2: { rewrite lookup_ge_None_2 by (rewrite mkBuckets_length; by apply lookup_ge_None).
       exists i. split; [done|]. split; [lia|]. split; [done|].
       apply lookup_ge_None in Ec. rewrite drop_ge by lia. intros x Hx. by apply elem_of_nil in Hx. }
  rewrite (mkBuckets_lookup B R l i c Ec). simpl. apply lookup_lt_Some in Ec as Hlt.
  destruct (Z.ltb_spec (cellTime c) cutoff).
  - destruct (IH (S i)) as (j & E & Hj & H1 & H2); [lia|lia| |exists j; split_and!; try done; lia].
    intros x. rewrite (take_S_r l i c Ec). intros [Hx|Hx%list_elem_of_singleton]%elem_of_app; [by apply Hb|by subst].
  - exists i. split; [done|]. split; [lia|]. split; [done|].
    rewrite (drop_S l c i Ec). intros x [->|Hx]%elem_of_cons; [done|].
    unfold times_sorted in Hs. rewrite <- (take_drop_middle l i c Ec) in Hs.
    apply StronglySorted_app_inv in Hs as (_ & Hs & _). apply StronglySorted_inv in Hs as [_ Hs].
    rewrite Forall_forall in Hs. specialize (Hs x Hx). lia.
Qed.

(** What is left of the cells from a time on. *)
Definition since (c : Z) (l : list cell) : list cell := filter (fun x => c <= cellTime x) l.

Lemma since_split cutoff l j :
  (forall c, c ∈ take j l -> cellTime c < cutoff) -> (forall c, c ∈ drop j l -> cutoff <= cellTime c) ->
  since cutoff l = drop j l.
Proof.
  intros H1 H2. unfold since. rewrite <- (take_drop j l) at 1. rewrite filter_app.
  rewrite filter_none by (apply Forall_forall; intros c Hc; specialize (H1 c Hc); lia). simpl.
  assert (Hall : forall k : list cell, (forall c, c ∈ k -> cutoff <= cellTime c) -> filter (fun x => cutoff <= cellTime x) k = k).
  { induction k as [|c k IH]; intros Hk; [done|]. rewrite filter_cons_True by (apply Hk; by left).
    rewrite IH; [done|]. intros; apply Hk; by right. }
  by apply Hall.
Qed.

Definition data_ok (l : list cell) (cut : Z) (d : userBucketData) : Prop :=
  buckets d = mkBuckets 0 0 l /\ cells_ok l /\ times_sorted l /\ (start d <= length l)%nat /\
  forall c, c ∈ take (start d) l -> cellTime c < cut.

(** The active window sums what is not before the cutoff. *)
Lemma active_spec l cut cutoff d : data_ok l cut d -> cut <= cutoff ->
  getActiveTotal d cutoff = f_of_Z (totalTokens (since cutoff l)) /\
  getActiveRequestCount d cutoff = totalRequests (since cutoff l).
Proof.
  intros (Eb & Hok & Hs & Hst & Hb) Hcut.
  unfold getActiveTotal, getActiveRequestCount, activeRange. rewrite Eb, mkBuckets_length.
  destruct (scanBuckets_spec l cutoff 0 0 (start d) (length l) Hs ltac:(lia) Hst) as (j & -> & Hj & H1 & H2).
  { intros c Hc. specialize (Hb c Hc). lia. }
  rewrite (since_split cutoff l j H1 H2).
  destruct (Nat.leb_spec (length l) (start d)); [by rewrite drop_ge by lia|].
  destruct (Nat.ltb_spec (length l - 1) j); [by rewrite drop_ge by lia|].
  destruct (lookup_lt_is_Some_2 l (length l - 1) ltac:(lia)) as [cl El].
  rewrite (mkBuckets_lookup 0 0 l _ cl El). simpl.
  rewrite (firstn_all2 (n := S (length l - 1)) l) by lia.
  pose proof (totals_app (take j l) (drop j l)) as [E1 E2]. rewrite take_drop in E1, E2.
  assert (Hok2 : cells_ok (take j l ++ drop j l)) by by rewrite take_drop.
  apply cells_ok_app in Hok2 as [Hk1 Hk2]. apply cells_ok_range in Hk1, Hk2, Hok.
  destruct (Nat.ltb_spec 0 j) as [Hj0|Hj0].
  - destruct (lookup_lt_is_Some_2 l (j - 1) ltac:(lia)) as [cj Ej].
    rewrite (mkBuckets_lookup 0 0 l _ cj Ej). simpl. replace (S (j - 1)) with j by lia.
    rewrite f_sub_exact' by (apply exact_small; lia). rewrite int64_id by go_lia.
    split; [f_equal|]; lia.
  - replace j with 0%nat by lia. rewrite drop_0. done.
Qed.

(** Pruning drops nothing a later cutoff would count. *)
Lemma prune_spec l cut cutoff d : data_ok l cut d -> cut <= cutoff ->
  exists l', data_ok l' cutoff (pruneData cutoff d) /\ l' `suffix_of` l /\
    forall c, cutoff <= c -> since c l' = since c l.
Proof.
  intros (Eb & Hok & Hs & Hst & Hb) Hcut. unfold pruneData. rewrite Eb, mkBuckets_length.
  assert (Hb' : forall c, c ∈ take (start d) l -> cellTime c < cutoff)
    by (intros c Hc; specialize (Hb c Hc); lia).
  destruct (Nat.leb_spec (length l) (start d)).
  { exists l. split; [by split_and!|]. done. }
  destruct (scanBuckets_spec l cutoff 0 0 (start d) (length l) Hs ltac:(lia) Hst Hb') as (j & -> & Hj & H1 & H2).
  destruct ((0 <? j)%nat && (length l / 2 <=? j)%nat) eqn:Ecomp.
  2: { exists l. split; [|done]. split_and!; [done|apply Hok..|done|simpl; lia|done]. }
  apply andb_true_iff in Ecomp as [Hj0%Nat.ltb_lt _].
  destruct (lookup_lt_is_Some_2 l (j - 1) ltac:(lia)) as [cj Ej].
  rewrite (mkBuckets_lookup 0 0 l _ cj Ej). simpl. replace (S (j - 1)) with j by lia.
  assert (Hok2 : cells_ok (take j l ++ drop j l)) by by rewrite take_drop.
  pose proof (totals_app (take j l) (drop j l)) as [E1 E2]. rewrite take_drop in E1, E2.
  apply cells_ok_app in Hok2 as [Hk1 Hk2].
  pose proof (cells_ok_range _ Hk1). pose proof (cells_ok_range _ Hk2). pose proof (cells_ok_range _ Hok).
  exists (drop j l). split; [|split; [by apply suffix_drop|]].
  - split_and!; simpl.
    + assert (Ed : drop j (mkBuckets 0 0 l) = mkBuckets (0 + totalTokens (take j l)) (0 + totalRequests (take j l)) (drop j l)).
      { rewrite <- (take_drop j l) at 1. rewrite mkBuckets_app, drop_app_ge by (rewrite mkBuckets_length, length_take; lia).
        rewrite mkBuckets_length, length_take. by replace (j - _)%nat with 0%nat by lia. }
      rewrite Ed. rewrite !Z.add_0_l.
      pose proof (mkBuckets_rebase (totalTokens (take j l)) (totalRequests (take j l)) (drop j l) 0 0) as Hr.
      rewrite !Z.add_0_r in Hr. apply Hr; try lia. apply Hk2.
    + exact Hk2.
    + unfold times_sorted in *. rewrite <- (take_drop j l) in Hs.
      by apply StronglySorted_app_inv in Hs as (_ & ? & _).
    + lia.
    + intros c Hc. by apply elem_of_nil in Hc.
  - intros c Hc. unfold since. rewrite <- (take_drop j l) at 2. rewrite filter_app.
    rewrite (filter_none _ (take j l)); [done|]. apply Forall_forall. intros x Hx.
    specialize (H1 x Hx). lia.
Qed.


Definition mergeCell (c : cell) (n : Z) : cell := MkCell (cellTime c) (cellTokens c + n) (cellRequests c + 1).

(** The cells after an update at second [ts] of [n] tokens. *)
Definition addCell (ts n : Z) (l : list cell) : list cell :=
  match last l with
  | Some c => if cellTime c =? ts then take (length l - 1) l ++ [mergeCell c n] else l ++ [MkCell ts n 1]
  | None => [MkCell ts n 1]
  end.

Lemma since_app c l k : since c (l ++ k) = since c l ++ since c k.
Proof. apply filter_app. Qed.

Lemma since_single c x : since c [x] = if c <=? cellTime x then [x] else [].
Proof. unfold since. rewrite filter_cons. case_decide; destruct (Z.leb_spec c (cellTime x)); done || lia. Qed.

Lemma totals_snoc l x : totalTokens (l ++ [x]) = totalTokens l + cellTokens x /\
  totalRequests (l ++ [x]) = totalRequests l + cellRequests x.
Proof. destruct (totals_app l [x]) as [-> ->]. unfold totalTokens, totalRequests; csimpl; lia. Qed.

Lemma totals_since_snoc c l x :
  totalTokens (since c (l ++ [x])) = totalTokens (since c l) + (if c <=? cellTime x then cellTokens x else 0) /\
  totalRequests (since c (l ++ [x])) = totalRequests (since c l) + (if c <=? cellTime x then cellRequests x else 0).
Proof.
  rewrite since_app, since_single. destruct (c <=? cellTime x); [apply totals_snoc|].
  rewrite app_nil_r. lia.
Qed.

Lemma addCell_snoc ts n l x :
  addCell ts n (l ++ [x]) =
    if cellTime x =? ts then l ++ [mergeCell x n] else (l ++ [x]) ++ [MkCell ts n 1].
Proof.
  unfold addCell. rewrite last_snoc, length_app. simpl.
  replace (length l + 1 - 1)%nat with (length l) by lia. by rewrite take_app_length.
Qed.

Lemma addCell_totals ts n c l :
  totalTokens (since c (addCell ts n l)) = totalTokens (since c l) + (if c <=? ts then n else 0) /\
  totalRequests (since c (addCell ts n l)) = totalRequests (since c l) + (if c <=? ts then 1 else 0) /\
  totalTokens (addCell ts n l) = totalTokens l + n /\ totalRequests (addCell ts n l) = totalRequests l + 1.
Proof.
  destruct l as [|x l _] using rev_ind.
  { destruct (totals_since_snoc c [] (MkCell ts n 1)) as [E1 E2], (totals_snoc [] (MkCell ts n 1)). done. }
  rewrite addCell_snoc. destruct (Z.eqb_spec (cellTime x) ts) as [<-|].
  - destruct (totals_since_snoc c l x), (totals_since_snoc c l (mergeCell x n)), (totals_snoc l x),
      (totals_snoc l (mergeCell x n)). simpl in *. destruct (c <=? cellTime x); lia.
  - destruct (totals_since_snoc c (l ++ [x]) (MkCell ts n 1)), (totals_snoc (l ++ [x]) (MkCell ts n 1)). done.
Qed.

(** Adding to the buckets is adding to the cells. *)
Lemma addTokens_spec l cut d ts n :
  data_ok l cut d -> (forall c, c ∈ l -> cellTime c <= ts) -> 0 <= n ->
  totalTokens l + n < 2 ^ 53 -> totalRequests l + 1 < 2 ^ 62 ->
  data_ok (addCell ts n l) cut (addTokens ts (f_of_Z n) d) /\
  forall c, c ∈ addCell ts n l -> cellTime c <= ts.
Proof.
  intros (Eb & Hok & Hs & Hst & Hb) Hts Hn Ht Hr. destruct (addCell_totals ts n 0 l) as (_ & _ & T1 & T2).
  pose proof (cells_ok_range l Hok) as Hrange. pose proof Hok as (Hc & _ & _).
  unfold addTokens. rewrite Eb, mkBuckets_length.
  destruct l as [|x l _] using rev_ind.
  { simpl in *. split.
    - split_and!; [done| |by repeat constructor|simpl; lia|].
      + split_and!; [|lia..]. intros c Hin%list_elem_of_singleton. subst. simpl. lia.
      + intros c Hin. apply Hb. destruct (start d); [done|lia].
    - intros c Hin%list_elem_of_singleton. by subst. }
  rewrite length_app. simpl. replace (length l + 1 - 1)%nat with (length l) by lia.
  rewrite (mkBuckets_lookup 0 0 _ (length l) x) by by apply list_lookup_middle.
  rewrite firstn_all2 by (rewrite length_app; simpl; lia). simpl.
  rewrite addCell_snoc in *. rewrite !Z.add_0_l in *.
  destruct (cells_ok_app l [x] Hok) as [Hl _]. apply cells_ok_range in Hl.
  destruct (totals_snoc l x) as [S1 S2]. destruct (Hc x) as [X1 X2]; [apply elem_of_app; right; by left|].
  assert (Hx : cellTime x <= ts) by (apply Hts, elem_of_app; right; by left).
  assert (Htl : forall c, c ∈ l -> cellTime c <= ts) by (intros; apply Hts, elem_of_app; by left).
  assert (Hcl : forall c, c ∈ l -> 0 <= cellTokens c /\ 0 <= cellRequests c)
    by (intros; apply Hc, elem_of_app; by left).
  pose proof (StronglySorted_app_inv _ _ _ Hs) as (Hs1 & _ & Hs2).
  destruct (Z.eqb_spec (cellTime x) ts) as [<-|Hne]; (split; [split_and!|]).
  - simpl. rewrite !mkBuckets_app. simpl. rewrite (insert_app_r_alt _ _ (length l)) by (by rewrite mkBuckets_length).
    rewrite mkBuckets_length, Nat.sub_diag. simpl. rewrite !Z.add_0_l.
    rewrite !f_add_exact by (apply exact_small; lia). rewrite !int64_id by go_lia.
    by rewrite S1, S2, !Z.add_assoc.
  - split_and!; [|lia..]. intros c [Hin|Hin%list_elem_of_singleton]%elem_of_app; [by apply Hcl|subst; simpl; lia].
  - apply StronglySorted_app_intro; [done|by repeat constructor|].
    intros y z Hy ->%list_elem_of_singleton. by apply (Hs2 y x); [|left].
  - simpl. rewrite length_app in *. done.
  - simpl. destruct (Nat.le_gt_cases (start d) (length l)) as [Hk|Hk].
    + rewrite take_app_le in * by done. done.
    + rewrite firstn_all2 in * by (rewrite length_app in *; simpl in *; lia).
      intros c [Hin|Hin%list_elem_of_singleton]%elem_of_app; [by apply Hb, elem_of_app; left|].
      subst. simpl. apply Hb, elem_of_app. right. by left.
  - intros c [Hin|Hin%list_elem_of_singleton]%elem_of_app; [by apply Htl|subst; simpl; lia].
  - simpl. rewrite (mkBuckets_app 0 0 (l ++ [x])). simpl. rewrite !Z.add_0_l.
    rewrite !f_add_exact by (apply exact_small; lia). rewrite !int64_id by go_lia.
    by rewrite (Z.add_comm n), (Z.add_comm 1).
  - split_and!; [|lia..]. intros c [Hin|Hin%list_elem_of_singleton]%elem_of_app; [by apply Hc|subst; simpl; lia].
  - apply StronglySorted_app_intro; [done|by repeat constructor|].
    intros y z Hy ->%list_elem_of_singleton. simpl.
    apply elem_of_app in Hy as [Hy| ->%list_elem_of_singleton]; [|lia].
    assert (cellTime y < cellTime x) by (apply (Hs2 y x); [done|by left]). lia.
  - simpl. rewrite !length_app in *. simpl in *. lia.
  - simpl. rewrite take_app_le by done. done.
  - intros c [Hin|Hin%list_elem_of_singleton]%elem_of_app; [by apply Hts|subst; simpl; lia].
Qed.

(** ** The tracker under a history of updates *)

Abbreviation noData := (MkData [] 0).

Lemma lookup_store t u m d u' m' :
  lookupData (storeData t u m d) u' m' = if decide ((u', m') = (u, m)) then Some d else lookupData t u' m'.
Proof.
  unfold lookupData, storeData. simpl. destruct (decide (u = u')) as [<-|].
  - rewrite lookup_insert_eq. simpl. destruct (decide (m = m')) as [<-|].
    + rewrite lookup_insert_eq. by rewrite decide_True.
    + rewrite lookup_insert_ne by done. rewrite decide_False by congruence.
      by destruct (userBucketStore t !! u).
  - rewrite lookup_insert_ne by done. by rewrite decide_False by congruence.
Qed.

Definition newTokensOf (t : InMemorySlidingWindowTokenTracker) (i o : float64) : float64 :=
  f_add (f_mul (if f_lt i f_zero then f_zero else i) (inputTokenWeight t))
    (f_mul (if f_lt o f_zero then f_zero else o) (outputTokenWeight t)).

Lemma update_lookup t u m i o t1 t2 : u <> ""%string -> m <> ""%string ->
  exists t', UpdateTokenCount t u m i o t1 t2 = (true, t') /\
    windowSize t' = windowSize t /\ inputTokenWeight t' = inputTokenWeight t /\
    outputTokenWeight t' = outputTokenWeight t /\
    forall u' m', default noData (lookupData t' u' m') =
      if decide ((u', m') = (u, m))
      then addTokens (unix t1) (newTokensOf t i o)
             (pruneData (getCutoffTimestamp t t2) (default noData (lookupData t u m)))
      else default noData (lookupData t u' m').
Proof.
  intros Hu Hm. unfold UpdateTokenCount. rewrite !bool_decide_false by done. simpl.
  eexists. split; [reflexivity|]. unfold pruneExpiredBuckets.
  destruct (lookupData t u m) as [d|] eqn:Ed; simpl.
  - rewrite Ed. simpl. split_and!; [done..|]. intros u' m'. rewrite !lookup_store.
    destruct (decide ((u', m') = (u, m))) as [Heq|]; [|done]. injection Heq as -> ->.
    rewrite decide_True by done. done.
  - rewrite lookup_store, decide_True by done. simpl. split_and!; [done..|]. intros u' m'. rewrite !lookup_store.
    destruct (decide ((u', m') = (u, m))) as [Heq|]; [|done]. injection Heq as -> ->.
    rewrite decide_True by done. done.
Qed.

(** An update with integer token counts, and the clock readings it makes. *)
Record usage := MkUsage {
  uUser : string; uModel : string; uInput : Z; uOutput : Z; uBucketAt : Z; uCutoffAt : Z
}.

Definition recordUsage (t : InMemorySlidingWindowTokenTracker) (e : usage) : InMemorySlidingWindowTokenTracker :=
  snd (UpdateTokenCount t (uUser e) (uModel e) (f_of_Z (uInput e)) (f_of_Z (uOutput e))
         (uBucketAt e) (uCutoffAt e)).

(** What an update adds: negative counts are taken as zero. *)
Definition charge (wi wo : Z) (e : usage) : Z := Z.max 0 (uInput e) * wi + Z.max 0 (uOutput e) * wo.

(** The updates of a user and model from second [c] on. *)
Definition inWindow (u m : string) (c : Z) (h : list usage) : list usage :=
  filter (fun e => uUser e = u /\ uModel e = m /\ c <= unix (uBucketAt e)) h.

(** The clock never goes back, within an update or between two. *)
Fixpoint clocked (now : Z) (h : list usage) (stop : Z) : Prop :=
  match h with
  | [] => now <= stop
  | e :: h => now <= uBucketAt e /\ uBucketAt e <= uCutoffAt e /\ clocked (uCutoffAt e) h stop
  end.

Definition weights_ok (t : InMemorySlidingWindowTokenTracker) (wi wo : Z) : Prop :=
  inputTokenWeight t = f_of_Z wi /\ outputTokenWeight t = f_of_Z wo /\
  0 <= wi < 2 ^ 53 /\ 0 <= wo < 2 ^ 53.

Definition usage_ok (wi wo : Z) (h : list usage) : Prop :=
  (forall e, e ∈ h -> exact_Z (uInput e) /\ exact_Z (uOutput e)) /\
  sumZ (charge wi wo <$> h) < 2 ^ 53 /\ Z.of_nat (length h) < 2 ^ 62.

Lemma charge_nonneg wi wo e : 0 <= wi -> 0 <= wo -> 0 <= charge wi wo e.
Proof. intros. unfold charge. nia. Qed.

Lemma clamp_exact n w : exact_Z n -> 0 <= w < 2 ^ 53 -> Z.max 0 n * w < 2 ^ 53 ->
  f_mul (if f_lt (f_of_Z n) f_zero then f_zero else f_of_Z n) (f_of_Z w) = f_of_Z (Z.max 0 n * w).
Proof.
  intros Hn Hw Hb. change f_zero with (f_of_Z 0). rewrite f_lt_of_Z by (done || by apply exact_small).
  destruct (Z.ltb_spec n 0).
  - rewrite Z.max_l by lia. apply f_mul_exact; try lia; apply exact_small; lia.
  - rewrite Z.max_r in * by lia. apply f_mul_exact; try lia; [done|apply exact_small; lia..|].
    apply exact_small; nia.
Qed.

Lemma newTokens_charge t wi wo e : weights_ok t wi wo -> exact_Z (uInput e) -> exact_Z (uOutput e) ->
  charge wi wo e < 2 ^ 53 ->
  newTokensOf t (f_of_Z (uInput e)) (f_of_Z (uOutput e)) = f_of_Z (charge wi wo e).
Proof.
  intros (Ei & Eo & Hi & Ho) H1 H2 Hc. unfold newTokensOf, charge in *. rewrite Ei, Eo.
  rewrite !clamp_exact by (done || nia). apply f_add_exact; apply exact_small; nia.
Qed.

Lemma data_ok_later l cut cut' d : data_ok l cut d -> cut <= cut' -> data_ok l cut' d.
Proof.
  intros (H1 & H2 & H3 & H4 & H5) Hle. split_and!; try done; try apply H2.
  intros c Hc. specialize (H5 c Hc). lia.
Qed.

Lemma unix_mono a b : a <= b -> unix a <= unix b.
Proof. intros. apply Z.div_le_mono; [reflexivity|done]. Qed.

Lemma inWindow_app u m c h k : inWindow u m c (h ++ k) = inWindow u m c h ++ inWindow u m c k.
Proof. apply filter_app. Qed.

(** The buckets of a user and model account for its updates in the window
    that ends now, and in every later one. *)
Definition accounts (wi wo W : Z) (u m : string) (h : list usage) (now : Z) (d : userBucketData) : Prop :=
  exists l, data_ok l (unix (now - W)) d /\ (forall c, c ∈ l -> cellTime c <= unix now) /\
    totalTokens l <= sumZ (charge wi wo <$> h) /\ totalRequests l <= Z.of_nat (length h) /\
    forall c, unix (now - W) <= c ->
      totalTokens (since c l) = sumZ (charge wi wo <$> inWindow u m c h) /\
      totalRequests (since c l) = Z.of_nat (length (inWindow u m c h)).

Definition tracker_ok (wi wo W : Z) (h : list usage) (now : Z) (t : InMemorySlidingWindowTokenTracker) : Prop :=
  weights_ok t wi wo /\ windowSize t = W /\
  forall u m, u <> ""%string -> m <> ""%string ->
    accounts wi wo W u m h now (default noData (lookupData t u m)).

Section step.
Context (wi wo W : Z) (h : list usage) (now : Z) (e : usage).
Hypothesis Hwi : 0 <= wi.
Hypothesis Hwo : 0 <= wo.
Hypothesis Hbucket : now <= uBucketAt e.
Hypothesis Hcutoff : uBucketAt e <= uCutoffAt e.
Hypothesis Hok : usage_ok wi wo (h ++ [e]).

Let later : unix (now - W) <= unix (uCutoffAt e - W).
Proof. apply unix_mono. lia. Qed.

Lemma history_snoc : sumZ (charge wi wo <$> h ++ [e]) = sumZ (charge wi wo <$> h) + charge wi wo e /\
  Z.of_nat (length (h ++ [e])) = Z.of_nat (length h) + 1.
Proof. rewrite fmap_app, sumZ_app, length_app. unfold sumZ at 2. simpl. lia. Qed.

Lemma accounts_skip u m d : (uUser e, uModel e) <> (u, m) ->
  accounts wi wo W u m h now d -> accounts wi wo W u m (h ++ [e]) (uCutoffAt e) d.
Proof using Hwi Hwo Hbucket Hcutoff.
  intros Hne (l & D & Ht & T1 & T2 & T3). exists l.
  pose proof (charge_nonneg wi wo e Hwi Hwo). destruct history_snoc as [-> ->].
  split; [by eapply data_ok_later|].
  split; [intros c Hc; specialize (Ht c Hc); pose proof (unix_mono now (uCutoffAt e)); lia|].
  split; [lia|]. split; [lia|]. intros c Hc. rewrite inWindow_app.
  replace (inWindow u m c [e]) with (@nil usage); [rewrite app_nil_r; apply T3; lia|].
  unfold inWindow. rewrite filter_cons_False; [done|]. intros (E1 & E2 & _). congruence.
Qed.

Lemma inWindow_snoc c :
  sumZ (charge wi wo <$> inWindow (uUser e) (uModel e) c (h ++ [e])) =
    sumZ (charge wi wo <$> inWindow (uUser e) (uModel e) c h) +
    (if c <=? unix (uBucketAt e) then charge wi wo e else 0) /\
  Z.of_nat (length (inWindow (uUser e) (uModel e) c (h ++ [e]))) =
    Z.of_nat (length (inWindow (uUser e) (uModel e) c h)) + (if c <=? unix (uBucketAt e) then 1 else 0).
Proof.
  rewrite inWindow_app, fmap_app, sumZ_app, length_app.
  assert (E : inWindow (uUser e) (uModel e) c [e] = if c <=? unix (uBucketAt e) then [e] else []).
  { unfold inWindow. rewrite filter_cons. destruct (Z.leb_spec c (unix (uBucketAt e))).
    - by rewrite decide_True.
    - by rewrite decide_False by (intros (_ & _ & ?); lia). }
  rewrite E. destruct (c <=? unix (uBucketAt e)); simpl; lia.
Qed.

Lemma accounts_add d :
  accounts wi wo W (uUser e) (uModel e) h now d ->
  accounts wi wo W (uUser e) (uModel e) (h ++ [e]) (uCutoffAt e)
    (addTokens (unix (uBucketAt e)) (f_of_Z (charge wi wo e)) (pruneData (unix (uCutoffAt e - W)) d)).
Proof using Hwi Hwo Hbucket Hcutoff Hok.
  intros (l & D & Ht & T1 & T2 & T3).
  pose proof (charge_nonneg wi wo e Hwi Hwo) as Hc. destruct history_snoc as [S1 S2].
  destruct Hok as (_ & Hsum & Hlen).
  destruct (prune_spec l _ _ d D later) as (l' & D' & [l0 Hsuf] & Hsince).
  assert (Hl0 : totalTokens l' <= totalTokens l /\ totalRequests l' <= totalRequests l).
  { subst l. destruct (totals_app l0 l') as [-> ->]. destruct D as (_ & Hcl & _).
    apply cells_ok_app in Hcl as [Hcl _]. apply cells_ok_range in Hcl. lia. }
  assert (Ht' : forall c, c ∈ l' -> cellTime c <= unix (uBucketAt e)).
  { intros c Hin. assert (cellTime c <= unix now) by (apply Ht; subst l; apply elem_of_app; by right).
    pose proof (unix_mono now (uBucketAt e) Hbucket). lia. }
  destruct (addTokens_spec l' _ _ (unix (uBucketAt e)) (charge wi wo e) D' Ht' Hc) as [D2 Ht2]; [lia|lia|].
  exists (addCell (unix (uBucketAt e)) (charge wi wo e) l'). rewrite S1, S2.
  destruct (addCell_totals (unix (uBucketAt e)) (charge wi wo e) 0 l') as (_ & _ & -> & ->).
  split; [done|]. split.
  { intros c Hin. specialize (Ht2 c Hin). pose proof (unix_mono _ _ Hcutoff). lia. }
  split; [lia|]. split; [lia|]. intros c Hle. destruct (inWindow_snoc c) as [-> ->].
  destruct (addCell_totals (unix (uBucketAt e)) (charge wi wo e) c l') as (-> & -> & _ & _).
  rewrite Hsince by done. destruct (T3 c) as [-> ->]; [lia|]. done.
Qed.

Lemma tracker_step t : tracker_ok wi wo W h now t ->
  tracker_ok wi wo W (h ++ [e]) (uCutoffAt e) (recordUsage t e).
Proof using Hwi Hwo Hbucket Hcutoff Hok.
  intros (Hw & HW & Hl). unfold recordUsage.
  destruct (decide (uUser e = ""%string \/ uModel e = ""%string)) as [Hempty|Hne].
  - assert (E : UpdateTokenCount t (uUser e) (uModel e) (f_of_Z (uInput e)) (f_of_Z (uOutput e))
              (uBucketAt e) (uCutoffAt e) = (false, t)).
    { unfold UpdateTokenCount. destruct Hempty as [-> | ->]; rewrite ?orb_true_r; done. }
    rewrite E. simpl. split; [done|]. split; [done|]. intros u m Hu Hm.
    apply accounts_skip; [destruct Hempty; congruence|by apply Hl].
  - destruct (update_lookup t (uUser e) (uModel e) (f_of_Z (uInput e)) (f_of_Z (uOutput e))
                (uBucketAt e) (uCutoffAt e)) as (t' & -> & W1 & W2 & W3 & Hlook); [tauto..|].
    simpl. split; [by unfold weights_ok; rewrite W2, W3|]. split; [by rewrite W1|].
    intros u m Hu Hm. rewrite Hlook. specialize (Hl u m Hu Hm).
    destruct (decide ((u, m) = (uUser e, uModel e))) as [Heq|Hother]; [|by apply accounts_skip; [congruence|]].
    injection Heq as -> ->. unfold getCutoffTimestamp. rewrite HW.
    destruct history_snoc as [S1 S2]. pose proof Hok as (Hex & Hsum & _).
    destruct (Hex e) as [He1 He2]; [apply elem_of_app; right; by left|].
    assert (0 <= sumZ (charge wi wo <$> h)) by (apply sumZ_fmap_nonneg; intros; by apply charge_nonneg).
    rewrite (newTokens_charge t wi wo e) by (done || lia). by apply accounts_add.
Qed.
End step.

Lemma usage_ok_app wi wo h k : 0 <= wi -> 0 <= wo -> usage_ok wi wo (h ++ k) -> usage_ok wi wo h.
Proof.
  intros Hi Ho (H1 & H2 & H3). rewrite fmap_app, sumZ_app in H2. rewrite length_app in H3.
  assert (0 <= sumZ (charge wi wo <$> k)) by (apply sumZ_fmap_nonneg; intros; by apply charge_nonneg).
  split_and!; [|lia..]. intros e He. apply H1, elem_of_app. by left.
Qed.

Lemma accounts_empty wi wo W u m now : accounts wi wo W u m [] now noData.
Proof.
  exists []. split; [|by split; [intros c Hc; by apply elem_of_nil in Hc|]].
  split; [done|]. split; [|split; [constructor|split; [done|intros c Hc; by apply elem_of_nil in Hc]]].
  by split; [intros c Hc; by apply elem_of_nil in Hc|].
Qed.

Lemma tracker_run wi wo W k : forall h now stop t,
  0 <= wi -> 0 <= wo -> tracker_ok wi wo W h now t -> clocked now k stop -> usage_ok wi wo (h ++ k) ->
  exists now', now' <= stop /\ tracker_ok wi wo W (h ++ k) now' (fold_left recordUsage k t).
Proof.
  induction k as [|e k IH]; intros h now stop t Hi Ho Ht Hc Hok; simpl in *.
  - exists now. by rewrite app_nil_r.
  - destruct Hc as (H1 & H2 & H3). rewrite cons_middle, app_assoc in *.
    apply (IH _ (uCutoffAt e)); try done. eapply tracker_step; try done. by eapply usage_ok_app.
Qed.

Lemma applyOptions_ok opts : forall t, 60 * second <= windowSize t <= 3600 * second -> userBucketStore t = ∅ ->
  let t' := fold_left applyOption opts t in
  60 * second <= windowSize t' <= 3600 * second /\ userBucketStore t' = ∅.
Proof.
  induction opts as [|o opts IH]; intros t Hw Hs; simpl; [done|]. apply IH; destruct o; simpl; try case_match; try done.
  - case_match eqn:E; [done|]. apply orb_false_iff in E as [E1%Z.ltb_ge E2%Z.ltb_ge]. done.
  - case_match; done.
Qed.

(** C25: [GetRequestCount] and [GetTokenCount] are exact: after any sequence
    of updates of any users and models by a clock that does not go back (and a
    query not before the last update), they are the number of updates of that
    user and model whose second is in the window, and the weighted sum of
    their token counts (negative ones as zero), whatever was pruned, compacted
    or merged into a bucket on the way. The token counts and weights are
    integers whose total over the history is exact in a float64. The window
    is always between a minute and an hour. *)
Theorem token_window_exact opts wi wo h now u m :
  let t := fold_left recordUsage h (NewInMemorySlidingWindowTokenTracker opts) in
  let c := getCutoffTimestamp t now in
  weights_ok (NewInMemorySlidingWindowTokenTracker opts) wi wo -> usage_ok wi wo h -> clocked 0 h now ->
  u <> ""%string -> m <> ""%string ->
  60 * second <= windowSize t <= 3600 * second /\
  GetRequestCount t u m now = Z.of_nat (length (inWindow u m c h)) /\
  GetTokenCount t u m now = f_of_Z (sumZ (charge wi wo <$> inWindow u m c h)).
Proof.
  intros t c Hw Hok Hc Hu Hm. subst c t. pose proof Hw as (_ & _ & Hwi & Hwo).
  destruct (applyOptions_ok opts (MkTracker defaultTokenTrackerWindowSize (f_of_Z 1) (f_of_Z 2) ∅)) as [HW Hs];
    [done|done|]. fold (NewInMemorySlidingWindowTokenTracker opts) in HW, Hs.
  set (t0 := NewInMemorySlidingWindowTokenTracker opts) in *. set (W := windowSize t0) in *.
  destruct (tracker_run wi wo W h [] 0 now t0) as (now' & Hle & _ & EW & Ht); [lia|lia| |done|done|].
  { split; [done|]. split; [done|]. intros u' m' _ _. unfold lookupData. rewrite Hs, lookup_empty. apply accounts_empty. }
  simpl in Ht. set (t := fold_left recordUsage h t0) in *. rewrite EW. split; [done|].
  destruct (Ht u m Hu Hm) as (l & D & _ & _ & _ & T).
  unfold GetRequestCount, GetTokenCount, getCutoffTimestamp in *. rewrite EW, !bool_decide_false by done. simpl.
  assert (Hcut : unix (now' - W) <= unix (now - W)) by (apply unix_mono; lia).
  destruct (active_spec l _ _ _ D Hcut) as [E1 E2]. destruct (T _ Hcut) as [<- <-]. rewrite <- E1, <- E2.
  by destruct (lookupData t u m).
Qed.

(** A window of a minute: of three updates of a user, one has expired; the
    others, one of them with a negative count, are counted. *)
Definition usages : list usage :=
  let at_ s := (1000 + s) * second in
  [MkUsage "u" "m" 10 20 (at_ 0) (at_ 0); MkUsage "v" "m" 7 7 (at_ 1) (at_ 1);
   MkUsage "u" "m" 5 1 (at_ 50) (at_ 50); MkUsage "u" "" 5 1 (at_ 50) (at_ 50);
   MkUsage "u" "m" (-3) 4 (at_ 70) (at_ 71)].

Lemma token_window_exact_witness :
  let t := fold_left recordUsage usages (NewInMemorySlidingWindowTokenTracker [WithWindowSize (60 * second)]) in
  windowSize t = 60 * second /\
  GetRequestCount t "u" "m" (1075 * second) = 2 /\ GetTokenCount t "u" "m" (1075 * second) = f_of_Z 15.
Proof.
  intros t. split; [vm_compute; reflexivity|].
  destruct (token_window_exact [WithWindowSize (60 * second)] 1 2 usages (1075 * second) "u" "m") as (_ & H1 & H2).
  - split_and!; [reflexivity..|lia|lia|lia|lia].
  - split_and!; [|vm_compute; reflexivity|vm_compute; reflexivity].
    intros e He. apply list_elem_of_In in He.
    repeat (destruct He as [<-|He]; [split; vm_compute; split; reflexivity|]). destruct He.
  - unfold usages, second. cbn [clocked uBucketAt uCutoffAt]. lia.
  - discriminate.
  - discriminate.
  - fold t in H1, H2. split; [rewrite H1; vm_compute; reflexivity|rewrite H2; vm_compute; reflexivity].
Defined.
