(* ===== verification/Names.v ===== *)
(** * pkg/model-serving-controller/utils/utils.go: names and ordinals

    The names of serving groups and role instances carry their ordinal; the
    controllers parse it back with a regular expression. *)
From Stdlib Require Import Ascii String.
From S2P Require Import Prelude.
Local Open Scope char_scope.
Local Open Scope Z_scope.

Definition newline : ascii := "010".
Definition dash : ascii := "-".

Definition isDigit (c : ascii) : bool := (48 <=? Z.of_nat (nat_of_ascii c)) && (Z.of_nat (nat_of_ascii c) <=? 57).
Definition digitOf (d : Z) : ascii := ascii_of_nat (Z.to_nat (48 + d)).
Definition digitValue (c : ascii) : Z := Z.of_nat (nat_of_ascii c) - 48.

(** [strconv.Itoa]. *)
Fixpoint formatBits (fuel : nat) (n : Z) (acc : list ascii) : list ascii :=
  match fuel with
  | O => acc
  | S fuel => if n <? 10 then digitOf n :: acc else formatBits fuel (n / 10) (digitOf (n mod 10) :: acc)
  end.

Definition digits (n : Z) : list ascii := formatBits (S (Z.to_nat (Z.log2 n))) n [].

Definition Itoa (n : Z) : string :=
  string_of_list_ascii (if n <? 0 then dash :: digits (- n) else digits n).

(** [strconv.ParseInt s 10 32] on a string of digits; [None] is an error. *)
Definition digitsValue (l : list ascii) : Z := fold_left (fun n c => n * 10 + digitValue c) l 0.

Definition ParseInt32 (l : list ascii) : option Z :=
  let n := digitsValue l in if n <=? MaxInt32 then Some n else None.

(** [strconv.Atoi]: an optional sign and digits, in an int. *)
Definition Atoi (l : list ascii) : option Z :=
  let '(neg, ds) := match l with
                    | c :: l' => if bool_decide (c = dash) then (true, l')
                                 else if bool_decide (c = "+"%char) then (false, l') else (false, l)
                    | [] => (false, [])
                    end in
  if bool_decide (ds = []) || negb (forallb isDigit ds) then None
  else
    let n := if neg : bool then - digitsValue ds else digitsValue ds in
    if (- 2 ^ 63 <=? n) && (n <? 2 ^ 63) then Some n else None.

(** A whole percentage: the number before a final percent sign. *)
Definition parsePercent (s : string) : option Z :=
  match rev (list_ascii_of_string s) with
  | c :: l => if bool_decide (c = "%"%char) then Atoi (rev l) else None
  | [] => None
  end.

Definition GenerateServingGroupName (miName : string) (idx : Z) : string := (miName ++ "-" ++ Itoa idx)%string.
Definition GenerateRoleID (roleName : string) (idx : Z) : string := (roleName ++ "-" ++ Itoa idx)%string.
Definition GeneratePodName (group role : string) (podIndex : Z) : string := (group ++ "-" ++ role ++ "-" ++ Itoa podIndex)%string.

(** [intstr.IntOrString]. *)
Inductive IntOrString :=
| IntVal (n : Z)
| StrVal (s : string).

(** The leading characters that satisfy [p], and the rest. *)
Fixpoint span (p : ascii -> bool) (l : list ascii) : list ascii * list ascii :=
  match l with
  | c :: l' => if p c then let '(a, b) := span p l' in (c :: a, b) else ([], l)
  | [] => ([], [])
  end.

(** The regular expression is any characters, a dash and digits: the digits at the end, the dash
    before them, and as much as can be matched before that ([.] is no newline). *)
Definition GetParentNameAndOrdinal (groupName : string) : string * Z :=
  let '(ds, rest) := span isDigit (rev (list_ascii_of_string groupName)) in
  match ds, rest with
  | _ :: _, c :: rest =>
    if bool_decide (c = dash) then
      let parent := (span (fun c => negb (bool_decide (c = newline))) rest).1 in
      (string_of_list_ascii (rev parent), default (-1) (ParseInt32 (rev ds)))
    else (""%string, -1)
  | _, _ => (""%string, -1)
  end.

(** The ordinal of a group or an instance. *)
Definition ordinalOf (name : string) : Z := (GetParentNameAndOrdinal name).2.

(** ** Formatting and parsing *)

Lemma digitOf_spec d : 0 <= d < 10 -> isDigit (digitOf d) = true /\ digitValue (digitOf d) = d.
Proof.
  intros Hd. unfold isDigit, digitValue, digitOf. rewrite nat_ascii_embedding by lia.
  rewrite Z2Nat.id by lia. split; [|lia]. apply andb_true_iff. split; apply Z.leb_le; lia.
Qed.

Lemma digitsValue_from l a : fold_left (fun n c => n * 10 + digitValue c) l a = a * 10 ^ Z.of_nat (length l) + digitsValue l.
Proof.
  unfold digitsValue. revert a. induction l as [|c l IH]; intros a; cbn [fold_left]; [simpl; lia|].
  rewrite IH, (IH (0 * 10 + _)). rewrite length_cons, Nat2Z.inj_succ, Z.pow_succ_r by lia. lia.
Qed.

Lemma formatBits_spec fuel : forall n acc, 0 <= n -> (Z.to_nat (Z.log2 n) < fuel)%nat -> Forall (fun c => isDigit c = true) acc ->
  exists ds, formatBits fuel n acc = ds ++ acc /\ ds <> [] /\ Forall (fun c => isDigit c = true) ds /\ digitsValue ds = n.
Proof.
  induction fuel as [|fuel IH]; intros n acc Hn Hf Hacc; [lia|]. cbn [formatBits].
  destruct (Z.ltb_spec n 10) as [Hlt|Hge].
  - destruct (digitOf_spec n) as [D1 D2]; [lia|]. exists [digitOf n]. split_and!; [done|done|by constructor|].
    unfold digitsValue. simpl. lia.
  - pose proof (Z.mod_pos_bound n 10 ltac:(lia)) as Hm. destruct (digitOf_spec _ Hm) as [D1 D2].
    assert (Hlog : Z.log2 (n / 10) < Z.log2 n).
    { apply Z.log2_lt_pow2; [apply Z.div_str_pos; lia|]. pose proof (Z.log2_spec n ltac:(lia)) as [_ Hs].
      rewrite Z.pow_succ_r in Hs by apply Z.log2_nonneg. apply Z.div_lt_upper_bound; lia. }
    pose proof (Z.log2_nonneg (n / 10)).
    destruct (IH (n / 10) (digitOf (n mod 10) :: acc)) as (ds & -> & H1 & H2 & H3);
      [apply Z.div_pos; lia|lia|by constructor|].
    exists (ds ++ [digitOf (n mod 10)]). split_and!.
    + by rewrite <- app_assoc.
    + by destruct ds.
    + apply Forall_app. split; [done|by constructor].
    + unfold digitsValue in *. rewrite fold_left_app, H3. cbn [fold_left]. rewrite D2.
      pose proof (Z.div_mod n 10). lia.
Qed.

Lemma digits_spec n : 0 <= n ->
  digits n <> [] /\ Forall (fun c => isDigit c = true) (digits n) /\ digitsValue (digits n) = n.
Proof.
  intros Hn. unfold digits. destruct (formatBits_spec (S (Z.to_nat (Z.log2 n))) n []) as (ds & -> & H); [done|lia|constructor|].
  by rewrite app_nil_r.
Qed.

Lemma span_app p l c k : Forall (fun c => p c = true) l -> p c = false -> span p (l ++ c :: k) = (l, c :: k).
Proof.
  intros Hl Hc. induction Hl as [|x l Hx Hl IH]; simpl; [by rewrite Hc|]. by rewrite Hx, IH.
Qed.

Lemma span_all p l : Forall (fun c => p c = true) l -> span p l = (l, []).
Proof. induction 1 as [|x l Hx Hl IH]; simpl; [done|]. by rewrite Hx, IH. Qed.

Lemma span_fst p l : Forall (fun c => p c = true) (span p l).1.
Proof.
  induction l as [|c l IH]; simpl; [constructor|]. destruct (p c) eqn:E; [|constructor].
  destruct (span p l) as [a b]. by constructor.
Qed.

Lemma digitsValue_nonneg l : Forall (fun c => isDigit c = true) l -> 0 <= digitsValue l.
Proof.
  unfold digitsValue. enough (H : forall a, Forall (fun c => isDigit c = true) l -> 0 <= a ->
    0 <= fold_left (fun n c => n * 10 + digitValue c) l a) by (intros; by apply H).
  induction l as [|c l IH]; intros a Hl Ha; [done|]. inversion Hl as [|? ? Hc Hl']; subst. cbn [fold_left].
  apply IH; [done|]. unfold isDigit in Hc. apply andb_true_iff in Hc as [Hc _]. apply Z.leb_le in Hc.
  unfold digitValue. lia.
Qed.

Lemma list_ascii_app s t : list_ascii_of_string (s ++ t) = list_ascii_of_string s ++ list_ascii_of_string t.
Proof. induction s as [|c s IH]; [done|]. simpl. by rewrite IH. Qed.

(** A name the program parses back whole: no newline. *)
Definition name_ok (name : string) : Prop := newline ∉ list_ascii_of_string name.

Lemma parent_ordinal name n : name_ok name -> 0 <= n <= MaxInt32 ->
  GetParentNameAndOrdinal (name ++ "-" ++ Itoa n) = (name, n).
Proof.
  intros Hname [H0 H1]. unfold Itoa. destruct (Z.ltb_spec n 0); [lia|].
  destruct (digits_spec n H0) as (Hne & Hd & Hv).
  unfold GetParentNameAndOrdinal. rewrite !list_ascii_app, list_ascii_of_string_of_list_ascii.
  change (list_ascii_of_string "-") with [dash]. rewrite !rev_app_distr, <- app_assoc. simpl.
  rewrite span_app; [|by apply Forall_rev|done].
  destruct (rev (digits n)) as [|d ds] eqn:Er.
  { apply (f_equal (@rev _)) in Er. rewrite rev_involutive in Er. done. }
  rewrite bool_decide_true by done. rewrite span_all.
  - rewrite <- Er. cbn [fst]. rewrite !rev_involutive, string_of_list_ascii_of_string. unfold ParseInt32. rewrite Hv. cbv zeta.
    destruct (Z.leb_spec n MaxInt32); [done|lia].
  - apply Forall_rev, Forall_forall. intros c Hc. rewrite bool_decide_false; [done|]. intros ->. by apply Hname.
Qed.

(** C40: the ordinal of a generated group name or role ID is parsed back, with
    the name it was made for, for every name without a newline and every
    ordinal of an int32; so two role IDs are equal only for the same role and
    ordinal. Every name whatever parses to an ordinal that fits an int32, or
    to -1. *)
Theorem names_roundtrip name n name' n' :
  name_ok name -> 0 <= n <= MaxInt32 -> name_ok name' -> 0 <= n' <= MaxInt32 ->
  GetParentNameAndOrdinal (GenerateServingGroupName name n) = (name, n) /\
  GetParentNameAndOrdinal (GenerateRoleID name n) = (name, n) /\
  (GenerateRoleID name n = GenerateRoleID name' n' -> name = name' /\ n = n') /\
  forall any, -1 <= ordinalOf any <= MaxInt32.
Proof.
  intros H1 H2 H3 H4. unfold GenerateServingGroupName, GenerateRoleID.
  split; [by apply parent_ordinal|]. split; [by apply parent_ordinal|]. split.
  - intros E. apply (f_equal GetParentNameAndOrdinal) in E. rewrite !parent_ordinal in E by done. by simplify_eq.
  - intros any. unfold ordinalOf, GetParentNameAndOrdinal. destruct (span _ _) as [ds rest] eqn:E.
    pose proof (span_fst isDigit (rev (list_ascii_of_string any))) as Hds. rewrite E in Hds.
    assert (Hn : 0 <= digitsValue (rev ds)) by (by apply digitsValue_nonneg, Forall_rev).
    destruct ds as [|d ds], rest as [|c rest]; try (simpl; unfold MaxInt32; lia).
    case_bool_decide; [|simpl; unfold MaxInt32; lia].
    unfold ParseInt32. cbv zeta. cbn [snd]. set (v := digitsValue _) in *. clearbody v.
    destruct (Z.leb_spec v MaxInt32); simpl; unfold MaxInt32 in *; lia.
Qed.

Lemma names_roundtrip_witness :
  name_ok "vllm-prefill" /\ GetParentNameAndOrdinal (GenerateRoleID "vllm-prefill" 120) = ("vllm-prefill"%string, 120).
Proof.
  assert (H : name_ok "vllm-prefill") by (apply (bool_decide_unpack (newline ∉ _)); vm_compute; exact I).
  split; [exact H|].
  destruct (names_roundtrip "vllm-prefill" 120 "vllm-prefill" 120) as (_ & H2 & _);
    [exact H|unfold MaxInt32; lia|exact H|unfold MaxInt32; lia|exact H2].
Defined.

(** ** Names built from names *)

Lemma append_assoc (a b c : string) : (a ++ (b ++ c))%string = ((a ++ b) ++ c)%string.
Proof. induction a as [|x a IH]; [done|]. by apply (f_equal (String x)) in IH. Qed.

Lemma append_inj (a b c : string) : (a ++ b)%string = (a ++ c)%string -> b = c.
Proof. induction a as [|x a IH]; [done|]. intros E. apply IH. by injection E. Qed.

Lemma name_ok_append a b : name_ok a -> name_ok b -> name_ok (a ++ b).
Proof. unfold name_ok. rewrite list_ascii_app. intros Ha Hb Hin. apply elem_of_app in Hin as [Hin|Hin]; auto. Qed.

Lemma name_ok_ordinal name n : name_ok name -> 0 <= n -> name_ok (name ++ "-" ++ Itoa n).
Proof.
  intros Hname Hn. apply name_ok_append; [done|]. apply name_ok_append.
  - unfold name_ok. simpl. intros Hin. by apply list_elem_of_singleton in Hin.
  - unfold Itoa. destruct (Z.ltb_spec n 0); [lia|]. unfold name_ok. rewrite list_ascii_of_string_of_list_ascii.
    intros Hin. destruct (digits_spec n Hn) as (_ & Hd & _). rewrite Forall_forall in Hd. by specialize (Hd _ Hin).
Qed.

(** The pods of the instances of a group have distinct names. *)
Lemma podName_inj group role i j role' i' j' :
  name_ok group -> name_ok role -> name_ok role' -> 0 <= i <= MaxInt32 -> 0 <= j <= MaxInt32 -> 0 <= i' <= MaxInt32 -> 0 <= j' <= MaxInt32 ->
  GeneratePodName group (GenerateRoleID role i) j = GeneratePodName group (GenerateRoleID role' i') j' -> role = role' /\ i = i' /\ j = j'.
Proof.
  intros Hg Hr Hr' Hi Hj Hi' Hj'. unfold GeneratePodName, GenerateRoleID.
  assert (Hok : forall r k, name_ok r -> name_ok (group ++ "-" ++ r) /\ (0 <= k -> name_ok (group ++ "-" ++ r ++ "-" ++ Itoa k))).
  { intros r k Hrok. split.
    - apply name_ok_append; [done|]. apply name_ok_append; [|done]. unfold name_ok. simpl. intros Hin. by apply list_elem_of_singleton in Hin.
    - intros Hk. rewrite (append_assoc "-" r), append_assoc. apply name_ok_ordinal; [|done].
      apply name_ok_append; [done|]. apply name_ok_append; [|done]. unfold name_ok. simpl. intros Hin. by apply list_elem_of_singleton in Hin. }
  assert (E1 : forall r k n, (group ++ "-" ++ (r ++ "-" ++ Itoa k) ++ "-" ++ Itoa n)%string = ((group ++ "-" ++ r ++ "-" ++ Itoa k) ++ "-" ++ Itoa n)%string)
    by (intros; by rewrite <- !append_assoc).
  rewrite !E1. intros E. apply (f_equal GetParentNameAndOrdinal) in E. rewrite !parent_ordinal in E by (try done; apply Hok; (done || lia)).
  injection E as E ->. split_and!; [| |done].
  - apply append_inj, (append_inj "-") in E. apply (f_equal GetParentNameAndOrdinal) in E. rewrite !parent_ordinal in E by done. by injection E.
  - apply append_inj, (append_inj "-") in E. apply (f_equal GetParentNameAndOrdinal) in E. rewrite !parent_ordinal in E by done. by injection E.
Qed.
