(* ===== verification/ServingStore.v ===== *)
(** * pkg/model-serving-controller/datastore/store.go

    The in-memory store of serving groups and role instances. The maps of maps
    are finite maps; every operation runs under the store's mutex and is one
    step. The structs the queries return are copies. *)
From stdpp Require Import sorting.
From S2P Require Import Prelude Names.
Local Open Scope Z_scope.

Record NamespacedName := MkName { Namespace : string; Name : string }.

#[global] Instance NamespacedName_eq_dec : EqDecision NamespacedName.
Proof. solve_decision. Defined.
#[global] Program Instance NamespacedName_countable : Countable NamespacedName :=
  inj_countable' (fun n => (Namespace n, Name n)) (fun p => MkName p.1 p.2) _.
Next Obligation. by intros []. Qed.

Inductive ServingGroupStatus :=
| ServingGroupRunning | ServingGroupCreating | ServingGroupDeleting | ServingGroupScaling | ServingGroupNotFound.
Inductive RoleStatus := RoleCreating | RoleRunning | RoleDeleting | RoleNotFound.

#[global] Instance ServingGroupStatus_eq_dec : EqDecision ServingGroupStatus.
Proof. solve_decision. Defined.
#[global] Instance RoleStatus_eq_dec : EqDecision RoleStatus.
Proof. solve_decision. Defined.

Record Role := MkRole {
  RoleName : string;
  RoleRevision : string;
  RoleTemplateHash : string;
  Status : RoleStatus
}.

#[global] Instance Role_eq_dec : EqDecision Role.
Proof. solve_decision. Defined.

Record ServingGroup := MkGroup {
  GroupName : string;
  runningPods : gset string;
  GroupRevision : string;
  GroupStatus : ServingGroupStatus;
  roles : gmap string (gmap string Role)
}.

(** How a stored unit compares with a template
    (controller/revision_history.go). *)
Inductive templateComparison := templateUnknown | templateEquivalent | templateDifferent.

#[global] Instance templateComparison_eq_dec : EqDecision templateComparison.
Proof. solve_decision. Defined.

Abbreviation store := (gmap NamespacedName (gmap string ServingGroup)).

Inductive storeError :=
| ErrServingGroupNotFound | ErrModelServing | ErrServingGroup | ErrRoleName | ErrRole.

Definition New : store := ∅.

Definition set_groups (s : store) (ms : NamespacedName) (groups : gmap string ServingGroup) : store :=
  <[ms := groups]> s.
Definition set_roles (g : ServingGroup) (r : gmap string (gmap string Role)) : ServingGroup :=
  MkGroup (GroupName g) (runningPods g) (GroupRevision g) (GroupStatus g) r.
Definition set_pods (g : ServingGroup) (pods : gset string) : ServingGroup :=
  MkGroup (GroupName g) pods (GroupRevision g) (GroupStatus g) (roles g).
Definition set_status (g : ServingGroup) (status : ServingGroupStatus) : ServingGroup :=
  MkGroup (GroupName g) (runningPods g) (GroupRevision g) status (roles g).
Definition set_revision (g : ServingGroup) (revision : string) : ServingGroup :=
  MkGroup (GroupName g) (runningPods g) revision (GroupStatus g) (roles g).

(** ** Queries *)

Definition lookupGroup (s : store) (ms : NamespacedName) (group : string) : option ServingGroup :=
  groups ← s !! ms; groups !! group.
Definition lookupRole (s : store) (ms : NamespacedName) (group role roleID : string) : option Role :=
  g ← lookupGroup s ms group; roleMap ← roles g !! role; roleMap !! roleID.

(** The order of [slices.SortFunc]: by ordinal. *)
Definition groupLe (a b : ServingGroup) : Prop := ordinalOf (GroupName a) <= ordinalOf (GroupName b).
Definition roleLe (a b : Role) : Prop := ordinalOf (RoleName a) <= ordinalOf (RoleName b).
#[global] Instance groupLe_dec a b : Decision (groupLe a b).
Proof. unfold groupLe. apply _. Defined.
#[global] Instance roleLe_dec a b : Decision (roleLe a b).
Proof. unfold roleLe. apply _. Defined.

Definition GetServingGroupByModelServing (s : store) (ms : NamespacedName) : list ServingGroup + storeError :=
  match s !! ms with
  | None => inr ErrServingGroupNotFound
  | Some groups => inl (merge_sort groupLe ((map_to_list groups).*2))
  end.

Definition GetRoleList (s : store) (ms : NamespacedName) (group role : string) : list Role + storeError :=
  match s !! ms with
  | None => inr ErrModelServing
  | Some groups =>
    match groups !! group with
    | None => inr ErrServingGroupNotFound
    | Some g =>
      match roles g !! role with
      | None => inl []
      | Some roleMap => inl (merge_sort roleLe ((map_to_list roleMap).*2))
      end
    end
  end.

Definition GetRolesByGroup (s : store) (ms : NamespacedName) (group : string) :
    gmap string (gmap string Role) + storeError :=
  match s !! ms with
  | None => inr ErrModelServing
  | Some groups =>
    match groups !! group with
    | None => inr ErrServingGroup
    | Some g => inl (roles g)
    end
  end.

Definition GetRoleStatus (s : store) ms group role roleID : RoleStatus :=
  from_option Status RoleNotFound (lookupRole s ms group role roleID).

Definition GetRunningPodNumByServingGroup (s : store) ms group : Z + storeError :=
  match s !! ms with
  | None => inr ErrModelServing
  | Some groups =>
    match groups !! group with
    | None => inl 0
    | Some g => inl (Z.of_nat (size (runningPods g)))
    end
  end.

Definition GetServingGroupRevision (s : store) ms group : string * bool :=
  match lookupGroup s ms group with
  | Some g => (GroupRevision g, true)
  | None => (""%string, false)
  end.

Definition GetServingGroupStatus (s : store) ms group : ServingGroupStatus :=
  from_option GroupStatus ServingGroupNotFound (lookupGroup s ms group).

(** ** Updates *)

Definition UpdateRoleStatus (s : store) ms group role roleID (status : RoleStatus) : option storeError * store :=
  match s !! ms with
  | None => (Some ErrModelServing, s)
  | Some groups =>
    match groups !! group with
    | None => (Some ErrServingGroupNotFound, s)
    | Some g =>
      match roles g !! role with
      | None => (Some ErrRoleName, s)
      | Some roleMap =>
        match roleMap !! roleID with
        | None => (Some ErrRole, s)
        | Some r =>
          let r := MkRole (RoleName r) (RoleRevision r) (RoleTemplateHash r) status in
          (None, set_groups s ms (<[group := set_roles g (<[role := <[roleID := r]> roleMap]> (roles g))]> groups))
        end
      end
    end
  end.

Definition DeleteModelServing (s : store) ms : store := delete ms s.

Definition DeleteServingGroup (s : store) ms group : store :=
  match s !! ms with
  | Some groups => set_groups s ms (delete group groups)
  | None => s
  end.

Definition DeleteRole (s : store) ms group role roleID : store :=
  match s !! ms with
  | None => s
  | Some groups =>
    match groups !! group with
    | None => s
    | Some g =>
      match roles g !! role with
      | None => s
      | Some roleMap =>
        set_groups s ms (<[group := set_roles g (<[role := delete roleID roleMap]> (roles g))]> groups)
      end
    end
  end.

Definition newGroup (name revision : string) : ServingGroup := MkGroup name ∅ revision ServingGroupCreating ∅.

Definition AddServingGroup (s : store) ms (idx : Z) revision : store :=
  let name := GenerateServingGroupName (Name ms) idx in
  let groups := default ∅ (s !! ms) in
  match groups !! name with
  | Some _ => set_groups s ms groups
  | None => set_groups s ms (<[name := newGroup name revision]> groups)
  end.

(** The entry of a role, added unless it is there. *)
Definition ensureRole (g : ServingGroup) role roleID revision hash : ServingGroup :=
  let roleMap := default ∅ (roles g !! role) in
  match roleMap !! roleID with
  | Some _ => set_roles g (<[role := roleMap]> (roles g))
  | None => set_roles g (<[role := <[roleID := MkRole roleID revision hash RoleCreating]> roleMap]> (roles g))
  end.

Definition AddRole (s : store) ms group role roleID revision hash : store :=
  let groups := default ∅ (s !! ms) in
  let g := default (newGroup group revision) (groups !! group) in
  set_groups s ms (<[group := ensureRole g role roleID revision hash]> groups).

Definition AddRunningPodToServingGroup (s : store) ms group pod revision hash role roleID : store :=
  let groups := default ∅ (s !! ms) in
  let g := default (newGroup group revision) (groups !! group) in
  let g := set_pods g ({[pod]} ∪ runningPods g) in
  set_groups s ms (<[group := ensureRole g role roleID revision hash]> groups).

Definition AddServingGroupAndRole (s : store) ms group revision hash role roleID : store :=
  let groups := default ∅ (s !! ms) in
  let g := default (newGroup group revision) (groups !! group) in
  set_groups s ms (<[group := ensureRole g role roleID revision hash]> groups).

Definition DeleteRunningPodFromServingGroup (s : store) ms group pod : store :=
  match s !! ms with
  | None => s
  | Some groups =>
    match groups !! group with
    | None => s
    | Some g => set_groups s ms (<[group := set_pods g (runningPods g ∖ {[pod]})]> groups)
    end
  end.

Definition UpdateServingGroupStatus (s : store) ms group status : option storeError * store :=
  match s !! ms with
  | None => (Some ErrModelServing, s)
  | Some groups =>
    match groups !! group with
    | Some g => (None, set_groups s ms (<[group := set_status g status]> groups))
    | None => (Some ErrServingGroup, s)
    end
  end.

Definition UpdateRoleRevision (s : store) ms group role roleID revision hash : option storeError * store :=
  match lookupGroup s ms group with
  | None => (Some ErrServingGroup, s)
  | Some g =>
    match roles g !! role with
    | None => (Some ErrRole, s)
    | Some roleMap =>
      match roleMap !! roleID with
      | None => (Some ErrRole, s)
      | Some r =>
        let r := MkRole (RoleName r) revision hash (Status r) in
        (None, set_groups s ms (<[group := set_roles g (<[role := <[roleID := r]> roleMap]> (roles g))]>
                                  (default ∅ (s !! ms))))
      end
    end
  end.

Definition UpdateServingGroupRevision (s : store) ms group revision : option storeError * store :=
  match s !! ms with
  | None => (Some ErrModelServing, s)
  | Some groups =>
    match groups !! group with
    | Some g => (None, set_groups s ms (<[group := set_revision g revision]> groups))
    | None => (Some ErrServingGroup, s)
    end
  end.

(** An update, as a value. *)
Inductive StoreOp :=
| OpUpdateRoleStatus (ms : NamespacedName) (group role roleID : string) (status : RoleStatus)
| OpDeleteModelServing (ms : NamespacedName)
| OpDeleteServingGroup (ms : NamespacedName) (group : string)
| OpDeleteRole (ms : NamespacedName) (group role roleID : string)
| OpAddServingGroup (ms : NamespacedName) (idx : Z) (revision : string)
| OpAddRole (ms : NamespacedName) (group role roleID revision hash : string)
| OpAddRunningPod (ms : NamespacedName) (group pod revision hash role roleID : string)
| OpAddServingGroupAndRole (ms : NamespacedName) (group revision hash role roleID : string)
| OpDeleteRunningPod (ms : NamespacedName) (group pod : string)
| OpUpdateServingGroupStatus (ms : NamespacedName) (group : string) (status : ServingGroupStatus)
| OpUpdateRoleRevision (ms : NamespacedName) (group role roleID revision hash : string)
| OpUpdateServingGroupRevision (ms : NamespacedName) (group revision : string).

Definition storeStep (op : StoreOp) (s : store) : option storeError * store :=
  match op with
  | OpUpdateRoleStatus ms g r i st => UpdateRoleStatus s ms g r i st
  | OpDeleteModelServing ms => (None, DeleteModelServing s ms)
  | OpDeleteServingGroup ms g => (None, DeleteServingGroup s ms g)
  | OpDeleteRole ms g r i => (None, DeleteRole s ms g r i)
  | OpAddServingGroup ms idx rev => (None, AddServingGroup s ms idx rev)
  | OpAddRole ms g r i rev h => (None, AddRole s ms g r i rev h)
  | OpAddRunningPod ms g p rev h r i => (None, AddRunningPodToServingGroup s ms g p rev h r i)
  | OpAddServingGroupAndRole ms g rev h r i => (None, AddServingGroupAndRole s ms g rev h r i)
  | OpDeleteRunningPod ms g p => (None, DeleteRunningPodFromServingGroup s ms g p)
  | OpUpdateServingGroupStatus ms g st => UpdateServingGroupStatus s ms g st
  | OpUpdateRoleRevision ms g r i rev h => UpdateRoleRevision s ms g r i rev h
  | OpUpdateServingGroupRevision ms g rev => UpdateServingGroupRevision s ms g rev
  end.

Definition storeRun (ops : list StoreOp) : store := fold_left (fun s op => (storeStep op s).2) ops New.

(** ** What the store promises: flat maps of groups and of role instances *)

Record GroupInfo := MkGroupInfo { gRevision : string; gStatus : ServingGroupStatus; gPods : gset string }.
Record RoleInfo := MkRoleInfo { rRevision : string; rHash : string; rStatus : RoleStatus }.

Record View := MkView {
  vKnown : NamespacedName -> bool;
  vGroup : NamespacedName -> string -> option GroupInfo;
  vRole : NamespacedName -> string -> string -> string -> option RoleInfo
}.

Definition view_equiv (v w : View) : Prop :=
  (forall ms, vKnown v ms = vKnown w ms) /\ (forall ms g, vGroup v ms g = vGroup w ms g) /\
  (forall ms g r i, vRole v ms g r i = vRole w ms g r i).

#[global] Instance view_equiv_equivalence : Equivalence view_equiv.
Proof.
  split.
  - intros v. by split.
  - intros v w (H1 & H2 & H3). split; [done|]. by split.
  - intros u v w (H1 & H2 & H3) (H4 & H5 & H6). split; [|split]; intros; etrans; eauto.
Qed.

Definition setKnown (v : View) ms (b : bool) : View :=
  MkView (fun ms' => if decide (ms' = ms) then b else vKnown v ms') (vGroup v) (vRole v).
Definition setGroup (v : View) ms g (x : option GroupInfo) : View :=
  MkView (vKnown v) (fun ms' g' => if decide ((ms', g') = (ms, g)) then x else vGroup v ms' g') (vRole v).
Definition setRole (v : View) ms g r i (x : option RoleInfo) : View :=
  MkView (vKnown v) (vGroup v)
    (fun ms' g' r' i' => if decide ((ms', g', r', i') = (ms, g, r, i)) then x else vRole v ms' g' r' i').

(** A group or a role is created at first mention and kept afterwards. *)
Definition ensureBoth (v : View) ms g r i revision hash (pods : gset string) : View :=
  let G := default (MkGroupInfo revision ServingGroupCreating ∅) (vGroup v ms g) in
  let R := default (MkRoleInfo revision hash RoleCreating) (vRole v ms g r i) in
  setRole (setGroup (setKnown v ms true) ms g
    (Some (MkGroupInfo (gRevision G) (gStatus G) (pods ∪ gPods G)))) ms g r i (Some R).

Definition specStep (op : StoreOp) (v : View) : bool * View :=
  match op with
  | OpUpdateRoleStatus ms g r i status =>
    match vRole v ms g r i with
    | Some R => (true, setRole v ms g r i (Some (MkRoleInfo (rRevision R) (rHash R) status)))
    | None => (false, v)
    end
  | OpUpdateRoleRevision ms g r i revision hash =>
    match vRole v ms g r i with
    | Some R => (true, setRole v ms g r i (Some (MkRoleInfo revision hash (rStatus R))))
    | None => (false, v)
    end
  | OpUpdateServingGroupStatus ms g status =>
    match vGroup v ms g with
    | Some G => (true, setGroup v ms g (Some (MkGroupInfo (gRevision G) status (gPods G))))
    | None => (false, v)
    end
  | OpUpdateServingGroupRevision ms g revision =>
    match vGroup v ms g with
    | Some G => (true, setGroup v ms g (Some (MkGroupInfo revision (gStatus G) (gPods G))))
    | None => (false, v)
    end
  | OpDeleteModelServing ms =>
    (true, MkView (fun ms' => if decide (ms' = ms) then false else vKnown v ms')
             (fun ms' g => if decide (ms' = ms) then None else vGroup v ms' g)
             (fun ms' g r i => if decide (ms' = ms) then None else vRole v ms' g r i))
  | OpDeleteServingGroup ms g =>
    (true, MkView (vKnown v)
             (fun ms' g' => if decide ((ms', g') = (ms, g)) then None else vGroup v ms' g')
             (fun ms' g' r i => if decide ((ms', g') = (ms, g)) then None else vRole v ms' g' r i))
  | OpDeleteRole ms g r i => (true, setRole v ms g r i None)
  | OpAddServingGroup ms idx revision =>
    let g := GenerateServingGroupName (Name ms) idx in
    (true, setGroup (setKnown v ms true) ms g
             (Some (default (MkGroupInfo revision ServingGroupCreating ∅) (vGroup v ms g))))
  | OpAddRole ms g r i revision hash | OpAddServingGroupAndRole ms g revision hash r i =>
    (true, ensureBoth v ms g r i revision hash ∅)
  | OpAddRunningPod ms g pod revision hash r i => (true, ensureBoth v ms g r i revision hash {[pod]})
  | OpDeleteRunningPod ms g pod =>
    (true, setGroup v ms g
             ((fun G => MkGroupInfo (gRevision G) (gStatus G) (gPods G ∖ {[pod]})) <$> vGroup v ms g))
  end.

Definition groupInfo (g : ServingGroup) : GroupInfo := MkGroupInfo (GroupRevision g) (GroupStatus g) (runningPods g).
Definition roleInfo (r : Role) : RoleInfo := MkRoleInfo (RoleRevision r) (RoleTemplateHash r) (Status r).

Definition view (s : store) : View :=
  MkView (fun ms => bool_decide (is_Some (s !! ms)))
    (fun ms g => groupInfo <$> lookupGroup s ms g)
    (fun ms g r i => roleInfo <$> lookupRole s ms g r i).

(** Every entry is stored under its own name. *)
Definition store_wf (s : store) : Prop :=
  (forall ms g G, lookupGroup s ms g = Some G -> GroupName G = g) /\
  (forall ms g r i R, lookupRole s ms g r i = Some R -> RoleName R = i).

(** ** The store implements the flat maps *)

Definition putGroup (s : store) ms g (G : ServingGroup) : store :=
  set_groups s ms (<[g := G]> (default ∅ (s !! ms))).

Lemma lookupGroup_put s ms g G ms' g' :
  lookupGroup (putGroup s ms g G) ms' g' = if decide ((ms', g') = (ms, g)) then Some G else lookupGroup s ms' g'.
Proof.
  unfold lookupGroup, putGroup, set_groups. destruct (decide (ms' = ms)) as [->|].
  - rewrite lookup_insert_eq. simpl. destruct (decide (g' = g)) as [->|].
    + by rewrite lookup_insert_eq, decide_True.
    + rewrite lookup_insert_ne, decide_False by congruence. by destruct (s !! ms).
  - by rewrite lookup_insert_ne, decide_False by congruence.
Qed.

Lemma lookupRole_put s ms g G ms' g' r i :
  lookupRole (putGroup s ms g G) ms' g' r i =
    if decide ((ms', g') = (ms, g)) then roleMap ← roles G !! r; roleMap !! i else lookupRole s ms' g' r i.
Proof. unfold lookupRole. rewrite lookupGroup_put. by case_decide. Qed.

Lemma known_put s ms g G ms' : is_Some (putGroup s ms g G !! ms') <-> ms' = ms \/ is_Some (s !! ms').
Proof.
  unfold putGroup, set_groups. destruct (decide (ms' = ms)) as [->|].
  - rewrite lookup_insert_eq. naive_solver.
  - rewrite lookup_insert_ne by done. naive_solver.
Qed.

Lemma lookupGroup_known s ms g G : lookupGroup s ms g = Some G -> is_Some (s !! ms).
Proof. unfold lookupGroup. destruct (s !! ms); [by eexists|done]. Qed.

Lemma lookupRole_group s ms g r i R : lookupRole s ms g r i = Some R ->
  exists G roleMap, lookupGroup s ms g = Some G /\ roles G !! r = Some roleMap /\ roleMap !! i = Some R.
Proof. unfold lookupRole. intros (G & E1 & (m & E2 & E3)%bind_Some)%bind_Some. by exists G, m. Qed.

(** An update of one group, in the view. *)
Lemma view_put s ms g G : view_equiv (view (putGroup s ms g G))
  (MkView (fun ms' => bool_decide (ms' = ms) || vKnown (view s) ms')
     (fun ms' g' => if decide ((ms', g') = (ms, g)) then Some (groupInfo G) else vGroup (view s) ms' g')
     (fun ms' g' r i => if decide ((ms', g') = (ms, g))
                        then roleInfo <$> (roleMap ← roles G !! r; roleMap !! i)
                        else vRole (view s) ms' g' r i)).
Proof.
  split; [|split]; intros; simpl.
  - apply eq_bool_prop_intro. rewrite orb_True, !bool_decide_spec. apply known_put.
  - rewrite lookupGroup_put. by case_decide.
  - rewrite lookupRole_put. by case_decide.
Qed.

Lemma ensureRole_lookup G role roleID revision hash r i :
  (roleMap ← roles (ensureRole G role roleID revision hash) !! r; roleMap !! i) =
    if decide ((r, i) = (role, roleID))
    then Some (default (MkRole roleID revision hash RoleCreating) (roleMap ← roles G !! role; roleMap !! roleID))
    else roleMap ← roles G !! r; roleMap !! i.
Proof.
  unfold ensureRole. destruct (roles G !! role) as [m|] eqn:Em; simpl.
  - destruct (m !! roleID) as [R|] eqn:ER; simpl.
    + destruct (decide (r = role)) as [->|]; [|by rewrite lookup_insert_ne, decide_False by congruence].
      rewrite lookup_insert_eq, Em. simpl. case_decide; by simplify_eq.
    + destruct (decide (r = role)) as [->|]; [|by rewrite lookup_insert_ne, decide_False by congruence].
      rewrite lookup_insert_eq, Em. simpl. destruct (decide (i = roleID)) as [->|].
      * by rewrite lookup_insert_eq, decide_True.
      * by rewrite lookup_insert_ne, decide_False by congruence.
  - rewrite lookup_empty. simpl. destruct (decide (r = role)) as [->|];
      [|by rewrite lookup_insert_ne, decide_False by congruence].
    rewrite lookup_insert_eq, Em. simpl. destruct (decide (i = roleID)) as [->|].
    + by rewrite lookup_insert_eq, decide_True.
    + by rewrite lookup_insert_ne, lookup_empty, decide_False by congruence.
Qed.

Lemma known_absorb s ms g G ms' : lookupGroup s ms g = Some G ->
  bool_decide (ms' = ms) || bool_decide (is_Some (s !! ms')) = bool_decide (is_Some (s !! ms')).
Proof.
  intros HG. destruct (decide (ms' = ms)) as [->|]; [|by rewrite bool_decide_false].
  rewrite (bool_decide_true (is_Some _)), orb_true_r by by eapply lookupGroup_known. done.
Qed.

Lemma view_put_group s ms g G G' : lookupGroup s ms g = Some G -> roles G' = roles G ->
  view_equiv (view (putGroup s ms g G')) (setGroup (view s) ms g (Some (groupInfo G'))).
Proof.
  intros HG Hr. rewrite view_put. split; [|split]; intros; simpl; [by eapply known_absorb|done|].
  case_decide as E; [|done]. injection E as -> ->. by rewrite Hr; unfold lookupRole; rewrite HG.
Qed.

Lemma view_put_role s ms g G G' r i x : lookupGroup s ms g = Some G -> groupInfo G' = groupInfo G ->
  (forall r' i', (m ← roles G' !! r'; m !! i') =
     if decide ((r', i') = (r, i)) then x else m ← roles G !! r'; m !! i') ->
  view_equiv (view (putGroup s ms g G')) (setRole (view s) ms g r i (roleInfo <$> x)).
Proof.
  intros HG Hi Hr. rewrite view_put. split; [|split]; intros; simpl; [by eapply known_absorb| |].
  - case_decide as E; [|done]. injection E as -> ->. by rewrite HG, Hi.
  - case_decide as E; [|by rewrite decide_False by congruence]. injection E as -> ->. rewrite Hr.
    unfold lookupRole. rewrite HG. simpl. repeat case_decide; by simplify_eq.
Qed.

Lemma view_ensure s ms g r i revision hash pods :
  let G := default (newGroup g revision) (lookupGroup s ms g) in
  view_equiv (view (putGroup s ms g (ensureRole (set_pods G (pods ∪ runningPods G)) r i revision hash)))
    (ensureBoth (view s) ms g r i revision hash pods).
Proof.
  intros G. rewrite view_put. split; [|split].
  - intros ms'. simpl. case_decide; [by rewrite bool_decide_true|by rewrite bool_decide_false].
  - intros ms' g'. simpl. case_decide as E; [|done]. injection E as -> ->. subst G.
    unfold ensureRole, groupInfo. destruct (lookupGroup s ms g) as [G|]; simpl; by case_match.
  - intros ms' g' r' i'. simpl. rewrite ensureRole_lookup. subst G. unfold lookupRole at 2.
    case_decide as E; [|by rewrite decide_False by congruence]. injection E as -> ->.
    destruct (decide ((r', i') = (r, i))) as [E|].
    + injection E as -> ->. rewrite decide_True by done. simpl. unfold lookupRole.
      destruct (lookupGroup s ms g) as [G|]; simpl; [|by rewrite lookup_empty].
      destruct (roles G !! r) as [m|]; simpl; [|done]. by destruct (m !! i).
    + rewrite decide_False by congruence. unfold lookupRole.
      destruct (lookupGroup s ms g) as [G|]; simpl; [done|]. by rewrite lookup_empty.
Qed.

Lemma put_known s ms groups g G : s !! ms = Some groups -> set_groups s ms (<[g := G]> groups) = putGroup s ms g G.
Proof. intros E. unfold putGroup. by rewrite E. Qed.

Lemma group_of s ms groups g : s !! ms = Some groups -> lookupGroup s ms g = groups !! g.
Proof. intros E. unfold lookupGroup. by rewrite E. Qed.

Lemma group_default s ms g : default ∅ (s !! ms) !! g = lookupGroup s ms g.
Proof. unfold lookupGroup. destruct (s !! ms); [done|]. simpl. by rewrite lookup_empty. Qed.

(** Putting one role into the map of its name. *)
Lemma insert_role_lookup G r m i R r' i' : roles G !! r = Some m ->
  (m ← roles (set_roles G (<[r := <[i := R]> m]> (roles G))) !! r'; m !! i') =
    if decide ((r', i') = (r, i)) then Some R else m ← roles G !! r'; m !! i'.
Proof.
  intros Em. simpl. destruct (decide (r' = r)) as [->|]; [|by rewrite lookup_insert_ne, decide_False by congruence].
  rewrite lookup_insert_eq, Em. simpl. destruct (decide (i' = i)) as [->|].
  - by rewrite lookup_insert_eq, decide_True.
  - by rewrite lookup_insert_ne, decide_False by congruence.
Qed.

Lemma delete_role_lookup G r m i r' i' : roles G !! r = Some m ->
  (m ← roles (set_roles G (<[r := delete i m]> (roles G))) !! r'; m !! i') =
    if decide ((r', i') = (r, i)) then None else m ← roles G !! r'; m !! i'.
Proof.
  intros Em. simpl. destruct (decide (r' = r)) as [->|]; [|by rewrite lookup_insert_ne, decide_False by congruence].
  rewrite lookup_insert_eq, Em. simpl. destruct (decide (i' = i)) as [->|].
  - by rewrite lookup_delete_eq, decide_True.
  - by rewrite lookup_delete_ne, decide_False by congruence.
Qed.

(** What a step does: nothing with an error, or an update of the view. *)
Definition step_ok (op : StoreOp) (s : store) : Prop :=
  view_equiv (view (storeStep op s).2) (specStep op (view s)).2 /\
  bool_decide ((storeStep op s).1 = None) = (specStep op (view s)).1.

Lemma lookupRole_none_group s ms g r i : lookupGroup s ms g = None -> lookupRole s ms g r i = None.
Proof. unfold lookupRole. by intros ->. Qed.

Lemma lookupRole_at s ms g G r m i : lookupGroup s ms g = Some G -> roles G !! r = Some m -> lookupRole s ms g r i = m !! i.
Proof. unfold lookupRole. intros -> E. simpl. by rewrite E. Qed.

Lemma lookupRole_none_map s ms g G r i : lookupGroup s ms g = Some G -> roles G !! r = None -> lookupRole s ms g r i = None.
Proof. unfold lookupRole. intros -> E. simpl. by rewrite E. Qed.

Lemma setRole_none_same v ms g r i : vRole v ms g r i = None -> view_equiv (setRole v ms g r i None) v.
Proof. intros E. split; [|split]; intros; simpl; try done. case_decide as H; [by injection H as -> -> -> ->|done]. Qed.

Lemma setGroup_none_same v ms g : vGroup v ms g = None -> view_equiv (setGroup v ms g None) v.
Proof. intros E. split; [|split]; intros; simpl; try done. case_decide as H; [by injection H as -> ->|done]. Qed.

Lemma step_update_role_status ms g r i status s : step_ok (OpUpdateRoleStatus ms g r i status) s.
Proof.
  unfold step_ok, storeStep, specStep, UpdateRoleStatus. destruct (s !! ms) as [groups|] eqn:Es.
  2: { simpl. rewrite lookupRole_none_group; [done|]. unfold lookupGroup. by rewrite Es. }
  pose proof (group_of s ms groups g Es) as Eg. destruct (groups !! g) as [G|]; [|by simpl; rewrite lookupRole_none_group].
  destruct (roles G !! r) as [m|] eqn:Em; [|by simpl; rewrite (lookupRole_none_map s ms g G)].
  cbn [vRole view]. rewrite (lookupRole_at s ms g G r m i Eg Em). destruct (m !! i) as [R|] eqn:Ei; [|done]. simpl. split; [|done].
  rewrite (put_known _ _ _ _ _ Es). etrans; [apply (view_put_role s ms g G _ r i); [done|done|]|].
  - intros r' i'. by apply insert_role_lookup.
  - done.
Qed.

Lemma step_update_role_revision ms g r i revision hash s : step_ok (OpUpdateRoleRevision ms g r i revision hash) s.
Proof.
  unfold step_ok, storeStep, specStep, UpdateRoleRevision.
  destruct (lookupGroup s ms g) as [G|] eqn:Eg; [|by simpl; rewrite lookupRole_none_group].
  destruct (roles G !! r) as [m|] eqn:Em; [|by simpl; rewrite (lookupRole_none_map s ms g G)].
  cbn [vRole view]. rewrite (lookupRole_at s ms g G r m i Eg Em). destruct (m !! i) as [R|] eqn:Ei; [|done]. simpl. split; [|done].
  etrans; [apply (view_put_role s ms g G _ r i); [done|done|]|].
  - intros r' i'. by apply insert_role_lookup.
  - done.
Qed.

Lemma step_update_group_status ms g status s : step_ok (OpUpdateServingGroupStatus ms g status) s.
Proof.
  unfold step_ok, storeStep, specStep, UpdateServingGroupStatus. destruct (s !! ms) as [groups|] eqn:Es.
  2: { simpl. unfold lookupGroup. by rewrite Es. }
  cbn [vGroup view]. rewrite (group_of s ms groups g Es). destruct (groups !! g) as [G|] eqn:Eg; [|done]. split; [|done].
  rewrite <- (group_of s ms groups g Es) in Eg. cbn [snd]. rewrite (put_known _ _ _ _ _ Es).
  by apply (view_put_group s ms g G).
Qed.

Lemma step_update_group_revision ms g revision s : step_ok (OpUpdateServingGroupRevision ms g revision) s.
Proof.
  unfold step_ok, storeStep, specStep, UpdateServingGroupRevision. destruct (s !! ms) as [groups|] eqn:Es.
  2: { simpl. unfold lookupGroup. by rewrite Es. }
  cbn [vGroup view]. rewrite (group_of s ms groups g Es). destruct (groups !! g) as [G|] eqn:Eg; [|done]. split; [|done].
  rewrite <- (group_of s ms groups g Es) in Eg. cbn [snd]. rewrite (put_known _ _ _ _ _ Es).
  by apply (view_put_group s ms g G).
Qed.

Lemma step_delete_model ms s : step_ok (OpDeleteModelServing ms) s.
Proof.
  split; [|done]. simpl. unfold DeleteModelServing. split; [|split]; intros; simpl.
  - case_decide; subst; [by rewrite lookup_delete_eq|by rewrite lookup_delete_ne].
  - unfold lookupGroup. case_decide; subst; [by rewrite lookup_delete_eq|by rewrite lookup_delete_ne].
  - unfold lookupRole, lookupGroup. case_decide; subst; [by rewrite lookup_delete_eq|by rewrite lookup_delete_ne].
Qed.

Lemma lookupGroup_delete s ms groups g ms' g' : s !! ms = Some groups ->
  lookupGroup (set_groups s ms (delete g groups)) ms' g' =
    if decide ((ms', g') = (ms, g)) then None else lookupGroup s ms' g'.
Proof.
  intros Es. unfold lookupGroup, set_groups. destruct (decide (ms' = ms)) as [->|].
  - rewrite lookup_insert_eq, Es. simpl. destruct (decide (g' = g)) as [->|].
    + by rewrite lookup_delete_eq, decide_True.
    + by rewrite lookup_delete_ne, decide_False by congruence.
  - by rewrite lookup_insert_ne, decide_False by congruence.
Qed.

Lemma step_delete_group ms g s : step_ok (OpDeleteServingGroup ms g) s.
Proof.
  split; [|done]. cbn [storeStep snd]. unfold DeleteServingGroup. destruct (s !! ms) as [groups|] eqn:Es.
  - split; [|split]; intros; simpl.
    + unfold set_groups. destruct (decide (ms0 = ms)) as [->|]; [by rewrite lookup_insert_eq, Es|by rewrite lookup_insert_ne].
    + rewrite lookupGroup_delete by done. by case_decide.
    + unfold lookupRole. rewrite lookupGroup_delete by done. by case_decide.
  - split; [|split]; intros; simpl; [done| |]; unfold lookupRole, lookupGroup; case_decide as E; try done;
      injection E as -> ->; by rewrite Es.
Qed.

Lemma step_delete_role ms g r i s : step_ok (OpDeleteRole ms g r i) s.
Proof.
  split; [|done]. cbn [storeStep snd specStep]. unfold DeleteRole. destruct (s !! ms) as [groups|] eqn:Es.
  2: { symmetry. apply setRole_none_same. simpl. unfold lookupRole, lookupGroup. by rewrite Es. }
  pose proof (group_of s ms groups g Es) as Eg. destruct (groups !! g) as [G|].
  2: { symmetry. apply setRole_none_same. simpl. by rewrite lookupRole_none_group. }
  destruct (roles G !! r) as [m|] eqn:Em.
  2: { symmetry. apply setRole_none_same. simpl. by rewrite (lookupRole_none_map s ms g G). }
  rewrite (put_known _ _ _ _ _ Es). etrans; [apply (view_put_role s ms g G _ r i None); [done|done|]|done].
  intros r' i'. by apply delete_role_lookup.
Qed.

Lemma step_add_group ms idx revision s : step_ok (OpAddServingGroup ms idx revision) s.
Proof.
  split; [|done]. cbn [storeStep snd specStep]. unfold AddServingGroup. set (g := GenerateServingGroupName (Name ms) idx).
  rewrite group_default. destruct (lookupGroup s ms g) as [G|] eqn:Eg.
  - assert (E : set_groups s ms (default ∅ (s !! ms)) = s).
    { destruct (lookupGroup_known _ _ _ _ Eg) as [groups E]. rewrite E. simpl. by apply insert_id. }
    rewrite E. split; [|split]; intros; simpl; [|case_decide as H; [|done]; injection H as -> ->; by rewrite Eg|done].
    case_decide; [subst|done]. by rewrite bool_decide_true by by eapply lookupGroup_known.
  - fold (putGroup s ms g (newGroup g revision)). rewrite view_put. split; [|split]; intros; simpl.
    + case_decide; [by rewrite bool_decide_true|by rewrite bool_decide_false].
    + case_decide as H; [|done]. injection H as -> ->. by rewrite Eg.
    + case_decide as H; [|done]. injection H as -> ->. by rewrite lookup_empty, lookupRole_none_group.
Qed.

Lemma step_add_running_pod ms g pod revision hash r i s : step_ok (OpAddRunningPod ms g pod revision hash r i) s.
Proof.
  split; [|done]. cbn [storeStep snd specStep]. unfold AddRunningPodToServingGroup. rewrite group_default.
  apply view_ensure.
Qed.

Lemma step_add_role ms g r i revision hash s :
  step_ok (OpAddRole ms g r i revision hash) s /\ step_ok (OpAddServingGroupAndRole ms g revision hash r i) s.
Proof.
  pose proof (view_ensure s ms g r i revision hash ∅) as H. cbv zeta in H.
  set (G := default (newGroup g revision) (lookupGroup s ms g)) in *.
  assert (E : set_pods G (∅ ∪ runningPods G) = G) by (rewrite (left_id_L ∅ (∪)); by destruct G).
  rewrite E in H. unfold step_ok. cbn [storeStep snd specStep fst]. unfold AddRole, AddServingGroupAndRole.
  rewrite group_default. by split.
Qed.

Lemma step_delete_pod ms g pod s : step_ok (OpDeleteRunningPod ms g pod) s.
Proof.
  split; [|done]. cbn [storeStep snd specStep]. unfold DeleteRunningPodFromServingGroup. cbn [vGroup view].
  destruct (s !! ms) as [groups|] eqn:Es.
  2: { assert (Eg : lookupGroup s ms g = None) by (unfold lookupGroup; by rewrite Es). rewrite Eg.
       symmetry. apply setGroup_none_same. simpl. by rewrite Eg. }
  pose proof (group_of s ms groups g Es) as Eg. rewrite Eg. destruct (groups !! g) as [G|] eqn:EG.
  - rewrite (put_known _ _ _ _ _ Es). by apply (view_put_group s ms g G).
  - symmetry. apply setGroup_none_same. simpl. by rewrite Eg.
Qed.

Lemma step_refines op s : step_ok op s.
Proof.
  destruct op; eauto using step_update_role_status, step_delete_model, step_delete_group, step_delete_role,
    step_add_group, step_add_running_pod, step_delete_pod, step_update_group_status, step_update_role_revision,
    step_update_group_revision; by apply step_add_role.
Qed.

Definition specRun (ops : list StoreOp) : View :=
  fold_left (fun v op => (specStep op v).2) ops (MkView (fun _ => false) (fun _ _ => None) (fun _ _ _ _ => None)).

(** The flat maps respect the equivalence of views. *)
#[global] Instance setRole_proper : Proper (view_equiv ==> eq ==> eq ==> eq ==> eq ==> eq ==> view_equiv) setRole.
Proof. intros v w (H1 & H2 & H3). do 5 (intros ? ? <-). split; [|split]; intros; simpl; [done|done|]. by case_decide. Qed.

#[global] Instance setGroup_proper : Proper (view_equiv ==> eq ==> eq ==> eq ==> view_equiv) setGroup.
Proof. intros v w (H1 & H2 & H3). do 3 (intros ? ? <-). split; [|split]; intros; simpl; [done| |done]. by case_decide. Qed.

#[global] Instance setKnown_proper : Proper (view_equiv ==> eq ==> eq ==> view_equiv) setKnown.
Proof. intros v w (H1 & H2 & H3). do 2 (intros ? ? <-). split; [|split]; intros; simpl; [|done|done]. by case_decide. Qed.

Lemma specStep_proper op v w : view_equiv v w ->
  (specStep op v).1 = (specStep op w).1 /\ view_equiv (specStep op v).2 (specStep op w).2.
Proof.
  intros E. pose proof E as (H1 & H2 & H3). unfold ensureBoth; destruct op; cbn [specStep fst snd]; unfold ensureBoth;
    rewrite ?H2, ?H3; repeat case_match; (split; [done|]); cbn [snd]; try by rewrite E.
  - split; [|split]; intros; simpl; by case_decide.
  - split; [done|split]; intros; simpl; by case_decide.
Qed.

Lemma wf_put s ms g G : store_wf s -> GroupName G = g ->
  (forall r i R, (m ← roles G !! r; m !! i) = Some R -> RoleName R = i) -> store_wf (putGroup s ms g G).
Proof.
  intros [W1 W2] HG HR. split.
  - intros ms' g' G'. rewrite lookupGroup_put. case_decide as E; [injection E as -> ->; by intros [= <-]|apply W1].
  - intros ms' g' r i R. rewrite lookupRole_put. case_decide as E; [injection E as -> ->; apply HR|apply W2].
Qed.

Lemma wf_roles s ms g G : store_wf s -> lookupGroup s ms g = Some G ->
  GroupName G = g /\ forall r i R, (m ← roles G !! r; m !! i) = Some R -> RoleName R = i.
Proof.
  intros [W1 W2] HG. split; [by eapply W1|]. intros r i R HR. apply (W2 ms g r i R). unfold lookupRole. by rewrite HG.
Qed.

Lemma wf_ensure s ms g r i revision hash pods : store_wf s ->
  store_wf (putGroup s ms g (ensureRole (set_pods (default (newGroup g revision) (lookupGroup s ms g)) pods) r i revision hash)).
Proof.
  intros W. apply wf_put; [done| |].
  - unfold ensureRole. destruct (lookupGroup s ms g) as [G|] eqn:E; simpl; case_match; simpl; try done;
      by destruct (wf_roles _ _ _ _ W E).
  - intros r' i' R'. rewrite ensureRole_lookup.
    assert (HR : forall r' i' R, (m ← roles (set_pods (default (newGroup g revision) (lookupGroup s ms g)) pods) !! r'; m !! i') = Some R ->
      RoleName R = i').
    { intros r0 i0 R0. destruct (lookupGroup s ms g) as [G|] eqn:E; simpl; [by apply (wf_roles _ _ _ _ W E)|].
      by rewrite lookup_empty. }
    case_decide as E; [|by apply HR]. injection E as -> ->. intros [= <-].
    specialize (HR r i). cbn [roles set_pods] in HR |- *.
    destruct (m ← roles (default (newGroup g revision) (lookupGroup s ms g)) !! r; m !! i) as [R|]; [|done].
    by apply HR.
Qed.

Lemma storeStep_wf op s : store_wf s -> store_wf (storeStep op s).2.
Proof.
  intros W. destruct op; cbn [storeStep snd].
  - unfold UpdateRoleStatus. repeat (case_match; [|done]). cbn [snd]. rewrite (put_known _ _ _ _ _ H).
    rewrite <- (group_of s ms g group H) in H0. destruct (wf_roles _ _ _ _ W H0) as [N1 N2].
    apply wf_put; [done|done|]. intros r' i' R'. rewrite insert_role_lookup by done.
    case_decide as E; [|by apply N2]. injection E as -> ->. intros [= <-]. simpl. apply (N2 role roleID). by rewrite H1.
  - destruct W as [W1 W2]. unfold DeleteModelServing. split.
    + intros ms' g' G'. unfold lookupGroup. destruct (decide (ms' = ms)) as [->|];
        [by rewrite lookup_delete_eq|rewrite lookup_delete_ne by done; apply W1].
    + intros ms' g' r i R'. unfold lookupRole, lookupGroup. destruct (decide (ms' = ms)) as [->|];
        [by rewrite lookup_delete_eq|rewrite lookup_delete_ne by done; apply W2].
  - unfold DeleteServingGroup. case_match; [|done]. destruct W as [W1 W2]. split.
    + intros ms' g' G'. rewrite lookupGroup_delete by done. case_decide; [done|apply W1].
    + intros ms' g' r i R'. unfold lookupRole. rewrite lookupGroup_delete by done. case_decide; [done|apply W2].
  - unfold DeleteRole. repeat (case_match; [|done]). rewrite (put_known _ _ _ _ _ H).
    rewrite <- (group_of s ms g group H) in H0. destruct (wf_roles _ _ _ _ W H0) as [N1 N2].
    apply wf_put; [done|done|]. intros r' i' R'. rewrite delete_role_lookup by done. case_decide; [done|apply N2].
  - unfold AddServingGroup. rewrite group_default. case_match.
    + destruct (lookupGroup_known _ _ _ _ H) as [groups E]. rewrite E. simpl. unfold set_groups. by rewrite insert_id.
    + apply wf_put; [done|done|]. intros r i R. simpl. by rewrite lookup_empty.
  - unfold AddRole. rewrite group_default.
    pose proof (wf_ensure s ms group role roleID revision hash
      (runningPods (default (newGroup group revision) (lookupGroup s ms group))) W) as Hw.
    set (G := default _ _) in *. by replace (set_pods G (runningPods G)) with G in Hw by by destruct G.
  - unfold AddRunningPodToServingGroup. rewrite group_default. by apply wf_ensure.
  - unfold AddServingGroupAndRole. rewrite group_default.
    pose proof (wf_ensure s ms group role roleID revision hash
      (runningPods (default (newGroup group revision) (lookupGroup s ms group))) W) as Hw.
    set (G := default _ _) in *. by replace (set_pods G (runningPods G)) with G in Hw by by destruct G.
  - unfold DeleteRunningPodFromServingGroup. repeat (case_match; [|done]). rewrite (put_known _ _ _ _ _ H).
    rewrite <- (group_of s ms g group H) in H0. destruct (wf_roles _ _ _ _ W H0) as [N1 N2]. by apply wf_put.
  - unfold UpdateServingGroupStatus. repeat (case_match; [|done]). cbn [snd]. rewrite (put_known _ _ _ _ _ H).
    rewrite <- (group_of s ms g group H) in H0. destruct (wf_roles _ _ _ _ W H0) as [N1 N2]. by apply wf_put.
  - unfold UpdateRoleRevision. repeat (case_match; [|done]). cbn [snd].
    destruct (wf_roles _ _ _ _ W H) as [N1 N2]. apply wf_put; [done|done|].
    intros r' i' R'. rewrite insert_role_lookup by done. case_decide as E; [|by apply N2].
    injection E as -> ->. intros [= <-]. simpl. apply (N2 role roleID). by rewrite H0.
  - unfold UpdateServingGroupRevision. repeat (case_match; [|done]). cbn [snd]. rewrite (put_known _ _ _ _ _ H).
    rewrite <- (group_of s ms g group H) in H0. destruct (wf_roles _ _ _ _ W H0) as [N1 N2]. by apply wf_put.
Qed.

Lemma storeRun_spec ops : store_wf (storeRun ops) /\ view_equiv (view (storeRun ops)) (specRun ops).
Proof.
  induction ops as [|op ops [W V]] using rev_ind.
  - assert (E : forall ms, storeRun [] !! ms = None) by (intros; apply lookup_empty).
    assert (EG : forall ms g, lookupGroup (storeRun []) ms g = None) by (intros; unfold lookupGroup; by rewrite E).
    assert (ER : forall ms g r i, lookupRole (storeRun []) ms g r i = None) by (intros; unfold lookupRole; by rewrite EG).
    split; [split; intros *; [by rewrite EG|by rewrite ER]|].
    split; [|split]; intros; cbn [view vKnown vGroup vRole]; [|by rewrite EG|by rewrite ER].
    rewrite E. by rewrite bool_decide_false by (intros [? [=]]).
  - unfold storeRun, specRun in *. rewrite !fold_left_app. simpl. split; [by apply storeStep_wf|].
    etrans; [apply step_refines|]. by apply specStep_proper.
Qed.

(** C27: the nested maps of the store behave as two flat maps, one of groups
    and one of role instances, keyed by all their names: after any sequence of
    updates the store holds what the flat maps hold, every entry is stored
    under its own name, and the next update reports an error exactly when the
    flat maps lack the entry it updates (and then changes nothing). So a group
    or a role that is added again keeps its revision, hash and status, and an
    update never touches another entry. *)
Theorem store_refines_flat_maps ops op :
  let s := storeRun ops in
  let v := specRun ops in
  store_wf s /\ view_equiv (view s) v /\
  view_equiv (view (storeStep op s).2) (specStep op v).2 /\
  bool_decide ((storeStep op s).1 = None) = (specStep op v).1.
Proof.
  intros s v. destruct (storeRun_spec ops) as [W V]. fold s v in W, V.
  destruct (step_refines op s) as [H1 H2], (specStep_proper op _ _ V) as [H3 H4].
  split; [done|]. split; [done|]. split; [by etrans|by rewrite H2].
Qed.

(** ** The queries *)

Lemma snd_map_elem {A} (m : gmap string A) x : x ∈ (map_to_list m).*2 <-> exists i, m !! i = Some x.
Proof.
  rewrite list_elem_of_fmap. split.
  - intros ([i y] & -> & H). apply elem_of_map_to_list in H. by exists i.
  - intros [i H]. exists (i, x). split; [done|]. by apply elem_of_map_to_list.
Qed.

(** A sorted listing of a map whose values are named by their keys. *)
Definition listing {A} (name : A -> string) (m : gmap string A) (l : list A) : Prop :=
  StronglySorted (fun a b => ordinalOf (name a) <= ordinalOf (name b)) l /\
  NoDup (name <$> l) /\ (forall x, x ∈ l <-> m !! name x = Some x) /\
  forall l', l' ≡ₚ l -> StronglySorted (fun a b => ordinalOf (name a) <= ordinalOf (name b)) l' ->
    NoDup ((fun a => ordinalOf (name a)) <$> l) -> l' = l.

Lemma listing_sorted {A} (name : A -> string) (m : gmap string A) (le : A -> A -> Prop) `{forall a b, Decision (le a b)} :
  (forall a b, le a b <-> ordinalOf (name a) <= ordinalOf (name b)) ->
  (forall i x, m !! i = Some x -> name x = i) ->
  listing name m (merge_sort le ((map_to_list m).*2)).
Proof.
  intros Hle Hname. assert (Htr : Transitive le) by (intros a b c; rewrite !Hle; lia).
  assert (Htot : Total le) by (intros a b; rewrite !Hle; lia).
  pose proof (merge_sort_Permutation le ((map_to_list m).*2)) as Hp. split_and!.
  - eapply StronglySorted_strengthen; [by apply StronglySorted_merge_sort|]. intros a b _ _. apply Hle.
  - rewrite Hp. replace (name <$> (map_to_list m).*2) with ((map_to_list m).*1); [apply NoDup_fst_map_to_list|].
    rewrite <- list_fmap_compose. apply list_fmap_ext. intros k [i x] Hi. simpl. symmetry. apply Hname.
    apply elem_of_map_to_list. by eapply list_elem_of_lookup_2.
  - intros x. rewrite Hp, snd_map_elem. split; [|by eexists]. intros [i Hi]. by rewrite (Hname i x Hi).
  - intros l' Hp' Hs Hnd. eapply (StronglySorted_unique_strong le); [| | |exact Hp'].
    + intros x y Hx Hy H1 H2. rewrite Hp' in Hx. rewrite Hle in H1, H2.
      apply list_elem_of_lookup in Hx as [i Hi], Hy as [j Hj].
      assert (i = j) as <-; [|by simplify_eq].
      eapply NoDup_lookup; [exact Hnd|rewrite list_lookup_fmap, Hi; reflexivity|].
      rewrite list_lookup_fmap, Hj. simpl. f_equal. lia.
    + eapply StronglySorted_strengthen; [exact Hs|]. intros a b _ _. apply Hle.
    + by apply StronglySorted_merge_sort.
Qed.

(** What a query promises of its answer: the entries of a flat map, once each,
    in the order of their ordinals; when no two have the same ordinal, this is
    the answer of any sort. *)
Definition lists {A B} (name : A -> string) (info : A -> B) (look : string -> option B) (l : list A) : Prop :=
  StronglySorted (fun a b => ordinalOf (name a) <= ordinalOf (name b)) l /\
  NoDup (name <$> l) /\ (forall i b, look i = Some b <-> exists x, x ∈ l /\ name x = i /\ info x = b) /\
  forall l', l' ≡ₚ l -> StronglySorted (fun a b => ordinalOf (name a) <= ordinalOf (name b)) l' ->
    NoDup ((fun a => ordinalOf (name a)) <$> l) -> l' = l.

Lemma listing_lists {A B} (name : A -> string) (info : A -> B) (m : gmap string A) look l :
  (forall i x, m !! i = Some x -> name x = i) -> (forall i, look i = info <$> m !! i) ->
  listing name m l -> lists name info look l.
Proof.
  intros Hname Hlook (H1 & H2 & H3 & H4). split; [done|]. split; [done|]. split; [|done]. intros i b. rewrite Hlook.
  split.
  - intros (x & E & ->)%fmap_Some_1. exists x. split; [|split; [by apply Hname|done]]. apply H3.
    by rewrite (Hname i x E).
  - intros (x & Hx & <- & <-). apply H3 in Hx. by rewrite Hx.
Qed.

Lemma view_lookup ops ms g :
  let s := storeRun ops in let v := specRun ops in
  vKnown v ms = bool_decide (is_Some (s !! ms)) /\ vGroup v ms g = groupInfo <$> lookupGroup s ms g /\
  forall r i, vRole v ms g r i = roleInfo <$> lookupRole s ms g r i.
Proof. destruct (storeRun_spec ops) as [_ (V1 & V2 & V3)]. split; [by rewrite <- V1|]. split; [by rewrite <- V2|]. intros. by rewrite <- V3. Qed.

(** What the queries answer, in terms of the flat maps: statuses,
    revisions and pod counts are those of the entry (or the documented value
    for a missing one); the listings hold every entry exactly once, sorted by
    ordinal; the errors are exactly those for a missing group or model
    serving. *)
Theorem store_queries ops ms g :
  let s := storeRun ops in
  let v := specRun ops in
  GetServingGroupStatus s ms g = from_option gStatus ServingGroupNotFound (vGroup v ms g) /\
  GetServingGroupRevision s ms g = from_option (fun G => (gRevision G, true)) (""%string, false) (vGroup v ms g) /\
  (forall r i, GetRoleStatus s ms g r i = from_option rStatus RoleNotFound (vRole v ms g r i)) /\
  GetRunningPodNumByServingGroup s ms g =
    (if vKnown v ms then inl (from_option (fun G => Z.of_nat (size (gPods G))) 0 (vGroup v ms g))
     else inr ErrModelServing) /\
  match GetServingGroupByModelServing s ms with
  | inl l => vKnown v ms = true /\ lists GroupName groupInfo (vGroup v ms) l
  | inr e => vKnown v ms = false /\ e = ErrServingGroupNotFound
  end /\
  (forall r, match GetRoleList s ms g r with
   | inl l => is_Some (vGroup v ms g) /\ lists RoleName roleInfo (vRole v ms g r) l
   | inr e => vGroup v ms g = None /\ e = if vKnown v ms then ErrServingGroupNotFound else ErrModelServing
   end) /\
  match GetRolesByGroup s ms g with
  | inl m => is_Some (vGroup v ms g) /\ forall r i, vRole v ms g r i = roleInfo <$> (roleMap ← m !! r; roleMap !! i)
  | inr e => vGroup v ms g = None /\ e = if vKnown v ms then ErrServingGroup else ErrModelServing
  end.
Proof.
  intros s v. destruct (view_lookup ops ms g) as (VK & VG & VR). fold s v in VK, VG, VR.
  destruct (storeRun_spec ops) as [W _]. fold s in W.
  unfold GetServingGroupStatus, GetServingGroupRevision, GetRoleStatus, GetRunningPodNumByServingGroup,
    GetServingGroupByModelServing, GetRoleList, GetRolesByGroup. rewrite VG, VK.
  split; [by destruct (lookupGroup s ms g)|]. split; [by destruct (lookupGroup s ms g)|].
  split; [intros r i; rewrite VR; by destruct (lookupRole s ms g r i)|].
  assert (EG : lookupGroup s ms g = groups ← s !! ms; groups !! g) by done.
  destruct (s !! ms) as [groups|] eqn:Es; simpl in EG.
  2: { rewrite EG, bool_decide_false by (intros [? [=]]). done. }
  rewrite bool_decide_true by done. rewrite EG.
  split; [by destruct (groups !! g)|]. split.
  { split; [done|]. eapply (listing_lists _ _ groups); [| |apply listing_sorted; [done|]];
      try (intros i G HG; apply (proj1 W ms); unfold lookupGroup; by rewrite Es).
    intros i. destruct (view_lookup ops ms i) as (_ & E & _). fold s v in E. rewrite E. unfold lookupGroup. by rewrite Es. }
  assert (HR : forall G r i, groups !! g = Some G -> vRole v ms g r i = roleInfo <$> (m ← roles G !! r; m !! i)).
  { intros G r i HG. rewrite VR. unfold lookupRole. by rewrite EG, HG. }
  split; [|by destruct (groups !! g) as [G|] eqn:HG; [split; [done|]; intros; by apply HR|]].
  intros r. destruct (groups !! g) as [G|] eqn:HG; [|done]. simpl.
  destruct (roles G !! r) as [m|] eqn:Em.
  - assert (Hname : forall i x, m !! i = Some x -> RoleName x = i).
    { intros i x Hx. apply (proj2 W ms g r). unfold lookupRole. rewrite EG. simpl. by rewrite Em. }
    split; [done|]. apply (listing_lists _ _ m); [done| |by apply listing_sorted].
    intros i. by rewrite (HR G r i eq_refl), Em.
  - split; [done|]. split; [constructor|]. split; [constructor|]. split.
    + intros i b. rewrite (HR G r i eq_refl), Em. simpl. split; [done|]. intros (x & Hx & _). by apply elem_of_nil in Hx.
    + intros l' Hp _ _. by apply Permutation_nil_r in Hp.
Qed.
