(* ===== verification/RolePopulation.v ===== *)
(** * pkg/model-serving-controller/controller/role_rolling_update_coordinator.go:
      the stable population of a role

    The ordinals that take part in the stable progress of a role: an ordinary
    range, less its holes, and the retained ordinals above it. Replica counts
    and ordinals fit an int32, so their sums are those of the integers. *)
From stdpp Require Import sorting.
From S2P Require Import Prelude Names ServingStore.
Local Open Scope Z_scope.

Record roleStablePopulation := MkPopulation {
  end_ : Z;
  holes : gset Z;
  extra : list Z
}.

Definition contains (p : roleStablePopulation) (ordinal : Z) : bool :=
  ((0 <=? ordinal) && (ordinal <? end_ p) && bool_decide (ordinal ∉ holes p)) || bool_decide (ordinal ∈ extra p).

(** The elements of a list that are at least [partition]. *)
Definition atLeast (partition : Z) (l : list Z) : list Z := filter (fun o => partition <= o) l.

Definition countFrom (p : roleStablePopulation) (partition : Z) : Z :=
  Z.max 0 (end_ p - partition) - Z.of_nat (length (atLeast partition (elements (holes p))))
  + Z.of_nat (length (atLeast partition (extra p))).

Definition upperBound (p : roleStablePopulation) : Z :=
  match last (extra p) with
  | Some o => o + 1
  | None => end_ p
  end.

(** [sets.List]: the elements in order. *)
Definition sortedList (s : gset Z) : list Z := merge_sort Z.le (elements s).

(** One hole of the loop of [boundary]: the base count and the candidate. *)
Definition passHole (partition : Z) (st : Z * Z) (hole : Z) : Z * Z :=
  let '(baseCount, candidate) := st in
  if hole <? partition then st
  else (baseCount - 1, if hole <=? candidate then candidate + 1 else candidate).

(** The extra ordinal [offset] places after [partition]. *)
Fixpoint nthExtra (partition offset : Z) (l : list Z) : option Z :=
  match l with
  | [] => None
  | ordinal :: l =>
    if ordinal <? partition then nthExtra partition offset l
    else if offset =? 0 then Some ordinal else nthExtra partition (offset - 1) l
  end.

Definition boundary (p : roleStablePopulation) (partition offset : Z) : Z :=
  if countFrom p partition <=? offset then upperBound p
  else
    let '(baseCount, candidate) :=
      fold_left (passHole partition) (sortedList (holes p)) (Z.max 0 (end_ p - partition), partition + offset) in
    if offset <? baseCount then candidate
    else default (upperBound p) (nthExtra partition (offset - baseCount) (extra p)).

(** [markedSurgeNames]: the role IDs of the marked pods whose ordinal is
    outside the first [n]. *)
Definition markedSurgeNames (podRoleIDs : list string) (n : Z) : gset string :=
  list_to_set (filter (fun name => n <= ordinalOf name) podRoleIDs).

(** The holes, from the top of the range down. *)
Fixpoint fillHoles (fuel : nat) (ordinal : Z) (ordinals : gset Z) (want : Z) (hs : gset Z) : gset Z :=
  match fuel with
  | O => hs
  | S fuel =>
    if (Z.of_nat (size hs) <? want) && (0 <=? ordinal) then
      fillHoles fuel (ordinal - 1) ordinals want
        (if bool_decide (ordinal ∈ ordinals) then hs else {[ordinal]} ∪ hs)
    else hs
  end.

(** [stableRolePopulationInRound]: [surge] are the role IDs of the pods marked
    as surge, [terminating] the ordinals of the terminating pods. *)
Definition stableOrdinals (roleName : string) (desired : Z) (surge : list string) (instances : list Role)
    (terminating : list Z) : gset Z :=
  let temporary := markedSurgeNames surge desired in
  list_to_set (filter (fun o => 0 <= o)
                 ((fun r => ordinalOf (RoleName r)) <$> filter (fun r => RoleName r ∉ temporary) instances)) ∪
  list_to_set (filter (fun o => 0 <= o /\ GenerateRoleID roleName o ∉ temporary) terminating).

Definition stableRolePopulation (roleName : string) (desired previousDesired : Z) (surge : list string)
    (instances : list Role) (terminating : list Z) : roleStablePopulation :=
  let ordinals := stableOrdinals roleName desired surge instances terminating in
  let ordered := take (Z.to_nat desired) (sortedList ordinals) in
  let e := Z.min previousDesired desired in
  let retainedOutsideDesired := Z.of_nat (length (filter (fun o => desired <= o) ordered)) in
  MkPopulation e (fillHoles (Z.to_nat e) (e - 1) (list_to_set ordered) retainedOutsideDesired ∅)
    (filter (fun o => e <= o) ordered).

(** ** Counting *)

(** How many of [a, b) satisfy [P]. *)
Definition cnt (P : Z -> Prop) `{!forall o, Decision (P o)} (a b : Z) : Z :=
  Z.of_nat (length (filter P (seqZ a (b - a)))).

Lemma cnt_list (l : list Z) a b : NoDup l ->
  cnt (fun o => o ∈ l) a b = Z.of_nat (length (filter (fun o => a <= o < b) l)).
Proof.
  intros Hl. unfold cnt. f_equal. apply Permutation_length, NoDup_Permutation.
  - apply NoDup_filter, NoDup_seqZ.
  - by apply NoDup_filter.
  - intros o. rewrite !list_elem_of_filter, elem_of_seqZ. split; intros [? ?]; split; done || lia.
Qed.

Lemma cnt_below c a b : cnt (fun o => o < c) a b = Z.max 0 (Z.min b c - a).
Proof.
  unfold cnt.
  assert (E : filter (fun o => o < c) (seqZ a (b - a)) ≡ₚ seqZ a (Z.min b c - a)).
  { apply NoDup_Permutation; [apply NoDup_filter, NoDup_seqZ|apply NoDup_seqZ|].
    intros o. rewrite list_elem_of_filter, !elem_of_seqZ. lia. }
  rewrite E, length_seqZ. lia.
Qed.

Lemma filter_all (P : Z -> Prop) `{!forall o, Decision (P o)} (l : list Z) : (forall o, o ∈ l -> P o) -> filter P l = l.
Proof.
  induction l as [|x l IH]; intros Hl; [done|]. rewrite filter_cons, decide_True by (apply Hl; by left).
  rewrite IH; [done|]. intros; apply Hl; by right.
Qed.

Lemma filter_split (P Q : Z -> Prop) `{!forall o, Decision (P o), !forall o, Decision (Q o)} (l : list Z) :
  (forall o, P o -> Q o) ->
  length (filter Q l) = (length (filter P l) + length (filter (fun o => Q o /\ ~ P o) l))%nat.
Proof.
  intros HPQ. induction l as [|x l IH]; [done|]. rewrite !filter_cons. specialize (HPQ x).
  repeat case_decide; rewrite ?length_cons; lia || tauto.
Qed.

Lemma cnt_ext (P Q : Z -> Prop) `{!forall o, Decision (P o), !forall o, Decision (Q o)} a b :
  (forall o, a <= o < b -> P o <-> Q o) -> cnt P a b = cnt Q a b.
Proof.
  intros HPQ. unfold cnt. rewrite (filter_ext_in P Q); [done|]. intros o Ho. apply elem_of_seqZ in Ho. apply HPQ. lia.
Qed.

Lemma cnt_disjoint (P Q : Z -> Prop) `{!forall o, Decision (P o), !forall o, Decision (Q o)} a b :
  (forall o, P o -> Q o -> False) -> cnt (fun o => P o \/ Q o) a b = cnt P a b + cnt Q a b.
Proof.
  intros HPQ. unfold cnt. induction (seqZ a (b - a)) as [|x l IH]; [done|].
  rewrite !filter_cons. specialize (HPQ x). repeat case_decide; rewrite ?length_cons; try lia; tauto.
Qed.

Lemma cnt_minus (P Q : Z -> Prop) `{!forall o, Decision (P o), !forall o, Decision (Q o)} a b :
  (forall o, Q o -> P o) -> cnt (fun o => P o /\ ~ Q o) a b = cnt P a b - cnt Q a b.
Proof.
  intros HPQ. unfold cnt. induction (seqZ a (b - a)) as [|x l IH]; [done|].
  rewrite !filter_cons. specialize (HPQ x). repeat case_decide; rewrite ?length_cons; try lia; tauto.
Qed.

(** How many ordinals of [a, b) are in the population. *)
Definition members (p : roleStablePopulation) (a b : Z) : Z := cnt (fun o => contains p o = true) a b.

Record population_ok (p : roleStablePopulation) : Prop := {
  ok_end : 0 <= end_ p;
  ok_holes : forall o, o ∈ holes p -> 0 <= o < end_ p;
  ok_extra : forall o, o ∈ extra p -> end_ p <= o;
  ok_sorted : StronglySorted Z.lt (extra p)
}.

Lemma sorted_lt_NoDup l : StronglySorted Z.lt l -> NoDup l.
Proof.
  induction 1 as [|x l Hs IH Hx]; constructor; [|done]. intros Hin. rewrite Forall_forall in Hx.
  specialize (Hx x Hin). lia.
Qed.

Lemma sortedList_spec s : StronglySorted Z.lt (sortedList s) /\ (forall o, o ∈ sortedList s <-> o ∈ s).
Proof.
  unfold sortedList. pose proof (merge_sort_Permutation Z.le (elements s)) as Hp.
  assert (Hm : forall o, o ∈ merge_sort Z.le (elements s) <-> o ∈ s) by (intros o; by rewrite Hp, elem_of_elements).
  split; [|done].
  pose proof (StronglySorted_merge_sort Z.le (elements s)) as Hs.
  assert (Hn : NoDup (merge_sort Z.le (elements s))) by (rewrite Hp; apply NoDup_elements).
  clear Hp Hm. induction Hs as [|x l Hs IH Hx]; [constructor|]. apply NoDup_cons in Hn as [Hn1 Hn2].
  constructor; [by apply IH|]. rewrite Forall_forall in Hx |- *. intros y Hy. specialize (Hx y Hy).
  destruct (Z.eq_dec x y) as [->|]; [done|lia].
Qed.

Lemma sortedList_perm s : sortedList s ≡ₚ elements s.
Proof. apply merge_sort_Permutation. Qed.

Lemma members_split p a b : population_ok p -> 0 <= a ->
  members p a b = Z.max 0 (Z.min b (end_ p) - a)
    - Z.of_nat (length (filter (fun o => a <= o < b) (elements (holes p))))
    + Z.of_nat (length (filter (fun o => a <= o < b) (extra p))).
Proof.
  intros [He Hh Hx Hs] Ha. unfold members.
  rewrite <- (cnt_list (elements (holes p))) by apply NoDup_elements.
  rewrite <- (cnt_list (extra p)) by by apply sorted_lt_NoDup.
  rewrite <- cnt_below, <- cnt_minus, <- cnt_disjoint.
  - apply cnt_ext. intros o Ho. unfold contains. rewrite orb_true_iff, !andb_true_iff, !bool_decide_eq_true, elem_of_elements.
    rewrite Z.leb_le, Z.ltb_lt. intuition lia.
  - intros o [H1 _] H2. specialize (Hx o H2). lia.
  - intros o Ho. apply elem_of_elements in Ho. specialize (Hh o Ho). lia.
Qed.

Lemma filter_range_atLeast (l : list Z) a b : (forall o, o ∈ l -> o < b) ->
  filter (fun o => a <= o < b) l = atLeast a l.
Proof.
  unfold atLeast. induction l as [|x l IH]; intros H; [done|]. rewrite !filter_cons, IH by (intros; apply H; by right).
  specialize (H x ltac:(by left)). repeat case_decide; done || lia.
Qed.

Lemma upperBound_spec p : population_ok p ->
  end_ p <= upperBound p /\ (forall o, o ∈ extra p -> o < upperBound p) /\
  (forall o, upperBound p <= o -> contains p o = false).
Proof.
  intros [He Hh Hx Hs].
  assert (H : end_ p <= upperBound p /\ forall o, o ∈ extra p -> o < upperBound p).
  { unfold upperBound. destruct (extra p) as [|x l _] using rev_ind; [split; [simpl; lia|intros o Ho; by apply elem_of_nil in Ho]|].
    rewrite last_snoc. split; [specialize (Hx x ltac:(apply elem_of_app; right; by left)); lia|].
    intros o [Ho|Ho%list_elem_of_singleton]%elem_of_app; [|lia].
    apply StronglySorted_app_inv in Hs as (_ & _ & Hs). assert (o < x) by (apply Hs; [done|by left]). lia. }
  destruct H as [H1 H2]. split; [done|]. split; [done|]. intros o Ho. unfold contains.
  apply orb_false_iff. split.
  - replace (o <? end_ p) with false by (symmetry; apply Z.ltb_ge; lia). by rewrite andb_false_r.
  - apply bool_decide_eq_false. intros Hin. specialize (H2 o Hin). lia.
Qed.

Lemma countFrom_members p a b : population_ok p -> 0 <= a -> upperBound p <= b -> countFrom p a = members p a b.
Proof.
  intros Hp Ha Hb. rewrite (members_split p a b) by done. destruct (upperBound_spec p Hp) as (H1 & H2 & _).
  rewrite !filter_range_atLeast.
  - unfold countFrom. lia.
  - intros o Ho. specialize (H2 o Ho). lia.
  - intros o Ho. apply elem_of_elements in Ho. destruct (ok_holes p Hp o Ho). lia.
Qed.

(** ** [boundary] *)

(** After the holes [pre] have been passed: how many are at least [a], and the
    candidate with exactly [offset] ordinals before it that are no hole. *)
Definition passed (a e offset : Z) (pre : list Z) (st : Z * Z) : Prop :=
  st.1 = Z.max 0 (e - a) - Z.of_nat (length (atLeast a pre)) /\
  a <= st.2 /\ (st.2 ∉ pre) /\
  Z.of_nat (length (filter (fun o => a <= o < st.2) pre)) = st.2 - a - offset.

Lemma filter_snoc (P : Z -> Prop) `{!forall o, Decision (P o)} l x :
  Z.of_nat (length (filter P (l ++ [x]))) = (Z.of_nat (length (filter P l)) + (if decide (P x) then 1 else 0))%Z.
Proof.
  rewrite filter_app, length_app, filter_cons, filter_nil. case_decide; simpl; lia.
Qed.

Lemma filter_upto (l : list Z) a c : c ∉ l ->
  filter (fun o => a <= o < c + 1) l = filter (fun o => a <= o < c) l.
Proof.
  induction l as [|x l IH]; intros Hc; [done|]. apply not_elem_of_cons in Hc as [Hx Hc].
  rewrite !filter_cons, IH by done. repeat case_decide; done || lia.
Qed.

Lemma passHole_step a e offset pre hole st :
  (forall o, o ∈ pre -> o < hole) -> passed a e offset pre st -> passed a e offset (pre ++ [hole]) (passHole a st hole).
Proof.
  destruct st as [bc cand]. intros Hpre (H1 & H2 & H3 & H4). unfold passed, atLeast in *. cbn [fst snd] in *.
  unfold passHole. destruct (Z.ltb_spec hole a) as [Hlt|Hge]; cbn [fst snd].
  { rewrite !filter_snoc, !decide_False by lia. split; [lia|]. split; [done|]. split; [|lia].
    intros [Hin|Hin%list_elem_of_singleton]%elem_of_app; [done|lia]. }
  destruct (Z.leb_spec hole cand) as [Hle|Hgt]; rewrite !filter_snoc.
  - rewrite !decide_True by lia. split; [lia|]. split; [lia|]. split; [|rewrite filter_upto by done; lia].
    intros [Hin|Hin%list_elem_of_singleton]%elem_of_app; [specialize (Hpre _ Hin); lia|lia].
  - rewrite decide_True, decide_False by lia. split; [lia|]. split; [done|]. split; [|lia].
    intros [Hin|Hin%list_elem_of_singleton]%elem_of_app; [done|lia].
Qed.

Lemma passHoles a e offset hs : forall pre st,
  StronglySorted Z.lt (pre ++ hs) -> passed a e offset pre st ->
  passed a e offset (pre ++ hs) (fold_left (passHole a) hs st).
Proof.
  induction hs as [|h hs IH]; intros pre st Hs Hp; simpl; [by rewrite app_nil_r|].
  rewrite cons_middle, app_assoc in *. apply IH; [done|]. apply passHole_step; [|done].
  apply StronglySorted_app_inv in Hs as (Hs & _ & _). apply StronglySorted_app_inv in Hs as (_ & _ & Hs).
  intros o Ho. apply (Hs o h); [done|by left].
Qed.

Lemma nthExtra_spec a l : StronglySorted Z.lt l -> forall k, 0 <= k < Z.of_nat (length (atLeast a l)) ->
  exists o, nthExtra a k l = Some o /\ o ∈ l /\ a <= o /\
    Z.of_nat (length (filter (fun x => a <= x < o) l)) = k.
Proof.
  unfold atLeast. induction 1 as [|x l Hs IH Hx]; intros k Hk; [simpl in Hk; lia|]. cbn [nthExtra].
  rewrite Forall_forall in Hx. rewrite filter_cons in Hk. destruct (Z.ltb_spec x a) as [Hlt|Hge].
  - rewrite decide_False in Hk by lia. destruct (IH k Hk) as (o & E & Hin & Hle & Hc). exists o.
    rewrite filter_cons, decide_False by lia. split; [done|]. split; [by right|]. done.
  - rewrite decide_True in Hk by lia. rewrite length_cons in Hk. destruct (Z.eqb_spec k 0) as [->|].
    + exists x. split; [done|]. split; [by left|]. split; [lia|].
      rewrite filter_none; [done|]. constructor; [lia|]. apply Forall_forall. intros y Hy. specialize (Hx y Hy). lia.
    + destruct (IH (k - 1)) as (o & E & Hin & Hle & Hc); [lia|]. exists o. split; [done|]. split; [by right|].
      split; [done|]. rewrite filter_cons, decide_True by (specialize (Hx o Hin); lia). rewrite length_cons. lia.
Qed.

Lemma filter_perm_length (P : Z -> Prop) `{!forall o, Decision (P o)} (l k : list Z) : l ≡ₚ k ->
  length (filter P l) = length (filter P k).
Proof. intros E. by rewrite E. Qed.

Lemma boundary_inside p a offset : population_ok p -> 0 <= a -> 0 <= offset < countFrom p a ->
  let b := boundary p a offset in a <= b /\ contains p b = true /\ members p a b = offset.
Proof.
  intros Hp Ha [Ho Hlt] b. subst b. pose proof Hp as [He Hh Hx Hs]. unfold boundary.
  destruct (Z.leb_spec (countFrom p a) offset); [lia|].
  destruct (sortedList_spec (holes p)) as [Hss Hse].
  pose proof (passHoles a (end_ p) offset (sortedList (holes p)) [] (Z.max 0 (end_ p - a), a + offset) Hss) as HP.
  destruct (fold_left _ _ _) as [bc cand]. destruct HP as (P1 & P2 & P3 & P4); cbn [fst snd app] in *.
  { split; [simpl; lia|]. split; [simpl; lia|]. split; [apply not_elem_of_nil|simpl; lia]. }
  unfold atLeast in P1.
  rewrite (filter_perm_length _ _ _ (sortedList_perm (holes p))) in P1.
  rewrite (filter_perm_length _ _ _ (sortedList_perm (holes p))) in P4.
  destruct (Z.ltb_spec offset bc) as [Hin|Hout].
  - assert (Hcand : cand < end_ p).
    { apply Z.nle_gt. intros Hge. rewrite filter_range_atLeast in P4; [unfold atLeast in P4; lia|].
      intros o Hin'. apply elem_of_elements in Hin'. specialize (Hh o Hin'). lia. }
    split; [done|]. split.
    + unfold contains. apply orb_true_iff. left. rewrite !andb_true_iff, Z.leb_le, Z.ltb_lt.
      split; [lia|]. apply bool_decide_eq_true. by rewrite <- Hse.
    + rewrite members_split by done. rewrite P4, (filter_none _ (extra p)); [simpl; lia|].
      apply Forall_forall. intros o Hoe. specialize (Hx o Hoe). lia.
  - unfold countFrom, atLeast in Hlt.
    destruct (nthExtra_spec a (extra p) Hs (offset - bc)) as (o & E & Hin & Hle & Hc); [unfold atLeast; lia|].
    rewrite E. simpl. split; [done|]. split.
    + unfold contains. apply orb_true_iff. right. by apply bool_decide_eq_true.
    + rewrite members_split by done. rewrite Hc, filter_range_atLeast.
      * unfold atLeast. specialize (Hx o Hin). lia.
      * intros h Hh'. apply elem_of_elements in Hh'. specialize (Hh h Hh'). specialize (Hx o Hin). lia.
Qed.

(** [boundary] turns a replica count into an ordinal: of a well-formed
    population, it is the ordinal of a member with exactly [offset] members
    from the partition up to it, or the upper bound when there are not that
    many; [countFrom] counts the members from the partition on, and no member
    is at or above the upper bound. *)
Theorem boundary_spec p a offset : population_ok p -> 0 <= a -> 0 <= offset ->
  countFrom p a = members p a (upperBound p) /\
  (forall o, upperBound p <= o -> contains p o = false) /\
  (offset < countFrom p a -> let b := boundary p a offset in
     a <= b /\ contains p b = true /\ members p a b = offset) /\
  (countFrom p a <= offset -> boundary p a offset = upperBound p).
Proof.
  intros Hp Ha Ho. destruct (upperBound_spec p Hp) as (H1 & H2 & H3).
  split; [by apply countFrom_members|]. split; [done|]. split.
  - intros Hlt. by apply boundary_inside.
  - intros Hle. unfold boundary. apply Z.leb_le in Hle. by rewrite Hle.
Qed.

(** A population with a hole and two retained ordinals: five members, the
    fourth from ordinal 0 is 6. *)
Definition example_population : roleStablePopulation := MkPopulation 4 {[2]} [6; 9].

Lemma boundary_spec_witness :
  population_ok example_population /\ countFrom example_population 0 = 5 /\ boundary example_population 0 3 = 6 /\
  members example_population 0 (boundary example_population 0 3) = 3.
Proof.
  assert (Hp : population_ok example_population).
  { split; simpl; [lia| | |].
    - intros o Ho. apply elem_of_singleton in Ho. lia.
    - intros o Ho. rewrite !elem_of_cons, elem_of_nil in Ho. lia.
    - repeat constructor; lia. }
  split; [exact Hp|]. split; [vm_compute; reflexivity|]. split; [vm_compute; reflexivity|].
  destruct (boundary_spec example_population 0 3 Hp) as (_ & _ & H & _); [lia|lia|].
  apply H. vm_compute. reflexivity.
Defined.

(** ** The population of a role *)

Lemma cnt_snoc (P : Z -> Prop) `{!forall o, Decision (P o)} n : 0 <= n ->
  cnt P 0 (n + 1) = cnt P 0 n + (if decide (P n) then 1 else 0).
Proof.
  intros Hn. unfold cnt. rewrite !Z.sub_0_r. rewrite <- (Z2Nat.id n) by done.
  replace (Z.of_nat (Z.to_nat n) + 1) with (Z.of_nat (S (Z.to_nat n))) by lia. rewrite seqZ_S, Z.add_0_l.
  rewrite filter_app, length_app, filter_cons, filter_nil.
  case_decide; rewrite ?length_cons, ?length_nil; lia.
Qed.

Lemma fillHoles_spec ords want n : forall hs, (forall o, o ∈ hs -> Z.of_nat n <= o) -> Z.of_nat (size hs) <= want ->
  let res := fillHoles n (Z.of_nat n - 1) ords want hs in
  (forall o, o ∈ res -> o ∈ hs \/ (0 <= o < Z.of_nat n /\ o ∉ ords)) /\
  Z.of_nat (size res) = Z.min want (Z.of_nat (size hs) + cnt (fun o => o ∉ ords) 0 (Z.of_nat n)).
Proof.
  induction n as [|n IH]; intros hs Hhs Hw; cbn [fillHoles].
  - split; [by left|]. change (cnt (fun o => o ∉ ords) 0 (Z.of_nat 0)) with 0. lia.
  - rewrite Nat2Z.inj_succ, <- Z.add_1_r, cnt_snoc by lia. replace (Z.of_nat n + 1 - 1) with (Z.of_nat n) by lia.
    pose proof (Zle_0_nat (length (filter (fun o => o ∉ ords) (seqZ 0 (Z.of_nat n - 0))))) as Hc.
    fold (cnt (fun o => o ∉ ords) 0 (Z.of_nat n)) in Hc.
    destruct (Z.ltb_spec (Z.of_nat (size hs)) want) as [Hlt|Hge]; simpl.
    2: { split; [by left|]. case_decide; lia. }
    replace (0 <=? Z.of_nat n) with true by (symmetry; apply Z.leb_le; lia).
    case_bool_decide as Hin.
    + destruct (IH hs) as [I1 I2]; [intros o Ho; specialize (Hhs o Ho); lia|done|]. rewrite decide_False by tauto.
      split; [|lia]. intros o Ho. destruct (I1 o Ho) as [|[? ?]]; [by left|right; split; [lia|done]].
    + assert (Hn : Z.of_nat n ∉ hs) by (intros Ho; specialize (Hhs _ Ho); lia).
      assert (Hsz : size ({[Z.of_nat n]} ∪ hs) = S (size hs)).
      { rewrite size_union, size_singleton; [done|]. set_solver. }
      destruct (IH ({[Z.of_nat n]} ∪ hs)) as [I1 I2].
      * intros o [Ho%elem_of_singleton|Ho]%elem_of_union; [lia|]. specialize (Hhs o Ho). lia.
      * rewrite Hsz. lia.
      * rewrite Hsz in I2. rewrite decide_True by done. split; [|lia].
        intros o Ho. destruct (I1 o Ho) as [[Ho'%elem_of_singleton|]%elem_of_union|[? ?]];
          [right; split; [lia|congruence]|by left|right; split; [lia|done]].
Qed.

Lemma filter_complement (P : Z -> Prop) `{!forall o, Decision (P o)} (l : list Z) :
  Z.of_nat (length (filter P l)) + Z.of_nat (length (filter (fun o => ~ P o) l)) = Z.of_nat (length l).
Proof. induction l as [|x l IH]; [done|]. rewrite !filter_cons. repeat case_decide; rewrite ?length_cons; lia || tauto. Qed.

Lemma sorted_filter (P : Z -> Prop) `{!forall o, Decision (P o)} l : StronglySorted Z.lt l -> StronglySorted Z.lt (filter P l).
Proof.
  induction 1 as [|x l Hs IH Hx]; [constructor|]. rewrite filter_cons. case_decide; [|done].
  constructor; [done|]. rewrite Forall_forall in Hx |- *. intros y [_ Hy]%list_elem_of_filter. by apply Hx.
Qed.

(** The population of the sorted ordinals [ordered]. *)
Lemma population_of ordered desired previousDesired : 0 <= desired -> 0 <= previousDesired ->
  StronglySorted Z.lt ordered -> (forall o, o ∈ ordered -> 0 <= o) -> Z.of_nat (length ordered) <= desired ->
  let e := Z.min previousDesired desired in
  let p := MkPopulation e (fillHoles (Z.to_nat e) (e - 1) (list_to_set ordered)
             (Z.of_nat (length (filter (fun o => desired <= o) ordered))) ∅) (filter (fun o => e <= o) ordered) in
  population_ok p /\ countFrom p 0 <= desired /\ (desired <= previousDesired -> countFrom p 0 = desired) /\
  (forall o, o ∈ ordered -> contains p o = true) /\
  (forall o, contains p o = true -> 0 <= o /\ (o < previousDesired \/ o ∈ ordered)).
Proof.
  intros Hd Hpd Hs Hnn Hlen e p.
  destruct (fillHoles_spec (list_to_set ordered) (Z.of_nat (length (filter (fun o => desired <= o) ordered)))
    (Z.to_nat e) ∅) as [F1 F2]; [set_solver|rewrite size_empty; lia|].
  rewrite Z2Nat.id in F1, F2 by lia. rewrite size_empty in F2.
  assert (Hp : population_ok p).
  { split; simpl; [lia| | |by apply sorted_filter].
    - intros o Ho. destruct (F1 o Ho) as [Ho'|[? ?]]; [set_solver|lia].
    - intros o [? _]%list_elem_of_filter. done. }
  split; [done|].
  assert (Hcnt : cnt (fun o => o ∉ (list_to_set ordered : gset Z)) 0 e =
    e - Z.of_nat (length (filter (fun o => o < e) ordered))).
  { pose proof (filter_complement (fun o => o ∈ ordered) (seqZ 0 (e - 0))) as HC. rewrite length_seqZ in HC.
    fold (cnt (fun o => o ∈ ordered) 0 e) in HC. fold (cnt (fun o => o ∉ ordered) 0 e) in HC.
    rewrite cnt_list in HC by by apply sorted_lt_NoDup.
    rewrite (filter_ext_in _ (fun o => o < e)) in HC by (intros o Ho; specialize (Hnn o Ho); lia).
    rewrite (cnt_ext _ (fun o => o ∉ ordered)) by (intros; by rewrite elem_of_list_to_set). lia. }
  rewrite Hcnt in F2.
  pose proof (filter_complement (fun o => o < e) ordered) as C1.
  rewrite (filter_ext_in (fun o => ~ o < e) (fun o => e <= o)) in C1 by (intros; lia).
  assert (He : 0 <= e <= desired /\ e <= previousDesired /\ (desired <= previousDesired -> e = desired)) by (unfold e; lia).
  assert (Hde : forall o, desired <= o -> e <= o) by (intros; lia).
  pose proof (filter_split (fun o => desired <= o) (fun o => e <= o) ordered Hde) as C2.
  rewrite (filter_ext_in (fun o => e <= o /\ ~ desired <= o) (fun o => e <= o < desired)) in C2 by (intros; lia).
  pose proof (cnt_list ordered e desired (sorted_lt_NoDup _ Hs)) as C3.
  assert (C4 : 0 <= cnt (fun o => o ∈ ordered) e desired <= desired - e).
  { unfold cnt. pose proof (length_filter (fun o => o ∈ ordered) (seqZ e (desired - e))). rewrite length_seqZ in *. lia. }
  assert (Hcount : countFrom p 0 = e - Z.of_nat (size (holes p)) + Z.of_nat (length (filter (fun o => e <= o) ordered))).
  { unfold countFrom, atLeast. rewrite !(filter_all (fun o => 0 <= o)).
    - cbn [end_ holes extra p]. unfold size, set_size. cbn [compose]. lia.
    - intros o Ho. pose proof (ok_extra p Hp o Ho) as Hx. cbn [end_ p] in Hx. lia.
    - intros o Ho. apply elem_of_elements in Ho. destruct (ok_holes p Hp o Ho). lia. }
  rewrite Hcount. cbn [holes p]. split; [lia|]. split; [lia|]. split.
  - intros o Ho. specialize (Hnn o Ho). unfold contains. apply orb_true_iff. rewrite !andb_true_iff, !bool_decide_eq_true, Z.leb_le, Z.ltb_lt.
    cbn [holes p end_ extra]. rewrite list_elem_of_filter. destruct (Z.lt_ge_cases o e); [left|right; split; [lia|done]].
    split; [lia|]. intros Hin. destruct (F1 o Hin) as [Hin'|[_ Hin']]; [set_solver|]. by rewrite elem_of_list_to_set in Hin'.
  - intros o. unfold contains. rewrite orb_true_iff, !andb_true_iff, !bool_decide_eq_true, Z.leb_le, Z.ltb_lt.
    cbn [holes p end_ extra]. rewrite list_elem_of_filter. intros [[? _]|[? Hin]]; [lia|]. split; [by apply Hnn|by right].
Qed.

(** The stable population of a role is well formed, never larger than the
    desired replica count, and exactly that size unless the role is being
    expanded; it holds every observed formal ordinal (when there are no more
    of them than desired) and nothing that was neither in the previous range
    nor observed. An instance marked as surge, with an ordinal outside the
    desired range, is not in it unless the previous range covers it. *)
Theorem stable_population_spec roleName desired previousDesired surge instances terminating :
  0 <= desired -> 0 <= previousDesired ->
  let ordinals := stableOrdinals roleName desired surge instances terminating in
  let p := stableRolePopulation roleName desired previousDesired surge instances terminating in
  population_ok p /\ countFrom p 0 <= desired /\ (desired <= previousDesired -> countFrom p 0 = desired) /\
  (Z.of_nat (size ordinals) <= desired -> forall o, o ∈ ordinals -> contains p o = true) /\
  (forall o, contains p o = true -> 0 <= o /\ (o < previousDesired \/ o ∈ ordinals)).
Proof.
  intros Hd Hpd ordinals p. destruct (sortedList_spec ordinals) as [Hs He].
  set (ordered := take (Z.to_nat desired) (sortedList ordinals)).
  assert (Hin : forall o, o ∈ ordered -> o ∈ ordinals).
  { intros o Ho. apply He. rewrite <- (take_drop (Z.to_nat desired)). apply elem_of_app. by left. }
  assert (Hnn : forall o, o ∈ ordinals -> 0 <= o).
  { intros o. unfold ordinals, stableOrdinals. rewrite elem_of_union, !elem_of_list_to_set, !list_elem_of_filter. tauto. }
  destruct (population_of ordered desired previousDesired) as (H1 & H2 & H3 & H4 & H5); [done|done| | | |].
  - unfold ordered. rewrite <- (take_drop (Z.to_nat desired) (sortedList ordinals)) in Hs.
    by apply StronglySorted_app_inv in Hs as [Hs _].
  - intros o Ho. by apply Hnn, Hin.
  - unfold ordered. rewrite length_take. lia.
  - split; [exact H1|]. split; [exact H2|]. split; [exact H3|]. split.
    + intros Hsize o Ho. apply H4. unfold ordered. rewrite firstn_all2; [by apply He|].
      rewrite sortedList_perm. unfold size, set_size in Hsize. cbn [compose] in Hsize. lia.
    + intros o Ho. destruct (H5 o Ho) as [? [?|?]]; split; auto.
Qed.

(** A role scaled from five to four replicas that still runs instances 4 and 5,
    but no instance 1 or 2: these are retained, in the place of 2 and 1. *)
Lemma stable_population_spec_witness :
  let i n := MkRole (GenerateRoleID "decode" n) "r" "h" RoleRunning in
  let p := stableRolePopulation "decode" 4 5 ["decode-9"] [i 0; i 3; i 4; i 5; i 9]%Z [] in
  contains p 4 = true /\ contains p 9 = false /\ countFrom p 0 = 4.
Proof.
  intros i p.
  destruct (stable_population_spec "decode" 4 5 ["decode-9"] [i 0; i 3; i 4; i 5; i 9]%Z []) as (_ & _ & H3 & H4 & _);
    [lia|lia|].
  split; [apply H4|split].
  - vm_compute. discriminate.
  - apply (bool_decide_unpack (4 ∈ stableOrdinals "decode" 4 ["decode-9"] [i 0; i 3; i 4; i 5; i 9]%Z [])).
    vm_compute. exact I.
  - vm_compute. reflexivity.
  - apply H3. lia.
Defined.
