(* ===== verification/RoleRollout.v ===== *)
(** * pkg/model-serving-controller/controller/role_rolling_update_coordinator.go:
      limits of a coordinated role rollout

    How far each role of a serving group may advance in a rolling update: the
    cross-role skew, the dependencies between roles, and the last old replica
    of a dependency. What the cluster holds (the instances, how their template
    compares with the target, pending in-place updates, terminating pods) is an
    argument. Counts fit an int32; only the products are kept at their width. *)
From S2P Require Import Prelude Names ServingStore RolePopulation.
Local Open Scope Z_scope.
Local Open Scope go_scope.

Inductive targetVersionState := targetNotStarted | targetStarted | targetReady.
#[global] Instance targetVersionState_eq_dec : EqDecision targetVersionState.
Proof. solve_decision. Defined.

Record coordinatedRoleState := MkState {
  roleName : string;
  stablePopulation : option roleStablePopulation;
  userPartition : Z;
  totalToUpdate : Z;
  startedCount : Z;
  readyCount : Z;
  targetState : targetVersionState;
  hasOldVersion : bool;
  inProgress : bool;
  versionTotal : Z;
  versionReady : Z;
  versionStarted : Z;
  versionOld : Z;
  versionChanged : bool;
  tailReady : bool
}.

(** A blocker of the status condition; its message is left out. *)
Inductive coordinatedRoleBlocker :=
| coordinatedRoleDependencyNotReady
| coordinatedRoleMaxSkewLimitReached
| coordinatedRoleOldVersionDependencyPresent
| coordinatedRoleIncompatiblePartitions.

Record roleRolloutLimits := MkLimits {
  limitPopulation : option roleStablePopulation;
  rolloutEnd : Z;
  effectivePartition : Z;
  remainingDeletions : Z;
  allowTargetStart : bool;
  retainOldReplica : bool
}.

Record roleRolloutGroupPolicy := MkPolicy {
  policyRoles : gmap string roleRolloutLimits;
  blocker : option coordinatedRoleBlocker;
  policyInProgress : bool
}.

Record RoleRolloutDependency := MkDependency { depRole : string; DependsOn : list string }.
Record RoleCoordination := MkCoordination {
  CoordinatedRoles : list string;
  MaxSkew : option IntOrString;
  Dependencies : list RoleRolloutDependency
}.

Definition containsStable (l : roleRolloutLimits) (ordinal : Z) : bool :=
  match limitPopulation l with
  | Some p => contains p ordinal
  | None => (0 <=? ordinal) && (ordinal <? rolloutEnd l)
  end.

(** ** The state of a role *)

Record Tally := MkTally {
  stableTargetReady : Z;
  hasTargetWork : bool;
  hasTargetReady : bool;
  hasCommittedReplacement : bool;
  remainingOldToUpdate : Z;
  sawOldVersion : bool;
  readySeen : Z;
  outsideEligibleStarted : Z;
  oldSeen : Z;
  formalObserved : Z;
  protectedObserved : Z;
  tailOk : bool
}.

Definition count (b : bool) (n : Z) : Z := if b then n + 1 else n.

Section resolve.
Context (compare : Role -> templateComparison) (inPlaceStarted : Role -> bool).

(** One instance of the loop in [resolveRoleRolloutState]. *)
Definition tallyRole (desired previousDesired partition : Z) (population : roleStablePopulation)
    (terminatingReplicas : gmap Z templateComparison) (t : Tally) (role : Role) : Tally :=
  let ordinal := ordinalOf (RoleName role) in
  if ordinal <? 0 then t
  else
    let inStableRange := (partition <=? ordinal) && contains population ordinal in
    let formal := contains population ordinal || ((previousDesired <=? ordinal) && (ordinal <? desired)) in
    let terminating := bool_decide (is_Some (terminatingReplicas !! ordinal)) in
    let committed := hasCommittedReplacement t ||
      (inStableRange && (terminating || bool_decide (Status role = RoleDeleting))) in
    let started := inPlaceStarted role in
    let comparison := if started then templateEquivalent else compare role in
    let status := if started then RoleCreating else Status role in
    let tail := tailOk t && negb (bool_decide (comparison = templateUnknown) ||
      negb (bool_decide (status = RoleRunning)) || terminating) in
    let formals := count formal (formalObserved t) in
    let protected_ := count (contains population ordinal && (ordinal <? partition)) (protectedObserved t) in
    if negb (bool_decide (comparison = templateEquivalent)) then
      MkTally (stableTargetReady t) (hasTargetWork t) (hasTargetReady t) committed
        (count (negb (bool_decide (status = RoleDeleting)) && negb terminating && inStableRange)
           (remainingOldToUpdate t))
        true (readySeen t) (outsideEligibleStarted t) (count formal (oldSeen t)) formals protected_
        (tail && formal)
    else
      let outside := count (formal && negb inStableRange) (outsideEligibleStarted t) in
      if bool_decide (status = RoleDeleting) || terminating ||
         ((desired <=? ordinal) && negb (contains population ordinal))
      then MkTally (stableTargetReady t) (hasTargetWork t) (hasTargetReady t) committed (remainingOldToUpdate t)
             (sawOldVersion t) (readySeen t) outside (oldSeen t) formals protected_ tail
      else
        let ready := bool_decide (status = RoleRunning) in
        MkTally (count (ready && inStableRange) (stableTargetReady t)) true (hasTargetReady t || ready) committed
          (remainingOldToUpdate t) (sawOldVersion t) (count (ready && formal) (readySeen t)) outside (oldSeen t)
          formals protected_ tail.

Definition resolveRoleRolloutState (name : string) (desired previousDesired : Z) (roleList : list Role)
    (partition : Z) (templateChanged : bool) (terminatingReplicas : gmap Z templateComparison)
    (population : option roleStablePopulation) : coordinatedRoleState :=
  let population := default (MkPopulation (Z.min previousDesired desired) ∅ []) population in
  let total := countFrom population partition in
  let protectedOld := total <? countFrom population 0 in
  let t := fold_left (tallyRole desired previousDesired partition population terminatingReplicas) roleList
             (MkTally 0 false false false 0 false 0 0 0 0 0 (bool_decide (terminatingReplicas = ∅))) in
  let old := sawOldVersion t
    || existsb (fun p => (0 <=? p.1) && negb (bool_decide (p.2 = templateEquivalent)))
         (map_to_list terminatingReplicas)
    || (templateChanged && protectedOld && (protectedObserved t <? countFrom population 0 - total)) in
  let started := total - Z.min total (remainingOldToUpdate t) in
  let ready := Z.min started (stableTargetReady t) in
  let target := if hasTargetReady t then targetReady
                else if hasTargetWork t || hasCommittedReplacement t then targetStarted
                else targetNotStarted in
  MkState name (Some population) partition total started ready target old
    (templateChanged && (0 <? total) && (ready <? total))
    desired (Z.min desired (readySeen t)) (Z.min desired (started + outsideEligibleStarted t)) (oldSeen t)
    templateChanged
    (tailOk t && (formalObserved t =? desired) && (readySeen t + oldSeen t =? desired)).
End resolve.

(** ** Skew *)

Definition parseMaxSkewPercent (value : option IntOrString) : option Z :=
  match value with
  | Some (StrVal s) =>
    percent ← parsePercent s;
    if (percent <=? 0) || (100 <? percent) then None else Some percent
  | _ => None
  end.

(** The products are those of int64 values. *)
Definition slowerThan (state baseline : coordinatedRoleState) : bool :=
  int64 (versionReady state * versionTotal baseline) <? int64 (versionReady baseline * versionTotal state).

Definition zeroState : coordinatedRoleState :=
  MkState "" None 0 0 0 0 targetNotStarted false false 1 1 0 0 false false.

Definition slowestReadyProgress (states : list coordinatedRoleState) : coordinatedRoleState :=
  (fold_left (fun '(baseline, found) state =>
     if negb (versionChanged state) || (versionTotal state =? 0) then (baseline, found)
     else if negb found || slowerThan state baseline then (state, true)
     else (baseline, found)) states (zeroState, false)).1.

Definition uint64 (z : Z) : Z := z mod 2 ^ 64.

(** [bits.Mul64] and [bits.Div64]; [None] is a panic. *)
Definition Mul64 (x y : Z) : Z * Z := ((x * y) / 2 ^ 64, (x * y) mod 2 ^ 64).
Definition Div64 (hi lo y : Z) : option (Z * Z) :=
  if (y =? 0) || (y <=? hi) then None
  else Some ((hi * 2 ^ 64 + lo) / y, (hi * 2 ^ 64 + lo) mod y).

Definition allowedStartedReplicas (state baseline : coordinatedRoleState) (maxSkewPercent : Z) : option Z :=
  if versionTotal state <=? 0 then Some 0
  else if versionTotal baseline <=? 0 then Some (versionTotal state)
  else
    let progress := uint64 (uint64 (uint64 (versionReady baseline) * 100)
                            + uint64 (uint64 maxSkewPercent * uint64 (versionTotal baseline))) in
    let denominator := uint64 (uint64 (versionTotal baseline) * 100) in
    if denominator <=? progress then Some (versionTotal state)
    else
      let '(hi, lo) := Mul64 progress (uint64 (versionTotal state)) in
      '(allowed, remainder) ← Div64 hi lo denominator;
      Some (int64 (if negb (remainder =? 0) then uint64 (allowed + 1) else allowed)).

Definition fullRoleRolloutTailReady (states : list coordinatedRoleState) : bool :=
  let live := filter (fun s => versionTotal s <> 0) states in
  forallb (fun s => tailReady s &&
    (negb (versionChanged s) ||
     negb (negb (userPartition s =? 0) || (1 <? versionOld s) ||
           negb (versionReady s + versionOld s =? versionTotal s) || negb (versionStarted s =? versionReady s))))
    live
  && (1 <? Z.of_nat (length (filter (fun s => versionChanged s = true) live))).

(** ** Dependencies *)

Definition appendAll (m : gmap string (list string)) (k : string) (l : list string) : gmap string (list string) :=
  <[k := default [] (m !! k) ++ l]> m.

Definition dependenciesOf (deps : list RoleRolloutDependency) : gmap string (list string) :=
  fold_left (fun m d => appendAll m (depRole d) (DependsOn d)) deps ∅.

Definition dependentsOf (deps : list RoleRolloutDependency) : gmap string (list string) :=
  fold_left (fun m d => fold_left (fun m name => appendAll m name [depRole d]) (DependsOn d) m) deps ∅.

Definition at_ (m : gmap string (list string)) (k : string) : list string := default [] (m !! k).

Definition isOld (states : gmap string coordinatedRoleState) (name : string) : bool :=
  match states !! name with Some s => hasOldVersion s | None => false end.

Definition oldDirectDependents (name : string) (states : gmap string coordinatedRoleState)
    (dependents : gmap string (list string)) : list string :=
  filter (fun d => isOld states d = true) (at_ dependents name).

Definition notReady (states : gmap string coordinatedRoleState) (name : string) : bool :=
  match states !! name with
  | Some s => negb (bool_decide (targetState s = targetReady))
  | None => true
  end.

(** The depth-first search over the dependencies of a role: what was visited, and
    what [record] keeps of every dependency met. *)
Fixpoint visit {R} (record : R -> string -> R) (fuel : nat) (dependencies : gmap string (list string))
    (current : string) (st : gset string * R) : gset string * R :=
  match fuel with
  | O => st
  | S fuel =>
    let '(visited, result) := st in
    if bool_decide (current ∈ visited) then st
    else
      fold_left (fun '(visited, result) dependencyRole =>
        visit record fuel dependencies dependencyRole (visited, record result dependencyRole))
        (at_ dependencies current) ({[current]} ∪ visited, result)
  end.

(** The names in the dependency map. *)
Definition universe (dependencies : gmap string (list string)) : gset string :=
  dom dependencies ∪ list_to_set (concat ((map_to_list dependencies).*2)).

Definition reportUnready (states : gmap string coordinatedRoleState) (result : list string) (dependencyRole : string) : list string :=
  if notReady states dependencyRole && negb (bool_decide (dependencyRole ∈ result))
  then result ++ [dependencyRole] else result.
Definition unreadyDependencyClosure (name : string) states dependencies : list string :=
  (visit (reportUnready states) (S (S (size (universe dependencies)))) dependencies name (∅, [])).2.

(** ** Limits *)

(** The limits of one role, and what blocks it, most important first. [None]
    is a panic of [Div64]. *)
Definition roleLimits (maxSkewPercent : Z) (states : gmap string coordinatedRoleState)
    (dependencies dependents : gmap string (list string)) (baseline : coordinatedRoleState)
    (progressing : Z) (terminal : bool) (state : coordinatedRoleState) :
    option (roleRolloutLimits * list coordinatedRoleBlocker) :=
  let name := roleName state in
  let unready := if bool_decide (targetState state = targetNotStarted) && bool_decide (at_ dependents name = [])
                 then unreadyDependencyClosure name states dependencies else [] in
  let allow := bool_decide (unready = []) in
  let partition := if allow then userPartition state else userPartition state + totalToUpdate state in
  let dependencyBlocker := if allow then [] else [coordinatedRoleDependencyNotReady] in
  let oldDependents := oldDirectDependents name states dependents in
  '(deletions, partition, skewBlocker) ←
    (if inProgress state && (0 <? totalToUpdate state) && allow then
       allowedStarted ← (if 1 <? progressing then allowedStartedReplicas state baseline maxSkewPercent
                         else Some (versionTotal state));
       let deletions := Z.max (allowedStarted - versionStarted state) 0 in
       let deletions :=
         if terminal && (deletions =? 0) && (versionOld state =? 1) && bool_decide (oldDependents = [])
            && existsb (isOld states) (at_ dependencies name)
         then 1 else deletions in
       let allowedEligible := Z.min (totalToUpdate state) (startedCount state + deletions) in
       Some (deletions, userPartition state + totalToUpdate state - allowedEligible,
             if (deletions =? 0) && (startedCount state <? totalToUpdate state)
             then [coordinatedRoleMaxSkewLimitReached] else [])
     else Some (0, partition, []));
  let retain := hasOldVersion state && (userPartition state =? 0) && negb (bool_decide (oldDependents = [])) in
  let retentionBlocker := if retain && (partition =? 0) then [coordinatedRoleOldVersionDependencyPresent] else [] in
  let partition := if retain then Z.max partition 1 else partition in
  let '(end_, partition) :=
    match stablePopulation state with
    | Some p => (upperBound p, boundary p (userPartition state) (Z.max 0 (partition - userPartition state)))
    | None => (userPartition state + totalToUpdate state, partition)
    end in
  Some (MkLimits (stablePopulation state) end_ partition deletions allow retain,
        dependencyBlocker ++ retentionBlocker ++ skewBlocker).

Definition stateByName (states : list coordinatedRoleState) : gmap string coordinatedRoleState :=
  fold_left (fun m s => <[roleName s := s]> m) states ∅.

Definition progressingRoleCount (states : list coordinatedRoleState) : Z :=
  Z.of_nat (length (filter (fun s => versionChanged s = true /\ 0 < versionTotal s) states)).

(** The loop over the states. *)
Fixpoint limitsLoop (limitsOf : coordinatedRoleState -> option (roleRolloutLimits * list coordinatedRoleBlocker))
    (states : list coordinatedRoleState) (policy : roleRolloutGroupPolicy) : option roleRolloutGroupPolicy :=
  match states with
  | [] => Some policy
  | state :: states =>
    '(limits, blockers) ← limitsOf state;
    limitsLoop limitsOf states
      (MkPolicy (<[roleName state := limits]> (policyRoles policy))
         (match blocker policy with Some b => Some b | None => head blockers end)
         (policyInProgress policy || inProgress state))
  end.

(** [calculateRoleRolloutLimits]; [inl] is the error of an invalid skew. *)
Definition calculateRoleRolloutLimits (states : list coordinatedRoleState) (coordination : option RoleCoordination) :
    option (unit + roleRolloutGroupPolicy) :=
  match coordination with
  | None => Some (inr (MkPolicy ∅ None false))
  | Some coordination =>
    match parseMaxSkewPercent (MaxSkew coordination) with
    | None => Some (inl ())
    | Some maxSkewPercent =>
      inr <$> limitsLoop
        (roleLimits maxSkewPercent (stateByName states) (dependenciesOf (Dependencies coordination))
           (dependentsOf (Dependencies coordination)) (slowestReadyProgress states) (progressingRoleCount states)
           (fullRoleRolloutTailReady states)) states (MkPolicy ∅ None false)
    end
  end.

(** ** The allowance *)

Definition ceilDiv (a b : Z) : Z := - (- a / b).

Lemma ceilDiv_spec a b : 0 < b -> b * (ceilDiv a b - 1) < a <= b * ceilDiv a b.
Proof. intros Hb. unfold ceilDiv. pose proof (Z.div_mod (- a) b). pose proof (Z.mod_pos_bound (- a) b Hb). nia. Qed.

Lemma ceilDiv_unique a b q : 0 < b -> b * (q - 1) < a <= b * q -> q = ceilDiv a b.
Proof. intros Hb Hq. pose proof (ceilDiv_spec a b Hb). nia. Qed.

(** The instances of a role that may have been started when the slowest role
    has [r] of [b] ready: the ceiling of (r / b + skew / 100) * n, at most n. *)
Definition allowance (n r b skew : Z) : Z := Z.min n (ceilDiv (n * (100 * r + skew * b)) (100 * b)).

Definition counts_ok (s : coordinatedRoleState) : Prop :=
  0 <= versionReady s <= versionTotal s /\ versionTotal s <= MaxInt32.

Lemma uint64_id z : 0 <= z < 2 ^ 64 -> uint64 z = z.
Proof. apply Z.mod_small. Qed.

Lemma allowedStarted_allowance state baseline skew :
  counts_ok state -> counts_ok baseline -> 0 < versionTotal state -> 0 < versionTotal baseline -> 0 < skew <= 100 ->
  allowedStartedReplicas state baseline skew =
    Some (allowance (versionTotal state) (versionReady baseline) (versionTotal baseline) skew).
Proof.
  intros [H1 H2] [H3 H4] Hn Hb Hs. unfold allowedStartedReplicas, MaxInt32 in *.
  set (n := versionTotal state) in *. set (r := versionReady baseline) in *. set (b := versionTotal baseline) in *.
  destruct (Z.leb_spec n 0); [lia|]. destruct (Z.leb_spec b 0); [lia|].
  assert (E1 : uint64 (uint64 (uint64 r * 100) + uint64 (uint64 skew * uint64 b)) = 100 * r + skew * b).
  { rewrite (uint64_id r), (uint64_id skew), (uint64_id b) by lia.
    rewrite (uint64_id (r * 100)) by lia. rewrite (uint64_id (skew * b)) by nia. rewrite uint64_id by nia. lia. }
  assert (E2 : uint64 (uint64 b * 100) = 100 * b) by (rewrite (uint64_id b) by lia; rewrite uint64_id by lia; lia).
  rewrite E1, E2, (uint64_id n) by lia. unfold allowance. set (x := 100 * r + skew * b).
  assert (Hx : 0 <= x) by (unfold x; nia).
  pose proof (ceilDiv_spec (n * x) (100 * b) ltac:(lia)) as Hc.
  destruct (Z.leb_spec (100 * b) x) as [Hle|Hlt].
  { f_equal. rewrite Z.min_l; [done|]. nia. }
  unfold Mul64, Div64. rewrite Z.min_r by nia.
  assert (Hprod : 0 <= x * n < 2 ^ 31 * 100 * 2 ^ 31) by nia.
  assert (Hhi : 0 <= (x * n) / 2 ^ 64 < 100 * b).
  { split; [apply Z.div_pos; lia|]. apply Z.div_lt_upper_bound; [lia|]. nia. }
  destruct (Z.eqb_spec (100 * b) 0); [lia|]. destruct (Z.leb_spec (100 * b) ((x * n) / 2 ^ 64)); [lia|]. simpl orb. cbn iota.
  replace ((x * n) / 2 ^ 64 * 2 ^ 64 + (x * n) mod 2 ^ 64) with (x * n) by (pose proof (Z.div_mod (x * n) (2 ^ 64)); lia).
  simpl. pose proof (Z.div_mod (x * n) (100 * b) ltac:(lia)) as Hdm.
  pose proof (Z.mod_pos_bound (x * n) (100 * b) ltac:(lia)) as Hm.
  assert (Hq : 0 <= (x * n) / (100 * b) < n) by (split; [apply Z.div_pos; lia|apply Z.div_lt_upper_bound; nia]).
  f_equal. destruct (Z.eqb_spec ((x * n) mod (100 * b)) 0) as [E|E]; simpl.
  - rewrite int64_id by go_lia. apply ceilDiv_unique; [lia|]. nia.
  - rewrite uint64_id by lia. rewrite int64_id by go_lia. apply ceilDiv_unique; [lia|]. nia.
Qed.

(** A role that takes part in the progress comparison. *)
Definition participant (s : coordinatedRoleState) : Prop := versionChanged s = true /\ versionTotal s <> 0.
#[global] Instance participant_dec s : Decision (participant s).
Proof. unfold participant. apply _. Defined.

(** [b] is no faster than any participant. *)
Definition slowest (states : list coordinatedRoleState) (b : coordinatedRoleState) : Prop :=
  ((b ∈ states /\ participant b) \/ (b = zeroState /\ forall s, s ∈ states -> ~ participant s)) /\
  forall s, s ∈ states -> participant s -> versionReady b * versionTotal s <= versionReady s * versionTotal b.

Lemma product_id a b : 0 <= a <= MaxInt32 -> 0 <= b <= MaxInt32 -> int64 (a * b) = a * b.
Proof. unfold MaxInt32. intros. apply int64_id. assert (0 <= a * b <= 2147483647 * 2147483647) by nia. go_lia. Qed.

Lemma cross_trans sr st br bt xr xt :
  0 < bt -> 0 <= st -> 0 <= xt -> sr * bt <= br * st -> br * xt <= xr * bt -> sr * xt <= xr * st.
Proof.
  intros Hb Hs Hx H1 H2. apply (Z.mul_le_mono_pos_r _ _ bt Hb).
  assert (sr * bt * xt <= br * st * xt) by (by apply Z.mul_le_mono_nonneg_r).
  assert (br * xt * st <= xr * bt * st) by (by apply Z.mul_le_mono_nonneg_r). lia.
Qed.

Lemma slowest_spec states : Forall counts_ok states -> slowest states (slowestReadyProgress states).
Proof.
  intros Hok. unfold slowestReadyProgress.
  set (step := fun '(baseline, found) state =>
     if negb (versionChanged state) || (versionTotal state =? 0) then (baseline, found)
     else if negb found || slowerThan state baseline then (state, true)
     else (baseline, found)).
  enough (H : forall l, Forall counts_ok l -> let '(b, found) := fold_left step l (zeroState, false) in
    slowest l b /\ (found = true <-> participant b /\ b ∈ l)).
  { specialize (H states Hok). destruct (fold_left step states _) as [b found]. apply H. }
  induction l as [|s l IH] using rev_ind; intros Hl; [simpl|].
  { split; [split; [right; split; [done|]|]; intros s Hs; by apply elem_of_nil in Hs|].
    split; [done|]. intros [_ Hs]. by apply elem_of_nil in Hs. }
  apply Forall_app in Hl as [Hl Hs]. rewrite Forall_singleton in Hs. specialize (IH Hl).
  rewrite fold_left_app. simpl. destruct (fold_left step l _) as [b found]. destruct IH as [[Hb Hmin] Hfound].
  assert (Hin : forall x, x ∈ l ++ [s] <-> x ∈ l \/ x = s) by (intros; rewrite elem_of_app, list_elem_of_singleton; done).
  assert (Hpart : negb (versionChanged s) || (versionTotal s =? 0) = false <-> participant s).
  { unfold participant. rewrite orb_false_iff, negb_false_iff, Z.eqb_neq. done. }
  unfold step. destruct (negb (versionChanged s) || (versionTotal s =? 0)).
  - assert (Hnp : ~ participant s) by (rewrite <- Hpart; done). split; [split|].
    + destruct Hb as [[H1 H2]|[-> H2]]; [left; split; [apply Hin; by left|done]|right]. split; [done|].
      intros x [Hx| ->]%Hin; [by apply H2|done].
    + intros x [Hx| ->]%Hin Hp; [by apply Hmin|done].
    + rewrite Hfound, Hin. split; [intros [? ?]; split; [done|by left]|]. intros [Hp [Hx|Hx]]; [done|by subst].
  - assert (Hp : participant s) by by apply Hpart.
    destruct found; simpl.
    + destruct (proj1 Hfound eq_refl) as [Hpb Hbl].
      assert (Hbc : counts_ok b) by (rewrite Forall_forall in Hl; by apply Hl).
      unfold slowerThan. rewrite !product_id by (unfold counts_ok in *; lia). destruct (Z.ltb_spec (versionReady s * versionTotal b) (versionReady b * versionTotal s)).
      * split; [split|].
        -- left. split; [apply Hin; by right|done].
        -- intros x [Hx| ->]%Hin Hpx; [|lia]. specialize (Hmin x Hx Hpx).
           assert (Hcx : counts_ok x) by (rewrite Forall_forall in Hl; by apply Hl). 
           destruct Hpb as [_ Hpb]. unfold counts_ok in *.
           apply (cross_trans _ _ (versionReady b) (versionTotal b)); lia.
        -- split; [|done]. intros _. split; [done|apply Hin; by right].
      * split; [split|].
        -- left. split; [apply Hin; by left|done].
        -- intros x [Hx| ->]%Hin Hpx; [by apply Hmin|lia].
        -- split; [|done]. intros _. split; [done|apply Hin; by left].
    + assert (Hnone : forall x, x ∈ l -> ~ participant x).
      { destruct Hb as [[H1 H2]|[_ H2]]; [|done]. exfalso. by assert (false = true) by (apply Hfound; done). }
      split; [split|].
      * left. split; [apply Hin; by right|done].
      * intros x [Hx| ->]%Hin Hpx; [by destruct (Hnone x)|lia].
      * split; [|done]. intros _. split; [done|apply Hin; by right].
Qed.

(** ** The closure of the dependencies *)

Section closure.
Context (dependencies : gmap string (list string)).

Definition dependsOn (a b : string) : Prop := b ∈ at_ dependencies a.

Lemma universe_dep a b : dependsOn a b -> a ∈ universe dependencies /\ b ∈ universe dependencies.
Proof.
  unfold dependsOn, at_, universe. destruct (dependencies !! a) as [l|] eqn:E; simpl; [|by intros ?%elem_of_nil].
  intros Hb. split; apply elem_of_union.
  - left. by apply elem_of_dom_2 in E.
  - right. apply elem_of_list_to_set. apply list_elem_of_In, in_concat. exists l.
    split; [|by apply list_elem_of_In]. apply list_elem_of_In, list_elem_of_fmap. exists (a, l).
    split; [done|by apply elem_of_map_to_list].
Qed.

(** What a search from [c] adds to the visited names [V], and the names [ds] it
    meets on the way. *)
Record searched (c : string) (V V' : gset string) (ds : list string) : Prop := {
  s_grows : V ⊆ V';
  s_reach : forall x, x ∈ V' -> x ∈ V \/ rtc dependsOn c x;
  s_closed : forall x y, x ∈ V' -> x ∉ V -> dependsOn x y -> y ∈ V' /\ y ∈ ds;
  s_met : forall y, y ∈ ds -> exists x, rtc dependsOn c x /\ dependsOn x y
}.

Definition remaining (V : gset string) : nat := size (universe dependencies ∖ V).

Lemma remaining_mono V V' : V ⊆ V' -> (remaining V' <= remaining V)%nat.
Proof. intros H. unfold remaining. apply subseteq_size. set_solver. Qed.

Lemma remaining_lt c V : c ∈ universe dependencies -> c ∉ V -> (remaining ({[c]} ∪ V) < remaining V)%nat.
Proof. intros H1 H2. unfold remaining. apply subset_size. set_solver. Qed.

Lemma visit_spec {R} (record : R -> string -> R) fuel : forall c V (r : R), (remaining V < fuel)%nat ->
  exists V' ds, visit record fuel dependencies c (V, r) = (V', fold_left record ds r) /\ searched c V V' ds /\ c ∈ V'.
Proof.
  induction fuel as [|fuel IH]; intros c V r Hf; [lia|]. cbn [visit]. case_bool_decide as Hc.
  { exists V, []. split_and!; [done| |done]. split; [done|by left|done|]. by intros y ?%elem_of_nil. }
  set (step := fun '(visited, result) dependencyRole => _).
  enough (H : forall l, (forall d, d ∈ l -> dependsOn c d) -> exists V' ds,
    fold_left step l ({[c]} ∪ V, r) = (V', fold_left record ds r) /\
    searched c ({[c]} ∪ V) V' ds /\ forall d, d ∈ l -> d ∈ V' /\ d ∈ ds).
  { destruct (H (at_ dependencies c) ltac:(done)) as (V' & ds & E & [H1 H2 H3 H4] & H7). exists V', ds.
    split_and!; [done| |set_solver]. split; [set_solver| | |done].
    - intros x Hx. destruct (H2 x Hx) as [[->%elem_of_singleton|]%elem_of_union|]; [by right|by left|by right].
    - intros x y Hx HxV Hxy. destruct (decide (x = c)) as [->|]; [by apply H7|].
      apply (H3 x y); [done|set_solver|done]. }
  induction l as [|d l IHl] using rev_ind; intros Hl; simpl.
  { exists ({[c]} ∪ V), []. split_and!; [done| |by intros d ?%elem_of_nil]. split; [done|by left|done|by intros y ?%elem_of_nil]. }
  rewrite fold_left_app. simpl. destruct (IHl ltac:(intros; apply Hl, elem_of_app; by left)) as (V1 & ds1 & E1 & [H1 H2 H3 H4] & H7).
  assert (Hd : dependsOn c d) by (apply Hl, elem_of_app; right; by left). rewrite E1. unfold step at 1.
  destruct (IH d V1 (record (fold_left record ds1 r) d)) as (V2 & ds2 & E2 & [S1 S2 S3 S4] & S7).
  { pose proof (remaining_lt c V (proj1 (universe_dep c d Hd)) Hc). pose proof (remaining_mono _ _ H1). lia. }
  exists V2, (ds1 ++ d :: ds2). split_and!; [by rewrite E2, fold_left_app|split|].
  - set_solver.
  - intros x Hx. destruct (S2 x Hx) as [Hx1|Hx1]; [by apply H2|right]. by eapply rtc_l.
  - intros x y Hx HxV Hxy. rewrite elem_of_app, elem_of_cons. destruct (decide (x ∈ V1)) as [Hx1|Hx1].
    + destruct (H3 x y Hx1 HxV Hxy) as [Hy1 Hy2]. split; [set_solver|by left].
    + destruct (S3 x y Hx Hx1 Hxy). split; [done|by right; right].
  - intros y [Hy|[->|Hy]%elem_of_cons]%elem_of_app; [by apply H4|by exists c|].
    destruct (S4 y Hy) as (x & Hx & Hxy). exists x. split; [by eapply rtc_l|done].
  - intros d' Hd'. rewrite elem_of_app, elem_of_cons. apply elem_of_app in Hd' as [Hd'| ->%list_elem_of_singleton].
    + destruct (H7 d' Hd'). split; [set_solver|by left].
    + split; [done|by right; left].
Qed.

(** A whole search meets exactly what is reachable. *)
Lemma search_all {R} (record : R -> string -> R) c (r : R) : exists ds,
  (visit record (S (S (size (universe dependencies)))) dependencies c (∅, r)).2 = fold_left record ds r /\
  forall y, y ∈ ds <-> tc dependsOn c y.
Proof.
  destruct (visit_spec record (S (S (size (universe dependencies)))) c ∅ r) as (V & ds & -> & [H1 H2 H3 H4] & H5).
  { unfold remaining. rewrite difference_empty_L. lia. }
  exists ds. split; [done|]. intros y. split.
  - intros Hy. destruct (H4 y Hy) as (x & Hx & Hxy). eapply tc_rtc_l; [exact Hx|by apply tc_once].
  - intros Hr. assert (Hv : forall x, rtc dependsOn c x -> x ∈ V).
    { intros x. apply (rtc_ind_r (fun x => x ∈ V)); [done|]. intros a b _ Hab Ha. apply (H3 a b); [done|set_solver|done]. }
    assert (Hlast : exists x, rtc dependsOn c x /\ dependsOn x y).
    { revert y Hr. apply (tc_ind_r (fun y => exists x, rtc dependsOn c x /\ dependsOn x y)).
      - intros y Hy. exists c. split; [apply rtc_refl|done].
      - intros x z Hx Hxz _. exists x. split; [by apply tc_rtc|done]. }
    destruct Hlast as (x & Hx & Hxy). apply (H3 x y); [by apply Hv|set_solver|done].
Qed.

Lemma report_all states ds : forall R, NoDup R ->
  NoDup (fold_left (reportUnready states) ds R) /\
  forall y, y ∈ fold_left (reportUnready states) ds R <-> y ∈ R \/ (y ∈ ds /\ notReady states y = true).
Proof.
  induction ds as [|d ds IH]; intros R HR; simpl.
  { split; [done|]. intros y. rewrite elem_of_nil. tauto. }
  assert (Hd : NoDup (reportUnready states R d) /\ forall y, y ∈ reportUnready states R d <-> y ∈ R \/ (y = d /\ notReady states y = true)).
  { unfold reportUnready. destruct (notReady states d) eqn:E; simpl.
    - case_bool_decide as Hin; simpl; [split; [done|]; intros y; split; [by left|by intros [?|[-> _]]]|].
      split; [apply NoDup_app; split; [done|split; [|apply NoDup_singleton]]; intros x Hx ->%list_elem_of_singleton; done|].
      intros y. rewrite elem_of_app, list_elem_of_singleton. naive_solver.
    - split; [done|]. intros y. split; [by left|]. intros [?|[-> ?]]; [done|congruence]. }
  destruct Hd as [Hd1 Hd2]. destruct (IH _ Hd1) as [I1 I2]. split; [done|]. intros y. rewrite I2, Hd2, elem_of_cons. tauto.
Qed.

(** The report: every role the search can reach whose target is not ready. *)
Lemma closure_spec states c :
  NoDup (unreadyDependencyClosure c states dependencies) /\
  forall y, y ∈ unreadyDependencyClosure c states dependencies <-> tc dependsOn c y /\ notReady states y = true.
Proof.
  unfold unreadyDependencyClosure. destruct (search_all (reportUnready states) c []) as (ds & -> & Hds).
  destruct (report_all states ds [] (NoDup_nil_2)) as [H1 H2]. split; [done|]. intros y. rewrite H2, Hds, elem_of_nil. tauto.
Qed.
End closure.

(** A declared dependency: role [a] depends on role [b]. *)
Definition declared (deps : list RoleRolloutDependency) (a b : string) : Prop :=
  exists d, d ∈ deps /\ depRole d = a /\ b ∈ DependsOn d.

Lemma at_append m k l x : at_ (appendAll m k l) x = if decide (x = k) then at_ m k ++ l else at_ m x.
Proof.
  unfold at_, appendAll. case_decide; subst; [by rewrite lookup_insert_eq|by rewrite lookup_insert_ne].
Qed.

Lemma dependenciesOf_spec deps a b : b ∈ at_ (dependenciesOf deps) a <-> declared deps a b.
Proof.
  unfold dependenciesOf, declared. induction deps as [|d deps IH] using rev_ind.
  - unfold at_. simpl. rewrite lookup_empty. simpl. split; [by intros ?%elem_of_nil|]. intros (d & Hd & _). by apply elem_of_nil in Hd.
  - rewrite fold_left_app. simpl. rewrite at_append. case_decide; subst; rewrite ?elem_of_app, IH; split.
    + intros [(x & Hx & H1 & H2)|Hb]; [exists x; split; [apply elem_of_app; by left|done]|].
      exists d. split; [apply elem_of_app; right; by left|done].
    + intros (x & [Hx|Hx%list_elem_of_singleton]%elem_of_app & H1 & H2); [left; by exists x|right; by subst].
    + intros (x & Hx & H1 & H2). exists x. split; [apply elem_of_app; by left|done].
    + intros (x & [Hx|Hx%list_elem_of_singleton]%elem_of_app & H1 & H2); [by exists x|by subst].
Qed.

Lemma at_append_each a l : forall m x y,
  y ∈ at_ (fold_left (fun m name => appendAll m name [a]) l m) x <-> y ∈ at_ m x \/ (y = a /\ x ∈ l).
Proof.
  induction l as [|n l IH]; intros m x y; simpl; [rewrite elem_of_nil; tauto|].
  rewrite IH, at_append, elem_of_cons. case_decide; subst; [|tauto].
  rewrite elem_of_app, list_elem_of_singleton. tauto.
Qed.

Lemma dependentsOf_spec deps a b : a ∈ at_ (dependentsOf deps) b <-> declared deps a b.
Proof.
  unfold dependentsOf, declared. induction deps as [|d deps IH] using rev_ind.
  - unfold at_. simpl. rewrite lookup_empty. simpl. split; [by intros ?%elem_of_nil|]. intros (d & Hd & _). by apply elem_of_nil in Hd.
  - rewrite fold_left_app. simpl. rewrite at_append_each, IH. split.
    + intros [(x & Hx & H1 & H2)|[-> Hb]]; [exists x; split; [apply elem_of_app; by left|done]|].
      exists d. split; [apply elem_of_app; right; by left|done].
    + intros (x & [Hx|Hx%list_elem_of_singleton]%elem_of_app & H1 & H2); [left; by exists x|right; by subst].
Qed.

Lemma tc_iff {A} (R R' : A -> A -> Prop) x y : (forall a b, R a b <-> R' a b) -> tc R x y <-> tc R' x y.
Proof.
  intros H. split.
  - induction 1 as [a b Hab|a b c Hab _ IH]; [apply tc_once; by apply H|eapply tc_l; [by apply H|done]].
  - induction 1 as [a b Hab|a b c Hab _ IH]; [apply tc_once; by apply H|eapply tc_l; [by apply H|done]].
Qed.

(** C33: the search for what a rollout root waits for ends, and reports every
    role it depends on, directly or through others, whose target version is
    not ready (or that has no state), once each and nothing else; cyclic
    declarations are no obstacle. *)
Theorem unready_closure_exact deps states c :
  let report := unreadyDependencyClosure c states (dependenciesOf deps) in
  NoDup report /\
  forall y, y ∈ report <->
    tc (declared deps) c y /\
    (forall s, states !! y = Some s -> targetState s <> targetReady).
Proof.
  intros rep. destruct (closure_spec (dependenciesOf deps) states c) as [H1 H2]. split; [done|].
  intros y. unfold rep. rewrite H2, (tc_iff _ (declared deps)) by (intros; apply dependenciesOf_spec).
  unfold notReady. destruct (states !! y) as [s|].
  - split; intros [? H]; (split; [done|]).
    + intros s' [= <-]. apply negb_true_iff, bool_decide_eq_false in H. done.
    + apply negb_true_iff, bool_decide_eq_false. by apply H.
  - split; intros [? _]; (split; [done|]); [done|reflexivity].
Qed.

(** ** The limits *)

(** A state as the controller resolves it. *)
Record state_ok (s : coordinatedRoleState) : Prop := {
  st_counts : counts_ok s;
  st_partition : 0 <= userPartition s;
  st_started : 0 <= startedCount s <= totalToUpdate s;
  st_population : match stablePopulation s with
                  | Some p => population_ok p /\ totalToUpdate s = countFrom p (userPartition s)
                  | None => False
                  end
}.

Lemma tally_nonneg compare inPlace desired previousDesired partition population terminating l : forall t,
  0 <= readySeen t -> 0 <= remainingOldToUpdate t -> 0 <= stableTargetReady t ->
  let t' := fold_left (tallyRole compare inPlace desired previousDesired partition population terminating) l t in
  0 <= readySeen t' /\ 0 <= remainingOldToUpdate t' /\ 0 <= stableTargetReady t'.
Proof.
  induction l as [|role l IH]; intros t H1 H2 H3; simpl; [done|]. unfold count.
  apply IH; unfold tallyRole; repeat case_match; simpl; unfold count; repeat case_match; lia.
Qed.

Lemma members_suffix p a b : population_ok p -> 0 <= a -> a <= b -> b <= upperBound p ->
  members p b (upperBound p) = countFrom p a - members p a b.
Proof.
  intros Hp Ha Hab Hb. rewrite (countFrom_members p a (upperBound p)) by done. unfold members, cnt.
  replace (upperBound p - a) with ((b - a) + (upperBound p - b)) by lia.
  rewrite seqZ_app by lia. rewrite filter_app, length_app. replace (a + (b - a)) with b by lia. lia.
Qed.

(** What a boundary leaves at or above it. *)
Lemma boundary_leaves p a offset : population_ok p -> 0 <= a -> 0 <= offset ->
  members p (boundary p a offset) (upperBound p) = Z.max 0 (countFrom p a - offset) /\
  (a <= boundary p a offset \/ boundary p a offset = upperBound p).
Proof.
  intros Hp Ha Ho. destruct (upperBound_spec p Hp) as (_ & _ & Hub). destruct (Z.lt_ge_cases offset (countFrom p a)) as [Hlt|Hge].
  - destruct (boundary_inside p a offset Hp Ha ltac:(lia)) as (H1 & H2 & H3).
    assert (Hb : boundary p a offset < upperBound p).
    { apply Z.nle_gt. intros Hle. rewrite (Hub _ Hle) in H2. done. }
    rewrite (members_suffix p a) by (done || lia). rewrite H3. split; [lia|by left].
  - unfold boundary. destruct (Z.leb_spec (countFrom p a) offset); [|lia]. unfold members, cnt.
    rewrite seqZ_nil by lia. split; [simpl; lia|by right].
Qed.

Lemma resolve_state_ok compare inPlace name desired previousDesired roleList partition changed terminating population :
  0 <= desired <= MaxInt32 -> 0 <= previousDesired -> 0 <= partition ->
  match population with Some p => population_ok p | None => True end ->
  state_ok (resolveRoleRolloutState compare inPlace name desired previousDesired roleList partition changed
              terminating population).
Proof.
  intros Hd Hp Hpart Hpop. set (p := default (MkPopulation (Z.min previousDesired desired) ∅ []) population).
  assert (Hok : population_ok p).
  { destruct population; [done|]. simpl in p. split; simpl; [lia| | |constructor].
    - intros o Ho. set_solver.
    - intros o Ho. by apply elem_of_nil in Ho. }
  unfold resolveRoleRolloutState. fold p.
  set (t := fold_left _ _ _).
  assert (Ht : 0 <= readySeen t /\ 0 <= remainingOldToUpdate t /\ 0 <= stableTargetReady t)
    by (apply tally_nonneg; simpl; lia).
  clearbody t. assert (Hc : 0 <= countFrom p partition).
  { rewrite (countFrom_members p partition (upperBound p)) by done. unfold members, cnt. lia. }
  split; simpl.
  - unfold counts_ok. simpl. lia.
  - done.
  - lia.
  - done.
Qed.

Definition skewAllowance (states : list coordinatedRoleState) (skew : Z) (s : coordinatedRoleState) : Z :=
  let b := slowestReadyProgress states in
  if 1 <? progressingRoleCount states then allowance (versionTotal s) (versionReady b) (versionTotal b) skew
  else versionTotal s.

(** Two roles of different names that take part in the rollout. *)
Definition twoParticipants (states : list coordinatedRoleState) : Prop :=
  exists s1 s2, s1 ∈ states /\ s2 ∈ states /\ roleName s1 <> roleName s2 /\ participant s1 /\ participant s2.

(** A role that has started [x] of its replicas before the last of them was
    less than the skew ahead of the ready share of every participant, wherever
    two take part: (x - 1) / n < ready' / n' + skew / 100. *)
Definition withinSkew (states : list coordinatedRoleState) (skew : Z) (s : coordinatedRoleState) (x : Z) : Prop :=
  x <= versionTotal s /\
  forall s', twoParticipants states -> s' ∈ states -> participant s' ->
    100 * (x - 1) * versionTotal s' < versionTotal s * (100 * versionReady s' + skew * versionTotal s').

(** The most replicas a role may have started. *)
Definition skewLimit (states : list coordinatedRoleState) (skew : Z) (s : coordinatedRoleState) (x : Z) : Prop :=
  withinSkew states skew s x /\ forall y, withinSkew states skew s y -> y <= x.

(** Every changed role has at most one old replica left, nothing in flight and
    no partition, and every role is complete and healthy. *)
Definition atTail (states : list coordinatedRoleState) : Prop :=
  twoParticipants states /\
  forall s, s ∈ states -> versionTotal s <> 0 -> tailReady s = true /\
    (versionChanged s = true -> userPartition s = 0 /\ versionOld s <= 1 /\
       versionReady s + versionOld s = versionTotal s /\ versionStarted s = versionReady s).

(** The conditions of the terminal rounding step of a role. *)
Definition terminalStep (deps : list RoleRolloutDependency) (states : list coordinatedRoleState) (s : coordinatedRoleState) : Prop :=
  atTail states /\ versionOld s = 1 /\
  (forall caller, declared deps caller (roleName s) -> isOld (stateByName states) caller = false) /\
  exists d, declared deps (roleName s) d /\ isOld (stateByName states) d = true.

(** A role nothing depends on, not started, that depends on a role whose
    target is not ready. *)
Definition waitingRoot (deps : list RoleRolloutDependency) (states : list coordinatedRoleState) (s : coordinatedRoleState) : Prop :=
  targetState s = targetNotStarted /\ (forall caller, ~ declared deps caller (roleName s)) /\
  exists d, tc (declared deps) (roleName s) d /\ notReady (stateByName states) d = true.

Record limits_safe (deps : list RoleRolloutDependency) (states : list coordinatedRoleState) (skew : Z)
    (s : coordinatedRoleState) (l : roleRolloutLimits) : Prop := {
  l_nonneg : 0 <= remainingDeletions l;
  l_held : ~ (inProgress s = true /\ 0 < totalToUpdate s /\ allowTargetStart l = true) -> remainingDeletions l = 0;
  l_skew : inProgress s = true -> 0 < totalToUpdate s -> allowTargetStart l = true -> exists limit, skewLimit states skew s limit /\
    (if decide (versionStarted s < limit) then versionStarted s + remainingDeletions l = limit
     else (remainingDeletions l = 1 /\ terminalStep deps states s) \/ (remainingDeletions l = 0 /\ ~ terminalStep deps states s));
  l_start : allowTargetStart l = false <-> waitingRoot deps states s;
  l_retain : retainOldReplica l = true <->
    hasOldVersion s = true /\ userPartition s = 0 /\
    exists caller, declared deps caller (roleName s) /\ isOld (stateByName states) caller = true;
  l_eligible : inProgress s = true \/ allowTargetStart l = false ->
    exists p, limitPopulation l = Some p /\ stablePopulation s = Some p /\
      (userPartition s <= effectivePartition l \/ effectivePartition l = upperBound p) /\
      members p (effectivePartition l) (upperBound p) <=
        (if allowTargetStart l then startedCount s + remainingDeletions l else 0) /\
      (retainOldReplica l = true -> members p (effectivePartition l) (upperBound p) <= Z.max 0 (totalToUpdate s - 1))
}.

Section limits.
Context (coordination : RoleCoordination) (states : list coordinatedRoleState) (skew : Z).
Hypothesis Hok : Forall state_ok states.
Hypothesis Hnames : NoDup (roleName <$> states).
Hypothesis Hskew : 0 < skew <= 100.
Let deps := Dependencies coordination.
Let byName := stateByName states.
Let dependencies := dependenciesOf deps.
Let dependents := dependentsOf deps.
Let baseline := slowestReadyProgress states.

Lemma counts_all : Forall counts_ok states.
Proof. eapply Forall_impl; [exact Hok|]. intros s [H _ _ _]. exact H. Qed.

Lemma baseline_ok : counts_ok baseline /\ 0 < versionTotal baseline.
Proof.
  pose proof (slowest_spec states counts_all) as H. fold baseline in H. destruct H as [[[Hin [_ Ht]]|[E _]] _].
  - pose proof counts_all as Hc. rewrite Forall_forall in Hc. specialize (Hc _ Hin). split; [done|].
    unfold counts_ok in Hc. lia.
  - rewrite E. unfold counts_ok, zeroState, MaxInt32. simpl. lia.
Qed.

Lemma allowed_total s : state_ok s ->
  (if 1 <? progressingRoleCount states then allowedStartedReplicas s baseline skew else Some (versionTotal s))
  = Some (skewAllowance states skew s).
Proof.
  intros [Hc _ _ _]. unfold skewAllowance. fold baseline. destruct (1 <? progressingRoleCount states); [|done].
  destruct baseline_ok as [Hb1 Hb2]. destruct (Z.eq_dec (versionTotal s) 0) as [E|].
  - unfold allowedStartedReplicas, allowance. rewrite E. simpl. f_equal.
  - apply allowedStarted_allowance; try done. unfold counts_ok in Hc. lia.
Qed.

Lemma two_participants (Q : coordinatedRoleState -> Prop) `{!forall s, Decision (Q s)} :
  (forall s, s ∈ states -> Q s <-> participant s) -> 1 < Z.of_nat (length (filter Q states)) <-> twoParticipants states.
Proof.
  intros HQ. pose proof (fun s => list_elem_of_filter Q states s) as Hin.
  assert (Hnd : NoDup (roleName <$> filter Q states)) by (eapply sublist_NoDup; [exact Hnames|]; apply fmap_sublist, sublist_filter).
  split.
  - intros Hl. destruct (filter Q states) as [|s1 [|s2 l]]; [simpl in Hl; lia|simpl in Hl; lia|].
    destruct (proj1 (Hin s1) ltac:(left)) as [Q1 I1], (proj1 (Hin s2) ltac:(right; left)) as [Q2 I2].
    exists s1, s2. split_and!; [done|done| |by apply HQ|by apply HQ]. rewrite !fmap_cons in Hnd. apply NoDup_cons in Hnd as [Hnd _].
    intros E. apply Hnd. rewrite E. left.
  - intros (s1 & s2 & I1 & I2 & Hne & P1 & P2). apply HQ in P1, P2; [|done..].
    pose proof (proj2 (Hin s1) (conj P1 I1)) as E1. pose proof (proj2 (Hin s2) (conj P2 I2)) as E2.
    destruct (filter Q states) as [|x [|y l]]; [by apply elem_of_nil in E1| |simpl; lia].
    apply list_elem_of_singleton in E1, E2. congruence.
Qed.

Lemma progressing_two : (1 <? progressingRoleCount states) = true <-> twoParticipants states.
Proof.
  rewrite Z.ltb_lt. apply two_participants. intros s Hs. unfold participant. pose proof counts_all as Hc. rewrite Forall_forall in Hc.
  specialize (Hc s Hs). unfold counts_ok in Hc. intuition lia.
Qed.

(** The allowance the code computes from the slowest role is the limit. *)
Lemma skewAllowance_limit s : s ∈ states -> skewLimit states skew s (skewAllowance states skew s).
Proof.
  intros Hs. pose proof counts_all as Hc. rewrite Forall_forall in Hc. pose proof (Hc s Hs) as [Hc1 Hc2].
  unfold skewAllowance. fold baseline. pose proof progressing_two as Htwo. destruct (1 <? progressingRoleCount states).
  2:{ split; [split; [lia|]|by intros y [Hy _]]. intros s' Hp. by apply Htwo in Hp. }
  destruct (slowest_spec states counts_all) as [Hb Hmin]. fold baseline in Hb, Hmin. destruct Hb as [[Hb1 Hb2]|[_ Hno]].
  2:{ destruct (proj1 Htwo eq_refl) as (s1 & _ & I1 & _ & _ & P1 & _). by destruct (Hno s1 I1). }
  destruct baseline_ok as [[Hr Hr'] Ht]. unfold allowance.
  pose proof (ceilDiv_spec (versionTotal s * (100 * versionReady baseline + skew * versionTotal baseline)) (100 * versionTotal baseline) ltac:(lia)) as Hceil.
  set (q := ceilDiv _ _) in *. split; [split; [lia|]|].
  - intros s' _ Hs' Hp. specialize (Hmin s' Hs' Hp). pose proof (Hc s' Hs') as [Hd1 Hd2]. destruct Hp as [_ Hp].
    apply (Z.mul_lt_mono_pos_r (versionTotal baseline)); [done|].
    assert (H1 : 100 * (q - 1) * versionTotal baseline * versionTotal s' < versionTotal s * (100 * versionReady baseline + skew * versionTotal baseline) * versionTotal s')
      by (apply Z.mul_lt_mono_pos_r; [lia|]; nia).
    assert (H2 : versionTotal s * (versionReady baseline * versionTotal s') <= versionTotal s * (versionReady s' * versionTotal baseline))
      by (apply Z.mul_le_mono_nonneg_l; lia).
    assert (H3 : (Z.min (versionTotal s) q - 1) * (versionTotal baseline * versionTotal s') <= (q - 1) * (versionTotal baseline * versionTotal s'))
      by (apply Z.mul_le_mono_nonneg_r; [nia|lia]). lia.
  - intros y [Hy Hall]. specialize (Hall baseline (proj1 Htwo eq_refl) Hb1 Hb2). apply Z.min_glb; [done|]. nia.
Qed.

Lemma tail_spec : fullRoleRolloutTailReady states = true <-> atTail states.
Proof.
  unfold fullRoleRolloutTailReady, atTail. rewrite andb_true_iff, Z.ltb_lt, list_filter_filter.
  rewrite (two_participants (fun s => versionChanged s = true /\ versionTotal s <> 0)) by (intros; unfold participant; tauto).
  rewrite forallb_forall. split.
  - intros [Hall Htwo]. split; [done|]. intros s Hs Ht. specialize (Hall s ltac:(apply list_elem_of_In, list_elem_of_filter; by split)).
    apply andb_true_iff in Hall as [-> Hall]. split; [done|]. intros Hch. rewrite Hch in Hall. cbn [negb orb] in Hall.
    rewrite !negb_true_iff, !orb_false_iff, !negb_false_iff, Z.ltb_ge, !Z.eqb_eq in Hall. tauto.
  - intros [Htwo Hall]. split; [|done]. intros s Hs. apply list_elem_of_In, list_elem_of_filter in Hs as [Ht Hs].
    destruct (Hall s Hs Ht) as [-> Hch]. cbn [andb]. destruct (versionChanged s); [|done]. destruct (Hch eq_refl) as (-> & Ho & -> & ->).
    rewrite !Z.eqb_refl. cbn [negb orb]. rewrite orb_false_r. by destruct (Z.ltb_spec 1 (versionOld s)); [lia|].
Qed.

Lemma no_callers name : bool_decide (at_ dependents name = []) = true <-> forall caller, ~ declared deps caller name.
Proof.
  rewrite bool_decide_eq_true. split.
  - intros E caller H. apply dependentsOf_spec in H. fold dependents in H. rewrite E in H. by apply elem_of_nil in H.
  - intros H. destruct (at_ dependents name) as [|c l] eqn:E; [done|]. exfalso. apply (H c), dependentsOf_spec.
    fold dependents. rewrite E. by left.
Qed.

Lemma oldDependents_spec name caller :
  caller ∈ oldDirectDependents name byName dependents <-> declared deps caller name /\ isOld byName caller = true.
Proof. unfold oldDirectDependents, dependents. rewrite list_elem_of_filter, dependentsOf_spec. tauto. Qed.

Lemma oldDependents_nil name : bool_decide (oldDirectDependents name byName dependents = []) = true <->
  forall caller, declared deps caller name -> isOld byName caller = false.
Proof.
  rewrite bool_decide_eq_true. split.
  - intros E caller H. destruct (isOld byName caller) eqn:Eo; [|done]. exfalso.
    assert (Hin : caller ∈ oldDirectDependents name byName dependents) by by apply oldDependents_spec.
    rewrite E in Hin. by apply elem_of_nil in Hin.
  - intros H. destruct (oldDirectDependents name byName dependents) as [|c l] eqn:E; [done|]. exfalso.
    assert (Hin : c ∈ oldDirectDependents name byName dependents) by (rewrite E; by left).
    apply oldDependents_spec in Hin as [H1 H2]. rewrite (H c H1) in H2. done.
Qed.

Lemma old_callers name : negb (bool_decide (oldDirectDependents name byName dependents = [])) = true <->
  exists caller, declared deps caller name /\ isOld byName caller = true.
Proof.
  rewrite negb_true_iff, bool_decide_eq_false. split.
  - intros H. destruct (oldDirectDependents name byName dependents) as [|c l] eqn:E; [done|].
    exists c. apply oldDependents_spec. rewrite E. by left.
  - intros (c & Hc) E. apply oldDependents_spec in Hc. rewrite E in Hc. by apply elem_of_nil in Hc.
Qed.

Lemma unready_nil name : bool_decide (unreadyDependencyClosure name byName dependencies = []) = true <->
  ~ exists d, tc (declared deps) name d /\ notReady byName d = true.
Proof.
  destruct (closure_spec dependencies byName name) as [_ Hc].
  assert (Hiff : forall y, tc (dependsOn dependencies) name y <-> tc (declared deps) name y)
    by (intros; apply tc_iff; intros; apply dependenciesOf_spec).
  rewrite bool_decide_eq_true. split.
  - intros E (d & H1 & H2). assert (Hin : d ∈ unreadyDependencyClosure name byName dependencies)
      by (apply Hc; rewrite Hiff; done).
    rewrite E in Hin. by apply elem_of_nil in Hin.
  - intros H. destruct (unreadyDependencyClosure name byName dependencies) as [|d l] eqn:E; [done|]. exfalso.
    apply H. exists d. rewrite <- Hiff, <- Hc. by left.
Qed.

(** The list of what a root waits for is empty unless it is a waiting root. *)
Lemma allow_spec s :
  bool_decide ((if bool_decide (targetState s = targetNotStarted) && bool_decide (at_ dependents (roleName s) = [])
                then unreadyDependencyClosure (roleName s) byName dependencies else []) = []) = false
  <-> waitingRoot deps states s.
Proof.
  unfold waitingRoot. fold byName. rewrite <- no_callers.
  destruct (decide (targetState s = targetNotStarted)) as [Ht|Ht].
  2: { rewrite (bool_decide_false _ Ht). simpl. split; [done|]. intros [? _]. done. }
  rewrite (bool_decide_true _ Ht). destruct (bool_decide (at_ dependents (roleName s) = [])); simpl.
  - pose proof (unready_nil (roleName s)) as Hn. destruct (bool_decide _) eqn:Eb.
    + split; [done|]. intros (_ & _ & H). by apply Hn in H.
    + split; [|done]. intros _. split; [done|]. split; [done|].
      destruct (unreadyDependencyClosure (roleName s) byName dependencies) as [|d l] eqn:E.
      * by rewrite bool_decide_true in Eb.
      * exists d. destruct (closure_spec dependencies byName (roleName s)) as [_ Hc].
        assert (Hd : d ∈ unreadyDependencyClosure (roleName s) byName dependencies) by (rewrite E; by left).
        apply Hc in Hd as [H1 H2]. split; [|done]. revert H1. apply tc_iff. intros. symmetry. apply dependenciesOf_spec.
  - split; [done|]. intros (_ & ? & _). done.
Qed.

Lemma roleLimits_safe s : s ∈ states ->
  exists l blockers, roleLimits skew byName dependencies dependents baseline (progressingRoleCount states)
    (fullRoleRolloutTailReady states) s = Some (l, blockers) /\ limits_safe deps states skew s l.
Proof.
  intros Hs. assert (Hst : state_ok s) by (rewrite Forall_forall in Hok; by apply Hok).
  unfold roleLimits. pose proof (allow_spec s) as Hallow.
  set (unready := if _ && _ then _ else _) in *. set (allow := bool_decide (unready = [])) in *. clearbody allow. clear unready.
  pose proof (oldDependents_nil (roleName s)) as Hnil. set (nil := bool_decide (oldDirectDependents _ _ _ = [])) in *.
  pose proof Hst as [_ Hup Hst1 Hpop]. destruct (stablePopulation s) as [p|] eqn:Ep; [|done]. destruct Hpop as [Hp Htot].
  rewrite (allowed_total s Hst). set (A := skewAllowance states skew s) in *. cbn [mbind option_bind].
  set (term := fullRoleRolloutTailReady states && (Z.max (A - versionStarted s) 0 =? 0) && (versionOld s =? 1) && nil &&
                 existsb (isOld byName) (at_ dependencies (roleName s))).
  set (D := if term then 1 else Z.max (A - versionStarted s) 0).
  set (R := hasOldVersion s && (userPartition s =? 0) && negb nil).
  assert (Hterm : term = true <-> A <= versionStarted s /\ terminalStep deps states s).
  { unfold term, terminalStep. rewrite !andb_true_iff, !Z.eqb_eq, tail_spec, Hnil, existsb_exists.
    assert (Hex : (exists d, In d (at_ dependencies (roleName s)) /\ isOld byName d = true) <-> exists d, declared deps (roleName s) d /\ isOld byName d = true)
      by (apply exist_proper; intros d; by rewrite <- list_elem_of_In, <- dependenciesOf_spec).
    rewrite Hex. fold byName. intuition lia. }
  assert (HD : 0 <= D /\ if decide (versionStarted s < A) then versionStarted s + D = A
    else (D = 1 /\ terminalStep deps states s) \/ (D = 0 /\ ~ terminalStep deps states s)).
  { unfold D. clearbody term. case_decide as Hlt; destruct term.
    - destruct (proj1 Hterm eq_refl). lia.
    - lia.
    - split; [lia|]. left. split; [done|]. by apply Hterm.
    - split; [lia|]. right. split; [lia|]. intros Ht. enough (false = true) by done. apply Hterm. split; [lia|done]. }
  clear Hterm. pose proof (skewAllowance_limit s Hs) as Hlimit. fold A in Hlimit.
  assert (HR : R = true <-> hasOldVersion s = true /\ userPartition s = 0 /\
    exists caller, declared deps caller (roleName s) /\ isOld byName caller = true).
  { unfold R, nil. rewrite !andb_true_iff, Z.eqb_eq, old_callers. tauto. }
  assert (Helig : forall off bound, 0 <= off -> Z.max 0 (totalToUpdate s - off) <= bound -> (R = true -> 1 <= off) ->
    exists p0, Some p = Some p0 /\ stablePopulation s = Some p0 /\
      (userPartition s <= boundary p (userPartition s) off \/ boundary p (userPartition s) off = upperBound p0) /\
      members p0 (boundary p (userPartition s) off) (upperBound p0) <= bound /\
      (R = true -> members p0 (boundary p (userPartition s) off) (upperBound p0) <= Z.max 0 (totalToUpdate s - 1))).
  { intros off bound H1 H2 H3. exists p. destruct (boundary_leaves p (userPartition s) off Hp Hup H1) as [-> H5].
    split; [done|]. split; [done|]. split; [done|]. split; [lia|]. intros HRt. specialize (H3 HRt). lia. }
  assert (Hup0 : R = true -> userPartition s = 0) by (intros H; by apply HR in H as (_ & ? & _)).
  clearbody term D R nil A.
  destruct (inProgress s && (0 <? totalToUpdate s) && allow) eqn:Eb; cbn [mbind option_bind];
    (do 2 eexists; split; [reflexivity|]);
    split; cbn [remainingDeletions allowTargetStart retainOldReplica limitPopulation effectivePartition]; try done.
  - lia.
  - intros Hheld. destruct Hheld. rewrite !andb_true_iff, Z.ltb_lt in Eb. tauto.
  - intros _ _ _. exists A. split; [done|]. apply HD.
  - intros _. apply andb_true_iff in Eb as [_ ->]. apply Helig; [lia| |]; destruct R; intuition lia.
  - intros Hin Htot' Ha. rewrite Hin, Ha, (proj2 (Z.ltb_lt _ _) Htot') in Eb. done.
  - intros Hor. apply Helig; [lia| |].
    + destruct allow; [|destruct R; lia]. destruct Hor as [Hin|]; [|done].
      rewrite Hin in Eb. simpl in Eb. rewrite andb_true_r in Eb. apply Z.ltb_ge in Eb. destruct R; lia.
    + intros HRt. rewrite HRt, Hup0 by done. lia.
Qed.
End limits.

(** The loop over the states keeps what it finds for each. *)
Lemma limitsLoop_spec (limitsOf : coordinatedRoleState -> option (roleRolloutLimits * list coordinatedRoleBlocker)) l :
  forall policy, NoDup (roleName <$> l) ->
  (forall s, s ∈ l -> exists lim blockers, limitsOf s = Some (lim, blockers)) ->
  exists policy', limitsLoop limitsOf l policy = Some policy' /\
    (forall s, s ∈ l -> exists lim blockers, limitsOf s = Some (lim, blockers) /\ policyRoles policy' !! roleName s = Some lim) /\
    (forall name, name ∉ roleName <$> l -> policyRoles policy' !! name = policyRoles policy !! name).
Proof.
  induction l as [|s l IH]; intros policy Hnd Hall; simpl.
  - exists policy. split; [done|]. split; [by intros s ?%elem_of_nil|done].
  - apply NoDup_cons in Hnd as [Hs Hnd]. destruct (Hall s) as (lim & blockers & E); [by left|]. rewrite E. simpl.
    edestruct IH as (policy' & E' & H1 & H2); [exact Hnd|intros; apply Hall; by right|].
    exists policy'. split; [exact E'|]. split.
    + intros x [->|Hx]%elem_of_cons; [|by apply H1]. exists lim, blockers. split; [done|].
      rewrite H2 by done. simpl. by rewrite lookup_insert_eq.
    + intros name [Hne Hni]%not_elem_of_cons. rewrite H2 by done. simpl. by rewrite lookup_insert_ne.
Qed.

Lemma parseMaxSkewPercent_range v p : parseMaxSkewPercent v = Some p -> 0 < p <= 100.
Proof.
  unfold parseMaxSkewPercent. destruct v as [[n|str]|]; try done. destruct (parsePercent str) as [q|]; simpl; [|done].
  case_match eqn:E; [done|]. intros [= <-]. apply orb_false_iff in E as [E1%Z.leb_gt E2%Z.ltb_ge]. lia.
Qed.

(** C11: the limits of a coordinated rollout are always computed (no panic, no
    overflow, for all int32 replica counts), and for every role of the group:
    the replacements it may still start bring its started replicas exactly to
    the largest number whose last replica was started less than the skew ahead
    of the ready share of every role that takes part, at most all of them;
    beyond it there is a single step more exactly at the tail of the rollout,
    when its callers have no old version left and a dependency has; and there are none
    while the role is held back or has nothing to update. It is held back
    exactly when it is a root of the dependencies, not started, that depends on
    a role whose target is not ready, and then no ordinal is eligible; its last
    old replica is kept exactly when it has an old version, no user partition
    and an old caller; and never more stable ordinals are eligible than were
    started or may be started, none below the user partition. *)
Theorem rollout_limits_safe coordination states skew :
  Forall state_ok states -> NoDup (roleName <$> states) -> parseMaxSkewPercent (MaxSkew coordination) = Some skew ->
  exists policy, calculateRoleRolloutLimits states (Some coordination) = Some (inr policy) /\
    forall s, s ∈ states -> exists l, policyRoles policy !! roleName s = Some l /\
      limits_safe (Dependencies coordination) states skew s l.
Proof.
  intros Hok Hnd Hskew. pose proof (parseMaxSkewPercent_range _ _ Hskew) as Hrange.
  unfold calculateRoleRolloutLimits. rewrite Hskew. set (limitsOf := roleLimits _ _ _ _ _ _ _).
  destruct (limitsLoop_spec limitsOf states (MkPolicy ∅ None false) Hnd) as (policy & E & H & _).
  { intros s Hs. destruct (roleLimits_safe coordination states skew Hok Hnd Hrange s Hs) as (l & b & E & _). by exists l, b. }
  exists policy. rewrite E. split; [done|]. intros s Hs.
  destruct (H s Hs) as (l & b & E1 & E2), (roleLimits_safe coordination states skew Hok Hnd Hrange s Hs) as (l' & b' & E1' & Hl).
  exists l. split; [done|]. unfold limitsOf in E1. rewrite E1' in E1. by simplify_eq.
Qed.

(** The example of the proposal: prefill/decode/fff with 8/4/10 replicas, of
    which 7/3/9 are ready, prefill calls decode, decode calls fff, skew 10%.
    Prefill may take its terminal step; its last old callee waits. *)
Definition tail_state (name : string) (n : Z) : coordinatedRoleState :=
  resolveRoleRolloutState (fun r => if decide (ordinalOf (RoleName r) = 0) then templateDifferent else templateEquivalent)
    (fun _ => false) name n n
    ((fun i => MkRole (GenerateRoleID name i) "r" "h" RoleRunning) <$> seqZ 0 n) 0 true ∅ None.

Definition proposal_states : list coordinatedRoleState := [tail_state "prefill" 8; tail_state "decode" 4; tail_state "fff" 10].
Definition proposal : RoleCoordination :=
  MkCoordination [] (Some (StrVal "10%")) [MkDependency "prefill" ["decode"]; MkDependency "decode" ["fff"]].

Lemma rollout_limits_safe_witness :
  exists policy l, calculateRoleRolloutLimits proposal_states (Some proposal) = Some (inr policy) /\
    policyRoles policy !! "prefill" = Some l /\ remainingDeletions l = 1 /\
    limits_safe (Dependencies proposal) proposal_states 10 (tail_state "prefill" 8) l.
Proof.
  destruct (rollout_limits_safe proposal proposal_states 10) as (policy & E & H).
  - unfold proposal_states. do 3 (apply Forall_cons; split; [apply resolve_state_ok; unfold MaxInt32; try lia; exact I|]).
    by apply Forall_nil.
  - apply (bool_decide_unpack (NoDup (roleName <$> proposal_states))). vm_compute. exact I.
  - vm_compute. reflexivity.
  - destruct (H (tail_state "prefill" 8)) as (l & El & Hl); [by left|]. exists policy, l.
    split; [exact E|]. split; [exact El|]. split; [|exact Hl].
    assert (E2 : (r ← calculateRoleRolloutLimits proposal_states (Some proposal);
                  match r with inr q => remainingDeletions <$> policyRoles q !! "prefill" | inl _ => None end) = Some 1)
      by (vm_compute; reflexivity).
    rewrite E in E2. cbn [mbind option_bind] in E2. change (roleName (tail_state "prefill" 8)) with "prefill" in El.
    rewrite El in E2. simpl in E2. congruence.
Defined.
