(* ===== verification/RoleCandidates.v ===== *)
(** * pkg/model-serving-controller/controller: replacement candidates of a
      role rollout

    role_rolling_update_coordinator.go, coordinated_role_observation.go and
    model_serving_controller.go: which outdated instances of a role a rolling
    update deletes, within its availability budget and the limits of the
    coordination. *)
From stdpp Require Import sorting.
From S2P Require Import Prelude Names ServingStore RolePopulation RoleRollout.
Local Open Scope Z_scope.

Record rolloutBudget := MkBudget { total : Z; healthy : Z }.

Definition newRolloutBudget (n u active ready unavailable : Z) : rolloutBudget :=
  let minimum := Z.max 0 (n - u) in
  MkBudget (Z.max 0 (active - minimum - unavailable)) (Z.max 0 (ready - minimum)).

Definition takeBudget (b : rolloutBudget) (ready : bool) : bool * rolloutBudget :=
  if (total b <=? 0) || (ready && (healthy b <=? 0)) then (false, b)
  else (true, MkBudget (total b - 1) (if ready then healthy b - 1 else healthy b)).

(** [replicas] and [maxUnavailable] of a role spec; the scaling of a percentage
    is that of the intstr package. *)
Record RoleSpec := MkRoleSpec { specReplicas : option Z; MaxUnavailable : option IntOrString }.

Definition roleReplicas (role : RoleSpec) : Z := default 1 (specReplicas role).

Section budget.
Context (GetScaledValueFromIntOrPercent : IntOrString -> Z -> bool -> option Z).

(** [None] is an error; the flag says whether it is configured. *)
Definition GetMaxUnavailableForRole (role : RoleSpec) : option (Z * bool) :=
  match MaxUnavailable role with
  | None => Some (0, false)
  | Some v =>
    maxUnavailable ← GetScaledValueFromIntOrPercent v (roleReplicas role) false;
    Some (maxUnavailable, true)
  end.

Definition isRunning (r : Role) : bool := bool_decide (Status r = RoleRunning).

Definition countRunning (l : list Role) : Z := Z.of_nat (length (filter (fun r => isRunning r = true) l)).

Definition roleRolloutBudget (role : RoleSpec) (instances : list Role) (unavailable : Z) : option rolloutBudget :=
  '(u, configured) ← GetMaxUnavailableForRole role;
  let u := if configured : bool then u else roleReplicas role in
  Some (newRolloutBudget (roleReplicas role) u (Z.of_nat (length instances)) (countRunning instances) unavailable).
End budget.

Fixpoint selectBudgetedRolesToDelete (instances : list Role) (budget : rolloutBudget) (ordered : bool) : list Role :=
  match instances with
  | [] => []
  | instance :: instances =>
    let '(ok, budget) := takeBudget budget (isRunning instance) in
    if ok : bool then instance :: selectBudgetedRolesToDelete instances budget ordered
    else if ordered || (total budget =? 0) then []
    else selectBudgetedRolesToDelete instances budget ordered
  end.

(** The leading elements that satisfy [p]. *)
Fixpoint takeWhile {A} (p : A -> bool) (l : list A) : list A :=
  match l with
  | x :: l => if p x then x :: takeWhile p l else []
  | [] => []
  end.

Definition roleOrdinal (r : Role) : Z := ordinalOf (RoleName r).

(** [constrainRoleDeletion]: no limits means the role is not coordinated. *)
Definition constrainRoleDeletion (limits : option roleRolloutLimits) (outdatedRoles : list Role) (maxScaleDown : Z) :
    list Role * Z :=
  match limits with
  | None => (outdatedRoles, maxScaleDown)
  | Some limits =>
    let updateableOldCount :=
      Z.of_nat (length (filter (fun r => containsStable limits (roleOrdinal r) = true) outdatedRoles)) in
    let eligible := takeWhile (fun r => negb ((roleOrdinal r <? effectivePartition limits)
                                              || negb (containsStable limits (roleOrdinal r)))) outdatedRoles in
    let maxScaleDown := Z.min maxScaleDown (remainingDeletions limits) in
    (eligible, if retainOldReplica limits then Z.min maxScaleDown (Z.max (updateableOldCount - 1) 0) else maxScaleDown)
  end.

(** The loop over the outdated instances: temporary capacity is selected as
    the budget allows, the rest is kept for the stable selection. *)
Fixpoint selectTemporary (temporary : gset string) (retain : bool) (remainingOld : Z) (budget : rolloutBudget)
    (outdated : list Role) : list Role * list Role * rolloutBudget :=
  match outdated with
  | [] => ([], [], budget)
  | instance :: outdated =>
    if negb (bool_decide (RoleName instance ∈ temporary)) then
      let '(selected, stable, budget) := selectTemporary temporary retain remainingOld budget outdated in
      (selected, instance :: stable, budget)
    else if retain && (remainingOld <=? 1) then selectTemporary temporary retain remainingOld budget outdated
    else
      let '(ok, budget) := takeBudget budget (isRunning instance) in
      if ok : bool then
        let '(selected, stable, budget) := selectTemporary temporary retain (remainingOld - 1) budget outdated in
        (instance :: selected, stable, budget)
      else selectTemporary temporary retain remainingOld budget outdated
  end.

Section candidates.
Context (compare : Role -> templateComparison).

Definition unknownOrdinal (temporary : gset string) (instances : list Role) : Z :=
  foldr Z.max (-1) (roleOrdinal <$>
    filter (fun r => (RoleName r ∉ temporary) /\ Status r <> RoleDeleting /\ compare r = templateUnknown) instances).

(** [selectRoleRolloutCandidates]: the temporary selection and the stable one.
    [coordinated]: the rollout has a coordination; [limits]: its limits for
    the role, if it takes part; [surge]: the role IDs of the surge pods. *)
Definition selectRoleRolloutCandidates (coordinated : bool) (replicas : Z) (surge : list string)
    (instances outdated : list Role) (budget : rolloutBudget) (limits : option roleRolloutLimits) :
    list Role * list Role :=
  if negb coordinated then ([], selectBudgetedRolesToDelete outdated budget false)
  else
    let temporary := markedSurgeNames surge replicas in
    let retain := from_option retainOldReplica false limits in
    let '(selected, stable, budget) :=
      selectTemporary temporary retain (Z.of_nat (length outdated)) budget outdated in
    let unknown := unknownOrdinal temporary instances in
    let stable := takeWhile (fun r => negb (roleOrdinal r <=? unknown)) stable in
    let '(stable, max) := constrainRoleDeletion limits stable (total budget) in
    (selected, selectBudgetedRolesToDelete stable (MkBudget max (healthy budget)) true).

Context (deletionPending inPlaceStarted : Role -> bool).

(** An instance as the scan of [outdatedRolesInRound] leaves it. *)
Definition markDeleting (r : Role) : Role :=
  if bool_decide (Status r = RoleDeleting) || deletionPending r
  then MkRole (RoleName r) (RoleRevision r) (RoleTemplateHash r) RoleDeleting else r.

Definition isOutdated (r : Role) : bool :=
  negb (bool_decide (Status r = RoleDeleting) || deletionPending r) && negb (inPlaceStarted r)
  && bool_decide (compare r = templateDifferent).

Definition isNewUnavailable (r : Role) : bool :=
  if bool_decide (Status r = RoleDeleting) || deletionPending r then true
  else if inPlaceStarted r then true
  else negb (bool_decide (compare r = templateDifferent)) && negb (isRunning r).

Definition outdatedLe (coordinated : bool) (a b : Role) : Prop :=
  if negb coordinated && negb (Bool.eqb (isRunning a) (isRunning b)) then isRunning a = false
  else roleOrdinal b <= roleOrdinal a.
#[global] Instance outdatedLe_dec coordinated a b : Decision (outdatedLe coordinated a b).
Proof. unfold outdatedLe. case_match; apply _. Defined.

(** [outdatedRolesInRound]: the list with the deletions marked, the outdated
    instances in order, and how many are unavailable. *)
Definition outdatedRoles (coordinated : bool) (roleList : list Role) : list Role * list Role * Z :=
  (markDeleting <$> roleList,
   merge_sort (outdatedLe coordinated) (filter (fun r => isOutdated r = true) roleList),
   Z.of_nat (length (filter (fun r => isNewUnavailable r = true) roleList))).

(** The instances the user partition protects. *)
Definition protectedRoles (coordinated : bool) (partition : Z) (roleList : list Role) : gset string :=
  list_to_set (RoleName <$>
    if coordinated then filter (fun r => 0 <= roleOrdinal r < partition) roleList
    else take (Z.to_nat partition) roleList).

(** The part of [rolesToDeleteForRoleRollingUpdateInRound] for one role. *)
Definition rolesToDelete scaled (coordinated : bool) (role : RoleSpec) (partition : Z) (surge : list string)
    (roleList : list Role) (limits : option roleRolloutLimits) : list Role * list Role :=
  let '(roleList', outdated, newUnavailable) := outdatedRoles coordinated roleList in
  let protected_ := protectedRoles coordinated partition roleList in
  let outdated := filter (fun r => RoleName r ∉ protected_) outdated in
  if bool_decide (outdated = []) then ([], [])
  else match roleRolloutBudget scaled role roleList' newUnavailable with
       | None => ([], [])
       | Some budget =>
         selectRoleRolloutCandidates coordinated (roleReplicas role) surge roleList' outdated budget limits
       end.
End candidates.

(** ** Selections *)

Lemma countRunning_cons r l : countRunning (r :: l) = (if isRunning r then 1 else 0) + countRunning l.
Proof. unfold countRunning. rewrite filter_cons. destruct (isRunning r); simpl; lia. Qed.

Lemma countRunning_app l k : countRunning (l ++ k) = countRunning l + countRunning k.
Proof. unfold countRunning. rewrite filter_app, length_app. lia. Qed.

Lemma takeBudget_spec b ready :
  let '(ok, b') := takeBudget b ready in
  if ok : bool then 0 < total b /\ (ready = true -> 0 < healthy b) /\ total b' = total b - 1 /\
    healthy b' = healthy b - (if ready then 1 else 0)
  else b' = b.
Proof.
  unfold takeBudget. destruct (Z.leb_spec (total b) 0); simpl; [done|]. destruct ready; simpl.
  - destruct (Z.leb_spec (healthy b) 0); simpl; [done|]. by split_and!.
  - split_and!; lia || done.
Qed.

Lemma select_spec ordered l : forall b,
  let sel := selectBudgetedRolesToDelete l b ordered in
  sel `sublist_of` l /\ Z.of_nat (length sel) <= Z.max 0 (total b) /\ countRunning sel <= Z.max 0 (healthy b) /\
  (ordered = true -> sel `prefix_of` l).
Proof.
  induction l as [|r l IH]; intros b; cbn [selectBudgetedRolesToDelete]; cbv zeta.
  { split_and!; [constructor|simpl; lia|unfold countRunning; simpl; lia|done]. }
  pose proof (takeBudget_spec b (isRunning r)) as Ht. destruct (takeBudget b (isRunning r)) as [ok b']. destruct ok.
  - destruct Ht as (H1 & H2 & H3 & H4), (IH b') as (I1 & I2 & I3 & I4). rewrite countRunning_cons, length_cons.
    split_and!; [by constructor|lia| |intros; by apply prefix_cons, I4].
    destruct (isRunning r); [specialize (H2 eq_refl)|]; lia.
  - subst b'. destruct (ordered || (total b =? 0)) eqn:E.
    + split_and!; [apply sublist_nil_l|simpl; lia|unfold countRunning; simpl; lia|intros; apply prefix_nil].
    + destruct (IH b) as (I1 & I2 & I3 & I4). split_and!; [by constructor|done|done|].
      intros ->. done.
Qed.

Lemma takeWhile_spec {A} (p : A -> bool) l :
  takeWhile p l `prefix_of` l /\ Forall (fun x => p x = true) (takeWhile p l).
Proof.
  induction l as [|x l [I1 I2]]; simpl; [by split|]. destruct (p x) eqn:E.
  - split; [by apply prefix_cons|by constructor].
  - split; [apply prefix_nil|constructor].
Qed.

Lemma selectTemporary_spec temporary retain outdated : forall remainingOld b,
  0 <= total b -> 0 <= healthy b ->
  let '(sel, stable, b') := selectTemporary temporary retain remainingOld b outdated in
  sel `sublist_of` outdated /\ Forall (fun r => RoleName r ∈ temporary) sel /\
  stable = filter (fun r => RoleName r ∉ temporary) outdated /\
  total b' = total b - Z.of_nat (length sel) /\ healthy b' = healthy b - countRunning sel /\
  0 <= total b' /\ 0 <= healthy b' /\
  (length sel + length stable <= length outdated)%nat /\
  (retain = true -> Z.of_nat (length sel) <= Z.max 0 (remainingOld - 1)).
Proof.
  induction outdated as [|r l IH]; intros remainingOld b Ht Hh; cbn [selectTemporary].
  { unfold countRunning. split_and!; try done; simpl; try lia. }
  rewrite filter_cons. case_bool_decide as Hin; simpl.
  - rewrite decide_False by tauto. destruct (retain && (remainingOld <=? 1)) eqn:Er.
    { specialize (IH remainingOld b Ht Hh). destruct (selectTemporary _ _ _ _ _) as [[sel st] b'].
      destruct IH as (I1 & I2 & I3 & I4 & I5 & I6 & I7 & I8 & I9). split_and!; try done; [by constructor|lia]. }
    pose proof (takeBudget_spec b (isRunning r)) as Hb. destruct (takeBudget b (isRunning r)) as [ok b1]. destruct ok.
    + destruct Hb as (B1 & B2 & B3 & B4).
      assert (Hh1 : 0 <= healthy b1) by (destruct (isRunning r); [specialize (B2 eq_refl)|]; lia).
      specialize (IH (remainingOld - 1) b1 ltac:(lia) Hh1). destruct (selectTemporary _ _ _ _ _) as [[sel st] b'].
      destruct IH as (I1 & I2 & I3 & I4 & I5 & I6 & I7 & I8 & I9). rewrite countRunning_cons, length_cons.
      split_and!; try done; [by constructor|by constructor|lia|lia|lia|].
      intros Hr. specialize (I9 Hr). rewrite Hr in Er. simpl in Er. apply Z.leb_gt in Er. lia.
    + subst b1. specialize (IH remainingOld b Ht Hh). destruct (selectTemporary _ _ _ _ _) as [[sel st] b'].
      destruct IH as (I1 & I2 & I3 & I4 & I5 & I6 & I7 & I8 & I9). split_and!; try done; [by constructor|lia].
  - rewrite decide_True by done. specialize (IH remainingOld b Ht Hh). destruct (selectTemporary _ _ _ _ _) as [[sel st] b'].
    destruct IH as (I1 & I2 & I3 & I4 & I5 & I6 & I7 & I8 & I9). split_and!; try done; [by constructor|by f_equal|].
    rewrite !length_cons. lia.
Qed.

(** What [constrainRoleDeletion] allows. *)
Lemma constrain_spec limits outdated max :
  let '(eligible, max') := constrainRoleDeletion limits outdated max in
  eligible `prefix_of` outdated /\ max' <= max /\
  match limits with
  | None => True
  | Some l =>
    max' <= remainingDeletions l /\
    Forall (fun r => effectivePartition l <= roleOrdinal r /\ containsStable l (roleOrdinal r) = true) eligible /\
    (retainOldReplica l = true -> outdated <> [] -> eligible = outdated ->
       max' < Z.of_nat (length outdated))
  end.
Proof.
  unfold constrainRoleDeletion. destruct limits as [l|]; [|done]. cbv zeta.
  set (p := fun r => negb _). destruct (takeWhile_spec p outdated) as [H1 H2]. split; [done|].
  split; [case_match; lia|]. split; [case_match; lia|]. split.
  - eapply Forall_impl; [exact H2|]. unfold p. intros r Hr. apply negb_true_iff, orb_false_iff in Hr as [Hr1 Hr2].
    apply Z.ltb_ge in Hr1. by apply negb_false_iff in Hr2.
  - intros Hret Hne Heq. rewrite Hret. rewrite Heq in H2.
    pose proof (length_filter (fun r => containsStable l (roleOrdinal r) = true) outdated) as Hl.
    destruct outdated as [|r out]; [done|]. rewrite length_cons in *. lia.
Qed.

Lemma prefix_trans_sublist {A} (l k : list A) : l `prefix_of` k -> l `sublist_of` k.
Proof. intros [m ->]. by apply sublist_inserts_r. Qed.

(** The selection for one role: both lists against the outdated instances. *)
Record selection_ok (compare : Role -> templateComparison) (limits : option roleRolloutLimits)
    (temporary : gset string) (instances outdated : list Role) (b : rolloutBudget) (sel stable : list Role) : Prop := {
  sel_temp : sel `sublist_of` outdated /\ Forall (fun r => RoleName r ∈ temporary) sel;
  sel_stable : stable `prefix_of` filter (fun r => RoleName r ∉ temporary) outdated;
  sel_total : Z.of_nat (length sel) + Z.of_nat (length stable) <= total b;
  sel_healthy : countRunning sel + countRunning stable <= healthy b;
  sel_unknown : Forall (fun r => unknownOrdinal compare temporary instances < roleOrdinal r) stable;
  sel_limits : match limits with
    | None => True
    | Some l => Z.of_nat (length stable) <= Z.max 0 (remainingDeletions l) /\
        Forall (fun r => effectivePartition l <= roleOrdinal r /\ containsStable l (roleOrdinal r) = true) stable /\
        (retainOldReplica l = true -> outdated <> [] -> (length sel + length stable < length outdated)%nat)
    end
}.

Lemma candidates_ok compare replicas surge instances outdated b limits : 0 <= total b -> 0 <= healthy b ->
  let '(sel, stable) := selectRoleRolloutCandidates compare true replicas surge instances outdated b limits in
  selection_ok compare limits (markedSurgeNames surge replicas) instances outdated b sel stable.
Proof.
  intros Ht Hh. unfold selectRoleRolloutCandidates. simpl negb. cbn iota. cbv zeta.
  set (temporary := markedSurgeNames surge replicas).
  pose proof (selectTemporary_spec temporary (from_option retainOldReplica false limits) outdated
    (Z.of_nat (length outdated)) b Ht Hh) as H1.
  destruct (selectTemporary _ _ _ _ _) as [[sel st] b1]. destruct H1 as (T1 & T2 & -> & T4 & T5 & T6 & T7 & T8 & T9).
  set (S0 := filter (fun r => RoleName r ∉ temporary) outdated) in *.
  set (unknown := unknownOrdinal compare temporary instances).
  destruct (takeWhile_spec (fun r => negb (roleOrdinal r <=? unknown)) S0) as [W1 W2].
  set (S1 := takeWhile _ S0) in *.
  pose proof (constrain_spec limits S1 (total b1)) as H2.
  destruct (constrainRoleDeletion limits S1 (total b1)) as [elig max]. destruct H2 as (C1 & C2 & C3).
  destruct (select_spec true elig (MkBudget max (healthy b1))) as (P1 & P2 & P3 & P4). cbn [total healthy] in P2, P3.
  set (stable := selectBudgetedRolesToDelete elig (MkBudget max (healthy b1)) true) in *. clearbody stable.
  specialize (P4 eq_refl). assert (Hpre : stable `prefix_of` S1) by (by etrans).
  split.
  - done.
  - by etrans.
  - lia.
  - lia.
  - destruct Hpre as [k Hk]. rewrite Hk in W2. apply Forall_app in W2 as [W2 _].
    eapply Forall_impl; [exact W2|]. intros r Hr. apply negb_true_iff, Z.leb_gt in Hr. done.
  - destruct limits as [l|]; [|done]. destruct C3 as (D1 & D2 & D3). split; [lia|]. split.
    { destruct P4 as [k Hk]. rewrite Hk in D2. by apply Forall_app in D2 as [D2 _]. }
    intros Hret Hne. simpl in T9. specialize (T9 Hret).
    destruct (decide (S0 = [])) as [E|HS0].
    + assert (length stable = 0)%nat.
      { destruct Hpre as [k Hk]. rewrite E in W1. apply prefix_nil_inv in W1. rewrite W1 in Hk.
        symmetry in Hk. apply app_eq_nil in Hk as [-> _]. done. }
      destruct outdated as [|r out]; [done|]. rewrite length_cons in *. lia.
    + enough (length stable < length S0)%nat by lia.
      destruct (decide (elig = S1)) as [E|Hne1].
      * destruct (decide (S1 = [])) as [E1|HS1].
        { rewrite E1 in Hpre. apply prefix_nil_inv in Hpre. rewrite Hpre. simpl.
          assert (length S0 <> 0%nat) by (intros Hz; by apply HS0, nil_length_inv). lia. }
        specialize (D3 Hret HS1 E). apply prefix_length in W1.
        assert (length S1 <> 0%nat) by (intros Hz; by apply HS1, nil_length_inv). lia.
      * assert (length elig < length S1)%nat.
        { pose proof (prefix_length _ _ C1). destruct (decide (length elig = length S1)) as [El|]; [|lia].
          destruct C1 as [k Hk]. rewrite Hk, length_app in El. destruct k; [rewrite app_nil_r in Hk; congruence|simpl in El; lia]. }
        apply prefix_length in P4, W1. lia.
Qed.

Lemma outdatedLe_sorted l : StronglySorted (fun a b => roleOrdinal b <= roleOrdinal a) (merge_sort (outdatedLe true) l).
Proof.
  assert (Htr : Transitive (outdatedLe true)) by (intros a b c; unfold outdatedLe; simpl; lia).
  assert (Htot : Total (outdatedLe true)) by (intros a b; unfold outdatedLe; simpl; lia).
  eapply StronglySorted_strengthen; [by apply StronglySorted_merge_sort|]. by intros a b _ _.
Qed.

Lemma sorted_filter_role (P : Role -> Prop) `{!forall r, Decision (P r)} (R : Role -> Role -> Prop) (l : list Role) :
  StronglySorted R l -> StronglySorted R (filter P l).
Proof.
  induction 1 as [|x l Hs IH Hx]; [constructor|]. rewrite filter_cons. case_decide; [|done].
  constructor; [done|]. rewrite Forall_forall in Hx |- *. intros y [_ Hy]%list_elem_of_filter. by apply Hx.
Qed.

Lemma unknown_max compare temporary instances r : r ∈ instances -> RoleName r ∉ temporary ->
  Status r <> RoleDeleting -> compare r = templateUnknown -> roleOrdinal r <= unknownOrdinal compare temporary instances.
Proof.
  intros Hin H1 H2 H3. unfold unknownOrdinal.
  assert (Hr : r ∈ filter (fun r => (RoleName r ∉ temporary) /\ Status r <> RoleDeleting /\ compare r = templateUnknown) instances)
    by (apply list_elem_of_filter; done).
  induction (filter _ instances) as [|x l IH]; [by apply elem_of_nil in Hr|].
  rewrite fmap_cons. cbn [foldr]. apply elem_of_cons in Hr as [->|Hr]; [lia|]. specialize (IH Hr). lia.
Qed.

(** The effective budget of a role: what may be unavailable. *)
Definition maxUnavailableOf scaled (role : RoleSpec) : option Z :=
  '(u, configured) ← GetMaxUnavailableForRole scaled role;
  Some (if configured : bool then u else roleReplicas role).

Section replacement.
Context (scaled : IntOrString -> Z -> bool -> option Z) (compare : Role -> templateComparison)
  (deletionPending inPlaceStarted : Role -> bool).
Context (coordinated : bool) (role : RoleSpec) (partition : Z) (surge : list string) (roleList : list Role)
  (limits : option roleRolloutLimits).

(** The outdated instances the user partition does not protect. *)
Definition candidates : list Role :=
  filter (fun r => RoleName r ∉ protectedRoles coordinated partition roleList)
    (outdatedRoles compare deletionPending inPlaceStarted coordinated roleList).1.2.

Lemma candidates_elem r : r ∈ candidates <->
  r ∈ roleList /\ isOutdated compare deletionPending inPlaceStarted r = true /\
  RoleName r ∉ protectedRoles coordinated partition roleList.
Proof.
  unfold candidates. rewrite list_elem_of_filter. simpl. rewrite merge_sort_Permutation, list_elem_of_filter. tauto.
Qed.

Lemma candidates_NoDup : NoDup roleList -> NoDup candidates.
Proof.
  intros H. unfold candidates. apply NoDup_filter. simpl. rewrite merge_sort_Permutation. by apply NoDup_filter.
Qed.

(** A selection within the budget of the role. *)
Lemma rolesToDelete_ok u sel stable : maxUnavailableOf scaled role = Some u ->
  rolesToDelete compare deletionPending inPlaceStarted scaled coordinated role partition surge roleList limits
    = (sel, stable) ->
  let instances := markDeleting deletionPending <$> roleList in
  let unavailable := Z.of_nat (length (filter (fun r => isNewUnavailable compare deletionPending inPlaceStarted r = true) roleList)) in
  let b := newRolloutBudget (roleReplicas role) u (Z.of_nat (length instances)) (countRunning instances) unavailable in
  if coordinated then
    selection_ok compare limits (markedSurgeNames surge (roleReplicas role)) instances candidates b sel stable
  else sel = [] /\ stable `sublist_of` candidates /\ Z.of_nat (length stable) <= total b /\ countRunning stable <= healthy b.
Proof.
  intros Hu Hsel instances unavailable b.
  assert (Hb : 0 <= total b /\ 0 <= healthy b) by (simpl; lia). destruct Hb as [Hb1 Hb2].
  unfold rolesToDelete in Hsel. unfold outdatedRoles in Hsel. fold instances unavailable in Hsel.
  change (filter (fun r => RoleName r ∉ protectedRoles coordinated partition roleList)
    (merge_sort (outdatedLe coordinated) (filter (fun r => isOutdated compare deletionPending inPlaceStarted r = true) roleList)))
    with candidates in Hsel.
  unfold maxUnavailableOf in Hu. unfold roleRolloutBudget in Hsel.
  destruct (GetMaxUnavailableForRole scaled role) as [[u' configured]|]; simpl in Hu; [|done]. injection Hu as <-.
  simpl in Hsel. fold b in Hsel. case_bool_decide as Hnil.
  - injection Hsel as <- <-. unfold countRunning. destruct coordinated.
    + split; rewrite ?Hnil; simpl; try done; unfold countRunning; simpl; try lia.
      destruct limits; [|done]. split_and!; simpl; [lia|constructor|done].
    + split_and!; simpl; done || apply sublist_nil_l || lia.
  - destruct coordinated.
    + pose proof (candidates_ok compare (roleReplicas role) surge instances candidates b limits Hb1 Hb2) as H.
      by rewrite Hsel in H.
    + injection Hsel as <- <-. destruct (select_spec false candidates b) as (S1 & S2 & S3 & _).
      split_and!; try done; lia.
Qed.
End replacement.

Lemma sublist_NoDup_app {A} (P : A -> Prop) `{!forall x, Decision (P x)} (sel st l : list A) :
  NoDup l -> sel `sublist_of` l -> Forall P sel -> st `sublist_of` filter (fun x => ~ P x) l ->
  NoDup (sel ++ st) /\ (forall x, x ∈ sel ++ st -> x ∈ l).
Proof.
  intros Hl H1 H2 H3. rewrite Forall_forall in H2.
  assert (Hst : forall x, x ∈ st -> ~ P x /\ x ∈ l).
  { intros x Hx. apply (proj1 (list_elem_of_filter (fun x => ~ P x) l x)). by eapply elem_of_sublist. }
  split.
  - apply NoDup_app. split; [by eapply sublist_NoDup|]. split.
    + intros x Hx Hx'. destruct (Hst x Hx') as [Hn _]. by apply Hn, H2.
    + eapply sublist_NoDup; [|exact H3]. by apply NoDup_filter.
  - intros x [Hx|Hx]%elem_of_app; [by eapply elem_of_sublist|]. by apply Hst.
Qed.

(** C18: what a rolling update deletes of a role. Every instance deleted is an
    outdated one that is not deleted already and that the user partition does
    not protect, each once. With [u] unavailable allowed of [n] replicas, the
    running instances never fall below n - u because of it (or stay what they
    are), and at most active - (n - u) - unavailable instances go at once. In a
    coordinated rollout, the stable instances deleted are a descending prefix
    of the outdated ones: no instance of a higher ordinal is skipped, and all
    are above every instance whose history is unknown; for a role with limits,
    they are no more than the remaining allowance, are at or above the
    effective partition, and leave an outdated instance when the last one is
    to be retained. *)
Theorem replacement_safe scaled compare deletionPending inPlaceStarted coordinated role partition surge roleList limits
    u sel stable :
  maxUnavailableOf scaled role = Some u -> NoDup roleList ->
  rolesToDelete compare deletionPending inPlaceStarted scaled coordinated role partition surge roleList limits
    = (sel, stable) ->
  let old := candidates compare deletionPending inPlaceStarted coordinated partition roleList in
  let instances := markDeleting deletionPending <$> roleList in
  let unavailable := Z.of_nat (length (filter (fun r => isNewUnavailable compare deletionPending inPlaceStarted r = true) roleList)) in
  let minimum := Z.max 0 (roleReplicas role - u) in
  let temporary := markedSurgeNames surge (roleReplicas role) in
  NoDup (sel ++ stable) /\ (forall r, r ∈ sel ++ stable -> r ∈ old) /\
  Z.of_nat (length (sel ++ stable)) <= Z.max 0 (Z.of_nat (length roleList) - minimum - unavailable) /\
  Z.min (countRunning instances) minimum <= countRunning instances - countRunning (sel ++ stable) /\
  (coordinated = true ->
    (forall r r', r ∈ stable -> r' ∈ old -> RoleName r' ∉ temporary -> roleOrdinal r < roleOrdinal r' -> r' ∈ stable) /\
    (forall r r', r ∈ stable -> r' ∈ instances -> RoleName r' ∉ temporary -> Status r' <> RoleDeleting ->
       compare r' = templateUnknown -> roleOrdinal r' < roleOrdinal r) /\
    match limits with
    | None => True
    | Some l =>
      Z.of_nat (length stable) <= Z.max 0 (remainingDeletions l) /\
      (forall r, r ∈ stable -> effectivePartition l <= roleOrdinal r /\ containsStable l (roleOrdinal r) = true) /\
      (retainOldReplica l = true -> old <> [] -> exists r, r ∈ old /\ r ∉ sel ++ stable)
    end).
Proof.
  intros Hu Hnd Hsel old instances unavailable minimum temporary.
  pose proof (rolesToDelete_ok scaled compare deletionPending inPlaceStarted coordinated role partition surge
    roleList limits u sel stable Hu Hsel) as H. cbv zeta in H. fold instances unavailable old in H.
  assert (Hlen : length instances = length roleList) by (unfold instances; by rewrite length_fmap).
  rewrite length_app, countRunning_app. set (b := newRolloutBudget _ _ _ _ _) in H.
  assert (Eb : total b = Z.max 0 (Z.of_nat (length roleList) - minimum - unavailable) /\
    healthy b = Z.max 0 (countRunning instances - minimum)) by (unfold b, newRolloutBudget; rewrite Hlen; done).
  destruct Eb as [Eb1 Eb2]. clearbody b.
  assert (Hold : NoDup old) by by apply candidates_NoDup.
  destruct coordinated.
  2: { destruct H as (-> & H1 & H2 & H3). simpl. split; [by eapply sublist_NoDup|].
       split; [intros r Hr; by eapply elem_of_sublist|]. split; [lia|]. split; [|done]. unfold countRunning at 3. simpl. lia. }
  destruct H as [[H1 H2] H3 H4 H5 H6 H7]. fold temporary in H1, H2, H3, H6.
  assert (Hstable : stable `sublist_of` filter (fun r => ~ RoleName r ∈ temporary) old) by by apply prefix_trans_sublist.
  destruct (sublist_NoDup_app (fun r => RoleName r ∈ temporary) sel stable old Hold H1 H2 Hstable) as [D1 D2].
  split; [done|]. split; [done|]. split; [lia|]. split; [lia|]. intros _. split; [|split].
  - intros r r' Hr Hr' Ht Hlt. destruct H3 as [rest Hrest].
    assert (Hin : r' ∈ stable ++ rest) by (rewrite <- Hrest; apply list_elem_of_filter; done).
    apply elem_of_app in Hin as [|Hin]; [done|]. exfalso.
    assert (Hs : StronglySorted (fun a b => roleOrdinal b <= roleOrdinal a) (stable ++ rest)).
    { rewrite <- Hrest. apply sorted_filter_role. unfold old, candidates. apply sorted_filter_role. simpl.
      apply outdatedLe_sorted. }
    apply StronglySorted_app_inv in Hs as (_ & _ & Hs). specialize (Hs r r' Hr Hin). lia.
  - intros r r' Hr Hr' Ht Hd Hc. rewrite Forall_forall in H6. specialize (H6 r Hr).
    pose proof (unknown_max compare temporary instances r' Hr' Ht Hd Hc). lia.
  - destruct limits as [l|]; [|done]. destruct H7 as (L1 & L2 & L3). split; [done|].
    split; [intros r Hr; rewrite Forall_forall in L2; by apply L2|].
    intros Hret Hne. specialize (L3 Hret Hne).
    destruct (decide (Forall (fun r => r ∈ sel ++ stable) old)) as [Hall|Hall].
    + exfalso. rewrite Forall_forall in Hall. pose proof (NoDup_submseteq old (sel ++ stable) Hold Hall) as Hsub.
      apply submseteq_length in Hsub. rewrite length_app in Hsub. lia.
    + apply not_Forall_Exists in Hall; [|intros ?; apply _]. apply Exists_exists in Hall as (r & Hr & Hn). by exists r.
Qed.

(** Four outdated replicas, two may be unavailable, the coordination allows two
    replacements from ordinal 1 on and keeps the last old one. *)
Definition example_scaled (v : IntOrString) (n : Z) (up : bool) : option Z :=
  match v with IntVal k => Some k | StrVal _ => None end.
Definition example_instance (i : Z) : Role := MkRole (GenerateRoleID "decode" i) "old" "h" RoleRunning.
Definition example_spec : RoleSpec := MkRoleSpec (Some 4) (Some (IntVal 2)).
Definition example_limits : roleRolloutLimits :=
  MkLimits (Some (MkPopulation 4 ∅ [])) 4 1 2 true true.

Lemma replacement_safe_witness :
  let roleList := example_instance <$> seqZ 0 4 in
  let old := candidates (fun _ => templateDifferent) (fun _ => false) (fun _ => false) true 0 roleList in
  rolesToDelete (fun _ => templateDifferent) (fun _ => false) (fun _ => false) example_scaled true example_spec 0 []
    roleList (Some example_limits) = ([], [example_instance 3; example_instance 2]) /\
  exists r, r ∈ old /\ r ∉ [] ++ [example_instance 3; example_instance 2].
Proof.
  intros roleList old.
  assert (E : rolesToDelete (fun _ => templateDifferent) (fun _ => false) (fun _ => false) example_scaled true
    example_spec 0 [] roleList (Some example_limits) = ([], [example_instance 3; example_instance 2]))
    by (vm_compute; reflexivity).
  split; [exact E|].
  assert (Hnd : NoDup roleList).
  { apply (bool_decide_unpack (NoDup roleList)). vm_compute. exact I. }
  destruct (replacement_safe example_scaled (fun _ => templateDifferent) (fun _ => false) (fun _ => false) true
    example_spec 0 [] roleList (Some example_limits) 2 [] [example_instance 3; example_instance 2])
    as (_ & _ & _ & _ & H); [vm_compute; reflexivity|exact Hnd|exact E|].
  destruct (H eq_refl) as (_ & _ & _ & _ & H3). apply H3; [reflexivity|]. vm_compute. discriminate.
Defined.
