(* ===== verification/CoordinationPartition.v ===== *)
(** * pkg/model-serving-controller/utils/coordination_partition.go

    Whether the partitions of the coordinated roles come from one common
    proportion, each role rounding it up against its own replica count.
    [big.Rat] numbers are rationals; the scaling of a partition is that of the
    intstr package, an argument with its documented behaviour as hypotheses. *)
From Stdlib Require Import QArith Qround Lqa.
From S2P Require Import Prelude Names RoleRollout.
Local Open Scope Z_scope.

Record PartitionRole := MkPartitionRole {
  prName : string;
  prReplicas : option Z;
  prPartition : option IntOrString
}.

(** The fractions still possible: from [lower], excluded if [lowerOpen], to
    [upper]. *)
Record interval := MkInterval { lower : Q; upper : Q; lowerOpen : bool }.

Section conflict.
Context (GetScaledValueFromIntOrPercent : IntOrString -> Z -> bool -> option Z).

Definition prCount (role : PartitionRole) : Z := default 1 (prReplicas role).

Definition partitionOf (role : PartitionRole) : option Z :=
  match prPartition role with
  | None => Some 0
  | Some v => GetScaledValueFromIntOrPercent v (prCount role) true
  end.

(** The fractions of one role with replicas, [None] for an invalid percentage:
    the bounds, and whether the lower one is excluded. *)
Definition roleInterval (role : PartitionRole) (n p : Z) : option (Q * Q * bool) :=
  match prPartition role with
  | Some (StrVal s) =>
    percent ← parsePercent s;
    if (percent <? 0) || (100 <? percent) then None
    else Some (percent # 100, percent # 100, false)
  | _ =>
    if 0 <? p then Some ((p - 1) # Z.to_pos n, p # Z.to_pos n, true)
    else Some (0%Q, 0%Q, false)
  end.

Definition qlt (a b : Q) : bool := match (a ?= b)%Q with Lt => true | _ => false end.

(** One role of the loop; [None] is a conflict. *)
Definition narrow (iv : interval) (role : PartitionRole) : option interval :=
  let n := prCount role in
  p ← partitionOf role;
  if (n <? 0) || (p <? 0) || (n <? p) then None
  else if n =? 0 then Some iv
  else
    '(lo, hi, open) ← roleInterval role n p;
    let iv := match (lo ?= lower iv)%Q with
              | Gt => MkInterval lo (upper iv) open
              | Eq => MkInterval (lower iv) (upper iv) (lowerOpen iv || open)
              | Lt => iv
              end in
    let iv := if qlt hi (upper iv) then MkInterval (lower iv) hi (lowerOpen iv) else iv in
    match (lower iv ?= upper iv)%Q with
    | Gt => None
    | Eq => if lowerOpen iv then None else Some iv
    | Lt => Some iv
    end.

Fixpoint conflictLoop (selected : list string) (roles : list PartitionRole) (i : nat) (iv : interval) : option nat :=
  match roles with
  | [] => None
  | role :: roles =>
    if negb (bool_decide (selected = [])) && negb (bool_decide (prName role ∈ selected))
    then conflictLoop selected roles (S i) iv
    else match narrow iv role with
         | None => Some i
         | Some iv => conflictLoop selected roles (S i) iv
         end
  end.

(** [CoordinatedPartitionConflict]: the index of the conflicting role.
    [coordination]: the selected names, if the rollout is a coordinated one. *)
Definition CoordinatedPartitionConflict (coordination : option (list string)) (roles : list PartitionRole) : option nat :=
  match coordination with
  | None => None
  | Some selected => conflictLoop selected roles 0 (MkInterval 0 1 false)
  end.

(** ** The common proportion *)

(** The proportion [q] gives the partition of the role. *)
Definition follows (q : Q) (role : PartitionRole) : Prop :=
  exists p, partitionOf role = Some p /\ 0 <= p <= prCount role /\
    (prCount role <> 0 ->
       p = Qceiling (q * inject_Z (prCount role)) /\
       forall s, prPartition role = Some (StrVal s) ->
         exists percent, parsePercent s = Some percent /\ 0 <= percent <= 100 /\ (q == percent # 100)%Q).

Definition participates (selected : list string) (role : PartitionRole) : Prop :=
  selected = [] \/ prName role ∈ selected.

(** One proportion for all roles that take part. *)
Definition compatible (selected : list string) (roles : list PartitionRole) : Prop :=
  exists q, (0 <= q <= 1)%Q /\ forall role, role ∈ roles -> participates selected role -> follows q role.

Definition inside (iv : interval) (q : Q) : Prop :=
  (lower iv <= q <= upper iv)%Q /\ (lowerOpen iv = true -> (lower iv < q)%Q).

Lemma ceiling_iff q n p : 0 < n -> p = Qceiling (q * inject_Z n) <->
  ((p - 1) # Z.to_pos n < q /\ q <= p # Z.to_pos n)%Q.
Proof.
  intros Hn. assert (En : inject_Z (Zpos (Z.to_pos n)) = inject_Z n) by by rewrite Z2Pos.id.
  assert (Hfrac : forall z, (z # Z.to_pos n == inject_Z z / inject_Z n)%Q).
  { intros z. rewrite <- En. rewrite (Qmake_Qdiv z). reflexivity. }
  assert (Hpos : (0 < inject_Z n)%Q) by (rewrite <- (Zlt_Qlt 0); lia).
  rewrite !Hfrac. split.
  - intros ->. pose proof (Qle_ceiling (q * inject_Z n)) as H1. pose proof (Qceiling_lt (q * inject_Z n)) as H2.
    split; [apply Qlt_shift_div_r|apply Qle_shift_div_l]; done.
  - intros [H1 H2].
    assert (E : forall z, (inject_Z z == inject_Z z / inject_Z n * inject_Z n)%Q)
      by (intros z; field; intros Hz; rewrite Hz in Hpos; by apply Qlt_irrefl in Hpos).
    assert (L1 : (inject_Z (p - 1) < q * inject_Z n)%Q) by (rewrite (E (p - 1)); by apply Qmult_lt_compat_r).
    assert (L2 : (q * inject_Z n <= inject_Z p)%Q) by (rewrite (E p); apply Qmult_le_compat_r; [done|by apply Qlt_le_weak]).
    set (x := (q * inject_Z n)%Q) in *. apply Qceiling_resp_le in L2. rewrite Qceiling_Z in L2.
    assert (p - 1 < Qceiling x); [|lia]. rewrite Zlt_Qlt. eapply Qlt_le_trans; [exact L1|apply Qle_ceiling].
Qed.

Hypothesis scaled_percent : forall s percent n, parsePercent s = Some percent ->
  GetScaledValueFromIntOrPercent (StrVal s) n true = Some (Qceiling ((percent # 100) * inject_Z n)).

(** The interval of a role holds the proportions it follows. *)
Lemma roleInterval_spec role p q : 0 < prCount role -> partitionOf role = Some p -> 0 <= p <= prCount role -> (0 <= q)%Q ->
  match roleInterval role (prCount role) p with
  | Some (lo, hi, open) =>
    (0 <= lo)%Q /\ (lo <= hi)%Q /\ (hi <= 1)%Q /\
    (follows q role <-> (lo <= q <= hi)%Q /\ (open = true -> (lo < q)%Q))
  | None => ~ follows q role
  end.
Proof.
  intros Hn Hp Hrange Hq. set (n := prCount role) in *.
  assert (Hfrac : forall z, 0 <= z <= n -> (0 <= z # Z.to_pos n <= 1)%Q).
  { intros z Hz. unfold Qle. simpl. rewrite Z2Pos.id by done. lia. }
  assert (Hint : (forall s, prPartition role <> Some (StrVal s)) -> roleInterval role n p =
      if 0 <? p then Some ((p - 1) # Z.to_pos n, p # Z.to_pos n, true) else Some (0%Q, 0%Q, false)).
  { intros Hs. unfold roleInterval. destruct (prPartition role) as [[k|s]|]; [done|by destruct (Hs s)|done]. }
  assert (Hdec : (exists s, prPartition role = Some (StrVal s)) \/ ~ exists s, prPartition role = Some (StrVal s)).
  { destruct (prPartition role) as [[k|s]|]; [right; intros [? [=]]|left; by exists s|right; intros [? [=]]]. }
  destruct Hdec as [[s Es]|Hns].
  - unfold roleInterval. rewrite Es. unfold partitionOf in Hp. rewrite Es in Hp.
    destruct (parsePercent s) as [percent|] eqn:Epp; simpl.
    + destruct ((percent <? 0) || (100 <? percent)) eqn:Eb.
      * intros (p' & _ & _ & Hf). destruct (Hf ltac:(fold n; lia)) as [_ Hf2].
        destruct (Hf2 s Es) as (percent' & E & Hr & _). rewrite Epp in E. injection E as <-.
        apply orb_true_iff in Eb as [Eb%Z.ltb_lt|Eb%Z.ltb_lt]; lia.
      * apply orb_false_iff in Eb as [E1%Z.ltb_ge E2%Z.ltb_ge].
        rewrite (scaled_percent s percent _ Epp) in Hp. fold n in Hp. injection Hp as <-.
        split; [unfold Qle; simpl; lia|]. split; [apply Qle_refl|]. split; [unfold Qle; simpl; lia|]. split.
        -- intros (p' & _ & _ & Hf). destruct (Hf ltac:(fold n; lia)) as [_ Hf2].
           destruct (Hf2 s Es) as (percent' & E & Hr & Hqe). rewrite Epp in E. injection E as <-.
           split; [|done]. rewrite Hqe. split; apply Qle_refl.
        -- intros [[Hl Hh] _]. assert (Hqe : (q == percent # 100)%Q) by (by apply Qle_antisym).
           eexists. split; [unfold partitionOf; rewrite Es; by apply scaled_percent|]. fold n. split; [done|].
           intros _. split; [by rewrite Hqe|]. intros s' E. rewrite Es in E. injection E as <-. by exists percent.
    + intros (p' & _ & _ & Hf). destruct (Hf ltac:(fold n; lia)) as [_ Hf2].
      destruct (Hf2 s Es) as (percent & E & _). by rewrite Epp in E.
  - rewrite Hint by (intros s Hs; apply Hns; by exists s).
    assert (Hfol : follows q role <-> p = Qceiling (q * inject_Z n)).
    { split.
      - intros (p' & Ep & _ & Hf). rewrite Hp in Ep. injection Ep as <-. destruct (Hf ltac:(fold n; lia)) as [Hf1 _]. done.
      - intros E. exists p. fold n. split; [done|]. split; [done|]. intros _. split; [done|].
        intros s Hs. destruct Hns. by exists s. }
    destruct (Z.ltb_spec 0 p).
    + destruct (Hfrac (p - 1)) as [F1 _]; [lia|]. destruct (Hfrac p) as [_ F2]; [lia|].
      split; [done|]. split; [unfold Qle; simpl; nia|]. split; [done|].
      rewrite Hfol, (ceiling_iff q n p Hn). split.
      * intros [H1 H2]. split; [split; [by apply Qlt_le_weak|done]|done].
      * intros [[H1 H2] H3]. split; [by apply H3|done].
    + assert (p = 0) as -> by lia. split; [apply Qle_refl|]. split; [apply Qle_refl|]. split; [done|].
      rewrite Hfol, (ceiling_iff q n 0 Hn). split.
      * intros [_ H2]. split; [|done]. split; [done|]. unfold Qle in *. simpl in *. lia.
      * intros [[_ H2] _]. split; [|unfold Qle in *; simpl in *; lia].
        eapply Qlt_le_trans; [|exact Hq]. unfold Qlt. simpl. lia.
Qed.

(** An interval of proportions that is not empty. *)
Definition valid (iv : interval) : Prop :=
  (0 <= lower iv)%Q /\ (upper iv <= 1)%Q /\ inside iv (upper iv).

Lemma follows_zero q role p : prCount role = 0 -> partitionOf role = Some p -> 0 <= p <= 0 -> follows q role.
Proof. intros Hn Hp Hr. exists p. rewrite Hn. split; [done|]. split; [lia|]. intros []. done. Qed.

Lemma qlt_spec a b : if qlt a b then (a < b)%Q else (b <= a)%Q.
Proof. unfold qlt. destruct (Qcompare_spec a b); lra. Qed.

(** Cutting an interval by that of a role. *)
Lemma cut_spec iv lo hi (open : bool) q : (lo <= hi)%Q ->
  let iv1 := match (lo ?= lower iv)%Q with
             | Gt => MkInterval lo (upper iv) open
             | Eq => MkInterval (lower iv) (upper iv) (lowerOpen iv || open)
             | Lt => iv
             end in
  let iv2 := if qlt hi (upper iv1) then MkInterval (lower iv1) hi (lowerOpen iv1) else iv1 in
  (inside iv2 q <-> inside iv q /\ (lo <= q <= hi)%Q /\ (open = true -> (lo < q)%Q)) /\
  (lower iv <= lower iv2)%Q /\ (upper iv2 <= upper iv)%Q.
Proof.
  intros Hlh iv1 iv2. subst iv2. destruct iv as [l u o]. simpl in iv1.
  assert (H1 : (inside iv1 q <-> inside (MkInterval l u o) q /\ (lo <= q)%Q /\ (open = true -> (lo < q)%Q)) /\
    (l <= lower iv1)%Q /\ upper iv1 = u).
  { subst iv1. destruct (Qcompare_spec lo l); unfold inside; simpl.
    - split; [|split; [lra|done]]. destruct o, open; simpl; intuition (try lra).
    - split; [|split; [lra|done]]. destruct o, open; simpl; intuition (try lra).
    - split; [|split; [lra|done]]. destruct o, open; simpl; intuition (try lra). }
  clearbody iv1. destruct H1 as (H1 & H2 & H3). pose proof (qlt_spec hi (upper iv1)) as Hlt. destruct (qlt hi (upper iv1)); rewrite H3 in Hlt.
  - split; [|simpl; split; [done|lra]]. unfold inside in *. simpl in *. rewrite H3 in H1. destruct H1 as [Ha Hb]. split.
    + intros [[A B] C]. destruct Ha as (((A1 & A2) & A3) & A4 & A5); [split; [split; lra|done]|].
      split; [split; [split; lra|done]|]. split; [split; lra|done].
    + intros (((A1 & A2) & A3) & (A4 & A5) & A6). destruct Hb as [[B1 B2] B3]; [split; [split; [split; lra|done]|split; [lra|done]]|].
      split; [split; lra|done].
  - split; [|split; [done|simpl; rewrite H3; lra]]. rewrite H1. unfold inside. simpl. intuition (try lra).
Qed.

Lemma nonempty_check iv :
  match (lower iv ?= upper iv)%Q with
  | Gt => forall q, ~ inside iv q
  | Eq => if lowerOpen iv then forall q, ~ inside iv q else inside iv (upper iv)
  | Lt => inside iv (upper iv)
  end.
Proof.
  unfold inside. destruct (Qcompare_spec (lower iv) (upper iv)).
  - destruct (lowerOpen iv); [intros q [? Ho]; specialize (Ho eq_refl); lra|]. split; [lra|done].
  - split; [lra|]. intros _. lra.
  - intros q [? _]. lra.
Qed.

Lemma narrow_spec iv role : valid iv ->
  match narrow iv role with
  | Some iv' => valid iv' /\ forall q, inside iv' q <-> inside iv q /\ follows q role
  | None => forall q, inside iv q -> ~ follows q role
  end.
Proof.
  intros (V1 & V2 & V3). assert (Hq : forall q, inside iv q -> (0 <= q)%Q) by (intros q [? _]; lra).
  unfold narrow. destruct (partitionOf role) as [p|] eqn:Ep; simpl.
  2: { intros q _ (p & E & _). by rewrite Ep in E. }
  destruct ((prCount role <? 0) || (p <? 0) || (prCount role <? p)) eqn:Eb.
  { intros q _ (p' & E & Hr & _). rewrite Ep in E. injection E as <-.
    rewrite !orb_true_iff, !Z.ltb_lt in Eb. lia. }
  rewrite !orb_false_iff, !Z.ltb_ge in Eb. destruct (Z.eqb_spec (prCount role) 0) as [En|En].
  { split; [done|]. intros q. split; [|tauto]. intros Hi. split; [done|]. apply (follows_zero q role p); [done|done|lia]. }
  pose proof (fun q => roleInterval_spec role p q ltac:(lia) Ep ltac:(lia)) as Hri.
  destruct (roleInterval role (prCount role) p) as [[[lo hi] open]|]; simpl.
  2: { intros q Hi. by apply Hri, Hq. }
  assert (Hlh : (lo <= hi)%Q) by (destruct (Hri 0%Q) as (_ & ? & _); [apply Qle_refl|done]).
  pose proof (fun q => cut_spec iv lo hi open q Hlh) as Hc. cbv zeta in Hc.
  set (iv2 := if qlt hi _ then _ else _) in *. clearbody iv2.
  assert (Hin : forall q, inside iv2 q <-> inside iv q /\ follows q role).
  { intros q. destruct (Hc q) as (Hc1 & _). rewrite Hc1. split.
    - intros (H1 & H2 & H3). split; [done|]. destruct (Hri q (Hq q H1)) as (_ & _ & _ & Hf). by apply Hf.
    - intros [H1 H2]. destruct (Hri q (Hq q H1)) as (_ & _ & _ & Hf). apply Hf in H2 as [H2 H3]. done. }
  destruct (Hc 0%Q) as (_ & L & U). pose proof (nonempty_check iv2) as Hn.
  assert (Hv : inside iv2 (upper iv2) -> valid iv2).
  { intros Hi. unfold valid. split; [lra|]. split; [lra|done]. }
  destruct (lower iv2 ?= upper iv2)%Q; [destruct (lowerOpen iv2)| |].
  - intros q H1 H2. by apply (Hn q), Hin.
  - split; [by apply Hv|done].
  - split; [by apply Hv|done].
  - intros q H1 H2. by apply (Hn q), Hin.
Qed.

Lemma conflictLoop_spec selected roles : forall i iv, valid iv ->
  match conflictLoop selected roles i iv with
  | None => exists q, inside iv q /\ forall role, role ∈ roles -> participates selected role -> follows q role
  | Some j => exists k, j = (i + k)%nat /\ (k < length roles)%nat /\
      (exists q, inside iv q /\ forall role, role ∈ take k roles -> participates selected role -> follows q role) /\
      ~ (exists q, inside iv q /\ forall role, role ∈ take (S k) roles -> participates selected role -> follows q role)
  end.
Proof.
  induction roles as [|role roles IH]; intros i iv Hv; simpl.
  { exists (upper iv). split; [apply Hv|]. by intros role ?%elem_of_nil. }
  assert (Hpart : negb (bool_decide (selected = [])) && negb (bool_decide (prName role ∈ selected)) = false <->
    participates selected role).
  { unfold participates. rewrite andb_false_iff, !negb_false_iff, !bool_decide_eq_true. done. }
  destruct (negb _ && negb _).
  - assert (Hnp : ~ participates selected role) by (rewrite <- Hpart; done).
    specialize (IH (S i) iv Hv). destruct (conflictLoop selected roles (S i) iv) as [j|].
    + destruct IH as (k & -> & Hk & (q & H1 & H2) & H3). exists (S k). split; [lia|]. split; [lia|]. split.
      * exists q. split; [done|]. simpl. intros r [->|Hr]%elem_of_cons Hp; [done|by apply H2].
      * intros (q' & H4 & H5). apply H3. exists q'. split; [done|]. intros r Hr. apply H5. simpl. by right.
    + destruct IH as (q & H1 & H2). exists q. split; [done|].
      intros r [->|Hr]%elem_of_cons Hp; [done|by apply H2].
  - assert (Hp : participates selected role) by by apply Hpart.
    pose proof (narrow_spec iv role Hv) as Hn. destruct (narrow iv role) as [iv'|].
    + destruct Hn as [Hv' Hin]. specialize (IH (S i) iv' Hv'). destruct (conflictLoop selected roles (S i) iv') as [j|].
      * destruct IH as (k & -> & Hk & (q & H1 & H2) & H3). apply Hin in H1 as [H1 H1'].
        exists (S k). split; [lia|]. split; [lia|]. split.
        -- exists q. split; [done|]. simpl. intros r [->|Hr]%elem_of_cons Hpr; [done|by apply H2].
        -- intros (q' & H4 & H5). apply H3. exists q'. split.
           ++ apply Hin. split; [done|]. apply H5; [simpl; by left|done].
           ++ intros r Hr. apply H5. simpl. by right.
      * destruct IH as (q & H1 & H2). apply Hin in H1 as [H1 H1']. exists q. split; [done|].
        intros r [->|Hr]%elem_of_cons Hpr; [done|by apply H2].
    + exists 0%nat. split; [lia|]. split; [lia|]. split.
      * exists (upper iv). split; [apply Hv|]. by intros r ?%elem_of_nil.
      * intros (q & H1 & H2). apply (Hn q H1). apply H2; [simpl; by left|done].
Qed.

(** C26: no conflict is reported exactly when one proportion between 0 and 1
    gives the partition of every role that takes part, each role rounding up
    against its own replica count (a percentage must be that proportion
    itself); and a conflict is reported at the first role that has no common
    proportion with the roles before it. *)
Theorem partition_conflict_exact selected roles :
  match CoordinatedPartitionConflict (Some selected) roles with
  | None => compatible selected roles
  | Some i => (i < length roles)%nat /\ compatible selected (take i roles) /\ ~ compatible selected (take (S i) roles)
  end.
Proof.
  assert (Hv : valid (MkInterval 0 1 false)).
  { unfold valid, inside. simpl. split; [lra|]. split; [lra|]. split; [lra|done]. }
  assert (Hin : forall q, inside (MkInterval 0 1 false) q <-> (0 <= q <= 1)%Q).
  { intros q. unfold inside. simpl. intuition congruence. }
  unfold CoordinatedPartitionConflict, compatible.
  pose proof (conflictLoop_spec selected roles 0 (MkInterval 0 1 false) Hv) as H.
  destruct (conflictLoop _ _ _ _) as [j|].
  - destruct H as (k & -> & Hk & (q & H1 & H2) & H3). simpl. split; [done|]. split.
    + exists q. split; [exact (proj1 (Hin q) H1)|done].
    + intros (q' & H4 & H5). apply H3. exists q'. split; [exact (proj2 (Hin q') H4)|done].
  - destruct H as (q & H1 & H2). exists q. split; [exact (proj1 (Hin q) H1)|done].
Qed.
End conflict.

(** Two replicas of five, forty percent of ten, and three of eight: the last
    conflicts with the percentage, as it needs more than a quarter and at most
    three eighths. *)
Definition example_intstr (v : IntOrString) (n : Z) (up : bool) : option Z :=
  match v with
  | IntVal k => Some k
  | StrVal s => percent ← parsePercent s; Some (Qceiling ((percent # 100) * inject_Z n))
  end.

Definition example_partitions : list PartitionRole :=
  [MkPartitionRole "prefill" (Some 5) (Some (IntVal 2)); MkPartitionRole "decode" (Some 10) (Some (StrVal "40%"));
   MkPartitionRole "other" (Some 8) (Some (IntVal 3))].

Lemma partition_conflict_exact_witness :
  CoordinatedPartitionConflict example_intstr (Some []) example_partitions = Some 2%nat /\
  compatible example_intstr [] (take 2 example_partitions) /\ ~ compatible example_intstr [] (take 3 example_partitions).
Proof.
  assert (E : CoordinatedPartitionConflict example_intstr (Some []) example_partitions = Some 2%nat)
    by (vm_compute; reflexivity).
  split; [exact E|].
  pose proof (partition_conflict_exact example_intstr
    ltac:(intros s percent n H; unfold example_intstr; rewrite H; reflexivity) [] example_partitions) as H.
  rewrite E in H. destruct H as (_ & H1 & H2). split; [exact H1|exact H2].
Defined.
