(* ===== verification/CoordinationWebhook.v ===== *)
(** * pkg/model-serving-controller/webhook/role_coordination_validator.go:
      what admission asks of a coordination

    The validation of the coordination of a rollout, and its search for a
    cycle of dependencies. An error is its kind and the indices of its path;
    messages are left out. [percentErrors] is [validation.IsValidPercent]. *)
From Stdlib Require Import Ascii String.
From S2P Require Import Prelude Names ServingStore RolePopulation RoleRollout.
Local Open Scope Z_scope.

(** ** [roleDependencyGraphHasCycle] *)

Inductive visitState := visiting | visited.
#[global] Instance visitState_eq_dec : EqDecision visitState.
Proof. solve_decision. Defined.

Section cycle.
Context (graph : gmap string (list string)).

(** The loops over a list of names: stop at the first cycle. *)
Fixpoint visitAll (visit : string -> gmap string visitState -> option (bool * gmap string visitState))
    (names : list string) (state : gmap string visitState) : option (bool * gmap string visitState) :=
  match names with
  | [] => Some (false, state)
  | name :: names =>
    '(cycle, state) ← visit name state;
    if cycle : bool then Some (true, state) else visitAll visit names state
  end.

(** [None] is running out of fuel. *)
Fixpoint visitRole (fuel : nat) (roleName : string) (state : gmap string visitState) :
    option (bool * gmap string visitState) :=
  match fuel with
  | O => None
  | S fuel =>
    match state !! roleName with
    | Some visiting => Some (true, state)
    | Some visited => Some (false, state)
    | None =>
      '(cycle, state) ← visitAll (visitRole fuel) (at_ graph roleName) (<[roleName := visiting]> state);
      if cycle : bool then Some (true, state) else Some (false, <[roleName := visited]> state)
    end
  end.

Definition graphNodes (roles : list string) : gset string := universe graph ∪ list_to_set roles.

(** [roles] is the set of roles in the order the map is iterated. *)
Definition roleDependencyGraphHasCycle (roles : list string) : option bool :=
  fst <$> visitAll (visitRole (S (size (graphNodes roles)))) roles ∅.

(** *** Its specification *)

Abbreviation edge := (dependsOn graph).

Record settled (state : gmap string visitState) : Prop := {
  set_closed : forall a b, state !! a = Some visited -> edge a b -> state !! b = Some visited;
  set_acyclic : forall a, state !! a = Some visited -> ~ tc edge a a
}.

(** What a search from the names [l] answers. *)
Definition answers (l : list string) (state : gmap string visitState) (cycle : bool) (state' : gmap string visitState) : Prop :=
  if cycle then exists n x, n ∈ l /\ rtc edge n x /\ tc edge x x
  else settled state' /\
    (forall x, state' !! x = Some visiting <-> state !! x = Some visiting) /\
    (forall x, state !! x = Some visited -> state' !! x = Some visited) /\
    (forall n, n ∈ l -> state' !! n = Some visited).

Context (nodes : gset string).
Hypothesis nodes_closed : forall a b, a ∈ nodes -> edge a b -> b ∈ nodes.

Definition unseen (state : gmap string visitState) : nat := size (nodes ∖ dom state).

Lemma unseen_mono l state state' : answers l state false state' -> (unseen state' <= unseen state)%nat.
Proof.
  intros (_ & H1 & H2 & _). unfold unseen. apply subseteq_size. intros x [Hx Hn]%elem_of_difference.
  apply elem_of_difference. split; [done|]. rewrite elem_of_dom in *. intros [[|] E]; apply Hn.
  - exists visiting. by apply H1.
  - exists visited. by apply H2.
Qed.

Lemma unseen_insert n state : n ∈ nodes -> state !! n = None -> (unseen (<[n := visiting]> state) < unseen state)%nat.
Proof.
  intros Hn E. unfold unseen. rewrite dom_insert_L. apply subset_size. apply not_elem_of_dom in E. set_solver.
Qed.

(** The precondition of a search at [n]: every role being visited leads to it. *)
Definition leads (state : gmap string visitState) (n : string) : Prop :=
  forall p, state !! p = Some visiting -> tc edge p n.

Lemma visitAll_spec visit k l :
  (forall n state, n ∈ l -> (unseen state <= k)%nat -> settled state -> leads state n ->
     exists cycle state', visit n state = Some (cycle, state') /\ answers [n] state cycle state') ->
  forall state, (unseen state <= k)%nat -> settled state -> (forall n, n ∈ l -> leads state n) ->
  exists cycle state', visitAll visit l state = Some (cycle, state') /\ answers l state cycle state'.
Proof.
  induction l as [|n l IH]; intros Hv state Hk Hs Hl; simpl.
  { exists false, state. split; [done|]. unfold answers. split_and!; [done|done|done|by intros m ?%elem_of_nil]. }
  destruct (Hv n state) as (c & s1 & E & H1); [by left|done..|apply Hl; by left|]. rewrite E. simpl.
  destruct c.
  - exists true, s1. split; [done|]. destruct H1 as (m & x & ->%list_elem_of_singleton & Hx). exists n, x. split; [by left|done].
  - pose proof (unseen_mono _ _ _ H1). destruct H1 as (S1 & G1 & B1 & N1).
    destruct (IH ltac:(intros; apply Hv; [by right|done..]) s1) as (c & s2 & E2 & H2); [lia|done| |].
    { intros m Hm p Hp. apply (Hl m); [by right|]. by apply G1. }
    exists c, s2. split; [done|]. destruct c.
    + destruct H2 as (m & x & Hm & Hx). exists m, x. split; [by right|done].
    + destruct H2 as (S2 & G2 & B2 & N2). split; [done|]. split; [intros x; by rewrite G2|].
      split; [intros x Hx; by apply B2, B1|]. intros m [->|Hm]%elem_of_cons; [|by apply N2].
      apply B2, N1. by left.
Qed.

Lemma settled_tc state a b : settled state -> state !! a = Some visited -> tc edge a b -> state !! b = Some visited.
Proof. intros [Hc _] Ha. induction 1 as [a b Hab|a b c Hab _ IH]; [by eapply Hc|]. apply IH. by eapply Hc. Qed.

Lemma visitRole_spec fuel : forall n state, n ∈ nodes -> (unseen state < fuel)%nat -> settled state -> leads state n ->
  exists cycle state', visitRole fuel n state = Some (cycle, state') /\ answers [n] state cycle state'.
Proof.
  induction fuel as [|fuel IH]; intros n state Hn Hf Hs Hl; [lia|]. cbn [visitRole].
  destruct (state !! n) as [[|]|] eqn:E.
  - exists true, state. split; [done|]. exists n, n. split; [by left|]. split; [apply rtc_refl|by apply Hl].
  - exists false, state. split; [done|]. split; [done|]. split; [done|]. split; [done|].
    by intros m ->%list_elem_of_singleton.
  - pose proof (unseen_insert n state Hn E).
    destruct (visitAll_spec (visitRole fuel) (unseen (<[n := visiting]> state)) (at_ graph n)) with
      (state := <[n := visiting]> state) as (c & s1 & E1 & H1).
    + intros m s Hm Hk. apply IH; [by eapply nodes_closed|lia].
    + lia.
    + destruct Hs as [C A]. split.
      * intros a b Ha Hab. assert (a <> n) by (intros ->; by rewrite lookup_insert_eq in Ha).
        rewrite lookup_insert_ne in Ha by done. specialize (C a b Ha Hab).
        rewrite lookup_insert_ne; [done|]. intros ->. congruence.
      * intros a Ha. apply A. destruct (decide (a = n)) as [->|]; [by rewrite lookup_insert_eq in Ha|].
        by rewrite lookup_insert_ne in Ha.
    + intros m Hm p Hp. destruct (decide (p = n)) as [->|]; [by apply tc_once|].
      rewrite lookup_insert_ne in Hp by done. eapply tc_r; [by apply Hl|exact Hm].
    + rewrite E1. simpl. destruct c.
      * exists true, s1. split; [done|]. destruct H1 as (m & x & Hm & Hx & Hc). exists n, x. split; [by left|].
        split; [by eapply rtc_l|done].
      * destruct H1 as (S1 & G1 & B1 & N1). eexists false, _. split; [reflexivity|].
        assert (En : s1 !! n = Some visiting) by (apply G1; by rewrite lookup_insert_eq).
        assert (Hout : forall a, s1 !! a = Some visited -> a <> n) by (intros a Ha ->; congruence).
        split_and!.
        -- split.
           ++ intros a b Ha Hab. destruct (decide (b = n)) as [->|]; [by rewrite lookup_insert_eq|].
              rewrite lookup_insert_ne by done. destruct (decide (a = n)) as [->|]; [by apply N1|].
              rewrite lookup_insert_ne in Ha by done. by eapply (set_closed _ S1).
           ++ intros a Ha Hcyc. destruct (decide (a = n)) as [->|].
              ** assert (exists d, edge n d /\ rtc edge d n) as (d & Hd & Hr).
                 { inversion Hcyc; subst; [exists n; split; [done|apply rtc_refl]|]. eexists. split; [done|by apply tc_rtc]. }
                 apply rtc_tc in Hr as [->|Hr]; [apply (Hout n); [by apply N1|done]|].
                 eapply Hout; [|reflexivity]. eapply settled_tc; [done|by apply N1|done].
              ** rewrite lookup_insert_ne in Ha by done. by eapply (set_acyclic _ S1).
        -- intros x. destruct (decide (x = n)) as [->|].
           ++ rewrite lookup_insert_eq. split; [done|congruence].
           ++ rewrite lookup_insert_ne, G1 by done. by rewrite lookup_insert_ne.
        -- intros x Hx. destruct (decide (x = n)) as [->|]; [by rewrite lookup_insert_eq|].
           rewrite lookup_insert_ne by done. apply B1. by rewrite lookup_insert_ne.
        -- intros m ->%list_elem_of_singleton. by rewrite lookup_insert_eq.
Qed.
End cycle.

Lemma cycle_search graph roles :
  exists cycle, roleDependencyGraphHasCycle graph roles = Some cycle /\
    (cycle = true <-> exists n x, n ∈ roles /\ rtc (dependsOn graph) n x /\ tc (dependsOn graph) x x).
Proof.
  set (nodes := graphNodes graph roles).
  assert (Hclosed : forall a b, a ∈ nodes -> dependsOn graph a b -> b ∈ nodes).
  { intros a b _ Hab. unfold nodes, graphNodes. apply elem_of_union. left. by eapply universe_dep. }
  assert (Hempty : settled graph ∅) by (split; intros a; by rewrite lookup_empty).
  destruct (visitAll_spec graph nodes (visitRole graph (S (size nodes))) (size nodes) roles) with
    (state := (∅ : gmap string visitState)) as (c & s & E & H).
  { intros n state Hn Hk Hs Hl. apply (visitRole_spec graph nodes Hclosed); try done; [|lia].
    unfold nodes, graphNodes. apply elem_of_union. right. by apply elem_of_list_to_set. }
  { unfold unseen. apply subseteq_size. set_solver. }
  { done. }
  { intros n _ p Hp. by rewrite lookup_empty in Hp. }
  exists c. unfold roleDependencyGraphHasCycle. fold nodes. rewrite E. split; [done|]. destruct c; [done|].
  split; [done|]. destruct H as (Hs & _ & _ & Hv). intros (n & x & Hn & Hr & Hc). exfalso.
  apply (set_acyclic graph _ Hs x); [|done]. apply rtc_tc in Hr as [->|Hr]; [by apply Hv|].
  eapply settled_tc; [done|by apply Hv|done].
Qed.

(** C29: the search for a cycle ends, and finds one exactly when some role it
    starts from leads to a role that depends on itself, directly or through
    others; whatever the order in which the set of roles is iterated. *)
Theorem cycle_search_exact graph roles :
  exists cycle, roleDependencyGraphHasCycle graph roles = Some cycle /\
    (cycle = true <-> exists n x, n ∈ roles /\ rtc (dependsOn graph) n x /\ tc (dependsOn graph) x x).
Proof. apply cycle_search. Qed.

(** ** [validateRoleCoordination] *)

Inductive coordinationError :=
| ForbiddenStrategy
| MaxSkewRequired | MaxSkewNotString | MaxSkewNotPercent | MaxSkewOutOfRange
| RoleDuplicate (i : nat) | RoleNotFound (i : nat) | TooFewRoles
| OwnerDuplicate (i : nat) | OwnerNotFound (i : nat) | OwnerNotCoordinated (i : nat)
| DependencyDuplicate (i j : nat) | DependencyOnItself (i j : nat) | DependencyNotFound (i j : nat)
| DependencyNotCoordinated (i j : nat)
| GraphCyclic.

Section validate.
Context (percentErrors : string -> list string) (iterate : gset string -> list string).

(** [strconv.Atoi] of a string without its final percent sign, if any. *)
Definition AtoiTrimPercent (s : string) : option Z :=
  match rev (list_ascii_of_string s) with
  | c :: l => Atoi (if bool_decide (c = "%"%char) then rev l else list_ascii_of_string s)
  | [] => Atoi []
  end.

Definition validateMaxSkew (value : option IntOrString) : list coordinationError :=
  match value with
  | None => [MaxSkewRequired]
  | Some (IntVal _) => [MaxSkewNotString]
  | Some (StrVal s) =>
    match percentErrors s with
    | [] => match AtoiTrimPercent s with
            | Some percent => if (percent <=? 0) || (100 <? percent) then [MaxSkewOutOfRange] else []
            | None => [MaxSkewOutOfRange]
            end
    | msgs => (fun _ => MaxSkewNotPercent) <$> msgs
    end
  end.

(** The loop over [coordination.Roles]: errors and the selected roles. *)
Fixpoint selectRoles (roleNames : gset string) (i : nat) (roles : list string) (selected : gset string) :
    list coordinationError * gset string :=
  match roles with
  | [] => ([], selected)
  | name :: roles =>
    if bool_decide (name ∈ selected) then
      let '(errs, selected) := selectRoles roleNames (S i) roles selected in (RoleDuplicate i :: errs, selected)
    else if negb (bool_decide (name ∈ roleNames)) then
      let '(errs, selected) := selectRoles roleNames (S i) roles selected in (RoleNotFound i :: errs, selected)
    else selectRoles roleNames (S i) roles ({[name]} ∪ selected)
  end.

(** The loop over [dependency.DependsOn]: errors and the edges kept. *)
Fixpoint checkDependsOn (roleNames selected : gset string) (owner : string) (i j : nat) (seen : gset string)
    (dependsOn : list string) : list coordinationError * list string :=
  match dependsOn with
  | [] => ([], [])
  | name :: dependsOn =>
    if bool_decide (name ∈ seen) then
      let '(errs, edges) := checkDependsOn roleNames selected owner i (S j) seen dependsOn in
      (DependencyDuplicate i j :: errs, edges)
    else
      let '(errs, edges) := checkDependsOn roleNames selected owner i (S j) ({[name]} ∪ seen) dependsOn in
      if bool_decide (name = owner) then (DependencyOnItself i j :: errs, edges)
      else if negb (bool_decide (name ∈ roleNames)) then (DependencyNotFound i j :: errs, edges)
      else if negb (bool_decide (name ∈ selected)) then (DependencyNotCoordinated i j :: errs, edges)
      else (errs, name :: edges)
  end.

Definition checkOwner (roleNames selected : gset string) (i : nat) (ownerSeen : gset string) (owner : string) :
    list coordinationError :=
  (if bool_decide (owner ∈ ownerSeen) then [OwnerDuplicate i] else []) ++
  (if negb (bool_decide (owner ∈ roleNames)) then [OwnerNotFound i]
   else if negb (bool_decide (owner ∈ selected)) then [OwnerNotCoordinated i] else []).

(** The loop over [coordination.Dependencies]. *)
Fixpoint checkDependencies (roleNames selected : gset string) (i : nat) (ownerSeen : gset string)
    (graph : gmap string (list string)) (deps : list RoleRolloutDependency) :
    list coordinationError * gmap string (list string) :=
  match deps with
  | [] => ([], graph)
  | d :: deps =>
    let errs1 := checkOwner roleNames selected i ownerSeen (depRole d) in
    let '(errs2, edges) := checkDependsOn roleNames selected (depRole d) i 0 ∅ (DependsOn d) in
    let graph := fold_left (fun g name => appendAll g (depRole d) [name]) edges graph in
    let '(errs3, graph) := checkDependencies roleNames selected (S i) ({[depRole d]} ∪ ownerSeen) graph deps in
    (errs1 ++ errs2 ++ errs3, graph)
  end.

(** [roleRollingUpdate]: the strategy is RoleRollingUpdate; [templateRoles]:
    the names of the roles of the template. [None] is running out of fuel. *)
Definition validateRoleCoordination (roleRollingUpdate : bool) (templateRoles : list string)
    (coordination : option RoleCoordination) : option (list coordinationError) :=
  match coordination with
  | None => Some []
  | Some coordination =>
    let roleNames : gset string := list_to_set templateRoles in
    let '(errsRoles, selected) :=
      match CoordinatedRoles coordination with
      | [] => ([], roleNames)
      | roles => selectRoles roleNames 0 roles ∅
      end in
    let '(errsDeps, graph) := checkDependencies roleNames selected 0 ∅ ∅ (Dependencies coordination) in
    cycle ← roleDependencyGraphHasCycle graph (iterate selected);
    Some ((if roleRollingUpdate then [] else [ForbiddenStrategy]) ++ validateMaxSkew (MaxSkew coordination)
          ++ errsRoles ++ (if (size selected <? 2)%nat then [TooFewRoles] else []) ++ errsDeps
          ++ (if cycle : bool then [GraphCyclic] else []))
  end.

(** *** What is admitted *)

Definition coordinatedSet (templateRoles : list string) (c : RoleCoordination) : gset string :=
  match CoordinatedRoles c with [] => list_to_set templateRoles | roles => list_to_set roles end.

Record admissible (roleRollingUpdate : bool) (templateRoles : list string) (c : RoleCoordination) : Prop := {
  adm_strategy : roleRollingUpdate = true;
  adm_skew : exists s percent, MaxSkew c = Some (StrVal s) /\ percentErrors s = [] /\
    AtoiTrimPercent s = Some percent /\ 0 < percent <= 100;
  adm_roles : NoDup (CoordinatedRoles c) /\ forall name, name ∈ CoordinatedRoles c -> name ∈ templateRoles;
  adm_two : (2 <= size (coordinatedSet templateRoles c))%nat;
  adm_owners : NoDup (depRole <$> Dependencies c);
  adm_dependencies : forall d, d ∈ Dependencies c ->
    depRole d ∈ coordinatedSet templateRoles c /\ NoDup (DependsOn d) /\ depRole d ∉ DependsOn d /\
    forall name, name ∈ DependsOn d -> name ∈ coordinatedSet templateRoles c;
  adm_acyclic : forall x, ~ tc (declared (Dependencies c)) x x
}.

Lemma validateMaxSkew_nil v : (validateMaxSkew v = []) <->
  exists s percent, v = Some (StrVal s) /\ percentErrors s = [] /\ AtoiTrimPercent s = Some percent /\ 0 < percent <= 100.
Proof.
  unfold validateMaxSkew. destruct v as [[n|s]|].
  - split; [done|]. by intros (? & ? & ? & _).
  - destruct (percentErrors s) as [|m ms] eqn:E.
    + destruct (AtoiTrimPercent s) as [p|] eqn:Ep.
      * destruct (p <=? 0) eqn:E1; simpl; [|destruct (100 <? p) eqn:E2]; split; try done.
        -- intros (s' & p' & [= <-] & _ & Ep' & Hp). simplify_eq. lia.
        -- intros (s' & p' & [= <-] & _ & Ep' & Hp). simplify_eq. lia.
        -- intros _. exists s, p. split_and!; [done|done|done|lia|lia].
      * split; [done|]. intros (s' & p' & [= <-] & _ & Ep' & Hp). congruence.
    + split; [done|]. intros (s' & p' & [= <-] & E' & _). congruence.
  - split; [done|]. by intros (? & ? & ? & _).
Qed.

Lemma selectRoles_spec names roles : forall i selected,
  let '(errs, selected') := selectRoles names i roles selected in
  selected' ⊆ selected ∪ list_to_set roles /\ (selected ⊆ names -> selected' ⊆ names) /\
  ((errs = []) <-> NoDup roles /\ forall x, x ∈ roles -> x ∉ selected /\ x ∈ names) /\
  (errs = [] -> selected' = selected ∪ list_to_set roles).
Proof.
  induction roles as [|x roles IH]; intros i selected; simpl.
  { split_and!; [set_solver|done| |set_solver]. split; [|done]. intros _. split; [constructor|].
    by intros x ?%elem_of_nil. }
  case_bool_decide as Hx; [|case_bool_decide as Hn; simpl].
  - specialize (IH (S i) selected). destruct (selectRoles names (S i) roles selected) as [errs s'].
    destruct IH as (H1 & H2 & _). split_and!; [set_solver|done| |done]. split; [done|].
    intros [_ H]. destruct (H x) as [? _]; [by left|done].
  - specialize (IH (S i) ({[x]} ∪ selected)). destruct (selectRoles names (S i) roles _) as [errs s'].
    destruct IH as (H1 & H2 & H3 & H4). split_and!; [set_solver|intros; apply H2; set_solver| |intros E; rewrite H4 by done; set_solver].
    rewrite H3, NoDup_cons. split.
    + intros [Hd H]. split; [split; [|done]|].
      * intros Hin. destruct (H x Hin) as [? _]. set_solver.
      * intros y [->|Hy]%elem_of_cons; [done|]. destruct (H y Hy). set_solver.
    + intros [[Hxr Hd] H]. split; [done|]. intros y Hy. destruct (H y) as [H5 H6]; [by right|]. split; [|done].
      intros [->%elem_of_singleton|]%elem_of_union; done.
  - specialize (IH (S i) selected). destruct (selectRoles names (S i) roles selected) as [errs s'].
    destruct IH as (H1 & H2 & _). split_and!; [set_solver|done| |done]. split; [done|].
    intros [_ H]. destruct (H x) as [_ ?]; [by left|done].
Qed.

Lemma checkDependsOn_spec names selected owner i l : forall j seen,
  let '(errs, edges) := checkDependsOn names selected owner i j seen l in
  ((errs = []) <-> NoDup l /\ owner ∉ l /\ forall x, x ∈ l -> x ∉ seen /\ x ∈ names /\ x ∈ selected) /\
  (errs = [] -> edges = l).
Proof.
  induction l as [|x l IH]; intros j seen; simpl.
  { split; [|done]. split; [|done]. intros _. split_and!; [constructor|by intros ?%elem_of_nil|by intros x ?%elem_of_nil]. }
  case_bool_decide as Hx.
  - specialize (IH (S j) seen). destruct (checkDependsOn _ _ _ _ _ _ _) as [errs edges]. split; [|done].
    split; [done|]. intros (_ & _ & H). destruct (H x) as [? _]; [by left|done].
  - specialize (IH (S j) ({[x]} ∪ seen)). destruct (checkDependsOn _ _ _ _ _ _ _) as [errs edges].
    destruct IH as [H1 H2].
    case_bool_decide as Ho; [split; [|done]; split; [done|]; intros (_ & H & _); by destruct H; subst; left|].
    case_bool_decide as Hn; simpl;
      [|split; [|done]; split; [done|]; intros (_ & _ & H); by destruct (H x) as (_ & ? & _); [left|]].
    case_bool_decide as Hs; simpl;
      [|split; [|done]; split; [done|]; intros (_ & _ & H); by destruct (H x) as (_ & _ & ?); [left|]].
    split; [|intros E; by rewrite H2]. rewrite H1, NoDup_cons, not_elem_of_cons. split.
    + intros (Hd & Hl & H). split_and!; [|done|done|done|].
      * intros Hin. destruct (H x Hin) as [? _]. set_solver.
      * intros y [->|Hy]%elem_of_cons; [done|]. destruct (H y Hy) as (? & ? & ?). set_solver.
    + intros ([Hxl Hd] & [_ Hl] & H). split_and!; [done|done|]. intros y Hy.
      destruct (H y) as (H5 & H6 & H7); [by right|]. split; [|done]. intros [->%elem_of_singleton|]%elem_of_union; done.
Qed.

Lemma checkOwner_nil names selected i ownerSeen owner : selected ⊆ names ->
  (checkOwner names selected i ownerSeen owner = []) <-> owner ∉ ownerSeen /\ owner ∈ selected.
Proof.
  intros Hsub. unfold checkOwner. rewrite app_nil.
  case_bool_decide as H1; [split; [by intros []|by intros []]|].
  case_bool_decide as H2; simpl; [|split; [by intros []|]; intros [_ ?]; set_solver].
  case_bool_decide as H3; simpl; [done|]. split; [by intros []|by intros []].
Qed.

Lemma checkDependencies_spec names selected deps : selected ⊆ names -> forall i ownerSeen graph,
  let '(errs, graph') := checkDependencies names selected i ownerSeen graph deps in
  ((errs = []) <-> NoDup (depRole <$> deps) /\ (forall d, d ∈ deps -> depRole d ∉ ownerSeen) /\
     forall d, d ∈ deps -> depRole d ∈ selected /\ NoDup (DependsOn d) /\ depRole d ∉ DependsOn d /\
       forall x, x ∈ DependsOn d -> x ∈ selected) /\
  (errs = [] -> forall a b, b ∈ at_ graph' a <-> b ∈ at_ graph a \/ declared deps a b).
Proof.
  intros Hsub. induction deps as [|d deps IH]; intros i ownerSeen graph; simpl.
  { split.
    - split; [|done]. intros _. split; [constructor|]. split; by intros d ?%elem_of_nil.
    - intros _ a b. split; [by left|]. intros [?|(d & ?%elem_of_nil & _)]; done. }
  pose proof (checkDependsOn_spec names selected (depRole d) i (DependsOn d) 0 ∅) as Hd.
  destruct (checkDependsOn _ _ _ _ _ _ _) as [errs2 edges]. destruct Hd as [D1 D2].
  pose proof (checkOwner_nil names selected i ownerSeen (depRole d) Hsub) as Ho.
  set (graph1 := fold_left _ edges graph). specialize (IH (S i) ({[depRole d]} ∪ ownerSeen) graph1).
  destruct (checkDependencies _ _ _ _ _ _) as [errs3 graph']. destruct IH as [I1 I2].
  split.
  - rewrite !app_nil, Ho, D1, I1, NoDup_cons, list_elem_of_fmap. split.
    + intros ((O1 & O2) & (N1 & N2 & N3) & M1 & M2 & M3). split_and!.
      * intros (d' & E & Hd'). apply (M2 d' Hd'). rewrite <- E. set_solver.
      * done.
      * intros d' [->|Hd']%elem_of_cons; [done|]. specialize (M2 d' Hd'). set_solver.
      * intros d' [->|Hd']%elem_of_cons; [|by apply M3]. split_and!; try done. intros x Hx. by destruct (N3 x Hx) as (_ & _ & ?).
    + intros ((M0 & M1) & M2 & M3). destruct (M3 d) as (O2 & N1 & N2 & N3); [by left|]. split_and!; try done.
      * apply M2. by left.
      * intros x Hx. specialize (N3 x Hx). set_solver.
      * intros d' Hd'. specialize (M2 d'). rewrite not_elem_of_union, not_elem_of_singleton. split; [|apply M2; by right].
        intros E. apply M0. by exists d'.
      * intros d' Hd'. apply M3. by right.
  - intros E a b. apply app_nil in E as [_ E]. apply app_nil in E as [E2 E3]. rewrite (I2 E3 a b). subst graph1.
    assert (Happ : forall l g, b ∈ at_ (fold_left (fun g name => appendAll g (depRole d) [name]) l g) a <->
      b ∈ at_ g a \/ (a = depRole d /\ b ∈ l)).
    { induction l as [|x l IHl]; intros g; simpl; [rewrite elem_of_nil; tauto|].
      rewrite IHl, at_append, elem_of_cons. case_decide; subst; rewrite ?elem_of_app, ?list_elem_of_singleton; tauto. }
    rewrite (D2 E2), Happ. unfold declared. setoid_rewrite elem_of_cons. split.
    + intros [[H|[-> H]]|(d' & H & ?)]; [by left|right; exists d; split; [by left|done]|right; exists d'; split; [by right|done]].
    + intros [H|(d' & [->|H] & <- & ?)]; [left; by left|left; right; done|right; by exists d'].
Qed.

Hypothesis iterate_perm : forall s, iterate s ≡ₚ elements s.

Lemma coordination_errors roleRollingUpdate templateRoles c :
  exists errs, validateRoleCoordination roleRollingUpdate templateRoles (Some c) = Some errs /\
    ((errs = []) <-> admissible roleRollingUpdate templateRoles c).
Proof.
  unfold validateRoleCoordination. set (names := list_to_set templateRoles : gset string).
  assert (Hsel : exists errsR selected,
    match CoordinatedRoles c with [] => ([], names) | roles => selectRoles names 0 roles ∅ end = (errsR, selected) /\
    selected ⊆ names /\
    ((errsR = []) <-> NoDup (CoordinatedRoles c) /\ forall x, x ∈ CoordinatedRoles c -> x ∈ templateRoles) /\
    (errsR = [] -> selected = coordinatedSet templateRoles c)).
  { unfold coordinatedSet. destruct (CoordinatedRoles c) as [|r roles] eqn:E.
    - exists [], names. split_and!; try done. split; [|done]. intros _. split; [constructor|by intros x ?%elem_of_nil].
    - pose proof (selectRoles_spec names (r :: roles) 0 ∅) as H. destruct (selectRoles _ _ _ _) as [errsR sel].
      destruct H as (H1 & H2 & H3 & H4). exists errsR, sel. split; [done|]. split; [apply H2; set_solver|].
      split; [|intros ->; rewrite H4 by done; set_solver]. rewrite H3. split; intros [? H]; (split; [done|]).
      + intros x Hx. destruct (H x Hx) as [_ Hn]. by apply elem_of_list_to_set in Hn.
      + intros x Hx. split; [set_solver|]. apply elem_of_list_to_set. by apply H. }
  destruct Hsel as (errsR & sel & -> & Hsub & HR & HS).
  pose proof (checkDependencies_spec names sel (Dependencies c) Hsub 0 ∅ ∅) as HD.
  destruct (checkDependencies _ _ _ _ _ _) as [errsD graph]. destruct HD as [D1 D2].
  destruct (cycle_search graph (iterate sel)) as (cycle & -> & Hc). simpl.
  eexists. split; [reflexivity|]. rewrite !app_nil, HR, validateMaxSkew_nil, D1.
  assert (Hcyc : errsR = [] -> errsD = [] -> cycle = true <-> exists x, tc (declared (Dependencies c)) x x).
  { intros ER ED. rewrite Hc. assert (Hg : forall a b, dependsOn graph a b <-> declared (Dependencies c) a b).
    { intros a b. unfold dependsOn. rewrite (D2 ED). unfold at_ at 1. rewrite lookup_empty. simpl.
      rewrite elem_of_nil. tauto. }
    split.
    - intros (n & x & _ & _ & Hx). exists x. revert Hx. by apply tc_iff.
    - intros (x & Hx). exists x, x. split; [|split; [apply rtc_refl|revert Hx; by apply tc_iff]].
      assert (exists y, declared (Dependencies c) x y) as (y & d & Hd & <- & _) by (inversion Hx; subst; eauto).
      rewrite iterate_perm. apply elem_of_elements. apply D1 in ED as (_ & _ & ED). by apply ED. }
  split.
  - intros (E1 & E2 & (E3a & E3b) & E4 & E5 & E6). pose proof (proj2 HR (conj E3a E3b)) as ER.
    assert (ED : errsD = []) by by apply D1.
    rewrite (HS ER) in *. destruct E5 as (E5 & _ & E7). split; try done.
    + by destruct roleRollingUpdate.
    + destruct (_ <? _)%nat eqn:E; [done|]. by apply Nat.ltb_ge in E.
    + intros x Hx. destruct cycle; [done|]. enough (false = true) by done. apply Hcyc; [done..|]. by exists x.
  - intros [A1 A2 A3 A4 A5 A6 A7]. pose proof (proj2 HR A3) as ER. rewrite (HS ER) in *. subst roleRollingUpdate.
    split_and!; try done; try apply A3.
    + by rewrite (proj2 (Nat.ltb_ge _ _) A4).
    + destruct cycle; [|done]. exfalso. destruct (proj1 (Hcyc ER ltac:(apply D1; split_and!; [done|set_solver|done])) eq_refl) as (x & Hx).
      by apply (A7 x).
Qed.

Lemma AtoiTrimPercent_percent t : AtoiTrimPercent (t ++ "%") = parsePercent (t ++ "%").
Proof.
  unfold AtoiTrimPercent, parsePercent. rewrite list_ascii_app, rev_app_distr.
  done.
Qed.

(** [IsValidPercent] accepts digits followed by a percent sign. *)
Hypothesis percent_suffix : forall s, percentErrors s = [] -> exists t, s = (t ++ "%")%string.

Lemma admitted_skew v : validateMaxSkew v = [] -> exists percent, parseMaxSkewPercent v = Some percent.
Proof.
  intros (s & p & -> & E & Ep & Hp)%validateMaxSkew_nil. exists p. destruct (percent_suffix s E) as [t ->].
  rewrite AtoiTrimPercent_percent in Ep. simpl. rewrite Ep. simpl.
  by rewrite (proj2 (Z.leb_gt p 0)), (proj2 (Z.ltb_ge 100 p)) by lia.
Qed.

(** C13: validation always answers; it reports no error exactly for a
    coordination of a RoleRollingUpdate with a skew above 0% and at most 100%,
    at least two distinct template roles, each dependency declared once between
    distinct coordinated roles, and no cycle of dependencies. For such a
    coordination the controller always finds limits: neither the error of an
    invalid skew nor a panic, for any states of the roles. *)
Theorem admitted_coordination_works roleRollingUpdate templateRoles c :
  exists errs, validateRoleCoordination roleRollingUpdate templateRoles (Some c) = Some errs /\
    ((errs = []) <-> admissible roleRollingUpdate templateRoles c) /\
    (errs = [] -> forall states, Forall state_ok states -> NoDup (roleName <$> states) ->
       exists policy, calculateRoleRolloutLimits states (Some c) = Some (inr policy)).
Proof.
  destruct (coordination_errors roleRollingUpdate templateRoles c) as (errs & E & H). exists errs.
  split; [done|]. split; [done|]. intros [_ A2 _ _ _ _ _]%H states Hok Hnd.
  destruct (admitted_skew (MaxSkew c) ltac:(by apply validateMaxSkew_nil)) as [skew Hskew].
  unfold calculateRoleRolloutLimits. rewrite Hskew.
  edestruct limitsLoop_spec as (policy & E2 & _); [exact Hnd| |rewrite E2; by exists policy].
  intros s Hs. destruct (roleLimits_safe c states skew Hok Hnd (parseMaxSkewPercent_range _ _ Hskew) s Hs) as (l & b & E3 & _).
  by exists l, b.
Qed.
End validate.

(** The proposal's coordination of three roles is admitted; closing its
    dependencies into a cycle is not. *)
Definition isValidPercent (s : string) : list string :=
  match parsePercent s with Some _ => [] | None => ["a valid percent string must be a numeric string followed by an ending '%'"%string] end.

Lemma isValidPercent_suffix s : isValidPercent s = [] -> exists t, s = (t ++ "%")%string.
Proof.
  unfold isValidPercent, parsePercent. intros H.
  destruct (rev (list_ascii_of_string s)) as [|c l] eqn:E; [done|]. case_bool_decide as Hc; [|done]. subst c.
  exists (string_of_list_ascii (rev l)). rewrite <- (string_of_list_ascii_of_string s).
  assert (E' : list_ascii_of_string s = rev l ++ ["%"%char]).
  { apply (f_equal (@rev ascii)) in E. by rewrite rev_involutive in E. }
  rewrite E'. clear. induction (rev l) as [|c l' IH]; [done|]. simpl. by rewrite IH.
Qed.

Definition template_roles : list string := ["prefill"; "decode"; "fff"].

Lemma admitted_coordination_works_witness :
  validateRoleCoordination isValidPercent elements true template_roles (Some proposal) = Some [] /\
  (exists policy, calculateRoleRolloutLimits proposal_states (Some proposal) = Some (inr policy)) /\
  validateRoleCoordination isValidPercent elements true template_roles
    (Some (MkCoordination [] (Some (StrVal "10%")) (MkDependency "fff" ["prefill"] :: Dependencies proposal))) = Some [GraphCyclic].
Proof.
  assert (E : validateRoleCoordination isValidPercent elements true template_roles (Some proposal) = Some [])
    by (vm_compute; reflexivity).
  split; [exact E|]. split; [|vm_compute; reflexivity].
  destruct (admitted_coordination_works isValidPercent elements (fun s => reflexivity _) isValidPercent_suffix
              true template_roles proposal) as (errs & E1 & _ & H).
  assert (X : Some errs = Some []) by (rewrite <- E1; exact E). injection X as X. apply (H X).
  - unfold proposal_states. do 3 (apply Forall_cons; split; [apply resolve_state_ok; unfold MaxInt32; try lia; exact I|]).
    by apply Forall_nil.
  - apply (bool_decide_unpack (NoDup (roleName <$> proposal_states))). vm_compute. exact I.
Defined.
