(* ===== verification/CapacityWebhook.v ===== *)
(** * pkg/model-serving-controller/webhook/role_coordination_validator.go:
      what admission asks of an update

    Whether an update of a coordinated rollout leaves every dependency the
    capacity to bring up its target version while it keeps serving its old callers.
    An error is its kind and the index of the role; messages are left out. A
    role is its name, its replicas and partition, and the rest of its
    template; [equalBody] is [apiequality.Semantic.DeepEqual] on that rest. *)
From S2P Require Import Prelude Names ServingStore RolePopulation RoleRollout CoordinationWebhook.
Local Open Scope Z_scope.

Inductive capacityError :=
| PartitionTakesAll (i : nat)
| NoTargetCapacity (i : nat)
| InProgressCapacity (i : nat).

Section capacity.
Context {T : Type} (equalBody : T -> T -> bool).
Context (GetScaledValueFromIntOrPercent : IntOrString -> Z -> bool -> option Z).
(** The order in which the keys of a map are visited. *)
Context (iterate : gset string -> list string).

Record TemplateRole := MkTemplateRole {
  templateName : string;
  templateReplicas : option Z;
  templatePartition : option IntOrString;
  templateBody : T
}.

(** [RoleRolling]: there is a rollout strategy and its type is
    [RoleRollingUpdate]. [BlockedReason] is the reason of the condition
    [CoordinatedRoleRolloutBlocked], if there is one. *)
Record ModelServing := MkModelServing {
  RoleRolling : bool;
  Coordination : option RoleCoordination;
  TemplateRoles : list TemplateRole;
  ObservedGeneration : Z;
  Generation : Z;
  BlockedReason : option string
}.

Definition roleCoordination (ms : ModelServing) : option RoleCoordination :=
  if RoleRolling ms then Coordination ms else None.

Definition replicasOrDefault (replicas : option Z) : Z := default 1 replicas.

Definition EqualRoleTemplateForRevision (a b : TemplateRole) : bool :=
  bool_decide (templateName a = templateName b) && equalBody (templateBody a) (templateBody b).

Definition coordinatedRoleRolloutMayBeActive (ms : ModelServing) : bool :=
  match roleCoordination ms with
  | None => false
  | Some _ =>
    if ObservedGeneration ms <? Generation ms then true
    else match BlockedReason ms with None => false | Some reason => negb (bool_decide (reason = "RolloutComplete"%string)) end
  end.

(** [None] is an error. *)
Definition resolvedRolePartition (role : TemplateRole) : option Z :=
  match templatePartition role with
  | None => Some 0
  | Some p => GetScaledValueFromIntOrPercent p (replicasOrDefault (templateReplicas role)) true
  end.

Definition roleCapacitySettingChanged (old new : TemplateRole) : bool :=
  if negb (replicasOrDefault (templateReplicas old) =? replicasOrDefault (templateReplicas new)) then true
  else match resolvedRolePartition old, resolvedRolePartition new with
       | Some p, Some q => negb (p =? q)
       | _, _ => false
       end.

Definition roleSpecsByName (roles : list TemplateRole) : gmap string TemplateRole :=
  fold_left (fun result role => <[templateName role := role]> result) roles ∅.

Definition selectedRoleNames (coordination : RoleCoordination) (roles : gmap string TemplateRole) : gset string :=
  match CoordinatedRoles coordination with
  | [] => dom roles
  | names => list_to_set (filter (fun name => is_Some (roles !! name)) names)
  end.

(** The dependencies between selected roles, and the roles that have callers. *)
Definition selectedDependencies (selected : gset string) (deps : list RoleRolloutDependency) : gmap string (list string) * gset string :=
  fold_left (fun st dependency =>
    if negb (bool_decide (depRole dependency ∈ selected)) then st
    else
      fold_left (fun '(dependencies, hasDependent) dependencyRole =>
        if negb (bool_decide (dependencyRole ∈ selected)) then (dependencies, hasDependent)
        else (appendAll dependencies (depRole dependency) [dependencyRole], {[dependencyRole]} ∪ hasDependent))
        (DependsOn dependency) st) deps (∅, ∅).

Definition templateChanged (oldRoles newRoles : gmap string TemplateRole) (name : string) : bool :=
  match newRoles !! name with
  | None => false
  | Some newRole =>
    match oldRoles !! name with
    | None => true
    | Some oldRole => negb (EqualRoleTemplateForRevision oldRole newRole)
    end
  end.

(** What the search of [dependencyCapacityRequirements] does to a dependency it
    meets, [changed] telling whether its template changes. *)
Definition requireTarget (changed : string -> bool) (required : gmap string bool) (name : string) : gmap string bool :=
  if changed name then match required !! name with Some _ => required | None => <[name := false]> required end else required.
Definition requireOld (changed : string -> bool) (required : gmap string bool) (name : string) : gmap string bool :=
  if changed name then <[name := true]> required else required.

Definition dependencyCapacityRequirements (coordination : RoleCoordination) (selected : gset string)
    (oldRoles newRoles : gmap string TemplateRole) : gmap string bool :=
  let '(dependencies, hasDependent) := selectedDependencies selected (Dependencies coordination) in
  let changed := templateChanged oldRoles newRoles in
  let required :=
    fold_left (fun required roleName =>
      if bool_decide (roleName ∈ hasDependent) || negb (changed roleName) then required
      else (visit (requireTarget changed) (S (S (size (universe dependencies)))) dependencies roleName (∅, required)).2)
      (iterate selected) ∅ in
  fold_left (fun required caller =>
    if negb (changed caller) then required
    else match oldRoles !! caller with
         | None => required
         | Some _ => fold_left (requireOld changed) (at_ dependencies caller) required
         end) (iterate (dom dependencies)) required.

Definition dependencyRoles (selected : gset string) (deps : list RoleRolloutDependency) : gset string :=
  fold_left (fun roles dependency =>
    if negb (bool_decide (depRole dependency ∈ selected)) then roles
    else fold_left (fun roles dependencyRole => if bool_decide (dependencyRole ∈ selected) then {[dependencyRole]} ∪ roles else roles)
           (DependsOn dependency) roles) deps ∅.

Definition inProgressError (isDependency : gset string) (oldRoles : gmap string TemplateRole) (i : nat) (newRole : TemplateRole) : list capacityError :=
  if negb (bool_decide (templateName newRole ∈ isDependency)) then []
  else match oldRoles !! templateName newRole with
       | None => []
       | Some oldRole =>
         if negb (roleCapacitySettingChanged oldRole newRole) then []
         else match resolvedRolePartition newRole with
              | None => []
              | Some partition =>
                if Z.max partition 1 <? replicasOrDefault (templateReplicas newRole) then [] else [InProgressCapacity i]
              end
       end.

Definition validateInProgressDependencyCapacity (newMS : ModelServing) (coordination : RoleCoordination) (selected : gset string)
    (oldRoles : gmap string TemplateRole) : list capacityError :=
  concat (imap (inProgressError (dependencyRoles selected (Dependencies coordination)) oldRoles) (TemplateRoles newMS)).

Definition capacityErrors (requirements : gmap string bool) (oldRoles : gmap string TemplateRole) (i : nat) (newRole : TemplateRole) : list capacityError :=
  match requirements !! templateName newRole with
  | None => []
  | Some retainOld =>
    let newReplicas := replicasOrDefault (templateReplicas newRole) in
    let oldReplicas := match oldRoles !! templateName newRole with Some oldRole => replicasOrDefault (templateReplicas oldRole) | None => 0 end in
    match (match templatePartition newRole with
           | None => Some 0
           | Some p => GetScaledValueFromIntOrPercent p newReplicas true
           end) with
    | None => []
    | Some partition =>
      if newReplicas <=? partition then [PartitionTakesAll i]
      else
        let retentionFloor := if retainOld : bool then 1 else 0 in
        let stableBase := Z.min oldReplicas newReplicas in
        let replacementCapacity := Z.max (stableBase - Z.max partition retentionFloor) 0 in
        let expansionCapacity := Z.max (newReplicas - Z.max oldReplicas partition) 0 in
        if replacementCapacity + expansionCapacity =? 0 then [NoTargetCapacity i] else []
    end
  end.

Definition validateRoleCoordinationUpdate (oldMS : option ModelServing) (newMS : ModelServing) : list capacityError :=
  match oldMS, roleCoordination newMS with
  | Some oldMS, Some coordination =>
    let oldRoles := roleSpecsByName (TemplateRoles oldMS) in
    let newRoles := roleSpecsByName (TemplateRoles newMS) in
    let selected := selectedRoleNames coordination newRoles in
    let requirements := dependencyCapacityRequirements coordination selected oldRoles newRoles in
    (if coordinatedRoleRolloutMayBeActive oldMS
     then validateInProgressDependencyCapacity newMS coordination selected oldRoles else []) ++
    concat (imap (capacityErrors requirements oldRoles) (TemplateRoles newMS))
  | _, _ => []
  end.

(** ** What is required *)

Hypothesis iterate_perm : forall s, iterate s ≡ₚ elements s.

(** A dependency between two selected roles. *)
Definition between (selected : gset string) (deps : list RoleRolloutDependency) (a b : string) : Prop :=
  a ∈ selected /\ b ∈ selected /\ declared deps a b.

Lemma declared_snoc deps d a b : declared (deps ++ [d]) a b <-> declared deps a b \/ (depRole d = a /\ b ∈ DependsOn d).
Proof.
  unfold declared. split.
  - intros (x & [Hx| ->%list_elem_of_singleton]%elem_of_app & H); [left; by exists x|by right].
  - intros [(x & Hx & H)|H]; [exists x|exists d]; (split; [apply elem_of_app|done]); [by left|right; by left].
Qed.

Lemma selectedDependencies_spec selected deps :
  let '(dependencies, hasDependent) := selectedDependencies selected deps in
  (forall a b, dependsOn dependencies a b <-> between selected deps a b) /\
  (forall b, b ∈ hasDependent <-> exists a, between selected deps a b).
Proof.
  unfold selectedDependencies, between, dependsOn. set (step := fun st dependency => _). induction deps as [|d deps IH] using rev_ind.
  { simpl. unfold at_. split; [intros a b; rewrite lookup_empty; simpl; rewrite elem_of_nil|intros b; rewrite elem_of_empty];
      unfold declared; setoid_rewrite elem_of_nil; naive_solver. }
  rewrite fold_left_app. simpl. destruct (fold_left step deps (∅, ∅)) as [m hd]. destruct IH as [IH1 IH2].
  unfold step. case_bool_decide as Hr; simpl.
  2: { setoid_rewrite declared_snoc. split; [intros a b; rewrite IH1|intros b; rewrite IH2]; naive_solver. }
  match goal with |- context [fold_left ?f (DependsOn d) (m, hd)] => set (inner := f) end.
  assert (H : forall l, let '(m', hd') := fold_left inner l (m, hd) in
    (forall a b, b ∈ at_ m' a <-> b ∈ at_ m a \/ (a = depRole d /\ b ∈ selected /\ b ∈ l)) /\
    (forall b, b ∈ hd' <-> b ∈ hd \/ (b ∈ selected /\ b ∈ l))).
  { induction l as [|x l IHl] using rev_ind; [simpl; setoid_rewrite elem_of_nil; naive_solver|].
    rewrite fold_left_app. simpl. destruct (fold_left inner l (m, hd)) as [m' hd']. destruct IHl as [I1 I2].
    unfold inner. case_bool_decide as Hx; simpl; setoid_rewrite elem_of_app; setoid_rewrite list_elem_of_singleton.
    - split.
      + intros a b. rewrite at_append. case_decide as Ha; [rewrite elem_of_app, list_elem_of_singleton|]; rewrite I1; naive_solver.
      + intros b. rewrite elem_of_union, elem_of_singleton, I2. naive_solver.
    - split; [intros a b; rewrite I1|intros b; rewrite I2]; naive_solver. }
  specialize (H (DependsOn d)). destruct (fold_left inner (DependsOn d) (m, hd)) as [m' hd']. destruct H as [H1 H2].
  setoid_rewrite declared_snoc.
  split.
  - intros a b. rewrite H1, IH1. split; [intros [(? & ? & ?)|(-> & ? & ?)]; tauto|].
    intros (? & ? & [?|[<- ?]]); [by left|by right].
  - intros b. rewrite H2, IH2. split; [intros [(a & ? & ? & ?)|[? ?]]; [exists a; tauto|exists (depRole d); tauto]|].
    intros (a & ? & ? & [?|[<- ?]]); [left; by exists a|by right].
Qed.

Lemma requireTargets changed ds : forall required : gmap string bool,
  let required' := fold_left (requireTarget changed) ds required in
  forall d v, required' !! d = Some v <-> required !! d = Some v \/ (required !! d = None /\ v = false /\ changed d = true /\ d ∈ ds).
Proof.
  induction ds as [|x ds IH]; intros required required' d v; [simpl; rewrite elem_of_nil; naive_solver|].
  assert (Hx : forall d, requireTarget changed required x !! d =
    if bool_decide (d = x) && changed x then Some (default false (required !! x)) else required !! d).
  { intros e. unfold requireTarget. destruct (changed x); [|by rewrite andb_false_r]. rewrite andb_true_r.
    case_bool_decide as He; [subst e|]; destruct (required !! x) as [w|] eqn:E; try done; [apply lookup_insert_eq|by apply lookup_insert_ne]. }
  unfold required'. simpl. rewrite IH, Hx, elem_of_cons. destruct (decide (d = x)) as [->|Hd].
  - rewrite bool_decide_true by done. destruct (changed x); simpl; [|intuition congruence].
    destruct (required !! x) as [w|]; simpl; intuition congruence.
  - rewrite bool_decide_false by done. simpl. tauto.
Qed.

Lemma requireOlds changed ds : forall required : gmap string bool,
  let required' := fold_left (requireOld changed) ds required in
  forall d, required' !! d = if bool_decide (d ∈ ds) && changed d then Some true else required !! d.
Proof.
  induction ds as [|x ds IH]; intros required required' d; [done|]. unfold required'. simpl. rewrite IH. unfold requireOld.
  destruct (decide (d = x)) as [->|Hd].
  - rewrite (bool_decide_true (x ∈ x :: ds)) by left. destruct (changed x); simpl; [|by rewrite andb_false_r].
    rewrite lookup_insert_eq. by destruct (_ && _).
  - assert (E : bool_decide (d ∈ x :: ds) = bool_decide (d ∈ ds)) by (apply bool_decide_ext; rewrite elem_of_cons; naive_solver).
    rewrite E. destruct (changed x); [by rewrite lookup_insert_ne|done].
Qed.

Section requirements.
Context (coordination : RoleCoordination) (selected : gset string) (oldRoles newRoles : gmap string TemplateRole).
Abbreviation changed := (templateChanged oldRoles newRoles).
Abbreviation depends := (between selected (Dependencies coordination)).

(** A changed dependency of an existing caller that changes too must keep an old
    replica; one that a changed role without callers leads to needs only the
    target. *)
Definition retained (d : string) : Prop :=
  changed d = true /\ exists a, depends a d /\ changed a = true /\ is_Some (oldRoles !! a).
Definition targeted (d : string) : Prop :=
  changed d = true /\ exists r, r ∈ selected /\ (forall a, ~ depends a r) /\ changed r = true /\ tc depends r d.

Lemma requirements_spec d :
  let required := dependencyCapacityRequirements coordination selected oldRoles newRoles in
  (required !! d = Some true <-> retained d) /\ (required !! d = Some false <-> ~ retained d /\ targeted d).
Proof.
  unfold dependencyCapacityRequirements. pose proof (selectedDependencies_spec selected (Dependencies coordination)) as Hs.
  destruct (selectedDependencies selected (Dependencies coordination)) as [deps hd]. destruct Hs as [Hd Hh].
  cbv zeta. match goal with |- context [fold_left ?g _ (fold_left ?f (iterate selected) ∅)] => set (roots := f); set (callers := g) end.
  assert (H1 : forall l d v, fold_left roots l ∅ !! d = Some v <->
    v = false /\ changed d = true /\ exists r, r ∈ l /\ (forall a, ~ depends a r) /\ changed r = true /\ tc depends r d).
  { induction l as [|r l IH] using rev_ind; intros e v.
    { simpl. rewrite lookup_empty. split; [done|]. intros (_ & _ & r & Hr & _). by apply elem_of_nil in Hr. }
    rewrite fold_left_app. simpl. set (before := fold_left roots l ∅) in *. unfold roots at 1. cbn beta.
    assert (Hroot : bool_decide (r ∈ hd) || negb (changed r) = true <-> ~ ((forall a, ~ depends a r) /\ changed r = true)).
    { rewrite orb_true_iff, bool_decide_eq_true, negb_true_iff, Hh, <- not_true_iff_false. split.
      - intros [(a & Ha)|Hc] [Hn Hr]; [by eapply Hn|done].
      - intros Hn. destruct (changed r) eqn:Hc; [|by right]. left. destruct (decide (r ∈ hd)) as [Hin|Hin]; [by apply Hh|].
        destruct Hn. split; [|done]. intros a Ha. apply Hin, Hh. by exists a. }
    destruct (_ || _) eqn:E.
    - pose proof (proj1 Hroot eq_refl) as Hn. rewrite IH. split; (intros (Hv & Hc & x & Hx & H); split_and!; [done|done|]).
      + exists x. split; [apply elem_of_app; by left|done].
      + exists x. apply elem_of_app in Hx as [Hx| ->%list_elem_of_singleton]; [done|]. destruct Hn. tauto.
    - assert (Hr : (forall a, ~ depends a r) /\ changed r = true) .
      { clear Hroot. apply orb_false_iff in E as [E1%bool_decide_eq_false E2%negb_false_iff].
        split; [|done]. intros a Ha. apply E1, Hh. by exists a. }
      destruct (search_all deps (requireTarget changed) r before) as (ds & -> & Hds).
      rewrite requireTargets. setoid_rewrite elem_of_app. setoid_rewrite list_elem_of_singleton.
      assert (Htc : e ∈ ds <-> tc depends r e) by (rewrite Hds; by apply tc_iff). rewrite Htc. split.
      + intros [Hv%IH|(_ & -> & Hc & Ht)].
        * destruct Hv as (-> & Hc & x & Hx & H). split_and!; [done|done|]. exists x. by split; [left|].
        * split_and!; [done|done|]. exists r. split; [by right|]. tauto.
      + intros (-> & Hc & x & [Hx|Hx] & H).
        * left. apply IH. split_and!; [done|done|]. by exists x.
        * subst x. destruct (before !! e) as [w|] eqn:Ew; [|right; tauto]. left. by apply IH in Ew as [-> _]. }
  assert (H2 : forall l r0 d, let r := fold_left callers l r0 in
    let P := changed d = true /\ exists a, a ∈ l /\ depends a d /\ changed a = true /\ is_Some (oldRoles !! a) in
    (P /\ r !! d = Some true) \/ (~ P /\ r !! d = r0 !! d)).
  { induction l as [|c l IH] using rev_ind; intros r0 e; simpl.
    { right. split; [|done]. intros (_ & a & Ha & _). by apply elem_of_nil in Ha. }
    rewrite fold_left_app. simpl. specialize (IH r0 e). cbv zeta in IH. set (r := fold_left callers l r0) in *.
    assert (Hc : callers r c !! e = if decide (changed e = true /\ changed c = true /\ is_Some (oldRoles !! c) /\ e ∈ at_ deps c)
      then Some true else r !! e).
    { unfold callers. case_decide as Hq.
      - destruct Hq as (He & Hcc & [o Ho] & Hde). rewrite Hcc. simpl. rewrite Ho, requireOlds, He, bool_decide_true by done. done.
      - destruct (changed c) eqn:Hcc; [|done]. simpl. destruct (oldRoles !! c) as [o|] eqn:Ho; [|done]. rewrite requireOlds.
        case_bool_decide as Hde; [|done]. destruct (changed e) eqn:He; [|done]. destruct Hq. split_and!; [done|done|by exists o|done]. }
    rewrite Hc. destruct (decide _) as [(He & Hcc & Ho & Hde)|Hn].
    - left. split; [|done]. split; [done|]. exists c. apply Hd in Hde.
      split_and!; [apply elem_of_app; right; by left|done..].
    - destruct IH as [[(He & a & Ha & H) IH]|[HP IH]]; [left|right]; (split; [|done]).
      + split; [done|]. exists a. split; [apply elem_of_app; by left|done].
      + intros (He & a & [Ha| ->%list_elem_of_singleton]%elem_of_app & Hade & Hac & Hao); [apply HP; split; [done|]; by exists a|].
        destruct Hn. split_and!; [done..|by apply Hd]. }
  specialize (H2 (iterate (dom deps)) (fold_left roots (iterate selected) ∅) d). cbv zeta in H2.
  assert (HP : (changed d = true /\ exists a, a ∈ iterate (dom deps) /\ depends a d /\ changed a = true /\ is_Some (oldRoles !! a)) <-> retained d).
  { unfold retained. split; intros (Hc & a & H); (split; [done|]); exists a; [tauto|]. split; [|tauto].
    rewrite iterate_perm, elem_of_elements. destruct H as [Ha _]. apply Hd in Ha. unfold dependsOn, at_ in Ha.
    destruct (deps !! a) eqn:E; [by apply elem_of_dom_2 in E|by apply elem_of_nil in Ha]. }
  assert (HT : fold_left roots (iterate selected) ∅ !! d = Some false <-> targeted d).
  { rewrite H1. unfold targeted. setoid_rewrite iterate_perm. setoid_rewrite elem_of_elements. tauto. }
  assert (HN : fold_left roots (iterate selected) ∅ !! d <> Some true) by (rewrite H1; by intros [[=] _]).
  rewrite HP in H2. destruct H2 as [[Hr ->]|[Hr ->]]; [naive_solver|]. rewrite HT. naive_solver.
Qed.
End requirements.

(** ** What is accepted *)

Lemma roleSpecsByName_spec roles name role : roleSpecsByName roles !! name = Some role -> templateName role = name /\ role ∈ roles.
Proof.
  unfold roleSpecsByName. induction roles as [|r roles IH] using rev_ind; [done|]. rewrite fold_left_app. simpl.
  rewrite elem_of_app, list_elem_of_singleton. intros [[<- <-]|[_ Hr]]%lookup_insert_Some; [split; [done|by right]|].
  destruct (IH Hr). split; [done|by left].
Qed.

Lemma concat_imap_nil {A B} (l : list A) x : forall (f : nat -> A -> list B), concat (imap f l) = [] -> x ∈ l -> exists i, f i x = [].
Proof.
  induction l as [|y l IH]; intros f E Hx; [by apply elem_of_nil in Hx|]. simpl in E. apply app_eq_nil in E as [E1 E2].
  apply elem_of_cons in Hx as [->|Hx]; [by exists O|]. destruct (IH _ E2 Hx) as [i Hi]. by exists (S i).
Qed.

(** A role without a partition that must keep an old replica has room for it
    and for a target replica, in the replicas it keeps or in those it gains. *)
Lemma accepted_capacity oldMS newMS c role :
  let oldRoles := roleSpecsByName (TemplateRoles oldMS) in
  let newRoles := roleSpecsByName (TemplateRoles newMS) in
  roleCoordination newMS = Some c -> validateRoleCoordinationUpdate (Some oldMS) newMS = [] ->
  role ∈ TemplateRoles newMS -> templatePartition role = None ->
  retained c (selectedRoleNames c newRoles) oldRoles newRoles (templateName role) ->
  let n := replicasOrDefault (templateReplicas role) in
  let o := match oldRoles !! templateName role with Some r => replicasOrDefault (templateReplicas r) | None => 0 end in
  2 <= Z.min o n \/ Z.max o 0 < n.
Proof.
  intros oldRoles newRoles Hc Hv Hrole Hp Hret n o. unfold validateRoleCoordinationUpdate in Hv. rewrite Hc in Hv. fold oldRoles newRoles in Hv.
  apply app_eq_nil in Hv as [_ Hv]. destruct (concat_imap_nil _ role _ Hv Hrole) as [i Hi]. unfold capacityErrors in Hi.
  destruct (requirements_spec c (selectedRoleNames c newRoles) oldRoles newRoles (templateName role)) as [Hr _].
  rewrite (proj2 Hr Hret), Hp in Hi. fold n o in Hi. destruct (Z.leb_spec n 0); [done|].
  destruct (Z.eqb_spec (Z.max (Z.min o n - Z.max 0 1) 0 + Z.max (n - Z.max o 0) 0) 0); [done|]. lia.
Qed.
End capacity.
