(* ===== verification/RolloutProgress.v ===== *)
(** * A coordinated rollout from its first replacement to its last

    The parts of the rollout put together: a controller round resolves the
    state of every coordinated role of a serving group, computes the limits,
    and selects what to delete of each role; between two rounds the cluster
    recreates what was deleted from the target template and makes it ready.
    The rounds are those of [resolveRoleRolloutPolicy] and
    [rolesToDeleteForRoleRollingUpdateInRound] for one serving group, without
    partitions, surge and replica changes. *)
From Stdlib Require Import Ascii String.
From stdpp Require Import sorting.
From S2P Require Import Prelude Names ServingStore RolePopulation RoleRollout RoleCandidates CoordinationWebhook CapacityWebhook.
Local Open Scope Z_scope.
Local Open Scope go_scope.

(** ** Rounds *)

(** A coordinated role and its instances; [oldRevision] marks the instances
    made from the previous template. *)
Record RoleWorld := MkRoleWorld {
  wName : string;
  wReplicas : Z;
  wChanged : bool;
  wMaxUnavailable : IntOrString;
  wInstances : list Role
}.

Definition oldRevision : string := "old".
Definition newRevision : string := "new".

Definition compareRevision (r : Role) : templateComparison :=
  if bool_decide (RoleRevision r = oldRevision) then templateDifferent else templateEquivalent.

Definition stateOf (w : RoleWorld) : coordinatedRoleState :=
  resolveRoleRolloutState compareRevision (fun _ => false) (wName w) (wReplicas w) (wReplicas w) (wInstances w) 0
    (wChanged w) ∅ (Some (stableRolePopulation (wName w) (wReplicas w) (wReplicas w) [] (wInstances w) [])).

(** The instances after the deleted ones are recreated and ready. *)
Definition recreate (deleted : list Role) (r : Role) : Role :=
  if bool_decide (RoleName r ∈ RoleName <$> deleted)
  then MkRole (RoleName r) newRevision (RoleTemplateHash r) RoleRunning else r.

Section rounds.
Context (scaled : IntOrString -> Z -> bool -> option Z).

Definition deletionsOf (policy : roleRolloutGroupPolicy) (w : RoleWorld) : list Role :=
  let '(temporary, stable) :=
    rolesToDelete compareRevision (fun _ => false) (fun _ => false) scaled true
      (MkRoleSpec (Some (wReplicas w)) (Some (wMaxUnavailable w))) 0 [] (wInstances w) (policyRoles policy !! wName w) in
  temporary ++ stable.

Definition advance (policy : roleRolloutGroupPolicy) (w : RoleWorld) : RoleWorld :=
  MkRoleWorld (wName w) (wReplicas w) (wChanged w) (wMaxUnavailable w)
    (recreate (deletionsOf policy w) <$> wInstances w).

(** [None]: the limits cannot be computed. *)
Definition round (c : RoleCoordination) (ws : list RoleWorld) : option (list RoleWorld) :=
  match calculateRoleRolloutLimits (stateOf <$> ws) (Some c) with
  | Some (inr policy) => Some (advance policy <$> ws)
  | _ => None
  end.

Fixpoint rounds (k : nat) (c : RoleCoordination) (ws : list RoleWorld) : option (list RoleWorld) :=
  match k with
  | O => Some ws
  | S k => ws ← round c ws; rounds k c ws
  end.
End rounds.

Definition finished (ws : list RoleWorld) : Prop :=
  forall w r, w ∈ ws -> r ∈ wInstances w -> RoleRevision r <> oldRevision.

(** ** The states between rounds *)

(** The [r] highest of [n] instances are on the target template. *)
Definition instanceAt (name : string) (n r i : Z) : Role :=
  MkRole (GenerateRoleID name i) (if i <? n - r then oldRevision else newRevision) "" RoleRunning.
Definition instancesAt (name : string) (n r : Z) : list Role := instanceAt name n r <$> seqZ 0 n.

Lemma instance_ordinal name n r i : name_ok name -> 0 <= i <= MaxInt32 -> ordinalOf (RoleName (instanceAt name n r i)) = i.
Proof. intros H1 H2. unfold ordinalOf, instanceAt, GenerateRoleID. cbn [RoleName]. by rewrite parent_ordinal. Qed.

Lemma sortedList_unique s l : StronglySorted Z.lt l -> (forall o, o ∈ l <-> o ∈ s) -> sortedList s = l.
Proof.
  intros Hl Hs. destruct (sortedList_spec s) as [H1 H2].
  apply (StronglySorted_unique_strong Z.lt); [intros x y _ _ ? ?; lia|done|done|].
  apply NoDup_Permutation; [by apply sorted_lt_NoDup..|]. intros x. by rewrite H2, Hs.
Qed.

Lemma seqZ_sorted a n : StronglySorted Z.lt (seqZ a n).
Proof.
  destruct (Z.lt_ge_cases n 0) as [Hn|Hn]; [rewrite seqZ_nil by lia; constructor|].
  revert n Hn a. apply (natlike_ind (fun n => forall a, StronglySorted Z.lt (seqZ a n))).
  - intros a. rewrite seqZ_nil by lia. constructor.
  - intros n Hn IH a. rewrite seqZ_cons by lia. constructor; [rewrite Z.pred_succ; apply IH|].
    apply Forall_forall. intros x Hx%elem_of_seqZ. lia.
Qed.

Lemma filter_nothing {A} (P : A -> Prop) `{!forall x, Decision (P x)} (l : list A) : (forall x, x ∈ l -> ~ P x) -> filter P l = [].
Proof.
  induction l as [|x l IH]; intros Hn; [done|]. rewrite filter_cons_False; [|apply Hn; by left].
  apply IH. intros y Hy. apply Hn. by right.
Qed.

Lemma filter_all_list {A} (P : A -> Prop) `{!forall x, Decision (P x)} (l : list A) : (forall x, x ∈ l -> P x) -> filter P l = l.
Proof.
  induction l as [|x l IH]; intros Hp; [done|]. rewrite filter_cons_True; [|apply Hp; by left].
  f_equal. apply IH. intros y Hy. apply Hp. by right.
Qed.

Definition fullPopulation (n : Z) : roleStablePopulation := MkPopulation n ∅ [].

Lemma settled_population name n r : name_ok name -> 0 <= n <= MaxInt32 ->
  stableRolePopulation name n n [] (instancesAt name n r) [] = fullPopulation n.
Proof.
  intros Hname Hn. unfold stableRolePopulation.
  assert (E : sortedList (stableOrdinals name n [] (instancesAt name n r) []) = seqZ 0 n).
  { apply sortedList_unique; [apply seqZ_sorted|]. intros o. unfold stableOrdinals.
    assert (Et : markedSurgeNames [] n = ∅) by done. rewrite Et, elem_of_union, !elem_of_list_to_set, elem_of_seqZ.
    rewrite list_elem_of_filter, list_elem_of_fmap. split.
    - intros Ho. left. split; [lia|]. exists (instanceAt name n r o). split; [rewrite instance_ordinal; [done|done|lia]|].
      apply list_elem_of_filter. split; [set_solver|]. apply list_elem_of_fmap. exists o. split; [done|].
      apply elem_of_seqZ. lia.
    - intros [[Ho (x & -> & Hx)]|Hx]; [|by apply elem_of_nil in Hx].
      apply list_elem_of_filter in Hx as [_ Hx]. apply list_elem_of_fmap in Hx as (i & -> & Hi%elem_of_seqZ).
      rewrite instance_ordinal by (done || lia). lia. }
  rewrite E, Z.min_id, take_ge by (rewrite length_seqZ; lia). unfold fullPopulation.
  rewrite (filter_nothing (fun o => n <= o)) by (intros x Hx%elem_of_seqZ; lia). f_equal. simpl.
  by destruct (Z.to_nat n).
Qed.

(** *** The resolved state *)

Lemma full_contains n o : contains (fullPopulation n) o = (0 <=? o) && (o <? n).
Proof.
  unfold contains, fullPopulation. cbn [holes extra end_]. rewrite bool_decide_true by set_solver.
  rewrite (bool_decide_false (o ∈ [])) by (by intros ?%elem_of_nil). by rewrite andb_true_r, orb_false_r.
Qed.

Lemma full_count n a : 0 <= a -> countFrom (fullPopulation n) a = Z.max 0 (n - a).
Proof. intros Ha. unfold countFrom, fullPopulation. simpl. unfold atLeast. simpl. rewrite elements_empty. simpl. lia. Qed.

(** What the scan has seen after the first [m] instances. *)
Definition tallyAt (n r m : Z) : Tally :=
  let old := Z.min m (n - r) in
  let fresh := Z.max 0 (m - (n - r)) in
  MkTally fresh (0 <? fresh) (0 <? fresh) false old (0 <? old) fresh 0 old m 0 true.

Lemma tally_settled name n r : name_ok name -> 0 <= r <= n -> n <= MaxInt32 -> forall m, 0 <= m <= n ->
  fold_left (tallyRole compareRevision (fun _ => false) n n 0 (fullPopulation n) ∅) (instanceAt name n r <$> seqZ 0 m)
    (MkTally 0 false false false 0 false 0 0 0 0 0 true) = tallyAt n r m.
Proof.
  intros Hname Hr Hn m [Hm0 Hm]. rewrite <- (Z2Nat.id m) in Hm |- * by done. clear Hm0.
  revert Hm. generalize (Z.to_nat m) as k. clear m. induction k as [|k IH].
  - intros _. rewrite seqZ_nil by lia. unfold tallyAt. cbn [fmap list_fmap fold_left]. f_equal; try lia; symmetry; apply Z.ltb_ge; lia.
  - intros Hm. rewrite seqZ_S, Nat2Z.inj_succ in *. assert (Hm0 : 0 <= Z.of_nat k) by lia.
    set (m := Z.of_nat k) in *. clearbody m. rewrite fmap_app, fold_left_app, IH by lia. simpl.
    unfold tallyRole at 1. rewrite Z.add_0_l, instance_ordinal by (done || lia).
    rewrite full_contains, lookup_empty. rewrite (bool_decide_false (is_Some None)) by (by intros [? ?]).
    rewrite (proj2 (Z.ltb_ge m 0)), (proj2 (Z.leb_le 0 m)), (proj2 (Z.ltb_lt m n)), (proj2 (Z.leb_gt n m)) by lia.
    unfold compareRevision, instanceAt, tallyAt. cbn [RoleRevision Status andb orb negb]. unfold count.
    destruct (Z.ltb_spec m (n - r)).
    + rewrite (bool_decide_true (oldRevision = oldRevision)) by done. simpl.
      f_equal; try lia; repeat case_bool; try done; lia.
    + rewrite (bool_decide_false (newRevision = oldRevision)) by done. simpl.
      f_equal; try lia; repeat case_bool; try done; lia.
Qed.

Definition settledState (name : string) (n r : Z) (changed : bool) : coordinatedRoleState :=
  MkState name (Some (fullPopulation n)) 0 n r r (if 0 <? r then targetReady else targetNotStarted) (r <? n)
    (changed && (r <? n)) n r r (n - r) changed true.

Lemma resolve_settled name n r changed : name_ok name -> 0 <= r <= n -> 1 <= n <= MaxInt32 ->
  resolveRoleRolloutState compareRevision (fun _ => false) name n n (instancesAt name n r) 0 changed ∅
    (Some (fullPopulation n)) = settledState name n r changed.
Proof.
  intros Hname Hr Hn. unfold resolveRoleRolloutState. rewrite (bool_decide_true (∅ = ∅)) by done.
  change (default (MkPopulation (Z.min n n) ∅ []) (Some (fullPopulation n))) with (fullPopulation n).
  unfold instancesAt. rewrite tally_settled by (done || lia). rewrite map_to_list_empty, !full_count by lia.
  unfold settledState, tallyAt.
  cbn [ existsb sawOldVersion remainingOldToUpdate stableTargetReady hasTargetReady hasTargetWork
       hasCommittedReplacement readySeen outsideEligibleStarted oldSeen formalObserved protectedObserved tailOk].
  rewrite (proj2 (Z.ltb_lt 0 (Z.max 0 (n - 0)))) by lia.
  f_equal; try lia; repeat case_bool; rewrite ?andb_true_r; try done; lia.
Qed.

(** ** The limits of settled roles *)

(** How many instances are on the target template. *)
Definition updatedOf (w : RoleWorld) : Z :=
  Z.of_nat (length (filter (fun r => RoleRevision r <> oldRevision) (wInstances w))).

Lemma updated_settled name n r : 0 <= r <= n ->
  Z.of_nat (length (filter (fun x => RoleRevision x <> oldRevision) (instancesAt name n r))) = r.
Proof.
  intros Hr. unfold instancesAt. replace n with ((n - r) + r) at 2 by lia. rewrite seqZ_app, fmap_app, filter_app by lia.
  rewrite filter_nothing, filter_all_list.
  - simpl. rewrite length_fmap, length_seqZ. lia.
  - intros x (i & -> & Hi%elem_of_seqZ)%list_elem_of_fmap. unfold instanceAt. simpl.
    by rewrite (proj2 (Z.ltb_ge i (n - r))) by lia.
  - intros x (i & -> & Hi%elem_of_seqZ)%list_elem_of_fmap. unfold instanceAt. simpl.
    rewrite (proj2 (Z.ltb_lt i (n - r))) by lia. by intros [].
Qed.

(** ** What a round deletes of a settled role *)

Section deletions.
Context (scaled : IntOrString -> Z -> bool -> option Z) (name : string) (n r : Z).
Hypothesis Hname : name_ok name.
Hypothesis Hr : 0 <= r <= n.
Hypothesis Hn : 1 <= n <= MaxInt32.

(** The outdated instances, highest ordinal first. *)
Definition outdatedDown : list Role := instanceAt name n r <$> reverse (seqZ 0 (n - r)).

Lemma ordinal_of i : 0 <= i < n -> roleOrdinal (instanceAt name n r i) = i.
Proof. intros Hi. unfold roleOrdinal. apply instance_ordinal; [done|lia]. Qed.

Lemma outdated_elem x : x ∈ outdatedDown <-> exists i, x = instanceAt name n r i /\ 0 <= i < n - r.
Proof.
  unfold outdatedDown. rewrite list_elem_of_fmap. setoid_rewrite elem_of_reverse. setoid_rewrite elem_of_seqZ.
  split; intros (i & -> & Hi); exists i; (split; [done|lia]).
Qed.

Lemma outdated_filter : filter (fun x => isOutdated compareRevision (fun _ => false) (fun _ => false) x = true)
    (instancesAt name n r) = instanceAt name n r <$> seqZ 0 (n - r).
Proof.
  unfold instancesAt. replace n with ((n - r) + r) at 2 by lia. rewrite seqZ_app, fmap_app, filter_app by lia.
  rewrite filter_all_list, filter_nothing; [by rewrite app_nil_r| |].
  - intros x (i & -> & Hi%elem_of_seqZ)%list_elem_of_fmap. unfold isOutdated, compareRevision, instanceAt.
    cbn [Status RoleRevision]. rewrite (proj2 (Z.ltb_ge i (n - r))) by lia. done.
  - intros x (i & -> & Hi%elem_of_seqZ)%list_elem_of_fmap. unfold isOutdated, compareRevision, instanceAt.
    cbn [Status RoleRevision]. rewrite (proj2 (Z.ltb_lt i (n - r))) by lia. done.
Qed.

Lemma descending_map (l : list Z) : (forall i, i ∈ l -> 0 <= i < n) -> StronglySorted Z.lt l ->
  StronglySorted (fun a b => roleOrdinal b <= roleOrdinal a) (instanceAt name n r <$> reverse l).
Proof.
  induction l as [|i l IH]; intros Hl Hs; [constructor|]. rewrite reverse_cons, fmap_app.
  inversion Hs as [|? ? Hs' Hi]; subst. apply StronglySorted_app_intro; [apply IH; [intros; apply Hl; by right|done]|repeat constructor|].
  intros x y (j & -> & Hj)%list_elem_of_fmap ->%list_elem_of_singleton. rewrite elem_of_reverse in Hj.
  rewrite !ordinal_of by (apply Hl; (by left) || by right). rewrite Forall_forall in Hi. specialize (Hi j Hj). lia.
Qed.

Lemma outdated_sorted : merge_sort (outdatedLe true) (instanceAt name n r <$> seqZ 0 (n - r)) = outdatedDown.
Proof.
  apply (StronglySorted_unique_strong (fun a b => roleOrdinal b <= roleOrdinal a)).
  - intros x y Hx Hy H1 H2. rewrite merge_sort_Permutation in Hx.
    apply list_elem_of_fmap in Hx as (i & -> & Hi%elem_of_seqZ). apply outdated_elem in Hy as (j & -> & Hj).
    rewrite !ordinal_of in * by lia. by assert (i = j) as -> by lia.
  - apply outdatedLe_sorted.
  - apply descending_map; [intros i Hi%elem_of_seqZ; lia|apply seqZ_sorted].
  - rewrite merge_sort_Permutation. unfold outdatedDown. by rewrite reverse_Permutation.
Qed.

Lemma no_temporary retain k b l : selectTemporary ∅ retain k b l = ([], l, b).
Proof. revert k b. induction l as [|x l IH]; intros k b; [done|]. simpl. rewrite bool_decide_false by set_solver. simpl. by rewrite IH. Qed.

Lemma takeWhile_all {A} (p : A -> bool) l : (forall x, x ∈ l -> p x = true) -> takeWhile p l = l.
Proof.
  induction l as [|x l IH]; intros Hp; [done|]. simpl. rewrite Hp by by left. f_equal. apply IH. intros y Hy. apply Hp. by right.
Qed.

Lemma settled_running : markDeleting (fun _ => false) <$> instancesAt name n r = instancesAt name n r /\
  countRunning (instancesAt name n r) = n /\
  filter (fun x => isNewUnavailable compareRevision (fun _ => false) (fun _ => false) x = true) (instancesAt name n r) = [].
Proof.
  unfold instancesAt. split_and!.
  - rewrite <- list_fmap_compose. apply list_fmap_ext. intros k i _. done.
  - unfold countRunning. rewrite filter_all_list.
    + rewrite length_fmap, length_seqZ. lia.
    + intros x (i & -> & _)%list_elem_of_fmap. done.
  - apply filter_nothing. intros x (i & -> & _)%list_elem_of_fmap. unfold isNewUnavailable, isRunning, instanceAt. simpl.
    by rewrite andb_false_r.
Qed.

Lemma length_outdated : Z.of_nat (length outdatedDown) = n - r.
Proof. unfold outdatedDown. rewrite length_fmap, length_reverse, length_seqZ. lia. Qed.

(** The deletions are the highest outdated ordinals, and there is one when the
    limits leave room for it. *)
Lemma settled_deletions mu u lim : scaled mu n false = Some u -> 1 <= u ->
  exists k : nat, (Z.of_nat k <= n - r) /\
    rolesToDelete compareRevision (fun _ => false) (fun _ => false) scaled true (MkRoleSpec (Some n) (Some mu)) 0 []
      (instancesAt name n r) lim = ([], take k outdatedDown) /\
    (forall l, lim = Some l -> limitPopulation l = Some (fullPopulation n) -> r < n -> 1 <= remainingDeletions l ->
       effectivePartition l <= n - r - 1 -> (retainOldReplica l = true -> 2 <= n - r) -> (1 <= k)%nat).
Proof.
  intros Hu Hu1. destruct settled_running as (R1 & R2 & R3). unfold rolesToDelete, outdatedRoles.
  rewrite outdated_filter, outdated_sorted, R1, R3.
  assert (Ep : protectedRoles true 0 (instancesAt name n r) = ∅).
  { unfold protectedRoles. rewrite filter_nothing; [done|]. intros x _. lia. }
  rewrite Ep, filter_all_list by set_solver. case_bool_decide as Hnil.
  { exists 0%nat. split; [lia|]. split; [done|]. intros l _ _ Hlt. pose proof length_outdated. rewrite Hnil in *. simpl in *. lia. }
  assert (El : Z.of_nat (length (instancesAt name n r)) = n).
  { unfold instancesAt. rewrite length_fmap, length_seqZ. lia. }
  change (roleReplicas (MkRoleSpec (Some n) (Some mu))) with n.
  assert (EB : roleRolloutBudget scaled (MkRoleSpec (Some n) (Some mu)) (instancesAt name n r) (Z.of_nat 0) =
    Some (newRolloutBudget n u n n 0)).
  { unfold roleRolloutBudget, GetMaxUnavailableForRole. cbn [MaxUnavailable].
    change (roleReplicas (MkRoleSpec (Some n) (Some mu))) with n. rewrite Hu. cbn [mbind option_bind].
    by rewrite El, R2. }
  cbn [length]. rewrite EB. unfold newRolloutBudget. set (B := Z.max 0 (n - Z.max 0 (n - u))).
  replace (Z.max 0 (n - Z.max 0 (n - u) - 0)) with B by lia.
  assert (HB : 1 <= B) by lia. clearbody B.
  unfold selectRoleRolloutCandidates. change (markedSurgeNames [] n) with (∅ : gset string). cbn [negb].
  rewrite no_temporary. cbn [total healthy].
  assert (Eu : unknownOrdinal compareRevision ∅ (instancesAt name n r) = -1).
  { unfold unknownOrdinal. rewrite filter_nothing; [done|]. intros x _ (_ & _ & Hx). unfold compareRevision in Hx.
    by case_bool_decide. }
  rewrite Eu, takeWhile_all.
  2: { intros x (i & -> & Hi)%outdated_elem. rewrite ordinal_of by lia. by rewrite (proj2 (Z.leb_gt i (-1))) by lia. }
  pose proof (constrain_spec lim outdatedDown B) as Hc.
  destruct (constrainRoleDeletion lim outdatedDown B) as [eligible max'] eqn:Ec. destruct Hc as (C1 & C2 & _).
  set (sel := selectBudgetedRolesToDelete eligible (MkBudget max' B) true).
  destruct (select_spec true eligible (MkBudget max' B)) as (_ & _ & _ & S4). fold sel in S4. specialize (S4 eq_refl).
  assert (Hpre : sel `prefix_of` outdatedDown) by by etrans.
  assert (Hsel : sel = take (length sel) outdatedDown) by (destruct Hpre as [rest ->]; by rewrite take_app_length).
  exists (length sel). split; [apply prefix_length in Hpre; pose proof length_outdated; lia|]. split; [by rewrite <- Hsel|].
  intros l -> Hpop Hlt Hrem Heff Hret. unfold constrainRoleDeletion in Ec. injection Ec as Eel Emax.
  assert (Hcont : forall x, x ∈ outdatedDown -> containsStable l (roleOrdinal x) = true).
  { intros x (i & -> & Hi)%outdated_elem. unfold containsStable. rewrite Hpop, full_contains, ordinal_of by lia.
    apply andb_true_iff. split; [apply Z.leb_le|apply Z.ltb_lt]; lia. }
  assert (Ehead : exists rest, outdatedDown = instanceAt name n r (n - r - 1) :: rest).
  { unfold outdatedDown. replace (n - r) with (Z.of_nat (S (Z.to_nat (n - r - 1)))) by lia. rewrite seqZ_S, reverse_snoc. simpl.
    eexists. f_equal. f_equal. lia. }
  destruct Ehead as [rest Ehead].
  assert (Hmax : 1 <= max').
  { rewrite filter_all_list in Emax by done. rewrite length_outdated in Emax. destruct (retainOldReplica l); [specialize (Hret eq_refl)|]; lia. }
  unfold sel. rewrite <- Eel, Ehead. cbn [takeWhile]. rewrite ordinal_of by lia.
  rewrite (proj2 (Z.ltb_ge (n - r - 1) (effectivePartition l))) by lia.
  rewrite <- (ordinal_of (n - r - 1)) at 1 by lia. rewrite Hcont by (rewrite Ehead; by left). cbn [negb orb].
  cbn [selectBudgetedRolesToDelete]. unfold takeBudget at 1. cbn [total healthy].
  rewrite (proj2 (Z.leb_gt max' 0)), (proj2 (Z.leb_gt B 0)), andb_false_r by lia. simpl. lia.
Qed.

(** Recreating the deleted instances leaves a settled role again. *)
Lemma recreate_settled k : Z.of_nat k <= n - r ->
  recreate (take k outdatedDown) <$> instancesAt name n r = instancesAt name n (r + Z.of_nat k).
Proof.
  intros Hk. unfold instancesAt. rewrite <- list_fmap_compose. apply list_fmap_ext. intros j i Hi.
  apply list_elem_of_lookup_2, elem_of_seqZ in Hi. simpl. unfold recreate.
  assert (Hin : RoleName (instanceAt name n r i) ∈ RoleName <$> take k outdatedDown <-> n - r - Z.of_nat k <= i < n - r).
  { rewrite list_elem_of_fmap. split.
    - intros (x & Ex & Hx). apply list_elem_of_lookup in Hx as [m Hx]. apply lookup_take_Some in Hx as [Hx Hm].
      unfold outdatedDown in Hx. rewrite list_lookup_fmap in Hx. apply fmap_Some in Hx as (v & Hv & ->).
      apply (f_equal ordinalOf) in Ex. pose proof Hv as Hv'. apply list_elem_of_lookup_2 in Hv'.
      rewrite elem_of_reverse, elem_of_seqZ in Hv'. rewrite !instance_ordinal in Ex by (done || lia). subst v.
      apply reverse_lookup_Some in Hv as [Hv Hlt]. rewrite length_seqZ in *. apply lookup_seqZ in Hv as [Hv _]. lia.
    - intros Hin. exists (instanceAt name n r i). split; [done|]. apply list_elem_of_lookup. exists (Z.to_nat (n - r - 1 - i)).
      rewrite lookup_take by lia. unfold outdatedDown. rewrite list_lookup_fmap, reverse_lookup by (rewrite length_seqZ; lia).
      rewrite decide_True by lia. rewrite length_seqZ, lookup_seqZ_lt by lia. simpl. f_equal. f_equal. lia. }
  unfold instanceAt at 1 3. cbn [RoleName RoleTemplateHash]. case_bool_decide as Hb.
  - unfold instanceAt. cbn [RoleName]. apply Hin in Hb. by rewrite (proj2 (Z.ltb_ge i (n - (r + Z.of_nat k)))) by lia.
  - unfold instanceAt. destruct (Z.ltb_spec i (n - r)), (Z.ltb_spec i (n - (r + Z.of_nat k))); try done; [|lia].
    exfalso. apply Hb, Hin. lia.
Qed.
End deletions.

(** ** Some role can always go on *)

(** A role between two rounds. *)
Record settled_world (scaled : IntOrString -> Z -> bool -> option Z) (w : RoleWorld) : Prop := {
  sw_name : name_ok (wName w);
  sw_replicas : 1 <= wReplicas w <= MaxInt32;
  sw_instances : wInstances w = instancesAt (wName w) (wReplicas w) (updatedOf w);
  sw_unchanged : wChanged w = false -> updatedOf w = wReplicas w;
  sw_budget : exists u, scaled (wMaxUnavailable w) (wReplicas w) false = Some u /\ 1 <= u
}.

Lemma updatedOf_range scaled w : settled_world scaled w -> 0 <= updatedOf w <= wReplicas w.
Proof.
  intros [_ Hn Hi _ _]. split; [unfold updatedOf; lia|].
  assert (Z.of_nat (length (wInstances w)) = wReplicas w).
  { rewrite Hi. unfold instancesAt. rewrite length_fmap, length_seqZ. lia. }
  unfold updatedOf. pose proof (length_filter (fun r => RoleRevision r <> oldRevision) (wInstances w)). lia.
Qed.

Lemma stateOf_settled scaled w : settled_world scaled w ->
  stateOf w = settledState (wName w) (wReplicas w) (updatedOf w) (wChanged w).
Proof.
  intros Hw. pose proof (updatedOf_range _ _ Hw). destruct Hw as [Hname Hn Hi _ _]. unfold stateOf. rewrite Hi.
  rewrite settled_population by (done || lia). by apply resolve_settled.
Qed.

Lemma stateByName_lookup states : NoDup (roleName <$> states) ->
  (forall s, s ∈ states -> stateByName states !! roleName s = Some s) /\
  (forall x, x ∉ roleName <$> states -> stateByName states !! x = None).
Proof.
  unfold stateByName. induction states as [|s states IH] using rev_ind; intros Hnd; simpl.
  { split; [by intros s ?%elem_of_nil|]. intros x _. apply lookup_empty. }
  rewrite fmap_app, NoDup_app in Hnd. destruct Hnd as (Hnd & Hd & _). destruct (IH Hnd) as [I1 I2].
  rewrite fold_left_app. simpl. split.
  - intros t [Ht| ->%list_elem_of_singleton]%elem_of_app; [|by rewrite lookup_insert_eq].
    rewrite lookup_insert_ne; [by apply I1|]. intros E. apply (Hd (roleName t)); [by apply list_elem_of_fmap_2|].
    rewrite <- E. simpl. by left.
  - intros x Hx. rewrite fmap_app, not_elem_of_app in Hx. destruct Hx as [Hx1 Hx2]. simpl in Hx2.
    rewrite lookup_insert_ne; [by apply I2|]. intros <-. apply Hx2. by left.
Qed.

Lemma allowance_gt n r b skew k : 0 < b -> k < n -> k * (100 * b) < n * (100 * r + skew * b) -> k < allowance n r b skew.
Proof.
  intros Hb Hk H. unfold allowance. pose proof (ceilDiv_spec (n * (100 * r + skew * b)) (100 * b) ltac:(lia)). nia.
Qed.

Lemma tc_ind_r_last {A} (R : A -> A -> Prop) x y : tc R x y -> exists z, R z y.
Proof. induction 1 as [x y Hxy|x y z _ _ IH]; [by exists x|done]. Qed.

Lemma not_nil_elem {A} (l : list A) : l <> [] -> exists x, x ∈ l.
Proof. destruct l as [|x l]; [done|]. intros _. exists x. by left. Qed.

Lemma two_elements {A} (l : list A) x y : x ∈ l -> y ∈ l -> x <> y -> (2 <= length l)%nat.
Proof.
  destruct l as [|a l]; [by intros ?%elem_of_nil|]. destruct l as [|b l]; [|simpl; lia].
  intros ->%list_elem_of_singleton ->%list_elem_of_singleton. done.
Qed.

Lemma key_unique {A K} (key : A -> K) (l : list A) x y : NoDup (key <$> l) -> x ∈ l -> y ∈ l -> key x = key y -> x = y.
Proof.
  intros Hnd (i & Hi)%list_elem_of_lookup (j & Hj)%list_elem_of_lookup E.
  assert (i = j); [|congruence]. apply (NoDup_lookup (key <$> l) i j (key x)); [done|by rewrite list_lookup_fmap, Hi|].
  rewrite list_lookup_fmap, Hj. simpl. by f_equal.
Qed.

Section progress.
Context (scaled : IntOrString -> Z -> bool -> option Z) (c : RoleCoordination) (ws : list RoleWorld) (skew : Z).
Hypothesis Hset : forall w, w ∈ ws -> settled_world scaled w.
Hypothesis Hnames : NoDup (wName <$> ws).
Hypothesis Hskew : 0 < skew <= 100.
Let deps := Dependencies c.
Hypothesis Hclosed : forall a b, declared deps a b -> b ∈ wName <$> ws.
Hypothesis Hacyclic : forall x, ~ tc (declared deps) x x.
Let states := stateOf <$> ws.
Let byName := stateByName states.

Lemma state_of w : w ∈ ws -> stateOf w = settledState (wName w) (wReplicas w) (updatedOf w) (wChanged w).
Proof. intros Hw. by eapply stateOf_settled, Hset. Qed.

Lemma updated_range w : w ∈ ws -> 0 <= updatedOf w <= wReplicas w /\ 1 <= wReplicas w <= MaxInt32.
Proof. intros Hw. split; [by eapply updatedOf_range, Hset|by eapply sw_replicas, Hset]. Qed.

Lemma unfinished_changed w : w ∈ ws -> updatedOf w < wReplicas w -> wChanged w = true.
Proof. intros Hw Hlt. destruct (wChanged w) eqn:E; [done|]. pose proof (sw_unchanged _ _ (Hset w Hw) E). lia. Qed.

Lemma states_names : roleName <$> states = wName <$> ws.
Proof.
  unfold states. rewrite <- list_fmap_compose. apply list_fmap_ext. intros i w Hi.
  apply list_elem_of_lookup_2 in Hi. change (roleName (stateOf w) = wName w). by rewrite state_of.
Qed.

Lemma states_ok : Forall state_ok states.
Proof.
  apply Forall_forall. intros s (w & -> & Hw)%list_elem_of_fmap. unfold stateOf.
  apply resolve_state_ok; destruct (updated_range w Hw); try lia.
  rewrite (sw_instances _ _ (Hset w Hw)), settled_population by (lia || by eapply sw_name, Hset).
  split; simpl; [lia|set_solver|by intros o ?%elem_of_nil|constructor].
Qed.

Lemma byName_world w : w ∈ ws -> byName !! wName w = Some (stateOf w).
Proof.
  intros Hw. destruct (stateByName_lookup states) as [H _]; [by rewrite states_names|].
  specialize (H (stateOf w)). rewrite (state_of w Hw) in *. apply H. unfold states. rewrite <- (state_of w Hw).
  by apply list_elem_of_fmap_2.
Qed.

Lemma isOld_world x : isOld byName x = true <-> exists w, w ∈ ws /\ wName w = x /\ updatedOf w < wReplicas w.
Proof.
  destruct (decide (x ∈ wName <$> ws)) as [Hx|Hx].
  - apply list_elem_of_fmap in Hx as (w & -> & Hw). unfold isOld. rewrite byName_world, (state_of w Hw) by done. simpl.
    rewrite Z.ltb_lt. split; [intros; by exists w|]. intros (w' & Hw' & E & Hlt). enough (w' = w) as -> by done.
    by apply (key_unique wName ws).
  - unfold isOld, byName. destruct (stateByName_lookup states) as [_ H]; [by rewrite states_names|].
    rewrite H by (by rewrite states_names). split; [done|]. intros (w & Hw & <- & _). exfalso. apply Hx. by apply list_elem_of_fmap_2.
Qed.

Lemma full_boundary n off : 0 <= n -> 0 <= off -> boundary (fullPopulation n) 0 off = Z.min n off.
Proof.
  intros Hn Hoff. unfold boundary. rewrite full_count by lia. unfold fullPopulation, upperBound. cbn [holes extra end_ last].
  replace (sortedList ∅) with (@nil Z) by done. simpl. repeat case_bool; lia.
Qed.

(** What the limits are for an unfinished role that is not held back. *)
Definition terminalOf (w : RoleWorld) : bool :=
  fullRoleRolloutTailReady states && (Z.max (skewAllowance states skew (stateOf w) - updatedOf w) 0 =? 0)
  && (wReplicas w - updatedOf w =? 1) && bool_decide (oldDirectDependents (wName w) byName (dependentsOf deps) = [])
  && existsb (isOld byName) (at_ (dependenciesOf deps) (wName w)).

Definition deletionsAllowed (w : RoleWorld) : Z :=
  if terminalOf w then 1 else Z.max (skewAllowance states skew (stateOf w) - updatedOf w) 0.

Definition retained (w : RoleWorld) : bool :=
  negb (bool_decide (oldDirectDependents (wName w) byName (dependentsOf deps) = [])).

Lemma unfinished_limits w l blockers : w ∈ ws -> updatedOf w < wReplicas w -> ~ waitingRoot deps states (stateOf w) ->
  roleLimits skew byName (dependenciesOf deps) (dependentsOf deps) (slowestReadyProgress states)
    (progressingRoleCount states) (fullRoleRolloutTailReady states) (stateOf w) = Some (l, blockers) ->
  limitPopulation l = Some (fullPopulation (wReplicas w)) /\ remainingDeletions l = deletionsAllowed w /\
  retainOldReplica l = retained w /\
  effectivePartition l = Z.max (wReplicas w - Z.min (wReplicas w) (updatedOf w + deletionsAllowed w)) (if retained w then 1 else 0).
Proof.
  intros Hw Hlt Hroot. unfold roleLimits.
  assert (Hallow : bool_decide ((if bool_decide (targetState (stateOf w) = targetNotStarted) &&
      bool_decide (at_ (dependentsOf deps) (roleName (stateOf w)) = [])
      then unreadyDependencyClosure (roleName (stateOf w)) byName (dependenciesOf deps) else []) = []) = true).
  { apply not_false_is_true. intros E. apply Hroot. by apply (allow_spec c states). }
  rewrite Hallow. rewrite (allowed_total states skew states_ok Hskew (stateOf w)).
  2: { pose proof states_ok as H. rewrite Forall_forall in H. apply H. unfold states. by apply list_elem_of_fmap_2. }
  destruct (updated_range w Hw) as [H1 H2]. pose proof (unfinished_changed w Hw Hlt) as Hch.
  assert (Hpos : 0 < wReplicas w) by lia.
  assert (HD : 0 <= deletionsAllowed w) by (unfold deletionsAllowed; destruct (terminalOf w); lia).
  set (A := skewAllowance states skew (stateOf w)). rewrite (state_of w Hw). unfold settledState.
  cbn [roleName targetState userPartition totalToUpdate startedCount inProgress versionTotal versionStarted versionOld
       hasOldVersion stablePopulation].
  rewrite Hch, (proj2 (Z.ltb_lt (updatedOf w) (wReplicas w)) Hlt), (proj2 (Z.ltb_lt 0 (wReplicas w)) Hpos).
  cbn [andb mbind option_bind]. fold (retained w). change (0 =? 0) with true. cbn [andb].
  fold A. assert (ED : (if fullRoleRolloutTailReady states && (Z.max (A - updatedOf w) 0 =? 0) && (wReplicas w - updatedOf w =? 1)
    && bool_decide (oldDirectDependents (wName w) byName (dependentsOf deps) = [])
    && existsb (isOld byName) (at_ (dependenciesOf deps) (wName w)) then 1 else Z.max (A - updatedOf w) 0) = deletionsAllowed w) by done.
  rewrite ED.
  intros [= <- _]. cbn [limitPopulation remainingDeletions retainOldReplica effectivePartition].
  clear A ED. split; [done|]. split; [done|]. split; [done|]. rewrite full_boundary; destruct (retained w); lia.
Qed.

(** A role may go on when its allowance is not used up and, if it must keep an
    old replica, it has two. *)
Definition mayGoOn (w : RoleWorld) : Prop :=
  w ∈ ws /\ updatedOf w < wReplicas w /\ ~ waitingRoot deps states (stateOf w) /\
  1 <= deletionsAllowed w /\ (retained w = true -> 2 <= wReplicas w - updatedOf w).

Lemma retained_spec w : retained w = true <-> exists a, declared deps a (wName w) /\ isOld byName a = true.
Proof. unfold retained. apply (old_callers c states skew Hskew). Qed.

(** The slowest role, and what it grants the others. *)
Lemma slowest_world w1 : w1 ∈ ws -> updatedOf w1 < wReplicas w1 ->
  exists w0, w0 ∈ ws /\ wChanged w0 = true /\ updatedOf w0 < wReplicas w0 /\
    (forall w, w ∈ ws -> wChanged w = true -> updatedOf w0 * wReplicas w <= updatedOf w * wReplicas w0) /\
    (forall w k, w ∈ ws -> wChanged w = true -> k < wReplicas w ->
       k * (100 * wReplicas w0) < wReplicas w * (100 * updatedOf w0 + skew * wReplicas w0) ->
       k < skewAllowance states skew (stateOf w)).
Proof.
  intros Hw1 Hlt1. pose proof (unfinished_changed w1 Hw1 Hlt1) as Hc1.
  assert (Hcounts : Forall counts_ok states) by (eapply Forall_impl; [apply states_ok|by intros s []]).
  destruct (slowest_spec states Hcounts) as [Hb Hmin].
  assert (Hpart : forall w, w ∈ ws -> wChanged w = true -> stateOf w ∈ states /\ participant (stateOf w)).
  { intros w Hw Hc. split; [unfold states; by apply list_elem_of_fmap_2|]. rewrite state_of by done.
    destruct (updated_range w Hw). split; simpl; [done|lia]. }
  destruct Hb as [[Hin [Hch _]]|[_ Hnone]]; [|exfalso; destruct (Hpart w1 Hw1 Hc1) as [? ?]; by eapply Hnone].
  unfold states in Hin. apply list_elem_of_fmap in Hin as (w0 & E0 & Hw0). fold states in E0.
  rewrite E0 in Hch, Hmin. rewrite (state_of w0 Hw0) in Hch, Hmin. simpl in Hch. exists w0. split; [done|]. split; [done|].
  assert (Hall : forall w, w ∈ ws -> wChanged w = true -> updatedOf w0 * wReplicas w <= updatedOf w * wReplicas w0).
  { intros w Hw Hc. destruct (Hpart w Hw Hc) as [P1 P2]. specialize (Hmin _ P1 P2). rewrite (state_of w Hw) in Hmin. exact Hmin. }
  destruct (updated_range w0 Hw0), (updated_range w1 Hw1). specialize (Hall w1 Hw1 Hc1) as Hall1.
  split; [nia|]. split; [done|]. intros w k Hw Hc Hk H3. unfold skewAllowance. rewrite E0.
  rewrite (state_of w Hw), (state_of w0 Hw0). simpl. case_match; [|done]. apply allowance_gt; [lia|done|done].
Qed.

Hypothesis Hcapacity : forall a b, a ∈ ws -> b ∈ ws -> declared deps (wName a) (wName b) ->
  wChanged a = true -> wChanged b = true -> 2 <= wReplicas b.
Hypothesis Hratio : forall a b w, a ∈ ws -> b ∈ ws -> w ∈ ws -> declared deps (wName a) (wName b) ->
  wChanged a = true -> wChanged b = true -> wChanged w = true ->
  100 * wReplicas w < wReplicas b * (200 + wReplicas w * skew).

Lemma old_world x : isOld byName x = true -> exists w, w ∈ ws /\ wName w = x /\ updatedOf w < wReplicas w /\ wChanged w = true.
Proof. intros (w & Hw & E & Hlt)%isOld_world. exists w. split_and!; try done. by apply unfinished_changed. Qed.

Lemma not_started_ready w : w ∈ ws -> 0 < updatedOf w -> ~ waitingRoot deps states (stateOf w).
Proof.
  intros Hw Hpos [Ht _]. rewrite (state_of w Hw) in Ht. simpl in Ht. by rewrite (proj2 (Z.ltb_lt 0 (updatedOf w)) Hpos) in Ht.
Qed.

(** A role that has not started any replica is held back, or may go on. *)
Lemma fresh_goes_on w0 : w0 ∈ ws -> wChanged w0 = true -> updatedOf w0 = 0 ->
  (forall w k, w ∈ ws -> wChanged w = true -> k < wReplicas w ->
     k * (100 * wReplicas w0) < wReplicas w * (100 * updatedOf w0 + skew * wReplicas w0) ->
     k < skewAllowance states skew (stateOf w)) ->
  forall w, w ∈ ws -> wChanged w = true -> updatedOf w = 0 -> ~ waitingRoot deps states (stateOf w) -> mayGoOn w.
Proof.
  intros Hw0 Hc0 E0 Hallow w Hw Hc E Hroot. destruct (updated_range w Hw), (updated_range w0 Hw0).
  assert (HA : 0 < skewAllowance states skew (stateOf w)) by (apply Hallow; [done|done|lia|rewrite E0; nia]).
  split; [done|]. split; [lia|]. split; [done|].
  split; [unfold deletionsAllowed; destruct (terminalOf w); lia|].
  intros (a & Hd & Ha)%retained_spec. destruct (old_world a Ha) as (v & Hv & <- & _ & Hcv).
  pose proof (Hcapacity v w Hv Hw Hd Hcv Hc). lia.
Qed.

(** Following the old callers upwards ends at one that has none. *)
Lemma climb k : forall (V : gset string) x, (size (list_to_set (wName <$> ws) ∖ V : gset string) <= k)%nat ->
  isOld byName x = true -> (exists d, declared deps x d /\ isOld byName d = true) ->
  (forall v, v ∈ V -> v = x \/ tc (declared deps) x v) -> x ∈ V ->
  exists y, isOld byName y = true /\ (exists d, declared deps y d /\ isOld byName d = true) /\
    forall a, declared deps a y -> isOld byName a = false.
Proof.
  induction k as [|k IH]; intros V x Hk Hx Hd HV HxV.
  all: destruct (decide (filter (fun a => isOld byName a = true) (at_ (dependentsOf deps) x) = [])) as [E|E];
    [exists x; split; [done|]; split; [done|]; intros a Ha; apply not_true_is_false; intros Hold;
     assert (Hin : a ∈ filter (fun a => isOld byName a = true) (at_ (dependentsOf deps) x))
       by (apply list_elem_of_filter; split; [done|by apply dependentsOf_spec]); rewrite E in Hin; by apply elem_of_nil in Hin|].
  all: apply not_nil_elem in E as [a [Hold Ha]%list_elem_of_filter]; rewrite dependentsOf_spec in Ha.
  all: assert (HaV : a ∉ V) by (intros Hin; destruct (HV a Hin) as [->|Hr];
    [by apply (Hacyclic x), tc_once|apply (Hacyclic x); eapply tc_r; done]).
  all: destruct (old_world a Hold) as (w & Hw & Ew & _).
  all: assert (Hin : a ∈ (list_to_set (wName <$> ws) ∖ V : gset string))
    by (apply elem_of_difference; split; [apply elem_of_list_to_set; rewrite <- Ew; by apply list_elem_of_fmap_2|done]).
  - exfalso. assert (Hne : size (list_to_set (wName <$> ws) ∖ V : gset string) = 0%nat) by lia.
    apply size_empty_inv in Hne. apply Hne in Hin. by apply not_elem_of_empty in Hin.
  - apply (IH ({[a]} ∪ V) a).
    + assert (size (list_to_set (wName <$> ws) ∖ ({[a]} ∪ V) : gset string) < size (list_to_set (wName <$> ws) ∖ V : gset string))%nat; [|lia].
      apply subset_size. clear - Hin. generalize dependent (list_to_set (wName <$> ws) : gset string). intros N Hin. set_solver.
    + done.
    + by exists x.
    + intros v [->%elem_of_singleton|Hv]%elem_of_union; [by left|right].
      destruct (HV v Hv) as [->|Hr]; [by apply tc_once|by eapply tc_l].
    + apply elem_of_union. left. by apply elem_of_singleton.
Qed.

(** When every unfinished role is down to its last old instance, the terminal
    rounding step is open. *)
Lemma tail_ready w0 w1 : w0 ∈ ws -> w1 ∈ ws -> wName w0 <> wName w1 -> wChanged w0 = true -> wChanged w1 = true ->
  (forall w, w ∈ ws -> wChanged w = true -> wReplicas w - updatedOf w <= 1) ->
  fullRoleRolloutTailReady states = true.
Proof.
  intros H0 H1 Hne C0 C1 Hall. unfold fullRoleRolloutTailReady. apply andb_true_iff. split.
  - apply forallb_forall. intros s Hs. apply list_elem_of_In, list_elem_of_filter in Hs as [_ (w & -> & Hw)%list_elem_of_fmap].
    rewrite (state_of w Hw). simpl. destruct (wChanged w) eqn:Ec; [|done]. simpl.
    pose proof (Hall w Hw Ec). destruct (updated_range w Hw).
    rewrite (proj2 (Z.ltb_ge 1 (wReplicas w - updatedOf w))), Z.eqb_refl by lia.
    by rewrite (proj2 (Z.eqb_eq (updatedOf w + (wReplicas w - updatedOf w)) (wReplicas w))) by lia.
  - apply Z.ltb_lt. set (l := filter _ (filter _ states)).
    assert (Hin : forall w, w ∈ ws -> wChanged w = true -> stateOf w ∈ l).
    { intros w Hw Hc. unfold l. rewrite !list_elem_of_filter. split; [by rewrite (state_of w Hw)|].
      split; [rewrite (state_of w Hw); simpl; destruct (updated_range w Hw); lia|]. unfold states. by apply list_elem_of_fmap_2. }
    assert (Hd : stateOf w0 <> stateOf w1) by (rewrite (state_of w0 H0), (state_of w1 H1); intros E; apply Hne; exact (f_equal roleName E)).
    pose proof (two_elements l (stateOf w0) (stateOf w1) (Hin w0 H0 C0) (Hin w1 H1 C1) Hd). lia.
Qed.

Lemma some_role_goes_on w1 : w1 ∈ ws -> updatedOf w1 < wReplicas w1 -> exists w, mayGoOn w.
Proof.
  intros Hw1 Hlt1. destruct (slowest_world w1 Hw1 Hlt1) as (w0 & Hw0 & Hc0 & Hlt0 & Hmin & Hallow).
  destruct (updated_range w0 Hw0) as [R0 N0].
  assert (Hslow : updatedOf w0 < skewAllowance states skew (stateOf w0)) by (apply Hallow; [done|done|lia|nia]).
  destruct (Z.eq_dec (updatedOf w0) 0) as [E0|E0].
  { pose proof (fresh_goes_on w0 Hw0 Hc0 E0 Hallow) as Hfresh.
    destruct (bool_decide ((if bool_decide (targetState (stateOf w0) = targetNotStarted) &&
      bool_decide (at_ (dependentsOf deps) (roleName (stateOf w0)) = [])
      then unreadyDependencyClosure (roleName (stateOf w0)) byName (dependenciesOf deps) else []) = [])) eqn:Eg.
    - exists w0. apply Hfresh; [done..|]. intros Hroot. apply (allow_spec c states) in Hroot. unfold byName, deps in Eg. congruence.
    - apply (allow_spec c states) in Eg as (_ & _ & d & Hd & Hn).
      apply tc_ind_r_last in Hd as (a & Had). pose proof (Hclosed _ _ Had) as (w & -> & Hw)%list_elem_of_fmap.
      unfold notReady in Hn. fold byName in Hn. rewrite (byName_world w Hw), (state_of w Hw) in Hn. simpl in Hn.
      destruct (updated_range w Hw). assert (E : updatedOf w = 0) by (destruct (Z.ltb_spec 0 (updatedOf w)); [done|lia]).
      exists w. apply Hfresh; try done; [apply unfinished_changed; [done|lia]|].
      intros (_ & Hroot & _). apply (Hroot a). by rewrite (state_of w Hw). }
  assert (Hstarted : forall w, w ∈ ws -> wChanged w = true -> 0 < updatedOf w).
  { intros w Hw Hc. specialize (Hmin w Hw Hc). destruct (updated_range w Hw). nia. }
  assert (Hgo : forall w, w ∈ ws -> wChanged w = true -> updatedOf w < wReplicas w ->
    updatedOf w < skewAllowance states skew (stateOf w) -> (retained w = true -> 2 <= wReplicas w - updatedOf w) -> mayGoOn w).
  { intros w Hw Hc Hlt HA Hret. split; [done|]. split; [done|]. split; [by apply not_started_ready; [|apply Hstarted]|].
    split; [unfold deletionsAllowed; destruct (terminalOf w); lia|done]. }
  destruct (retained w0) eqn:Er; [|exists w0; apply Hgo; try done; congruence]. destruct (Z.le_gt_cases 2 (wReplicas w0 - updatedOf w0)) as [H2|H2];
    [exists w0; by apply Hgo|].
  apply retained_spec in Er as (a & Had & Haold). destruct (old_world a Haold) as (wa & Hwa & <- & _ & Hca).
  assert (Hnear : forall w, w ∈ ws -> wChanged w = true -> wReplicas w - 2 < skewAllowance states skew (stateOf w)).
  { intros w Hw Hc. apply Hallow; [done|done|lia|].
    pose proof (Hratio wa w0 w Hwa Hw0 Hw Had Hca Hc0 Hc). replace (updatedOf w0) with (wReplicas w0 - 1) by lia. nia. }
  destruct (decide (Exists (fun w => wChanged w = true /\ 2 <= wReplicas w - updatedOf w) ws)) as [(w & Hw & Hc & Hold)%Exists_exists|Hnone].
  { exists w. apply Hgo; try done; [lia|]. specialize (Hnear w Hw Hc). lia. }
  destruct (climb (size (list_to_set (wName <$> ws) ∖ {[wName wa]} : gset string)) {[wName wa]} (wName wa))
    as (y & Hy & (d & Hyd & Hd) & Hfree); [done|done| |set_solver|set_solver|].
  { exists (wName w0). split; [done|]. apply isOld_world. by exists w0. }
  destruct (old_world y Hy) as (w & Hw & <- & Hlt & Hc). exists w.
  assert (Hone : forall v, v ∈ ws -> wChanged v = true -> wReplicas v - updatedOf v <= 1).
  { intros v Hv Hcv. destruct (Z.le_gt_cases (wReplicas v - updatedOf v) 1); [done|]. exfalso. apply Hnone, Exists_exists. exists v. split_and!; [done|done|lia]. }
  pose proof (Hone w Hw Hc). pose proof (Hnear w Hw Hc).
  assert (Hnil : oldDirectDependents (wName w) byName (dependentsOf deps) = []).
  { apply (bool_decide_unpack (oldDirectDependents (wName w) byName (dependentsOf deps) = [])), Is_true_true.
    apply (oldDependents_nil c states skew Hskew). intros b Hb. by apply Hfree. }
  assert (Hne : wName w0 <> wName w).
  { intros E. rewrite <- E in Hfree. by rewrite (Hfree _ Had) in Haold. }
  split; [done|]. split; [done|]. split; [by apply not_started_ready; [|apply Hstarted]|].
  assert (Hret : retained w = false) by (unfold retained; by rewrite bool_decide_true).
  split; [|by rewrite Hret]. unfold deletionsAllowed. destruct (terminalOf w) eqn:Et; [done|].
  destruct (Z.le_gt_cases 1 (Z.max (skewAllowance states skew (stateOf w) - updatedOf w) 0)); [done|].
  exfalso. enough (terminalOf w = true) by congruence. unfold terminalOf.
  rewrite (tail_ready w0 w Hw0 Hw Hne Hc0 Hc Hone), (bool_decide_true _ Hnil), (proj2 (Z.eqb_eq _ 0)) by lia.
  rewrite (proj2 (Z.eqb_eq (wReplicas w - updatedOf w) 1)) by lia. simpl. apply existsb_exists. exists d.
  split; [|done]. by apply list_elem_of_In, dependenciesOf_spec.
Qed.
End progress.

(** ** Rounds to the end *)

Record rollout_ok (scaled : IntOrString -> Z -> bool -> option Z) (c : RoleCoordination) (skew : Z) (ws : list RoleWorld) : Prop := {
  ro_settled : forall w, w ∈ ws -> settled_world scaled w;
  ro_names : NoDup (wName <$> ws);
  ro_skew : parseMaxSkewPercent (MaxSkew c) = Some skew;
  ro_closed : forall a b, declared (Dependencies c) a b -> b ∈ wName <$> ws;
  ro_acyclic : forall x, ~ tc (declared (Dependencies c)) x x;
  ro_capacity : forall a b, a ∈ ws -> b ∈ ws -> declared (Dependencies c) (wName a) (wName b) ->
    wChanged a = true -> wChanged b = true -> 2 <= wReplicas b;
  ro_ratio : forall a b w, a ∈ ws -> b ∈ ws -> w ∈ ws -> declared (Dependencies c) (wName a) (wName b) ->
    wChanged a = true -> wChanged b = true -> wChanged w = true ->
    100 * wReplicas w < wReplicas b * (200 + wReplicas w * skew)
}.

(** The replacements that are left. *)
Definition toReplace (ws : list RoleWorld) : Z := sumZ ((fun w => wReplicas w - updatedOf w) <$> ws).

Lemma sumZ_fmap_lt {A} (f g : A -> Z) l x : x ∈ l -> (forall y, y ∈ l -> f y <= g y) -> f x < g x ->
  sumZ (f <$> l) < sumZ (g <$> l).
Proof.
  induction l as [|a l IH]; [by intros ?%elem_of_nil|]. intros Hx Hle Hlt. rewrite !sumZ_cons.
  assert (Hl : sumZ (f <$> l) <= sumZ (g <$> l)) by (apply sumZ_fmap_le; intros; apply Hle; by right).
  pose proof (Hle a ltac:(by left)). apply elem_of_cons in Hx as [->|Hx]; [lia|].
  specialize (IH Hx ltac:(intros; apply Hle; by right) Hlt). lia.
Qed.

Lemma advance_settled scaled policy w : settled_world scaled w ->
  let w' := advance scaled policy w in
  settled_world scaled w' /\ updatedOf w <= updatedOf w' /\
  (forall l, policyRoles policy !! wName w = Some l -> limitPopulation l = Some (fullPopulation (wReplicas w)) ->
     updatedOf w < wReplicas w -> 1 <= remainingDeletions l -> effectivePartition l <= wReplicas w - updatedOf w - 1 ->
     (retainOldReplica l = true -> 2 <= wReplicas w - updatedOf w) -> updatedOf w < updatedOf w').
Proof.
  intros Hw w'. pose proof (updatedOf_range scaled w Hw) as Hr. pose proof Hw as [Hname Hn Hi Hu (u & Hu1 & Hu2)].
  destruct (settled_deletions scaled (wName w) (wReplicas w) (updatedOf w) Hname Hr Hn (wMaxUnavailable w) u
    (policyRoles policy !! wName w) Hu1 Hu2) as (k & Hk & E & Hgo).
  assert (Ei : wInstances w' = instancesAt (wName w) (wReplicas w) (updatedOf w + Z.of_nat k)).
  { unfold w', advance. cbn [wInstances]. unfold deletionsOf. rewrite Hi at 1. rewrite E. cbn [app].
    rewrite Hi. by apply recreate_settled. }
  assert (Eu : updatedOf w' = updatedOf w + Z.of_nat k).
  { unfold updatedOf at 1. rewrite Ei. apply updated_settled. lia. }
  split; [|rewrite Eu; split; [lia|]].
  - split; [done|done|by rewrite Eu| |by exists u]. intros Hc. rewrite Eu. cbn [w' advance wChanged wReplicas] in *.
    specialize (Hu Hc). change (wReplicas w') with (wReplicas w). lia.
  - intros l Hl Hpop Hlt Hrem Heff Hret. specialize (Hgo l Hl Hpop Hlt Hrem Heff Hret). lia.
Qed.

Lemma round_progress scaled c skew ws : rollout_ok scaled c skew ws ->
  exists ws', round scaled c ws = Some ws' /\ rollout_ok scaled c skew ws' /\
    (finished ws \/ toReplace ws' < toReplace ws).
Proof.
  intros [H1 H2 H3 H4 H5 H6 H7]. pose proof (parseMaxSkewPercent_range _ _ H3) as Hskew.
  pose proof (states_ok scaled c ws skew H1 H2 Hskew H4 H5) as Hok.
  assert (Hnd : NoDup (roleName <$> (stateOf <$> ws))) by (by rewrite (states_names scaled ws H1)).
  unfold round, calculateRoleRolloutLimits. rewrite H3. set (limitsOf := roleLimits _ _ _ _ _ _ _).
  destruct (limitsLoop_spec limitsOf (stateOf <$> ws) (MkPolicy ∅ None false) Hnd) as (policy & -> & Hlim & _).
  { intros s Hs. destruct (roleLimits_safe c (stateOf <$> ws) skew Hok Hnd Hskew s Hs) as (l & b & E & _). by exists l, b. }
  cbn [fmap option_fmap option_map]. eexists. split; [reflexivity|].
  assert (Hadv : forall w', w' ∈ advance scaled policy <$> ws -> exists w, w ∈ ws /\ w' = advance scaled policy w).
  { intros w' (w & -> & Hw)%list_elem_of_fmap. by exists w. }
  split.
  - assert (En : wName <$> (advance scaled policy <$> ws) = wName <$> ws) by (by rewrite <- list_fmap_compose).
    split; try done.
    + intros w' (w & Hw & ->)%Hadv. by apply advance_settled, H1.
    + by rewrite En.
    + by rewrite En.
    + intros a' b' (a & Ha & ->)%Hadv (b & Hb & ->)%Hadv. exact (H6 a b Ha Hb).
    + intros a' b' w' (a & Ha & ->)%Hadv (b & Hb & ->)%Hadv (w & Hw & ->)%Hadv. exact (H7 a b w Ha Hb Hw).
  - destruct (decide (Exists (fun w => updatedOf w < wReplicas w) ws)) as [(w1 & Hw1 & Hlt1)%Exists_exists|Hnone].
    + right. destruct (some_role_goes_on scaled c ws skew H1 H2 Hskew H4 H5 H6 H7 w1 Hw1 Hlt1)
        as (w & Hw & Hlt & Hroot & Hdel & Hret).
      destruct (Hlim (stateOf w)) as (l & b & E & Hl); [by apply list_elem_of_fmap_2|].
      destruct (unfinished_limits scaled c ws skew H1 H2 Hskew H4 H5 w l b Hw Hlt Hroot E) as (L1 & L2 & L3 & L4).
      assert (Hgrow : updatedOf w < updatedOf (advance scaled policy w)).
      { destruct (advance_settled scaled policy w (H1 w Hw)) as (_ & _ & Hg). apply (Hg l); try done.
        - lia.
        - rewrite L4. destruct (retained c ws w) eqn:Er; [specialize (Hret eq_refl)|]; lia.
        - by rewrite L3. }
      unfold toReplace. rewrite <- list_fmap_compose. apply sumZ_fmap_lt with w; [done| |].
      * intros v Hv. unfold compose. destruct (advance_settled scaled policy v (H1 v Hv)) as (_ & Hle & _).
        cbn [advance wReplicas] in *. lia.
      * unfold compose. cbn [advance wReplicas] in *. lia.
    + left. intros w r Hw Hr. rewrite (sw_instances _ _ (H1 w Hw)) in Hr.
      assert (Hge : ~ updatedOf w < wReplicas w) by (intros Hlt; apply Hnone, Exists_exists; by exists w).
      apply list_elem_of_fmap in Hr as (i & -> & Hi%elem_of_seqZ). unfold instanceAt. simpl.
      by rewrite (proj2 (Z.ltb_ge i (wReplicas w - updatedOf w))) by lia.
Qed.

Lemma toReplace_nonneg scaled ws : (forall w, w ∈ ws -> settled_world scaled w) -> 0 <= toReplace ws.
Proof. intros Hs. apply sumZ_fmap_nonneg. intros w Hw. pose proof (updatedOf_range scaled w (Hs w Hw)). lia. Qed.

Lemma rounds_complete scaled c skew k : forall ws, rollout_ok scaled c skew ws -> toReplace ws <= Z.of_nat k ->
  exists j ws', Z.of_nat j <= toReplace ws /\ rounds scaled j c ws = Some ws' /\ rollout_ok scaled c skew ws' /\ finished ws'.
Proof.
  induction k as [|k IH]; intros ws Hok Hk; pose proof (toReplace_nonneg scaled ws (ro_settled _ _ _ _ Hok));
    destruct (round_progress scaled c skew ws Hok) as (ws1 & E & Hok1 & [Hfin|Hlt]);
    try (exists O, ws; split_and!; [lia|done..]).
  - pose proof (toReplace_nonneg scaled ws1 (ro_settled _ _ _ _ Hok1)). lia.
  - destruct (IH ws1 Hok1 ltac:(lia)) as (j & ws2 & Hj & E2 & Hok2 & Hfin). exists (S j), ws2.
    split_and!; [lia| |done|done]. cbn [rounds]. by rewrite E.
Qed.

(** What the update asks of a role: the same number of replicas, no partition, and
    a new template or not. *)
Definition describes {T} (equalBody : T -> T -> bool) (oldMS newMS : ModelServing (T := T)) (w : RoleWorld) : Prop :=
  let oldRoles := roleSpecsByName (TemplateRoles oldMS) in
  let newRoles := roleSpecsByName (TemplateRoles newMS) in
  templateChanged equalBody oldRoles newRoles (wName w) = wChanged w /\
  exists o n, oldRoles !! wName w = Some o /\ newRoles !! wName w = Some n /\ templatePartition n = None /\
    replicasOrDefault (templateReplicas o) = wReplicas w /\ replicasOrDefault (templateReplicas n) = wReplicas w.

Section completes.
Context {T : Type} (equalBody : T -> T -> bool).
Context (percentErrors : string -> list string) (iterate : gset string -> list string).
Context (scaled : IntOrString -> Z -> bool -> option Z).
Hypothesis iterate_perm : forall s, iterate s ≡ₚ elements s.
Hypothesis percent_suffix : forall s, percentErrors s = [] -> exists t, s = (t ++ "%")%string.

Lemma accepted_two oldMS newMS c ws :
  roleCoordination newMS = Some c -> validateRoleCoordinationUpdate equalBody scaled iterate (Some oldMS) newMS = [] ->
  list_to_set (wName <$> ws) = coordinatedSet (templateName <$> TemplateRoles newMS) c ->
  (forall w, w ∈ ws -> describes equalBody oldMS newMS w) ->
  forall a b, a ∈ ws -> b ∈ ws -> declared (Dependencies c) (wName a) (wName b) ->
    wChanged a = true -> wChanged b = true -> 2 <= wReplicas b.
Proof.
  intros Hc Hu Hn Hw a b Ha Hb Hab Ca Cb. destruct (Hw a Ha) as (Ta & oa & na & Oa & Na & _). destruct (Hw b Hb) as (Tb & ob & nb & Ob & Nb & Pb & Ro & Rn).
  destruct (roleSpecsByName_spec _ _ _ Nb) as [En Hin].
  set (newRoles := roleSpecsByName (TemplateRoles newMS)) in *. set (oldRoles := roleSpecsByName (TemplateRoles oldMS)) in *.
  assert (Hsel : forall w, w ∈ ws -> is_Some (newRoles !! wName w) -> wName w ∈ selectedRoleNames c newRoles).
  { intros w Hws Hsome. assert (Hin' : wName w ∈ coordinatedSet (templateName <$> TemplateRoles newMS) c).
    { rewrite <- Hn. apply elem_of_list_to_set, list_elem_of_fmap. by exists w. }
    unfold selectedRoleNames, coordinatedSet in *. destruct (CoordinatedRoles c) as [|r l]; [by apply elem_of_dom|].
    apply elem_of_list_to_set, list_elem_of_filter. split; [done|by apply elem_of_list_to_set in Hin']. }
  pose proof (accepted_capacity equalBody scaled iterate iterate_perm oldMS newMS c nb Hc Hu Hin Pb) as Hcap. cbv zeta in Hcap.
  fold newRoles oldRoles in Hcap. rewrite En, Ob, Ro, Rn in Hcap. destruct Hcap as [?|?]; [|lia|lia].
  split; [by rewrite Tb|]. exists (wName a). split_and!; [|by rewrite Ta|by exists oa].
  split_and!; [by apply Hsel|by apply Hsel|done].
Qed.

Lemma admitted_ok oldMS newMS c ws :
  roleCoordination newMS = Some c ->
  validateRoleCoordination percentErrors iterate true (templateName <$> TemplateRoles newMS) (Some c) = Some [] ->
  validateRoleCoordinationUpdate equalBody scaled iterate (Some oldMS) newMS = [] ->
  list_to_set (wName <$> ws) = coordinatedSet (templateName <$> TemplateRoles newMS) c ->
  (forall w, w ∈ ws -> settled_world scaled w /\ describes equalBody oldMS newMS w) -> NoDup (wName <$> ws) ->
  (forall a b w skew, a ∈ ws -> b ∈ ws -> w ∈ ws -> declared (Dependencies c) (wName a) (wName b) ->
     wChanged a = true -> wChanged b = true -> wChanged w = true -> parseMaxSkewPercent (MaxSkew c) = Some skew ->
     100 * wReplicas w < wReplicas b * (200 + wReplicas w * skew)) ->
  exists skew, rollout_ok scaled c skew ws.
Proof.
  intros Hc Hv Hu Hn Hs Hd Hratio.
  destruct (coordination_errors percentErrors iterate iterate_perm true (templateName <$> TemplateRoles newMS) c) as (errs & E & H).
  rewrite Hv in E. injection E as <-. destruct (proj1 H eq_refl) as [_ Hskew _ _ _ Hdeps Hacy].
  apply validateMaxSkew_nil in Hskew. destruct (admitted_skew percentErrors percent_suffix _ Hskew) as [skew Es].
  exists skew. split; try done.
  - intros w Hw. by apply Hs.
  - intros a b (d & Hin & <- & Hb). destruct (Hdeps d Hin) as (_ & _ & _ & Hsel). specialize (Hsel b Hb).
    rewrite <- Hn in Hsel. by apply elem_of_list_to_set in Hsel.
  - apply (accepted_two oldMS newMS); try done. intros w Hw. by apply Hs.
  - intros a b w Ha Hb Hw Hab Ca Cb Cw. by apply (Hratio a b w).
Qed.

(** C1: a rollout that admission accepts ends, if the sizes of its roles
    allow it. For one group of a serving whose update changes templates only,
    without a user partition, let the validation of the coordination and that of
    the update report no error, every role have a budget for one unavailable
    instance, and the group be settled: the instances 0 to n-1 of every role run,
    the highest of them updated. The cluster recreates what each round deletes.
    Suppose that no changed role is so much larger than a changed dependency of
    a changed caller that the dependency's last replica but one leaves the skew
    short of the role's last two ([small_dependency_blocks] is a rollout that
    admission accepts and that stops for ever without this). Then at most as
    many rounds as there are instances to replace leave no instance on the old
    template: the skew, the dependencies and the old replicas retained for the
    callers never block each other. That such a dependency has two replicas at
    least is what the validation of the update makes sure of. *)
Theorem coordinated_rollout_completes oldMS newMS c ws :
  roleCoordination newMS = Some c ->
  validateRoleCoordination percentErrors iterate true (templateName <$> TemplateRoles newMS) (Some c) = Some [] ->
  validateRoleCoordinationUpdate equalBody scaled iterate (Some oldMS) newMS = [] ->
  list_to_set (wName <$> ws) = coordinatedSet (templateName <$> TemplateRoles newMS) c ->
  (forall w, w ∈ ws -> settled_world scaled w /\ describes equalBody oldMS newMS w) -> NoDup (wName <$> ws) ->
  (forall a b w skew, a ∈ ws -> b ∈ ws -> w ∈ ws -> declared (Dependencies c) (wName a) (wName b) ->
     wChanged a = true -> wChanged b = true -> wChanged w = true -> parseMaxSkewPercent (MaxSkew c) = Some skew ->
     100 * wReplicas w < wReplicas b * (200 + wReplicas w * skew)) ->
  exists k ws', Z.of_nat k <= toReplace ws /\ rounds scaled k c ws = Some ws' /\ finished ws'.
Proof.
  intros Hc Hv Hu Hn Hs Hd Hratio. destruct (admitted_ok oldMS newMS c ws Hc Hv Hu Hn Hs Hd Hratio) as [skew Hok].
  destruct (rounds_complete scaled c skew (Z.to_nat (toReplace ws)) ws Hok) as (k & ws' & Hk & E & _ & Hf).
  - pose proof (toReplace_nonneg scaled ws (fun w Hw => proj1 (Hs w Hw))). lia.
  - by exists k, ws'.
Qed.
End completes.

(** *** Concrete rollouts *)

Definition countsOnly (v : IntOrString) (n : Z) (up : bool) : option Z :=
  match v with IntVal k => Some k | StrVal _ => None end.
Definition worldAt (name : string) (n r : Z) : RoleWorld := MkRoleWorld name n true (IntVal 1) (instancesAt name n r).

Lemma worldAt_settled name n r : name_ok name -> 0 <= r <= n -> 1 <= n <= MaxInt32 -> settled_world countsOnly (worldAt name n r).
Proof.
  intros Hname Hr Hn. split; [done|done| |done|by exists 1]. unfold updatedOf. simpl. by rewrite updated_settled.
Qed.

(** Prefill, decode and fff of the proposal, at 8, 4 and 10 replicas. *)
Definition proposal_worlds : list RoleWorld := [worldAt "prefill" 8 0; worldAt "decode" 4 0; worldAt "fff" 10 0].

(** The update that gives all three a new template. *)
Definition proposal_serving (body : string) : ModelServing :=
  MkModelServing true (Some proposal)
    [MkTemplateRole "prefill" (Some 8) None body; MkTemplateRole "decode" (Some 4) None body; MkTemplateRole "fff" (Some 10) None body] 1 1 None.

Lemma coordinated_rollout_completes_witness :
  exists k ws', Z.of_nat k <= 22 /\ rounds countsOnly k proposal proposal_worlds = Some ws' /\ finished ws'.
Proof.
  apply (coordinated_rollout_completes String.eqb isValidPercent elements countsOnly (fun s => reflexivity _) isValidPercent_suffix
           (proposal_serving "old") (proposal_serving "new") proposal proposal_worlds).
  - reflexivity.
  - vm_compute. reflexivity.
  - vm_compute. reflexivity.
  - vm_compute. reflexivity.
  - assert (Hd : forall name n r b b', roleSpecsByName (TemplateRoles (proposal_serving b)) !! name = Some (MkTemplateRole name (Some n) None b) ->
      roleSpecsByName (TemplateRoles (proposal_serving b')) !! name = Some (MkTemplateRole name (Some n) None b') -> b <> b' ->
      describes String.eqb (proposal_serving b) (proposal_serving b') (worldAt name n r)).
    { intros name n r b b' Eb Eb' Hb. split; [|by eexists _, _]. unfold templateChanged, worldAt, wName. rewrite Eb, Eb'.
      unfold EqualRoleTemplateForRevision. simpl. by rewrite (proj2 (String.eqb_neq b b') Hb), andb_false_r. }
    intros w Hw. unfold proposal_worlds in Hw. repeat (apply elem_of_cons in Hw as [->|Hw]);
      [split; [apply worldAt_settled; [unfold name_ok; apply (bool_decide_unpack _); vm_compute; exact I|unfold MaxInt32; lia..]|by apply Hd]..|by apply elem_of_nil in Hw].
  - apply (bool_decide_unpack (NoDup (wName <$> proposal_worlds))). vm_compute. exact I.
  - intros a b w skew Ha Hb Hw _ _ _ _ Es. assert (skew = 10) as -> by (vm_compute in Es; congruence).
    unfold proposal_worlds in Hb, Hw. repeat (apply elem_of_cons in Hb as [->|Hb]); [..|by apply elem_of_nil in Hb];
      (repeat (apply elem_of_cons in Hw as [->|Hw]); [simpl; lia..|by apply elem_of_nil in Hw]).
Defined.

(** The condition on the sizes is needed: an admitted coordination and update of a caller
    of 8 replicas and a dependency of 2, at a skew of 10%, blocks with one of
    the dependency's replicas and three of the caller's on the old template. The
    dependency keeps its last old replica for the caller, the caller is at
    the skew's limit, and the terminal rounding step waits for every role to be
    at its last old replica. *)
Definition small_dependency : RoleCoordination :=
  MkCoordination [] (Some (StrVal "10%")) [MkDependency "caller" ["callee"]].

Definition small_serving (body : string) : ModelServing :=
  MkModelServing true (Some small_dependency) [MkTemplateRole "caller" (Some 8) None body; MkTemplateRole "callee" (Some 2) None body] 1 1 None.

Lemma small_dependency_blocks :
  validateRoleCoordination isValidPercent elements true ["caller"; "callee"]%string (Some small_dependency) = Some [] /\
  validateRoleCoordinationUpdate String.eqb countsOnly elements (Some (small_serving "old")) (small_serving "new") = [] /\
  rounds countsOnly 6 small_dependency [worldAt "callee" 2 0; worldAt "caller" 8 0] =
    Some [worldAt "callee" 2 1; worldAt "caller" 8 5] /\
  round countsOnly small_dependency [worldAt "callee" 2 1; worldAt "caller" 8 5] =
    Some [worldAt "callee" 2 1; worldAt "caller" 8 5].
Proof. vm_compute. split_and!; reflexivity. Qed.
