(* ===== verification/RouteStore.v ===== *)
(** * pkg/kthena-router/datastore/store.go: model routes

    The routes of the router: an index by base model, one by LoRA adapter, one
    by gateway, the cache of compiled patterns and the names that have a
    waiting queue. Every operation is one step under the store's mutex;
    callbacks and log lines are left out. Pointers of the API objects that the
    API server never leaves nil (rules, string matches) are their contents. *)
From Stdlib Require Import Ascii String.
From stdpp Require Import sorting.
From S2P Require Import Prelude.
Local Open Scope Z_scope.
Local Open Scope go_scope.

(** ** Data *)

Record ParentReference := MkParent {
  Group : option string;
  Kind : option string;
  ParentNamespace : option string;
  ParentName : string;
  SectionName : option string
}.

Record StringMatch := MkMatch { Exact : option string; Prefix : option string; Regex : option string }.

(** [Headers]: the map in the order it is iterated. *)
Record ModelMatch := MkModelMatch {
  Headers : list (string * StringMatch);
  Uri : option StringMatch;
  Body : option (option string)
}.

Record TargetModel := MkTarget {
  ModelServerName : string;
  ExternalModelProviderName : string;
  Weight : option Z
}.

Record Rule := MkRule { Matching : option ModelMatch; TargetModels : list (option TargetModel) }.

Record ModelRoute := MkRoute {
  RouteNamespace : string;
  RouteName : string;
  CreationTimestamp : Z;
  ResourceVersion : string;
  ModelName : string;
  LoraAdapters : list string;
  ParentRefs : list ParentReference;
  Rules : list Rule
}.

Definition key (namespace name : string) : string := (namespace ++ "/" ++ name)%string.
Definition routeKey (r : ModelRoute) : string := key (RouteNamespace r) (RouteName r).

(** ** [sortModelRoutesInPlace] *)

Definition routeLess (a b : ModelRoute) : bool :=
  if negb (CreationTimestamp a =? CreationTimestamp b) then CreationTimestamp a <? CreationTimestamp b
  else if negb (bool_decide (ResourceVersion a = ResourceVersion b))
       then String.ltb (ResourceVersion a) (ResourceVersion b)
       else String.ltb (routeKey a) (routeKey b).

Definition notAfter (a b : ModelRoute) : Prop := routeLess b a = false.
#[global] Instance notAfter_dec : RelDecision notAfter := fun a b => decide (routeLess b a = false).

(** The order is total on distinct keys: every sort gives the same list. *)
Definition sortModelRoutes (l : list ModelRoute) : list ModelRoute := merge_sort notAfter l.

(** ** The store *)

Record Gateway := MkGateway { GatewayNamespace : string; GatewayName : string; Listeners : list string }.

Abbreviation index := (gmap string (list ModelRoute)).

Section store.
Context {Compiled : Type}.

Record routeStore := MkStore {
  routeInfo : gmap string (string * list string);
  routes : index;
  loraRoutes : index;
  gatewayModelRoutes : gmap string (gset string);
  gateways : gmap string Gateway;
  regexCache : gmap string (option Compiled);
  requestWaitingQueue : gset string
}.

Definition NewStore : routeStore := MkStore ∅ ∅ ∅ ∅ ∅ ∅ ∅.

Definition at_name (m : index) (name : string) : list ModelRoute := default [] (m !! name).

(** One list of an index without the route of a key: the index, the routes
    dropped, and the name when its list is gone. *)
Definition removeFrom (k : string) (m : index) (name : string) : index * list ModelRoute * list string :=
  let l := at_name m name in
  let newRoutes := filter (fun r => routeKey r <> k) l in
  let dropped := filter (fun r => routeKey r = k) l in
  match newRoutes with
  | [] => (delete name m, dropped, [name])
  | _ => (<[name := newRoutes]> m, dropped, [])
  end.

Definition removeBase (k : string) (m : index) (model : string) : index * list ModelRoute * list string :=
  if bool_decide (model = ""%string) then (m, [], []) else removeFrom k m model.

(** The loop over the LoRA adapters. *)
Fixpoint removeLoras (k : string) (m : index) (loras : list string) (deleted : option ModelRoute)
    (candidates : list string) : index * option ModelRoute * list string :=
  match loras with
  | [] => (m, deleted, candidates)
  | lora :: loras =>
    let '(m, dropped, gone) := removeFrom k m lora in
    let deleted := match deleted with Some _ => deleted | None => head dropped end in
    removeLoras k m loras deleted (candidates ++ gone)
  end.

Definition isGatewayKind (p : ParentReference) : bool := bool_decide (Kind p = Some "Gateway"%string).

Definition gatewayKeyOf (namespace : string) (p : ParentReference) : string :=
  key (default namespace (ParentNamespace p)) (ParentName p).

Definition detachGateway (k namespace : string) (m : gmap string (gset string)) (p : ParentReference) :
    gmap string (gset string) :=
  if isGatewayKind p then
    let g := gatewayKeyOf namespace p in
    match m !! g with
    | Some routeSet => let routeSet := routeSet ∖ {[k]} in
                       if bool_decide (routeSet = ∅) then delete g m else <[g := routeSet]> m
    | None => m
    end
  else m.

Definition attachGateway (k namespace : string) (m : gmap string (gset string)) (p : ParentReference) :
    gmap string (gset string) :=
  if isGatewayKind p then
    let g := gatewayKeyOf namespace p in <[g := {[k]} ∪ default ∅ (m !! g)]> m
  else m.

(** The model name, the route removed, and the names whose list is gone. *)
Definition removeModelRouteFromIndexesLocked (k : string) (s : routeStore) :
    string * option ModelRoute * list string * routeStore :=
  let '(model, deleted, candidates, routes', loras') :=
    match routeInfo s !! k with
    | None => ("", None, [], routes s, loraRoutes s)
    | Some (model, loras) =>
      let '(routes', dropped, gone) := removeBase k (routes s) model in
      let '(loras', deleted, candidates) := removeLoras k (loraRoutes s) loras (last dropped) gone in
      (model, deleted, candidates, routes', loras')
    end%string in
  let attached :=
    match deleted with
    | Some r => fold_left (detachGateway k (RouteNamespace r)) (ParentRefs r) (gatewayModelRoutes s)
    | None => gatewayModelRoutes s
    end in
  (model, deleted, candidates, MkStore (routeInfo s) routes' loras' attached (gateways s) (regexCache s) (requestWaitingQueue s)).

Definition cleanRequestWaitingQueues (names : list string) (s : routeStore) : routeStore :=
  MkStore (routeInfo s) (routes s) (loraRoutes s) (gatewayModelRoutes s) (gateways s) (regexCache s)
    (requestWaitingQueue s ∖ list_to_set names).

Definition matchPattern (sm : StringMatch) : gset string :=
  match Regex sm with Some p => {[p]} | None => ∅ end.

Definition collectRouteRegexes (r : ModelRoute) : gset string :=
  ⋃ ((fun rule => match Matching rule with
        | Some m => ⋃ ((fun h => matchPattern h.2) <$> Headers m) ∪
                    match Uri m with Some uri => matchPattern uri | None => ∅ end
        | None => ∅
        end) <$> Rules r).

(** The patterns the routes of an index mention. *)
Definition indexPatterns (m : index) : gset string := ⋃ (collectRouteRegexes <$> mjoin (map_to_list m).*2).

Definition gcRegexCache (s : routeStore) : routeStore :=
  let live := indexPatterns (routes s) ∪ indexPatterns (loraRoutes s) in
  MkStore (routeInfo s) (routes s) (loraRoutes s) (gatewayModelRoutes s) (gateways s)
    (filter (fun p => p.1 ∈ live) (regexCache s)) (requestWaitingQueue s).

(** The route replaces the one of its namespace and name, or joins the list. *)
Definition putRoute (r : ModelRoute) (m : index) (name : string) : index :=
  let l := at_name m name in
  let l := match list_find (fun r' => RouteNamespace r' = RouteNamespace r /\ RouteName r' = RouteName r) l with
           | Some (i, _) => <[i := r]> l
           | None => l ++ [r]
           end in
  <[name := sortModelRoutes l]> m.

Definition AddOrUpdateModelRoute (r : ModelRoute) (s : routeStore) : routeStore :=
  let k := routeKey r in
  let '(_, _, candidates, s) := removeModelRouteFromIndexesLocked k s in
  let routes' := if bool_decide (ModelName r = ""%string) then routes s else putRoute r (routes s) (ModelName r) in
  let loras' := fold_left (putRoute r) (LoraAdapters r) (loraRoutes s) in
  let attached := fold_left (attachGateway k (RouteNamespace r)) (ParentRefs r) (gatewayModelRoutes s) in
  let s := MkStore (<[k := (ModelName r, LoraAdapters r)]> (routeInfo s)) routes' loras' attached (gateways s)
             (regexCache s) (requestWaitingQueue s) in
  let queuesToClean := filter (fun name => at_name (routes s) name = [] /\ at_name (loraRoutes s) name = []) candidates in
  gcRegexCache (cleanRequestWaitingQueues queuesToClean s).

Definition DeleteModelRoute (k : string) (s : routeStore) : routeStore :=
  let '(_, _, candidates, s) := removeModelRouteFromIndexesLocked k s in
  let s := MkStore (delete k (routeInfo s)) (routes s) (loraRoutes s) (gatewayModelRoutes s) (gateways s)
             (regexCache s) (requestWaitingQueue s) in
  gcRegexCache (cleanRequestWaitingQueues candidates s).

Definition AddOrUpdateGateway (g : Gateway) (s : routeStore) : routeStore :=
  MkStore (routeInfo s) (routes s) (loraRoutes s) (gatewayModelRoutes s)
    (<[key (GatewayNamespace g) (GatewayName g) := g]> (gateways s)) (regexCache s) (requestWaitingQueue s).

Definition DeleteGateway (k : string) (s : routeStore) : routeStore :=
  MkStore (routeInfo s) (routes s) (loraRoutes s) (gatewayModelRoutes s) (delete k (gateways s)) (regexCache s)
    (requestWaitingQueue s).

(** [Enqueue]: the queue of the model, created on first use. *)
Definition EnqueueModel (name : string) (s : routeStore) : routeStore :=
  MkStore (routeInfo s) (routes s) (loraRoutes s) (gatewayModelRoutes s) (gateways s) (regexCache s)
    ({[name]} ∪ requestWaitingQueue s).

(** ** Queries *)

Definition findKey (k : string) (l : list ModelRoute) : option ModelRoute :=
  head (filter (fun r => routeKey r = k) l).

Fixpoint findInLoras (k : string) (m : index) (loras : list string) : option ModelRoute :=
  match loras with
  | [] => None
  | lora :: loras => match findKey k (at_name m lora) with Some r => Some r | None => findInLoras k m loras end
  end.

Definition locate (s : routeStore) (k : string) (info : string * list string) : option ModelRoute :=
  match (if bool_decide (info.1 = ""%string) then None else findKey k (at_name (routes s) info.1)) with
  | Some r => Some r
  | None => findInLoras k (loraRoutes s) info.2
  end.

Definition GetModelRoute (s : routeStore) (k : string) : option ModelRoute :=
  info ← routeInfo s !! k; locate s k info.

Definition GetAllModelRoutes (s : routeStore) : gmap string ModelRoute := map_imap (locate s) (routeInfo s).

Definition GetModelNames (s : routeStore) : list string :=
  sortStrings ((map_to_list (routes s)).*1 ++ (map_to_list (loraRoutes s)).*1).

Definition HasModel (s : routeStore) (name : string) : bool :=
  match routes s !! name with Some _ => true | None => bool_decide (is_Some (loraRoutes s !! name)) end.
End store.
Arguments routeStore : clear implicits.

(** ** Matching

    [compile] is [regexp.Compile], [MatchString] the method of a compiled
    pattern. Matching threads the cache of compiled patterns. *)
Record HTTPRequest := MkHTTPRequest { HeaderGet : string -> string; Path : string }.

Inductive ModelTargetKind := ModelTargetKindModelServer | ModelTargetKindExternalModelProvider.
Record ModelTarget := MkModelTarget { TargetKind : ModelTargetKind; TargetNamespace : string; TargetName : string }.

Section matching.
Context {Compiled : Type} (compile : string -> option Compiled) (MatchString : Compiled -> string -> bool).
Abbreviation cache := (gmap string (option Compiled)).

Definition compileRegex (pattern : string) (c : cache) : option Compiled * cache :=
  match c !! pattern with
  | Some re => (re, c)
  | None => (compile pattern, <[pattern := compile pattern]> c)
  end.

Definition matchString (sm : StringMatch) (value : string) (c : cache) : bool * cache :=
  match Exact sm, Prefix sm, Regex sm with
  | Some exact, _, _ => (bool_decide (value = exact), c)
  | None, Some prefix, _ => (String.prefix prefix value, c)
  | None, None, Some pattern =>
    let '(re, c) := compileRegex pattern c in
    (match re with Some re => MatchString re value | None => false end, c)
  | None, None, None => (true, c)
  end.

(** The loop over the headers of a rule: stops at the first mismatch. *)
Fixpoint matchHeaders (req : HTTPRequest) (headers : list (string * StringMatch)) (c : cache) : bool * cache :=
  match headers with
  | [] => (true, c)
  | (name, sm) :: headers =>
    let '(ok, c) := matchString sm (HeaderGet req name) c in
    if ok : bool then matchHeaders req headers c else (false, c)
  end.

Definition bodyMatches (modelName : string) (m : ModelMatch) : bool :=
  match Body m with Some (Some model) => bool_decide (modelName = model) | _ => true end.

Fixpoint selectRule (modelName : string) (req : HTTPRequest) (rules : list Rule) (c : cache) : option Rule * cache :=
  match rules with
  | [] => (None, c)
  | rule :: rules =>
    match Matching rule with
    | None => (Some rule, c)
    | Some m =>
      if negb (bodyMatches modelName m) then selectRule modelName req rules c
      else
        let '(headersMatched, c) := matchHeaders req (Headers m) c in
        if negb headersMatched then selectRule modelName req rules c
        else
          let '(uriMatched, c) := match Uri m with Some uri => matchString uri (Path req) c | None => (true, c) end in
          if negb uriMatched then selectRule modelName req rules c else (Some rule, c)
    end
  end.

Fixpoint weightsOf (isWeighted : bool) (targets : list (option TargetModel)) : option (list Z) :=
  match targets with
  | [] => Some []
  | None :: _ => None
  | Some t :: targets =>
    match isWeighted, Weight t with
    | true, Some w => ws ← weightsOf isWeighted targets; Some (w :: ws)
    | false, None => ws ← weightsOf isWeighted targets; Some (1 :: ws)
    | _, _ => None
    end
  end.

Definition toWeightedSlice (targets : list (option TargetModel)) : option (list Z) :=
  match targets with
  | Some t :: _ => weightsOf (bool_decide (is_Some (Weight t))) targets
  | _ => None
  end.

(** The loop of [selectFromWeightedSlice]; past the end the code answers 0. *)
Fixpoint pick (i : Z) (weights : list Z) (randomNum : Z) : Z :=
  match weights with
  | [] => 0
  | weight :: weights =>
    let randomNum := randomNum -₆₄ weight in
    if randomNum <? 0 then i else pick (i + 1) weights randomNum
  end.

Definition totalWeight (weights : list Z) : Z := fold_left (fun t w => t +₆₄ w) weights 0.

(** [Intn]: [rand.Intn]. *)
Definition selectFromWeightedSlice (Intn : Z -> Z) (weights : list Z) : option Z :=
  match weights with
  | [] => None
  | _ => let total := totalWeight weights in
         if total =? 0 then None else Some (pick 0 weights (Intn total))
  end.

Definition selectDestination (Intn : Z -> Z) (targets : list (option TargetModel)) : option (option TargetModel) :=
  weights ← toWeightedSlice targets;
  i ← selectFromWeightedSlice Intn weights;
  targets !! Z.to_nat i.

Definition modelTargetFromDestination (namespace : string) (target : option TargetModel) : option ModelTarget :=
  t ← target;
  let hasModelServer := negb (bool_decide (ModelServerName t = ""%string)) in
  let hasExternalProvider := negb (bool_decide (ExternalModelProviderName t = ""%string)) in
  if Bool.eqb hasModelServer hasExternalProvider then None
  else if hasExternalProvider
       then Some (MkModelTarget ModelTargetKindExternalModelProvider namespace (ExternalModelProviderName t))
       else Some (MkModelTarget ModelTargetKindModelServer namespace (ModelServerName t)).

Definition isGatewayParentRef (p : ParentReference) : bool :=
  match Group p with Some g => bool_decide (g = "gateway.networking.k8s.io"%string) | None => true end &&
  match Kind p with Some k => bool_decide (k = "Gateway"%string) | None => true end.

Definition refMatches (gatewayObj : Gateway) (namespace gatewayKey : string) (p : ParentReference) : bool :=
  isGatewayParentRef p && bool_decide (gatewayKeyOf namespace p = gatewayKey) &&
  match SectionName p with Some section => bool_decide (section ∈ Listeners gatewayObj) | None => true end.

Definition matchesSpecificGateway (gateways : gmap string Gateway) (r : ModelRoute) (gatewayKey : string) : bool :=
  match gateways !! gatewayKey with
  | None => false
  | Some gatewayObj => existsb (refMatches gatewayObj (RouteNamespace r) gatewayKey) (ParentRefs r)
  end.

(** Whether the loop of [matchModelRoute] looks at the rules of a route. *)
Definition attached (gateways : gmap string Gateway) (gatewayKey : string) (r : ModelRoute) : bool :=
  match ParentRefs r with
  | _ :: _ => negb (bool_decide (gatewayKey = ""%string)) && matchesSpecificGateway gateways r gatewayKey
  | [] => bool_decide (gatewayKey = ""%string) || String.prefix (RouteNamespace r ++ "/") gatewayKey
  end.

Fixpoint matchCandidates (gateways : gmap string Gateway) (model : string) (req : HTTPRequest) (gatewayKey : string)
    (candidates : list ModelRoute) (c : cache) : option (ModelRoute * Rule) * cache :=
  match candidates with
  | [] => (None, c)
  | r :: candidates =>
    if negb (attached gateways gatewayKey r) then matchCandidates gateways model req gatewayKey candidates c
    else
      let '(rule, c) := selectRule model req (Rules r) c in
      match rule with
      | Some rule =>
        match toWeightedSlice (TargetModels rule) with
        | Some _ => (Some (r, rule), c)
        | None => matchCandidates gateways model req gatewayKey candidates c
        end
      | None => matchCandidates gateways model req gatewayKey candidates c
      end
  end.

Definition set_cache (c : cache) (s : routeStore Compiled) : routeStore Compiled :=
  MkStore (routeInfo s) (routes s) (loraRoutes s) (gatewayModelRoutes s) (gateways s) c (requestWaitingQueue s).

(** The route, its rule and whether the model is a LoRA adapter. *)
Definition matchModelRoute (model : string) (req : HTTPRequest) (gatewayKey : string) (s : routeStore Compiled) :
    option (ModelRoute * Rule * bool) * routeStore Compiled :=
  let '(candidates, isLora) :=
    match routes s !! model with
    | Some l => (Some l, false)
    | None => (loraRoutes s !! model, true)
    end in
  match candidates with
  | None => (None, s)
  | Some l =>
    let '(found, c) := matchCandidates (gateways s) model req gatewayKey l (regexCache s) in
    ((fun p => (p.1, p.2, isLora)) <$> found, set_cache c s)
  end.

Definition MatchModelTarget (Intn : Z -> Z) (model : string) (req : HTTPRequest) (gatewayKey : string)
    (s : routeStore Compiled) : option (ModelTarget * bool * ModelRoute * Rule) * routeStore Compiled :=
  let '(found, s) := matchModelRoute model req gatewayKey s in
  ('(r, rule, isLora) ← found;
   dst ← selectDestination Intn (TargetModels rule);
   target ← modelTargetFromDestination (RouteNamespace r) dst;
   Some (target, isLora, r, rule), s).

(** ** Histories *)

Inductive RouteOp :=
| OpAdd (r : ModelRoute) | OpDelete (k : string)
| OpGateway (g : Gateway) | OpDeleteGateway (k : string)
| OpEnqueue (model : string)
| OpMatch (model : string) (req : HTTPRequest) (gatewayKey : string).

Definition routeStep (s : routeStore Compiled) (op : RouteOp) : routeStore Compiled :=
  match op with
  | OpAdd r => AddOrUpdateModelRoute r s
  | OpDelete k => DeleteModelRoute k s
  | OpGateway g => AddOrUpdateGateway g s
  | OpDeleteGateway k => DeleteGateway k s
  | OpEnqueue model => EnqueueModel model s
  | OpMatch model req gatewayKey => (matchModelRoute model req gatewayKey s).2
  end.
End matching.

(** ** The abstract store: one route per key *)

Abbreviation flat := (gmap string ModelRoute).

Definition serves (lora : bool) (name : string) (r : ModelRoute) : Prop :=
  if lora then name ∈ LoraAdapters r else ModelName r = name /\ name <> ""%string.
#[global] Instance serves_dec lora name r : Decision (serves lora name r).
Proof. destruct lora; simpl; apply _. Defined.

Definition routesFor (F : flat) (lora : bool) (name : string) : list ModelRoute :=
  sortModelRoutes (filter (serves lora name) (map_to_list F).*2).

Definition flatStep (F : flat) (op : RouteOp) : flat :=
  match op with OpAdd r => <[routeKey r := r]> F | OpDelete k => delete k F | _ => F end.

(** A route and a gateway it names. *)
Definition attachedTo (g : string) (r : ModelRoute) : Prop :=
  exists p, p ∈ ParentRefs r /\ Kind p = Some "Gateway"%string /\ gatewayKeyOf (RouteNamespace r) p = g.

(** *** The order of routes *)

Lemma notAfter_spec a b : notAfter a b <->
  CreationTimestamp a < CreationTimestamp b \/ (CreationTimestamp a = CreationTimestamp b /\
    ((ResourceVersion a <> ResourceVersion b /\ String.le (ResourceVersion a) (ResourceVersion b)) \/
     (ResourceVersion a = ResourceVersion b /\ String.le (routeKey a) (routeKey b)))).
Proof.
  unfold notAfter, routeLess, String.le. rewrite !ltb_negb_leb.
  destruct (Z.eqb_spec (CreationTimestamp b) (CreationTimestamp a)) as [E|E]; simpl.
  - case_bool_decide as R; simpl; rewrite negb_false_iff, !Is_true_true.
    + split; [intros H; right; split; [done|]; right; by split|]. intros [?|[_ [[N _]|[_ H]]]]; [lia|by destruct N|done].
    + split; [intros H; right; split; [done|]; left; split; [by intros N; apply R|done]|]. intros [?|[_ [[_ H]|[N _]]]]; [lia|done|by destruct R].
  - rewrite Z.ltb_ge. split; [intros H; left; lia|]. intros [?|[? _]]; lia.
Qed.

#[global] Instance notAfter_total : Total notAfter.
Proof.
  intros a b. rewrite !notAfter_spec.
  destruct (Z.lt_trichotomy (CreationTimestamp a) (CreationTimestamp b)) as [?|[?|?]]; [by left; left| |by right; left].
  destruct (decide (ResourceVersion a = ResourceVersion b)).
  - destruct (total String.le (routeKey a) (routeKey b)); [left|right]; right; (split; [done|]); right; (split; [done|done]).
  - destruct (total String.le (ResourceVersion a) (ResourceVersion b)); [left|right]; right; (split; [done|]); left; (split; [|done]); congruence.
Qed.

#[global] Instance notAfter_trans : Transitive notAfter.
Proof.
  intros a b c. rewrite !notAfter_spec.
  intros [?|[E1 [[N1 L1]|[R1 L1]]]] [?|[E2 [[N2 L2]|[R2 L2]]]]; try (left; lia); right; (split; [congruence|]).
  - left. split; [|by etrans]. intros E. apply N1. apply (anti_symm String.le); [done|]. by rewrite E.
  - left. by rewrite <- R2.
  - left. by rewrite R1.
  - right. split; [congruence|by etrans].
Qed.

Lemma notAfter_antisym a b : notAfter a b -> notAfter b a -> routeKey a = routeKey b.
Proof.
  rewrite !notAfter_spec. intros [?|[E1 [[N1 L1]|[R1 L1]]]] [?|[E2 [[N2 L2]|[R2 L2]]]]; try lia; try congruence.
  - exfalso. apply N1. by apply (anti_symm String.le).
  - by apply (anti_symm String.le).
Qed.

Lemma sorted_routes l : StronglySorted notAfter (sortModelRoutes l) /\ sortModelRoutes l ≡ₚ l.
Proof. split; [apply StronglySorted_merge_sort; apply _|apply merge_sort_Permutation]. Qed.

(** *** What the lists of an index hold *)

Record holds (M : string -> ModelRoute -> Prop) (m : index) : Prop := {
  hd_sorted : forall name, StronglySorted notAfter (at_name m name);
  hd_nodup : forall name, NoDup (at_name m name);
  hd_elem : forall name r, r ∈ at_name m name <-> M name r;
  hd_nonempty : forall name, m !! name <> Some []
}.

Lemma holds_ext M M' m : (forall name r, M name r <-> M' name r) -> holds M m -> holds M' m.
Proof. intros HM [H1 H2 H3 H4]. split; try done. intros name r. by rewrite H3. Qed.

Lemma StronglySorted_filter {A} (R : A -> A -> Prop) (P : A -> Prop) `{!forall x, Decision (P x)} l :
  StronglySorted R l -> StronglySorted R (filter P l).
Proof.
  induction 1 as [|x l Hs IH Hx]; [constructor|]. rewrite filter_cons. case_decide; [|done]. constructor; [done|].
  rewrite Forall_forall in *. intros y [_ Hy]%list_elem_of_filter. by apply Hx.
Qed.

Lemma at_insert (m : index) name l x : at_name (<[name := l]> m) x = if decide (name = x) then l else at_name m x.
Proof. unfold at_name. case_decide as E; [subst; by rewrite lookup_insert_eq|by rewrite lookup_insert_ne]. Qed.
Lemma at_delete (m : index) name x : at_name (delete name m) x = if decide (name = x) then [] else at_name m x.
Proof. unfold at_name. case_decide as E; [subst; by rewrite lookup_delete_eq|by rewrite lookup_delete_ne]. Qed.

Lemma removeFrom_spec M k m name : holds M m ->
  let '(m', dropped, gone) := removeFrom k m name in
  holds (fun x r => M x r /\ ~ (x = name /\ routeKey r = k)) m' /\
  dropped = filter (fun r => routeKey r = k) (at_name m name) /\
  gone = (if decide (at_name m' name = []) then [name] else []) /\ (forall x, x <> name -> at_name m' x = at_name m x).
Proof.
  intros [H1 H2 H3 H4]. unfold removeFrom.
  assert (Hin : forall r, r ∈ filter (fun r => routeKey r <> k) (at_name m name) <-> M name r /\ routeKey r <> k).
  { intros r. rewrite list_elem_of_filter, H3. tauto. }
  assert (Hs := StronglySorted_filter notAfter (fun r => routeKey r <> k) _ (H1 name)).
  assert (Hd := NoDup_filter (fun r => routeKey r <> k) _ (H2 name)).
  destruct (filter (fun r => routeKey r <> k) (at_name m name)) as [|r0 l] eqn:E.
  - split_and!; [|done|rewrite at_delete; repeat case_decide; done|intros x Hx; by rewrite at_delete, decide_False].
    split; intros x; [| | |intros Hx].
    + rewrite at_delete. case_decide; [constructor|done].
    + rewrite at_delete. case_decide; [constructor|done].
    + intros r. rewrite at_delete. case_decide as Ex.
      * subst x. rewrite (Hin r). tauto.
      * rewrite H3. split; [intros ?; split; [done|by intros [? _]]|by intros [? _]].
    + destruct (decide (name = x)) as [->|]; [by rewrite lookup_delete_eq in Hx|].
      rewrite lookup_delete_ne in Hx by done. by apply (H4 x).
  - split_and!; [|done|rewrite at_insert; repeat case_decide; done|intros x Hx; by rewrite at_insert, decide_False].
    split; intros x; [| | |intros Hx].
    + rewrite at_insert. case_decide; [done|done].
    + rewrite at_insert. case_decide; [done|done].
    + intros r. rewrite at_insert. case_decide as Ex.
      * subst x. rewrite (Hin r). tauto.
      * rewrite H3. split; [intros ?; split; [done|by intros [? _]]|by intros [? _]].
    + destruct (decide (name = x)) as [->|]; [by rewrite lookup_insert_eq in Hx|].
      rewrite lookup_insert_ne in Hx by done. by apply (H4 x).
Qed.

Lemma putRoute_spec M r m name : holds M m -> (forall x, M name x -> routeKey x = routeKey r -> x = r) ->
  holds (fun x y => M x y \/ (x = name /\ y = r)) (putRoute r m name).
Proof.
  intros [H1 H2 H3 H4] Hr. unfold putRoute.
  set (l := match list_find _ _ with Some _ => _ | None => _ end).
  assert (Hl : NoDup l /\ forall y, y ∈ l <-> M name y \/ y = r).
  { unfold l. destruct (list_find _ (at_name m name)) as [[i x]|] eqn:E.
    - apply list_find_Some in E as (Ei & [E1 E2] & _).
      assert (Hx : x = r).
      { apply Hr; [apply H3; by eapply list_elem_of_lookup_2|]. unfold routeKey. by rewrite E1, E2. }
      subst x. rewrite list_insert_id by done. split; [done|]. intros y. rewrite H3. split; [by left|].
      intros [?| ->]; [done|]. apply H3. by eapply list_elem_of_lookup_2.
    - apply list_find_None in E. rewrite Forall_forall in E. split.
      + apply NoDup_app. split_and!; [done| |apply NoDup_singleton]. intros y Hy ->%list_elem_of_singleton.
        by apply (E r Hy).
      + intros y. by rewrite elem_of_app, list_elem_of_singleton, H3. }
  destruct Hl as [Hd Hin]. destruct (sorted_routes l) as [Hs Hp].
  split; intros x; [| | |intros Hx].
  - rewrite at_insert. by case_decide.
  - rewrite at_insert. case_decide; [by rewrite Hp|done].
  - intros y. rewrite at_insert. case_decide as Ex.
    + subst x. rewrite Hp, Hin. tauto.
    + rewrite H3. split; [by left|]. intros [?|[-> _]]; done.
  - destruct (decide (name = x)) as [->|].
    + rewrite lookup_insert_eq in Hx. injection Hx as Hx. rewrite Hx in Hp. apply Permutation_nil in Hp.
      assert (r ∈ l) as Hrl by (apply Hin; by right). rewrite Hp in Hrl. by apply elem_of_nil in Hrl.
    + rewrite lookup_insert_ne in Hx by done. by apply (H4 x).
Qed.

Lemma holds_nil M m name : holds M m -> (at_name m name = []) <-> forall r, ~ M name r.
Proof.
  intros [_ _ H3 _]. split.
  - intros E r Hr%H3. rewrite E in Hr. by apply elem_of_nil in Hr.
  - intros Hn. destruct (at_name m name) as [|r l] eqn:E; [done|]. exfalso. apply (Hn r), H3. rewrite E. by left.
Qed.

Lemma head_elem {A} (l : list A) x : head l = Some x -> x ∈ l.
Proof. destruct l as [|y l]; [done|]. simpl. intros [= ->]. by left. Qed.

Lemma removeLoras_spec k loras : forall M m deleted candidates, holds M m ->
  let '(m', deleted', candidates') := removeLoras k m loras deleted candidates in
  holds (fun x r => M x r /\ ~ (x ∈ loras /\ routeKey r = k)) m' /\
  (forall x, x ∈ candidates' <-> x ∈ candidates \/ (x ∈ loras /\ at_name m' x = [])) /\
  match deleted' with
  | Some r => deleted = Some r \/ (deleted = None /\ exists x, x ∈ loras /\ M x r /\ routeKey r = k)
  | None => deleted = None /\ forall x r, x ∈ loras -> M x r -> routeKey r <> k
  end.
Proof.
  induction loras as [|lora loras IH]; intros M m deleted candidates Hm; simpl.
  { split_and!.
    - eapply holds_ext; [|exact Hm]. intros x r. split; [intros ?; split; [done|]; by intros [?%elem_of_nil _]|by intros [? _]].
    - intros x. split; [by left|]. intros [?|[?%elem_of_nil _]]; done.
    - destruct deleted; [by left|]. split; [done|]. by intros x r ?%elem_of_nil. }
  pose proof (removeFrom_spec M k m lora Hm) as Hr. destruct (removeFrom k m lora) as [[m1 dropped] gone].
  destruct Hr as (Hm1 & Hdrop & Hgone & Hsame).
  set (deleted1 := match deleted with Some _ => deleted | None => head dropped end).
  specialize (IH _ m1 deleted1 (candidates ++ gone) Hm1).
  destruct (removeLoras k m1 loras deleted1 (candidates ++ gone)) as [[m' deleted'] candidates'].
  destruct IH as (Hm' & Hc & Hd). split_and!.
  - eapply holds_ext; [|exact Hm']. intros x r. cbn beta. rewrite elem_of_cons. tauto.
  - intros x. rewrite Hc, elem_of_app, elem_of_cons, (holds_nil _ _ _ Hm'). rewrite Hgone. clear - Hm1.
    destruct (decide (at_name m1 lora = [])) as [E|E].
    + rewrite list_elem_of_singleton. rewrite (holds_nil _ _ _ Hm1) in E. split.
      * intros [[?| ->]|[? ?]]; [by left|right; split; [by left|]|right; split; [by right|done]].
        intros r [H _]. by apply (E r).
      * intros [?|[[->|?] ?]]; [by left; left|by left; right|by right].
    + rewrite elem_of_nil. split.
      * intros [[?|[]]|[? ?]]; [by left|right; split; [by right|done]].
      * intros [?|[[->|?] Hno]]; [by left; left| |by right]. exfalso. apply E. apply (holds_nil _ _ _ Hm1).
        intros r [Hr Hk]. apply (Hno r). split; [done|]. intros [_ Ek]. by apply Hk.
  - assert (Hmem : forall r, r ∈ dropped <-> M lora r /\ routeKey r = k).
    { intros r. rewrite Hdrop, list_elem_of_filter, (hd_elem _ _ Hm). tauto. }
    destruct deleted' as [r|].
    + destruct Hd as [Hd|(Hd & x & Hx & [HM _] & Hk)].
      * unfold deleted1 in Hd. destruct deleted as [r'|]; [by left|right]. split; [done|]. exists lora. split; [by left|].
        by apply Hmem, head_elem.
      * unfold deleted1 in Hd. destruct deleted as [r'|]; [done|right]. split; [done|]. exists x. split; [by right|done].
    + destruct Hd as [Hd Hn]. unfold deleted1 in Hd. destruct deleted as [r'|]; [done|]. split; [done|].
      intros x r Hx HM Hk. assert (Hno : ~ M lora r).
      { intros Hl. assert (Hin : r ∈ dropped) by by apply Hmem. destruct dropped; [by apply elem_of_nil in Hin|done]. }
      apply elem_of_cons in Hx as [->|Hx]; [done|]. apply (Hn x r Hx); [|done]. split; [done|]. intros [-> _]. done.
Qed.

(** *** The index by gateway *)

Definition at_gateway (m : gmap string (gset string)) (g : string) : gset string := default ∅ (m !! g).

Lemma detach_spec k namespace l : forall m, (forall g, m !! g <> Some ∅) ->
  let m' := fold_left (detachGateway k namespace) l m in
  (forall g, m' !! g <> Some ∅) /\
  (forall g x, x ∈ at_gateway m' g <-> x ∈ at_gateway m g /\
     ~ (x = k /\ exists p, p ∈ l /\ Kind p = Some "Gateway"%string /\ gatewayKeyOf namespace p = g)).
Proof.
  induction l as [|p l IH]; intros m Hm; simpl.
  { split; [done|]. intros g x. split; [|by intros [? _]]. intros ?. split; [done|]. by intros (_ & p & ?%elem_of_nil & _). }
  assert (Hp : (forall g, detachGateway k namespace m p !! g <> Some ∅) /\
    forall g x, x ∈ at_gateway (detachGateway k namespace m p) g <-> x ∈ at_gateway m g /\
      ~ (x = k /\ Kind p = Some "Gateway"%string /\ gatewayKeyOf namespace p = g)).
  { unfold detachGateway, isGatewayKind. destruct (decide (Kind p = Some "Gateway"%string)) as [Hk|Hk];
      [rewrite (bool_decide_true _ Hk)|rewrite (bool_decide_false _ Hk)].
    2: { split; [done|]. intros g x. tauto. }
    set (g0 := gatewayKeyOf namespace p). unfold at_gateway. destruct (m !! g0) as [set|] eqn:E.
    2: { split; [done|]. intros g x. split; [|by intros [? _]]. intros Hx. split; [done|]. intros (-> & _ & <-).
         rewrite E in Hx. by apply elem_of_empty in Hx. }
    case_bool_decide as He; split; intros g.
    - destruct (decide (g0 = g)) as [<-|]; [by rewrite lookup_delete_eq|by rewrite lookup_delete_ne].
    - intros x. destruct (decide (g0 = g)) as [<-|].
      + rewrite lookup_delete_eq, E. simpl. split; [by intros ?%elem_of_empty|]. intros [Hx Hn]. exfalso.
        apply Hn. split; [|done]. destruct (decide (x = k)) as [|Hne]; [done|]. exfalso.
        apply (not_elem_of_empty (C := gset string) x). rewrite <- He. apply elem_of_difference.
        split; [done|]. by rewrite elem_of_singleton.
      + rewrite lookup_delete_ne by done. tauto.
    - destruct (decide (g0 = g)) as [<-|]; [rewrite lookup_insert_eq; congruence|by rewrite lookup_insert_ne].
    - intros x. destruct (decide (g0 = g)) as [<-|].
      + rewrite lookup_insert_eq, E. simpl. rewrite elem_of_difference, elem_of_singleton. tauto.
      + rewrite lookup_insert_ne by done. tauto. }
  destruct Hp as [H1 H2]. destruct (IH _ H1) as [H3 H4]. split; [done|]. intros g x. rewrite H4, H2.
  setoid_rewrite elem_of_cons. split.
  - intros [[Hx Ha] Hb]. split; [done|]. intros (-> & q & [->|Hq] & ?); [by apply Ha|]. apply Hb. split; [done|]. by exists q.
  - intros [Hx Ha]. split; [split; [done|]|]; [intros (-> & ?)|intros (-> & q & ? & ?)]; apply Ha; (split; [done|]).
    + exists p. split; [by left|done].
    + exists q. split; [by right|done].
Qed.

Lemma attach_spec k namespace l : forall m, (forall g, m !! g <> Some ∅) ->
  let m' := fold_left (attachGateway k namespace) l m in
  (forall g, m' !! g <> Some ∅) /\
  (forall g x, x ∈ at_gateway m' g <-> x ∈ at_gateway m g \/
     (x = k /\ exists p, p ∈ l /\ Kind p = Some "Gateway"%string /\ gatewayKeyOf namespace p = g)).
Proof.
  induction l as [|p l IH]; intros m Hm; simpl.
  { split; [done|]. intros g x. split; [by left|]. intros [?|(_ & p & ?%elem_of_nil & _)]; done. }
  assert (Hp : (forall g, attachGateway k namespace m p !! g <> Some ∅) /\
    forall g x, x ∈ at_gateway (attachGateway k namespace m p) g <-> x ∈ at_gateway m g \/
      (x = k /\ Kind p = Some "Gateway"%string /\ gatewayKeyOf namespace p = g)).
  { unfold attachGateway, isGatewayKind. destruct (decide (Kind p = Some "Gateway"%string)) as [Hk|Hk];
      [rewrite (bool_decide_true _ Hk)|rewrite (bool_decide_false _ Hk)].
    2: { split; [done|]. intros g x. tauto. }
    set (g0 := gatewayKeyOf namespace p). unfold at_gateway. split; intros g.
    - destruct (decide (g0 = g)) as [<-|]; [rewrite lookup_insert_eq|by rewrite lookup_insert_ne].
      intros [= E]. assert (k ∈ (∅ : gset string)) as ?%elem_of_empty; [|done]. rewrite <- E. apply elem_of_union. left.
      by apply elem_of_singleton.
    - intros x. destruct (decide (g0 = g)) as [<-|].
      + rewrite lookup_insert_eq. simpl. rewrite elem_of_union, elem_of_singleton. tauto.
      + rewrite lookup_insert_ne by done. tauto. }
  destruct Hp as [H1 H2]. destruct (IH _ H1) as [H3 H4]. split; [done|]. intros g x. rewrite H4, H2.
  setoid_rewrite elem_of_cons. split.
  - intros [[?|(-> & ?)]|(-> & q & ? & ?)]; [by left|right..]; (split; [done|]); [exists p; split; [by left|done]|exists q; split; [by right|done]].
  - intros [?|(-> & q & [->|Hq] & ?)]; [by left; left|by left; right|right]. split; [done|]. by exists q.
Qed.

(** *** The invariant and its preservation *)

(** Admission asks for a model or a LoRA adapter. *)
Definition indexed (r : ModelRoute) : Prop := ModelName r <> ""%string \/ LoraAdapters r <> [].

Definition member (F : flat) (lora : bool) (name : string) (r : ModelRoute) : Prop :=
  F !! routeKey r = Some r /\ serves lora name r.

Definition patternOf (F : flat) (p : string) : Prop := exists k r, F !! k = Some r /\ p ∈ collectRouteRegexes r.

Section invariant.
Context {Compiled : Type} (compile : string -> option Compiled) (MatchString : Compiled -> string -> bool).
Implicit Types (s : routeStore Compiled) (F : flat).

Record keys_ok F : Prop := {
  ko_key : forall k r, F !! k = Some r -> routeKey r = k;
  ko_indexed : forall k r, F !! k = Some r -> indexed r
}.

(** The indexes, without the cache. *)
Record indexes_ok F s : Prop := {
  ix_base : holds (member F false) (routes s);
  ix_lora : holds (member F true) (loraRoutes s);
  ix_gateway : forall g k, k ∈ at_gateway (gatewayModelRoutes s) g <-> exists r, F !! k = Some r /\ attachedTo g r;
  ix_nonempty : forall g, gatewayModelRoutes s !! g <> Some ∅
}.

Definition cache_ok F (c : gmap string (option Compiled)) : Prop :=
  forall p re, c !! p = Some re -> re = compile p /\ patternOf F p.

Record store_ok F s : Prop := {
  so_keys : keys_ok F;
  so_info : routeInfo s = (fun r => (ModelName r, LoraAdapters r)) <$> F;
  so_indexes : indexes_ok F s;
  so_cache : cache_ok F (regexCache s)
}.

(** The names the route of a key served and no route serves any more. *)
Definition orphaned F s (k : string) (lora : bool) (name : string) : Prop :=
  exists r, F !! k = Some r /\ serves lora name r /\ at_name (if lora then loraRoutes s else routes s) name = [].

Lemma delete_member F k lora name r : keys_ok F -> member (delete k F) lora name r <-> member F lora name r /\ routeKey r <> k.
Proof.
  intros HF. unfold member. destruct (decide (routeKey r = k)) as [<-|].
  - rewrite lookup_delete_eq. split; [by intros [? _]|by intros [_ []]].
  - rewrite lookup_delete_ne by done. tauto.
Qed.

Lemma removeBase_spec F r m : keys_ok F -> F !! routeKey r = Some r -> holds (member F false) m ->
  let '(m', dropped, gone) := removeBase (routeKey r) m (ModelName r) in
  holds (member (delete (routeKey r) F) false) m' /\ (forall x, x ∈ dropped -> x = r) /\
  (dropped = [] -> ModelName r = ""%string) /\
  (forall name, name ∈ gone <-> serves false name r /\ at_name m' name = []).
Proof.
  intros HF E Hb. assert (Hself : forall x, F !! routeKey x = Some x -> routeKey x = routeKey r -> x = r)
    by (intros x Hx Ex; rewrite Ex in Hx; congruence).
  unfold removeBase. case_bool_decide as Hm.
- split_and!; [|by intros x ?%elem_of_nil|done|].
  + eapply holds_ext; [|exact Hb]. intros name x. rewrite delete_member by done. split; [|by intros [? _]].
    intros Hx. split; [done|]. intros Ex. destruct Hx as [Hx [Hn Hn']]. rewrite (Hself x Hx Ex) in Hn. congruence.
  + intros name. rewrite elem_of_nil. split; [done|]. intros [[? ?] _]. congruence.
- pose proof (removeFrom_spec _ (routeKey r) _ (ModelName r) Hb) as Hr. destruct (removeFrom (routeKey r) m (ModelName r)) as [[m' dropped] gone].
  destruct Hr as (H1 & H2 & H3 & H4). split_and!.
  + eapply holds_ext; [|exact H1]. intros name x. cbn beta. rewrite delete_member by done. split; intros [Hx Hn]; (split; [done|]).
    * intros Ex. apply Hn. split; [|done]. destruct Hx as [Hx [Hs _]]. rewrite (Hself x Hx Ex) in Hs. done.
    * by intros [_ ?].
  + intros x Hx. rewrite H2, list_elem_of_filter, (hd_elem _ _ Hb) in Hx. destruct Hx as [Ex [Hx _]]. by apply Hself.
  + intros Hd. exfalso. assert (Hin : r ∈ dropped).
    { rewrite H2, list_elem_of_filter, (hd_elem _ _ Hb). split; [done|]. by split. }
    rewrite Hd in Hin. by apply elem_of_nil in Hin.
  + intros name. rewrite H3. simpl. case_decide as Hd.
    * rewrite list_elem_of_singleton. split; [intros ->; done|]. by intros [[-> _] _].
    * rewrite elem_of_nil. split; [done|]. by intros [[<- _] ?].
Qed.

Lemma remove_spec F s k : store_ok F s ->
  let '(_, _, candidates, s') := removeModelRouteFromIndexesLocked k s in
  indexes_ok (delete k F) s' /\ routeInfo s' = routeInfo s /\ gateways s' = gateways s /\
  regexCache s' = regexCache s /\ requestWaitingQueue s' = requestWaitingQueue s /\
  (forall name, name ∈ candidates <-> orphaned F s' k false name \/ orphaned F s' k true name).
Proof.
  intros [HF Hinfo [Hb Hl Hg Hne] _]. unfold removeModelRouteFromIndexesLocked. rewrite Hinfo, lookup_fmap.
  destruct (F !! k) as [r|] eqn:E; cbn [fmap option_fmap option_map].
  2: { split_and!; try done; [|intros name; rewrite elem_of_nil; split; [done|]; by intros [(? & ? & _)|(? & ? & _)]; simplify_eq].
       by rewrite delete_id. }
  pose proof (ko_key _ HF k r E) as Hk. pose proof (ko_indexed _ HF k r E) as Hix.
  assert (Hself : forall x, F !! routeKey x = Some x -> routeKey x = k -> x = r) by (intros x Hx Ex; rewrite Ex in Hx; congruence).
  pose proof (removeBase_spec F r (routes s) HF ltac:(by rewrite Hk) Hb) as Hbase. rewrite Hk in Hbase.
  destruct (removeBase k (routes s) (ModelName r)) as [[mb dropped] gone]. destruct Hbase as (B1 & B2 & B3 & B4).
  pose proof (removeLoras_spec k (LoraAdapters r) _ _ (last dropped) gone Hl) as HL.
  destruct (removeLoras k (loraRoutes s) (LoraAdapters r) (last dropped) gone) as [[ml deleted] candidates].
  destruct HL as (L1 & L2 & L3).
  assert (Hdel : deleted = Some r).
  { destruct deleted as [x|].
    - destruct L3 as [L3|(_ & name & _ & [Hx _] & Ex)]; [|f_equal; by apply Hself].
      f_equal. apply B2. apply last_Some in L3 as [l' ->]. apply elem_of_app. right. by left.
    - exfalso. destruct L3 as [L3 L4]. apply last_None in L3. destruct Hix as [Hm|Hlo]; [by apply Hm, B3|].
      destruct (LoraAdapters r) as [|lora l] eqn:El; [done|]. apply (L4 lora r); [by left| |done].
      split; [by rewrite Hk|]. simpl. rewrite El. by left. }
  subst deleted. destruct (detach_spec k (RouteNamespace r) (ParentRefs r) _ Hne) as [G1 G2].
  split_and!; try done.
  - split; cbn [routes loraRoutes gatewayModelRoutes]; [done| | |done].
    + eapply holds_ext; [|exact L1]. intros name x. cbn beta. rewrite delete_member by done. split; intros [Hx Hn]; (split; [done|]).
      * intros Ex. apply Hn. split; [|done]. destruct Hx as [Hx Hs]. by rewrite (Hself x Hx Ex) in Hs.
      * by intros [_ ?].
    + intros g k'. rewrite G2, Hg. destruct (decide (k' = k)) as [->|Hnk].
      * rewrite lookup_delete_eq. split; [|by intros (? & ? & _)]. intros [(x & Hx & p & Hp) Hn]. exfalso. apply Hn.
        split; [done|]. exists p. rewrite E in Hx. by injection Hx as <-.
      * rewrite lookup_delete_ne by done. split; [by intros [? _]|]. intros ?. split; [done|]. by intros [? _].
  - intros name. rewrite L2, B4. unfold orphaned. cbn [routes loraRoutes]. rewrite E. split.
    + intros [[? ?]|[? ?]]; [left|right]; exists r; done.
    + intros [(x & [= <-] & ? & ?)|(x & [= <-] & ? & ?)]; [by left|by right].
Qed.

Lemma indexPatterns_spec F lora m p : holds (member F lora) m ->
  p ∈ indexPatterns m <-> exists name r, member F lora name r /\ p ∈ collectRouteRegexes r.
Proof.
  intros Hm. unfold indexPatterns. rewrite elem_of_union_list. setoid_rewrite list_elem_of_fmap. split.
  - intros (X & (r & -> & Hr) & Hp). apply list_elem_of_join in Hr as (l & Hrl & Hl). apply list_elem_of_fmap in Hl as ([name l'] & -> & Hl).
    apply elem_of_map_to_list in Hl. exists name, r. split; [|done]. apply (hd_elem _ _ Hm). unfold at_name. by rewrite Hl.
  - intros (name & r & Hr & Hp). apply (hd_elem _ _ Hm) in Hr. exists (collectRouteRegexes r). split; [|done]. exists r.
    split; [done|]. apply list_elem_of_join. unfold at_name in Hr. destruct (m !! name) as [l|] eqn:E; [|by apply elem_of_nil in Hr].
    exists l. split; [done|]. apply list_elem_of_fmap. exists (name, l). split; [done|]. by apply elem_of_map_to_list.
Qed.

Lemma gc_spec F s : indexes_ok F s -> (forall p re, regexCache s !! p = Some re -> re = compile p) ->
  cache_ok F (regexCache (gcRegexCache s)).
Proof.
  intros [Hb Hl _ _] Hc p re Hp. cbn [gcRegexCache regexCache] in Hp. apply map_lookup_filter_Some in Hp as [Hp Hlive].
  split; [by apply Hc|]. cbn [fst] in Hlive. apply elem_of_union in Hlive as [H|H].
  - apply (indexPatterns_spec F false _ _ Hb) in H as (name & r & [Hr _] & ?). by exists (routeKey r), r.
  - apply (indexPatterns_spec F true _ _ Hl) in H as (name & r & [Hr _] & ?). by exists (routeKey r), r.
Qed.

Lemma indexed_serves r : indexed r <-> exists lora name, serves lora name r.
Proof.
  split.
  - intros [H|H]; [by exists false, (ModelName r)|]. destruct (LoraAdapters r) as [|l ls] eqn:E; [done|].
    exists true, l. simpl. rewrite E. by left.
  - intros ([|] & name & H); [right|left]; simpl in H; [|by destruct H as [-> ?]]. intros E. rewrite E in H. by apply elem_of_nil in H.
Qed.

Lemma putLoras_spec r loras : forall M m, holds M m ->
  (forall name x, M name x -> routeKey x = routeKey r -> x = r) ->
  holds (fun name x => M name x \/ (name ∈ loras /\ x = r)) (fold_left (putRoute r) loras m).
Proof.
  induction loras as [|lora loras IH]; intros M m Hm Hr; simpl.
  - eapply holds_ext; [|exact Hm]. intros name x. rewrite elem_of_nil. tauto.
  - eapply holds_ext; [|apply IH; [apply putRoute_spec; [exact Hm|by apply Hr]|]].
    + intros name x. cbn beta. rewrite elem_of_cons. tauto.
    + intros name x [Hx|[_ ->]] Ek; [by eapply Hr|done].
Qed.

Lemma insert_member F r lora name x : keys_ok F ->
  member (<[routeKey r := r]> F) lora name x <->
  member (delete (routeKey r) F) lora name x \/ (serves lora name r /\ x = r).
Proof.
  intros HF. rewrite delete_member by done. unfold member. destruct (decide (routeKey x = routeKey r)) as [E|E].
  - rewrite E, lookup_insert_eq. split; [intros [[= <-] ?]; by right|]. intros [[_ []]|[? ->]]; done.
  - rewrite lookup_insert_ne by done. split; [intros ?; by left|]. intros [[? _]|[_ ->]]; done.
Qed.

(** *** Matching, without the cache *)

Definition stringMatches (sm : StringMatch) (value : string) : bool :=
  match Exact sm, Prefix sm, Regex sm with
  | Some exact, _, _ => bool_decide (value = exact)
  | None, Some prefix, _ => String.prefix prefix value
  | None, None, Some pattern => match compile pattern with Some re => MatchString re value | None => false end
  | None, None, None => true
  end.

Definition ruleMatches (modelName : string) (req : HTTPRequest) (rule : Rule) : bool :=
  match Matching rule with
  | None => true
  | Some m => bodyMatches modelName m && forallb (fun h => stringMatches h.2 (HeaderGet req h.1)) (Headers m) &&
              match Uri m with Some uri => stringMatches uri (Path req) | None => true end
  end.

(** The rule a route offers: the first that matches, if its targets are valid. *)
Definition offer (gws : gmap string Gateway) (modelName : string) (req : HTTPRequest) (gatewayKey : string) (r : ModelRoute) :
    option Rule :=
  if attached gws gatewayKey r then
    rule ← List.find (ruleMatches modelName req) (Rules r);
    _ ← toWeightedSlice (TargetModels rule);
    Some rule
  else None.

(** What matching adds to the cache. *)
Definition grows (P : string -> Prop) (c c' : gmap string (option Compiled)) : Prop :=
  forall p re, c' !! p = Some re -> c !! p = Some re \/ (re = compile p /\ P p).
Definition consistent (c : gmap string (option Compiled)) : Prop := forall p re, c !! p = Some re -> re = compile p.

Lemma grows_refl P c : grows P c c.
Proof. by intros p re ?; left. Qed.
Lemma grows_trans (P Q R : string -> Prop) c c' c'' : (forall p, P p -> R p) -> (forall p, Q p -> R p) ->
  grows P c c' -> grows Q c' c'' -> grows R c c''.
Proof. intros HP HQ H1 H2 p re [Hp|[? ?]]%H2; [apply H1 in Hp as [?|[? ?]]; [by left|right; by auto]|right; by auto]. Qed.
Lemma grows_mono (P Q : string -> Prop) c c' : (forall p, P p -> Q p) -> grows P c c' -> grows Q c c'.
Proof. intros H1 H2 p re [?|[? ?]]%H2; [by left|right; by auto]. Qed.
Lemma grows_consistent P c c' : grows P c c' -> consistent c -> consistent c'.
Proof. intros H1 H2 p re [?%H2|[? _]]%H1; done. Qed.

Lemma matchString_spec sm v c : consistent c ->
  exists c', matchString compile MatchString sm v c = (stringMatches sm v, c') /\ grows (fun p => p ∈ matchPattern sm) c c'.
Proof.
  intros Hc. unfold matchString, stringMatches, matchPattern.
  destruct (Exact sm), (Prefix sm), (Regex sm) as [pattern|]; try (exists c; split; [done|apply grows_refl]).
  unfold compileRegex. destruct (c !! pattern) as [re|] eqn:E.
  - exists c. rewrite (Hc _ _ E). split; [done|apply grows_refl].
  - eexists. split; [reflexivity|]. intros p re Hp. destruct (decide (pattern = p)) as [->|].
    + rewrite lookup_insert_eq in Hp. right. split; [congruence|by apply elem_of_singleton].
    + rewrite lookup_insert_ne in Hp by done. by left.
Qed.

Lemma matchHeaders_spec req headers : forall c, consistent c ->
  exists c', matchHeaders compile MatchString req headers c =
    (forallb (fun h => stringMatches h.2 (HeaderGet req h.1)) headers, c') /\
    grows (fun p => exists h, h ∈ headers /\ p ∈ matchPattern h.2) c c'.
Proof.
  induction headers as [|[name sm] headers IH]; intros c Hc; simpl; [exists c; split; [done|apply grows_refl]|].
  destruct (matchString_spec sm (HeaderGet req name) c Hc) as (c1 & -> & G1).
  destruct (stringMatches sm (HeaderGet req name)); simpl.
  - destruct (IH c1 (grows_consistent _ _ _ G1 Hc)) as (c2 & -> & G2). exists c2. split; [done|].
    apply (grows_trans _ _ _ _ _ _) with (4 := G2) (3 := G1).
    + intros p Hp. exists (name, sm). split; [by left|done].
    + intros p (h & ? & ?). exists h. split; [by right|done].
  - exists c1. split; [done|]. eapply grows_mono; [|exact G1]. intros p Hp. exists (name, sm). split; [by left|done].
Qed.

(** The patterns of one rule. *)
Definition rulePattern (rule : Rule) (p : string) : Prop :=
  exists m, Matching rule = Some m /\
    ((exists h, h ∈ Headers m /\ p ∈ matchPattern h.2) \/ (exists uri, Uri m = Some uri /\ p ∈ matchPattern uri)).

Lemma collect_spec r p : p ∈ collectRouteRegexes r <-> exists rule, rule ∈ Rules r /\ rulePattern rule p.
Proof.
  unfold collectRouteRegexes. rewrite elem_of_union_list. setoid_rewrite list_elem_of_fmap. split.
  - intros (X & (rule & -> & Hr) & Hp). exists rule. split; [done|]. unfold rulePattern.
    destruct (Matching rule) as [m|]; [|by apply elem_of_empty in Hp]. exists m. split; [done|].
    apply elem_of_union in Hp as [Hp|Hp].
    + left. apply elem_of_union_list in Hp as (Y & Hy & Hp). apply list_elem_of_fmap in Hy as (h & -> & Hh). by exists h.
    + right. destruct (Uri m) as [uri|]; [by exists uri|by apply elem_of_empty in Hp].
  - intros (rule & Hr & m & E & Hp). eexists. split; [by exists rule|]. rewrite E. apply elem_of_union.
    destruct Hp as [(h & Hh & Hp)|(uri & -> & Hp)]; [left|by right]. apply elem_of_union_list. exists (matchPattern h.2).
    split; [|done]. apply list_elem_of_fmap. by exists h.
Qed.

Lemma selectRule_spec model req rules : forall c, consistent c ->
  exists c', selectRule compile MatchString model req rules c = (List.find (ruleMatches model req) rules, c') /\
    grows (fun p => exists rule, rule ∈ rules /\ rulePattern rule p) c c'.
Proof.
  induction rules as [|rule rules IH]; intros c Hc; simpl; [exists c; split; [done|apply grows_refl]|].
  unfold ruleMatches at 1. destruct (Matching rule) as [m|] eqn:E; [|exists c; split; [done|apply grows_refl]].
  assert (Hskip : forall c1, grows (rulePattern rule) c c1 -> exists c', selectRule compile MatchString model req rules c1 =
    (List.find (ruleMatches model req) rules, c') /\ grows (fun p => exists x, x ∈ rule :: rules /\ rulePattern x p) c c').
  { intros c1 G1. destruct (IH c1 (grows_consistent _ _ _ G1 Hc)) as (c2 & -> & G2). exists c2. split; [done|].
    apply (grows_trans _ _ _ _ _ _) with (4 := G2) (3 := G1).
    - intros p Hp. exists rule. split; [by left|done].
    - intros p (x & ? & ?). exists x. split; [by right|done]. }
  destruct (bodyMatches model m); simpl; [|apply Hskip, grows_refl].
  destruct (matchHeaders_spec req (Headers m) c Hc) as (c1 & -> & G1).
  assert (G1' : grows (rulePattern rule) c c1).
  { eapply grows_mono; [|exact G1]. intros p Hp. exists m. split; [done|by left]. }
  destruct (forallb _ (Headers m)); simpl; [|by apply Hskip].
  destruct (Uri m) as [uri|] eqn:Eu.
  - destruct (matchString_spec uri (Path req) c1 (grows_consistent _ _ _ G1 Hc)) as (c2 & -> & G2).
    assert (G2' : grows (rulePattern rule) c c2).
    { apply (grows_trans _ _ _ _ _ _) with (4 := G2) (3 := G1'); [done|]. intros p Hp. exists m. split; [done|right; by exists uri]. }
    destruct (stringMatches uri (Path req)); simpl; [|by apply Hskip].
    exists c2. split; [done|]. eapply grows_mono; [|exact G2']. intros p Hp. exists rule. split; [by left|done].
  - simpl. exists c1. split; [done|]. eapply grows_mono; [|exact G1']. intros p Hp. exists rule. split; [by left|done].
Qed.

(** The first candidate that offers a rule. *)
Fixpoint firstOffer (offers : ModelRoute -> option Rule) (l : list ModelRoute) : option (ModelRoute * Rule) :=
  match l with
  | [] => None
  | r :: l => match offers r with Some rule => Some (r, rule) | None => firstOffer offers l end
  end.

Lemma matchCandidates_spec gws model req gatewayKey l : forall c, consistent c ->
  exists c', matchCandidates compile MatchString gws model req gatewayKey l c = (firstOffer (offer gws model req gatewayKey) l, c') /\
    grows (fun p => exists r, r ∈ l /\ p ∈ collectRouteRegexes r) c c'.
Proof.
  induction l as [|r l IH]; intros c Hc; simpl; [exists c; split; [done|apply grows_refl]|].
  unfold offer at 1. set (P := fun p => exists x, x ∈ r :: l /\ p ∈ collectRouteRegexes x).
  assert (Hskip : forall c1, grows (fun p => p ∈ collectRouteRegexes r) c c1 ->
    exists c', matchCandidates compile MatchString gws model req gatewayKey l c1 =
      (firstOffer (offer gws model req gatewayKey) l, c') /\ grows P c c').
  { intros c1 G1. destruct (IH c1 (grows_consistent _ _ _ G1 Hc)) as (c2 & -> & G2). exists c2. split; [done|].
    apply (grows_trans _ _ _ _ _ _) with (4 := G2) (3 := G1).
    - intros p Hp. exists r. split; [by left|done].
    - intros p (x & ? & ?). exists x. split; [by right|done]. }
  destruct (attached gws gatewayKey r); simpl; [|apply Hskip, grows_refl].
  destruct (selectRule_spec model req (Rules r) c Hc) as (c1 & -> & G1).
  assert (G1' : grows (fun p => p ∈ collectRouteRegexes r) c c1).
  { eapply grows_mono; [|exact G1]. intros p Hp. by apply collect_spec. }
  destruct (List.find (ruleMatches model req) (Rules r)) as [rule|]; simpl; [|by apply Hskip].
  destruct (toWeightedSlice (TargetModels rule)) as [ws|]; simpl; [|by apply Hskip].
  exists c1. split; [done|]. eapply grows_mono; [|exact G1']. intros p Hp. exists r. split; [by left|done].
Qed.

Lemma firstOffer_spec offers l : StronglySorted notAfter l ->
  match firstOffer offers l with
  | Some (r, rule) => r ∈ l /\ offers r = Some rule /\ forall x, x ∈ l -> is_Some (offers x) -> notAfter r x
  | None => forall x, x ∈ l -> offers x = None
  end.
Proof.
  induction 1 as [|r l Hs IH Hr]; simpl; [by intros x ?%elem_of_nil|]. rewrite Forall_forall in Hr.
  destruct (offers r) as [rule|] eqn:E.
  - split; [by left|]. split; [done|]. intros x [->|Hx]%elem_of_cons _; [|by apply Hr].
    destruct (total notAfter r r); done.
  - destruct (firstOffer offers l) as [[y rule]|].
    + destruct IH as (H1 & H2 & H3). split; [by right|]. split; [done|]. intros x [->|Hx]%elem_of_cons Ho; [|by apply H3].
      rewrite E in Ho. by destruct Ho.
    + intros x [->|Hx]%elem_of_cons; [done|by apply IH].
Qed.

(** The routes a request for [model] may take: those of the base model, or of
    the LoRA adapter where no route has the base model. *)
Definition mayServe F (model : string) (isLora : bool) (r : ModelRoute) : Prop :=
  member F isLora model r /\ (isLora = true -> forall r', ~ member F false model r').

Definition best_offer F gws model req gatewayKey (found : option (ModelRoute * Rule * bool)) : Prop :=
  match found with
  | Some (r, rule, isLora) => mayServe F model isLora r /\ offer gws model req gatewayKey r = Some rule /\
      forall r', mayServe F model isLora r' -> is_Some (offer gws model req gatewayKey r') -> notAfter r r'
  | None => forall isLora r, mayServe F model isLora r -> offer gws model req gatewayKey r = None
  end.

Lemma match_spec F s model req gatewayKey : store_ok F s ->
  exists found c, matchModelRoute compile MatchString model req gatewayKey s = (found, set_cache c s) /\
    cache_ok F c /\ best_offer F (gateways s) model req gatewayKey found.
Proof.
  intros [_ _ [Hb Hl _ _] Hcache]. assert (Hc : consistent (regexCache s)) by (intros p re Hp; by apply Hcache).
  assert (Hrun : forall (lora : bool) m l, holds (member F lora) m -> m !! model = Some l ->
    (lora = true -> forall r', ~ member F false model r') -> (lora = false -> forall r, ~ mayServe F model true r) ->
    exists found c, (let '(found, c) := matchCandidates compile MatchString (gateways s) model req gatewayKey l (regexCache s) in
       ((fun p => (p.1, p.2, lora)) <$> found, set_cache c s)) = (found, set_cache c s) /\
      cache_ok F c /\ best_offer F (gateways s) model req gatewayKey found).
  { intros lora m l Hm Em Hlora Hbase. assert (El : at_name m model = l) by (unfold at_name; by rewrite Em).
    destruct (matchCandidates_spec (gateways s) model req gatewayKey l (regexCache s) Hc) as (c & -> & Hg).
    eexists _, c. split; [reflexivity|]. split.
    - intros p re [?%Hcache|[? (r & Hr & Hp)]]%Hg; [done|]. split; [done|]. exists (routeKey r), r. split; [|done].
      rewrite <- El, (hd_elem _ _ Hm) in Hr. apply Hr.
    - pose proof (firstOffer_spec (offer (gateways s) model req gatewayKey) l) as Hf.
      rewrite <- El in Hf at 1. specialize (Hf (hd_sorted _ _ Hm model)).
      destruct (firstOffer _ l) as [[r rule]|]; cbn [fmap option_fmap option_map fst snd best_offer].
      + destruct Hf as (F1 & F2 & F3). split; [split; [|done]|split; [done|]].
        * apply (hd_elem _ _ Hm). by rewrite El.
        * intros r' [Hr' _]. apply F3. rewrite <- El. by apply (hd_elem _ _ Hm).
      + intros isLora r Hr. destruct (decide (isLora = lora)) as [->|Hne].
        * apply Hf. rewrite <- El. by apply (hd_elem _ _ Hm), Hr.
        * exfalso. destruct isLora, lora; try done; [by eapply Hbase|by apply (Hlora eq_refl r), Hr]. }
  unfold matchModelRoute. destruct (routes s !! model) as [l|] eqn:E.
  - apply (Hrun false (routes s) l Hb E); [done|]. intros _ r [_ Hn].
    destruct l as [|r0 l]; [by apply (hd_nonempty _ _ Hb model)|]. apply (Hn eq_refl r0), (hd_elem _ _ Hb).
    unfold at_name. rewrite E. by left.
  - assert (Hnone : forall r', ~ member F false model r').
    { intros r' Hr'. apply (hd_elem _ _ Hb) in Hr'. unfold at_name in Hr'. rewrite E in Hr'. by apply elem_of_nil in Hr'. }
    destruct (loraRoutes s !! model) as [l|] eqn:E2; [by apply (Hrun true (loraRoutes s) l)|].
    exists None, (regexCache s). split; [by destruct s|]. split; [done|]. intros isLora r [Hr _]. exfalso. destruct isLora; [|by eapply Hnone].
    apply (hd_elem _ _ Hl) in Hr. unfold at_name in Hr. rewrite E2 in Hr. by apply elem_of_nil in Hr.
Qed.

Definition op_ok (op : RouteOp) : Prop := match op with OpAdd r => indexed r | _ => True end.

Lemma consistent_of F s : store_ok F s -> consistent (regexCache s).
Proof. intros Hs p re Hp. by apply (so_cache _ _ Hs). Qed.

Lemma delete_ok F s k : store_ok F s -> store_ok (delete k F) (DeleteModelRoute k s).
Proof.
  intros Hs. pose proof (remove_spec F s k Hs) as H. pose proof (consistent_of F s Hs) as Hc.
  pose proof (so_info _ _ Hs) as Hi. destruct (so_keys _ _ Hs) as [K1 K2]. unfold DeleteModelRoute.
  destruct (removeModelRouteFromIndexesLocked k s) as [[[model deleted] candidates] s'].
  destruct H as (Hx & Einfo & _ & Ecache & _ & _).
  set (s1 := MkStore _ _ _ _ _ _ _). assert (Hx1 : indexes_ok (delete k F) (cleanRequestWaitingQueues candidates s1)) by (by destruct Hx; split).
  split.
  - split; intros k' r (_ & Hr)%lookup_delete_Some; eauto.
  - cbn. rewrite Einfo, Hi. by rewrite fmap_delete.
  - destruct Hx1. by split.
  - apply gc_spec; [done|]. cbn. rewrite Ecache. exact Hc.
Qed.

Lemma add_ok F s r : indexed r -> store_ok F s -> store_ok (<[routeKey r := r]> F) (AddOrUpdateModelRoute r s).
Proof.
  intros Hr Hs. pose proof (remove_spec F s (routeKey r) Hs) as H. pose proof (consistent_of F s Hs) as Hc.
  pose proof (so_info _ _ Hs) as Hi. pose proof (so_keys _ _ Hs) as HF. pose proof HF as [K1 K2]. unfold AddOrUpdateModelRoute.
  destruct (removeModelRouteFromIndexesLocked (routeKey r) s) as [[[model deleted] candidates] s'].
  destruct H as ([Hb Hl Hg Hne] & Einfo & _ & Ecache & _ & _).
  set (s1 := MkStore _ _ _ _ _ _ _). set (names := filter _ candidates).
  assert (Hout : forall lora name x, member (delete (routeKey r) F) lora name x -> routeKey x = routeKey r -> x = r).
  { intros lora name x [Hx _] E. by rewrite E, lookup_delete_eq in Hx. }
  destruct (attach_spec (routeKey r) (RouteNamespace r) (ParentRefs r) _ Hne) as [G1 G2].
  assert (Hx1 : indexes_ok (<[routeKey r := r]> F) s1).
  { split; [| | |exact G1].
    - cbn [s1 routes]. case_bool_decide as Hm.
      + eapply holds_ext; [|exact Hb]. intros name x. rewrite insert_member by done. split; [by left|].
        intros [?|[[? ?] _]]; [done|congruence].
      + eapply holds_ext; [|apply putRoute_spec; [exact Hb|by apply (Hout false)]]. intros name x. rewrite insert_member by done.
        simpl. split; (intros [?|?]; [by left|right]); [destruct H as [-> ->]; done|by destruct H as [[-> _] ->]].
    - eapply holds_ext; [|apply putLoras_spec; [exact Hl|by apply (Hout true)]]. intros name x. by rewrite insert_member.
    - intros g k. cbn [s1 gatewayModelRoutes]. rewrite G2, Hg. destruct (decide (k = routeKey r)) as [->|Hne'].
      + rewrite lookup_insert_eq, lookup_delete_eq. split.
        * intros [(? & ? & _)|[_ Hp]]; [done|]. by exists r.
        * intros (x & [= <-] & Hp). right. by split.
      + rewrite lookup_insert_ne, lookup_delete_ne by done. split; [by intros [?|[? _]]|by left]. }
  split.
  - split; intros k x Hx; (destruct (decide (routeKey r = k)) as [<-|]; [rewrite lookup_insert_eq in Hx|rewrite lookup_insert_ne in Hx by done; eauto]); by injection Hx as <-.
  - cbn. rewrite Einfo, Hi. by rewrite fmap_insert.
  - destruct Hx1. by split.
  - apply gc_spec; [by destruct Hx1|]. cbn. rewrite Ecache. exact Hc.
Qed.

Lemma step_ok F s op : op_ok op -> store_ok F s -> store_ok (flatStep F op) (routeStep compile MatchString s op).
Proof.
  intros Hop Hs. destruct op as [r|k|g|k|model|model req gatewayKey]; cbn [flatStep routeStep].
  - by apply add_ok.
  - by apply delete_ok.
  - destruct Hs as [H1 H2 [] H4]. by split.
  - destruct Hs as [H1 H2 [] H4]. by split.
  - destruct Hs as [H1 H2 [] H4]. by split.
  - destruct (match_spec F s model req gatewayKey Hs) as (found & c & -> & Hc & _). destruct Hs as [H1 H2 [] H4]. by split.
Qed.

Lemma run_ok ops : Forall op_ok ops -> store_ok (fold_left flatStep ops ∅) (fold_left (routeStep compile MatchString) ops NewStore).
Proof.
  assert (Hrun : forall ops F s, store_ok F s -> Forall op_ok ops ->
    store_ok (fold_left flatStep ops F) (fold_left (routeStep compile MatchString) ops s)).
  { clear ops. induction ops as [|op ops IH]; intros F s Hs Hops; [done|]. inversion Hops; subst. simpl.
    apply IH; [by apply step_ok|done]. }
  apply Hrun. split.
  - split; intros k r; by rewrite lookup_empty.
  - cbn. by rewrite fmap_empty.
  - assert (Hnil : forall lora, holds (member ∅ lora) ∅).
    { intros lora. split; intros name; unfold at_name; rewrite ?lookup_empty; [constructor|constructor| |done].
      intros r. simpl. rewrite elem_of_nil. split; [done|]. intros [Hr _]. by rewrite lookup_empty in Hr. }
    split; [apply Hnil|apply Hnil| |intros g; cbn; by rewrite lookup_empty].
    intros g k. unfold at_gateway. cbn. rewrite lookup_empty. simpl. split; [by intros ?%elem_of_empty|].
    intros (r & Hr & _). by rewrite lookup_empty in Hr.
  - intros p re. cbn. by rewrite lookup_empty.
Qed.

(** *** The queries *)

Definition nonempty (l : list ModelRoute) : option (list ModelRoute) := match l with [] => None | _ => Some l end.

Lemma routesFor_elem F lora name r : keys_ok F -> r ∈ routesFor F lora name <-> member F lora name r.
Proof.
  intros [K _]. unfold routesFor. rewrite (proj2 (sorted_routes _)), list_elem_of_filter, list_elem_of_fmap. split.
  - intros [Hs ([k x] & -> & Hx)]. apply elem_of_map_to_list in Hx. split; [|done]. simpl. by rewrite (K _ _ Hx).
  - intros [Hr Hs]. split; [done|]. exists (routeKey r, r). split; [done|]. by apply elem_of_map_to_list.
Qed.

Lemma routesFor_nodup F lora name : keys_ok F -> NoDup (routesFor F lora name).
Proof.
  intros [K _]. unfold routesFor. rewrite (proj2 (sorted_routes _)). apply NoDup_filter.
  apply (NoDup_fmap_1 routeKey). assert (E : routeKey <$> (map_to_list F).*2 = (map_to_list F).*1).
  { rewrite <- list_fmap_compose. apply list_fmap_ext. intros i [k r] Hi. apply list_elem_of_lookup_2, elem_of_map_to_list in Hi.
    by apply K in Hi. }
  rewrite E. apply NoDup_fst_map_to_list.
Qed.

Lemma index_lookup F lora m name : keys_ok F -> holds (member F lora) m -> m !! name = nonempty (routesFor F lora name).
Proof.
  intros HF Hm. assert (E : at_name m name = routesFor F lora name).
  { apply (StronglySorted_unique_strong notAfter).
    - intros x y [Hx _]%(hd_elem _ _ Hm) [Hy _]%routesFor_elem H1 H2; [|done].
      pose proof (notAfter_antisym _ _ H1 H2) as Ek. rewrite Ek in Hx. congruence.
    - by apply (hd_sorted _ _ Hm).
    - apply sorted_routes.
    - apply NoDup_Permutation; [by apply (hd_nodup _ _ Hm)|by apply routesFor_nodup|]. intros x.
      by rewrite routesFor_elem, (hd_elem _ _ Hm). }
  rewrite <- E. unfold at_name. destruct (m !! name) as [l|] eqn:El; [|done]. simpl.
  destruct l; [|done]. by apply (hd_nonempty _ _ Hm) in El.
Qed.

Lemma index_some F lora m name : holds (member F lora) m -> is_Some (m !! name) <-> exists r, member F lora name r.
Proof.
  intros Hm. setoid_rewrite <- (hd_elem _ _ Hm name). unfold at_name. destruct (m !! name) as [l|] eqn:E; simpl.
  - split; [|by eexists]. intros _. destruct l as [|r l]; [by apply (hd_nonempty _ _ Hm) in E|]. exists r. by left.
  - split; [by intros [? ?]|]. by intros (r & ?%elem_of_nil).
Qed.

Lemma findKey_spec F lora m name k : keys_ok F -> holds (member F lora) m ->
  match findKey k (at_name m name) with
  | Some r => F !! k = Some r /\ serves lora name r
  | None => forall r, F !! k = Some r -> ~ serves lora name r
  end.
Proof.
  intros HF Hm. unfold findKey. destruct (filter _ (at_name m name)) as [|r l] eqn:E; simpl.
  - intros r Hr Hs. assert (Hin : r ∈ filter (fun r => routeKey r = k) (at_name m name)); [|rewrite E in Hin; by apply elem_of_nil in Hin].
    apply list_elem_of_filter. pose proof (ko_key _ HF _ _ Hr) as Ek. split; [done|]. apply (hd_elem _ _ Hm). split; [by rewrite Ek|done].
  - assert (Hin : r ∈ filter (fun r => routeKey r = k) (at_name m name)) by (rewrite E; by left).
    apply list_elem_of_filter in Hin as [<- [? ?]%(hd_elem _ _ Hm)]. done.
Qed.

Lemma locate_spec F s k r : store_ok F s -> F !! k = Some r -> locate s k (ModelName r, LoraAdapters r) = Some r.
Proof.
  intros [HF _ [Hb Hl _ _] _] E. unfold locate. cbn [fst snd].
  assert (Hlo : forall loras, (exists lora, lora ∈ loras /\ lora ∈ LoraAdapters r) -> findInLoras k (loraRoutes s) loras = Some r).
  { induction loras as [|lora loras IH]; intros (x & Hx & Hxr); [by apply elem_of_nil in Hx|]. simpl.
    pose proof (findKey_spec F true _ lora k HF Hl) as Hf. destruct (findKey k (at_name (loraRoutes s) lora)) as [y|].
    - destruct Hf. congruence.
    - apply IH. exists x. split; [|done]. apply elem_of_cons in Hx as [->|]; [|done]. by destruct (Hf r E). }
  pose proof (findKey_spec F false _ (ModelName r) k HF Hb) as Hf. pose proof (ko_indexed _ HF _ _ E) as Hix.
  case_bool_decide as Hm.
  - apply Hlo. destruct Hix as [?|H]; [done|]. destruct (LoraAdapters r) as [|x l]; [done|]. exists x. split; by left.
  - destruct (findKey k (at_name (routes s) (ModelName r))) as [y|]; [destruct Hf; congruence|]. by destruct (Hf r E).
Qed.

Lemma has_model F s name : store_ok F s -> HasModel s name = true <-> exists lora r, member F lora name r.
Proof.
  intros [_ _ [Hb Hl _ _] _]. unfold HasModel. pose proof (index_some F false _ name Hb) as H1. pose proof (index_some F true _ name Hl) as H2.
  destruct (routes s !! name) as [l|].
  - split; [|done]. intros _. exists false. apply H1. by eexists.
  - rewrite bool_decide_eq_true, H2. split; [by exists true|]. intros ([|] & H); [done|]. exfalso. apply H1 in H. by destruct H.
Qed.

Lemma add_closed_queue F s r name : store_ok F s -> name ∈ requestWaitingQueue s ->
  name ∉ requestWaitingQueue (AddOrUpdateModelRoute r s) ->
  at_name (routes (AddOrUpdateModelRoute r s)) name = [] /\ at_name (loraRoutes (AddOrUpdateModelRoute r s)) name = [].
Proof.
  intros Hs Hin. pose proof (remove_spec F s (routeKey r) Hs) as H. unfold AddOrUpdateModelRoute.
  destruct (removeModelRouteFromIndexesLocked (routeKey r) s) as [[[model deleted] candidates] s'].
  destruct H as (_ & _ & _ & _ & Eq & _). set (s1 := MkStore _ _ _ _ _ _ _). set (names := filter _ candidates).
  cbn [gcRegexCache cleanRequestWaitingQueues requestWaitingQueue routes loraRoutes]. intros Hout.
  destruct (decide (name ∈ names)) as [Hn|Hn].
  - apply list_elem_of_filter in Hn as [? _]. done.
  - exfalso. apply Hout. apply elem_of_difference. split; [cbn [s1 requestWaitingQueue]; by rewrite Eq|].
    by rewrite elem_of_list_to_set.
Qed.

Lemma add_keeps_queues F s r name : indexed r -> store_ok F s -> name ∈ requestWaitingQueue s ->
  name ∉ requestWaitingQueue (AddOrUpdateModelRoute r s) -> HasModel (AddOrUpdateModelRoute r s) name = false.
Proof.
  intros Hr Hs Hin Hout. destruct (add_closed_queue F s r name Hs Hin Hout) as [E1 E2].
  pose proof (add_ok F s r Hr Hs) as Hok. destruct (so_indexes _ _ Hok) as [Hb Hl _ _].
  apply not_true_is_false. intros (lora & x & Hx)%(has_model _ _ name Hok).
  destruct lora; [apply (hd_elem _ _ Hl) in Hx; rewrite E2 in Hx|apply (hd_elem _ _ Hb) in Hx; rewrite E1 in Hx];
    by apply elem_of_nil in Hx.
Qed.

(** C19: after any history of admitted routes, gateways, requests and matches,
    the store is the map from a key to the route last given for it: the index
    by base model and the index by LoRA adapter hold exactly the routes that
    name the model or the adapter, oldest first, and no empty list; the index by
    gateway holds exactly the keys of the routes attached to it; the queries
    answer from that map; a cached pattern is the compilation of a pattern that some route
    still mentions; and adding or updating a route closes the queue of a
    name only if no route serves it any more. *)
Theorem route_store_refines_map ops : Forall op_ok ops ->
  let F := fold_left flatStep ops ∅ in
  let s := fold_left (routeStep compile MatchString) ops NewStore in
  (forall name, routes s !! name = nonempty (routesFor F false name) /\ loraRoutes s !! name = nonempty (routesFor F true name)) /\
  (forall g k, k ∈ at_gateway (gatewayModelRoutes s) g <-> exists r, F !! k = Some r /\ attachedTo g r) /\
  (forall k, GetModelRoute s k = F !! k) /\ GetAllModelRoutes s = F /\
  (forall name, (HasModel s name = true <-> exists lora r, member F lora name r) /\
                (name ∈ GetModelNames s <-> exists lora r, member F lora name r)) /\
  (forall p re, regexCache s !! p = Some re -> re = compile p /\ patternOf F p) /\
  (forall r name, indexed r -> name ∈ requestWaitingQueue s -> name ∉ requestWaitingQueue (AddOrUpdateModelRoute r s) ->
     HasModel (AddOrUpdateModelRoute r s) name = false).
Proof.
  intros Hops F s. pose proof (run_ok ops Hops) as Hs. fold F s in Hs.
  pose proof Hs as [HF Hi [Hb Hl Hg Hne] Hc].
  assert (Hget : forall k, locate s k <$> routeInfo s !! k = Some <$> F !! k).
  { intros k. rewrite Hi, lookup_fmap. destruct (F !! k) as [r|] eqn:E; [|done]. simpl. f_equal. by apply (locate_spec F). }
  split_and!.
  - intros name. split; by apply index_lookup.
  - done.
  - intros k. unfold GetModelRoute. specialize (Hget k). destruct (routeInfo s !! k), (F !! k); naive_solver.
  - apply map_eq. intros k. unfold GetAllModelRoutes. rewrite map_lookup_imap. specialize (Hget k).
    destruct (routeInfo s !! k), (F !! k); naive_solver.
  - intros name. split; [by apply has_model|]. unfold GetModelNames. rewrite sortStrings_perm, elem_of_app.
    assert (Hdom : forall (m : index), name ∈ (map_to_list m).*1 <-> is_Some (m !! name)).
    { intros m. rewrite list_elem_of_fmap. split.
      - intros ([x l] & -> & Hx). apply elem_of_map_to_list in Hx. by exists l.
      - intros [l El]. exists (name, l). split; [done|]. by apply elem_of_map_to_list. }
    rewrite !Hdom, (index_some F false _ name Hb), (index_some F true _ name Hl). split.
    + intros [(r & ?)|(r & ?)]; by eexists _, r.
    + intros ([|] & r & ?); [right|left]; by exists r.
  - exact Hc.
  - intros r name Hr. by apply (add_keeps_queues F).
Qed.

(** *** The weighted choice *)

Definition uint32_ok (w : Z) : Prop := 0 <= w < 2 ^ 32.

(** What the API admits of targets: uint32 weights, at most 16 of them. *)
Definition targets_ok (targets : list (option TargetModel)) : Prop :=
  (length targets <= 16)%nat /\ forall t w, Some t ∈ targets -> Weight t = Some w -> uint32_ok w.

Definition op_targets_ok (op : RouteOp) : Prop :=
  match op with OpAdd r => forall rule, rule ∈ Rules r -> targets_ok (TargetModels rule) | _ => True end.

Lemma weightsOf_spec isWeighted targets ws : weightsOf isWeighted targets = Some ws ->
  length ws = length targets /\
  (forall i x, targets !! i = Some x -> exists t, x = Some t /\ ws !! i = Some (default 1 (Weight t)) /\ (isWeighted = bool_decide (is_Some (Weight t)))).
Proof.
  revert ws. induction targets as [|[t|] targets IH]; intros ws E; simpl in E; [by injection E as <-| |done].
  assert (Hcons : forall w, (ws' ← weightsOf isWeighted targets; Some (w :: ws')) = Some ws ->
    w = default 1 (Weight t) -> isWeighted = bool_decide (is_Some (Weight t)) ->
    length ws = S (length targets) /\ (forall i x, (Some t :: targets) !! i = Some x ->
      exists t', x = Some t' /\ ws !! i = Some (default 1 (Weight t')) /\ isWeighted = bool_decide (is_Some (Weight t')))).
  { intros w Ew Ed Ei. destruct (weightsOf isWeighted targets) as [ws'|]; [|done]. injection Ew as <-.
    destruct (IH ws' eq_refl) as [H1 H2]. split; [simpl; by f_equal|]. intros [|i] x Hx; [|by apply H2].
    injection Hx as <-. exists t. by rewrite Ed. }
  destruct isWeighted, (Weight t) as [w|] eqn:Ew; try done; eapply Hcons; try done; by rewrite Ew.
Qed.

Lemma toWeightedSlice_spec targets ws : toWeightedSlice targets = Some ws ->
  length ws = length targets /\ forall i x, targets !! i = Some x -> exists t, x = Some t /\ ws !! i = Some (default 1 (Weight t)).
Proof.
  unfold toWeightedSlice. intros E. destruct targets as [|[t|] targets]; try done.
  apply weightsOf_spec in E as [H1 H2]. split; [done|]. intros i x (t' & ? & ? & _)%H2. by exists t'.
Qed.

Lemma sumZ_bound ws (b : Z) : Forall (fun w => 0 <= w < b) ws -> 0 <= sumZ ws <= Z.of_nat (length ws) * b.
Proof. induction 1 as [|w ws Hw _ IH]; [simpl; lia|]. cbn [sumZ foldr length]. fold (sumZ ws). nia. Qed.

Lemma totalWeight_sum ws : Forall uint32_ok ws -> (length ws <= 16)%nat -> totalWeight ws = sumZ ws.
Proof.
  intros Hw Hl. unfold totalWeight.
  assert (Hg : forall ws a, Forall uint32_ok ws -> 0 <= a -> a + sumZ ws < 2 ^ 63 -> fold_left (fun t w => int64 (t + w)) ws a = a + sumZ ws).
  { clear. induction ws as [|w ws IH]; intros a Hw Ha Hs; [simpl; lia|]. inversion Hw as [|? ? Hw1 Hw2]; subst.
    pose proof (sumZ_bound ws _ Hw2) as Hb. unfold uint32_ok in Hw1. cbn [fold_left sumZ foldr] in *. fold (sumZ ws) in *.
    rewrite int64_id by go_lia. rewrite IH by (done || lia). lia. }
  rewrite Hg; [lia|done|lia|]. pose proof (sumZ_bound ws _ Hw). nia.
Qed.

Lemma pick_spec ws : forall n i, Forall uint32_ok ws -> 0 <= n < sumZ ws -> sumZ ws < 2 ^ 63 ->
  exists j, pick i ws n = i + Z.of_nat j /\ (j < length ws)%nat /\ sumZ (take j ws) <= n < sumZ (take (S j) ws).
Proof.
  induction ws as [|w ws IH]; intros n i Hw Hn Hs; [simpl in Hn; lia|]. inversion Hw as [|? ? Hw1 Hw2]; subst.
  pose proof (sumZ_bound ws _ Hw2) as Hb. unfold uint32_ok in Hw1. cbn [sumZ foldr] in Hn, Hs. fold (sumZ ws) in *.
  cbn [pick]. rewrite int64_id by go_lia. destruct (Z.ltb_spec (n - w) 0).
  - exists O. split; [lia|]. split; [simpl; lia|]. simpl. lia.
  - destruct (IH (n - w) (i + 1) Hw2) as (j & -> & Hj & Hr); [lia|lia|]. exists (S j).
    split; [lia|]. split; [simpl; lia|]. cbn [take sumZ foldr]. fold (sumZ (take j ws)) (sumZ (take (S j) ws)). lia.
Qed.

Lemma weights_ok targets ws : targets_ok targets -> toWeightedSlice targets = Some ws ->
  Forall uint32_ok ws /\ (length ws <= 16)%nat.
Proof.
  intros [Hl Ht] E. apply toWeightedSlice_spec in E as [E1 E2]. split; [|by rewrite E1]. apply Forall_forall. intros w Hw.
  apply list_elem_of_lookup in Hw as [i Hi]. assert (Hlt : (i < length targets)%nat) by (rewrite <- E1; by eapply lookup_lt_Some).
  apply lookup_lt_is_Some in Hlt as [x Hx]. destruct (E2 i x Hx) as (t & -> & Ew). rewrite Hi in Ew. injection Ew as ->.
  destruct (Weight t) as [w|] eqn:E; simpl; [|unfold uint32_ok; lia]. eapply Ht; [|exact E]. by eapply list_elem_of_lookup_2.
Qed.

Lemma flat_targets ops k r rule : Forall op_targets_ok ops -> fold_left flatStep ops ∅ !! k = Some r -> rule ∈ Rules r ->
  targets_ok (TargetModels rule).
Proof.
  assert (Hrun : forall ops F, Forall op_targets_ok ops ->
    (forall k r rule, F !! k = Some r -> rule ∈ Rules r -> targets_ok (TargetModels rule)) ->
    forall k r rule, fold_left flatStep ops F !! k = Some r -> rule ∈ Rules r -> targets_ok (TargetModels rule)).
  { clear. induction ops as [|op ops IH]; intros F Hops HF; [exact HF|]. inversion Hops as [|? ? Hop Hops']; subst. simpl.
    apply IH; [done|]. intros k r rule Hk Hr. destruct op as [x|x| | | |]; cbn [flatStep] in Hk; try by eapply HF.
    - destruct (decide (routeKey x = k)) as [<-|]; [rewrite lookup_insert_eq in Hk; injection Hk as <-; by apply Hop|].
      rewrite lookup_insert_ne in Hk by done. by eapply HF.
    - apply lookup_delete_Some in Hk as [_ Hk]. by eapply HF. }
  intros Hops Hk Hr. eapply (Hrun ops ∅ Hops); [|exact Hk|exact Hr]. intros k' r' rule'. by rewrite lookup_empty.
Qed.

(** What the choice among the targets of a rule answers: the target whose
    share of the total weight the random number falls into. *)
Definition chosen (Intn : Z -> Z) (namespace : string) (rule : Rule) (target : ModelTarget) : Prop :=
  exists ws i t, toWeightedSlice (TargetModels rule) = Some ws /\ TargetModels rule !! i = Some (Some t) /\
    ws !! i = Some (default 1 (Weight t)) /\ sumZ (take i ws) <= Intn (sumZ ws) < sumZ (take (S i) ws) /\
    modelTargetFromDestination namespace (Some t) = Some target.

(** Why there is no target although a route offers a rule. *)
Definition no_target (namespace : string) (rule : Rule) : Prop :=
  exists ws, toWeightedSlice (TargetModels rule) = Some ws /\
    (sumZ ws = 0 \/ exists t, Some t ∈ TargetModels rule /\ modelTargetFromDestination namespace (Some t) = None).

Lemma choose_spec Intn namespace rule ws : (forall n, 0 < n -> 0 <= Intn n < n) -> targets_ok (TargetModels rule) ->
  toWeightedSlice (TargetModels rule) = Some ws ->
  match (dst ← selectDestination Intn (TargetModels rule); modelTargetFromDestination namespace dst) with
  | Some target => chosen Intn namespace rule target
  | None => no_target namespace rule
  end.
Proof.
  intros Hrand Ht E. destruct (weights_ok _ _ Ht E) as [Hw Hl]. pose proof (sumZ_bound ws _ Hw) as Hb.
  destruct (toWeightedSlice_spec _ _ E) as [E1 E2]. unfold selectDestination. rewrite E. cbn [mbind option_bind].
  unfold selectFromWeightedSlice. destruct ws as [|w ws'] eqn:Ews.
  { exists []. by split; [|left]. }
  rewrite <- Ews in *. clear Ews w ws'. rewrite totalWeight_sum by done. destruct (Z.eqb_spec (sumZ ws) 0) as [E0|E0].
  { exists ws. by split; [|left]. }
  destruct (pick_spec ws (Intn (sumZ ws)) 0 Hw (Hrand (sumZ ws) ltac:(lia)) ltac:(nia)) as (j & -> & Hj & Hrange).
  cbn [mbind option_bind]. rewrite Z.add_0_l, Nat2Z.id. assert (Hlt : (j < length (TargetModels rule))%nat) by (by rewrite <- E1).
  apply lookup_lt_is_Some in Hlt as [x Hx]. destruct (E2 j x Hx) as (t & -> & Ew). rewrite Hx. cbn [mbind option_bind].
  destruct (modelTargetFromDestination namespace (Some t)) as [target|] eqn:Et.
  - exists ws, j, t. done.
  - exists ws. split; [done|]. right. exists t. split; [|done]. by eapply list_elem_of_lookup_2.
Qed.

(** After any history of admitted routes, a model name is routed as
    documented. The routes considered are those of the base model of that
    name, or of the LoRA adapter where no route has such a base model; of those
    attached to the gateway that offer a matching rule with valid targets the
    oldest is taken, with its first matching rule, whatever patterns are
    cached; the target is the one whose share of the total weight the random
    number falls into, so that each is drawn for exactly as many numbers as its
    weight; and no target is answered only when no route offers a rule, the
    weights are all zero, or a target is not exactly one backend. The store is
    left as it is, but for the cache. *)
Theorem model_target_spec Intn ops model req gatewayKey :
  (forall n, 0 < n -> 0 <= Intn n < n) -> Forall op_ok ops -> Forall op_targets_ok ops ->
  let F := fold_left flatStep ops ∅ in
  let s := fold_left (routeStep compile MatchString) ops NewStore in
  exists found, best_offer F (gateways s) model req gatewayKey found /\
  let '(answer, s') := MatchModelTarget compile MatchString Intn model req gatewayKey s in
  s' = set_cache (regexCache s') s /\
  match found, answer with
  | Some (r, rule, isLora), Some (target, isLora', r', rule') =>
      isLora' = isLora /\ r' = r /\ rule' = rule /\ chosen Intn (RouteNamespace r) rule target
  | Some (r, rule, _), None => no_target (RouteNamespace r) rule
  | None, answer => answer = None
  end.
Proof.
  intros Hrand Hops Htargets F s. pose proof (run_ok ops Hops) as Hs. fold F s in Hs.
  destruct (match_spec F s model req gatewayKey Hs) as (found & c & E & _ & Hbest). exists found. split; [done|].
  unfold MatchModelTarget. rewrite E. split; [done|].
  destruct found as [[[r rule] isLora]|]; [|done]. cbn [mbind option_bind]. destruct Hbest as ([[Hr _] _] & Ho & _).
  unfold offer in Ho. destruct (attached _ _ r); [|done]. destruct (List.find _ (Rules r)) as [rule'|] eqn:Ef; [|done].
  cbn [mbind option_bind] in Ho. destruct (toWeightedSlice (TargetModels rule')) as [ws|] eqn:Ew; [|done].
  injection Ho as ->. apply List.find_some in Ef as [Hin _]. apply list_elem_of_In in Hin.
  pose proof (choose_spec Intn (RouteNamespace r) rule ws Hrand (flat_targets ops _ r rule Htargets Hr Hin) Ew) as Hc.
  destruct (selectDestination Intn (TargetModels rule)) as [dst|]; [|done]. cbn [mbind option_bind] in *.
  destruct (modelTargetFromDestination (RouteNamespace r) dst) as [target|]; done.
Qed.
End invariant.

(** *** Concrete routes *)

Definition target (server : string) (w : Z) : option TargetModel := Some (MkTarget server "" (Some w)).
Definition plainRoute (name : string) (time : Z) (model : string) (loras : list string) (rules : list Rule) : ModelRoute :=
  MkRoute "default" name time "1" model loras [] rules.

(** Two routes of one model, the younger given first, and one of an adapter
    that has the name of that model. *)
Definition young_route := plainRoute "young" 20 "llama" [] [MkRule None [target "spare" 100]].
Definition old_route := plainRoute "old" 10 "llama" ["lora-a"%string]
  [MkRule (Some (MkModelMatch [("x-tenant"%string, MkMatch None None (Some "gold"%string))] None None)) [target "large" 70; target "small" 30]].
Definition adapter_route := plainRoute "adapter" 5 "base" ["llama"%string] [MkRule None [target "other" 1]].
Definition route_history : list RouteOp := [OpAdd young_route; OpAdd old_route; OpEnqueue "llama"; OpAdd adapter_route].

Definition sameString (p : string) : option string := Some p.
Definition tenant (t : string) : HTTPRequest := MkHTTPRequest (fun name => if bool_decide (name = "x-tenant"%string) then t else ""%string) "/v1/chat/completions".
Definition store_of (ops : list RouteOp) : routeStore string := fold_left (routeStep sameString String.eqb) ops NewStore.

Lemma route_history_ok : Forall op_ok route_history.
Proof.
  unfold route_history. do 4 (apply Forall_cons; split; [try exact I; by left|]). by apply Forall_nil.
Qed.

Lemma route_store_refines_map_witness :
  Forall op_ok route_history /\ GetModelRoute (store_of route_history) "default/old" = Some old_route /\
  routes (store_of route_history) !! "llama"%string = Some [old_route; young_route].
Proof.
  pose proof route_history_ok as Hok.
  split; [exact Hok|]. destruct (route_store_refines_map sameString String.eqb route_history Hok) as (H1 & _ & H3 & _).
  split; [unfold store_of; rewrite H3; vm_compute; reflexivity|]. destruct (H1 "llama"%string) as [E _].
  unfold store_of. rewrite E. vm_compute. reflexivity.
Defined.

(** The request of the gold tenant takes the older route; of 100 numbers, those
    from 70 on go to its second target. *)
Lemma model_target_spec_witness :
  Forall op_targets_ok route_history /\
  best_offer sameString String.eqb (fold_left flatStep route_history ∅) ∅ "llama" (tenant "gold") ""
    (Some (old_route, default (MkRule None []) (head (Rules old_route)), false)) /\
  (MatchModelTarget sameString String.eqb (fun n => n - 30) "llama" (tenant "gold") "" (store_of route_history)).1 =
    Some (MkModelTarget ModelTargetKindModelServer "default" "small", false, old_route, default (MkRule None []) (head (Rules old_route))).
Proof.
  pose proof route_history_ok as Hok.
  assert (Ht : Forall op_targets_ok route_history).
  { unfold route_history. rewrite !Forall_cons. split_and!; [| |exact I| |by apply Forall_nil]; intros rule Hr; cbn in Hr;
      apply list_elem_of_singleton in Hr as ->; (split; [simpl; lia|]); intros t w Hin Ew; cbn in Hin;
      repeat (apply elem_of_cons in Hin as [Hin|Hin]; [injection Hin as ->; injection Ew as <-; unfold uint32_ok; lia|]);
      by apply elem_of_nil in Hin. }
  split; [exact Ht|].
  assert (E : (MatchModelTarget sameString String.eqb (fun n => Z.max 0 (n - 30)) "llama" (tenant "gold") "" (store_of route_history)).1 =
    Some (MkModelTarget ModelTargetKindModelServer "default" "small", false, old_route, default (MkRule None []) (head (Rules old_route))))
    by (vm_compute; reflexivity).
  split; [|vm_compute; reflexivity].
  destruct (model_target_spec sameString String.eqb (fun n => Z.max 0 (n - 30)) route_history "llama" (tenant "gold") "" ltac:(lia) Hok Ht)
    as (found & Hbest & H). change (fold_left _ route_history NewStore) with (store_of route_history) in H.
  destruct (MatchModelTarget _ _ _ _ _ _ _) as [answer s']. cbn [fst] in E. subst answer. destruct H as [_ H].
  destruct found as [[[r rule] isLora]|]; [|done]. destruct H as (<- & <- & <- & _). exact Hbest.
Defined.

(** Deleting the routes of a base model closes the queue of its name even if a
    route still serves the name as an adapter, which an update does not. *)
Lemma delete_closes_served_queue :
  let s := store_of (route_history ++ [OpDelete "default/young"%string]) in
  let s' := DeleteModelRoute "default/old" s in
  "llama"%string ∈ requestWaitingQueue s /\ "llama"%string ∉ requestWaitingQueue s' /\ HasModel s' "llama" = true.
Proof.
  split; [apply (bool_decide_unpack _); vm_compute; exact I|].
  split; [apply (bool_decide_unpack _); vm_compute; exact I|]. vm_compute. reflexivity.
Qed.
