(* ===== verification/PrefixStore.v ===== *)
(** * pkg/kthena-router/scheduler/plugins/cache/prefix_store.go,
      plugins/prefix_cache.go: the prefix cache

    Which pod has served which blocks of which prompts: an index from a model
    and a block hash to pods, and for every pod a bounded LRU of its blocks.
    Every operation is one step (the code lets a deletion overlap an addition
    and accepts the approximation); metrics are left out. *)
From Stdlib Require Import Ascii String.
From S2P Require Import Prelude.
Local Open Scope Z_scope.

(** ** The LRU

    [Cache] of lru.go over golang-lru: [lruAdd] is Add with the key it
    evicts, which is what the eviction callback gets; [lruKeys] lists the keys
    from oldest to newest. *)
Class LRU (C K : Type) := {
  lruNew : nat -> C;
  lruAdd : K -> C -> C * option K;
  lruKeys : C -> list K;
  lruSize : C -> nat
}.

Definition touched {K} `{EqDecision K} (k : K) (l : list K) : list K := filter (fun x => x <> k) l ++ [k].

Class LRULaws (C K : Type) `{EqDecision K} `{!LRU C K} : Prop := {
  lru_new_keys n : lruKeys (C := C) (lruNew n) = [];
  lru_new_size n : lruSize (C := C) (K := K) (lruNew n) = n;
  lru_add_size k (c : C) : lruSize (K := K) (lruAdd k c).1 = lruSize (K := K) c;
  lru_add_fits k (c : C) : (length (touched k (lruKeys c)) <= lruSize (K := K) c)%nat ->
    lruKeys (lruAdd k c).1 = touched k (lruKeys c) /\ (lruAdd k c).2 = None;
  lru_add_evicts k (c : C) : (lruSize (K := K) c < length (touched k (lruKeys c)))%nat ->
    lruKeys (lruAdd k c).1 = tail (touched k (lruKeys c)) /\ (lruAdd k c).2 = head (touched k (lruKeys c))
}.

(** ** The store *)

Record hashModelKey := MkKey { hash : Z; model : string }.
#[global] Instance hashModelKey_eq_dec : EqDecision hashModelKey.
Proof. solve_decision. Defined.

Abbreviation pod := (string * string)%type.
Abbreviation shard := (gmap Z (gset pod)).

Definition numShards : Z := 32.

(** The shards of a model. *)
Abbreviation modelHashes := (list shard).
Definition newModelHashes : modelHashes := replicate (Z.to_nat numShards) ∅.
Definition shardOf (h : Z) : nat := Z.to_nat (h mod numShards).
Definition getShard (mh : modelHashes) (h : Z) : shard := default ∅ (mh !! shardOf h).
Definition setShard (mh : modelHashes) (h : Z) (s : shard) : modelHashes := <[shardOf h := s]> mh.
Definition isModelHashShardEmpty (mh : modelHashes) : bool := forallb (fun s => bool_decide (s = (∅ : shard))) mh.

Section store.
Context {C : Type} `{!LRU C hashModelKey}.

Record ModelPrefixStore := MkPrefixStore {
  entries : gmap string modelHashes;
  podHashes : gmap pod C;
  topK : Z;
  hashCapacity : nat
}.

Definition NewModelPrefixStore (capacity : nat) (k : Z) : ModelPrefixStore := MkPrefixStore ∅ ∅ k capacity.

Definition set_entries (e : gmap string modelHashes) (s : ModelPrefixStore) : ModelPrefixStore :=
  MkPrefixStore e (podHashes s) (topK s) (hashCapacity s).
Definition set_podHashes (p : gmap pod C) (s : ModelPrefixStore) : ModelPrefixStore :=
  MkPrefixStore (entries s) p (topK s) (hashCapacity s).

(** The pod leaves the set of a hash; an empty set is dropped. *)
Definition evictHash (p : pod) (mh : modelHashes) (h : Z) : modelHashes :=
  match getShard mh h !! h with
  | Some podSet =>
    let podSet := podSet ∖ {[p]} in
    setShard mh h (if bool_decide (podSet = ∅) then delete h (getShard mh h) else <[h := podSet]> (getShard mh h))
  | None => mh
  end.

Definition onHashEvicted (m : string) (hashSlice : list Z) (p : pod) (s : ModelPrefixStore) : ModelPrefixStore :=
  match entries s !! m with
  | Some mh => set_entries (<[m := fold_left (evictHash p) hashSlice mh]> (entries s)) s
  | None => s
  end.

Definition insertHash (p : pod) (mh : modelHashes) (h : Z) : modelHashes :=
  setShard mh h (<[h := {[p]} ∪ default ∅ (getShard mh h !! h)]> (getShard mh h)).

(** One round of the loop of [Add]. *)
Definition addHash (m : string) (p : pod) (s : ModelPrefixStore) (h : Z) : ModelPrefixStore :=
  let mh := insertHash p (default newModelHashes (entries s !! m)) h in
  let s := set_entries (<[m := mh]> (entries s)) s in
  let '(c, evicted) := lruAdd (MkKey h m) (default (lruNew (hashCapacity s)) (podHashes s !! p)) in
  let s := set_podHashes (<[p := c]> (podHashes s)) s in
  match evicted with
  | Some k => onHashEvicted (model k) [hash k] p s
  | None => s
  end.

Definition Add (m : string) (hashes : list Z) (p : pod) (s : ModelPrefixStore) : ModelPrefixStore :=
  let s := match podHashes s !! p with
           | Some _ => s
           | None => set_podHashes (<[p := lruNew (hashCapacity s)]> (podHashes s)) s
           end in
  let s := match entries s !! m with
           | Some _ => s
           | None => set_entries (<[m := newModelHashes]> (entries s)) s
           end in
  fold_left (addHash m p) (rev hashes) s.

Definition groupByModel (keys : list hashModelKey) : gmap string (list Z) :=
  fold_left (fun g k => <[model k := default [] (g !! model k) ++ [hash k]]> g) keys ∅.

Definition dropModel (p : pod) (s : ModelPrefixStore) (group : string * list Z) : ModelPrefixStore :=
  let s := onHashEvicted group.1 group.2 p s in
  match entries s !! group.1 with
  | Some mh => if isModelHashShardEmpty mh then set_entries (delete group.1 (entries s)) s else s
  | None => s
  end.

(** [iterate]: the order in which the map of models is iterated. *)
Definition onPodDeleted (iterate : gmap string (list Z) -> list (string * list Z)) (p : pod) (s : ModelPrefixStore) :
    ModelPrefixStore :=
  match podHashes s !! p with
  | None => s
  | Some c =>
    let s := set_podHashes (delete p (podHashes s)) s in
    fold_left (dropModel p) (iterate (groupByModel (lruKeys c))) s
  end.

(** [inl]: the matches are complete. *)
Fixpoint matchPods (candidates : gset pod) (k : Z) (n : Z) (pods : list pod) (matches : gmap pod Z) : gmap pod Z + gmap pod Z :=
  match pods with
  | [] => inr matches
  | p :: pods =>
    if negb (bool_decide (p ∈ candidates)) then matchPods candidates k n pods matches
    else match matches !! p with
         | Some _ => matchPods candidates k n pods matches
         | None => let matches := <[p := n]> matches in
                   if k <=? Z.of_nat (size matches) then inl matches else matchPods candidates k n pods matches
         end
  end.

(** The loop from the last hash to the first; [rest] is in that order. *)
Fixpoint matchHashes (visit : gset pod -> list pod) (mh : modelHashes) (candidates : gset pod) (k : Z)
    (rest : list Z) (matches : gmap pod Z) : gmap pod Z :=
  match rest with
  | [] => matches
  | h :: rest =>
    let found := match getShard mh h !! h with
                 | Some podSet => matchPods candidates k (Z.of_nat (length rest) + 1) (visit podSet) matches
                 | None => inr matches
                 end in
    match found with
    | inl matches => matches
    | inr matches => matchHashes visit mh candidates k rest matches
    end
  end.

(** [visit]: the order in which a set of pods is iterated. *)
Definition FindTopMatches (visit : gset pod -> list pod) (m : string) (hashes : list Z) (pods : list pod)
    (s : ModelPrefixStore) : gmap pod Z :=
  match entries s !! m with
  | None => ∅
  | Some mh => matchHashes visit mh (list_to_set pods) (topK s) (rev hashes) ∅
  end.

Definition EntryCount (s : ModelPrefixStore) : Z :=
  sumZ ((fun c => Z.of_nat (length (lruKeys (K := hashModelKey) c))) <$> (map_to_list (podHashes s)).*2).
End store.
Arguments ModelPrefixStore : clear implicits.

(** ** [hashPrompt]

    [Sum64] is xxhash; a prompt is its bytes, taken in blocks. *)
Section prompt.
Context (Sum64 : list ascii -> Z) (AppendUint : Z -> list ascii) (blockSizeToHash : nat).

Fixpoint hashBlocks (fuel : nat) (prevHash : Z) (prompt : list ascii) : list Z :=
  match fuel, prompt with
  | O, _ | _, [] => []
  | S fuel, _ =>
    let currHash := Sum64 (AppendUint prevHash ++ take blockSizeToHash prompt) in
    currHash :: hashBlocks fuel currHash (drop blockSizeToHash prompt)
  end.

Definition hashPrompt (maxBlocksToMatch : nat) (m : string) (prompt : list ascii) : list Z :=
  hashBlocks maxBlocksToMatch (Sum64 (list_ascii_of_string m)) prompt.
End prompt.

(** ** The shards *)

(** The pods of a hash. *)
Definition at_hash (mh : modelHashes) (h : Z) : gset pod := default ∅ (getShard mh h !! h).

Record shards_ok (mh : modelHashes) : Prop := {
  sh_length : length mh = Z.to_nat numShards;
  sh_nonempty : forall h, getShard mh h !! h <> Some ∅
}.

Lemma get_set mh h s h' : length mh = Z.to_nat numShards ->
  getShard (setShard mh h s) h' = if decide (shardOf h = shardOf h') then s else getShard mh h'.
Proof.
  intros Hl. unfold getShard, setShard. case_decide as E.
  - rewrite <- E, list_lookup_insert_eq; [done|]. rewrite Hl. unfold shardOf, numShards.
    pose proof (Z.mod_pos_bound h 32 ltac:(lia)). lia.
  - by rewrite list_lookup_insert_ne.
Qed.

Lemma new_ok : shards_ok newModelHashes /\ forall h, at_hash newModelHashes h = ∅.
Proof.
  assert (E : forall h, getShard newModelHashes h = ∅).
  { intros h. unfold getShard, newModelHashes. rewrite lookup_replicate_2; [done|]. unfold shardOf, numShards.
    pose proof (Z.mod_pos_bound h 32 ltac:(lia)). lia. }
  split; [split; [unfold newModelHashes; by rewrite length_replicate|]|]; intros h; unfold at_hash; by rewrite E, lookup_empty.
Qed.

(** Replacing the set of one hash in its shard. *)
Lemma set_hash (mh : modelHashes) (h : Z) (s : shard) : shards_ok mh -> (forall h' : Z, h' <> h -> s !! h' = getShard mh h !! h') -> s !! h <> Some ∅ ->
  shards_ok (setShard mh h s) /\ forall h', at_hash (setShard mh h s) h' = if decide (h = h') then default ∅ (s !! h) else at_hash mh h'.
Proof.
  intros [Hl Hn] Hs Hne. split; [split|].
  - unfold setShard. by rewrite length_insert.
  - intros h'. rewrite get_set by done. case_decide as E; [|apply Hn].
    destruct (decide (h' = h)) as [->|Hd]; [done|]. rewrite Hs by done. unfold getShard. rewrite E. apply Hn.
  - intros h'. unfold at_hash. rewrite get_set by done. destruct (decide (h = h')) as [<-|Hd]; [by rewrite decide_True|].
    case_decide as E; [|done]. rewrite Hs by done. unfold getShard. by rewrite E.
Qed.

Lemma insertHash_spec p mh h : shards_ok mh ->
  shards_ok (insertHash p mh h) /\ forall h' x, x ∈ at_hash (insertHash p mh h) h' <-> x ∈ at_hash mh h' \/ (h' = h /\ x = p).
Proof.
  intros Hm. unfold insertHash. destruct (set_hash mh h (<[h := {[p]} ∪ default ∅ (getShard mh h !! h)]> (getShard mh h)) Hm) as [H1 H2].
  - intros h' Hne. by rewrite lookup_insert_ne.
  - rewrite lookup_insert_eq. intros [= E]. apply (not_elem_of_empty (C := gset pod) p). rewrite <- E.
    apply elem_of_union. left. by apply elem_of_singleton.
  - split; [done|]. intros h' x. rewrite H2. case_decide as E; [subst h'|].
    + rewrite lookup_insert_eq. simpl. rewrite elem_of_union, elem_of_singleton. unfold at_hash. tauto.
    + split; [by left|]. intros [?|[-> _]]; done.
Qed.

Lemma evictHash_spec p mh h : shards_ok mh ->
  shards_ok (evictHash p mh h) /\ forall h' x, x ∈ at_hash (evictHash p mh h) h' <-> x ∈ at_hash mh h' /\ ~ (h' = h /\ x = p).
Proof.
  intros Hm. unfold evictHash. destruct (getShard mh h !! h) as [podSet|] eqn:E.
  2: { split; [done|]. intros h' x. split; [|by intros [? _]]. intros Hx. split; [done|]. intros [-> ->].
       unfold at_hash in Hx. rewrite E in Hx. by apply elem_of_empty in Hx. }
  set (s := if bool_decide _ then _ else _).
  assert (Hs : s !! h <> Some ∅ /\ default ∅ (s !! h) = podSet ∖ {[p]} /\ forall h', h' <> h -> s !! h' = getShard mh h !! h').
  { unfold s. case_bool_decide as Hb.
    - rewrite lookup_delete_eq. split_and!; [done|by rewrite Hb|]. intros h' Hne. by rewrite lookup_delete_ne.
    - rewrite lookup_insert_eq. split_and!; [by intros [= ?]|done|]. intros h' Hne. by rewrite lookup_insert_ne. }
  destruct Hs as (S1 & S2 & S3). destruct (set_hash mh h s Hm S3 S1) as [H1 H2]. split; [done|]. intros h' x. rewrite H2.
  case_decide as Eh; [subst h'|].
  - rewrite S2. unfold at_hash. rewrite E. simpl. rewrite elem_of_difference, elem_of_singleton. tauto.
  - split; [|by intros [? _]]. intros ?. split; [done|]. by intros [-> _].
Qed.

Lemma evictHashes_spec p hs : forall mh, shards_ok mh ->
  shards_ok (fold_left (evictHash p) hs mh) /\
  forall h x, x ∈ at_hash (fold_left (evictHash p) hs mh) h <-> x ∈ at_hash mh h /\ ~ (h ∈ hs /\ x = p).
Proof.
  induction hs as [|h0 hs IH]; intros mh Hm; simpl.
  - split; [done|]. intros h x. split; [|by intros [? _]]. intros ?. split; [done|]. by intros [?%elem_of_nil _].
  - destruct (evictHash_spec p mh h0 Hm) as [H1 H2]. destruct (IH _ H1) as [H3 H4]. split; [done|].
    intros h x. rewrite H4, H2, elem_of_cons. tauto.
Qed.

Lemma empty_shards mh h : isModelHashShardEmpty mh = true -> at_hash mh h = ∅.
Proof.
  intros He. unfold at_hash, getShard. destruct (mh !! shardOf h) as [s|] eqn:E; simpl; [|by rewrite lookup_empty].
  unfold isModelHashShardEmpty in He. rewrite forallb_forall in He. specialize (He s).
  apply list_elem_of_lookup_2, list_elem_of_In in E. apply He, bool_decide_eq_true in E. subst s. by rewrite lookup_empty.
Qed.

(** ** The index and the LRUs agree *)

Section agree.
Context {C : Type} `{!LRU C hashModelKey, !LRULaws C hashModelKey}.
Implicit Types (s : ModelPrefixStore C).

Definition indexed s (m : string) (h : Z) : gset pod :=
  match entries s !! m with Some mh => at_hash mh h | None => ∅ end.

(** The blocks a pod's LRU holds, oldest first. *)
Definition blocksOf s (p : pod) : list hashModelKey := match podHashes s !! p with Some c => lruKeys c | None => [] end.

Record store_ok s : Prop := {
  so_shards : forall m mh, entries s !! m = Some mh -> shards_ok mh;
  so_index : forall m h p, p ∈ indexed s m h <-> MkKey h m ∈ blocksOf s p;
  so_size : forall p c, podHashes s !! p = Some c -> lruSize (K := hashModelKey) c = hashCapacity s;
  so_nodup : forall p, NoDup (blocksOf s p);
  so_bounded : forall p, (length (blocksOf s p) <= hashCapacity s)%nat
}.

Lemma touched_elem (k x : hashModelKey) l : x ∈ touched k l <-> x ∈ l \/ x = k.
Proof.
  unfold touched. rewrite elem_of_app, list_elem_of_filter, list_elem_of_singleton.
  destruct (decide (x = k)); naive_solver.
Qed.

Lemma touched_nodup (k : hashModelKey) l : NoDup l -> NoDup (touched k l).
Proof.
  intros Hl. unfold touched. apply NoDup_app. split_and!; [by apply NoDup_filter| |apply NoDup_singleton].
  intros x [Hx _]%list_elem_of_filter ->%list_elem_of_singleton. done.
Qed.

Lemma touched_length (k : hashModelKey) l : (length (touched k l) <= S (length l))%nat.
Proof. unfold touched. rewrite length_app. pose proof (length_filter (fun x => x <> k) l). simpl. lia. Qed.

(** The keys of an LRU after the addition of [k] to the keys [l]. *)
Definition added (k : hashModelKey) (l l' : list hashModelKey) (evicted : option hashModelKey) : Prop :=
  (evicted = None /\ l' = touched k l) \/ exists x, evicted = Some x /\ x <> k /\ x :: l' = touched k l.

(** What an addition to the LRU does to its keys. *)
Lemma add_keys (k : hashModelKey) (c : C) : NoDup (lruKeys c) -> (1 <= lruSize (K := hashModelKey) c)%nat ->
  (length (lruKeys (K := hashModelKey) c) <= lruSize (K := hashModelKey) c)%nat ->
  let '(c', evicted) := lruAdd k c in
  NoDup (lruKeys (K := hashModelKey) c') /\ (length (lruKeys (K := hashModelKey) c') <= lruSize (K := hashModelKey) c)%nat /\
  lruSize (K := hashModelKey) c' = lruSize (K := hashModelKey) c /\
  added k (lruKeys c) (lruKeys c') evicted.
Proof.
  intros Hd H1 Hb. pose proof (touched_nodup k _ Hd) as Ht. pose proof (touched_length k (lruKeys c)) as Hlen.
  pose proof (lru_add_size k c) as Hs. pose proof (lru_add_fits k c) as Hf. pose proof (lru_add_evicts k c) as He.
  destruct (lruAdd k c) as [c' evicted]. cbn [fst snd] in *.
  destruct (le_lt_dec (length (touched k (lruKeys c))) (lruSize (K := hashModelKey) c)) as [Hle|Hgt].
  - destruct (Hf Hle) as [E1 E2]. rewrite E1. split_and!; [done|done|done|by left].
  - destruct (He Hgt) as [E1 E2]. destruct (touched k (lruKeys c)) as [|x l] eqn:E; [simpl in Hgt; lia|]. simpl in E1, E2, Hlen.
    rewrite E1. inversion Ht as [|? ? Hx Hl]; subst. split_and!; [done|lia|done|]. right. exists x.
    split_and!; [done| |done]. intros ->. unfold touched in E.
    destruct (filter (fun y => y <> k) (lruKeys c)) as [|y l'] eqn:Ef; simpl in E.
    + injection E as E. rewrite <- E in Hgt. cbn [length] in Hgt. lia.
    + injection E as E _. assert (Hy : y ∈ filter (fun y => y <> k) (lruKeys c)) by (rewrite Ef; by left).
      apply list_elem_of_filter in Hy as [Hy _]. congruence.
Qed.

Lemma evicted_ok s m hs p : (forall m' mh, entries s !! m' = Some mh -> shards_ok mh) ->
  let s' := onHashEvicted m hs p s in
  (forall m' mh, entries s' !! m' = Some mh -> shards_ok mh) /\ podHashes s' = podHashes s /\ hashCapacity s' = hashCapacity s /\
  topK s' = topK s /\ (forall m', is_Some (entries s' !! m') <-> is_Some (entries s !! m')) /\
  (forall m' h x, x ∈ indexed s' m' h <-> x ∈ indexed s m' h /\ ~ (m' = m /\ h ∈ hs /\ x = p)).
Proof.
  intros Hs. unfold onHashEvicted. destruct (entries s !! m) as [mh|] eqn:E.
  2: { split_and!; try done. intros m' h x. split; [|by intros [? _]]. intros Hx. split; [done|]. intros (-> & _ & ->).
       unfold indexed in Hx. rewrite E in Hx. by apply elem_of_empty in Hx. }
  destruct (evictHashes_spec p hs mh (Hs m mh E)) as [H1 H2]. cbn [entries podHashes hashCapacity set_entries topK].
  split_and!; try done.
  - intros m' mh' Hm'. destruct (decide (m = m')) as [->|]; [rewrite lookup_insert_eq in Hm'; by injection Hm' as <-|].
    rewrite lookup_insert_ne in Hm' by done. by eapply Hs.
  - intros m'. destruct (decide (m = m')) as [->|]; [rewrite lookup_insert_eq, E; split; by eexists|by rewrite lookup_insert_ne].
  - intros m' h x. unfold indexed. cbn [entries set_entries]. destruct (decide (m = m')) as [<-|Hne].
    + rewrite lookup_insert_eq, E, H2. tauto.
    + rewrite lookup_insert_ne by done. split; [|by intros [? _]]. intros ?. split; [done|]. by intros [-> _].
Qed.

Lemma indexed_insert s m mh m' h : indexed (set_entries (<[m := mh]> (entries s)) s) m' h =
  if decide (m = m') then at_hash mh h else indexed s m' h.
Proof.
  unfold indexed. cbn [set_entries entries]. case_decide as E; [subst; by rewrite lookup_insert_eq|by rewrite lookup_insert_ne].
Qed.

Lemma blocks_insert s p c q : blocksOf (set_podHashes (<[p := c]> (podHashes s)) s) q =
  if decide (p = q) then lruKeys c else blocksOf s q.
Proof.
  unfold blocksOf. cbn [set_podHashes podHashes]. case_decide as E; [subst; by rewrite lookup_insert_eq|by rewrite lookup_insert_ne].
Qed.

Lemma added_elem k l l' evicted : NoDup l -> added k l l' evicted ->
  forall x, x ∈ l' <-> x ∈ touched k l /\ evicted <> Some x.
Proof.
  intros Hl Ha x. pose proof (touched_nodup k _ Hl) as Ht. destruct Ha as [[-> ->]|(y & -> & Hy & E)]; [naive_solver|].
  rewrite <- E in Ht |- *. apply NoDup_cons in Ht as [Hn _]. rewrite elem_of_cons. split; [intros ?; split; [by right|congruence]|].
  intros [[->|?] Hne]; [by destruct Hne|done].
Qed.

(** The pod [p] touches the block [k]. *)
Record touches s (p : pod) (k : hashModelKey) s' : Prop := {
  tc_ok : store_ok s';
  tc_capacity : hashCapacity s' = hashCapacity s;
  tc_topK : topK s' = topK s;
  tc_blocks : exists evicted, added k (blocksOf s p) (blocksOf s' p) evicted;
  tc_others : forall q, q <> p -> blocksOf s' q = blocksOf s q
}.

Lemma touches_intro s p h m c' evicted s' : store_ok s ->
  NoDup (lruKeys (K := hashModelKey) c') -> (length (lruKeys (K := hashModelKey) c') <= hashCapacity s)%nat ->
  lruSize (K := hashModelKey) c' = hashCapacity s -> added (MkKey h m) (blocksOf s p) (lruKeys c') evicted ->
  (forall m' mh', entries s' !! m' = Some mh' -> shards_ok mh') -> podHashes s' = <[p := c']> (podHashes s) ->
  hashCapacity s' = hashCapacity s -> topK s' = topK s ->
  (forall m' h' x, x ∈ indexed s' m' h' <->
     (x ∈ indexed s m' h' \/ (m' = m /\ h' = h /\ x = p)) /\ ~ (x = p /\ evicted = Some (MkKey h' m'))) ->
  touches s p (MkKey h m) s'.
Proof.
  intros [H1 H2 H3 H4 H5] A1 A2 A3 A4 S1 S2 S3 S4 S5. pose proof (added_elem _ _ _ _ (H4 p) A4) as Hk.
  assert (Hb : forall q, blocksOf s' q = if decide (p = q) then lruKeys c' else blocksOf s q).
  { intros q. unfold blocksOf. rewrite S2. case_decide as E; [subst; by rewrite lookup_insert_eq|by rewrite lookup_insert_ne]. }
  split; [split|done|done| |].
  - done.
  - intros m' h' x. rewrite S5, Hb. case_decide as E; [subst x|].
    + rewrite Hk, touched_elem, H2. split.
      * intros [Hor Hn]. split; [|intros Hev; by apply Hn]. destruct Hor as [?|(-> & -> & _)]; [by left|by right].
      * intros [Hor Hn]. split; [|by intros [_ ?]]. destruct Hor as [?|[= -> ->]]; [by left|by right].
    + rewrite H2. split; [intros [[?|(_ & _ & ?)] _]; congruence|]. intros ?. split; [by left|]. intros [? _]. congruence.
  - intros q c0. rewrite S2, S3. destruct (decide (p = q)) as [->|].
    + rewrite lookup_insert_eq. by intros [= <-].
    + rewrite lookup_insert_ne by done. apply H3.
  - intros q. rewrite Hb. by case_decide.
  - intros q. rewrite Hb, S3. case_decide; [exact A2|apply H5].
  - exists evicted. by rewrite Hb, decide_True.
  - intros q Hq. by rewrite Hb, decide_False.
Qed.

Lemma addHash_spec s m p h : store_ok s -> (1 <= hashCapacity s)%nat -> touches s p (MkKey h m) (addHash m p s h).
Proof.
  intros Hs Hcap. pose proof Hs as [H1 H2 H3 H4 H5]. unfold addHash. set (mh := default newModelHashes (entries s !! m)).
  assert (Hmh : shards_ok mh /\ forall h', at_hash mh h' = indexed s m h').
  { unfold mh, indexed. destruct (entries s !! m) as [mh0|] eqn:E; [split; [by eapply H1|done]|]. simpl. by destruct new_ok. }
  destruct Hmh as [Hmh Hat]. destruct (insertHash_spec p mh h Hmh) as [I1 I2].
  set (s1 := set_entries (<[m := insertHash p mh h]> (entries s)) s).
  set (c := default (lruNew (hashCapacity s1)) (podHashes s1 !! p)).
  assert (Hc : lruKeys c = blocksOf s p /\ lruSize (K := hashModelKey) c = hashCapacity s).
  { unfold c, blocksOf. cbn [s1 set_entries podHashes hashCapacity]. destruct (podHashes s !! p) as [c0|] eqn:E.
    - split; [done|]. by eapply H3.
    - split; [apply lru_new_keys|apply lru_new_size]. }
  destruct Hc as [Hc Hsize]. pose proof (add_keys (MkKey h m) c) as Ha. rewrite Hc, Hsize in Ha.
  specialize (Ha (H4 p) Hcap (H5 p)). destruct (lruAdd (MkKey h m) c) as [c' evicted]. destruct Ha as (A1 & A2 & A3 & A4).
  set (s2 := set_podHashes (<[p := c']> (podHashes s1)) s1).
  assert (Hs1 : forall m' mh', entries s2 !! m' = Some mh' -> shards_ok mh').
  { intros m' mh' Hm'. cbn [s2 set_podHashes entries s1 set_entries] in Hm'. destruct (decide (m = m')) as [->|].
    - rewrite lookup_insert_eq in Hm'. by injection Hm' as <-.
    - rewrite lookup_insert_ne in Hm' by done. by eapply H1. }
  assert (Hix : forall m' h' x, x ∈ indexed s2 m' h' <-> x ∈ indexed s m' h' \/ (m' = m /\ h' = h /\ x = p)).
  { intros m' h' x. change (indexed s2 m' h') with (indexed s1 m' h'). unfold s1. rewrite indexed_insert. case_decide as E; [subst m'|].
    - rewrite I2, Hat. tauto.
    - split; [by left|]. intros [?|[-> _]]; done. }
  apply (touches_intro s p h m c' evicted); try done.
  - destruct evicted as [[hk mk]|]; [|done]. by destruct (evicted_ok s2 mk [hk] p Hs1).
  - destruct evicted as [[hk mk]|]; [cbn [hash model]|done]. by destruct (evicted_ok s2 mk [hk] p Hs1) as (_ & -> & _).
  - destruct evicted as [[hk mk]|]; [cbn [hash model]|done]. by destruct (evicted_ok s2 mk [hk] p Hs1) as (_ & _ & -> & _).
  - destruct evicted as [[hk mk]|]; [cbn [hash model]|done]. by destruct (evicted_ok s2 mk [hk] p Hs1) as (_ & _ & _ & -> & _).
  - intros m' h' x. destruct evicted as [[hk mk]|]; [cbn [hash model]|rewrite Hix; naive_solver].
    destruct (evicted_ok s2 mk [hk] p Hs1) as (_ & _ & _ & _ & _ & E5). rewrite E5, Hix, list_elem_of_singleton.
    split; (intros [? Hn]; split; [done|]).
    + intros [-> [= -> ->]]. by apply Hn.
    + intros (-> & -> & ->). by apply Hn.
Qed.

Lemma Add_prepare s m p : store_ok s ->
  let s0 := match podHashes s !! p with Some _ => s | None => set_podHashes (<[p := lruNew (hashCapacity s)]> (podHashes s)) s end in
  let s1 := match entries s0 !! m with Some _ => s0 | None => set_entries (<[m := newModelHashes]> (entries s0)) s0 end in
  store_ok s1 /\ hashCapacity s1 = hashCapacity s /\ topK s1 = topK s /\ forall q, blocksOf s1 q = blocksOf s q.
Proof.
  intros Hs. assert (H0 : let s0 := match podHashes s !! p with Some _ => s | None => set_podHashes (<[p := lruNew (hashCapacity s)]> (podHashes s)) s end in
    store_ok s0 /\ hashCapacity s0 = hashCapacity s /\ topK s0 = topK s /\ forall q, blocksOf s0 q = blocksOf s q).
  { destruct (podHashes s !! p) as [c|] eqn:E; [done|]. intros s0.
    assert (Hb : forall q, blocksOf s0 q = blocksOf s q).
    { intros q. unfold s0. rewrite blocks_insert. case_decide as Eq; [subst q|done]. rewrite lru_new_keys. unfold blocksOf. by rewrite E. }
    destruct Hs as [H1 H2 H3 H4 H5]. split_and!; [split|done|done|done]; try done.
    - intros m' h' x. rewrite Hb. apply H2.
    - intros q c. cbn [s0 set_podHashes podHashes hashCapacity]. destruct (decide (p = q)) as [->|].
      + rewrite lookup_insert_eq. intros [= <-]. apply lru_new_size.
      + rewrite lookup_insert_ne by done. apply H3.
    - intros q. by rewrite Hb.
    - intros q. rewrite Hb. apply H5. }
  cbv zeta in *. destruct H0 as (H0 & E1 & E2 & E3). revert H0 E1 E2 E3.
  generalize (match podHashes s !! p with Some _ => s | None => set_podHashes (<[p := lruNew (hashCapacity s)]> (podHashes s)) s end).
  intros s0 H0 E1 E2 E3. destruct (entries s0 !! m) as [mh|] eqn:E; [done|].
  destruct H0 as [H1 H2 H3 H4 H5]. split_and!; [split|done|done|done]; try done.
  - intros m' mh' Hm'. cbn [set_entries entries] in Hm'. destruct (decide (m = m')) as [->|].
    + rewrite lookup_insert_eq in Hm'. injection Hm' as <-. apply new_ok.
    + rewrite lookup_insert_ne in Hm' by done. by eapply H1.
  - intros m' h' x. rewrite indexed_insert. case_decide as Em; [subst m'|apply H2].
    rewrite (proj2 new_ok). etrans; [|apply H2]. unfold indexed. by rewrite E.
Qed.

(** *** Deleting a pod *)

Lemma group_elem keys m h : h ∈ default [] (groupByModel keys !! m) <-> MkKey h m ∈ keys.
Proof.
  unfold groupByModel. induction keys as [|k keys IH] using rev_ind; [simpl; rewrite lookup_empty; simpl; by rewrite !elem_of_nil|].
  rewrite fold_left_app. simpl. rewrite elem_of_app, list_elem_of_singleton. destruct (decide (model k = m)) as [E|E].
  - rewrite E, lookup_insert_eq. cbn [default from_option id]. rewrite elem_of_app, list_elem_of_singleton, IH.
    destruct k as [hk mk]. cbn in *. subst mk. split; (intros [?|?]; [by left|right]); congruence.
  - rewrite lookup_insert_ne, IH by done. split; [by left|]. intros [?|<-]; [done|]. by destruct E.
Qed.

Lemma dropModel_spec p s group : (forall m mh, entries s !! m = Some mh -> shards_ok mh) ->
  let s' := dropModel p s group in
  (forall m mh, entries s' !! m = Some mh -> shards_ok mh) /\ podHashes s' = podHashes s /\ hashCapacity s' = hashCapacity s /\
  topK s' = topK s /\
  (forall m h x, x ∈ indexed s' m h <-> x ∈ indexed s m h /\ ~ (m = group.1 /\ h ∈ group.2 /\ x = p)).
Proof.
  intros Hs. unfold dropModel. destruct (evicted_ok s group.1 group.2 p Hs) as (E1 & E2 & E3 & E4 & _ & E5).
  destruct (entries (onHashEvicted group.1 group.2 p s) !! group.1) as [mh|] eqn:E; [|done].
  destruct (isModelHashShardEmpty mh) eqn:Ee; [|done]. split_and!; try done.
  - intros m mh' Hm. cbn [set_entries entries] in Hm. apply lookup_delete_Some in Hm as [_ Hm]. by eapply E1.
  - intros m h x. rewrite <- E5. unfold indexed at 1. cbn [set_entries entries]. destruct (decide (group.1 = m)) as [<-|].
    + rewrite lookup_delete_eq. unfold indexed. rewrite E, empty_shards by done. done.
    + by rewrite lookup_delete_ne.
Qed.

Lemma dropModels_spec p groups : forall s, (forall m mh, entries s !! m = Some mh -> shards_ok mh) ->
  let s' := fold_left (dropModel p) groups s in
  (forall m mh, entries s' !! m = Some mh -> shards_ok mh) /\ podHashes s' = podHashes s /\ hashCapacity s' = hashCapacity s /\
  topK s' = topK s /\
  (forall m h x, x ∈ indexed s' m h <-> x ∈ indexed s m h /\ ~ (exists hs, (m, hs) ∈ groups /\ h ∈ hs /\ x = p)).
Proof.
  induction groups as [|g groups IH]; intros s Hs; simpl.
  - split_and!; try done. intros m h x. split; [|by intros [? _]]. intros ?. split; [done|]. by intros (hs & ?%elem_of_nil & _).
  - destruct (dropModel_spec p s g Hs) as (D1 & D2 & D3 & D4 & D5). destruct (IH _ D1) as (I1 & I2 & I3 & I4 & I5).
    split_and!; [done|congruence|congruence|congruence|]. intros m h x. rewrite I5, D5. setoid_rewrite elem_of_cons. split.
    + intros [[Hx Ha] Hb]. split; [done|]. intros (hs & [<-|Hg] & ?); [by apply Ha|]. apply Hb. by exists hs.
    + intros [Hx Ha]. split; [split; [done|]|]; [intros (-> & ?)|intros (hs & ? & ?)]; apply Ha.
      * exists g.2. split; [left; by destruct g|done].
      * exists hs. split; [by right|done].
Qed.

Lemma deleted_spec iterate p s : (forall g, iterate g ≡ₚ map_to_list g) -> store_ok s ->
  let s' := onPodDeleted iterate p s in
  store_ok s' /\ hashCapacity s' = hashCapacity s /\ topK s' = topK s /\
  (forall q, blocksOf s' q = if decide (p = q) then [] else blocksOf s q).
Proof.
  intros Hit [H1 H2 H3 H4 H5]. unfold onPodDeleted. destruct (podHashes s !! p) as [c|] eqn:E.
  2: { split_and!; [by split|done|done|]. intros q. case_decide as Eq; [subst q|done]. unfold blocksOf. by rewrite E. }
  set (s0 := set_podHashes (delete p (podHashes s)) s).
  destruct (dropModels_spec p (iterate (groupByModel (lruKeys c))) s0 H1) as (D1 & D2 & D3 & D4 & D5).
  set (s' := fold_left _ _ _) in *.
  assert (Hb : forall q, blocksOf s' q = if decide (p = q) then [] else blocksOf s q).
  { intros q. unfold blocksOf. rewrite D2. cbn [s0 set_podHashes podHashes]. case_decide as Eq; [subst; by rewrite lookup_delete_eq|by rewrite lookup_delete_ne]. }
  assert (Hp : blocksOf s p = lruKeys c) by (unfold blocksOf; by rewrite E).
  split_and!; [split|done|done|done].
  - done.
  - intros m h x. rewrite D5, Hb. change (indexed s0 m h) with (indexed s m h). rewrite H2. case_decide as Eq; [subst x|].
    + rewrite elem_of_nil. split; [|done]. intros [Hx Hn]. apply Hn. rewrite Hp in Hx. apply group_elem in Hx.
      destruct (groupByModel (lruKeys c) !! m) as [hs|] eqn:Eg; [|by apply elem_of_nil in Hx]. exists hs. split; [|done].
      rewrite Hit. by apply elem_of_map_to_list.
    + split; [by intros [? _]|]. intros ?. split; [done|]. by intros (hs & _ & _ & ->).
  - intros q c0 Hq. rewrite D2 in Hq. cbn [s0 set_podHashes podHashes] in Hq. apply lookup_delete_Some in Hq as [_ Hq].
    rewrite D3. by eapply H3.
  - intros q. rewrite Hb. case_decide; [constructor|done].
  - intros q. rewrite Hb, D3. case_decide; [simpl; lia|apply H5].
Qed.

(** *** The order of the blocks in an LRU

    A block is older than the block before it in the prompt, so that the LRU
    drops the end of a prompt first. [parent] is the block before. *)
Section order.
Context (parent : hashModelKey -> option hashModelKey).

(** Every block has its parent after it, but for the block [next] that is
    about to be added. *)
Definition ordered (next : option hashModelKey) (l : list hashModelKey) : Prop :=
  forall l1 k l2 q, l = l1 ++ k :: l2 -> parent k = Some q -> q ∈ l2 \/ next = Some q.

Fixpoint links (prev : option hashModelKey) (ks : list hashModelKey) : Prop :=
  match ks with [] => True | k :: ks => parent k = prev /\ links (Some k) ks end.

(** The hashes of a prompt. *)
Definition chain (m : string) (hashes : list Z) : Prop := links None ((fun h => MkKey h m) <$> hashes).

Lemma filter_around {A} (P : A -> Prop) `{!forall x, Decision (P x)} l l1 x l2 : filter P l = l1 ++ x :: l2 ->
  exists a b, l = a ++ x :: b /\ filter P b = l2.
Proof.
  revert l1. induction l as [|y l IH]; intros l1 E; [by destruct l1|]. rewrite filter_cons in E. case_decide.
  - destruct l1 as [|z l1]; simpl in E; injection E as -> E; [by exists [], l|].
    destruct (IH _ E) as (a & b & -> & ?). by exists (z :: a), b.
  - destruct (IH _ E) as (a & b & -> & ?). by exists (y :: a), b.
Qed.

Lemma ordered_touched k l : ordered (Some k) l -> ordered (parent k) (touched k l).
Proof.
  intros Ho l1 x l2 q E Hq. unfold touched in E. destruct l2 as [|y l2' _] using rev_ind.
  - apply app_inj_tail in E as [_ <-]. by right.
  - left. rewrite app_comm_cons, app_assoc in E. apply app_inj_tail in E as [E <-].
    apply filter_around in E as (a & b & -> & <-). destruct (Ho a x b q eq_refl Hq) as [Hin|[= ->]].
    + destruct (decide (q = k)) as [->|]; apply elem_of_app; [right; by left|left; by apply list_elem_of_filter].
    + apply elem_of_app. right. by left.
Qed.

Lemma ordered_added k l l' evicted : ordered (Some k) l -> added k l l' evicted -> ordered (parent k) l'.
Proof.
  intros Ho%ordered_touched [[_ ->]|(x & _ & _ & E)]; [done|]. rewrite <- E in Ho. intros l1 y l2 q E1 Hq.
  apply (Ho (x :: l1) y l2 q); [by rewrite E1|done].
Qed.

Lemma addHashes_spec m p hs : forall prev s, store_ok s -> (1 <= hashCapacity s)%nat ->
  (forall q, ordered None (blocksOf s q)) -> links prev ((fun h => MkKey h m) <$> hs) ->
  let s' := fold_left (addHash m p) (rev hs) s in
  store_ok s' /\ hashCapacity s' = hashCapacity s /\ topK s' = topK s /\
  ordered (match hs with [] => None | _ => prev end) (blocksOf s' p) /\ (forall q, q <> p -> blocksOf s' q = blocksOf s q).
Proof.
  induction hs as [|h hs IH]; intros prev s Hs Hcap Ho Hl; [done|]. destruct Hl as [Hp Hl].
  destruct (IH _ s Hs Hcap Ho Hl) as (I1 & I2 & I3 & I4 & I5). simpl. rewrite fold_left_app. simpl.
  set (s1 := fold_left (addHash m p) (rev hs) s) in *. destruct (addHash_spec s1 m p h I1 ltac:(lia)) as [T1 T2 T3 (evicted & T4) T5].
  split_and!; [done|congruence|congruence| |].
  - rewrite <- Hp. apply (ordered_added _ (blocksOf s1 p) _ evicted); [|done]. intros l1 k l2 q E Hq.
    destruct (I4 l1 k l2 q E Hq) as [?|E1]; [by left|right]. by destruct hs.
  - intros q Hq. rewrite T5, I5 by done. done.
Qed.

Lemma links_lookup ks : forall prev i k, links prev ks -> ks !! S i = Some k -> exists q, ks !! i = Some q /\ parent k = Some q.
Proof.
  induction ks as [|k0 ks IH]; intros prev i k Hl Hk; [done|]. destruct Hl as [_ Hl]. simpl in Hk.
  destruct i as [|i]; [|by eapply IH]. exists k0. split; [done|]. destruct ks as [|k1 ks]; [done|]. injection Hk as <-. by destruct Hl.
Qed.

(** A pod that holds a block of a prompt holds all blocks before it. *)
Lemma closed_prefix l ks : ordered None l -> links None ks -> forall i k, ks !! i = Some k -> k ∈ l ->
  forall j k', (j <= i)%nat -> ks !! j = Some k' -> k' ∈ l.
Proof.
  intros Ho Hl. induction i as [|i IH]; intros k Hk Hin j k' Hj Hk'.
  - assert (j = 0%nat) as -> by lia. congruence.
  - destruct (decide (j = S i)) as [->|]; [congruence|]. destruct (links_lookup ks _ _ _ Hl Hk) as (q & Hq & Hp).
    apply (IH q Hq) with (j := j); [|lia|done]. apply list_elem_of_split in Hin as (l1 & l2 & ->).
    destruct (Ho l1 k l2 q eq_refl Hp) as [?|?]; [|done]. apply elem_of_app. right. by right.
Qed.
End order.
End agree.

(** ** Matching *)

Section matching.
Context (visit : gset pod -> list pod) (candidates : gset pod) (k : Z).
Hypothesis visit_perm : forall X, visit X ≡ₚ elements X.

(** What one set of pods adds to the matches. *)
Lemma matchPods_spec n ps : forall matches, Z.of_nat (size matches) < k ->
  let result := matchPods candidates k n ps matches in
  let matches' := match result with inl m => m | inr m => m end in
  (forall p v, matches' !! p = Some v <-> matches !! p = Some v \/ (matches' !! p = Some v /\ matches !! p = None /\ v = n /\ p ∈ ps /\ p ∈ candidates)) /\
  match result with
  | inl m => Z.of_nat (size m) = k
  | inr m => Z.of_nat (size m) < k /\ forall p, p ∈ ps -> p ∈ candidates -> is_Some (m !! p)
  end.
Proof.
  induction ps as [|p0 ps IH]; intros matches Hs; simpl.
  { split; [intros p v; naive_solver|]. split; [done|]. by intros p ?%elem_of_nil. }
  assert (Hskip : (p0 ∈ candidates -> is_Some (matches !! p0)) ->
    let result := matchPods candidates k n ps matches in
    let matches' := match result with inl m => m | inr m => m end in
    (forall p v, matches' !! p = Some v <-> matches !! p = Some v \/ (matches' !! p = Some v /\ matches !! p = None /\ v = n /\ p ∈ p0 :: ps /\ p ∈ candidates)) /\
    match result with
    | inl m => Z.of_nat (size m) = k
    | inr m => Z.of_nat (size m) < k /\ forall p, p ∈ p0 :: ps -> p ∈ candidates -> is_Some (m !! p)
    end).
  { intros Hp0. destruct (IH matches Hs) as [I1 I2]. split.
    - intros p v. rewrite (I1 p v) at 1. setoid_rewrite elem_of_cons. naive_solver.
    - destruct (matchPods candidates k n ps matches) as [m|m]; [done|]. destruct I2 as [I2 I3]. split; [done|].
      intros p [->|Hp]%elem_of_cons Hc; [|by apply I3]. destruct (Hp0 Hc) as [v Hv]. exists v. apply I1. by left. }
  case_bool_decide as Hc; simpl; [|by apply Hskip].
  destruct (matches !! p0) as [v0|] eqn:E; [apply Hskip; by exists v0|].
  assert (Esz : size (<[p0 := n]> matches) = S (size matches)) by (by apply map_size_insert_None).
  destruct (Z.leb_spec k (Z.of_nat (size (<[p0 := n]> matches)))) as [Hle|Hgt].
  - split; [|lia]. intros p v. split.
    + intros Hv. destruct (decide (p0 = p)) as [<-|].
      * rewrite lookup_insert_eq in Hv. injection Hv as <-. right. rewrite lookup_insert_eq. split_and!; [done|done|done|by left|done].
      * rewrite lookup_insert_ne in Hv by done. by left.
    + intros [Hv|[Hv _]]; [|done]. rewrite lookup_insert_ne; [done|congruence].
  - destruct (IH (<[p0 := n]> matches) Hgt) as [I1 I2]. split.
    + intros p v. setoid_rewrite elem_of_cons. split.
      * intros Hv. pose proof Hv as Hv'. apply I1 in Hv' as [Hv'|(_ & Hn & -> & Hp & Hpc)].
        -- destruct (decide (p0 = p)) as [<-|]; [|left; by rewrite lookup_insert_ne in Hv'].
           rewrite lookup_insert_eq in Hv'. injection Hv' as <-. right. split_and!; [done|done|done|by left|done].
        -- right. split_and!; [done| |done|by right|done]. destruct (decide (p0 = p)) as [<-|]; [done|by rewrite lookup_insert_ne in Hn].
      * intros [Hv|[Hv _]]; [|done]. apply I1. left. rewrite lookup_insert_ne; [done|congruence].
    + destruct (matchPods candidates k n ps (<[p0 := n]> matches)) as [m|m]; [done|]. destruct I2 as [I2 I3]. split; [done|].
      intros p [->|Hp]%elem_of_cons Hpc; [|by apply I3]. exists n. apply I1. left. by rewrite lookup_insert_eq.
Qed.

Context (mh : modelHashes) (hashes : list Z).

(** The pod is in the set of the block at an index. *)
Definition present (p : pod) (j : nat) : Prop := exists h, hashes !! j = Some h /\ p ∈ at_hash mh h.

(** The last block of the prompt that the pod holds. *)
Definition deepest (p : pod) (j : nat) : Prop := present p j /\ forall j', (j < j')%nat -> ~ present p j'.

Lemma matchHashes_spec i : forall matches, (i <= length hashes)%nat -> Z.of_nat (size matches) < k ->
  (forall p n, matches !! p = Some n -> p ∈ candidates /\ exists j, n = Z.of_nat j + 1 /\ (i <= j)%nat /\ deepest p j) ->
  (forall p j, p ∈ candidates -> (i <= j)%nat -> present p j -> is_Some (matches !! p)) ->
  let r := matchHashes visit mh candidates k (rev (take i hashes)) matches in
  (forall p n, r !! p = Some n -> p ∈ candidates /\ exists j, n = Z.of_nat j + 1 /\ deepest p j) /\
  Z.of_nat (size r) <= k /\
  (forall p j, p ∈ candidates -> r !! p = None -> present p j ->
     Z.of_nat (size r) = k /\ forall p' n, r !! p' = Some n -> Z.of_nat j + 1 <= n).
Proof.
  induction i as [|i IH]; intros matches Hi Hs HA HC.
  { rewrite take_0. simpl. split_and!; [|lia|].
    - intros p n Hp. destruct (HA p n Hp) as (Hc & j & ? & _ & ?). split; [done|]. by exists j.
    - intros p j Hc Hn Hp. exfalso. destruct (HC p j Hc ltac:(lia) Hp) as [v Hv]. congruence. }
  destruct (lookup_lt_is_Some_2 hashes i ltac:(lia)) as [h Hh]. rewrite (take_S_r _ _ _ Hh), rev_unit. cbn [matchHashes].
  rewrite length_rev, length_take_le by lia.
  assert (Hat : forall p, p ∈ at_hash mh h <-> present p i).
  { intros p. split; [intros Hp; by exists h|]. intros (h' & Hh' & Hp). congruence. }
  destruct (getShard mh h !! h) as [podSet|] eqn:E.
  2: { apply IH; [lia|done| |].
       - intros p n Hp. destruct (HA p n Hp) as (Hc & j & ? & ? & ?). split; [done|]. exists j. split_and!; [done|lia|done].
       - intros p j Hc Hj Hp. destruct (decide (j = i)) as [->|]; [|apply (HC p j Hc); [lia|done]].
         exfalso. apply Hat in Hp. unfold at_hash in Hp. rewrite E in Hp. by apply elem_of_empty in Hp. }
  assert (Hset : forall p, p ∈ visit podSet <-> present p i).
  { intros p. rewrite <- Hat, visit_perm, elem_of_elements. unfold at_hash. by rewrite E. }
  destruct (matchPods_spec (Z.of_nat i + 1) (visit podSet) matches Hs) as [M1 M2].
  set (result := matchPods _ _ _ _ _) in *.
  assert (HA' : forall p n, match result with inl m => m | inr m => m end !! p = Some n ->
    p ∈ candidates /\ exists j, n = Z.of_nat j + 1 /\ (i <= j)%nat /\ deepest p j).
  { intros p n [Hp|(_ & Hn & -> & Hp & Hc)]%M1.
    - destruct (HA p n Hp) as (Hc & j & ? & ? & ?). split; [done|]. exists j. split_and!; [done|lia|done].
    - split; [done|]. exists i. split_and!; [done|lia|]. split; [by apply Hset|]. intros j' Hj' Hp'.
      destruct (HC p j' Hc ltac:(lia) Hp') as [v Hv]. congruence. }
  destruct result as [m|m].
  - split_and!; [|lia|].
    + intros p n Hp. destruct (HA' p n Hp) as (Hc & j & ? & _ & ?). split; [done|]. by exists j.
    + intros p j Hc Hn Hp. split; [done|]. intros p' n Hp'. destruct (HA' p' n Hp') as (_ & j' & -> & Hj' & _).
      destruct (le_lt_dec (S i) j) as [Hj|Hj]; [|lia]. exfalso. destruct (HC p j Hc Hj Hp) as [v Hv].
      enough (m !! p = Some v) by congruence. apply M1. by left.
  - destruct M2 as [M2 M3]. apply IH; [lia|done|done|]. intros p j Hc Hj Hp. destruct (decide (j = i)) as [->|].
    + apply M3; [by apply Hset|done].
    + destruct (HC p j Hc ltac:(lia) Hp) as [v Hv]. exists v. apply M1. by left.
Qed.
End matching.

(** ** Histories *)

Inductive PrefixOp := OpServe (m : string) (hashes : list Z) (p : pod) | OpPodDeleted (p : pod).

Section histories.
Context {C : Type} `{!LRU C hashModelKey, !LRULaws C hashModelKey}.
Context (parent : hashModelKey -> option hashModelKey).
Context (iterate : gmap string (list Z) -> list (string * list Z)) (visit : gset pod -> list pod).
Hypothesis iterate_perm : forall g, iterate g ≡ₚ map_to_list g.
Hypothesis visit_perm : forall X, visit X ≡ₚ elements X.

Definition prefixStep (s : ModelPrefixStore C) (op : PrefixOp) : ModelPrefixStore C :=
  match op with
  | OpServe m hashes p => Add m hashes p s
  | OpPodDeleted p => onPodDeleted iterate p s
  end.

Definition op_chained (op : PrefixOp) : Prop :=
  match op with OpServe m hashes _ => chain parent m hashes | OpPodDeleted _ => True end.

Record history_ok (capacity : nat) (k : Z) (s : ModelPrefixStore C) : Prop := {
  ho_store : store_ok s;
  ho_capacity : hashCapacity s = capacity;
  ho_topK : topK s = k;
  ho_ordered : forall q, ordered parent None (blocksOf s q)
}.

Lemma ordered_nil next : ordered parent next [].
Proof. intros l1 k l2 q E. by destruct l1. Qed.

Lemma prefix_step_ok capacity k s op : (1 <= capacity)%nat -> op_chained op -> history_ok capacity k s ->
  history_ok capacity k (prefixStep s op).
Proof.
  intros Hcap Hop [H1 H2 H3 H4]. destruct op as [m hashes p|p]; cbn [prefixStep].
  - unfold Add. destruct (Add_prepare s m p H1) as (P1 & P2 & P3 & P4). cbv zeta in *.
    set (s1 := match entries _ !! m with Some _ => _ | None => _ end) in *.
    destruct (addHashes_spec parent m p hashes None s1 P1 ltac:(lia) ltac:(intros q; rewrite P4; apply H4) Hop) as (A1 & A2 & A3 & A4 & A5).
    split; [done|congruence|congruence|]. intros q. destruct (decide (q = p)) as [->|Hq].
    + by destruct hashes.
    + rewrite A5, P4 by done. apply H4.
  - destruct (deleted_spec iterate p s iterate_perm H1) as (D1 & D2 & D3 & D4). split; [done|congruence|congruence|].
    intros q. rewrite D4. case_decide; [apply ordered_nil|apply H4].
Qed.

Lemma prefix_run_ok capacity k ops : (1 <= capacity)%nat -> Forall op_chained ops ->
  history_ok capacity k (fold_left prefixStep ops (NewModelPrefixStore capacity k)).
Proof.
  intros Hcap Hops. assert (H0 : history_ok capacity k (NewModelPrefixStore capacity k)).
  { split; [split|done|done|].
    - intros m mh. cbn. by rewrite lookup_empty.
    - intros m h p. unfold indexed, blocksOf. cbn. rewrite !lookup_empty. rewrite elem_of_nil. split; [by intros ?%elem_of_empty|done].
    - intros p c. cbn. by rewrite lookup_empty.
    - intros p. unfold blocksOf. cbn. rewrite lookup_empty. constructor.
    - intros p. unfold blocksOf. cbn. rewrite lookup_empty. simpl. lia.
    - intros q. unfold blocksOf. cbn. rewrite lookup_empty. apply ordered_nil. }
  revert H0. generalize (NewModelPrefixStore (C := C) capacity k) as s. induction Hops as [|op ops Hop _ IH]; intros s Hs; [done|].
  simpl. apply IH. by apply prefix_step_ok.
Qed.

(** The first [n] blocks of a prompt are in the pod's LRU. *)
Definition holdsPrefix (s : ModelPrefixStore C) (m : string) (hashes : list Z) (p : pod) (n : nat) : Prop :=
  forall i h, (i < n)%nat -> hashes !! i = Some h -> MkKey h m ∈ blocksOf s p.

(** C22: after any history of served prompts and deleted pods, the index
    answers exactly what the LRUs hold: a pod is listed for a block if and only if
    its LRU holds the block, and no LRU exceeds its capacity. If no two blocks
    collide (a block determines the block before it), a search for a prompt
    reports only candidates, each with the number of leading blocks its LRU
    holds, all of them; at most [topK] pods; and a candidate is left
    out only for [topK] others that hold at least as long a prefix. It does not matter
    in which order the sets and maps are iterated. *)
Theorem prefix_match_longest capacity k ops : (1 <= capacity)%nat -> 1 <= k -> Forall op_chained ops ->
  let s := fold_left prefixStep ops (NewModelPrefixStore capacity k) in
  (forall m h p, p ∈ indexed s m h <-> MkKey h m ∈ blocksOf s p) /\
  (forall p, (length (blocksOf s p) <= capacity)%nat) /\
  forall m hashes pods, chain parent m hashes ->
    let r := FindTopMatches visit m hashes pods s in
    (forall p n, r !! p = Some n -> p ∈ pods /\ exists d, n = Z.of_nat d /\ (1 <= d <= length hashes)%nat /\
       holdsPrefix s m hashes p d /\ forall h, hashes !! d = Some h -> MkKey h m ∉ blocksOf s p) /\
    Z.of_nat (size r) <= k /\
    (forall p d, p ∈ pods -> r !! p = None -> (1 <= d <= length hashes)%nat -> holdsPrefix s m hashes p d ->
       Z.of_nat (size r) = k /\ forall p' n, r !! p' = Some n -> Z.of_nat d <= n).
Proof.
  intros Hcap Hk Hops s. destruct (prefix_run_ok capacity k ops Hcap Hops) as [Hs Hc Ht Ho]. fold s in Hs, Hc, Ht, Ho.
  clearbody s. pose proof Hs as [H1 H2 _ _ H5]. split; [done|]. split; [by rewrite <- Hc|]. intros m hashes pods Hchain r.
  assert (Hblock : forall p j, (exists h, hashes !! j = Some h /\ MkKey h m ∈ blocksOf s p) -> holdsPrefix s m hashes p (S j)).
  { intros p j (h & Hj & Hp) i h' Hi Hh'.
    apply (closed_prefix parent (blocksOf s p) ((fun h => MkKey h m) <$> hashes) (Ho p) Hchain j (MkKey h m)) with (j := i);
      [by rewrite list_lookup_fmap, Hj|done|lia|by rewrite list_lookup_fmap, Hh']. }
  unfold r, FindTopMatches. destruct (entries s !! m) as [mh|] eqn:E.
  - assert (Hpres : forall p j, present mh hashes p j <-> exists h, hashes !! j = Some h /\ MkKey h m ∈ blocksOf s p).
    { intros p j. unfold present. setoid_rewrite <- H2. unfold indexed. by rewrite E. }
    destruct (matchHashes_spec visit (list_to_set pods) (topK s) visit_perm mh hashes (length hashes) ∅) as (M1 & M2 & M3).
    { done. } { rewrite map_size_empty. lia. } { intros p n. by rewrite lookup_empty. }
    { intros p j _ Hj (h & Hh & _). apply lookup_lt_Some in Hh. lia. }
    rewrite firstn_all in M1, M2, M3. split_and!.
    + intros p n Hp. destruct (M1 p n Hp) as (Hin & j & -> & Hd & Hlast). apply elem_of_list_to_set in Hin. split; [done|].
      exists (S j). apply Hpres in Hd. pose proof Hd as (h & Hj & _). apply lookup_lt_Some in Hj.
      split_and!; [lia|lia|lia|by apply Hblock|]. intros h' Hh' Hb. apply (Hlast (S j)); [lia|]. apply Hpres. by exists h'.
    + lia.
    + intros p d Hp Hn Hd Hpre. destruct d as [|j]; [lia|]. destruct (lookup_lt_is_Some_2 hashes j ltac:(lia)) as [h Hh].
      destruct (M3 p j) as [M4 M5]; [by apply elem_of_list_to_set|done| |].
      * apply Hpres. exists h. split; [done|]. apply (Hpre j); [lia|done].
      * split; [lia|]. intros p' n Hn'. specialize (M5 p' n Hn'). lia.
  - split_and!; [intros p n; by rewrite lookup_empty|rewrite map_size_empty; lia|]. intros p d _ _ Hd Hpre. exfalso.
    destruct (lookup_lt_is_Some_2 hashes 0 ltac:(lia)) as [h Hh]. specialize (Hpre 0%nat h ltac:(lia) Hh). apply H2 in Hpre.
    unfold indexed in Hpre. rewrite E in Hpre. by apply elem_of_empty in Hpre.
Qed.
End histories.

(** The hashes of a prompt are as many as its blocks, up to the limit, and the
    first of them depend on the first blocks only. *)
Lemma hashPrompt_blocks Sum64 AppendUint blockSize maxBlocks m prompt : (1 <= blockSize)%nat ->
  let hashes := hashPrompt Sum64 AppendUint blockSize maxBlocks m prompt in
  length hashes = Nat.min maxBlocks ((length prompt + blockSize - 1) / blockSize) /\
  forall k prompt', take (k * blockSize) prompt = take (k * blockSize) prompt' ->
    take k hashes = take k (hashPrompt Sum64 AppendUint blockSize maxBlocks m prompt').
Proof.
  intros Hb hashes. unfold hashes, hashPrompt. generalize (Sum64 (list_ascii_of_string m)) as prev. clear hashes. split.
  - revert prev prompt. induction maxBlocks as [|n IH]; intros prev prompt; [by destruct prompt|].
    destruct prompt as [|a prompt]; [simpl length; rewrite Nat.div_small by lia; simpl; lia|].
    cbn [hashBlocks length]. rewrite IH, length_drop. cbn [length].
    destruct (le_lt_dec (S (length prompt)) blockSize) as [Hle|Hgt].
    + replace (S (length prompt) - blockSize + blockSize - 1)%nat with (blockSize - 1)%nat by lia.
      rewrite (Nat.div_small (blockSize - 1)) by lia.
      assert (E : ((S (length prompt) + blockSize - 1) / blockSize)%nat = 1%nat) by (symmetry; apply (Nat.div_unique _ _ _ (length prompt)); lia).
      rewrite E. lia.
    + replace (S (length prompt) + blockSize - 1)%nat with ((S (length prompt) - blockSize + blockSize - 1) + 1 * blockSize)%nat by lia.
      rewrite Nat.div_add by lia. lia.
  - intros k prompt' E. revert prev prompt prompt' k E. induction maxBlocks as [|n IH]; intros prev prompt prompt' k E.
    { by destruct prompt, prompt'. }
    destruct k as [|k]; [done|]. change (S k * blockSize)%nat with (blockSize + k * blockSize)%nat in E.
    assert (E1 : take blockSize prompt = take blockSize prompt').
    { apply (f_equal (take blockSize)) in E. rewrite !take_take in E. by rewrite !Nat.min_l in E by lia. }
    assert (E2 : take (k * blockSize) (drop blockSize prompt) = take (k * blockSize) (drop blockSize prompt')).
    { apply (f_equal (drop blockSize)) in E. by rewrite !take_drop_commute. }
    destruct prompt as [|a prompt], prompt' as [|a' prompt']; try done; try (destruct blockSize; [lia|done]).
    cbn [hashBlocks]. rewrite E1. simpl. f_equal. by apply IH.
Qed.

(** ** A concrete LRU and history *)

#[global] Instance listLRU : LRU (nat * list hashModelKey) hashModelKey := {
  lruNew n := (n, []);
  lruAdd k c := let l := touched k c.2 in
                if (length l <=? c.1)%nat then ((c.1, l), None) else ((c.1, tail l), head l);
  lruKeys c := c.2;
  lruSize c := c.1
}.

#[global] Instance listLRU_laws : LRULaws (nat * list hashModelKey) hashModelKey.
Proof.
  split; try done; intros k [n l]; simpl; [by destruct (_ <=? _)%nat|intros H|intros H].
  - by rewrite (proj2 (Nat.leb_le _ _)).
  - by rewrite (proj2 (Nat.leb_gt _ _)).
Qed.

(** Hash [10 * i + j] is block [j] of prompt [i]. *)
Definition blockBefore (k : hashModelKey) : option hashModelKey :=
  if hash k mod 10 =? 0 then None else Some (MkKey (hash k - 1) (model k)).

Definition pod_a : pod := ("default", "a")%string.
Definition pod_b : pod := ("default", "b")%string.
Definition prefix_history : list PrefixOp :=
  [OpServe "llama" [10; 11; 12; 13] pod_a; OpServe "llama" [10; 11] pod_b; OpServe "llama" [20; 21] pod_a].

(** With room for four blocks, the last two of the first prompt make place for
    the second prompt. *)
Lemma prefix_match_longest_witness :
  let s := fold_left (prefixStep (C := nat * list hashModelKey) map_to_list) prefix_history (NewModelPrefixStore 4 1) in
  FindTopMatches elements "llama" [10; 11; 12; 13] [pod_a; pod_b] s !! pod_a = Some 2 /\
  holdsPrefix s "llama" [10; 11; 12; 13] pod_a 2 /\ (length (blocksOf s pod_a) <= 4)%nat.
Proof.
  intros s. assert (E : FindTopMatches elements "llama" [10; 11; 12; 13] [pod_a; pod_b] s !! pod_a = Some 2) by (vm_compute; reflexivity).
  assert (Hops : Forall (op_chained blockBefore) prefix_history) by (unfold prefix_history; repeat constructor).
  destruct (prefix_match_longest (C := nat * list hashModelKey) blockBefore map_to_list elements (fun g => reflexivity _)
    (fun X => reflexivity _) 4 1 prefix_history ltac:(lia) ltac:(lia) Hops) as (_ & Hb & Hm).
  split; [exact E|]. split; [|exact (Hb pod_a)].
  destruct (Hm "llama"%string [10; 11; 12; 13] [pod_a; pod_b] ltac:(repeat constructor)) as (Hm1 & _).
  destruct (Hm1 pod_a 2 E) as (_ & d & Ed & _ & Hp & _). assert (d = 2%nat) as -> by lia. exact Hp.
Defined.
