(* ===== verification/ScaleDown.v ===== *)
(** * pkg/model-serving-controller/controller: which replicas a scale-down
      deletes and which ordinals a scale-up fills

    binpack_scaledown.go, coordinated_role_observation.go and
    model_serving_controller.go. The statuses are those of the store, the pods
    of a replica and the outcome of a deletion are arguments. *)
From Stdlib Require Import Ascii String.
From S2P Require Import Prelude Names ServingStore RolePopulation.
Local Open Scope Z_scope.
Local Open Scope go_scope.

(** ** Scores

    [ServingGroupWithScore] and [RoleWithScore] have the same fields. *)
Record WithScore := MkScore { scoreName : string; Priority : Z; DeletionCost : Z; Index : Z }.
#[global] Instance WithScore_eq_dec : EqDecision WithScore.
Proof. solve_decision. Defined.

Definition getServingGroupStatusPriority (status : ServingGroupStatus) : Z :=
  match status with ServingGroupRunning => 1 | _ => 0 end.
Definition getRoleStatusPriority (status : RoleStatus) : Z :=
  match status with RoleRunning => 1 | _ => 0 end.

(** The deletion-cost annotation of a pod, if it has one. *)
Definition getPodDeletionCost (annotation : option string) : Z :=
  match annotation with
  | Some costStr => default 0 (Atoi (list_ascii_of_string costStr))
  | None => 0
  end.

(** [None]: the pods cannot be listed. *)
Definition deletionCost (pods : option (list (option string))) : Z :=
  match pods with
  | Some pods => fold_left (fun cost pod => cost +₆₄ getPodDeletionCost pod) pods 0
  | None => 0
  end.

Definition calculateServingGroupScore (status : ServingGroupStatus) (pods : option (list (option string))) (groupName : string) : WithScore :=
  MkScore groupName (getServingGroupStatusPriority status) (deletionCost pods) (ordinalOf groupName).
Definition calculateRoleScore (status : RoleStatus) (pods : option (list (option string))) (roleID : string) : WithScore :=
  MkScore roleID (getRoleStatusPriority status) (deletionCost pods) (ordinalOf roleID).

(** [sortGroups] and [sortRoles]: the sign of the result of the comparison. *)
Definition compareScores (a b : WithScore) : comparison :=
  if negb (Priority a =? Priority b) then Z.compare (Priority a) (Priority b)
  else if negb (DeletionCost a =? DeletionCost b) then Z.compare (DeletionCost a) (DeletionCost b)
  else Z.compare (Index b) (Index a).

(** The order the comparison is meant to give: the not ready before the ready, then
    the cheaper to delete, then the higher ordinal. *)
Definition before (a b : WithScore) : Prop :=
  Priority a < Priority b \/
  (Priority a = Priority b /\ (DeletionCost a < DeletionCost b \/ (DeletionCost a = DeletionCost b /\ Index b <= Index a))).
#[global] Instance before_dec : RelDecision before.
Proof. intros a b. unfold before. apply _. Defined.
#[global] Instance before_total : Total before.
Proof. intros a b. unfold before. lia. Qed.
#[global] Instance before_trans : Transitive before.
Proof. intros a b c. unfold before. lia. Qed.

(** What [slices.SortFunc] promises is stated with the comparison. *)
Definition notGreater (a b : WithScore) : Prop := compareScores a b <> Gt.
Lemma notGreater_before a b : notGreater a b <-> before a b.
Proof.
  unfold notGreater, before, compareScores.
  destruct (Z.eqb_spec (Priority a) (Priority b)), (Z.eqb_spec (DeletionCost a) (DeletionCost b)); simpl;
    match goal with |- (?x ?= ?y) <> Gt <-> ?Q => change (x <= y <-> Q) end; lia.
Qed.

(** ** Scaling down *)

Section scaleDown.
(** [slices.SortFunc] with that comparison. *)
Context (SortFunc : list WithScore -> list WithScore).

(** What is deleted, in order: the replicas that the partition does not
    protect first. *)
Definition selectVictims (partition : Z) (protectedNames : gset string) (allScores : list WithScore) (expectedCount : Z) :
    list WithScore :=
  let protectedScores := filter (fun s => scoreName s ∈ protectedNames) allScores in
  let nonProtectedScores := SortFunc (filter (fun s => scoreName s ∉ protectedNames) allScores) in
  let totalToDelete := Z.max 0 (Z.of_nat (length allScores) - expectedCount) in
  let numNonProtectedToDelete := Z.min totalToDelete (Z.of_nat (length nonProtectedScores)) in
  let remainingToDelete := totalToDelete - numNonProtectedToDelete in
  take (Z.to_nat numNonProtectedToDelete) nonProtectedScores ++
  (if (0 <? remainingToDelete) && (0 <? partition)
   then take (Z.to_nat (Z.min remainingToDelete (Z.of_nat (length protectedScores)))) (SortFunc protectedScores)
   else []).

(** The first [partition] names of a list. *)
Definition protectedNames (partition : Z) (names : list string) : gset string := list_to_set (take (Z.to_nat partition) names).

(** The deletions attempted, and those that fail: all are attempted. [statusOf]
    is the status in the store, [pods] lists the pods of a group. *)
Definition scaleDownServingGroups (partition : Z) (statusOf : string -> ServingGroupStatus)
    (pods : string -> option (list (option string))) (fails : string -> bool)
    (servingGroupList : list ServingGroup) (expectedCount : Z) : list string * list string :=
  let allScores := (fun g => calculateServingGroupScore (statusOf (GroupName g)) (pods (GroupName g)) (GroupName g)) <$> servingGroupList in
  let victims := scoreName <$> selectVictims partition (protectedNames partition (GroupName <$> servingGroupList)) allScores expectedCount in
  (victims, filter (fun name => fails name = true) victims).

(** Deletions up to the first that fails. *)
Fixpoint deleteRoles (fails : string -> bool) (names : list string) : list string * bool :=
  match names with
  | [] => ([], false)
  | name :: names =>
    if fails name then ([name], true)
    else let '(attempted, failed) := deleteRoles fails names in (name :: attempted, failed)
  end.

(** [None]: the status of the group cannot be set. *)
Definition scaleDownRoles (partition : Z) (statusOf : string -> RoleStatus) (pods : string -> option (list (option string)))
    (statusUpdated : bool) (fails : string -> bool) (roleList : list Role) (expectedCount : Z) : option (list string * bool) :=
  let allScores := (fun r => calculateRoleScore (statusOf (RoleName r)) (pods (RoleName r)) (RoleName r)) <$>
                     filter (fun r => Status r <> RoleDeleting) roleList in
  if Z.of_nat (length allScores) <=? expectedCount then Some ([], false)
  else if negb statusUpdated then None
  else Some (deleteRoles fails (scoreName <$>
         selectVictims partition (protectedNames partition (RoleName <$> roleList)) allScores expectedCount)).

(** *** What a scale-down deletes *)

Hypothesis SortFunc_perm : forall l, SortFunc l ≡ₚ l.
Hypothesis SortFunc_sorted : forall l, StronglySorted notGreater (SortFunc l).

Record victims_ok (protected : gset string) (scores : list WithScore) (expected : Z) (victims : list WithScore) : Prop := {
  vi_count : Z.of_nat (length victims) = Z.max 0 (Z.of_nat (length scores) - Z.max 0 expected);
  vi_nodup : NoDup victims;
  vi_from : forall v, v ∈ victims -> v ∈ scores;
  vi_protected : forall v x, v ∈ victims -> scoreName v ∈ protected -> x ∈ scores -> scoreName x ∉ protected -> x ∈ victims;
  vi_first : forall v x, v ∈ victims -> x ∈ scores -> x ∉ victims -> (scoreName v ∈ protected <-> scoreName x ∈ protected) -> before v x
}.

(** The first of a sorted list, and what is left. *)
Lemma take_sorted n (l : list WithScore) : NoDup l ->
  NoDup (take n (SortFunc l)) /\ (forall v, v ∈ take n (SortFunc l) -> v ∈ l) /\
  (forall v x, v ∈ take n (SortFunc l) -> x ∈ l -> x ∉ take n (SortFunc l) -> before v x) /\
  ((length l <= n)%nat -> forall x, x ∈ l -> x ∈ take n (SortFunc l)).
Proof.
  intros Hd. assert (Hd' : NoDup (SortFunc l)) by (by rewrite SortFunc_perm).
  assert (Hs : StronglySorted before (SortFunc l)) by (eapply StronglySorted_strengthen; [apply SortFunc_sorted|]; by intros ? ? _ _ ?%notGreater_before).
  rewrite <- (take_drop n (SortFunc l)) in Hs.
  apply StronglySorted_app_inv in Hs as (_ & _ & Hs). split_and!.
  - rewrite <- (take_drop n (SortFunc l)) in Hd'. by apply NoDup_app in Hd' as [? _].
  - intros v Hv. rewrite <- (SortFunc_perm l). rewrite <- (take_drop n (SortFunc l)). apply elem_of_app. by left.
  - intros v x Hv Hx Hn. apply Hs; [done|]. rewrite <- (SortFunc_perm l), <- (take_drop n (SortFunc l)) in Hx.
    by apply elem_of_app in Hx as [?|?].
  - intros Hl x Hx. rewrite take_ge by (by rewrite SortFunc_perm). by rewrite SortFunc_perm.
Qed.

Lemma filter_partition {A} (P : A -> Prop) `{!forall x, Decision (P x)} (l : list A) :
  length l = (length (filter P l) + length (filter (fun x => ~ P x) l))%nat.
Proof.
  induction l as [|x l IH]; [done|]. rewrite !filter_cons. destruct (decide (P x)), (decide (~ P x)); try done; simpl; lia.
Qed.

Lemma victims_spec partition names scores expected : NoDup scores ->
  victims_ok (protectedNames partition names) scores expected (selectVictims partition (protectedNames partition names) scores expected).
Proof.
  intros Hd. unfold selectVictims. set (prot := protectedNames partition names).
  set (P := filter (fun s => scoreName s ∈ prot) scores). set (N := filter (fun s => scoreName s ∉ prot) scores).
  assert (Hlen : length scores = (length P + length N)%nat) by apply filter_partition.
  assert (HP : forall s, s ∈ P <-> scoreName s ∈ prot /\ s ∈ scores) by (intros s; unfold P; by rewrite list_elem_of_filter).
  assert (HN : forall s, s ∈ N <-> scoreName s ∉ prot /\ s ∈ scores) by (intros s; unfold N; by rewrite list_elem_of_filter).
  assert (HPd : NoDup P) by by apply NoDup_filter. assert (HNd : NoDup N) by by apply NoDup_filter.
  assert (Hempty : partition <= 0 -> P = []).
  { intros Hp. unfold P. apply filter_none, Forall_forall. intros s _. unfold prot, protectedNames.
    replace (Z.to_nat partition) with 0%nat by lia. rewrite take_0. simpl. by intros ?%elem_of_empty. }
  assert (HlN : length (SortFunc N) = length N) by by rewrite SortFunc_perm. rewrite HlN. clearbody P N.
  set (total := Z.max 0 (Z.of_nat (length scores) - expected)).
  set (n1 := Z.min total (Z.of_nat (length N))). set (n2 := Z.min (total - n1) (Z.of_nat (length P))).
  assert (Hsecond : (if (0 <? total - n1) && (0 <? partition) then take (Z.to_nat n2) (SortFunc P) else []) = take (Z.to_nat n2) (SortFunc P)).
  { destruct (Z.ltb_spec 0 (total - n1)), (Z.ltb_spec 0 partition); simpl; try done.
    - assert (EP : P = []) by (apply Hempty; lia). unfold n2. rewrite EP. by rewrite Z.min_r, take_0 by (simpl; lia).
    - unfold n2. rewrite Z.min_l by lia. by replace (Z.to_nat (total - n1)) with 0%nat by lia.
    - unfold n2. rewrite Z.min_l by lia. by replace (Z.to_nat (total - n1)) with 0%nat by lia. }
  rewrite Hsecond. clear Hsecond Hempty.
  assert (Hsum : n1 + n2 = Z.max 0 (Z.of_nat (length scores) - Z.max 0 expected)) by (unfold n2, n1, total; lia). assert (Hn1 : 0 <= n1 <= Z.of_nat (length N)) by (unfold n1, total; lia).
  assert (Hn2 : 0 <= n2 <= Z.of_nat (length P)) by (unfold n2, n1, total; lia).
  assert (Hall : 0 < n2 -> n1 = Z.of_nat (length N)) by (unfold n2, n1; lia).
  clearbody total n1 n2.
  destruct (take_sorted (Z.to_nat n1) N HNd) as (A1 & A2 & A3 & A4). destruct (take_sorted (Z.to_nat n2) P HPd) as (B1 & B2 & B3 & B4).
  assert (HlP : length (SortFunc P) = length P) by by rewrite SortFunc_perm.
  split.
  - rewrite length_app, !length_take, HlN, HlP. lia.
  - apply NoDup_app. split_and!; [done| |done]. intros x [? _]%A2%HN [? _]%B2%HP. done.
  - intros v [Hv|Hv]%elem_of_app; [by apply A2, HN in Hv as [_ ?]|by apply B2, HP in Hv as [_ ?]].
  - intros v x [Hv|Hv]%elem_of_app Hp Hx Hxn; [by apply A2, HN in Hv as [? _]|]. apply elem_of_app. left. apply A4; [|by apply HN].
    destruct (decide (n2 = 0)) as [->|]; [by rewrite take_0 in Hv; apply elem_of_nil in Hv|]. rewrite (Hall ltac:(lia)). lia.
  - intros v x Hv Hx [Hn1' Hn2']%not_elem_of_app Hiff. apply elem_of_app in Hv as [Hv|Hv].
    + apply A3; [done| |done]. apply A2, HN in Hv as [Hv _]. apply HN. split; [|done]. by rewrite <- Hiff.
    + apply B3; [done| |done]. apply B2, HP in Hv as [Hv _]. apply HP. split; [|done]. by apply Hiff.
Qed.

(** What is deleted of the names [live], [score] giving their scores. *)
Definition deletes (partition : Z) (all live : list string) (score : string -> WithScore) (expected : Z) (victims : list string) : Prop :=
  Z.of_nat (length victims) = Z.max 0 (Z.of_nat (length live) - Z.max 0 expected) /\ NoDup victims /\ victims ⊆ live /\
  (forall v x, v ∈ victims -> x ∈ live -> x ∉ victims ->
     (v ∈ protectedNames partition all -> x ∈ protectedNames partition all) /\
     (v ∉ protectedNames partition all -> x ∉ protectedNames partition all -> before (score v) (score x)) /\
     (v ∈ protectedNames partition all -> x ∈ protectedNames partition all -> before (score v) (score x))).

Lemma victims_deletes partition all live score expected : NoDup live -> (forall name, scoreName (score name) = name) ->
  deletes partition all live score expected
    (scoreName <$> selectVictims partition (protectedNames partition all) (score <$> live) expected).
Proof.
  intros Hd Hs. assert (Hinj : Inj eq eq score) by (intros x y E; rewrite <- (Hs x), <- (Hs y); congruence).
  destruct (victims_spec partition all (score <$> live) expected (NoDup_fmap_2 score live Hd)) as [V1 V2 V3 V4 V5].
  set (victims := selectVictims _ _ _ _) in *.
  assert (Hmem : forall x, x ∈ scoreName <$> victims <-> score x ∈ victims).
  { intros x. rewrite list_elem_of_fmap. split; [|intros Hx; exists (score x); by rewrite Hs].
    intros (v & -> & Hv). pose proof (V3 v Hv) as Hv'. apply list_elem_of_fmap in Hv' as (y & -> & _). by rewrite Hs. }
  assert (Hlive : forall x, score x ∈ score <$> live <-> x ∈ live).
  { intros x. rewrite list_elem_of_fmap. split; [|intros Hx; by exists x]. by intros (y & ->%(inj score) & ?). }
  unfold deletes. split_and!.
  - by rewrite length_fmap, V1, length_fmap.
  - apply NoDup_fmap_2_strong; [|done]. intros x y Hx Hy E. apply V3, list_elem_of_fmap in Hx as (x' & -> & _).
    apply V3, list_elem_of_fmap in Hy as (y' & -> & _). rewrite !Hs in E. by subst.
  - intros x Hx%Hmem. by apply Hlive, V3.
  - intros v x Hv%Hmem Hx%Hlive Hn. rewrite Hmem in Hn. pose proof (V5 _ _ Hv Hx Hn) as H5. rewrite !Hs in H5. split_and!.
    + intros Hp. destruct (decide (x ∈ protectedNames partition all)) as [|Hxp]; [done|]. exfalso. apply Hn.
      apply (V4 (score v) (score x)); rewrite ?Hs; done.
    + intros Hvp Hxp. by apply H5.
    + intros Hvp Hxp. by apply H5.
Qed.

Lemma deleteRoles_prefix fails names : let '(attempted, failed) := deleteRoles fails names in
  (failed = false -> attempted = names /\ forall x, x ∈ names -> fails x = false) /\
  (failed = true -> exists l x rest, names = l ++ x :: rest /\ attempted = l ++ [x] /\ fails x = true /\ forall y, y ∈ l -> fails y = false).
Proof.
  induction names as [|name names IH]; simpl.
  - split; [|done]. intros _. split; [done|]. by intros x ?%elem_of_nil.
  - destruct (fails name) eqn:E.
    + split; [done|]. intros _. exists [], name, names. split_and!; try done. by intros y ?%elem_of_nil.
    + destruct (deleteRoles fails names) as [attempted failed]. destruct IH as [I1 I2]. split.
      * intros ->. destruct (I1 eq_refl) as [-> Hf]. split; [done|]. intros x [->|Hx]%elem_of_cons; [done|by apply Hf].
      * intros ->. destruct (I2 eq_refl) as (l & x & rest & -> & -> & Hx & Hl). exists (name :: l), x, rest.
        split_and!; try done. intros y [->|Hy]%elem_of_cons; [done|by apply Hl].
Qed.

(** A scale-down deletes exactly the surplus: as many replicas as there
    are beyond the expected count, none twice; a replica the partition protects only
    when all others go; and of the protected as of the others those that come
    first, the not ready before the ready, then the cheaper, then the higher
    ordinals: no replica is kept that comes before a deleted one. For groups
    a failing deletion does not stop the others; for roles, whose instances
    already being deleted are not counted, the first failure does, and nothing is deleted
    when the status of the group cannot be set. It does not matter how equal
    scores are sorted. *)
Theorem scale_down_spec partition fails expected :
  (forall statusOf pods groups, NoDup (GroupName <$> groups) ->
     let score name := calculateServingGroupScore (statusOf name) (pods name) name in
     let '(attempted, failed) := scaleDownServingGroups partition statusOf pods fails groups expected in
     deletes partition (GroupName <$> groups) (GroupName <$> groups) score expected attempted /\
     failed = filter (fun name => fails name = true) attempted) /\
  (forall statusOf pods updated roleList, NoDup (RoleName <$> roleList) ->
     let score name := calculateRoleScore (statusOf name) (pods name) name in
     let live := RoleName <$> filter (fun r => Status r <> RoleDeleting) roleList in
     match scaleDownRoles partition statusOf pods updated fails roleList expected with
     | None => updated = false
     | Some (attempted, failed) =>
       exists victims, deletes partition (RoleName <$> roleList) live score expected victims /\
         if failed : bool
         then exists l x rest, victims = l ++ x :: rest /\ attempted = l ++ [x] /\ fails x = true /\ forall y, y ∈ l -> fails y = false
         else attempted = victims /\ forall x, x ∈ victims -> fails x = false
     end).
Proof.
  split.
  - intros statusOf pods groups Hd score. unfold scaleDownServingGroups. split; [|done].
    change ((fun g => calculateServingGroupScore (statusOf (GroupName g)) (pods (GroupName g)) (GroupName g)) <$> groups)
      with (score ∘ GroupName <$> groups). rewrite list_fmap_compose. by apply victims_deletes.
  - intros statusOf pods updated roleList Hd score live. unfold scaleDownRoles.
    change (fun r => calculateRoleScore (statusOf (RoleName r)) (pods (RoleName r)) (RoleName r)) with (score ∘ RoleName).
    rewrite list_fmap_compose. fold live. rewrite length_fmap.
    assert (Hl : NoDup live) by (eapply sublist_NoDup; [exact Hd|]; apply fmap_sublist, sublist_filter).
    pose proof (victims_deletes partition (RoleName <$> roleList) live score expected Hl ltac:(done)) as Hv.
    destruct (Z.leb_spec (Z.of_nat (length live)) expected) as [Hle|_].
    + exists []. split; [|split; [done|by intros x ?%elem_of_nil]]. split_and!; [simpl; lia|constructor|by intros x ?%elem_of_nil|by intros v x ?%elem_of_nil].
    + destruct updated; simpl; [|done]. set (victims := scoreName <$> _) in *. pose proof (deleteRoles_prefix fails victims) as Hp.
      destruct (deleteRoles fails victims) as [attempted failed]. destruct Hp as [P1 P2]. exists victims. split; [done|].
      destruct failed; [by apply P2|by apply P1].
Qed.
End scaleDown.

Definition pods_of (name : string) : option (list (option string)) := Some [if bool_decide (name = "g-1") then Some "10" else None].
Lemma scale_down_spec_witness :
  scaleDownServingGroups (merge_sort before) 1 (fun name => if bool_decide (name = "g-3") then ServingGroupCreating else ServingGroupRunning) pods_of
    (fun name => bool_decide (name = "g-3"))
    ((fun name => MkGroup name ∅ "" ServingGroupRunning ∅) <$> ["g-0"; "g-1"; "g-2"; "g-3"]) 2 = (["g-3"; "g-2"], ["g-3"]) /\
  deletes 1 ["g-0"; "g-1"; "g-2"; "g-3"] ["g-0"; "g-1"; "g-2"; "g-3"]
    (fun name => calculateServingGroupScore (if bool_decide (name = "g-3") then ServingGroupCreating else ServingGroupRunning) (pods_of name) name)
    2 ["g-3"; "g-2"].
Proof.
  split; [by vm_compute|].
  assert (before_sorted : forall l, StronglySorted notGreater (merge_sort before l)).
  { intros l. apply (StronglySorted_strengthen before); [apply (StronglySorted_merge_sort before)|].
    intros x y _ _. apply notGreater_before. }
  assert (Hd : NoDup ["g-0"; "g-1"; "g-2"; "g-3"]) by (apply (bool_decide_unpack _); by vm_compute).
  exact (proj1 (proj1 (scale_down_spec (merge_sort before) (merge_sort_Permutation before) before_sorted
    1 (fun name => bool_decide (name = "g-3")) 2)
    (fun name => if bool_decide (name = "g-3") then ServingGroupCreating else ServingGroupRunning) pods_of
    ((fun name => MkGroup name ∅ "" ServingGroupRunning ∅) <$> ["g-0"; "g-1"; "g-2"; "g-3"]) Hd)).
Defined.

(** Groups that are already being deleted are counted, unlike instances of roles: of
    three groups one of which is going, a scale-down to two deletes a second. *)
Lemma deleting_group_counted :
  scaleDownServingGroups (merge_sort before) 0
    (fun name => if bool_decide (name = "g-0") then ServingGroupDeleting else if bool_decide (name = "g-1") then ServingGroupRunning else ServingGroupCreating)
    (fun _ => Some []) (fun _ => false)
    ((fun name => MkGroup name ∅ "" ServingGroupRunning ∅) <$> ["g-0"; "g-1"; "g-2"]) 2 = (["g-2"], []).
Proof. by vm_compute. Qed.

(** ** The ordinals a scale-up fills *)

Section ordinals.
(** [handler] answers whether to go on. *)
Context {St : Type} (handler : Z -> St -> bool * St).

Fixpoint missingLoop (fuel : nat) (expectedCount limit : Z) (existing : gset Z) (ordinal visited : Z) (st : St) : option St :=
  match fuel with
  | O => None
  | S fuel =>
    if (ordinal <? expectedCount) && (visited <? limit) then
      if bool_decide (ordinal ∈ existing) then missingLoop fuel expectedCount limit existing (ordinal + 1) visited st
      else
        let '(continue, st) := handler ordinal st in
        if continue : bool then missingLoop fuel expectedCount limit existing (ordinal + 1) (visited + 1) st else Some st
    else Some st
  end.

(** [None] is running out of fuel. *)
Definition forEachMissingOrdinal (expectedCount : Z) (existingOrdinals : list Z) (limit : Z) (st : St) : option St :=
  if (expectedCount <=? 0) || (limit <=? 0) then Some st
  else
    let existing := list_to_set (filter (fun o => 0 <= o < expectedCount) existingOrdinals) in
    missingLoop (S (Z.to_nat expectedCount)) expectedCount limit existing 0 0 st.

(** The first loop: whether it returns, and the limit that is left. *)
Fixpoint formalLoop (fuel : nat) (n : Z) (occupied : gset Z) (ordinal formalSlots limit : Z) (st : St) : option (bool * Z * St) :=
  match fuel with
  | O => None
  | S fuel =>
    if (ordinal <? n) && (0 <? formalSlots) && (0 <? limit) then
      if bool_decide (ordinal ∈ occupied) then formalLoop fuel n occupied (ordinal + 1) formalSlots limit st
      else
        let '(continue, st) := handler ordinal st in
        if continue : bool then formalLoop fuel n occupied (ordinal + 1) (formalSlots - 1) (limit - 1) st
        else Some (true, limit, st)
    else Some (false, limit, st)
  end.

Fixpoint surgeLoop (fuel : nat) (occupied : gset Z) (ordinal limit : Z) (st : St) : option St :=
  match fuel with
  | O => None
  | S fuel =>
    if 0 <? limit then
      if bool_decide (ordinal ∈ occupied) then surgeLoop fuel occupied (ordinal + 1) limit st
      else
        let '(continue, st) := handler ordinal st in
        if continue : bool then surgeLoop fuel occupied (ordinal + 1) (limit - 1) st else Some st
    else Some st
  end.

Definition forEachCoordinatedOrdinal (n formalSlots : Z) (existing : list Z) (limit : Z) (st : St) : option St :=
  let occupied : gset Z := list_to_set existing in
  '(returned, limit, st) ← formalLoop (S (Z.to_nat n)) n occupied 0 formalSlots limit st;
  if returned : bool then Some st else surgeLoop (S (Z.to_nat limit + size occupied)) occupied n limit st.

(** *** The ordinals they visit *)

(** Handle the ordinals in turn, as long as the handler goes on. *)
Fixpoint visitWhile (ordinals : list Z) (st : St) : bool * St :=
  match ordinals with
  | [] => (true, st)
  | o :: ordinals => let '(continue, st) := handler o st in if continue : bool then visitWhile ordinals st else (false, st)
  end.

Definition missing (existing : list Z) (first n : Z) : list Z := filter (fun o => o ∉ existing) (seqZ first n).

(** The free formal ordinals, then the free ordinals above them. *)
Definition coordinatedOrdinals (n formalSlots : Z) (existing : list Z) (limit : Z) : list Z :=
  let formal := take (Z.to_nat (Z.min formalSlots limit)) (missing existing 0 n) in
  let rest := Z.max 0 (limit - Z.of_nat (length formal)) in
  formal ++ take (Z.to_nat rest) (missing existing n (rest + Z.of_nat (size (list_to_set existing : gset Z)))).

Lemma missing_cons existing first n : 0 < n ->
  missing existing first n = (if decide (first ∈ existing) then [] else [first]) ++ missing existing (first + 1) (n - 1).
Proof.
  intros Hn. unfold missing. rewrite seqZ_cons by done. rewrite filter_cons.
  replace (Z.succ first) with (first + 1) by lia. replace (Z.pred n) with (n - 1) by lia.
  destruct (decide (first ∈ existing)), (decide (first ∉ existing)); done.
Qed.

Lemma missing_nil existing first n : n <= 0 -> missing existing first n = [].
Proof. intros Hn. unfold missing. by rewrite seqZ_nil. Qed.

Lemma visitWhile_app a b st : visitWhile (a ++ b) st =
  let '(continue, st) := visitWhile a st in if continue : bool then visitWhile b st else (false, st).
Proof.
  revert st. induction a as [|o a IH]; intros st; [done|]. simpl. destruct (handler o st) as [[|] st']; [apply IH|done].
Qed.

Lemma missingLoop_spec expected limit existing existingOrdinals fuel : forall ordinal visited st,
  (forall o, ordinal <= o < expected -> o ∈ existing <-> o ∈ existingOrdinals) -> (Z.to_nat (expected - ordinal) < fuel)%nat ->
  missingLoop fuel expected limit existing ordinal visited st =
    Some (visitWhile (take (Z.to_nat (limit - visited)) (missing existingOrdinals ordinal (expected - ordinal))) st).2.
Proof.
  induction fuel as [|fuel IH]; intros ordinal visited st Hex Hf; [lia|]. cbn [missingLoop].
  destruct (Z.ltb_spec ordinal expected) as [Ho|Ho]; simpl.
  2: { rewrite missing_nil by lia. by rewrite take_nil. }
  destruct (Z.ltb_spec visited limit) as [Hv|Hv]; [|replace (Z.to_nat (limit - visited)) with 0%nat by lia; done].
  rewrite missing_cons by lia. replace (expected - ordinal - 1) with (expected - (ordinal + 1)) by lia.
  assert (Hin := Hex ordinal ltac:(lia)). case_bool_decide as Hb.
  - rewrite decide_True by (by apply Hin). apply IH; [intros o Hoo; apply Hex; lia|lia].
  - rewrite decide_False by (by rewrite <- Hin). replace (Z.to_nat (limit - visited)) with (S (Z.to_nat (limit - (visited + 1)))) by lia.
    simpl. destruct (handler ordinal st) as [[|] st']; [|done]. apply IH; [intros o Hoo; apply Hex; lia|lia].
Qed.

Lemma formalLoop_spec n occupied existing fuel : (forall o, o ∈ occupied <-> o ∈ existing) -> forall ordinal formalSlots limit st,
  (Z.to_nat (n - ordinal) < fuel)%nat ->
  let formal := take (Z.to_nat (Z.min formalSlots limit)) (missing existing ordinal (n - ordinal)) in
  exists limit', formalLoop fuel n occupied ordinal formalSlots limit st =
    Some (negb (visitWhile formal st).1, limit', (visitWhile formal st).2) /\
    ((visitWhile formal st).1 = true -> limit' = limit - Z.of_nat (length formal)).
Proof.
  intros Hocc. induction fuel as [|fuel IH]; intros ordinal formalSlots limit st Hf formal; [lia|]. cbn [formalLoop].
  destruct (Z.ltb_spec ordinal n) as [Ho|Ho]; simpl.
  2: { assert (Ef : formal = []) by (unfold formal; rewrite missing_nil by lia; apply take_nil). rewrite Ef. simpl.
       exists limit. split; [done|lia]. }
  destruct ((0 <? formalSlots) && (0 <? limit)) eqn:E.
  2: { assert (Ef : formal = []) by (unfold formal; replace (Z.to_nat (Z.min formalSlots limit)) with 0%nat by lia; done). rewrite Ef. simpl.
       exists limit. split; [done|lia]. }
  unfold formal. rewrite missing_cons by lia. replace (n - ordinal - 1) with (n - (ordinal + 1)) by lia. case_bool_decide as Hb.
  - rewrite decide_True by (by apply Hocc). simpl. apply IH. lia.
  - rewrite decide_False by (by rewrite <- Hocc).
    replace (Z.to_nat (Z.min formalSlots limit)) with (S (Z.to_nat (Z.min (formalSlots - 1) (limit - 1)))) by lia.
    simpl. destruct (handler ordinal st) as [[|] st']; [|by exists limit].
    destruct (IH (ordinal + 1) (formalSlots - 1) (limit - 1) st') as (limit' & -> & Hl); [lia|]. exists limit'. split; [done|].
    intros Ht. rewrite Hl by done. lia.
Qed.

Lemma surgeLoop_spec occupied existing m : (forall o, o ∈ occupied <-> o ∈ existing) -> forall ordinal limit st,
  (Z.to_nat limit + size (filter (fun o => ordinal <= o)%Z occupied) <= m)%nat ->
  surgeLoop (S m) occupied ordinal limit st =
    Some (visitWhile (take (Z.to_nat limit) (missing existing ordinal (Z.of_nat m))) st).2.
Proof.
  intros Hocc. induction m as [|m IH]; intros ordinal limit st Hm.
  - cbn [surgeLoop]. rewrite (proj2 (Z.ltb_ge 0 limit)) by lia. replace (Z.to_nat limit) with 0%nat by lia. done.
  - remember (S m) as f eqn:Ef. cbn [surgeLoop]. subst f.
    destruct (Z.ltb_spec 0 limit) as [Hl|Hl]; [|replace (Z.to_nat limit) with 0%nat by lia; done].
    rewrite missing_cons by lia. replace (Z.of_nat (S m) - 1) with (Z.of_nat m) by lia.
    assert (Hsub : filter (fun o => ordinal + 1 <= o)%Z occupied ⊆ filter (fun o => ordinal <= o)%Z occupied).
    { intros o. rewrite !elem_of_filter. intros [? ?]. split; [lia|done]. }
    case_bool_decide as Hb.
    + rewrite decide_True by (by apply Hocc). apply IH.
      assert (size (filter (fun o => ordinal + 1 <= o)%Z occupied) < size (filter (fun o => ordinal <= o)%Z occupied))%nat; [|lia].
      apply subset_size. split; [done|]. intros Hc. specialize (Hc ordinal). rewrite !elem_of_filter in Hc.
      destruct Hc as [? _]; [split; [lia|done]|lia].
    + rewrite decide_False by (by rewrite <- Hocc). replace (Z.to_nat limit) with (S (Z.to_nat (limit - 1))) by lia. simpl.
      destruct (handler ordinal st) as [[|] st']; [|done]. apply IH. apply subseteq_size in Hsub. lia.
Qed.

(** C34: both scale-up loops end, although the second has no bound in the
    code, and handle exactly the free ordinals in ascending order until the
    handler stops or the limit is reached: the ordinary one the first [limit]
    missing in [[0, n)]; the coordinated one as many of those as there are formal
    slots, then the first free ordinals from [n] on. Duplicate, unsorted,
    negative or out-of-range existing ordinals do not matter. *)
Theorem scale_up_ordinals n formalSlots existing limit st :
  forEachMissingOrdinal n existing limit st = Some (visitWhile (take (Z.to_nat limit) (missing existing 0 n)) st).2 /\
  forEachCoordinatedOrdinal n formalSlots existing limit st =
    Some (visitWhile (coordinatedOrdinals n formalSlots existing limit) st).2.
Proof.
  split.
  - unfold forEachMissingOrdinal. destruct (Z.leb_spec n 0) as [Hn|Hn]; cbn [orb].
    { rewrite missing_nil by lia. by rewrite take_nil. }
    destruct (Z.leb_spec limit 0) as [Hl|Hl]; [replace (Z.to_nat limit) with 0%nat by lia; done|].
    cbv zeta. rewrite (missingLoop_spec n limit _ existing _ 0 0 st);
      [|intros o Ho; rewrite elem_of_list_to_set, list_elem_of_filter; split; [by intros [_ ?]|intros ?; split; [exact Ho|done]]|rewrite Z.sub_0_r; lia].
    by rewrite !Z.sub_0_r.
  - unfold forEachCoordinatedOrdinal, coordinatedOrdinals. set (occupied := list_to_set existing : gset Z).
    assert (Hocc : forall o, o ∈ occupied <-> o ∈ existing) by (intros o; apply elem_of_list_to_set).
    destruct (formalLoop_spec n occupied existing (S (Z.to_nat n)) Hocc 0 formalSlots limit st) as (limit' & E & Hl); [rewrite Z.sub_0_r; lia|].
    rewrite Z.sub_0_r in E, Hl. set (formal := take _ (missing existing 0 n)) in *. rewrite E. cbn [mbind option_bind]. rewrite visitWhile_app.
    destruct (visitWhile formal st) as [[|] st']; cbn [fst snd negb] in *; [|done]. rewrite (Hl eq_refl).
    set (rest := limit - Z.of_nat (length formal)).
    assert (Hsz : (size (filter (fun o => n <= o)%Z occupied) <= size occupied)%nat)
      by (apply subseteq_size; intros o [_ ?]%elem_of_filter; done).
    rewrite surgeLoop_spec with (existing := existing) by (done || lia). f_equal. f_equal. f_equal.
    replace (Z.to_nat (Z.max 0 rest)) with (Z.to_nat rest) by lia. f_equal. f_equal. lia.
Qed.
End ordinals.
