(* ===== verification/PodStore.v ===== *)
(** * pkg/kthena-router/datastore: model servers, their pods and the
      prefill/decode index

    store.go, model_server.go and pdgroup_pods.go: which pods the router knows,
    to which model servers they belong, and how a model server that separates
    prefill from decode groups them. The index of a model server is kept three
    times, as groups and as two reverse maps; it refines one map from a pod to
    its role and group. *)
From S2P Require Import Prelude ServingStore.

Abbreviation labels := (gmap string string).
Abbreviation podName := NamespacedName.

(** [None] is the nil map. *)
Record PDGroup := MkPDGroup { GroupKey : string; PrefillLabels : option labels; DecodeLabels : option labels }.
Record WorkloadSelector := MkSelector { MatchLabels : option labels; PDGroupOf : option PDGroup }.
Record ModelServer := MkServer { ServerName : NamespacedName; InferenceEngine : string; Selector : option WorkloadSelector }.

#[global] Instance PDGroup_eq_dec : EqDecision PDGroup.
Proof. solve_decision. Defined.
#[global] Instance WorkloadSelector_eq_dec : EqDecision WorkloadSelector.
Proof. solve_decision. Defined.

(** ** One model server *)

Record PDGroupPods := MkGroupPods { decodePods : gset podName; prefillPods : gset podName }.
Definition NewPDGroupPods : PDGroupPods := MkGroupPods ∅ ∅.
Definition AddDecodePod (p : podName) (g : PDGroupPods) : PDGroupPods := MkGroupPods ({[p]} ∪ decodePods g) (prefillPods g).
Definition AddPrefillPod (p : podName) (g : PDGroupPods) : PDGroupPods := MkGroupPods (decodePods g) ({[p]} ∪ prefillPods g).
Definition RemovePod (p : podName) (g : PDGroupPods) : PDGroupPods := MkGroupPods (decodePods g ∖ {[p]}) (prefillPods g ∖ {[p]}).
Definition IsEmpty (g : PDGroupPods) : bool := (size (decodePods g) =? 0)%nat && (size (prefillPods g) =? 0)%nat.

Record modelServer := MkModelServer {
  server : ModelServer;
  pods : gset podName;
  pdGroups : gmap string PDGroupPods;
  decodePodGroups : gmap podName string;
  prefillPodGroups : gmap podName string
}.

Definition newModelServer (ms : ModelServer) : modelServer := MkModelServer ms ∅ ∅ ∅ ∅.
Definition addPod (p : podName) (m : modelServer) : modelServer :=
  MkModelServer (server m) ({[p]} ∪ pods m) (pdGroups m) (decodePodGroups m) (prefillPodGroups m).
Definition deletePod (p : podName) (m : modelServer) : modelServer :=
  MkModelServer (server m) (pods m ∖ {[p]}) (pdGroups m) (decodePodGroups m) (prefillPodGroups m).

(** A label that is absent reads as the empty string. *)
Definition matchesLabels (podLabels : labels) (requiredLabels : option labels) : bool :=
  let required := default ∅ requiredLabels in
  if (size required =? 0)%nat then false
  else bool_decide (map_Forall (fun k v => default ""%string (podLabels !! k) = v) required).

Definition pdGroupOf (ms : ModelServer) : option PDGroup := s ← Selector ms; PDGroupOf s.

Definition getPDGroupName (podLabels : labels) (m : modelServer) : string :=
  match pdGroupOf (server m) with Some g => default ""%string (podLabels !! GroupKey g) | None => ""%string end.

Definition categorizePodForPDGroupLocked (p : podName) (podLabels : labels) (m : modelServer) : modelServer :=
  let value := getPDGroupName podLabels m in
  if bool_decide (value = ""%string) then m
  else
    match pdGroupOf (server m) with
    | None => m
    | Some pdGroup =>
      let isDecodePod := matchesLabels podLabels (DecodeLabels pdGroup) in
      if negb isDecodePod && negb (matchesLabels podLabels (PrefillLabels pdGroup)) then m
      else
        let g := default NewPDGroupPods (pdGroups m !! value) in
        if isDecodePod
        then MkModelServer (server m) (pods m) (<[value := AddDecodePod p g]> (pdGroups m))
               (<[p := value]> (decodePodGroups m)) (prefillPodGroups m)
        else MkModelServer (server m) (pods m) (<[value := AddPrefillPod p g]> (pdGroups m))
               (decodePodGroups m) (<[p := value]> (prefillPodGroups m))
    end.

Definition removePodFromPDGroups (p : podName) (m : modelServer) : modelServer :=
  match (match decodePodGroups m !! p with Some g => Some g | None => prefillPodGroups m !! p end) with
  | None => m
  | Some name =>
    let groups :=
      match pdGroups m !! name with
      | None => pdGroups m
      | Some g => if IsEmpty (RemovePod p g) then delete name (pdGroups m) else <[name := RemovePod p g]> (pdGroups m)
      end in
    MkModelServer (server m) (pods m) groups (delete p (decodePodGroups m)) (delete p (prefillPodGroups m))
  end.

Definition categorizePodForPDGroup (p : podName) (podLabels : labels) (m : modelServer) : modelServer :=
  categorizePodForPDGroupLocked p podLabels (removePodFromPDGroups p m).

(** The queries visit maps and sets in an unspecified order. *)
Definition getAllDecodePods (iterate : gmap string PDGroupPods -> list (string * PDGroupPods)) (UnsortedList : gset podName -> list podName)
    (m : modelServer) : list podName :=
  mjoin ((fun g => UnsortedList (decodePods g.2)) <$> iterate (pdGroups m)).

Definition getPrefillPodsForDecodeGroup (UnsortedList : gset podName -> list podName) (p : podName) (m : modelServer) : list podName :=
  match pdGroupOf (server m) with
  | None => []
  | Some _ =>
    match decodePodGroups m !! p with
    | None => []
    | Some value => match pdGroups m !! value with Some g => UnsortedList (prefillPods g) | None => [] end
    end
  end.

(** ** The store

    The operations of the store only use these of a model server. *)
Class ServerOps (M : Type) := {
  new : ModelServer -> M;
  serverOf : M -> ModelServer;
  podsOf : M -> gset podName;
  replace : ModelServer -> option (gset podName) -> M -> M;
  clearIndex : M -> M;
  classifyLocked : podName -> labels -> M -> M;
  recategorize : podName -> labels -> M -> M;
  uncategorize : podName -> M -> M;
  join : podName -> M -> M;
  leave : podName -> M -> M
}.

#[global] Instance modelServer_ops : ServerOps modelServer := {
  new := newModelServer;
  serverOf := server;
  podsOf := pods;
  replace ms newPods m := MkModelServer ms (default (pods m) newPods) (pdGroups m) (decodePodGroups m) (prefillPodGroups m);
  clearIndex m := MkModelServer (server m) (pods m) ∅ ∅ ∅;
  classifyLocked := categorizePodForPDGroupLocked;
  recategorize := categorizePodForPDGroup;
  uncategorize := removePodFromPDGroups;
  join := addPod;
  leave := deletePod
}.

Record PodInfo := MkPodInfo { PodLabels : labels; PodEngine : string; PodServers : gset NamespacedName }.

Record podStore (M : Type) := MkPodStore { servers : gmap NamespacedName M; podInfos : gmap podName PodInfo }.
Arguments MkPodStore {M} _ _.
Arguments servers {M} _.
Arguments podInfos {M} _.

Inductive PodOp :=
| OAddOrUpdateModelServer (ms : ModelServer) (newPods : option (gset podName))
| ODeleteModelServer (name : NamespacedName)
| OAddOrUpdatePod (p : podName) (podLabels : labels) (modelServers : list ModelServer)
| OAppendModelServerToPod (p : podName) (podLabels : labels) (modelServers : list ModelServer)
| ODeletePod (p : podName).

Section store.
Context {M : Type} `{!ServerOps M}.
(** The order in which a set is visited. *)
Context (range : gset NamespacedName -> list NamespacedName).

Definition classifyAll (infos : gmap podName PodInfo) (m : M) : M :=
  fold_left (fun m p => match infos !! p with Some info => classifyLocked p (PodLabels info) m | None => m end) (range (podsOf m)) m.

Definition AddOrUpdateModelServer (ms : ModelServer) (newPods : option (gset podName)) (s : podStore M) : podStore M :=
  let name := ServerName ms in
  let object :=
    match servers s !! name with
    | None => classifyAll (podInfos s) (replace ms newPods (new ms))
    | Some m =>
      let selectorChanged := negb (bool_decide (Selector (serverOf m) = Selector ms)) in
      let m := replace ms newPods m in
      if selectorChanged then classifyAll (podInfos s) (clearIndex m) else m
    end in
  MkPodStore (<[name := object]> (servers s)) (podInfos s).

Definition RemoveModelServer (name : NamespacedName) (info : PodInfo) : PodInfo :=
  MkPodInfo (PodLabels info) (PodEngine info) (PodServers info ∖ {[name]}).
Definition forgetServer (name : NamespacedName) (infos : gmap podName PodInfo) (p : podName) : gmap podName PodInfo :=
  match infos !! p with
  | None => infos
  | Some info =>
    let info := RemoveModelServer name info in
    if (size (PodServers info) =? 0)%nat then delete p infos else <[p := info]> infos
  end.
Definition DeleteModelServer (name : NamespacedName) (s : podStore M) : podStore M :=
  match servers s !! name with
  | None => s
  | Some m => MkPodStore (delete name (servers s)) (fold_left (forgetServer name) (range (podsOf m)) (podInfos s))
  end.

(** A server that is not in the store is skipped. *)
Definition joinServer (p : podName) (podLabels : labels) (all : gmap NamespacedName M) (name : NamespacedName) : gmap NamespacedName M :=
  alter (fun m => recategorize p podLabels (join p m)) name all.
Definition leaveServer (p : podName) (all : gmap NamespacedName M) (name : NamespacedName) : gmap NamespacedName M :=
  alter (fun m => uncategorize p (leave p m)) name all.

Definition AddOrUpdatePod (p : podName) (podLabels : labels) (modelServers : list ModelServer) (s : podStore M) : podStore M :=
  let newServers := list_to_set (ServerName <$> modelServers) : gset NamespacedName in
  let engine := fold_left (fun _ ms => InferenceEngine ms) modelServers ""%string in
  let all := fold_left (joinServer p podLabels) (ServerName <$> modelServers) (servers s) in
  let all :=
    match podInfos s !! p with
    | Some old => fold_left (leaveServer p) (range (PodServers old ∖ newServers)) all
    | None => all
    end in
  MkPodStore all (<[p := MkPodInfo podLabels engine newServers]> (podInfos s)).

Definition appendServer (p : podName) (podLabels : labels) (st : gmap NamespacedName M * PodInfo) (ms : ModelServer) :
    gmap NamespacedName M * PodInfo :=
  let '(all, info) := st in
  if bool_decide (ServerName ms ∈ PodServers info) then st
  else
    let engine := if bool_decide (PodEngine info = ""%string) then InferenceEngine ms else PodEngine info in
    (joinServer p podLabels all (ServerName ms), MkPodInfo (PodLabels info) engine ({[ServerName ms]} ∪ PodServers info)).

(** An unknown pod is an error and changes nothing. *)
Definition AppendModelServerToPod (p : podName) (podLabels : labels) (modelServers : list ModelServer) (s : podStore M) : podStore M :=
  match podInfos s !! p with
  | None => s
  | Some info =>
    let '(all, info) := fold_left (appendServer p podLabels) modelServers (servers s, info) in
    MkPodStore all (<[p := info]> (podInfos s))
  end.

Definition DeletePod (p : podName) (s : podStore M) : podStore M :=
  match podInfos s !! p with
  | None => s
  | Some info => MkPodStore (fold_left (leaveServer p) (range (PodServers info)) (servers s)) (delete p (podInfos s))
  end.

Definition podStep (s : podStore M) (op : PodOp) : podStore M :=
  match op with
  | OAddOrUpdateModelServer ms newPods => AddOrUpdateModelServer ms newPods s
  | ODeleteModelServer name => DeleteModelServer name s
  | OAddOrUpdatePod p podLabels modelServers => AddOrUpdatePod p podLabels modelServers s
  | OAppendModelServerToPod p podLabels modelServers => AppendModelServerToPod p podLabels modelServers s
  | ODeletePod p => DeletePod p s
  end.
Definition podRun (ops : list PodOp) : podStore M := fold_left podStep ops (MkPodStore ∅ ∅).
End store.

(** [None]: the model server, or the decode pod, is not in the store. *)
Definition GetDecodePods iterate UnsortedList (name : NamespacedName) (s : podStore modelServer) : option (list podName) :=
  m ← servers s !! name;
  Some (filter (fun p => is_Some (podInfos s !! p)) (getAllDecodePods iterate UnsortedList m)).
Definition GetPrefillPodsForDecodeGroup UnsortedList (name : NamespacedName) (p : podName) (s : podStore modelServer) : option (list podName) :=
  m ← servers s !! name;
  _ ← podInfos s !! p;
  Some (filter (fun q => is_Some (podInfos s !! q)) (getPrefillPodsForDecodeGroup UnsortedList p m)).
Definition GetPodsByModelServer UnsortedList (name : NamespacedName) (s : podStore modelServer) : option (list podName) :=
  m ← servers s !! name;
  Some (filter (fun p => is_Some (podInfos s !! p)) (UnsortedList (pods m))).

(** ** The specification: one map per model server *)

Inductive PDRole := Decode | Prefill.
#[global] Instance PDRole_eq_dec : EqDecision PDRole.
Proof. solve_decision. Defined.

Record aserver := MkAServer { a_server : ModelServer; a_pods : gset podName; a_class : gmap podName (PDRole * string) }.

Definition classify (ms : ModelServer) (podLabels : labels) : option (PDRole * string) :=
  g ← pdGroupOf ms;
  value ← podLabels !! GroupKey g;
  if bool_decide (value = ""%string) then None
  else if matchesLabels podLabels (DecodeLabels g) then Some (Decode, value)
  else if matchesLabels podLabels (PrefillLabels g) then Some (Prefill, value)
  else None.

Definition a_set (p : podName) (c : option (PDRole * string)) (a : aserver) : aserver :=
  MkAServer (a_server a) (a_pods a) (match c with Some c => <[p := c]> (a_class a) | None => a_class a end).
Definition a_unset (p : podName) (a : aserver) : aserver := MkAServer (a_server a) (a_pods a) (delete p (a_class a)).

#[global] Instance aserver_ops : ServerOps aserver := {
  new ms := MkAServer ms ∅ ∅;
  serverOf := a_server;
  podsOf := a_pods;
  replace ms newPods a := MkAServer ms (default (a_pods a) newPods) (a_class a);
  clearIndex a := MkAServer (a_server a) (a_pods a) ∅;
  classifyLocked p ls a := a_set p (classify (a_server a) ls) a;
  recategorize p ls a := a_set p (classify (a_server a) ls) (a_unset p a);
  uncategorize := a_unset;
  join p a := MkAServer (a_server a) ({[p]} ∪ a_pods a) (a_class a);
  leave p a := MkAServer (a_server a) (a_pods a ∖ {[p]}) (a_class a)
}.

Definition abs (m : modelServer) : aserver :=
  MkAServer (server m) (pods m) ((pair Decode <$> decodePodGroups m) ∪ (pair Prefill <$> prefillPodGroups m)).

Definition decodeIn (m : modelServer) (g : string) : gset podName := default ∅ (decodePods <$> pdGroups m !! g).
Definition prefillIn (m : modelServer) (g : string) : gset podName := default ∅ (prefillPods <$> pdGroups m !! g).

(** The groups and the reverse maps agree. *)
Record index_ok (m : modelServer) : Prop := {
  ix_disjoint : forall p g, decodePodGroups m !! p = Some g -> prefillPodGroups m !! p = None;
  ix_decode : forall p g, decodePodGroups m !! p = Some g <-> p ∈ decodeIn m g;
  ix_prefill : forall p g, prefillPodGroups m !! p = Some g <-> p ∈ prefillIn m g;
  ix_nonempty : forall g gp, pdGroups m !! g = Some gp -> IsEmpty gp = false
}.

Definition unclassified (p : podName) (m : modelServer) : Prop := decodePodGroups m !! p = None /\ prefillPodGroups m !! p = None.

Lemma IsEmpty_true gp : IsEmpty gp = true <-> decodePods gp = ∅ /\ prefillPods gp = ∅.
Proof. unfold IsEmpty. rewrite andb_true_iff, !Nat.eqb_eq, !size_empty_iff. unfold_leibniz. done. Qed.

Lemma IsEmpty_false p gp : p ∈ decodePods gp \/ p ∈ prefillPods gp -> IsEmpty gp = false.
Proof. intros Hp. apply not_true_iff_false. rewrite IsEmpty_true. intros [E1 E2]. set_solver. Qed.

Lemma abs_class m p : index_ok m -> a_class (abs m) !! p =
  match decodePodGroups m !! p with
  | Some g => Some (Decode, g)
  | None => pair Prefill <$> prefillPodGroups m !! p
  end.
Proof.
  intros Hok. simpl. rewrite lookup_union, !lookup_fmap.
  by destruct (decodePodGroups m !! p), (prefillPodGroups m !! p).
Qed.

Lemma uncategorize_ok p m : index_ok m ->
  index_ok (removePodFromPDGroups p m) /\ unclassified p (removePodFromPDGroups p m) /\
  abs (removePodFromPDGroups p m) = a_unset p (abs m).
Proof.
  intros [D1 D2 D3 D4]. unfold removePodFromPDGroups.
  destruct (match decodePodGroups m !! p with Some g => Some g | None => prefillPodGroups m !! p end) as [g|] eqn:E.
  2: { destruct (decodePodGroups m !! p) eqn:E1; [done|]. split_and!; [done|done|].
       unfold a_unset, abs. simpl. f_equal. rewrite delete_id; [done|]. by rewrite lookup_union, !lookup_fmap, E1, E. }
  set (groups := match pdGroups m !! g with None => _ | Some _ => _ end).
  assert (Hold : forall g', g' <> g -> p ∉ decodeIn m g' /\ p ∉ prefillIn m g').
  { intros g' Hg'. rewrite <- D2, <- D3.
    destruct (decodePodGroups m !! p) as [g1|] eqn:E1; [assert (prefillPodGroups m !! p = None) by eauto|]; split; congruence. }
  set (m' := MkModelServer _ _ _ _ _).
  assert (Hd : forall g', decodeIn m' g' = decodeIn m g' ∖ {[p]} /\ prefillIn m' g' = prefillIn m g' ∖ {[p]}).
  { intros g'. unfold decodeIn, prefillIn, m', groups. simpl. destruct (decide (g' = g)) as [->|Hg'].
    - destruct (pdGroups m !! g) as [gp|] eqn:Eg; [|rewrite Eg; simpl; split; set_solver].
      destruct (IsEmpty (RemovePod p gp)) eqn:Ee.
      + apply IsEmpty_true in Ee as [E1 E2]. rewrite lookup_delete_eq. simpl in *. by rewrite E1, E2.
      + rewrite lookup_insert_eq. done.
    - assert (Eq : groups !! g' = pdGroups m !! g').
      { unfold groups. destruct (pdGroups m !! g) as [gp|]; [|done].
        destruct (IsEmpty _); [by rewrite lookup_delete_ne|by rewrite lookup_insert_ne]. }
      unfold groups in Eq. rewrite Eq. destruct (Hold g' Hg') as [H1 H2]. unfold decodeIn, prefillIn in *. split; set_solver. }
  split_and!.
  - split.
    + intros q g'. simpl. rewrite !lookup_delete_Some, lookup_delete_None. intros [Hq Hg']. right. by eapply D1.
    + intros q g'. destruct (Hd g') as [-> _]. simpl. rewrite lookup_delete_Some, D2. set_solver.
    + intros q g'. destruct (Hd g') as [_ ->]. simpl. rewrite lookup_delete_Some, D3. set_solver.
    + intros g' gp Hg'. simpl in Hg'. unfold groups in Hg'. destruct (pdGroups m !! g) as [gp0|]; [|by eapply D4].
      destruct (IsEmpty (RemovePod p gp0)) eqn:Ee.
      * apply lookup_delete_Some in Hg' as [_ ?]. by eapply D4.
      * apply lookup_insert_Some in Hg' as [[_ <-]|[_ ?]]; [done|by eapply D4].
  - split; simpl; apply lookup_delete_eq.
  - unfold a_unset, abs. simpl. f_equal. by rewrite delete_union, !fmap_delete.
Qed.

Lemma classify_ok p ls m : index_ok m -> unclassified p m ->
  index_ok (categorizePodForPDGroupLocked p ls m) /\
  abs (categorizePodForPDGroupLocked p ls m) = a_set p (classify (server m) ls) (abs m).
Proof.
  intros [D1 D2 D3 D4] [U1 U2]. unfold categorizePodForPDGroupLocked, getPDGroupName, classify.
  destruct (pdGroupOf (server m)) as [g|]; simpl; [|done].
  destruct (ls !! GroupKey g) as [value|]; simpl; [|done].
  destruct (decide (value = ""%string)) as [Hv|Hv]; [by rewrite bool_decide_true|]. rewrite bool_decide_false by done.
  set (gp := default NewPDGroupPods (pdGroups m !! value)).
  assert (Hgp : decodePods gp = decodeIn m value /\ prefillPods gp = prefillIn m value)
    by (unfold gp, decodeIn, prefillIn; by destruct (pdGroups m !! value)).
  destruct Hgp as [Gd Gp].
  destruct (matchesLabels ls (DecodeLabels g)); [|destruct (matchesLabels ls (PrefillLabels g)); [|done]]; cbn [negb andb]; split.
  - split; simpl.
    + intros q g' [[<- <-]|[_ ?]]%lookup_insert_Some; [done|by eapply D1].
    + intros q g'. unfold decodeIn. simpl. destruct (decide (g' = value)) as [->|].
      * rewrite lookup_insert_eq. simpl. rewrite Gd, elem_of_union, elem_of_singleton, <- D2, lookup_insert_Some.
        destruct (decide (q = p)) as [->|]; naive_solver.
      * rewrite (lookup_insert_ne (pdGroups m)) by done. change (default ∅ (decodePods <$> pdGroups m !! g')) with (decodeIn m g').
        rewrite <- D2, lookup_insert_Some. destruct (decide (q = p)) as [->|]; naive_solver.
    + intros q g'. rewrite D3. unfold prefillIn. simpl. destruct (decide (g' = value)) as [->|].
      * rewrite lookup_insert_eq. simpl. by rewrite Gp.
      * by rewrite lookup_insert_ne.
    + intros g' gp' [[<- <-]|[_ ?]]%lookup_insert_Some; [|by eapply D4]. apply (IsEmpty_false p). simpl. set_solver.
  - unfold a_set, abs. simpl. f_equal. by rewrite fmap_insert, insert_union_l.
  - split; simpl.
    + intros q g' Hq. destruct (decide (q = p)) as [->|]; [congruence|]. rewrite lookup_insert_ne by done. by eapply D1.
    + intros q g'. rewrite D2. unfold decodeIn. simpl. destruct (decide (g' = value)) as [->|].
      * rewrite lookup_insert_eq. simpl. by rewrite Gd.
      * by rewrite lookup_insert_ne.
    + intros q g'. unfold prefillIn. simpl. destruct (decide (g' = value)) as [->|].
      * rewrite lookup_insert_eq. simpl. rewrite Gp, elem_of_union, elem_of_singleton, <- D3, lookup_insert_Some.
        destruct (decide (q = p)) as [->|]; naive_solver.
      * rewrite (lookup_insert_ne (pdGroups m)) by done. change (default ∅ (prefillPods <$> pdGroups m !! g')) with (prefillIn m g').
        rewrite <- D3, lookup_insert_Some. destruct (decide (q = p)) as [->|]; naive_solver.
    + intros g' gp' [[<- <-]|[_ ?]]%lookup_insert_Some; [|by eapply D4]. apply (IsEmpty_false p). simpl. set_solver.
  - unfold a_set, abs. simpl. f_equal. rewrite fmap_insert, insert_union_r; [done|]. by rewrite lookup_fmap, U1.
Qed.

(** ** The refinement *)

Definition simulates (f : modelServer -> modelServer) (f' : aserver -> aserver) : Prop :=
  forall m, index_ok m -> index_ok (f m) /\ abs (f m) = f' (abs m).

Lemma join_sim p : simulates (join p) (join p).
Proof. intros m [? ? ? ?]. split; [by split|done]. Qed.
Lemma leave_sim p : simulates (leave p) (leave p).
Proof. intros m [? ? ? ?]. split; [by split|done]. Qed.
Lemma uncategorize_sim p : simulates (uncategorize p) (uncategorize p).
Proof. intros m Hm. destruct (uncategorize_ok p m Hm) as (? & _ & ?). by split. Qed.
Lemma server_uncategorize p m : server (removePodFromPDGroups p m) = server m.
Proof. unfold removePodFromPDGroups. destruct (decodePodGroups m !! p); [done|]. by destruct (prefillPodGroups m !! p). Qed.
Lemma recategorize_sim p ls : simulates (recategorize p ls) (recategorize p ls).
Proof.
  intros m Hm. destruct (uncategorize_ok p m Hm) as (H1 & H2 & H3). simpl. unfold categorizePodForPDGroup.
  destruct (classify_ok p ls _ H1 H2) as [H4 H5]. split; [done|]. by rewrite H5, H3, server_uncategorize.
Qed.
Lemma sim_compose f f' g g' : simulates f f' -> simulates g g' -> simulates (fun m => g (f m)) (fun a => g' (f' a)).
Proof. intros Hf Hg m Hm. destruct (Hf m Hm) as [H1 <-]. by apply Hg. Qed.
Lemma replace_sim ms newPods : simulates (replace ms newPods) (replace ms newPods).
Proof. intros m [? ? ? ?]. split; [by split|done]. Qed.

Lemma empty_index_ok ms ps : index_ok (MkModelServer ms ps ∅ ∅ ∅).
Proof.
  split; simpl.
  - intros p g [=].
  - intros p g. unfold decodeIn. simpl. rewrite !lookup_empty. split; [done|intros ?%elem_of_empty; done].
  - intros p g. unfold prefillIn. simpl. rewrite !lookup_empty. split; [done|intros ?%elem_of_empty; done].
  - intros g gp [=].
Qed.

Lemma classify_unclassified p q ls m : q <> p -> unclassified q m -> unclassified q (categorizePodForPDGroupLocked p ls m).
Proof.
  intros Hq [U1 U2]. unfold categorizePodForPDGroupLocked. case_bool_decide; [done|]. destruct (pdGroupOf (server m)); [|done].
  destruct (negb _ && negb _); [done|]. destruct (matchesLabels _ _); split; simpl; by rewrite ?lookup_insert_ne by done.
Qed.

Section refinement.
Context (range : gset NamespacedName -> list NamespacedName).
Hypothesis range_perm : forall X, range X ≡ₚ elements X.

Lemma classifyAll_sim infos m : index_ok m -> (forall p, unclassified p m) ->
  index_ok (classifyAll range infos m) /\ abs (classifyAll range infos m) = classifyAll range infos (abs m).
Proof.
  intros Hm Hu. unfold classifyAll. change (podsOf (abs m)) with (podsOf m).
  assert (Hd : NoDup (range (podsOf m))) by (rewrite range_perm; apply NoDup_elements).
  assert (Hu' : forall p, p ∈ range (podsOf m) -> unclassified p m) by auto. clear Hu.
  revert Hd Hu'. generalize (range (podsOf m)). intros l. revert m Hm.
  induction l as [|p l IH]; intros m Hm Hd Hu; [done|]. apply NoDup_cons in Hd as [Hp Hd]. simpl.
  destruct (infos !! p) as [info|]; [|apply IH; [done|done|]; intros q Hq; apply Hu; by right].
  destruct (classify_ok p (PodLabels info) m Hm (Hu p ltac:(left))) as [H1 H2].
  destruct (IH _ H1 Hd) as [H3 H4].
  { intros q Hq. apply classify_unclassified; [by intros ->|]. apply Hu. by right. }
  split; [exact H3|]. etransitivity; [exact H4|]. by rewrite H2.
Qed.

Definition absAll (all : gmap NamespacedName modelServer) : gmap NamespacedName aserver := abs <$> all.
Definition all_ok (all : gmap NamespacedName modelServer) : Prop := forall n m, all !! n = Some m -> index_ok m.

Lemma lookup_absAll all n : absAll all !! n = abs <$> all !! n.
Proof. apply lookup_fmap. Qed.

Lemma alter_sim f f' n all : simulates f f' -> all_ok all -> all_ok (alter f n all) /\ absAll (alter f n all) = alter f' n (absAll all).
Proof.
  intros Hf Hall. split.
  - intros n' m'. destruct (decide (n' = n)) as [->|Hn]; [|rewrite lookup_alter_ne by done; apply Hall].
    rewrite lookup_alter_eq, fmap_Some. intros (m & Hm & ->). apply Hf. by eapply Hall.
  - apply map_eq. intros n'. unfold absAll. rewrite lookup_fmap. destruct (decide (n' = n)) as [->|Hn].
    + rewrite !lookup_alter_eq, lookup_fmap. destruct (all !! n) as [m|] eqn:E; [|done]. simpl. f_equal. apply Hf. by eapply Hall.
    + by rewrite !lookup_alter_ne, lookup_fmap by done.
Qed.

(** A loop over steps that simulate one another. *)
Lemma fold_sim {A} step step' (l : list A) : (forall x all, all_ok all -> all_ok (step all x) /\ absAll (step all x) = step' (absAll all) x) ->
  forall all, all_ok all -> all_ok (fold_left step l all) /\ absAll (fold_left step l all) = fold_left step' l (absAll all).
Proof.
  intros Hs. induction l as [|x l IH]; intros all Hall; [done|]. simpl. destruct (Hs x all Hall) as [H1 H2].
  destruct (IH _ H1) as [H3 H4]. split; [done|]. by rewrite H4, H2.
Qed.

Lemma joinServer_sim p ls n all : all_ok all -> all_ok (joinServer p ls all n) /\ absAll (joinServer p ls all n) = joinServer p ls (absAll all) n.
Proof. intros Hall. apply (alter_sim _ _ n all (sim_compose _ _ _ _ (join_sim p) (recategorize_sim p ls)) Hall). Qed.
Lemma leaveServer_sim p n all : all_ok all -> all_ok (leaveServer p all n) /\ absAll (leaveServer p all n) = leaveServer p (absAll all) n.
Proof. intros Hall. apply (alter_sim _ _ n all (sim_compose _ _ _ _ (leave_sim p) (uncategorize_sim p)) Hall). Qed.

Definition absStore (s : podStore modelServer) : podStore aserver := MkPodStore (absAll (servers s)) (podInfos s).
Definition store_ok (s : podStore modelServer) : Prop := all_ok (servers s).

Lemma insert_sim n m all : index_ok m -> all_ok all -> all_ok (<[n := m]> all) /\ absAll (<[n := m]> all) = <[n := abs m]> (absAll all).
Proof.
  intros Hm Hall. split; [|apply fmap_insert]. intros n' m' [[_ <-]|[_ ?]]%lookup_insert_Some; [done|by eapply Hall].
Qed.

Lemma append_sim p ls l : forall all info, all_ok all ->
  let r := fold_left (appendServer p ls) l (all, info) in
  all_ok r.1 /\ (absAll r.1, r.2) = fold_left (appendServer p ls) l (absAll all, info).
Proof.
  induction l as [|ms l IH]; intros all info Hall; [done|]. simpl. destruct (bool_decide (ServerName ms ∈ PodServers info)); [by apply IH|].
  destruct (joinServer_sim p ls (ServerName ms) all Hall) as [H1 H2]. destruct (IH _ (MkPodInfo (PodLabels info)
    (if bool_decide (PodEngine info = ""%string) then InferenceEngine ms else PodEngine info) ({[ServerName ms]} ∪ PodServers info)) H1) as [H3 H4].
  split; [done|]. by rewrite H4, H2.
Qed.

Lemma podStep_sim s op : store_ok s -> store_ok (podStep range s op) /\ absStore (podStep range s op) = podStep range (absStore s) op.
Proof.
  intros Hs. unfold store_ok, absStore in *. destruct op as [ms newPods|n|p ls l|p ls l|p]; simpl.
  - unfold AddOrUpdateModelServer. simpl. set (m' := match servers s !! ServerName ms with None => _ | Some _ => _ end).
    assert (Hm' : index_ok m' /\ abs m' = match absAll (servers s) !! ServerName ms with
      | None => classifyAll range (podInfos s) (replace ms newPods (new ms))
      | Some m => if negb (bool_decide (Selector (serverOf m) = Selector ms))
                  then classifyAll range (podInfos s) (clearIndex (replace ms newPods m)) else replace ms newPods m
      end).
    { unfold m'. rewrite lookup_absAll. destruct (servers s !! ServerName ms) as [m|] eqn:E; simpl.
      - destruct (negb _); [|apply (replace_sim ms newPods m (Hs _ _ E))].
        destruct (classifyAll_sim (podInfos s) _ (empty_index_ok ms (default (pods m) newPods))) as [H1 H2]; [done|].
        split; [exact H1|]. etransitivity; [exact H2|]. unfold abs. simpl. by rewrite !fmap_empty, (left_id_L ∅ (∪)).
      - destruct (classifyAll_sim (podInfos s) _ (empty_index_ok ms (default ∅ newPods))) as [H1 H2]; [done|].
        split; [exact H1|]. etransitivity; [exact H2|]. unfold abs. simpl. by rewrite !fmap_empty, (left_id_L ∅ (∪)). }
    destruct Hm' as [H1 H2]. destruct (insert_sim (ServerName ms) m' _ H1 Hs) as [H3 H4]. split; [done|]. by rewrite H4, H2.
  - unfold DeleteModelServer. simpl. rewrite lookup_absAll. destruct (servers s !! n) as [m|]; simpl; [|done].
    split; [intros n' m' [_ ?]%lookup_delete_Some; by eapply Hs|]. unfold absAll. by rewrite fmap_delete.
  - unfold AddOrUpdatePod. simpl.
    destruct (fold_sim _ _ (ServerName <$> l) (fun n all => joinServer_sim p ls n all) _ Hs) as [H1 H2].
    destruct (podInfos s !! p) as [old|]; simpl; [|by rewrite H2].
    destruct (fold_sim _ _ (range (PodServers old ∖ list_to_set (ServerName <$> l))) (fun n all => leaveServer_sim p n all) _ H1) as [H3 H4].
    by rewrite H4, H2.
  - unfold AppendModelServerToPod. simpl. destruct (podInfos s !! p) as [info|]; [|done].
    destruct (append_sim p ls l (servers s) info Hs) as [H1 H2].
    destruct (fold_left (appendServer p ls) l (servers s, info)) as [all info']. simpl in *. by rewrite <- H2.
  - unfold DeletePod. simpl. destruct (podInfos s !! p) as [info|]; simpl; [|done].
    destruct (fold_sim _ _ (range (PodServers info)) (fun n all => leaveServer_sim p n all) _ Hs) as [H1 H2]. by rewrite H2.
Qed.

Lemma podRun_sim ops : store_ok (podRun range ops) /\ absStore (podRun range ops) = podRun range ops.
Proof.
  unfold podRun. assert (H : forall s s', store_ok s -> absStore s = s' ->
    store_ok (fold_left (podStep range) ops s) /\ absStore (fold_left (podStep range) ops s) = fold_left (podStep range) ops s').
  { induction ops as [|op ops IH]; intros s s' Hs <-; [done|]. simpl. destruct (podStep_sim s op Hs) as [H1 H2]. apply IH; done. }
  apply H; [intros n m [=]|]. unfold absStore, absAll. simpl. by rewrite fmap_empty.
Qed.
End refinement.

(** ** The queries *)

Section queries.
Context (range : gset NamespacedName -> list NamespacedName) (iterate : gmap string PDGroupPods -> list (string * PDGroupPods)).
Hypothesis range_perm : forall X, range X ≡ₚ elements X.
Hypothesis iterate_perm : forall g, iterate g ≡ₚ map_to_list g.

Lemma getAllDecodePods_elem m p : index_ok m -> p ∈ getAllDecodePods iterate range m <-> is_Some (decodePodGroups m !! p).
Proof.
  intros Hm. unfold getAllDecodePods. rewrite list_elem_of_join. split.
  - intros (l & Hp & Hl). apply list_elem_of_fmap in Hl as ([g gp] & -> & Hg). rewrite iterate_perm, elem_of_map_to_list in Hg.
    simpl in Hp. rewrite range_perm, elem_of_elements in Hp. exists g. apply (ix_decode m Hm). unfold decodeIn. by rewrite Hg.
  - intros [g Hg%(ix_decode m Hm)]. unfold decodeIn in Hg. destruct (pdGroups m !! g) as [gp|] eqn:E; [|by apply elem_of_empty in Hg].
    exists (range (decodePods gp)). split; [by rewrite range_perm, elem_of_elements|].
    apply list_elem_of_fmap. exists (g, gp). split; [done|]. by rewrite iterate_perm, elem_of_map_to_list.
Qed.

Lemma getAllDecodePods_nodup m : index_ok m -> NoDup (getAllDecodePods iterate range m).
Proof.
  intros Hm. unfold getAllDecodePods.
  assert (Hin : forall x, x ∈ iterate (pdGroups m) -> pdGroups m !! x.1 = Some x.2) by (intros [g gp]; rewrite iterate_perm, elem_of_map_to_list; done).
  assert (Hd : NoDup (iterate (pdGroups m)).*1) by (rewrite iterate_perm; apply NoDup_fst_map_to_list).
  induction (iterate (pdGroups m)) as [|[g gp] l IH]; [constructor|]. cbn [fmap list_fmap mjoin list_join snd].
  apply NoDup_cons in Hd as [Hg Hd]. apply NoDup_app. split_and!.
  - rewrite range_perm. apply NoDup_elements.
  - intros p Hp Hl. rewrite range_perm, elem_of_elements in Hp. apply list_elem_of_join in Hl as (k & Hk & Hl).
    apply list_elem_of_fmap in Hl as ([g' gp'] & -> & Hl). simpl in Hk. rewrite range_perm, elem_of_elements in Hk.
    assert (E1 : decodePodGroups m !! p = Some g) by (apply (ix_decode m Hm); unfold decodeIn; by rewrite (Hin (g, gp) ltac:(left) : pdGroups m !! g = Some gp)).
    assert (E2 : decodePodGroups m !! p = Some g') by (apply (ix_decode m Hm); unfold decodeIn; by rewrite (Hin (g', gp') ltac:(by right) : pdGroups m !! g' = Some gp')).
    apply Hg. apply list_elem_of_fmap. exists (g', gp'). split; [simpl; congruence|done].
  - apply IH; [|done]. intros x Hx. apply Hin. by right.
Qed.

Lemma GetDecodePods_spec n s : store_ok s ->
  match GetDecodePods iterate range n s with
  | None => servers (absStore s) !! n = None
  | Some l => exists a, servers (absStore s) !! n = Some a /\ NoDup l /\
      forall p, p ∈ l <-> (exists g, a_class a !! p = Some (Decode, g)) /\ is_Some (podInfos s !! p)
  end.
Proof.
  intros Hs. unfold GetDecodePods, absStore. simpl. rewrite lookup_absAll. destruct (servers s !! n) as [m|] eqn:E; [|done]. simpl.
  assert (Hm : index_ok m) by (by eapply Hs). exists (abs m). split_and!; [done|apply NoDup_filter, getAllDecodePods_nodup, Hm|].
  intros p. rewrite list_elem_of_filter, getAllDecodePods_elem, (and_comm (is_Some (podInfos s !! p))) by done. f_equiv.
  rewrite abs_class by done. destruct (decodePodGroups m !! p) as [g|].
  - split; [by exists g|done].
  - split; [intros [? [=]]|]. intros [g Hg]. by destruct (prefillPodGroups m !! p).
Qed.

Lemma GetPrefillPodsForDecodeGroup_spec n p s : store_ok s ->
  match GetPrefillPodsForDecodeGroup range n p s with
  | None => servers (absStore s) !! n = None \/ podInfos s !! p = None
  | Some l => exists a, servers (absStore s) !! n = Some a /\ NoDup l /\
      forall q, q ∈ l <-> pdGroupOf (a_server a) <> None /\ is_Some (podInfos s !! q) /\
        exists g, a_class a !! p = Some (Decode, g) /\ a_class a !! q = Some (Prefill, g)
  end.
Proof.
  intros Hs. unfold GetPrefillPodsForDecodeGroup, absStore. simpl. rewrite lookup_absAll. destruct (servers s !! n) as [m|] eqn:E; [|by left]. simpl.
  destruct (podInfos s !! p) as [i|]; simpl; [|by right]. assert (Hm : index_ok m) by (by eapply Hs). exists (abs m). split; [done|].
  unfold getPrefillPodsForDecodeGroup. change (a_server (abs m)) with (server m).
  assert (Hnil : forall P : podName -> Prop, (forall q, ~ P q) -> NoDup (filter (fun q => is_Some (podInfos s !! q)) []) /\
    forall q, q ∈ filter (fun q => is_Some (podInfos s !! q)) [] <-> P q).
  { intros P HP. split; [constructor|]. intros q. rewrite list_elem_of_filter. split; [by intros [_ ?%elem_of_nil]|by intros ?%HP]. }
  destruct (pdGroupOf (server m)) as [c|]; [|by apply Hnil; intros q [? _]].
  destruct (decodePodGroups m !! p) as [g|] eqn:Ep.
  2: { apply Hnil. intros q (_ & _ & g & Hg & _). rewrite abs_class, Ep in Hg by done. by destruct (prefillPodGroups m !! p). }
  pose proof (proj1 (ix_decode m Hm p g) Ep) as Hg. unfold decodeIn in Hg.
  destruct (pdGroups m !! g) as [gp|] eqn:Eg; [|by apply elem_of_empty in Hg].
  split; [apply NoDup_filter; rewrite range_perm; apply NoDup_elements|]. intros q.
  rewrite list_elem_of_filter, range_perm, elem_of_elements.
  assert (Hq : q ∈ prefillPods gp <-> a_class (abs m) !! q = Some (Prefill, g)).
  { transitivity (q ∈ prefillIn m g); [unfold prefillIn; by rewrite Eg|]. rewrite <- (ix_prefill m Hm), abs_class by done. split.
    - intros Hp'. destruct (decodePodGroups m !! q) eqn:Eq; [|by rewrite Hp']. apply (ix_disjoint m Hm) in Eq. congruence.
    - destruct (decodePodGroups m !! q); [done|]. destruct (prefillPodGroups m !! q); [|done]. simpl. congruence. }
  rewrite Hq, (abs_class m p), Ep by done. naive_solver.
Qed.
End queries.
