(* ===== verification/Scheduler.v ===== *)
(** * pkg/kthena-router/scheduler: scheduling a request

    scheduler_impl.go with the filters of least_request.go and lora_affinity.go
    and the score of least_request.go. A plugin is an interface: a filter and a
    score are arguments; what is proved of scheduling holds for all of them.
    A pod of the store is identified with its name. *)
From Stdlib Require Import Ascii String.
From S2P Require Import Prelude Float64 ServingStore PodStore.
Local Open Scope Z_scope.
Local Open Scope go_scope.

(** ** Contexts and plugins *)

Record Context := MkContext {
  Model : string;
  ModelServerName : NamespacedName;
  PDMode : bool;                    (* [PDGroup] is set *)
  Hashes : list Z;
  DecodePods : list podName;
  PrefillPods : list podName;
  BestPods : list podName;
  StickyPodName : string;
  StickyPrefillPodName : string
}.

Definition set_pairs (decode prefill : list podName) (c : Context) : Context :=
  MkContext (Model c) (ModelServerName c) (PDMode c) (Hashes c) decode prefill (BestPods c) (StickyPodName c) (StickyPrefillPodName c).
Definition set_best (best : list podName) (c : Context) : Context :=
  MkContext (Model c) (ModelServerName c) (PDMode c) (Hashes c) (DecodePods c) (PrefillPods c) best (StickyPodName c) (StickyPrefillPodName c).
Definition set_sticky (decode prefill : string) (c : Context) : Context :=
  MkContext (Model c) (ModelServerName c) (PDMode c) (Hashes c) (DecodePods c) (PrefillPods c) (BestPods c) decode prefill.

Record FilterPlugin := MkFilter { FilterName : string; Filter : Context -> list podName -> list podName }.
(** A score may write to the context: the prefix cache keeps the hashes there. *)
Record ScorePlugin := MkScorer { Score : Context -> list podName -> Context * gmap podName Z; weight : Z }.

(** What a filter promises: [slices.DeleteFunc] keeps the order. *)
Class FilterLaws (f : FilterPlugin) : Prop := filter_sublist : forall ctx pods, Filter f ctx pods `sublist_of` pods.

(** *** Plugins *)

(** [waiting] is the waiting-queue depth the engine of a pod reports. *)
Definition LeastRequestFilter (waiting : podName -> float64) (maxWaitingRequests : Z) : FilterPlugin :=
  MkFilter "least-request" (fun _ pods => filter (fun p => f_ge (waiting p) (f_of_Z maxWaitingRequests) = false) pods).
Definition LoraAffinityFilter (Contains : podName -> string -> bool) : FilterPlugin :=
  MkFilter "lora-affinity" (fun ctx pods => filter (fun p => negb (Contains p (Model ctx)) = false) pods).

#[global] Instance LeastRequestFilter_laws waiting n : FilterLaws (LeastRequestFilter waiting n).
Proof. intros ctx pods. apply sublist_filter. Qed.
#[global] Instance LoraAffinityFilter_laws Contains : FilterLaws (LoraAffinityFilter Contains).
Proof. intros ctx pods. apply sublist_filter. Qed.

Definition f_max (x y : float64) : float64 :=
  if f_isInf x && f_gt x f_zero || f_isInf y && f_gt y f_zero then S754_infinity false
  else if f_isNaN x || f_isNaN y then S754_nan
  else if f_eq x f_zero && f_eq x y then (match x with S754_zero true => y | _ => x end)
  else if f_gt x y then x else y.

(** [int(x)]: a value out of range is [oor]. *)
Definition f_to_int (oor : float64 -> Z) (x : float64) : Z :=
  match x with
  | S754_zero _ => 0
  | S754_finite s m e =>
    let z := truncZ s m e in
    if (- 2 ^ 63 <=? z) && (z <? 2 ^ 63) then z else int64 (oor x)
  | _ => int64 (oor x)
  end.

Definition baseScore (onFlight : Z) (running : float64) : float64 :=
  f_add (f_of_Z onFlight) (f_mul (f_of_Z 100) (f_max (f_sub (f_of_Z onFlight) running) f_zero)).

Definition LeastRequestScore (onFlight : podName -> Z) (running : podName -> float64) (oor : float64 -> Z)
    (ctx : Context) (pods : list podName) : Context * gmap podName Z :=
  let base p := baseScore (onFlight p) (running p) in
  let maxScore := fold_left (fun maxScore p => if f_gt (base p) maxScore then base p else maxScore) pods f_zero in
  let score p := if f_gt maxScore f_zero then f_mul (f_div (f_sub maxScore (base p)) maxScore) (f_of_Z 100) else f_of_Z 100 in
  (ctx, fold_left (fun scores p => <[p := f_to_int oor (score p)]> scores) pods ∅).

(** ** Running the plugins *)

(** [inr name]: filter [name] left no pod. *)
Fixpoint RunFilterPlugins (filters : list FilterPlugin) (ctx : Context) (pods : list podName) : list podName + string :=
  match filters with
  | [] => inl pods
  | f :: filters =>
    let pods := Filter f ctx pods in
    if (length pods =? 0)%nat then inr (FilterName f) else RunFilterPlugins filters ctx pods
  end.

(** Scores of pods that were not asked for are ignored. *)
Definition addScores (w : Z) (scores res : gmap podName Z) : gmap podName Z :=
  map_fold (fun p v res => match res !! p with None => res | Some x => <[p := x +₆₄ (v *₆₄ w)]> res end) res scores.

Fixpoint scoreLoop (scorers : list ScorePlugin) (pods : list podName) (ctx : Context) (res : gmap podName Z) : Context * gmap podName Z :=
  match scorers with
  | [] => (ctx, res)
  | p :: scorers =>
    let '(ctx, scores) := Score p ctx pods in
    scoreLoop scorers pods ctx (addScores (weight p) scores res)
  end.
Definition RunScorePlugins (scorers : list ScorePlugin) (ctx : Context) (pods : list podName) : Context * gmap podName Z :=
  scoreLoop scorers pods ctx (fold_left (fun res p => <[p := 0]> res) pods ∅).

(** *** The scores *)

(** A score only writes the hashes. *)
Definition alike (c d : Context) : Prop := Model c = Model d /\ ModelServerName c = ModelServerName d /\ PDMode c = PDMode d.
Class ScoreLaws (p : ScorePlugin) : Prop := score_context : forall ctx pods,
  let c := (Score p ctx pods).1 in
  alike c ctx /\ BestPods c = BestPods ctx /\ DecodePods c = DecodePods ctx /\ PrefillPods c = PrefillPods ctx.

#[global] Instance LeastRequestScore_laws onFlight running oor w : ScoreLaws (MkScorer (LeastRequestScore onFlight running oor) w).
Proof. done. Qed.

#[global] Instance alike_equiv : Equivalence alike.
Proof. split; unfold alike; [done|intros ? ? (?&?&?); done|]. intros c d e (->&->&->) (->&->&->). done. Qed.

(** What each plugin says, with its weight. *)
Fixpoint verdicts (scorers : list ScorePlugin) (pods : list podName) (ctx : Context) : list (gmap podName Z * Z) :=
  match scorers with
  | [] => []
  | p :: scorers => let '(ctx, scores) := Score p ctx pods in (scores, weight p) :: verdicts scorers pods ctx
  end.
Definition weighted (p : podName) (x : Z) (v : gmap podName Z * Z) : Z :=
  match v.1 !! p with Some y => x +₆₄ (y *₆₄ v.2) | None => x end.
(** The total of a pod: the weighted sum over the plugins that score it. *)
Definition total (scorers : list ScorePlugin) (ctx : Context) (pods : list podName) (p : podName) : Z :=
  fold_left (weighted p) (verdicts scorers pods ctx) 0.

Lemma addScores_lookup w scores res p : addScores w scores res !! p = (fun x => weighted p x (scores, w)) <$> res !! p.
Proof.
  unfold addScores, weighted. cbn [fst snd]. revert p.
  apply (map_fold_weak_ind (fun r m => forall p, r !! p = (fun x => match m !! p with Some y => x +₆₄ (y *₆₄ w) | None => x end) <$> res !! p)).
  - intros p. rewrite lookup_empty. by destruct (res !! p).
  - intros q v m r Hq IH p. destruct (decide (p = q)) as [->|Hp].
    + rewrite lookup_insert_eq. rewrite IH, Hq. destruct (res !! q) as [x|] eqn:E; simpl.
      * by rewrite lookup_insert_eq.
      * by rewrite IH, E.
    + rewrite (lookup_insert_ne m) by done. destruct (r !! q); [rewrite lookup_insert_ne by done|]; apply IH.
Qed.

Lemma scoreLoop_lookup scorers pods p : forall ctx res,
  (scoreLoop scorers pods ctx res).2 !! p = (fun x => fold_left (weighted p) (verdicts scorers pods ctx) x) <$> res !! p.
Proof.
  induction scorers as [|f scorers IH]; intros ctx res; simpl; [by destruct (res !! p)|].
  destruct (Score f ctx pods) as [ctx' scores]. rewrite IH, addScores_lookup. by destruct (res !! p).
Qed.

Lemma zeros_lookup (pods : list podName) p : forall res : gmap podName Z,
  fold_left (fun res p => <[p := 0]> res) pods res !! p = if decide (p ∈ pods) then Some 0 else res !! p.
Proof.
  induction pods as [|q pods IH]; intros res; [done|]. simpl. rewrite IH. destruct (decide (p ∈ pods)) as [Hp|Hp].
  - rewrite decide_True by (by right). done.
  - destruct (decide (p = q)) as [->|Hq]; [rewrite decide_True by left; apply lookup_insert_eq|].
    rewrite decide_False by (rewrite elem_of_cons; naive_solver). by apply lookup_insert_ne.
Qed.

Lemma RunScorePlugins_lookup scorers ctx pods p :
  (RunScorePlugins scorers ctx pods).2 !! p = if decide (p ∈ pods) then Some (total scorers ctx pods p) else None.
Proof.
  unfold RunScorePlugins. rewrite scoreLoop_lookup, zeros_lookup. by destruct (decide (p ∈ pods)).
Qed.

Lemma RunScorePlugins_context scorers pods : (forall f, f ∈ scorers -> ScoreLaws f) -> forall ctx,
  let c := (RunScorePlugins scorers ctx pods).1 in
  alike c ctx /\ BestPods c = BestPods ctx /\ DecodePods c = DecodePods ctx /\ PrefillPods c = PrefillPods ctx.
Proof.
  unfold RunScorePlugins. generalize (fold_left (fun (res : gmap podName Z) p => <[p := 0]> res) pods ∅).
  induction scorers as [|f scorers IH]; intros res Hl ctx; [done|]. simpl.
  destruct (Hl f ltac:(left) ctx pods) as (A1 & A2 & A3 & A4). destruct (Score f ctx pods) as [ctx' scores]. simpl in *.
  destruct (IH (addScores (weight f) scores res) ltac:(intros; apply Hl; by right) ctx') as (B1 & B2 & B3 & B4).
  split_and!; [by etrans|congruence..].
Qed.

Lemma RunFilterPlugins_sublist filters ctx : (forall f, f ∈ filters -> FilterLaws f) -> forall pods l,
  RunFilterPlugins filters ctx pods = inl l -> l `sublist_of` pods.
Proof.
  induction filters as [|f filters IH]; intros Hl pods l; simpl; [by intros [= ->]|].
  destruct (length (Filter f ctx pods) =? 0)%nat; [done|]. intros E. etrans; [|apply (Hl f ltac:(left) ctx)].
  apply IH; [|done]. intros; apply Hl. by right.
Qed.

Lemma RunFilterPlugins_empty filters ctx pods : RunFilterPlugins filters ctx pods = inl [] -> pods = [].
Proof.
  revert pods. induction filters as [|f filters IH]; intros pods; simpl; [by intros [= ->]|].
  destruct (Nat.eqb_spec (length (Filter f ctx pods)) 0) as [|Hn]; [done|]. intros E%IH. by rewrite E in Hn.
Qed.

(** ** Scheduling *)

Section scheduler.
(** The order in which the scores are visited, and the unstable [sort.Slice]
    by descending score. *)
Context (visitScores : gmap podName Z -> list (podName * Z)) (sortSlice : list (podName * Z) -> list (podName * Z)).

Definition TopNPodInfos (m : gmap podName Z) (n : Z) : list podName :=
  let list := sortSlice (visitScores m) in
  let n := if Z.of_nat (length list) <? n then Z.of_nat (length list) else n in
  let n := if n <? 0 then 0 else n in
  (take (Z.to_nat n) list).*1.

Definition topN : Z := 5.

Inductive ScheduleError :=
| DecodePodsUnavailable
| NoDecodePod
| FilteredOut (filterName : string)
| NoPair.

(** The scheduler's configuration and the store it reads. *)
Context (filters : list FilterPlugin) (scorers : list ScorePlugin)
  (getDecodePods : NamespacedName -> option (list podName))
  (getPrefillPods : NamespacedName -> podName -> option (list podName)).

(** The pinned pair, if both sides are still eligible. *)
Definition stickyPair (ctx : Context) (decodePods : list podName) : option (podName * podName) :=
  '(_, stickyDecode) ← list_find (fun p => Name p = StickyPodName ctx) decodePods;
  prefills ← getPrefillPods (ModelServerName ctx) stickyDecode;
  match RunFilterPlugins filters ctx prefills with
  | inr _ => None
  | inl prefills =>
    '(_, stickyPrefill) ← list_find (fun p => Name p = StickyPrefillPodName ctx) prefills;
    Some (stickyDecode, stickyPrefill)
  end.

(** The prefill instance for one decode instance. *)
Definition bestPrefill (ctx : Context) (decodePod : podName) : Context * option podName :=
  if bool_decide (Name decodePod = "") then (ctx, None)
  else
    match getPrefillPods (ModelServerName ctx) decodePod with
    | None | Some [] => (ctx, None)
    | Some selected =>
      match RunFilterPlugins filters ctx selected with
      | inr _ => (ctx, None)
      | inl selected =>
        let '(ctx, scores) := RunScorePlugins scorers ctx selected in
        (ctx, head (TopNPodInfos scores 1))
      end
    end.

Fixpoint pairLoop (decodePods : list podName) (ctx : Context) (decode prefill : list podName) : Context * list podName * list podName :=
  match decodePods with
  | [] => (ctx, decode, prefill)
  | d :: decodePods =>
    let '(ctx, best) := bestPrefill ctx d in
    match best with
    | None => pairLoop decodePods ctx decode prefill
    | Some p => pairLoop decodePods ctx (decode ++ [d]) (prefill ++ [p])
    end
  end.

Definition schedulePD (ctx : Context) : Context * option ScheduleError :=
  match getDecodePods (ModelServerName ctx) with
  | None => (ctx, Some DecodePodsUnavailable)
  | Some [] => (ctx, Some NoDecodePod)
  | Some decodePods =>
    match RunFilterPlugins filters ctx decodePods with
    | inr name => (ctx, Some (FilteredOut name))
    | inl decodePods =>
      let sticky := negb (bool_decide (StickyPodName ctx = "")) && negb (bool_decide (StickyPrefillPodName ctx = "")) in
      match (if sticky then stickyPair ctx decodePods else None) with
      | Some (d, p) => (set_pairs [d] [p] ctx, None)
      | None =>
        let ctx := if sticky then set_sticky "" "" ctx else ctx in
        let '(ctx, scores) := RunScorePlugins scorers ctx decodePods in
        let '(ctx, decode, prefill) := pairLoop (TopNPodInfos scores topN) ctx [] [] in
        let ctx := set_pairs decode prefill ctx in
        (ctx, if (length decode =? 0)%nat then Some NoPair else None)
      end
    end
  end.

Definition Schedule (ctx : Context) (pods : list podName) : Context * option ScheduleError :=
  if PDMode ctx then schedulePD ctx
  else
    match RunFilterPlugins filters ctx pods with
    | inr name => (ctx, Some (FilteredOut name))
    | inl pods =>
      let aggregated ctx :=
        let '(ctx, scores) := RunScorePlugins scorers ctx pods in (set_best (TopNPodInfos scores topN) ctx, None) in
      if bool_decide (StickyPodName ctx = "") then aggregated ctx
      else
        match list_find (fun p => Name p = StickyPodName ctx) pods with
        | Some (_, p) => (set_best [p] ctx, None)
        | None => aggregated (set_sticky "" (StickyPrefillPodName ctx) ctx)
        end
    end.

(** *** The best pods *)

Hypothesis visit_perm : forall m, visitScores m ≡ₚ map_to_list m.
Hypothesis sort_perm : forall l, sortSlice l ≡ₚ l.
Hypothesis sort_sorted : forall l, StronglySorted (fun a b => b.2 <= a.2) (sortSlice l).

(** The [n] best of [pods] in descending order. *)
Record ranked (score : podName -> Z) (pods : list podName) (n : nat) (l : list podName) : Prop := {
  rk_nodup : NoDup l;
  rk_length : length l = (n `min` length pods)%nat;
  rk_from : l ⊆ pods;
  rk_sorted : StronglySorted (fun p q => score q <= score p) l;
  rk_best : forall p q, p ∈ l -> q ∈ pods -> q ∉ l -> score q <= score p
}.

Lemma TopN_ranked ctx pods n : 0 <= n -> NoDup pods ->
  ranked (total scorers ctx pods) pods (Z.to_nat n) (TopNPodInfos (RunScorePlugins scorers ctx pods).2 n).
Proof.
  intros Hn Hd. unfold TopNPodInfos. set (m := (RunScorePlugins scorers ctx pods).2). set (l := sortSlice (visitScores m)).
  assert (Hl : l ≡ₚ map_to_list m) by (unfold l; by rewrite sort_perm, visit_perm).
  assert (Hin : forall x, x ∈ l <-> x.1 ∈ pods /\ x.2 = total scorers ctx pods x.1).
  { intros [p v]. rewrite Hl, elem_of_map_to_list. unfold m. rewrite RunScorePlugins_lookup. simpl.
    destruct (decide (p ∈ pods)); [|naive_solver]. split; [by intros [= ->]|by intros [_ ->]]. }
  assert (Hfst : l.*1 ≡ₚ pods).
  { apply NoDup_Permutation; [rewrite Hl; apply NoDup_fst_map_to_list|done|]. intros p. rewrite list_elem_of_fmap. split.
    - by intros ([q v] & -> & [? _]%Hin).
    - intros Hp. exists (p, total scorers ctx pods p). split; [done|]. by apply Hin. }
  assert (Hlen : length l = length pods) by (rewrite <- Hfst; symmetry; apply length_fmap).
  set (k := Z.to_nat (if (if Z.of_nat (length l) <? n then Z.of_nat (length l) else n) <? 0 then 0
    else (if Z.of_nat (length l) <? n then Z.of_nat (length l) else n))).
  assert (Hk : k = (Z.to_nat n `min` length pods)%nat) by (unfold k; rewrite Hlen; destruct (Z.ltb_spec (Z.of_nat (length pods)) n);
    rewrite (proj2 (Z.ltb_ge _ 0)) by lia; lia). clearbody k.
  assert (Hs : StronglySorted (fun a b => b.2 <= a.2) l) by apply sort_sorted. clearbody l.
  rewrite fmap_take. pose proof Hs as Hs'. rewrite <- (take_drop k l) in Hs'. apply StronglySorted_app_inv in Hs' as (Hs1 & _ & Hs2).
  rewrite <- fmap_take. split.
  - rewrite fmap_take. eapply sublist_NoDup; [|apply sublist_take]. by rewrite Hfst.
  - rewrite length_fmap, length_take. lia.
  - intros p Hp. rewrite <- Hfst. rewrite fmap_take in Hp. eapply elem_of_take in Hp as (i & Hp & _). by eapply list_elem_of_lookup_2.
  - assert (Hsub : forall x, x ∈ take k l -> x ∈ l) by (intros x (i & Hi & _)%elem_of_take; by eapply list_elem_of_lookup_2).
    revert Hs1 Hsub. generalize (take k l). intros t. induction t as [|x t IH]; intros Ht Hsub; [constructor|].
    apply StronglySorted_inv in Ht as [Ht Hx]. simpl. constructor; [apply IH; [done|]; intros; apply Hsub; by right|].
    apply Forall_forall. intros q Hq. apply list_elem_of_fmap in Hq as (y & -> & Hy).
    rewrite Forall_forall in Hx. specialize (Hx y Hy).
    destruct (proj1 (Hin x) (Hsub x ltac:(left))) as [_ Ex]. destruct (proj1 (Hin y) (Hsub y ltac:(by right))) as [_ Ey]. lia.
  - intros p q Hp Hq Hqn. apply list_elem_of_fmap in Hp as (x & -> & Hx).
    assert (Hql : (q, total scorers ctx pods q) ∈ l) by (by apply Hin). rewrite <- (take_drop k l) in Hql.
    assert (Hxl : x ∈ l) by (apply elem_of_take in Hx as (i & Hi & _); by eapply list_elem_of_lookup_2).
    apply elem_of_app in Hql as [Hql|Hql]; [destruct Hqn; apply list_elem_of_fmap; by exists (q, total scorers ctx pods q)|].
    specialize (Hs2 _ _ Hx Hql). simpl in Hs2. apply Hin in Hxl as [_ Hxl]. lia.
Qed.

(** *** Pairs *)

Hypothesis filters_laws : forall f, f ∈ filters -> FilterLaws f.
Hypothesis scorers_laws : forall f, f ∈ scorers -> ScoreLaws f.
Hypothesis prefills_nodup : forall n p l, getPrefillPods n p = Some l -> NoDup l.

Section pairs.
Context (ctx0 : Context).
Abbreviation prefillsOf d := (getPrefillPods (ModelServerName ctx0) d).

(** [p] scores best among the prefill instances of [d] that the filters keep. *)
Definition chosen (d p : podName) : Prop := exists ctx prefills kept, alike ctx ctx0 /\ prefillsOf d = Some prefills /\
  RunFilterPlugins filters ctx prefills = inl kept /\ ranked (total scorers ctx kept) kept 1 [p].
Definition unpairable (d : podName) : Prop := Name d = "" \/ prefillsOf d = None \/ prefillsOf d = Some [] \/
  exists ctx prefills name, alike ctx ctx0 /\ prefillsOf d = Some prefills /\ RunFilterPlugins filters ctx prefills = inr name.

Lemma RunScore_alike ctx l : alike ctx ctx0 -> alike (RunScorePlugins scorers ctx l).1 ctx0.
Proof. intros Hc. destruct (RunScorePlugins_context scorers l scorers_laws ctx) as [H _]. by etrans. Qed.

Lemma bestPrefill_spec ctx d : alike ctx ctx0 ->
  alike (bestPrefill ctx d).1 ctx0 /\ match (bestPrefill ctx d).2 with Some p => chosen d p | None => unpairable d end.
Proof.
  intros Hc. assert (Hn : ModelServerName ctx = ModelServerName ctx0) by apply Hc. unfold bestPrefill. rewrite Hn.
  case_bool_decide as Hd; [split; [done|by left]|].
  destruct (prefillsOf d) as [[|q sel]|] eqn:E; simpl; [split; [done|by right; right; left]| |split; [done|by right; left]].
  destruct (RunFilterPlugins filters ctx (q :: sel)) as [kept|name] eqn:Ef; simpl.
  2: { split; [done|]. right. right. right. by exists ctx, (q :: sel), name. }
  pose proof (RunScore_alike ctx kept Hc) as Ha.
  assert (Hk : NoDup kept) by (eapply sublist_NoDup; [by eapply prefills_nodup|]; by eapply RunFilterPlugins_sublist).
  pose proof (TopN_ranked ctx kept 1 ltac:(lia) Hk) as Hr.
  destruct (RunScorePlugins scorers ctx kept) as [ctx' scores]. cbn [fst snd] in *. split; [done|].
  pose proof (rk_length _ _ _ _ Hr) as Hlen.
  assert (Hk0 : kept <> []) by (intros ->; by apply RunFilterPlugins_empty in Ef).
  assert (Hk1 : (1 <= length kept)%nat) by (destruct kept; [done|simpl; lia]). clear Hk0.
  destruct (TopNPodInfos scores 1) as [|p [|]]; cbn [length head] in *; [lia|by exists ctx, (q :: sel), kept|lia].
Qed.

Lemma pairLoop_spec ds : forall ctx decode prefill, alike ctx ctx0 ->
  let '(ctx', D, P) := pairLoop ds ctx decode prefill in
  alike ctx' ctx0 /\ exists D' P', D = decode ++ D' /\ P = prefill ++ P' /\ D' `sublist_of` ds /\ Forall2 chosen D' P' /\
    forall d, d ∈ ds -> d ∉ D' -> unpairable d.
Proof.
  induction ds as [|d ds IH]; intros ctx decode prefill Hc; simpl.
  - split; [done|]. exists [], []. rewrite !app_nil_r. split_and!; [done..|constructor|]. by intros d ?%elem_of_nil.
  - destruct (bestPrefill_spec ctx d Hc) as [Ha Hb]. destruct (bestPrefill ctx d) as [ctx' [p|]]; simpl in *.
    + specialize (IH ctx' (decode ++ [d]) (prefill ++ [p]) Ha). destruct (pairLoop ds ctx' _ _) as [[ctx'' D] P].
      destruct IH as (I1 & D' & P' & -> & -> & I4 & I5 & I6). split; [done|]. exists (d :: D'), (p :: P'). rewrite <- !app_assoc.
      split_and!; [done..|by apply sublist_skip|by constructor|]. intros d' [->|Hd]%elem_of_cons Hn; [destruct Hn; left|].
      apply I6; [done|]. intros ?. apply Hn. by right.
    + specialize (IH ctx' decode prefill Ha). destruct (pairLoop ds ctx' decode prefill) as [[ctx'' D] P].
      destruct IH as (I1 & D' & P' & -> & -> & I4 & I5 & I6). split; [done|]. exists D', P'.
      split_and!; [done..|by apply sublist_cons|done|]. intros d' [->|Hd]%elem_of_cons Hn; [done|by apply I6].
Qed.
End pairs.

Definition eligible (ctx : Context) (l : list podName) : Prop :=
  exists all, getDecodePods (ModelServerName ctx) = Some all /\ RunFilterPlugins filters ctx all = inl l.

Definition pinned (ctx : Context) (decode prefill : list podName) : Prop :=
  StickyPodName ctx <> "" /\ StickyPrefillPodName ctx <> "" /\
  exists l d prefills kept p, eligible ctx l /\ d ∈ l /\ Name d = StickyPodName ctx /\
    getPrefillPods (ModelServerName ctx) d = Some prefills /\ RunFilterPlugins filters ctx prefills = inl kept /\
    p ∈ kept /\ Name p = StickyPrefillPodName ctx /\ decode = [d] /\ prefill = [p].

Definition paired (ctx : Context) (decode prefill : list podName) : Prop :=
  exists l ctx' top, eligible ctx l /\ (StickyPodName ctx <> "" -> StickyPrefillPodName ctx <> "" -> stickyPair ctx l = None) /\
    alike ctx' ctx /\ ranked (total scorers ctx' l) l 5 top /\ decode `sublist_of` top /\ Forall2 (chosen ctx) decode prefill /\
    forall d, d ∈ top -> d ∉ decode -> unpairable ctx d.

Hypothesis decodes_nodup : forall n l, getDecodePods n = Some l -> NoDup l.

Lemma stickyPair_spec ctx l d p : eligible ctx l -> stickyPair ctx l = Some (d, p) -> StickyPodName ctx <> "" -> StickyPrefillPodName ctx <> "" ->
  pinned ctx [d] [p].
Proof.
  intros Hl Hs H1 H2. unfold stickyPair in Hs. destruct (list_find _ l) as [[i d']|] eqn:E1; [|done]. simpl in Hs.
  destruct (getPrefillPods (ModelServerName ctx) d') as [prefills|] eqn:E2; [|done]. simpl in Hs.
  destruct (RunFilterPlugins filters ctx prefills) as [kept|] eqn:E3; [|done].
  destruct (list_find _ kept) as [[j p']|] eqn:E4; [|done]. simpl in Hs. injection Hs as -> ->.
  apply list_find_Some in E1 as (I1 & I2 & _). apply list_find_Some in E4 as (J1 & J2 & _).
  split_and!; [done..|]. exists l, d, prefills, kept, p.
  split_and!; [done|by eapply list_elem_of_lookup_2|done|done|done|by eapply list_elem_of_lookup_2|done|done|done].
Qed.

Lemma schedulePD_spec ctx : let '(ctx', err) := schedulePD ctx in
  match err with
  | Some DecodePodsUnavailable => getDecodePods (ModelServerName ctx) = None
  | Some NoDecodePod => getDecodePods (ModelServerName ctx) = Some []
  | Some (FilteredOut name) => exists all, getDecodePods (ModelServerName ctx) = Some all /\ RunFilterPlugins filters ctx all = inr name
  | Some NoPair => paired ctx [] []
  | None => DecodePods ctx' <> [] /\ (pinned ctx (DecodePods ctx') (PrefillPods ctx') \/ paired ctx (DecodePods ctx') (PrefillPods ctx'))
  end.
Proof.
  unfold schedulePD. destruct (getDecodePods (ModelServerName ctx)) as [[|d0 all]|] eqn:E; [done| |done].
  destruct (RunFilterPlugins filters ctx (d0 :: all)) as [l|name] eqn:Ef; [|by exists (d0 :: all)].
  assert (Hel : eligible ctx l) by (by exists (d0 :: all)).
  set (sticky := negb _ && negb _).
  assert (Hsticky : sticky = true <-> StickyPodName ctx <> "" /\ StickyPrefillPodName ctx <> "")
    by (unfold sticky; rewrite andb_true_iff, !negb_true_iff, !bool_decide_eq_false; done).
  destruct (if sticky then stickyPair ctx l else None) as [[d p]|] eqn:Es.
  { destruct sticky; [|done]. destruct (proj1 Hsticky eq_refl) as [H1 H2]. split; [done|]. left. by apply (stickyPair_spec ctx l). }
  set (ctx1 := if sticky then set_sticky "" "" ctx else ctx).
  assert (Ha : alike ctx1 ctx) by (unfold ctx1; by destruct sticky).
  assert (Hl : NoDup l) by (eapply sublist_NoDup; [by eapply decodes_nodup|]; by eapply RunFilterPlugins_sublist).
  pose proof (TopN_ranked ctx1 l topN ltac:(done) Hl) as Hr. pose proof (RunScore_alike ctx ctx1 l Ha) as Ha'.
  destruct (RunScorePlugins scorers ctx1 l) as [ctx2 scores]. cbn [fst snd] in *.
  pose proof (pairLoop_spec ctx (TopNPodInfos scores topN) ctx2 [] [] Ha') as Hp.
  destruct (pairLoop _ ctx2 [] []) as [[ctx3 D] P]. destruct Hp as (_ & D' & P' & -> & -> & P4 & P5 & P6).
  assert (Hres : paired ctx D' P').
  { exists l, ctx1, (TopNPodInfos scores topN). split_and!; try done. intros H1 H2. by rewrite (proj2 Hsticky (conj H1 H2)) in Es. }
  cbn [app]. destruct (Nat.eqb_spec (length D') 0) as [H0|H0].
  - destruct D'; [|done]. by inversion P5; subst.
  - split; [by destruct D'|by right].
Qed.

(** What an aggregated request is given. *)
Definition aggregated_ok (ctx : Context) (l best : list podName) : Prop :=
  (StickyPodName ctx <> "" /\ exists p, p ∈ l /\ Name p = StickyPodName ctx /\ best = [p]) \/
  ((StickyPodName ctx = "" \/ forall p, p ∈ l -> Name p <> StickyPodName ctx) /\
   exists ctx', alike ctx' ctx /\ ranked (total scorers ctx' l) l 5 best).

Lemma schedule_aggregated ctx pods : PDMode ctx = false -> NoDup pods -> let '(ctx', err) := Schedule ctx pods in
  match RunFilterPlugins filters ctx pods with
  | inr name => err = Some (FilteredOut name) /\ ctx' = ctx
  | inl l => err = None /\ aggregated_ok ctx l (BestPods ctx')
  end.
Proof.
  intros Hm Hd. unfold Schedule. rewrite Hm. destruct (RunFilterPlugins filters ctx pods) as [l|name] eqn:Ef; [|done].
  assert (Hl : NoDup l) by (eapply sublist_NoDup; [exact Hd|]; by eapply RunFilterPlugins_sublist).
  assert (Hagg : forall ctx1, alike ctx1 ctx -> (StickyPodName ctx = "" \/ forall p, p ∈ l -> Name p <> StickyPodName ctx) ->
    let '(ctx', err) := (let '(c, scores) := RunScorePlugins scorers ctx1 l in (set_best (TopNPodInfos scores topN) c, None (A := ScheduleError))) in
    err = None /\ aggregated_ok ctx l (BestPods ctx')).
  { intros ctx1 Ha Hs. pose proof (TopN_ranked ctx1 l topN ltac:(done) Hl) as Hr.
    destruct (RunScorePlugins scorers ctx1 l) as [c scores]. split; [done|]. right. split; [done|]. by exists ctx1. }
  case_bool_decide as Hs; [apply Hagg; [done|by left]|].
  destruct (list_find _ l) as [[i p]|] eqn:E.
  - apply list_find_Some in E as (E1 & E2 & _). split; [done|]. left. split; [done|]. exists p. split_and!; [by eapply list_elem_of_lookup_2|done|done].
  - apply list_find_None in E. apply Hagg; [done|]. right. by apply Forall_forall.
Qed.
End scheduler.

(** ** Scheduling over the store *)

Section composition.
Context (range : gset NamespacedName -> list NamespacedName) (iterate : gmap string PDGroupPods -> list (string * PDGroupPods))
  (visitScores : gmap podName Z -> list (podName * Z)) (sortSlice : list (podName * Z) -> list (podName * Z))
  (filters : list FilterPlugin) (scorers : list ScorePlugin).
Hypothesis range_perm : forall X, range X ≡ₚ elements X.
Hypothesis iterate_perm : forall g, iterate g ≡ₚ map_to_list g.
Hypothesis visit_perm : forall m, visitScores m ≡ₚ map_to_list m.
Hypothesis sort_perm : forall l, sortSlice l ≡ₚ l.
Hypothesis sort_sorted : forall l, StronglySorted (fun a b => b.2 <= a.2) (sortSlice l).
Hypothesis filters_laws : forall f, f ∈ filters -> FilterLaws f.
Hypothesis scorers_laws : forall f, f ∈ scorers -> ScoreLaws f.

Abbreviation decodes s := (fun n => GetDecodePods iterate range n s).
Abbreviation prefills s := (fun n p => GetPrefillPodsForDecodeGroup range n p s).

Definition ScheduleOn (s : podStore modelServer) (ctx : Context) (pods : list podName) : Context * option ScheduleError :=
  Schedule visitScores sortSlice filters scorers (decodes s) (prefills s) ctx pods.

(** Both instances are in the store, and the model server has them as the
    decode and the prefill side of one group. *)
Definition sameGroup (a : podStore aserver) (srv : aserver) (d p : podName) : Prop :=
  is_Some (podInfos a !! d) /\ is_Some (podInfos a !! p) /\
  exists g, a_class srv !! d = Some (Decode, g) /\ a_class srv !! p = Some (Prefill, g).

Lemma prefill_same_group s srv n d l p : PodStore.store_ok s -> servers (absStore s) !! n = Some srv ->
  prefills s n d = Some l -> p ∈ l -> sameGroup (absStore s) srv d p.
Proof.
  intros Hs Hsrv Hl Hp. pose proof (GetPrefillPodsForDecodeGroup_spec range range_perm n d s Hs) as Hq. cbn beta in Hl.
  assert (Hd : is_Some (podInfos s !! d)).
  { unfold GetPrefillPodsForDecodeGroup in Hl. destruct (servers s !! n); [|done]. simpl in Hl. by destruct (podInfos s !! d). }
  rewrite Hl in Hq. destruct Hq as (srv' & E & _ & Hm). assert (srv' = srv) as -> by congruence.
  apply Hm in Hp as (_ & Hp & Hg). done.
Qed.

Lemma pairs_same_group s srv ctx D P : PodStore.store_ok s -> servers (absStore s) !! ModelServerName ctx = Some srv ->
  pinned filters (decodes s) (prefills s) ctx D P \/ paired filters scorers (decodes s) (prefills s) ctx D P ->
  Forall2 (sameGroup (absStore s) srv) D P /\ (length D <= 5)%nat /\ NoDup D.
Proof.
  intros Hs Hsrv [Hp|Hp].
  - destruct Hp as (_ & _ & l & d & sel & kept & p & _ & _ & _ & Hsel & Hk & Hpk & _ & -> & ->).
    split_and!; [|simpl; lia|apply NoDup_singleton]. constructor; [|constructor].
    eapply prefill_same_group; [done|done|exact Hsel|]. eapply elem_of_sublist; [exact Hpk|]. by eapply RunFilterPlugins_sublist.
  - destruct Hp as (l & ctx' & top & _ & _ & _ & Hr & Hsub & Hc & _). split_and!.
    + eapply Forall2_impl; [exact Hc|]. intros d p (c & sel & kept & _ & Hsel & Hk & Hp).
      eapply prefill_same_group; [done|done|exact Hsel|]. eapply elem_of_sublist; [|by eapply RunFilterPlugins_sublist].
      apply (rk_from _ _ _ _ Hp). by left.
    + etrans; [by apply sublist_length|]. rewrite (rk_length _ _ _ _ Hr). lia.
    + eapply sublist_NoDup; [apply (rk_nodup _ _ _ _ Hr)|done].
Qed.

(** Whatever happened to model servers and pods before, a scheduling decision
    is sound. With prefill/decode separation it is up to five pairs of distinct decode
    instances, each pair in the store and in one group of the model server,
    whose index is that of a single map from pods to role and group: the pinned pair, if it
    is still eligible, or the best-scored decode instances that pass the
    filters, in order, each with the best-scored prefill instance of its group
    that passes them, where only those are left out that have none; and every
    error has its stated cause. Otherwise it is the sticky pod if it passes
    the filters, and the five best of those that do if not. The score is the
    weighted sum over the plugins. *)
Theorem scheduling_sound ops ctx pods : NoDup pods ->
  let s := podRun (M := modelServer) range ops in
  let a := podRun (M := aserver) range ops in
  let n := ModelServerName ctx in
  let '(ctx', err) := ScheduleOn s ctx pods in
  absStore s = a /\
  if PDMode ctx then
    match err with
    | Some DecodePodsUnavailable => servers a !! n = None
    | Some NoDecodePod => exists srv, servers a !! n = Some srv /\ forall p g, a_class srv !! p = Some (Decode, g) -> podInfos a !! p = None
    | Some (FilteredOut name) => exists all, decodes s n = Some all /\ RunFilterPlugins filters ctx all = inr name
    | Some NoPair => paired filters scorers (decodes s) (prefills s) ctx [] []
    | None => exists srv, servers a !! n = Some srv /\
        DecodePods ctx' <> [] /\ (length (DecodePods ctx') <= 5)%nat /\ NoDup (DecodePods ctx') /\
        Forall2 (sameGroup a srv) (DecodePods ctx') (PrefillPods ctx') /\
        (pinned filters (decodes s) (prefills s) ctx (DecodePods ctx') (PrefillPods ctx') \/
         paired filters scorers (decodes s) (prefills s) ctx (DecodePods ctx') (PrefillPods ctx'))
    end
  else
    match RunFilterPlugins filters ctx pods with
    | inr name => err = Some (FilteredOut name) /\ ctx' = ctx
    | inl l => err = None /\ aggregated_ok scorers ctx l (BestPods ctx')
    end.
Proof.
  intros Hd s a n. destruct (podRun_sim range range_perm ops) as [Hs Ha]. fold s a in Hs, Ha. unfold ScheduleOn.
  pose proof (GetDecodePods_spec range iterate range_perm iterate_perm n s Hs) as Hq.
  assert (Hpn : forall n p l, prefills s n p = Some l -> NoDup l).
  { intros n' p l Hl. pose proof (GetPrefillPodsForDecodeGroup_spec range range_perm n' p s Hs) as H. cbn beta in Hl. rewrite Hl in H. naive_solver. }
  assert (Hdn : forall n l, decodes s n = Some l -> NoDup l).
  { intros n' l Hl. pose proof (GetDecodePods_spec range iterate range_perm iterate_perm n' s Hs) as H. cbn beta in Hl. rewrite Hl in H. naive_solver. }
  destruct (PDMode ctx) eqn:Hm.
  - pose proof (schedulePD_spec visitScores sortSlice filters scorers (decodes s) (prefills s) visit_perm sort_perm sort_sorted
      filters_laws scorers_laws Hpn Hdn ctx) as Hp.
    unfold Schedule. rewrite Hm. destruct (schedulePD _ _ _ _ _ _ ctx) as [ctx' err]. split; [done|]. fold n in Hp. rewrite <- Ha.
    destruct err as [[| |name|]|]; try done.
    + by rewrite Hp in Hq.
    + rewrite Hp in Hq. destruct Hq as (srv & E & _ & H). exists srv. split; [done|]. intros p g Hg. apply eq_None_not_Some. intros Hi.
      apply (not_elem_of_nil p). apply H. split; [by exists g|done].
    + destruct Hp as [Hne Hp]. assert (Hsrv : exists srv, servers (absStore s) !! n = Some srv).
      { assert (exists l, decodes s n = Some l) as [l Hl].
        { destruct Hp as [(_ & _ & l & d & _ & _ & _ & (all & ? & _) & _)|(l & _ & _ & (all & ? & _) & _)]; by exists all. }
        cbn beta in Hl. rewrite Hl in Hq. destruct Hq as (srv & ? & _). by exists srv. }
      destruct Hsrv as [srv Hsrv]. exists srv. destruct (pairs_same_group s srv ctx _ _ Hs Hsrv Hp) as (P1 & P2 & P3). split_and!; done.
  - pose proof (schedule_aggregated visitScores sortSlice filters scorers (decodes s) (prefills s) visit_perm sort_perm sort_sorted
      filters_laws ctx pods Hm Hd) as Hp.
    destruct (Schedule _ _ _ _ _ _ ctx pods) as [ctx' err]. by split.
Qed.
End composition.

(** *** A model server with two groups

    The first pod of each group decodes; the decode instance of group [a] has
    three requests in flight. *)
Definition lower (a b : podName * Z) : Prop := b.2 <= a.2.
#[global] Instance lower_dec : RelDecision lower.
Proof. intros a b. unfold lower. apply _. Defined.
#[global] Instance lower_total : Total lower.
Proof. intros a b. unfold lower. lia. Qed.
#[global] Instance lower_trans : Transitive lower.
Proof. intros a b c. unfold lower. lia. Qed.

Definition ex_server : ModelServer :=
  MkServer (MkName "default" "llm") "vLLM"
    (Some (MkSelector None (Some (MkPDGroup "group" (Some {["role" := "prefill"]}) (Some {["role" := "decode"]}))))).
Definition ex_pod (name : string) : podName := MkName "default" name.
Definition ex_labels (group role : string) : labels := {["group" := group; "role" := role]}.
Definition ex_history : list PodOp :=
  [OAddOrUpdateModelServer ex_server (Some ∅);
   OAddOrUpdatePod (ex_pod "a-decode") (ex_labels "a" "decode") [ex_server];
   OAddOrUpdatePod (ex_pod "a-prefill") (ex_labels "a" "prefill") [ex_server];
   OAddOrUpdatePod (ex_pod "b-decode") (ex_labels "b" "prefill") [ex_server];
   OAddOrUpdatePod (ex_pod "b-prefill") (ex_labels "b" "prefill") [ex_server];
   OAddOrUpdatePod (ex_pod "b-decode") (ex_labels "b" "decode") [ex_server]].
Definition ex_context : Context := MkContext "llm" (MkName "default" "llm") true [] [] [] [] "" "".
Definition ex_filters : list FilterPlugin := [LeastRequestFilter (fun _ => f_zero) 10; LoraAffinityFilter (fun _ _ => true)].
Definition ex_scorers : list ScorePlugin :=
  [MkScorer (LeastRequestScore (fun p => if bool_decide (Name p = "a-decode") then 3 else 0) (fun _ => f_zero) (fun _ => 0)) 1].

Lemma scheduling_sound_witness :
  let '(ctx', err) := ScheduleOn elements map_to_list map_to_list (merge_sort lower) ex_filters ex_scorers (podRun elements ex_history) ex_context [] in
  err = None /\ DecodePods ctx' = [ex_pod "b-decode"; ex_pod "a-decode"] /\ PrefillPods ctx' = [ex_pod "b-prefill"; ex_pod "a-prefill"] /\
  exists srv, servers (podRun (M := aserver) elements ex_history) !! MkName "default" "llm" = Some srv /\
    Forall2 (sameGroup (podRun elements ex_history) srv) (DecodePods ctx') (PrefillPods ctx').
Proof.
  assert (E : ScheduleOn elements map_to_list map_to_list (merge_sort lower) ex_filters ex_scorers (podRun elements ex_history) ex_context [] =
    (set_pairs [ex_pod "b-decode"; ex_pod "a-decode"] [ex_pod "b-prefill"; ex_pod "a-prefill"] ex_context, None)) by by vm_compute.
  assert (HF : forall f, f ∈ ex_filters -> FilterLaws f).
  { apply Forall_forall. unfold ex_filters. constructor; [apply LeastRequestFilter_laws|]. constructor; [apply LoraAffinityFilter_laws|constructor]. }
  assert (HS : forall f, f ∈ ex_scorers -> ScoreLaws f).
  { apply Forall_forall. unfold ex_scorers. constructor; [apply LeastRequestScore_laws|constructor]. }
  pose proof (scheduling_sound elements map_to_list map_to_list (merge_sort lower) ex_filters ex_scorers (fun X => reflexivity _) (fun g => reflexivity _)
    (fun m => reflexivity _) (merge_sort_Permutation lower) (StronglySorted_merge_sort lower) HF HS ex_history ex_context [] (NoDup_nil_2)) as H.
  cbv zeta in H. rewrite E in H. rewrite E. destruct H as (_ & srv & H1 & _ & _ & _ & H2 & _). 
  exact (conj eq_refl (conj eq_refl (conj eq_refl (ex_intro _ srv (conj H1 H2))))).
Defined.

(** An explicit replacement of the pods of a model server clears them, but while its
    selector stays the same the index keeps the former ones: they are scheduled
    although the server has no pods. *)
Lemma replaced_pods_stay_indexed :
  let s := podRun (M := modelServer) elements (ex_history ++ [OAddOrUpdateModelServer ex_server (Some ∅)]) in
  GetPodsByModelServer elements (MkName "default" "llm") s = Some [] /\
  GetDecodePods map_to_list elements (MkName "default" "llm") s = Some [ex_pod "a-decode"; ex_pod "b-decode"].
Proof. split; by vm_compute. Qed.
