(* ===== verification/ServingPods.v ===== *)
(** * pkg/model-serving-controller/utils/utils.go: pods of a model serving

    The fields of a pod that the controller, the in-place updates and the
    eviction handler read, and the predicates on them. *)
From S2P Require Import Prelude.
Local Open Scope Z_scope.

Abbreviation labels := (gmap string string).

(** A label that is not set reads as the empty string. *)
Definition label (m : labels) (key : string) : string := default ""%string (m !! key).

Definition ModelServingNameLabelKey : string := "modelserving.volcano.sh/name".
Definition GroupNameLabelKey : string := "modelserving.volcano.sh/group-name".
Definition RoleLabelKey : string := "modelserving.volcano.sh/role".
Definition RoleIDKey : string := "modelserving.volcano.sh/role-id".
Definition EntryLabelKey : string := "modelserving.volcano.sh/entry".
Definition RevisionLabelKey : string := "modelserving.volcano.sh/revision".
Definition RoleTemplateHashLabelKey : string := "modelserving.volcano.sh/role-template-hash".
Definition Entry : string := "true".

(** [Controller] is false when the pointer is nil. *)
Record OwnerReference := MkOwner { APIVersion : string; Kind : string; OwnerName : string; OwnerUID : string; Controller : bool }.

Definition GroupVersion : string := "workload.serving.volcano.sh/v1alpha1".

Record ObjectMeta := MkMeta {
  Namespace : string;
  PodName : string;
  UID : string;
  Labels : labels;
  OwnerReferences : list OwnerReference;
  DeletionTimestamp : option Z;
}.

(** A container of the specification, with the per-container restart policy
    and the number of its restart rules. *)
Record Container := MkContainer {
  ContainerName : string;
  ContainerImage : string;
  ContainerRestartPolicy : option string;
  RestartPolicyRules : nat;
}.

Record ContainerStatus := MkStatus {
  StatusName : string;
  RestartCount : Z;
  ContainerID : string;
  StatusImage : string;
  ImageID : string;
}.

Inductive PodPhase := PodPending | PodRunning | PodSucceeded | PodFailed | PodUnknown.

#[export] Instance PodPhase_eq_dec : EqDecision PodPhase.
Proof. solve_decision. Defined.

Record PodStatus := MkPodStatus {
  Phase : PodPhase;
  Conditions : list (string * string);
  InitContainerStatuses : list ContainerStatus;
  ContainerStatuses : list ContainerStatus;
}.

(** ** Predicates *)

(** The first condition of type Ready. *)
Definition getPodReadyCondition (status : PodStatus) : option (string * string) :=
  snd <$> list_find (fun c => c.1 = "Ready"%string) (Conditions status).

Definition isPodReadyConditionTrue (status : PodStatus) : bool :=
  match getPodReadyCondition status with Some c => bool_decide (c.2 = "True"%string) | None => false end.

Definition IsRunningAndReady (status : PodStatus) : bool :=
  bool_decide (Phase status = PodRunning) && isPodReadyConditionTrue status.

Definition IsTerminating (meta : ObjectMeta) : bool := bool_decide (is_Some (DeletionTimestamp meta)).
Definition IsPodFailed (status : PodStatus) : bool := bool_decide (Phase status = PodFailed).

Definition ObjectRevision (meta : ObjectMeta) : string := label (Labels meta) RevisionLabelKey.
Definition ObjectRoleTemplateHash (meta : ObjectMeta) : string := label (Labels meta) RoleTemplateHashLabelKey.
Definition GetRoleName (meta : ObjectMeta) : string := label (Labels meta) RoleLabelKey.
Definition GetRoleID (meta : ObjectMeta) : string := label (Labels meta) RoleIDKey.

Definition IsOwnedByModelServingWithUID (meta : ObjectMeta) (uid : string) : bool :=
  existsb (fun o => bool_decide (APIVersion o = GroupVersion) && bool_decide (Kind o = "ModelServing"%string) &&
                    bool_decide (OwnerUID o = uid)) (OwnerReferences meta).

(** [metav1.GetControllerOf]: the first owner that is the controller. *)
Definition GetControllerOf (meta : ObjectMeta) : option OwnerReference :=
  snd <$> list_find (fun o => Controller o = true) (OwnerReferences meta).

(** The whole identity of the controlling model serving. *)
Definition controlledByModelServing (meta : ObjectMeta) (namespace name uid : string) : bool :=
  bool_decide (Namespace meta = namespace) &&
  match GetControllerOf meta with
  | Some owner => bool_decide (OwnerUID owner = uid) && bool_decide (OwnerName owner = name) &&
                  bool_decide (Kind owner = "ModelServing"%string) && bool_decide (APIVersion owner = GroupVersion)
  | None => false
  end.

(** [labels.SelectorFromSet]: every label of the set has its value. *)
Definition Matches (selector m : labels) : bool := bool_decide (map_Forall (fun k v => m !! k = Some v) selector).

(** What a GET at the API server answers. *)
Inductive getResult (A : Type) := Found (x : A) | Missing | Broken.
Arguments Found {A} x.
Arguments Missing {A}.
Arguments Broken {A}.

(** ** Lookups by name

    The sources search the containers and the statuses of a pod for the first
    entry of a name; [findName] is that loop. *)
Section named.
Context {A : Type} (nameOf : A -> string).

Definition findName (name : string) (l : list A) : option A := snd <$> list_find (fun x => nameOf x = name) l.

Lemma findName_Some name l x : findName name l = Some x -> x ∈ l /\ nameOf x = name.
Proof.
  unfold findName. intros H. apply fmap_Some in H as ([i y] & Hf & ->). apply list_find_Some in Hf as (Hi & Hn & _).
  split; [by eapply list_elem_of_lookup_2|done].
Qed.

Lemma findName_None name l : findName name l = None <-> name ∉ nameOf <$> l.
Proof.
  unfold findName. rewrite fmap_None, list_find_None, Forall_forall. split.
  - intros H Hin. apply list_elem_of_fmap in Hin as (x & -> & Hx). by apply (H x).
  - intros H x Hx Hn. apply H. rewrite <- Hn. by apply list_elem_of_fmap_2.
Qed.

Lemma findName_cons name x l : findName name (x :: l) = if decide (nameOf x = name) then Some x else findName name l.
Proof. unfold findName. simpl. destruct (decide _); [done|]. by destruct (list_find _ l) as [[]|]. Qed.

Lemma findName_app name l k : findName name (l ++ k) = match findName name l with Some x => Some x | None => findName name k end.
Proof. induction l as [|x l IH]; simpl; [done|]. rewrite !findName_cons. by destruct (decide _). Qed.

Lemma findName_elem x l : NoDup (nameOf <$> l) -> x ∈ l -> findName (nameOf x) l = Some x.
Proof.
  induction l as [|y l IH]; intros Hnd Hx; [by apply not_elem_of_nil in Hx|].
  rewrite findName_cons. inversion Hnd as [|? ? Hy Hnd']; subst. apply elem_of_cons in Hx as [->|Hx].
  - by rewrite decide_True.
  - rewrite decide_False; [by apply IH|]. intros E. apply Hy. rewrite E. by apply list_elem_of_fmap_2.
Qed.

Lemma findName_fmap (f : A -> A) name l : (forall x, nameOf (f x) = nameOf x) -> findName name (f <$> l) = f <$> findName name l.
Proof.
  intros Hf. induction l as [|x l IH]; [done|]. rewrite fmap_cons, !findName_cons, Hf.
  destruct (decide _); [done|apply IH].
Qed.
End named.
