(* ===== verification/DeletionTargets.v ===== *)
(** * pkg/model-serving-controller/controller/pod_deletion_targets.go

    The pods that an intentional deletion may touch: their names and UIDs are
    captured once, and retries only ever delete those incarnations. *)
From S2P Require Import Prelude ServingPods.
Local Open Scope Z_scope.

(** The model serving that deletes. *)
Record Owner := MkServing { servingNamespace : string; servingName : string; servingUID : string }.

#[export] Instance Owner_eq_dec : EqDecision Owner.
Proof. solve_decision. Defined.

(** [targets] is nil until the first call lists the pods; [owner] is written
    with it. *)
Record podDeletionTargets := MkTargets {
  targets : option (gmap string string);
  done : gset string;
  owner : Owner;
}.

Definition noTargets : podDeletionTargets := MkTargets None ∅ (MkServing "" "" "").

Definition podOwnedForDeletion (ms : Owner) (pod : ObjectMeta) : bool :=
  controlledByModelServing pod (servingNamespace ms) (servingName ms) (servingUID ms).

(** What the API server answers to one call of [Delete]: the list, and for each
    name its GET and its DELETE. Each name is asked for once, so any
    interleaving with other writers is an answer of this kind. *)
Inductive deleteResult := Deleted | Gone | Refused.

Record Answers := MkAnswers {
  listed : option (list ObjectMeta);
  getAnswer : string -> getResult ObjectMeta;
  deleteAnswer : string -> string -> deleteResult;
}.

(** A DELETE request: the name and the UID it is conditional on. *)
Abbreviation request := (string * string)%type.

Definition capture (ms : Owner) (l : list ObjectMeta) : gmap string string :=
  fold_left (fun m pod => if podOwnedForDeletion ms pod then <[PodName pod := UID pod]> m else m) l ∅.

(** The loop over the names: the names that are done, the requests sent, and
    whether an error was returned. *)
Fixpoint deleteLoop (ms : Owner) (answers : Answers) (uids : gmap string string) (names : list string)
    (finished : gset string) : gset string * list request * bool :=
  match names with
  | [] => (finished, [], true)
  | name :: names =>
    if bool_decide (name ∈ finished) then deleteLoop ms answers uids names finished
    else
      let uid := default ""%string (uids !! name) in
      match getAnswer answers name with
      | Missing => deleteLoop ms answers uids names ({[name]} ∪ finished)
      | Broken => (finished, [], false)
      | Found pod =>
        if negb (bool_decide (UID pod = uid)) || negb (podOwnedForDeletion ms pod)
        then deleteLoop ms answers uids names ({[name]} ∪ finished)
        else
          match deleteAnswer answers name uid with
          | Refused => (finished, [(name, uid)], false)
          | _ => let '(finished, sent, ok) := deleteLoop ms answers uids names ({[name]} ∪ finished) in (finished, (name, uid) :: sent, ok)
          end
      end
  end.

Definition Delete (ms : Owner) (answers : Answers) (d : podDeletionTargets) : podDeletionTargets * list request * bool :=
  let prepared :=
    match targets d with
    | None => pods ← listed answers; Some (MkTargets (Some (capture ms pods)) ∅ ms)
    | Some _ => if decide (owner d = ms) then Some d else None
    end in
  match prepared with
  | None => (d, [], false)
  | Some d =>
    let uids := default ∅ (targets d) in
    let names := sortStrings (map_to_list uids).*1 in
    let '(finished, sent, ok) := deleteLoop ms answers uids names (done d) in
    (MkTargets (targets d) finished (owner d), sent, ok)
  end.

(** The pods of the selector that are not among the targets; none when the list
    fails. *)
Definition replacements (d : podDeletionTargets) (l : option (list ObjectMeta)) : option (list string) :=
  pods ← l; Some (sortStrings (PodName <$> filter (fun pod => default ∅ (targets d) !! PodName pod <> Some (UID pod)) pods)).

(** ** Retries *)

(** The calls of one deletion, each with its own answers: the record at the end
    and the requests of every call. *)
Fixpoint retries (ms : Owner) (calls : list Answers) (d : podDeletionTargets) : podDeletionTargets * list (list request * bool) :=
  match calls with
  | [] => (d, [])
  | a :: calls =>
    let '(d, sent, ok) := Delete ms a d in
    let '(d, log) := retries ms calls d in (d, (sent, ok) :: log)
  end.

(** ** What a loop does *)

(** The request was accepted: the pod is deleted, or already gone. *)
Definition accepted (a : Answers) (r : request) : Prop := deleteAnswer a r.1 r.2 <> Refused.
#[export] Instance accepted_dec a r : Decision (accepted a r).
Proof. unfold accepted. destruct (deleteAnswer a r.1 r.2); [left|left|right]; naive_solver. Defined.

(** The incarnation needs nothing more: it is gone, another one has its name,
    or its deletion was accepted. *)
Definition settled (ms : Owner) (a : Answers) (name uid : string) (sent : list request) : Prop :=
  match getAnswer a name with
  | Missing => True
  | Broken => False
  | Found pod => UID pod <> uid \/ podOwnedForDeletion ms pod = false \/ ((name, uid) ∈ sent /\ accepted a (name, uid))
  end.

(** The API server does not fail. *)
Definition healthy (a : Answers) : Prop :=
  is_Some (listed a) /\ forall name uid, getAnswer a name <> Broken /\ deleteAnswer a name uid <> Refused.

Section loop.
Context (ms : Owner) (a : Answers) (uids : gmap string string).

Abbreviation uidOf name := (default ""%string (uids !! name)).

Definition aimed (r : request) : Prop :=
  r.2 = uidOf r.1 /\ exists pod, getAnswer a r.1 = Found pod /\ UID pod = r.2 /\ podOwnedForDeletion ms pod = true.

Lemma settled_cons name uid r sent : settled ms a name uid sent -> settled ms a name uid (r :: sent).
Proof. unfold settled. destruct (getAnswer a name); [|done|done]. intros [?|[?|[? ?]]]; [by left|by right; left|]. right; right. split; [by right|done]. Qed.

Lemma deleteLoop_spec names : NoDup names -> forall fin fin' sent ok, deleteLoop ms a uids names fin = (fin', sent, ok) ->
  fin ⊆ fin' /\
  (forall r, r ∈ sent -> r.1 ∈ names /\ r.1 ∉ fin /\ aimed r /\ (accepted a r -> r.1 ∈ fin')) /\
  (forall name, name ∈ fin' -> name ∉ fin -> name ∈ names /\ settled ms a name (uidOf name) sent) /\
  (ok = true -> forall name, name ∈ names -> name ∈ fin') /\
  NoDup sent /\ (healthy a -> ok = true).
Proof.
  induction 1 as [|name names Hn Hnd IH]; intros fin fin' sent ok; cbn [deleteLoop].
  { intros [= <- <- <-]. split; [done|]. split; [by intros r Hr%not_elem_of_nil|]. split; [done|]. split; [by intros _ n Hn%not_elem_of_nil|]. by split; [constructor|]. }
  case_bool_decide as Efin.
  { intros H. destruct (IH _ _ _ _ H) as (I1 & I2 & I3 & I4 & I5 & I6). split; [done|]. split; [|split; [|split; [|done]]].
    - intros r Hr. destruct (I2 r Hr) as (? & ? & ?). split; [by right|done].
    - intros n Hin Hout. destruct (I3 n Hin Hout). split; [by right|done].
    - intros Hok n [->|Hin]%elem_of_cons; [by apply I1|by apply I4]. }
  assert (Hskip : forall fin' sent ok, deleteLoop ms a uids names ({[name]} ∪ fin) = (fin', sent, ok) ->
    fin ⊆ fin' /\ name ∈ fin' /\
    (forall r, r ∈ sent -> r.1 ∈ names /\ r.1 ∉ fin /\ aimed r /\ (accepted a r -> r.1 ∈ fin')) /\
    (forall n, n ∈ fin' -> n ∉ fin -> n = name \/ (n ∈ names /\ settled ms a n (uidOf n) sent)) /\
    (ok = true -> forall n, n ∈ name :: names -> n ∈ fin') /\ NoDup sent /\ (healthy a -> ok = true)).
  { clear fin' sent ok. intros fin' sent ok H. destruct (IH _ _ _ _ H) as (I1 & I2 & I3 & I4 & I5 & I6).
    split; [set_solver|]. split; [set_solver|]. split; [|split; [|split; [|done]]].
    - intros r Hr. destruct (I2 r Hr) as (? & ? & ?). split; [done|]. split; [set_solver|done].
    - intros n Hin Hout. destruct (decide (n = name)); [by left|right]. apply I3; set_solver.
    - intros Hok n [->|Hin]%elem_of_cons; [set_solver|by apply I4]. }
  destruct (getAnswer a name) as [pod| |] eqn:Eget.
  - destruct (negb (bool_decide (UID pod = uidOf name)) || negb (podOwnedForDeletion ms pod)) eqn:Eother.
    + intros H. destruct (Hskip _ _ _ H) as (S1 & S2 & S3 & S4 & S5 & S6 & S7). split; [done|]. split; [|split; [|done]].
      * intros r Hr. destruct (S3 r Hr) as (? & ?). split; [by right|done].
      * intros n Hin Hout. destruct (S4 n Hin Hout) as [->|[? ?]]; [|split; [by right|done]]. split; [by left|].
        unfold settled. rewrite Eget. apply orb_true_iff in Eother as [E|E]; apply negb_true_iff in E; [left; by apply bool_decide_eq_false in E|by right; left].
    + apply orb_false_iff in Eother as [E1 E2]. apply negb_false_iff, bool_decide_eq_true in E1. apply negb_false_iff in E2.
      assert (Haim : aimed (name, uidOf name)) by (split; [done|by exists pod]).
      destruct (deleteAnswer a name (uidOf name)) eqn:Edel.
      3: { intros [= <- <- <-]. split; [done|]. split; [|split; [done|split; [done|split; [by apply NoDup_singleton|]]]].
           - intros r ->%list_elem_of_singleton. split; [by left|]. split; [done|]. split; [done|]. unfold accepted; cbn [fst snd]. by rewrite Edel.
           - intros [_ Hh]. by destruct (Hh name (uidOf name)). }
      all: destruct (deleteLoop ms a uids names ({[name]} ∪ fin)) as [[fin1 sent1] ok1] eqn:Erec; intros [= <- <- <-];
        destruct (Hskip _ _ _ eq_refl) as (S1 & S2 & S3 & S4 & S5 & S6 & S7); split; [done|]; split; [|split; [|split; [done|split; [|done]]]].
      1,4: intros r [->|Hr]%elem_of_cons; [split; [by left|]; done|destruct (S3 r Hr) as (? & ?); split; [by right|done]].
      1,3: intros n Hin Hout; destruct (S4 n Hin Hout) as [->|[? ?]]; [split; [by left|]|split; [by right|by apply settled_cons]];
        unfold settled; rewrite Eget; right; right; split; [by left|unfold accepted; cbn [fst snd]; by rewrite Edel].
      all: constructor; [|done]; intros Hin; destruct (S3 _ Hin) as (Hx & _); done.
  - intros H. destruct (Hskip _ _ _ H) as (S1 & S2 & S3 & S4 & S5 & S6 & S7). split; [done|]. split; [|split; [|done]].
    + intros r Hr. destruct (S3 r Hr) as (? & ?). split; [by right|done].
    + intros n Hin Hout. destruct (S4 n Hin Hout) as [->|[? ?]]; [|split; [by right|done]]. split; [by left|]. unfold settled. by rewrite Eget.
  - intros [= <- <- <-]. split; [done|]. split; [by intros r Hr%not_elem_of_nil|]. split; [done|]. split; [done|]. split; [by constructor|].
    intros [_ Hh]. by destruct (Hh name (uidOf name)).
Qed.
End loop.

Lemma capture_lookup ms l name uid : capture ms l !! name = Some uid ->
  exists pod, pod ∈ l /\ PodName pod = name /\ UID pod = uid /\ podOwnedForDeletion ms pod = true.
Proof.
  unfold capture.
  enough (H : forall m : gmap string string, fold_left (fun m pod => if podOwnedForDeletion ms pod then <[PodName pod := UID pod]> m else m) l m !! name = Some uid ->
    m !! name = Some uid \/ exists pod, pod ∈ l /\ PodName pod = name /\ UID pod = uid /\ podOwnedForDeletion ms pod = true).
  { intros Hc. by destruct (H ∅ Hc) as [He|He]; [rewrite lookup_empty in He|]. }
  induction l as [|p l IH]; intros m; cbn [fold_left]; [by left|]. intros H. destruct (IH _ H) as [Hm|(pod & ? & ? & ? & ?)].
  - destruct (podOwnedForDeletion ms p) eqn:Eo; [|by left]. apply lookup_insert_Some in Hm as [[E1 E2]|[_ Hm]]; [|by left].
    right. exists p. split; [by left|done].
  - right. exists pod. split; [by right|done].
Qed.

Lemma Delete_spec ms a d d' sent ok : done d ⊆ dom (default ∅ (targets d)) -> Delete ms a d = (d', sent, ok) ->
  let uids := default ∅ (targets d') in
  match targets d, listed a with
  | Some m, _ => owner d = ms /\ targets d' = Some m /\ owner d' = ms \/ owner d <> ms /\ d' = d /\ sent = [] /\ ok = false
  | None, Some l => targets d' = Some (capture ms l) /\ owner d' = ms
  | None, None => d' = d /\ sent = [] /\ ok = false
  end /\
  done d' ⊆ dom uids /\
  (targets d <> None -> done d ⊆ done d') /\
  (forall r, r ∈ sent -> uids !! r.1 = Some r.2 /\ (targets d <> None -> r.1 ∉ done d) /\ aimed ms a uids r /\ (accepted a r -> r.1 ∈ done d')) /\
  (forall name uid, name ∈ done d' -> uids !! name = Some uid -> (targets d <> None /\ name ∈ done d) \/ settled ms a name uid sent) /\
  (ok = true -> dom uids ⊆ done d') /\ NoDup sent /\ (healthy a -> (targets d <> None -> owner d = ms) -> ok = true).
Proof.
  intros Hdone. unfold Delete.
  set (p := match targets d with None => _ | Some _ => _ end). 
  assert (Hp : match p with
    | None => (targets d = None /\ listed a = None) \/ (exists m, targets d = Some m /\ owner d <> ms)
    | Some e => (targets d = None /\ exists l, listed a = Some l /\ e = MkTargets (Some (capture ms l)) ∅ ms) \/ (exists m, targets d = Some m /\ owner d = ms /\ e = d)
    end).
  { unfold p. destruct (targets d) as [m|]; [|destruct (listed a); simpl; [left; split; [done|by eexists]|by left]].
    destruct (decide (owner d = ms)); [right; by exists m|right; by exists m]. }
  clearbody p. destruct p as [e|].
  2: { intros [= <- <- <-].
       assert (Hh : healthy a -> (targets d <> None -> owner d = ms) -> false = true).
       { intros [Hl _] Ho. destruct Hp as [[E1 E2]|(m & E1 & E2)]; [rewrite E2 in Hl; by destruct Hl|]. by destruct E2; apply Ho; rewrite E1. }
       split; [destruct Hp as [[-> ->]|(m & -> & E2)]; [done|by right]|].
       split; [done|]. split; [done|]. split; [by intros r Hr%not_elem_of_nil|].
       split; [|split; [done|split; [constructor|done]]]. intros name uid Hin Hu. left. split; [|done]. intros E. by rewrite E in Hu. }
  assert (Hm : exists m, targets e = Some m /\ done e ⊆ dom m).
  { destruct Hp as [(_ & l & _ & ->)|(m & Em & _ & ->)]; [eexists; split; [done|]; simpl; set_solver|]. exists m. rewrite Em in Hdone. done. }
  destruct Hm as (m & Em & Hsub). rewrite Em. cbn [from_option id].
  destruct (deleteLoop ms a m (sortStrings (map_to_list m).*1) (done e)) as [[fin s] k] eqn:El. intros [= <- <- <-]. cbn [targets done owner from_option id].
  assert (Hnames : forall name, name ∈ sortStrings (map_to_list m).*1 <-> name ∈ dom m).
  { intros name. rewrite sortStrings_perm, list_elem_of_fmap, elem_of_dom. split.
    - intros ([k' u] & -> & Hx%elem_of_map_to_list). by eexists.
    - intros [u Hu]. exists (name, u). split; [done|]. by apply elem_of_map_to_list. }
  assert (Hnd : NoDup (sortStrings (map_to_list m).*1)) by (rewrite sortStrings_perm; apply NoDup_fst_map_to_list).
  destruct (deleteLoop_spec ms a m _ Hnd _ _ _ _ El) as (L1 & L2 & L3 & L4 & L5 & L6).
  assert (Hkeep : targets d <> None -> e = d) by (destruct Hp as [(-> & _)|(? & _ & _ & ->)]; done).
  split; [|split; [|split; [|split; [|split; [|split; [|split; [done|by intros; apply L6]]]]]]].
  - destruct Hp as [(-> & l & -> & ->)|(m' & E' & E'' & ->)]; cbn [targets owner] in Em |- *; [by injection Em as <-|]. rewrite E' in Em. injection Em as ->. rewrite E'. by left.
  - intros name Hin. destruct (decide (name ∈ done e)); [by apply Hsub|]. apply Hnames. by apply L3.
  - intros Ht. by rewrite <- (Hkeep Ht).
  - intros r Hr. destruct (L2 r Hr) as (R1 & R2 & R3 & R4). pose proof R3 as [Ru _]. apply Hnames, elem_of_dom in R1 as [u Hu].
    split; [rewrite Hu in Ru |- *; simpl in Ru; by rewrite Ru|]. split; [intros Ht; by rewrite <- (Hkeep Ht)|done].
  - intros name uid Hin Hu. destruct (decide (name ∈ done e)) as [Hd|Hd].
    + destruct Hp as [(_ & l & _ & ->)|(m' & E' & E'' & ->)]; [by apply elem_of_empty in Hd|]. left. by rewrite E'.
    + right. destruct (L3 name Hin Hd) as [_ Hs]. by rewrite Hu in Hs.
  - intros Hok name Hin. apply L4; [done|]. by apply Hnames.
Qed.

(** ** All retries of a deletion *)

Section deletion.
Context (ms : Owner) (calls : list Answers).

(** The record before call [i]. *)
Definition before (i : nat) : podDeletionTargets := (retries ms (take i calls) noTargets).1.
Definition log : list (list request * bool) := (retries ms calls noTargets).2.

Lemma retries_step l : forall d i a, l !! i = Some a -> exists sent ok,
  (retries ms l d).2 !! i = Some (sent, ok) /\
  Delete ms a (retries ms (take i l) d).1 = ((retries ms (take (S i) l) d).1, sent, ok).
Proof.
  induction l as [|b l IH]; intros d i a; [done|]. destruct i as [|i]; cbn [lookup list_lookup].
  - intros [= ->]. cbn [take retries]. destruct (Delete ms a d) as [[d' sent] ok] eqn:E. exists sent, ok.
    destruct (retries ms l d') as [d'' rest]. cbn. by rewrite take_0.
  - intros Ha. cbn [take retries]. destruct (Delete ms b d) as [[d' sent] ok] eqn:E.
    destruct (IH d' i a Ha) as (sent' & ok' & H1 & H2). exists sent', ok'.
    destruct (retries ms l d') as [? ?]. cbn [snd lookup list_lookup] in H1 |- *. split; [done|].
    destruct (retries ms (take i l) d') as [? ?]. cbn [fst] in H2 |- *. rewrite H2. cbn [take] in *. 
    by destruct (retries ms (take (S i) l) d').
Qed.

Lemma log_step i a : calls !! i = Some a -> exists sent ok, log !! i = Some (sent, ok) /\ Delete ms a (before i) = (before (S i), sent, ok).
Proof. apply retries_step. Qed.

(** The list that the targets come from: the first that did not fail. *)
Definition snapshot (i : nat) (pods : list ObjectMeta) : Prop :=
  exists a, calls !! i = Some a /\ listed a = Some pods /\ forall k b, (k < i)%nat -> calls !! k = Some b -> listed b = None.

Definition settledBy (i : nat) (name uid : string) : Prop :=
  exists k a sent ok, (k < i)%nat /\ calls !! k = Some a /\ log !! k = Some (sent, ok) /\ settled ms a name uid sent.

(** What holds of the record before every call. *)
Definition recordOk (i : nat) (d : podDeletionTargets) : Prop :=
  match targets d with
  | None => done d = ∅ /\ forall k b, (k < i)%nat -> calls !! k = Some b -> listed b = None
  | Some m => owner d = ms /\ done d ⊆ dom m /\ (exists j pods, (j < i)%nat /\ snapshot j pods /\ m = capture ms pods) /\
              forall name uid, name ∈ done d -> m !! name = Some uid -> settledBy i name uid
  end.

Lemma recordOk_done i d : recordOk i d -> done d ⊆ dom (default ∅ (targets d)).
Proof. unfold recordOk. destruct (targets d) as [m|]; [by intros (_ & ? & _)|]. intros [-> _]. set_solver. Qed.

Lemma recordOk_owner i d : recordOk i d -> targets d <> None -> owner d = ms.
Proof. unfold recordOk. destruct (targets d) as [m|]; [by intros (? & _)|done]. Qed.

Lemma recordOk_mono i d : (length calls <= i)%nat -> recordOk i d -> recordOk (S i) d.
Proof.
  intros Hi. unfold recordOk. destruct (targets d) as [m|].
  - intros (H1 & H2 & (j & pods & H3 & H4) & H5). split; [done|]. split; [done|]. split; [exists j, pods; split; [lia|done]|].
    intros name uid Hn Hu. destruct (H5 name uid Hn Hu) as (k & a & s & o & Hk & ?). exists k, a, s, o. split; [lia|done].
  - intros [-> H]. split; [done|]. intros k b Hk Hb. apply (H k b); [|done]. apply lookup_lt_Some in Hb. lia.
Qed.

Lemma before_ok i : recordOk i (before i).
Proof.
  induction i as [|i IH].
  { unfold before. rewrite take_0. cbn. split; [done|]. intros k b Hk. lia. }
  destruct (calls !! i) as [a|] eqn:Ea.
  2: { apply lookup_ge_None in Ea as Hlen. assert (E : before (S i) = before i) by (unfold before; by rewrite !take_ge by lia).
       rewrite E. by apply recordOk_mono. }
  destruct (log_step i a Ea) as (sent & ok & Hlog & HD).
  destruct (Delete_spec _ _ _ _ _ _ (recordOk_done _ _ IH) HD) as (D1 & D2 & D3 & _ & D5 & _).
  pose proof (recordOk_owner _ _ IH) as Ho. unfold recordOk in IH |- *.
  assert (Hsettle : forall m', targets (before (S i)) = Some m' ->
    (targets (before i) = None \/ targets (before i) = Some m' /\ forall name uid, name ∈ done (before i) -> m' !! name = Some uid -> settledBy i name uid) ->
    forall name uid, name ∈ done (before (S i)) -> m' !! name = Some uid -> settledBy (S i) name uid).
  { intros m' Em Hold name uid Hn Hu. rewrite Em in D5. destruct (D5 name uid Hn Hu) as [[Hd Hdone]|Hs].
    - destruct Hold as [He|[_ Hold]]; [done|]. destruct (Hold name uid Hdone Hu) as (k & b & s & o & Hk & ?). exists k, b, s, o. split; [lia|done].
    - exists i, a, sent, ok. split; [lia|done]. }
  destruct (targets (before i)) as [m|] eqn:Et.
  - destruct IH as (H1 & H2 & (j & pods & H3 & H4) & H5). destruct D1 as [(_ & E & E')|(? & _)]; [|by destruct H1].
    rewrite E. rewrite E in D2. split; [done|]. split; [done|]. split; [exists j, pods; split; [lia|done]|].
    apply Hsettle; [done|]. by right.
  - destruct IH as [H1 H2]. destruct (listed a) as [l|] eqn:El.
    + destruct D1 as [E E']. rewrite E. rewrite E in D2. split; [done|]. split; [done|]. split.
      * exists i, l. split; [lia|]. split; [|done]. exists a. done.
      * apply Hsettle; [done|by left].
    + destruct D1 as (-> & _). rewrite Et. split; [done|]. intros k b Hk Hb. destruct (decide (k = i)) as [->|]; [congruence|]. apply (H2 k b); [lia|done].
Qed.

Lemma before_mono i j name : (i <= j)%nat -> name ∈ done (before i) -> name ∈ done (before j).
Proof.
  intros Hij Hn. induction Hij as [|j Hij IH]; [done|]. destruct (calls !! j) as [a|] eqn:Ea.
  - destruct (log_step j a Ea) as (sent & ok & _ & HD).
    destruct (Delete_spec _ _ _ _ _ _ (recordOk_done _ _ (before_ok j)) HD) as (_ & _ & D3 & _). apply D3; [|done].
    pose proof (before_ok j) as Hok. unfold recordOk in Hok. destruct (targets (before j)); [done|]. destruct Hok as [E _]. rewrite E in IH. by apply elem_of_empty in IH.
  - apply lookup_ge_None in Ea. assert (E : before (S j) = before j) by (unfold before; by rewrite !take_ge by lia). by rewrite E.
Qed.

Lemma before_targets i j m : (i <= j)%nat -> targets (before i) = Some m -> targets (before j) = Some m.
Proof.
  intros Hij Hm. induction Hij as [|j Hij IH]; [done|]. destruct (calls !! j) as [a|] eqn:Ea.
  - destruct (log_step j a Ea) as (sent & ok & _ & HD).
    destruct (Delete_spec _ _ _ _ _ _ (recordOk_done _ _ (before_ok j)) HD) as (D1 & _). rewrite IH in D1.
    destruct D1 as [(_ & E & _)|(Hne & _)]; [done|]. destruct Hne. apply (recordOk_owner j); [apply before_ok|by rewrite IH].
  - apply lookup_ge_None in Ea. assert (E : before (S j) = before j) by (unfold before; by rewrite !take_ge by lia). by rewrite E.
Qed.

Lemma log_length : length log = length calls.
Proof.
  unfold log. generalize noTargets. induction calls as [|b l IH]; intros d; [done|]. cbn. destruct (Delete ms b d) as [[d' s] o].
  specialize (IH d'). destruct (retries ms l d'). cbn in *. lia.
Qed.

Lemma log_call i sent ok : log !! i = Some (sent, ok) -> exists a, calls !! i = Some a /\ Delete ms a (before i) = (before (S i), sent, ok).
Proof.
  intros Hl. destruct (calls !! i) as [a|] eqn:Ea.
  - destruct (log_step i a Ea) as (s & o & Hl' & HD). rewrite Hl in Hl'. injection Hl' as -> ->. by exists a.
  - exfalso. apply lookup_ge_None in Ea. apply lookup_lt_Some in Hl. rewrite log_length in Hl. lia.
Qed.

(** A call whose targets are all settled sends nothing. *)
Lemma Delete_finished a j m : targets (before j) = Some m -> dom m ⊆ done (before j) ->
  exists d, Delete ms a (before j) = (d, [], true).
Proof.
  intros Htj Hfull. unfold Delete. rewrite Htj, decide_True by (apply (recordOk_owner j); [apply before_ok|by rewrite Htj]).
  rewrite Htj. cbn [from_option id].
  assert (Hskip : forall names, (forall n, n ∈ names -> n ∈ done (before j)) -> deleteLoop ms a m names (done (before j)) = (done (before j), [], true)).
  { induction names as [|n names IHn]; intros Hns; cbn [deleteLoop]; [done|].
    rewrite bool_decide_true by (apply Hns; by left). apply IHn. intros; apply Hns; by right. }
  rewrite Hskip; [by eexists|]. intros n Hn. apply Hfull. rewrite sortStrings_perm, list_elem_of_fmap in Hn.
  destruct Hn as ([? ?] & -> & Hx%elem_of_map_to_list). apply elem_of_dom. by eexists.
Qed.

(** C7: across all retries of a deletion, whatever the API server answers and
    whoever writes in between, a DELETE request names an incarnation that the
    first successful list held and the model serving controls, is conditional
    on its UID, and follows a GET that still found it; an accepted request is
    never followed by another one for its name; a call that succeeds leaves
    every target settled and every later call without requests; and a call
    during which the API server does not fail succeeds. *)
Theorem deletion_identity_safe :
  (forall i a sent ok name uid, calls !! i = Some a -> log !! i = Some (sent, ok) -> (name, uid) ∈ sent ->
     (exists j pods pod, (j <= i)%nat /\ snapshot j pods /\ pod ∈ pods /\ PodName pod = name /\ UID pod = uid /\ podOwnedForDeletion ms pod = true) /\
     (exists pod, getAnswer a name = Found pod /\ UID pod = uid /\ podOwnedForDeletion ms pod = true) /\
     (deleteAnswer a name uid <> Refused -> forall j sent' ok' uid', (i < j)%nat -> log !! j = Some (sent', ok') -> (name, uid') ∉ sent')) /\
  (forall i sent, log !! i = Some (sent, true) ->
     (exists m, targets (before (S i)) = Some m /\ forall name uid, m !! name = Some uid -> settledBy (S i) name uid) /\
     forall j a, (i < j)%nat -> calls !! j = Some a -> log !! j = Some ([], true)) /\
  (forall i a, calls !! i = Some a -> healthy a -> exists sent, log !! i = Some (sent, true)).
Proof.
  split; [|split].
  - intros i a sent ok name uid Ha Hl Hin. destruct (log_call _ _ _ Hl) as (a' & Ha' & HD). assert (a' = a) as -> by congruence.
    destruct (Delete_spec _ _ _ _ _ _ (recordOk_done _ _ (before_ok i)) HD) as (_ & _ & _ & D4 & _).
    destruct (D4 _ Hin) as (R1 & _ & [_ R3] & R4). cbn [fst snd] in *. split; [|split; [done|]].
    + pose proof (before_ok (S i)) as Hok. unfold recordOk in Hok. destruct (targets (before (S i))) as [m|]; [|done].
      destruct Hok as (_ & _ & (j & pods & Hj & Hs & ->) & _). apply capture_lookup in R1 as (pod & ? & ? & ? & ?).
      exists j, pods, pod. split; [lia|done].
    + intros Hacc j sent' ok' uid' Hij Hl' Hin'. destruct (log_call _ _ _ Hl') as (b & Hb & HD').
      destruct (Delete_spec _ _ _ _ _ _ (recordOk_done _ _ (before_ok j)) HD') as (_ & _ & _ & D4' & _).
      destruct (D4' _ Hin') as (_ & R2 & _). cbn [fst snd] in R2. apply R2; [|by apply (before_mono (S i)); [lia|apply R4]].
      pose proof (before_mono (S i) j name ltac:(lia) (R4 Hacc)) as Hd. pose proof (before_ok j) as Hok. unfold recordOk in Hok.
      destruct (targets (before j)); [done|]. destruct Hok as [E _]. rewrite E in Hd. by apply elem_of_empty in Hd.
  - intros i sent Hl. destruct (log_call _ _ _ Hl) as (a & Ha & HD).
    destruct (Delete_spec _ _ _ _ _ _ (recordOk_done _ _ (before_ok i)) HD) as (D1 & _ & _ & _ & _ & D6 & _). specialize (D6 eq_refl).
    pose proof (before_ok (S i)) as Hok. assert (Hm : exists m, targets (before (S i)) = Some m).
    { destruct (targets (before i)) as [m|]; [destruct D1 as [(_ & ? & _)|(_ & _ & _ & ?)]; [by exists m|done]|].
      destruct (listed a); [destruct D1; by eexists|by destruct D1 as (_ & _ & ?)]. }
    destruct Hm as [m Em]. split.
    + exists m. split; [done|]. unfold recordOk in Hok. rewrite Em in Hok, D6. destruct Hok as (_ & _ & _ & Hset).
      intros name uid Hu. apply Hset; [|done]. apply D6, elem_of_dom. by exists uid.
    + intros j b Hij Hb. destruct (log_step j b Hb) as (sent' & ok' & Hl' & HD'). rewrite Hl'.
      destruct (Delete_finished b j m) as [d Hd]; [by apply (before_targets (S i)); [lia|]| |rewrite Hd in HD'; by injection HD' as _ <- <-].
      intros name Hn. apply (before_mono (S i)); [lia|]. rewrite Em in D6. by apply D6.
  - intros i a Ha Hh. destruct (log_step i a Ha) as (sent & ok & Hl & HD). exists sent. rewrite Hl.
    destruct (Delete_spec _ _ _ _ _ _ (recordOk_done _ _ (before_ok i)) HD) as (_ & _ & _ & _ & _ & _ & _ & D8).
    rewrite D8; [done|done|]. apply (recordOk_owner i), before_ok.
Qed.
End deletion.

(** ** A replacement between two attempts

    The first attempt cannot delete the second pod; before the retry another
    controller deletes it and creates a pod of the same name. *)

Definition demoOwner : Owner := MkServing "default" "demo" "ms-uid".
Definition demoPod (name uid : string) : ObjectMeta :=
  MkMeta "default" name uid ∅ [MkOwner GroupVersion "ModelServing" "demo" "ms-uid" true] None.
Definition demoCalls : list Answers :=
  [ MkAnswers (Some [demoPod "demo-0-a" "u1"; demoPod "demo-0-b" "u2"]) (fun n => if decide (n = "demo-0-a"%string) then Found (demoPod n "u1") else Found (demoPod n "u2"))
      (fun n _ => if decide (n = "demo-0-a"%string) then Deleted else Refused);
    MkAnswers None (fun n => Found (demoPod n "u3")) (fun _ _ => Deleted) ].

Example demo_log : log demoOwner demoCalls = [([("demo-0-a", "u1"); ("demo-0-b", "u2")], false); ([], true)]%string.
Proof. vm_compute. reflexivity. Qed.
