(* ===== verification/InPlaceState.v ===== *)
(** * pkg/model-serving-controller/inplace/state.go: the state of an in-place update

    One annotation of a pod records which containers an update patched and how
    many restarts it may cause. The methods below decide from it whether a
    restart is a crash and when the update is complete; the second half runs
    them against a kubelet and a pod server given by their steps. *)
From S2P Require Import Prelude ServingPods.
Local Open Scope Z_scope.

(** ** The annotation *)

Record PatchedContainer := MkPatched { Image : string; PrevContainerID : string; PrevImageID : string }.

(** A time is in nanoseconds. *)
Record State := MkState {
  Revision : string;
  StartedAt : Z;
  Patched : gmap string PatchedContainer;
  Expected : gmap string Z;
  Done : bool;
}.

Record legacyState := MkLegacy {
  TargetRevision : string;
  LegacyPhase : string;
  LegacyStartedAt : Z;
  Baseline : gmap string (string * Z);
  LegacyPatched : gmap string (string * string);
}.

(** The text of the annotation by what [json.Unmarshal] makes of it for each
    of the three targets of [StateOf]; [None] is an error. *)
Record rawState := MkRaw {
  probe : option (Z * string);
  readLegacy : option legacyState;
  readState : option State;
}.

Record Pod := MkPod {
  Meta : ObjectMeta;
  ResourceVersion : string;
  StateAnnotation : option rawState;
  RestartPolicy : string;
  Containers : list Container;
  Status : PodStatus;
}.

(** [json.Marshal] of a state: a [metav1.Time] is written in whole seconds. *)
Definition truncated (s : State) : State :=
  MkState (Revision s) (StartedAt s / 1000000000 * 1000000000) (Patched s) (Expected s) (Done s).

Definition Marshal (s : State) : rawState :=
  MkRaw (Some (0, ""%string))
        (Some (MkLegacy "" "" (StartedAt (truncated s)) ∅ ((fun p => (Image p, ""%string)) <$> Patched s)))
        (Some (truncated s)).

(** The loop over the legacy patches: the restart of a patched container is
    expected on top of its baseline. *)
Definition migratePatched (legacy : legacyState) (name : string) (patched : string * string) (acc : gmap string PatchedContainer * gmap string Z) :
    gmap string PatchedContainer * gmap string Z :=
  let baseline := default (""%string, 0) (Baseline legacy !! name) in
  (<[name := MkPatched patched.1 baseline.1 patched.2]> acc.1, <[name := int32 (baseline.2 + 1)]> acc.2).

Definition migrateLegacyState (legacy : legacyState) : State :=
  let done := bool_decide (LegacyPhase legacy = "Done"%string) in
  let expected : gmap string Z := snd <$> Baseline legacy in
  if done then MkState (TargetRevision legacy) (LegacyStartedAt legacy) ∅ expected true
  else
    let '(patched, expected) := map_fold (migratePatched legacy) (∅, expected) (LegacyPatched legacy) in
    MkState (TargetRevision legacy) (LegacyStartedAt legacy) patched expected false.

Definition StateOf (pod : Pod) : option State :=
  raw ← StateAnnotation pod;
  '(version, phase) ← probe raw;
  if negb (version =? 0) || negb (bool_decide (phase = ""%string)) then migrateLegacyState <$> readLegacy raw
  else readState raw.

Abbreviation starting := (gmap string PatchedContainer * gmap string Z * list (string * string))%type.

(** ** Images

    The references of images are parsed by github.com/distribution/reference,
    which is the parameter of this class. *)
Class ImageReference := {
  Named : Type;
  ParseNormalizedNamed : string -> option Named;
  NamedName : Named -> string;
  NamedDigest : Named -> option string;
  TagNameOnly : Named -> string;
}.

Section state.
Context `{ImageReference}.

Definition normalizeImage (image : string) : string :=
  match ParseNormalizedNamed image with
  | None => image
  | Some named => match NamedDigest named with
                  | Some digest => (NamedName named ++ "@" ++ digest)%string
                  | None => TagNameOnly named
                  end
  end.

Definition sameImage (a b : string) : bool := bool_decide (normalizeImage a = normalizeImage b).

Definition imageIDChanged (current previous : string) : bool :=
  negb (bool_decide (current = ""%string)) && negb (bool_decide (previous = ""%string)) && negb (bool_decide (current = previous)).

Definition containerStatus (pod : Pod) (name : string) : option ContainerStatus :=
  findName StatusName name (ContainerStatuses (Status pod)).

Definition specRequests (pod : Pod) (name image : string) : bool :=
  match findName ContainerName name (Containers pod) with
  | Some c => bool_decide (ContainerImage c = image)
  | None => false
  end.

Definition ranTarget (status : ContainerStatus) (patched : PatchedContainer) : bool :=
  if bool_decide (ContainerID status = ""%string) || bool_decide (ContainerID status = PrevContainerID patched) then false
  else sameImage (StatusImage status) (Image patched) || imageIDChanged (ImageID status) (PrevImageID patched).

(** A nil state is [None]. *)
Definition InProgress (s : option State) : bool := match s with Some s => negb (Done s) | None => false end.

Definition patchedContainer (s : option State) (name : string) : option PatchedContainer :=
  if InProgress s then s ← s; Patched s !! name else None.

Definition onTargetContainer (pod : Pod) (name : string) (patched : PatchedContainer) : bool :=
  specRequests pod name (Image patched) &&
  match containerStatus pod name with Some status => ranTarget status patched | None => false end.

Definition OnTarget (s : option State) (pod : Pod) : bool :=
  match s with
  | Some st => InProgress s && IsRunningAndReady (Status pod) &&
               bool_decide (map_Forall (fun name patched => onTargetContainer pod name patched = true) (Patched st))
  | None => false
  end.

Definition expectedRestarts (s : option State) (name : string) : Z :=
  match s with Some s => default 0 (Expected s !! name) | None => 0 end.

(** The body of the loop over the container statuses. *)
Definition unexpectedStatus (s : option State) (status : ContainerStatus) : bool :=
  let expected := expectedRestarts s (StatusName status) in
  (expected <? RestartCount status) ||
  match patchedContainer s (StatusName status) with
  | Some patched => (RestartCount status =? expected) && negb (bool_decide (ContainerID status = PrevContainerID patched)) &&
                    negb (bool_decide (ContainerID status = ""%string)) && negb (ranTarget status patched)
  | None => false
  end.

Definition UnexpectedRestart (s : option State) (pod : Pod) : bool :=
  if negb (bool_decide (Phase (Status pod) = PodRunning)) && negb (bool_decide (Phase (Status pod) = PodPending)) then false
  else existsb (fun status => 0 <? RestartCount status) (InitContainerStatuses (Status pod)) ||
       existsb (unexpectedStatus s) (ContainerStatuses (Status pod)).

Definition Completed (s : option State) (pod : Pod) : bool := OnTarget s pod && negb (UnexpectedRestart s pod).
Definition Updating (s : option State) (pod : Pod) : bool := InProgress s && negb (Completed s pod).

(** [utils.ContainerRestarted], the check that [UnexpectedRestart] refines. *)
Definition ContainerRestarted (pod : Pod) : bool :=
  if bool_decide (Phase (Status pod) = PodRunning) || bool_decide (Phase (Status pod) = PodPending) then
    existsb (fun status => 0 <? RestartCount status) (InitContainerStatuses (Status pod)) ||
    existsb (fun status => 0 <? RestartCount status) (ContainerStatuses (Status pod))
  else false.

(** ** The patches *)

(** A patch of a pod: its preconditions, the annotation, the labels and the
    images it sets. *)
Record Patch := MkPatch {
  WantResourceVersion : option string;
  WantUID : option string;
  SetAnnotation : rawState;
  SetLabels : labels;
  SetImages : list (string * string);
}.

Definition nonEmpty (s : string) : option string := if bool_decide (s = ""%string) then None else Some s.

Definition preconditionedMetadata (pod : Pod) (annotation : rawState) (podLabels : labels) (images : list (string * string)) : Patch :=
  MkPatch (nonEmpty (ResourceVersion pod)) (nonEmpty (UID (Meta pod))) annotation podLabels images.

(** The loop over the containers of the specification. *)
Definition patchContainer (pod : Pod) (images : gmap string string) (acc : starting) (c : Container) : starting :=
  let '(patched, expected, containers) := acc in
  let name := ContainerName c in
  match images !! name with
  | None => acc
  | Some image =>
    if bool_decide (image = ContainerImage c) then acc
    else
      let p := match containerStatus pod name with
               | Some status => MkPatched image (ContainerID status) (ImageID status)
               | None => MkPatched image "" ""
               end in
      let expected := match containerStatus pod name with
                      | Some status => if default 0 (expected !! name) <? RestartCount status then <[name := RestartCount status]> expected else expected
                      | None => expected
                      end in
      (<[name := p]> patched, <[name := int32 (default 0 (expected !! name) + 1)]> expected, containers ++ [(name, image)])
  end.

(** The maps the update starts from: the allowances accumulate, and so do the
    patches of an update that is retargeted before it is done. *)
Definition startMaps (pod : Pod) : gmap string PatchedContainer * gmap string Z :=
  match StateOf pod with
  | Some prior => (if Done prior then ∅ else Patched prior, Expected prior)
  | None => (∅, ∅)
  end.

(** [Start]: the patch it sends, none when the pod is already being updated to
    the revision. *)
Definition Start (pod : Pod) (images : gmap string string) (revision : string) (now : Z) : option Patch :=
  let current := match StateOf pod with Some s => negb (Done s) && bool_decide (Revision s = revision) | None => false end in
  if current then None
  else
    let '(patched, expected, containers) := fold_left (patchContainer pod images) (Containers pod) (startMaps pod, []) in
    Some (preconditionedMetadata pod (Marshal (MkState revision now patched expected false)) ∅ containers).

(** The loop that drops the allowances an update did not use. *)
Definition dropUnused (pod : Pod) (name : string) (_ : PatchedContainer) (expected : gmap string Z) : gmap string Z :=
  match containerStatus pod name with
  | Some status => if RestartCount status <? default 0 (expected !! name) then <[name := RestartCount status]> expected else expected
  | None => expected
  end.

(** [Complete]: the patch it sends. *)
Definition Complete (pod : Pod) (revision roleHash : string) (now : Z) : Patch :=
  let s := default (MkState revision now ∅ ∅ false) (StateOf pod) in
  let podLabels := <[RevisionLabelKey := revision]> (if bool_decide (roleHash = ""%string) then ∅ else {[ RoleTemplateHashLabelKey := roleHash ]}) in
  preconditionedMetadata pod (Marshal (MkState (Revision s) (StartedAt s) ∅ (map_fold (dropUnused pod) (Expected s) (Patched s)) true)) podLabels [].
End state.

(** ** Lemmas on the operations *)

(** A fold over a map whose step changes the entry of its own key only. *)
Lemma lookup_map_fold_own {A B} (f : string -> A -> gmap string B -> gmap string B) (g : string -> A -> option B -> option B) b m k :
  (forall k v acc k', k' <> k -> f k v acc !! k' = acc !! k') -> (forall k v acc, f k v acc !! k = g k v (acc !! k)) ->
  map_fold f b m !! k = match m !! k with Some v => g k v (b !! k) | None => b !! k end.
Proof.
  intros Hne Heq. apply (map_fold_weak_ind (fun r m => r !! k = match m !! k with Some v => g k v (b !! k) | None => b !! k end)).
  - by rewrite lookup_empty.
  - intros i v m' r Hi IH. destruct (decide (k = i)) as [->|Hki].
    + by rewrite lookup_insert_eq, Heq, IH, Hi.
    + by rewrite lookup_insert_ne, Hne by done.
Qed.

Lemma StateOf_Marshal m rv s rp cs st : StateOf (MkPod m rv (Some (Marshal s)) rp cs st) = Some (truncated s).
Proof. reflexivity. Qed.

Section lemmas.
Context `{ImageReference}.

(** The image a patch writes into a container, if it touches it. *)
Definition touched (images : gmap string string) (c : Container) : option string :=
  image ← images !! ContainerName c; if bool_decide (image = ContainerImage c) then None else Some image.

Definition countOf (pod : Pod) (name : string) : Z := default 0 (RestartCount <$> containerStatus pod name).
Definition idOf (pod : Pod) (name : string) : string := default ""%string (ContainerID <$> containerStatus pod name).
Definition imageIDOf (pod : Pod) (name : string) : string := default ""%string (ImageID <$> containerStatus pod name).

Lemma patchContainer_spec pod images (acc : starting) c name :
  let r := patchContainer pod images acc c in
  if decide (ContainerName c = name) then
    match touched images c with
    | Some image => r.1.1 !! name = Some (MkPatched image (idOf pod name) (imageIDOf pod name)) /\
                    (0 <= default 0 (acc.1.2 !! name) ->
                     default 0 (r.1.2 !! name) = int32 (Z.max (default 0 (acc.1.2 !! name)) (countOf pod name) + 1)) /\
                    r.2 = acc.2 ++ [(name, image)]
    | None => r = acc
    end
  else r.1.1 !! name = acc.1.1 !! name /\ r.1.2 !! name = acc.1.2 !! name /\ findName fst name r.2 = findName fst name acc.2.
Proof.
  destruct acc as [[patched expected] containers]. unfold patchContainer, touched, countOf, idOf, imageIDOf. cbn [fst snd].
  destruct (decide (ContainerName c = name)) as [->|Hne].
  - destruct (images !! name) as [image|] eqn:Ei; simpl; [|done]. case_bool_decide as Eim; [done|].
    destruct (containerStatus pod name) as [status|]; simpl; rewrite !lookup_insert_eq; (split; [done|split; [|done]]).
    + intros H0. simpl. destruct (Z.ltb_spec (default 0 (expected !! name)) (RestartCount status)) as [Hl|Hl]; [rewrite lookup_insert_eq; simpl|].
      * by rewrite Z.max_r by lia.
      * by rewrite Z.max_l by lia.
    + intros H0. simpl. by rewrite Z.max_l by lia.
  - destruct (images !! ContainerName c) as [image|] eqn:Ei; simpl; [|done]. case_bool_decide as Eim; [done|]. cbn [fst snd].
    assert (Hf : forall l, findName fst name (l ++ [(ContainerName c, image)]) = findName fst name l).
    { intros l. induction l as [|x l IH]; simpl; rewrite !findName_cons; [by rewrite decide_False|]. by rewrite IH. }
    destruct (containerStatus pod (ContainerName c)) as [status|]; [destruct (_ <? _)|];
      rewrite ?lookup_insert_ne by done; by rewrite Hf.
Qed.

(** The loop of [Start] over containers of distinct names. *)
Lemma patchContainers_skip pod images l name : forall acc : starting, name ∉ ContainerName <$> l ->
  let r := fold_left (patchContainer pod images) l acc in
  r.1.1 !! name = acc.1.1 !! name /\ r.1.2 !! name = acc.1.2 !! name /\ findName fst name r.2 = findName fst name acc.2.
Proof.
  induction l as [|c l IH]; intros acc Hl; [done|]. cbn [fold_left]. rewrite fmap_cons in Hl. apply not_elem_of_cons in Hl as [Hne Hl].
  pose proof (patchContainer_spec pod images acc c name) as Hstep. cbv zeta in Hstep. rewrite decide_False in Hstep by done.
  destruct Hstep as (S1 & S2 & S3), (IH (patchContainer pod images acc c) Hl) as (I1 & I2 & I3). cbv zeta.
  by rewrite I1, I2, I3, S1, S2, S3.
Qed.

Lemma patchContainers_spec pod images l (acc : starting) name :
  NoDup (ContainerName <$> l) -> findName fst name acc.2 = None -> 0 <= default 0 (acc.1.2 !! name) ->
  let r := fold_left (patchContainer pod images) l acc in
  match c ← findName ContainerName name l; touched images c with
  | Some image => r.1.1 !! name = Some (MkPatched image (idOf pod name) (imageIDOf pod name)) /\
                  default 0 (r.1.2 !! name) = int32 (Z.max (default 0 (acc.1.2 !! name)) (countOf pod name) + 1) /\
                  findName fst name r.2 = Some (name, image)
  | None => r.1.1 !! name = acc.1.1 !! name /\ r.1.2 !! name = acc.1.2 !! name /\ findName fst name r.2 = None
  end.
Proof.
  cbv zeta. revert acc. induction l as [|c l IH]; intros acc Hnd Hacc Hpos; [done|].
  inversion Hnd as [|? ? Hc Hnd']; subst. cbn [fold_left]. rewrite findName_cons.
  pose proof (patchContainer_spec pod images acc c name) as Hstep. cbv zeta in Hstep.
  destruct (decide (ContainerName c = name)) as [Hn|Hn].
  - cbn [mbind option_bind]. rewrite Hn in Hc.
    destruct (patchContainers_skip pod images l name (patchContainer pod images acc c) Hc) as (-> & -> & ->).
    destruct (touched images c) as [image|]; [|by rewrite Hstep]. destruct Hstep as (S1 & S2 & S3).
    split; [done|]. split; [by apply S2|]. rewrite S3, findName_app, Hacc. by rewrite findName_cons, decide_True.
  - destruct Hstep as (S1 & S2 & S3). rewrite <- S1, <- S2. apply IH; [done|by rewrite S3|by rewrite S2].
Qed.

(** What a start writes for each container. *)
Lemma Start_spec pod images revision now pt :
  NoDup (ContainerName <$> Containers pod) -> Start pod images revision now = Some pt ->
  (forall s name, StateOf pod = Some s -> 0 <= default 0 (Expected s !! name)) ->
  exists s, SetAnnotation pt = Marshal s /\ Revision s = revision /\ StartedAt s = now /\ Done s = false /\
    forall name, match c ← findName ContainerName name (Containers pod); touched images c with
    | Some image => Patched s !! name = Some (MkPatched image (idOf pod name) (imageIDOf pod name)) /\
                    default 0 (Expected s !! name) = int32 (Z.max (expectedRestarts (StateOf pod) name) (countOf pod name) + 1) /\
                    findName fst name (SetImages pt) = Some (name, image)
    | None => Patched s !! name = patchedContainer (StateOf pod) name /\
              default 0 (Expected s !! name) = expectedRestarts (StateOf pod) name /\
              findName fst name (SetImages pt) = None
    end.
Proof.
  intros Hnd HS Hpos. unfold Start in HS.
  destruct (match StateOf pod with Some s => _ | None => false end); [done|].
  destruct (fold_left _ _ _) as [[patched expected] containers] eqn:Ef. injection HS as <-.
  eexists. split; [reflexivity|]. do 3 (split; [reflexivity|]). intros name. cbn [Patched Expected preconditionedMetadata SetImages].
  assert (Hmaps : (startMaps pod).1 !! name = patchedContainer (StateOf pod) name /\
                  default 0 ((startMaps pod).2 !! name) = expectedRestarts (StateOf pod) name).
  { unfold startMaps, patchedContainer, InProgress. destruct (StateOf pod) as [s|]; [|done]. by destruct (Done s). }
  assert (Hpos' : 0 <= default 0 ((startMaps pod).2 !! name)).
  { rewrite (proj2 Hmaps). unfold expectedRestarts. destruct (StateOf pod); [by apply Hpos|done]. }
  pose proof (patchContainers_spec pod images (Containers pod) (startMaps pod, []) name Hnd eq_refl Hpos') as Hf. cbv zeta in Hf.
  rewrite Ef in Hf. cbn [fst snd] in Hf.
  rewrite (proj1 Hmaps) in Hf. destruct (c ← _; _) as [image|]; destruct Hf as (F1 & F2 & F3); (split; [done|split; [|done]]).
  - by rewrite F2, (proj2 Hmaps).
  - by rewrite F2, (proj2 Hmaps).
Qed.

(** What a completion leaves as allowances. *)
Lemma Complete_spec pod revision roleHash now s : StateOf pod = Some s ->
  exists s', SetAnnotation (Complete pod revision roleHash now) = Marshal s' /\ Done s' = true /\ Revision s' = Revision s /\ Patched s' = ∅ /\
    forall name, default 0 (Expected s' !! name) =
      match Patched s !! name, containerStatus pod name with
      | Some _, Some status => Z.min (default 0 (Expected s !! name)) (RestartCount status)
      | _, _ => default 0 (Expected s !! name)
      end.
Proof.
  intros Hs. unfold Complete. rewrite Hs. cbv zeta. cbn [default from_option id]. eexists. split; [reflexivity|].
  do 3 (split; [reflexivity|]). intros name. cbn [Expected].
  rewrite (lookup_map_fold_own _ (fun k _ o => match containerStatus pod k with
     | Some status => if RestartCount status <? default 0 o then Some (RestartCount status) else o | None => o end)).
  - destruct (Patched s !! name); [|done]. destruct (containerStatus pod name) as [status|]; [|done].
    destruct (Z.ltb_spec (RestartCount status) (default 0 (Expected s !! name))); simpl; lia.
  - intros k v acc k' Hk. unfold dropUnused. destruct (containerStatus pod k); [|done]. destruct (_ <? _); [|done].
    by rewrite lookup_insert_ne.
  - intros k v acc. unfold dropUnused. destruct (containerStatus pod k); [|done]. destruct (_ <? _); [|done].
    by rewrite lookup_insert_eq.
Qed.
End lemmas.

(** References that are written in full. *)
Definition plainReference : ImageReference :=
  {| Named := string; ParseNormalizedNamed := Some; NamedName := id; NamedDigest := fun _ => None; TagNameOnly := id |}.
