(* ===== verification/RevisionHistory.v ===== *)
(** * pkg/model-serving-controller/controller/revision_history.go: comparing
      templates with history

    A reconcile resolves the revisions of what is running against immutable
    snapshots. Snapshots, hashes and comparisons are kept for the rest of the
    reconcile, failures included. *)
From S2P Require Import Prelude Names ServingStore ServingPods InPlaceState.
Local Open Scope Z_scope.

(** A role of a template. The API server defaults the replicas to one. *)
Record RoleTemplate := MkRoleTemplate { templateName : string; templateReplicas : Z; WorkerReplicas : Z }.

(** The revisioned part of a model serving, and the comparisons of its JSON
    (utils/revision_data.go, revision_comparison.go); [None] is an error. *)
Class Workloads := {
  Workload : Type;
  Roles : Workload -> list RoleTemplate;
  RoleRevisionHash : Workload -> string -> option string;
  EqualRoleRevisions : string -> string -> Workload -> Workload -> string -> option bool;
  EqualModelServingRevisions : string -> string -> Workload -> Workload -> option bool;
}.

Inductive RecoveryPolicy := ServingGroupRecreate | RoleRecreate | NoneRestartPolicy.

#[export] Instance RecoveryPolicy_eq_dec : EqDecision RecoveryPolicy.
Proof. solve_decision. Defined.

(** What the controller reads of a model serving. [roleMode] is
    RoleRollingUpdate; [coordinationRoles] are the roles of its coordination. *)
Record ModelServing `{Workloads} := MkModelServing {
  servingKey : NamespacedName;
  servingUID : string;
  servingResourceVersion : string;
  desired : Workload;
  roleMode : bool;
  coordinationRoles : option (list string);
  recoveryPolicy : RecoveryPolicy;
  restartGracePeriodSeconds : option Z;
  hasPlugins : bool;
}.

(** What went wrong in a comparison. *)
Inductive comparisonError :=
| ErrDesiredRole (role : string) | ErrRevision (revision : string) | ErrRevisionRole (revision role : string)
| ErrGroupRole (group role : string) | ErrObservedRoles (group : string).

Record revisionHistory `{Workloads} := MkHistory {
  snapshots : gmap string (option Workload);
  roleHashes : gmap string string;
  roleComparisons : gmap (string * string) templateComparison;
  comparisonErrs : list comparisonError;
}.

Section history.
Context `{Workloads}.

Definition newHistory : revisionHistory := MkHistory _ ∅ ∅ ∅ [].

Definition roleCoordination (ms : ModelServing) : option (list string) := if roleMode ms then coordinationRoles ms else None.

Definition isCoordinatedRole (ms : ModelServing) (roleName : string) : bool :=
  match roleCoordination ms with
  | None => false
  | Some [] => true
  | Some l => bool_decide (roleName ∈ l)
  end.

(** Coordination reads the live pods of a persisted object. *)
Definition coordinatedObservation (ms : ModelServing) : bool :=
  bool_decide (is_Some (roleCoordination ms)) && negb (bool_decide (servingResourceVersion ms = ""%string)).

Definition findRole (ms : Workload) (roleName : string) : option RoleTemplate := findName templateName roleName (Roles ms).

(** ** Snapshots *)

(** A snapshot without roles is an error. *)
Definition decode (w : option Workload) : option Workload :=
  w ← w; if bool_decide (length (Roles w) = 0%nat) then None else Some w.

(** [fetch] reads, checks and parses the ControllerRevision of a revision. *)
Definition workload (fetch : string -> option Workload) (h : revisionHistory) (revision : string) : option Workload * revisionHistory :=
  match snapshots h !! revision with
  | Some snapshot => (snapshot, h)
  | None =>
    let snapshot := if bool_decide (revision = ""%string) then None else decode (fetch revision) in
    (snapshot, MkHistory _ (<[revision := snapshot]> (snapshots h)) (roleHashes h) (roleComparisons h) (comparisonErrs h))
  end.

Definition recordComparisonError (h : revisionHistory) (e : comparisonError) : revisionHistory :=
  MkHistory _ (snapshots h) (roleHashes h) (roleComparisons h) (e :: comparisonErrs h).

Definition roleHash (ms : ModelServing) (h : revisionHistory) (roleName : string) : option string * revisionHistory :=
  match roleHashes h !! roleName with
  | Some hash => (Some hash, h)
  | None =>
    match RoleRevisionHash (desired ms) roleName with
    | Some hash => (Some hash, MkHistory _ (snapshots h) (<[roleName := hash]> (roleHashes h)) (roleComparisons h) (comparisonErrs h))
    | None => (None, recordComparisonError h (ErrDesiredRole roleName))
    end
  end.

(** [errors] returns nil. *)
Definition noErrors (h : revisionHistory) : bool :=
  bool_decide (map_Forall (fun _ s => s <> None) (snapshots h)) && bool_decide (length (comparisonErrs h) = 0%nat).

(** ** Live members of a coordinated role *)

(** The pods of the model serving that the API server lists; [None] is an error. *)
Definition coordinatedPods (ms : ModelServing) (listed : option (list Pod)) (selector : labels) : option (list Pod) :=
  (filter (fun pod => IsOwnedByModelServingWithUID (Meta pod) (servingUID ms) = true /\ Matches selector (Labels (Meta pod)) = true)) <$> listed.

(** The instance with the identity of its live entry pod, and that pod. *)
Definition coordinatedLiveRole (ms : ModelServing) (listed : option (list Pod)) (group name : string) (instance : Role) : option (Role * option Pod) :=
  if bool_decide (servingResourceVersion ms = ""%string) then Some (instance, None)
  else
    pods ← coordinatedPods ms listed ∅;
    match findName (fun pod => PodName (Meta pod)) (GeneratePodName group (ServingStore.RoleName instance) 0) pods with
    | None => Some (instance, None)
    | Some pod =>
      if negb (IsOwnedByModelServingWithUID (Meta pod) (servingUID ms)) || negb (bool_decide (GetRoleName (Meta pod) = name)) ||
         negb (bool_decide (GetRoleID (Meta pod) = ServingStore.RoleName instance)) || negb (bool_decide (label (Labels (Meta pod)) GroupNameLabelKey = group))
      then None
      else Some (ServingStore.MkRole (ServingStore.RoleName instance) (ObjectRevision (Meta pod)) (ObjectRoleTemplateHash (Meta pod)) (ServingStore.Status instance), Some pod)
    end.

(** ** Comparisons *)

Definition observedRevision (group : ServingGroup) (observed : Role) : string :=
  if bool_decide (RoleRevision observed = ""%string) then GroupRevision group else RoleRevision observed.

(** The instance a comparison uses; [None] leaves it unknown. *)
Definition observedRole (ms : ModelServing) (listed : option (list Pod)) (group : ServingGroup) (roleName : string) (observed : Role) : option Role :=
  if coordinatedObservation ms then
    '(live, pod) ← coordinatedLiveRole ms listed (GroupName group) roleName observed;
    pod ← pod;
    if IsTerminating (Meta pod) then None else Some live
  else Some observed.

(** The comparison of the desired role with a resolved snapshot. *)
Definition compareSnapshot (ms : ModelServing) (h : revisionHistory) (w : Workload) (revision roleName expectedHash : string) : templateComparison * revisionHistory :=
  match findRole w roleName with
  | None => (templateUnknown, recordComparisonError h (ErrRevisionRole revision roleName))
  | Some _ =>
    match RoleRevisionHash w roleName with
    | None => (templateUnknown, recordComparisonError h (ErrRevision revision))
    | Some historicalHash =>
      match EqualRoleRevisions historicalHash expectedHash w (desired ms) roleName with
      | None => (templateUnknown, recordComparisonError h (ErrRevision revision))
      | Some equal =>
        let comparison := if equal : bool then templateEquivalent else templateDifferent in
        (comparison, MkHistory _ (snapshots h) (roleHashes h) (<[(revision, roleName) := comparison]> (roleComparisons h)) (comparisonErrs h))
      end
    end
  end.

Definition compareRoleTemplate (ms : ModelServing) (fetch : string -> option Workload) (listed : option (list Pod)) (h : revisionHistory)
    (group : ServingGroup) (roleName : string) (observed : Role) : templateComparison * revisionHistory :=
  match findRole (desired ms) roleName with
  | None => (templateDifferent, h)
  | Some _ =>
    match observedRole ms listed group roleName observed with
    | None => (templateUnknown, h)
    | Some observed =>
      let '(expectedHash, h) := roleHash ms h roleName in
      match expectedHash with
      | None => (templateUnknown, h)
      | Some expectedHash =>
        let revision := observedRevision group observed in
        match roleComparisons h !! (revision, roleName) with
        | Some comparison => (comparison, h)
        | None =>
          let '(w, h) := workload fetch h revision in
          match w with
          | None => (templateUnknown, h)
          | Some w => compareSnapshot ms h w revision roleName expectedHash
          end
        end
      end
    end
  end.

(** The instances of one desired role. An unknown one only postpones the answer
    in role mode; [inl] ends the comparison. *)
Fixpoint compareInstances (ms : ModelServing) (fetch : string -> option Workload) (listed : option (list Pod)) (group : ServingGroup) (roleName : string)
    (l : list Role) (h : revisionHistory) (unknown : bool) : (templateComparison + bool) * revisionHistory :=
  match l with
  | [] => (inr unknown, h)
  | observed :: l =>
    let '(comparison, h) := compareRoleTemplate ms fetch listed h group roleName observed in
    if roleMode ms && bool_decide (comparison = templateUnknown) then compareInstances ms fetch listed group roleName l h true
    else if bool_decide (comparison = templateEquivalent) then compareInstances ms fetch listed group roleName l h unknown
    else (inl comparison, h)
  end.

Fixpoint compareRoles (ms : ModelServing) (fetch : string -> option Workload) (listed : option (list Pod)) (s : store) (group : ServingGroup)
    (l : list RoleTemplate) (h : revisionHistory) (unknown : bool) : (templateComparison + bool) * revisionHistory :=
  match l with
  | [] => (inr unknown, h)
  | role :: l =>
    match GetRoleList s (servingKey ms) (GroupName group) (templateName role) with
    | inr _ => (inl templateUnknown, recordComparisonError h (ErrGroupRole (GroupName group) (templateName role)))
    | inl instances =>
      match compareInstances ms fetch listed group (templateName role) instances h unknown with
      | (inl comparison, h) => (inl comparison, h)
      | (inr unknown, h) => compareRoles ms fetch listed s group l h unknown
      end
    end
  end.

(** A role that is no longer desired and still has an instance. *)
Definition obsoleteRole (ms : ModelServing) (name : string) (instances : gmap string Role) : bool :=
  negb (bool_decide (name ∈ templateName <$> Roles (desired ms))) &&
  existsb (fun '(_, observed) => negb (bool_decide (ServingStore.Status observed = RoleDeleting))) (map_to_list instances).

(** The comparison by the revision of the group; [None] goes on with the roles. *)
Definition compareRevision (ms : ModelServing) (fetch : string -> option Workload) (h : revisionHistory) (group : ServingGroup) (targetRevision : string) :
    option templateComparison * revisionHistory :=
  if roleMode ms || bool_decide (GroupRevision group = targetRevision) then (None, h)
  else if bool_decide (length (Roles (desired ms)) = 0%nat) then (Some templateDifferent, h)
  else
    let '(w, h) := workload fetch h (GroupRevision group) in
    match w with
    | None => (Some templateUnknown, h)
    | Some w =>
      match EqualModelServingRevisions (GroupRevision group) targetRevision w (desired ms) with
      | None => (Some templateUnknown, recordComparisonError h (ErrRevision (GroupRevision group)))
      | Some equal => (if equal : bool then None else Some templateDifferent, h)
      end
    end.

Definition compareServingGroupTemplate (ms : ModelServing) (fetch : string -> option Workload) (listed : option (list Pod)) (s : store) (h : revisionHistory)
    (group : ServingGroup) (targetRevision : string) : templateComparison * revisionHistory :=
  let '(early, h) := compareRevision ms fetch h group targetRevision in
  match early with
  | Some comparison => (comparison, h)
  | None =>
    match compareRoles ms fetch listed s group (Roles (desired ms)) h false with
    | (inl comparison, h) => (comparison, h)
    | (inr unknown, h) =>
      if roleMode ms then
        match GetRolesByGroup s (servingKey ms) (GroupName group) with
        | inr _ => (templateUnknown, recordComparisonError h (ErrObservedRoles (GroupName group)))
        | inl observedRoles =>
          if existsb (fun '(name, instances) => obsoleteRole ms name instances) (map_to_list observedRoles) then (templateDifferent, h)
          else (if unknown then templateUnknown else templateEquivalent, h)
        end
      else (if unknown then templateUnknown else templateEquivalent, h)
    end
  end.

(** ** What the comparisons mean

    [snap] is what a revision resolves to for the rest of the reconcile. *)

Definition comparedTo (snap : string -> option Workload) (ms : ModelServing) (revision roleName : string) : templateComparison :=
  match RoleRevisionHash (desired ms) roleName, snap revision with
  | Some expectedHash, Some w =>
    match findRole w roleName, RoleRevisionHash w roleName with
    | Some _, Some hash =>
      match EqualRoleRevisions hash expectedHash w (desired ms) roleName with
      | Some equal => if equal : bool then templateEquivalent else templateDifferent
      | None => templateUnknown
      end
    | _, _ => templateUnknown
    end
  | _, _ => templateUnknown
  end.

Definition roleMeaning (snap : string -> option Workload) (ms : ModelServing) (listed : option (list Pod)) (group : ServingGroup) (roleName : string) (observed : Role) : templateComparison :=
  match findRole (desired ms) roleName, observedRole ms listed group roleName observed with
  | None, _ => templateDifferent
  | Some _, None => templateUnknown
  | Some _, Some observed => comparedTo snap ms (observedRevision group observed) roleName
  end.

(** The observed instances of the desired roles, in the order of the loops. *)
Definition observedInstances (ms : ModelServing) (s : store) (group : ServingGroup) : option (list (string * Role)) :=
  mjoin <$> mapM (fun role => match GetRoleList s (servingKey ms) (GroupName group) (templateName role) with
                               | inl l => Some (pair (templateName role) <$> l)
                               | inr _ => None
                               end) (Roles (desired ms)).

(** The history agrees with [snap]. *)
Record agrees (snap : string -> option Workload) (ms : ModelServing) (h : revisionHistory) : Prop := {
  agrees_hashes n hash : roleHashes h !! n = Some hash -> RoleRevisionHash (desired ms) n = Some hash;
  agrees_snapshots r w : snapshots h !! r = Some w -> snap r = w;
  agrees_comparisons r n c : roleComparisons h !! (r, n) = Some c -> comparedTo snap ms r n = c;
}.

(** What a revision resolves to when it is read now. *)
Definition resolve (fetch : string -> option Workload) (revision : string) : option Workload :=
  if bool_decide (revision = ""%string) then None else decode (fetch revision).

(** The snapshots of [h] stay, and the new ones were read now. *)
Definition extends (fetch : string -> option Workload) (h h' : revisionHistory) : Prop :=
  snapshots h ⊆ snapshots h' /\ forall r w, snapshots h' !! r = Some w -> snapshots h !! r = Some w \/ w = resolve fetch r.

Lemma extends_same fetch h h' : snapshots h' = snapshots h -> extends fetch h h'.
Proof. unfold extends. intros ->. split; [done|by left]. Qed.

#[export] Instance extends_preorder fetch : PreOrder (extends fetch).
Proof.
  split; [intros h; by apply extends_same|]. intros a b c [A1 A2] [B1 B2]. split; [by etrans|].
  intros r w Hr. destruct (B2 _ _ Hr) as [Hb|?]; [by apply A2|by right].
Qed.

Lemma extends_record fetch h e : extends fetch h (recordComparisonError h e).
Proof. by apply extends_same. Qed.
#[local] Hint Resolve extends_record : core.

Definition fits (snap : string -> option Workload) (h : revisionHistory) : Prop := forall r w, snapshots h !! r = Some w -> snap r = w.

Lemma fits_extends snap fetch h h' : extends fetch h h' -> fits snap h' -> fits snap h.
Proof. intros [Hx _] Hf r w Hr. apply Hf. by eapply lookup_weaken. Qed.

Lemma agrees_record snap ms h e : agrees snap ms h -> agrees snap ms (recordComparisonError h e).
Proof. by intros [A B C]. Qed.

Lemma workload_extends fetch h revision : extends fetch h (workload fetch h revision).2 /\
  snapshots (workload fetch h revision).2 !! revision = Some (workload fetch h revision).1.
Proof.
  unfold workload. destruct (snapshots h !! revision) as [snapshot|] eqn:E; [done|]. cbn.
  split; [|by rewrite lookup_insert_eq]. split; [by apply insert_subseteq|]. cbn. intros r w. rewrite lookup_insert_Some.
  intros [[<- <-]|[_ Hr]]; [by right|by left].
Qed.

Lemma workload_agrees snap ms fetch h revision : agrees snap ms h -> fits snap (workload fetch h revision).2 ->
  agrees snap ms (workload fetch h revision).2 /\ (workload fetch h revision).1 = snap revision.
Proof.
  intros [A B C] Hf. split; [|symmetry; apply Hf, workload_extends]. unfold workload in *.
  destruct (snapshots h !! revision); [done|]. by split.
Qed.

Lemma roleHash_agrees snap ms h name : agrees snap ms h ->
  agrees snap ms (roleHash ms h name).2 /\ (roleHash ms h name).1 = RoleRevisionHash (desired ms) name.
Proof.
  intros [A B C]. unfold roleHash. destruct (roleHashes h !! name) as [x|] eqn:E.
  { split; [by split|]. symmetry. by apply A. }
  destruct (RoleRevisionHash (desired ms) name) as [x|] eqn:E'.
  - split; [|done]. split; [|done|done]. cbn. intros n y. rewrite lookup_insert_Some. intros [[<- <-]|[_ Hn]]; [done|by apply A].
  - split; [by apply agrees_record|done].
Qed.

Lemma roleHash_snapshots ms h name : snapshots (roleHash ms h name).2 = snapshots h.
Proof. unfold roleHash. destruct (roleHashes h !! name); [done|]. by destruct (RoleRevisionHash _ _). Qed.

Lemma compareSnapshot_snapshots ms h w revision roleName hash : snapshots (compareSnapshot ms h w revision roleName hash).2 = snapshots h.
Proof.
  unfold compareSnapshot. destruct (findRole w roleName) as [role|]; [|done]. destruct (RoleRevisionHash w roleName); [|done]. by destruct (EqualRoleRevisions _ _ _ _ _).
Qed.

Lemma compareSnapshot_agrees snap ms h w revision roleName hash : agrees snap ms h -> snap revision = Some w ->
  RoleRevisionHash (desired ms) roleName = Some hash ->
  agrees snap ms (compareSnapshot ms h w revision roleName hash).2 /\ (compareSnapshot ms h w revision roleName hash).1 = comparedTo snap ms revision roleName.
Proof.
  intros Hag Hw He. unfold compareSnapshot, comparedTo. rewrite He, Hw. destruct (findRole w roleName) as [role|] eqn:Ef; [|split; [by apply agrees_record|done]].
  destruct (RoleRevisionHash w roleName) as [hash'|] eqn:Er; [|split; [by apply agrees_record|done]].
  destruct (EqualRoleRevisions hash' hash w (desired ms) roleName) as [equal|] eqn:Eq; [|split; [by apply agrees_record|done]].
  split; [|done]. destruct Hag as [A B C]. split; [done|done|]. cbn. intros r n c. rewrite lookup_insert_Some.
  intros [[[= <- <-] <-]|[_ Hc]]; [|by apply C]. unfold comparedTo. by rewrite He, Hw, Ef, Er, Eq.
Qed.

Lemma compareRoleTemplate_extends ms fetch listed h group roleName observed : extends fetch h (compareRoleTemplate ms fetch listed h group roleName observed).2.
Proof.
  unfold compareRoleTemplate. destruct (findRole (desired ms) roleName) as [role|]; [|done]. destruct (observedRole ms listed group roleName observed) as [live|]; [|done].
  pose proof (roleHash_snapshots ms h roleName) as Hs. destruct (roleHash ms h roleName) as [[hash|] h1]; cbn [fst snd] in *;
    assert (extends fetch h h1) by (by apply extends_same); [|done].
  destruct (roleComparisons h1 !! _); [done|]. pose proof (workload_extends fetch h1 (observedRevision group live)) as [Hx _].
  destruct (workload fetch h1 _) as [[w|] h2]; cbn [fst snd] in *; [|by etrans]. etrans; [done|]. etrans; [done|]. by apply extends_same, compareSnapshot_snapshots.
Qed.

(** A comparison answers by the snapshot its revision has for the whole
    reconcile, remembered or not. *)
Lemma compareRoleTemplate_meaning snap ms fetch listed h group roleName observed :
  agrees snap ms h -> fits snap (compareRoleTemplate ms fetch listed h group roleName observed).2 ->
  agrees snap ms (compareRoleTemplate ms fetch listed h group roleName observed).2 /\
  (compareRoleTemplate ms fetch listed h group roleName observed).1 = roleMeaning snap ms listed group roleName observed.
Proof.
  intros Hag. unfold compareRoleTemplate, roleMeaning. destruct (findRole (desired ms) roleName) as [role|]; [|done].
  destruct (observedRole ms listed group roleName observed) as [live|]; [|done].
  destruct (roleHash_agrees snap ms h roleName Hag) as [Hag1 Eh]. destruct (roleHash ms h roleName) as [hash h1]; cbn [fst snd] in *. subst hash.
  destruct (RoleRevisionHash (desired ms) roleName) as [expected|] eqn:Ee.
  2: { intros _. split; [done|]. unfold comparedTo. by rewrite Ee. }
  destruct (roleComparisons h1 !! (observedRevision group live, roleName)) as [memo|] eqn:Em.
  { intros _. split; [done|]. symmetry. by apply (agrees_comparisons _ _ _ Hag1). }
  pose proof (workload_agrees snap ms fetch h1 (observedRevision group live) Hag1) as Hw.
  destruct (workload fetch h1 _) as [[w|] h2]; cbn [fst snd] in *.
  - intros Hf. assert (Hf2 : fits snap h2) by (intros r x Hr; apply Hf; by rewrite compareSnapshot_snapshots).
    destruct (Hw Hf2) as [Hag2 Es]. by apply compareSnapshot_agrees.
  - intros Hf. destruct (Hw Hf) as [Hag2 Es]. split; [done|]. unfold comparedTo. by rewrite Ee, <- Es.
Qed.

(** The comparisons of the instances put together. *)
Definition verdictOf (ms : ModelServing) (cs : list templateComparison) (obsolete : option bool) : templateComparison :=
  if roleMode ms then
    if bool_decide (templateDifferent ∈ cs) then templateDifferent
    else match obsolete with
         | None => templateUnknown
         | Some true => templateDifferent
         | Some false => if bool_decide (templateUnknown ∈ cs) then templateUnknown else templateEquivalent
         end
  else default templateEquivalent (head (filter (.≠ templateEquivalent) cs)).

Definition hasObsolete (ms : ModelServing) (s : store) (group : ServingGroup) : option bool :=
  match GetRolesByGroup s (servingKey ms) (GroupName group) with
  | inl observedRoles => Some (existsb (fun '(name, instances) => obsoleteRole ms name instances) (map_to_list observedRoles))
  | inr _ => None
  end.

(** What the group revision alone decides. *)
Definition revisionMeaning (snap : string -> option Workload) (ms : ModelServing) (group : ServingGroup) (targetRevision : string) : option templateComparison :=
  if roleMode ms || bool_decide (GroupRevision group = targetRevision) then None
  else if bool_decide (length (Roles (desired ms)) = 0%nat) then Some templateDifferent
  else match snap (GroupRevision group) with
       | None => Some templateUnknown
       | Some w => match EqualModelServingRevisions (GroupRevision group) targetRevision w (desired ms) with
                   | None => Some templateUnknown
                   | Some equal => if equal : bool then None else Some templateDifferent
                   end
       end.

Definition groupMeaning (snap : string -> option Workload) (ms : ModelServing) (listed : option (list Pod)) (s : store) (group : ServingGroup) (targetRevision : string) : templateComparison :=
  match revisionMeaning snap ms group targetRevision with
  | Some comparison => comparison
  | None =>
    match observedInstances ms s group with
    | None => templateUnknown
    | Some l => verdictOf ms ((fun '(name, observed) => roleMeaning snap ms listed group name observed) <$> l) (hasObsolete ms s group)
    end
  end.

(** The part of [verdictOf] that the loops compute. *)
Definition loopMeaning (ms : ModelServing) (cs : list templateComparison) (unknown : bool) : templateComparison + bool :=
  if roleMode ms then if bool_decide (templateDifferent ∈ cs) then inl templateDifferent else inr (unknown || bool_decide (templateUnknown ∈ cs))
  else match head (filter (.≠ templateEquivalent) cs) with Some c => inl c | None => inr unknown end.

Lemma loopMeaning_cons ms c cs unknown : loopMeaning ms (c :: cs) unknown =
  if roleMode ms && bool_decide (c = templateUnknown) then loopMeaning ms cs true
  else if bool_decide (c = templateEquivalent) then loopMeaning ms cs unknown else inl c.
Proof.
  unfold loopMeaning. destruct (roleMode ms); cbn [andb].
  - destruct c; cbn [bool_decide]; repeat case_bool_decide; try done; try (exfalso; set_solver); try set_solver; destruct unknown; try done; exfalso; set_solver.
  - rewrite filter_cons. destruct c; simpl; done.
Qed.

Lemma loopMeaning_app ms cs ds unknown : loopMeaning ms (cs ++ ds) unknown =
  match loopMeaning ms cs unknown with inl c => inl c | inr unknown => loopMeaning ms ds unknown end.
Proof.
  revert unknown. induction cs as [|c cs IH]; intros unknown.
  - unfold loopMeaning at 2. destruct (roleMode ms); [|done]. rewrite bool_decide_false by set_solver. rewrite bool_decide_false by set_solver. by rewrite orb_false_r.
  - rewrite <- app_comm_cons, !loopMeaning_cons, !IH. destruct (_ && _); [done|]. by case_bool_decide.
Qed.

Lemma compareInstances_extends ms fetch listed group roleName l : forall h unknown, extends fetch h (compareInstances ms fetch listed group roleName l h unknown).2.
Proof.
  induction l as [|observed l IH]; intros h unknown; cbn [compareInstances]; [done|].
  pose proof (compareRoleTemplate_extends ms fetch listed h group roleName observed) as Hx.
  destruct (compareRoleTemplate ms fetch listed h group roleName observed) as [c h1]. cbn [fst snd] in Hx.
  destruct (_ && _); [by etrans|]. case_bool_decide; [by etrans|done].
Qed.

Lemma compareInstances_meaning snap ms fetch listed group roleName l : forall h unknown,
  agrees snap ms h -> fits snap (compareInstances ms fetch listed group roleName l h unknown).2 ->
  agrees snap ms (compareInstances ms fetch listed group roleName l h unknown).2 /\
  (compareInstances ms fetch listed group roleName l h unknown).1 = loopMeaning ms (roleMeaning snap ms listed group roleName <$> l) unknown.
Proof.
  induction l as [|observed l IH]; intros h unknown Hag; cbn [compareInstances].
  { intros _. split; [done|]. rewrite fmap_nil. unfold loopMeaning. destruct (roleMode ms); [|done].
    rewrite bool_decide_false by set_solver. rewrite bool_decide_false by set_solver. by rewrite orb_false_r. }
  rewrite fmap_cons, loopMeaning_cons.
  pose proof (compareRoleTemplate_meaning snap ms fetch listed h group roleName observed Hag) as Hc.
  destruct (compareRoleTemplate ms fetch listed h group roleName observed) as [c h1]. cbn [fst snd] in Hc.
  assert (Hrest : forall u, fits snap (compareInstances ms fetch listed group roleName l h1 u).2 -> fits snap h1)
    by (intros u; eapply fits_extends, compareInstances_extends).
  destruct (roleMode ms && bool_decide (c = templateUnknown)) eqn:Eu.
  { intros Hf. destruct (Hc (Hrest _ Hf)) as [Hag1 <-]. rewrite Eu. by apply IH. }
  destruct (bool_decide (c = templateEquivalent)) eqn:Ee.
  { intros Hf. destruct (Hc (Hrest _ Hf)) as [Hag1 <-]. rewrite Eu, Ee. by apply IH. }
  intros Hf. destruct (Hc Hf) as [Hag1 <-]. by rewrite Eu, Ee.
Qed.

(** [GetRoleList] fails for every role of the group or for none. *)
Lemma GetRoleList_error s ms group role role' e : GetRoleList s ms group role = inr e -> exists e', GetRoleList s ms group role' = inr e'.
Proof.
  unfold GetRoleList. destruct (s !! ms) as [groups|]; [|by eexists]. destruct (groups !! group) as [g|]; [|by eexists]. by destruct (roles g !! role).
Qed.

Definition rolePairs (ms : ModelServing) (s : store) (group : ServingGroup) (role : RoleTemplate) : option (list (string * Role)) :=
  match GetRoleList s (servingKey ms) (GroupName group) (templateName role) with
  | inl l => Some (pair (templateName role) <$> l)
  | inr _ => None
  end.

Lemma compareRoles_extends ms fetch listed s group l : forall h unknown, extends fetch h (compareRoles ms fetch listed s group l h unknown).2.
Proof.
  induction l as [|role l IH]; intros h unknown; cbn [compareRoles]; [done|].
  destruct (GetRoleList s _ _ _) as [instances|]; [|apply extends_record].
  pose proof (compareInstances_extends ms fetch listed group (templateName role) instances h unknown) as Hx.
  destruct (compareInstances ms fetch listed group (templateName role) instances h unknown) as [[c|u] h1]; cbn [fst snd] in Hx; [done|by etrans].
Qed.

Lemma compareRoles_meaning snap ms fetch listed s group l : forall h unknown,
  agrees snap ms h -> fits snap (compareRoles ms fetch listed s group l h unknown).2 ->
  agrees snap ms (compareRoles ms fetch listed s group l h unknown).2 /\
  (compareRoles ms fetch listed s group l h unknown).1 =
    match mapM (rolePairs ms s group) l with
    | None => inl templateUnknown
    | Some ls => loopMeaning ms ((fun '(name, observed) => roleMeaning snap ms listed group name observed) <$> mjoin ls) unknown
    end.
Proof.
  induction l as [|role l IH]; intros h unknown Hag; cbn [compareRoles mapM].
  { intros _. split; [done|]. cbn. unfold loopMeaning. destruct (roleMode ms); [|done].
    rewrite bool_decide_false by set_solver. rewrite bool_decide_false by set_solver. by rewrite orb_false_r. }
  destruct (GetRoleList s (servingKey ms) (GroupName group) (templateName role)) as [instances|e] eqn:Eg.
  2: { intros _. split; [by apply agrees_record|]. assert (Ep : rolePairs ms s group role = None) by (unfold rolePairs; by rewrite Eg). by rewrite Ep. }
  assert (Ep : rolePairs ms s group role = Some (pair (templateName role) <$> instances)) by (unfold rolePairs; by rewrite Eg). rewrite Ep.
  cbn [mbind option_bind].
  pose proof (compareInstances_meaning snap ms fetch listed group (templateName role) instances h unknown Hag) as Hc.
  destruct (compareInstances ms fetch listed group (templateName role) instances h unknown) as [r h1] eqn:Ei. cbn [fst snd] in Hc.
  assert (Emap : (fun '(name, observed) => roleMeaning snap ms listed group name observed) <$> (pair (templateName role) <$> instances) =
    roleMeaning snap ms listed group (templateName role) <$> instances) by (rewrite <- list_fmap_compose; done).
  assert (Hsome : forall l', exists ls, mapM (rolePairs ms s group) l' = Some ls).
  { induction l' as [|x l' [ls IHl]]; cbn [mapM]; [by eexists|].
    destruct (rolePairs ms s group x) as [k|] eqn:E; [rewrite IHl; by eexists|]. unfold rolePairs in E.
    destruct (GetRoleList s (servingKey ms) (GroupName group) (templateName x)) as [k|e] eqn:E1; [done|].
    destruct (GetRoleList_error _ _ _ _ (templateName role) _ E1) as [e' E']. congruence. }
  destruct (Hsome l) as [ls Els]. rewrite Els in IH |- *. cbn [mbind option_bind mret option_ret mjoin list_join]. rewrite fmap_app, Emap, loopMeaning_app.
  destruct r as [c|u].
  - intros Hf. destruct (Hc Hf) as [Hag1 <-]. done.
  - intros Hf. destruct (Hc (fits_extends _ _ _ _ (compareRoles_extends ms fetch listed s group l h1 u) Hf)) as [Hag1 <-]. by apply IH.
Qed.

Lemma compareRevision_extends ms fetch h group target : extends fetch h (compareRevision ms fetch h group target).2.
Proof.
  unfold compareRevision. destruct (_ || _); [done|]. case_bool_decide; [done|].
  pose proof (workload_extends fetch h (GroupRevision group)) as [Hw _]. destruct (workload fetch h _) as [[w|] h1]; [|done].
  destruct (EqualModelServingRevisions _ _ _ _); [done|]. by etrans; [|apply extends_record].
Qed.

Lemma compareRevision_meaning snap ms fetch h group target : agrees snap ms h -> fits snap (compareRevision ms fetch h group target).2 ->
  agrees snap ms (compareRevision ms fetch h group target).2 /\ (compareRevision ms fetch h group target).1 = revisionMeaning snap ms group target.
Proof.
  intros Hag. unfold compareRevision, revisionMeaning. destruct (_ || _); [done|]. case_bool_decide; [done|].
  pose proof (workload_agrees snap ms fetch h (GroupRevision group) Hag) as Hw. destruct (workload fetch h _) as [[w|] h1]; cbn [fst snd] in *.
  - intros Hf. destruct Hw as [Hag1 <-]; [intros rev x Hr; apply Hf; by destruct (EqualModelServingRevisions _ _ _ _)|].
    destruct (EqualModelServingRevisions _ _ _ _); [done|]. split; [by apply agrees_record|done].
  - intros Hf. destruct (Hw Hf) as [Hag1 <-]. done.
Qed.

Lemma compareServingGroupTemplate_extends ms fetch listed s h group target : extends fetch h (compareServingGroupTemplate ms fetch listed s h group target).2.
Proof.
  unfold compareServingGroupTemplate. pose proof (compareRevision_extends ms fetch h group target) as Hx.
  destruct (compareRevision ms fetch h group target) as [[c|] h1]; cbn [fst snd] in *; [done|].
  pose proof (compareRoles_extends ms fetch listed s group (Roles (desired ms)) h1 false) as Hy.
  destruct (compareRoles _ _ _ _ _ _ _ _) as [[c|u] h2]; cbn [fst snd] in *; [by etrans|]. assert (extends fetch h h2) by by etrans.
  destruct (roleMode ms); [|by etrans]. destruct (GetRolesByGroup _ _ _); [|by etrans; [|apply extends_record]]. by destruct (existsb _ _).
Qed.

(** The comparison of a group means what the snapshots of the reconcile say. *)
Lemma compareServingGroupTemplate_meaning snap ms fetch listed s h group target : agrees snap ms h ->
  fits snap (compareServingGroupTemplate ms fetch listed s h group target).2 ->
  agrees snap ms (compareServingGroupTemplate ms fetch listed s h group target).2 /\
  (compareServingGroupTemplate ms fetch listed s h group target).1 = groupMeaning snap ms listed s group target.
Proof.
  intros Hag. unfold compareServingGroupTemplate, groupMeaning.
  pose proof (compareRevision_meaning snap ms fetch h group target Hag) as Hr.
  destruct (compareRevision ms fetch h group target) as [early h1]. cbn [fst snd] in Hr. destruct early as [c|].
  { intros Hf. destruct (Hr Hf) as [Hag1 <-]. done. }
  pose proof (compareRoles_meaning snap ms fetch listed s group (Roles (desired ms)) h1 false) as Hc.
  pose proof (compareRoles_extends ms fetch listed s group (Roles (desired ms)) h1 false) as Hx.
  unfold observedInstances. change (fun role : RoleTemplate => _) with (rolePairs ms s group).
  destruct (compareRoles ms fetch listed s group (Roles (desired ms)) h1 false) as [r h2]. cbn [fst snd] in Hc, Hx.
  set (R := match r with inl _ => _ | inr _ => _ end). intros Hf.
  assert (Hf2 : fits snap h2). { intros k x Hk. apply Hf. unfold R. destruct r as [c|u]; [done|]. destruct (roleMode ms); [|done].
    destruct (GetRolesByGroup _ _ _); [|done]. by destruct (existsb _ _). }
  destruct (Hr (fits_extends _ _ _ _ Hx Hf2)) as [Hag1 <-]. destruct (Hc Hag1 Hf2) as [Hag2 Er]. clear Hf.
  destruct (mapM (rolePairs ms s group) (Roles (desired ms))) as [ls|] eqn:El; cbn [fmap option_fmap option_map].
  2: { unfold R. rewrite Er. done. }
  set (cs := _ <$> mjoin ls) in *. unfold R, verdictOf, hasObsolete. rewrite Er. unfold loopMeaning. destruct (roleMode ms).
  - destruct (bool_decide (templateDifferent ∈ cs)); [done|]. cbn [orb]. destruct (GetRolesByGroup _ _ _) as [observed|e]; [|split; [by apply agrees_record|done]].
    by destruct (existsb _ _).
  - by destruct (head _).
Qed.

(** ** A reading of history

    [snap] assigns to every revision what the history holds of it, and to the
    others what they resolve to now. *)
Record consistent (snap : string -> option Workload) (ms : ModelServing) (fetch : string -> option Workload) (h : revisionHistory) : Prop := {
  consistent_agrees : agrees snap ms h;
  consistent_snap r : snap r = default (resolve fetch r) (snapshots h !! r);
}.

Lemma consistent_new ms fetch : consistent (resolve fetch) ms fetch newHistory.
Proof. split; [split; cbn; [done|intros r w Hr; done|done]|done]. Qed.

Lemma consistent_fits snap ms fetch h h' : consistent snap ms fetch h -> extends fetch h h' -> fits snap h'.
Proof.
  intros [Hag Hs] [X1 X2] r w Hr. rewrite Hs. destruct (snapshots h !! r) as [w0|] eqn:E; cbn.
  - pose proof (lookup_weaken _ _ _ _ E X1). congruence.
  - destruct (X2 _ _ Hr); congruence.
Qed.

Lemma consistent_extends snap ms fetch h h' : consistent snap ms fetch h -> extends fetch h h' -> agrees snap ms h' -> consistent snap ms fetch h'.
Proof.
  intros Hc Hx Hag. split; [done|]. intros r. pose proof (consistent_fits _ _ _ _ _ Hc Hx) as Hf. destruct (snapshots h' !! r) as [w|] eqn:E; cbn.
  - by apply Hf.
  - rewrite (consistent_snap _ _ _ _ Hc). destruct (snapshots h !! r) as [w|] eqn:E'; [|done]. destruct Hx as [X1 _].
    pose proof (lookup_weaken _ _ _ _ E' X1). congruence.
Qed.

Lemma consistent_workload snap ms fetch h revision : consistent snap ms fetch h ->
  consistent snap ms fetch (workload fetch h revision).2 /\ (workload fetch h revision).1 = snap revision.
Proof.
  intros Hc. destruct (workload_extends fetch h revision) as [Hx _].
  destruct (workload_agrees snap ms fetch h revision) as [Hag E]; [apply Hc|by eapply consistent_fits|]. split; [|done]. by eapply consistent_extends.
Qed.

Lemma consistent_group snap ms fetch listed s h group target : consistent snap ms fetch h ->
  consistent snap ms fetch (compareServingGroupTemplate ms fetch listed s h group target).2 /\
  (compareServingGroupTemplate ms fetch listed s h group target).1 = groupMeaning snap ms listed s group target.
Proof.
  intros Hc. pose proof (compareServingGroupTemplate_extends ms fetch listed s h group target) as Hx.
  destruct (compareServingGroupTemplate_meaning snap ms fetch listed s h group target) as [Hag E]; [apply Hc|by eapply consistent_fits|].
  split; [|done]. by eapply consistent_extends.
Qed.

(** ** One reconcile *)

Inductive query :=
| QueryRole (listed : option (list Pod)) (group : ServingGroup) (roleName : string) (observed : Role)
| QueryGroup (listed : option (list Pod)) (s : store) (group : ServingGroup) (targetRevision : string).

Definition ask (ms : ModelServing) (fetch : string -> option Workload) (h : revisionHistory) (q : query) : templateComparison * revisionHistory :=
  match q with
  | QueryRole listed group roleName observed => compareRoleTemplate ms fetch listed h group roleName observed
  | QueryGroup listed s group target => compareServingGroupTemplate ms fetch listed s h group target
  end.

Definition meaning (snap : string -> option Workload) (ms : ModelServing) (q : query) : templateComparison :=
  match q with
  | QueryRole listed group roleName observed => roleMeaning snap ms listed group roleName observed
  | QueryGroup listed s group target => groupMeaning snap ms listed s group target
  end.

Fixpoint askAll (ms : ModelServing) (qs : list ((string -> option Workload) * query)) (h : revisionHistory) : list templateComparison * revisionHistory :=
  match qs with
  | [] => ([], h)
  | (fetch, q) :: qs => let '(c, h) := ask ms fetch h q in let '(cs, h) := askAll ms qs h in (c :: cs, h)
  end.

Lemma ask_extends ms fetch h q : extends fetch h (ask ms fetch h q).2.
Proof. destruct q; [apply compareRoleTemplate_extends|apply compareServingGroupTemplate_extends]. Qed.

(** Every snapshot was read for one of the queries. *)
Lemma askAll_extends ms qs : forall h, snapshots h ⊆ snapshots (askAll ms qs h).2 /\
  forall r w, snapshots (askAll ms qs h).2 !! r = Some w -> snapshots h !! r = Some w \/ exists fetch q, (fetch, q) ∈ qs /\ w = resolve fetch r.
Proof.
  induction qs as [|[fetch q] qs IH]; intros h; cbn [askAll]; [split; [done|by left]|].
  pose proof (ask_extends ms fetch h q) as [H1 H2]. destruct (ask ms fetch h q) as [c h1]. cbn [fst snd] in *. destruct (IH h1) as [I1 I2].
  destruct (askAll ms qs h1). cbn [fst snd] in *. split; [by etrans|]. intros rev x Hr. destruct (I2 rev x Hr) as [Hr1|(f & q' & Hin & ->)].
  - destruct (H2 _ _ Hr1) as [?| ->]; [by left|]. right. exists fetch, q. split; [by left|done].
  - right. exists f, q'. split; [by right|done].
Qed.

Lemma askAll_meaning snap ms qs : forall h, agrees snap ms h -> fits snap (askAll ms qs h).2 ->
  (askAll ms qs h).1 = (fun '(_, q) => meaning snap ms q) <$> qs.
Proof.
  induction qs as [|[fetch q] qs IH]; intros h Hag; cbn [askAll]; [done|].
  assert (Hm : fits snap (ask ms fetch h q).2 -> agrees snap ms (ask ms fetch h q).2 /\ (ask ms fetch h q).1 = meaning snap ms q)
    by (destruct q; [by apply compareRoleTemplate_meaning|by apply compareServingGroupTemplate_meaning]).
  destruct (ask ms fetch h q) as [c h1]. cbn [fst snd] in Hm. pose proof (askAll_extends ms qs h1) as [Hx _]. specialize (IH h1).
  destruct (askAll ms qs h1) as [cs h2]. cbn [fst snd] in *. intros Hf. destruct (Hm (fun r w Hr => Hf r w (lookup_weaken _ _ _ _ Hr Hx))) as [Hag1 ->].
  rewrite fmap_cons. f_equal. by apply IH.
Qed.

(** Why a template may count as different: the role is not desired, or its
    revision was resolved and compared. *)
Definition roleEvidence (snap : string -> option Workload) (ms : ModelServing) (listed : option (list Pod)) (group : ServingGroup) (roleName : string) (observed : Role) : Prop :=
  findRole (desired ms) roleName = None \/
  exists live w hash expected, observedRole ms listed group roleName observed = Some live /\ snap (observedRevision group live) = Some w /\
    is_Some (findRole w roleName) /\ RoleRevisionHash w roleName = Some hash /\ RoleRevisionHash (desired ms) roleName = Some expected /\
    EqualRoleRevisions hash expected w (desired ms) roleName = Some false.

Definition evidence (snap : string -> option Workload) (ms : ModelServing) (q : query) : Prop :=
  match q with
  | QueryRole listed group roleName observed => roleEvidence snap ms listed group roleName observed
  | QueryGroup listed s group target =>
    (roleMode ms = false /\ GroupRevision group <> target /\ (Roles (desired ms) = [] \/
       exists w, snap (GroupRevision group) = Some w /\ EqualModelServingRevisions (GroupRevision group) target w (desired ms) = Some false)) \/
    (exists l role observed, observedInstances ms s group = Some l /\ (role, observed) ∈ l /\ roleEvidence snap ms listed group role observed) \/
    (roleMode ms = true /\ hasObsolete ms s group = Some true)
  end.

Lemma comparedTo_different snap ms revision roleName : comparedTo snap ms revision roleName = templateDifferent ->
  exists w hash expected, snap revision = Some w /\ is_Some (findRole w roleName) /\ RoleRevisionHash w roleName = Some hash /\
    RoleRevisionHash (desired ms) roleName = Some expected /\ EqualRoleRevisions hash expected w (desired ms) roleName = Some false.
Proof.
  unfold comparedTo. destruct (RoleRevisionHash (desired ms) roleName) as [expected|] eqn:Ee; [|done]. destruct (snap revision) as [w|] eqn:Ew; [|done].
  destruct (findRole w roleName) eqn:Ef; [|done]. destruct (RoleRevisionHash w roleName) as [hash|] eqn:Eh; [|done].
  destruct (EqualRoleRevisions hash expected w (desired ms) roleName) as [[]|] eqn:Eq; [done| |done]. intros _. exists w, hash, expected.
  split; [done|]. split; [by eexists|done].
Qed.

Lemma roleMeaning_different snap ms listed group roleName observed :
  roleMeaning snap ms listed group roleName observed = templateDifferent -> roleEvidence snap ms listed group roleName observed.
Proof.
  unfold roleMeaning, roleEvidence. destruct (findRole (desired ms) roleName); [|by left].
  destruct (observedRole ms listed group roleName observed) as [live|]; [|done]. intros Hc. right.
  apply comparedTo_different in Hc as (w & hash & expected & ?). by exists live, w, hash, expected.
Qed.

Lemma verdictOf_different ms cs obsolete : verdictOf ms cs obsolete = templateDifferent ->
  templateDifferent ∈ cs \/ (roleMode ms = true /\ obsolete = Some true).
Proof.
  unfold verdictOf. destruct (roleMode ms).
  - case_bool_decide; [by left|]. destruct obsolete as [[]|]; [by right| |done]. by case_bool_decide.
  - intros Hh. left. destruct (filter _ cs) as [|c l] eqn:E; [done|]. cbn in Hh. subst c.
    assert (Hin : templateDifferent ∈ filter (.≠ templateEquivalent) cs) by (rewrite E; by left). by apply list_elem_of_filter in Hin as [_ ?].
Qed.

Lemma meaning_different snap ms q : meaning snap ms q = templateDifferent -> evidence snap ms q.
Proof.
  destruct q as [listed group roleName observed|listed s group target]; cbn [meaning evidence]; [apply roleMeaning_different|].
  unfold groupMeaning. destruct (revisionMeaning snap ms group target) as [c|] eqn:Er.
  - intros ->. left. revert Er. unfold revisionMeaning. destruct (roleMode ms); [done|]. cbn [orb]. case_bool_decide; [done|].
    case_bool_decide as El; [intros _; split; [done|]; split; [done|]; left; by apply length_zero_iff_nil|].
    destruct (snap (GroupRevision group)) as [w|]; [|done]. destruct (EqualModelServingRevisions _ _ _ _) as [[]|] eqn:Eq; [done| |done].
    intros _. split; [done|]. split; [done|]. right. by exists w.
  - destruct (observedInstances ms s group) as [l|]; [|done]. intros Hv. right. apply verdictOf_different in Hv as [Hin|?]; [|by right].
    left. apply list_elem_of_fmap in Hin as ([role observed] & Hm & Hin). exists l, role, observed. split; [done|]. split; [done|].
    by apply roleMeaning_different.
Qed.

(** C9: all comparisons of a reconcile are answered as by one assignment of
    snapshots to revisions, although every lookup may find another answer of
    the API server and most of them are remembered: a revision has one meaning
    for the whole reconcile, which one of its lookups read. And whatever could
    not be resolved is never called different: an answer that allows a
    replacement rests on a resolved snapshot that compares unequal or on a role
    that is not desired. *)
Theorem reconcile_sees_one_history ms qs : exists snap : string -> option Workload,
  (askAll ms qs newHistory).1 = (fun '(_, q) => meaning snap ms q) <$> qs /\
  (forall r, is_Some (snap r) -> exists fetch q, (fetch, q) ∈ qs /\ snap r = resolve fetch r) /\
  (forall i q, qs !! i = Some q -> (askAll ms qs newHistory).1 !! i = Some templateDifferent -> evidence snap ms q.2).
Proof.
  set (h := (askAll ms qs newHistory).2). exists (fun r => default None (snapshots h !! r)).
  assert (Hm : (askAll ms qs newHistory).1 = (fun '(_, q) => meaning (fun r => default None (snapshots h !! r)) ms q) <$> qs).
  { apply askAll_meaning; [|intros r w Hr; unfold h; by rewrite Hr]. split; cbn; [done|intros r w Hr; done|done]. }
  split; [done|]. split.
  - intros r [w Hw]. destruct (snapshots h !! r) as [w'|] eqn:E; [|done]. cbn in Hw. subst w'.
    destruct (askAll_extends ms qs newHistory) as [_ Hx]. destruct (Hx r _ E) as [Hr|(fetch & q & Hin & Hq)]; [done|].
    by exists fetch, q.
  - intros i [fetch q] Hq. rewrite Hm, list_lookup_fmap, Hq. cbn. intros [= Hd]. by apply meaning_different.
Qed.
End history.

(** Templates whose hash is the size of their workers, for the witnesses. *)
Definition plainWorkloads : Workloads := {|
  Workload := list RoleTemplate;
  Roles := id;
  RoleRevisionHash := fun w name => Itoa ∘ WorkerReplicas <$> findName templateName name w;
  EqualRoleRevisions := fun l r _ _ _ => Some (bool_decide (l = r));
  EqualModelServingRevisions := fun l r _ _ => Some (bool_decide (l = r));
|}.
