(* ===== verification/Readiness.v ===== *)
(** * pkg/model-serving-controller/controller: readiness of roles and groups

    revision_history.go and model_serving_controller.go: a role instance is
    ready when every member of its applied template is there and ready, a group
    when it has its replicas of every role and all are ready. *)
From S2P Require Import Prelude Names ServingStore ServingPods InPlaceState RevisionHistory.
Local Open Scope Z_scope.

Section readiness.
Context `{Workloads} `{ImageReference}.
Context (ms : ModelServing) (fetch : string -> option Workload).

(** The revision whose template an instance runs. *)
Definition appliedRevision (s : store) (groupName : string) (instance : Role) : string :=
  if roleMode ms then RoleRevision instance else (GetServingGroupRevision s (servingKey ms) groupName).1.

(** The role, its revision and its hash; [None] is an error. *)
Definition appliedRoleTemplate (s : store) (h : revisionHistory) (groupName roleName : string) (instance : Role) :
    option (RoleTemplate * string * string) * revisionHistory :=
  let revision := appliedRevision s groupName instance in
  let '(w, h) := workload fetch h revision in
  (w ← w; role ← findRole w roleName; hash ← RoleRevisionHash w roleName; Some (role, revision, hash), h).

(** The pod belongs to the instance and has its revision. *)
Definition isMember (groupName roleID : string) (role : RoleTemplate) (revision : string) (pod : Pod) : bool :=
  let meta := Meta pod in
  bool_decide (Namespace meta = ServingStore.Namespace (servingKey ms)) && IsOwnedByModelServingWithUID meta (servingUID ms) &&
  bool_decide (label (Labels meta) GroupNameLabelKey = groupName) && bool_decide (label (Labels meta) RoleLabelKey = templateName role) &&
  bool_decide (label (Labels meta) RoleIDKey = roleID) && bool_decide (ObjectRevision meta = revision).

Definition podReadyMember (pod : Pod) : bool :=
  negb (IsTerminating (Meta pod)) && IsRunningAndReady (Status pod) && negb (Updating (StateOf pod) pod).

Definition rolePodsComplete (groupName roleID : string) (role : RoleTemplate) (revision : string) (pods : list Pod) (requireReady : bool) : bool :=
  let members : gmap string Pod := fold_left (fun m pod => if isMember groupName roleID role revision pod then <[PodName (Meta pod) := pod]> m else m) pods ∅ in
  forallb (fun ordinal =>
    match members !! GeneratePodName groupName roleID ordinal with
    | None => false
    | Some pod => negb requireReady || podReadyMember pod
    end) (seqZ 0 (WorkerReplicas role + 1)).

(** The key of the informer's index over role instances. *)
Definition roleIDIndexKey (meta : ObjectMeta) : option string :=
  groupName ← Labels meta !! GroupNameLabelKey; roleName ← Labels meta !! RoleLabelKey; roleID ← Labels meta !! RoleIDKey;
  if bool_decide (groupName = ""%string) || bool_decide (roleName = ""%string) || bool_decide (roleID = ""%string) then None
  else Some (Namespace meta ++ "/" ++ groupName ++ "/" ++ roleName ++ "/" ++ roleID)%string.

Definition groupIndexKey (meta : ObjectMeta) : option string :=
  groupName ← Labels meta !! GroupNameLabelKey; Some (Namespace meta ++ "/" ++ groupName)%string.

Definition getPodsByIndex (cache : list Pod) (index : ObjectMeta -> option string) (value : string) : list Pod :=
  filter (fun pod => index (Meta pod) = Some value) cache.

Definition roleKey (groupName roleName roleID : string) : string :=
  (ServingStore.Namespace (servingKey ms) ++ "/" ++ groupName ++ "/" ++ roleName ++ "/" ++ roleID)%string.

Definition groupKey (groupName : string) : string := (ServingStore.Namespace (servingKey ms) ++ "/" ++ groupName)%string.

(** The pods a check looks at: the live ones under coordination, else the
    informer's; [None] is an error. *)
Definition podsOfRole (cache : list Pod) (listed : option (list Pod)) (groupName roleName roleID : string) : option (list Pod) :=
  if coordinatedObservation ms then
    coordinatedPods ms listed (<[GroupNameLabelKey := groupName]> (<[RoleLabelKey := roleName]> {[ServingPods.RoleIDKey := roleID]}))
  else Some (getPodsByIndex cache roleIDIndexKey (roleKey groupName roleName roleID)).

(** [None] is an error. *)
Definition checkRoleReadyInRound (s : store) (cache : list Pod) (listed : option (list Pod)) (h : revisionHistory) (groupName roleName roleID : string) :
    option bool * revisionHistory :=
  match podsOfRole cache listed groupName roleName roleID, GetRoleList s (servingKey ms) groupName roleName with
  | Some pods, inl instances =>
    match findName ServingStore.RoleName roleID instances with
    | None => (Some false, h)
    | Some instance =>
      if bool_decide (ServingStore.Status instance = RoleDeleting) then (Some false, h)
      else
        match (if coordinatedObservation ms then coordinatedLiveRole ms listed groupName roleName instance else Some (instance, None)) with
        | None => (None, h)
        | Some (live, pod) =>
          if coordinatedObservation ms && negb (bool_decide (is_Some pod)) then (Some false, h)
          else
            let '(applied, h) := appliedRoleTemplate s h groupName roleName live in
            ('(role, revision, _) ← applied; Some (rolePodsComplete groupName roleID role revision pods true), h)
        end
    end
  | _, _ => (None, h)
  end.

(** One instance of a role: running, and ready by its pods. *)
Fixpoint instancesReady (s : store) (cache : list Pod) (listed : option (list Pod)) (groupName roleName : string) (l : list Role) (h : revisionHistory) :
    option bool * revisionHistory :=
  match l with
  | [] => (Some true, h)
  | r :: l =>
    if negb (bool_decide (ServingStore.Status r = RoleRunning)) then (Some false, h)
    else
      match checkRoleReadyInRound s cache listed h groupName roleName (ServingStore.RoleName r) with
      | (Some true, h) => instancesReady s cache listed groupName roleName l h
      | (ready, h) => (ready, h)
      end
  end.

Fixpoint rolesReady (s : store) (cache : list Pod) (listed : option (list Pod)) (groupName : string) (l : list RoleTemplate) (h : revisionHistory) :
    option bool * revisionHistory :=
  match l with
  | [] => (Some true, h)
  | role :: l =>
    match GetRoleList s (servingKey ms) groupName (templateName role) with
    | inr _ => (None, h)
    | inl roleList =>
      if negb (Z.of_nat (length roleList) =? templateReplicas role) then (Some false, h)
      else
        match instancesReady s cache listed groupName (templateName role) roleList h with
        | (Some true, h) => rolesReady s cache listed groupName l h
        | (ready, h) => (ready, h)
        end
    end
  end.

(** The roles a group needs: the desired ones in role mode, else those of the
    revision it runs. *)
Definition rolesForServingGroupReadiness (s : store) (h : revisionHistory) (groupName : string) : option (list RoleTemplate) * revisionHistory :=
  if roleMode ms then (Some (Roles (desired ms)), h)
  else let '(w, h) := workload fetch h (GetServingGroupRevision s (servingKey ms) groupName).1 in (Roles <$> w, h).

Definition checkServingGroupReady (s : store) (cache : list Pod) (listed : option (list Pod)) (h : revisionHistory) (groupName : string) :
    option bool * revisionHistory :=
  match rolesForServingGroupReadiness s h groupName with
  | (None, h) => (None, h)
  | (Some roles, h) => rolesReady s cache listed groupName roles h
  end.

(** ** What ready means *)

(** Every member of the instance's template, each in its own pod. *)
Definition membersReady (groupName roleID : string) (role : RoleTemplate) (revision : string) (pods : list Pod) : Prop :=
  forall ordinal, 0 <= ordinal <= WorkerReplicas role -> exists pod, pod ∈ pods /\
    PodName (Meta pod) = GeneratePodName groupName roleID ordinal /\ isMember groupName roleID role revision pod = true /\ podReadyMember pod = true.

Lemma members_lookup groupName roleID role revision pods name pod :
  fold_left (fun m pod => if isMember groupName roleID role revision pod then <[PodName (Meta pod) := pod]> m else m) pods (∅ : gmap string Pod) !! name = Some pod ->
  pod ∈ pods /\ PodName (Meta pod) = name /\ isMember groupName roleID role revision pod = true.
Proof.
  enough (Hm : forall m : gmap string Pod, fold_left (fun m pod => if isMember groupName roleID role revision pod then <[PodName (Meta pod) := pod]> m else m) pods m !! name = Some pod ->
    m !! name = Some pod \/ (pod ∈ pods /\ PodName (Meta pod) = name /\ isMember groupName roleID role revision pod = true)).
  { intros Hf. by destruct (Hm ∅ Hf). }
  induction pods as [|p pods IH]; intros m; cbn [fold_left]; [by left|]. intros Hf. destruct (IH _ Hf) as [Hm|(? & ? & ?)].
  - destruct (isMember groupName roleID role revision p) eqn:Ep; [|by left]. apply lookup_insert_Some in Hm as [[E <-]|[_ Hm]]; [|by left].
    right. split; [by left|done].
  - right. split; [by right|done].
Qed.

Lemma rolePodsComplete_ready groupName roleID role revision pods :
  rolePodsComplete groupName roleID role revision pods true = true -> membersReady groupName roleID role revision pods.
Proof.
  unfold rolePodsComplete. rewrite forallb_forall. intros Hall ordinal Ho.
  specialize (Hall ordinal). rewrite <- list_elem_of_In, elem_of_seqZ in Hall. specialize (Hall ltac:(lia)).
  destruct (_ !! GeneratePodName groupName roleID ordinal) as [pod|] eqn:E; [|done]. apply members_lookup in E as (? & ? & ?).
  exists pod. by split.
Qed.

(** [snap] is what a revision resolves to. *)
Section meaning.
Context (snap : string -> option Workload).

(** What a check that says yes found: the running instance in the store and the
    pods of the revision it applies, resolved from history. *)
Definition instanceReady (s : store) (cache : list Pod) (listed : option (list Pod)) (groupName roleName roleID : string) : Prop :=
  exists instance live w role revision pods, (exists l, GetRoleList s (servingKey ms) groupName roleName = inl l /\ instance ∈ l) /\
    ServingStore.RoleName instance = roleID /\ ServingStore.Status instance <> RoleDeleting /\
    (if coordinatedObservation ms then exists pod, coordinatedLiveRole ms listed groupName roleName instance = Some (live, Some pod) else live = instance) /\
    podsOfRole cache listed groupName roleName roleID = Some pods /\ revision = appliedRevision s groupName live /\
    snap revision = Some w /\ findRole w roleName = Some role /\ membersReady groupName roleID role revision pods.

(** The answers of the checks, by [snap] alone. *)
Definition roleAnswer (s : store) (cache : list Pod) (listed : option (list Pod)) (groupName roleName roleID : string) : option bool :=
  match podsOfRole cache listed groupName roleName roleID, GetRoleList s (servingKey ms) groupName roleName with
  | Some pods, inl instances =>
    match findName ServingStore.RoleName roleID instances with
    | None => Some false
    | Some instance =>
      if bool_decide (ServingStore.Status instance = RoleDeleting) then Some false
      else
        match (if coordinatedObservation ms then coordinatedLiveRole ms listed groupName roleName instance else Some (instance, None)) with
        | None => None
        | Some (live, pod) =>
          if coordinatedObservation ms && negb (bool_decide (is_Some pod)) then Some false
          else
            w ← snap (appliedRevision s groupName live);
            role ← findRole w roleName;
            _ ← RoleRevisionHash w roleName;
            Some (rolePodsComplete groupName roleID role (appliedRevision s groupName live) pods true)
        end
    end
  | _, _ => None
  end.

Fixpoint instancesAnswer (s : store) (cache : list Pod) (listed : option (list Pod)) (groupName roleName : string) (l : list Role) : option bool :=
  match l with
  | [] => Some true
  | r :: l =>
    if negb (bool_decide (ServingStore.Status r = RoleRunning)) then Some false
    else match roleAnswer s cache listed groupName roleName (ServingStore.RoleName r) with
         | Some true => instancesAnswer s cache listed groupName roleName l
         | answer => answer
         end
  end.

Fixpoint rolesAnswer (s : store) (cache : list Pod) (listed : option (list Pod)) (groupName : string) (l : list RoleTemplate) : option bool :=
  match l with
  | [] => Some true
  | role :: l =>
    match GetRoleList s (servingKey ms) groupName (templateName role) with
    | inr _ => None
    | inl roleList =>
      if negb (Z.of_nat (length roleList) =? templateReplicas role) then Some false
      else match instancesAnswer s cache listed groupName (templateName role) roleList with
           | Some true => rolesAnswer s cache listed groupName l
           | answer => answer
           end
    end
  end.

Definition rolesNeeded (s : store) (groupName : string) : option (list RoleTemplate) :=
  if roleMode ms then Some (Roles (desired ms)) else Roles <$> snap (GetServingGroupRevision s (servingKey ms) groupName).1.

Definition groupAnswer (s : store) (cache : list Pod) (listed : option (list Pod)) (groupName : string) : option bool :=
  rolesNeeded s groupName ≫= rolesAnswer s cache listed groupName.

Lemma checkRoleReady_answer s cache listed h groupName roleName roleID : consistent snap ms fetch h ->
  consistent snap ms fetch (checkRoleReadyInRound s cache listed h groupName roleName roleID).2 /\
  (checkRoleReadyInRound s cache listed h groupName roleName roleID).1 = roleAnswer s cache listed groupName roleName roleID.
Proof.
  intros Hh. unfold checkRoleReadyInRound, roleAnswer. destruct (podsOfRole _ _ _ _ _) as [pods|]; [|done].
  destruct (GetRoleList _ _ _ _) as [instances|]; [|done]. destruct (findName _ _ _) as [instance|]; [|done].
  case_bool_decide; [done|]. destruct (if coordinatedObservation ms then _ else _) as [[live pod]|]; [|done].
  destruct (coordinatedObservation ms && _); [done|]. unfold appliedRoleTemplate.
  destruct (consistent_workload snap ms fetch h (appliedRevision s groupName live) Hh) as [Hh1 Hw].
  destruct (workload fetch h _) as [w h1]. cbn [fst snd] in *. subst w. split; [done|].
  destruct (snap _) as [w|]; [|done]. cbn. destruct (findRole w roleName); [|done]. cbn. by destruct (RoleRevisionHash w roleName).
Qed.

Lemma instancesReady_answer s cache listed groupName roleName l : forall h, consistent snap ms fetch h ->
  consistent snap ms fetch (instancesReady s cache listed groupName roleName l h).2 /\
  (instancesReady s cache listed groupName roleName l h).1 = instancesAnswer s cache listed groupName roleName l.
Proof.
  induction l as [|x l IH]; intros h Hh; cbn [instancesReady instancesAnswer]; [done|]. case_bool_decide; [cbn [negb]|done].
  destruct (checkRoleReady_answer s cache listed h groupName roleName (ServingStore.RoleName x) Hh) as [Hh1 E].
  destruct (checkRoleReadyInRound _ _ _ _ _ _ _) as [answer h1]. cbn [fst snd] in *. rewrite <- E.
  destruct answer as [[]|]; [by apply IH|done|done].
Qed.

Lemma rolesReady_answer s cache listed groupName l : forall h, consistent snap ms fetch h ->
  consistent snap ms fetch (rolesReady s cache listed groupName l h).2 /\
  (rolesReady s cache listed groupName l h).1 = rolesAnswer s cache listed groupName l.
Proof.
  induction l as [|role l IH]; intros h Hh; cbn [rolesReady rolesAnswer]; [done|].
  destruct (GetRoleList _ _ _ _) as [roleList|]; [|done]. destruct (negb _); [done|].
  destruct (instancesReady_answer s cache listed groupName (templateName role) roleList h Hh) as [Hh1 E].
  destruct (instancesReady _ _ _ _ _ _ _) as [answer h1]. cbn [fst snd] in *. rewrite <- E.
  destruct answer as [[]|]; [by apply IH|done|done].
Qed.

Lemma checkServingGroupReady_answer s cache listed h groupName : consistent snap ms fetch h ->
  consistent snap ms fetch (checkServingGroupReady s cache listed h groupName).2 /\
  (checkServingGroupReady s cache listed h groupName).1 = groupAnswer s cache listed groupName.
Proof.
  intros Hh. unfold checkServingGroupReady, groupAnswer, rolesForServingGroupReadiness, rolesNeeded.
  destruct (roleMode ms); [by apply rolesReady_answer|].
  destruct (consistent_workload snap ms fetch h (GetServingGroupRevision s (servingKey ms) groupName).1 Hh) as [Hh1 Hw].
  destruct (workload fetch h _) as [w h1]. cbn [fst snd] in *. subst w.
  destruct (snap _) as [w|]; cbn; [by apply rolesReady_answer|done].
Qed.

Lemma roleAnswer_true s cache listed groupName roleName roleID :
  roleAnswer s cache listed groupName roleName roleID = Some true -> instanceReady s cache listed groupName roleName roleID.
Proof.
  unfold roleAnswer, instanceReady. destruct (podsOfRole _ _ _ _ _) as [pods|]; [|done].
  destruct (GetRoleList _ _ _ _) as [instances|]; [|done]. destruct (findName _ _ _) as [instance|] eqn:Ef; [|done].
  apply findName_Some in Ef as [Hin Hn]. case_bool_decide as Ed; [done|].
  destruct (if coordinatedObservation ms then _ else _) as [[live pod]|] eqn:El; [|done].
  destruct (coordinatedObservation ms && _) eqn:Ep; [done|].
  destruct (snap _) as [w|] eqn:Ew; cbn [mbind option_bind]; [|done]. destruct (findRole w roleName) as [role|] eqn:Er; cbn [mbind option_bind]; [|done].
  destruct (RoleRevisionHash w roleName); cbn [mbind option_bind]; [|done]. intros [= Hc].
  exists instance, live, w, role, (appliedRevision s groupName live), pods. split; [by exists instances|]. split; [done|]. split; [done|]. split.
  { destruct (coordinatedObservation ms); [|congruence]. destruct pod as [pod|]; [by exists pod|done]. }
  split; [done|]. split; [done|]. split; [done|]. split; [done|]. by apply rolePodsComplete_ready.
Qed.

(** Every role has its number of instances, all running and ready. *)
Definition groupReady (s : store) (cache : list Pod) (listed : option (list Pod)) (groupName : string) (roles : list RoleTemplate) : Prop :=
  forall role, role ∈ roles -> exists l, GetRoleList s (servingKey ms) groupName (templateName role) = inl l /\
    Z.of_nat (length l) = templateReplicas role /\
    forall r, r ∈ l -> ServingStore.Status r = RoleRunning /\ instanceReady s cache listed groupName (templateName role) (ServingStore.RoleName r).

Lemma instancesAnswer_true s cache listed groupName roleName l : instancesAnswer s cache listed groupName roleName l = Some true ->
  forall r, r ∈ l -> ServingStore.Status r = RoleRunning /\ instanceReady s cache listed groupName roleName (ServingStore.RoleName r).
Proof.
  induction l as [|x l IH]; cbn [instancesAnswer]; [by intros _ r Hr%not_elem_of_nil|]. case_bool_decide as Es; [cbn [negb]|done].
  destruct (roleAnswer _ _ _ _ _ _) as [[]|] eqn:Ec; [|done|done]. intros Hl r [->|Hr]%elem_of_cons; [|by apply IH].
  split; [done|by apply roleAnswer_true].
Qed.

Lemma rolesAnswer_true s cache listed groupName l : rolesAnswer s cache listed groupName l = Some true -> groupReady s cache listed groupName l.
Proof.
  induction l as [|role l IH]; cbn [rolesAnswer]; [by intros _ r Hr%not_elem_of_nil|].
  destruct (GetRoleList s _ _ _) as [roleList|] eqn:Eg; [|done]. destruct (Z.eqb_spec (Z.of_nat (length roleList)) (templateReplicas role)) as [El|]; [cbn [negb]|done].
  destruct (instancesAnswer _ _ _ _ _ _) as [[]|] eqn:Ei; [|done|done]. intros Hl x [->|Hx]%elem_of_cons; [|by apply IH].
  exists roleList. split; [done|]. split; [done|]. by apply instancesAnswer_true.
Qed.

Lemma groupAnswer_true s cache listed groupName : groupAnswer s cache listed groupName = Some true ->
  exists roles, rolesNeeded s groupName = Some roles /\ groupReady s cache listed groupName roles.
Proof. unfold groupAnswer. intros (roles & E & Hr)%bind_Some. exists roles. split; [done|by apply rolesAnswer_true]. Qed.
End meaning.
End readiness.
