(* ===== verification/RevisionCleanup.v ===== *)
(** * pkg/model-serving-controller/utils/controller_revision.go: collecting history

    Old ControllerRevisions are deleted once the rollout is over. What the
    status, the store or a pod still refers to is kept. *)
From S2P Require Import Prelude Names ServingStore ServingPods InPlaceState RevisionHistory.
Local Open Scope Z_scope.

Definition GenerateControllerRevisionName (msName revision : string) : string :=
  ((if (223 <? String.length msName)%nat then String.substring 0 223 msName else msName) ++ "-" ++ revision)%string.

Lemma GenerateControllerRevisionName_inj msName a b : GenerateControllerRevisionName msName a = GenerateControllerRevisionName msName b -> a = b.
Proof. unfold GenerateControllerRevisionName. intros H%(inj _). by injection H. Qed.

(** What [unfinishedInPlaceRevision] reads of the annotation. *)
Record inPlaceReference := MkReference {
  refRevision : string;
  refTargetRevision : string;
  refVersion : Z;
  refPhase : string;
  refDone : bool;
}.

Section cleanup.
Context `{Workloads} `{ImageReference}.

(** [json.Unmarshal] of the annotation into that struct; [None] is an error. *)
Context (readReference : rawState -> option inPlaceReference).

Definition unfinishedInPlaceRevision (pod : Pod) : string :=
  match StateAnnotation pod ≫= readReference with
  | None => ""%string
  | Some state =>
    if negb (refVersion state =? 0) || negb (bool_decide (refPhase state = ""%string)) then
      if bool_decide (refPhase state = "Done"%string) then ""%string else refTargetRevision state
    else if refDone state then ""%string else refRevision state
  end.

Context (ms : ModelServing).

Abbreviation revisionName revision := (GenerateControllerRevisionName (ServingStore.Name (servingKey ms)) revision).

Definition controlled (meta : ObjectMeta) : bool :=
  controlledByModelServing meta (ServingStore.Namespace (servingKey ms)) (ServingStore.Name (servingKey ms)) (servingUID ms).

(** The name of a revision that must stay, unless there is none. *)
Definition preserve (revision : string) (names : gset string) : gset string :=
  if bool_decide (revision = ""%string) then names else {[revisionName revision]} ∪ names.

Definition preservePod (names : gset string) (pod : Pod) : gset string :=
  if controlled (Meta pod) then preserve (unfinishedInPlaceRevision pod) (preserve (ObjectRevision (Meta pod)) names) else names.

Definition preservedRevisionNames (currentRevision updateRevision : string) (referencedRevisions : list string) (pods : list Pod) : gset string :=
  fold_left preservePod pods (fold_left (flip preserve) referencedRevisions (preserve updateRevision (preserve currentRevision ∅))).

(** The DELETE requests, each with the UID it is conditional on, for what the
    API server lists; [None] when a list fails. *)
Definition CleanupOldControllerRevisions (currentRevision updateRevision : string) (referencedRevisions : list string)
    (revisions : option (list ObjectMeta)) (pods : option (list Pod)) : option (list (string * string)) :=
  match revisions, pods with
  | Some items, Some live =>
    let preserved := preservedRevisionNames currentRevision updateRevision referencedRevisions live in
    Some ((fun revision => (PodName revision, UID revision)) <$>
            filter (fun revision => controlled revision = true /\ (PodName revision ∉ preserved) /\
                                    (revisionName (label (Labels revision) RevisionLabelKey)) ∉ preserved) items)
  | _, _ => None
  end.

(** ** What is kept *)

(** The object is controlled by exactly this model serving. *)
Definition ofServing (meta : ObjectMeta) : Prop :=
  Namespace meta = ServingStore.Namespace (servingKey ms) /\
  exists o, GetControllerOf meta = Some o /\ OwnerUID o = servingUID ms /\ OwnerName o = ServingStore.Name (servingKey ms) /\
            Kind o = "ModelServing"%string /\ APIVersion o = GroupVersion.

Lemma controlled_spec meta : controlled meta = true <-> ofServing meta.
Proof.
  unfold controlled, controlledByModelServing, ofServing. rewrite andb_true_iff, bool_decide_eq_true.
  destruct (GetControllerOf meta) as [o|]; [|by split; [intros [_ [=]]|intros (_ & o & [=] & _)]].
  rewrite !andb_true_iff, !bool_decide_eq_true. split.
  - intros (H1 & [[H2 H3] H4] & H5). split; [done|]. by exists o.
  - intros (H1 & o' & [= <-] & H2 & H3 & H4 & H5). done.
Qed.

(** The pod is in the middle of an in-place update to the revision; the former
    format of its record has a version and a phase. *)
Definition underway (pod : Pod) (revision : string) : Prop :=
  exists raw ref, StateAnnotation pod = Some raw /\ readReference raw = Some ref /\
    ((refVersion ref <> 0 \/ refPhase ref <> ""%string) /\ refPhase ref <> "Done"%string /\ refTargetRevision ref = revision \/
     (refVersion ref = 0 /\ refPhase ref = ""%string) /\ refDone ref = false /\ refRevision ref = revision).

Lemma unfinishedInPlaceRevision_spec pod revision : revision <> ""%string -> unfinishedInPlaceRevision pod = revision <-> underway pod revision.
Proof.
  intros Hne. unfold unfinishedInPlaceRevision, underway. destruct (StateAnnotation pod) as [raw|]; cbn [mbind option_bind].
  2: { split; [intros <-; done|intros (? & ? & [=] & _)]. }
  destruct (readReference raw) as [ref|] eqn:Er; [|split; [intros <-; done|intros (? & ? & [= <-] & ? & _); congruence]].
  destruct (negb (refVersion ref =? 0) || negb (bool_decide (refPhase ref = ""%string))) eqn:Eb.
  - rewrite orb_true_iff, !negb_true_iff, Z.eqb_neq, bool_decide_eq_false in Eb. split.
    + case_bool_decide as Ed; [intros <-; done|]. intros Hr. exists raw, ref. split; [done|]. split; [done|]. left. done.
    + intros (? & ? & [= <-] & E' & [(_ & Hd & Ht)|([H1 H2] & _)]);
        rewrite Er in E'; injection E' as <-; [by rewrite bool_decide_false|naive_solver].
  - rewrite orb_false_iff, !negb_false_iff, Z.eqb_eq, bool_decide_eq_true in Eb. split.
    + destruct (refDone ref) eqn:Ed; [intros <-; done|]. intros Hr. exists raw, ref. split; [done|]. split; [done|]. right. done.
    + intros (? & ? & [= <-] & E' & [(Hl & _)|(_ & Hd & Ht)]); rewrite Er in E'; injection E' as <-; [naive_solver|by rewrite Hd].
Qed.

(** A revision something refers to. *)
Definition inUse (currentRevision updateRevision : string) (referencedRevisions : list string) (pods : list Pod) (revision : string) : Prop :=
  revision <> ""%string /\
  (revision = currentRevision \/ revision = updateRevision \/ revision ∈ referencedRevisions \/
   exists pod, pod ∈ pods /\ ofServing (Meta pod) /\ (ObjectRevision (Meta pod) = revision \/ underway pod revision)).

Lemma preserve_elem revision names name : name ∈ preserve revision names <-> name ∈ names \/ (revision <> ""%string /\ name = revisionName revision).
Proof. unfold preserve. case_bool_decide; set_solver. Qed.

Lemma preserveAll_elem l : forall names name, name ∈ fold_left (flip preserve) l names <->
  name ∈ names \/ exists revision, revision ∈ l /\ revision <> ""%string /\ name = revisionName revision.
Proof.
  induction l as [|x l IH]; intros names name; cbn [fold_left flip]; [set_solver|]. rewrite IH, preserve_elem. set_solver.
Qed.

Lemma preservePods_elem l : forall names name, name ∈ fold_left preservePod l names <->
  name ∈ names \/ exists revision pod, pod ∈ l /\ controlled (Meta pod) = true /\ revision <> ""%string /\ name = revisionName revision /\
    (ObjectRevision (Meta pod) = revision \/ unfinishedInPlaceRevision pod = revision).
Proof.
  induction l as [|x l IH]; intros names name; cbn [fold_left]; [set_solver|]. rewrite IH. unfold preservePod.
  destruct (controlled (Meta x)) eqn:Ec; rewrite ?preserve_elem; split.
  - intros [[[?|[? ->]]|[? ->]]|(r & p & ? & ? & ? & ? & ?)]; [by left| | |]; right.
    + eexists _, x. split; [by left|]. split; [done|]. split; [done|]. split; [done|by left].
    + eexists _, x. split; [by left|]. split; [done|]. split; [done|]. split; [done|by right].
    + exists r, p. split; [by right|done].
  - intros [?|(r & p & [->|Hp]%elem_of_cons & ? & ? & -> & E)]; [by left; left; left| |right; by exists r, p].
    left. destruct E as [<-|<-]; [left|]; by right.
  - intros [?|(r & p & ? & ? & ? & ? & ?)]; [by left|]. right. exists r, p. split; [by right|done].
  - intros [?|(r & p & [->|Hp]%elem_of_cons & ? & ? & -> & E)]; [by left|congruence|]. right. by exists r, p.
Qed.

Lemma preserved_elem currentRevision updateRevision referencedRevisions pods name :
  name ∈ preservedRevisionNames currentRevision updateRevision referencedRevisions pods <->
  exists revision, inUse currentRevision updateRevision referencedRevisions pods revision /\ name = revisionName revision.
Proof.
  unfold preservedRevisionNames, inUse. rewrite preservePods_elem, preserveAll_elem, !preserve_elem. split.
  - intros [[[[?|[? ->]]|[? ->]]|(r & ? & ? & ->)]|(r & p & Hp & Hc & Hne & -> & E)]; [set_solver| | | |]; eexists; (split; [|done]); (split; [done|]);
      [naive_solver..|]. right. right. right. exists p. rewrite <- controlled_spec, <- unfinishedInPlaceRevision_spec by done. done.
  - intros (r & [Hne [->|[->|[?|(p & Hp & Hc & E)]]]] & ->); [left; left; left; by right|left; left; by right|left; right; by exists r|].
    right. exists r, p. rewrite controlled_spec, unfinishedInPlaceRevision_spec by done. done.
Qed.

(** The fields of the annotation are those [StateOf] reads. *)
Definition sameText (raw : rawState) : Prop := exists ref, readReference raw = Some ref /\
  probe raw = Some (refVersion ref, refPhase ref) /\
  (forall legacy, readLegacy raw = Some legacy -> TargetRevision legacy = refTargetRevision ref /\ LegacyPhase legacy = refPhase ref) /\
  (forall state, readState raw = Some state -> Revision state = refRevision ref /\ Done state = refDone ref).

Lemma unfinished_state pod raw state : StateAnnotation pod = Some raw -> sameText raw -> StateOf pod = Some state ->
  unfinishedInPlaceRevision pod = if Done state then ""%string else Revision state.
Proof.
  intros Ea (ref & Er & Ep & Hl & Hs). unfold StateOf, unfinishedInPlaceRevision. rewrite Ea. cbn [mbind option_bind]. rewrite Ep, Er. cbn [mbind option_bind].
  destruct (_ || _).
  - destruct (readLegacy raw) as [legacy|] eqn:El; [|done]. cbn. intros [= <-]. destruct (Hl _ eq_refl) as [<- <-]. unfold migrateLegacyState.
    case_bool_decide; [done|]. by destruct (map_fold _ _ _).
  - intros Es. destruct (Hs _ Es) as [-> ->]. done.
Qed.

(** C8: the collection of history deletes exactly the ControllerRevisions of
    this model serving that nothing refers to: not the status, not a revision
    the caller names, not the label of a pod of the serving, and not the target
    of its in-place update while that is unfinished, as the updates themselves
    read it, in the current and in the legacy form of the annotation. *)
Theorem cleanup_keeps_references currentRevision updateRevision referencedRevisions revisions pods deleted :
  CleanupOldControllerRevisions currentRevision updateRevision referencedRevisions (Some revisions) (Some pods) = Some deleted ->
  exists victims, deleted = (fun revision => (PodName revision, UID revision)) <$> victims /\ sublist victims revisions /\
    (forall meta, meta ∈ victims <-> meta ∈ revisions /\ ofServing meta /\
       forall revision, inUse currentRevision updateRevision referencedRevisions pods revision ->
         PodName meta <> revisionName revision /\ label (Labels meta) RevisionLabelKey <> revision) /\
    (forall pod raw state, pod ∈ pods -> ofServing (Meta pod) -> StateAnnotation pod = Some raw -> sameText raw ->
       StateOf pod = Some state -> Done state = false -> Revision state <> ""%string ->
       inUse currentRevision updateRevision referencedRevisions pods (Revision state)).
Proof.
  unfold CleanupOldControllerRevisions. cbn [mbind option_bind]. intros [= <-]. eexists. split; [done|]. split; [apply sublist_filter|]. split.
  - intros meta. rewrite list_elem_of_filter, !preserved_elem, controlled_spec. split.
    + intros ((Hc & Hn & Hl) & Hin). split; [done|]. split; [done|]. intros revision Hu. split.
      * intros E. apply Hn. by exists revision.
      * intros <-. apply Hl. by eexists.
    + intros (Hin & Hc & Hu). split; [|done]. split; [done|]. split.
      * intros (revision & Hi & E). by destruct (Hu revision Hi).
      * intros (revision & Hi & E%GenerateControllerRevisionName_inj). by destruct (Hu revision Hi).
  - intros pod raw state Hp Hc Ea Ht Es Ed Hne. split; [done|]. right; right; right. exists pod. split; [done|]. split; [done|]. right.
    apply unfinishedInPlaceRevision_spec; [done|]. rewrite (unfinished_state _ _ _ Ea Ht Es). by rewrite Ed.
Qed.
End cleanup.

(** ** A concrete run *)

#[local] Existing Instance plainReference.
#[local] Existing Instance plainWorkloads.

Definition plainReader (raw : rawState) : option inPlaceReference :=
  match probe raw, readState raw with
  | Some (version, phase), Some state =>
    Some (MkReference (Revision state) (default ""%string (TargetRevision <$> readLegacy raw)) version phase (Done state))
  | _, _ => None
  end.

Definition cleanupServing : ModelServing :=
  MkModelServing _ (MkName "default" "demo") "ms-uid" "1" ([MkRoleTemplate "decode" 1 0] : Workload) false None RoleRecreate None false.

Definition cleanupMeta (name uid revision : string) : ObjectMeta :=
  MkMeta "default" name uid {[RevisionLabelKey := revision]} [MkOwner GroupVersion "ModelServing" "demo" "ms-uid" true] None.

Definition cleanupRevisions : list ObjectMeta :=
  (fun r => cleanupMeta ("demo-" ++ r) ("uid-" ++ r) r)%string <$> ["r0"; "r1"; "r2"; "r3"; "r4"]%string.

(** A pod of r2 that is being updated to r3. *)
Definition updatingPod : Pod :=
  MkPod (cleanupMeta "demo-0-decode-0-0" "u1" "r2") "1" (Some (MkRaw (Some (0, ""%string)) None (Some (MkState "r3" 0 ∅ ∅ false)))) "Always" []
    (MkPodStatus PodRunning [] [] []).

Lemma cleanup_keeps_references_witness :
  CleanupOldControllerRevisions plainReader cleanupServing "r4" "r4" ["r4"]%string (Some cleanupRevisions) (Some [updatingPod]) =
    Some [("demo-r0", "uid-r0"); ("demo-r1", "uid-r1")]%string /\
  inUse plainReader cleanupServing "r4" "r4" ["r4"]%string [updatingPod] "r3".
Proof.
  assert (E : CleanupOldControllerRevisions plainReader cleanupServing "r4" "r4" ["r4"]%string (Some cleanupRevisions) (Some [updatingPod]) =
    Some [("demo-r0", "uid-r0"); ("demo-r1", "uid-r1")]%string) by (vm_compute; reflexivity).
  split; [exact E|].
  destruct (cleanup_keeps_references plainReader cleanupServing "r4" "r4" ["r4"]%string cleanupRevisions [updatingPod] _ E) as (victims & _ & _ & _ & H).
  apply (H updatingPod (MkRaw (Some (0, ""%string)) None (Some (MkState "r3" 0 ∅ ∅ false))) (MkState "r3" 0 ∅ ∅ false)).
  - left.
  - split; [reflexivity|]. eexists. vm_compute. repeat split; reflexivity.
  - reflexivity.
  - exists (MkReference "r3" "" 0 "" false). split; [reflexivity|]. split; [reflexivity|]. split; [intros legacy E'; discriminate E'|].
    intros state E'. injection E' as <-. split; reflexivity.
  - reflexivity.
  - reflexivity.
  - discriminate.
Defined.
