(* ===== verification/ServingStatus.v ===== *)
(** * pkg/model-serving-controller: the status of a model serving

    model_serving_controller.go (updateModelServingStatusInRound), utils.go (the
    conditions) and role_rolling_update_coordinator.go (the condition of a
    coordinated rollout): what a reconcile records of the groups it finds. *)
From S2P Require Import Prelude Names ServingStore ServingPods InPlaceState RevisionHistory Readiness RevisionCleanup.
Local Open Scope Z_scope.

(** ** Conditions *)

Inductive conditionStatus := ConditionTrue | ConditionFalse | ConditionUnknown.

#[export] Instance conditionStatus_eq_dec : EqDecision conditionStatus.
Proof. solve_decision. Defined.

(** A time is in nanoseconds. *)
Record Condition := MkCondition {
  ConditionType : string;
  ConditionStatus : conditionStatus;
  LastTransitionTime : Z;
  Reason : string;
  Message : string;
  ConditionGeneration : Z;
}.

(** k8s.io/apimachinery/pkg/api/meta. *)
Class StatusConditions := {
  FindStatusCondition : list Condition -> string -> option Condition;
  SetStatusCondition : list Condition -> Condition -> list Condition;
}.

(** The conditions say the same, the time of the transition apart. *)
Definition sameCondition (a b : Condition) : Prop :=
  ConditionStatus a = ConditionStatus b /\ Reason a = Reason b /\ Message a = Message b /\ ConditionGeneration a = ConditionGeneration b.
#[export] Instance sameCondition_dec a b : Decision (sameCondition a b).
Proof. unfold sameCondition. apply _. Defined.

Class StatusConditionsLaws `{StatusConditions} := {
  find_first l type : FindStatusCondition l type = findName ConditionType type l;
  set_others l c type : type <> ConditionType c ->
    filter (fun c => ConditionType c = type) (SetStatusCondition l c) = filter (fun c => ConditionType c = type) l;
  set_this l c : exists c', FindStatusCondition (SetStatusCondition l c) (ConditionType c) = Some c' /\ sameCondition c' c;
  set_same l c c' : FindStatusCondition l (ConditionType c) = Some c' -> sameCondition c' c -> SetStatusCondition l c = l;
}.

Definition ModelServingAvailable : string := "Available".
Definition ModelServingProgressing : string := "Progressing".
Definition ModelServingUpdateInProgress : string := "UpdateInProgress".
Definition ModelServingCoordinatedRoleRolloutBlocked : string := "CoordinatedRoleRolloutBlocked".

Definition AllGroupsIsReady : string := "All Serving groups are ready".
Definition SomeGroupsAreProgressing : string := "Some groups is progressing".
Definition SomeGroupsAreUpdated : string := "Updated Groups are".

(** [fmt.Sprintf("%v")] of a slice of integers. *)
Definition formatInts (l : list Z) : string := ("[" ++ String.concat " " (Itoa <$> l) ++ "]")%string.

Inductive ModelServingConditionType := Available | Progressing | UpdateInProgress.

Definition newCondition (condType : ModelServingConditionType) (message : string) (now : Z) : Condition :=
  let '(type, reason) :=
    match condType with
    | Available => (ModelServingAvailable, "AllGroupsReady")%string
    | Progressing => (ModelServingProgressing, "GroupProgressing")%string
    | UpdateInProgress => (ModelServingUpdateInProgress, "GroupsUpdating")%string
    end in
  MkCondition type ConditionTrue now reason message 0.

Definition exclusiveConditionTypes (a b : Condition) : bool :=
  (bool_decide (ConditionType a = ModelServingAvailable) && bool_decide (ConditionType b = ModelServingProgressing)) ||
  (bool_decide (ConditionType a = ModelServingProgressing) && bool_decide (ConditionType b = ModelServingAvailable)) ||
  (bool_decide (ConditionType a = ModelServingAvailable) && bool_decide (ConditionType b = ModelServingUpdateInProgress)) ||
  (bool_decide (ConditionType a = ModelServingUpdateInProgress) && bool_decide (ConditionType b = ModelServingAvailable)).

(** The loop body for one condition: what becomes of it, and whether it changed. *)
Definition applyCondition (new cur : Condition) : Condition * bool :=
  if bool_decide (ConditionType new = ConditionType cur) then
    if bool_decide (ConditionStatus new = ConditionStatus cur) then (cur, false) else (new, true)
  else if exclusiveConditionTypes cur new && bool_decide (ConditionStatus cur = ConditionTrue) && bool_decide (ConditionStatus new = ConditionTrue) then
    (MkCondition (ConditionType cur) ConditionFalse (LastTransitionTime new) (Reason new) (Message new) (ConditionGeneration cur), true)
  else (cur, false).

Definition progressCondition (progressingGroups updatedGroups : list Z) (rolloutActive progressActive : bool) (now : Z) : Condition :=
  if rolloutActive then
    let message := (SomeGroupsAreUpdated ++ ": " ++ formatInts updatedGroups)%string in
    newCondition UpdateInProgress
      (if bool_decide (length progressingGroups = 0%nat) then message
       else (SomeGroupsAreProgressing ++ ": " ++ formatInts progressingGroups ++ ", " ++ message)%string) now
  else if negb progressActive then newCondition Available AllGroupsIsReady now
  else newCondition Progressing (SomeGroupsAreProgressing ++ ": " ++ formatInts progressingGroups)%string now.

Definition SetConditionWithRolloutAndProgressState (conditions : list Condition) (progressingGroups updatedGroups : list Z)
    (rolloutActive progressActive : bool) (now : Z) : list Condition * bool :=
  let new := progressCondition progressingGroups updatedGroups rolloutActive progressActive now in
  let found := existsb (fun cur => bool_decide (ConditionType new = ConditionType cur)) conditions in
  let applied := applyCondition new <$> conditions in
  if bool_decide (ConditionStatus new = ConditionTrue) && negb found then (applied.*1 ++ [new], true) else (applied.*1, existsb snd applied).

(** The policy of a coordinated rollout, as far as its condition shows it. *)
Record roleRolloutPolicy := MkPolicy {
  enabled : bool;
  inProgress : bool;
  blocker : option (string * string * string);
}.

(** A message is at most 512 runes. It is made of names and fixed words, in
    which every rune is one byte. *)
Definition boundedMessage (message : string) : string :=
  if (512 <? String.length message)%nat then (String.substring 0 509 message ++ "...")%string else message.

Definition rolloutCondition (p : option roleRolloutPolicy) (generation : Z) : Condition :=
  let condition status reason message := MkCondition ModelServingCoordinatedRoleRolloutBlocked status 0 reason message generation in
  let complete := condition ConditionFalse "RolloutComplete"%string "Coordinated Role rollout is complete"%string in
  match p with
  | Some (MkPolicy true inProgress blocker) =>
    match blocker with
    | Some (group, reason, message) => condition ConditionTrue reason (boundedMessage ("ServingGroup " ++ group ++ ": " ++ message)%string)
    | None => if inProgress then condition ConditionFalse "ProgressAvailable"%string "Coordinated Role rollout can make progress"%string else complete
    end
  | _ => complete
  end.

Definition setCondition `{StatusConditions} (p : option roleRolloutPolicy) (generation : Z) (conditions : list Condition) : list Condition * bool :=
  let existing := FindStatusCondition conditions ModelServingCoordinatedRoleRolloutBlocked in
  if negb (from_option enabled false p) && negb (bool_decide (is_Some existing)) then (conditions, false)
  else
    let condition := rolloutCondition p generation in
    (SetStatusCondition conditions condition,
     match existing with Some c => negb (bool_decide (sameCondition c condition)) | None => true end).

(** ** The object *)

Record ModelServingStatus := MkStatusRecord {
  ObservedGeneration : Z;
  Replicas : Z;
  CurrentReplicas : Z;
  UpdatedReplicas : Z;
  AvailableReplicas : Z;
  CurrentRevision : string;
  UpdateRevision : string;
  CollisionCount : option Z;
  StatusConditionList : list Condition;
  LabelSelector : string;
}.

Section status.
Context `{Workloads} `{ImageReference} `{StatusConditions}.

(** What the status update reads of a model serving besides [ModelServing]. The
    API server defaults the replicas to one. [partition] is that of the rolling
    update configuration, [rolePartitions] are those of the roles. *)
Record Object := MkObject {
  serving : ModelServing;
  Generation : Z;
  SpecReplicas : Z;
  partition : option IntOrString;
  rolePartitions : list (option IntOrString);
  RecordedStatus : ModelServingStatus;
}.

Definition IntOrStringText (v : IntOrString) : string := match v with IntVal n => Itoa n | StrVal s => s end.

Definition protects (p : option IntOrString) : bool :=
  match p with
  | Some v => negb (bool_decide (IntOrStringText v = "0"%string)) && negb (bool_decide (IntOrStringText v = "0%"%string))
  | None => false
  end.

(** The partitions of the roles count in role mode only. *)
Definition hasProtectedReplicas (ms : Object) : bool :=
  protects (partition ms) || (roleMode (serving ms) && existsb protects (rolePartitions ms)).

(** k8s.io/apimachinery/pkg/util/intstr; [None] is an error. *)
Context (GetScaledValueFromIntOrPercent : IntOrString -> Z -> bool -> option Z).

Definition getPartition (partitionConfig : option IntOrString) (replicas : Z) : option Z :=
  match partitionConfig with None => Some 0 | Some p => GetScaledValueFromIntOrPercent p replicas true end.

(** [labels.Set.String]. *)
Context (LabelsString : labels -> string).

Definition selectorOf (ms : Object) : string :=
  let selectorSet : labels := {[ModelServingNameLabelKey := ServingStore.Name (servingKey (serving ms)); EntryLabelKey := Entry]} in
  LabelsString
    match Roles (desired (serving ms)) with
    | [] => selectorSet
    | role :: _ => <[ServingPods.RoleIDKey := GenerateRoleID (templateName role) 0]> (<[RoleLabelKey := templateName role]> selectorSet)
    end.

(** [copyCollisionCount], for the collisions the reconcile met. *)
Definition copyCollisionCount (collisions : option Z) (recorded : option Z) : option Z * bool :=
  match collisions with
  | Some count =>
    if (count =? 0) || (match recorded with Some r => count <=? r | None => false end) then (recorded, false) else (Some count, true)
  | None => (recorded, false)
  end.
(** ** One attempt *)

(** What an attempt works with: the object of the lister, the history service,
    the informer's pods, the live pods, the clock, and whether the object has
    the generation of the reconcile, which then keeps its history. Otherwise
    every question to history starts a new one. *)
Record Attempt := MkAttempt {
  latest : Object;
  fetchRevision : string -> option Workload;
  podCache : list Pod;
  podsListed : option (list Pod);
  clock : Z;
  sameGeneration : bool;
}.

(** The reconcile: the target revision, the policy, the collisions, and an order
    in which a map of counts is visited. *)
Context (revision : string) (policy : option roleRolloutPolicy) (collisions : option Z).
Context (visit : gmap string Z -> list (string * Z)).

Section attempt.
Context (a : Attempt).

Abbreviation ms := (serving (latest a)).
Abbreviation key := (servingKey (serving (latest a))).

Definition asking {A} (h : revisionHistory) (question : revisionHistory -> A * revisionHistory) : A * revisionHistory :=
  if sameGeneration a then question h else ((question newHistory).1, h).

Definition compareGroup (s : store) (h : revisionHistory) (group : ServingGroup) : templateComparison * revisionHistory :=
  asking h (fun h => compareServingGroupTemplate ms (fetchRevision a) (podsListed a) s h group revision).

Definition checkGroup (s : store) (h : revisionHistory) (group : ServingGroup) : option bool * revisionHistory :=
  asking h (fun h => checkServingGroupReady ms (fetchRevision a) s (podCache a) (podsListed a) h (GroupName group)).

(** The groups from [index] on. *)
Fixpoint hasUpdateableOutdatedServingGroup (s : store) (limit index : Z) (groups : list ServingGroup) (h : revisionHistory) : bool * revisionHistory :=
  match groups with
  | [] => (false, h)
  | group :: groups =>
    if limit <=? index then
      let '(c, h) := compareGroup s h group in
      if bool_decide (c = templateDifferent) then (true, h) else hasUpdateableOutdatedServingGroup s limit (index + 1) groups h
    else hasUpdateableOutdatedServingGroup s limit (index + 1) groups h
  end.

Record Tally := MkTally {
  available : Z;
  updated : Z;
  progressingGroups : list Z;
  updatedGroups : list Z;
  currentGroups : list Z;
  revisionCount : gmap string Z;
  referencedRevisions : list string;
}.

Definition noTally : Tally := MkTally 0 0 [] [] [] ∅ [].

Definition coordinated : bool := bool_decide (is_Some (roleCoordination ms)).

(** The store is brought up to date: [None] is an error, else whether the group
    is available. *)
Definition observeGroup (s : store) (h : revisionHistory) (group : ServingGroup) : store * option bool * revisionHistory :=
  let running := bool_decide (GroupStatus group = ServingGroupRunning) in
  if running && negb coordinated then (s, Some true, h)
  else
    let '(ready, h) := checkGroup s h group in
    if bool_decide (ready = Some true) then
      let '(err, s) := UpdateServingGroupStatus s key (GroupName group) ServingGroupRunning in
      (s, if bool_decide (err = None) then Some true else None, h)
    else if coordinated && running then
      let '(err, s) := UpdateServingGroupStatus s key (GroupName group) ServingGroupCreating in
      (s, if bool_decide (err = None) then Some false else None, h)
    else (s, Some false, h).

Definition nonEmpty (l : list string) : list string := filter (fun x => x <> ""%string) l.

(** The revisions of the roles of a group. *)
Definition roleRevisions (observedRoles : gmap string (gmap string Role)) : list string :=
  map_to_list observedRoles ≫= fun '(_, instances) => (fun '(_, instance) => RoleRevision instance) <$> map_to_list instances.

Definition addReferences (group : ServingGroup) (observedRoles : gmap string (gmap string Role)) (t : Tally) : Tally :=
  MkTally (available t) (updated t) (progressingGroups t) (updatedGroups t) (currentGroups t) (revisionCount t)
    (referencedRevisions t ++ nonEmpty (GroupRevision group :: roleRevisions observedRoles)).

Definition addAvailability (group : ServingGroup) (isAvailable : bool) (t : Tally) : Tally :=
  MkTally (if isAvailable then available t + 1 else available t) (updated t)
    (if isAvailable then progressingGroups t else progressingGroups t ++ [ordinalOf (GroupName group)])
    (updatedGroups t) (currentGroups t) (revisionCount t) (referencedRevisions t).

Definition addComparison (group : ServingGroup) (c : templateComparison) (t : Tally) : Tally :=
  if bool_decide (c = templateEquivalent) then
    MkTally (available t) (updated t + 1) (progressingGroups t) (updatedGroups t ++ [ordinalOf (GroupName group)]) (currentGroups t)
      (revisionCount t) (referencedRevisions t)
  else
    MkTally (available t) (updated t) (progressingGroups t) (updatedGroups t) (currentGroups t ++ [ordinalOf (GroupName group)])
      (<[GroupRevision group := default 0 (revisionCount t !! GroupRevision group) + 1]> (revisionCount t)) (referencedRevisions t).

Definition tallyGroup (s : store) (h : revisionHistory) (group : ServingGroup) (t : Tally) : store * option Tally * revisionHistory :=
  match GetRolesByGroup s key (GroupName group) with
  | inr _ => (s, None, h)
  | inl observedRoles =>
    let t := addReferences group observedRoles t in
    if bool_decide (GroupStatus group = ServingGroupDeleting) then (s, Some (addAvailability group false t), h)
    else
      match observeGroup s h group with
      | (s, None, h) => (s, None, h)
      | (s, Some isAvailable, h) =>
        let '(c, h) := compareGroup s h group in (s, Some (addComparison group c (addAvailability group isAvailable t)), h)
      end
  end.

Fixpoint tallyGroups (s : store) (h : revisionHistory) (groups : list ServingGroup) (t : Tally) : store * option Tally * revisionHistory :=
  match groups with
  | [] => (s, Some t, h)
  | group :: groups =>
    match tallyGroup s h group t with
    | (s, Some t, h) => tallyGroups s h groups t
    | failed => failed
    end
  end.

(** The first of the most common revisions in the order of the visit. *)
Definition mostCommon (counts : list (string * Z)) : string :=
  (fold_left (fun best '(rev, count) => if best.1 <? count then (count, rev) else best) counts (0, ""%string)).2.

Definition chooseCurrentRevision (counts : gmap string Z) (rolloutActive rolloutComplete : bool) : string :=
  let recorded := CurrentRevision (RecordedStatus (latest a)) in
  let kept :=
    if bool_decide (recorded = ""%string) then ""%string
    else if rolloutComplete then revision
    else if (0 <? default 0 (counts !! recorded)) || rolloutActive then recorded
    else ""%string in
  if negb (bool_decide (kept = ""%string)) then kept
  else if rolloutComplete || bool_decide (size counts = 0%nat) then revision
  else let common := mostCommon (visit counts) in if bool_decide (common = ""%string) then revision else common.

Fixpoint countCurrent (s : store) (h : revisionHistory) (currentRevision : string) (groups : list ServingGroup) : Z * revisionHistory :=
  match groups with
  | [] => (0, h)
  | group :: groups =>
    let '(isCurrent, h) :=
      if bool_decide (currentRevision = revision) then let '(c, h) := compareGroup s h group in (bool_decide (c = templateEquivalent), h)
      else (bool_decide (GroupRevision group = currentRevision), h) in
    let '(n, h) := countCurrent s h currentRevision groups in ((if isCurrent then 1 else 0) + n, h)
  end.

(** The status without any group. A coordinated serving of no replicas keeps its
    last completed revision. *)
Definition statusWithoutGroups : ModelServingStatus * bool :=
  let st := RecordedStatus (latest a) in
  let zero := coordinated && (SpecReplicas (latest a) =? 0) in
  let '(conditions, conditionChanged) := setCondition policy (Generation (latest a)) (StatusConditionList st) in
  let currentRevision := if zero then CurrentRevision st else revision in
  let '(collision, collisionChanged) := copyCollisionCount collisions (CollisionCount st) in
  let needsUpdate :=
    negb (bool_decide (CurrentRevision st = currentRevision)) || negb (bool_decide (UpdateRevision st = revision)) ||
    negb (bool_decide (LabelSelector st = selectorOf (latest a))) || conditionChanged ||
    (zero && (negb (Replicas st =? 0) || negb (AvailableReplicas st =? 0) || negb (CurrentReplicas st =? 0) || negb (UpdatedReplicas st =? 0) ||
              negb (ObservedGeneration st =? Generation (latest a)))) || collisionChanged in
  let count n := if zero then 0 else n in
  (MkStatusRecord (if zero then Generation (latest a) else ObservedGeneration st) (count (Replicas st)) (count (CurrentReplicas st)) (count (UpdatedReplicas st))
     (count (AvailableReplicas st)) currentRevision revision collision conditions (selectorOf (latest a)), needsUpdate).

Definition rolloutComplete (groups : list ServingGroup) (t : Tally) : bool :=
  (updated t =? SpecReplicas (latest a)) && (available t =? SpecReplicas (latest a)) && (Z.of_nat (length groups) =? SpecReplicas (latest a)).

Definition progressActive (groups : list ServingGroup) (t : Tally) : bool :=
  negb (bool_decide (length (progressingGroups t) = 0%nat)) || negb (Z.of_nat (length groups) =? SpecReplicas (latest a)) ||
  negb (available t =? SpecReplicas (latest a)).

(** Without a partition the current replicas of a finished rollout are the
    updated ones. *)
Definition converged (groups : list ServingGroup) (t : Tally) : bool :=
  bool_decide (partition (latest a) = None) && (int32 (updated t) =? SpecReplicas (latest a)) && (int32 (available t) =? SpecReplicas (latest a)) &&
  (int32 (Z.of_nat (length groups)) =? SpecReplicas (latest a)).

(** The status of the groups, whether it has to be written, and whether its
    revisions changed. *)
Definition statusOf (groups : list ServingGroup) (t : Tally) (rolloutActive : bool) (currentRevision : string) (current : Z) : ModelServingStatus * bool * bool :=
  let st := RecordedStatus (latest a) in
  let replicas := int32 (Z.of_nat (length groups)) in
  let '(conditions, progressChanged) :=
    SetConditionWithRolloutAndProgressState (StatusConditionList st) (progressingGroups t) (updatedGroups t) rolloutActive (progressActive groups t) (clock a) in
  let '(collision, collisionChanged) := copyCollisionCount collisions (CollisionCount st) in
  let '(conditions, conditionChanged) := setCondition policy (Generation (latest a)) conditions in
  let countsChanged :=
    negb (Replicas st =? replicas) || negb (AvailableReplicas st =? int32 (available t)) || negb (UpdatedReplicas st =? int32 (updated t)) ||
    negb (CurrentReplicas st =? int32 current) in
  let revisionUpdated := negb (bool_decide (CurrentRevision st = currentRevision)) || negb (bool_decide (UpdateRevision st = revision)) in
  let currentReplicas := if converged groups t then int32 (updated t) else int32 current in
  (MkStatusRecord (Generation (latest a)) replicas currentReplicas (int32 (updated t)) (int32 (available t)) currentRevision revision collision conditions
     (selectorOf (latest a)),
   progressChanged || collisionChanged || conditionChanged || countsChanged || revisionUpdated || converged groups t ||
   negb (bool_decide (ObservedGeneration st = Generation (latest a))) || negb (bool_decide (LabelSelector st = selectorOf (latest a))),
   revisionUpdated).

(** What an attempt asks of the API server: nothing, or a new status, and then
    the collection of history with the revisions that groups and roles have. *)
Inductive statusOutcome :=
| Failed
| Unchanged
| Write (st : ModelServingStatus) (cleanup : option (list string)).

Definition attemptWithGroups (s : store) (h : revisionHistory) (groups : list ServingGroup) : store * revisionHistory * statusOutcome :=
  match getPartition (partition (latest a)) (SpecReplicas (latest a)) with
  | None => (s, h, Failed)
  | Some limit =>
    let '(rolloutActive, h) := hasUpdateableOutdatedServingGroup s limit 0 groups h in
    match tallyGroups s h groups noTally with
    | (s, None, h) => (s, h, Failed)
    | (s, Some t, h) =>
      let currentRevision := chooseCurrentRevision (revisionCount t) rolloutActive (rolloutComplete groups t) in
      let '(current, h) := countCurrent s h currentRevision groups in
      let '(st, shouldUpdate, revisionUpdated) := statusOf groups t rolloutActive currentRevision current in
      let cleanup := revisionUpdated && negb (progressActive groups t) && negb rolloutActive && negb (hasProtectedReplicas (latest a)) && noErrors h in
      (s, h, if shouldUpdate then Write st (if cleanup then Some (referencedRevisions t) else None) else Unchanged)
    end
  end.

Definition attempt (s : store) (h : revisionHistory) : store * revisionHistory * statusOutcome :=
  let withoutGroups := (s, h, let '(st, needsUpdate) := statusWithoutGroups in if needsUpdate : bool then Write st None else Unchanged) in
  match GetServingGroupByModelServing s key with
  | inr ErrServingGroupNotFound => withoutGroups
  | inr _ => (s, h, Failed)
  | inl groups =>
    if bool_decide (length groups = 0%nat) && coordinated && (SpecReplicas (latest a) =? 0) then withoutGroups
    else attemptWithGroups s h groups
  end.
End attempt.

(** ** Retries on a conflict *)

Inductive answer := Accepted | Conflict | Refused.

(** Each attempt starts with a read of the lister, and [None] is an error. *)
Abbreviation try := (option Attempt * answer)%type.

(** How the update ends: an error, or an attempt on a store and its outcome. *)
Inductive result :=
| Error
| Done (a : Attempt) (before : store) (out : statusOutcome).

Fixpoint retryOnConflict (tries : list try) (s : store) (h : revisionHistory) : store * revisionHistory * result :=
  match tries with
  | [] | (None, _) :: _ => (s, h, Error)
  | (Some a, reply) :: tries =>
    match attempt a s h with
    | (s', h, Failed) => (s', h, Error)
    | (s', h, Unchanged) => (s', h, Done a s Unchanged)
    | (s', h, Write st cleanup) =>
      match reply with
      | Accepted => (s', h, Done a s (Write st cleanup))
      | Conflict => retryOnConflict tries s' h
      | Refused => (s', h, Error)
      end
    end
  end.

(** [retry.DefaultRetry] has five steps. *)
Definition updateModelServingStatusInRound (tries : list try) (s : store) (h : revisionHistory) : store * revisionHistory * result :=
  retryOnConflict (take 5 tries) s h.
End status.
