(* ===== verification/StatusTruth.v ===== *)
(** * The recorded status is what is there

    What ServingStatus.v writes, against the groups of the store and the
    meaning of their comparisons: how the store moves with it, what each field
    counts, when the current revision changes and which conditions hold. *)
From S2P Require Import Prelude Names ServingStore ServingPods InPlaceState RevisionHistory Readiness RevisionCleanup ServingStatus.
Local Open Scope Z_scope.

(** ** Stores that differ in the status of groups *)

Definition strip (s : store) : store := fmap (M := gmap NamespacedName) (fmap (M := gmap string) (fun g => set_status g ServingGroupCreating)) s.

Definition sameUnits (s s' : store) : Prop := strip s = strip s'.

#[export] Instance sameUnits_equivalence : Equivalence sameUnits.
Proof. unfold sameUnits. split; [done|by intros ? ? ->|by intros ? ? ? -> ->]. Qed.

Lemma strip_lookup s ms : strip s !! ms = (fmap (fun g => set_status g ServingGroupCreating)) <$> (s !! ms).
Proof. apply lookup_fmap. Qed.

Lemma GetRoleList_strip s ms group role : GetRoleList (strip s) ms group role = GetRoleList s ms group role.
Proof.
  unfold GetRoleList. rewrite strip_lookup. destruct (s !! ms) as [groups|]; [|done]. cbn.
  rewrite lookup_fmap. by destruct (groups !! group).
Qed.

Lemma GetRolesByGroup_strip s ms group : GetRolesByGroup (strip s) ms group = GetRolesByGroup s ms group.
Proof.
  unfold GetRolesByGroup. rewrite strip_lookup. destruct (s !! ms) as [groups|]; [|done]. cbn.
  rewrite lookup_fmap. by destruct (groups !! group).
Qed.

Lemma GetServingGroupRevision_strip s ms group : GetServingGroupRevision (strip s) ms group = GetServingGroupRevision s ms group.
Proof.
  unfold GetServingGroupRevision, lookupGroup. rewrite strip_lookup. destruct (s !! ms) as [groups|]; [|done]. cbn.
  rewrite lookup_fmap. by destruct (groups !! group).
Qed.

Section units.
Context (s s' : store) (Hs : sameUnits s s').

Lemma GetRoleList_same ms group role : GetRoleList s ms group role = GetRoleList s' ms group role.
Proof using Hs. by rewrite <- (GetRoleList_strip s), <- (GetRoleList_strip s'), Hs. Qed.
Lemma GetRolesByGroup_same ms group : GetRolesByGroup s ms group = GetRolesByGroup s' ms group.
Proof using Hs. by rewrite <- (GetRolesByGroup_strip s), <- (GetRolesByGroup_strip s'), Hs. Qed.
Lemma GetServingGroupRevision_same ms group : GetServingGroupRevision s ms group = GetServingGroupRevision s' ms group.
Proof using Hs. by rewrite <- (GetServingGroupRevision_strip s), <- (GetServingGroupRevision_strip s'), Hs. Qed.

Context `{Workloads} `{ImageReference}.

Lemma groupMeaning_same snap ms listed group target : groupMeaning snap ms listed s group target = groupMeaning snap ms listed s' group target.
Proof using Hs.
  unfold groupMeaning. destruct (revisionMeaning _ _ _ _); [done|].
  assert (E : observedInstances ms s group = observedInstances ms s' group).
  { unfold observedInstances. f_equal. apply mapM_ext. intros role. by rewrite GetRoleList_same. }
  assert (E' : hasObsolete ms s group = hasObsolete ms s' group) by (unfold hasObsolete; by rewrite GetRolesByGroup_same).
  by rewrite E, E'.
Qed.

Lemma roleAnswer_same ms snap cache listed group roleName roleID : roleAnswer ms snap s cache listed group roleName roleID = roleAnswer ms snap s' cache listed group roleName roleID.
Proof using Hs. unfold roleAnswer, appliedRevision. by rewrite GetRoleList_same, GetServingGroupRevision_same. Qed.

Lemma groupAnswer_same ms snap cache listed group : groupAnswer ms snap s cache listed group = groupAnswer ms snap s' cache listed group.
Proof using Hs.
  unfold groupAnswer, rolesNeeded. rewrite GetServingGroupRevision_same.
  destruct (if roleMode ms then _ else _) as [roles|]; [|done]. cbn. induction roles as [|role roles IH]; cbn [rolesAnswer]; [done|].
  rewrite GetRoleList_same. destruct (GetRoleList s' _ _ _) as [l|]; [|done]. destruct (negb _); [done|].
  assert (E : instancesAnswer ms snap s cache listed group (templateName role) l = instancesAnswer ms snap s' cache listed group (templateName role) l).
  { induction l as [|r l IHl]; cbn [instancesAnswer]; [done|]. rewrite roleAnswer_same. destruct (negb _); [done|]. by destruct (roleAnswer _ _ s' _ _ _ _ _) as [[]|]. }
  rewrite E. by destruct (instancesAnswer _ _ s' _ _ _ _ _) as [[]|].
Qed.
End units.

Lemma UpdateServingGroupStatus_units s ms group status g : lookupGroup s ms group = Some g ->
  let '(err, s') := UpdateServingGroupStatus s ms group status in
  err = None /\ sameUnits s s' /\ lookupGroup s' ms group = Some (set_status g status) /\
  forall n k, (n, k) <> (ms, group) -> lookupGroup s' n k = lookupGroup s n k.
Proof.
  unfold lookupGroup, UpdateServingGroupStatus. destruct (s !! ms) as [groups|] eqn:E; [|done]. cbn. intros Eg. rewrite Eg.
  split; [done|]. unfold set_groups. split; [|split].
  - unfold sameUnits, strip. apply map_eq. intros n. rewrite !lookup_fmap. destruct (decide (n = ms)) as [->|Hn].
    + rewrite lookup_insert_eq, E. cbn. f_equal. apply map_eq. intros k. rewrite !lookup_fmap. destruct (decide (k = group)) as [->|Hk].
      * by rewrite lookup_insert_eq, Eg.
      * by rewrite lookup_insert_ne.
    + by rewrite lookup_insert_ne.
  - by rewrite lookup_insert_eq; cbn; rewrite lookup_insert_eq.
  - intros n k Hne. destruct (decide (n = ms)) as [->|Hn]; [|by rewrite lookup_insert_ne].
    rewrite lookup_insert_eq, E. cbn. rewrite lookup_insert_ne; congruence.
Qed.

(** ** Conditions *)

Definition holds (l : list Condition) (type : string) : Prop := exists c, c ∈ l /\ ConditionType c = type /\ ConditionStatus c = ConditionTrue.

Lemma holds_filter l l' type : filter (fun c => ConditionType c = type) l = filter (fun c => ConditionType c = type) l' -> holds l type <-> holds l' type.
Proof.
  intros E. assert (Hin : forall c, ConditionType c = type -> c ∈ l <-> c ∈ l').
  { intros c Hc. pose proof (list_elem_of_filter (fun c => ConditionType c = type) l c) as H1.
    pose proof (list_elem_of_filter (fun c => ConditionType c = type) l' c) as H2. rewrite E in H1. tauto. }
  split; intros (c & Hc & Ht & Hs); exists c; (split; [by apply Hin|done]).
Qed.

Lemma applyCondition_type new cur : ConditionType (applyCondition new cur).1 = ConditionType cur.
Proof. unfold applyCondition. case_bool_decide; [by case_bool_decide|]. by destruct (_ && _). Qed.

Lemma applyCondition_same new cur : (applyCondition new cur).2 = false -> (applyCondition new cur).1 = cur.
Proof. unfold applyCondition. case_bool_decide; [by case_bool_decide|]. by destruct (_ && _). Qed.

Lemma exclusive_types a b : exclusiveConditionTypes a b = true <->
  (ConditionType a = ModelServingAvailable /\ (ConditionType b = ModelServingProgressing \/ ConditionType b = ModelServingUpdateInProgress)) \/
  (ConditionType b = ModelServingAvailable /\ (ConditionType a = ModelServingProgressing \/ ConditionType a = ModelServingUpdateInProgress)).
Proof. unfold exclusiveConditionTypes. rewrite !orb_true_iff, !andb_true_iff, !bool_decide_eq_true. tauto. Qed.

Lemma SetCondition_spec l progressing updated active progress now :
  let '(l', changed) := SetConditionWithRolloutAndProgressState l progressing updated active progress now in
  let new := progressCondition progressing updated active progress now in
  holds l' (ConditionType new) /\ (forall c, c ∈ l' -> exclusiveConditionTypes c new = true -> ConditionStatus c <> ConditionTrue) /\ (changed = false -> l' = l).
Proof.
  unfold SetConditionWithRolloutAndProgressState. set (new := progressCondition progressing updated active progress now).
  assert (Hnew : ConditionStatus new = ConditionTrue) by (unfold new, progressCondition; destruct active; [done|]; by destruct (negb progress)).
  clearbody new. rewrite (bool_decide_true _ Hnew). cbn [andb].
  assert (Happ : forall c, c ∈ (applyCondition new <$> l).*1 -> exclusiveConditionTypes c new = true -> ConditionStatus c <> ConditionTrue).
  { intros c. rewrite list_elem_of_fmap. intros (p & -> & Hp). apply list_elem_of_fmap in Hp as (cur & -> & Hcur).
    unfold applyCondition. case_bool_decide as Et.
    - rewrite exclusive_types. case_bool_decide; cbn [fst]; rewrite ?Et; unfold ModelServingAvailable, ModelServingProgressing, ModelServingUpdateInProgress;
        intros [(E1 & [E2|E2])|(E1 & [E2|E2])]; congruence.
    - rewrite (bool_decide_true _ Hnew), andb_true_r. case_bool_decide as Es; [|by rewrite andb_false_r]. rewrite andb_true_r.
      destruct (exclusiveConditionTypes cur new) eqn:Ee; cbn [fst]; [done|congruence]. }
  destruct (existsb _ l) eqn:Ef; cbn [negb].
  - split; [|split; [done|]].
    + apply existsb_exists in Ef as (cur & Hcur & Et). apply bool_decide_eq_true in Et. apply list_elem_of_In in Hcur.
      exists (applyCondition new cur).1. split; [by apply list_elem_of_fmap_2, list_elem_of_fmap_2|]. split; [by rewrite applyCondition_type|].
      unfold applyCondition. rewrite (bool_decide_true _ Et). case_bool_decide; cbn; congruence.
    + intros Hch. assert (Hall : forall cur, cur ∈ l -> (applyCondition new cur).2 = false).
      { intros cur Hcur. destruct ((applyCondition new cur).2) eqn:E; [|done]. exfalso. apply not_true_iff_false in Hch. apply Hch, existsb_exists.
        exists (applyCondition new cur). split; [|done]. by apply list_elem_of_In, list_elem_of_fmap_2. }
      clear -Hall. induction l as [|c l IH]; [done|]. cbn. rewrite applyCondition_same by (apply Hall; by left).
      f_equal. apply IH. intros c' Hc'. apply Hall. by right.
  - split; [|split; [|done]].
    + exists new. split; [|done]. apply elem_of_app. right. by left.
    + intros c [Hc| ->%list_elem_of_singleton]%elem_of_app; [by apply Happ|]. rewrite exclusive_types.
      unfold ModelServingAvailable, ModelServingProgressing, ModelServingUpdateInProgress. intros [(E1 & [E2|E2])|(E1 & [E2|E2])]; congruence.
Qed.

Lemma setCondition_spec `{StatusConditionsLaws} p generation l :
  let '(l', changed) := setCondition p generation l in
  (forall type, type <> ModelServingCoordinatedRoleRolloutBlocked -> holds l' type <-> holds l type) /\ (changed = false -> l' = l) /\
  (from_option enabled false p = true -> exists c, FindStatusCondition l' ModelServingCoordinatedRoleRolloutBlocked = Some c /\ sameCondition c (rolloutCondition p generation)).
Proof.
  unfold setCondition. destruct (from_option enabled false p) eqn:Ep; cbn [negb andb].
  2: destruct (FindStatusCondition l _) as [c|] eqn:Ec; rewrite ?bool_decide_true, ?bool_decide_false by (by eexists) || (intros [? ?]; done); cbn [negb].
  3: by split.
  all: assert (Et : ConditionType (rolloutCondition p generation) = ModelServingCoordinatedRoleRolloutBlocked)
      by (unfold rolloutCondition; destruct p as [[[] ip [[[? ?] ?]|]]|]; try done; by destruct ip).
  all: split; [intros type Hne; apply holds_filter, set_others; by rewrite Et|]; split; [|try done].
  - destruct (FindStatusCondition l _) as [c|] eqn:Ec; [|done]. rewrite negb_false_iff, bool_decide_eq_true. intros Hs. eapply set_same; [by rewrite Et|done].
  - intros _. destruct (set_this l (rolloutCondition p generation)) as (c & Hc & Hs). rewrite Et in Hc. by exists c.
  - rewrite negb_false_iff, bool_decide_eq_true. intros Hs. eapply set_same; [by rewrite Et|done].
Qed.

(** ** The groups of an attempt *)

Section attempt.
Context `{Workloads} `{ImageReference}.
Context (revision : string) (a : Attempt) (snap : string -> option Workload).

Abbreviation ms := (serving (latest a)).
Abbreviation key := (servingKey (serving (latest a))).

(** [snap] is how the attempt reads history. *)
Definition reads (h : revisionHistory) : Prop :=
  consistent snap ms (fetchRevision a) (if sameGeneration a then h else newHistory).

Lemma asking_reads {A} h (question : revisionHistory -> A * revisionHistory) (answer : A) : reads h ->
  (forall h, consistent snap ms (fetchRevision a) h -> consistent snap ms (fetchRevision a) (question h).2 /\ (question h).1 = answer) ->
  reads (asking a h question).2 /\ (asking a h question).1 = answer.
Proof.
  unfold reads, asking. intros Hh Hq. destruct (sameGeneration a); [by apply Hq|]. split; [done|]. by apply Hq.
Qed.

Definition meaning (s : store) (group : ServingGroup) : templateComparison := groupMeaning snap ms (podsListed a) s group revision.

Lemma compareGroup_reads s h group : reads h ->
  reads (compareGroup revision a s h group).2 /\ (compareGroup revision a s h group).1 = meaning s group.
Proof. intros Hh. apply asking_reads; [done|]. intros h'. apply consistent_group. Qed.

Definition ready (s : store) (group : ServingGroup) : bool :=
  bool_decide (groupAnswer ms snap s (podCache a) (podsListed a) (GroupName group) = Some true).

Lemma checkGroup_reads s h group : reads h ->
  reads (checkGroup a s h group).2 /\ (checkGroup a s h group).1 = groupAnswer ms snap s (podCache a) (podsListed a) (GroupName group).
Proof. intros Hh. apply asking_reads; [done|]. intros h'. apply checkServingGroupReady_answer. Qed.

(** The status a group has after the attempt. *)
Definition settled (s : store) (group : ServingGroup) : ServingGroupStatus :=
  if bool_decide (GroupStatus group = ServingGroupDeleting) then ServingGroupDeleting
  else if (bool_decide (GroupStatus group = ServingGroupRunning) && negb (coordinated a)) || ready s group then ServingGroupRunning
  else if bool_decide (GroupStatus group = ServingGroupRunning) then ServingGroupCreating
  else GroupStatus group.

Lemma settled_same s s' group : sameUnits s s' -> settled s group = settled s' group.
Proof. intros Hs. unfold settled, ready. by rewrite (groupAnswer_same s s' Hs). Qed.

Lemma meaning_same s s' group : sameUnits s s' -> meaning s group = meaning s' group.
Proof. intros Hs. by apply groupMeaning_same. Qed.

Lemma set_status_id g : set_status g (GroupStatus g) = g.
Proof. by destruct g. Qed.

(** What a step of the loop over the groups leaves for the others. *)
Definition onlyGroup (s s' : store) (group : ServingGroup) (status : ServingGroupStatus) : Prop :=
  sameUnits s s' /\ lookupGroup s' key (GroupName group) = Some (set_status group status) /\
  forall n k, (n, k) <> (key, GroupName group) -> lookupGroup s' n k = lookupGroup s n k.

Lemma onlyGroup_none s group : lookupGroup s key (GroupName group) = Some group -> onlyGroup s s group (GroupStatus group).
Proof. intros E. split; [done|]. by rewrite set_status_id. Qed.

Lemma observeGroup_spec s h group : reads h -> lookupGroup s key (GroupName group) = Some group -> GroupStatus group <> ServingGroupDeleting ->
  let '(s', r, h') := observeGroup a s h group in
  reads h' /\ r = Some (bool_decide (settled s group = ServingGroupRunning)) /\ onlyGroup s s' group (settled s group).
Proof.
  intros Hh Hg Hd. unfold observeGroup, settled. rewrite (bool_decide_false _ Hd).
  destruct (checkGroup_reads s h group Hh) as [Hh1 Hc]. destruct (checkGroup a s h group) as [answer h1]. cbn [fst snd] in *. subst answer.
  destruct (bool_decide (GroupStatus group = ServingGroupRunning)) eqn:Er; cbn [andb orb].
  - apply bool_decide_eq_true in Er. destruct (coordinated a) eqn:Ec; cbn [negb orb].
    2: { rewrite <- Er. rewrite Er. split; [done|]. split; [done|]. rewrite <- Er. by apply onlyGroup_none. }
    unfold ready. destruct (bool_decide (groupAnswer _ _ _ _ _ _ = Some true)).
    + pose proof (UpdateServingGroupStatus_units s key (GroupName group) ServingGroupRunning group Hg) as Hu.
      destruct (UpdateServingGroupStatus _ _ _ _) as [err s']. by destruct Hu as (-> & Hu).
    + cbn [andb]. pose proof (UpdateServingGroupStatus_units s key (GroupName group) ServingGroupCreating group Hg) as Hu.
      destruct (UpdateServingGroupStatus _ _ _ _) as [err s']. by destruct Hu as (-> & Hu).
  - apply bool_decide_eq_false in Er. unfold ready. destruct (bool_decide (groupAnswer _ _ _ _ _ _ = Some true)).
    + pose proof (UpdateServingGroupStatus_units s key (GroupName group) ServingGroupRunning group Hg) as Hu.
      destruct (UpdateServingGroupStatus _ _ _ _) as [err s']. by destruct Hu as (-> & Hu).
    + rewrite andb_false_r. split; [done|]. split; [by rewrite bool_decide_false|]. by apply onlyGroup_none.
Qed.

Lemma GetRolesByGroup_lookup s group : lookupGroup s key (GroupName group) = Some group -> GetRolesByGroup s key (GroupName group) = inl (roles group).
Proof. unfold lookupGroup, GetRolesByGroup. destruct (s !! key) as [groups|]; [|done]. cbn. by intros ->. Qed.

(** What one group adds to the tally. *)
Definition addGroup (s : store) (group : ServingGroup) (t : Tally) : Tally :=
  let t := addReferences group (roles group) t in
  let t := addAvailability group (bool_decide (settled s group = ServingGroupRunning)) t in
  if bool_decide (GroupStatus group = ServingGroupDeleting) then t else addComparison group (meaning s group) t.

Lemma tallyGroup_spec s h group t : reads h -> lookupGroup s key (GroupName group) = Some group ->
  let '(s', r, h') := tallyGroup revision a s h group t in
  reads h' /\ r = Some (addGroup s group t) /\ onlyGroup s s' group (settled s group).
Proof.
  intros Hh Hg. unfold tallyGroup, addGroup. rewrite (GetRolesByGroup_lookup _ _ Hg). case_bool_decide as Ed.
  - assert (E : settled s group = ServingGroupDeleting) by (unfold settled; by rewrite bool_decide_true).
    rewrite E. split; [done|]. split; [done|]. rewrite <- Ed. by apply onlyGroup_none.
  - pose proof (observeGroup_spec s h group Hh Hg Ed) as Ho. destruct (observeGroup a s h group) as [[s1 r] h1]. destruct Ho as (Hh1 & -> & Ho).
    destruct (compareGroup_reads s1 h1 group Hh1) as [Hh2 Hc]. destruct (compareGroup revision a s1 h1 group) as [c h2]. cbn [fst snd] in *. subst c.
    split; [done|]. split; [|done]. by rewrite (meaning_same s1 s) by (symmetry; apply Ho).
Qed.

Lemma addGroup_same s s' group t : sameUnits s s' -> addGroup s group t = addGroup s' group t.
Proof. intros Hs. unfold addGroup. by rewrite (settled_same s s' group Hs), (meaning_same s s' group Hs). Qed.

(** The loop never fails: it adds up the groups, and leaves each with its
    settled status. *)
Lemma tallyGroups_spec s0 groups : NoDup (GroupName <$> groups) -> forall s h t, sameUnits s0 s -> reads h ->
  (forall group, group ∈ groups -> lookupGroup s key (GroupName group) = Some group) ->
  let '(s', r, h') := tallyGroups revision a s h groups t in
  reads h' /\ r = Some (fold_left (fun t group => addGroup s0 group t) groups t) /\ sameUnits s0 s' /\
  (forall group, group ∈ groups -> lookupGroup s' key (GroupName group) = Some (set_status group (settled s0 group))) /\
  (forall n k, (forall group, group ∈ groups -> (n, k) <> (key, GroupName group)) -> lookupGroup s' n k = lookupGroup s n k).
Proof.
  induction groups as [|group groups IH]; intros Hnd s h t Hs Hh Hlk; cbn [tallyGroups fold_left].
  { split; [done|]. split; [done|]. split; [done|]. split; [by intros g Hg%not_elem_of_nil|done]. }
  rewrite fmap_cons in Hnd. apply NoDup_cons in Hnd as [Hnew Hnd].
  pose proof (tallyGroup_spec s h group t Hh (Hlk group ltac:(by left))) as Hg.
  destruct (tallyGroup revision a s h group t) as [[s1 r] h1]. destruct Hg as (Hh1 & -> & Hs1 & Hl1 & Ho1).
  rewrite (addGroup_same s0 s) by done.
  assert (Hne : forall g, g ∈ groups -> GroupName g <> GroupName group) by (intros g Hg E; apply Hnew; rewrite <- E; by apply list_elem_of_fmap_2).
  assert (Hlk1 : forall g, g ∈ groups -> lookupGroup s1 key (GroupName g) = Some g).
  { intros g Hg. rewrite Ho1; [apply Hlk; by right|]. intros [= E]. by apply (Hne g). }
  specialize (IH Hnd s1 h1 (addGroup s group t) ltac:(by etrans) Hh1 Hlk1).
  destruct (tallyGroups revision a s1 h1 groups (addGroup s group t)) as [[s' r] h']. destruct IH as (Hh' & -> & Hs' & Hl' & Ho').
  split; [done|]. split; [done|]. split; [done|]. split.
  - intros g [->|Hg]%elem_of_cons; [|by apply Hl']. rewrite Ho', Hl1; [by rewrite (settled_same s0 s)|].
    intros g Hg [= E]. by apply (Hne g).
  - intros n k Hnk. rewrite Ho'; [|intros g Hg; apply Hnk; by right]. apply Ho1. apply Hnk. by left.
Qed.

(** ** What the tally counts *)

Definition groupUpdated (s : store) (group : ServingGroup) : Prop := GroupStatus group <> ServingGroupDeleting /\ meaning s group = templateEquivalent.
Definition groupOutdated (s : store) (group : ServingGroup) : Prop := GroupStatus group <> ServingGroupDeleting /\ meaning s group <> templateEquivalent.
#[export] Instance groupUpdated_dec s group : Decision (groupUpdated s group).
Proof using. unfold groupUpdated. apply _. Defined.
#[export] Instance groupOutdated_dec s group : Decision (groupOutdated s group).
Proof using. unfold groupOutdated. apply _. Defined.

Abbreviation ordinals groups := ((fun group => ordinalOf (GroupName group)) <$> groups).

Record tallied (s : store) (groups : list ServingGroup) (t t' : Tally) : Prop := {
  tallied_available : available t' = available t + Z.of_nat (length (filter (fun g => settled s g = ServingGroupRunning) groups));
  tallied_progressing : progressingGroups t' = progressingGroups t ++ ordinals (filter (fun g => settled s g <> ServingGroupRunning) groups);
  tallied_updated : updated t' = updated t + Z.of_nat (length (filter (groupUpdated s) groups));
  tallied_updatedGroups : updatedGroups t' = updatedGroups t ++ ordinals (filter (groupUpdated s) groups);
  tallied_revisions r : default 0 (revisionCount t' !! r) = default 0 (revisionCount t !! r) +
    Z.of_nat (length (filter (fun g => groupOutdated s g /\ GroupRevision g = r) groups));
  tallied_positive : map_Forall (fun _ n => 0 < n) (revisionCount t) -> map_Forall (fun _ n => 0 < n) (revisionCount t');
  tallied_references : referencedRevisions t' = referencedRevisions t ++ (groups ≫= fun g => nonEmpty (GroupRevision g :: roleRevisions (roles g)));
}.

Lemma addGroup_tallied s group t : tallied s [group] t (addGroup s group t).
Proof.
  unfold addGroup. set (t1 := addAvailability group _ (addReferences group (roles group) t)).
  assert (E1 : available t1 = available t + Z.of_nat (length (filter (fun g => settled s g = ServingGroupRunning) [group]))).
  { unfold t1. cbn. case_bool_decide; case_decide; cbn; lia || done. }
  assert (E2 : progressingGroups t1 = progressingGroups t ++ ordinals (filter (fun g => settled s g <> ServingGroupRunning) [group])).
  { unfold t1. cbn. case_bool_decide; case_decide; cbn; rewrite ?app_nil_r; done. }
  assert (E3 : referencedRevisions t1 = referencedRevisions t ++ ([group] ≫= fun g => nonEmpty (GroupRevision g :: roleRevisions (roles g)))).
  { unfold t1. cbn [addAvailability addReferences referencedRevisions mbind list_bind]. by rewrite app_nil_r. }
  assert (E4 : updated t1 = updated t /\ updatedGroups t1 = updatedGroups t /\ revisionCount t1 = revisionCount t) by done.
  clearbody t1. destruct E4 as (E4 & E5 & E6). unfold addComparison.
  case_bool_decide as Ed; [|case_bool_decide as Ec]; split; cbn [available progressingGroups updated updatedGroups revisionCount referencedRevisions]; try done;
    rewrite ?E4, ?E5, ?E6; unfold groupUpdated, groupOutdated;
    try match goal with |- forall r : string, _ => intros r end; cbn;
    repeat case_decide; cbn; rewrite ?app_nil_r; try (done || lia || naive_solver).
  - rewrite lookup_insert. case_decide; [|naive_solver]. subst. cbn. lia.
  - rewrite lookup_insert. case_decide; [naive_solver|]. cbn. lia.
  - intros Hp. apply map_Forall_insert_2; [|done]. destruct (revisionCount t !! _) as [n|] eqn:En; cbn; [|lia]. specialize (Hp _ _ En). cbn in Hp. lia.
Qed.

Lemma tallied_app s g1 g2 t t1 t2 : tallied s g1 t t1 -> tallied s g2 t1 t2 -> tallied s (g1 ++ g2) t t2.
Proof.
  intros [A1 A2 A3 A4 A5 A6 A7] [B1 B2 B3 B4 B5 B6 B7]. split.
  - rewrite filter_app, length_app. lia.
  - by rewrite filter_app, fmap_app, app_assoc, <- A2.
  - rewrite filter_app, length_app. lia.
  - by rewrite filter_app, fmap_app, app_assoc, <- A4.
  - intros r. rewrite filter_app, length_app, B5, A5. lia.
  - auto.
  - by rewrite bind_app, app_assoc, <- A7.
Qed.

Lemma addGroups_tallied s groups : forall t, tallied s groups t (fold_left (fun t group => addGroup s group t) groups t).
Proof.
  induction groups as [|group groups IH]; intros t; cbn [fold_left].
  - split; cbn; rewrite ?app_nil_r; try done; lia || (intros; lia).
  - change (group :: groups) with ([group] ++ groups). eapply tallied_app; [apply addGroup_tallied|apply IH].
Qed.

(** ** The other loops *)

(** A group from the partition on is known to be outdated. *)
Definition rolloutIsActive (s : store) (limit : Z) (groups : list ServingGroup) : Prop :=
  exists i group, groups !! i = Some group /\ limit <= Z.of_nat i /\ meaning s group = templateDifferent.

Lemma hasUpdateable_spec s limit groups : forall (n : nat) h, reads h ->
  let '(active, h') := hasUpdateableOutdatedServingGroup revision a s limit (Z.of_nat n) groups h in
  reads h' /\ (active = true <-> exists i group, groups !! i = Some group /\ limit <= Z.of_nat (n + i) /\ meaning s group = templateDifferent).
Proof.
  induction groups as [|group groups IH]; intros n h Hh; cbn [hasUpdateableOutdatedServingGroup].
  { split; [done|]. split; [done|]. by intros (i & g & Hi & _). }
  assert (Hnext : forall h, reads h -> ~ (limit <= Z.of_nat n /\ meaning s group = templateDifferent) ->
    let '(active, h') := hasUpdateableOutdatedServingGroup revision a s limit (Z.of_nat n + 1) groups h in
    reads h' /\ (active = true <-> exists i g, (group :: groups) !! i = Some g /\ limit <= Z.of_nat (n + i) /\ meaning s g = templateDifferent)).
  { intros h0 Hh0 Hno. replace (Z.of_nat n + 1) with (Z.of_nat (S n)) by lia. specialize (IH (S n) h0 Hh0).
    destruct (hasUpdateableOutdatedServingGroup _ _ _ _ _ groups h0) as [active h']. destruct IH as [Hr ->]. split; [done|]. split.
    - intros (i & g & Hi & Hl & Hd). exists (S i), g. split; [done|]. split; [lia|done].
    - intros ([|i] & g & Hi & Hl & Hd); [injection Hi as <-; exfalso; apply Hno; split; [lia|done]|].
      exists i, g. split; [done|]. split; [lia|done]. }
  destruct (Z.leb_spec limit (Z.of_nat n)); [|by apply Hnext; [|lia]].
  destruct (compareGroup_reads s h group Hh) as [Hh1 Hc]. destruct (compareGroup revision a s h group) as [c h1]. cbn [fst snd] in *. subst c.
  case_bool_decide as Ed; [|by apply Hnext; [|tauto]]. split; [done|]. split; [|done]. intros _. exists 0%nat, group. split; [done|]. split; [lia|done].
Qed.

Definition isCurrent (s : store) (currentRevision : string) (group : ServingGroup) : Prop :=
  if decide (currentRevision = revision) then meaning s group = templateEquivalent else GroupRevision group = currentRevision.
#[export] Instance isCurrent_dec s currentRevision group : Decision (isCurrent s currentRevision group).
Proof using. unfold isCurrent. destruct (decide _); apply _. Defined.

Lemma countCurrent_spec s currentRevision groups : forall h, reads h ->
  let '(n, h') := countCurrent revision a s h currentRevision groups in
  reads h' /\ n = Z.of_nat (length (filter (isCurrent s currentRevision) groups)).
Proof.
  induction groups as [|group groups IH]; intros h Hh; cbn [countCurrent]; [done|].
  assert (Hstep : exists h1, reads h1 /\ (if bool_decide (currentRevision = revision) then let '(c, h) := compareGroup revision a s h group in (bool_decide (c = templateEquivalent), h)
      else (bool_decide (GroupRevision group = currentRevision), h)) = (bool_decide (isCurrent s currentRevision group), h1)).
  { case_bool_decide as E.
    - destruct (compareGroup_reads s h group Hh) as [Hh1 Hc]. destruct (compareGroup revision a s h group) as [c h1]. cbn [fst snd] in *. subst c.
      exists h1. split; [done|]. f_equal. apply bool_decide_ext. unfold isCurrent. by destruct (decide _).
    - exists h. split; [done|]. f_equal. apply bool_decide_ext. unfold isCurrent. by destruct (decide _). }
  destruct Hstep as (h1 & Hh1 & ->). specialize (IH h1 Hh1). destruct (countCurrent revision a s h1 currentRevision groups) as [n h2].
  destruct IH as [Hh2 ->]. split; [done|]. rewrite filter_cons. case_bool_decide; case_decide; cbn [length]; lia || done.
Qed.

(** ** The current revision *)

Definition outdatedWith (s : store) (groups : list ServingGroup) (r : string) : Z :=
  Z.of_nat (length (filter (fun g => groupOutdated s g /\ GroupRevision g = r) groups)).

(** All groups are updated, available and the desired number. *)
Definition complete (s : store) (groups : list ServingGroup) : Prop :=
  Z.of_nat (length (filter (groupUpdated s) groups)) = SpecReplicas (latest a) /\
  Z.of_nat (length (filter (fun g => settled s g = ServingGroupRunning) groups)) = SpecReplicas (latest a) /\
  Z.of_nat (length groups) = SpecReplicas (latest a).

(** The recorded revision is still that of the unfinished rollout. *)
Definition stillCurrent (s : store) (limit : Z) (groups : list ServingGroup) (recorded : string) : Prop :=
  recorded <> ""%string /\ (rolloutIsActive s limit groups \/ 0 < outdatedWith s groups recorded).

Definition revisionChosen (s : store) (limit : Z) (groups : list ServingGroup) (recorded chosen : string) : Prop :=
  (complete s groups /\ chosen = revision) \/
  (~ complete s groups /\ stillCurrent s limit groups recorded /\ chosen = recorded) \/
  (~ complete s groups /\ ~ stillCurrent s limit groups recorded /\ filter (groupOutdated s) groups = [] /\ chosen = revision) \/
  (~ complete s groups /\ ~ stillCurrent s limit groups recorded /\ exists r, 0 < outdatedWith s groups r /\
     (forall r', outdatedWith s groups r' <= outdatedWith s groups r) /\ chosen = if decide (r = ""%string) then revision else r).

Lemma fold_mostCommon l : forall best, let res := fold_left (fun (best : Z * string) '(rev, count) => if best.1 <? count then (count, rev) else best) l best in
  best.1 <= res.1 /\ (res = best \/ (res.2, res.1) ∈ l) /\ forall r n, (r, n) ∈ l -> n <= res.1.
Proof.
  induction l as [|[r n] l IH]; intros best; cbn [fold_left]; [split; [lia|]; split; [by left|]; by intros r n Hr%not_elem_of_nil|].
  destruct (IH (if best.1 <? n then (n, r) else best)) as (I1 & I2 & I3). cbv zeta.
  destruct (Z.ltb_spec best.1 n); cbn [fst snd] in *; (split; [lia|]; split).
  - destruct I2 as [->|?]; [right; by left|right; by right].
  - intros r' n' [[= -> ->]|Hr]%elem_of_cons; [lia|by apply (I3 r')].
  - destruct I2 as [->|?]; [by left|right; by right].
  - intros r' n' [[= -> ->]|Hr]%elem_of_cons; [lia|by apply (I3 r')].
Qed.

Lemma mostCommon_spec l : l <> [] -> (forall r n, (r, n) ∈ l -> 0 < n) ->
  exists n, (mostCommon l, n) ∈ l /\ forall r m, (r, m) ∈ l -> m <= n.
Proof.
  intros Hl Hpos. unfold mostCommon. destruct (fold_mostCommon l (0, ""%string)) as (_ & F2 & F3). cbv zeta in *.
  destruct (fold_left _ l _) as [n r]. cbn [fst snd] in *. exists n. split; [|done]. destruct F2 as [[= -> ->]|F2]; [|done].
  destruct l as [|[r n] l]; [done|]. pose proof (Hpos r n ltac:(by left)). pose proof (F3 r n ltac:(by left)). lia.
Qed.

Lemma outdatedWith_pos s groups r : 0 < outdatedWith s groups r -> filter (groupOutdated s) groups <> [].
Proof.
  unfold outdatedWith. intros Hl Hn. destruct (filter (fun g => groupOutdated s g /\ GroupRevision g = r) groups) as [|g l] eqn:E; [cbn in Hl; lia|].
  assert (Hg : g ∈ filter (fun g => groupOutdated s g /\ GroupRevision g = r) groups) by (rewrite E; by left).
  apply list_elem_of_filter in Hg as [[Ho _] Hg]. by apply (filter_nil_not_elem_of _ _ _ Hn Ho).
Qed.

Lemma outdatedWith_some s groups : filter (groupOutdated s) groups <> [] -> exists r, 0 < outdatedWith s groups r.
Proof.
  destruct (filter (groupOutdated s) groups) as [|g l] eqn:E; [done|]. intros _.
  assert (Hg : g ∈ filter (groupOutdated s) groups) by (rewrite E; by left). apply list_elem_of_filter in Hg as [Ho Hg].
  exists (GroupRevision g). unfold outdatedWith.
  destruct (filter (fun x => groupOutdated s x /\ GroupRevision x = GroupRevision g) groups) eqn:E'; [|cbn [length]; lia].
  exfalso. by eapply (filter_nil_not_elem_of _ _ g) in E'.
Qed.

Context (visit : gmap string Z -> list (string * Z)) (visit_all : forall m, visit m ≡ₚ map_to_list m).

Lemma chooseCurrentRevision_spec s limit groups counts active isComplete :
  (forall r, default 0 (counts !! r) = outdatedWith s groups r) -> map_Forall (fun _ n => 0 < n) counts ->
  (active = true <-> rolloutIsActive s limit groups) -> (isComplete = true <-> complete s groups) ->
  revisionChosen s limit groups (CurrentRevision (RecordedStatus (latest a))) (chooseCurrentRevision revision visit a counts active isComplete).
Proof using visit_all.
  intros Hc Hp Hact Hcom. unfold chooseCurrentRevision, revisionChosen. set (recorded := CurrentRevision _). rewrite (Hc recorded).
  destruct isComplete.
  { left. split; [by apply Hcom|]. destruct (bool_decide (recorded = _)); [done|]. by destruct (negb _). }
  assert (Hnc : ~ complete s groups) by (intros X; by apply Hcom in X). right. cbn [orb].
  assert (Hstill : stillCurrent s limit groups recorded <-> recorded <> ""%string /\ ((0 <? outdatedWith s groups recorded) || active = true)).
  { unfold stillCurrent. rewrite orb_true_iff, Hact, Z.ltb_lt. naive_solver. }
  destruct (negb (bool_decide _)) eqn:Ek.
  - left. split; [done|]. apply negb_true_iff, bool_decide_eq_false in Ek.
    case_bool_decide as Er; [done|]. destruct ((0 <? _) || active) eqn:Es; [|done]. split; [|done]. by apply Hstill.
  - right. apply negb_false_iff, bool_decide_eq_true in Ek.
    assert (Hns : ~ stillCurrent s limit groups recorded).
    { rewrite Hstill. intros [Hne Hs]. rewrite (bool_decide_false _ Hne), Hs in Ek. done. }
    clear Ek. case_bool_decide as Ez.
    + left. split; [done|]. split; [done|]. split; [|done]. apply map_size_empty_inv in Ez. destruct (filter (groupOutdated s) groups) eqn:E; [done|].
      destruct (outdatedWith_some s groups) as [r Hr]; [by rewrite E|]. rewrite <- Hc, Ez in Hr. done.
    + right. split; [done|]. split; [done|].
      assert (Hvisit : forall r n, (r, n) ∈ visit counts <-> counts !! r = Some n) by (intros r n; by rewrite (visit_all counts), elem_of_map_to_list).
      destruct (mostCommon_spec (visit counts)) as (n & Hin & Hmax).
      * intros E. apply Ez, map_size_empty_iff, map_to_list_empty_iff, Permutation_nil. by rewrite <- E.
      * intros r n Hr%Hvisit. by specialize (Hp _ _ Hr).
      * apply Hvisit in Hin.
        assert (Hn : outdatedWith s groups (mostCommon (visit counts)) = n) by (rewrite <- Hc, Hin; done).
        exists (mostCommon (visit counts)). specialize (Hp _ _ Hin). cbn in Hp. split; [lia|]. split.
        -- intros r'. rewrite Hn, <- Hc. destruct (counts !! r') as [m|] eqn:Em; cbn; [|lia]. apply (Hmax r'). by apply Hvisit.
        -- case_bool_decide; by case_decide.
Qed.
End attempt.

(** ** The recorded status *)

Section truth.
Context `{Workloads} `{ImageReference} `{StatusConditions} `{laws : !StatusConditionsLaws}.
Context (GetScaledValueFromIntOrPercent : IntOrString -> Z -> bool -> option Z) (LabelsString : labels -> string).
Context (revision : string) (policy : option roleRolloutPolicy) (collisions : option Z).
Context (visit : gmap string Z -> list (string * Z)) (visit_all : forall m, visit m ≡ₚ map_to_list m).

Abbreviation try_once := (attempt GetScaledValueFromIntOrPercent LabelsString revision policy collisions visit).

(** What the API server has after an attempt. *)
Definition recordedBy (a : Attempt) (out : statusOutcome) : ModelServingStatus :=
  match out with Write st _ => st | _ => RecordedStatus (latest a) end.

Section one.
Context (a : Attempt) (snap : string -> option Workload).

Abbreviation settledStatus := (settled a snap).

(** Nothing is left to create, delete or become ready. *)
Definition steady (s : store) (groups : list ServingGroup) : Prop :=
  (forall group, group ∈ groups -> settledStatus s group = ServingGroupRunning) /\ Z.of_nat (length groups) = SpecReplicas (latest a).

Record truthful (s : store) (limit : Z) (groups : list ServingGroup) (st : ModelServingStatus) : Prop := {
  truth_generation : ObservedGeneration st = Generation (latest a);
  truth_target : UpdateRevision st = revision;
  truth_replicas : Replicas st = Z.of_nat (length groups);
  truth_available : AvailableReplicas st = Z.of_nat (length (filter (fun g => settledStatus s g = ServingGroupRunning) groups));
  truth_updated : UpdatedReplicas st = Z.of_nat (length (filter (groupUpdated revision a snap s) groups));
  truth_current : CurrentReplicas st = Z.of_nat (length (filter (isCurrent revision a snap s (CurrentRevision st)) groups));
  truth_revision : revisionChosen revision a snap s limit groups (CurrentRevision (RecordedStatus (latest a))) (CurrentRevision st);
  truth_updating : rolloutIsActive revision a snap s limit groups ->
    holds (StatusConditionList st) ModelServingUpdateInProgress /\ ~ holds (StatusConditionList st) ModelServingAvailable;
  truth_progressing : ~ rolloutIsActive revision a snap s limit groups -> ~ steady s groups ->
    holds (StatusConditionList st) ModelServingProgressing /\ ~ holds (StatusConditionList st) ModelServingAvailable;
  truth_steady : ~ rolloutIsActive revision a snap s limit groups -> steady s groups ->
    holds (StatusConditionList st) ModelServingAvailable /\ ~ holds (StatusConditionList st) ModelServingProgressing /\
    ~ holds (StatusConditionList st) ModelServingUpdateInProgress;
  truth_blocked : from_option enabled false policy = true -> exists c,
    FindStatusCondition (StatusConditionList st) ModelServingCoordinatedRoleRolloutBlocked = Some c /\
    sameCondition c (rolloutCondition policy (Generation (latest a)));
  truth_selector : LabelSelector st = selectorOf LabelsString (latest a);
}.

(** A status that need not be written is the recorded one. *)
Lemma statusOf_unchanged groups t active current n st updated :
  statusOf LabelsString revision policy collisions a groups t active current n = (st, false, updated) -> st = RecordedStatus (latest a).
Proof.
  unfold statusOf.
  pose proof (SetCondition_spec (StatusConditionList (RecordedStatus (latest a))) (progressingGroups t) (updatedGroups t) active (progressActive a groups t) (clock a)) as H1'.
  destruct (SetConditionWithRolloutAndProgressState _ _ _ _ _ _) as [l1 c1]. destruct H1' as (_ & _ & H1').
  destruct (copyCollisionCount collisions _) as [n2 c2] eqn:E2.
  pose proof (setCondition_spec policy (Generation (latest a)) l1) as H3. destruct (setCondition policy _ l1) as [l3 c3]. destruct H3 as (_ & H3 & _).
  destruct (converged a groups t) eqn:Ec; rewrite ?orb_true_r; [by intros [= _ _ _]|]. rewrite orb_false_r.
  intros [= <- Hf _]. rewrite !orb_false_iff, !negb_false_iff, !bool_decide_eq_true, !Z.eqb_eq in Hf.
  destruct Hf as [[[[[[F1 F2] F3] F4] F5] F6] F7]. destruct F4 as [[[G1 G2] G3] G4], F5 as [G5 G6].
  rewrite (H3 F3), (H1' F1). rewrite <- G1, <- G2, <- G3, <- G4, <- G5, <- G6, <- F6, <- F7.
  assert (En : n2 = CollisionCount (RecordedStatus (latest a))).
  { unfold copyCollisionCount in E2. subst c2. destruct collisions as [k|]; [|congruence]. destruct (_ || _); congruence. }
  rewrite En. by destruct (RecordedStatus (latest a)).
Qed.

Lemma progressActive_steady s groups t : tallied revision a snap s groups noTally t -> progressActive a groups t = false <-> steady s groups.
Proof.
  intros Ht. unfold progressActive, steady. rewrite !orb_false_iff, !negb_false_iff, bool_decide_eq_true, !Z.eqb_eq.
  rewrite (tallied_progressing _ _ _ _ _ _ _ Ht), (tallied_available _ _ _ _ _ _ _ Ht). cbn [progressingGroups available noTally app].
  rewrite length_fmap, Z.add_0_l, length_zero_iff_nil. split.
  - intros [[Hp Hl] Ha]. split; [|done]. apply (filter_full (fun g => settledStatus s g = ServingGroupRunning) groups). lia.
  - intros [Hall Hl]. pose proof (proj2 (filter_full (fun g => settledStatus s g = ServingGroupRunning) groups) Hall) as E. split; [split; [|done]|lia].
    by apply filter_other.
Qed.

Lemma rolloutComplete_complete s groups t : tallied revision a snap s groups noTally t -> rolloutComplete a groups t = true <-> complete revision a snap s groups.
Proof.
  intros Ht. unfold rolloutComplete, complete. rewrite !andb_true_iff, !Z.eqb_eq.
  rewrite (tallied_updated _ _ _ _ _ _ _ Ht), (tallied_available _ _ _ _ _ _ _ Ht). cbn [updated available noTally]. rewrite !Z.add_0_l. tauto.
Qed.

Lemma count_int32 {A} (P : A -> Prop) `{!forall x, Decision (P x)} l : Z.of_nat (length l) < 2 ^ 31 -> int32 (Z.of_nat (length (filter P l))) = Z.of_nat (length (filter P l)).
Proof. intros Hl. apply int32_id. unfold in_int32. pose proof (length_filter P l). lia. Qed.

Lemma statusOf_truthful s limit groups t active (cur := chooseCurrentRevision revision visit a (revisionCount t) active (rolloutComplete a groups t)) :
  tallied revision a snap s groups noTally t -> Z.of_nat (length groups) < 2 ^ 31 -> (active = true <-> rolloutIsActive revision a snap s limit groups) ->
  truthful s limit groups (statusOf LabelsString revision policy collisions a groups t active cur
    (Z.of_nat (length (filter (isCurrent revision a snap s cur) groups)))).1.1.
Proof using visit_all laws.
  intros Ht Hlen Hact.
  assert (Hrev : revisionChosen revision a snap s limit groups (CurrentRevision (RecordedStatus (latest a))) cur).
  { apply chooseCurrentRevision_spec; [done| | |done|by apply rolloutComplete_complete].
    - intros r. rewrite (tallied_revisions _ _ _ _ _ _ _ Ht). done.
    - apply (tallied_positive _ _ _ _ _ _ _ Ht). apply map_Forall_empty. }
  clearbody cur. unfold statusOf.
  pose proof (SetCondition_spec (StatusConditionList (RecordedStatus (latest a))) (progressingGroups t) (updatedGroups t) active (progressActive a groups t) (clock a)) as Hp.
  destruct (SetConditionWithRolloutAndProgressState _ _ _ _ _ _) as [l1 c1]. destruct Hp as (Hp & Hx & _).
  destruct (copyCollisionCount collisions _) as [n2 c2].
  pose proof (setCondition_spec policy (Generation (latest a)) l1) as H3. destruct (setCondition policy _ l1) as [l3 c3]. destruct H3 as (Hk & _ & Hb).
  rewrite (tallied_updated _ _ _ _ _ _ _ Ht), (tallied_available _ _ _ _ _ _ _ Ht). cbn [updated available noTally]. rewrite !Z.add_0_l, !count_int32 by done.
  rewrite (int32_id (Z.of_nat (length groups))) by (unfold in_int32; lia).
  assert (Hex : forall type, exclusiveConditionTypes (MkCondition type ConditionTrue 0 "" "" 0) (progressCondition (progressingGroups t) (updatedGroups t) active (progressActive a groups t) (clock a)) = true ->
    type <> ModelServingCoordinatedRoleRolloutBlocked -> ~ holds l3 type).
  { intros type He Hne. rewrite (Hk type Hne). intros (c & Hc & <- & Hs). by apply (Hx c Hc). }
  assert (Hh : ConditionType (progressCondition (progressingGroups t) (updatedGroups t) active (progressActive a groups t) (clock a)) <> ModelServingCoordinatedRoleRolloutBlocked ->
    holds l3 (ConditionType (progressCondition (progressingGroups t) (updatedGroups t) active (progressActive a groups t) (clock a)))) by (intros Hne; by apply Hk).
  pose proof (progressActive_steady s groups t Ht) as Hst. clear Hk Hx Hp.
  split; cbn [fst ObservedGeneration UpdateRevision Replicas AvailableReplicas UpdatedReplicas CurrentReplicas CurrentRevision StatusConditionList LabelSelector]; try done.
  - destruct (converged a groups t) eqn:Ec; [|done]. unfold converged in Ec. rewrite !andb_true_iff, !Z.eqb_eq in Ec.
    rewrite (tallied_updated _ _ _ _ _ _ _ Ht), (tallied_available _ _ _ _ _ _ _ Ht) in Ec. cbn [updated available noTally] in Ec.
    rewrite !Z.add_0_l, !count_int32, int32_id in Ec by (done || unfold in_int32; lia). destruct Ec as [[[_ Eu] Ea] El].
    assert (Hcur : cur = revision) by (destruct Hrev as [[_ ->]|[[Hn _]|[[Hn _]|[Hn _]]]]; [done|destruct Hn; done..]).
    assert (Hall : forall g, g ∈ groups -> groupUpdated revision a snap s g) by (apply (filter_full (groupUpdated revision a snap s) groups); lia).
    rewrite (proj2 (filter_full (groupUpdated revision a snap s) groups) Hall). symmetry. f_equal. apply (filter_full (isCurrent revision a snap s cur) groups). intros g Hg. unfold isCurrent.
    rewrite Hcur, decide_True by done. by apply Hall.
  - intros Ha%Hact. rewrite Ha in *. split; [by apply Hh|by apply Hex].
  - intros Ha Hns. assert (active = false) as -> by (apply not_true_iff_false; tauto).
    assert (progressActive a groups t = true) as E by (apply not_false_iff_true; tauto). rewrite E in *. split; [by apply Hh|by apply Hex].
  - intros Ha Hs%Hst. assert (active = false) as -> by (apply not_true_iff_false; tauto). rewrite Hs in *. split; [by apply Hh|]. by split; apply Hex.
Qed.

(** The groups the store lists are there under their names. *)
Lemma listed_groups s ms groups : store_wf s -> GetServingGroupByModelServing s ms = inl groups ->
  NoDup (GroupName <$> groups) /\ forall group, group ∈ groups -> lookupGroup s ms (GroupName group) = Some group.
Proof.
  intros [Hwf _]. unfold GetServingGroupByModelServing, lookupGroup. destruct (s !! ms) as [m|] eqn:E; [|done]. intros [= <-].
  assert (Hn : forall k g, (k, g) ∈ map_to_list m -> GroupName g = k).
  { intros k g Hk%elem_of_map_to_list. apply (Hwf ms). unfold lookupGroup. by rewrite E. }
  split.
  - rewrite merge_sort_Permutation. assert (Ek : GroupName <$> (map_to_list m).*2 = (map_to_list m).*1).
    { rewrite <- list_fmap_compose. apply list_fmap_ext. intros i [k g] Hi%list_elem_of_lookup_2. by apply Hn. }
    rewrite Ek. apply NoDup_fst_map_to_list.
  - intros g. rewrite merge_sort_Permutation. intros Hg. apply list_elem_of_fmap in Hg as ([k g'] & -> & Hk). cbn [snd].
    rewrite (Hn _ _ Hk). by apply elem_of_map_to_list.
Qed.

(** The revisions that groups and instances of the store have. *)
Definition storeRefers (s : store) (groups : list ServingGroup) (r : string) : Prop :=
  exists group, group ∈ groups /\ (GroupRevision group = r \/ exists roleName instances roleID instance,
    roles group !! roleName = Some instances /\ instances !! roleID = Some instance /\ RoleRevision instance = r).

Lemma references_refer s groups r : r <> ""%string -> storeRefers s groups r ->
  r ∈ groups ≫= fun g => nonEmpty (GroupRevision g :: roleRevisions (roles g)).
Proof.
  intros Hr (group & Hg & Href). apply list_elem_of_bind. exists group. split; [|done]. apply list_elem_of_filter. split; [done|].
  destruct Href as [<-|(roleName & instances & roleID & instance & E1 & E2 & <-)]; [by left|right].
  unfold roleRevisions. apply list_elem_of_bind. exists (roleName, instances). split; [|by apply elem_of_map_to_list].
  apply list_elem_of_fmap. exists (roleID, instance). split; [done|by apply elem_of_map_to_list].
Qed.

(** What an attempt that finds groups has done. *)
Definition attempted (s s' : store) (groups : list ServingGroup) (limit : Z) (out : statusOutcome) : Prop :=
  (forall group, group ∈ groups -> lookupGroup s' (servingKey (serving (latest a))) (GroupName group) = Some (set_status group (settledStatus s group))) /\
  (forall n k, (forall group, group ∈ groups -> (n, k) <> (servingKey (serving (latest a)), GroupName group)) -> lookupGroup s' n k = lookupGroup s n k) /\
  truthful s limit groups (recordedBy a out) /\
  forall st refs, out = Write st (Some refs) -> steady s groups /\ ~ rolloutIsActive revision a snap s limit groups /\ hasProtectedReplicas (latest a) = false /\
    forall r, r <> ""%string -> storeRefers s groups r -> r ∈ refs.

Lemma attemptWithGroups_truthful s h groups limit : reads a snap h -> NoDup (GroupName <$> groups) ->
  (forall group, group ∈ groups -> lookupGroup s (servingKey (serving (latest a))) (GroupName group) = Some group) -> Z.of_nat (length groups) < 2 ^ 31 ->
  getPartition GetScaledValueFromIntOrPercent (partition (latest a)) (SpecReplicas (latest a)) = Some limit ->
  let '(s', h', out) := attemptWithGroups GetScaledValueFromIntOrPercent LabelsString revision policy collisions visit a s h groups in
  out <> Failed /\ attempted s s' groups limit out.
Proof using visit_all laws.
  intros Hh Hnd Hlk Hlen Hpart. unfold attemptWithGroups. rewrite Hpart.
  pose proof (hasUpdateable_spec revision a snap s limit groups 0%nat h Hh) as Hu. change (Z.of_nat 0) with 0 in Hu.
  destruct (hasUpdateableOutdatedServingGroup revision a s limit 0 groups h) as [active h1]. destruct Hu as [Hh1 Hact].
  pose proof (tallyGroups_spec revision a snap s groups Hnd s h1 noTally ltac:(done) Hh1 Hlk) as Htl.
  destruct (tallyGroups revision a s h1 groups noTally) as [[s1 r] h2]. destruct Htl as (Hh2 & -> & Hs1 & Hset & Hoth).
  pose proof (addGroups_tallied revision a snap s groups noTally) as Ht. set (t := fold_left _ groups noTally) in *. clearbody t.
  set (cur := chooseCurrentRevision _ _ _ _ _ _).
  pose proof (countCurrent_spec revision a snap s1 cur groups h2 Hh2) as Hc. destruct (countCurrent revision a s1 h2 cur groups) as [n h3]. destruct Hc as [Hh3 ->].
  assert (Hact' : active = true <-> rolloutIsActive revision a snap s limit groups) by exact Hact.
  assert (Ecur : filter (isCurrent revision a snap s1 cur) groups = filter (isCurrent revision a snap s cur) groups).
  { apply list_filter_iff. intros g. unfold isCurrent. rewrite (meaning_same revision a snap s1 s); [done|by symmetry]. }
  rewrite Ecur. pose proof (statusOf_truthful s limit groups t active Ht Hlen Hact') as Htrue. cbv zeta in Htrue. fold cur in Htrue.
  destruct (statusOf _ _ _ _ _ _ _ _ _ _) as [[st should] revised] eqn:Est. cbn [fst] in Htrue.
  assert (Hrec : forall cleanup, recordedBy a (if should then Write st cleanup else Unchanged) = st).
  { intros cleanup. destruct should; [done|]. cbn. symmetry. by eapply statusOf_unchanged. }
  split; [by destruct should|]. split; [done|]. split; [done|]. split; [by rewrite Hrec|].
  intros st' refs. destruct should; [|done]. intros [= _ Hcl]. destruct (_ && _) eqn:Ecl in Hcl; [|done]. injection Hcl as <-.
  rewrite !andb_true_iff, !negb_true_iff in Ecl. destruct Ecl as [[[[_ Epr] Ea] Ep] _].
  split; [by eapply progressActive_steady|]. split; [intros X%Hact'; congruence|]. split; [done|].
  intros r Hr Href. rewrite (tallied_references _ _ _ _ _ _ _ Ht). cbn [referencedRevisions noTally app]. by eapply references_refer.
Qed.
End one.

(** ** The retries *)

Lemma UpdateServingGroupStatus_wf s ms group status : store_wf s -> store_wf (UpdateServingGroupStatus s ms group status).2.
Proof. intros Hwf. exact (storeStep_wf (OpUpdateServingGroupStatus ms group status) s Hwf). Qed.

Lemma observeGroup_wf a s h group : store_wf s -> store_wf (observeGroup a s h group).1.1.
Proof.
  intros Hwf. unfold observeGroup. destruct (_ && _); [done|]. destruct (checkGroup a s h group) as [ready h1].
  pose proof (fun status => UpdateServingGroupStatus_wf s (servingKey (serving (latest a))) (GroupName group) status Hwf) as Hu.
  destruct (bool_decide (ready = _)); [|destruct (_ && _); [|done]].
  - specialize (Hu ServingGroupRunning). by destruct (UpdateServingGroupStatus _ _ _ _).
  - specialize (Hu ServingGroupCreating). by destruct (UpdateServingGroupStatus _ _ _ _).
Qed.

Lemma tallyGroups_wf a groups : forall s h t, store_wf s -> store_wf (tallyGroups revision a s h groups t).1.1.
Proof.
  induction groups as [|group groups IH]; intros s h t Hwf; cbn [tallyGroups]; [done|].
  assert (Hg : store_wf (tallyGroup revision a s h group t).1.1).
  { unfold tallyGroup. destruct (GetRolesByGroup _ _ _); [|done]. case_bool_decide; [done|].
    pose proof (observeGroup_wf a s h group Hwf) as Ho. destruct (observeGroup a s h group) as [[s1 [b|]] h1]; [|done]. by destruct (compareGroup _ _ _ _ _). }
  destruct (tallyGroup revision a s h group t) as [[s1 [t1|]] h1]; [by apply IH|done].
Qed.

Lemma attempt_wf a s h : store_wf s -> store_wf (try_once a s h).1.1.
Proof.
  intros Hwf. unfold attempt. destruct (GetServingGroupByModelServing _ _) as [groups|[]]; try done. destruct (_ && _); [done|].
  unfold attemptWithGroups. destruct (getPartition _ _ _) as [limit|]; [|done].
  destruct (hasUpdateableOutdatedServingGroup _ _ _ _ _ _ _) as [active h1].
  pose proof (tallyGroups_wf a groups s h1 noTally Hwf) as Ht. destruct (tallyGroups _ _ _ _ _ _) as [[s1 [t|]] h2]; [|done].
  destruct (countCurrent _ _ _ _ _ _) as [n h3]. by destruct (statusOf _ _ _ _ _ _ _ _ _ _) as [[st should] revised].
Qed.

Lemma retryOnConflict_spec tries : forall s h s' h' a before out, store_wf s ->
  retryOnConflict GetScaledValueFromIntOrPercent LabelsString revision policy collisions visit tries s h = (s', h', Done a before out) ->
  exists h0, try_once a before h0 = (s', h', out) /\ out <> Failed /\ store_wf before.
Proof.
  induction tries as [|[[a0|] reply] tries IH]; intros s h s' h' a before out Hwf; cbn [retryOnConflict]; [done| |done].
  pose proof (attempt_wf a0 s h Hwf) as Hwf1. destruct (try_once a0 s h) as [[s1 h1] o] eqn:Et. destruct o as [| |st cleanup]; [done| |].
  - intros [= <- <- <- <- <-]. by exists h.
  - destruct reply; [|by apply IH|done]. intros [= <- <- <- <- <-]. by exists h.
Qed.

End truth.

(** ** Concrete runs *)

#[local] Existing Instance plainReference.
#[local] Existing Instance plainWorkloads.

(** The first condition of a type is replaced in its place. *)
Fixpoint setFirst (l : list Condition) (new : Condition) : list Condition :=
  match l with
  | [] => [new]
  | c :: l =>
    if decide (ConditionType c = ConditionType new) then
      MkCondition (ConditionType new) (ConditionStatus new)
        (if decide (ConditionStatus c = ConditionStatus new) then LastTransitionTime c else LastTransitionTime new)
        (Reason new) (Message new) (ConditionGeneration new) :: l
    else c :: setFirst l new
  end.

#[local] Instance plainConditions : StatusConditions :=
  {| FindStatusCondition := fun l type => findName ConditionType type l; SetStatusCondition := setFirst |}.

#[local] Instance plainConditionsLaws : StatusConditionsLaws.
Proof.
  split; cbn [FindStatusCondition SetStatusCondition plainConditions].
  - done.
  - intros l c type Hne. induction l as [|x l IH]; cbn [setFirst].
    + rewrite filter_cons, decide_False by congruence. done.
    + destruct (decide (ConditionType x = ConditionType c)) as [E|E]; rewrite !filter_cons; cbn [ConditionType].
      * rewrite !decide_False by congruence. done.
      * case_decide; [by rewrite IH|done].
  - intros l c. induction l as [|x l IH]; cbn [setFirst].
    + exists c. rewrite findName_cons, decide_True by done. done.
    + destruct (decide (ConditionType x = ConditionType c)); rewrite findName_cons; cbn [ConditionType].
      * rewrite decide_True by done. by eexists.
      * by rewrite decide_False.
  - intros l c c'. induction l as [|x l IH]; cbn [setFirst]; [done|]. rewrite findName_cons.
    destruct (decide (ConditionType x = ConditionType c)) as [E|E].
    + intros [= ->] (E1 & E2 & E3 & E4). rewrite decide_True by done. f_equal. destruct c'; cbn in *. by subst.
    + intros Hf Hs. f_equal. by apply IH.
Defined.

Definition statusServing : ModelServing :=
  MkModelServing _ (MkName "default" "demo") "ms-uid" "1" ([MkRoleTemplate "decode" 1 0] : Workload) false None RoleRecreate None false.

Definition statusPod : Pod :=
  MkPod (MkMeta "default" (GeneratePodName "demo-0" "decode-0" 0) "u1"
           {[ModelServingNameLabelKey := "demo"; GroupNameLabelKey := "demo-0"; RoleLabelKey := "decode"; ServingPods.RoleIDKey := "decode-0"; RevisionLabelKey := "r2"]}
           [MkOwner GroupVersion "ModelServing" "demo" "ms-uid" true] None)
        "1" None "Always" [MkContainer "vllm" "v1" None 0] (MkPodStatus PodRunning [("Ready", "True")]%string [] []).

(** One group with its role running, whose status the pod events have not set. *)
Definition statusStore : store :=
  storeRun [OpAddRunningPod (MkName "default" "demo") "demo-0" (GeneratePodName "demo-0" "decode-0" 0) "r2" "h" "decode" "decode-0";
            OpUpdateRoleStatus (MkName "default" "demo") "demo-0" "decode" "decode-0" RoleRunning].

Definition freshStatus : ModelServingStatus := MkStatusRecord 1 1 1 0 0 "r1" "r1" None [] "".

Definition statusHistory : string -> option Workload := fun _ => Some ([MkRoleTemplate "decode" 1 0] : Workload).

Definition statusAttempt (replicas : Z) (st : ModelServingStatus) : Attempt :=
  MkAttempt (MkObject statusServing 2 replicas None [None] st) statusHistory [statusPod] None 7 false.

Definition statusRun (tries : list (option Attempt * answer)) (s : store) : store * revisionHistory * result :=
  updateModelServingStatusInRound (fun _ n _ => Some n) (fun _ => "selector"%string) "r2" None None map_to_list tries s newHistory.

Definition outcomeOf (r : store * revisionHistory * result) : option (store * statusOutcome) :=
  match r with (_, _, Done _ before out) => Some (before, out) | _ => None end.

Definition completeStatus : ModelServingStatus :=
  MkStatusRecord 2 1 1 1 1 "r2" "r2" None [MkCondition ModelServingAvailable ConditionTrue 7 "AllGroupsReady" AllGroupsIsReady 0] "selector".


(** After a conflict the next attempt starts from the group that is running. *)
Example status_conflict :
  (fun '(before, out) => (GetServingGroupStatus before (MkName "default" "demo") "demo-0", out)) <$>
    outcomeOf (statusRun [(Some (statusAttempt 1 freshStatus), Conflict); (Some (statusAttempt 1 freshStatus), Accepted)] statusStore) =
  Some (ServingGroupRunning, Write completeStatus (Some ["r2"; "r2"]%string)).
Proof. vm_compute. reflexivity. Qed.

(** A complete serving without a partition has its status written again at
    every reconcile, although nothing in it changed. *)
Example complete_status_rewritten :
  snd <$> outcomeOf (statusRun [(Some (statusAttempt 1 completeStatus), Accepted)] statusStore) = Some (Write completeStatus None).
Proof. vm_compute. reflexivity. Qed.

(** While a condition stays true its message does: the groups it names are
    those of the first time. *)
Example progress_message_stale :
  let '(l, _) := SetConditionWithRolloutAndProgressState [] [0; 1] [] false true 5 in
  (SetConditionWithRolloutAndProgressState l [1] [] false true 6).2 = false /\
  Message <$> (SetConditionWithRolloutAndProgressState l [1] [] false true 6).1 = ["Some groups is progressing: [0 1]"%string].
Proof. vm_compute. split; reflexivity. Qed.

(** A serving of which the store knows no group keeps its former counts and
    its former generation. *)
Example counts_of_missing_groups_kept :
  (fun '(_, out) => match out with Write st _ => Some (Replicas st, ObservedGeneration st, StatusConditionList st) | _ => None end) <$>
    outcomeOf (statusRun [(Some (statusAttempt 0 freshStatus), Accepted)] ∅) = Some (Some (1, 1, [])).
Proof. vm_compute. reflexivity. Qed.
