(* ===== verification/PodEvents.v ===== *)
(** * pkg/model-serving-controller/controller/model_serving_controller.go: pod events

    What the controller does when the informer reports a pod: the status of its
    role and of its group follow it, a failed pod is deleted after a grace
    period, and a deleted pod has its role or its group recreated. A handler
    runs on one state of the informer's cache and of the API server. *)
From S2P Require Import Prelude Names ServingStore ServingPods InPlaceState DeletionTargets RevisionHistory Readiness.
Local Open Scope Z_scope.

(** The key of a pod incarnation. *)
Record podGracePeriodKey := MkGraceKey { graceNamespace : string; graceName : string; graceUID : string }.

#[export] Instance podGracePeriodKey_eq_dec : EqDecision podGracePeriodKey.
Proof. solve_decision. Defined.
#[export] Program Instance podGracePeriodKey_countable : Countable podGracePeriodKey :=
  inj_countable' (fun k => (graceNamespace k, graceName k, graceUID k)) (fun p => MkGraceKey p.1.1 p.1.2 p.2) _.
Next Obligation. by intros []. Qed.

Definition getPodGracePeriodKey (pod : Pod) : podGracePeriodKey :=
  MkGraceKey (Namespace (Meta pod)) (PodName (Meta pod)) (UID (Meta pod)).

(** The role is empty for the pods of a whole group. *)
Record auxiliaryCleanupKey := MkCleanupKey { cleanupUID : string; cleanupGroup : string; cleanupRole : string; cleanupID : string }.

#[export] Instance auxiliaryCleanupKey_eq_dec : EqDecision auxiliaryCleanupKey.
Proof. solve_decision. Defined.
#[export] Program Instance auxiliaryCleanupKey_countable : Countable auxiliaryCleanupKey :=
  inj_countable' (fun k => (cleanupUID k, cleanupGroup k, cleanupRole k, cleanupID k)) (fun p => MkCleanupKey p.1.1.1 p.1.1.2 p.1.2 p.2) _.
Next Obligation. by intros []. Qed.

(** A recovery goroutine: sleeping, about to delete, or about to return. *)
Inductive recovery := Sleeping | Deleting | Returning.

(** The state of the controller that the handlers change; [queue] holds the
    model servings to reconcile. *)
Record World := MkWorld {
  state : store;
  graceMap : gset podGracePeriodKey;
  goroutines : list (podGracePeriodKey * recovery);
  queue : gset NamespacedName;
  podDeletions : gmap auxiliaryCleanupKey podDeletionTargets;
}.

Definition setState (w : World) (s : store) : World := MkWorld s (graceMap w) (goroutines w) (queue w) (podDeletions w).
Definition setDeletions (w : World) (d : gmap auxiliaryCleanupKey podDeletionTargets) : World :=
  MkWorld (state w) (graceMap w) (goroutines w) (queue w) d.

Section events.
Context `{Workloads} `{ImageReference}.

(** What a handler finds outside: the informer's pods and pod groups, the API
    server, the plugins, and the listers. The answers to cleanup calls are
    whether they succeed. *)
Record Env := MkEnv {
  servings : NamespacedName -> option ModelServing;
  initialSync : bool;
  cache : list Pod;
  podGroups : string -> option nat;
  fetch : string -> option Workload;
  hashFromRevision : string -> string -> option string;
  livePods : option (list Pod);
  onPodReady : Workload -> bool;
  prepareRoleCleanup : auxiliaryCleanupKey -> bool;
  deletePodGroup : string -> bool;
  deletions : auxiliaryCleanupKey -> Answers;
  remaining : auxiliaryCleanupKey -> option (list ObjectMeta);
  runRoleDeletePlugins : auxiliaryCleanupKey -> bool;
}.

Definition enqueueModelServing (ms : ModelServing) (w : World) : World :=
  MkWorld (state w) (graceMap w) (goroutines w) ({[servingKey ms]} ∪ queue w) (podDeletions w).

Definition deletionOwner (ms : ModelServing) : Owner :=
  DeletionTargets.MkServing (ServingStore.Namespace (servingKey ms)) (ServingStore.Name (servingKey ms)) (servingUID ms).

(** ** Identities *)

Definition GetModelServingAndGroupByLabel (podLabels : labels) : option (string * string) :=
  name ← podLabels !! ModelServingNameLabelKey; group ← podLabels !! GroupNameLabelKey; Some (name, group).

Definition getModelServingByChildResource (env : Env) (meta : ObjectMeta) : option (ModelServing * string) :=
  '(name, group) ← GetModelServingAndGroupByLabel (Labels meta);
  ms ← servings env (MkName (Namespace meta) name);
  Some (ms, group).

Definition shouldSkipHandling (ms : ModelServing) (meta : ObjectMeta) : bool := negb (IsOwnedByModelServingWithUID meta (servingUID ms)).

(** The label of the hash, or the hash of the pod's revision. *)
Definition resolveRoleTemplateHash (env : Env) (roleName : string) (meta : ObjectMeta) : string :=
  if negb (bool_decide (ObjectRoleTemplateHash meta = ""%string)) then ObjectRoleTemplateHash meta
  else if bool_decide (ObjectRevision meta = ""%string) then ""%string
  else default ""%string (hashFromRevision env (ObjectRevision meta) roleName).

(** ** A pod that is not available *)

(** A running group is creating again; the flag says that no error was returned. *)
Definition leaveRunning (ms : ModelServing) (group : string) (w : World) : World * bool :=
  if bool_decide (GetServingGroupStatus (state w) (servingKey ms) group = ServingGroupRunning) then
    let '(err, s) := UpdateServingGroupStatus (state w) (servingKey ms) group ServingGroupCreating in (setState w s, bool_decide (err = None))
  else (w, true).

Definition markPodUnavailable (ms : ModelServing) (group : string) (pod : Pod) (w : World) : World * bool :=
  let key := servingKey ms in
  let s := DeleteRunningPodFromServingGroup (state w) key group (PodName (Meta pod)) in
  let roleName := GetRoleName (Meta pod) in
  let roleID := GetRoleID (Meta pod) in
  let s := if bool_decide (GetRoleStatus s key group roleName roleID = RoleRunning)
           then (UpdateRoleStatus s key group roleName roleID RoleCreating).2 else s in
  leaveRunning ms group (setState w s).

Definition addServingGroupAndRoleFromPod (env : Env) (ms : ModelServing) (group : string) (pod : Pod) (w : World) : World :=
  if initialSync env then w
  else
    let roleName := GetRoleName (Meta pod) in
    setState w (AddServingGroupAndRole (state w) (servingKey ms) group (ObjectRevision (Meta pod))
                  (resolveRoleTemplateHash env roleName (Meta pod)) roleName (GetRoleID (Meta pod))).

Definition handleInPlaceUpdatingPod (env : Env) (ms : ModelServing) (group : string) (pod : Pod) (w : World) : World :=
  enqueueModelServing ms (markPodUnavailable ms group pod (addServingGroupAndRoleFromPod env ms group pod w)).1.

(** A grace period that is not positive is none. *)
Definition gracePeriod (ms : ModelServing) : bool := 0 <? default 0 (restartGracePeriodSeconds ms).

Definition handleErrorPod (ms : ModelServing) (group : string) (pod : Pod) (w : World) : World :=
  if bool_decide (recoveryPolicy ms = NoneRestartPolicy) && UnexpectedRestart (StateOf pod) pod && negb (IsPodFailed (Status pod)) then
    enqueueModelServing ms (markPodUnavailable ms group pod w).1
  else
    let key := getPodGracePeriodKey pod in
    if bool_decide (key ∈ graceMap w) then w
    else
      let '(w', ok) := markPodUnavailable ms group pod w in
      if ok then
        enqueueModelServing ms
          (MkWorld (state w') ({[key]} ∪ graceMap w') (goroutines w' ++ [(key, if gracePeriod ms then Sleeping else Deleting)]) (queue w') (podDeletions w'))
      else w'.

(** ** A pod that is ready *)

(** [None] when the hook fails; the flag is that the revision resolved. *)
Definition readyHook (env : Env) (ms : ModelServing) (pod : Pod) : option bool :=
  if hasPlugins ms || negb (bool_decide (ObjectRevision (Meta pod) = ""%string)) then
    match (workload (fetch env) newHistory (ObjectRevision (Meta pod))).1 with
    | None => Some false
    | Some w => if onPodReady env w then Some true else None
    end
  else if onPodReady env (desired ms) then Some true else None.

(** The role becomes running when its pods are ready; the flag is that it did. *)
Definition roleBecomesRunning (env : Env) (ms : ModelServing) (group : string) (pod : Pod) (w : World) : World * bool :=
  let key := servingKey ms in
  let roleName := GetRoleName (Meta pod) in
  let roleID := GetRoleID (Meta pod) in
  match (checkRoleReadyInRound ms (fetch env) (state w) (cache env) (livePods env) newHistory group roleName roleID).1 with
  | Some true =>
    let current := GetRoleStatus (state w) key group roleName roleID in
    if negb (bool_decide (current = RoleRunning)) && negb (bool_decide (current = RoleDeleting)) then
      let '(err, s) := UpdateRoleStatus (state w) key group roleName roleID RoleRunning in
      if bool_decide (err = None) then
        ((if isCoordinatedRole ms roleName then enqueueModelServing ms (setState w s) else setState w s), true)
      else (setState w s, false)
    else (w, false)
  | _ => (w, false)
  end.

Definition handleReadyPod (env : Env) (ms : ModelServing) (group : string) (pod : Pod) (w : World) : World :=
  match readyHook env ms pod with
  | None => w
  | Some revisionOk =>
    let w := if revisionOk : bool then w else enqueueModelServing ms w in
    let key := servingKey ms in
    let roleName := GetRoleName (Meta pod) in
    let roleID := GetRoleID (Meta pod) in
    let w := setState w (AddRunningPodToServingGroup (state w) key group (PodName (Meta pod)) (ObjectRevision (Meta pod))
                           (resolveRoleTemplateHash env roleName (Meta pod)) roleName roleID) in
    let '(w, became) := roleBecomesRunning env ms group pod w in
    match (checkServingGroupReady ms (fetch env) (state w) (cache env) (livePods env) newHistory group).1 with
    | None => w
    | Some true =>
      let '(err, s) := UpdateServingGroupStatus (state w) key group ServingGroupRunning in
      if bool_decide (err = None) then enqueueModelServing ms (setState w s) else setState w s
    | Some false => if became then enqueueModelServing ms w else w
    end
  end.

(** ** Deletions *)

(** The [Delete] of a pod set, kept under its key, and the pods that replaced
    its targets: [None] is an error of the former, [Some None] of the latter. *)
Definition deletePods (env : Env) (ms : ModelServing) (key : auxiliaryCleanupKey) (w : World) : World * option (option (list string)) :=
  let '(d, _, ok) := Delete (deletionOwner ms) (deletions env key) (default noTargets (podDeletions w !! key)) in
  let w := setDeletions w (<[key := d]> (podDeletions w)) in
  (w, if ok then Some (replacements d (remaining env key)) else None).

Definition isRoleDeleted (env : Env) (ms : ModelServing) (s : store) (group roleName roleID : string) : bool :=
  bool_decide (GetRoleStatus s (servingKey ms) group roleName roleID = RoleDeleting) &&
  bool_decide (length (getPodsByIndex (cache env) roleIDIndexKey (roleKey ms group roleName roleID)) = 0%nat).

Definition isServingGroupDeleted (env : Env) (ms : ModelServing) (s : store) (group : string) : bool :=
  bool_decide (GetServingGroupStatus s (servingKey ms) group = ServingGroupDeleting) &&
  bool_decide (podGroups env group = Some 0%nat) &&
  bool_decide (length (getPodsByIndex (cache env) groupIndexKey (groupKey ms group)) = 0%nat).

Definition roleCleanupKey (ms : ModelServing) (group roleName roleID : string) : auxiliaryCleanupKey :=
  MkCleanupKey (servingUID ms) group roleName roleID.

(** The flag says that no error was returned; an error after the status is set
    queues the model serving again. *)
Definition DeleteRole (env : Env) (ms : ModelServing) (group roleName roleID : string) (w : World) : World * bool :=
  let key := servingKey ms in
  let '(err, s) := UpdateRoleStatus (state w) key group roleName roleID RoleDeleting in
  let w := setState w s in
  if negb (bool_decide (err = None)) then (w, false)
  else
    let ck := roleCleanupKey ms group roleName roleID in
    if negb (prepareRoleCleanup env ck) then (enqueueModelServing ms w, false)
    else
      match deletePods env ms ck w with
      | (w, None) | (w, Some None) => (enqueueModelServing ms w, false)
      | (w, Some (Some (_ :: _))) => (w, true)
      | (w, Some (Some [])) =>
        if negb (runRoleDeletePlugins env ck) then (enqueueModelServing ms w, false)
        else if isRoleDeleted env ms (state w) group roleName roleID then
          (enqueueModelServing ms (setDeletions (setState w (ServingStore.DeleteRole (state w) key group roleName roleID)) (delete ck (podDeletions w))), true)
        else (w, true)
      end.

Definition forgetGroupCleanup (uid group : string) (d : gmap auxiliaryCleanupKey podDeletionTargets) : gmap auxiliaryCleanupKey podDeletionTargets :=
  filter (fun '(k, _) => ~ (cleanupUID k = uid /\ cleanupGroup k = group)) d.

(** The instances of a group, as the two nested loops visit them. *)
Definition groupInstances (rolesByName : gmap string (gmap string Role)) : list (string * string) :=
  map_to_list rolesByName ≫= fun '(roleName, instances) => (fun '(roleID, _) => (roleName, roleID)) <$> map_to_list instances.

Definition deleteServingGroup (env : Env) (ms : ModelServing) (group : string) (w : World) : World * bool :=
  let key := servingKey ms in
  if bool_decide (GetServingGroupStatus (state w) key group = ServingGroupNotFound) then (w, true)
  else
    match GetRolesByGroup (state w) key group with
    | inr _ => (w, false)
    | inl rolesByName =>
      let '(err, s) := UpdateServingGroupStatus (state w) key group ServingGroupDeleting in
      let w := setState w s in
      if negb (bool_decide (err = None)) then (w, false)
      else
        let keys := (fun '(roleName, roleID) => roleCleanupKey ms group roleName roleID) <$> groupInstances rolesByName in
        if negb (forallb (prepareRoleCleanup env) keys) || negb (deletePodGroup env group) then (enqueueModelServing ms w, false)
        else
          match deletePods env ms (roleCleanupKey ms group "" "") w with
          | (w, None) => (enqueueModelServing ms w, false)
          | (w, Some None) => (w, false)
          | (w, Some (Some (_ :: _))) => (w, true)
          | (w, Some (Some [])) =>
            if negb (forallb (runRoleDeletePlugins env) keys) then (enqueueModelServing ms w, false)
            else if isServingGroupDeleted env ms (state w) group then
              (enqueueModelServing ms (setState (setDeletions w (forgetGroupCleanup (servingUID ms) group (podDeletions w)))
                                                (DeleteServingGroup (state w) key group)), true)
            else (w, true)
          end
    end.

(** A group or a role that is being deleted is left to the reconciliation. *)
Definition handleDeletionInProgress (ms : ModelServing) (group roleName roleID : string) (w : World) : option World :=
  if bool_decide (GetServingGroupStatus (state w) (servingKey ms) group = ServingGroupDeleting) ||
     (negb (bool_decide (roleName = ""%string)) && negb (bool_decide (roleID = ""%string)) &&
      bool_decide (GetRoleStatus (state w) (servingKey ms) group roleName roleID = RoleDeleting))
  then Some (enqueueModelServing ms w) else None.

Definition handleDeletedPod (env : Env) (ms : ModelServing) (group : string) (pod : Pod) (w : World) : World :=
  let key := servingKey ms in
  match recoveryPolicy ms with
  | ServingGroupRecreate => (deleteServingGroup env ms group w).1
  | RoleRecreate =>
    if bool_decide (GetServingGroupStatus (state w) key group = ServingGroupDeleting) then (deleteServingGroup env ms group w).1
    else
      let '(w, ok) := leaveRunning ms group w in
      if ok then (DeleteRole env ms group (GetRoleName (Meta pod)) (GetRoleID (Meta pod)) w).1 else w
  | NoneRestartPolicy => enqueueModelServing ms (markPodUnavailable ms group pod w).1
  end.

(** ** Events *)

Definition updatePod (env : Env) (pod : Pod) (w : World) : World :=
  if IsTerminating (Meta pod) then w
  else
    match getModelServingByChildResource env (Meta pod) with
    | None => w
    | Some (ms, group) =>
      if shouldSkipHandling ms (Meta pod) then w
      else
        let inPlaceState := StateOf pod in
        let crashed := IsPodFailed (Status pod) || UnexpectedRestart inPlaceState pod in
        if InProgress inPlaceState && crashed then handleErrorPod ms group pod w
        else if Updating inPlaceState pod then handleInPlaceUpdatingPod env ms group pod w
        else if IsRunningAndReady (Status pod) then
          let w := handleReadyPod env ms group pod w in if InProgress inPlaceState then enqueueModelServing ms w else w
        else if crashed then handleErrorPod ms group pod w
        else addServingGroupAndRoleFromPod env ms group pod (if bool_decide (is_Some (roleCoordination ms)) then enqueueModelServing ms w else w)
    end.

Definition deletePod (env : Env) (pod : Pod) (w : World) : World :=
  match getModelServingByChildResource env (Meta pod) with
  | None => w
  | Some (ms, group) =>
    let w := setState w (DeleteRunningPodFromServingGroup (state w) (servingKey ms) group (PodName (Meta pod))) in
    if shouldSkipHandling ms (Meta pod) then w
    else
      match handleDeletionInProgress ms group (GetRoleName (Meta pod)) (GetRoleID (Meta pod)) w with
      | Some w => w
      | None => handleDeletedPod env ms group pod w
      end
  end.

(** The deletion of a service or, without a role, of a pod group. *)
Definition deleteChild (env : Env) (meta : ObjectMeta) (roleName roleID : string) (w : World) : World :=
  match getModelServingByChildResource env meta with
  | None => w
  | Some (ms, group) =>
    if shouldSkipHandling ms meta then w
    else default (enqueueModelServing ms w) (handleDeletionInProgress ms group roleName roleID w)
  end.

Definition deleteService (env : Env) (meta : ObjectMeta) (w : World) : World := deleteChild env meta (GetRoleName meta) (GetRoleID meta) w.
Definition deletePodGroupEvent (env : Env) (meta : ObjectMeta) (w : World) : World := deleteChild env meta "" "" w.

(** Everything kept for the model serving goes. *)
Definition deleteModelServing (ms : ModelServing) (w : World) : World :=
  setDeletions (setState w (DeleteModelServing (state w) (servingKey ms))) (filter (fun '(k, _) => cleanupUID k <> servingUID ms) (podDeletions w)).

Inductive event :=
| PodUpdated (pod : Pod) | PodDeleted (pod : Pod) | ServiceDeleted (meta : ObjectMeta) | PodGroupDeleted (meta : ObjectMeta)
| ServingAdded (ms : ModelServing) | ServingDeleted (ms : ModelServing).

Definition handle (env : Env) (e : event) (w : World) : World :=
  match e with
  | PodUpdated pod => updatePod env pod w
  | PodDeleted pod => deletePod env pod w
  | ServiceDeleted meta => deleteService env meta w
  | PodGroupDeleted meta => deletePodGroupEvent env meta w
  | ServingAdded ms => enqueueModelServing ms w
  | ServingDeleted ms => deleteModelServing ms w
  end.

(** ** Statuses after an update of the store *)

Definition roleStatus (s : store) (n : NamespacedName) (g r i : string) : RoleStatus := GetRoleStatus s n g r i.
Definition groupStatus (s : store) (n : NamespacedName) (g : string) : ServingGroupStatus := GetServingGroupStatus s n g.

Lemma roleStatus_op op s n g r i : roleStatus (storeStep op s).2 n g r i = from_option rStatus RoleNotFound (vRole (specStep op (view s)).2 n g r i).
Proof.
  destruct (step_refines op s) as [(_ & _ & Hv) _]. rewrite <- Hv. unfold roleStatus, GetRoleStatus. cbn. by destruct (lookupRole _ _ _ _ _).
Qed.

Lemma groupStatus_op op s n g : groupStatus (storeStep op s).2 n g = from_option gStatus ServingGroupNotFound (vGroup (specStep op (view s)).2 n g).
Proof.
  destruct (step_refines op s) as [(_ & Hv & _) _]. rewrite <- Hv. unfold groupStatus, GetServingGroupStatus. cbn. by destruct (lookupGroup _ _ _).
Qed.

Lemma roleStatus_view s n g r i : roleStatus s n g r i = from_option rStatus RoleNotFound (vRole (view s) n g r i).
Proof. unfold roleStatus, GetRoleStatus. cbn. by destruct (lookupRole _ _ _ _ _). Qed.

Lemma groupStatus_view s n g : groupStatus s n g = from_option gStatus ServingGroupNotFound (vGroup (view s) n g).
Proof. unfold groupStatus, GetServingGroupStatus. cbn. by destruct (lookupGroup _ _ _). Qed.

(** Adding what a pod mentions creates its role and its group, if they are not there. *)
Lemma ensureBoth_status s m g' r' i' revision hash pods n g r i (v := ensureBoth (view s) m g' r' i' revision hash pods) :
  (from_option rStatus RoleNotFound (vRole v n g r i) = roleStatus s n g r i \/
   (n, g, r, i) = (m, g', r', i') /\ roleStatus s n g r i = RoleNotFound /\ from_option rStatus RoleNotFound (vRole v n g r i) = RoleCreating) /\
  (from_option gStatus ServingGroupNotFound (vGroup v n g) = groupStatus s n g \/
   (n, g) = (m, g') /\ groupStatus s n g = ServingGroupNotFound /\ from_option gStatus ServingGroupNotFound (vGroup v n g) = ServingGroupCreating).
Proof.
  rewrite roleStatus_view, groupStatus_view. unfold v, ensureBoth. cbn [setRole setGroup setKnown vRole vGroup]. split.
  - destruct (decide ((n, g, r, i) = (m, g', r', i'))) as [E|E]; [|by left]. injection E as -> -> -> ->.
    destruct (vRole (view s) m g' r' i') as [R|]; [by left|by right].
  - destruct (decide ((n, g) = (m, g'))) as [E|E]; [|by left]. injection E as -> ->.
    destruct (vGroup (view s) m g') as [G|]; [by left|by right].
Qed.

Lemma AddRunningPod_status s m g' pod revision hash r' i' n g r i : let s' := AddRunningPodToServingGroup s m g' pod revision hash r' i' in
  (roleStatus s' n g r i = roleStatus s n g r i \/
   (n, g, r, i) = (m, g', r', i') /\ roleStatus s n g r i = RoleNotFound /\ roleStatus s' n g r i = RoleCreating) /\
  (groupStatus s' n g = groupStatus s n g \/
   (n, g) = (m, g') /\ groupStatus s n g = ServingGroupNotFound /\ groupStatus s' n g = ServingGroupCreating).
Proof.
  intros s'. change s' with (storeStep (OpAddRunningPod m g' pod revision hash r' i') s).2. rewrite roleStatus_op, groupStatus_op. apply ensureBoth_status.
Qed.

Lemma AddServingGroupAndRole_status s m g' revision hash r' i' n g r i : let s' := AddServingGroupAndRole s m g' revision hash r' i' in
  (roleStatus s' n g r i = roleStatus s n g r i \/
   (n, g, r, i) = (m, g', r', i') /\ roleStatus s n g r i = RoleNotFound /\ roleStatus s' n g r i = RoleCreating) /\
  (groupStatus s' n g = groupStatus s n g \/
   (n, g) = (m, g') /\ groupStatus s n g = ServingGroupNotFound /\ groupStatus s' n g = ServingGroupCreating).
Proof.
  intros s'. change s' with (storeStep (OpAddServingGroupAndRole m g' revision hash r' i') s).2. rewrite roleStatus_op, groupStatus_op. apply ensureBoth_status.
Qed.

Lemma DeleteRunningPod_status s m g' pod n g r i : let s' := DeleteRunningPodFromServingGroup s m g' pod in
  roleStatus s' n g r i = roleStatus s n g r i /\ groupStatus s' n g = groupStatus s n g.
Proof.
  intros s'. change s' with (storeStep (OpDeleteRunningPod m g' pod) s).2. rewrite roleStatus_op, groupStatus_op, roleStatus_view, groupStatus_view.
  cbn [specStep snd setGroup vRole vGroup]. split; [done|]. destruct (decide ((n, g) = (m, g'))) as [E|E]; [|done]. injection E as -> ->.
  by destruct (vGroup (view s) m g').
Qed.

Lemma UpdateRoleStatus_status s m g' r' i' status n g r i : let '(err, s') := UpdateRoleStatus s m g' r' i' status in
  (err = None <-> is_Some (lookupRole s m g' r' i')) /\ (err <> None -> s' = s) /\
  roleStatus s' n g r i = (if decide ((n, g, r, i) = (m, g', r', i') /\ err = None) then status else roleStatus s n g r i) /\
  groupStatus s' n g = groupStatus s n g.
Proof.
  destruct (UpdateRoleStatus s m g' r' i' status) as [err s'] eqn:E. assert (Es : s' = (storeStep (OpUpdateRoleStatus m g' r' i' status) s).2) by (cbn; by rewrite E).
  destruct (step_refines (OpUpdateRoleStatus m g' r' i' status) s) as [_ Herr]. cbn [storeStep] in Herr. rewrite E in Herr. cbn [fst specStep] in Herr.
  assert (Herr' : err = None <-> is_Some (lookupRole s m g' r' i')).
  { cbn in Herr. destruct (lookupRole s m g' r' i'); cbn in Herr; [split; [by eexists|intros _; by apply bool_decide_eq_true in Herr]|].
    apply bool_decide_eq_false in Herr. split; [done|by intros [? ?]]. }
  split; [done|]. split.
  { revert E. unfold UpdateRoleStatus. destruct (s !! m) as [groups|]; [|by intros [= <- <-]]. destruct (groups !! g') as [G|]; [|by intros [= <- <-]].
    destruct (roles G !! r') as [roleMap|]; [|by intros [= <- <-]]. destruct (roleMap !! i'); [|by intros [= <- <-]]. by intros [= <- <-]. }
  rewrite Es, roleStatus_op, groupStatus_op, roleStatus_view, groupStatus_view. cbn [specStep].
  destruct (vRole (view s) m g' r' i') as [R|] eqn:ER; cbn [snd setRole vRole vGroup].
  - assert (err = None) as -> by (apply Herr'; cbn in ER; by destruct (lookupRole s m g' r' i')). split; [|done].
    destruct (decide ((n, g, r, i) = (m, g', r', i'))) as [Eq|Eq]; [by rewrite decide_True|by rewrite decide_False by tauto].
  - rewrite decide_False; [done|]. intros [_ ->]. cbn [fst] in Herr. by apply bool_decide_eq_false in Herr.
Qed.

Lemma UpdateServingGroupStatus_status s m g' status n g r i : let '(err, s') := UpdateServingGroupStatus s m g' status in
  (err = None <-> groupStatus s m g' <> ServingGroupNotFound \/ is_Some (lookupGroup s m g')) /\
  roleStatus s' n g r i = roleStatus s n g r i /\
  groupStatus s' n g = (if decide ((n, g) = (m, g') /\ err = None) then status else groupStatus s n g).
Proof.
  destruct (UpdateServingGroupStatus s m g' status) as [err s'] eqn:E.
  assert (Es : s' = (storeStep (OpUpdateServingGroupStatus m g' status) s).2) by (cbn; by rewrite E).
  destruct (step_refines (OpUpdateServingGroupStatus m g' status) s) as [_ Herr]. cbn [storeStep] in Herr. rewrite E in Herr. cbn [fst specStep] in Herr.
  assert (Herr' : err = None <-> is_Some (lookupGroup s m g')).
  { cbn in Herr. destruct (lookupGroup s m g'); cbn in Herr; [split; [by eexists|intros _; by apply bool_decide_eq_true in Herr]|].
    apply bool_decide_eq_false in Herr. split; [done|by intros [? ?]]. }
  split.
  { rewrite Herr'. split; [by right|]. intros [Hn|?]; [|done]. unfold groupStatus, GetServingGroupStatus in Hn. by destruct (lookupGroup s m g'). }
  rewrite Es, roleStatus_op, groupStatus_op, roleStatus_view, groupStatus_view. cbn [specStep].
  destruct (vGroup (view s) m g') as [G|] eqn:EG; cbn [snd setGroup vRole vGroup].
  - assert (err = None) as -> by (apply Herr'; cbn in EG; by destruct (lookupGroup s m g')). split; [done|].
    destruct (decide ((n, g) = (m, g'))) as [Eq|Eq]; [by rewrite decide_True|by rewrite decide_False by tauto].
  - split; [done|]. rewrite decide_False; [done|]. intros [_ ->]. cbn [fst] in Herr. by apply bool_decide_eq_false in Herr.
Qed.

Lemma DeleteRole_status s m g' r' i' n g r i : let s' := ServingStore.DeleteRole s m g' r' i' in
  roleStatus s' n g r i = (if decide ((n, g, r, i) = (m, g', r', i')) then RoleNotFound else roleStatus s n g r i) /\
  groupStatus s' n g = groupStatus s n g.
Proof.
  intros s'. change s' with (storeStep (OpDeleteRole m g' r' i') s).2. rewrite roleStatus_op, groupStatus_op, roleStatus_view, groupStatus_view.
  cbn [specStep snd setRole vRole vGroup]. split; [|done]. by destruct (decide _).
Qed.

Lemma DeleteServingGroup_status s m g' n g r i : let s' := DeleteServingGroup s m g' in
  roleStatus s' n g r i = (if decide ((n, g) = (m, g')) then RoleNotFound else roleStatus s n g r i) /\
  groupStatus s' n g = (if decide ((n, g) = (m, g')) then ServingGroupNotFound else groupStatus s n g).
Proof.
  intros s'. change s' with (storeStep (OpDeleteServingGroup m g') s).2. rewrite roleStatus_op, groupStatus_op, roleStatus_view, groupStatus_view.
  cbn [specStep snd vRole vGroup]. split; by destruct (decide _).
Qed.

Lemma DeleteModelServing_status s m n g r i : let s' := DeleteModelServing s m in
  roleStatus s' n g r i = (if decide (n = m) then RoleNotFound else roleStatus s n g r i) /\
  groupStatus s' n g = (if decide (n = m) then ServingGroupNotFound else groupStatus s n g).
Proof.
  intros s'. change s' with (storeStep (OpDeleteModelServing m) s).2. rewrite roleStatus_op, groupStatus_op, roleStatus_view, groupStatus_view.
  cbn [specStep snd vRole vGroup]. split; by destruct (decide _).
Qed.

(** ** The life of a role and of a group

    [target] is the instance a pod belongs to. A move is the change of a status
    that one event may make. *)

Definition roleTarget (ms : ModelServing) (group : string) (pod : Pod) : NamespacedName * string * string * string :=
  (servingKey ms, group, GetRoleName (Meta pod), GetRoleID (Meta pod)).

(** The event is about a pod of [ms] in [group], and is not ignored. *)
Definition handled (env : Env) (e : event) (pod : Pod) (ms : ModelServing) (group : string) : Prop :=
  getModelServingByChildResource env (Meta pod) = Some (ms, group) /\ IsOwnedByModelServingWithUID (Meta pod) (servingUID ms) = true /\
  (e = PodUpdated pod /\ IsTerminating (Meta pod) = false \/ e = PodDeleted pod).

(** The pod failed, restarted although no update made it, or is being updated. *)
Definition unavailable (pod : Pod) : bool :=
  IsPodFailed (Status pod) || UnexpectedRestart (StateOf pod) pod || Updating (StateOf pod) pod.

(** The store in which the readiness of the role is checked, and the one in
    which that of the group is. *)
Definition withReadyPod (env : Env) (ms : ModelServing) (group : string) (pod : Pod) (w : World) : World :=
  setState w (AddRunningPodToServingGroup (state w) (servingKey ms) group (PodName (Meta pod)) (ObjectRevision (Meta pod))
                (resolveRoleTemplateHash env (GetRoleName (Meta pod)) (Meta pod)) (GetRoleName (Meta pod)) (GetRoleID (Meta pod))).

Definition withReadyRole (env : Env) (ms : ModelServing) (group : string) (pod : Pod) (w : World) : World :=
  (roleBecomesRunning env ms group pod (withReadyPod env ms group pod w)).1.

Inductive roleMove (env : Env) (e : event) (w : World) (k : NamespacedName * string * string * string) : RoleStatus -> RoleStatus -> Prop :=
| role_same st : roleMove env e w k st st
| role_seen pod ms group : handled env e pod ms group -> e = PodUpdated pod -> k = roleTarget ms group pod ->
    roleMove env e w k RoleNotFound RoleCreating
| role_ready pod ms group st : handled env e pod ms group -> e = PodUpdated pod -> k = roleTarget ms group pod ->
    IsRunningAndReady (Status pod) = true -> st = RoleNotFound \/ st = RoleCreating ->
    instanceReady ms (resolve (fetch env)) (state (withReadyPod env ms group pod w)) (cache env) (livePods env) group (GetRoleName (Meta pod)) (GetRoleID (Meta pod)) ->
    roleMove env e w k st RoleRunning
| role_failed pod ms group : handled env e pod ms group -> k = roleTarget ms group pod ->
    e = PodUpdated pod /\ unavailable pod = true \/ e = PodDeleted pod /\ recoveryPolicy ms = NoneRestartPolicy ->
    roleMove env e w k RoleRunning RoleCreating
| role_deleting pod ms group st : handled env e pod ms group -> e = PodDeleted pod -> k = roleTarget ms group pod ->
    recoveryPolicy ms = RoleRecreate -> is_Some (lookupRole (state w) (servingKey ms) group (GetRoleName (Meta pod)) (GetRoleID (Meta pod))) ->
    roleMove env e w k st RoleDeleting
| role_removed pod ms group st : handled env e pod ms group -> e = PodDeleted pod -> k = roleTarget ms group pod ->
    recoveryPolicy ms = RoleRecreate ->
    getPodsByIndex (cache env) roleIDIndexKey (roleKey ms group (GetRoleName (Meta pod)) (GetRoleID (Meta pod))) = [] ->
    roleMove env e w k st RoleNotFound
| role_group_removed pod ms group r i st : handled env e pod ms group -> e = PodDeleted pod -> k = (servingKey ms, group, r, i) ->
    recoveryPolicy ms = ServingGroupRecreate -> podGroups env group = Some 0%nat ->
    getPodsByIndex (cache env) groupIndexKey (groupKey ms group) = [] -> roleMove env e w k st RoleNotFound
| role_serving_deleted ms g r i st : e = ServingDeleted ms -> k = (servingKey ms, g, r, i) -> roleMove env e w k st RoleNotFound.

Inductive groupMove (env : Env) (e : event) (w : World) (k : NamespacedName * string) : ServingGroupStatus -> ServingGroupStatus -> Prop :=
| group_same st : groupMove env e w k st st
| group_seen pod ms group : handled env e pod ms group -> e = PodUpdated pod -> k = (servingKey ms, group) ->
    groupMove env e w k ServingGroupNotFound ServingGroupCreating
| group_ready pod ms group st roles : handled env e pod ms group -> e = PodUpdated pod -> k = (servingKey ms, group) ->
    IsRunningAndReady (Status pod) = true ->
    rolesNeeded ms (resolve (fetch env)) (state (withReadyRole env ms group pod w)) group = Some roles ->
    groupReady ms (resolve (fetch env)) (state (withReadyRole env ms group pod w)) (cache env) (livePods env) group roles ->
    groupMove env e w k st ServingGroupRunning
| group_failed pod ms group : handled env e pod ms group -> k = (servingKey ms, group) ->
    e = PodUpdated pod /\ unavailable pod = true \/ e = PodDeleted pod /\ recoveryPolicy ms <> ServingGroupRecreate ->
    groupMove env e w k ServingGroupRunning ServingGroupCreating
| group_deleting pod ms group st : handled env e pod ms group -> e = PodDeleted pod -> k = (servingKey ms, group) ->
    recoveryPolicy ms = ServingGroupRecreate -> st <> ServingGroupNotFound -> groupMove env e w k st ServingGroupDeleting
| group_removed pod ms group st : handled env e pod ms group -> e = PodDeleted pod -> k = (servingKey ms, group) ->
    recoveryPolicy ms = ServingGroupRecreate -> podGroups env group = Some 0%nat ->
    getPodsByIndex (cache env) groupIndexKey (groupKey ms group) = [] -> groupMove env e w k st ServingGroupNotFound
| group_serving_deleted ms g st : e = ServingDeleted ms -> k = (servingKey ms, g) -> groupMove env e w k st ServingGroupNotFound.

(** Only the stores are compared. *)
Definition sameStatus (s s' : store) : Prop :=
  (forall n g r i, roleStatus s' n g r i = roleStatus s n g r i) /\ (forall n g, groupStatus s' n g = groupStatus s n g).

#[export] Instance sameStatus_equivalence : Equivalence sameStatus.
Proof.
  split; [by split|intros s t [H1 H2]; by split; intros; rewrite ?H1, ?H2|].
  intros s t u [H1 H2] [H3 H4]. split; intros; [by rewrite H3|by rewrite H4].
Qed.

(** An update that leaves the roles alone. *)
Lemma lookupRole_op op s n g r i : (forall v, vRole (specStep op v).2 = vRole v) ->
  (is_Some (lookupRole (storeStep op s).2 n g r i) <-> is_Some (lookupRole s n g r i)).
Proof.
  intros Hop. destruct (step_refines op s) as [(_ & _ & Hv) _]. specialize (Hv n g r i). rewrite Hop in Hv. cbn in Hv.
  destruct (lookupRole _ n g r i), (lookupRole s n g r i); split; done || (by intros [? ?]).
Qed.

Lemma leaveRunning_status ms group w : let '(w', ok) := leaveRunning ms group w in
  ok = true /\ graceMap w' = graceMap w /\ goroutines w' = goroutines w /\ podDeletions w' = podDeletions w /\ forall n g r i,
  roleStatus (state w') n g r i = roleStatus (state w) n g r i /\
  (is_Some (lookupRole (state w') n g r i) <-> is_Some (lookupRole (state w) n g r i)) /\
  groupStatus (state w') n g = (if decide ((n, g) = (servingKey ms, group) /\ groupStatus (state w) n g = ServingGroupRunning) then ServingGroupCreating
                                else groupStatus (state w) n g).
Proof.
  unfold leaveRunning. set (key := servingKey ms). change (GetServingGroupStatus (state w) key group) with (groupStatus (state w) key group).
  destruct (decide (groupStatus (state w) key group = ServingGroupRunning)) as [Eg|Eg]; [rewrite (bool_decide_true _ Eg)|rewrite (bool_decide_false _ Eg)].
  - pose proof (UpdateServingGroupStatus_status (state w) key group ServingGroupCreating) as Hu.
    assert (Hp : forall n g r i, is_Some (lookupRole (UpdateServingGroupStatus (state w) key group ServingGroupCreating).2 n g r i) <-> is_Some (lookupRole (state w) n g r i))
      by (intros; apply (lookupRole_op (OpUpdateServingGroupStatus key group ServingGroupCreating)); intros v; cbn; by destruct (vGroup v _ _)).
    destruct (UpdateServingGroupStatus (state w) key group ServingGroupCreating) as [err s].
    assert (Hok : err = None). { apply (Hu key group "" ""). left. by rewrite Eg. }
    split; [by apply bool_decide_eq_true|]. split; [done|]. split; [done|]. split; [done|]. intros n g r i. destruct (Hu n g r i) as (_ & Hr & Hg).
    cbn [state setState snd] in *. split; [done|]. split; [apply Hp|]. rewrite Hg. destruct (decide ((n, g) = (key, group))) as [Ek|Ek].
    + injection Ek as -> ->. by rewrite !decide_True.
    + by rewrite !decide_False by tauto.
  - split; [done|]. split; [done|]. split; [done|]. split; [done|]. intros n g r i. split; [done|]. split; [done|].
    rewrite decide_False; [done|]. intros [Ek Hg]. injection Ek as -> ->. by rewrite Hg in Eg.
Qed.

(** Marking a pod takes it out of the running pods and its role and group out of running. *)
Lemma markPodUnavailable_status ms group pod w : let '(w', ok) := markPodUnavailable ms group pod w in
  ok = true /\ graceMap w' = graceMap w /\ goroutines w' = goroutines w /\ podDeletions w' = podDeletions w /\ forall n g r i,
  roleStatus (state w') n g r i = (if decide ((n, g, r, i) = roleTarget ms group pod /\ roleStatus (state w) n g r i = RoleRunning) then RoleCreating
                                   else roleStatus (state w) n g r i) /\
  groupStatus (state w') n g = (if decide ((n, g) = (servingKey ms, group) /\ groupStatus (state w) n g = ServingGroupRunning) then ServingGroupCreating
                                else groupStatus (state w) n g).
Proof.
  unfold markPodUnavailable, roleTarget. set (key := servingKey ms). set (rn := GetRoleName (Meta pod)). set (ri := GetRoleID (Meta pod)).
  set (s1 := DeleteRunningPodFromServingGroup (state w) key group (PodName (Meta pod))).
  assert (H1 : sameStatus (state w) s1) by (split; intros; [by apply (DeleteRunningPod_status (state w) key group (PodName (Meta pod)) n g r i)|
    by apply (DeleteRunningPod_status (state w) key group (PodName (Meta pod)) n g "" "")]). destruct H1 as [R1 G1].
  set (s2 := if bool_decide (GetRoleStatus s1 key group rn ri = RoleRunning) then _ else s1).
  assert (H2 : forall n g r i, roleStatus s2 n g r i = (if decide ((n, g, r, i) = (key, group, rn, ri) /\ roleStatus (state w) n g r i = RoleRunning) then RoleCreating
    else roleStatus (state w) n g r i) /\ groupStatus s2 n g = groupStatus (state w) n g).
  { intros n g r i. unfold s2. change (GetRoleStatus s1 key group rn ri) with (roleStatus s1 key group rn ri). rewrite <- (R1 n g r i), <- (G1 n g).
    destruct (decide (roleStatus s1 key group rn ri = RoleRunning)) as [Er|Er]; [rewrite (bool_decide_true _ Er)|rewrite (bool_decide_false _ Er)].
    - pose proof (UpdateRoleStatus_status s1 key group rn ri RoleCreating n g r i) as Hu.
      destruct (UpdateRoleStatus s1 key group rn ri RoleCreating) as [err s]. destruct Hu as (He & _ & Hr & Hg). cbn [snd]. split; [|done].
      assert (Hok : err = None). { apply He. unfold roleStatus, GetRoleStatus in Er. by destruct (lookupRole s1 key group rn ri). }
      rewrite Hr. destruct (decide ((n, g, r, i) = (key, group, rn, ri))) as [Ek|Ek].
      + injection Ek as -> -> -> ->. by rewrite !decide_True.
      + by rewrite !decide_False by tauto.
    - split; [|done]. rewrite decide_False; [done|]. intros [Ek Hr]. injection Ek as -> -> -> ->. done. }
  clearbody s2. clear R1 G1. pose proof (leaveRunning_status ms group (setState w s2)) as Hl.
  destruct (leaveRunning ms group (setState w s2)) as [w' ok]. destruct Hl as (-> & -> & -> & -> & Hl). split; [done|]. split; [done|]. split; [done|]. split; [done|].
  intros n g r i. destruct (Hl n g r i) as (-> & _ & ->). cbn [state setState]. destruct (H2 n g r i) as [-> ->]. done.
Qed.

Lemma handleErrorPod_status ms group pod w n g r i (w' := handleErrorPod ms group pod w) :
  (roleStatus (state w') n g r i = roleStatus (state w) n g r i \/
   (n, g, r, i) = roleTarget ms group pod /\ roleStatus (state w) n g r i = RoleRunning /\ roleStatus (state w') n g r i = RoleCreating) /\
  (groupStatus (state w') n g = groupStatus (state w) n g \/
   (n, g) = (servingKey ms, group) /\ groupStatus (state w) n g = ServingGroupRunning /\ groupStatus (state w') n g = ServingGroupCreating).
Proof.
  unfold w', handleErrorPod. pose proof (markPodUnavailable_status ms group pod w) as Hm. destruct (markPodUnavailable ms group pod w) as [w1 ok].
  destruct Hm as (-> & _ & _ & _ & Hm). destruct (Hm n g r i) as [Hr Hg].
  assert (Hdone : (roleStatus (state w1) n g r i = roleStatus (state w) n g r i \/
   (n, g, r, i) = roleTarget ms group pod /\ roleStatus (state w) n g r i = RoleRunning /\ roleStatus (state w1) n g r i = RoleCreating) /\
  (groupStatus (state w1) n g = groupStatus (state w) n g \/
   (n, g) = (servingKey ms, group) /\ groupStatus (state w) n g = ServingGroupRunning /\ groupStatus (state w1) n g = ServingGroupCreating)).
  { rewrite Hr, Hg. clear. split; (case_decide as Ek; [right; by destruct Ek|by left]). }
  destruct (_ && _); [exact Hdone|]. case_bool_decide; [split; by left|exact Hdone].
Qed.

Lemma addFromPod_status env ms group pod w n g r i (w' := addServingGroupAndRoleFromPod env ms group pod w) :
  (roleStatus (state w') n g r i = roleStatus (state w) n g r i \/
   (n, g, r, i) = roleTarget ms group pod /\ roleStatus (state w) n g r i = RoleNotFound /\ roleStatus (state w') n g r i = RoleCreating) /\
  (groupStatus (state w') n g = groupStatus (state w) n g \/
   (n, g) = (servingKey ms, group) /\ groupStatus (state w) n g = ServingGroupNotFound /\ groupStatus (state w') n g = ServingGroupCreating).
Proof. unfold w', addServingGroupAndRoleFromPod. destruct (initialSync env); [split; by left|]. cbn [state setState]. apply AddServingGroupAndRole_status. Qed.

(** The role of a ready pod becomes running only if its pods are ready. *)
Lemma roleBecomesRunning_status env ms group pod w n g r i (w' := (roleBecomesRunning env ms group pod w).1) :
  (roleStatus (state w') n g r i = roleStatus (state w) n g r i \/
   (n, g, r, i) = roleTarget ms group pod /\ roleStatus (state w) n g r i <> RoleRunning /\ roleStatus (state w) n g r i <> RoleDeleting /\
   roleStatus (state w') n g r i = RoleRunning /\
   instanceReady ms (resolve (fetch env)) (state w) (cache env) (livePods env) group (GetRoleName (Meta pod)) (GetRoleID (Meta pod))) /\
  groupStatus (state w') n g = groupStatus (state w) n g.
Proof.
  unfold w', roleBecomesRunning.
  destruct (checkRoleReady_answer ms (fetch env) (resolve (fetch env)) (state w) (cache env) (livePods env) newHistory group (GetRoleName (Meta pod)) (GetRoleID (Meta pod))) as [_ ->]; [apply consistent_new|].
  destruct (roleAnswer _ _ _ _ _ _ _ _) as [[]|] eqn:Ec; [|split; [by left|done]|split; [by left|done]]. apply roleAnswer_true in Ec as Hready.
  destruct (negb _ && negb _) eqn:En; [|split; [by left|done]]. apply andb_true_iff in En as [E1 E2].
  apply negb_true_iff, bool_decide_eq_false in E1. apply negb_true_iff, bool_decide_eq_false in E2.
  pose proof (UpdateRoleStatus_status (state w) (servingKey ms) group (GetRoleName (Meta pod)) (GetRoleID (Meta pod)) RoleRunning n g r i) as Hu.
  destruct (UpdateRoleStatus (state w) _ _ _ _ _) as [err s]. destruct Hu as (_ & _ & Hr & Hg).
  assert (Hs : (roleStatus s n g r i = roleStatus (state w) n g r i \/ (n, g, r, i) = roleTarget ms group pod /\
    roleStatus (state w) n g r i <> RoleRunning /\ roleStatus (state w) n g r i <> RoleDeleting /\ roleStatus s n g r i = RoleRunning /\
    instanceReady ms (resolve (fetch env)) (state w) (cache env) (livePods env) group (GetRoleName (Meta pod)) (GetRoleID (Meta pod))) /\ groupStatus s n g = groupStatus (state w) n g).
  { split; [|done]. rewrite Hr. case_decide as Ek; [|by left]. right. destruct Ek as [Ek _]. injection Ek as -> -> -> ->. done. }
  destruct (bool_decide (err = None)); [|exact Hs]. by destruct (isCoordinatedRole _ _).
Qed.

Lemma handleReadyPod_status env pod ms group w e n g r i (w' := handleReadyPod env ms group pod w) :
  handled env e pod ms group -> e = PodUpdated pod -> IsRunningAndReady (Status pod) = true ->
  roleMove env e w (n, g, r, i) (roleStatus (state w) n g r i) (roleStatus (state w') n g r i) /\
  groupMove env e w (n, g) (groupStatus (state w) n g) (groupStatus (state w') n g).
Proof.
  intros Hh He Hready. unfold w', handleReadyPod. destruct (readyHook env ms pod) as [ok|]; [|split; constructor].
  set (w0 := if ok : bool then w else enqueueModelServing ms w). assert (Hw0 : state w0 = state w) by (unfold w0; by destruct ok).
  change (setState w0 _) with (withReadyPod env ms group pod w0).
  assert (E0 : state (withReadyPod env ms group pod w0) = state (withReadyPod env ms group pod w)) by (unfold withReadyPod; cbn; by rewrite Hw0).
  pose proof (AddRunningPod_status (state w) (servingKey ms) group (PodName (Meta pod)) (ObjectRevision (Meta pod))
    (resolveRoleTemplateHash env (GetRoleName (Meta pod)) (Meta pod)) (GetRoleName (Meta pod)) (GetRoleID (Meta pod)) n g r i) as [Ar Ag].
  change (AddRunningPodToServingGroup (state w) _ _ _ _ _ _ _) with (state (withReadyPod env ms group pod w)) in Ar, Ag.
  pose proof (roleBecomesRunning_status env ms group pod (withReadyPod env ms group pod w0) n g r i) as [Br Bg]. cbn zeta in Br, Bg.
  assert (E1 : state (roleBecomesRunning env ms group pod (withReadyPod env ms group pod w0)).1 = state (withReadyRole env ms group pod w)).
  { unfold withReadyRole, roleBecomesRunning. rewrite E0. destruct (checkRoleReadyInRound _ _ _ _ _ _ _ _ _).1 as [[]|]; [|done|done].
    destruct (_ && _); [|done]. destruct (UpdateRoleStatus _ _ _ _ _ _) as [err s]. destruct (bool_decide _); [|done]. by destruct (isCoordinatedRole _ _). }
  rewrite E0 in Br, Bg.
  destruct (roleBecomesRunning env ms group pod (withReadyPod env ms group pod w0)) as [w1 became]. cbn [fst] in *.
  assert (Hrole : roleMove env e w (n, g, r, i) (roleStatus (state w) n g r i) (roleStatus (state w1) n g r i)).
  { destruct Br as [->|(Ek & N1 & N2 & -> & Hin)].
    - destruct Ar as [->|(Ek & -> & ->)]; [constructor|]. by eapply role_seen.
    - eapply role_ready; try done. destruct Ar as [Ea|(_ & Ea & _)]; [rewrite Ea in N1, N2|by left]. by destruct (roleStatus (state w) n g r i); [right| | |left]. }
  assert (Hgroup : groupMove env e w (n, g) (groupStatus (state w) n g) (groupStatus (state w1) n g)).
  { rewrite Bg. destruct Ag as [->|(Ek & -> & ->)]; [constructor|]. by eapply group_seen. }
  destruct (checkServingGroupReady_answer ms (fetch env) (resolve (fetch env)) (state w1) (cache env) (livePods env) newHistory group) as [_ ->]; [apply consistent_new|].
  destruct (groupAnswer _ _ _ _ _ _) as [[]|] eqn:Ec; [|by destruct became|done]. apply groupAnswer_true in Ec as (roles & Hroles & Hgr).
  pose proof (UpdateServingGroupStatus_status (state w1) (servingKey ms) group ServingGroupRunning n g r i) as Hu.
  destruct (UpdateServingGroupStatus (state w1) _ _ _) as [err s]. destruct Hu as (_ & Hr & Hg).
  assert (Hs : roleMove env e w (n, g, r, i) (roleStatus (state w) n g r i) (roleStatus s n g r i) /\
    groupMove env e w (n, g) (groupStatus (state w) n g) (groupStatus s n g)).
  { rewrite Hr, Hg. split; [done|]. case_decide as Ek; [|done]. destruct Ek as [Ek _]. rewrite E1 in Hroles, Hgr. by eapply group_ready. }
  by destruct (bool_decide (err = None)).
Qed.

Lemma deletePods_state env ms key w w' o : deletePods env ms key w = (w', o) -> state w' = state w /\ graceMap w' = graceMap w /\ goroutines w' = goroutines w.
Proof. unfold deletePods. destruct (Delete _ _ _) as [[d sent] ok]. by intros [= <- <-]. Qed.

Lemma DeleteRole_event env ms group rn ri w n g r i (w' := (DeleteRole env ms group rn ri w).1) :
  groupStatus (state w') n g = groupStatus (state w) n g /\
  (roleStatus (state w') n g r i = roleStatus (state w) n g r i \/
   (n, g, r, i) = (servingKey ms, group, rn, ri) /\
     ((is_Some (lookupRole (state w) (servingKey ms) group rn ri) /\ roleStatus (state w') n g r i = RoleDeleting) \/
      (getPodsByIndex (cache env) roleIDIndexKey (roleKey ms group rn ri) = [] /\ roleStatus (state w') n g r i = RoleNotFound))).
Proof.
  unfold w', DeleteRole. pose proof (UpdateRoleStatus_status (state w) (servingKey ms) group rn ri RoleDeleting n g r i) as Hu.
  destruct (UpdateRoleStatus (state w) (servingKey ms) group rn ri RoleDeleting) as [err s]. destruct Hu as (He & _ & Hr & Hg).
  assert (Hmark : forall w1, state w1 = s -> groupStatus (state w1) n g = groupStatus (state w) n g /\
    (roleStatus (state w1) n g r i = roleStatus (state w) n g r i \/ (n, g, r, i) = (servingKey ms, group, rn, ri) /\
      ((is_Some (lookupRole (state w) (servingKey ms) group rn ri) /\ roleStatus (state w1) n g r i = RoleDeleting) \/
       (getPodsByIndex (cache env) roleIDIndexKey (roleKey ms group rn ri) = [] /\ roleStatus (state w1) n g r i = RoleNotFound)))).
  { intros w1 ->. split; [done|]. rewrite Hr. case_decide as Ek; [|by left]. destruct Ek as [Ek He']. right. split; [done|]. left. split; [by apply He|done]. }
  destruct (negb (bool_decide (err = None))); [by apply Hmark|]. destruct (negb (prepareRoleCleanup env _)); [by apply Hmark|].
  destruct (deletePods env ms _ _) as [w1 o] eqn:Ed. apply deletePods_state in Ed as (Es & _). cbn [state setState] in Es.
  destruct o as [[[|x l]|]|]; [|by apply Hmark|by apply Hmark|by apply Hmark]. destruct (negb _); [by apply Hmark|].
  destruct (isRoleDeleted env ms (state w1) group rn ri) eqn:Edel; [|by apply Hmark]. cbn [fst state enqueueModelServing setDeletions setState].
  unfold isRoleDeleted in Edel. apply andb_true_iff in Edel as [_ Epods]. apply bool_decide_eq_true, length_zero_iff_nil in Epods.
  destruct (DeleteRole_status (state w1) (servingKey ms) group rn ri n g r i) as [Dr Dg]. rewrite Dr, Dg, Es, Hg. split; [done|].
  case_decide as Ek; [by right; split; [done|right]|]. left. rewrite Hr, decide_False; [done|tauto].
Qed.

Lemma deleteServingGroup_event env ms group w n g r i (w' := (deleteServingGroup env ms group w).1)
  (gone := (n, g) = (servingKey ms, group) /\ podGroups env group = Some 0%nat /\ getPodsByIndex (cache env) groupIndexKey (groupKey ms group) = []) :
  (roleStatus (state w') n g r i = roleStatus (state w) n g r i \/ gone /\ roleStatus (state w') n g r i = RoleNotFound) /\
  (groupStatus (state w') n g = groupStatus (state w) n g \/ gone /\ groupStatus (state w') n g = ServingGroupNotFound \/
   (n, g) = (servingKey ms, group) /\ groupStatus (state w) n g <> ServingGroupNotFound /\ groupStatus (state w') n g = ServingGroupDeleting).
Proof.
  unfold w', deleteServingGroup. case_bool_decide as Enf; [split; by left|].
  destruct (GetRolesByGroup (state w) (servingKey ms) group) as [rolesByName|]; [|split; by left].
  pose proof (UpdateServingGroupStatus_status (state w) (servingKey ms) group ServingGroupDeleting n g r i) as Hu.
  destruct (UpdateServingGroupStatus (state w) (servingKey ms) group ServingGroupDeleting) as [err s]. destruct Hu as (_ & Hr & Hg).
  assert (Hmark : forall w1, state w1 = s -> (roleStatus (state w1) n g r i = roleStatus (state w) n g r i \/ gone /\ roleStatus (state w1) n g r i = RoleNotFound) /\
    (groupStatus (state w1) n g = groupStatus (state w) n g \/ gone /\ groupStatus (state w1) n g = ServingGroupNotFound \/
     (n, g) = (servingKey ms, group) /\ groupStatus (state w) n g <> ServingGroupNotFound /\ groupStatus (state w1) n g = ServingGroupDeleting)).
  { intros w1 ->. split; [by left|]. rewrite Hg. case_decide as Ek; [|by left]. destruct Ek as [Ek _]. right; right. split; [done|]. by injection Ek as -> ->. }
  destruct (negb (bool_decide (err = None))); [by apply Hmark|]. destruct (negb _ || negb _); [by apply Hmark|].
  destruct (deletePods env ms _ _) as [w1 o] eqn:Ed. apply deletePods_state in Ed as (Es & _). cbn [state setState] in Es.
  destruct o as [[[|x l]|]|]; [|by apply Hmark|by apply Hmark|by apply Hmark]. destruct (negb _); [by apply Hmark|].
  destruct (isServingGroupDeleted env ms (state w1) group) eqn:Edel; [|by apply Hmark]. cbn [fst state enqueueModelServing setDeletions setState].
  unfold isServingGroupDeleted in Edel. apply andb_true_iff in Edel as [Edel Epods]. apply andb_true_iff in Edel as [_ Epg].
  apply bool_decide_eq_true, length_zero_iff_nil in Epods. apply bool_decide_eq_true in Epg.
  destruct (DeleteServingGroup_status (state w1) (servingKey ms) group n g r i) as [Dr Dg]. rewrite Dr, Dg, Es.
  case_decide as Ek; [by split; right; [|left]|]. rewrite Hr, Hg, decide_False by tauto. split; by left.
Qed.

(** The moves of one update of a pod and of one deletion. *)
Definition moves (env : Env) (e : event) (w w' : World) : Prop := forall n g r i,
  roleMove env e w (n, g, r, i) (roleStatus (state w) n g r i) (roleStatus (state w') n g r i) /\
  groupMove env e w (n, g) (groupStatus (state w) n g) (groupStatus (state w') n g).

Lemma moves_same env e w w' : state w' = state w -> moves env e w w'.
Proof. intros E n g r i. rewrite E. split; constructor. Qed.

Lemma handleErrorPod_moves env pod ms group w : handled env (PodUpdated pod) pod ms group -> unavailable pod = true ->
  moves env (PodUpdated pod) w (handleErrorPod ms group pod w).
Proof.
  intros Hh Hu n g r i. destruct (handleErrorPod_status ms group pod w n g r i) as [[->|(Ek & -> & ->)] [->|(Eg & -> & ->)]]; split;
    first [constructor|eapply role_failed; [done|done|by left]|eapply group_failed; [done|done|by left]].
Qed.

Lemma addFromPod_moves env pod ms group w w0 : handled env (PodUpdated pod) pod ms group -> state w0 = state w ->
  moves env (PodUpdated pod) w (addServingGroupAndRoleFromPod env ms group pod w0).
Proof.
  intros Hh E n g r i. destruct (addFromPod_status env ms group pod w0 n g r i) as [Hr Hg]. cbv zeta in Hr, Hg. rewrite E in Hr, Hg. revert Hr Hg.
  intros [->|(Ek & -> & ->)] [->|(Eg & -> & ->)]; split;
    first [constructor|by eapply role_seen|by eapply group_seen].
Qed.

Lemma handleInPlaceUpdatingPod_moves env pod ms group w : handled env (PodUpdated pod) pod ms group -> unavailable pod = true ->
  moves env (PodUpdated pod) w (handleInPlaceUpdatingPod env ms group pod w).
Proof.
  intros Hh Hu n g r i. unfold handleInPlaceUpdatingPod. cbn [state enqueueModelServing].
  pose proof (markPodUnavailable_status ms group pod (addServingGroupAndRoleFromPod env ms group pod w)) as Hm.
  destruct (markPodUnavailable ms group pod _) as [w1 ok]. destruct Hm as (_ & _ & _ & _ & Hm). destruct (Hm n g r i) as [Hr Hg]. cbn [fst].
  destruct (addFromPod_status env ms group pod w n g r i) as [Ar Ag]. cbv zeta in Ar, Ag. rewrite Hr, Hg. clear Hr Hg Hm. split.
  - destruct Ar as [->|(Ek & -> & ->)].
    + case_decide as Ek; [|constructor]. destruct Ek as [Ek ->]. eapply role_failed; [done|done|by left].
    + rewrite decide_False by (by intros [_ ?]). by eapply role_seen.
  - destruct Ag as [->|(Ek & -> & ->)].
    + case_decide as Ek; [|constructor]. destruct Ek as [Ek ->]. eapply group_failed; [done|done|by left].
    + rewrite decide_False by (by intros [_ ?]). by eapply group_seen.
Qed.

Lemma updatePod_moves env pod w : moves env (PodUpdated pod) w (updatePod env pod w).
Proof.
  unfold updatePod. destruct (IsTerminating (Meta pod)) eqn:Et; [by apply moves_same|].
  destruct (getModelServingByChildResource env (Meta pod)) as [[ms group]|] eqn:Em; [|by apply moves_same].
  destruct (shouldSkipHandling ms (Meta pod)) eqn:Eskip; [by apply moves_same|]. unfold shouldSkipHandling in Eskip. apply negb_false_iff in Eskip.
  assert (Hh : handled env (PodUpdated pod) pod ms group) by (split; [done|]; split; [done|]; by left).
  destruct (InProgress (StateOf pod) && _) eqn:E1.
  { apply handleErrorPod_moves; [done|]. apply andb_true_iff in E1 as [_ E1]. unfold unavailable. by rewrite E1. }
  destruct (Updating (StateOf pod) pod) eqn:E2; [apply handleInPlaceUpdatingPod_moves; [done|]; unfold unavailable; by rewrite E2, orb_true_r|].
  destruct (IsRunningAndReady (Status pod)) eqn:E3.
  { intros n g r i. destruct (handleReadyPod_status env pod ms group w (PodUpdated pod) n g r i Hh eq_refl E3) as [Hr Hg]. by destruct (InProgress (StateOf pod)). }
  destruct (IsPodFailed (Status pod) || _) eqn:E4; [apply handleErrorPod_moves; [done|]; unfold unavailable; by rewrite E4|].
  apply addFromPod_moves; [done|]. by destruct (bool_decide _).
Qed.

Lemma deletePod_moves env pod w : moves env (PodDeleted pod) w (deletePod env pod w).
Proof.
  unfold deletePod. destruct (getModelServingByChildResource env (Meta pod)) as [[ms group]|] eqn:Em; [|by apply moves_same].
  set (w1 := setState w _).
  assert (H1 : forall n g r i, roleStatus (state w1) n g r i = roleStatus (state w) n g r i /\ groupStatus (state w1) n g = groupStatus (state w) n g)
    by (intros; apply DeleteRunningPod_status).
  assert (Hpresent : forall n g r i, is_Some (lookupRole (state w1) n g r i) <-> is_Some (lookupRole (state w) n g r i))
    by (intros; by apply (lookupRole_op (OpDeleteRunningPod (servingKey ms) group (PodName (Meta pod))))).
  clearbody w1. destruct (shouldSkipHandling ms (Meta pod)) eqn:Eskip.
  { intros n g r i. destruct (H1 n g r i) as [-> ->]. split; constructor. }
  unfold shouldSkipHandling in Eskip. apply negb_false_iff in Eskip.
  assert (Hh : handled env (PodDeleted pod) pod ms group) by (split; [done|]; split; [done|]; by right).
  unfold handleDeletionInProgress. change (GetServingGroupStatus (state w1) (servingKey ms) group) with (groupStatus (state w1) (servingKey ms) group).
  destruct (bool_decide (groupStatus (state w1) (servingKey ms) group = ServingGroupDeleting)) eqn:Edel; cbn [orb].
  { intros n g r i. cbn [state enqueueModelServing]. destruct (H1 n g r i) as [-> ->]. split; constructor. }
  apply bool_decide_eq_false in Edel. destruct (_ && _ && _).
  { intros n g r i. cbn [state enqueueModelServing]. destruct (H1 n g r i) as [-> ->]. split; constructor. }
  unfold handleDeletedPod. change (GetServingGroupStatus (state w1) (servingKey ms) group) with (groupStatus (state w1) (servingKey ms) group).
  destruct (recoveryPolicy ms) eqn:Ep.
  - intros n g r i. destruct (H1 n g r i) as [Er Eg]. destruct (deleteServingGroup_event env ms group w1 n g r i) as [Dr Dg]. cbv zeta in Dr, Dg. rewrite Er in Dr. rewrite Eg in Dg. split.
    + destruct Dr as [->|[(Ek & E1 & E2) ->]]; [constructor|]. injection Ek as -> ->. by eapply role_group_removed.
    + destruct Dg as [->|[[(Ek & E1 & E2) ->]|(Ek & Hn & ->)]]; [constructor|by eapply group_removed|by eapply group_deleting].
  - rewrite (bool_decide_false _ Edel).
    pose proof (leaveRunning_status ms group w1) as H2. destruct (leaveRunning ms group w1) as [w2 ok]. destruct H2 as (-> & _ & _ & _ & H2).
    intros n g r i. destruct (H2 n g r i) as (Er & _ & Hg2), (H1 n g r i) as [Er1 Eg1]. destruct (DeleteRole_event env ms group (GetRoleName (Meta pod)) (GetRoleID (Meta pod)) w2 n g r i) as [Dg Dr]. cbv zeta in Dg, Dr.
    rewrite Dg, Hg2, Eg1. rewrite Er, Er1 in Dr. split.
    + destruct Dr as [->|(Ek & [[Hin ->]|[Hnone ->]])]; [constructor| |by eapply role_removed].
      eapply role_deleting; try done. by apply Hpresent, H2.
    + clear Hg2. case_decide as Ek; [|constructor]. destruct Ek as [Ek ->]. eapply group_failed; [done|done|]. right. by rewrite Ep.
  - intros n g r i. cbn [state enqueueModelServing]. pose proof (markPodUnavailable_status ms group pod w1) as Hm.
    destruct (markPodUnavailable ms group pod w1) as [w2 ok]. destruct Hm as (_ & _ & _ & _ & Hm). destruct (Hm n g r i) as [Hr Hg]. cbn [fst].
    destruct (H1 n g r i) as [Er Eg]. rewrite Hr, Hg, Er, Eg. clear Hr Hg Hm. split.
    + case_decide as Ek; [|constructor]. destruct Ek as [Ek ->]. eapply role_failed; [done|done|by right].
    + case_decide as Ek; [|constructor]. destruct Ek as [Ek ->]. eapply group_failed; [done|done|]. right. by rewrite Ep.
Qed.

(** The life of a role and of a group: whatever event is handled, and
    whatever the API server and the plugins answer, a status only changes as its
    pods do. A role starts running on a ready pod of its own, when every member
    of the template it was created from is there, ready and not being updated,
    and a group when all instances of all its roles are; both stop running on a
    pod that failed, restarted or is updated in place; only the deletion of a
    pod starts a deletion, by the recovery policy; and an instance or a group is
    forgotten only when no pod of it is left. In particular a role that is being
    deleted never becomes anything else. *)
Theorem statuses_follow_pods env e w : moves env e w (handle env e w) /\
  forall n g r i, roleStatus (state w) n g r i = RoleDeleting ->
    roleStatus (state (handle env e w)) n g r i = RoleDeleting \/ roleStatus (state (handle env e w)) n g r i = RoleNotFound.
Proof.
  assert (Hm : moves env e w (handle env e w)).
  { destruct e as [pod|pod|meta|meta|ms|ms]; cbn [handle].
    - apply updatePod_moves.
    - apply deletePod_moves.
    - apply moves_same. unfold deleteService, deleteChild, handleDeletionInProgress. destruct (getModelServingByChildResource env meta) as [[ms group]|]; [|done].
      destruct (shouldSkipHandling ms meta); [done|]. by destruct (_ || _).
    - apply moves_same. unfold deletePodGroupEvent, deleteChild, handleDeletionInProgress. destruct (getModelServingByChildResource env meta) as [[ms group]|]; [|done].
      destruct (shouldSkipHandling ms meta); [done|]. by destruct (_ || _).
    - by apply moves_same.
    - intros n g r i. cbn [state deleteModelServing setDeletions setState]. destruct (DeleteModelServing_status (state w) (servingKey ms) n g r i) as [-> ->].
      case_decide as Ek; [|split; constructor]. subst n. split; [by eapply role_serving_deleted|by eapply group_serving_deleted]. }
  split; [done|]. intros n g r i Hd. destruct (Hm n g r i) as [Hr _]. rewrite Hd in Hr.
  inversion Hr; subst; try (by left); try (by right); by destruct_or?.
Qed.
End events.
