(* ===== verification/PodRecovery.v ===== *)
(** * pkg/model-serving-controller/controller/model_serving_controller.go: recovery

    [handlePodAfterGraceTime] runs in a goroutine of its own, next to the event
    handlers and the reconciliation: it sleeps, looks at the pod again, and
    deletes the failed incarnation. The goroutines take their steps in any
    order. *)
From S2P Require Import Prelude Names ServingStore ServingPods InPlaceState DeletionTargets RevisionHistory Readiness PodEvents.
Local Open Scope Z_scope.

Section recovery.
Context `{Workloads} `{ImageReference}.

(** What the lister answers after the grace period: the incarnation is still
    there and has not recovered. *)
Definition unrecovered (k : podGracePeriodKey) (answer : getResult Pod) : bool :=
  match answer with
  | Found pod => bool_decide (UID (Meta pod) = graceUID k) && (negb (IsRunningAndReady (Status pod)) || Updating (StateOf pod) pod)
  | _ => false
  end.

(** The steps of the controller: an event is handled; the reconciliation reports
    a pod of a timed-out update or changes what else it owns; a goroutine wakes
    up, sends its DELETE, or returns. *)
Inductive label :=
| LEvent (env : Env) (e : event)
| LTimedOut (ms : ModelServing) (group : string) (pod : Pod)
| LReconciled
| LWoke (k : podGracePeriodKey) (answer : getResult Pod)
| LDelete (k : podGracePeriodKey)
| LReturned (k : podGracePeriodKey).

Definition setGoroutines (w : World) (m : gset podGracePeriodKey) (l : list (podGracePeriodKey * recovery)) : World :=
  MkWorld (state w) m l (queue w) (podDeletions w).

Inductive step : World -> label -> World -> Prop :=
| step_event w env e : step w (LEvent env e) (handle env e w)
| step_timed_out w ms group pod : step w (LTimedOut ms group pod) (handleErrorPod ms group pod w)
| step_reconciled w s q d : step w LReconciled (MkWorld s (graceMap w) (goroutines w) q d)
| step_woke w l1 k l2 answer : goroutines w = l1 ++ (k, Sleeping) :: l2 ->
    step w (LWoke k answer) (setGoroutines w (graceMap w) (l1 ++ (k, if unrecovered k answer then Deleting else Returning) :: l2))
| step_delete w l1 k l2 : goroutines w = l1 ++ (k, Deleting) :: l2 ->
    step w (LDelete k) (setGoroutines w (graceMap w) (l1 ++ (k, Returning) :: l2))
| step_returned w l1 k l2 : goroutines w = l1 ++ (k, Returning) :: l2 ->
    step w (LReturned k) (setGoroutines w (graceMap w ∖ {[k]}) (l1 ++ l2)).

(** The steps taken, first to last. *)
Inductive steps (w : World) : list label -> World -> Prop :=
| steps_nil : steps w [] w
| steps_snoc tr w' l w'' : steps w tr w' -> step w' l w'' -> steps w (tr ++ [l]) w''.

(** A step on which the recovery of an incarnation starts. *)
Definition reports (l : label) (k : podGracePeriodKey) (ms : ModelServing) : Prop :=
  match l with
  | LEvent env (PodUpdated pod) => getPodGracePeriodKey pod = k /\ (exists group, handled env (PodUpdated pod) pod ms group) /\
      (IsPodFailed (Status pod) || UnexpectedRestart (StateOf pod) pod) = true
  | LTimedOut ms' _ pod => ms' = ms /\ getPodGracePeriodKey pod = k
  | _ => False
  end.

(** What a handler does to the goroutines: nothing, or one is started for an
    incarnation that has none. *)
Definition starts (l : label) (w w' : World) : Prop :=
  (graceMap w' = graceMap w /\ goroutines w' = goroutines w) \/
  exists k ms, reports l k ms /\ k ∉ graceMap w /\ graceMap w' = {[k]} ∪ graceMap w /\
    goroutines w' = goroutines w ++ [(k, if gracePeriod ms then Sleeping else Deleting)].

Lemma starts_same l w w' : graceMap w' = graceMap w -> goroutines w' = goroutines w -> starts l w w'.
Proof. by left. Qed.

Lemma handleErrorPod_starts l ms group pod w : reports l (getPodGracePeriodKey pod) ms -> starts l w (handleErrorPod ms group pod w).
Proof.
  intros Hl. unfold handleErrorPod. pose proof (markPodUnavailable_status ms group pod w) as Hm. destruct (markPodUnavailable ms group pod w) as [w1 ok].
  destruct Hm as (-> & E1 & E2 & _). destruct (_ && _); [by apply starts_same|]. case_bool_decide as Ek; [by apply starts_same|].
  right. exists (getPodGracePeriodKey pod), ms. cbn [graceMap goroutines enqueueModelServing]. by rewrite E1, E2.
Qed.

Lemma handleReadyPod_goroutines env ms group pod w : graceMap (handleReadyPod env ms group pod w) = graceMap w /\ goroutines (handleReadyPod env ms group pod w) = goroutines w.
Proof.
  unfold handleReadyPod. destruct (readyHook env ms pod) as [ok|]; [|done]. set (w0 := setState _ _).
  assert (E0 : graceMap w0 = graceMap w /\ goroutines w0 = goroutines w) by (unfold w0; by destruct ok). clearbody w0.
  assert (E1 : graceMap (roleBecomesRunning env ms group pod w0).1 = graceMap w0 /\ goroutines (roleBecomesRunning env ms group pod w0).1 = goroutines w0).
  { unfold roleBecomesRunning. destruct (checkRoleReadyInRound _ _ _ _ _ _ _ _ _).1 as [[]|]; [|done|done]. destruct (_ && _); [|done].
    destruct (UpdateRoleStatus _ _ _ _ _ _) as [err s]. destruct (bool_decide _); [|done]. by destruct (isCoordinatedRole _ _). }
  destruct (roleBecomesRunning env ms group pod w0) as [w1 became]. cbn [fst] in E1. destruct E0 as [<- <-], E1 as [<- <-].
  destruct (checkServingGroupReady _ _ _ _ _ _ _).1 as [[]|]; [|by destruct became|done].
  destruct (UpdateServingGroupStatus _ _ _ _) as [err s]. by destruct (bool_decide _).
Qed.

Lemma DeleteRole_goroutines env ms group r i w : graceMap (DeleteRole env ms group r i w).1 = graceMap w /\ goroutines (DeleteRole env ms group r i w).1 = goroutines w.
Proof.
  unfold DeleteRole. destruct (UpdateRoleStatus _ _ _ _ _ _) as [err s]. destruct (negb _); [done|]. destruct (negb _); [done|].
  destruct (deletePods _ _ _ _) as [w1 o] eqn:Ed. apply deletePods_state in Ed as (_ & E1 & E2). cbn in E1, E2.
  destruct o as [[[|x l]|]|]; try done. destruct (negb _); [done|]. by destruct (isRoleDeleted _ _ _ _ _ _).
Qed.

Lemma deleteServingGroup_goroutines env ms group w : graceMap (deleteServingGroup env ms group w).1 = graceMap w /\ goroutines (deleteServingGroup env ms group w).1 = goroutines w.
Proof.
  unfold deleteServingGroup. case_bool_decide; [done|]. destruct (GetRolesByGroup _ _ _) as [rolesByName|]; [|done].
  destruct (UpdateServingGroupStatus _ _ _ _) as [err s]. destruct (negb _); [done|]. destruct (_ || _); [done|].
  destruct (deletePods _ _ _ _) as [w1 o] eqn:Ed. apply deletePods_state in Ed as (_ & E1 & E2). cbn in E1, E2.
  destruct o as [[[|x l]|]|]; try done. destruct (negb _); [done|]. by destruct (isServingGroupDeleted _ _ _ _).
Qed.

Lemma markPodUnavailable_goroutines ms group pod w : graceMap (markPodUnavailable ms group pod w).1 = graceMap w /\ goroutines (markPodUnavailable ms group pod w).1 = goroutines w.
Proof. pose proof (markPodUnavailable_status ms group pod w) as Hm. destruct (markPodUnavailable ms group pod w). by destruct Hm as (_ & ? & ? & _). Qed.

Lemma addFromPod_goroutines env ms group pod w : graceMap (addServingGroupAndRoleFromPod env ms group pod w) = graceMap w /\
  goroutines (addServingGroupAndRoleFromPod env ms group pod w) = goroutines w.
Proof. unfold addServingGroupAndRoleFromPod. by destruct (initialSync env). Qed.

Lemma updatePod_starts env pod w : starts (LEvent env (PodUpdated pod)) w (updatePod env pod w).
Proof.
  unfold updatePod. destruct (IsTerminating (Meta pod)) eqn:Et; [by apply starts_same|].
  destruct (getModelServingByChildResource env (Meta pod)) as [[ms group]|] eqn:Em; [|by apply starts_same].
  destruct (shouldSkipHandling ms (Meta pod)) eqn:Es; [by apply starts_same|]. apply negb_false_iff in Es.
  assert (Hrep : (IsPodFailed (Status pod) || UnexpectedRestart (StateOf pod) pod) = true -> reports (LEvent env (PodUpdated pod)) (getPodGracePeriodKey pod) ms).
  { intros Hc. split; [done|]. split; [|done]. exists group. split; [done|]. split; [done|]. by left. }
  destruct (InProgress (StateOf pod) && _) eqn:E1.
  { apply handleErrorPod_starts, Hrep. by apply andb_true_iff in E1 as [_ ?]. }
  destruct (Updating (StateOf pod) pod).
  { apply starts_same; cbn [graceMap goroutines handleInPlaceUpdatingPod enqueueModelServing];
      [rewrite (proj1 (markPodUnavailable_goroutines _ _ _ _)); apply addFromPod_goroutines|rewrite (proj2 (markPodUnavailable_goroutines _ _ _ _)); apply addFromPod_goroutines]. }
  destruct (IsRunningAndReady (Status pod)).
  { destruct (handleReadyPod_goroutines env ms group pod w) as [E2 E3]. apply starts_same; by destruct (InProgress (StateOf pod)). }
  destruct (IsPodFailed (Status pod) || _) eqn:E4; [by apply handleErrorPod_starts, Hrep|].
  destruct (addFromPod_goroutines env ms group pod (if bool_decide (is_Some (roleCoordination ms)) then enqueueModelServing ms w else w)) as [E2 E3].
  apply starts_same; [rewrite E2|rewrite E3]; by destruct (bool_decide _).
Qed.

Lemma handle_starts env e w : starts (LEvent env e) w (handle env e w).
Proof.
  destruct e as [pod|pod|meta|meta|ms|ms]; cbn [handle]; [apply updatePod_starts| | | |by apply starts_same|by apply starts_same].
  - unfold deletePod. destruct (getModelServingByChildResource env (Meta pod)) as [[ms group]|]; [|by apply starts_same].
    destruct (shouldSkipHandling ms (Meta pod)); [by apply starts_same|]. unfold handleDeletionInProgress. destruct (_ || _); [by apply starts_same|].
    unfold handleDeletedPod. set (w1 := setState w _). pose proof (deleteServingGroup_goroutines env ms group w1) as [G1 G2].
    destruct (recoveryPolicy ms); [by apply starts_same| |].
    + case_bool_decide; [by apply starts_same|].
      pose proof (leaveRunning_status ms group w1) as Hl. destruct (leaveRunning ms group w1) as [w2 ok]. destruct Hl as (-> & E1 & E2 & _).
      destruct (DeleteRole_goroutines env ms group (GetRoleName (Meta pod)) (GetRoleID (Meta pod)) w2) as [E3 E4].
      apply starts_same; [by rewrite E3, E1|by rewrite E4, E2].
    + apply starts_same; cbn [graceMap goroutines enqueueModelServing]; [rewrite (proj1 (markPodUnavailable_goroutines _ _ _ _))|rewrite (proj2 (markPodUnavailable_goroutines _ _ _ _))]; done.
  - unfold deleteService, deleteChild, handleDeletionInProgress. destruct (getModelServingByChildResource env meta) as [[ms group]|]; [|by apply starts_same].
    destruct (shouldSkipHandling ms meta); [by apply starts_same|]. destruct (_ || _); by apply starts_same.
  - unfold deletePodGroupEvent, deleteChild, handleDeletionInProgress. destruct (getModelServingByChildResource env meta) as [[ms group]|]; [|by apply starts_same].
    destruct (shouldSkipHandling ms meta); [by apply starts_same|]. destruct (_ || _); by apply starts_same.
Qed.

(** ** The goroutines *)

(** The goroutine of [k] has a report after which it has not returned; it waits
    only when there is a grace period, and is about to delete only what was
    looked at again. *)
Definition running (tr : list label) (k : podGracePeriodKey) (phase : recovery) : Prop :=
  exists ta l tb ms, tr = ta ++ l :: tb /\ reports l k ms /\ LReturned k ∉ tb /\
    match phase with
    | Sleeping => gracePeriod ms = true /\ LDelete k ∉ tb
    | Deleting => LDelete k ∉ tb /\ (gracePeriod ms = true -> exists answer, LWoke k answer ∈ tb /\ unrecovered k answer = true)
    | Returning => True
    end.

Record recoveryOk (tr : list label) (w : World) : Prop := {
  ok_nodup : NoDup (goroutines w).*1;
  ok_map k : k ∈ graceMap w <-> k ∈ (goroutines w).*1;
  ok_running k phase : (k, phase) ∈ goroutines w -> running tr k phase;
}.

Lemma running_snoc tr l k phase : running tr k phase -> l <> LReturned k -> l <> LDelete k -> running (tr ++ [l]) k phase.
Proof.
  intros (ta & r & tb & ms & -> & Hr & Hret & Hp) H1 H2. exists ta, r, (tb ++ [l]), ms. split; [by rewrite <- app_assoc|]. split; [done|].
  split; [rewrite elem_of_app, list_elem_of_singleton; naive_solver|]. destruct phase; [|destruct Hp as [Hp1 Hp2]; split|done].
  - destruct Hp as [? Hd]. split; [done|]. rewrite elem_of_app, list_elem_of_singleton. naive_solver.
  - rewrite elem_of_app, list_elem_of_singleton. naive_solver.
  - intros Hg. destruct (Hp2 Hg) as (answer & Hin & Hu). exists answer. split; [apply elem_of_app; by left|done].
Qed.

(** A step of the goroutine of [k] leaves the others as they are. *)
Lemma other_goroutine tr w l1 k phase l2 : recoveryOk tr w -> goroutines w = l1 ++ (k, phase) :: l2 ->
  running tr k phase /\ forall k' phase', (k', phase') ∈ l1 ++ l2 -> k' <> k /\ running tr k' phase'.
Proof.
  intros [Hnd _ Hrun] E. split; [apply Hrun; rewrite E; apply elem_of_app; right; by left|].
  intros k' phase' Hin. split; [|apply Hrun; rewrite E, elem_of_app, elem_of_cons; apply elem_of_app in Hin as [?|?]; [by left|by right; right]].
  intros ->. rewrite E, fmap_app, fmap_cons in Hnd. apply NoDup_app in Hnd as (_ & Hd & Hnd). apply NoDup_cons in Hnd as [Hn _].
  apply elem_of_app in Hin as [Hin|Hin]; apply (list_elem_of_fmap_2 fst) in Hin; cbn in Hin; [apply (Hd _ Hin); by left|done].
Qed.

Lemma recoveryOk_move tr w l1 k phase phase' l2 l : recoveryOk tr w -> goroutines w = l1 ++ (k, phase) :: l2 ->
  (forall k', k' <> k -> l <> LReturned k' /\ l <> LDelete k') -> running (tr ++ [l]) k phase' ->
  recoveryOk (tr ++ [l]) (setGoroutines w (graceMap w) (l1 ++ (k, phase') :: l2)).
Proof.
  intros Hok E Hl Hk. destruct (other_goroutine _ _ _ _ _ _ Hok E) as [_ Hother]. destruct Hok as [Hnd Hmap Hrun].
  split; cbn [goroutines graceMap setGoroutines].
  - rewrite E in Hnd. rewrite fmap_app, fmap_cons in *. done.
  - intros k'. rewrite Hmap, E, !fmap_app, !fmap_cons. done.
  - intros k' p' Hin. rewrite elem_of_app, elem_of_cons in Hin. destruct Hin as [Hin|[[= -> ->]|Hin]]; [|done|];
      (destruct (Hother k' p') as [Hne Hr]; [apply elem_of_app; tauto|]; destruct (Hl k' Hne); by apply running_snoc).
Qed.

Lemma recoveryOk_starts tr w l w' : recoveryOk tr w -> (forall k, l <> LReturned k /\ l <> LDelete k) -> starts l w w' -> recoveryOk (tr ++ [l]) w'.
Proof.
  intros [Hnd Hmap Hrun] Hl [[E1 E2]|(k & ms & Hrep & Hk & E1 & E2)]; split; rewrite ?E1, ?E2.
  - done.
  - done.
  - intros k phase Hin. destruct (Hl k). by apply running_snoc; [apply Hrun| |].
  - rewrite fmap_app. apply NoDup_app. split; [done|]. split; [|apply NoDup_singleton]. cbn. intros x Hx ->%list_elem_of_singleton. by apply Hmap in Hx.
  - intros x. rewrite elem_of_union, elem_of_singleton, Hmap, fmap_app, elem_of_app. cbn. rewrite list_elem_of_singleton. tauto.
  - intros x phase. rewrite elem_of_app, list_elem_of_singleton. intros [Hin|[= -> ->]].
    + destruct (Hl x). by apply running_snoc; [apply Hrun| |].
    + exists tr, l, [], ms. split; [done|]. split; [done|]. split; [apply not_elem_of_nil|].
      destruct (gracePeriod ms) eqn:Eg; cbn; (split; [|apply not_elem_of_nil]) || (split; [apply not_elem_of_nil|]); done.
Qed.

Lemma step_recoveryOk tr w l w' : recoveryOk tr w -> step w l w' -> recoveryOk (tr ++ [l]) w'.
Proof.
  intros Hok Hs. destruct Hs as [w env e|w ms group pod|w s q d|w l1 k l2 answer E|w l1 k l2 E|w l1 k l2 E].
  - by eapply recoveryOk_starts; [|done|apply handle_starts].
  - eapply recoveryOk_starts; [done|done|]. by apply handleErrorPod_starts.
  - by eapply recoveryOk_starts; [| |apply starts_same].
  - destruct (other_goroutine _ _ _ _ _ _ Hok E) as [(ta & r & tb & ms & -> & Hr & Hret & Hg & Hd) _]. eapply recoveryOk_move; [done|done|done|].
    exists ta, r, (tb ++ [LWoke k answer]), ms. split; [by rewrite <- app_assoc|]. split; [done|].
    split; [rewrite elem_of_app, list_elem_of_singleton; naive_solver|]. destruct (unrecovered k answer) eqn:Eu; [|done].
    split; [rewrite elem_of_app, list_elem_of_singleton; naive_solver|]. intros _. exists answer. split; [|done]. apply elem_of_app. right. by left.
  - destruct (other_goroutine _ _ _ _ _ _ Hok E) as [(ta & r & tb & ms & -> & Hr & Hret & Hd & Hg) _]. eapply recoveryOk_move; [done|done| |].
    + intros k' Hne. split; [done|]. congruence.
    + exists ta, r, (tb ++ [LDelete k]), ms. split; [by rewrite <- app_assoc|]. split; [done|]. split; [|done].
      rewrite elem_of_app, list_elem_of_singleton. naive_solver.
  - destruct (other_goroutine _ _ _ _ _ _ Hok E) as [_ Hother]. destruct Hok as [Hnd Hmap Hrun].
    rewrite E, fmap_app, fmap_cons in Hnd. split; cbn [goroutines graceMap setGoroutines].
    + rewrite fmap_app. apply NoDup_app in Hnd as (N1 & N2 & N3). apply NoDup_cons in N3 as [N3 N4]. apply NoDup_app. split; [done|]. split; [|done].
      intros x Hx Hx'. apply (N2 x Hx). by right.
    + intros x. rewrite elem_of_difference, elem_of_singleton, Hmap, E, !fmap_app, !fmap_cons, !elem_of_app, elem_of_cons. cbn [fst].
      split; [tauto|]. intros Hx. split; [tauto|]. intros ->.
      apply NoDup_app in Hnd as (_ & N2 & N3). apply NoDup_cons in N3 as [N3 _]. destruct Hx as [Hx|Hx]; [apply (N2 _ Hx); by left|done].
    + intros k' phase' Hin. destruct (Hother k' phase' Hin) as [Hne Hr]. apply running_snoc; congruence || done.
Qed.

Lemma steps_recoveryOk w tr w' : graceMap w = ∅ -> goroutines w = [] -> steps w tr w' -> recoveryOk tr w'.
Proof.
  intros E1 E2 Hs. induction Hs as [|tr w1 l w2 Hs IH Hstep]; [|by eapply step_recoveryOk]. split; rewrite ?E1, ?E2; [constructor| |].
  - intros k. cbn. set_solver.
  - by intros k phase Hin%not_elem_of_nil.
Qed.

Lemma steps_split w tr1 l tr2 w' : steps w (tr1 ++ l :: tr2) w' -> exists w1 w2, steps w tr1 w1 /\ step w1 l w2.
Proof.
  remember (tr1 ++ l :: tr2) as tr eqn:E. intros Hs. revert tr1 l tr2 E. induction Hs as [|tr w1 x w2 Hs IH Hstep]; intros tr1 l tr2 E; [by destruct tr1|].
  destruct tr2 as [|y tr2 _] using rev_ind.
  - apply app_inj_tail in E as [-> ->]. by exists w1, w2.
  - rewrite app_comm_cons, app_assoc in E. apply app_inj_tail in E as [-> _]. by eapply IH.
Qed.

(** The steps of one goroutine to its end. *)
Lemma recovery_ends tr w k : recoveryOk tr w -> k ∈ graceMap w -> exists tr' w', steps w tr' w' /\ (length tr' <= 3)%nat /\ k ∉ graceMap w'.
Proof.
  intros [_ Hmap _] Hk. apply Hmap, list_elem_of_fmap in Hk as ([k' phase] & -> & Hin). cbn [fst].
  apply list_elem_of_split in Hin as (l1 & l2 & E).
  assert (Hlast : forall v, goroutines v = l1 ++ (k', Returning) :: l2 -> step v (LReturned k') (setGoroutines v (graceMap v ∖ {[k']}) (l1 ++ l2)))
    by (intros; by apply step_returned).
  assert (Hgone : forall v, k' ∉ graceMap (setGoroutines v (graceMap v ∖ {[k']}) (l1 ++ l2))) by (intros v; cbn; set_solver).
  destruct phase.
  - eexists ([LWoke k' Missing] ++ [LReturned k']), _. split; [|split; [cbn; lia|apply Hgone]].
    refine (steps_snoc _ [LWoke k' Missing] _ _ _ (steps_snoc _ [] _ _ _ (steps_nil _) (step_woke _ _ _ _ Missing E)) _). by apply Hlast.
  - eexists ([LDelete k'] ++ [LReturned k']), _. split; [|split; [cbn; lia|apply Hgone]].
    refine (steps_snoc _ [LDelete k'] _ _ _ (steps_snoc _ [] _ _ _ (steps_nil _) (step_delete _ _ _ _ E)) _). by apply Hlast.
  - eexists ([] ++ [LReturned k']), _. split; [|split; [cbn; lia|apply Hgone]]. refine (steps_snoc _ [] _ _ _ (steps_nil _) _). by apply Hlast.
Qed.

(** C6: the recovery of failed pods, for every interleaving of events,
    reconciliations and recovery goroutines: an incarnation has at most one
    goroutine, exactly while its key is in the grace map, and can always return,
    so no key is left behind; a DELETE is only sent for an incarnation that was
    reported failed, at most once per report, and with a grace period only after
    the lister still showed that incarnation, not ready or in an update. *)
Theorem recovery_exact w tr w' : graceMap w = ∅ -> goroutines w = [] -> steps w tr w' ->
  NoDup (goroutines w').*1 /\ (forall k, k ∈ graceMap w' <-> k ∈ (goroutines w').*1) /\
  (forall k, k ∈ graceMap w' -> exists tr' w'', steps w' tr' w'' /\ (length tr' <= 3)%nat /\ k ∉ graceMap w'') /\
  (forall tr1 k tr2, tr = tr1 ++ LDelete k :: tr2 -> exists ta l tb ms, tr1 = ta ++ l :: tb /\ reports l k ms /\
     LDelete k ∉ tb /\ LReturned k ∉ tb /\ (gracePeriod ms = true -> exists answer, LWoke k answer ∈ tb /\ unrecovered k answer = true)).
Proof.
  intros E1 E2 Hs. pose proof (steps_recoveryOk _ _ _ E1 E2 Hs) as Hok. split; [apply Hok|]. split; [apply Hok|].
  split; [intros k Hk; by eapply recovery_ends|]. intros tr1 k tr2 ->. destruct (steps_split _ _ _ _ _ Hs) as (w1 & w2 & Hs1 & Hstep).
  pose proof (steps_recoveryOk _ _ _ E1 E2 Hs1) as Hok1. inversion Hstep as [| | | |v l1 k' l2 E|]; subst.
  destruct (other_goroutine _ _ _ _ _ _ Hok1 E) as [(ta & r & tb & ms & -> & Hr & Hret & Hd & Hg) _]. by exists ta, r, tb, ms.
Qed.
End recovery.

(** ** Concrete runs

    A serving of one group with one role, one instance and no workers. *)

#[local] Existing Instance plainReference.
#[local] Existing Instance plainWorkloads.

Definition demoTemplate : list RoleTemplate := [MkRoleTemplate "decode" 1 0].
Definition demoServing (policy : RecoveryPolicy) (grace : option Z) : ModelServing :=
  MkModelServing _ (MkName "default" "demo") "ms-uid" "1" (demoTemplate : Workload) false None policy grace false.

Definition demoPod (uid : string) (status : PodStatus) : Pod :=
  MkPod (MkMeta "default" (GeneratePodName "demo-0" "decode-0" 0) uid
           {[ModelServingNameLabelKey := "demo"; GroupNameLabelKey := "demo-0"; RoleLabelKey := "decode"; ServingPods.RoleIDKey := "decode-0"; RevisionLabelKey := "r1"]}
           [MkOwner GroupVersion "ModelServing" "demo" "ms-uid" true] None)
        "1" None "Always" [MkContainer "vllm" "v1" None 0] status.

Definition readyStatus : PodStatus := MkPodStatus PodRunning [("Ready", "True")]%string [] [].
Definition failedStatus : PodStatus := MkPodStatus PodFailed [] [] [].
Definition restartedStatus (n : Z) : PodStatus := MkPodStatus PodRunning [("Ready", "False")]%string [] [MkStatus "vllm" n "b" "v1" "sha:1"].

(** The informer shows [pods]; the revision of every pod is resolved. *)
Definition demoEnv (policy : RecoveryPolicy) (grace : option Z) (pods : list Pod) : Env :=
  MkEnv (fun key => if decide (key = MkName "default" "demo") then Some (demoServing policy grace) else None) false pods (fun _ => Some 0%nat)
    (fun _ => Some (demoTemplate : Workload)) (fun _ _ => Some "0"%string) (Some pods) (fun _ => true) (fun _ => true) (fun _ => true)
    (fun _ => MkAnswers None (fun _ => Missing) (fun _ _ => Refused)) (fun _ => None) (fun _ => true).

Definition emptyWorld : World := MkWorld New ∅ [] ∅ ∅.

(** The pod becomes ready, fails, and its recovery sends the DELETE at once. *)
Lemma recovery_exact_witness : exists w,
  steps emptyWorld [LEvent (demoEnv RoleRecreate None [demoPod "u1" failedStatus]) (PodUpdated (demoPod "u1" failedStatus));
                    LDelete (MkGraceKey "default" "demo-0-decode-0-0" "u1")] w /\
  (goroutines w).*1 = [MkGraceKey "default" "demo-0-decode-0-0" "u1"] /\ NoDup (goroutines w).*1.
Proof.
  set (env := demoEnv RoleRecreate None [demoPod "u1" failedStatus]). set (e := PodUpdated (demoPod "u1" failedStatus)).
  set (k := MkGraceKey "default" "demo-0-decode-0-0" "u1").
  assert (E : goroutines (handle env e emptyWorld) = [] ++ (k, Deleting) :: []) by (vm_compute; reflexivity).
  set (w := setGoroutines (handle env e emptyWorld) (graceMap (handle env e emptyWorld)) ([] ++ (k, Returning) :: [])).
  assert (Hs : steps emptyWorld ([LEvent env e] ++ [LDelete k]) w).
  { refine (steps_snoc _ [LEvent env e] _ _ _ (steps_snoc _ [] _ _ _ (steps_nil _) (step_event emptyWorld env e)) _). by apply step_delete. }
  exists w. split; [exact Hs|]. split; [reflexivity|].
  exact (proj1 (recovery_exact emptyWorld _ w eq_refl eq_refl Hs)).
Defined.

Definition groupOf (w : World) : ServingGroupStatus := groupStatus (state w) (MkName "default" "demo") "demo-0".

Definition demoStart : World := handle (demoEnv ServingGroupRecreate (Some 30) [demoPod "u1" readyStatus]) (PodUpdated (demoPod "u1" readyStatus)) emptyWorld.

Example demo_ready : groupOf demoStart = ServingGroupRunning.
Proof. vm_compute. reflexivity. Qed.

(** A group whose deletion has started, but whose pods could not be deleted yet,
    is running again after the next report of its ready pod, although the
    reconciliation relies on a deleting group never running again. *)
Example deleting_group_revived :
  let ready := demoPod "u1" readyStatus in
  let env := demoEnv ServingGroupRecreate (Some 30) [ready] in
  let w := (deleteServingGroup env (demoServing ServingGroupRecreate (Some 30)) "demo-0" demoStart).1 in
  groupOf w = ServingGroupDeleting /\ groupOf (handle env (PodUpdated ready) w) = ServingGroupRunning.
Proof. vm_compute. split; reflexivity. Qed.

(** A pod that recovers and fails again within one grace period is not marked
    a second time: its group stays running until the goroutine looks. *)
Example second_failure_ignored :
  let env := fun pod => demoEnv ServingGroupRecreate (Some 30) [pod] in
  let failed := demoPod "u1" (restartedStatus 1) in
  let ready := demoPod "u1" (MkPodStatus PodRunning [("Ready", "True")]%string [] [MkStatus "vllm" 1 "b" "v1" "sha:1"]) in
  let failedAgain := demoPod "u1" (restartedStatus 2) in
  let w1 := handle (env failed) (PodUpdated failed) demoStart in
  let w2 := handle (env ready) (PodUpdated ready) w1 in
  groupOf w1 = ServingGroupCreating /\ groupOf w2 = ServingGroupRunning /\ handle (env failedAgain) (PodUpdated failedAgain) w2 = w2.
Proof. vm_compute. split; [reflexivity|]. split; reflexivity. Qed.
