(* ===== verification/PodCreation.v ===== *)
(** * pkg/model-serving-controller: the pods of a serving group

    model_serving_controller.go (CreatePodsForServingGroup and what it calls)
    and utils.go (GenerateEntryPod, GenerateWorkerPod): the pods of every role
    instance of a group are created one by one; a pod that exists already is
    accepted when it is the expected one. *)
From S2P Require Import Prelude Effects Names ServingStore ServingPods InPlaceState RevisionHistory Readiness.
Local Open Scope Z_scope.

(** The template of a pod: the labels of its metadata and what the controller
    reads of its specification. *)
Record PodTemplate := MkPodTemplate {
  templateLabels : labels;
  templateContainers : list Container;
  templateRestartPolicy : string;
}.

(** A pod with the surge annotation or without it. *)
Record LivePod := MkLive { livePod : Pod; surge : bool }.

Section creation.
Context `{Workloads}.

(** The templates of a role; a role without workers needs none for them. *)
Context (EntryTemplate : Workload -> string -> PodTemplate) (WorkerTemplate : Workload -> string -> option PodTemplate).

(** ** Rendering *)

Definition newModelServingOwnerRef (ms : ModelServing) : OwnerReference :=
  MkOwner GroupVersion "ModelServing" (ServingStore.Name (servingKey ms)) (servingUID ms) true.

Definition baseLabels (ms : ModelServing) (role : RoleTemplate) (group roleID revision hash : string) : labels :=
  <[ModelServingNameLabelKey := ServingStore.Name (servingKey ms)]> (<[GroupNameLabelKey := group]> (<[RoleLabelKey := templateName role]>
    (<[ServingPods.RoleIDKey := roleID]> (<[RevisionLabelKey := revision]> {[RoleTemplateHashLabelKey := hash]})))).

(** The pod the API server gets has no UID yet. *)
Definition createBasePod (ms : ModelServing) (name : string) (podLabels : labels) (t : PodTemplate) : Pod :=
  MkPod (MkMeta (ServingStore.Namespace (servingKey ms)) name "" podLabels [newModelServingOwnerRef ms] None) "" None
        (templateRestartPolicy t) (templateContainers t) (MkPodStatus PodPending [] [] []).

(** [addPodLabelAndAnnotation]: the labels of the template win. *)
Definition addPodLabels (podLabels : labels) (t : PodTemplate) : labels := templateLabels t ∪ podLabels.

Definition GenerateEntryPod (ms : ModelServing) (role : RoleTemplate) (group roleID revision hash : string) : Pod :=
  let t := EntryTemplate (desired ms) (templateName role) in
  createBasePod ms (GeneratePodName group roleID 0)
    (addPodLabels (<[EntryLabelKey := Entry]> (baseLabels ms role group roleID revision hash)) t) t.

Definition GenerateWorkerPod (ms : ModelServing) (role : RoleTemplate) (t : PodTemplate) (group roleID : string) (podIndex : Z) (revision hash : string) : Pod :=
  createBasePod ms (GeneratePodName group roleID podIndex) (addPodLabels (baseLabels ms role group roleID revision hash) t) t.

(** ** The state and the world of a creation *)

(** The pods of the namespace at the API server, the store, the history of the
    reconcile, and whether the model serving was queued again. *)
Record Cluster := MkCluster { server : gmap string LivePod; stored : store; hist : revisionHistory; requeued : bool }.

Definition setServer (c : Cluster) (m : gmap string LivePod) : Cluster := MkCluster m (stored c) (hist c) (requeued c).
Definition setStored (c : Cluster) (s : store) : Cluster := MkCluster (server c) s (hist c) (requeued c).
Definition setHist (c : Cluster) (h : revisionHistory) : Cluster := MkCluster (server c) (stored c) h (requeued c).
Definition requeue (c : Cluster) : Cluster := MkCluster (server c) (stored c) (hist c) true.

(** [admitted] is what the API server makes of a pod it creates; [podLister]
    and [informer] are the cache. [target] and [targetStored] are the target
    revision and whether its ControllerRevision is in place. *)
Record Env := MkEnv {
  fetchRevision : string -> option Workload;
  buildPluginChain : Workload -> bool;
  onPodCreate : Workload -> bool -> Pod -> option Pod;
  admitted : Pod -> Pod;
  createFails : string -> bool;
  getFails : string -> bool;
  podLister : string -> option LivePod;
  informer : list LivePod;
  target : string;
  targetStored : bool;
}.

Context (env : Env).

Definition history {A} (question : revisionHistory -> A * revisionHistory) : run Cluster A :=
  call (fun c => let '(x, h) := question (hist c) in (x, setHist c h)).

(** [c.revisionHistory(ctx, ms).workload] *)
Definition resolveWorkload (revision : string) : run Cluster Workload :=
  history (fun h => workload (fetchRevision env) h revision) ≫= need.

Definition applied (ms : ModelServing) (w : Workload) : ModelServing :=
  MkModelServing _ (servingKey ms) (servingUID ms) (servingResourceVersion ms) w (roleMode ms) (coordinationRoles ms)
    (recoveryPolicy ms) (restartGracePeriodSeconds ms) (hasPlugins ms).

(** ** One pod *)

Definition coordinatedServing (ms : ModelServing) : bool := bool_decide (is_Some (roleCoordination ms)).

(** Whether a pod of the instance is marked in the cache. *)
Definition surgeSibling (ms : ModelServing) (group roleName roleID : string) : bool :=
  existsb (fun sibling => bool_decide (roleIDIndexKey (Meta (livePod sibling)) = Some (roleKey ms group roleName roleID)) &&
                          IsOwnedByModelServingWithUID (Meta (livePod sibling)) (servingUID ms) && surge sibling) (informer env).

Definition roleTemplateHashMatches (w : Workload) (roleName : string) (existing pod : Pod) : run Cluster bool :=
  let existingHash := ObjectRoleTemplateHash (Meta existing) in
  let expectedHash := ObjectRoleTemplateHash (Meta pod) in
  if bool_decide (existingHash = ""%string) || bool_decide (expectedHash = ""%string) || bool_decide (existingHash = expectedHash) then mret true
  else
    historical ← history (fun h => workload (fetchRevision env) h (ObjectRevision (Meta existing)));
    mret (match historical with
          | Some historical => bool_decide (EqualRoleRevisions existingHash expectedHash historical w roleName = Some true)
          | None => false
          end).

(** An in-place update has brought the pod to the target revision. *)
Definition completedTarget (existing : Pod) : bool :=
  match StateOf existing with
  | Some st => Done st && negb (bool_decide (Revision st = ""%string)) && bool_decide (Revision st = target env) &&
               bool_decide (ObjectRevision (Meta existing) = Revision st)
  | None => false
  end.

Definition belongs (ms : ModelServing) (group roleName roleID : string) (existing : Pod) : bool :=
  IsOwnedByModelServingWithUID (Meta existing) (servingUID ms) && bool_decide (label (Labels (Meta existing)) GroupNameLabelKey = group) &&
  bool_decide (label (Labels (Meta existing)) RoleLabelKey = roleName) && bool_decide (label (Labels (Meta existing)) ServingPods.RoleIDKey = roleID).

(** The pod that is there, from the lister or from the API server. *)
Definition existingPod (ms : ModelServing) (name : string) (c : Cluster) : option LivePod :=
  match podLister env name with
  | Some existing =>
    if coordinatedServing ms && negb (bool_decide (servingResourceVersion ms = ""%string))
    then if getFails env name then None else server c !! name
    else Some existing
  | None => if getFails env name then None else server c !! name
  end.

(** [AlreadyExists] *)
Definition acceptExisting (ms : ModelServing) (group roleName roleID : string) (pod : Pod) : run Cluster unit :=
  c ← call (fun c => (c, c));
  existing ← need (livePod <$> existingPod ms (PodName (Meta pod)) c);
  hashMatches ← roleTemplateHashMatches (desired ms) roleName existing pod;
  if belongs ms group roleName roleID existing &&
     (bool_decide (ObjectRevision (Meta existing) = ObjectRevision (Meta pod)) && (hashMatches : bool) || completedTarget existing)
  then mret () else modify requeue ≫= fun _ => stop.

Definition sendPod (ms : ModelServing) (mark : bool) (group roleName roleID : string) (pod : Pod) : run Cluster unit := fun c =>
  let name := PodName (Meta pod) in
  if createFails env name then stop c
  else
    match server c !! name with
    | Some _ => acceptExisting ms group roleName roleID pod c
    | None => modify (fun c => setServer c (<[name := MkLive (admitted env pod) mark]> (server c))) c
    end.

Definition createPod (ms : ModelServing) (temporary isEntry : bool) (group roleName roleID : string) (pod : Pod) : run Cluster unit :=
  pod ← need (onPodCreate env (desired ms) isEntry pod);
  sendPod ms (coordinatedServing ms && (temporary || surgeSibling ms group roleName roleID)) group roleName roleID pod.

(** ** One role instance *)

Definition addRole (ms : ModelServing) (group roleName roleID revision hash : string) : run Cluster unit :=
  modify (fun c => setStored c (AddRole (stored c) (servingKey ms) group roleName roleID revision hash)).

(** A missing template of the workers is logged. *)
Definition createPodsByRoleWithContext (ms : ModelServing) (temporary : bool) (role : RoleTemplate) (roleIndex servingGroupOrdinal : Z) (revision hash : string) : run Cluster unit :=
  let group := GenerateServingGroupName (ServingStore.Name (servingKey ms)) servingGroupOrdinal in
  let roleID := GenerateRoleID (templateName role) roleIndex in
  createPod ms temporary true group (templateName role) roleID (GenerateEntryPod ms role group roleID revision hash) ≫= fun _ =>
  (if coordinatedServing ms then addRole ms group (templateName role) roleID revision hash else mret ()) ≫= fun _ =>
  match WorkerTemplate (desired ms) (templateName role) with
  | None => mret ()
  | Some t =>
    forEach (fun i => createPod ms temporary false group (templateName role) roleID (GenerateWorkerPod ms role t group roleID i revision hash))
            (seqZ 1 (WorkerReplicas role))
  end.

Definition historicalRole (w : Workload) (name : string) : option RoleTemplate := findRole w name.

(** The hash that was rendered. *)
Definition createPodsByRole (ms : ModelServing) (temporary : bool) (roleName : string) (roleIndex servingGroupOrdinal : Z) (revision : string) : run Cluster string :=
  require (negb (bool_decide (revision = target env)) || targetStored env) ≫= fun _ =>
  w ← resolveWorkload revision;
  role ← need (historicalRole w roleName);
  hash ← need (RoleRevisionHash w (templateName role));
  require (buildPluginChain env w) ≫= fun _ =>
  createPodsByRoleWithContext (applied ms w) temporary role roleIndex servingGroupOrdinal revision hash ≫= fun _ =>
  mret hash.

(** ** A whole group *)

Definition createInstance (ms : ModelServing) (role : RoleTemplate) (servingGroupIndex : Z) (revision : string) (i : Z) : run Cluster unit :=
  appliedHash ← createPodsByRole ms false (templateName role) i servingGroupIndex revision;
  addRole ms (GenerateServingGroupName (ServingStore.Name (servingKey ms)) servingGroupIndex) (templateName role)
          (GenerateRoleID (templateName role) i) revision appliedHash.

Definition CreatePodsForServingGroup (ms : ModelServing) (servingGroupIndex : Z) (revision : string) (roles : list RoleTemplate) : run Cluster unit :=
  forEach (fun role =>
    need (RoleRevisionHash (desired ms) (templateName role)) ≫= fun _ =>
    forEach (createInstance ms role servingGroupIndex revision) (seqZ 0 (templateReplicas role))) roles.

(** ** What a creation establishes *)

(** The labels that identify a pod. *)
Definition identityKeys : list string := [GroupNameLabelKey; RoleLabelKey; ServingPods.RoleIDKey; RevisionLabelKey; RoleTemplateHashLabelKey].

Definition keepsIdentity (p p' : Pod) : Prop :=
  PodName (Meta p') = PodName (Meta p) /\ OwnerReferences (Meta p') = OwnerReferences (Meta p) /\
  forall k, k ∈ identityKeys -> Labels (Meta p') !! k = Labels (Meta p) !! k.

(** The templates leave the identity to the controller, and so do the plugins
    and the API server. *)
Record identityKept : Prop := {
  entry_labels w r k : k ∈ identityKeys -> templateLabels (EntryTemplate w r) !! k = None;
  worker_labels w r t k : WorkerTemplate w r = Some t -> k ∈ identityKeys -> templateLabels t !! k = None;
  plugins_keep w e p p' : onPodCreate env w e p = Some p' -> keepsIdentity p p';
  admission_keeps p : keepsIdentity p (admitted env p);
}.

Section group.
Context (ms : ModelServing) (w : Workload) (ordinal : Z) (revision : string).

Abbreviation group := (GenerateServingGroupName (ServingStore.Name (servingKey ms)) ordinal).

(** The pods of an instance: the entry is 0. *)
Definition members (role : RoleTemplate) : list Z :=
  0 :: match WorkerTemplate w (templateName role) with Some _ => seqZ 1 (WorkerReplicas role) | None => [] end.

Definition memberName (role : RoleTemplate) (i j : Z) : string := GeneratePodName group (GenerateRoleID (templateName role) i) j.

Definition member (role : RoleTemplate) (i j : Z) : Prop := role ∈ Roles w /\ 0 <= i < templateReplicas role /\ j ∈ members role.

(** The owner and the labels of a pod of an instance. *)
Definition identified (roleName roleID : string) (p : Pod) : Prop :=
  (exists o, o ∈ OwnerReferences (Meta p) /\ APIVersion o = GroupVersion /\ Kind o = "ModelServing"%string /\ OwnerUID o = servingUID ms) /\
  label (Labels (Meta p)) GroupNameLabelKey = group /\ label (Labels (Meta p)) RoleLabelKey = roleName /\
  label (Labels (Meta p)) ServingPods.RoleIDKey = roleID.

Lemma belongs_spec roleName roleID p : belongs ms group roleName roleID p = true <-> identified roleName roleID p.
Proof.
  unfold belongs, identified, IsOwnedByModelServingWithUID. rewrite !andb_true_iff, !bool_decide_eq_true, existsb_exists. split.
  - intros [[[(o & Ho & Hb) H1] H2] H3]. rewrite !andb_true_iff, !bool_decide_eq_true in Hb. destruct Hb as [[B1 B2] B3].
    split; [|done]. exists o. split; [by apply list_elem_of_In|done].
  - intros [(o & Ho & B1 & B2 & B3) (H1 & H2 & H3)]. split_and!; [|done..]. exists o. split; [by apply list_elem_of_In|].
    by rewrite !andb_true_iff, !bool_decide_eq_true.
Qed.

(** An in-place update to the target revision is finished, and is the revision
    of the pod. *)
Definition broughtToTarget (p : Pod) : Prop :=
  exists st, StateOf p = Some st /\ Done st = true /\ Revision st = target env /\ target env <> ""%string /\ ObjectRevision (Meta p) = target env.

Lemma completedTarget_spec p : completedTarget p = true <-> broughtToTarget p.
Proof.
  unfold completedTarget, broughtToTarget. destruct (StateOf p) as [st|]; [|by split; [|intros (? & ? & _)]].
  rewrite !andb_true_iff, negb_true_iff, !bool_decide_eq_true, bool_decide_eq_false. split.
  - intros [[[H1 H2] H3] H4]. exists st. split_and!; congruence.
  - intros (st' & [= <-] & H1 & H2 & H3 & H4). split_and!; congruence.
Qed.

(** A pod as it is rendered for an instance. *)
Definition exact (role : RoleTemplate) (i : Z) (p : Pod) : Prop :=
  identified (templateName role) (GenerateRoleID (templateName role) i) p /\
  ObjectRevision (Meta p) = revision /\ RoleRevisionHash w (templateName role) = Some (ObjectRoleTemplateHash (Meta p)).

(** The hash of a pod agrees with the one of its template: one of them is
    missing, they are equal, or the templates are. *)
Definition templateAgrees (snap : string -> option Workload) (roleName : string) (existing : Pod) (hash : string) : Prop :=
  ObjectRoleTemplateHash (Meta existing) = ""%string \/ hash = ""%string \/ ObjectRoleTemplateHash (Meta existing) = hash \/
  exists historical, snap (ObjectRevision (Meta existing)) = Some historical /\
    EqualRoleRevisions (ObjectRoleTemplateHash (Meta existing)) hash historical w roleName = Some true.

(** A pod that may stand for a member of an instance. *)
Definition expected (snap : string -> option Workload) (role : RoleTemplate) (i : Z) (p : Pod) : Prop :=
  identified (templateName role) (GenerateRoleID (templateName role) i) p /\
  (ObjectRevision (Meta p) = revision /\
     (exists hash, RoleRevisionHash w (templateName role) = Some hash /\ templateAgrees snap (templateName role) p hash) \/
   broughtToTarget p).

Lemma exact_expected snap role i p : exact role i p -> expected snap role i p.
Proof. intros (Hb & Hr & Hh). split; [done|]. left. split; [done|]. eexists. split; [exact Hh|]. right. right. by left. Qed.

(** Nothing the creation needs fails. *)
Record healthy : Prop := {
  api_creates n : createFails env n = false;
  api_answers n : getFails env n = false;
  plugins_accept e p : is_Some (onPodCreate env w e p);
  chain_built : buildPluginChain env w = true;
  target_kept : revision = target env -> targetStored env = true;
  roles_hashed role : role ∈ Roles w -> is_Some (RoleRevisionHash w (templateName role));
}.

(** Pods are added, and instances are recorded. *)
Definition grows (c c' : Cluster) : Prop :=
  server c ⊆ server c' /\ forall n g r i x, vRole (view (stored c)) n g r i = Some x -> vRole (view (stored c')) n g r i = Some x.

#[local] Instance grows_preorder : PreOrder grows.
Proof. split; [by intros c|]. intros a b c [H1 H2] [H3 H4]. split; [by etrans|eauto]. Qed.

Lemma vRole_AddRole s n g r i rev hash n' g' r' i' :
  vRole (view (AddRole s n g r i rev hash)) n' g' r' i' =
    if decide ((n', g', r', i') = (n, g, r, i)) then Some (default (MkRoleInfo rev hash RoleCreating) (vRole (view s) n g r i)) else vRole (view s) n' g' r' i'.
Proof. destruct (step_refines (OpAddRole n g r i rev hash) s) as [(_ & _ & Hr) _]. rewrite Hr. done. Qed.

Lemma grows_addRole ms' g r i rev hash : follows grows (addRole ms' g r i rev hash).
Proof.
  apply follows_modify. intros c. split; [done|]. intros n g' r' i' x Hx. cbn [setStored stored]. rewrite vRole_AddRole.
  case_decide as E; [|done]. simplify_eq. by rewrite Hx.
Qed.

Lemma grows_history {A} (q : revisionHistory -> A * revisionHistory) : follows grows (history q).
Proof. apply follows_call. intros c. by destruct (q (hist c)). Qed.

Lemma grows_hashMatches roleName existing pod : follows grows (roleTemplateHashMatches w roleName existing pod).
Proof. unfold roleTemplateHashMatches. destruct (_ || _); [follow_step|]. follow_step; [apply grows_history|follow_step]. Qed.

Lemma grows_createPod ms' temporary isEntry g r i pod : follows grows (createPod ms' temporary isEntry g r i pod).
Proof.
  unfold createPod. follow_step; [follow_step|]. intros c. unfold sendPod. destruct (createFails env _); [done|].
  destruct (server c !! _) as [p|] eqn:E.
  - revert c E. intros c _. apply (follows_bind grows); [by follow_step|]. intros c'. follow_step; [follow_step|].
    follow_step; [|destruct (_ && _); repeat follow_step; done]. unfold roleTemplateHashMatches. destruct (_ || _); [follow_step|].
    follow_step; [apply grows_history|follow_step].
  - split; [by apply insert_subseteq|done].
Qed.

Lemma grows_createInstance ms' role i : follows grows (createInstance ms' role ordinal revision i).
Proof.
  unfold createInstance, createPodsByRole, resolveWorkload, createPodsByRoleWithContext.
  repeat first [follow_step|apply grows_history|apply grows_addRole|apply grows_createPod|destruct (coordinatedServing _)|destruct (WorkerTemplate _ _)].
Qed.
(** *** Names *)

Record namesParse : Prop := {
  group_parses : name_ok group;
  roles_parse role : role ∈ Roles w -> name_ok (templateName role);
  replicas_bounded role : role ∈ Roles w -> templateReplicas role <= MaxInt32;
  workers_bounded role : role ∈ Roles w -> WorkerReplicas role <= MaxInt32;
}.

Lemma member_bounds role i j : namesParse -> member role i j -> 0 <= i <= MaxInt32 /\ 0 <= j <= MaxInt32.
Proof.
  intros Hn (Hr & Hi & Hj). pose proof (replicas_bounded Hn role Hr). pose proof (workers_bounded Hn role Hr). split; [lia|].
  unfold members in Hj. apply elem_of_cons in Hj as [->|Hj]; [unfold MaxInt32; lia|].
  destruct (WorkerTemplate w _); [|by apply not_elem_of_nil in Hj]. apply elem_of_seqZ in Hj. lia.
Qed.

Lemma memberName_inj role i j role' i' j' : namesParse -> NoDup (templateName <$> Roles w) -> member role i j -> member role' i' j' ->
  memberName role i j = memberName role' i' j' -> role = role' /\ i = i' /\ j = j'.
Proof.
  intros Hn Hnd Hm Hm' E. destruct (member_bounds _ _ _ Hn Hm) as [Hi Hj], (member_bounds _ _ _ Hn Hm') as [Hi' Hj'].
  destruct Hm as [Hr _], Hm' as [Hr' _].
  apply podName_inj in E as (E & -> & ->); [|apply Hn|by apply (roles_parse Hn)|by apply (roles_parse Hn)|done..]. split_and!; [|done|done].
  pose proof (findName_elem templateName role _ Hnd Hr) as E1. pose proof (findName_elem templateName role' _ Hnd Hr') as E2. congruence.
Qed.

(** *** The pods as they are rendered *)

Definition rendered (role : RoleTemplate) (i j : Z) (hash : string) (p : Pod) : Prop :=
  PodName (Meta p) = memberName role i j /\ OwnerReferences (Meta p) = [newModelServingOwnerRef ms] /\
  forall k, k ∈ identityKeys -> Labels (Meta p) !! k = baseLabels ms role group (GenerateRoleID (templateName role) i) revision hash !! k.

Lemma rendered_keeps role i j hash p p' : keepsIdentity p p' -> rendered role i j hash p -> rendered role i j hash p'.
Proof. intros (K1 & K2 & K3) (R1 & R2 & R3). split; [congruence|]. split; [congruence|]. intros k Hk. rewrite K3 by done. by apply R3. Qed.

Lemma rendered_exact role i j hash p : RoleRevisionHash w (templateName role) = Some hash -> rendered role i j hash p -> exact role i p.
Proof.
  intros Hh (R1 & R2 & R3). unfold exact, identified, ObjectRevision, ObjectRoleTemplateHash, label.
  rewrite R2, !R3 by (unfold identityKeys; set_solver). unfold baseLabels. split; [|by simplify_map_eq].
  split; [|by simplify_map_eq]. exists (newModelServingOwnerRef ms). split; [by left|done].
Qed.

Hypothesis identity_kept : identityKept.

Lemma rendered_entry role i hash :
  rendered role i 0 hash (GenerateEntryPod (applied ms w) role group (GenerateRoleID (templateName role) i) revision hash).
Proof using identity_kept.
  split; [done|]. split; [done|]. intros k Hk. cbn. unfold addPodLabels. rewrite lookup_union_r by (by apply (entry_labels identity_kept)).
  apply lookup_insert_ne. intros <-. revert Hk. by apply (bool_decide_eq_false_1 (EntryLabelKey ∈ identityKeys)).
Qed.

Lemma rendered_worker role t i j hash : WorkerTemplate w (templateName role) = Some t ->
  rendered role i j hash (GenerateWorkerPod (applied ms w) role t group (GenerateRoleID (templateName role) i) j revision hash).
Proof using identity_kept.
  intros Ht. split; [done|]. split; [done|]. intros k Hk. cbn. unfold addPodLabels. by rewrite lookup_union_r by (by eapply (worker_labels identity_kept)).
Qed.

(** *** The invariant of a creation *)

Section kept.
Context (snap : string -> option Workload) (c0 : Cluster).
Hypothesis names_distinct : NoDup (templateName <$> Roles w).
Hypothesis names_parse : namesParse.
Hypothesis revision_known : snap revision = Some w.
Hypothesis lister_current : forall n p, podLister env n = Some p -> server c0 !! n = Some p.

(** What was there is kept; what was not is what the group needs. *)
Record progress (c : Cluster) : Prop := {
  pods_kept : server c0 ⊆ server c;
  pods_created n p : server c !! n = Some p ->
    server c0 !! n = Some p \/ exists role i j, member role i j /\ n = memberName role i j /\ exact role i (livePod p);
  instances_recorded n g r id : vRole (view (stored c)) n g r id = vRole (view (stored c0)) n g r id \/
    vRole (view (stored c0)) n g r id = None /\ exists role i hash, role ∈ Roles w /\ 0 <= i < templateReplicas role /\
      (n, g, r, id) = (servingKey ms, group, templateName role, GenerateRoleID (templateName role) i) /\
      RoleRevisionHash w (templateName role) = Some hash /\ vRole (view (stored c)) n g r id = Some (MkRoleInfo revision hash RoleCreating);
  history_consistent : consistent snap ms (fetchRevision env) (hist c);
}.

(** No pod has a name the group needs without being what it needs. *)
Definition clean (m : gmap string LivePod) : Prop :=
  forall role i j p, member role i j -> m !! memberName role i j = Some p -> expected snap role i (livePod p).

Definition smooth : Prop := healthy /\ clean (server c0).

Abbreviation failed := (fun c => progress c /\ ~ smooth).

Lemma clean_stays c : progress c -> clean (server c0) -> clean (server c).
Proof using names_distinct names_parse.
  intros Hp Hc role i j p Hm Hl. destruct (pods_created c Hp _ _ Hl) as [Hl0|(role' & i' & j' & Hm' & E & Hx)]; [by eapply Hc|].
  apply memberName_inj in E as (<- & <- & _); [by apply exact_expected|done..].
Qed.

Lemma progress_hist c h : progress c -> consistent snap ms (fetchRevision env) h -> progress (setHist c h).
Proof. intros [H1 H2 H3 _] Hh. by split. Qed.

Lemma progress_requeue c : progress c -> progress (requeue c).
Proof. by intros [H1 H2 H3 H4]. Qed.

(** A question about a revision is answered by the reading of history. *)
Lemma resolve_spec r P (Q : option Workload -> Cluster -> Prop) E : (forall c, P c -> progress c) ->
  (forall c h, P c -> consistent snap ms (fetchRevision env) h -> Q (snap r) (setHist c h)) ->
  spec P (history (fun h => workload (fetchRevision env) h r)) Q E.
Proof.
  intros HP HQ. apply spec_call. intros c Hc. destruct (consistent_workload snap ms (fetchRevision env) (hist c) r (history_consistent c (HP c Hc))) as [Hh E1].
  destruct (workload (fetchRevision env) (hist c) r) as [x h]. cbn [fst snd] in *. subst x. by apply HQ.
Qed.

Lemma hashMatches_spec roleName existing pod : spec progress (roleTemplateHashMatches w roleName existing pod)
  (fun b c => progress c /\ (b = true <-> templateAgrees snap roleName existing (ObjectRoleTemplateHash (Meta pod)))) failed.
Proof.
  unfold roleTemplateHashMatches, templateAgrees. set (a := ObjectRoleTemplateHash (Meta existing)). set (e := ObjectRoleTemplateHash (Meta pod)).
  destruct (_ || _) eqn:Eb.
  - apply spec_ret. intros c Hc. split; [done|]. split; [intros _|done]. apply orb_true_iff in Eb as [Eb|Eb]; [apply orb_true_iff in Eb as [Eb|Eb]|];
      apply bool_decide_eq_true in Eb; auto.
  - apply orb_false_iff in Eb as [Eb E3]. apply orb_false_iff in Eb as [E1 E2]. apply bool_decide_eq_false in E1, E2, E3.
    eapply spec_bind; [apply (resolve_spec _ _ (fun x c => progress c /\ x = snap (ObjectRevision (Meta existing)))); [done|]|].
    { intros c h Hc Hh. split; [by apply progress_hist|done]. }
    intros x. apply spec_ret. intros c [Hc ->]. split; [done|]. split.
    + destruct (snap (ObjectRevision (Meta existing))) as [historical|]; [|done]. intros Hq. apply bool_decide_eq_true in Hq. right. right. right. by exists historical.
    + intros [|[|[|(historical & -> & Hq)]]]; [done..|]. by apply bool_decide_eq_true.
Qed.

(** The pod that is found is the one of the API server. *)
Lemma existingPod_server c name : progress c -> is_Some (server c !! name) ->
  existingPod (applied ms w) name c = server c !! name \/ existingPod (applied ms w) name c = None /\ ~ healthy.
Proof using lister_current.
  intros Hp Hs. unfold existingPod. destruct (getFails env name) eqn:Eg.
  - assert (Hn : ~ healthy) by (intros Hh; by rewrite (api_answers Hh) in Eg). destruct (podLister env name) as [p|] eqn:El; [|auto].
    destruct (_ && _); [auto|]. left. symmetry. eapply lookup_weaken; [by apply lister_current|apply Hp].
  - left. destruct (podLister env name) as [p|] eqn:El; [|done]. destruct (_ && _); [done|]. symmetry. eapply lookup_weaken; [by apply lister_current|apply Hp].
Qed.

Lemma acceptExisting_spec role i j hash pod : member role i j -> RoleRevisionHash w (templateName role) = Some hash -> rendered role i j hash pod ->
  spec (fun c => progress c /\ is_Some (server c !! memberName role i j))
    (acceptExisting (applied ms w) group (templateName role) (GenerateRoleID (templateName role) i) pod)
    (fun _ c => progress c /\ exists p, server c !! memberName role i j = Some p /\ expected snap role i (livePod p)) failed.
Proof using EntryTemplate lister_current names_distinct names_parse.
  intros Hm Hh Hr. pose proof (rendered_exact _ _ _ _ _ Hh Hr) as (_ & Hrev & Hhash). rewrite Hh in Hhash. injection Hhash as Hhash. unfold acceptExisting.
  eapply spec_bind; [apply (spec_call _ _ (fun c1 c => c1 = c /\ progress c /\ is_Some (server c !! memberName role i j))); by intros c [Hc Hs]|].
  intros c1. destruct Hr as (-> & _).
  eapply spec_bind; [apply (spec_need _ _ (fun existing c => progress c /\ exists p, server c !! memberName role i j = Some p /\ livePod p = existing))|].
  { intros existing c Hx (-> & Hc & Hs). destruct (existingPod_server c _ Hc Hs) as [E|[E _]]; rewrite E in Hx; [|done].
    apply fmap_Some in Hx as (p & Hp & ->). split; [done|]. by exists p. }
  { intros c Hx (-> & Hc & Hs). split; [done|]. destruct (existingPod_server c _ Hc Hs) as [E|[E Hn]]; [|by intros [Hh' _]].
    rewrite E in Hx. destruct Hs as [p Hp]. by rewrite Hp in Hx. }
  intros existing.
  intros c [Hc (p & Hp & <-)]. pose proof (hashMatches_spec (templateName role) (livePod p) pod c Hc) as Hq.
  unfold mbind, run_bind. assert (Hs := grows_hashMatches (templateName role) (livePod p) pod c).
  destruct (roleTemplateHashMatches _ _ _ _ c) as [c' [b|]]; [|done]. destruct Hq as [Hc' Hb].
  rewrite Hrev. rewrite <- Hhash in Hb. destruct Hs as [Hs _]. pose proof (lookup_weaken _ _ _ _ Hp Hs) as Hp'.
  change (belongs (applied ms w)) with (belongs ms). destruct (belongs _ _ _ _ _ && _) eqn:E.
  - apply andb_true_iff in E as [E1 E2]. split; [done|]. exists p. split; [done|]. split; [by apply belongs_spec|].
    apply orb_true_iff in E2 as [E2|E2]; [left|right; by apply completedTarget_spec]. apply andb_true_iff in E2 as [E2 E3]. apply bool_decide_eq_true in E2. split; [done|].
    exists hash. split; [done|]. by apply Hb.
  - split; [by apply progress_requeue|]. intros [_ Hcl]. pose proof (clean_stays c' Hc' Hcl role i j p Hm Hp') as [E1 E2]. apply belongs_spec in E1. rewrite E1 in E. cbn in E.
    apply orb_false_iff in E as [E3 E4]. destruct E2 as [[E2 (hash' & Eh & Ha)]|E2]; [|apply completedTarget_spec in E2; congruence]. rewrite bool_decide_true in E3 by done. cbn in E3.
    assert (b = true) by (apply Hb; congruence). congruence.
Qed.

Definition present (role : RoleTemplate) (i j : Z) (c : Cluster) : Prop :=
  exists p, server c !! memberName role i j = Some p /\ expected snap role i (livePod p).

Lemma present_grows role i j c c' : grows c c' -> present role i j c -> present role i j c'.
Proof. intros [Hs _] (p & Hp & Hx). exists p. split; [by eapply lookup_weaken|done]. Qed.

Lemma createPod_spec role i j hash isEntry pod : member role i j -> RoleRevisionHash w (templateName role) = Some hash -> rendered role i j hash pod ->
  spec progress (createPod (applied ms w) false isEntry group (templateName role) (GenerateRoleID (templateName role) i) pod)
    (fun _ c => progress c /\ present role i j c) failed.
Proof using EntryTemplate identity_kept lister_current names_distinct names_parse.
  intros Hm Hh Hr. unfold createPod.
  eapply spec_bind; [apply (spec_need _ _ (fun pod' c => progress c /\ rendered role i j hash pod'))|].
  { intros pod' c Hp Hc. split; [done|]. eapply rendered_keeps; [by eapply (plugins_keep identity_kept)|done]. }
  { intros c Hp Hc. split; [done|]. intros [Hh' _]. destruct (plugins_accept Hh' isEntry pod) as [x Hx]. cbn in Hp. congruence. }
  intros pod' c [Hc Hr']. pose proof Hr' as (En & _). unfold sendPod. rewrite En. destruct (createFails env _) eqn:Ef.
  { split; [done|]. intros [Hh' _]. by rewrite (api_creates Hh') in Ef. }
  destruct (server c !! memberName role i j) as [p|] eqn:El.
  { eapply acceptExisting_spec; [done|done|done|]. by rewrite El. }
  pose proof (rendered_exact _ _ _ _ _ Hh (rendered_keeps _ _ _ _ _ _ (admission_keeps identity_kept pod') Hr')) as Hx.
  cbn. set (live := MkLive _ _). split.
  - destruct Hc as [H1 H2 H3 H4]. split; [|intros n q Hl|done|done].
    + cbn. by apply insert_subseteq_r; [apply (lookup_weaken_None _ _ _ El)|].
    + cbn in Hl. destruct (decide (n = memberName role i j)) as [->|Hne].
      * rewrite lookup_insert_eq in Hl. injection Hl as <-. right. by exists role, i, j.
      * rewrite lookup_insert_ne in Hl by done. by apply H2.
  - exists live. cbn. rewrite lookup_insert_eq. split; [done|]. by apply exact_expected.
Qed.

Lemma grows_createPodsByRoleWithContext ms' temporary role i rev hash :
  follows grows (createPodsByRoleWithContext ms' temporary role i ordinal rev hash).
Proof.
  unfold createPodsByRoleWithContext.
  repeat first [follow_step|apply grows_addRole|apply grows_createPod|destruct (coordinatedServing _)|destruct (WorkerTemplate _ _)].
Qed.

(** What is recorded of an instance. *)
Definition recorded (role : RoleTemplate) (i : Z) (hash : string) (c : Cluster) : Prop :=
  let id := GenerateRoleID (templateName role) i in
  vRole (view (stored c)) (servingKey ms) group (templateName role) id =
    Some (default (MkRoleInfo revision hash RoleCreating) (vRole (view (stored c0)) (servingKey ms) group (templateName role) id)).

Lemma addRole_spec role i hash (P : Cluster -> Prop) E : role ∈ Roles w -> 0 <= i < templateReplicas role -> RoleRevisionHash w (templateName role) = Some hash ->
  (forall c s, P c -> P (setStored c s)) ->
  spec (fun c => progress c /\ P c) (addRole (applied ms w) group (templateName role) (GenerateRoleID (templateName role) i) revision hash)
    (fun _ c => progress c /\ P c /\ recorded role i hash c) E.
Proof.
  intros Hr Hi Hh HP. apply spec_modify. intros c [[H1 H2 H3 H4] Hc].
  assert (Hrec : recorded role i hash (setStored c (AddRole (stored c) (servingKey ms) group (templateName role) (GenerateRoleID (templateName role) i) revision hash))).
  { unfold recorded. cbn [setStored stored]. rewrite vRole_AddRole, decide_True by done. f_equal.
    destruct (H3 (servingKey ms) group (templateName role) (GenerateRoleID (templateName role) i)) as [->|(E0 & role' & i' & hash' & _ & _ & E1 & Hh' & ->)]; [done|].
    rewrite E0. simplify_eq. cbn. congruence. }
  split_and!; [|by apply HP|done]. split; [done|done| |done]. intros n g r id. cbn [applied servingKey setStored stored].
  rewrite vRole_AddRole. case_decide as E1; [|apply H3]. simplify_eq. unfold recorded in Hrec. cbn [setStored stored] in Hrec.
  rewrite vRole_AddRole, decide_True in Hrec by done. rewrite Hrec. destruct (vRole (view (stored c0)) _ _ _ _) as [x|] eqn:Ex; [by left|].
  right. split; [done|]. exists role, i, hash. done.
Qed.

Lemma instance_spec role i hash : role ∈ Roles w -> 0 <= i < templateReplicas role -> RoleRevisionHash w (templateName role) = Some hash ->
  spec progress (createPodsByRoleWithContext (applied ms w) false role i ordinal revision hash)
    (fun _ c => progress c /\ forall j, j ∈ members role -> present role i j c) failed.
Proof using EntryTemplate identity_kept lister_current names_distinct names_parse.
  intros Hr Hi Hh. unfold createPodsByRoleWithContext. cbn [applied servingKey desired].
  assert (Hm0 : member role i 0) by (split_and!; [done|lia|lia|by left]).
  eapply spec_bind; [apply (createPod_spec role i 0 hash); [done|done|by apply rendered_entry]|]. intros [].
  eapply (spec_bind _ (fun _ c => progress c /\ present role i 0 c)).
  { destruct (coordinatedServing _); [|by apply spec_ret].
    eapply spec_weaken; [apply (addRole_spec role i hash (present role i 0) failed); [done|done|done|]|done| |done]; [done|].
    by intros _ c (Hc & Hp & _). }
  intros []. unfold members. destruct (WorkerTemplate w (templateName role)) as [t|] eqn:Et.
  2: { apply spec_ret. intros c [Hc Hp]. split; [done|]. intros j Hj. by apply list_elem_of_singleton in Hj as ->. }
  eapply spec_weaken; [apply (spec_frame grows _ progress (present role i 0) (fun _ c => progress c /\ forall j, j ∈ seqZ 1 (WorkerReplicas role) -> present role i j c) failed)| | |].
  - apply (spec_collect grows _ progress (fun j c => present role i j c)).
    + intros j Hj. apply (createPod_spec role i j hash false); [|done|by apply rendered_worker].
      split_and!; [done|lia|lia|]. unfold members. rewrite Et. by right.
    + intros j. apply grows_createPod.
    + intros j c c' Hg. by apply present_grows.
  - apply follows_forEach; [apply _|]. intros j. apply grows_createPod.
  - intros c c' Hg. by apply present_grows.
  - done.
  - intros _ c [[Hc Hj] H0]. split; [done|]. intros j Hin. apply elem_of_cons in Hin as [->|Hin]; [done|by apply Hj].
  - done.
Qed.

Definition complete (role : RoleTemplate) (i : Z) (c : Cluster) : Prop :=
  (forall j, j ∈ members role -> present role i j c) /\ exists hash, RoleRevisionHash w (templateName role) = Some hash /\ recorded role i hash c.

Lemma complete_grows role i c c' : grows c c' -> complete role i c -> complete role i c'.
Proof.
  intros Hg [H1 (hash & Hh & H2)]. split; [intros j Hj; by eapply present_grows, H1|]. exists hash. split; [done|]. unfold recorded in *.
  by apply Hg.
Qed.

Lemma createInstance_spec role i : role ∈ Roles w -> 0 <= i < templateReplicas role ->
  spec progress (createInstance (applied ms w) role ordinal revision i) (fun _ c => progress c /\ complete role i c) failed.
Proof using EntryTemplate identity_kept lister_current names_distinct names_parse revision_known.
  intros Hr Hi. unfold createInstance, createPodsByRole, resolveWorkload.
  eapply (spec_bind _ (fun hash c => (progress c /\ forall j, j ∈ members role -> present role i j c) /\ RoleRevisionHash w (templateName role) = Some hash)).
  - eapply (spec_bind _ (fun _ => progress)).
    { apply spec_require; [done|]. intros c Hb Hc. split; [done|]. intros [Hh _]. apply orb_false_iff in Hb as [Hb Ht].
      apply negb_false_iff, bool_decide_eq_true in Hb. by rewrite (target_kept Hh Hb) in Ht. }
    intros []. eapply (spec_bind _ (fun w' c => progress c /\ w' = w)).
    { eapply (spec_bind _ (fun x c => progress c /\ x = Some w)); [apply resolve_spec; [done|]|].
      - intros c h Hc Hh. split; [by apply progress_hist|done].
      - intros x. apply spec_need; [by intros w' c -> [Hc [= ->]]|by intros c -> [Hc [=]]]. }
    intros w'. eapply (spec_bind _ (fun role' c => progress c /\ w' = w /\ role' = role)).
    { apply spec_need; [intros role' c E [Hc ->]|intros c E [Hc ->]]; unfold historicalRole, findRole in E; rewrite (findName_elem _ role) in E by done; [by injection E as <-|done]. }
    intros role'. eapply (spec_bind _ (fun hash c => progress c /\ w' = w /\ role' = role /\ RoleRevisionHash w (templateName role) = Some hash)).
    { apply spec_need; [by intros hash c E (Hc & -> & ->)|]. intros c E (Hc & -> & ->). split; [done|]. intros [Hh _].
      destruct (roles_hashed Hh role Hr) as [x Hx]. congruence. }
    intros hash. eapply (spec_bind _ (fun _ c => progress c /\ w' = w /\ role' = role /\ RoleRevisionHash w (templateName role) = Some hash)).
    { apply spec_require; [done|]. intros c E (Hc & -> & _). split; [done|]. intros [Hh _]. by rewrite (chain_built Hh) in E. }
    intros []. eapply (spec_bind _ (fun _ c => (progress c /\ forall j, j ∈ members role -> present role i j c) /\ RoleRevisionHash w (templateName role) = Some hash)).
    { intros c (Hc & -> & -> & Hh). pose proof (instance_spec role i hash Hr Hi Hh c Hc) as Hs. change (applied (applied ms w) w) with (applied ms w).
      by destruct (createPodsByRoleWithContext _ _ _ _ _ _ _ c) as [c' [[]|]]. }
    intros []. by apply spec_ret.
  - intros hash c [[Hc Hp] Hh].
    pose proof (addRole_spec role i hash (fun c => forall j, j ∈ members role -> present role i j c) (fun _ => False) Hr Hi Hh (fun _ _ Hkept => Hkept) c (conj Hc Hp)) as Hs.
    cbn in *. destruct Hs as (H1 & H2 & H3). split; [done|]. split; [done|]. by exists hash.
Qed.

Lemma creation_spec :
  spec progress (CreatePodsForServingGroup (applied ms w) ordinal revision (Roles w))
    (fun _ c => progress c /\ forall role, role ∈ Roles w -> forall i, 0 <= i < templateReplicas role -> complete role i c) failed.
Proof using EntryTemplate identity_kept lister_current names_distinct names_parse revision_known.
  unfold CreatePodsForServingGroup.
  apply (spec_collect grows _ progress (fun role c => forall i, 0 <= i < templateReplicas role -> complete role i c)).
  - intros role Hr. eapply (spec_bind _ (fun _ => progress)).
    { apply spec_need; [done|]. intros c E Hc. split; [done|]. intros [Hh _]. destruct (roles_hashed Hh role Hr) as [x Hx]. cbn in E. congruence. }
    intros _. eapply spec_weaken; [apply (spec_collect grows _ progress (fun i c => complete role i c) failed (seqZ 0 (templateReplicas role)))|done| |done].
    + intros i Hi. apply elem_of_seqZ in Hi. apply createInstance_spec; [done|lia].
    + intros i. apply grows_createInstance.
    + intros i c c' Hg. by apply complete_grows.
    + intros _ c [Hc Hi]. split; [done|]. intros i Hin. apply Hi, elem_of_seqZ. lia.
  - intros role. follow_step; [follow_step|]. follow_step. apply grows_createInstance.
  - intros role c c' Hg Hc i Hi. by eapply complete_grows, Hc.
Qed.
End kept.
End group.
End creation.

Arguments pods_created {_ _ _ _ _ _ _ _ _ _} _ _ _ _.
Arguments pods_kept {_ _ _ _ _ _ _ _ _ _} _.

(** ** The theorems *)

Section theorems.
Context `{Workloads} (EntryTemplate : Workload -> string -> PodTemplate) (WorkerTemplate : Workload -> string -> option PodTemplate).

Abbreviation createGroup env ms w ordinal revision := (CreatePodsForServingGroup EntryTemplate WorkerTemplate env (applied ms w) ordinal revision (Roles w)).


End theorems.

(** ** Example: a group of two instances with a worker each *)

Definition vllmRole : RoleTemplate := MkRoleTemplate "vllm" 2 1.
Definition vllmTemplate : PodTemplate := MkPodTemplate {["app"%string := "llm"%string]} [] "Always".
Definition vllmEntry : @Workload plainWorkloads -> string -> PodTemplate := fun _ _ => vllmTemplate.
Definition vllmWorker : @Workload plainWorkloads -> string -> option PodTemplate := fun _ _ => Some vllmTemplate.
Definition vllmServing : @ModelServing plainWorkloads :=
  @MkModelServing plainWorkloads (MkName "ns" "ms") "u" "1" [vllmRole] false None RoleRecreate None false.
Definition vllmHistory (r : string) : option (@Workload plainWorkloads) := if bool_decide (r = "r1"%string) then Some [vllmRole] else None.

Definition vllmEnv (fails : list string) (listed : gmap string LivePod) : @Env plainWorkloads :=
  @MkEnv plainWorkloads vllmHistory (fun _ => true) (fun _ _ p => Some p) id (fun n => bool_decide (n ∈ fails)) (fun _ => false) (fun n => listed !! n) [] "r1" true.

Definition emptyCluster : @Cluster plainWorkloads := @MkCluster plainWorkloads ∅ New (@newHistory plainWorkloads) false.

Definition createVllm (env : @Env plainWorkloads) (c : @Cluster plainWorkloads) :=
  @CreatePodsForServingGroup plainWorkloads vllmEntry vllmWorker env vllmServing 0 "r1" [vllmRole] c.

(** The third pod cannot be created: two are there, and one instance is recorded. *)
Definition interrupted : @Cluster plainWorkloads := (createVllm (vllmEnv ["ms-0-vllm-1-0"] ∅) emptyCluster).1.

Example interrupted_pods : (map_to_list (server interrupted)).*1 ≡ₚ ["ms-0-vllm-0-0"; "ms-0-vllm-0-1"] /\
  (createVllm (vllmEnv ["ms-0-vllm-1-0"] ∅) emptyCluster).2 = None.
Proof. split; [|by vm_compute]. by vm_compute; constructor. Qed.

(** A template label may take the place of an identity label: the group's next
    pods are then not recognised. *)
Definition overridden : @Workload plainWorkloads -> string -> PodTemplate :=
  fun _ _ => MkPodTemplate {[ServingPods.RoleLabelKey := "mine"%string]} [] "Always".

Example template_label_hides_role :
  let create c := @CreatePodsForServingGroup plainWorkloads overridden vllmWorker (vllmEnv [] ∅) vllmServing 0 "r1" [vllmRole] c in
  (create emptyCluster).2 = Some () /\ (create (create emptyCluster).1).2 = None.
Proof. by split; vm_compute. Qed.

Lemma vllm_identity fails listed : @identityKept plainWorkloads vllmEntry vllmWorker (vllmEnv fails listed).
Proof.
  assert (Hk : forall k, k ∈ identityKeys -> templateLabels vllmTemplate !! k = None).
  { intros k Hk. apply lookup_singleton_ne. intros <-. revert Hk. by apply (bool_decide_eq_false_1 ("app"%string ∈ identityKeys)). }
  split; cbn; [intros; by apply Hk|by intros w r t k [= <-] ?; apply Hk|by intros w e p p' [= <-]|done].
Qed.

Lemma vllm_names : @namesParse plainWorkloads vllmServing [vllmRole] 0.
Proof.
  assert (Hok : forall s, bool_decide (newline ∉ String.list_ascii_of_string s) = true -> name_ok s) by (intros s Hs; by apply bool_decide_eq_true in Hs).
  split; [by apply Hok; vm_compute| | |]; intros role Hr; apply list_elem_of_singleton in Hr as ->; [by apply Hok; vm_compute|by compute..].
Defined.

Lemma vllm_healthy listed : @healthy plainWorkloads (vllmEnv [] listed) [vllmRole] "r1".
Proof.
  split; try done; intros role Hr. apply list_elem_of_singleton in Hr as ->. vm_compute. by eexists.
Qed.


