(* ===== verification/InPlaceRun.v ===== *)
(** * An in-place update of a pod under a kubelet and a pod server

    The decisions of InPlaceState against their environment: the pod server
    merges a patch if its preconditions hold, the kubelet starts a container
    from the image its specification asks for, restarts it when that image
    changed, and restarts it after a crash, from the old image while it has not
    noticed the patch. The runtime reports the image it runs under any name that
    is not the name of another image, a bare digest among them. *)
From S2P Require Import Prelude ServingPods InPlaceState.
Local Open Scope Z_scope.

Create HintDb inplace.

(** ** The environment *)

Definition setImage (images : list (string * string)) (c : Container) : Container :=
  match findName fst (ContainerName c) images with
  | Some (_, image) => MkContainer (ContainerName c) image (ContainerRestartPolicy c) (RestartPolicyRules c)
  | None => c
  end.

Definition withLabels (m : ObjectMeta) (l : labels) : ObjectMeta :=
  MkMeta (Namespace m) (PodName m) (UID m) l (OwnerReferences m) (DeletionTimestamp m).

(** The documented effect of a strategic merge patch with preconditions. *)
Class PodServer := {
  patchPod : Pod -> Patch -> option Pod;
  patch_version cur p rv : WantResourceVersion p = Some rv -> rv <> ResourceVersion cur -> patchPod cur p = None;
  patch_uid cur p uid : WantUID p = Some uid -> uid <> UID (Meta cur) -> patchPod cur p = None;
  patch_merges cur p cur' : patchPod cur p = Some cur' ->
    Containers cur' = setImage (SetImages p) <$> Containers cur /\ StateAnnotation cur' = Some (SetAnnotation p) /\
    Meta cur' = withLabels (Meta cur) (SetLabels p ∪ Labels (Meta cur)) /\ Status cur' = Status cur;
}.

(** The pod, and the image each running container was created from. *)
Record World := MkWorld { pod : Pod; created : gmap string string }.

(** [EvLate] is a first start from an image the container was asked to run
    before; [EvRestart told] says whether the status of the new instance tells
    its image from that of the instance before. *)
Inductive Event := EvStart | EvComplete | EvReport | EvFirst | EvLate | EvRestart (told : bool) | EvCrash (name : string) | EvStatus.

(** A resource version names one content of the pod. *)
Definition observes (cur observed : Pod) : Prop :=
  ResourceVersion observed <> ""%string /\ (ResourceVersion observed = ResourceVersion cur -> observed = cur).

Definition withStatuses (p : Pod) (rv : string) (l : list ContainerStatus) : Pod :=
  MkPod (Meta p) rv (StateAnnotation p) (RestartPolicy p) (Containers p)
        (MkPodStatus (Phase (Status p)) (Conditions (Status p)) (InitContainerStatuses (Status p)) l).

Definition replaceStatus (st : ContainerStatus) (l : list ContainerStatus) : list ContainerStatus :=
  (fun old => if decide (StatusName old = StatusName st) then st else old) <$> l.

(** The kubelet starts container [c], whose status is [st], as a new instance. *)
Definition started (c : Container) (st st' : ContainerStatus) (count : Z) : Prop :=
  StatusName st' = ContainerName c /\ RestartCount st' = count /\ ContainerID st' <> ""%string /\
  ContainerID st' <> ContainerID st.

(** The image ID that the reference of an image resolves to. *)
Class Runtime := { imageID : string -> string; imageID_nonempty image : imageID image <> ""%string }.

Section run.
Context `{ImageReference} `{PodServer} `{Kubelet : Runtime}.

(** The status of an instance of [image]: its image ID, and a name that does
    not name anything else. *)
Definition reported (image : string) (st : ContainerStatus) : Prop :=
  ImageID st = imageID image /\ forall other, normalizeImage (StatusImage st) = normalizeImage other -> imageID other = imageID image.

(** The runtime reports the name, or the two images have different IDs. *)
Definition toldApart (old image : string) (st : ContainerStatus) : bool :=
  bool_decide (normalizeImage (StatusImage st) = normalizeImage image) || negb (bool_decide (imageID old = imageID image)).

Inductive step : World -> Event -> World -> Prop :=
| step_start w o images revision now pt p' :
    observes (pod w) o -> Start o images revision now = Some pt -> patchPod (pod w) pt = Some p' ->
    step w EvStart (MkWorld p' (created w))
| step_complete w o revision roleHash now p' :
    observes (pod w) o -> OnTarget (StateOf o) o = true -> patchPod (pod w) (Complete o revision roleHash now) = Some p' ->
    step w EvComplete (MkWorld p' (created w))
| step_report w rv c image :
    c ∈ Containers (pod w) -> containerStatus (pod w) (ContainerName c) = None ->
    step w EvReport (MkWorld (withStatuses (pod w) rv (ContainerStatuses (Status (pod w)) ++ [MkStatus (ContainerName c) 0 "" image ""])) (created w))
| step_first w rv c st st' :
    c ∈ Containers (pod w) -> containerStatus (pod w) (ContainerName c) = Some st -> ContainerID st = ""%string ->
    started c st st' (RestartCount st) -> reported (ContainerImage c) st' ->
    step w EvFirst (MkWorld (withStatuses (pod w) rv (replaceStatus st' (ContainerStatuses (Status (pod w)))))
                            (<[ContainerName c := ContainerImage c]> (created w)))
| step_late w rv c st st' earlier p :
    c ∈ Containers (pod w) -> containerStatus (pod w) (ContainerName c) = Some st -> ContainerID st = ""%string ->
    patchedContainer (StateOf (pod w)) (ContainerName c) = Some p ->
    started c st st' (RestartCount st) -> reported earlier st' ->
    step w EvLate (MkWorld (withStatuses (pod w) rv (replaceStatus st' (ContainerStatuses (Status (pod w)))))
                           (<[ContainerName c := earlier]> (created w)))
| step_restart w rv c st st' old :
    c ∈ Containers (pod w) -> containerStatus (pod w) (ContainerName c) = Some st ->
    created w !! ContainerName c = Some old -> old <> ContainerImage c ->
    started c st st' (RestartCount st + 1) -> reported (ContainerImage c) st' ->
    step w (EvRestart (toldApart old (ContainerImage c) st'))
         (MkWorld (withStatuses (pod w) rv (replaceStatus st' (ContainerStatuses (Status (pod w)))))
                  (<[ContainerName c := ContainerImage c]> (created w)))
| step_crash w rv c st st' old :
    c ∈ Containers (pod w) -> containerStatus (pod w) (ContainerName c) = Some st ->
    created w !! ContainerName c = Some old ->
    started c st st' (RestartCount st + 1) -> reported old st' ->
    step w (EvCrash (ContainerName c)) (MkWorld (withStatuses (pod w) rv (replaceStatus st' (ContainerStatuses (Status (pod w))))) (created w))
| step_status w p' :
    Containers p' = Containers (pod w) -> StateAnnotation p' = StateAnnotation (pod w) ->
    ContainerStatuses (Status p') = ContainerStatuses (Status (pod w)) ->
    Forall (fun st => RestartCount st = 0) (InitContainerStatuses (Status p')) ->
    step w EvStatus (MkWorld p' (created w)).

Inductive steps : World -> list Event -> World -> Prop :=
| steps_refl w : steps w [] w
| steps_snoc w evs w' e w'' : steps w evs w' -> step w' e w'' -> steps w (evs ++ [e]) w''.

(** A pod just created: no update, no container started. *)
Definition initial (w : World) : Prop :=
  NoDup (ContainerName <$> Containers (pod w)) /\ StateAnnotation (pod w) = None /\
  ContainerStatuses (Status (pod w)) = [] /\ created w = ∅ /\
  Forall (fun st => RestartCount st = 0) (InitContainerStatuses (Status (pod w))).

(** ** The invariant *)

(** The running instance of a container is older than its specification. *)
Definition pending (w : World) (c : Container) : bool :=
  match created w !! ContainerName c with Some old => negb (bool_decide (old = ContainerImage c)) | None => false end.

Record container_ok (n : Z) (w : World) (c : Container) : Prop := {
  ok_count : 0 <= countOf (pod w) (ContainerName c) <= n;
  ok_id : created w !! ContainerName c = None <-> idOf (pod w) (ContainerName c) = ""%string;
  ok_new : created w !! ContainerName c = None -> imageIDOf (pod w) (ContainerName c) = ""%string;
  ok_image : forall st old, containerStatus (pod w) (ContainerName c) = Some st -> created w !! ContainerName c = Some old -> reported old st;
  ok_patched : match patchedContainer (StateOf (pod w)) (ContainerName c) with
               | None => (forall old, created w !! ContainerName c = Some old -> imageID old = imageID (ContainerImage c)) /\
                         expectedRestarts (StateOf (pod w)) (ContainerName c) <= countOf (pod w) (ContainerName c)
               | Some p => Image p = ContainerImage c /\
                           (PrevImageID p <> ""%string -> imageIDOf (pod w) (ContainerName c) = PrevImageID p \/
                                                          created w !! ContainerName c = Some (ContainerImage c))
               end;
}.

Record Inv (n : Z) (w : World) : Prop := {
  inv_bound : 0 <= n;
  inv_names : NoDup (ContainerName <$> Containers (pod w));
  inv_statuses : forall st, st ∈ ContainerStatuses (Status (pod w)) -> StatusName st ∈ ContainerName <$> Containers (pod w);
  inv_nodup : NoDup (StatusName <$> ContainerStatuses (Status (pod w)));
  inv_expected : forall s name, StateOf (pod w) = Some s -> 0 <= default 0 (Expected s !! name) <= n;
  inv_patched : forall name p, patchedContainer (StateOf (pod w)) name = Some p -> name ∈ ContainerName <$> Containers (pod w);
  inv_container : forall c, c ∈ Containers (pod w) -> container_ok n w c;
}.

(** Every restart so far and still to come is one an update allowed, and a
    patched container was either left alone since or replaced by an instance
    that tells its image. *)
Definition untouched (w : World) (c : Container) (p : PatchedContainer) : Prop :=
  idOf (pod w) (ContainerName c) = PrevContainerID p /\ imageIDOf (pod w) (ContainerName c) = PrevImageID p /\
  countOf (pod w) (ContainerName c) < expectedRestarts (StateOf (pod w)) (ContainerName c).

Definition replaced (w : World) (c : Container) (p : PatchedContainer) : Prop :=
  created w !! ContainerName c = Some (ContainerImage c) /\
  ((exists st, containerStatus (pod w) (ContainerName c) = Some st /\ normalizeImage (StatusImage st) = normalizeImage (ContainerImage c)) \/
   (PrevImageID p <> ""%string /\ PrevImageID p <> imageID (ContainerImage c)) \/
   (PrevContainerID p = ""%string /\ countOf (pod w) (ContainerName c) < expectedRestarts (StateOf (pod w)) (ContainerName c))).

Definition quiet (w : World) (c : Container) : Prop :=
  countOf (pod w) (ContainerName c) + (if pending w c then 1 else 0) <= expectedRestarts (StateOf (pod w)) (ContainerName c) /\
  match patchedContainer (StateOf (pod w)) (ContainerName c) with
  | None => pending w c = false
  | Some p => untouched w c p \/ replaced w c p
  end.

Definition benign (w : World) : Prop :=
  Forall (fun st => RestartCount st = 0) (InitContainerStatuses (Status (pod w))) /\ forall c, c ∈ Containers (pod w) -> quiet w c.

(** Nothing but the updates starts a container again, and the statuses say so. *)
Definition orderly (e : Event) : Prop :=
  match e with EvLate | EvCrash _ | EvRestart false => False | _ => True end.

Hint Unfold countOf idOf imageIDOf pending : inplace.

Lemma container_ok_ext n n' w w' c : n <= n' -> StateOf (pod w') = StateOf (pod w) ->
  containerStatus (pod w') (ContainerName c) = containerStatus (pod w) (ContainerName c) ->
  created w' !! ContainerName c = created w !! ContainerName c -> container_ok n w c -> container_ok n' w' c.
Proof.
  intros Hn Hs Hst Hc [O1 O2 O3 O4 O5]. autounfold with inplace in *.
  constructor; autounfold with inplace; rewrite ?Hs, ?Hst, ?Hc; [lia|done|done|done|done].
Qed.

Lemma quiet_ext w w' c : StateOf (pod w') = StateOf (pod w) ->
  containerStatus (pod w') (ContainerName c) = containerStatus (pod w) (ContainerName c) ->
  created w' !! ContainerName c = created w !! ContainerName c -> quiet w c -> quiet w' c.
Proof. intros Hs Hst Hc. unfold quiet, untouched, replaced. autounfold with inplace. by rewrite Hs, Hst, Hc. Qed.

Lemma replaceStatus_names st l : StatusName <$> replaceStatus st l = StatusName <$> l.
Proof.
  unfold replaceStatus. rewrite <- list_fmap_compose. apply list_fmap_ext. intros _ old _. simpl.
  by destruct (decide _) as [<-|].
Qed.

Lemma containerStatus_replace p rv st name :
  containerStatus (withStatuses p rv (replaceStatus st (ContainerStatuses (Status p)))) name =
  (fun old => if decide (StatusName st = name) then st else old) <$> containerStatus p name.
Proof.
  unfold containerStatus. simpl. unfold replaceStatus. rewrite findName_fmap.
  - destruct (findName _ name _) as [old|] eqn:E; [|done]. apply findName_Some in E as [_ <-]. simpl. f_equal.
    destruct (decide (StatusName old = _)); destruct (decide (_ = StatusName old)); congruence.
  - intros x. by destruct (decide _).
Qed.

Lemma containerStatus_replace_ne p rv st name : StatusName st <> name ->
  containerStatus (withStatuses p rv (replaceStatus st (ContainerStatuses (Status p)))) name = containerStatus p name.
Proof. intros Hne. rewrite containerStatus_replace. destruct (containerStatus p name); [|done]. simpl. by rewrite decide_False. Qed.

Lemma containerStatus_report p rv st name : containerStatus p (StatusName st) = None ->
  containerStatus (withStatuses p rv (ContainerStatuses (Status p) ++ [st])) name =
  if decide (StatusName st = name) then Some st else containerStatus p name.
Proof.
  intros Hnone. unfold containerStatus in *. simpl. rewrite findName_app.
  destruct (decide _) as [<-|Hne]; [by rewrite Hnone, findName_cons, decide_True|].
  destruct (findName _ name _); [done|]. by rewrite findName_cons, decide_False.
Qed.

Lemma same_container l c c' : NoDup (ContainerName <$> l) -> c ∈ l -> c' ∈ l -> ContainerName c = ContainerName c' -> c = c'.
Proof.
  intros Hnd Hc Hc' E. pose proof (findName_elem ContainerName c l Hnd Hc) as H1.
  pose proof (findName_elem ContainerName c' l Hnd Hc') as H2. congruence.
Qed.

(** A step of the kubelet on the status of container [c]. *)
Lemma kubelet_inv n w rv c l' cr' : Inv n w -> c ∈ Containers (pod w) ->
  (forall st, st ∈ l' -> StatusName st ∈ ContainerName <$> Containers (pod w)) -> NoDup (StatusName <$> l') ->
  (forall name, name <> ContainerName c -> containerStatus (withStatuses (pod w) rv l') name = containerStatus (pod w) name /\
     cr' !! name = created w !! name) ->
  container_ok (n + 1) (MkWorld (withStatuses (pod w) rv l') cr') c -> Inv (n + 1) (MkWorld (withStatuses (pod w) rv l') cr').
Proof.
  intros [I0 I1 I2 I3 I4 I5 I6] Hc Hin Hnd Hother Hok. constructor; try done.
  - lia.
  - intros s name Hs. specialize (I4 s name Hs). lia.
  - intros c' Hc'. change (Containers (pod _)) with (Containers (pod w)) in Hc'.
    destruct (decide (ContainerName c' = ContainerName c)) as [E|E].
    + by rewrite (same_container _ c' c I1 Hc' Hc E).
    + destruct (Hother _ E) as [H1 H2]. by apply (container_ok_ext n (n + 1) w); [lia|done|done|done|apply I6].
Qed.

Lemma replace_inv n w rv c st st' cr' : Inv n w -> c ∈ Containers (pod w) -> StatusName st' = ContainerName c ->
  containerStatus (pod w) (ContainerName c) = Some st ->
  (forall name, name <> ContainerName c -> cr' !! name = created w !! name) ->
  let w' := MkWorld (withStatuses (pod w) rv (replaceStatus st' (ContainerStatuses (Status (pod w))))) cr' in
  container_ok (n + 1) w' c -> Inv (n + 1) w'.
Proof.
  intros HI Hc Hname Hst Hcr w' Hok. apply (kubelet_inv n w rv c); [done|done| | | |done].
  - intros s Hs. apply (list_elem_of_fmap_2 StatusName) in Hs. rewrite replaceStatus_names in Hs.
    apply list_elem_of_fmap in Hs as (s' & -> & Hs'). by apply (inv_statuses _ _ HI).
  - rewrite replaceStatus_names. apply HI.
  - intros name Hne. split; [|by apply Hcr]. apply containerStatus_replace_ne. congruence.
Qed.

(** Optimistic concurrency: a patch computed from a stale observation is
    refused. *)
Lemma patch_observed cur o pt p' : observes cur o -> WantResourceVersion pt = nonEmpty (ResourceVersion o) ->
  patchPod cur pt = Some p' -> o = cur.
Proof.
  intros [Hne Hobs] Hpre Hp. apply Hobs. destruct (decide (ResourceVersion o = ResourceVersion cur)) as [E|E]; [done|].
  rewrite (patch_version cur pt (ResourceVersion o)) in Hp; [done| |done]. rewrite Hpre. unfold nonEmpty. by rewrite bool_decide_false.
Qed.

Lemma Start_preconditions p images revision now pt : Start p images revision now = Some pt ->
  WantResourceVersion pt = nonEmpty (ResourceVersion p) /\ SetLabels pt = ∅.
Proof.
  unfold Start. destruct (match StateOf p with Some s => _ | None => false end); [done|].
  destruct (fold_left _ _ _) as [[patched expected] containers]. by intros [= <-].
Qed.

Lemma setImage_name images c : ContainerName (setImage images c) = ContainerName c.
Proof. unfold setImage. by destruct (findName _ _ _) as [[]|]. Qed.

Lemma setImage_names images (l : list Container) : ContainerName <$> (setImage images <$> l) = ContainerName <$> l.
Proof. rewrite <- list_fmap_compose. apply list_fmap_ext. intros _ c _. apply setImage_name. Qed.

(** The images after a start: those it touched, the others as they were. *)
Lemma setImage_touched images imagesSet c :
  match touched images c with
  | Some image => findName fst (ContainerName c) imagesSet = Some (ContainerName c, image)
  | None => findName fst (ContainerName c) imagesSet = None
  end -> ContainerImage (setImage imagesSet c) = default (ContainerImage c) (touched images c).
Proof. unfold setImage. destruct (touched images c) as [image|]; by intros ->. Qed.

Lemma touched_ne images c image : touched images c = Some image -> image <> ContainerImage c.
Proof. unfold touched. destruct (images !! _) as [i|]; simpl; [|done]. case_bool_decide; [done|]. by intros [= <-]. Qed.

Lemma start_inv n w images revision now pt p' : Inv n w -> n + 1 <= MaxInt32 ->
  Start (pod w) images revision now = Some pt -> patchPod (pod w) pt = Some p' ->
  Inv (n + 1) (MkWorld p' (created w)) /\ (benign w -> benign (MkWorld p' (created w))).
Proof.
  intros [I0 I1 I2 I3 I4 I5 I6] Hn HS Hp. apply patch_merges in Hp as (M1 & M2 & _ & M5).
  destruct (Start_spec _ _ _ _ _ I1 HS (fun s name Hs => proj1 (I4 s name Hs))) as (s & A1 & _ & _ & A4 & A5).
  assert (Hs : StateOf p' = Some (truncated s)) by (unfold StateOf; by rewrite M2, A1).
  assert (Hcs : forall name, containerStatus p' name = containerStatus (pod w) name) by (intros name; unfold containerStatus; by rewrite M5).
  assert (Hpc : forall name, patchedContainer (StateOf p') name = Patched s !! name).
  { intros name. rewrite Hs. unfold patchedContainer, InProgress. cbn [truncated Done]. by rewrite A4. }
  assert (Hex : forall name, expectedRestarts (StateOf p') name = default 0 (Expected s !! name)) by (intros name; by rewrite Hs).
  assert (Hold : forall name, 0 <= expectedRestarts (StateOf (pod w)) name <= n).
  { intros name. unfold expectedRestarts. destruct (StateOf (pod w)) as [s0|] eqn:E0; [by apply I4|lia]. }
  assert (Hfind : forall name c, findName ContainerName name (Containers (pod w)) = Some c -> c ∈ Containers (pod w) /\ ContainerName c = name)
    by (intros name c; apply findName_Some).
  assert (Hbump : forall c, c ∈ Containers (pod w) ->
     let m := Z.max (expectedRestarts (StateOf (pod w)) (ContainerName c)) (countOf (pod w) (ContainerName c)) in int32 (m + 1) = m + 1 /\ 0 <= m <= n).
  { intros c Hc m. pose proof (ok_count _ _ _ (I6 c Hc)). specialize (Hold (ContainerName c)). split; [|lia].
    apply int32_id, in_int32_unfold. unfold MaxInt32 in Hn. lia. }
  assert (Hcont : forall c, c ∈ Containers (pod w) -> let c' := setImage (SetImages pt) c in
     container_ok (n + 1) (MkWorld p' (created w)) c' /\ (quiet w c -> quiet (MkWorld p' (created w)) c')).
  { intros c Hc c'. pose proof (I6 c Hc) as [O1 O2 O3 O4 O5]. specialize (A5 (ContainerName c)).
    rewrite (findName_elem ContainerName c _ I1 Hc) in A5. cbn [mbind option_bind] in A5.
    assert (Himg : ContainerImage c' = default (ContainerImage c) (touched images c)).
    { apply setImage_touched. destruct (touched images c); by destruct A5 as (_ & _ & ->). }
    destruct (Hbump c Hc) as [B1 B2]. unfold quiet, untouched, replaced. autounfold with inplace in *.
    split; [constructor|]; autounfold with inplace; cbn [pod created]; unfold c'; rewrite ?setImage_name; fold c'; rewrite ?Hpc, ?Hex, ?Hcs, ?Himg.
    - lia.
    - done.
    - done.
    - done.
    - destruct (touched images c) as [image|] eqn:Et; simpl; destruct A5 as (-> & E & _); rewrite ?E; [|done]. split; [done|by left].
    - destruct (touched images c) as [image|] eqn:Et; simpl; destruct A5 as (-> & -> & _); [|done]. intros [Hb _].
      rewrite B1. split; [destruct (created w !! ContainerName c) as [old|]; [destruct (negb (bool_decide (old = image)))|]; lia|].
      left. split_and!; [done|done|lia]. }
  split.
  - constructor; cbn [pod created].
    + lia.
    + by rewrite M1, setImage_names.
    + rewrite M1, M5, setImage_names. apply I2.
    + by rewrite M5.
    + intros s' name Hs'. rewrite Hs in Hs'. injection Hs' as <-. cbn [truncated Expected]. specialize (A5 name).
      destruct (findName ContainerName name (Containers (pod w))) as [c|] eqn:Ef; cbn [mbind option_bind] in A5.
      * apply Hfind in Ef as [Hc <-]. destruct (Hbump c Hc) as [B1 B2], (touched images c); destruct A5 as (_ & -> & _);
          [rewrite B1; lia|]. specialize (Hold (ContainerName c)). lia.
      * destruct A5 as (_ & -> & _). specialize (Hold name). lia.
    + intros name p Hpn. rewrite M1, setImage_names. rewrite Hpc in Hpn. specialize (A5 name).
      destruct (findName ContainerName name (Containers (pod w))) as [c|] eqn:Ef; cbn [mbind option_bind] in A5.
      * apply Hfind in Ef as [Hc <-]. by apply list_elem_of_fmap_2.
      * destruct A5 as (A5 & _). rewrite A5 in Hpn. by eapply I5.
    + rewrite M1. intros c' Hc'. apply list_elem_of_fmap in Hc' as (c & -> & Hc). by apply Hcont.
  - intros [B1 B2]. split; cbn [pod created]; [by rewrite M5|]. rewrite M1. intros c' Hc'.
    apply list_elem_of_fmap in Hc' as (c & -> & Hc). apply Hcont; [done|by apply B2].
Qed.

Lemma setImage_nil c : setImage [] c = c.
Proof. reflexivity. Qed.

(** An instance whose status says that it ran the target runs its image. *)
Lemma ranTarget_runs n w c st p : Inv n w -> c ∈ Containers (pod w) -> containerStatus (pod w) (ContainerName c) = Some st ->
  patchedContainer (StateOf (pod w)) (ContainerName c) = Some p -> ranTarget st p = true ->
  ContainerID st <> PrevContainerID p /\ forall old, created w !! ContainerName c = Some old -> imageID old = imageID (ContainerImage c).
Proof.
  intros HI Hc Hst Hp Hran. destruct (inv_container _ _ HI c Hc) as [_ _ _ O4 O5]. rewrite Hp in O5. destruct O5 as [Himg O5].
  unfold ranTarget in Hran. destruct (bool_decide (ContainerID st = ""%string)); [done|]. cbn [orb] in Hran.
  case_bool_decide as Hprev; [done|]. split; [done|]. intros old Hold. destruct (O4 st old Hst Hold) as [Hid Hname].
  apply orb_true_iff in Hran as [Hran|Hran].
  - apply bool_decide_eq_true in Hran. rewrite <- Himg. symmetry. by apply Hname.
  - unfold imageIDChanged in Hran. rewrite !andb_true_iff, !negb_true_iff, !bool_decide_eq_false in Hran. destruct Hran as [[_ Hne] Hch].
    destruct (O5 Hne) as [O5'|O5']; [|congruence]. unfold imageIDOf in O5'. rewrite Hst in O5'. by destruct Hch.
Qed.

(** An update on target runs, in every container it patched, an instance that
    says so. *)
Lemma OnTarget_spec n w c p : Inv n w -> OnTarget (StateOf (pod w)) (pod w) = true ->
  patchedContainer (StateOf (pod w)) (ContainerName c) = Some p ->
  exists st, containerStatus (pod w) (ContainerName c) = Some st /\ ranTarget st p = true.
Proof.
  intros HI Hon Hp. destruct (StateOf (pod w)) as [s|]; [|done]. unfold OnTarget in Hon.
  apply andb_true_iff in Hon as [Hon Hall]. apply andb_true_iff in Hon as [Hin _].
  unfold patchedContainer in Hp. rewrite Hin in Hp. apply bool_decide_eq_true in Hall. specialize (Hall _ _ Hp).
  unfold onTargetContainer in Hall. apply andb_true_iff in Hall as [_ Hst].
  destruct (containerStatus (pod w) (ContainerName c)) as [st|]; [by exists st|done].
Qed.

Lemma complete_inv n w revision roleHash now p' : Inv n w -> OnTarget (StateOf (pod w)) (pod w) = true ->
  patchPod (pod w) (Complete (pod w) revision roleHash now) = Some p' ->
  Inv (n + 1) (MkWorld p' (created w)) /\ (benign w -> benign (MkWorld p' (created w))).
Proof.
  intros HI Hon Hp. pose proof (fun c p => OnTarget_spec n w c p HI Hon) as Htarget. pose proof (fun c st p => ranTarget_runs n w c st p HI) as Hruns.
  destruct (StateOf (pod w)) as [s|] eqn:Hs; [|done]. rewrite <- Hs in *. destruct HI as [I0 I1 I2 I3 I4 I5 I6].
  destruct (Complete_spec (pod w) revision roleHash now s Hs) as (s' & C1 & C2 & _ & C4 & C5).
  apply patch_merges in Hp as (M1 & M2 & _ & M5). cbn [Complete preconditionedMetadata SetImages] in M1.
  assert (Hcont : Containers p' = Containers (pod w)) by (rewrite M1; unfold Complete, preconditionedMetadata; apply list_fmap_id). clear M1.
  assert (Hs' : StateOf p' = Some (truncated s')) by (unfold StateOf; by rewrite M2, C1).
  assert (Hcs : forall name, containerStatus p' name = containerStatus (pod w) name) by (intros name; unfold containerStatus; by rewrite M5).
  assert (Hpc : forall name, patchedContainer (StateOf p') name = None).
  { intros name. rewrite Hs'. unfold patchedContainer, InProgress. cbn [truncated Done]. by rewrite C2. }
  assert (Hpast : forall name, Patched s !! name = patchedContainer (StateOf (pod w)) name).
  { intros name. unfold OnTarget in Hon. rewrite Hs in Hon. apply andb_true_iff in Hon as [Hon _]. apply andb_true_iff in Hon as [Hin _].
    rewrite Hs. unfold patchedContainer. by rewrite Hin. }
  assert (Hex : forall name, expectedRestarts (StateOf p') name =
     match patchedContainer (StateOf (pod w)) name, containerStatus (pod w) name with
     | Some _, Some status => Z.min (expectedRestarts (StateOf (pod w)) name) (RestartCount status)
     | _, _ => expectedRestarts (StateOf (pod w)) name end).
  { intros name. rewrite Hs'. cbn [expectedRestarts truncated Expected]. rewrite C5, Hpast. by rewrite Hs. }
  assert (Hok : forall c, c ∈ Containers (pod w) ->
     (forall old, created w !! ContainerName c = Some old -> imageID old = imageID (ContainerImage c)) /\
     expectedRestarts (StateOf p') (ContainerName c) <= countOf (pod w) (ContainerName c) /\
     (quiet w c -> pending w c = false /\ countOf (pod w) (ContainerName c) <= expectedRestarts (StateOf p') (ContainerName c))).
  { intros c Hc. pose proof (I6 c Hc) as [O1 O2 O3 O4 O5]. rewrite Hex. unfold quiet. destruct (patchedContainer _ _) as [p|] eqn:Ep.
    - destruct (Htarget c p Ep) as (st & Hst & Hran). destruct (Hruns c st p Hc Hst Ep Hran) as [Hprev Hold]. split; [done|].
      unfold countOf. rewrite Hst. simpl. split; [lia|]. intros [Q1 [(Q2 & _)|(Q2 & _)]].
      + unfold idOf in Q2. rewrite Hst in Q2. by destruct Hprev.
      + unfold pending in *. rewrite Q2, bool_decide_true in * by done. split; [done|]. simpl in Q1. lia.
    - destruct O5 as [O5 O6]. split; [done|]. split; [done|]. intros [Q1 Q2]. rewrite Q2 in Q1. split; [done|]. lia. }
  split.
  - constructor; cbn [pod created]; rewrite ?Hcont, ?M5; try done; [lia| | |].
    + intros s0 name Hs0. rewrite Hs' in Hs0. injection Hs0 as <-. cbn [truncated Expected]. rewrite C5, Hpast.
      specialize (I4 s name Hs). destruct (patchedContainer _ _) as [p|] eqn:Ep; [|lia].
      destruct (containerStatus (pod w) name) as [st|] eqn:Est; [|lia].
      apply I5 in Ep. apply list_elem_of_fmap in Ep as (c & -> & Hc). pose proof (ok_count _ _ _ (I6 c Hc)) as Hct.
      unfold countOf in Hct. rewrite Est in Hct. simpl in Hct. lia.
    + intros name p. by rewrite Hpc.
    + intros c Hc. destruct (Hok c Hc) as (K1 & K2 & _), (I6 c Hc) as [O1 O2 O3 O4 _]. autounfold with inplace in *.
      constructor; autounfold with inplace; cbn [pod created]; rewrite ?Hpc, ?Hcs; [lia|done|done|done|done].
  - intros [B1 B2]. split; cbn [pod created]; [by rewrite M5|]. rewrite Hcont. intros c Hc.
    destruct (Hok c Hc) as (_ & _ & K3). destruct (K3 (B2 c Hc)) as [K4 K5]. unfold quiet. rewrite Hpc. split; [|done].
    change (pending (MkWorld p' (created w)) c) with (pending w c). cbn [pod]. rewrite K4. unfold countOf in *. rewrite Hcs. lia.
Qed.

(** The kubelet starts an instance of container [c] from some image; the count of
    restarts grows by [d]. *)
Lemma started_inv n w rv c st st' cr' image d : Inv n w -> c ∈ Containers (pod w) ->
  containerStatus (pod w) (ContainerName c) = Some st -> started c st st' (RestartCount st + d) -> 0 <= d <= 1 ->
  reported image st' -> cr' !! ContainerName c = Some image ->
  image = ContainerImage c \/ created w !! ContainerName c = Some image \/
    (created w !! ContainerName c = None /\ is_Some (patchedContainer (StateOf (pod w)) (ContainerName c))) ->
  (forall name, name <> ContainerName c -> cr' !! name = created w !! name) ->
  Inv (n + 1) (MkWorld (withStatuses (pod w) rv (replaceStatus st' (ContainerStatuses (Status (pod w))))) cr').
Proof.
  intros HI Hc Hst (Hname & Hcount & Hid & Hne) Hd Himg Hcr Hfrom Hothers.
  apply (replace_inv n w rv c st); [done|done|done|done|done|].
  set (w' := MkWorld (withStatuses (pod w) rv (replaceStatus st' (ContainerStatuses (Status (pod w))))) cr').
  assert (Hst' : containerStatus (pod w') (ContainerName c) = Some st').
  { unfold w'. cbn [pod]. rewrite containerStatus_replace, Hst. simpl. by rewrite decide_True. }
  pose proof (inv_container _ _ HI c Hc) as [O1 O2 O3 O4 O5]. assert (Hex : StateOf (pod w') = StateOf (pod w)) by done.
  autounfold with inplace in *. rewrite Hst in O1, O2, O3, O5. simpl in O1, O2, O3, O5.
  constructor; autounfold with inplace; rewrite ?Hst', ?Hex; simpl; rewrite ?Hcr, ?Hcount; [lia|done|done| |].
  - by intros ? ? [= <-] [= <-].
  - destruct (patchedContainer _ _) as [p|].
    + destruct O5 as [O5 O6]. split; [done|]. intros Hp. destruct Hfrom as [->|[Hfrom|[Hfrom _]]]; [by right| |].
      * destruct (O6 Hp) as [O6'|O6']; [|rewrite Hfrom in O6'; injection O6' as ->; by right].
        left. rewrite <- O6', (proj1 (O4 _ _ Hst Hfrom)). apply Himg.
      * destruct (O6 Hp) as [O6'|O6']; [rewrite O3 in O6' by done; by destruct Hp|congruence].
    + destruct O5 as [O5 O6]. split; [|lia]. intros old [= <-]. destruct Hfrom as [->|[Hfrom|[_ [p Hfrom]]]]; [done|by apply O5|done].
Qed.

(** An instance of the image that is asked for, which an update caused. *)
Lemma started_benign n w rv c st st' d : Inv n w -> benign w -> c ∈ Containers (pod w) ->
  containerStatus (pod w) (ContainerName c) = Some st -> started c st st' (RestartCount st + d) ->
  match created w !! ContainerName c with
  | None => d = 0
  | Some old => d = 1 /\ old <> ContainerImage c /\ toldApart old (ContainerImage c) st' = true
  end ->
  benign (MkWorld (withStatuses (pod w) rv (replaceStatus st' (ContainerStatuses (Status (pod w))))) (<[ContainerName c := ContainerImage c]> (created w))).
Proof.
  intros HI [B1 B2] Hc Hst (Hname & Hcount & Hid & Hne) Hold. split; [done|].
  set (w' := MkWorld _ _). intros c' Hc'. change (Containers (pod w')) with (Containers (pod w)) in Hc'.
  destruct (decide (ContainerName c' = ContainerName c)) as [E|E].
  2:{ apply (quiet_ext w); [done| | |by apply B2]; unfold w'; cbn [pod created]; [apply containerStatus_replace_ne; congruence|by apply lookup_insert_ne]. }
  apply (same_container _ c' c (inv_names _ _ HI) Hc' Hc) in E as ->. destruct (B2 c Hc) as [Q1 Q2].
  assert (Hst' : containerStatus (pod w') (ContainerName c) = Some st').
  { unfold w'. cbn [pod]. rewrite containerStatus_replace, Hst. simpl. by rewrite decide_True. }
  assert (Hex : StateOf (pod w') = StateOf (pod w)) by done. assert (Hcr : created w' !! ContainerName c = Some (ContainerImage c)) by apply lookup_insert_eq.
  assert (Hpend : pending w' c = false) by (unfold pending; by rewrite Hcr, bool_decide_true).
  pose proof (inv_container _ _ HI c Hc) as [_ _ _ O4 _].
  assert (Hd : d = if pending w c then 1 else 0).
  { unfold pending. destruct (created w !! ContainerName c); [|done]. destruct Hold as (-> & Hold & _). by rewrite bool_decide_false by done. }
  unfold quiet. rewrite Hpend. unfold countOf in Q1 |- *. rewrite Hst in Q1. rewrite Hst', Hex. simpl in *. rewrite Hcount.
  split; [lia|]. destruct (patchedContainer _ _) as [p|]; [|done]. right. split; [done|].
  destruct Q2 as [(U1 & U2 & U3)|(R1 & R2)].
  - destruct (created w !! ContainerName c) as [old|] eqn:Eo.
    + destruct Hold as (_ & _ & Ht). destruct (O4 st old Hst eq_refl) as [Oid _]. unfold imageIDOf in U2. rewrite Hst in U2. simpl in U2.
      unfold toldApart in Ht. apply orb_true_iff in Ht as [Ht|Ht].
      * left. exists st'. split; [done|]. by apply bool_decide_eq_true in Ht.
      * right. left. apply negb_true_iff, bool_decide_eq_false in Ht. rewrite <- U2, Oid. split; [apply imageID_nonempty|done].
    + right. right. pose proof (proj1 (ok_id _ _ _ (inv_container _ _ HI c Hc)) Eo) as Hempty. split; [congruence|].
      unfold countOf in U3. rewrite Hst in U3. unfold countOf. simpl in *. rewrite Hst', Hex. simpl. lia.
  - rewrite R1 in Hold. destruct Hold as (_ & Hold & _). done.
Qed.

(** The kubelet reports a container it has not started. *)
Lemma report_inv n w rv c image : Inv n w -> c ∈ Containers (pod w) ->
  containerStatus (pod w) (ContainerName c) = None ->
  let w' := MkWorld (withStatuses (pod w) rv (ContainerStatuses (Status (pod w)) ++ [MkStatus (ContainerName c) 0 "" image ""])) (created w) in
  Inv (n + 1) w' /\ (benign w -> benign w').
Proof.
  intros HI Hc Hnone w'. set (st := MkStatus (ContainerName c) 0 "" image "") in *.
  assert (Hlook : forall name, containerStatus (pod w') name = if decide (ContainerName c = name) then Some st else containerStatus (pod w) name)
    by (intros name; apply (containerStatus_report (pod w) rv st name Hnone)).
  assert (Hcount : forall name, countOf (pod w') name = countOf (pod w) name).
  { intros name. unfold countOf. rewrite Hlook. destruct (decide _) as [<-|]; [by rewrite Hnone|done]. }
  assert (Hid : forall name, idOf (pod w') name = idOf (pod w) name).
  { intros name. unfold idOf. rewrite Hlook. destruct (decide _) as [<-|]; [by rewrite Hnone|done]. }
  assert (Himage : forall name, imageIDOf (pod w') name = imageIDOf (pod w) name).
  { intros name. unfold imageIDOf. rewrite Hlook. destruct (decide _) as [<-|]; [by rewrite Hnone|done]. }
  assert (Hcr : created w !! ContainerName c = None) by (apply (ok_id _ _ _ (inv_container _ _ HI c Hc)); unfold idOf; by rewrite Hnone).
  split.
  - apply (kubelet_inv n w rv c); [done|done| | | |].
    + intros s Hs. apply elem_of_app in Hs as [Hs|Hs]; [by apply (inv_statuses _ _ HI)|].
      apply list_elem_of_singleton in Hs as ->. by apply (list_elem_of_fmap_2 ContainerName).
    + rewrite fmap_app. apply NoDup_app. split_and!; [apply HI| |apply NoDup_singleton].
      intros x Hx Hx'. apply list_elem_of_singleton in Hx' as ->. by apply findName_None in Hnone.
    + intros name Hne. split; [|done]. change (withStatuses _ _ _) with (pod w'). rewrite Hlook. by rewrite decide_False by congruence.
    + pose proof (inv_container _ _ HI c Hc) as [O1 O2 O3 O4 O5]. change (container_ok (n + 1) w' c).
      constructor; rewrite ?Hcount, ?Hid, ?Himage; [lia|done|done| |done].
      intros s0 old _ Hold. change (created w') with (created w) in Hold. congruence.
  - intros [B1 B2]. split; [done|]. intros c' Hc'. change (Containers (pod w')) with (Containers (pod w)) in Hc'.
    destruct (decide (ContainerName c' = ContainerName c)) as [E|E].
    + apply (same_container _ c' c (inv_names _ _ HI) Hc' Hc) in E as ->. destruct (B2 c Hc) as [Q1 Q2].
      unfold quiet, untouched. rewrite Hcount, Hid, Himage. split; [done|]. change (StateOf (pod w')) with (StateOf (pod w)).
      destruct (patchedContainer _ _); [|done]. destruct Q2 as [Q2|[Q2 _]]; [by left|congruence].
    + apply (quiet_ext w); [done| |done|by apply B2]. rewrite Hlook. by rewrite decide_False by congruence.
Qed.

Lemma pod_step_inv n w e w' : Inv n w -> n + 1 <= MaxInt32 -> step w e w' -> Inv (n + 1) w' /\ (orderly e -> benign w -> benign w').
Proof.
  intros HI Hn Hstep. destruct Hstep as
    [w o images revision now pt p' Ho HS Hp | w o revision roleHash now p' Ho Hon Hp | w rv c image Hc Hnone
    | w rv c st st' Hc Hst Hid Hstart Himg | w rv c st st' earlier p Hc Hst Hid Hp Hstart Himg | w rv c st st' old Hc Hst Hcr Hold Hstart Himg
    | w rv c st st' old Hc Hst Hcr Hstart Himg | w p' Hcs Han Hsts Hinit].
  - destruct (Start_preconditions _ _ _ _ _ HS) as [Hpre _]. rewrite (patch_observed _ _ _ _ Ho Hpre Hp) in HS.
    destruct (start_inv n w images revision now pt p' HI Hn HS Hp). by split.
  - assert (E : o = pod w) by by apply (patch_observed _ _ (Complete o revision roleHash now) p' Ho).
    subst o. destruct (complete_inv n w revision roleHash now p' HI Hon Hp). by split.
  - destruct (report_inv n w rv c image HI Hc Hnone). by split.
  - replace (RestartCount st) with (RestartCount st + 0) in Hstart by lia.
    assert (Hnone : created w !! ContainerName c = None).
    { apply (ok_id _ _ _ (inv_container _ _ HI c Hc)). unfold idOf. by rewrite Hst. }
    split.
    + apply (started_inv n w rv c st st' _ (ContainerImage c) 0); first [done|lia|apply lookup_insert_eq|by left|by right; left|intros; by apply lookup_insert_ne|idtac].
    + intros _ Hb. apply (started_benign n w rv c st st' 0); try done. by rewrite Hnone.
  - replace (RestartCount st) with (RestartCount st + 0) in Hstart by lia. split; [|done].
    apply (started_inv n w rv c st st' _ earlier 0); first [done|lia|apply lookup_insert_eq|by left|by right; left|intros; by apply lookup_insert_ne|idtac].
    right. right. split; [|by exists p]. apply (ok_id _ _ _ (inv_container _ _ HI c Hc)). unfold idOf. by rewrite Hst.
  - split.
    + apply (started_inv n w rv c st st' _ (ContainerImage c) 1); first [done|lia|apply lookup_insert_eq|by left|by right; left|intros; by apply lookup_insert_ne|idtac].
    + intros Ht Hb. apply (started_benign n w rv c st st' 1); try done. rewrite Hcr. split_and!; [done|done|]. by destruct (toldApart _ _ _).
  - split; [|done]. apply (started_inv n w rv c st st' _ old 1); first [done|lia|apply lookup_insert_eq|by left|by right; left|intros; by apply lookup_insert_ne|idtac].
  - assert (Hs : StateOf p' = StateOf (pod w)) by (unfold StateOf; by rewrite Han).
    assert (Hst : forall name, containerStatus p' name = containerStatus (pod w) name) by (intros; unfold containerStatus; by rewrite Hsts).
    split.
    + destruct HI as [I0 I1 I2 I3 I4 I5 I6]. constructor; cbn [pod]; rewrite ?Hcs, ?Hsts, ?Hs; try done; [lia| |].
      * intros s name H3. specialize (I4 s name H3). lia.
      * intros c Hc. apply (container_ok_ext n (n + 1) w); [lia|done|apply Hst|done|by apply I6].
    + intros _ [B1 B2]. split; [done|]. cbn [pod]. rewrite Hcs. intros c Hc. apply (quiet_ext w); [done|apply Hst|done|by apply B2].
Qed.

Lemma pod_steps_inv w0 evs w : initial w0 -> steps w0 evs w -> Z.of_nat (length evs) <= MaxInt32 ->
  Inv (Z.of_nat (length evs)) w /\ (Forall orderly evs -> benign w).
Proof.
  intros Hinit Hsteps. induction Hsteps as [w0|w0 evs w e w' Hsteps IH Hstep]; intros Hlen.
  - destruct Hinit as (N1 & N2 & N3 & N4 & N5). assert (Hs : StateOf (pod w0) = None) by (unfold StateOf; by rewrite N2).
    assert (Hcs : forall name, containerStatus (pod w0) name = None) by (intros name; unfold containerStatus; by rewrite N3).
    split.
    + constructor; rewrite ?Hs, ?N3; try done; [intros st Hst; by apply not_elem_of_nil in Hst|constructor|].
      intros c Hc. constructor; autounfold with inplace; rewrite ?Hcs, ?Hs, ?N4, ?lookup_empty; simpl; try done.
    + intros _. split; [done|]. intros c Hc. unfold quiet. autounfold with inplace. by rewrite Hcs, Hs, N4, lookup_empty.
  - rewrite length_app in Hlen |- *. simpl in Hlen |- *. destruct (IH Hinit ltac:(lia)) as [HI Hb].
    destruct (pod_step_inv _ _ _ _ HI ltac:(lia) Hstep) as [HI' Hb']. replace (Z.of_nat (length evs + 1)) with (Z.of_nat (length evs) + 1) by lia.
    split; [done|]. intros [Ho He]%Forall_app. apply Hb'; [by inversion He|by apply Hb].
Qed.

Lemma status_container n w st : Inv n w -> st ∈ ContainerStatuses (Status (pod w)) ->
  exists c, c ∈ Containers (pod w) /\ StatusName st = ContainerName c /\ containerStatus (pod w) (ContainerName c) = Some st.
Proof.
  intros HI Hst. pose proof (inv_statuses _ _ HI st Hst) as Hin. apply list_elem_of_fmap in Hin as (c & E & Hc).
  exists c. split_and!; [done|done|]. rewrite <- E. by apply findName_elem; [apply HI|].
Qed.

(** A container that an update replaced, in a run without disturbances, says
    that it runs the target image. *)
Lemma replaced_ranTarget n w c st p : Inv n w -> quiet w c -> c ∈ Containers (pod w) -> containerStatus (pod w) (ContainerName c) = Some st ->
  patchedContainer (StateOf (pod w)) (ContainerName c) = Some p -> ContainerID st <> PrevContainerID p -> ContainerID st <> ""%string ->
  ranTarget st p = true \/ (PrevContainerID p = ""%string /\ RestartCount st < expectedRestarts (StateOf (pod w)) (ContainerName c)).
Proof.
  intros HI [_ Q] Hc Hst Hp Hne Hid. destruct (inv_container _ _ HI c Hc) as [_ _ _ O4 O5]. rewrite Hp in O5, Q. destruct O5 as [Himg _].
  unfold ranTarget. rewrite !bool_decide_false by done. simpl. destruct Q as [(Q & _)|(Q1 & Q2)].
  - unfold idOf in Q. rewrite Hst in Q. by destruct Hne.
  - destruct Q2 as [(st0 & Hst0 & Q2)|[[Q2 Q3]|[Q2 Q3]]].
    + left. rewrite Hst in Hst0. injection Hst0 as ->. unfold sameImage. by rewrite Himg, bool_decide_true.
    + left. unfold imageIDChanged. rewrite (proj1 (O4 _ _ Hst Q1)), !bool_decide_false by (congruence || apply imageID_nonempty).
      apply orb_true_r.
    + right. split; [done|]. unfold countOf in Q3. by rewrite Hst in Q3.
Qed.

Lemma benign_expected n w : Inv n w -> benign w -> UnexpectedRestart (StateOf (pod w)) (pod w) = false.
Proof.
  intros HI [B1 B2]. unfold UnexpectedRestart. destruct (_ && _); [done|]. apply orb_false_iff. split; apply not_true_iff_false; intros Hex;
    apply existsb_exists in Hex as (st & Hst & Hbad); apply list_elem_of_In in Hst.
  - rewrite Forall_forall in B1. rewrite (B1 st Hst) in Hbad. done.
  - destruct (status_container n w st HI Hst) as (c & Hc & Hname & Hlook). pose proof (B2 c Hc) as HQ. destruct (HQ) as [Q1 _]. unfold countOf in Q1.
    rewrite Hlook in Q1. simpl in Q1. unfold unexpectedStatus in Hbad. rewrite Hname in Hbad.
    assert (0 <= if pending w c then 1 else 0) by (by destruct (pending w c)).
    apply orb_true_iff in Hbad as [Hbad|Hbad]; [apply Z.ltb_lt in Hbad; lia|].
    destruct (patchedContainer _ _) as [p|] eqn:Ep; [|done]. rewrite !andb_true_iff, !negb_true_iff in Hbad.
    destruct Hbad as [[[Heq Hne] Hid] Hran]. apply bool_decide_eq_false in Hne, Hid.
    destruct (replaced_ranTarget n w c st p HI HQ Hc Hlook Ep Hne Hid) as [E|[_ E]]; [congruence|]. apply Z.eqb_eq in Heq. lia.
Qed.

(** A crash report of one container. *)
Lemma crash_reported w c st' : c ∈ Containers (pod w) -> containerStatus (pod w) (ContainerName c) = Some st' ->
  Phase (Status (pod w)) = PodRunning \/ Phase (Status (pod w)) = PodPending ->
  unexpectedStatus (StateOf (pod w)) st' = true -> UnexpectedRestart (StateOf (pod w)) (pod w) = true.
Proof.
  intros Hc Hst Hphase Hbad. unfold UnexpectedRestart.
  replace (_ && _) with false by (symmetry; apply andb_false_iff; destruct Hphase as [-> | ->]; [by left|by right]).
  apply orb_true_iff. right. apply existsb_exists. exists st'. split; [|done]. apply list_elem_of_In. by apply findName_Some in Hst as [Hin _].
Qed.

(** A crash of a container that no update patched, or that the update did not
    replace yet and allowed no more than one restart. *)
Lemma crash_unexpected n w c w' : Inv n w -> c ∈ Containers (pod w) -> step w (EvCrash (ContainerName c)) w' ->
  match patchedContainer (StateOf (pod w)) (ContainerName c) with
  | None => True
  | Some p => idOf (pod w) (ContainerName c) = PrevContainerID p /\
              expectedRestarts (StateOf (pod w)) (ContainerName c) <= countOf (pod w) (ContainerName c) + 1 /\
              forall old, created w !! ContainerName c = Some old -> imageID old <> imageID (ContainerImage c)
  end ->
  Phase (Status (pod w')) = PodRunning \/ Phase (Status (pod w')) = PodPending -> UnexpectedRestart (StateOf (pod w')) (pod w') = true.
Proof.
  intros HI Hc Hstep Hp Hphase. inversion Hstep as [| | | | | |? rv c0 st st' old Hc0 Hst Hcr (Hname & Hcount & Hid & Hnew) Himg E1 E2 E3|]; subst.
  apply (same_container _ c0 c (inv_names _ _ HI) Hc0 Hc) in E2 as ->.
  set (w' := MkWorld _ _) in *. assert (Hst' : containerStatus (pod w') (ContainerName c) = Some st').
  { unfold w'. cbn [pod]. rewrite containerStatus_replace, Hst. simpl. by rewrite decide_True. }
  apply (crash_reported w' c st'); [done|done|done|]. change (StateOf (pod w')) with (StateOf (pod w)).
  destruct (inv_container _ _ HI c Hc) as [O1 O2 _ O4 O5]. unfold unexpectedStatus. rewrite Hname, Hcount.
  unfold countOf, idOf, imageIDOf in *. rewrite Hst in *. simpl in *. destruct (patchedContainer _ _) as [p|].
  - destruct Hp as (Hprev & Hexp & Hdiff), O5 as [Htarget O5]. specialize (Hdiff old Hcr). rewrite <- Hprev, (bool_decide_false (_ = ContainerID st)) by done.
    rewrite (bool_decide_false (ContainerID st' = ""%string)) by done.
    assert (Hran : ranTarget st' p = false).
    { unfold ranTarget. destruct (_ || _); [done|]. apply orb_false_iff. split.
      - apply bool_decide_eq_false. intros E. apply Hdiff. rewrite <- Htarget. symmetry. by apply Himg.
      - unfold imageIDChanged. destruct (decide (PrevImageID p = ""%string)) as [E|E]; [rewrite E; by rewrite andb_false_r|].
        destruct (O5 E) as [O6|O6]; [|congruence]. rewrite (proj1 Himg), <- O6, (proj1 (O4 _ _ eq_refl Hcr)).
        rewrite (bool_decide_true (imageID old = imageID old)) by done. apply andb_false_r. }
    rewrite Hran. cbn [negb]. rewrite !andb_true_r. destruct (Z.ltb_spec (expectedRestarts (StateOf (pod w)) (ContainerName c)) (RestartCount st + 1)); [done|].
    apply Z.eqb_eq. lia.
  - apply orb_true_iff. left. apply Z.ltb_lt. lia.
Qed.

(** C12: the restarts of a pod are told apart. From a new pod, over every
    sequence of updates, retargeted updates, completions and kubelet steps: as
    long as no container crashes, none is first started late from an earlier image,
    and every restart for a new image can be told from its status, by the
    image name or by an image ID that changed, no crash is reported, and an
    update is complete as soon as every container it patched has been
    replaced and the pod is ready; for a container that never ran before the patch the
    new name is needed. A crash is reported at once when no unfinished update
    patched the container, and also when one did but the old image came up
    again instead of the target and the update allows a single restart. Whatever
    happened, when an update is complete every started container runs the image that
    its specification asks for, identified by its ID. *)
Theorem inplace_restarts_exact w0 evs w : initial w0 -> steps w0 evs w -> Z.of_nat (length evs) < MaxInt32 ->
  let s := StateOf (pod w) in
  (Forall orderly evs -> UnexpectedRestart s (pod w) = false) /\
  (Forall orderly evs -> InProgress s = true -> IsRunningAndReady (Status (pod w)) = true ->
     (forall name p, patchedContainer s name = Some p -> exists st, containerStatus (pod w) name = Some st /\
        ContainerID st <> ""%string /\ ContainerID st <> PrevContainerID p /\
        (PrevContainerID p = ""%string -> normalizeImage (StatusImage st) = normalizeImage (Image p))) -> Completed s (pod w) = true) /\
  (forall c w', c ∈ Containers (pod w) -> step w (EvCrash (ContainerName c)) w' ->
     match patchedContainer s (ContainerName c) with
     | None => True
     | Some p => idOf (pod w) (ContainerName c) = PrevContainerID p /\ expectedRestarts s (ContainerName c) <= countOf (pod w) (ContainerName c) + 1 /\
                 forall old, created w !! ContainerName c = Some old -> imageID old <> imageID (ContainerImage c)
     end ->
     Phase (Status (pod w')) = PodRunning \/ Phase (Status (pod w')) = PodPending -> UnexpectedRestart (StateOf (pod w')) (pod w') = true) /\
  (Completed s (pod w) = true -> forall c old, c ∈ Containers (pod w) -> created w !! ContainerName c = Some old -> imageID old = imageID (ContainerImage c)).
Proof.
  intros Hinit Hsteps Hlen s. destruct (pod_steps_inv w0 evs w Hinit Hsteps ltac:(lia)) as [HI Hb]. set (n := Z.of_nat (length evs)) in *.
  split_and!.
  - intros Ho. by apply (benign_expected n), Hb.
  - intros Ho Hin Hready Hrep. pose proof (benign_expected n w HI (Hb Ho)) as Hu. fold s in Hu. unfold Completed. rewrite Hu, andb_true_r. unfold OnTarget.
    destruct s as [st0|] eqn:Es; [|done]. rewrite Hin, Hready. apply bool_decide_eq_true. intros name p Hp.
    assert (Hpc : patchedContainer (StateOf (pod w)) name = Some p) by (fold s; rewrite Es; unfold patchedContainer; by rewrite Hin).
    pose proof (inv_patched _ _ HI name p Hpc) as Hn. apply list_elem_of_fmap in Hn as (c & -> & Hc).
    destruct (inv_container _ _ HI c Hc) as [_ _ _ _ O5]. rewrite Hpc in O5. destruct O5 as [O5 _].
    destruct (Hrep (ContainerName c) p) as (st & Hst & Hid & Hne & Hfirst); [by rewrite <- Es|].
    unfold onTargetContainer, specRequests. rewrite (findName_elem _ c _ (inv_names _ _ HI) Hc), Hst.
    rewrite bool_decide_true by done. cbn [andb].
    destruct (replaced_ranTarget n w c st p HI (proj2 (Hb Ho) c Hc) Hc Hst Hpc Hne Hid) as [|[E _]]; [done|].
    unfold ranTarget, sameImage. by rewrite !bool_decide_false, bool_decide_true by auto.
  - intros c w' Hc Hstep. by apply (crash_unexpected n).
  - intros Hcomp c old Hc Hcr. unfold Completed in Hcomp. apply andb_true_iff in Hcomp as [Hon _].
    pose proof (inv_container _ _ HI c Hc) as [_ _ _ _ O5]. destruct (patchedContainer _ _) as [p|] eqn:Ep.
    + destruct (OnTarget_spec n w c p HI Hon Ep) as (st & Hst & Hran). by apply (ranTarget_runs n w c st p HI Hc Hst Ep Hran).
    + by apply O5.
Qed.
End run.

(** ** A concrete run *)

Definition mergePatch (cur : Pod) (p : Patch) : option Pod :=
  if match WantResourceVersion p with Some rv => negb (bool_decide (rv = ResourceVersion cur)) | None => false end ||
     match WantUID p with Some uid => negb (bool_decide (uid = UID (Meta cur))) | None => false end then None
  else
    Some (MkPod (withLabels (Meta cur) (SetLabels p ∪ Labels (Meta cur)))
                (ResourceVersion cur ++ "'") (Some (SetAnnotation p)) (RestartPolicy cur) (setImage (SetImages p) <$> Containers cur) (Status cur)).

Definition strategicMerge : PodServer.
Proof.
  refine {| patchPod := mergePatch |}; unfold mergePatch.
  - intros cur p rv -> Hne. by rewrite bool_decide_false.
  - intros cur p uid -> Hne. by rewrite (bool_decide_false (uid = _)), orb_true_r.
  - intros cur p cur'. destruct (_ || _); [done|]. by intros [= <-].
Defined.

Definition demoMeta : ObjectMeta := MkMeta "default" "demo-0" "u1" ∅ [] None.
Definition demoPod (rv image : string) (raw : option rawState) (phase : PodPhase) (conditions : list (string * string)) (l : list ContainerStatus) : Pod :=
  MkPod demoMeta rv raw "Always" [MkContainer "vllm" image None 0] (MkPodStatus phase conditions [] l).

(** A runtime that reports digests, to which the two images of the run
    resolve. *)
Definition demoID (image : string) : string :=
  if decide (image = "v1"%string) then "sha256:1" else if decide (image = "v2"%string) then "sha256:2"
  else if decide (image = ""%string) then "none" else image.

Definition demoRuntime : Runtime.
Proof. refine {| imageID := demoID |}. intros image. unfold demoID. repeat case_decide; done. Defined.

Definition demoReady : list (string * string) := [("Ready", "True")].
Definition demoRaw : rawState := Marshal (MkState "r2" 5 {["vllm" := MkPatched "v2" "a" "sha256:1"]} {["vllm" := 1]} false).
Definition demoOld : ContainerStatus := MkStatus "vllm" 0 "a" "sha256:1" "sha256:1".
Definition demoNew : ContainerStatus := MkStatus "vllm" 1 "b" "sha256:2" "sha256:2".
Definition demoWorld1 : World := MkWorld (demoPod "1" "v1" None PodPending [] []) ∅.
Definition demoWorld2 : World := MkWorld (demoPod "2" "v1" None PodPending [] [MkStatus "vllm" 0 "" "" ""]) ∅.
Definition demoWorld3 : World := MkWorld (demoPod "2" "v1" None PodPending [] [demoOld]) {["vllm" := "v1"]}.
Definition demoWorld4 : World := MkWorld (demoPod "3" "v1" None PodRunning demoReady [demoOld]) {["vllm" := "v1"]}.
Definition demoWorld5 : World := MkWorld (demoPod "3'" "v2" (Some demoRaw) PodRunning demoReady [demoOld]) {["vllm" := "v1"]}.
Definition demoWorld6 : World := MkWorld (demoPod "9" "v2" (Some demoRaw) PodRunning demoReady [demoNew]) (<["vllm" := "v2"]> {["vllm" := "v1"]}).

Lemma demo_reported image digest st : demoID image = digest -> demoID digest = digest -> StatusImage st = digest -> ImageID st = digest ->
  @reported plainReference demoRuntime image st.
Proof. intros E1 E2 E3 E4. split; [simpl; congruence|]. intros other E. change (StatusImage st = other) in E. simpl. congruence. Qed.

Lemma demo_steps : @steps plainReference strategicMerge demoRuntime demoWorld1 [EvReport; EvFirst; EvStatus; EvStart; EvRestart true] demoWorld6.
Proof.
  pose (R := demoRuntime). change [EvReport; EvFirst; EvStatus; EvStart; EvRestart true] with ([EvReport; EvFirst; EvStatus; EvStart] ++ [EvRestart true]).
  apply (@steps_snoc plainReference strategicMerge R) with demoWorld5.
  change [EvReport; EvFirst; EvStatus; EvStart] with ([EvReport; EvFirst; EvStatus] ++ [EvStart]).
  apply (@steps_snoc plainReference strategicMerge R) with demoWorld4.
  change [EvReport; EvFirst; EvStatus] with ([EvReport; EvFirst] ++ [EvStatus]).
  apply (@steps_snoc plainReference strategicMerge R) with demoWorld3.
  change [EvReport; EvFirst] with ([EvReport] ++ [EvFirst]).
  apply (@steps_snoc plainReference strategicMerge R) with demoWorld2.
  change [EvReport] with (@nil Event ++ [EvReport]).
  eapply (@steps_snoc plainReference strategicMerge R); [apply steps_refl|].
  - apply (@step_report plainReference strategicMerge R demoWorld1 "2" (MkContainer "vllm" "v1" None 0) ""); [left|reflexivity].
  - apply (@step_first plainReference strategicMerge R demoWorld2 "2" (MkContainer "vllm" "v1" None 0) (MkStatus "vllm" 0 "" "" "") demoOld);
      [left|reflexivity|reflexivity|by split_and!|by apply (demo_reported _ "sha256:1")].
  - refine (@step_status plainReference strategicMerge R demoWorld3 (demoPod "3" "v1" None PodRunning demoReady [demoOld]) _ _ _ _);
      [reflexivity|reflexivity|reflexivity|constructor].
  - refine (@step_start plainReference strategicMerge R demoWorld4 (demoPod "3" "v1" None PodRunning demoReady [demoOld]) {["vllm" := "v2"]} "r2" 5
      (MkPatch (Some "3") (Some "u1") demoRaw ∅ [("vllm", "v2")]) _ _ _ _); [by split|vm_compute; reflexivity|vm_compute; reflexivity].
  - refine (@step_restart plainReference strategicMerge R demoWorld5 "9" (MkContainer "vllm" "v2" None 0) demoOld demoNew "v1" _ _ _ _ _ _);
      [left|reflexivity|reflexivity|done|by split_and!|by apply (demo_reported _ "sha256:2")].
Qed.

Lemma inplace_restarts_exact_witness :
  @initial demoWorld1 /\ @Completed plainReference (StateOf (pod demoWorld6)) (pod demoWorld6) = true.
Proof.
  assert (Hinit : initial demoWorld1) by (split_and!; [apply NoDup_singleton|reflexivity|reflexivity|reflexivity|constructor]).
  split; [exact Hinit|].
  destruct (@inplace_restarts_exact plainReference strategicMerge demoRuntime _ _ _ Hinit demo_steps ltac:(vm_compute; reflexivity)) as (_ & H & _).
  apply H; [by repeat constructor|reflexivity|reflexivity|].
  intros name p Hp. exists demoNew. destruct (decide (name = "vllm"%string)) as [->|Hne].
  - vm_compute in Hp. injection Hp as <-. split_and!; [reflexivity|discriminate|discriminate|discriminate].
  - exfalso. change (({["vllm" := MkPatched "v2" "a" "sha256:1"]} : gmap string PatchedContainer) !! name = Some p) in Hp.
    by rewrite lookup_singleton_ne in Hp.
Defined.
