(* ===== verification/InPlaceUnit.v ===== *)
(** * pkg/model-serving-controller/controller/inplace_update.go: update units

    The pods that move to a revision together: which images are patched, when a
    unit can be updated in place at all, and the level-triggered reconciliation
    of a unit that is being updated. *)
From S2P Require Import Prelude ServingPods InPlaceState InPlaceRun Names.
Local Open Scope Z_scope.

(** ** Target images (inplace/state.go) *)

(** A role of a template: the name and image of each container of its entry
    pod and of its worker pods. *)
Record Role := MkRole {
  RoleName : string;
  EntryTemplate : list (string * string);
  WorkerTemplate : option (list (string * string));
  Replicas : option Z;
  WorkerReplicas : Z;
}.

Abbreviation template := (list Role).

Definition findRole (ms : template) (roleName : string) : option Role := findName RoleName roleName ms.

Definition TargetImages (ms : template) (meta : ObjectMeta) : gmap string string :=
  match findRole ms (label (Labels meta) RoleLabelKey) with
  | None => ∅
  | Some role =>
    let tmpl := if bool_decide (label (Labels meta) EntryLabelKey = Entry) then EntryTemplate role
                else default (EntryTemplate role) (WorkerTemplate role) in
    fold_left (fun images '(name, image) => <[name := image]> images) tmpl ∅
  end.

(** The loop body of [ImagesToPatch]: the images to patch and the drift. *)
Definition imageToPatch (prior : option State) (target source : gmap string string) (acc : gmap string string * list string) (c : Container) :
    gmap string string * list string :=
  let '(images, drift) := acc in
  let name := ContainerName c in
  match target !! name with
  | None => acc
  | Some want =>
    let earlier := patchedContainer prior name in
    let src := source !! name in
    if bool_decide (want = ContainerImage c) then
      match src with
      | Some s => if negb (bool_decide (s = want)) && negb (bool_decide (is_Some earlier)) then (images, drift ++ [name]) else acc
      | None => acc
      end
    else if bool_decide (Image <$> earlier = Some (ContainerImage c)) || bool_decide (src = Some (ContainerImage c))
    then (<[name := want]> images, drift)
    else if bool_decide (src = Some want) then acc
    else (images, drift ++ [name])
  end.

Definition ImagesToPatch (pod : Pod) (target source : gmap string string) : gmap string string * list string :=
  let '(images, drift) := fold_left (imageToPatch (StateOf pod) target source) (Containers pod) (∅, []) in
  (images, sortStrings drift).

Definition MissingContainers (ms : template) (pod : Pod) : list string :=
  sortStrings (filter (fun name => name ∉ ContainerName <$> Containers pod) (map_to_list (TargetImages ms (Meta pod))).*1).

(** ** Eligibility *)

Inductive inPlaceDecision := decisionInPlace | decisionWait | decisionRecreate.

(** What one reconcile remembers: the template of each source revision and the
    verdict of the comparison. *)
Record inPlaceRound := MkRound { sources : gmap string template; imagesOnlyMemo : gmap string bool }.
Definition newRound : inPlaceRound := MkRound ∅ ∅.

(** The kubelet may not restart a container after its image changed. *)
Definition restartPolicyBlocksInPlace (pod : Pod) : bool :=
  negb (bool_decide (RestartPolicy pod = "Always"%string)) ||
  existsb (fun c => negb (bool_decide (default "Always"%string (ContainerRestartPolicy c) = "Always"%string)) ||
                    (0 <? RestartPolicyRules c)%nat) (Containers pod).

(** Every pod has an unfinished update to [revision]. *)
Definition allPatchedFor (pods : list Pod) (revision : string) : bool :=
  forallb (fun pod => match StateOf pod with
                      | Some s => negb (Done s) && bool_decide (Revision s = revision) && negb (IsTerminating (Meta pod))
                      | None => false
                      end) pods && (0 <? length pods)%nat.

Section decide.
(** The template of a recorded revision, and the comparison of templates. *)
Context (workload : string -> option template) (imagesOnly : template -> Pod -> bool).
Context (ms : template) (revision : string) (perRole : bool).

Definition imagesKey (pod : Pod) : string :=
  if perRole then (ObjectRevision (Meta pod) ++ "/" ++ GetRoleName (Meta pod))%string else ObjectRevision (Meta pod).

(** One pod of the loop: [inl] when it does not decide, [inr] the decision,
    none for an error; with the round after it. *)
Definition decidePod (round : inPlaceRound) (pod : Pod) : inPlaceRound * (unit + option inPlaceDecision) :=
  if IsTerminating (Meta pod) then (round, inr (Some decisionWait))
  else if restartPolicyBlocksInPlace pod then (round, inr (Some decisionRecreate))
  else
    let podRevision := ObjectRevision (Meta pod) in
    if bool_decide (podRevision = revision) then (round, inl tt)
    else if negb (bool_decide (MissingContainers ms pod = [])) then (round, inr (Some decisionRecreate))
    else
      match (match sources round !! podRevision with Some source => Some source | None => workload podRevision end) with
      | None => (round, inr None)
      | Some source =>
        let sources := <[podRevision := source]> (sources round) in
        let same := default (imagesOnly source pod) (imagesOnlyMemo round !! imagesKey pod) in
        let round := MkRound sources (<[imagesKey pod := same]> (imagesOnlyMemo round)) in
        if negb same then (round, inr (Some decisionRecreate))
        else if negb (bool_decide ((ImagesToPatch pod (TargetImages ms (Meta pod)) (TargetImages source (Meta pod))).2 = []))
        then (round, inr (Some decisionRecreate))
        else (round, inl tt)
      end.

Fixpoint decidePods (round : inPlaceRound) (pods : list Pod) : inPlaceRound * option inPlaceDecision :=
  match pods with
  | [] => (round, Some decisionInPlace)
  | pod :: pods =>
    match decidePod round pod with
    | (round, inl _) => decidePods round pods
    | (round, inr d) => (round, d)
    end
  end.

Definition decideInPlace (round : inPlaceRound) (pods : list Pod) : inPlaceRound * option inPlaceDecision :=
  if bool_decide (pods = []) then (round, Some decisionRecreate)
  else if allPatchedFor pods revision then (round, Some decisionInPlace)
  else decidePods round pods.

(** ** Starting the update of a unit *)

Inductive startAction := MarkUnavailable (pod : Pod) | PatchPod (pod : Pod) (patch : Patch).

(** [ensured] is the outcome of persisting the target revision, [send] whether
    the server takes a patch; the result is the actions taken and whether they
    all succeeded. *)
Fixpoint startInPlaceUpdate (ensured : bool) (send : Pod -> Patch -> bool) (round : inPlaceRound) (now : Z) (pods : list Pod) : list startAction * bool :=
  match pods with
  | [] => ([], true)
  | pod :: pods =>
    let state := StateOf pod in
    let rest := startInPlaceUpdate ensured send round now pods in
    if bool_decide (ObjectRevision (Meta pod) = revision) && negb (InProgress state) then rest
    else if InProgress state && bool_decide (Revision <$> state = Some revision) then (MarkUnavailable pod :: rest.1, rest.2)
    else if negb ensured then ([], false)
    else
      let target := TargetImages ms (Meta pod) in
      let source := match sources round !! ObjectRevision (Meta pod) with Some s => TargetImages s (Meta pod) | None => ∅ end in
      match Start pod (ImagesToPatch pod target source).1 revision now with
      | None => (MarkUnavailable pod :: rest.1, rest.2)
      | Some patch => if send pod patch then (PatchPod pod patch :: MarkUnavailable pod :: rest.1, rest.2) else ([PatchPod pod patch], false)
      end
  end.
End decide.

(** ** What an eligible unit is patched to *)

(** The choice for one container. *)
Abbreviation choice prior target source c := (imageToPatch prior target source (∅, []) c).

Lemma imageToPatch_split prior target source (acc : gmap string string * list string) c :
  imageToPatch prior target source acc c = ((choice prior target source c).1 ∪ acc.1, acc.2 ++ (choice prior target source c).2).
Proof.
  destruct acc as [images drift]. unfold imageToPatch.
  repeat match goal with
  | |- context [match ?x with Some _ => _ | None => _ end] => destruct x
  | |- context [if ?b then _ else _] => destruct b
  end; simpl; rewrite ?(left_id_L ∅ _), ?app_nil_r, <- ?insert_union_l, ?(left_id_L ∅ (∪)); try done.
  all: by rewrite <- insert_union_singleton_l.
Qed.

Lemma choice_key prior target source c name : name <> ContainerName c -> (choice prior target source c).1 !! name = None.
Proof.
  intros Hne. unfold imageToPatch.
  repeat match goal with
  | |- context [match ?x with Some _ => _ | None => _ end] => destruct x
  | |- context [if ?b then _ else _] => destruct b
  end; simpl; rewrite ?lookup_insert_ne, ?lookup_empty by done; done.
Qed.

Lemma imagesToPatch_fold prior target source l : forall acc : gmap string string * list string,
  NoDup (ContainerName <$> l) ->
  let r := fold_left (imageToPatch prior target source) l acc in
  r.2 = acc.2 ++ (l ≫= fun c => (choice prior target source c).2) /\
  (forall name, name ∉ ContainerName <$> l -> r.1 !! name = acc.1 !! name) /\
  (forall c, c ∈ l -> acc.1 !! ContainerName c = None -> r.1 !! ContainerName c = (choice prior target source c).1 !! ContainerName c).
Proof.
  induction l as [|c l IH]; intros acc Hnd; simpl.
  { rewrite app_nil_r. split_and!; [done|done|]. intros c Hc. by apply not_elem_of_nil in Hc. }
  inversion Hnd as [|? ? Hc Hnd']; subst. destruct (IH (imageToPatch prior target source acc c) Hnd') as (I1 & I2 & I3).
  rewrite imageToPatch_split in I1, I2, I3. rewrite imageToPatch_split. cbn [fst snd] in *. split_and!.
  - rewrite I1. by rewrite <- app_assoc.
  - intros name Hn. apply not_elem_of_cons in Hn as [Hne Hn]. rewrite I2 by done. rewrite lookup_union, choice_key by done.
    by destruct (acc.1 !! name).
  - intros c' Hc' Hacc. apply elem_of_cons in Hc' as [->|Hc'].
    + rewrite I2 by done. by rewrite lookup_union, Hacc, (right_id_L None union).
    + apply I3; [done|]. rewrite lookup_union, Hacc, (right_id_L None union). apply choice_key. intros E. apply Hc. rewrite <- E.
      by apply list_elem_of_fmap_2.
Qed.

(** Without drift, a container with a target image is patched to it, has it
    already, or runs an image set at admission where the template asks for the
    same image as before. *)
Lemma ImagesToPatch_nodrift pod target source c want : NoDup (ContainerName <$> Containers pod) ->
  (ImagesToPatch pod target source).2 = [] -> c ∈ Containers pod -> target !! ContainerName c = Some want ->
  default (ContainerImage c) ((ImagesToPatch pod target source).1 !! ContainerName c) = want \/
  ((ImagesToPatch pod target source).1 !! ContainerName c = None /\ source !! ContainerName c = Some want).
Proof.
  intros Hnd Hdrift Hc Ht. unfold ImagesToPatch in *.
  pose proof (imagesToPatch_fold (StateOf pod) target source (Containers pod) (∅, []) Hnd) as Hf. cbv zeta in Hf.
  destruct (fold_left _ _ _) as [images drift]. cbn [fst snd app] in *. destruct Hf as (F1 & _ & F3).
  rewrite (F3 c Hc (lookup_empty _)).
  assert (Hnil : (choice (StateOf pod) target source c).2 = []).
  { pose proof (sortStrings_perm drift) as Hp. rewrite Hdrift in Hp. apply Permutation_nil in Hp. rewrite Hp in F1.
    destruct (choice (StateOf pod) target source c).2 as [|x l] eqn:E; [done|]. exfalso.
    assert (Hx : x ∈ (Containers pod ≫= fun c => (choice (StateOf pod) target source c).2)).
    { apply list_elem_of_bind. exists c. split; [rewrite E; left|done]. }
    rewrite <- F1 in Hx. by apply not_elem_of_nil in Hx. }
  clear F1 F3 Hdrift. unfold imageToPatch in *. rewrite Ht in *. case_bool_decide as E1.
  - left. subst want. destruct (source !! _); [destruct (_ && _)|]; simpl; by rewrite lookup_empty.
  - destruct (_ || _); simpl; [left; by rewrite lookup_insert_eq|]. case_bool_decide as E2; simpl; [|done]. right. split; [apply lookup_empty|done].
Qed.

Section eligible.
Context (workload : string -> option template) (imagesOnly : template -> Pod -> bool).
Context (ms : template) (revision : string) (perRole : bool).

(** What a round remembers is what would be read again. *)
Definition roundOk (round : inPlaceRound) : Prop :=
  (forall r source, sources round !! r = Some source -> workload r = Some source) /\
  forall pod same source, imagesOnlyMemo round !! imagesKey perRole pod = Some same -> workload (ObjectRevision (Meta pod)) = Some source ->
    same = imagesOnly source pod.

(** A pod that can be updated in place from a known source template. *)
Definition eligible (pod : Pod) : Prop :=
  IsTerminating (Meta pod) = false /\ restartPolicyBlocksInPlace pod = false /\
  (ObjectRevision (Meta pod) <> revision ->
   (forall name, is_Some (TargetImages ms (Meta pod) !! name) -> name ∈ ContainerName <$> Containers pod) /\
   exists source, workload (ObjectRevision (Meta pod)) = Some source /\ imagesOnly source pod = true /\
     (ImagesToPatch pod (TargetImages ms (Meta pod)) (TargetImages source (Meta pod))).2 = []).

(** The verdict is a function of the key it is remembered under. *)
Definition verdictOfKey : Prop := forall p q, imagesKey perRole p = imagesKey perRole q ->
  ObjectRevision (Meta p) = ObjectRevision (Meta q) /\ forall source, imagesOnly source p = imagesOnly source q.

Lemma MissingContainers_nil pod : MissingContainers ms pod = [] ->
  forall name, is_Some (TargetImages ms (Meta pod) !! name) -> name ∈ ContainerName <$> Containers pod.
Proof.
  unfold MissingContainers. intros Hm name [image Hi]. pose proof (sortStrings_perm (filter (fun name => name ∉ ContainerName <$> Containers pod)
    (map_to_list (TargetImages ms (Meta pod))).*1)) as Hp. rewrite Hm in Hp. apply Permutation_nil in Hp.
  destruct (decide (name ∈ ContainerName <$> Containers pod)) as [|Hn]; [done|]. exfalso.
  assert (Hin : name ∈ filter (fun name => name ∉ ContainerName <$> Containers pod) (map_to_list (TargetImages ms (Meta pod))).*1).
  { apply list_elem_of_filter. split; [done|]. apply list_elem_of_fmap. exists (name, image). split; [done|]. by apply elem_of_map_to_list. }
  rewrite Hp in Hin. by apply not_elem_of_nil in Hin.
Qed.

Lemma decidePod_ok round pod : verdictOfKey -> roundOk round -> let '(round', d) := decidePod workload imagesOnly ms revision perRole round pod in
  roundOk round' /\ sources round ⊆ sources round' /\
  (d = inl tt -> eligible pod /\ (ObjectRevision (Meta pod) <> revision -> is_Some (sources round' !! ObjectRevision (Meta pod)))).
Proof.
  intros Hkey [R1 R2]. unfold decidePod, eligible. destruct (IsTerminating (Meta pod)); [by split_and!|].
  destruct (restartPolicyBlocksInPlace pod); [by split_and!|]. case_bool_decide as Er; [by split_and!|].
  case_bool_decide as Em; simpl; [|by split_and!].
  destruct (match sources round !! _ with Some s => Some s | None => _ end) as [source|] eqn:Es; [|by split_and!].
  assert (Hw : workload (ObjectRevision (Meta pod)) = Some source).
  { destruct (sources round !! ObjectRevision (Meta pod)) as [s|] eqn:E; [|done]. injection Es as ->. by apply R1. }
  set (same := default (imagesOnly source pod) (imagesOnlyMemo round !! imagesKey perRole pod)).
  assert (Hsame : same = imagesOnly source pod).
  { unfold same. destruct (imagesOnlyMemo round !! _) as [v|] eqn:E; [|done]. by apply (R2 pod). }
  assert (Hround : roundOk (MkRound (<[ObjectRevision (Meta pod) := source]> (sources round)) (<[imagesKey perRole pod := same]> (imagesOnlyMemo round)))).
  { split; cbn [sources imagesOnlyMemo].
    - intros r s. rewrite lookup_insert_Some. intros [[<- <-]|[_ H]]; [done|by apply R1].
    - intros p v s. rewrite lookup_insert_Some. intros [[Hk <-]|[_ H]] Hs; [|by eapply R2].
      destruct (Hkey _ _ Hk) as [E1 E2]. rewrite <- E1, Hw in Hs. injection Hs as <-. by rewrite Hsame, E2. }
  assert (Hsub : sources round ⊆ <[ObjectRevision (Meta pod) := source]> (sources round)).
  { destruct (sources round !! ObjectRevision (Meta pod)) as [s|] eqn:E; [|by apply insert_subseteq].
    injection Es as ->. by rewrite insert_id. }
  destruct (negb same) eqn:En; [by split_and!|]. case_bool_decide as Ed; simpl; [|by split_and!].
  split; [done|]. split; [done|]. intros _. split; [|intros _; rewrite lookup_insert_eq; by eexists]. split; [done|]. split; [done|].
  intros _. split; [by apply MissingContainers_nil|]. exists source. split; [done|]. split; [|done]. rewrite <- Hsame.
  by apply negb_false_iff in En.
Qed.

Lemma decidePods_ok l : forall round round', verdictOfKey -> roundOk round ->
  decidePods workload imagesOnly ms revision perRole round l = (round', Some decisionInPlace) ->
  roundOk round' /\ sources round ⊆ sources round' /\
  forall pod, pod ∈ l -> eligible pod /\ (ObjectRevision (Meta pod) <> revision -> is_Some (sources round' !! ObjectRevision (Meta pod))).
Proof.
  induction l as [|pod l IH]; intros round round' Hkey Hr; simpl.
  { intros [= <-]. split_and!; [done|done|]. intros pod Hp. by apply not_elem_of_nil in Hp. }
  pose proof (decidePod_ok round pod Hkey Hr) as Hpod. destruct (decidePod _ _ _ _ _ _ _) as [round1 [[]|d]] eqn:Ed.
  - intros Hd. destruct Hpod as (H1 & H2 & H3). destruct (IH round1 round' Hkey H1 Hd) as (H4 & H5 & H6).
    split_and!; [done|by etrans|]. intros p Hp. apply elem_of_cons in Hp as [->|Hp]; [|auto]. destruct (H3 eq_refl) as [E1 E2].
    split; [done|]. intros Hne. destruct (E2 Hne) as [source Hs]. exists source. by eapply lookup_weaken.
  - intros [= -> ->]. exfalso. revert Ed. unfold decidePod.
    repeat match goal with |- context [if ?b then _ else _] => destruct b; try done end.
    all: try destruct (match sources round !! _ with Some s => Some s | None => _ end); try done.
    all: repeat match goal with |- context [if ?b then _ else _] => destruct b; try done end.
Qed.

(** The source images a start uses for a pod. *)
Definition sourceImages (round : inPlaceRound) (pod : Pod) : gmap string string :=
  match sources round !! ObjectRevision (Meta pod) with Some s => TargetImages s (Meta pod) | None => ∅ end.

Definition settledPod (pod : Pod) : Prop := ObjectRevision (Meta pod) = revision /\ InProgress (StateOf pod) = false.

Lemma startInPlaceUpdate_spec ensured send round now l :
  (forall pod patch, PatchPod pod patch ∈ (startInPlaceUpdate ms revision ensured send round now l).1 ->
     pod ∈ l /\ Start pod (ImagesToPatch pod (TargetImages ms (Meta pod)) (sourceImages round pod)).1 revision now = Some patch) /\
  ((startInPlaceUpdate ms revision ensured send round now l).2 = true -> forall pod, pod ∈ l -> settledPod pod \/
     (MarkUnavailable pod ∈ (startInPlaceUpdate ms revision ensured send round now l).1 /\
      ((InProgress (StateOf pod) = true /\ Revision <$> StateOf pod = Some revision) \/
       exists patch, PatchPod pod patch ∈ (startInPlaceUpdate ms revision ensured send round now l).1))).
Proof.
  induction l as [|pod l [IH1 IH2]]; cbn [startInPlaceUpdate].
  { split; [intros p x Hp; by apply not_elem_of_nil in Hp|intros _ p Hp; by apply not_elem_of_nil in Hp]. }
  destruct (bool_decide _ && negb _) eqn:E1.
  { split; [intros p x Hp; destruct (IH1 p x Hp); split; [by right|done]|]. intros Hok p Hp. apply elem_of_cons in Hp as [->|Hp]; [|auto].
    left. apply andb_true_iff in E1 as [A B]. split; [by apply bool_decide_eq_true in A|by apply negb_true_iff in B]. }
  destruct (InProgress (StateOf pod) && _) eqn:E2.
  { cbn [fst snd]. split.
    - intros p x Hp. apply elem_of_cons in Hp as [Hp|Hp]; [done|]. destruct (IH1 p x Hp). split; [by right|done].
    - intros Hok p Hp. apply andb_true_iff in E2 as [A B]. apply bool_decide_eq_true in B.
      apply elem_of_cons in Hp as [->|Hp]; [right; split; [left|by left]|].
      destruct (IH2 Hok p Hp) as [|(H1 & [H2|(x & H2)])]; [by left|right; split; [by right|by left]|right; split; [by right|right; exists x; by right]]. }
  destruct ensured; cbn [negb]; [|split; [intros p x Hp; by apply not_elem_of_nil in Hp|done]].
  fold (sourceImages round pod).
  destruct (Start pod _ revision now) as [patch|] eqn:E3.
  - destruct (send pod patch) eqn:E4; cbn [fst snd].
    + split.
      * intros p x Hp. apply elem_of_cons in Hp as [Hp|Hp]; [injection Hp as -> ->; split; [left|done]|].
        apply elem_of_cons in Hp as [Hp|Hp]; [done|]. destruct (IH1 p x Hp). split; [by right|done].
      * intros Hok p Hp. apply elem_of_cons in Hp as [->|Hp].
        { right. split; [right; left|]. right. exists patch. left. }
        destruct (IH2 Hok p Hp) as [|(H1 & [H2|(x & H2)])]; [by left| |]; right; (split; [right; by right|]);
          [by left|right; exists x; right; by right].
    + split; [|done]. intros p x Hp. apply list_elem_of_singleton in Hp. injection Hp as -> ->. split; [left|done].
  - exfalso. unfold Start in E3. unfold InProgress in E2. destruct (StateOf pod) as [s|]; [|by destruct (fold_left _ _ _) as [[? ?] ?]].
    cbn [fmap option_fmap option_map] in E2.
    assert (Eb : negb (Done s) && bool_decide (Revision s = revision) = false).
    { rewrite <- E2. f_equal. apply bool_decide_ext. split; [by intros ->|by intros [= ->]]. }
    rewrite Eb in E3. by destruct (fold_left _ _ _) as [[? ?] ?].
Qed.
End eligible.

(** An eligible unit ends on its target images. When the unit may be
    updated in place and not all of its pods were patched before, the memo of
    the round stays sound, every pod is alive, restarts its containers and is
    at the revision or comes from a known revision that differs in images only;
    and every patch the start then sends to an outdated pod leaves each
    container of the target template with the target image, or untouched where
    the template asks for the same image as before; when the start succeeds,
    every pod is patched or settled and every pod not settled is counted as
    unavailable. *)
Theorem in_place_patch_exact workload imagesOnly ms revision perRole round l round' :
  verdictOfKey imagesOnly perRole -> roundOk workload imagesOnly perRole round -> allPatchedFor l revision = false ->
  (forall pod, pod ∈ l -> NoDup (ContainerName <$> Containers pod) /\
     forall s name, StateOf pod = Some s -> 0 <= default 0 (Expected s !! name)) ->
  decideInPlace workload imagesOnly ms revision perRole round l = (round', Some decisionInPlace) ->
  roundOk workload imagesOnly perRole round' /\
  (forall pod, pod ∈ l -> eligible workload imagesOnly ms revision pod) /\
  forall ensured send now, let r := startInPlaceUpdate ms revision ensured send round' now l in
    (forall pod patch, PatchPod pod patch ∈ r.1 -> ObjectRevision (Meta pod) <> revision ->
       exists source, workload (ObjectRevision (Meta pod)) = Some source /\ imagesOnly source pod = true /\
       forall name want, TargetImages ms (Meta pod) !! name = Some want -> exists c, c ∈ Containers pod /\ ContainerName c = name /\
         let image := ContainerImage (setImage (SetImages patch) c) in
         image = want \/ (image = ContainerImage c /\ TargetImages source (Meta pod) !! name = Some want)) /\
    (r.2 = true -> forall pod, pod ∈ l -> settledPod revision pod \/ (MarkUnavailable pod ∈ r.1 /\
       ((InProgress (StateOf pod) = true /\ Revision <$> StateOf pod = Some revision) \/ exists patch, PatchPod pod patch ∈ r.1))).
Proof.
  intros Hkey Hround Hall Hpods. unfold decideInPlace. case_bool_decide as Hnil; [done|]. rewrite Hall. intros Hd.
  destruct (decidePods_ok _ _ _ _ _ l round round' Hkey Hround Hd) as (D1 & _ & D3). split; [done|]. split; [intros pod Hp; by apply D3|].
  intros ensured send now. destruct (startInPlaceUpdate_spec ms revision ensured send round' now l) as [S1 S2]. split; [|done].
  intros pod patch Hp Hne. destruct (S1 pod patch Hp) as [Hin HS]. destruct (D3 pod Hin) as [(_ & _ & Hel) Hsrc].
  destruct (Hel Hne) as (Hmiss & source & Hw & Hsame & Hdrift), (Hsrc Hne) as [source' Hs'].
  assert (source' = source) as -> by (apply D1 in Hs'; congruence). exists source. split; [done|]. split; [done|].
  intros name want Ht. pose proof (Hmiss name ltac:(by eexists)) as Hn. apply list_elem_of_fmap in Hn as (c & -> & Hc). exists c. split; [done|].
  split; [done|]. destruct (Hpods pod Hin) as [Hnd Hpos]. destruct (Start_spec _ _ _ _ _ Hnd HS Hpos) as (s & _ & _ & _ & _ & Hset).
  specialize (Hset (ContainerName c)). rewrite (findName_elem ContainerName c _ Hnd Hc) in Hset. cbn [mbind option_bind] in Hset.
  assert (Himg : ContainerImage (setImage (SetImages patch) c) = default (ContainerImage c)
     (touched (ImagesToPatch pod (TargetImages ms (Meta pod)) (sourceImages round' pod)).1 c)).
  { apply setImage_touched. destruct (touched _ c); by destruct Hset as (_ & _ & ->). }
  unfold sourceImages in Himg. rewrite Hs' in Himg. unfold touched in Himg. cbv zeta. rewrite Himg.
  destruct (ImagesToPatch_nodrift pod _ _ c want Hnd Hdrift Hc Ht) as [Hd'|[Hd' Hsw]]; [left|right; rewrite Hd'; by split].
  destruct ((ImagesToPatch _ _ _).1 !! ContainerName c) as [image|]; simpl in *; [|done]. subst image.
  case_bool_decide as E; [by rewrite E|done].
Qed.

(** ** Units *)

Record inPlaceUnit := MkUnit { groupName : string; roleName : string; roleID : string; pods : list Pod }.

Definition unitKey (group : string) (roleMode : bool) (pod : Pod) : string :=
  if roleMode then (GetRoleName (Meta pod) ++ "/" ++ GetRoleID (Meta pod))%string else group.

(** The loop body of [splitInPlaceUnits]; the units with their keys, in the
    order in which they were first met. *)
Definition addToUnit (group : string) (roleMode : bool) (units : list (string * inPlaceUnit)) (pod : Pod) : list (string * inPlaceUnit) :=
  let key := unitKey group roleMode pod in
  match findName fst key units with
  | Some _ => (fun '(k, u) => if bool_decide (k = key) then (k, MkUnit (groupName u) (roleName u) (roleID u) (pods u ++ [pod])) else (k, u)) <$> units
  | None => units ++ [(key, if roleMode then MkUnit group (GetRoleName (Meta pod)) (GetRoleID (Meta pod)) [pod] else MkUnit group "" "" [pod])]
  end.

Definition splitInPlaceUnits (uid group : string) (l : list Pod) (roleMode : bool) : list inPlaceUnit :=
  snd <$> fold_left (addToUnit group roleMode) (filter (fun p => IsOwnedByModelServingWithUID (Meta p) uid = true) l) [].

(** An instance of a role in the store. *)
Record RoleInstance := MkInstance { instanceName : string; instanceDeleting : bool }.


Inductive timeoutAction := DeletePod (pod : Pod) | HandleErrorPod (pod : Pod).

(** What the reconciliation of a unit does. *)
Inductive outcome :=
| Nothing
| HistoryUnresolved
| Failed
| Recreate
| Recorded (updates : list (string * string))
| TimedOut (actions : list timeoutAction) (ok : bool)
| Resume (after : option Z)
| Wait (remaining : Z)
| Finish (patches : list (Pod * Patch)) (updates : option (list (string * string))).

(** The actions of a loop up to the first that fails. *)
Fixpoint perform {A} (ok : A -> bool) (l : list A) : list A * bool :=
  match l with
  | [] => ([], true)
  | x :: l => if ok x then let '(done, b) := perform ok l in (x :: done, b) else ([x], false)
  end.

(** [time.Time{}]. *)
Definition zeroTime : Z := -62135596800000000000.
Definition defaultInPlaceProgressDeadline : Z := 1800 * 1000000000.

Section unit.
Context `{ImageReference}.
(** The parts of a model serving that are read, the time, and what the parts
    around this file answer: the template of a recorded revision, whether a
    role is the same in a template and in the desired one, its hash, the role
    instances of the store with their applied template (worker replicas and
    revision), and whether a request succeeds. *)
Context (ms : template) (namespace uid : string) (recoveryNone : bool) (progressDeadlineSeconds : option Z) (now : Z).
Context (workload : string -> option template) (equalRole : string -> template -> string -> bool) (roleHash : string -> option string).
Context (GetRoleList : string -> option (list RoleInstance)) (applied : string -> RoleInstance -> option (Z * string)).
Context (sendPatch : Pod * Patch -> bool) (sendTimeout : timeoutAction -> bool) (updateRole : string * string -> bool).

Definition podFinished (pod : Pod) : bool :=
  if recoveryNone then OnTarget (StateOf pod) pod else Completed (StateOf pod) pod.

Definition unitCompleted (unit : inPlaceUnit) (revision : string) : bool :=
  forallb (fun pod => if InProgress (StateOf pod) then podFinished pod else bool_decide (ObjectRevision (Meta pod) = revision)) (pods unit).

Definition roleRevertedTo (unit : inPlaceUnit) (pod : Pod) : bool :=
  if bool_decide (roleName unit = ""%string) then false
  else match workload (ObjectRevision (Meta pod)) with
       | Some previous => equalRole (ObjectRevision (Meta pod)) previous (roleName unit)
       | None => false
       end.

Definition hasUnpatchedOutdatedPod (unit : inPlaceUnit) (revision : string) : bool :=
  existsb (fun pod => negb (InProgress (StateOf pod)) && negb (bool_decide (ObjectRevision (Meta pod) = revision)) &&
                      negb (IsTerminating (Meta pod))) (pods unit).

Definition unitSettled (unit : inPlaceUnit) (revision : string) : bool :=
  negb (hasUnpatchedOutdatedPod unit revision) &&
  forallb (fun pod => negb (InProgress (StateOf pod)) || podFinished pod) (pods unit).

Definition inPlaceDeadline (startedAt : Z) : Z :=
  let deadline := match progressDeadlineSeconds with Some s => s * 1000000000 | None => defaultInPlaceProgressDeadline end in
  startedAt + deadline - now.

(** The actions on the pods that did not finish in time. *)
Definition timeoutActions (unit : inPlaceUnit) (revision : string) : list timeoutAction :=
  pods unit ≫= fun pod =>
    if InProgress (StateOf pod) then if podFinished pod then [] else [HandleErrorPod pod]
    else if negb (bool_decide (ObjectRevision (Meta pod) = revision)) && negb (IsTerminating (Meta pod)) then [DeletePod pod] else [].

Definition handleInPlaceTimeout (unit : inPlaceUnit) (revision : string) : outcome :=
  if recoveryNone then TimedOut [] true
  else let '(actions, ok) := perform sendTimeout (timeoutActions unit revision) in TimedOut actions ok.

Definition enforceInPlaceDeadline (unit : inPlaceUnit) (revision : string) (startedAt : Z) : outcome :=
  let remaining := inPlaceDeadline startedAt in
  if 0 <? remaining then Wait remaining else handleInPlaceTimeout unit revision.

(** [rolePodsComplete] without the readiness check: every ordinal of the
    instance has its pod at [revision]. *)
Definition rolePodsComplete (group : string) (instance : string) (role : Role) (workers : Z) (revision : string) (members : list ObjectMeta) : bool :=
  forallb (fun ordinal => existsb (fun m =>
      bool_decide (Namespace m = namespace) && IsOwnedByModelServingWithUID m uid &&
      bool_decide (label (Labels m) GroupNameLabelKey = group) && bool_decide (label (Labels m) RoleLabelKey = RoleName role) &&
      bool_decide (label (Labels m) RoleIDKey = instance) && bool_decide (ObjectRevision m = revision) &&
      bool_decide (PodName m = GeneratePodName group instance ordinal)) members) (seqZ 0 (workers + 1)).

Definition relabelled (source : string) (m : ObjectMeta) : ObjectMeta := withLabels m (<[RevisionLabelKey := source]> (Labels m)).

(** One instance of [inPlaceMembersPresent]: none when it is not in the unit's
    scope; an error, absence, or the number of its pods. *)
Definition memberInstance (unit : inPlaceUnit) (revision : string) (desired : Role) (instance : RoleInstance) : option (option (option Z)) :=
  if negb (bool_decide (roleName unit = ""%string)) && negb (bool_decide (instanceName instance = roleID unit)) then None
  else if instanceDeleting instance then Some (Some None)
  else
    match applied (RoleName desired) instance with
    | None => Some None
    | Some (workers, source) =>
      if existsb (fun pod => IsTerminating (Meta pod)) (pods unit) then Some (Some None)
      else
        let members := relabelled source <$>
          filter (fun m => ObjectRevision m = source \/ ObjectRevision m = revision) (Meta <$> pods unit) in
        if rolePodsComplete (groupName unit) (instanceName instance) desired workers source members then Some (Some (Some (1 + workers)))
        else Some (Some None)
    end.

(** The loop over the instances of a role: the count, and whether one was found. *)
Fixpoint memberInstances (unit : inPlaceUnit) (revision : string) (desired : Role) (l : list RoleInstance) (expected : Z) (found : bool) :
    option (option (Z * bool)) :=
  match l with
  | [] => Some (Some (expected, found))
  | instance :: l =>
    match memberInstance unit revision desired instance with
    | None => memberInstances unit revision desired l expected found
    | Some None => None
    | Some (Some None) => Some None
    | Some (Some (Some n)) => memberInstances unit revision desired l (expected + n) true
    end
  end.

Fixpoint memberRoles (unit : inPlaceUnit) (revision : string) (roles : list Role) (expected : Z) : option (option Z) :=
  match roles with
  | [] => Some (Some expected)
  | desired :: roles =>
    if negb (bool_decide (roleName unit = ""%string)) && negb (bool_decide (RoleName desired = roleName unit)) then memberRoles unit revision roles expected
    else
      match GetRoleList (RoleName desired) with
      | None => None
      | Some instances =>
        if bool_decide (roleName unit = ""%string) && negb (Z.of_nat (length instances) =? default 1 (Replicas desired)) then Some None
        else
          match memberInstances unit revision desired instances expected false with
          | None => None
          | Some None => Some None
          | Some (Some (expected, found)) =>
            if negb (bool_decide (roleName unit = ""%string)) && negb found then Some None else memberRoles unit revision roles expected
          end
      end
  end.

(** None is an error. *)
Definition inPlaceMembersPresent (unit : inPlaceUnit) (revision : string) : option bool :=
  match memberRoles unit revision ms 0 with
  | None => None
  | Some None => Some false
  | Some (Some expected) => Some ((0 <? expected) && (Z.of_nat (length (pods unit)) =? expected))
  end.

(** The store updates of [recordInPlaceRevision]: each role instance once; none
    when one fails. *)
Fixpoint recordInPlaceRevision (seen : list (string * string)) (l : list Pod) : option (list (string * string)) :=
  match l with
  | [] => Some []
  | pod :: l =>
    let key := (GetRoleName (Meta pod), GetRoleID (Meta pod)) in
    if bool_decide (key ∈ seen) then recordInPlaceRevision seen l
    else match roleHash (GetRoleName (Meta pod)) with
         | None => None
         | Some _ => if updateRole key then cons key <$> recordInPlaceRevision (key :: seen) l else None
         end
  end.

Definition repairInPlaceRevision (unit : inPlaceUnit) (revision : string) : outcome :=
  if negb (forallb (fun pod => bool_decide (ObjectRevision (Meta pod) = revision)) (pods unit)) then Nothing
  else if existsb (fun pod => match StateOf pod with Some s => Done s && bool_decide (Revision s = revision) | None => false end) (pods unit) then
    match inPlaceMembersPresent unit revision with
    | None => Failed
    | Some false => Nothing
    | Some true => match recordInPlaceRevision [] (pods unit) with Some updates => Recorded updates | None => Failed end
    end
  else Nothing.

(** The loop that completes the pods: the patches sent and whether all were. *)
Fixpoint completePods (revision : string) (l : list Pod) : list (Pod * Patch) * bool :=
  match l with
  | [] => ([], true)
  | pod :: l =>
    if InProgress (StateOf pod) then
      match roleHash (GetRoleName (Meta pod)) with
      | None => ([], false)
      | Some hash =>
        let patch := Complete pod revision hash now in
        if sendPatch (pod, patch) then let '(sent, ok) := completePods revision l in ((pod, patch) :: sent, ok) else ([(pod, patch)], false)
      end
    else completePods revision l
  end.

(** The first loop of [reconcileInPlaceUnit], over a unit with an unfinished
    pod: none when it passes. *)
Fixpoint validateMembers (l : list Pod) : option outcome :=
  match l with
  | [] => None
  | pod :: l => if IsTerminating (Meta pod) then Some Nothing
                else if bool_decide (is_Some (workload (ObjectRevision (Meta pod)))) then validateMembers l else Some HistoryUnresolved
  end.

(** The second loop: whether one is in progress, whether one has another
    target, and the earliest start. *)
Fixpoint scanMembers (unit : inPlaceUnit) (revision : string) (l : list Pod) (acc : bool * bool * Z) : outcome + bool * bool * Z :=
  match l with
  | [] => inr acc
  | pod :: l =>
    let '(inProgress, retargeted, earliest) := acc in
    if IsTerminating (Meta pod) then inl Nothing
    else
      match StateOf pod with
      | None => scanMembers unit revision l acc
      | Some s =>
        if Done s then scanMembers unit revision l acc
        else
          let other := negb (bool_decide (Revision s = revision)) in
          if other && (bool_decide (ObjectRevision (Meta pod) = revision) || roleRevertedTo unit pod) then inl Recreate
          else
            let earliest := if (earliest =? zeroTime) || (StartedAt s <? earliest) then StartedAt s else earliest in
            scanMembers unit revision l (true, retargeted || other, earliest)
      end
  end.

(** The unit has unfinished pods, all validated. *)
Definition advanceUnit (unit : inPlaceUnit) (revision : string) (retargeted : bool) (earliest : Z) : outcome :=
  if negb retargeted && hasUnpatchedOutdatedPod unit revision then
    let remaining := inPlaceDeadline earliest in
    if (remaining <=? 0) && negb recoveryNone then handleInPlaceTimeout unit revision
    else Resume (if 0 <? remaining then Some remaining else None)
  else if retargeted then
    if unitSettled unit revision then Nothing else enforceInPlaceDeadline unit revision earliest
  else if negb (unitCompleted unit revision) then enforceInPlaceDeadline unit revision earliest
  else
    match inPlaceMembersPresent unit revision with
    | None => Failed
    | Some false => enforceInPlaceDeadline unit revision earliest
    | Some true =>
      let '(sent, ok) := completePods revision (pods unit) in
      Finish sent (if ok then recordInPlaceRevision [] (pods unit) else None)
    end.

Definition reconcileInPlaceUnit (unit : inPlaceUnit) (revision : string) : outcome :=
  let active := existsb (fun pod => InProgress (StateOf pod)) (pods unit) in
  match (if active then validateMembers (pods unit) else None) with
  | Some o => o
  | None =>
    match scanMembers unit revision (pods unit) (false, false, zeroTime) with
    | inl o => o
    | inr (inProgress, retargeted, earliest) =>
      if inProgress then advanceUnit unit revision retargeted earliest else repairInPlaceRevision unit revision
    end
  end.

(** ** Reconciling a unit *)

Lemma validateMembers_None l : validateMembers l = None -> forall pod, pod ∈ l -> IsTerminating (Meta pod) = false.
Proof.
  induction l as [|pod l IH]; simpl; intros H1 p Hp; [by apply not_elem_of_nil in Hp|].
  destruct (IsTerminating (Meta pod)) eqn:Et; [done|]. case_bool_decide; [|done]. apply elem_of_cons in Hp as [->|Hp]; auto.
Qed.

Lemma validateMembers_Some l o : validateMembers l = Some o ->
  (o = Nothing /\ exists pod, pod ∈ l /\ IsTerminating (Meta pod) = true) \/
  (o = HistoryUnresolved /\ exists pod, pod ∈ l /\ workload (ObjectRevision (Meta pod)) = None).
Proof.
  induction l as [|pod l IH]; simpl; [done|]. destruct (IsTerminating (Meta pod)) eqn:Et.
  - intros [= <-]. left. split; [done|]. exists pod. split; [left|done].
  - case_bool_decide as Hw.
    + intros H1. destruct (IH H1) as [(-> & p & Hp & Hx)|(-> & p & Hp & Hx)]; [left|right]; (split; [done|]; exists p; split; [by right|done]).
    + intros [= <-]. right. split; [done|]. exists pod. split; [left|]. by apply eq_None_not_Some.
Qed.

(** A pod in progress towards another revision. *)
Definition elsewhere (revision : string) (pod : Pod) : bool :=
  InProgress (StateOf pod) && negb (bool_decide (Revision <$> StateOf pod = Some revision)).

Lemma scanMembers_spec unit revision l : forall acc, match scanMembers unit revision l acc with
  | inl o => (o = Nothing /\ exists pod, pod ∈ l /\ IsTerminating (Meta pod) = true) \/
             (o = Recreate /\ exists pod, pod ∈ l /\ elsewhere revision pod = true)
  | inr (inProgress, retargeted, _) => (forall pod, pod ∈ l -> IsTerminating (Meta pod) = false) /\
       inProgress = acc.1.1 || existsb (fun pod => InProgress (StateOf pod)) l /\
       retargeted = acc.1.2 || existsb (elsewhere revision) l
  end.
Proof.
  induction l as [|pod l IH]; intros [[ip rt] e]; simpl.
  { rewrite !orb_false_r. split_and!; [|done|done]. intros pod Hp. by apply not_elem_of_nil in Hp. }
  destruct (IsTerminating (Meta pod)) eqn:Et; [left; split; [done|]; exists pod; split; [left|done]|].
  unfold elsewhere at 2. destruct (StateOf pod) as [s|] eqn:Es.
  - simpl. destruct (Done s) eqn:Ed; simpl.
    + specialize (IH (ip, rt, e)). destruct (scanMembers _ _ l _) as [o|[[ip' rt'] e']].
      * destruct IH as [(-> & p & Hp & Hx)|(-> & p & Hp & Hx)]; [left|right]; (split; [done|]; exists p; split; [by right|done]).
      * destruct IH as (I1 & I2 & I3). split_and!; [|done|done]. intros p Hp. apply elem_of_cons in Hp as [->|Hp]; auto.
    + set (other := negb (bool_decide (Revision s = revision))).
      assert (Hother : negb (bool_decide (Some (Revision s) = Some revision)) = other).
      { unfold other. f_equal. apply bool_decide_ext. split; congruence. }
      destruct (other && _) eqn:Eo.
      * right. split; [done|]. exists pod. split; [left|]. unfold elsewhere. rewrite Es. simpl. rewrite Ed. simpl.
        apply andb_true_iff in Eo as [Eo _]. by rewrite Hother.
      * specialize (IH (true, rt || other, if (e =? zeroTime) || (StartedAt s <? e) then StartedAt s else e)).
        destruct (scanMembers _ _ l _) as [o|[[ip' rt'] e']].
        -- destruct IH as [(-> & p & Hp & Hx)|(-> & p & Hp & Hx)]; [left|right]; (split; [done|]; exists p; split; [by right|done]).
        -- destruct IH as (I1 & I2 & I3). simpl in I2, I3. split_and!.
           ++ intros p Hp. apply elem_of_cons in Hp as [->|Hp]; auto.
           ++ rewrite I2. by rewrite orb_true_r.
           ++ rewrite I3, Hother. by rewrite orb_assoc.
  - simpl. specialize (IH (ip, rt, e)). destruct (scanMembers _ _ l _) as [o|[[ip' rt'] e']].
    * destruct IH as [(-> & p & Hp & Hx)|(-> & p & Hp & Hx)]; [left|right]; (split; [done|]; exists p; split; [by right|done]).
    * destruct IH as (I1 & I2 & I3). split_and!; [|done|done]. intros p Hp. apply elem_of_cons in Hp as [->|Hp]; auto.
Qed.

(** The pods of a unit that can be completed: none is terminating, every one
    is at the revision or finished on the way to it, and one is on the way. *)
Record completable (unit : inPlaceUnit) (revision : string) : Prop := {
  cu_terminating : forall pod, pod ∈ pods unit -> IsTerminating (Meta pod) = false;
  cu_progress : existsb (fun pod => InProgress (StateOf pod)) (pods unit) = true;
  cu_target : forall pod, pod ∈ pods unit -> elsewhere revision pod = false;
  cu_completed : unitCompleted unit revision = true;
  cu_present : inPlaceMembersPresent unit revision = Some true;
}.

Definition finishing (unit : inPlaceUnit) (revision : string) : outcome :=
  let '(sent, ok) := completePods revision (pods unit) in Finish sent (if ok then recordInPlaceRevision [] (pods unit) else None).

Lemma unitCompleted_patched unit revision : unitCompleted unit revision = true -> hasUnpatchedOutdatedPod unit revision = false.
Proof.
  unfold unitCompleted, hasUnpatchedOutdatedPod. rewrite forallb_forall. intros Hall. apply existsb_false. intros pod Hp.
  apply list_elem_of_In in Hp. specialize (Hall pod Hp). simpl in Hall. destruct (InProgress _); [done|]. by rewrite Hall.
Qed.

Lemma completable_finishes unit revision : completable unit revision ->
  (forall pod, pod ∈ pods unit -> workload (ObjectRevision (Meta pod)) <> None) -> reconcileInPlaceUnit unit revision = finishing unit revision.
Proof.
  intros [C1 C2 C3 C4 C5] Hw. unfold reconcileInPlaceUnit. rewrite C2.
  destruct (validateMembers (pods unit)) as [o|] eqn:Ev.
  { apply validateMembers_Some in Ev as [(_ & p & Hp & Hx)|(_ & p & Hp & Hx)]; [by rewrite C1 in Hx|]. by destruct (Hw p Hp). }
  pose proof (scanMembers_spec unit revision (pods unit) (false, false, zeroTime)) as Hscan.
  destruct (scanMembers _ _ _ _) as [o|[[ip rt] e]].
  - destruct Hscan as [(_ & p & Hp & Hx)|(_ & p & Hp & Hx)]; [by rewrite C1 in Hx|by rewrite C3 in Hx].
  - destruct Hscan as (_ & -> & ->). cbn [fst snd orb]. rewrite C2, (proj2 (existsb_false _ _) C3).
    unfold advanceUnit. by rewrite (unitCompleted_patched _ _ C4), C4, C5.
Qed.

Lemma timeout_outcome unit revision : exists actions ok, handleInPlaceTimeout unit revision = TimedOut actions ok.
Proof. unfold handleInPlaceTimeout. destruct recoveryNone; [by eexists _, _|]. destruct (perform _ _). by eexists _, _. Qed.

Lemma enforce_outcome unit revision e :
  (exists r, 0 < r /\ enforceInPlaceDeadline unit revision e = Wait r) \/ exists actions ok, enforceInPlaceDeadline unit revision e = TimedOut actions ok.
Proof.
  unfold enforceInPlaceDeadline. destruct (Z.ltb_spec 0 (inPlaceDeadline e)); [left; by eexists|right; apply timeout_outcome].
Qed.

Lemma finish_completable unit revision sent updates : reconcileInPlaceUnit unit revision = Finish sent updates ->
  completable unit revision /\ finishing unit revision = Finish sent updates.
Proof.
  unfold reconcileInPlaceUnit. intros Hr.
  destruct (if existsb _ (pods unit) then _ else None) as [o|] eqn:Ev.
  { destruct (existsb _ _); [|done]. apply validateMembers_Some in Ev as [(-> & _)|(-> & _)]; done. }
  pose proof (scanMembers_spec unit revision (pods unit) (false, false, zeroTime)) as Hscan.
  destruct (scanMembers _ _ _ _) as [o|[[ip rt] e]]; [by destruct Hscan as [(-> & _)|(-> & _)]|].
  destruct Hscan as (S1 & S2 & S3). cbn [fst snd orb] in S2, S3. destruct ip.
  - unfold advanceUnit in Hr. destruct (negb rt && hasUnpatchedOutdatedPod unit revision) eqn:E1.
    { destruct ((inPlaceDeadline e <=? 0) && negb recoveryNone); [|done]. destruct (timeout_outcome unit revision) as (a & b & E). by rewrite E in Hr. }
    assert (Henf : enforceInPlaceDeadline unit revision e <> Finish sent updates).
    { destruct (enforce_outcome unit revision e) as [(r & _ & ->)|(a & b & ->)]; done. }
    destruct rt; [destruct (unitSettled unit revision); congruence|]. destruct (unitCompleted unit revision) eqn:Ec; [|simpl in Hr; congruence].
    destruct (inPlaceMembersPresent unit revision) as [[]|] eqn:Em; [|simpl in Hr; congruence|done]. cbn [negb] in Hr. split; [|done].
    constructor; try done. by apply existsb_false.
  - clear S2 S3. unfold repairInPlaceRevision in Hr. destruct (negb (forallb _ _)); [done|].
    match type of Hr with context [existsb ?f ?l] => destruct (existsb f l); [|done] end.
    destruct (inPlaceMembersPresent unit revision) as [[]|]; [|done|done]. by destruct (recordInPlaceRevision _ _).
Qed.

(** The patches of a completion are those of the unfinished pods, in order, up
    to the first that fails. *)
Lemma completePods_spec revision l : let '(sent, ok) := completePods revision l in
  sent `prefix_of` omap (fun pod => if InProgress (StateOf pod) then hash ← roleHash (GetRoleName (Meta pod)); Some (pod, Complete pod revision hash now) else None) l /\
  (ok = true -> length sent = length (filter (fun pod => InProgress (StateOf pod) = true) l) /\
                forall pod, pod ∈ l -> InProgress (StateOf pod) = true -> is_Some (roleHash (GetRoleName (Meta pod)))) /\
  ((forall x, sendPatch x = true) -> (forall name, is_Some (roleHash name)) -> ok = true).
Proof.
  induction l as [|pod l IH]; simpl.
  { split; [done|]. split; [|done]. intros _. split; [done|]. intros pod Hp. by apply not_elem_of_nil in Hp. }
  destruct (InProgress (StateOf pod)) eqn:Ei; simpl.
  - destruct (roleHash (GetRoleName (Meta pod))) as [hash|] eqn:Eh; simpl.
    + destruct (sendPatch _) eqn:Esend; simpl.
      * destruct (completePods revision l) as [sent ok]. destruct IH as (I1 & I2 & I3). split; [by apply prefix_cons|]. split; [|done].
        intros Hok. destruct (I2 Hok) as [I4 I5]. rewrite filter_cons_True by done. simpl. split; [lia|].
        intros p Hp Hpi. apply elem_of_cons in Hp as [->|Hp]; [by rewrite Eh|auto].
      * split; [apply prefix_cons, prefix_nil|]. split; [done|]. intros Hs. by rewrite Hs in Esend.
    + split; [apply prefix_nil|]. split; [done|]. intros _ Hh. destruct (Hh (GetRoleName (Meta pod))). congruence.
  - destruct (completePods revision l) as [sent ok]. destruct IH as (I1 & I2 & I3). split; [done|]. split; [|done].
    intros Hok. destruct (I2 Hok) as [I4 I5]. rewrite filter_cons_False by congruence. split; [done|].
    intros p Hp Hpi. apply elem_of_cons in Hp as [->|Hp]; [congruence|auto].
Qed.

(** ** An interrupted completion *)

(** A pod whose completion took effect, or any other pod. *)
Definition metaFlip (revision : string) (m m' : ObjectMeta) : Prop :=
  m' = m \/ exists l, m' = withLabels m l /\ label l RevisionLabelKey = revision /\
    forall key, key <> RevisionLabelKey -> key <> RoleTemplateHashLabelKey -> label l key = label (Labels m) key.

Definition flipped `{PodServer} (revision : string) (p p' : Pod) : Prop :=
  p' = p \/ (InProgress (StateOf p) = true /\ exists hash, roleHash (GetRoleName (Meta p)) = Some hash /\
             patchPod p (Complete p revision hash now) = Some p').

Lemma metaFlip_same revision m m' : metaFlip revision m m' ->
  Namespace m' = Namespace m /\ PodName m' = PodName m /\ UID m' = UID m /\ OwnerReferences m' = OwnerReferences m /\
  DeletionTimestamp m' = DeletionTimestamp m /\ (ObjectRevision m' = ObjectRevision m \/ ObjectRevision m' = revision) /\
  forall key, key <> RevisionLabelKey -> key <> RoleTemplateHashLabelKey -> label (Labels m') key = label (Labels m) key.
Proof. intros [->|(l & -> & Hl & Hk)]; [split_and!; try done; by left|]. split_and!; try done. by right. Qed.

Lemma flipped_meta `{PodServer} revision p p' : flipped revision p p' -> metaFlip revision (Meta p) (Meta p').
Proof.
  intros [->|(_ & hash & _ & Hp)]; [by left|]. right. apply patch_merges in Hp as (_ & _ & -> & _). eexists. split; [done|].
  unfold Complete, preconditionedMetadata. cbn [SetLabels].
  set (m := if bool_decide (hash = ""%string) then ∅ else _). split.
  - unfold label. by rewrite lookup_union, lookup_insert_eq, union_Some_l.
  - intros key H1 H2. unfold label. rewrite lookup_union, lookup_insert_ne by done.
    assert (Hm : m !! key = None) by (unfold m; case_bool_decide; [apply lookup_empty|by apply lookup_singleton_ne]).
    by rewrite Hm, (left_id_L None union).
Qed.

(** A completed pod is done, at the revision. *)
Lemma flipped_state `{PodServer} revision p p' : flipped revision p p' -> elsewhere revision p = false ->
  p' = p \/ (ObjectRevision (Meta p') = revision /\ exists s, StateOf p' = Some s /\ Done s = true /\ Revision s = revision).
Proof.
  intros [->|(Hin & hash & _ & Hp)] Helse; [by left|]. right.
  unfold elsewhere in Helse. rewrite Hin in Helse. simpl in Helse. apply negb_false_iff, bool_decide_eq_true in Helse.
  destruct (StateOf p) as [s|] eqn:Es; [|done]. injection Helse as Hrev.
  destruct (Complete_spec p revision hash now s Es) as (s' & C1 & C2 & C3 & _).
  apply patch_merges in Hp as (_ & M2 & M3 & _). rewrite M3. split.
  - unfold ObjectRevision, label, withLabels, Complete, preconditionedMetadata. cbn [Labels SetLabels].
    by rewrite lookup_union, lookup_insert_eq, union_Some_l.
  - exists (truncated s'). unfold StateOf. rewrite M2, C1. split; [done|]. split; [done|]. cbn. by rewrite C3.
Qed.

Lemma rolePodsComplete_flip revision group instance role workers source l l' : Forall2 (metaFlip revision) l l' ->
  rolePodsComplete group instance role workers source (relabelled source <$> filter (fun m => ObjectRevision m = source \/ ObjectRevision m = revision) l) = true ->
  rolePodsComplete group instance role workers source (relabelled source <$> filter (fun m => ObjectRevision m = source \/ ObjectRevision m = revision) l') = true.
Proof.
  intros Hfl. unfold rolePodsComplete. rewrite !forallb_forall. intros Hall ordinal Ho. specialize (Hall ordinal Ho).
  apply existsb_true in Hall as (x & Hx & Hcond). apply list_elem_of_fmap in Hx as (m & -> & Hm).
  apply list_elem_of_filter in Hm as [HP Hm]. apply list_elem_of_lookup in Hm as [i Hi].
  destruct (Forall2_lookup_l _ _ _ _ _ Hfl Hi) as (m' & Hi' & Hflip).
  destruct (metaFlip_same _ _ _ Hflip) as (F1 & F2 & F3 & F4 & F5 & F6 & F7).
  apply existsb_true. exists (relabelled source m'). split.
  - apply list_elem_of_fmap_2. apply list_elem_of_filter. split; [|by eapply list_elem_of_lookup_2].
    destruct F6 as [-> | ->]; [done|by right].
  - rewrite !andb_true_iff, !bool_decide_eq_true in Hcond |- *. destruct Hcond as ((((((C1 & C2) & C3) & C4) & C5) & C6) & C7).
    assert (Hlab : forall key, key <> RevisionLabelKey -> key <> RoleTemplateHashLabelKey ->
              label (Labels (relabelled source m')) key = label (Labels (relabelled source m)) key).
    { intros key H1 H2. unfold label, relabelled, withLabels. cbn [Labels]. rewrite !lookup_insert_ne by done. by apply (F7 key). }
    rewrite !Hlab by done. split_and!; try done.
    + by rewrite <- C1.
    + unfold IsOwnedByModelServingWithUID in *. cbn in *. by rewrite F4.
    + unfold ObjectRevision, label. cbn. by rewrite lookup_insert_eq.
    + cbn in *. by rewrite F2.
Qed.

(** The same unit after some of its pods were completed. *)
Definition unitFlip (revision : string) (unit unit' : inPlaceUnit) : Prop :=
  groupName unit' = groupName unit /\ roleName unit' = roleName unit /\ roleID unit' = roleID unit /\
  Forall2 (metaFlip revision) (Meta <$> pods unit) (Meta <$> pods unit').

Lemma unitFlip_terminating revision unit unit' : unitFlip revision unit unit' ->
  existsb (fun pod => IsTerminating (Meta pod)) (pods unit') = existsb (fun pod => IsTerminating (Meta pod)) (pods unit).
Proof.
  intros (_ & _ & _ & Hfl). revert Hfl. generalize (pods unit) (pods unit'). clear. induction l as [|p l IH]; intros [|p' l'] Hfl; try by inversion Hfl.
  inversion Hfl as [|? ? ? ? Hp Hl]; subst. simpl. rewrite (IH l' Hl). f_equal. unfold IsTerminating.
  destruct (metaFlip_same _ _ _ Hp) as (_ & _ & _ & _ & -> & _). done.
Qed.

Lemma memberInstance_flip revision unit unit' desired instance : unitFlip revision unit unit' ->
  match memberInstance unit revision desired instance with
  | None => memberInstance unit' revision desired instance = None
  | Some (Some (Some n)) => memberInstance unit' revision desired instance = Some (Some (Some n))
  | _ => True
  end.
Proof.
  intros Hfl. pose proof (unitFlip_terminating _ _ _ Hfl) as Hterm. destruct Hfl as (F1 & F2 & F3 & F4).
  unfold memberInstance. rewrite F1, F2, F3, Hterm. clear Hterm. destruct (_ && _); [done|]. destruct (instanceDeleting instance); [done|].
  destruct (applied _ _) as [[workers source]|]; [|done]. destruct (existsb _ _); [done|].
  destruct (rolePodsComplete _ _ _ _ _ (_ <$> filter _ (Meta <$> pods unit))) eqn:Ec; [|done].
  by rewrite (rolePodsComplete_flip _ _ _ _ _ _ _ _ F4 Ec).
Qed.

Lemma memberInstances_flip revision unit unit' desired l r : unitFlip revision unit unit' -> forall expected found,
  memberInstances unit revision desired l expected found = Some (Some r) -> memberInstances unit' revision desired l expected found = Some (Some r).
Proof.
  intros Hfl. induction l as [|i l IH]; intros expected found; simpl; [done|].
  pose proof (memberInstance_flip revision unit unit' desired i Hfl) as Hi.
  destruct (memberInstance unit revision desired i) as [[[n|]|]|]; [|done|done|]; rewrite Hi; apply IH.
Qed.

Lemma memberRoles_flip revision unit unit' roles r : unitFlip revision unit unit' -> forall expected,
  memberRoles unit revision roles expected = Some (Some r) -> memberRoles unit' revision roles expected = Some (Some r).
Proof.
  intros Hfl. pose proof Hfl as (_ & F2 & _ & _). induction roles as [|d roles IH]; intros expected; simpl; [done|]. rewrite F2.
  destruct (negb _ && _); [apply IH|]. destruct (GetRoleList _) as [instances|]; [|done]. destruct (_ && _); [done|].
  destruct (memberInstances unit _ _ _ _ _) as [[[e f]|]|] eqn:Ei; [|done|done].
  rewrite (memberInstances_flip _ _ _ _ _ _ Hfl _ _ Ei). destruct (_ && _); [done|]. apply IH.
Qed.

Lemma membersPresent_flip revision unit unit' : unitFlip revision unit unit' ->
  inPlaceMembersPresent unit revision = Some true -> inPlaceMembersPresent unit' revision = Some true.
Proof.
  intros Hfl. unfold inPlaceMembersPresent. destruct (memberRoles unit _ _ _) as [[e|]|] eqn:Er; [|done|done].
  rewrite (memberRoles_flip _ _ _ _ _ Hfl _ Er). destruct Hfl as (_ & _ & _ & Hl). apply Forall2_length in Hl.
  rewrite !length_fmap in Hl. by rewrite Hl.
Qed.

Lemma flipped_unit `{PodServer} revision unit l' : Forall2 (flipped revision) (pods unit) l' ->
  unitFlip revision unit (MkUnit (groupName unit) (roleName unit) (roleID unit) l').
Proof.
  intros Hfl. split_and!; [done|done|done|]. cbn [pods]. apply Forall2_fmap. eapply Forall2_impl; [exact Hfl|].
  intros p p' Hp. by apply flipped_meta.
Qed.

(** A partly completed unit is still completable, unless it is done. *)
Lemma completable_flip `{PodServer} revision unit l' : completable unit revision -> Forall2 (flipped revision) (pods unit) l' ->
  let unit' := MkUnit (groupName unit) (roleName unit) (roleID unit) l' in
  (forall pod, pod ∈ l' -> InProgress (StateOf pod) = false -> ObjectRevision (Meta pod) = revision) /\
  if existsb (fun pod => InProgress (StateOf pod)) l' then completable unit' revision
  else exists pod s, pod ∈ l' /\ StateOf pod = Some s /\ Done s = true /\ Revision s = revision.
Proof using Type.
  intros [C1 C2 C3 C4 C5] Hfl unit'. pose proof (flipped_unit revision unit l' Hfl) as Huf. fold unit' in Huf.
  assert (Hback : forall p', p' ∈ l' -> exists p, p ∈ pods unit /\ flipped revision p p').
  { intros p' Hp'. apply list_elem_of_lookup in Hp' as [i Hi]. destruct (Forall2_lookup_r _ _ _ _ _ Hfl Hi) as (p & Hp & Hf).
    exists p. split; [by eapply list_elem_of_lookup_2|done]. }
  pose proof C4 as C4'. unfold unitCompleted in C4'. rewrite forallb_forall in C4'.
  assert (Hstate : forall p', p' ∈ l' -> p' ∈ pods unit \/
            (ObjectRevision (Meta p') = revision /\ InProgress (StateOf p') = false)).
  { intros p' Hp'. destruct (Hback p' Hp') as (p & Hp & Hf). destruct (flipped_state revision p p' Hf (C3 p Hp)) as [->|(E1 & s & E2 & E3 & _)].
    - by left.
    - right. split; [done|]. rewrite E2. simpl. by rewrite E3. }
  assert (Hdone : forall pod, pod ∈ l' -> InProgress (StateOf pod) = false -> ObjectRevision (Meta pod) = revision).
  { intros p' Hp' Hin. destruct (Hstate p' Hp') as [Hp|[E _]]; [|done]. apply list_elem_of_In in Hp. specialize (C4' p' Hp).
    simpl in C4'. rewrite Hin in C4'. by apply bool_decide_eq_true in C4'. }
  split; [done|]. destruct (existsb _ l') eqn:Ein.
  - constructor; cbn [pods unit'].
    + apply existsb_false. pose proof (unitFlip_terminating _ _ _ Huf) as E. cbn [unit' pods] in E. rewrite E. by apply existsb_false.
    + done.
    + intros p' Hp'. destruct (Hstate p' Hp') as [Hp|[_ E]]; [by apply C3|]. unfold elsewhere. by rewrite E.
    + unfold unitCompleted. cbn [pods unit']. apply forallb_forall. intros p' Hp'. apply list_elem_of_In in Hp'.
      destruct (InProgress (StateOf p')) eqn:Ei.
      * destruct (Hstate p' Hp') as [Hp|[_ E]]; [|congruence]. apply list_elem_of_In in Hp. specialize (C4' p' Hp). simpl in C4'. by rewrite Ei in C4'.
      * apply bool_decide_eq_true. by apply Hdone.
    + by apply (membersPresent_flip revision unit).
  - apply existsb_true in C2 as (p & Hp & Hip). apply list_elem_of_lookup in Hp as [i Hi].
    destruct (Forall2_lookup_l _ _ _ _ _ Hfl Hi) as (p' & Hi' & Hf). pose proof (proj1 (existsb_false _ _) Ein) as Hnone.
    assert (Hp' : p' ∈ l') by by eapply list_elem_of_lookup_2.
    destruct (flipped_state revision p p' Hf (C3 p ltac:(by eapply list_elem_of_lookup_2))) as [->|(_ & s & E2 & E3 & E4)].
    + exfalso. by rewrite Hnone in Hip.
    + by exists p', s.
Qed.

Lemma recordInPlaceRevision_ok : (forall x, updateRole x = true) -> (forall name, is_Some (roleHash name)) -> forall l seen,
  exists updates, recordInPlaceRevision seen l = Some updates /\
    forall pod, pod ∈ l -> (GetRoleName (Meta pod), GetRoleID (Meta pod)) ∈ seen ++ updates.
Proof using Type.
  intros Hup Hhash. induction l as [|pod l IH]; intros seen; simpl.
  { exists []. split; [done|]. intros p Hp. by apply not_elem_of_nil in Hp. }
  case_bool_decide as Hin.
  - destruct (IH seen) as (u & -> & Hu). exists u. split; [done|]. intros p Hp. apply elem_of_cons in Hp as [->|Hp]; [|by apply Hu].
    apply elem_of_app. by left.
  - destruct (Hhash (GetRoleName (Meta pod))) as [h ->]. rewrite Hup.
    destruct (IH ((GetRoleName (Meta pod), GetRoleID (Meta pod)) :: seen)) as (u & -> & Hu). eexists. split; [reflexivity|].
    intros p Hp. rewrite elem_of_app, elem_of_cons. apply elem_of_cons in Hp as [->|Hp]; [right; by left|].
    specialize (Hu p Hp). simpl in Hu. rewrite elem_of_cons, elem_of_app in Hu.
    destruct Hu as [Hu|[Hu|Hu]]; [right; by left|by left|right; by right].
Qed.

(** The deadline runs from the earliest start of an unfinished pod. *)
Lemma scanMembers_earliest unit revision l : forall ip rt e0 ip' rt' e,
  scanMembers unit revision l (ip, rt, e0) = inr (ip', rt', e) -> zeroTime <= e0 ->
  (forall pod s, pod ∈ l -> StateOf pod = Some s -> Done s = false -> zeroTime < StartedAt s) ->
  zeroTime <= e /\ (e = e0 \/ exists pod s, pod ∈ l /\ StateOf pod = Some s /\ Done s = false /\ StartedAt s = e) /\
  (forall pod s, pod ∈ l -> StateOf pod = Some s -> Done s = false -> zeroTime < e <= StartedAt s) /\
  (zeroTime < e0 -> zeroTime < e <= e0).
Proof using Type.
  induction l as [|pod l IH]; intros ip rt e0 ip' rt' e; simpl; intros Hs H0 Hpos.
  { injection Hs as <- <- <-. split_and!; [done|by left| |lia]. intros p s Hp. by apply not_elem_of_nil in Hp. }
  assert (Hpos' : forall p s, p ∈ l -> StateOf p = Some s -> Done s = false -> zeroTime < StartedAt s)
    by (intros p s Hp; apply Hpos; by right).
  destruct (IsTerminating (Meta pod)); [done|].
  destruct (StateOf pod) as [s|] eqn:Es; [destruct (Done s) eqn:Ed|].
  - destruct (IH _ _ _ _ _ _ Hs H0 Hpos') as (I1 & I2 & I3 & I4). split_and!; [done| | |done].
    + destruct I2 as [->|(p & t & Hp & Hx)]; [by left|right]. exists p, t. split; [by right|done].
    + intros p t Hp Ht Hd. apply elem_of_cons in Hp as [->|Hp]; [congruence|by apply (I3 p)].
  - destruct (_ && _); [done|]. specialize (Hpos pod s ltac:(left) Es Ed) as Hpod.
    set (e1 := if (e0 =? zeroTime) || (StartedAt s <? e0) then StartedAt s else e0) in *.
    assert (He1 : zeroTime < e1 <= StartedAt s /\ (zeroTime < e0 -> e1 <= e0) /\ (e1 = e0 \/ e1 = StartedAt s)).
    { unfold e1. destruct (Z.eqb_spec e0 zeroTime), (Z.ltb_spec (StartedAt s) e0); simpl; (split; [lia|]); (split; [lia|]); auto. }
    clearbody e1. destruct (IH _ _ _ _ _ _ Hs ltac:(lia) Hpos') as (I1 & I2 & I3 & I4). split_and!; [done| | |lia].
    + destruct I2 as [->|(p & t & Hp & Hx)]; [destruct He1 as (_ & _ & [E|E]); [by left|]|].
      * right. exists pod, s. split; [left|done].
      * right. exists p, t. split; [by right|done].
    + intros p t Hp Ht Hd. apply elem_of_cons in Hp as [->|Hp]; [|by apply (I3 p)].
      assert (s = t) as <- by congruence. lia.
  - destruct (IH _ _ _ _ _ _ Hs H0 Hpos') as (I1 & I2 & I3 & I4). split_and!; [done| | |done].
    + destruct I2 as [->|(p & t & Hp & Hx)]; [by left|right]. exists p, t. split; [by right|done].
    + intros p t Hp Ht Hd. apply elem_of_cons in Hp as [->|Hp]; [congruence|by apply (I3 p)].
Qed.

Lemma perform_all {A} (ok : A -> bool) l : (perform ok l).1 `prefix_of` l /\ ((perform ok l).2 = true -> (perform ok l).1 = l).
Proof using Type.
  induction l as [|x l IH]; simpl; [done|]. destruct (ok x); [|split; [apply prefix_cons, prefix_nil|done]].
  destruct (perform ok l) as [done b]. simpl in *. destruct IH as [I1 I2]. split; [by apply prefix_cons|]. intros Hb. by rewrite (I2 Hb).
Qed.

Lemma timeoutActions_spec unit revision pod : pod ∈ pods unit ->
  (InProgress (StateOf pod) = true -> podFinished pod = false -> HandleErrorPod pod ∈ timeoutActions unit revision) /\
  (InProgress (StateOf pod) = false -> ObjectRevision (Meta pod) <> revision -> IsTerminating (Meta pod) = false ->
   DeletePod pod ∈ timeoutActions unit revision).
Proof using Type.
  intros Hp. unfold timeoutActions. split.
  - intros Hi Hf. apply list_elem_of_bind. exists pod. split; [|done]. rewrite Hi, Hf. by apply list_elem_of_singleton.
  - intros Hi Hr Ht. apply list_elem_of_bind. exists pod. split; [|done]. rewrite Hi, Ht, bool_decide_false by done. by apply list_elem_of_singleton.
Qed.

(** What can become of a unit whose unfinished pods started at [first] the
    earliest. *)
Definition outcomeOk (unit : inPlaceUnit) (revision : string) (first : Z) (o : outcome) : Prop :=
  match o with
  | Nothing => (exists pod, pod ∈ pods unit /\ elsewhere revision pod = true) /\ unitSettled unit revision = true
  | HistoryUnresolved | Recorded _ => False
  | Failed => inPlaceMembersPresent unit revision = None
  | Recreate => exists pod, pod ∈ pods unit /\ elsewhere revision pod = true
  | TimedOut actions ok => inPlaceDeadline first <= 0 /\ (ok = true -> recoveryNone = false -> forall pod, pod ∈ pods unit ->
      (InProgress (StateOf pod) = true -> podFinished pod = false -> HandleErrorPod pod ∈ actions) /\
      (InProgress (StateOf pod) = false -> ObjectRevision (Meta pod) <> revision -> DeletePod pod ∈ actions))
  | Resume after => hasUnpatchedOutdatedPod unit revision = true /\ (recoveryNone = false -> 0 < inPlaceDeadline first)
  | Wait r => 0 < r /\ r = inPlaceDeadline first
  | Finish _ _ => completable unit revision
  end.

Lemma timeout_ok unit revision first : (forall pod, pod ∈ pods unit -> IsTerminating (Meta pod) = false) -> inPlaceDeadline first <= 0 ->
  outcomeOk unit revision first (handleInPlaceTimeout unit revision).
Proof using Type.
  intros Hterm Hd. unfold handleInPlaceTimeout. pose proof (perform_all sendTimeout (timeoutActions unit revision)) as Hperf.
  unfold outcomeOk. destruct recoveryNone eqn:Ern; [by split|].
  destruct (perform sendTimeout (timeoutActions unit revision)) as [actions ok] eqn:Ep. simpl in Hperf. split; [done|].
  intros Hok _ pod Hp. rewrite (proj2 Hperf Hok). destruct (timeoutActions_spec unit revision pod Hp) as [T1 T2].
  split; [done|]. intros Hi Hr. apply T2; auto.
Qed.

Lemma enforce_ok unit revision first : (forall pod, pod ∈ pods unit -> IsTerminating (Meta pod) = false) ->
  outcomeOk unit revision first (enforceInPlaceDeadline unit revision first).
Proof using Type.
  intros Hterm. unfold enforceInPlaceDeadline. destruct (Z.ltb_spec 0 (inPlaceDeadline first)); [by split|by apply timeout_ok].
Qed.

Lemma earliest_exists l : existsb (fun pod => InProgress (StateOf pod)) l = true ->
  exists first, (exists pod s, pod ∈ l /\ StateOf pod = Some s /\ Done s = false /\ StartedAt s = first) /\
    forall pod s, pod ∈ l -> StateOf pod = Some s -> Done s = false -> first <= StartedAt s.
Proof using Type.
  induction l as [|p l IH]; simpl; [done|]. intros Hin.
  assert (Hp : forall s, StateOf p = Some s -> Done s = false -> existsb (fun pod => InProgress (StateOf pod)) l = false ->
     exists first, (exists pod t, pod ∈ p :: l /\ StateOf pod = Some t /\ Done t = false /\ StartedAt t = first) /\
       forall pod t, pod ∈ p :: l -> StateOf pod = Some t -> Done t = false -> first <= StartedAt t).
  { intros s Hs Hd Hno. exists (StartedAt s). split; [exists p, s; split; [left|done]|]. intros q t Hq Ht Hdt.
    apply elem_of_cons in Hq as [->|Hq]; [assert (s = t) as <- by congruence; lia|].
    pose proof (proj1 (existsb_false _ _) Hno q Hq) as Hx. simpl in Hx. rewrite Ht in Hx. simpl in Hx. by rewrite Hdt in Hx. }
  destruct (existsb _ l) eqn:El.
  - destruct (IH eq_refl) as (f & (q & t & Hq & Ht & Hd & Hf) & Hmin).
    destruct (StateOf p) as [s|] eqn:Es; [destruct (Done s) eqn:Eds|].
    + exists f. split; [exists q, t; split; [by right|done]|]. intros r u Hr Hu Hdu. apply elem_of_cons in Hr as [->|Hr]; [congruence|by apply (Hmin r)].
    + destruct (Z.le_ge_cases f (StartedAt s)).
      * exists f. split; [exists q, t; split; [by right|done]|]. intros r u Hr Hu Hdu. apply elem_of_cons in Hr as [->|Hr]; [|by apply (Hmin r)].
        assert (s = u) as <- by congruence. lia.
      * exists (StartedAt s). split; [exists p, s; split; [left|done]|]. intros r u Hr Hu Hdu. apply elem_of_cons in Hr as [->|Hr].
        -- assert (s = u) as <- by congruence. lia.
        -- specialize (Hmin r u Hr Hu Hdu). lia.
    + exists f. split; [exists q, t; split; [by right|done]|]. intros r u Hr Hu Hdu. apply elem_of_cons in Hr as [->|Hr]; [congruence|by apply (Hmin r)].
  - rewrite orb_false_r in Hin. destruct (StateOf p) as [s|]; [|done]. by apply (Hp s eq_refl (proj1 (negb_true_iff _) Hin)).
Qed.

Lemma advanceUnit_ok unit revision first retargeted : (forall pod, pod ∈ pods unit -> IsTerminating (Meta pod) = false) ->
  existsb (fun pod => InProgress (StateOf pod)) (pods unit) = true -> retargeted = existsb (elsewhere revision) (pods unit) ->
  outcomeOk unit revision first (advanceUnit unit revision retargeted first).
Proof using Type.
  intros Hterm Hin Hret. unfold advanceUnit. destruct retargeted; cbn [negb andb].
  - destruct (unitSettled unit revision) eqn:Es; [|by apply enforce_ok]. symmetry in Hret. apply existsb_true in Hret. by split.
  - destruct (hasUnpatchedOutdatedPod unit revision) eqn:Eh.
    + destruct (Z.leb_spec (inPlaceDeadline first) 0); simpl.
      * destruct recoveryNone eqn:Ern; simpl; [split; [done|congruence]|by apply timeout_ok].
      * by split.
    + destruct (unitCompleted unit revision) eqn:Ec; cbn [negb]; [|by apply enforce_ok].
      destruct (inPlaceMembersPresent unit revision) as [[]|] eqn:Em; [| by apply enforce_ok | done].
      destruct (completePods _ _) as [sent ok]. constructor; try done. apply existsb_false. by symmetry.
Qed.

(** Role [desired] and its instance are in the scope of the unit. *)
Definition roleInScope (unit : inPlaceUnit) (desired : Role) : Prop := roleName unit = ""%string \/ RoleName desired = roleName unit.
Definition instanceInScope (unit : inPlaceUnit) (instance : RoleInstance) : Prop := roleName unit = ""%string \/ instanceName instance = roleID unit.

(** An instance that is complete: not being deleted, and with a pod of every
    ordinal in the unit, from the applied or from the new revision. *)
Definition instancePresent (unit : inPlaceUnit) (revision : string) (desired : Role) (instance : RoleInstance) : Prop :=
  instanceDeleting instance = false /\ exists workers source, applied (RoleName desired) instance = Some (workers, source) /\
    forall k, 0 <= k <= workers -> exists pod, pod ∈ pods unit /\
      PodName (Meta pod) = GeneratePodName (groupName unit) (instanceName instance) k /\
      (ObjectRevision (Meta pod) = source \/ ObjectRevision (Meta pod) = revision).

Lemma memberInstance_present unit revision desired instance n : memberInstance unit revision desired instance = Some (Some (Some n)) ->
  instancePresent unit revision desired instance.
Proof.
  unfold memberInstance, instancePresent. destruct (_ && _); [done|]. destruct (instanceDeleting instance); [done|].
  destruct (applied _ _) as [[workers source]|]; [|done]. destruct (existsb _ _); [done|].
  destruct (rolePodsComplete _ _ _ _ _ _) eqn:Ec; [|done]. intros _. split; [done|]. exists workers, source. split; [done|].
  intros k Hk. unfold rolePodsComplete in Ec. rewrite forallb_forall in Ec.
  assert (Hin : In k (seqZ 0 (workers + 1))) by (apply list_elem_of_In, elem_of_seqZ; lia).
  specialize (Ec k Hin). apply existsb_true in Ec as (x & Hx & Hcond). apply list_elem_of_fmap in Hx as (m & -> & Hm).
  apply list_elem_of_filter in Hm as [HP Hm]. apply list_elem_of_fmap in Hm as (pod & -> & Hpod).
  exists pod. split; [done|]. split; [|done]. apply andb_true_iff in Hcond as [_ Hname]. by apply bool_decide_eq_true in Hname.
Qed.

Lemma memberInstances_present unit revision desired l r : forall expected found,
  memberInstances unit revision desired l expected found = Some (Some r) ->
  forall i, i ∈ l -> instanceInScope unit i -> instancePresent unit revision desired i.
Proof.
  induction l as [|i l IH]; intros expected found; simpl; [intros _ i Hi; by apply not_elem_of_nil in Hi|].
  destruct (memberInstance unit revision desired i) as [[[n|]|]|] eqn:Ei; [|done|done|]; intros Hr j Hj Hs;
    apply elem_of_cons in Hj as [->|Hj]; try by eapply IH.
  - by eapply memberInstance_present.
  - unfold memberInstance in Ei. destruct Hs as [Hs|Hs].
    + rewrite Hs in Ei. simpl in Ei. destruct (instanceDeleting i); [done|].
      destruct (applied _ _) as [[w s]|]; [|done]. destruct (existsb _ _); [done|]. by destruct (rolePodsComplete _ _ _ _ _ _).
    + rewrite (bool_decide_true (instanceName i = _)), andb_false_r in Ei by done. destruct (instanceDeleting i); [done|].
      destruct (applied _ _) as [[w s]|]; [|done]. destruct (existsb _ _); [done|]. by destruct (rolePodsComplete _ _ _ _ _ _).
Qed.

Lemma memberRoles_present unit revision roles e : forall expected, memberRoles unit revision roles expected = Some (Some e) ->
  forall desired, desired ∈ roles -> roleInScope unit desired -> exists instances, GetRoleList (RoleName desired) = Some instances /\
    forall i, i ∈ instances -> instanceInScope unit i -> instancePresent unit revision desired i.
Proof.
  induction roles as [|d roles IH]; intros expected; simpl; [intros _ d Hd; by apply not_elem_of_nil in Hd|].
  destruct (negb _ && _) eqn:Eskip.
  - intros Hr d' Hd' Hs. apply elem_of_cons in Hd' as [->|Hd']; [|by eapply IH]. exfalso.
    apply andb_true_iff in Eskip as [E1 E2]. apply negb_true_iff, bool_decide_eq_false in E1, E2. by destruct Hs.
  - destruct (GetRoleList (RoleName d)) as [instances|] eqn:El; [|done]. destruct (bool_decide _ && _); [done|].
    destruct (memberInstances _ _ _ _ _ _) as [[[e' f]|]|] eqn:Ei; [|done|done]. destruct (_ && negb f); [done|].
    intros Hr d' Hd' Hs. apply elem_of_cons in Hd' as [->|Hd']; [|by eapply IH]. exists instances. split; [done|].
    by eapply memberInstances_present.
Qed.

Lemma completable_members unit revision : completable unit revision -> forall desired, desired ∈ ms -> roleInScope unit desired ->
  exists instances, GetRoleList (RoleName desired) = Some instances /\
    forall i, i ∈ instances -> instanceInScope unit i -> instancePresent unit revision desired i.
Proof.
  intros [_ _ _ _ C5]. unfold inPlaceMembersPresent in C5. destruct (memberRoles _ _ _ _) as [[e|]|] eqn:Er; [|done|done].
  by eapply memberRoles_present.
Qed.
End unit.

Section completion.
Context `{ImageReference} `{PodServer}.
Context (ms : template) (namespace uid : string) (recoveryNone : bool) (progressDeadlineSeconds : option Z).
Context (workload : string -> option template) (equalRole : string -> template -> string -> bool) (roleHash : string -> option string).
Context (GetRoleList : string -> option (list RoleInstance)) (applied : string -> RoleInstance -> option (Z * string)).
Context (sendTimeout : timeoutAction -> bool) (updateRole : string * string -> bool).

(** The reconciliation at time [now] when [send] tells which patches reach the
    server. *)
Definition reconcileAt (now : Z) (send : Pod * Patch -> bool) (unit : inPlaceUnit) (revision : string) : outcome :=
  reconcileInPlaceUnit ms namespace uid recoveryNone progressDeadlineSeconds now workload equalRole roleHash GetRoleList applied send
    sendTimeout updateRole unit revision.

(** A unit that is being updated is never stuck. While a pod of it is
    unfinished, with every pod alive and every revision known, a reconciliation
    does nothing only for a unit that is retargeted and settled, which the
    rollout patches again; otherwise it recreates a reverted unit, resumes a
    half-patched one, completes it, or waits exactly until the progress
    deadline of its earliest start, and from the deadline on applies the
    recovery policy to every pod that did not finish or was never patched. *)
Theorem unit_never_stuck now send unit revision :
  existsb (fun pod => InProgress (StateOf pod)) (pods unit) = true ->
  (forall pod, pod ∈ pods unit -> IsTerminating (Meta pod) = false /\ workload (ObjectRevision (Meta pod)) <> None) ->
  (forall pod s, pod ∈ pods unit -> StateOf pod = Some s -> Done s = false -> zeroTime < StartedAt s) ->
  exists first, (exists pod s, pod ∈ pods unit /\ StateOf pod = Some s /\ Done s = false /\ StartedAt s = first) /\
    (forall pod s, pod ∈ pods unit -> StateOf pod = Some s -> Done s = false -> first <= StartedAt s) /\
    outcomeOk ms namespace uid recoveryNone progressDeadlineSeconds now GetRoleList applied unit revision first (reconcileAt now send unit revision).
Proof.
  intros Hin Hpods Hpos. unfold reconcileAt, reconcileInPlaceUnit. rewrite Hin.
  destruct (validateMembers workload (pods unit)) as [o|] eqn:Ev.
  { apply validateMembers_Some in Ev as [(_ & p & Hp & Hx)|(_ & p & Hp & Hx)]; destruct (Hpods p Hp); congruence. }
  pose proof (scanMembers_spec workload equalRole unit revision (pods unit) (false, false, zeroTime)) as Hscan.
  assert (Hterm : forall pod, pod ∈ pods unit -> IsTerminating (Meta pod) = false) by (intros; by apply Hpods).
  pose proof Hin as Hin'. apply existsb_true in Hin' as (p0 & Hp0 & Hip0). unfold InProgress in Hip0. destruct (StateOf p0) as [s0|] eqn:Es0; [|done].
  apply negb_true_iff in Hip0.
  destruct (scanMembers _ _ _ _ _ _) as [o|[[ip rt] e]] eqn:Es.
  - destruct Hscan as [(_ & p & Hp & Hx)|(-> & p & Hp & Hx)]; [by rewrite Hterm in Hx|].
    destruct (earliest_exists (pods unit) Hin) as (first & H1 & H2). exists first. split; [done|]. split; [done|]. by exists p.
  - destruct Hscan as (_ & -> & ->). cbn [fst snd orb]. rewrite Hin.
    destruct (scanMembers_earliest _ _ _ _ _ _ _ _ _ _ _ Es ltac:(done) Hpos) as (E1 & E2 & E3 & _).
    exists e. split; [|split].
    + destruct E2 as [->|E2]; [|done]. destruct (E3 p0 s0 Hp0 Es0 Hip0). lia.
    + intros p s Hp Hs Hd. by apply (E3 p s Hp Hs Hd).
    + by apply advanceUnit_ok.
Qed.

(** C16: a unit moves to a revision as one, and an interrupted completion is
    finished later. When the reconciliation completes pods, none of the unit is
    terminating, every one has the revision or has finished an update to that
    very revision, and no expected pod of any instance is missing. Whatever
    part of the completions took effect, the reconciliation of what is left, at
    any later time, completes exactly the unfinished pods and records the
    revision of every role instance, or records it when none is left; a pod is
    never done without carrying the revision. *)
Theorem interrupted_completion_resumes now send unit revision sent updates :
  reconcileAt now send unit revision = Finish sent updates ->
  (forall pod, pod ∈ pods unit -> IsTerminating (Meta pod) = false /\
     if InProgress (StateOf pod) then Revision <$> StateOf pod = Some revision /\ podFinished recoveryNone pod = true
     else ObjectRevision (Meta pod) = revision) /\
  (forall desired, desired ∈ ms -> roleInScope unit desired -> exists instances, GetRoleList (RoleName desired) = Some instances /\
     forall i, i ∈ instances -> instanceInScope unit i -> instancePresent applied unit revision desired i) /\
  forall l' now', Forall2 (flipped now roleHash revision) (pods unit) l' ->
    (forall pod, pod ∈ l' -> workload (ObjectRevision (Meta pod)) <> None) -> (forall name, is_Some (roleHash name)) ->
    (forall x, updateRole x = true) ->
    (forall pod, pod ∈ l' -> InProgress (StateOf pod) = false -> ObjectRevision (Meta pod) = revision) /\
    exists updates', (forall pod, pod ∈ l' -> (GetRoleName (Meta pod), GetRoleID (Meta pod)) ∈ updates') /\
      let unit' := MkUnit (groupName unit) (roleName unit) (roleID unit) l' in
      if existsb (fun pod => InProgress (StateOf pod)) l' then
        exists sent', reconcileAt now' (fun _ => true) unit' revision = Finish sent' (Some updates') /\
          length sent' = length (filter (fun pod => InProgress (StateOf pod) = true) l')
      else reconcileAt now' (fun _ => true) unit' revision = Recorded updates'.
Proof.
  intros Hr. apply finish_completable in Hr as [Hc Hfin]. split; [|split; [by eapply completable_members|]].
  - pose proof Hc as [C1 C2 C3 C4 C5]. intros pod Hp. split; [by apply C1|].
    unfold unitCompleted in C4. rewrite forallb_forall in C4. apply list_elem_of_In in Hp as Hp'. specialize (C4 pod Hp'). simpl in C4.
    specialize (C3 pod Hp). unfold elsewhere in C3. destruct (InProgress (StateOf pod)); [|by apply bool_decide_eq_true in C4].
    split; [|done]. simpl in C3. by apply negb_false_iff, bool_decide_eq_true in C3.
  - intros l' now' Hfl Hw Hhash Hup. destruct (completable_flip ms namespace uid recoveryNone now roleHash GetRoleList applied revision unit l' Hc Hfl) as [Hdone Hleft]. split; [done|].
    destruct (recordInPlaceRevision_ok roleHash updateRole Hup Hhash l' []) as (updates' & Hrec & Hall).
    exists updates'. split; [done|]. intros unit'. destruct (existsb _ l') eqn:Ein.
    + unfold reconcileAt. rewrite completable_finishes; [|done|done]. unfold finishing. cbn [pods unit'].
      pose proof (completePods_spec now' roleHash (fun _ => true) revision l') as Hcp.
      destruct (completePods _ _ _ _ _) as [sent' ok]. destruct Hcp as (_ & H2 & H3). rewrite (H3 ltac:(done) Hhash) in *.
      exists sent'. rewrite Hrec. split; [done|]. by apply H2.
    + destruct Hleft as (pod & s & Hp & Hs & Hd & Hrev). unfold reconcileAt, reconcileInPlaceUnit. cbn [pods unit']. rewrite Ein.
      pose proof (proj1 (existsb_false _ _) Ein) as Hnone.
      pose proof (unitFlip_terminating revision unit unit' (flipped_unit _ _ _ _ _ Hfl)) as Hterm. cbn [unit' pods] in Hterm.
      rewrite (proj2 (existsb_false _ _) (cu_terminating _ _ _ _ _ _ _ _ Hc)) in Hterm. pose proof (proj1 (existsb_false _ _) Hterm) as Hterm'.
      pose proof (scanMembers_spec workload equalRole unit' revision l' (false, false, zeroTime)) as Hscan.
      destruct (scanMembers _ _ _ _ _ _) as [o|[[ip rt] e]].
      * destruct Hscan as [(_ & p & Hp' & Hx)|(_ & p & Hp' & Hx)]; [by rewrite Hterm' in Hx|]. unfold elsewhere in Hx. by rewrite Hnone in Hx.
      * destruct Hscan as (_ & -> & _). cbn [fst snd orb]. rewrite Ein. unfold repairInPlaceRevision. cbn [pods unit'].
        replace (forallb _ l') with true.
        2:{ symmetry. apply forallb_forall. intros p Hp'. apply list_elem_of_In in Hp'. apply bool_decide_eq_true. apply Hdone; auto. }
        replace (existsb _ l') with true.
        2:{ symmetry. apply existsb_true. exists pod. split; [done|]. rewrite Hs, Hd. by apply bool_decide_eq_true. }
        cbn [negb]. rewrite (membersPresent_flip _ _ _ _ _ _ unit unit'); [by rewrite Hrec|by eapply flipped_unit|apply Hc].
Qed.
End completion.

(** ** Concrete units *)

Definition unitMeta (k : Z) (revision : string) : ObjectMeta :=
  MkMeta "default" (GeneratePodName "g" "prefill-0" k) "u1"
    {[GroupNameLabelKey := "g"; RoleLabelKey := "prefill"; RoleIDKey := "prefill-0"; EntryLabelKey := "true"; RevisionLabelKey := revision]}
    [MkOwner GroupVersion "ModelServing" "demo" "ms-uid" true] None.

Definition oldRoles : template := [MkRole "prefill" [("vllm", "v1")] None (Some 1) 1].
Definition newRoles : template := [MkRole "prefill" [("vllm", "v2")] None (Some 1) 1].
Definition history (revision : string) : option template :=
  if bool_decide (revision = "r1"%string) then Some oldRoles else if bool_decide (revision = "r2"%string) then Some newRoles else None.

Definition idlePod (k : Z) : Pod :=
  MkPod (unitMeta k "r1") "5" None "Always" [MkContainer "vllm" "v1" None 0]
        (MkPodStatus PodRunning [("Ready", "True")] [] [MkStatus "vllm" 0 "a" "v1" "sha:1"]).

Lemma in_place_patch_exact_witness :
  roundOk history (fun _ _ => true) false newRound /\
  decideInPlace history (fun _ _ => true) newRoles "r2" false newRound [idlePod 0; idlePod 1] =
    (MkRound {["r1" := oldRoles]} {["r1" := true]}, Some decisionInPlace) /\
  eligible history (fun _ _ => true) newRoles "r2" (idlePod 1).
Proof.
  assert (Hr : roundOk history (fun _ _ => true) false newRound).
  { split; [intros r source H|intros pod same source H]; cbn [sources imagesOnlyMemo newRound] in H; by rewrite lookup_empty in H. }
  assert (Hd : decideInPlace history (fun _ _ => true) newRoles "r2" false newRound [idlePod 0; idlePod 1] =
    (MkRound {["r1" := oldRoles]} {["r1" := true]}, Some decisionInPlace)) by (vm_compute; reflexivity).
  split; [exact Hr|]. split; [exact Hd|].
  refine (proj1 (proj2 (in_place_patch_exact history (fun _ _ => true) newRoles "r2" false newRound [idlePod 0; idlePod 1] _ _ Hr _ _ Hd)) (idlePod 1) _).
  - intros p q Hk. split; [exact Hk|reflexivity].
  - vm_compute. reflexivity.
  - intros pod Hp. split; [|intros s name Hs].
    + apply elem_of_cons in Hp as [->|Hp]; [apply NoDup_singleton|]. apply list_elem_of_singleton in Hp as ->. apply NoDup_singleton.
    + apply elem_of_cons in Hp as [->|Hp]; [discriminate Hs|]. apply list_elem_of_singleton in Hp as ->. discriminate Hs.
  - right. left.
Defined.

Definition updatedPod (k : Z) : Pod :=
  MkPod (unitMeta k "r1") "7" (Some (Marshal (MkState "r2" 1000000000 {["vllm" := MkPatched "v2" "a" "sha:1"]} {["vllm" := 1]} false))) "Always"
        [MkContainer "vllm" "v2" None 0] (MkPodStatus PodRunning [("Ready", "True")] [] [MkStatus "vllm" 1 "b" "v2" "sha:2"]).

Definition demoUnit (l : list Pod) : inPlaceUnit := MkUnit "g" "" "" l.
Definition roleList (name : string) : option (list RoleInstance) := Some [MkInstance "prefill-0" false].

(** The reconciliation of [demoUnit] at 100 s. *)
Definition demoReconcile (send : Pod * Patch -> bool) (l : list Pod) : outcome :=
  @reconcileAt plainReference newRoles "default" "ms-uid" false None history (fun _ _ _ => false) (fun _ => Some "h"%string) roleList
    (fun _ _ => Some (1, "r1"%string)) (fun _ => true) (fun _ => true) 100000000000 send (demoUnit l) "r2".

(** The second pod's completion is lost, then resent. *)
Lemma interrupted_completion_resumes_witness : exists sent l', demoReconcile (fun x => bool_decide (PodName (Meta x.1) = "g-prefill-0-0"%string))
    [updatedPod 0; updatedPod 1] = Finish sent None /\ length l' = 2%nat /\
  exists updates' sent', demoReconcile (fun _ => true) l' = Finish sent' (Some updates') /\ length sent' = 1%nat.
Proof.
  set (p0 := default (updatedPod 0) (mergePatch (updatedPod 0) (Complete (updatedPod 0) "r2" "h" 100000000000))).
  exists [(updatedPod 0, Complete (updatedPod 0) "r2" "h" 100000000000); (updatedPod 1, Complete (updatedPod 1) "r2" "h" 100000000000)].
  exists [p0; updatedPod 1].
  assert (Hr : demoReconcile (fun x => bool_decide (PodName (Meta x.1) = "g-prefill-0-0"%string)) [updatedPod 0; updatedPod 1] =
    Finish [(updatedPod 0, Complete (updatedPod 0) "r2" "h" 100000000000); (updatedPod 1, Complete (updatedPod 1) "r2" "h" 100000000000)] None)
    by (vm_compute; reflexivity).
  split; [exact Hr|]. split; [reflexivity|].
  destruct (@interrupted_completion_resumes plainReference strategicMerge _ _ _ _ _ _ _ _ _ _ _ _ _ _ _ _ _ _ Hr) as (_ & _ & H).
  destruct (H [p0; updatedPod 1] 100000000000) as (_ & updates' & _ & Hrest).
  - constructor; [right|constructor; [by left|constructor]]. split; [reflexivity|]. exists "h"%string. split; [reflexivity|vm_compute; reflexivity].
  - intros pod Hp. apply elem_of_cons in Hp as [->|Hp]; [vm_compute; discriminate|]. apply list_elem_of_singleton in Hp as ->. vm_compute. discriminate.
  - intros name. by eexists.
  - reflexivity.
  - exists updates'. cbv zeta in Hrest.
    assert (E : existsb (fun pod => InProgress (StateOf pod)) [p0; updatedPod 1] = true) by (vm_compute; reflexivity).
    rewrite E in Hrest. destruct Hrest as (sent' & H1 & H2). exists sent'. split; [exact H1|]. rewrite H2. vm_compute. reflexivity.
Defined.

(** A unit still waiting for its second pod. *)
Lemma unit_never_stuck_witness :
  demoReconcile (fun _ => true) [updatedPod 0; MkPod (unitMeta 1 "r1") "7" (StateAnnotation (updatedPod 1)) "Always" (Containers (updatedPod 1)) (Status (idlePod 1))]
    = Wait 1701000000000 /\
  exists first, @outcomeOk plainReference newRoles "default" "ms-uid" false None 100000000000 roleList (fun _ _ => Some (1, "r1"%string))
    (demoUnit [updatedPod 0; MkPod (unitMeta 1 "r1") "7" (StateAnnotation (updatedPod 1)) "Always" (Containers (updatedPod 1)) (Status (idlePod 1))])
    "r2" first (Wait 1701000000000).
Proof.
  set (p1 := MkPod (unitMeta 1 "r1") "7" (StateAnnotation (updatedPod 1)) "Always" (Containers (updatedPod 1)) (Status (idlePod 1))).
  assert (E : demoReconcile (fun _ => true) [updatedPod 0; p1] = Wait 1701000000000) by (vm_compute; reflexivity).
  split; [exact E|].
  destruct (@unit_never_stuck plainReference newRoles "default" "ms-uid" false None history (fun _ _ _ => false) (fun _ => Some "h"%string) roleList
    (fun _ _ => Some (1, "r1"%string)) (fun _ => true) (fun _ => true) 100000000000 (fun _ => true) (demoUnit [updatedPod 0; p1]) "r2") as (first & _ & _ & H).
  - vm_compute. reflexivity.
  - intros pod Hp. apply elem_of_cons in Hp as [->|Hp]; [|apply list_elem_of_singleton in Hp as ->]; (split; [reflexivity|vm_compute; discriminate]).
  - intros pod s Hp Hs Hd. apply elem_of_cons in Hp as [->|Hp]; [|apply list_elem_of_singleton in Hp as ->]; injection Hs as <-; reflexivity.
  - exists first. unfold demoReconcile in E. rewrite E in H. exact H.
Defined.
