(* ===== verification/Eviction.v ===== *)
(** * pkg/model-serving-controller/webhook/eviction_handler.go: protected evictions

    The decision on the eviction of a pod: how the budget is counted over
    serving groups or role instances, the tracker of recently disrupted units in
    a ConfigMap, and the webhook replicas that share it as a step relation. *)
From Stdlib Require Import Ascii String.
From S2P Require Import Prelude Names CapacityWebhook ServingPods.
Local Open Scope Z_scope.

Record Pod := MkPod { Meta : ObjectMeta; Status : PodStatus }.

(** The condition Ready is true and the pod is not being deleted. *)
Definition isPodReady (pod : Pod) : bool :=
  negb (bool_decide (is_Some (DeletionTimestamp (Meta pod)))) &&
  existsb (fun c => bool_decide (c.1 = "Ready"%string) && bool_decide (c.2 = "True"%string)) (Conditions (Status pod)).

Definition arePodsReady (pods : list Pod) : bool := negb (bool_decide (pods = [])) && forallb isPodReady pods.

Definition podLabel (pod : Pod) (key : string) : string := label (Labels (Meta pod)) key.

(** ** Disruption units *)

Definition ProtectionLevelServingGroup : string := "ServingGroup".
Definition ProtectionLevelRole : string := "Role".

Record disruptionUnit := MkUnit {
  namespace : string;
  modelServing : string;
  level : string;
  groupName : string;
  role : string;
  roleID : string;
}.

#[export] Instance disruptionUnit_eq_dec : EqDecision disruptionUnit.
Proof. solve_decision. Defined.

(** Elements joined by slashes. *)
Fixpoint joinSlash (l : list string) : string :=
  match l with
  | [] => ""
  | [s] => s
  | s :: l => s ++ "/" ++ joinSlash l
  end%string.

Definition key (u : disruptionUnit) : string :=
  if bool_decide (level u = ProtectionLevelRole)
  then joinSlash [level u; namespace u; modelServing u; groupName u; role u; roleID u]
  else joinSlash [level u; namespace u; modelServing u; groupName u].

(** [strings.Split s "/"]. *)
Fixpoint Split (s : string) : list string :=
  match s with
  | EmptyString => [""%string]
  | String c s' =>
    if bool_decide (c = "/"%char) then ""%string :: Split s'
    else match Split s' with
         | x :: l => String c x :: l
         | [] => [String c ""]
         end
  end.

Definition parseDisruptionUnitKey (k : string) : option disruptionUnit :=
  let parts := Split k in
  match parts with
  | lvl :: ns :: ms :: a :: rest =>
    if bool_decide (lvl = ProtectionLevelRole) then
      match rest with
      | [b; c] => Some (MkUnit ns ms lvl a b c)
      | [b] => Some (MkUnit ns ms lvl "" a b)
      | _ => None
      end
    else match rest with
         | [] => Some (MkUnit ns ms lvl a "" "")
         | _ => None
         end
  | _ => None
  end.

(** ** The tracker *)

Record disruptionEntry := MkEntry { expiresAt : Z; triggerPodUID : string; triggerPodName : string }.

Abbreviation disruptionEntries := (gmap string disruptionEntry).

Definition isUnitDisrupted (now : Z) (entries : disruptionEntries) (u : disruptionUnit) : bool :=
  match entries !! key u with Some e => now <? expiresAt e | None => false end.

Definition cleanupDisruptionEntries (now : Z) (entries : disruptionEntries) : disruptionEntries :=
  filter (fun '(_, e) => now <= expiresAt e) entries.

Definition inDisruptionUnit (u : disruptionUnit) (pod : Pod) : bool :=
  bool_decide (Namespace (Meta pod) = namespace u) && bool_decide (podLabel pod ModelServingNameLabelKey = modelServing u) &&
  if bool_decide (level u = ProtectionLevelRole)
  then (bool_decide (groupName u = ""%string) || bool_decide (podLabel pod GroupNameLabelKey = groupName u)) &&
       bool_decide (podLabel pod RoleLabelKey = role u) && bool_decide (podLabel pod RoleIDKey = roleID u)
  else bool_decide (podLabel pod GroupNameLabelKey = groupName u).

Definition podsForDisruptionUnit (u : disruptionUnit) (pods : list Pod) : list Pod :=
  filter (fun pod => inDisruptionUnit u pod = true) pods.

Definition hasPodUID (pods : list Pod) (uid : string) : bool := existsb (fun pod => bool_decide (UID (Meta pod) = uid)) pods.

(** The unit recovered: its pods are ready and the evicted one is gone. *)
Definition recovered (pods : list Pod) (k : string) (e : disruptionEntry) : bool :=
  if bool_decide (triggerPodUID e = ""%string) then false
  else match parseDisruptionUnitKey k with
       | None => false
       | Some u => let unitPods := podsForDisruptionUnit u pods in
                   if bool_decide (unitPods = []) || negb (arePodsReady unitPods) then false
                   else negb (hasPodUID unitPods (triggerPodUID e))
       end.

Definition cleanupRecoveredDisruptionEntries (pods : list Pod) (entries : disruptionEntries) : disruptionEntries :=
  filter (fun '(k, e) => recovered pods k e = false) entries.

Definition needsLiveRecoveryCheck (entries : disruptionEntries) (pods : list Pod) : bool :=
  existsb (fun '(k, e) =>
    if bool_decide (triggerPodUID e = ""%string) then false
    else match parseDisruptionUnitKey k with
         | None => false
         | Some u => let unitPods := podsForDisruptionUnit u pods in
                     bool_decide (unitPods = []) || negb (arePodsReady unitPods) || hasPodUID unitPods (triggerPodUID e)
         end) (map_to_list entries).

(** ** The model serving and its pods *)

Record EvictionStrategySpec := MkStrategy {
  ProtectionLevel : string;
  MinAvailable : option IntOrString;
  RoleMinAvailable : option (gmap string IntOrString);
}.

Record Serving := MkServing {
  servingNamespace : string;
  servingName : string;
  servingUID : string;
  servingReplicas : option Z;
  servingRoles : list (string * option Z);
}.

Definition isOwnedByCurrentModelServing (owners : list OwnerReference) (ms : Serving) : bool :=
  bool_decide (servingUID ms = ""%string) ||
  existsb (fun o => bool_decide (APIVersion o = GroupVersion) && bool_decide (Kind o = "ModelServing"%string) &&
                    bool_decide (OwnerName o = servingName ms) && bool_decide (OwnerUID o = servingUID ms)) owners.

Definition filterPodsForCurrentModelServing (pods : list Pod) (ms : Serving) : list Pod :=
  if bool_decide (servingUID ms = ""%string) then pods
  else filter (fun pod => isOwnedByCurrentModelServing (OwnerReferences (Meta pod)) ms = true) pods.

Definition includeTargetPod (pods : list Pod) (target : Pod) : list Pod :=
  if existsb (fun pod => bool_decide (Namespace (Meta pod) = Namespace (Meta target)) && bool_decide (PodName (Meta pod) = PodName (Meta target))) pods
  then pods else pods ++ [target].

(** The pods listed at the API server; none is an error. *)
Definition liveModelServingPods (ms : Serving) (listed : option (list Pod)) : option (list Pod) :=
  filter (fun pod => isOwnedByCurrentModelServing (OwnerReferences (Meta pod)) ms = true) <$> listed.

Definition servingGroupUnit (ms : Serving) (group : string) : disruptionUnit :=
  MkUnit (servingNamespace ms) (servingName ms) ProtectionLevelServingGroup group "" "".

Definition roleUnit (ms : Serving) (group role roleID : string) : disruptionUnit :=
  MkUnit (servingNamespace ms) (servingName ms) ProtectionLevelRole group role roleID.

Definition minAvailableOrDefault (value : option IntOrString) : IntOrString := default (IntVal 1) value.

Definition roleMinAvailableOrDefault (strategy : EvictionStrategySpec) (role : string) : IntOrString :=
  default (IntVal 0) (m ← RoleMinAvailable strategy; m !! role).

Definition expectedRoleInstancesInServingGroup (ms : Serving) (roleName : string) (fallback : Z) : Z :=
  match findName fst roleName (servingRoles ms) with
  | Some (_, replicas) => replicasOrDefault replicas
  | None => if 0 <? fallback then fallback else 1
  end.

(** The pods by an identifier, those without one left out. *)
Definition groupBy (idOf : Pod -> string) (pods : list Pod) : gmap string (list Pod) :=
  fold_left (fun m p => if bool_decide (idOf p = ""%string) then m else <[idOf p := default [] (m !! idOf p) ++ [p]]> m) pods ∅.

(** ** The decision *)

Inductive denial := NotObserved | NotReadyNotTracked | BelowMinimum | TrackerFailed | LookupFailed.

(** An answer, and the unit an allowed eviction newly disrupts. *)
Inductive verdict := Allow (u : option disruptionUnit) | Deny (d : denial).

Section handler.
(** [intstr.GetScaledValueFromIntOrPercent]; on an error the source goes on
    with the 0 it returns. *)
Context (GetScaledValueFromIntOrPercent : IntOrString -> Z -> bool -> option Z).

(** The branches both protection levels share, over the observed units. *)
Definition decideBudget (now : Z) (entries : disruptionEntries) (unitOf : string -> disruptionUnit) (units : gmap string (list Pod))
    (id : string) (target : Pod) (total : Z) (minimum : IntOrString) : verdict :=
  let isReady := fun i pods => negb (isUnitDisrupted now entries (unitOf i)) && arePodsReady pods in
  let ready := Z.of_nat (size (filter (fun '(i, pods) => isReady i pods = true) units)) in
  let minAvailable := if 0 <? total then default 0 (GetScaledValueFromIntOrPercent minimum total true) else -1 in
  if total =? 0 then Allow None
  else
    match units !! id with
    | None => Deny NotObserved
    | Some pods =>
      if negb (isReady id pods) then
        if negb (isPodReady target) then Allow None
        else if isUnitDisrupted now entries (unitOf id) then Allow None
        else if minAvailable <? ready then Allow None
        else Deny NotReadyNotTracked
      else if minAvailable <? ready then Allow (Some (unitOf id))
      else Deny BelowMinimum
    end.

Definition checkServingGroupProtection (ms : Serving) (target : Pod) (strategy : EvictionStrategySpec) (allPods : list Pod)
    (now : Z) (entries : disruptionEntries) : verdict :=
  let targetGroupName := podLabel target GroupNameLabelKey in
  if bool_decide (targetGroupName = ""%string) then Allow None
  else
    let groups := groupBy (fun p => podLabel p GroupNameLabelKey) allPods in
    decideBudget now entries (servingGroupUnit ms) groups targetGroupName target (replicasOrDefault (servingReplicas ms))
      (minAvailableOrDefault (MinAvailable strategy)).

Definition checkRoleProtection (ms : Serving) (target : Pod) (strategy : EvictionStrategySpec) (allPods : list Pod)
    (now : Z) (entries : disruptionEntries) : verdict :=
  let targetGroupName := podLabel target GroupNameLabelKey in
  let targetRole := podLabel target RoleLabelKey in
  let targetRoleID := podLabel target RoleIDKey in
  if bool_decide (targetGroupName = ""%string) || bool_decide (targetRole = ""%string) || bool_decide (targetRoleID = ""%string) then Allow None
  else
    let instances := groupBy (fun p => podLabel p RoleIDKey)
      (filter (fun p => podLabel p GroupNameLabelKey = targetGroupName /\ podLabel p RoleLabelKey = targetRole) allPods) in
    decideBudget now entries (roleUnit ms targetGroupName targetRole) instances targetRoleID target
      (expectedRoleInstancesInServingGroup ms targetRole (Z.of_nat (size instances))) (roleMinAvailableOrDefault strategy targetRole).

Definition checkProtection (ms : Serving) (target : Pod) (strategy : EvictionStrategySpec) (allPods : list Pod)
    (now : Z) (entries : disruptionEntries) : verdict :=
  if bool_decide (ProtectionLevel strategy = ProtectionLevelRole) then checkRoleProtection ms target strategy allPods now entries
  else checkServingGroupProtection ms target strategy allPods now entries.

(** ** Observation *)

Definition observedRoleInstances (pods : list Pod) (group role : string) : Z :=
  Z.of_nat (size (list_to_set (C := gset string) (filter (fun id => id <> ""%string)
    ((fun p => podLabel p RoleIDKey) <$> filter (fun p => podLabel p GroupNameLabelKey = group /\ podLabel p RoleLabelKey = role) pods)))).

Definition observedServingGroups (pods : list Pod) : Z :=
  Z.of_nat (size (list_to_set (C := gset string) (filter (fun id => id <> ""%string) ((fun p => podLabel p GroupNameLabelKey) <$> pods)))).

Definition expectedAndObservedInstances (ms : Serving) (target : Pod) (strategy : EvictionStrategySpec) (pods : list Pod) : Z * Z :=
  if bool_decide (ProtectionLevel strategy = ProtectionLevelRole) then
    let group := podLabel target GroupNameLabelKey in
    let role := podLabel target RoleLabelKey in
    if bool_decide (group = ""%string) || bool_decide (role = ""%string) then (0, 0)
    else
      let observed := observedRoleInstances pods group role in
      (expectedRoleInstancesInServingGroup ms role observed, observed)
  else (replicasOrDefault (servingReplicas ms), observedServingGroups pods).

Definition refreshLivePodsForIncompleteObservation (ms : Serving) (target : Pod) (strategy : EvictionStrategySpec) (listed : option (list Pod))
    (cachedPods : list Pod) : list Pod :=
  let '(expected, observed) := expectedAndObservedInstances ms target strategy cachedPods in
  if (expected <=? 0) || (expected <=? observed) then cachedPods
  else match liveModelServingPods ms listed with
       | None => cachedPods
       | Some livePods => includeTargetPod livePods target
       end.

(** [cleanupRecoveredDisruptionEntries] of the handler: a second pass over the
    pods listed at the API server where the first may have missed a recovery. *)
Definition cleanupRecovered (ms : Serving) (target : Pod) (listed : option (list Pod)) (entries : disruptionEntries) (cachedPods : list Pod) :
    disruptionEntries * list Pod :=
  let entries := cleanupRecoveredDisruptionEntries cachedPods entries in
  if negb (needsLiveRecoveryCheck entries cachedPods) then (entries, cachedPods)
  else
    match liveModelServingPods ms listed with
    | None => (entries, cachedPods)
    | Some livePods =>
      let livePods := includeTargetPod livePods target in
      let cleaned := cleanupRecoveredDisruptionEntries livePods entries in
      if bool_decide (size cleaned = size entries) then (cleaned, cachedPods) else (cleaned, livePods)
    end.

(** One attempt on the entries it read: the verdict, the entries to write when
    it disrupts a unit, and the pods for the next attempt. *)
Definition attemptOn (ms : Serving) (strategy : EvictionStrategySpec) (target : Pod) (listed : option (list Pod)) (ttl now : Z)
    (entries : disruptionEntries) (allPods : list Pod) : verdict * disruptionEntries * list Pod :=
  let '(entries, allPods) := cleanupRecovered ms target listed (cleanupDisruptionEntries now entries) allPods in
  let v := checkProtection ms target strategy allPods now entries in
  match v with
  | Allow (Some u) => (v, <[key u := MkEntry (now + ttl) (UID (Meta target)) (PodName (Meta target))]> entries, allPods)
  | _ => (v, entries, allPods)
  end.

(** The pods a request starts from. *)
Definition startPods (ms : Serving) (strategy : EvictionStrategySpec) (target : Pod) (cached : list Pod) (listed : option (list Pod)) : list Pod :=
  refreshLivePodsForIncompleteObservation ms target strategy listed
    (includeTargetPod (filterPodsForCurrentModelServing cached ms) target).
End handler.

(** ** Keys *)

Definition noSlash (s : string) : Prop := "/"%char ∉ list_ascii_of_string s.

Lemma Split_noSlash s : noSlash s -> Split s = [s].
Proof.
  induction s as [|c s IH]; [done|]. unfold noSlash in *. cbn [list_ascii_of_string Split]. intros Hs.
  apply not_elem_of_cons in Hs as [Hc Hs]. rewrite bool_decide_false by congruence. by rewrite IH.
Qed.

Lemma Split_app s t : noSlash s -> Split (s ++ "/" ++ t) = s :: Split t.
Proof.
  induction s as [|c s IH]; [done|]. unfold noSlash in *. intros Hs. cbn [list_ascii_of_string] in Hs.
  apply not_elem_of_cons in Hs as [Hc Hs]. change ((String c s ++ "/" ++ t)%string) with (String c (s ++ "/" ++ t)). cbn [Split].
  rewrite bool_decide_false by congruence. rewrite IH by done. done.
Qed.

Lemma Split_join l : Forall noSlash l -> l <> [] -> Split (joinSlash l) = l.
Proof.
  induction 1 as [|s l Hs Hl IH]; [done|]. intros _. destruct l as [|s' l]; [by apply Split_noSlash|].
  cbn [joinSlash] in IH |- *. rewrite Split_app by done. by rewrite IH.
Qed.

(** The units the handler tracks: no slash in a name, and only a role's unit
    names a role. *)
Record unitOk (u : disruptionUnit) : Prop := {
  uo_slash : Forall noSlash [level u; namespace u; modelServing u; groupName u; role u; roleID u];
  uo_role : level u = ProtectionLevelRole \/ (role u = ""%string /\ roleID u = ""%string);
}.

Lemma parse_key u : unitOk u -> parseDisruptionUnitKey (key u) = Some u.
Proof.
  destruct u as [ns ms lvl g r i]. intros [Hs Hr]. cbn in Hs, Hr. repeat (apply Forall_cons in Hs as [? Hs]).
  unfold parseDisruptionUnitKey, key. cbn [level namespace modelServing groupName role roleID].
  case_bool_decide as E; rewrite Split_join; try done; try by repeat constructor.
  - by rewrite bool_decide_true.
  - rewrite bool_decide_false by done. destruct Hr as [|[-> ->]]; done.
Qed.

Lemma key_inj u u' : unitOk u -> unitOk u' -> key u = key u' -> u = u'.
Proof. intros H H' E. apply (f_equal parseDisruptionUnitKey) in E. rewrite !parse_key in E by done. congruence. Qed.

(** The key of a disruption unit is parsed back to the unit, for both
    protection levels and every name without a slash, so different units have
    different keys; a key written before groups were part of it is read as the
    role's unit in any group. *)
Theorem unit_key_roundtrip u u' : unitOk u -> unitOk u' ->
  parseDisruptionUnitKey (key u) = Some u /\ (key u = key u' -> u = u') /\
  parseDisruptionUnitKey (joinSlash [ProtectionLevelRole; namespace u; modelServing u; role u; roleID u]) =
    Some (MkUnit (namespace u) (modelServing u) ProtectionLevelRole "" (role u) (roleID u)).
Proof.
  intros H H'. split; [by apply parse_key|]. split; [by apply key_inj|].
  destruct H as [Hs _]. cbn in Hs. repeat (apply Forall_cons in Hs as [? Hs]). unfold parseDisruptionUnitKey.
  rewrite Split_join; [by rewrite bool_decide_true| |done]. repeat constructor; try done.
  apply (bool_decide_unpack ("/"%char ∉ _)). vm_compute. exact I.
Qed.

Lemma unit_key_roundtrip_witness :
  parseDisruptionUnitKey (key (MkUnit "default" "demo" "Role" "demo-0" "prefill" "prefill-1")) =
    Some (MkUnit "default" "demo" "Role" "demo-0" "prefill" "prefill-1").
Proof.
  assert (H : unitOk (MkUnit "default" "demo" "Role" "demo-0" "prefill" "prefill-1")).
  { constructor; [|by left]. repeat constructor; apply (bool_decide_unpack ("/"%char ∉ _)); vm_compute; exact I. }
  exact (proj1 (unit_key_roundtrip _ _ H H)).
Defined.
