(* ===== verification/EvictionRun.v ===== *)
(** * Evictions answered by several replicas of the webhook

    Every replica reads the tracker ConfigMap, decides, and writes it back under
    its resource version; steps of different requests interleave freely. *)
From Stdlib Require Import Ascii String.
From S2P Require Import Prelude Names CapacityWebhook ServingPods Eviction.
Local Open Scope Z_scope.

(** The tracker: its version, whether the current model serving owns it, and
    the entries it decodes to. *)
Record Tracker := MkTracker { version : nat; owned : bool; data : option disruptionEntries }.

(** A request: the pod, the cached pods (none when listing them fails) and the
    pods the API server lists (none when that fails). *)
Record Request := MkRequest { target : Pod; cached : option (list Pod); listed : option (list Pod) }.

(** [retry.DefaultRetry] makes five attempts. *)
Definition retrySteps : nat := 5.

Inductive Phase :=
| Waiting (attempt : nat) (pods : list Pod)
| Absent (attempt : nat) (pods : list Pod)
| Foreign (attempt : nat) (pods : list Pod) (v : nat)
| Holding (attempt : nat) (pods : list Pod) (v : nat) (entries : disruptionEntries)
| Answered (v : verdict).

Record Cluster := MkCluster { tracker : option Tracker; nextVersion : nat; phases : nat -> Phase }.

Definition setPhase (h : nat) (p : Phase) (f : nat -> Phase) : nat -> Phase := fun i => if decide (i = h) then p else f i.

(** A conflict uses up an attempt. *)
Definition conflict (attempt : nat) (pods : list Pod) : Phase :=
  if (S attempt <? retrySteps)%nat then Waiting (S attempt) pods else Answered (Deny TrackerFailed).

Section run.
Context (GetScaledValueFromIntOrPercent : IntOrString -> Z -> bool -> option Z).
Context (ms : Serving) (strategy : EvictionStrategySpec) (ttl : Z) (requests : nat -> Request).

(** Until the lister answers nothing else is done; when it fails the eviction
    is allowed. *)
Definition startPhase (r : Request) : Phase :=
  match cached r with
  | None => Answered (Allow None)
  | Some pods => Waiting 0 (startPods ms strategy (target r) pods (listed r))
  end.

Definition attempt (h : nat) (now : Z) (entries : disruptionEntries) (pods : list Pod) : verdict * disruptionEntries * list Pod :=
  attemptOn GetScaledValueFromIntOrPercent ms strategy (target (requests h)) (listed (requests h)) ttl now entries pods.

(** One call of the API server by request [h] at time [now]. *)
Inductive step : Cluster -> Z -> Cluster -> Prop :=
| step_get c now h a pods : phases c h = Waiting a pods ->
    step c now (MkCluster (tracker c) (nextVersion c) (setPhase h
      (match tracker c with
       | None => Absent a pods
       | Some t => if owned t then match data t with Some entries => Holding a pods (version t) entries | None => Answered (Deny TrackerFailed) end
                   else Foreign a pods (version t)
       end) (phases c)))
| step_fail c now h p : (forall v, phases c h <> Answered v) -> p = Answered (Deny TrackerFailed) ->
    step c now (MkCluster (tracker c) (nextVersion c) (setPhase h p (phases c)))
| step_create c now h a pods : phases c h = Absent a pods ->
    step c now (match tracker c with
                | None => MkCluster (Some (MkTracker (nextVersion c) true (Some ∅))) (S (nextVersion c)) (setPhase h (Holding a pods (nextVersion c) ∅) (phases c))
                | Some _ => MkCluster (tracker c) (nextVersion c) (setPhase h (conflict a pods) (phases c))
                end)
| step_reset c now h a pods v t : phases c h = Foreign a pods v -> tracker c = Some t ->
    step c now (if decide (version t = v)
                then MkCluster (Some (MkTracker (nextVersion c) true (Some ∅))) (S (nextVersion c)) (setPhase h (Holding a pods (nextVersion c) ∅) (phases c))
                else MkCluster (tracker c) (nextVersion c) (setPhase h (conflict a pods) (phases c)))
| step_answer c now h a pods v entries verdict entries' pods' : phases c h = Holding a pods v entries ->
    attempt h now entries pods = (verdict, entries', pods') -> (forall u, verdict <> Allow (Some u)) ->
    step c now (MkCluster (tracker c) (nextVersion c) (setPhase h (Answered verdict) (phases c)))
| step_update c now h a pods v entries u entries' pods' t : phases c h = Holding a pods v entries ->
    attempt h now entries pods = (Allow (Some u), entries', pods') -> tracker c = Some t ->
    step c now (if decide (version t = v)
                then MkCluster (Some (MkTracker (nextVersion c) (owned t) (Some entries'))) (S (nextVersion c)) (setPhase h (Answered (Allow (Some u))) (phases c))
                else MkCluster (tracker c) (nextVersion c) (setPhase h (conflict a pods') (phases c))).

(** Steps taken from [t0] until the first entry can expire. *)
Inductive steps (t0 : Z) (c : Cluster) : Cluster -> Prop :=
| steps_refl : steps t0 c c
| steps_snoc c' now c'' : steps t0 c c' -> step c' now c'' -> t0 <= now < t0 + ttl -> steps t0 c c''.

(** No eviction is tracked yet; a tracker of an earlier incarnation may exist. *)
Definition initial (c : Cluster) : Prop :=
  (forall t, tracker c = Some t -> (version t < nextVersion c)%nat /\ (owned t = true -> data t = Some ∅)) /\
  forall h, phases c h = startPhase (requests h).

(** ** Budgets *)

(** What an eviction counts against: the serving groups, or the instances of
    the pod's role in its group; none when its labels are incomplete. *)
Definition budgetClass (p : Pod) : option (string * string) :=
  if bool_decide (ProtectionLevel strategy = ProtectionLevelRole) then
    if bool_decide (podLabel p GroupNameLabelKey = ""%string) || bool_decide (podLabel p RoleLabelKey = ""%string) ||
       bool_decide (podLabel p RoleIDKey = ""%string) then None
    else Some (podLabel p GroupNameLabelKey, podLabel p RoleLabelKey)
  else if bool_decide (podLabel p GroupNameLabelKey = ""%string) then None else Some (""%string, ""%string).

Definition classUnits (pods : list Pod) (c : string * string) : gmap string (list Pod) :=
  if bool_decide (ProtectionLevel strategy = ProtectionLevelRole)
  then groupBy (fun p => podLabel p RoleIDKey) (filter (fun p => podLabel p GroupNameLabelKey = c.1 /\ podLabel p RoleLabelKey = c.2) pods)
  else groupBy (fun p => podLabel p GroupNameLabelKey) pods.

Definition classId (p : Pod) : string :=
  if bool_decide (ProtectionLevel strategy = ProtectionLevelRole) then podLabel p RoleIDKey else podLabel p GroupNameLabelKey.

Definition classUnit (c : string * string) (id : string) : disruptionUnit :=
  if bool_decide (ProtectionLevel strategy = ProtectionLevelRole) then roleUnit ms c.1 c.2 id else servingGroupUnit ms id.

Definition classTotal (pods : list Pod) (c : string * string) : Z :=
  if bool_decide (ProtectionLevel strategy = ProtectionLevelRole)
  then expectedRoleInstancesInServingGroup ms c.2 (Z.of_nat (size (classUnits pods c))) else replicasOrDefault (servingReplicas ms).

Definition classMinimum (c : string * string) : IntOrString :=
  if bool_decide (ProtectionLevel strategy = ProtectionLevelRole) then roleMinAvailableOrDefault strategy c.2
  else minAvailableOrDefault (MinAvailable strategy).

(** The number of units that must stay available. *)
Definition minAvailable (pods : list Pod) (c : string * string) : Z :=
  if 0 <? classTotal pods c then default 0 (GetScaledValueFromIntOrPercent (classMinimum c) (classTotal pods c) true) else -1.

Lemma checkProtection_class p pods now entries :
  checkProtection GetScaledValueFromIntOrPercent ms p strategy pods now entries =
  match budgetClass p with
  | None => Allow None
  | Some c => decideBudget GetScaledValueFromIntOrPercent now entries (classUnit c) (classUnits pods c) (classId p) p (classTotal pods c) (classMinimum c)
  end.
Proof.
  unfold checkProtection, budgetClass, classUnit, classUnits, classId, classTotal, classMinimum, classUnits. case_bool_decide as E.
  - unfold checkRoleProtection. destruct (_ || _ || _); done.
  - unfold checkServingGroupProtection. destruct (bool_decide _); done.
Qed.

(** The ready units of a class that are not in [A]. *)
Definition availableUnits (pods : list Pod) (c : string * string) (A : list disruptionUnit) : gmap string (list Pod) :=
  filter (fun '(id, l) => classUnit c id ∉ A /\ arePodsReady l = true) (classUnits pods c).

(** ** The invariant *)

Lemma groupBy_spec (f : Pod -> string) pods : forall id,
  groupBy f pods !! id = let l := filter (fun p => f p = id) pods in if bool_decide (id = ""%string) || bool_decide (l = []) then None else Some l.
Proof using Type.
  unfold groupBy. intros id. cbv zeta.
  enough (H : forall m : gmap string (list Pod), (m !! ""%string = None) -> fold_left (fun m p => if bool_decide (f p = ""%string) then m else <[f p := default [] (m !! f p) ++ [p]]> m) pods m !! id =
    if bool_decide (id = ""%string) then None else match m !! id, filter (fun p => f p = id) pods with None, [] => None | o, l => Some (default [] o ++ l) end).
  { rewrite H by apply lookup_empty. rewrite lookup_empty. destruct (bool_decide (id = _)); [done|]. simpl. by destruct (filter _ pods). }
  induction pods as [|p pods IH]; intros m Hm; cbn [fold_left].
  - case_bool_decide as E; [by rewrite E|]. rewrite filter_nil. destruct (m !! id); [|done]. simpl. by rewrite app_nil_r.
  - destruct (decide (f p = ""%string)) as [Ep|Ep]; [rewrite (bool_decide_true _ Ep)|rewrite (bool_decide_false _ Ep)].
    + rewrite (IH m Hm). case_bool_decide as E; [done|]. by rewrite filter_cons_False by congruence.
    + rewrite IH; [|by rewrite lookup_insert_ne by done]. case_bool_decide as E; [done|].
      destruct (decide (f p = id)) as [<-|Hne].
      * rewrite lookup_insert_eq, filter_cons_True by done. simpl.
        destruct (m !! f p); simpl; [by rewrite <- app_assoc|done].
      * by rewrite lookup_insert_ne, filter_cons_False by done.
Qed.

Lemma classUnit_inj c id id' : classUnit c id = classUnit c id' -> id = id'.
Proof using Type. unfold classUnit, roleUnit, servingGroupUnit. case_bool_decide; by intros [= ->]. Qed.

(** The lister answered request [h]; the others are allowed unchecked. *)
Definition lists (h : nat) : Prop := is_Some (cached (requests h)).

(** The requests that can list the pods see the same pods [P], which include
    their target; names have no slash. *)
Record sameView (P : list Pod) : Prop := {
  sv_cached h l : cached (requests h) = Some l -> startPods ms strategy (target (requests h)) l (listed (requests h)) = P;
  sv_live h l : lists h -> liveModelServingPods ms (listed (requests h)) = Some l -> includeTargetPod l (target (requests h)) = P;
  sv_target h : lists h -> target (requests h) ∈ P;
  sv_serving : noSlash (servingNamespace ms) /\ noSlash (servingName ms);
  sv_pods p : p ∈ P -> Namespace (Meta p) = servingNamespace ms /\ podLabel p ModelServingNameLabelKey = servingName ms /\
    noSlash (podLabel p GroupNameLabelKey) /\ noSlash (podLabel p RoleLabelKey) /\ noSlash (podLabel p RoleIDKey);
}.

Context (P : list Pod) (t0 : Z).
Hypothesis view : sameView P.

Lemma classUnit_ok p c : p ∈ P -> budgetClass p = Some c -> forall q, q ∈ P -> unitOk (classUnit c (classId q)).
Proof.
  intros Hp Hc q Hq. destruct (sv_serving _ view) as [S1 S2].
  destruct (sv_pods _ view p Hp) as (_ & _ & P1 & P2 & P3), (sv_pods _ view q Hq) as (_ & _ & Q1 & Q2 & Q3).
  assert (Hempty : noSlash "") by (apply not_elem_of_nil).
  assert (Hlevels : noSlash ProtectionLevelRole /\ noSlash ProtectionLevelServingGroup)
    by (split; apply (bool_decide_unpack ("/"%char ∉ _)); vm_compute; exact I).
  destruct Hlevels as [L1 L2]. revert Hc. unfold budgetClass, classUnit, classId. case_bool_decide.
  - destruct (_ || _ || _); [done|]. intros [= <-]. constructor; [|by left]. by repeat constructor.
  - destruct (bool_decide _); [done|]. intros [= <-]. constructor; [|by right]. by repeat constructor.
Qed.

(** The pods of a unit include every pod labelled with it. *)
Lemma target_in_unit p c : p ∈ P -> budgetClass p = Some c -> p ∈ podsForDisruptionUnit (classUnit c (classId p)) P.
Proof.
  intros Hp Hc. unfold podsForDisruptionUnit. apply list_elem_of_filter. split; [|done].
  destruct (sv_pods _ view p Hp) as (P1 & P2 & _). revert Hc. unfold budgetClass, inDisruptionUnit, classUnit, classId. case_bool_decide as E.
  - destruct (_ || _ || _); [done|]. intros [= <-]. cbn. destruct (bool_decide (_ = ""%string)); by rewrite !bool_decide_true by done.
  - destruct (bool_decide _); [done|]. intros [= <-]. cbn. rewrite (bool_decide_false (ProtectionLevelServingGroup = _)) by done.
    by rewrite !bool_decide_true by done.
Qed.

(** A tracked unit does not count as recovered while its evicted pod is seen. *)
Lemma tracked_not_recovered p c expiry : p ∈ P -> budgetClass p = Some c ->
  recovered P (key (classUnit c (classId p))) (MkEntry expiry (UID (Meta p)) (PodName (Meta p))) = false.
Proof.
  intros Hp Hc. unfold recovered. cbn [triggerPodUID]. case_bool_decide; [done|]. rewrite parse_key by (by eapply classUnit_ok).
  destruct (_ || _); [done|]. apply negb_false_iff, existsb_true. exists p. split; [by apply target_in_unit|by apply bool_decide_eq_true].
Qed.

(** The entries are those of approved units, and stay for the whole window. *)
Definition entriesOk (A : list disruptionUnit) (entries : disruptionEntries) : Prop :=
  forall k e, entries !! k = Some e -> (exists u, u ∈ A /\ k = key u) /\ t0 + ttl <= expiresAt e /\ recovered P k e = false.

Definition complete (A : list disruptionUnit) (entries : disruptionEntries) : Prop := forall u, u ∈ A -> is_Some (entries !! key u).

(** An allowed request: if its unit is ready it was approved. *)
Definition handled (A : list disruptionUnit) (h : nat) : Prop :=
  let p := target (requests h) in
  forall c l, lists h -> budgetClass p = Some c -> classTotal P c <> 0 -> classUnits P c !! classId p = Some l -> arePodsReady l = true ->
    classUnit c (classId p) ∈ A.

Definition phaseOk (A : list disruptionUnit) (c : Cluster) (h : nat) : Prop :=
  match phases c h with
  | Waiting _ pods | Absent _ pods => lists h /\ pods = P
  | Foreign _ pods v => (lists h /\ pods = P) /\ (v < nextVersion c)%nat /\ forall t, tracker c = Some t -> version t = v -> owned t = false
  | Holding _ pods v entries => (lists h /\ pods = P) /\ (v < nextVersion c)%nat /\ entriesOk A entries /\
      forall t, tracker c = Some t -> version t = v -> owned t = true /\ data t = Some entries
  | Answered (Allow _) => handled A h
  | Answered (Deny _) => True
  end.

Record Inv (A : list disruptionUnit) (c : Cluster) : Prop := {
  inv_units u : u ∈ A -> exists p cl, p ∈ P /\ budgetClass p = Some cl /\ u = classUnit cl (classId p);
  inv_tracker t : tracker c = Some t -> (version t < nextVersion c)%nat /\
    (owned t = true -> exists entries, data t = Some entries /\ entriesOk A entries /\ complete A entries);
  inv_foreign : (forall t, tracker c = Some t -> owned t = false) -> A = [];
  inv_phase h : phaseOk A c h;
  inv_budget cl id : classUnit cl id ∈ A -> minAvailable P cl <= Z.of_nat (size (availableUnits P cl A));
}.

Lemma entries_kept A entries now h : lists h -> entriesOk A entries -> t0 <= now < t0 + ttl ->
  attempt h now entries P =
  match checkProtection GetScaledValueFromIntOrPercent ms (target (requests h)) strategy P now entries with
  | Allow (Some u) => (Allow (Some u), <[key u := MkEntry (now + ttl) (UID (Meta (target (requests h)))) (PodName (Meta (target (requests h))))]> entries, P)
  | v => (v, entries, P)
  end.
Proof.
  intros Hlist Hok Hnow. unfold attempt, attemptOn.
  assert (Hc : cleanupDisruptionEntries now entries = entries).
  { apply map_filter_id. intros k e Hk. destruct (Hok k e Hk) as (_ & He & _). lia. }
  assert (Hr : cleanupRecoveredDisruptionEntries P entries = entries).
  { apply map_filter_id. intros k e Hk. by destruct (Hok k e Hk) as (_ & _ & Hr). }
  rewrite Hc. unfold cleanupRecovered. rewrite Hr.
  destruct (negb (needsLiveRecoveryCheck entries P)); [by destruct (checkProtection _ _ _ _ _ _ _) as [[]|]|].
  destruct (liveModelServingPods ms _) as [l|] eqn:El; [|by destruct (checkProtection _ _ _ _ _ _ _) as [[]|]].
  rewrite (sv_live _ view h l Hlist El), Hr, bool_decide_true by done. by destruct (checkProtection _ _ _ _ _ _ _) as [[]|].
Qed.

Lemma disrupted_approved A entries now u : (forall u, u ∈ A -> unitOk u) -> entriesOk A entries -> unitOk u -> now < t0 + ttl ->
  (isUnitDisrupted now entries u = true -> u ∈ A) /\ (complete A entries -> u ∈ A -> isUnitDisrupted now entries u = true).
Proof.
  intros HA Hok Hu Hnow. unfold isUnitDisrupted. split.
  - destruct (entries !! key u) as [e|] eqn:E; [|done]. intros _. destruct (Hok _ _ E) as ((u' & Hu' & Hk) & _ & _).
    by rewrite (key_inj u u' Hu (HA u' Hu') Hk).
  - intros Hcomp Hin. destruct (Hcomp u Hin) as [e He]. rewrite He. destruct (Hok _ _ He) as (_ & Hexp & _). apply Z.ltb_lt. lia.
Qed.

(** ** One decision *)

Lemma decideBudget_allow now entries unitOf units id p total minimum v :
  decideBudget GetScaledValueFromIntOrPercent now entries unitOf units id p total minimum = Allow v ->
  match v with
  | None => total = 0 \/ exists l, units !! id = Some l /\ (arePodsReady l = false \/ isUnitDisrupted now entries (unitOf id) = true)
  | Some u => u = unitOf id /\ exists l, units !! id = Some l /\ arePodsReady l = true /\ isUnitDisrupted now entries (unitOf id) = false /\
      (if 0 <? total then default 0 (GetScaledValueFromIntOrPercent minimum total true) else -1) <
      Z.of_nat (size (filter (fun '(i, l) => negb (isUnitDisrupted now entries (unitOf i)) && arePodsReady l = true) units))
  end.
Proof using Type.
  unfold decideBudget. set (m := if 0 <? total then _ else _). destruct (Z.eqb_spec total 0); [intros [= <-]; by left|].
  destruct (units !! id) as [l|]; [|done]. destruct (isUnitDisrupted now entries (unitOf id)) eqn:Ed; cbn [negb andb].
  - destruct (negb (isPodReady p)); intros [= <-]; right; exists l; (split; [done|]); by right.
  - destruct (arePodsReady l) eqn:Er; cbn [negb andb].
    + case_bool; [|done]. intros [= <-]. split; [done|]. exists l. by split_and!.
    + destruct (isPodReady p); cbn [negb]; [case_bool; [|done]|]; intros [= <-]; right; exists l; (split; [done|]); by left.
Qed.

Lemma classUnits_id c id l : classUnits P c !! id = Some l -> exists q, q ∈ P /\ classId q = id /\ (forall q, q ∈ l -> q ∈ P /\ classId q = id).
Proof using Type.
  unfold classUnits, classId. case_bool_decide; rewrite groupBy_spec; cbv zeta; destruct (bool_decide _ || bool_decide _) eqn:E; try done;
    apply orb_false_iff in E as [_ E]; apply bool_decide_eq_false in E; intros [= <-].
  - assert (Hall : forall q, q ∈ filter (fun p => podLabel p RoleIDKey = id) (filter (fun p => podLabel p GroupNameLabelKey = c.1 /\ podLabel p RoleLabelKey = c.2) P) ->
      q ∈ P /\ podLabel q RoleIDKey = id) by (intros q Hq; rewrite !list_elem_of_filter in Hq; naive_solver).
    destruct (filter (fun p => podLabel p RoleIDKey = id) _) as [|q l'] eqn:El; [done|]. exists q. destruct (Hall q ltac:(left)). by split_and!.
  - assert (Hall : forall q, q ∈ filter (fun p => podLabel p GroupNameLabelKey = id) P -> q ∈ P /\ podLabel q GroupNameLabelKey = id)
      by (intros q Hq; rewrite !list_elem_of_filter in Hq; naive_solver).
    destruct (filter (fun p => podLabel p GroupNameLabelKey = id) _) as [|q l'] eqn:El; [done|]. exists q. destruct (Hall q ltac:(left)). by split_and!.
Qed.

(** Classes that share a unit are the same budget. *)
Lemma same_class c c' id id' : classUnit c id = classUnit c' id' -> id = id' /\ (forall i, classUnit c i = classUnit c' i) /\
  classUnits P c = classUnits P c' /\ minAvailable P c = minAvailable P c'.
Proof using Type.
  destruct c as [g r], c' as [g' r']. unfold minAvailable, classTotal, classMinimum, classUnits, classUnit. case_bool_decide.
  - cbn. by intros [= -> -> ->].
  - by intros [= ->].
Qed.

Lemma same_available c c' A : (forall i, classUnit c i = classUnit c' i) -> classUnits P c = classUnits P c' ->
  availableUnits P c A = availableUnits P c' A.
Proof using Type.
  intros H1 H2. unfold availableUnits. rewrite H2. apply map_filter_ext. intros i l _. by rewrite H1.
Qed.

(** Approving a unit takes it, and nothing else, from its budget. *)
Lemma available_approve c id A l : classUnits P c !! id = Some l -> arePodsReady l = true -> classUnit c id ∉ A ->
  size (availableUnits P c A) = S (size (availableUnits P c (classUnit c id :: A))).
Proof using Type.
  intros Hl Hr HA. assert (E : availableUnits P c (classUnit c id :: A) = delete id (availableUnits P c A)).
  { apply map_eq. intros i. apply option_eq. intros k. unfold availableUnits. rewrite lookup_delete_Some, !map_lookup_filter_Some, not_elem_of_cons.
    split.
    - intros (H1 & (H2 & H3) & H4). split; [|done]. intros ->. by apply H2.
    - intros (H1 & H2 & H3 & H4). split_and!; try done. intros E. by apply classUnit_inj in E. }
  rewrite E. assert (Hid : availableUnits P c A !! id = Some l) by (apply map_lookup_filter_Some; by split_and!).
  rewrite map_size_delete, Hid. assert (size (availableUnits P c A) <> 0%nat); [|lia].
  intros Hz. apply map_size_empty_iff in Hz. by rewrite Hz, lookup_empty in Hid.
Qed.

Lemma available_other c u A : (forall i, classUnit c i <> u) -> availableUnits P c (u :: A) = availableUnits P c A.
Proof using Type.
  intros Hu. unfold availableUnits. apply map_filter_ext. intros i l _. rewrite not_elem_of_cons. specialize (Hu i). tauto.
Qed.

(** What the handler counts as ready is what is available. *)
Lemma counted_available A entries now p c : (forall u, u ∈ A -> unitOk u) -> entriesOk A entries -> complete A entries -> now < t0 + ttl ->
  p ∈ P -> budgetClass p = Some c ->
  filter (fun '(i, l) => negb (isUnitDisrupted now entries (classUnit c i)) && arePodsReady l = true) (classUnits P c) = availableUnits P c A.
Proof.
  intros HA Hok Hcomp Hnow Hp Hc. unfold availableUnits. apply map_filter_ext. intros i l Hi.
  destruct (classUnits_id c i l Hi) as (q & Hq & <- & _).
  destruct (disrupted_approved A entries now (classUnit c (classId q)) HA Hok (classUnit_ok p c Hp Hc q Hq) Hnow) as [D1 D2].
  rewrite andb_true_iff, negb_true_iff. split; intros [H1 H2]; (split; [|done]).
  - intros Hin. rewrite D2 in H1; done.
  - destruct (isUnitDisrupted _ _ _); [|done]. by destruct (H1 (D1 eq_refl)).
Qed.

(** ** The invariant is kept *)

Lemma entriesOk_mono A u entries : entriesOk A entries -> entriesOk (u :: A) entries.
Proof using Type. intros Hok k e Hk. destruct (Hok k e Hk) as ((v & Hv & E) & H). split; [|done]. exists v. split; [by right|done]. Qed.

(** Phases of other requests survive a step that keeps the tracker or replaces
    it under a new version. *)
Lemma phaseOk_other A A' c c' h : phases c' h = phases c h -> (nextVersion c <= nextVersion c')%nat ->
  (A' = A \/ exists u, A' = u :: A) ->
  (forall t', tracker c' = Some t' -> tracker c = Some t' \/ version t' = nextVersion c) ->
  phaseOk A c h -> phaseOk A' c' h.
Proof using Type.
  intros Hp Hn HA Ht. unfold phaseOk. rewrite Hp.
  assert (Hentries : forall entries, entriesOk A entries -> entriesOk A' entries)
    by (intros e; destruct HA as [->|[u ->]]; [done|apply entriesOk_mono]).
  destruct (phases c h) as [| |a pods v|a pods v entries|[o|d]]; try done.
  - intros ([Hl ->] & Hv & Hf). split_and!; [done|done|lia|]. intros t' Ht' Hver. destruct (Ht t' Ht') as [H0|H0]; [by apply (Hf t')|lia].
  - intros ([Hl ->] & Hv & Hok & Hf). split_and!; [done|done|lia|auto|]. intros t' Ht' Hver. destruct (Ht t' Ht') as [H0|H0]; [by apply (Hf t')|lia].
  - unfold handled. intros Hh cl l H0 H1 H2 H3 H4. specialize (Hh cl l H0 H1 H2 H3 H4). destruct HA as [->|[u ->]]; [done|by right].
Qed.

Lemma setPhase_eq h p f : setPhase h p f h = p.
Proof using Type. unfold setPhase. by rewrite decide_True. Qed.
Lemma setPhase_ne h h' p f : h' <> h -> setPhase h p f h' = f h'.
Proof using Type. intros. unfold setPhase. by rewrite decide_False. Qed.

Lemma conflict_ok A c h a : lists h -> phases c h = conflict a P -> phaseOk A c h.
Proof using Type. intros Hl E. unfold phaseOk. rewrite E. unfold conflict. by destruct (_ <? _)%nat. Qed.

(** A step of request [h] that leaves the tracker alone. *)
Lemma inv_phase_step A c h p : Inv A c -> phaseOk A (MkCluster (tracker c) (nextVersion c) (setPhase h p (phases c))) h ->
  Inv A (MkCluster (tracker c) (nextVersion c) (setPhase h p (phases c))).
Proof using Type.
  intros [I1 I2 I3 I4 I5] Hp. constructor; try done. intros h'. destruct (decide (h' = h)) as [->|Hne]; [done|].
  apply (phaseOk_other A A c); [by apply setPhase_ne|done|by left|by left|apply I4].
Qed.

(** A tracker created or reset while nothing was approved. *)
Lemma inv_fresh A c h a : Inv A c -> lists h -> A = [] ->
  Inv A (MkCluster (Some (MkTracker (nextVersion c) true (Some ∅))) (S (nextVersion c)) (setPhase h (Holding a P (nextVersion c) ∅) (phases c))).
Proof using Type.
  intros [I1 I2 I3 I4 I5] Hlist ->. assert (Hok : entriesOk [] ∅) by (intros k e; by rewrite lookup_empty).
  constructor; cbn [tracker nextVersion]; try done.
  - intros t [= <-]. cbn. split; [lia|]. intros _. exists ∅. split_and!; [done|done|]. intros u Hu. by apply not_elem_of_nil in Hu.
  - intros h'. destruct (decide (h' = h)) as [->|Hne].
    + unfold phaseOk. cbn [phases tracker nextVersion]. rewrite setPhase_eq. split_and!; [done|done|lia|done|]. by intros t [= <-] _.
    + apply (phaseOk_other [] [] c); [by apply setPhase_ne|cbn; lia|by left| |apply I4]. intros t' [= <-]. by right.
Qed.

Lemma units_ok A c : Inv A c -> forall u, u ∈ A -> unitOk u.
Proof. intros HI u Hu. destruct (inv_units _ _ HI u Hu) as (p & cl & Hp & Hc & ->). by eapply classUnit_ok. Qed.

(** The write of an approved eviction. *)
Lemma update_inv A c h now a v entries t cl u : Inv A c -> phases c h = Holding a P v entries -> tracker c = Some t -> version t = v ->
  t0 <= now < t0 + ttl -> budgetClass (target (requests h)) = Some cl ->
  decideBudget GetScaledValueFromIntOrPercent now entries (classUnit cl) (classUnits P cl) (classId (target (requests h))) (target (requests h))
    (classTotal P cl) (classMinimum cl) = Allow (Some u) ->
  Inv (u :: A) (MkCluster (Some (MkTracker (nextVersion c) (owned t)
      (Some (<[key u := MkEntry (now + ttl) (UID (Meta (target (requests h)))) (PodName (Meta (target (requests h))))]> entries))))
    (S (nextVersion c)) (setPhase h (Answered (Allow (Some u))) (phases c))).
Proof.
  intros HI Hp Ht Hver Hnow Hcl Ed. pose proof (units_ok A c HI) as HA. pose proof HI as [I1 I2 I3 I4 I5].
  pose proof (I4 h) as Hph. unfold phaseOk in Hph. rewrite Hp in Hph. destruct Hph as ([Hlist _] & Hlt & Hok & Hsame).
  destruct (Hsame t Ht Hver) as [Hown Hdata]. destruct (I2 t Ht) as [_ Ho]. destruct (Ho Hown) as (entries0 & Hd0 & _ & Hcomp).
  assert (entries0 = entries) as -> by congruence.
  pose proof (sv_target _ view h Hlist) as HP. set (p := target (requests h)) in *.
  apply decideBudget_allow in Ed as (-> & l & Hl & Hr & Hd & Hmin).
  rewrite (counted_available A entries now p cl HA Hok Hcomp ltac:(lia) HP Hcl) in Hmin. fold (minAvailable P cl) in Hmin.
  set (u := classUnit cl (classId p)) in *. assert (Hu : unitOk u) by by apply (classUnit_ok p cl HP Hcl p HP).
  assert (HuA : u ∉ A).
  { intros Hin. rewrite (proj2 (disrupted_approved A entries now u HA Hok Hu ltac:(lia)) Hcomp Hin) in Hd. done. }
  set (e := MkEntry (now + ttl) (UID (Meta p)) (PodName (Meta p))).
  assert (Hok' : entriesOk (u :: A) (<[key u := e]> entries)).
  { intros k x. rewrite lookup_insert_Some. intros [[<- <-]|[_ Hk]].
    - split; [exists u; split; [left|done]|]. split; [cbn; lia|]. by apply tracked_not_recovered.
    - by apply (entriesOk_mono A u entries Hok). }
  constructor; cbn [tracker nextVersion].
  - intros w Hw. apply elem_of_cons in Hw as [->|Hw]; [by exists p, cl|by apply I1].
  - intros t' [= <-]. cbn. split; [lia|]. intros _. eexists. split_and!; [done|done|].
    intros w Hw. destruct (decide (key w = key u)) as [E|E]; [rewrite E, lookup_insert_eq; by eexists|].
    rewrite lookup_insert_ne by done. apply elem_of_cons in Hw as [->|Hw]; [done|by apply Hcomp].
  - intros Hf. specialize (Hf _ eq_refl). cbn in Hf. congruence.
  - intros h'. destruct (decide (h' = h)) as [->|Hne].
    + unfold phaseOk. cbn [phases]. rewrite setPhase_eq.
      intros cl0 l0 _ Hcl0 _ _ _. fold p in Hcl0 |- *. assert (cl0 = cl) as -> by congruence. left.
    + apply (phaseOk_other A (u :: A) c); [by apply setPhase_ne|cbn; lia|right; by exists u| |apply I4]. intros t' [= <-]. by right.
  - intros cl' id' Hin. destruct (decide (classUnit cl' (classId p) = u)) as [E|E].
    + destruct (same_class cl' cl _ _ E) as (_ & H1 & H2 & H3). rewrite H3, (same_available cl' cl _ H1 H2).
      pose proof (available_approve cl (classId p) A l Hl Hr HuA) as Hsz. fold u in Hsz. lia.
    + assert (Hno : forall i, classUnit cl' i <> u).
      { intros i Hi. unfold u in Hi. destruct (same_class cl' cl i (classId p) Hi) as [-> _]. by apply E. }
      apply elem_of_cons in Hin as [Hin|Hin]; [by destruct (Hno id')|]. rewrite (available_other cl' u A Hno). by eapply I5.
Qed.

Lemma eviction_step_inv A c now c' : Inv A c -> step c now c' -> t0 <= now < t0 + ttl -> exists A', Inv A' c'.
Proof.
  intros HI Hstep Hnow. pose proof (units_ok A c HI) as HA. pose proof HI as [I1 I2 I3 I4 I5].
  destruct Hstep as [c now h a pods Hp | c now h p Hp -> | c now h a pods Hp | c now h a pods v t Hp Ht
    | c now h a pods v entries verdict entries' pods' Hp Hatt Hv | c now h a pods v entries u entries' pods' t Hp Hatt Ht];
    pose proof (I4 h) as Hph; unfold phaseOk in Hph; try rewrite Hp in Hph.
  - exists A. apply inv_phase_step; [done|]. unfold phaseOk. cbn [phases tracker nextVersion]. rewrite setPhase_eq.
    destruct (tracker c) as [t|] eqn:Et; [|done]. destruct (I2 t eq_refl) as [Hlt Ho]. destruct (owned t) eqn:Eo.
    + destruct (Ho eq_refl) as (entries & Hd & Hok & _). rewrite Hd. split_and!; [apply Hph|apply Hph|done|done|]. by intros t' [= <-] _.
    + split_and!; [apply Hph|apply Hph|done|]. by intros t' [= <-] _.
  - exists A. apply inv_phase_step; [done|]. unfold phaseOk. cbn [phases]. by rewrite setPhase_eq.
  - destruct Hph as [Hlist ->]. destruct (tracker c) as [t|] eqn:Et.
    + exists A. rewrite <- Et. apply inv_phase_step; [done|]. apply (conflict_ok _ _ _ a); [done|apply setPhase_eq].
    + exists A. apply inv_fresh; [done|done|]. apply I3. intros t Ht. congruence.
  - destruct Hph as ([Hlist ->] & Hlt & Hf). destruct (decide (version t = v)) as [Hver|].
    + exists A. apply inv_fresh; [done|done|]. apply I3. intros t' Ht'. assert (t' = t) as -> by congruence. by apply (Hf t).
    + exists A. apply inv_phase_step; [done|]. apply (conflict_ok _ _ _ a); [done|apply setPhase_eq].
  - destruct Hph as ([Hlist ->] & _ & Hok & _). exists A. apply inv_phase_step; [done|]. unfold phaseOk. cbn [phases]. rewrite setPhase_eq.
    rewrite (entries_kept A entries now h Hlist Hok Hnow), checkProtection_class in Hatt.
    destruct verdict as [[u|]|d]; [by destruct (Hv u)| |done]. intros cl l _ Hcl Htot Hl Hr. rewrite Hcl in Hatt.
    destruct (decideBudget _ _ _ _ _ _ _ _ _) as [[u|]|d] eqn:Ed; try done.
    apply decideBudget_allow in Ed as [Ed|(l' & Hl' & [Ed|Ed])]; [done|congruence|].
    pose proof (sv_target _ view h Hlist) as HP.
    apply (disrupted_approved A entries now (classUnit cl (classId (target (requests h)))) HA Hok (classUnit_ok _ cl HP Hcl _ HP)); [lia|done].
  - destruct Hph as ([Hlist ->] & Hlt & Hok & Hsame). rewrite (entries_kept A entries now h Hlist Hok Hnow), checkProtection_class in Hatt.
    destruct (budgetClass (target (requests h))) as [cl|] eqn:Hcl; [|done].
    destruct (decideBudget _ _ _ _ _ _ _ _ _) as [[u'|]|d] eqn:Ed; try done. injection Hatt as <- <- <-.
    destruct (decide (version t = v)) as [Hver|].
    2:{ exists A. apply inv_phase_step; [done|]. apply (conflict_ok _ _ _ a); [done|apply setPhase_eq]. }
    exists (u' :: A). by eapply update_inv.
Qed.

Lemma eviction_steps_inv c c' : initial c -> steps t0 c c' -> exists A, Inv A c'.
Proof.
  intros [Ht Hph] Hsteps. induction Hsteps as [|c1 now c2 Hsteps [A IH] Hstep Hnow]; [|by eapply eviction_step_inv].
  exists []. constructor.
  - intros u Hu. by apply not_elem_of_nil in Hu.
  - intros t E. destruct (Ht t E) as [H1 H2]. split; [done|]. intros Ho. exists ∅. split_and!; [auto| |].
    + intros k e. by rewrite lookup_empty.
    + intros u Hu. by apply not_elem_of_nil in Hu.
  - done.
  - intros h. unfold phaseOk. rewrite Hph. unfold startPhase. destruct (cached (requests h)) as [l|] eqn:El.
    + rewrite (sv_cached _ view h l El). split; [by exists l|done].
    + intros cl l [l' Hl]. congruence.
  - intros cl id Hid. by apply not_elem_of_nil in Hid.
Qed.

(** C10: concurrent evictions keep the budget. Let the requests of any number of
    webhook replicas interleave, with conflicts, retries and failures of the API server
    anywhere, until the first tracked entry can expire. Let those requests
    whose listing of the pods succeeded have seen the same pods; the requests
    whose listing failed are allowed by the handler without a check, they run
    along and the theorem promises nothing of them. Then some set of units was
    approved such that every allowed eviction, by a request that could list the pods, of
    a pod whose unit was ready is of an approved unit, and in every budget an
    approval was made from, the ready units that were not approved are at least
    as many as must stay available. *)
Theorem concurrent_evictions_safe c c' : initial c -> steps t0 c c' -> exists A,
  (forall h v p cl l, phases c' h = Answered (Allow v) -> cached (requests h) <> None -> p = target (requests h) -> budgetClass p = Some cl ->
     classTotal P cl <> 0 -> classUnits P cl !! classId p = Some l -> arePodsReady l = true -> classUnit cl (classId p) ∈ A) /\
  forall cl id, classUnit cl id ∈ A -> minAvailable P cl <= Z.of_nat (size (availableUnits P cl A)).
Proof.
  intros Hinit Hsteps. destruct (eviction_steps_inv c c' Hinit Hsteps) as [A [I1 I2 I3 I4 I5]]. exists A. split; [|done].
  intros h v p cl l Hv Hl -> Hcl Ht Hu Hr. pose proof (I4 h) as Hh. unfold phaseOk in Hh. rewrite Hv in Hh. apply (Hh cl l); try done.
  by apply not_eq_None_Some.
Qed.
End run.

(** ** The tracker is well typed *)

Section typed.
Context (GetScaledValueFromIntOrPercent : IntOrString -> Z -> bool -> option Z).
Context (ms : Serving) (strategy : EvictionStrategySpec) (ttl : Z) (requests : nat -> Request).

(** A unit of this model serving with names that can be parsed back. *)
Definition typedUnit (u : disruptionUnit) : Prop :=
  unitOk u /\ namespace u = servingNamespace ms /\ modelServing u = servingName ms.

Definition typedEntries (entries : disruptionEntries) : Prop :=
  forall k e, entries !! k = Some e -> exists u, typedUnit u /\ k = key u /\ parseDisruptionUnitKey k = Some u.

Definition typedPhase (p : Phase) : Prop :=
  match p with
  | Holding _ _ _ entries => typedEntries entries
  | Answered (Allow (Some u)) => typedUnit u
  | _ => True
  end.

Definition typedTracker (o : option Tracker) : Prop :=
  forall t entries, o = Some t -> owned t = true -> data t = Some entries -> typedEntries entries.

Definition typedCluster (c : Cluster) : Prop := typedTracker (tracker c) /\ forall h, typedPhase (phases c h).

(** The names of the model serving and the labels of the target pods. *)
Definition namesOk : Prop := noSlash (servingNamespace ms) /\ noSlash (servingName ms) /\ forall h, let p := target (requests h) in
  noSlash (podLabel p GroupNameLabelKey) /\ noSlash (podLabel p RoleLabelKey) /\ noSlash (podLabel p RoleIDKey).

Lemma typed_filter (Q : string * disruptionEntry -> Prop) `{!forall x, Decision (Q x)} entries :
  typedEntries entries -> typedEntries (filter Q entries).
Proof. intros Hty k e Hk. apply map_lookup_filter_Some in Hk as [Hk _]. by apply (Hty k e). Qed.

Lemma typed_cleanup p live now entries pods : typedEntries entries ->
  typedEntries (cleanupRecovered ms p live (cleanupDisruptionEntries now entries) pods).1.
Proof.
  intros Hty. apply (typed_filter (fun '(_, e) => now <= expiresAt e)) in Hty. fold (cleanupDisruptionEntries now entries) in Hty.
  unfold cleanupRecovered. apply (typed_filter (fun '(k, e) => recovered pods k e = false)) in Hty.
  fold (cleanupRecoveredDisruptionEntries pods (cleanupDisruptionEntries now entries)) in Hty.
  destruct (negb _); [done|]. destruct (liveModelServingPods ms live) as [l|]; [|done].
  assert (Hty' : typedEntries (cleanupRecoveredDisruptionEntries (includeTargetPod l p)
    (cleanupRecoveredDisruptionEntries pods (cleanupDisruptionEntries now entries)))) by by apply typed_filter.
  by destruct (bool_decide _).
Qed.

Lemma typed_attempt h now entries pods v entries' pods' : namesOk -> typedEntries entries ->
  attempt GetScaledValueFromIntOrPercent ms strategy ttl requests h now entries pods = (v, entries', pods') ->
  typedEntries entries' /\ forall u, v = Allow (Some u) -> typedUnit u.
Proof.
  intros (N1 & N2 & N3) Hty Hatt. specialize (N3 h). cbv zeta in N3. set (p := target (requests h)) in *. destruct N3 as (N3 & N4 & N5).
  unfold attempt, attemptOn in Hatt. pose proof (typed_cleanup p (listed (requests h)) now entries pods Hty) as Hcl. fold p in Hatt.
  destruct (cleanupRecovered _ _ _ _ _) as [cleaned pods1]. cbn [fst] in Hcl. rewrite checkProtection_class in Hatt.
  destruct (budgetClass strategy p) as [c|] eqn:Ec; [|injection Hatt as <- <- _; by split].
  destruct (decideBudget _ _ _ _ _ _ _ _ _) as [[u|]|d] eqn:Ed; [|injection Hatt as <- <- _; by split|injection Hatt as <- <- _; by split].
  injection Hatt as <- <- _. apply decideBudget_allow in Ed as (-> & _).
  assert (Hu : typedUnit (classUnit ms strategy c (classId strategy p))).
  { assert (Hempty : noSlash "") by (apply not_elem_of_nil).
    assert (Hlevels : noSlash ProtectionLevelRole /\ noSlash ProtectionLevelServingGroup)
      by (split; apply (bool_decide_unpack ("/"%char ∉ _)); vm_compute; exact I).
    destruct Hlevels as [L1 L2]. revert Ec. unfold budgetClass, classUnit, classId. case_bool_decide.
    - destruct (_ || _ || _); [done|]. intros [= <-]. split; [|done]. constructor; [|by left]. by repeat constructor.
    - destruct (bool_decide _); [done|]. intros [= <-]. split; [|done]. constructor; [|by right]. by repeat constructor. }
  split; [|by intros u [= <-]]. intros k e. rewrite lookup_insert_Some. intros [[<- _]|[_ Hk]]; [|by apply (Hcl k e)].
  eexists. split; [exact Hu|]. split; [done|]. apply parse_key, Hu.
Qed.

(** C31: the tracker is well typed. Every call of the API server by any request
    keeps every entry of the tracker, and of every copy a request holds, the key
    of a unit of this very model serving that parses back to that unit, and
    every approved unit is one. *)
Theorem tracker_well_typed c now c' : namesOk -> typedCluster c ->
  step GetScaledValueFromIntOrPercent ms strategy ttl requests c now c' -> typedCluster c'.
Proof.
  intros Hn [T1 T2] Hstep. assert (Hempty : typedEntries ∅) by (intros k e; by rewrite lookup_empty).
  assert (Hset : forall h p, typedPhase p -> forall h', typedPhase (setPhase h p (phases c) h'))
    by (intros h p Hp h'; unfold setPhase; by destruct (decide _)).
  assert (Hfresh : forall n o entries, typedEntries entries -> typedTracker (Some (MkTracker n o (Some entries))))
    by (by intros n o entries He t e [= <-] _ [= <-]).
  assert (Hconflict : forall a pods, typedPhase (conflict a pods)) by (intros a pods; unfold conflict; by destruct (_ <? _)%nat).
  destruct Hstep as [c now h a pods Hp | c now h p Hp -> | c now h a pods Hp | c now h a pods v t Hp Ht
    | c now h a pods v entries verdict entries' pods' Hp Hatt Hv | c now h a pods v entries u entries' pods' t Hp Hatt Ht].
  - split; [done|]. apply Hset. destruct (tracker c) as [t|]; [|done]. destruct (owned t) eqn:Eo; [|done].
    destruct (data t) as [entries|] eqn:Ed; [|done]. by apply (T1 t).
  - split; [done|]. by apply Hset.
  - destruct (tracker c) as [t|]; (split; [|by apply Hset]); [done|by apply Hfresh].
  - destruct (decide _); (split; [|by apply Hset]); [by apply Hfresh|done].
  - pose proof (T2 h) as Hh. rewrite Hp in Hh. destruct (typed_attempt h now entries pods _ _ _ Hn Hh Hatt) as [_ Hty].
    split; [done|]. apply Hset. destruct verdict as [[u|]|d]; [by apply Hty|done|done].
  - pose proof (T2 h) as Hh. rewrite Hp in Hh. destruct (typed_attempt h now entries pods _ _ _ Hn Hh Hatt) as [Hty Hty'].
    destruct (decide _); (split; [|by apply Hset; first [done|by apply Hty']]); [by apply Hfresh|done].
Qed.
End typed.

(** ** Two replicas racing for one budget *)

Definition demoServing : Serving := MkServing "default" "demo" "ms-uid" (Some 3) [].
Definition demoStrategy : EvictionStrategySpec := MkStrategy ProtectionLevelServingGroup (Some (IntVal 2)) None.
Definition scaled (v : IntOrString) (_ : Z) (_ : bool) : option Z := match v with IntVal n => Some n | StrVal _ => None end.

Definition demoPod (group uid : string) : Pod :=
  MkPod (MkMeta "default" (group ++ "-entry") uid {[ModelServingNameLabelKey := "demo"; GroupNameLabelKey := group]}
           [MkOwner GroupVersion "ModelServing" "demo" "ms-uid" true] None)
        (MkPodStatus PodRunning [("Ready", "True")] [] []).

Definition demoPods : list Pod := [demoPod "demo-0" "a"; demoPod "demo-1" "b"; demoPod "demo-2" "c"].
(** The lister fails for the third request. *)
Definition demoRequests (h : nat) : Request :=
  if decide (h = 2%nat) then MkRequest (demoPod "demo-2" "c") None None
  else MkRequest (if decide (h = 0%nat) then demoPod "demo-0" "a" else demoPod "demo-1" "b") (Some demoPods) None.
Definition demoStart : Cluster := MkCluster None 0 (fun h => startPhase demoServing demoStrategy (demoRequests h)).

Definition demoUnit (group : string) : disruptionUnit := servingGroupUnit demoServing group.
Definition demoEntries (now : Z) (group uid : string) : disruptionEntries := {[key (demoUnit group) := MkEntry (now + 60) uid (group ++ "-entry")]}.

(** Both replicas read the empty tracker; the first write wins, the second
    conflicts, reads again and is denied. *)
Definition demo1 : Cluster := MkCluster None 0 (setPhase 0 (Absent 0 demoPods) (phases demoStart)).
Definition demo2 : Cluster := MkCluster (Some (MkTracker 0 true (Some ∅))) 1 (setPhase 0 (Holding 0 demoPods 0 ∅) (phases demo1)).
Definition demo3 : Cluster := MkCluster (tracker demo2) 1 (setPhase 1 (Holding 0 demoPods 0 ∅) (phases demo2)).
Definition demo4 : Cluster := MkCluster (Some (MkTracker 1 true (Some (demoEntries 3 "demo-0" "a")))) 2
  (setPhase 0 (Answered (Allow (Some (demoUnit "demo-0")))) (phases demo3)).
Definition demo5 : Cluster := MkCluster (tracker demo4) 2 (setPhase 1 (conflict 0 demoPods) (phases demo4)).
Definition demo6 : Cluster := MkCluster (tracker demo5) 2 (setPhase 1 (Holding 1 demoPods 1 (demoEntries 3 "demo-0" "a")) (phases demo5)).
Definition demo7 : Cluster := MkCluster (tracker demo6) 2 (setPhase 1 (Answered (Deny BelowMinimum)) (phases demo6)).

Lemma demo_view : sameView demoServing demoStrategy demoRequests demoPods.
Proof.
  constructor.
  - intros h l Hl. unfold demoRequests in *. destruct (decide (h = 2%nat)); [discriminate Hl|]. injection Hl as <-. cbn [target listed]. destruct (decide (h = 0%nat)); vm_compute; reflexivity.
  - intros h l _ Hl. unfold demoRequests in Hl. by destruct (decide (h = 2%nat)); [|destruct (decide _)].
  - intros h _. unfold demoRequests. destruct (decide (h = 2%nat)); [right; right; left|]. cbn [target]. destruct (decide _); [left|right; left].
  - split; apply (bool_decide_unpack ("/"%char ∉ _)); vm_compute; exact I.
  - intros p Hp. unfold demoPods in Hp. repeat (apply elem_of_cons in Hp as [->|Hp]; [split_and!; try reflexivity;
      apply (bool_decide_unpack ("/"%char ∉ _)); vm_compute; exact I|]). by apply not_elem_of_nil in Hp.
Qed.

Lemma concurrent_evictions_safe_witness : exists c',
  steps scaled demoServing demoStrategy 60 demoRequests 0 demoStart c' /\
  phases c' 0%nat = Answered (Allow (Some (servingGroupUnit demoServing "demo-0"))) /\ phases c' 1%nat = Answered (Deny BelowMinimum) /\
  exists A, servingGroupUnit demoServing "demo-0" ∈ A /\
    2 <= Z.of_nat (size (availableUnits demoServing demoStrategy demoPods ("", "") A)).
Proof.
  assert (H : exists c', steps scaled demoServing demoStrategy 60 demoRequests 0 demoStart c' /\
    phases c' 0%nat = Answered (Allow (Some (servingGroupUnit demoServing "demo-0"))) /\ phases c' 1%nat = Answered (Deny BelowMinimum)).
  { exists demo7. split; [|split; reflexivity].
    apply (steps_snoc _ _ _ _ _ _ _ demo6 6 demo7); [|exact (step_answer scaled demoServing demoStrategy 60 demoRequests demo6 6 1 1 demoPods 1 _
      (Deny BelowMinimum) _ demoPods eq_refl ltac:(vm_compute; reflexivity) ltac:(discriminate))|lia].
    apply (steps_snoc _ _ _ _ _ _ _ demo5 5 demo6); [|exact (step_get scaled demoServing demoStrategy 60 demoRequests demo5 5 1 1 demoPods eq_refl)|lia].
    apply (steps_snoc _ _ _ _ _ _ _ demo4 4 demo5); [|exact (step_update scaled demoServing demoStrategy 60 demoRequests demo4 4 1 0 demoPods 0 ∅
      (demoUnit "demo-1") (demoEntries 4 "demo-1" "b") demoPods _ eq_refl ltac:(vm_compute; reflexivity) eq_refl)|lia].
    apply (steps_snoc _ _ _ _ _ _ _ demo3 3 demo4); [|exact (step_update scaled demoServing demoStrategy 60 demoRequests demo3 3 0 0 demoPods 0 ∅
      (demoUnit "demo-0") (demoEntries 3 "demo-0" "a") demoPods _ eq_refl ltac:(vm_compute; reflexivity) eq_refl)|lia].
    apply (steps_snoc _ _ _ _ _ _ _ demo2 2 demo3); [|exact (step_get scaled demoServing demoStrategy 60 demoRequests demo2 2 1 0 demoPods eq_refl)|lia].
    apply (steps_snoc _ _ _ _ _ _ _ demo1 1 demo2); [|exact (step_create scaled demoServing demoStrategy 60 demoRequests demo1 1 0 0 demoPods eq_refl)|lia].
    apply (steps_snoc _ _ _ _ _ _ _ demoStart 0 demo1); [apply steps_refl|exact (step_get scaled demoServing demoStrategy 60 demoRequests demoStart 0 0 0 demoPods eq_refl)|lia]. }
  destruct H as (c' & Hsteps & H0 & H1). exists c'. split; [exact Hsteps|]. split; [exact H0|]. split; [exact H1|].
  assert (Hinit : initial demoServing demoStrategy demoRequests demoStart) by (split; [intros t Ht; discriminate Ht|reflexivity]).
  destruct (concurrent_evictions_safe scaled demoServing demoStrategy 60 demoRequests demoPods 0 demo_view demoStart c' Hinit Hsteps) as (A & HA & Hb).
  exists A. assert (Hin : servingGroupUnit demoServing "demo-0" ∈ A).
  { refine (HA 0%nat _ (demoPod "demo-0" "a") ("", "") [demoPod "demo-0" "a"] H0 _ _ _ _ _ _); [discriminate|reflexivity|reflexivity|discriminate| |]; vm_compute; reflexivity. }
  split; [exact Hin|]. exact (Hb ("", "") "demo-0" Hin).
Defined.

(** A listing that fails lets an eviction pass while the budget is used up: of
    three groups two must stay, the first was approved, and the third goes
    unchecked. *)
Lemma failed_listing_unchecked :
  phases demo7 0%nat = Answered (Allow (Some (demoUnit "demo-0"))) /\ phases demo7 2%nat = Answered (Allow None) /\
  checkProtection scaled demoServing (demoPod "demo-2" "c") demoStrategy demoPods 6 (demoEntries 3 "demo-0" "a") = Deny BelowMinimum.
Proof. split_and!; vm_compute; reflexivity. Qed.

Lemma tracker_well_typed_witness : typedCluster demoServing demo3 /\ typedCluster demoServing demo4.
Proof.
  assert (He : typedEntries demoServing ∅) by (intros k e Hk; by rewrite lookup_empty in Hk).
  assert (H3 : typedCluster demoServing demo3).
  { split; [intros t entries Ht _ Hd; injection Ht as <-; injection Hd as <-; exact He|].
    intros h. unfold demo3, demo2, demo1, demoStart. cbn [phases]. unfold setPhase.
    destruct (decide (h = 1%nat)); [exact He|]. destruct (decide (h = 0%nat)); [exact He|unfold demoRequests; destruct (decide (h = 2%nat)); exact I]. }
  split; [exact H3|].
  refine (tracker_well_typed scaled demoServing demoStrategy 60 demoRequests demo3 3 demo4 _ H3
    (step_update scaled demoServing demoStrategy 60 demoRequests demo3 3 0 0 demoPods 0 ∅ (demoUnit "demo-0") (demoEntries 3 "demo-0" "a") demoPods _
       eq_refl ltac:(vm_compute; reflexivity) eq_refl)).
  split; [apply demo_view|]. split; [apply demo_view|]. intros h. cbv zeta.
  assert (Hin : target (demoRequests h) ∈ demoPods).
  { unfold demoRequests. destruct (decide (h = 2%nat)); [right; right; left|]. cbn [target]. destruct (decide _); [left|right; left]. }
  exact (proj2 (proj2 (sv_pods _ _ _ _ demo_view _ Hin))).
Defined.

(** ** The admission request *)

(** The lister first, then the API server. *)
Definition getFrom {A} (lister : option A) (live : getResult A) : getResult A :=
  match lister with Some x => Found x | None => live end.

Section admission.
(** What the lister and the API server know of a pod and of a model serving
    with its eviction strategy, and what they list of its pods. *)
Context (podLister : string -> string -> option Pod) (podLive : string -> string -> getResult Pod).
Context (msLister : string -> string -> option (Serving * option EvictionStrategySpec)).
Context (msLive : string -> string -> getResult (Serving * option EvictionStrategySpec)).
Context (podList : Serving -> option (list Pod)) (podListLive : Serving -> option (list Pod)).

(** Where a request stands before its first call for the tracker. *)
Definition checkEvictionWithTracker (ms : Serving) (strategy : EvictionStrategySpec) (pod : Pod) : Phase :=
  startPhase ms strategy (MkRequest pod (podList ms) (podListLive ms)).

Definition Handle (resource subResource ns name : string) : Phase :=
  if negb (bool_decide (resource = "pods"%string)) || negb (bool_decide (subResource = "eviction"%string)) then Answered (Allow None)
  else
    match getFrom (podLister ns name) (podLive ns name) with
    | Missing => Answered (Allow None)
    | Broken => Answered (Deny LookupFailed)
    | Found pod =>
      let msName := podLabel pod ModelServingNameLabelKey in
      if bool_decide (msName = ""%string) then Answered (Allow None)
      else
        match getFrom (msLister ns msName) (msLive ns msName) with
        | Missing => Answered (Allow None)
        | Broken => Answered (Deny LookupFailed)
        | Found (ms, strategy) =>
          if negb (isOwnedByCurrentModelServing (OwnerReferences (Meta pod)) ms) then Answered (Allow None)
          else match strategy with
               | None => Answered (Allow None)
               | Some strategy => checkEvictionWithTracker ms strategy pod
               end
        end
    end.

(** What is answered before the tracker is consulted: an eviction is allowed
    only if the pod is gone, if no current model serving with a strategy owns
    it, or if its pods cannot be listed; and denied only because the pod or
    its model serving cannot be read. *)
Lemma eviction_admission_exact ns name :
  match Handle "pods" "eviction" ns name with
  | Answered (Allow v) => v = None /\
    (getFrom (podLister ns name) (podLive ns name) = Missing \/
     exists pod, getFrom (podLister ns name) (podLive ns name) = Found pod /\ (podLabel pod ModelServingNameLabelKey = ""%string \/
       match getFrom (msLister ns (podLabel pod ModelServingNameLabelKey)) (msLive ns (podLabel pod ModelServingNameLabelKey)) with
       | Missing => True
       | Broken => False
       | Found (ms, strategy) => isOwnedByCurrentModelServing (OwnerReferences (Meta pod)) ms = false \/ strategy = None \/ podList ms = None
       end))
  | Answered (Deny d) => d = LookupFailed /\
    (getFrom (podLister ns name) (podLive ns name) = Broken \/
     exists pod, getFrom (podLister ns name) (podLive ns name) = Found pod /\
       getFrom (msLister ns (podLabel pod ModelServingNameLabelKey)) (msLive ns (podLabel pod ModelServingNameLabelKey)) = Broken)
  | Waiting attempt pods => attempt = 0%nat /\ exists pod ms strategy all,
      getFrom (podLister ns name) (podLive ns name) = Found pod /\ podLabel pod ModelServingNameLabelKey <> ""%string /\
      getFrom (msLister ns (podLabel pod ModelServingNameLabelKey)) (msLive ns (podLabel pod ModelServingNameLabelKey)) = Found (ms, Some strategy) /\
      isOwnedByCurrentModelServing (OwnerReferences (Meta pod)) ms = true /\ podList ms = Some all /\
      pods = startPods ms strategy pod all (podListLive ms)
  | _ => False
  end.
Proof.
  unfold Handle. rewrite !(bool_decide_true (_ = _)) by done. cbn [negb orb]. destruct (getFrom (podLister ns name) _) as [pod| |].
  2:{ split; [done|]. by left. } 2:{ split; [done|]. by left. }
  case_bool_decide as Hl; [split; [done|]; right; exists pod; by split; [|left]|].
  destruct (getFrom (msLister _ _) _) as [[ms strategy]| |] eqn:Em; cycle 1.
  - split; [done|]. right. exists pod. split; [done|]. right. by rewrite Em.
  - split; [done|]. right. by exists pod.
  - destruct (isOwnedByCurrentModelServing _ _) eqn:Eo; cbn [negb]; [|split; [done|]; right; exists pod; split; [done|]; right; rewrite Em; by left].
    destruct strategy as [strategy|]; [|split; [done|]; right; exists pod; split; [done|]; right; rewrite Em; right; by left].
    unfold checkEvictionWithTracker, startPhase. cbn [cached target listed]. destruct (podList ms) as [all|] eqn:Ep.
    + split; [done|]. by exists pod, ms, strategy, all.
    + split; [done|]. right. exists pod. split; [done|]. right. rewrite Em. by right; right.
Qed.
End admission.
