(* ===== verification/GroupRollout.v ===== *)
(** * pkg/model-serving-controller: the rolling update of serving groups

    model_serving_controller.go (syncServingGroupReplicas,
    manageRollingUpdateWithPolicy for whole groups, and what they call):
    every reconcile first brings the number of groups to the desired one, with
    the surge of a rolling update, and then replaces outdated groups as far as
    the budget of unavailable groups allows. *)
From S2P Require Import Prelude Effects Names ServingStore ServingPods InPlaceState RevisionHistory ServingStatus ScaleDown PodEvents PodCreation.
Local Open Scope Z_scope.

(** What a reconcile does to one group. A failed action may have been carried
    out in part. *)
Class GroupActions (W : Type) := {
  storeOf : W -> store;
  createGroup : Z -> string -> run W unit;
  deleteGroup : string -> run W unit;
  updatePodGroup : string -> run W unit;
}.

(** The rolling update configuration. *)
Record RollingUpdateConfiguration := MkRolling {
  rollingMaxUnavailable : option IntOrString;
  rollingMaxSurge : option IntOrString;
  rollingPartition : option IntOrString;
}.

Section rollout.
Context {W : Type} `{!GroupActions W}.
(** intstr.GetScaledValueFromIntOrPercent, slices.SortFunc of the scale-down,
    and the comparison of a group with the target. *)
Context (GetScaledValueFromIntOrPercent : IntOrString -> Z -> bool -> option Z) (SortFunc : list WithScore -> list WithScore).
Context (compare : store -> ServingGroup -> templateComparison).
(** The model serving: its name, its replicas, which the API server defaults,
    its configuration, whether it rolls by groups and whether in place, its
    recorded current revision and the target revision; [pods] lists the
    deletion costs of the pods of a group. *)
Context (key : NamespacedName) (replicas : Z) (config : RollingUpdateConfiguration) (groupRolling updatesInPlace : bool)
        (currentRevision target : string) (pods : string -> option (list (option string))).

Definition GetMaxUnavailable : option Z :=
  GetScaledValueFromIntOrPercent (default (IntVal 1) (rollingMaxUnavailable config)) replicas false.
Definition GetMaxSurge : option Z :=
  GetScaledValueFromIntOrPercent (default (IntVal 0) (rollingMaxSurge config)) replicas true.

Definition configuredPartition : option Z := getPartition GetScaledValueFromIntOrPercent (rollingPartition config) replicas.
(** Where its error is ignored. *)
Definition partitionOrZero : Z := default 0 configuredPartition.

(** A model serving without groups has none. *)
Definition groupsOf (w : W) : list ServingGroup :=
  match GetServingGroupByModelServing (storeOf w) key with inl groups => groups | inr _ => [] end.

(** The groups from the partition on. *)
Definition afterPartition (partition : Z) (groups : list ServingGroup) : list ServingGroup := drop (Z.to_nat partition) groups.

Definition isDifferent (s : store) (group : ServingGroup) : bool := bool_decide (compare s group = templateDifferent).

(** ** The number of groups *)

Definition anyOutdated (s : store) (partition : Z) (groups : list ServingGroup) : bool :=
  existsb (isDifferent s) (afterPartition partition groups).

Definition expectedGroups (s : store) (groups : list ServingGroup) : option Z :=
  if groupRolling then
    maxSurge ← GetMaxSurge;
    partition ← configuredPartition;
    Some (if (0 <? maxSurge) && negb updatesInPlace && anyOutdated s partition groups then replicas + maxSurge else replicas)
  else Some replicas.

Definition scaleUpRevision (partition ordinal : Z) : string :=
  if (ordinal <? partition) && negb (bool_decide (currentRevision = ""%string)) then currentRevision else target.

(** The handler of [forEachMissingOrdinal]: the flag is the error. *)
Definition createMissing (partition ordinal : Z) (st : W * bool) : bool * (W * bool) :=
  match createGroup ordinal (scaleUpRevision partition ordinal) st.1 with
  | (w, Some _) => (true, (w, false))
  | (w, None) => (false, (w, true))
  end.

Definition createUpTo (partition : Z) (groups : list ServingGroup) (expectedCount : Z) : run W unit := fun w =>
  let existingOrdinals := filter (fun o => 0 <= o) ((fun group => ordinalOf (GroupName group)) <$> groups) in
  match forEachMissingOrdinal (createMissing partition) expectedCount existingOrdinals (Z.max 0 (expectedCount - Z.of_nat (length groups))) (w, false) with
  | Some (w, failed) => (w, if failed : bool then None else Some ())
  | None => (w, None)
  end.

Definition scaleUpServingGroups (groups : list ServingGroup) (expectedCount : Z) : run W unit :=
  partition ← need configuredPartition;
  createUpTo partition groups expectedCount.

(** All deletions are attempted. *)
Fixpoint deleteEach (names : list string) : run W unit := fun w =>
  match names with
  | [] => (w, Some ())
  | name :: names =>
    let '(w, deleted) := deleteGroup name w in
    let '(w, others) := deleteEach names w in
    (w, match deleted, others with Some _, Some _ => Some () | _, _ => None end)
  end.

Definition scaleDownTo (groups : list ServingGroup) (expectedCount : Z) : run W unit := fun w =>
  deleteEach (scaleDownServingGroups SortFunc partitionOrZero (GetServingGroupStatus (storeOf w) key) pods (fun _ => false) groups expectedCount).1 w.

Definition updatePodGroups : run W unit := fun w =>
  forEach (fun group => updatePodGroup (GroupName group)) (filter (fun group => GroupStatus group <> ServingGroupDeleting) (groupsOf w)) w.

Definition scaleTo (groups : list ServingGroup) (expectedCount : Z) : run W unit :=
  if Z.of_nat (length groups) <? expectedCount then scaleUpServingGroups groups expectedCount
  else if expectedCount <? Z.of_nat (length groups) then scaleDownTo groups expectedCount
  else mret ().

Definition syncServingGroupReplicas : run W unit :=
  w ← call (fun w => (w, w));
  expectedCount ← need (expectedGroups (storeOf w) (groupsOf w));
  scaleTo (groupsOf w) expectedCount ≫= fun _ => updatePodGroups.

(** ** The replacement of outdated groups *)

Definition isRunningGroup (group : ServingGroup) : bool := bool_decide (GroupStatus group = ServingGroupRunning).

Definition runningOutdatedGroups (s : store) (groups : list ServingGroup) : list ServingGroup :=
  filter (fun group => isRunningGroup group = true /\ compare s group = templateDifferent) groups.
Definition notRunningOutdatedGroups (s : store) (groups : list ServingGroup) : list ServingGroup :=
  filter (fun group => isRunningGroup group = false /\ compare s group = templateDifferent) groups.

(** Groups that are not running and cannot be replaced to make up for it. *)
Definition newServingGroupUnavailableCount (s : store) (partition : Z) (groups : list ServingGroup) : Z :=
  Z.of_nat (length (filter (fun group => isRunningGroup group = false /\ compare s group = templateUnknown) (take (Z.to_nat partition) groups))) +
  Z.of_nat (length (filter (fun group => isRunningGroup group = false /\ compare s group <> templateDifferent) (afterPartition partition groups))).

Definition maxScaleDown (s : store) (partition maxUnavailable : Z) (groups : list ServingGroup) : Z :=
  let minAvailable := replicas - maxUnavailable in
  Z.of_nat (length groups) - minAvailable - newServingGroupUnavailableCount s partition groups.

(** The groups in the order in which they are updated: from the end. *)
Definition selectedGroups (s : store) (partition maxUnavailable : Z) (groups : list ServingGroup) : list ServingGroup :=
  let outdated := runningOutdatedGroups s (afterPartition partition groups) ++ notRunningOutdatedGroups s (afterPartition partition groups) in
  take (Z.to_nat (maxScaleDown s partition maxUnavailable groups)) (rev outdated).

(** [updateServingGroup]: a replacement or the start of an in-place update. *)
Context (updateServingGroup : ServingGroup -> run W unit).

Definition deleteOutdatedServingGroups (groups : list ServingGroup) : run W unit := forEach updateServingGroup groups.

(** [manageRollingUpdateWithPolicy] of a group rolling update, from the list of
    groups on. *)
Definition manageServingGroups : run W unit :=
  w ← call (fun w => (w, w));
  maxUnavailable ← need GetMaxUnavailable;
  deleteOutdatedServingGroups (selectedGroups (storeOf w) partitionOrZero maxUnavailable (groupsOf w)).

(** ** What a rolling update disturbs *)

(** Protected groups that are down and whose comparison is known. *)
Definition protectedDown (s : store) (partition : Z) (groups : list ServingGroup) : list ServingGroup :=
  filter (fun group => isRunningGroup group = false /\ compare s group <> templateUnknown) (take (Z.to_nat partition) groups).

Definition runningGroups (groups : list ServingGroup) : list ServingGroup := filter (fun group => isRunningGroup group = true) groups.

(** The groups that count as available or can be replaced for free. *)
Lemma maxScaleDown_counts s partition maxUnavailable groups :
  maxScaleDown s partition maxUnavailable groups =
    Z.of_nat (length (runningGroups groups)) + Z.of_nat (length (protectedDown s partition groups)) +
    Z.of_nat (length (notRunningOutdatedGroups s (afterPartition partition groups))) - (replicas - maxUnavailable).
Proof.
  unfold maxScaleDown, newServingGroupUnavailableCount, runningGroups, protectedDown, notRunningOutdatedGroups.
  set (front := take (Z.to_nat partition) groups). set (back := afterPartition partition groups).
  assert (Hl : groups = front ++ back) by (symmetry; apply take_drop).
  assert (Hc : forall l, length l = (length (filter (fun g => isRunningGroup g = true) l) + length (filter (fun g => isRunningGroup g = false) l))%nat).
  { intros l. induction l as [|g l IH]; [done|]. rewrite !filter_cons.
    repeat case_decide; try congruence; cbn [length]; try lia. by destruct (isRunningGroup g). }
  assert (Hd : forall (f : ServingGroup -> templateComparison) c l, length (filter (fun g => isRunningGroup g = false) l) =
    (length (filter (fun g => isRunningGroup g = false /\ f g = c) l) + length (filter (fun g => isRunningGroup g = false /\ f g <> c) l))%nat)
    by (intros; apply length_filter_split).
  rewrite Hl at 1 2. rewrite filter_app, !length_app. rewrite (Hc front), (Hc back), (Hd (compare s) templateUnknown front), (Hd (compare s) templateDifferent back). lia.
Qed.

(** The running groups that are updated exceed neither what is running nor the
    budget that the groups that are down leave. *)
Lemma selected_running s partition maxUnavailable groups :
  Z.of_nat (length (runningGroups (selectedGroups s partition maxUnavailable groups))) <=
    Z.max 0 (Z.of_nat (length (runningGroups groups)) + Z.of_nat (length (protectedDown s partition groups)) - (replicas - maxUnavailable)).
Proof.
  unfold selectedGroups. rewrite maxScaleDown_counts, rev_app_distr.
  set (a := runningOutdatedGroups _ _). set (b := notRunningOutdatedGroups _ _).
  set (k := Z.to_nat _). assert (Hk : (k <= Z.to_nat (Z.of_nat (length (runningGroups groups)) + Z.of_nat (length (protectedDown s partition groups)) - (replicas - maxUnavailable)) + length b)%nat) by (unfold k; lia).
  clearbody k. rewrite take_app. unfold runningGroups at 1. rewrite filter_app, length_app.
  rewrite (filter_none _ (take k (rev b))).
  - cbn [length]. pose proof (length_filter (fun g => isRunningGroup g = true) (take (k - length (rev b)) (rev a))).
    rewrite length_take, length_rev in *. lia.
  - apply Forall_forall. intros g Hg E. assert (Hin : g ∈ rev b) by (rewrite <- (take_drop k (rev b)); apply elem_of_app; by left).
    apply list_elem_of_In, in_rev, list_elem_of_In, list_elem_of_filter in Hin as [[E' _] _]. congruence.
Qed.

(** The groups are stored under their names. *)
Definition named (s : store) : Prop := forall name group, lookupGroup s key name = Some group -> GroupName group = name.

Lemma groupsOf_listing w : named (storeOf w) -> listing GroupName (default ∅ (storeOf w !! key)) (groupsOf w).
Proof.
  intros Hn. unfold groupsOf, GetServingGroupByModelServing, named, lookupGroup in *. destruct (storeOf w !! key) as [groups|]; cbn.
  - apply listing_sorted; [done|]. intros name group. apply Hn.
  - split; [constructor|]. split; [constructor|]. split; [intros x; by rewrite elem_of_nil, lookup_empty|]. intros l' Hl' _ _. by apply Permutation_nil.
Qed.

Lemma groupsOf_lookup w group : named (storeOf w) -> group ∈ groupsOf w <-> lookupGroup (storeOf w) key (GroupName group) = Some group.
Proof.
  intros Hn. destruct (groupsOf_listing w Hn) as (_ & _ & H & _). rewrite H. unfold lookupGroup. by destruct (storeOf w !! key).
Qed.

Lemma groupsOf_nodup w : named (storeOf w) -> NoDup (GroupName <$> groupsOf w).
Proof. intros Hn. apply (groupsOf_listing w Hn). Qed.

Lemma selected_outdated s partition maxUnavailable groups group : group ∈ selectedGroups s partition maxUnavailable groups ->
  group ∈ afterPartition partition groups /\ compare s group = templateDifferent.
Proof.
  intros Hin. unfold selectedGroups in Hin. apply elem_of_take in Hin as (i & Hi & _). apply list_elem_of_lookup_2 in Hi. rename Hi into Hin.
  apply list_elem_of_In, in_rev, list_elem_of_In, elem_of_app in Hin as [Hin|Hin]; apply list_elem_of_filter in Hin as [[_ Hc] Hin]; by split.
Qed.

Lemma afterPartition_elem partition groups group : group ∈ afterPartition partition groups -> group ∈ groups.
Proof. intros Hin. rewrite <- (take_drop (Z.to_nat partition) groups). apply elem_of_app. by right. Qed.

Section disturbance.
(** An update touches the entry of its own group only. *)
Hypothesis update_others : forall group w name, name <> GroupName group ->
  lookupGroup (storeOf (updateServingGroup group w).1) key name = lookupGroup (storeOf w) key name.

Lemma updates_others l w name : name ∉ GroupName <$> l ->
  lookupGroup (storeOf (forEach updateServingGroup l w).1) key name = lookupGroup (storeOf w) key name.
Proof using update_others.
  revert w. induction l as [|group l IH]; intros w Hn; [done|]. rewrite fmap_cons, not_elem_of_cons in Hn. destruct Hn as [Hn Hl].
  cbn [forEach]. unfold mbind, run_bind. pose proof (update_others group w name Hn) as Hu. destruct (updateServingGroup group w) as [w' [[]|]]; [|done].
  rewrite <- Hu. by apply IH.
Qed.

Lemma status_of_lookup w w' name : lookupGroup (storeOf w') key name = lookupGroup (storeOf w) key name ->
  GetServingGroupStatus (storeOf w') key name = GetServingGroupStatus (storeOf w) key name.
Proof. unfold GetServingGroupStatus. by intros ->. Qed.

Definition runs (w : W) (name : string) : Prop := GetServingGroupStatus (storeOf w) key name = ServingGroupRunning.
#[local] Instance runs_dec w name : Decision (runs w name).
Proof. unfold runs. apply _. Defined.

(** What one round of a rolling update disturbs. *)
Record disturbance (w w' : W) (partition maxUnavailable : Z) (chosen : list ServingGroup) : Prop := {
  chosen_outdated group : group ∈ chosen -> group ∈ afterPartition partition (groupsOf w) /\ compare (storeOf w) group = templateDifferent;
  chosen_once : NoDup (GroupName <$> chosen);
  chosen_in_order : exists rest, runningOutdatedGroups (storeOf w) (afterPartition partition (groupsOf w)) ++
    notRunningOutdatedGroups (storeOf w) (afterPartition partition (groupsOf w)) = rest ++ rev chosen;
  others_untouched name : name ∉ GroupName <$> chosen -> lookupGroup (storeOf w') key name = lookupGroup (storeOf w) key name;
  still_running : Z.of_nat (length (filter (fun group => runs w' (GroupName group)) (groupsOf w))) >=
    Z.min (Z.of_nat (length (filter (fun group => runs w (GroupName group)) (groupsOf w))))
          (replicas - maxUnavailable - Z.of_nat (length (protectedDown (storeOf w) partition (groupsOf w))));
}.

Lemma chosen_distinct w partition maxUnavailable : named (storeOf w) ->
  NoDup (GroupName <$> selectedGroups (storeOf w) partition maxUnavailable (groupsOf w)).
Proof.
  intros Hn. unfold selectedGroups. rewrite fmap_take. eapply sublist_NoDup; [|apply sublist_take]. rewrite <- (Permutation_rev _), fmap_app.
  assert (Hnd : NoDup (GroupName <$> afterPartition partition (groupsOf w))) by (unfold afterPartition; rewrite fmap_drop; eapply sublist_NoDup; [by apply groupsOf_nodup|apply sublist_drop]).
  apply NoDup_app. split_and!.
  - eapply sublist_NoDup; [exact Hnd|]. apply fmap_sublist, sublist_filter.
  - intros name Ha Hb. apply list_elem_of_fmap in Ha as (a & -> & Ha), Hb as (b & E & Hb). apply list_elem_of_filter in Ha as [[Ha _] Ha'], Hb as [[Hb _] Hb'].
    apply afterPartition_elem, groupsOf_lookup in Ha', Hb'; [|done..]. rewrite E in Ha'. rewrite Ha' in Hb'. congruence.
  - eapply sublist_NoDup; [exact Hnd|]. apply fmap_sublist, sublist_filter.
Qed.

Lemma runs_listed w group : named (storeOf w) -> group ∈ groupsOf w -> runs w (GroupName group) <-> isRunningGroup group = true.
Proof. intros Hn Hin. apply groupsOf_lookup in Hin; [|done]. unfold runs, GetServingGroupStatus. rewrite Hin. cbn. symmetry. apply bool_decide_eq_true. Qed.

(** The running groups that are not chosen run on. *)
Lemma running_remain w w' chosen : named (storeOf w) -> chosen ⊆ groupsOf w -> NoDup (GroupName <$> chosen) ->
  (forall name, name ∉ GroupName <$> chosen -> lookupGroup (storeOf w') key name = lookupGroup (storeOf w) key name) ->
  (length (runningGroups (groupsOf w)) <= length (filter (fun group => runs w' (GroupName group)) (groupsOf w)) + length (runningGroups chosen))%nat.
Proof.
  intros Hn Hsub Hnd Hothers. unfold runningGroups at 1. rewrite (length_filter_split _ (fun group => GroupName group ∈ GroupName <$> chosen)).
  assert (Hg : NoDup (groupsOf w)) by (eapply NoDup_fmap_1, groupsOf_nodup, Hn).
  assert (H1 : (length (filter (fun group => isRunningGroup group = true /\ GroupName group ∉ GroupName <$> chosen) (groupsOf w)) <=
                length (filter (fun group => runs w' (GroupName group)) (groupsOf w)))%nat).
  { apply submseteq_length, NoDup_submseteq; [by apply NoDup_filter|]. intros group. rewrite !list_elem_of_filter. intros [[Hr Hc] Hin].
    split; [|done]. unfold runs. rewrite (status_of_lookup _ _ _ (Hothers _ Hc)). by apply runs_listed. }
  assert (H2 : (length (filter (fun group => isRunningGroup group = true /\ GroupName group ∈ GroupName <$> chosen) (groupsOf w)) <= length (runningGroups chosen))%nat).
  { apply submseteq_length, NoDup_submseteq; [by apply NoDup_filter|]. intros group. unfold runningGroups. rewrite !list_elem_of_filter.
    intros [[Hr Hc] Hin]. split; [done|]. apply list_elem_of_fmap in Hc as (other & E & Hc). pose proof (Hsub _ Hc) as Hin'.
    apply groupsOf_lookup in Hin, Hin'; [|done..]. rewrite E in Hin. rewrite Hin in Hin'. by injection Hin' as ->. }
  lia.
Qed.

(** A round of a rolling update of serving groups stays within its budget.
    It updates only groups that are known to differ from the target and whose
    index is not below the partition, none twice, those that are not running
    first and then the running ones from the highest ordinal down, and it
    touches no other group, even when an update fails in the middle. The groups
    that keep running are as many as ran before or at least the replicas minus
    the groups that may be unavailable, except for what the protected groups
    that are down leave open. Without a valid budget nothing is touched. *)
Theorem rollout_disrupts_within_budget w : named (storeOf w) ->
  let w' := (manageServingGroups w).1 in
  match GetMaxUnavailable with
  | None => w' = w /\ (manageServingGroups w).2 = None
  | Some maxUnavailable => exists chosen, disturbance w w' partitionOrZero maxUnavailable chosen
  end.
Proof using update_others.
  intros Hn w'. unfold w', manageServingGroups. destruct GetMaxUnavailable as [maxUnavailable|]; [|done].
  set (chosen := selectedGroups (storeOf w) partitionOrZero maxUnavailable (groupsOf w)). exists chosen.
  set (w2 := (_ : W * option unit).1). change w2 with (forEach updateServingGroup chosen w).1. clear w2.
  assert (Hsub : chosen ⊆ groupsOf w) by (intros group Hin; by eapply afterPartition_elem, selected_outdated).
  assert (Hnd : NoDup (GroupName <$> chosen)) by by apply chosen_distinct.
  split.
  - intros group. apply selected_outdated.
  - done.
  - unfold chosen, selectedGroups. set (outdated := runningOutdatedGroups _ _ ++ _). exists (rev (drop (Z.to_nat (maxScaleDown (storeOf w) partitionOrZero maxUnavailable (groupsOf w))) (rev outdated))).
    by rewrite <- rev_app_distr, take_drop, rev_involutive.
  - intros name. apply updates_others.
  - pose proof (running_remain w _ chosen Hn Hsub Hnd (fun name => updates_others chosen w name)) as Hr.
    pose proof (selected_running (storeOf w) partitionOrZero maxUnavailable (groupsOf w)) as Hs. fold chosen in Hs.
    rewrite (filter_ext_in (fun group => runs w (GroupName group)) (fun group => isRunningGroup group = true)) by (intros group Hin; by apply runs_listed).
    fold (runningGroups (groupsOf w)). lia.
Qed.
End disturbance.
End rollout.
