(* ===== verification/GroupRounds.v ===== *)
(** * pkg/model-serving-controller: the rounds of a rolling update of serving groups

    The reconciles of GroupRollout run one after the other, and between two of
    them the groups that are going disappear and the others become ready. *)
From S2P Require Import Prelude Effects Names ServingStore ServingStatus ScaleDown GroupRollout.
Local Open Scope Z_scope.

(** A group as a creation leaves it. *)
Record freshGroup (name revision : string) (group : ServingGroup) : Prop := {
  fresh_name : GroupName group = name;
  fresh_revision : GroupRevision group = revision;
  fresh_status : GroupStatus group = ServingGroupCreating;
  fresh_roles role m i r : roles group !! role = Some m -> m !! i = Some r -> RoleRevision r = revision;
}.

(** What the rounds rely on: an action changes the entry of its own group only;
    a creation without error stores a fresh group, and a deletion removes a
    group or marks it. *)
Class GroupActionsLaws {W : Type} `{!GroupActions W} (key : NamespacedName) : Prop := {
  create_others o r w name : name <> GenerateServingGroupName (Name key) o ->
    lookupGroup (storeOf (createGroup o r w).1) key name = lookupGroup (storeOf w) key name;
  create_this o r w : let name := GenerateServingGroupName (Name key) o in
    lookupGroup (storeOf w) key name = None -> (createGroup o r w).2 = Some () ->
    exists group, lookupGroup (storeOf (createGroup o r w).1) key name = Some group /\ freshGroup name r group;
  delete_others g w name : name <> g -> lookupGroup (storeOf (deleteGroup g w).1) key name = lookupGroup (storeOf w) key name;
  delete_this g w : (forall group, lookupGroup (storeOf w) key g = Some group -> GroupStatus group <> ServingGroupNotFound) ->
    lookupGroup (storeOf (deleteGroup g w).1) key g = None \/
    exists group, lookupGroup (storeOf w) key g = Some group /\
      lookupGroup (storeOf (deleteGroup g w).1) key g = Some (set_status group ServingGroupDeleting);
  pod_group_only g w : storeOf (updatePodGroup g w).1 = storeOf w;
}.

Section rounds.
Context {W : Type} `{!GroupActions W} (key : NamespacedName) `{laws : !GroupActionsLaws key}.

Abbreviation look w name := (lookupGroup (storeOf w) key name).

(** ** What the operations do to the entries *)

(** What an entry may have become by a deletion. *)
Definition gone (x y : option ServingGroup) : Prop :=
  y = None \/ exists group, x = Some group /\ y = Some (set_status group ServingGroupDeleting).

Lemma gone_trans x y z : gone x y -> gone y z -> gone x z.
Proof.
  intros [->|(g & -> & ->)] [->|(g' & E & ->)]; [by left|done|by left|]. injection E as <-. right. by exists g.
Qed.

(** The entries with the names are gone, the others are as before. *)
Definition removes (names : list string) (w w' : W) : Prop :=
  forall name, if decide (name ∈ names) then gone (look w name) (look w' name) else look w' name = look w name.

(** No group is stored as one that is not found. *)
Definition found (w : W) : Prop := forall name group, look w name = Some group -> GroupStatus group <> ServingGroupNotFound.

Lemma removes_found names w w' : removes names w w' -> found w -> found w'.
Proof.
  intros Hr Hf name group Hl. specialize (Hr name). case_decide; [|rewrite Hr in Hl; by eapply Hf].
  destruct Hr as [Hr|(g & _ & Hr)]; rewrite Hr in Hl; [done|]. by injection Hl as <-.
Qed.

Lemma deleteGroup_removes g w : found w -> removes [g] w (deleteGroup g w).1.
Proof using laws.
  intros Hf name. case_decide as Hin.
  - apply list_elem_of_singleton in Hin as ->. destruct (delete_this g w) as [->|(group & E & ->)]; [intros group; apply Hf|by left|]. right. by exists group.
  - apply delete_others. intros ->. apply Hin. by left.
Qed.

Lemma removes_trans a b w w' w'' : removes a w w' -> removes b w' w'' -> removes (a ++ b) w w''.
Proof.
  intros Ha Hb name. specialize (Ha name). specialize (Hb name). destruct (decide (name ∈ b)) as [Hin|Hin].
  - rewrite decide_True by set_solver. case_decide; [by eapply gone_trans|]. by rewrite <- Ha.
  - rewrite Hb. case_decide; [rewrite decide_True by set_solver; done|]. by rewrite decide_False by set_solver.
Qed.

Lemma removes_nil w w' : (forall name, look w' name = look w name) -> removes [] w w'.
Proof. intros H name. rewrite decide_False by (by apply not_elem_of_nil). apply H. Qed.

Lemma deleteEach_removes names : forall w, found w -> removes names w (deleteEach names w).1.
Proof using laws.
  induction names as [|name names IH]; intros w Hf; cbn [deleteEach]; [by apply removes_nil|].
  pose proof (deleteGroup_removes name w Hf) as H1. destruct (deleteGroup name w) as [w1 deleted]. specialize (IH w1 (removes_found _ _ _ H1 Hf)).
  destruct (deleteEach names w1) as [w2 others]. exact (removes_trans [name] names w w1 w2 H1 IH).
Qed.

(** Deletions up to the first error. *)
Lemma deletes_removes l : forall w, found w -> (forEach (fun group => deleteGroup (GroupName group)) l w).2 = Some () ->
  removes (GroupName <$> l) w (forEach (fun group => deleteGroup (GroupName group)) l w).1.
Proof using laws.
  induction l as [|group l IH]; intros w Hf; cbn [forEach fmap list_fmap]; [intros _; by apply removes_nil|].
  unfold mbind, run_bind. pose proof (deleteGroup_removes (GroupName group) w Hf) as H1. destruct (deleteGroup (GroupName group) w) as [w1 [[]|]]; [|done].
  intros Hr. exact (removes_trans [GroupName group] _ w w1 _ H1 (IH w1 (removes_found _ _ _ H1 Hf) Hr)).
Qed.

(** The entries gain fresh groups for the ordinals. *)
Definition adds (revisionOf : Z -> string) (ordinals : list Z) (w w' : W) : Prop :=
  (forall o, o ∈ ordinals -> exists group, look w' (GenerateServingGroupName (Name key) o) = Some group /\
     freshGroup (GenerateServingGroupName (Name key) o) (revisionOf o) group) /\
  forall name, name ∉ GenerateServingGroupName (Name key) <$> ordinals -> look w' name = look w name.

Lemma create_adds (currentRevision target : string) partition ordinals : forall w w' failed go,
  NoDup (GenerateServingGroupName (Name key) <$> ordinals) ->
  (forall o, o ∈ ordinals -> look w (GenerateServingGroupName (Name key) o) = None) ->
  visitWhile (createMissing currentRevision target partition) ordinals (w, false) = (go, (w', failed)) -> failed = false ->
  adds (scaleUpRevision currentRevision target partition) ordinals w w'.
Proof using laws.
  induction ordinals as [|o ordinals IH]; intros w w' failed go Hnd Hnew; cbn [visitWhile].
  - intros [= _ <- _] _. split; [intros o Ho; by apply not_elem_of_nil in Ho|done].
  - rewrite fmap_cons, NoDup_cons in Hnd. destruct Hnd as [Ho Hnd]. unfold createMissing at 1. cbn [fst].
    pose proof (create_this o (scaleUpRevision currentRevision target partition o) w (Hnew o ltac:(by left))) as Ht.
    pose proof (fun name => create_others o (scaleUpRevision currentRevision target partition o) w name) as Hoth.
    destruct (createGroup o _ w) as [w1 [[]|]]; [|by intros [= _ _ <-]]. cbn [fst snd] in *. specialize (Ht eq_refl). intros E Hf.
    destruct (IH w1 w' failed go Hnd) as [I1 I2]; [| exact E|done|].
    + intros o' Ho'. rewrite Hoth; [apply Hnew; by right|]. intros Eo. apply Ho. rewrite <- Eo. by apply list_elem_of_fmap_2.
    + split.
      * intros o' [->|Ho']%elem_of_cons; [|by apply I1]. by rewrite (I2 _ Ho).
      * intros name Hn. rewrite fmap_cons, not_elem_of_cons in Hn. destruct Hn as [Hn1 Hn2]. rewrite (I2 _ Hn2). by apply Hoth.
Qed.

Lemma updatePodGroups_same w : storeOf (updatePodGroups key w).1 = storeOf w.
Proof using laws.
  unfold updatePodGroups. set (l := filter _ _). clearbody l. revert w. induction l as [|group l IH]; intros w; [done|]. cbn [forEach].
  unfold mbind, run_bind. pose proof (pod_group_only (GroupName group) w) as H. destruct (updatePodGroup (GroupName group) w) as [w1 [[]|]]; [|done].
  cbn [fst] in H. rewrite <- H. apply IH.
Qed.

(** ** One round *)

Section configured.
Context (GetScaledValueFromIntOrPercent : IntOrString -> Z -> bool -> option Z) (SortFunc : list WithScore -> list WithScore).
Context (compare : store -> ServingGroup -> templateComparison) (replicas : Z) (config : RollingUpdateConfiguration).
Context (currentRevision target : string) (pods : string -> option (list (option string))).

(** The reconcile of a group rolling update that recreates. *)
Definition reconcileGroups : run W unit :=
  syncServingGroupReplicas GetScaledValueFromIntOrPercent SortFunc compare key replicas config true false currentRevision target pods ≫= fun _ =>
  manageServingGroups GetScaledValueFromIntOrPercent compare key replicas config (fun group => deleteGroup (GroupName group)).

Definition settledGroup (group : ServingGroup) : option ServingGroup :=
  if bool_decide (GroupStatus group = ServingGroupDeleting) then None else Some (set_status group ServingGroupRunning).

Definition settles (w w' : W) : Prop := forall name, look w' name = look w name ≫= settledGroup.

(** The groups whose comparison with the target is resolved. *)
Context (known : ServingGroup -> Prop).
Hypothesis known_found : forall group, known group -> GroupStatus group <> ServingGroupNotFound.

Inductive round (w w' : W) : Prop :=
| Round w1 : reconcileGroups w = (w1, Some ()) -> settles w1 w' -> round w w'.

(** ** Names and ordinals *)

Definition wellNamed (w : W) : Prop := forall name group, look w name = Some group ->
  GroupName group = name /\ (exists o, 0 <= o <= MaxInt32 /\ name = GenerateServingGroupName (Name key) o) /\ known group.

Hypothesis name_parses : name_ok (Name key).

Lemma ordinal_generated o : 0 <= o <= MaxInt32 -> ordinalOf (GenerateServingGroupName (Name key) o) = o.
Proof using name_parses. intros Ho. unfold ordinalOf, GenerateServingGroupName. by rewrite parent_ordinal. Qed.

Lemma wellNamed_found w : wellNamed w -> found w.
Proof using known_found. intros Hw name group Hl. apply known_found. by destruct (Hw name group Hl) as (_ & _ & ?). Qed.

Lemma wellNamed_named w : wellNamed w -> named key (storeOf w).
Proof. intros Hw name group Hl. by destruct (Hw name group Hl). Qed.

Abbreviation groups w := (groupsOf key w).
Definition names (w : W) : list string := GroupName <$> groups w.

Lemma names_look w name : wellNamed w -> name ∈ names w <-> is_Some (look w name).
Proof.
  intros Hw. unfold names. rewrite list_elem_of_fmap. split.
  - intros (group & -> & Hin). apply groupsOf_lookup in Hin; [by eexists|by apply wellNamed_named].
  - intros [group Hl]. destruct (Hw _ _ Hl) as [E _]. exists group. split; [done|]. apply groupsOf_lookup; [by apply wellNamed_named|]. by rewrite E.
Qed.

Lemma names_nodup w : wellNamed w -> NoDup (names w).
Proof. intros Hw. by apply groupsOf_nodup, wellNamed_named. Qed.

Lemma names_ordinal w name : wellNamed w -> name ∈ names w -> 0 <= ordinalOf name <= MaxInt32 /\ name = GenerateServingGroupName (Name key) (ordinalOf name).
Proof using name_parses.
  intros Hw Hin. apply (names_look w name Hw) in Hin as [group Hl]. destruct (Hw _ _ Hl) as [_ [(o & Ho & ->) _]]. by rewrite ordinal_generated.
Qed.

(** The number of groups with a lower ordinal: the index in the list. *)
Definition rank (w : W) (name : string) : nat := length (filter (fun other => ordinalOf other < ordinalOf name) (names w)).

Lemma rank_mono w w' name : wellNamed w -> names w ⊆ names w' -> (rank w name <= rank w' name)%nat.
Proof.
  intros Hw Hs. unfold rank. apply submseteq_length, NoDup_submseteq; [by apply NoDup_filter, names_nodup|].
  intros other. rewrite !list_elem_of_filter. intros [Ho Hin]. split; [done|by apply Hs].
Qed.

Lemma rank_ordinal w name : wellNamed w -> Z.of_nat (rank w name) <= Z.max 0 (ordinalOf name).
Proof using name_parses.
  intros Hw. unfold rank. set (l := filter _ _).
  assert (Hl : NoDup (ordinalOf <$> l)).
  { apply NoDup_fmap_2_strong; [|by apply NoDup_filter, names_nodup]. intros a b Ha Hb E. apply list_elem_of_filter in Ha as [_ Ha], Hb as [_ Hb].
    apply (names_ordinal w a Hw) in Ha as [_ ->]. apply (names_ordinal w b Hw) in Hb as [_ ->]. by rewrite E. }
  pose proof (submseteq_length (ordinalOf <$> l) (seqZ 0 (ordinalOf name))) as Hlen. rewrite length_fmap, length_seqZ in Hlen.
  enough (ordinalOf <$> l ⊆+ seqZ 0 (ordinalOf name)) by (specialize (Hlen H); lia).
  apply NoDup_submseteq; [done|]. intros o Ho. apply list_elem_of_fmap in Ho as (other & -> & Hin). apply list_elem_of_filter in Hin as [Hlt Hin].
  apply (names_ordinal w other Hw) in Hin as [Hb _]. apply elem_of_seqZ. lia.
Qed.

(** An element of a list sorted by strictly ascending keys is preceded by those with lower keys. *)
Lemma sorted_index {A} (f : A -> Z) (l : list A) i x : StronglySorted (fun a b => f a <= f b) l -> NoDup (f <$> l) -> l !! i = Some x ->
  length (filter (fun y => f y < f x) l) = i.
Proof.
  revert i. induction l as [|y l IH]; intros i Hs Hnd Hi; [done|]. inversion Hs as [|? ? Hs' Hall]; subst. rewrite fmap_cons, NoDup_cons in Hnd.
  destruct Hnd as [Hy Hnd]. rewrite filter_cons. destruct i as [|i]; cbn in Hi.
  - injection Hi as <-. rewrite decide_False by lia. rewrite filter_none; [done|]. eapply Forall_impl; [exact Hall|]. cbn. lia.
  - assert (Hx : x ∈ l) by (by eapply list_elem_of_lookup_2). rewrite Forall_forall in Hall. pose proof (Hall x Hx).
    rewrite decide_True; [cbn [length]; f_equal; by apply IH|]. enough (f y <> f x) by lia. intros E. apply Hy. rewrite E. by apply list_elem_of_fmap_2.
Qed.

Lemma groups_ordinals_nodup w : wellNamed w -> NoDup ((fun group => ordinalOf (GroupName group)) <$> groups w).
Proof using name_parses.
  intros Hw. rewrite (list_fmap_compose GroupName ordinalOf). apply NoDup_fmap_2_strong; [|by apply names_nodup]. intros a b Ha Hb E.
  apply (names_ordinal w a Hw) in Ha as [_ ->]. apply (names_ordinal w b Hw) in Hb as [_ ->]. by rewrite E.
Qed.

Lemma afterPartition_rank w p group : wellNamed w ->
  group ∈ afterPartition p (groups w) <-> group ∈ groups w /\ (Z.to_nat p <= rank w (GroupName group))%nat.
Proof using name_parses.
  intros Hw. pose proof (groupsOf_listing key w (wellNamed_named w Hw)) as (Hs & _). pose proof (groups_ordinals_nodup w Hw) as Hnd.
  assert (Hrank : forall i, groups w !! i = Some group -> rank w (GroupName group) = i).
  { intros i Hi. rewrite <- (sorted_index _ _ _ _ Hs Hnd Hi). unfold rank, names. by rewrite filter_fmap, length_fmap. }
  unfold afterPartition. split.
  - intros Hin. apply list_elem_of_lookup in Hin as [i Hi]. rewrite lookup_drop in Hi. rewrite (Hrank _ Hi). split; [by eapply list_elem_of_lookup_2|lia].
  - intros [Hin Hr]. apply list_elem_of_lookup in Hin as [i Hi]. rewrite (Hrank _ Hi) in Hr. apply list_elem_of_lookup. exists (i - Z.to_nat p)%nat.
    rewrite lookup_drop. replace (Z.to_nat p + (i - Z.to_nat p))%nat with i by lia. done.
Qed.

(** ** What a reconcile does *)

Hypothesis SortFunc_perm : forall l, SortFunc l ≡ₚ l.
Hypothesis SortFunc_sorted : forall l, StronglySorted notGreater (SortFunc l).
Context (partition maxUnavailable maxSurge : Z).
Hypothesis partition_ok : configuredPartition GetScaledValueFromIntOrPercent replicas config = Some partition.
Hypothesis maxUnavailable_ok : GetMaxUnavailable GetScaledValueFromIntOrPercent replicas config = Some maxUnavailable.
Hypothesis maxSurge_ok : GetMaxSurge GetScaledValueFromIntOrPercent replicas config = Some maxSurge.
Hypothesis replicas_nonneg : 0 <= replicas.
Hypothesis maxUnavailable_nonneg : 0 <= maxUnavailable.
Hypothesis maxSurge_nonneg : 0 <= maxSurge.
Hypothesis fits_int32 : replicas + maxSurge <= MaxInt32.

Abbreviation count w := (Z.of_nat (length (groups w))).

(** An outdated group that may be updated. *)
Definition active (w : W) : bool := anyOutdated compare (storeOf w) partition (groups w).

Definition expectedCount (w : W) : Z := if (0 <? maxSurge) && active w then replicas + maxSurge else replicas.

Lemma expected_count w : expectedGroups GetScaledValueFromIntOrPercent compare replicas config true false (storeOf w) (groups w) = Some (expectedCount w).
Proof using partition_ok maxSurge_ok.
  unfold expectedGroups, expectedCount, active. rewrite partition_ok, maxSurge_ok. cbn. by rewrite andb_true_r.
Qed.

Lemma missing_length existing n : 0 <= n -> n - Z.of_nat (length existing) <= Z.of_nat (length (missing existing 0 n)).
Proof.
  intros Hn. unfold missing.
  assert (Hl : length (seqZ 0 n) = (length (filter (fun o => o ∈ existing) (seqZ 0 n)) + length (filter (fun o => o ∉ existing) (seqZ 0 n)))%nat).
  { generalize (seqZ 0 n). intros l. induction l as [|o l IH]; [done|]. rewrite !filter_cons. repeat case_decide; try done; cbn [length]; lia. }
  rewrite length_seqZ in Hl.
  assert (Hi : (length (filter (fun o => o ∈ existing) (seqZ 0 n)) <= length existing)%nat).
  { apply submseteq_length, NoDup_submseteq; [apply NoDup_filter, NoDup_seqZ|]. intros o Ho. by apply list_elem_of_filter in Ho as [Ho _]. }
  lia.
Qed.

Record added (w w1 : W) (ordinals : list Z) : Prop := {
  added_adds : adds (scaleUpRevision currentRevision target partition) ordinals w w1;
  added_once : NoDup (GenerateServingGroupName (Name key) <$> ordinals);
  added_range o : o ∈ ordinals -> 0 <= o < expectedCount w /\ GenerateServingGroupName (Name key) o ∉ names w;
  added_count : count w + Z.of_nat (length ordinals) = expectedCount w;
}.

Record removed (w w1 : W) (victims : list string) : Prop := {
  removed_removes : removes victims w w1;
  removed_once : NoDup victims;
  removed_names : victims ⊆ names w;
  removed_count : count w - Z.of_nat (length victims) = expectedCount w;
}.

Lemma scale_up_effect w w1 : wellNamed w -> count w < expectedCount w -> expectedCount w <= MaxInt32 ->
  scaleUpServingGroups GetScaledValueFromIntOrPercent replicas config currentRevision target (groups w) (expectedCount w) w = (w1, Some ()) ->
  exists ordinals, added w w1 ordinals.
Proof using laws name_parses partition_ok.
  intros Hw Hlt Hmax. unfold scaleUpServingGroups. rewrite partition_ok. unfold mbind, run_bind, need, createUpTo. cbn beta iota.
  set (existing := filter (fun o => 0 <= o) _).
  assert (Hexisting : forall o, 0 <= o <= MaxInt32 -> o ∈ existing <-> GenerateServingGroupName (Name key) o ∈ names w).
  { intros o Ho. unfold existing. rewrite list_elem_of_filter, (list_fmap_compose GroupName ordinalOf), list_elem_of_fmap. fold (names w). split.
    - intros [_ (name & -> & Hin)]. pose proof (names_ordinal w name Hw Hin) as [_ E]. by rewrite <- E.
    - intros Hin. split; [lia|]. exists (GenerateServingGroupName (Name key) o). by rewrite ordinal_generated. }
  assert (Hlen : (length existing <= length (groups w))%nat) by (unfold existing; etrans; [apply length_filter|by rewrite length_fmap]).
  unfold forEachMissingOrdinal. destruct (Z.leb_spec (expectedCount w) 0); [lia|]. destruct (Z.leb_spec (Z.max 0 (expectedCount w - count w)) 0); [lia|]. cbn [orb].
  rewrite (missingLoop_spec _ (expectedCount w) _ _ existing); [| |lia].
  2: { intros o Ho. rewrite elem_of_list_to_set, list_elem_of_filter. split; [by intros [_ ?]|]. intros Hin. split; [lia|done]. }
  rewrite !Z.sub_0_r. set (ordinals := take _ _). destruct (visitWhile _ ordinals (w, false)) as [go [w' failed]] eqn:Ev. cbn [snd].
  destruct failed; [done|]. intros [= <-]. exists ordinals.
  assert (Hrange : forall o, o ∈ ordinals -> 0 <= o < expectedCount w /\ GenerateServingGroupName (Name key) o ∉ names w).
  { intros o Ho. apply elem_of_take in Ho as (i & Hi & _). apply list_elem_of_lookup_2, list_elem_of_filter in Hi as [Hi Hin]. apply elem_of_seqZ in Hin.
    split; [lia|]. rewrite <- Hexisting by lia. done. }
  assert (Hnd : NoDup (GenerateServingGroupName (Name key) <$> ordinals)).
  { apply NoDup_fmap_2_strong.
    - intros a b Ha Hb E. apply Hrange in Ha as [Ha _], Hb as [Hb _]. rewrite <- (ordinal_generated a), <- (ordinal_generated b) by lia. by rewrite E.
    - eapply sublist_NoDup; [|apply sublist_take]. apply NoDup_filter, NoDup_seqZ. }
  split; [|done|done|].
  - eapply create_adds; [done| |exact Ev|done]. intros o Ho. destruct (Hrange o Ho) as [_ Hn]. destruct (look w _) eqn:El; [|done].
    exfalso. apply Hn, names_look; [done|]. by rewrite El.
  - unfold ordinals. rewrite length_take. pose proof (missing_length existing (expectedCount w) ltac:(lia)). lia.
Qed.

Lemma scale_down_effect w w1 r : wellNamed w -> expectedCount w < count w -> 0 <= expectedCount w ->
  scaleDownTo GetScaledValueFromIntOrPercent SortFunc key replicas config pods (groups w) (expectedCount w) w = (w1, r) ->
  exists victims, removed w w1 victims.
Proof using laws SortFunc_perm SortFunc_sorted known_found.
  intros Hw Hlt H0. unfold scaleDownTo, scaleDownServingGroups. cbn [fst].
  set (score := fun name => calculateServingGroupScore (GetServingGroupStatus (storeOf w) key name) (pods name) name).
  change ((fun g => calculateServingGroupScore (GetServingGroupStatus (storeOf w) key (GroupName g)) (pods (GroupName g)) (GroupName g)) <$> groups w)
    with (score ∘ GroupName <$> groups w). rewrite list_fmap_compose.
  destruct (victims_deletes SortFunc SortFunc_perm SortFunc_sorted (partitionOrZero GetScaledValueFromIntOrPercent replicas config) (names w) (names w) score
    (expectedCount w) (names_nodup w Hw) ltac:(done)) as (V1 & V2 & V3 & _). fold (names w). set (victims := scoreName <$> _) in *.
  intros E. exists victims. pose proof (deleteEach_removes victims w (wellNamed_found w Hw)) as Hr. rewrite E in Hr. split; [done|done|done|].
  unfold names in V1. rewrite length_fmap in V1. lia.
Qed.

(** How the number of groups is brought to the expected one. *)
Inductive scaled (w w1 : W) : Prop :=
| ScaledUp ordinals : count w < expectedCount w -> added w w1 ordinals -> scaled w w1
| ScaledDown victims : expectedCount w < count w -> removed w w1 victims -> scaled w w1
| Unscaled : count w = expectedCount w -> (forall name, look w1 name = look w name) -> scaled w w1.

Lemma expected_bounds w : 0 <= expectedCount w <= MaxInt32 /\ replicas <= expectedCount w <= replicas + maxSurge.
Proof using replicas_nonneg maxSurge_nonneg fits_int32. unfold expectedCount. destruct (_ && _); lia. Qed.

Lemma sync_effect w w1 : wellNamed w ->
  syncServingGroupReplicas GetScaledValueFromIntOrPercent SortFunc compare key replicas config true false currentRevision target pods w = (w1, Some ()) ->
  scaled w w1.
Proof using All.
  intros Hw. unfold syncServingGroupReplicas, mbind, run_bind, call, need. cbn beta iota. rewrite expected_count. unfold scaleTo.
  pose proof (expected_bounds w) as [Hb _].
  assert (Hpg : forall w', storeOf (updatePodGroups key w').1 = storeOf w') by apply updatePodGroups_same.
  destruct (Z.ltb_spec (count w) (expectedCount w)) as [Hlt|Hge]; [|destruct (Z.ltb_spec (expectedCount w) (count w)) as [Hlt|Hle]].
  - destruct (scaleUpServingGroups _ _ _ _ _ _ _ w) as [w' [[]|]] eqn:E; [|done]. intros Hu. specialize (Hpg w'). rewrite Hu in Hpg. cbn in Hpg.
    destruct (scale_up_effect w w' Hw Hlt ltac:(lia) E) as [ordinals [A1 A2 A3 A4]]. apply (ScaledUp w w1 ordinals); [done|]. split; [|done..].
    unfold adds in *. by rewrite Hpg.
  - destruct (scaleDownTo _ _ _ _ _ _ _ _ w) as [w' [[]|]] eqn:E; [|done]. intros Hu. specialize (Hpg w'). rewrite Hu in Hpg. cbn in Hpg.
    destruct (scale_down_effect w w' _ Hw Hlt ltac:(lia) E) as [victims [A1 A2 A3 A4]]. apply (ScaledDown w w1 victims); [done|]. split; [|done..].
    unfold removes in *. by rewrite Hpg.
  - cbn. intros Hu. specialize (Hpg w). rewrite Hu in Hpg. cbn in Hpg. apply Unscaled; [lia|]. by rewrite Hpg.
Qed.

Definition chosenGroups (w : W) : list ServingGroup := selectedGroups compare replicas (storeOf w) partition maxUnavailable (groups w).

Lemma manage_effect w w1 : wellNamed w ->
  manageServingGroups GetScaledValueFromIntOrPercent compare key replicas config (fun group => deleteGroup (GroupName group)) w = (w1, Some ()) ->
  removes (GroupName <$> chosenGroups w) w w1.
Proof using laws partition_ok maxUnavailable_ok known_found.
  intros Hw. unfold manageServingGroups, mbind, run_bind, call, need. rewrite maxUnavailable_ok. unfold partitionOrZero. rewrite partition_ok. cbn beta iota. cbn [default].
  intros E. pose proof (deletes_removes (chosenGroups w) w (wellNamed_found w Hw)) as H. unfold deleteOutdatedServingGroups in E. change (id partition) with partition in E. fold (chosenGroups w) in E. rewrite E in H.
  by apply H.
Qed.

(** ** The effect of a round *)

Context (old : ServingGroup -> bool).
(** A comparison depends on the revision and the roles of the group, what is
    created at the target is equivalent to it, and the groups that are created
    can be compared. *)
Hypothesis compare_known : forall s group, lookupGroup s key (GroupName group) = Some group -> known group ->
  compare s group = if old group then templateDifferent else templateEquivalent.
Hypothesis old_status : forall group status, old (set_status group status) = old group.
Hypothesis known_status : forall group status, status <> ServingGroupNotFound -> known group -> known (set_status group status).
Hypothesis fresh_known : forall name revision group, revision = target \/ revision = currentRevision -> freshGroup name revision group -> known group.
Hypothesis fresh_current : forall name group, freshGroup name target group -> old group = false.

Lemma scaled_wellNamed w w1 : wellNamed w -> scaled w w1 -> wellNamed w1.
Proof using maxSurge_nonneg fits_int32 replicas_nonneg known_status fresh_known.
  intros Hw Hs. pose proof (expected_bounds w) as [Hb _]. intros name group Hl. destruct Hs as [ordinals _ [[A1 A2] _ A3 _]|victims _ [Hr _ _ _]|_ Hsame].
  - destruct (decide (name ∈ GenerateServingGroupName (Name key) <$> ordinals)) as [Hin|Hn]; [|rewrite (A2 _ Hn) in Hl; by apply Hw].
    apply list_elem_of_fmap in Hin as (o & -> & Ho). destruct (A1 o Ho) as (g & Hg & Hf). rewrite Hg in Hl. injection Hl as <-.
    split; [apply Hf|]. split; [exists o; destruct (A3 o Ho); split; [lia|done]|]. eapply fresh_known; [|exact Hf].
    unfold scaleUpRevision. destruct (_ && _); auto.
  - specialize (Hr name). case_decide; [|rewrite Hr in Hl; by apply Hw]. destruct Hr as [E|(g & E & E')]; [congruence|]. rewrite E' in Hl. injection Hl as <-.
    destruct (Hw name g E) as (H1 & H2 & H3). split; [done|]. split; [done|]. by apply known_status.
  - rewrite Hsame in Hl. by apply Hw.
Qed.

Definition settled (w : W) : Prop := forall name group, look w name = Some group -> GroupStatus group = ServingGroupRunning.

Abbreviation chosenNames w1 := (GroupName <$> chosenGroups w1).

(** What a round does, by the state [w1] after its first half. *)
Record roundEffect (w w1 w3 : W) : Prop := {
  effect_scaled : scaled w w1;
  effect_named : wellNamed w1;
  effect_settled : settled w3;
  effect_from name group : look w3 name = Some group -> name ∉ chosenNames w1 /\
    exists group1, look w1 name = Some group1 /\ GroupStatus group1 <> ServingGroupDeleting /\ group = set_status group1 ServingGroupRunning;
  effect_stays name group1 : look w1 name = Some group1 -> name ∉ chosenNames w1 -> GroupStatus group1 <> ServingGroupDeleting ->
    look w3 name = Some (set_status group1 ServingGroupRunning);
}.

Lemma settledGroup_Some x group : x ≫= settledGroup = Some group ->
  exists group1, x = Some group1 /\ GroupStatus group1 <> ServingGroupDeleting /\ group = set_status group1 ServingGroupRunning.
Proof. destruct x as [g|]; [|done]. cbn. unfold settledGroup. case_bool_decide; [done|]. intros [= <-]. by exists g. Qed.

Lemma round_effect w w3 : wellNamed w -> round w w3 -> exists w1, roundEffect w w1 w3.
Proof using All.
  intros Hw [w2 Hr Hs]. unfold reconcileGroups, mbind, run_bind in Hr.
  destruct (syncServingGroupReplicas _ _ _ _ _ _ _ _ _ _ _ w) as [w1 [[]|]] eqn:E1; [|done].
  apply sync_effect in E1; [|done]. pose proof (scaled_wellNamed w w1 Hw E1) as Hw1. apply manage_effect in Hr; [|done]. exists w1.
  split; [done|done| | |].
  - intros name group Hl. rewrite Hs in Hl. apply settledGroup_Some in Hl as (g & _ & _ & ->). done.
  - intros name group Hl. rewrite Hs in Hl. apply settledGroup_Some in Hl as (g & Hl & Hd & ->). specialize (Hr name). case_decide as Hin.
    + destruct Hr as [Hr|(g' & _ & Hr)]; [congruence|]. rewrite Hr in Hl. injection Hl as <-. by destruct Hd.
    + split; [done|]. exists g. by rewrite <- Hr.
  - intros name group1 Hl Hn Hd. rewrite Hs. specialize (Hr name). rewrite decide_False in Hr by done. rewrite Hr, Hl. cbn. unfold settledGroup.
    by rewrite bool_decide_false.
Qed.

(** Outdated groups that may be updated sooner or later. *)
Definition oldGroups (w : W) : list ServingGroup :=
  filter (fun group => old group = true /\ partition <= ordinalOf (GroupName group)) (groups w).

Lemma oldGroups_look w name : wellNamed w ->
  name ∈ GroupName <$> oldGroups w <-> exists group, look w name = Some group /\ old group = true /\ partition <= ordinalOf name.
Proof.
  intros Hw. unfold oldGroups. rewrite list_elem_of_fmap. split.
  - intros (group & -> & Hin). apply list_elem_of_filter in Hin as [[Ho Hp] Hin]. exists group. split; [|done].
    apply groupsOf_lookup in Hin; [done|by apply wellNamed_named].
  - intros (group & Hl & Ho & Hp). destruct (Hw _ _ Hl) as [E _]. exists group. split; [done|]. apply list_elem_of_filter. rewrite E. split; [done|].
    apply groupsOf_lookup; [by apply wellNamed_named|]. by rewrite E.
Qed.

Lemma oldGroups_nodup w : wellNamed w -> NoDup (GroupName <$> oldGroups w).
Proof. intros Hw. eapply sublist_NoDup; [by apply (names_nodup w)|]. apply fmap_sublist, sublist_filter. Qed.

Lemma compare_old w group : wellNamed w -> group ∈ groups w -> compare (storeOf w) group = templateDifferent <-> old group = true.
Proof using compare_known.
  intros Hw Hin. apply groupsOf_lookup in Hin; [|by apply wellNamed_named]. destruct (Hw _ _ Hin) as (_ & _ & Hk).
  rewrite (compare_known _ _ Hin Hk). by destruct (old group).
Qed.

Lemma active_exists w : wellNamed w -> active w = true <->
  exists name group, look w name = Some group /\ old group = true /\ (Z.to_nat partition <= rank w name)%nat.
Proof using compare_known name_parses.
  intros Hw. unfold active, anyOutdated. rewrite existsb_true. split.
  - intros (group & Hin & Hd). apply bool_decide_eq_true in Hd. apply afterPartition_rank in Hin as [Hin Hr]; [|done].
    apply compare_old in Hd; [|done..]. exists (GroupName group), group. split; [|done]. apply groupsOf_lookup in Hin; [done|by apply wellNamed_named].
  - intros (name & group & Hl & Ho & Hr). destruct (Hw _ _ Hl) as [E _]. exists group. assert (Hin : group ∈ groups w) by (apply groupsOf_lookup; [by apply wellNamed_named|by rewrite E]).
    split; [apply afterPartition_rank; [done|by rewrite E]|]. apply bool_decide_eq_true. by apply compare_old.
Qed.

Lemma count_names w : count w = Z.of_nat (length (names w)).
Proof. unfold names. by rewrite length_fmap. Qed.

Lemma rank_partition w name : wellNamed w -> name ∈ names w -> (Z.to_nat partition <= rank w name)%nat -> partition <= ordinalOf name.
Proof using name_parses. intros Hw Hin Hr. pose proof (rank_ordinal w name Hw). destruct (names_ordinal w name Hw Hin) as [Hb _]. lia. Qed.

Lemma groupsOf_ext w w' : (forall name, look w' name = look w name) -> wellNamed w -> groups w' = groups w.
Proof using name_parses.
  intros Hl Hw. assert (Hw' : wellNamed w') by (intros name group; rewrite Hl; apply Hw).
  pose proof (groupsOf_listing key w (wellNamed_named w Hw)) as (_ & _ & H3 & H4). pose proof (groupsOf_listing key w' (wellNamed_named w' Hw')) as (I1 & I2 & I3 & _).
  apply H4; [|exact I1|by apply groups_ordinals_nodup]. apply NoDup_Permutation; [by eapply NoDup_fmap_1|by eapply NoDup_fmap_1, names_nodup|].
  intros group. rewrite !(groupsOf_lookup key) by by apply wellNamed_named. by rewrite Hl.
Qed.

Section effect.
Context (w w1 w3 : W) (Hw : wellNamed w) (Heffect : roundEffect w w1 w3).

Lemma effect_wellNamed : wellNamed w3.
Proof using known_status Heffect.
  intros name group Hl. destruct (effect_from _ _ _ Heffect _ _ Hl) as (_ & g & Hg & _ & ->).
  destruct (effect_named _ _ _ Heffect name g Hg) as (H1 & H2 & H3). split; [done|]. split; [done|]. by apply known_status.
Qed.

Lemma names_after : names w3 ⊆ names w1.
Proof using known_status Heffect.
  intros name Hin. apply names_look in Hin as [group Hl]; [|apply effect_wellNamed]. destruct (effect_from _ _ _ Heffect _ _ Hl) as (_ & g & Hg & _).
  apply names_look; [apply Heffect|]. by rewrite Hg.
Qed.

(** Where a group of [w1] comes from. *)
Lemma scaled_from name group1 : look w1 name = Some group1 ->
  (exists group, look w name = Some group /\ old group1 = old group /\ (settled w -> GroupStatus group1 = ServingGroupDeleting \/ group1 = group)) \/
  (name ∉ names w /\ exists o, name = GenerateServingGroupName (Name key) o /\ 0 <= o <= MaxInt32 /\ expectedCount w > count w /\
     freshGroup name (scaleUpRevision currentRevision target partition o) group1).
Proof using known_status Heffect old_status Hw maxSurge_nonneg fits_int32 replicas_nonneg.
  intros Hl. pose proof (expected_bounds w) as [Hb _]. destruct (effect_scaled _ _ _ Heffect) as [ordinals Hlt [[A1 A2] _ A3 _]|victims _ [Hr _ _ _]|_ Hsame].
  - destruct (decide (name ∈ GenerateServingGroupName (Name key) <$> ordinals)) as [Hin|Hn].
    + right. apply list_elem_of_fmap in Hin as (o & -> & Ho). destruct (A3 o Ho) as [Hr Hn]. split; [done|]. exists o. split; [done|].
      destruct (A1 o Ho) as (g & Hg & Hf). rewrite Hg in Hl. injection Hl as <-. split_and!; [lia|lia|lia|done].
    + left. rewrite (A2 _ Hn) in Hl. exists group1. split; [done|]. split; [done|]. by right.
  - left. specialize (Hr name). case_decide; [|rewrite Hr in Hl; exists group1; auto]. destruct Hr as [E|(g & E & E')]; [congruence|].
    rewrite E' in Hl. injection Hl as <-. exists g. split; [done|]. split; [apply old_status|]. by left.
  - left. rewrite Hsame in Hl. exists group1. auto.
Qed.

Lemma chosen_look group : group ∈ chosenGroups w1 ->
  look w1 (GroupName group) = Some group /\ old group = true /\ (Z.to_nat partition <= rank w1 (GroupName group))%nat.
Proof using known_status Heffect compare_known name_parses.
  intros Hin. pose proof (effect_named _ _ _ Heffect) as Hw1. apply selected_outdated in Hin as [Hin Hc]. apply afterPartition_rank in Hin as [Hin Hr]; [|done].
  apply compare_old in Hc; [|done..]. apply groupsOf_lookup in Hin; [done|by apply wellNamed_named].
Qed.

(** Outdated groups come from outdated groups. *)
Lemma old_from name : name ∈ GroupName <$> oldGroups w1 -> name ∈ GroupName <$> oldGroups w.
Proof using known_status Heffect old_status fresh_current Hw maxSurge_nonneg fits_int32 replicas_nonneg name_parses.
  rewrite !oldGroups_look by (done || by apply Heffect). intros (g & Hl & Ho & Hp).
  destruct (scaled_from _ _ Hl) as [(g0 & Hg0 & E & _)|(_ & o & -> & Hb & _ & Hf)]; [exists g0; by rewrite <- E|].
  rewrite ordinal_generated in Hp by done. unfold scaleUpRevision in Hf. destruct (Z.ltb_spec o partition); [lia|]. cbn in Hf.
  apply fresh_current in Hf. congruence.
Qed.

Lemma old_after name : name ∈ GroupName <$> oldGroups w3 -> name ∈ GroupName <$> oldGroups w1.
Proof using known_status Heffect old_status.
  rewrite !oldGroups_look by (apply Heffect || apply effect_wellNamed). intros (g & Hl & Ho & Hp).
  destruct (effect_from _ _ _ Heffect _ _ Hl) as (_ & g1 & Hg1 & _ & ->). exists g1. by rewrite old_status in Ho.
Qed.

Lemma old_decreases : (length (oldGroups w3) <= length (oldGroups w))%nat /\ (chosenGroups w1 <> [] -> (length (oldGroups w3) < length (oldGroups w))%nat).
Proof using known_status Heffect old_status fresh_current Hw maxSurge_nonneg fits_int32 replicas_nonneg name_parses compare_known.
  rewrite <- !(length_fmap GroupName). pose proof (oldGroups_nodup w3 effect_wellNamed) as Hnd. split.
  - apply submseteq_length, NoDup_submseteq; [done|]. intros name Hin. by apply old_from, old_after.
  - destruct (chosenGroups w1) as [|g l] eqn:E; [done|]. intros _. assert (Hg : g ∈ chosenGroups w1) by (rewrite E; by left).
    destruct (chosen_look g Hg) as (Hl & Ho & Hr). pose proof (effect_named _ _ _ Heffect) as Hw1.
    apply (submseteq_length (GroupName g :: (GroupName <$> oldGroups w3))). apply NoDup_submseteq.
    + apply NoDup_cons. split; [|done]. intros Hin. apply oldGroups_look in Hin as (g3 & Hg3 & _); [|apply effect_wellNamed].
      destruct (effect_from _ _ _ Heffect _ _ Hg3) as [Hn _]. apply Hn. by apply list_elem_of_fmap_2.
    + intros name [->|Hin]%elem_of_cons; [|by apply old_from, old_after]. apply old_from, oldGroups_look; [done|]. exists g. split; [done|]. split; [done|].
      eapply rank_partition; [exact Hw1| |done]. apply names_look; [done|]. by rewrite Hl.
Qed.

(** The names a round may keep or add. *)
Lemma names_bounded : count w3 <= expectedCount w.
Proof using known_status Heffect Hw.
  rewrite !count_names in *. pose proof (names_nodup w3 effect_wellNamed) as Hnd. destruct (effect_scaled _ _ _ Heffect) as [ordinals Hlt [[A1 A2] A5 A3 A4]|victims Hlt [Hr V2 V3 V4]|He Hsame].
  - rewrite <- A4, count_names. rewrite <- Nat2Z.inj_add, <- (length_fmap (GenerateServingGroupName (Name key)) ordinals), <- length_app. apply Nat2Z.inj_le, submseteq_length, NoDup_submseteq; [done|].
    intros name Hin. apply elem_of_app. destruct (decide (name ∈ GenerateServingGroupName (Name key) <$> ordinals)) as [|Hn]; [by right|left].
    apply names_after, names_look in Hin as [g Hl]; [|apply Heffect]. rewrite (A2 _ Hn) in Hl. apply names_look; [done|]. by rewrite Hl.
  - rewrite <- V4, count_names. enough (length (names w3 ++ victims) <= length (names w))%nat by (rewrite length_app in *; lia).
    apply submseteq_length, NoDup_submseteq.
    + apply NoDup_app. split; [done|]. split; [|done]. intros name Hin Hv. apply names_look in Hin as [g Hl]; [|apply effect_wellNamed].
      destruct (effect_from _ _ _ Heffect _ _ Hl) as (_ & g1 & Hg1 & Hd & _). specialize (Hr name). rewrite decide_True in Hr by done.
      destruct Hr as [Hr|(g0 & _ & Hr)]; rewrite Hr in Hg1; [done|]. injection Hg1 as <-. by apply Hd.
    + intros name [Hin|Hin]%elem_of_app; [|by apply V3]. apply names_after, names_look in Hin as [g Hl]; [|apply Heffect].
      specialize (Hr name). case_decide as Hv; [by apply V3|]. rewrite Hr in Hl. apply names_look; [done|]. by rewrite Hl.
  - rewrite <- He, count_names. apply Nat2Z.inj_le, submseteq_length, NoDup_submseteq; [done|]. intros name Hin.
    apply names_after, names_look in Hin as [g Hl]; [|apply Heffect]. rewrite Hsame in Hl. apply names_look; [done|]. by rewrite Hl.
Qed.

Context (Hsettled : settled w).

Lemma not_deleting name group : look w name = Some group -> GroupStatus group <> ServingGroupDeleting.
Proof using Hsettled. intros Hl. by rewrite (Hsettled _ _ Hl). Qed.

(** Without replacements the expected number of groups is there. *)
Lemma idle_count : chosenGroups w1 = [] -> count w3 = expectedCount w.
Proof using known_status Heffect Hw Hsettled.
  intros Hc. apply Z.le_antisymm; [apply names_bounded|]. rewrite count_names.
  assert (Hstay : forall name g, look w1 name = Some g -> GroupStatus g <> ServingGroupDeleting -> name ∈ names w3).
  { intros name g Hl Hd. apply names_look; [apply effect_wellNamed|]. rewrite (effect_stays _ _ _ Heffect _ _ Hl); [done| |done]. rewrite Hc. by apply not_elem_of_nil. }
  assert (Hin0 : forall name, name ∈ names w -> exists g, look w name = Some g) by (intros name Hin; by apply (names_look w name Hw) in Hin as [g Hl]; exists g).
  destruct (effect_scaled _ _ _ Heffect) as [ordinals Hlt [[A1 A2] A5 A3 A4]|victims Hlt [Hr V2 V3 V4]|He Hsame].
  - rewrite <- A4, count_names. rewrite <- Nat2Z.inj_add, <- (length_fmap (GenerateServingGroupName (Name key)) ordinals), <- length_app.
    apply Nat2Z.inj_le, submseteq_length, NoDup_submseteq.
    + apply NoDup_app. split; [by apply names_nodup|]. split; [|done]. intros name Hin Ho. apply list_elem_of_fmap in Ho as (o & -> & Ho). by destruct (A3 o Ho).
    + intros name [Hin|Hin]%elem_of_app.
      * destruct (decide (name ∈ GenerateServingGroupName (Name key) <$> ordinals)) as [Ho|Ho].
        { apply list_elem_of_fmap in Ho as (o & -> & Ho). by destruct (A3 o Ho). }
        destruct (Hin0 _ Hin) as [g Hl]. eapply Hstay; [by rewrite (A2 _ Ho)|by eapply not_deleting].
      * apply list_elem_of_fmap in Hin as (o & -> & Ho). destruct (A1 o Ho) as (g & Hg & Hf). eapply Hstay; [exact Hg|]. by rewrite (fresh_status _ _ _ Hf).
  - rewrite <- V4, count_names. enough (length (names w) <= length (names w3 ++ victims))%nat by (rewrite length_app in *; lia).
    apply submseteq_length, NoDup_submseteq; [by apply names_nodup|]. intros name Hin. apply elem_of_app.
    destruct (decide (name ∈ victims)) as [|Hv]; [by right|left]. destruct (Hin0 _ Hin) as [g Hl]. specialize (Hr name). rewrite decide_False in Hr by done.
    eapply Hstay; [by rewrite Hr|by eapply not_deleting].
  - rewrite <- He, count_names. apply Nat2Z.inj_le, submseteq_length, NoDup_submseteq; [by apply names_nodup|]. intros name Hin.
    destruct (Hin0 _ Hin) as [g Hl]. eapply Hstay; [by rewrite Hsame|by eapply not_deleting].
Qed.

(** With the surge in place the budget is open. *)
Lemma surge_progresses : active w = true -> count w = replicas + maxSurge -> 0 < maxSurge + maxUnavailable -> chosenGroups w1 <> [].
Proof using known_status Heffect Hw Hsettled compare_known name_parses maxSurge_nonneg.
  intros Ha Hcount Hbudget. assert (He : expectedCount w = count w).
  { unfold expectedCount. rewrite Ha. destruct (Z.ltb_spec 0 maxSurge); cbn; lia. }
  destruct (effect_scaled _ _ _ Heffect) as [o Hlt _|v Hlt _|_ Hsame]; [lia|lia|].
  pose proof (effect_named _ _ _ Heffect) as Hw1. pose proof (groupsOf_ext w w1 Hsame Hw) as Eg.
  assert (Hrunning : forall g, g ∈ groups w -> isRunningGroup g = true).
  { intros g Hg. apply groupsOf_lookup in Hg; [|by apply wellNamed_named]. apply bool_decide_eq_true. by eapply Hsettled. }
  apply (active_exists w Hw) in Ha as (name & g & Hl & Ho & Hr). destruct (Hw _ _ Hl) as [En _]. subst name.
  assert (Hin : g ∈ groups w) by (apply groupsOf_lookup; [by apply wellNamed_named|done]).
  assert (Hout : g ∈ runningOutdatedGroups compare (storeOf w1) (afterPartition partition (groups w1))).
  { apply list_elem_of_filter. split; [split; [by apply Hrunning|]|].
    - apply compare_old; [done|by rewrite Eg|done].
    - rewrite Eg. by apply afterPartition_rank. }
  assert (Hnone : runningGroups (groups w1) = groups w1).
  { rewrite Eg. clear -Hrunning. induction (groups w) as [|h l IH]; [done|]. unfold runningGroups in *. rewrite filter_cons_True by (apply Hrunning; by left).
    f_equal. apply IH. intros x Hx. apply Hrunning. by right. }
  unfold chosenGroups, selectedGroups. rewrite maxScaleDown_counts, Hnone. intros E. apply (f_equal length) in E. revert E.
  rewrite length_take, length_rev, length_app. assert (0 < length (runningOutdatedGroups compare (storeOf w1) (afterPartition partition (groups w1))))%nat.
  { destruct (runningOutdatedGroups _ _ _); [by apply not_elem_of_nil in Hout|cbn; lia]. }
  rewrite <- Eg in Hcount. cbn [length]. lia.
Qed.

(** A scale-down or an idle round with nothing to update leaves nothing to update. *)
Lemma inactive_stays : active w = false -> replicas <= count w -> chosenGroups w1 = [] /\ active w3 = false.
Proof using known_status Heffect Hw old_status compare_known name_parses maxSurge_nonneg fits_int32 replicas_nonneg.
  intros Ha Hcount. assert (He : expectedCount w = replicas) by (unfold expectedCount; by rewrite Ha, andb_false_r). pose proof (effect_named _ _ _ Heffect) as Hw1.
  assert (Hsub : names w1 ⊆ names w).
  { intros name Hin. apply names_look in Hin as [g Hl]; [|done]. destruct (scaled_from _ _ Hl) as [(g0 & Hg0 & _)|(_ & o & _ & _ & Hlt & _)]; [|lia].
    apply names_look; [done|]. by rewrite Hg0. }
  assert (Hno : forall name g, look w1 name = Some g -> old g = true -> ~ (Z.to_nat partition <= rank w1 name)%nat).
  { intros name g Hl Ho Hr. destruct (scaled_from _ _ Hl) as [(g0 & Hg0 & E & _)|(_ & o & _ & _ & Hlt & _)]; [|lia].
    apply not_true_iff_false in Ha. apply Ha, active_exists; [done|]. exists name, g0. split; [done|]. split; [by rewrite <- E|].
    etrans; [exact Hr|by apply rank_mono]. }
  split.
  - destruct (chosenGroups w1) as [|g l] eqn:E; [done|]. exfalso. destruct (chosen_look g) as (Hl & Ho & Hr); [rewrite E; by left|]. by eapply Hno.
  - apply not_true_iff_false. intros Ht. apply active_exists in Ht as (name & g & Hl & Ho & Hr); [|apply effect_wellNamed].
    destruct (effect_from _ _ _ Heffect _ _ Hl) as (_ & g1 & Hg1 & _ & ->). rewrite old_status in Ho. apply (Hno _ _ Hg1 Ho).
    etrans; [exact Hr|]. apply rank_mono; [apply effect_wellNamed|apply names_after].
Qed.

(** A round that only creates leaves what there is to update. *)
Lemma active_stays : active w = true -> count w <= expectedCount w -> chosenGroups w1 = [] -> active w3 = true.
Proof using known_status Heffect Hw Hsettled old_status compare_known name_parses.
  intros Ha Hcount Hc. apply (active_exists w Hw) in Ha as (name & g & Hl & Ho & Hr).
  assert (Hstay : forall name g, look w name = Some g -> look w3 name = Some (set_status g ServingGroupRunning)).
  { intros n h Hn. apply (effect_stays _ _ _ Heffect); [|rewrite Hc; by apply not_elem_of_nil|by eapply not_deleting].
    destruct (effect_scaled _ _ _ Heffect) as [ordinals Hlt [[A1 A2] A5 A3 A4]|victims Hlt _|He Hsame]; [|lia|by rewrite Hsame].
    rewrite A2; [done|]. intros Hin. apply list_elem_of_fmap in Hin as (o & -> & Hin). destruct (A3 o Hin) as [_ Hnot]. apply Hnot, names_look; [done|]. by rewrite Hn. }
  apply active_exists; [apply effect_wellNamed|]. exists name, (set_status g ServingGroupRunning). split; [by apply Hstay|]. split; [by rewrite old_status|].
  etrans; [exact Hr|]. apply rank_mono; [done|]. intros n Hin. apply (names_look w n Hw) in Hin as [h Hn].
  apply names_look; [apply effect_wellNamed|]. by rewrite (Hstay _ _ Hn).
Qed.
End effect.

(** ** Progress *)

Hypothesis budget_open : 0 < maxSurge + maxUnavailable.

(** How many rounds may be left. *)
Definition distance (w : W) : nat :=
  let left := length (oldGroups w) in
  if active w then (if count w =? replicas + maxSurge then (3 * left)%nat else (3 * left + 1)%nat)
  else if count w =? replicas then 0%nat else if replicas <? count w then 1%nat else (3 * left + 2)%nat.

Lemma distance_bound w : (distance w <= 3 * length (oldGroups w) + 2)%nat.
Proof. unfold distance. repeat case_match; lia. Qed.

(** The states between two rounds. *)
Record between (w : W) : Prop := {
  between_named : wellNamed w;
  between_settled : settled w;
  between_count : count w <= replicas + maxSurge;
}.

Lemma round_between w w' : wellNamed w -> round w w' -> between w' /\ (length (oldGroups w') <= length (oldGroups w))%nat.
Proof using All.
  intros Hw Hr. destruct (round_effect w w' Hw Hr) as [w1 He]. split; [|by apply (old_decreases w w1 w' Hw He)].
  split; [by eapply effect_wellNamed|by apply He|]. pose proof (names_bounded w w1 w' Hw He). pose proof (expected_bounds w). lia.
Qed.

Lemma active_old w : wellNamed w -> active w = true -> (0 < length (oldGroups w))%nat.
Proof using compare_known name_parses.
  intros Hw Ha. apply active_exists in Ha as (name & g & Hl & Ho & Hr); [|done].
  assert (Hin : name ∈ GroupName <$> oldGroups w).
  { apply oldGroups_look; [done|]. exists g. split; [done|]. split; [done|]. eapply rank_partition; [done| |done]. apply names_look; [done|]. by rewrite Hl. }
  destruct (oldGroups w); [by apply not_elem_of_nil in Hin|cbn; lia].
Qed.

Lemma round_distance w w' : between w -> round w w' -> (distance w' < distance w \/ distance w = 0 /\ distance w' = 0)%nat.
Proof using All.
  intros [Hw Hs Hc] Hr. destruct (round_effect w w' Hw Hr) as [w1 He].
  destruct (old_decreases w w1 w' Hw He) as [D1 D2]. pose proof (names_bounded w w1 w' Hw He) as Hb. pose proof (distance_bound w') as Hd.
  pose proof (idle_count w w1 w' Hw He Hs) as Hidle. pose proof (expected_bounds w) as [_ Heb].
  destruct (decide (chosenGroups w1 = [])) as [E|E]; [specialize (Hidle E)|specialize (D2 E)].
  - unfold distance at 2 3. destruct (active w) eqn:Ea.
    + pose proof (active_old w Hw Ea) as Hold. destruct (Z.eqb_spec (count w) (replicas + maxSurge)) as [Hfull|Hfull].
      { by destruct (surge_progresses w w1 w' Hw He Hs Ea Hfull budget_open). }
      assert (Hexp : expectedCount w = replicas + maxSurge).
      { unfold expectedCount. rewrite Ea. destruct (Z.ltb_spec 0 maxSurge); cbn; lia. }
      left. unfold distance. rewrite (active_stays w w1 w' Hw He Hs Ea ltac:(lia) E).
      destruct (Z.eqb_spec (count w') (replicas + maxSurge)); [lia|]. exfalso. lia.
    + assert (Hexp : expectedCount w = replicas) by (unfold expectedCount; by rewrite Ea, andb_false_r).
      destruct (Z.eqb_spec (count w) replicas) as [Hn|Hn]; [|destruct (Z.ltb_spec replicas (count w)) as [Hlt|Hlt]].
      * right. split; [done|]. destruct (inactive_stays w w1 w' Hw He Ea ltac:(lia)) as [_ Ha']. unfold distance. rewrite Ha'.
        destruct (Z.eqb_spec (count w') replicas); [done|lia].
      * left. destruct (inactive_stays w w1 w' Hw He Ea ltac:(lia)) as [_ Ha']. unfold distance. rewrite Ha'.
        destruct (Z.eqb_spec (count w') replicas); lia.
      * left. unfold distance. destruct (active w'); [destruct (_ =? _); lia|]. destruct (Z.eqb_spec (count w') replicas); lia.
  - left. assert (0 < length (oldGroups w))%nat by lia. enough (3 * length (oldGroups w) <= distance w)%nat by lia.
    unfold distance. destruct (active w) eqn:Ea; [destruct (_ =? _); lia|].
    destruct (Z.ltb_spec (count w) replicas) as [Hlt|Hge].
    + destruct (Z.eqb_spec (count w) replicas); [lia|]. destruct (Z.ltb_spec replicas (count w)); lia.
    + by destruct (inactive_stays w w1 w' Hw He Ea Hge) as [E' _].
Qed.

(** The rollout is complete: every group that is not protected is at the
    target, and all groups the serving asks for run. *)
Definition rolledOut (w : W) : Prop :=
  count w = replicas /\ settled w /\ forall group, group ∈ afterPartition partition (groups w) -> compare (storeOf w) group = templateEquivalent.

Lemma distance_zero w : between w -> distance w = 0%nat -> rolledOut w.
Proof using compare_known name_parses.
  intros [Hw Hs Hc] Hd. unfold distance in Hd. destruct (active w) eqn:Ea.
  { pose proof (active_old w Hw Ea). destruct (_ =? _); lia. }
  destruct (Z.eqb_spec (count w) replicas) as [Hn|Hn]; [|destruct (_ <? _); lia]. split; [done|]. split; [done|]. intros group Hin.
  destruct (old group) eqn:Eo.
  - exfalso. apply not_true_iff_false in Ea. apply Ea. apply afterPartition_rank in Hin as [Hin Hr]; [|done].
    apply active_exists; [done|]. exists (GroupName group), group. split; [|done]. apply groupsOf_lookup in Hin; [done|by apply wellNamed_named].
  - apply afterPartition_elem, groupsOf_lookup in Hin; [|by apply wellNamed_named]. destruct (Hw _ _ Hin) as (_ & _ & Hk). by rewrite (compare_known _ _ Hin Hk), Eo.
Qed.

(** C2: a rolling update of serving groups completes. From any state of the
    store, groups on their way included, as long as the budget is open (a group
    may be unavailable or may surge), after three rounds per outdated group and
    three more the serving has exactly the replicas it asks for, they all run,
    and every group but those the partition protects is equivalent to the
    target; and this stays so. The partition protects the first groups in
    ascending ordinal order, as many as it says (the comment on [Partition] in
    model_serving_types.go); for dense ordinals those are the ordinals below it. A round is any reconcile that reports no error,
    after which the groups that are going disappear and the others become
    ready. Ordinals need not be dense, and the number of replicas, the surge
    and the partition are arbitrary. *)
Theorem group_rollout_completes (w : nat -> W) k : wellNamed (w 0%nat) -> (forall i, round (w i) (w (S i))) ->
  (3 * length (oldGroups (w 0)) + 3 <= k)%nat -> rolledOut (w k).
Proof using All.
  intros Hw Hr Hk.
  assert (Hbetween : forall i, between (w (S i)) /\ (length (oldGroups (w (S i))) <= length (oldGroups (w 0)))%nat).
  { induction i as [|i [[Hwi Hsi Hci] IH]]; [by apply round_between|]. destruct (round_between (w (S i)) (w (S (S i))) Hwi (Hr (S i))). split; [done|lia]. }
  assert (Hdist : forall i, (distance (w (S i)) = 0 \/ distance (w (S i)) + i <= 3 * length (oldGroups (w 0)) + 2)%nat).
  { induction i as [|i IH].
    - right. destruct (Hbetween 0%nat) as [_ Hl]. pose proof (distance_bound (w 1%nat)). lia.
    - destruct (round_distance (w (S i)) (w (S (S i))) (proj1 (Hbetween i)) (Hr (S i))) as [Hlt|[H1 H2]]; [|by left]. right. lia. }
  destruct k as [|k]; [lia|]. apply distance_zero; [apply Hbetween|]. specialize (Hdist k). lia.
Qed.
End configured.
End rounds.
