(* ===== verification/GroupReconcile.v ===== *)
(** * pkg/model-serving-controller: the reconcile of serving groups

    The rounds of GroupRounds with the operations of the controller: a group is
    created by PodCreation and deleted by the handler of PodEvents. *)
From S2P Require Import Prelude Effects Names ServingStore ServingPods InPlaceState RevisionHistory ServingStatus ScaleDown DeletionTargets PodEvents PodCreation GroupRollout GroupRounds.
Local Open Scope Z_scope.

Section actions.
Context `{Workloads} `{ImageReference}.
Context (EntryTemplate : Workload -> string -> PodTemplate) (WorkerTemplate : Workload -> string -> option PodTemplate).
(** [podGroupSynced] is whether the pod group of a group is created or updated. *)
Context (ms : ModelServing) (events : PodEvents.Env) (creation : PodCreation.Env) (podGroupSynced : string -> bool).

(** The state of the controller, the pods at the API server, and the history of
    the reconcile. *)
Record State := MkState { world : World; podsThere : gmap string LivePod; reconcileHistory : revisionHistory }.

Definition onCluster {A} (m : run Cluster A) : run State A := fun st =>
  let '(c, r) := m (MkCluster (podsThere st) (state (world st)) (reconcileHistory st) false) in
  let w := setState (world st) (stored c) in
  (MkState (if requeued c then enqueueModelServing ms w else w) (server c) (hist c), r).

Definition onWorld (f : World -> World * bool) : run State unit := fun st =>
  let '(w, ok) := f (world st) in (MkState w (podsThere st) (reconcileHistory st), if ok then Some () else None).

(** The handler of [scaleUpServingGroups]. *)
Definition createServingGroup (ordinal : Z) (revision : string) : run State unit :=
  w ← onCluster (resolveWorkload creation revision);
  require (podGroupSynced (GenerateServingGroupName (ServingStore.Name (servingKey ms)) ordinal)) ≫= fun _ =>
  onCluster (CreatePodsForServingGroup EntryTemplate WorkerTemplate creation (applied ms w) ordinal revision (Roles w)) ≫= fun _ =>
  onWorld (fun w => (setState w (AddServingGroup (state w) (servingKey ms) ordinal revision), true)).

#[export] Instance groupActions : GroupActions State := {|
  storeOf st := state (world st);
  createGroup := createServingGroup;
  deleteGroup group := onWorld (deleteServingGroup events ms group);
  updatePodGroup group := require (podGroupSynced group);
|}.

(** ** Deletions *)

Abbreviation key := (servingKey ms).

Lemma lookup_UpdateServingGroupStatus s group status name :
  lookupGroup (UpdateServingGroupStatus s key group status).2 key name =
    if decide (name = group) then (fun g => set_status g status) <$> lookupGroup s key name else lookupGroup s key name.
Proof.
  pose proof (group_default s key group) as Ed. unfold UpdateServingGroupStatus. destruct (s !! key) as [groups|] eqn:Es; cbn in Ed.
  - destruct (groups !! group) as [g|] eqn:Eg; cbn [snd].
    + rewrite (put_known _ _ _ _ _ Es), lookupGroup_put. destruct (decide (name = group)) as [->|Hn].
      * by rewrite decide_True, <- Ed.
      * by rewrite decide_False by congruence.
    + case_decide as E; [|done]. subst. by rewrite <- Ed.
  - cbn [snd]. case_decide as E; [|done]. subst. by rewrite <- Ed.
Qed.

Lemma lookup_DeleteServingGroup s group name :
  lookupGroup (DeleteServingGroup s key group) key name = if decide (name = group) then None else lookupGroup s key name.
Proof.
  pose proof (group_default s key group) as Ed. unfold DeleteServingGroup. destruct (s !! key) as [groups|] eqn:Es; cbn in Ed.
  - rewrite (lookupGroup_delete _ _ _ _ _ _ Es). repeat case_decide; try done; congruence.
  - case_decide as E; [|done]. subst. by rewrite <- Ed.
Qed.

(** A deletion removes the entry of its group or marks it. *)
Definition deletedOrMarked (group : string) (s s' : store) : Prop := forall name,
  if decide (name = group)
  then lookupGroup s' key name = None \/
       exists g, lookupGroup s key name = Some g /\ lookupGroup s' key name = Some (set_status g ServingGroupDeleting)
  else lookupGroup s' key name = lookupGroup s key name.

Lemma deleteServingGroup_store group w :
  state (deleteServingGroup events ms group w).1 = state w /\ GetServingGroupStatus (state w) key group = ServingGroupNotFound \/
  deletedOrMarked group (state w) (state (deleteServingGroup events ms group w).1).
Proof.
  assert (Hmark : forall w1, state w1 = (UpdateServingGroupStatus (state w) key group ServingGroupDeleting).2 ->
    deletedOrMarked group (state w) (state w1)).
  { intros w1 -> name. rewrite lookup_UpdateServingGroupStatus. case_decide; [|done]. destruct (lookupGroup (state w) key name) as [g|]; [right; by exists g|by left]. }
  assert (Hnone : lookupGroup (state w) key group = None -> deletedOrMarked group (state w) (state w)).
  { intros E name. case_decide as En; [subst; by left|done]. }
  unfold deleteServingGroup. case_bool_decide as Enf.
  { by left. }
  right. destruct (GetRolesByGroup (state w) key group) as [rolesByName|] eqn:Er.
  2: { apply Hnone. revert Er. unfold GetRolesByGroup, lookupGroup. destruct (state w !! key) as [groups|]; [|done]. cbn. by destruct (groups !! group). }
  destruct (UpdateServingGroupStatus (state w) key group ServingGroupDeleting) as [err s] eqn:Eu. cbn [snd] in Hmark.
  destruct (negb (bool_decide (err = None))); [by apply Hmark|]. destruct (negb _ || negb _); [by apply Hmark|].
  destruct (deletePods events ms _ _) as [w1 o] eqn:Ed. apply deletePods_state in Ed as (Es & _). cbn [state setState] in Es.
  destruct o as [[[|x l]|]|]; [|by apply Hmark|by apply Hmark|by apply Hmark]. destruct (negb _); [by apply Hmark|].
  destruct (isServingGroupDeleted events ms (state w1) group); [|by apply Hmark]. cbn [fst state enqueueModelServing setDeletions setState].
  intros name. rewrite lookup_DeleteServingGroup, Es. specialize (Hmark (setState w s) eq_refl name). cbn [state setState] in Hmark. case_decide; [by left|done].
Qed.

(** ** Creations *)

(** The store gains at most a group, and nothing but entries at the revision in it. *)
Definition creates (group revision : string) (s s' : store) : Prop :=
  (forall name, name <> group -> lookupGroup s' key name = lookupGroup s key name) /\
  match lookupGroup s key group with
  | None => lookupGroup s' key group = None \/ exists g, lookupGroup s' key group = Some g /\ freshGroup group revision g
  | Some g => freshGroup group revision g -> exists g', lookupGroup s' key group = Some g' /\ freshGroup group revision g'
  end.

#[local] Instance creates_preorder group revision : PreOrder (creates group revision).
Proof.
  split.
  - intros s. split; [done|]. destruct (lookupGroup s key group) as [g|]; [intros Hg; by exists g|by left].
  - intros a b c [A1 A2] [B1 B2]. split; [intros name Hn; rewrite B1 by done; by apply A1|].
    destruct (lookupGroup a key group) as [g|].
    + intros Hg. destruct (A2 Hg) as (g' & Eg & Hg'). rewrite Eg in B2. by apply B2.
    + destruct A2 as [E|(g & E & Hg)]; rewrite E in B2; [done|]. right. by apply B2.
Qed.

Lemma AddRole_creates s group role id revision hash : creates group revision s (AddRole s key group role id revision hash).
Proof.
  unfold AddRole. rewrite group_default. set (G := default _ _). change (set_groups s key _) with (putGroup s key group (ensureRole G role id revision hash)).
  split; [intros name Hn; by rewrite lookupGroup_put, decide_False by congruence|]. rewrite lookupGroup_put, decide_True by done.
  assert (Hfresh : freshGroup group revision G -> freshGroup group revision (ensureRole G role id revision hash)).
  { intros [F1 F2 F3 F4]. split; [by unfold ensureRole; case_match|by unfold ensureRole; case_match|by unfold ensureRole; case_match|].
    intros r m i R Hm Hi. pose proof (ensureRole_lookup G role id revision hash r i) as E. rewrite Hm in E. cbn in E. rewrite Hi in E.
    case_decide as Ed; [|destruct (roles G !! r) as [m'|] eqn:Em; [|done]; symmetry in E; by eapply F4].
    injection E as ->. destruct (roles G !! role) as [m'|] eqn:Em; cbn; [|done]. destruct (m' !! id) as [R'|] eqn:ER; [|done]. cbn. by eapply F4. }
  unfold G in *. destruct (lookupGroup s key group) as [g|]; cbn [default from_option] in *.
  - intros Hg. eexists. split; [done|by apply Hfresh].
  - right. eexists. split; [done|]. apply Hfresh. split; [done..|]. intros r m i R Hm. cbn in Hm. by rewrite lookup_empty in Hm.
Qed.

Lemma AddServingGroup_creates s o revision : let group := GenerateServingGroupName (ServingStore.Name key) o in
  creates group revision s (AddServingGroup s key o revision) /\ lookupGroup (AddServingGroup s key o revision) key group <> None.
Proof.
  intros group. unfold AddServingGroup. fold group. rewrite group_default. destruct (lookupGroup s key group) as [g|] eqn:El.
  - assert (Es : set_groups s key (default ∅ (s !! key)) = s).
    { unfold set_groups. unfold lookupGroup in El. destruct (s !! key) as [groups|] eqn:Es; [|done]. cbn. by apply insert_id. }
    rewrite Es. split; [reflexivity|by rewrite El].
  - change (set_groups s key _) with (putGroup s key group (newGroup group revision)). split.
    + split; [intros name Hn; by rewrite lookupGroup_put, decide_False by congruence|]. rewrite El, lookupGroup_put, decide_True by done. right.
      eexists. split; [done|]. split; [done..|]. intros r m i R Hm. cbn in Hm. by rewrite lookup_empty in Hm.
    + by rewrite lookupGroup_put, decide_True.
Qed.

Section createPods.
Context (ordinal : Z) (revision : string).
Abbreviation group := (GenerateServingGroupName (ServingStore.Name key) ordinal).

Definition storeCreates (c c' : Cluster) : Prop := creates group revision (stored c) (stored c').

#[local] Instance storeCreates_preorder : PreOrder storeCreates.
Proof. split; [intros c; unfold storeCreates; reflexivity|]. intros a b c H1 H2. unfold storeCreates in *. by etrans. Qed.

Lemma storeCreates_same c c' : stored c' = stored c -> storeCreates c c'.
Proof. unfold storeCreates. by intros ->. Qed.

Lemma createPod_stored w temporary isEntry g r i pod : follows storeCreates (createPod creation (applied ms w) temporary isEntry g r i pod).
Proof.
  unfold createPod. follow_step; [follow_step|]. intros c. unfold sendPod. destruct (createFails creation _); [by apply storeCreates_same|].
  destruct (server c !! _); [|by apply storeCreates_same]. revert c. change (follows storeCreates (acceptExisting creation (applied ms w) g r i x)).
  unfold acceptExisting, roleTemplateHashMatches, history.
  repeat first [follow_step|destruct (_ || _)|destruct (_ && _)|by apply storeCreates_same|destruct (workload _ _ _)].
Qed.

Lemma createPods_stored w : follows storeCreates (CreatePodsForServingGroup EntryTemplate WorkerTemplate creation (applied ms w) ordinal revision (Roles w)).
Proof.
  assert (Hrole : forall r i hash, follows storeCreates (addRole (applied ms w) group r i revision hash))
    by (intros; apply follows_modify; intros c; apply AddRole_creates).
  unfold CreatePodsForServingGroup, createInstance, createPodsByRole, resolveWorkload, history, createPodsByRoleWithContext. cbn [applied servingKey].
  repeat first [apply Hrole|apply createPod_stored|follow_step|destruct (coordinatedServing _)|destruct (WorkerTemplate _ _)|destruct (workload _ _ _); by apply storeCreates_same].
Qed.
End createPods.

Lemma onCluster_store {A} (m : run Cluster A) st : storeOf (onCluster m st).1 = stored (m (MkCluster (podsThere st) (state (world st)) (reconcileHistory st) false)).1.
Proof. unfold onCluster. destruct (m _) as [c r]. cbn. by destruct (requeued c). Qed.

Lemma createServingGroup_store ordinal revision st : let group := GenerateServingGroupName (ServingStore.Name key) ordinal in
  creates group revision (storeOf st) (storeOf (createServingGroup ordinal revision st).1) /\
  ((createServingGroup ordinal revision st).2 = Some () -> lookupGroup (storeOf (createServingGroup ordinal revision st).1) key group <> None).
Proof.
  intros group. unfold createServingGroup, mbind, run_bind.
  pose proof (onCluster_store (resolveWorkload creation revision) st) as H1. unfold resolveWorkload, history, call, mbind, run_bind, need in H1.
  assert (E1 : storeOf (onCluster (resolveWorkload creation revision) st).1 = storeOf st).
  { unfold resolveWorkload, history, call, mbind, run_bind, need. rewrite H1. cbn. by destruct (workload _ _ _). }
  clear H1. destruct (onCluster (resolveWorkload creation revision) st) as [st1 [w|]]; cbn [fst snd] in *; [|rewrite E1; by split].
  destruct (podGroupSynced _); unfold require, stop, mret, run_ret; cbn beta iota; [|cbn [fst snd]; rewrite E1; by split].
  pose proof (onCluster_store (CreatePodsForServingGroup EntryTemplate WorkerTemplate creation (applied ms w) ordinal revision (Roles w)) st1) as E2.
  pose proof (createPods_stored ordinal revision w (MkCluster (podsThere st1) (state (world st1)) (reconcileHistory st1) false)) as H2.
  unfold storeCreates in H2. cbn [stored] in H2. rewrite <- E2 in H2. change (state (world st1)) with (storeOf st1) in H2. rewrite E1 in H2.
  destruct (onCluster (CreatePodsForServingGroup _ _ _ _ _ _ _) st1) as [st2 [[]|]]; cbn [fst snd] in *; [|by split].
  cbn. destruct (AddServingGroup_creates (state (world st2)) ordinal revision) as [H3 H4]. split; [|done]. etrans; [exact H2|exact H3].
Qed.

#[export] Instance groupActions_laws : GroupActionsLaws key.
Proof.
  split.
  - intros o r st name Hn. by apply (createServingGroup_store o r st).
  - intros o r st name Hl Hr. destruct (createServingGroup_store o r st) as [[_ H1] H2]. fold name in H1, H2. rewrite Hl in H1. specialize (H2 Hr).
    by destruct H1 as [?|?].
  - intros g st name Hn. cbn. unfold onWorld. pose proof (deleteServingGroup_store g (world st)) as Hd.
    destruct (deleteServingGroup events ms g (world st)) as [w ok]. cbn [fst state world] in *. destruct Hd as [[-> _]|Hd]; [done|].
    specialize (Hd name). by rewrite decide_False in Hd.
  - intros g st Hf. cbn. unfold onWorld. cbn in Hf. pose proof (deleteServingGroup_store g (world st)) as Hd.
    destruct (deleteServingGroup events ms g (world st)) as [w ok]. cbn [fst state world] in *. destruct Hd as [[-> Hs]|Hd].
    + left. unfold GetServingGroupStatus in Hs. destruct (lookupGroup (state (world st)) key g) as [x|]; [|done]. by destruct (Hf x eq_refl).
    + specialize (Hd g). by rewrite decide_True in Hd.
  - intros g st. cbn. unfold require, stop. by destruct (podGroupSynced g).
Qed.

(** ** Comparisons of whole groups *)

Context (snap : string -> option Workload) (target : string).
Hypothesis group_mode : roleMode ms = false.
(** The snapshot of the target has the roles the model serving asks for. *)
Hypothesis target_desired : forall role, role ∈ Roles (desired ms) ->
  findRole (desired ms) (templateName role) <> None /\ comparedTo snap ms target (templateName role) = templateEquivalent.

Definition atRevision (revision : string) (group : ServingGroup) : Prop :=
  GroupRevision group = revision /\ forall role m i r, roles group !! role = Some m -> m !! i = Some r -> RoleRevision r = revision.

(** A group at the target whose instances are at the target is equivalent to it. *)
Lemma groupMeaning_at_target listed s group : lookupGroup s key (GroupName group) = Some group -> atRevision target group ->
  groupMeaning snap ms listed s group target = templateEquivalent.
Proof using group_mode target_desired.
  intros Hl [Er Hroles]. unfold groupMeaning, revisionMeaning. rewrite group_mode, Er, bool_decide_true by done. cbn [orb].
  assert (Hlist : forall name, exists l, GetRoleList s key (GroupName group) name = inl l /\ Forall (fun r => RoleRevision r = target) l).
  { intros name. unfold GetRoleList. unfold lookupGroup in Hl. destruct (s !! key) as [groups|]; [|done]. cbn in Hl. rewrite Hl.
    destruct (roles group !! name) as [m|] eqn:Em; eexists; (split; [done|]); [|constructor].
    rewrite merge_sort_Permutation. apply Forall_forall. intros r Hr. apply list_elem_of_fmap in Hr as ([i r'] & -> & Hr).
    apply elem_of_map_to_list in Hr. by eapply Hroles. }
  assert (Hall : exists l, observedInstances ms s group = Some l /\
    Forall (fun x => RoleRevision x.2 = target /\ exists role, role ∈ Roles (desired ms) /\ x.1 = templateName role) l).
  { change (observedInstances ms s group) with (mjoin <$> mapM (rolePairs ms s group) (Roles (desired ms))). clear target_desired.
    induction (Roles (desired ms)) as [|role l IH]; [by eexists|]. destruct IH as (ls & E & Hls). cbn [mapM].
    destruct (Hlist (templateName role)) as (k & Ek & Hk).
    assert (Ep : rolePairs ms s group role = Some (pair (templateName role) <$> k)) by (unfold rolePairs; by rewrite Ek).
    cbn [mapM mbind option_bind] in *. rewrite Ep. cbn [mbind option_bind]. destruct (mapM (rolePairs ms s group) l) as [ls'|]; [|done]. injection E as <-.
    cbn. eexists. split; [done|]. apply Forall_app. split.
    - apply Forall_fmap. eapply Forall_impl; [exact Hk|]. intros r Hr. split; [done|]. exists role. split; [by left|done].
    - eapply Forall_impl; [exact Hls|]. intros x (Hx & role' & Hin & ?). split; [done|]. exists role'. split; [by right|done]. }
  destruct Hall as (l & -> & Hl'). unfold verdictOf. rewrite group_mode. rewrite filter_none; [done|].
  apply Forall_fmap. eapply Forall_impl; [exact Hl'|]. intros [name r] (Hr & role & Hin & En) Hne. cbn in *. subst name. apply Hne.
  destruct (target_desired role Hin) as [Hf Hc]. unfold roleMeaning, observedRole, coordinatedObservation, roleCoordination. rewrite group_mode.
  destruct (findRole _ _); [|done]. cbn. unfold observedRevision. rewrite Er, Hr. by case_bool_decide.
Qed.

End actions.

(** ** Example: three groups, the first of them protected

    The groups at r0 are replaced one at a time by groups at r1; the group of
    ordinal 0 is below the partition. *)

#[local] Existing Instance plainWorkloads.
#[local] Existing Instance plainReference.

Definition rollScaled (v : IntOrString) (total : Z) (roundUp : bool) : option Z := match v with IntVal n => Some n | StrVal _ => None end.
Definition rollConfig : RollingUpdateConfiguration := MkRolling (Some (IntVal 1)) None (Some (IntVal 1)).
Definition rollSnap (r : string) : option (list RoleTemplate) :=
  if bool_decide (r = "r1"%string) then Some [vllmRole] else if bool_decide (r = "r0"%string) then Some [MkRoleTemplate "vllm" 1 2] else None.
Definition rollCreation : PodCreation.Env :=
  PodCreation.MkEnv rollSnap (fun _ => true) (fun _ _ p => Some p) id (fun _ => false) (fun _ => false) (fun _ => None) [] "r1" true.
Definition rollEvents : PodEvents.Env :=
  PodEvents.MkEnv (fun _ => Some vllmServing) true [] (fun _ => Some 0%nat) rollSnap (fun _ _ => None) (Some []) (fun _ => true) (fun _ => true) (fun _ => true)
    (fun _ => MkAnswers (Some []) (fun _ => Missing) (fun _ _ => Deleted)) (fun _ => Some []) (fun _ => true).

#[local] Instance rollActions : GroupActions State := groupActions vllmEntry vllmWorker vllmServing rollEvents rollCreation (fun _ => true).
#[local] Instance rollLaws : GroupActionsLaws (servingKey vllmServing) := groupActions_laws vllmEntry vllmWorker vllmServing rollEvents rollCreation (fun _ => true).

Definition rollCompare (s : store) (group : ServingGroup) : templateComparison := groupMeaning rollSnap vllmServing (Some []) s group "r1".

Definition rollReconcile : run State unit :=
  reconcileGroups (servingKey vllmServing) rollScaled (merge_sort ScaleDown.before) rollCompare 3 rollConfig "r0" "r1" (fun _ => None).

(** Between two reconciles the deleted groups disappear with their pods, and the
    others become ready. *)
Definition rollSettle (st : State) : State :=
  let s : store := (fun groups : gmap string ServingGroup => omap settledGroup groups) <$> (state (world st) : gmap NamespacedName (gmap string ServingGroup)) in
  MkState (setState (world st) s)
    (filter (fun x => lookupGroup s (servingKey vllmServing) (default ""%string (Labels (Meta (livePod x.2)) !! GroupNameLabelKey)) <> None) (podsThere st)) newHistory.

Definition oldGroup (o : Z) : ServingGroup := set_status (newGroup (GenerateServingGroupName "ms" o) "r0") ServingGroupRunning.
(** The state that stores the groups. *)
Definition storing (l : list ServingGroup) : State :=
  MkState (MkWorld {[servingKey vllmServing := list_to_map ((fun g => (GroupName g, g)) <$> l)]} ∅ [] ∅ ∅) ∅ newHistory.

Lemma storing_lookup l name group : lookupGroup (storeOf (storing l)) (servingKey vllmServing) name = Some group -> name = GroupName group /\ group ∈ l.
Proof.
  unfold lookupGroup, storing. cbn. rewrite lookup_insert_eq. cbn. intros Hl. apply elem_of_list_to_map_2 in Hl.
  by apply list_elem_of_fmap in Hl as (g & [= -> ->] & Hin).
Qed.

Definition rollStart : State := storing [oldGroup 0; oldGroup 1; oldGroup 2].
Definition rollStep (st : State) : State := rollSettle (rollReconcile st).1.
Definition rollTrace (i : nat) : State := Nat.iter i rollStep rollStart.

Example roll_trace : (fun i => map (fun g => (GroupName g, GroupRevision g)) (groupsOf (servingKey vllmServing) (rollTrace i))) <$> [0; 1; 2; 3; 4]%nat =
  [[("ms-0", "r0"); ("ms-1", "r0"); ("ms-2", "r0")]; [("ms-0", "r0"); ("ms-1", "r0")]; [("ms-0", "r0"); ("ms-1", "r0"); ("ms-2", "r1")];
   [("ms-0", "r0"); ("ms-2", "r1")]; [("ms-0", "r0"); ("ms-1", "r1"); ("ms-2", "r1")]]%string.
Proof. vm_compute. reflexivity. Qed.

Lemma roll_settles st : settles (servingKey vllmServing) st (rollSettle st).
Proof.
  intros name. unfold rollSettle. cbn. unfold lookupGroup. rewrite lookup_fmap. destruct (state (world st) !! _) as [groups|]; [|done]. cbn. apply lookup_omap.
Qed.

Lemma roll_round i : round (servingKey vllmServing) rollScaled (merge_sort ScaleDown.before) rollCompare 3 rollConfig "r0" "r1" (fun _ => None) (rollTrace i) (rollTrace (S i)).
Proof.
  assert (Hstep : forall st, (rollReconcile st).2 = Some () ->
    round (servingKey vllmServing) rollScaled (merge_sort ScaleDown.before) rollCompare 3 rollConfig "r0" "r1" (fun _ => None) st (rollStep st)).
  { intros st E. apply (Round _ _ _ _ _ _ _ _ _ st (rollStep st) (rollReconcile st).1); [|apply roll_settles]. rewrite <- E. apply surjective_pairing. }
  assert (Hrest : forall j, rollTrace (5 + j) = rollTrace 5).
  { induction j as [|j IH]; [done|]. change (rollTrace (5 + S j)) with (rollStep (rollTrace (5 + j))). rewrite IH. vm_compute. reflexivity. }
  apply Hstep. destruct (decide (i < 5)%nat) as [Hi|Hi].
  - do 5 (destruct i as [|i]; [vm_compute; reflexivity|]). lia.
  - replace i with (5 + (i - 5))%nat by lia. rewrite Hrest. vm_compute. reflexivity.
Qed.

Lemma roll_target role : role ∈ Roles (desired vllmServing) ->
  findRole (desired vllmServing) (templateName role) <> None /\ comparedTo rollSnap vllmServing "r1" (templateName role) = templateEquivalent.
Proof. intros Hr. apply list_elem_of_singleton in Hr as ->. by vm_compute. Qed.

(** The groups are at one of the two revisions. *)
Definition rollKnown (group : ServingGroup) : Prop :=
  GroupStatus group <> ServingGroupNotFound /\ (atRevision "r1" group \/ GroupRevision group = "r0"%string).
Definition rollOld (group : ServingGroup) : bool := negb (bool_decide (GroupRevision group = "r1"%string)).

Lemma roll_compare s group : lookupGroup s (servingKey vllmServing) (GroupName group) = Some group -> rollKnown group ->
  rollCompare s group = if rollOld group then templateDifferent else templateEquivalent.
Proof.
  intros Hl [_ [Hk|Hk]]; unfold rollCompare, rollOld.
  - rewrite bool_decide_true by apply Hk. apply groupMeaning_at_target; [done|apply roll_target|done|done].
  - rewrite Hk. unfold groupMeaning, revisionMeaning. by rewrite Hk.
Qed.

Lemma roll_fresh name revision group : revision = "r1"%string \/ revision = "r0"%string -> freshGroup name revision group -> rollKnown group.
Proof.
  intros Hr [F1 F2 F3 F4]. split; [by rewrite F3|]. destruct Hr as [->| ->]; [|by right]. by left; split.
Qed.

Lemma roll_start : wellNamed (servingKey vllmServing) rollKnown (rollTrace 0).
Proof.
  intros name g Hl. apply storing_lookup in Hl as [-> Hin]. split; [done|].
  assert (Ho : exists o, 0 <= o <= 2 /\ g = oldGroup o).
  { rewrite !elem_of_cons in Hin. destruct Hin as [->|[->|[->|Hin]]]; [exists 0|exists 1|exists 2|by apply not_elem_of_nil in Hin]; by split. }
  destruct Ho as (o & Ho & ->). split; [exists o; split; [unfold MaxInt32; lia|done]|]. split; [done|by right].
Qed.

Lemma group_rollout_completes_witness : rolledOut (servingKey vllmServing) rollCompare 3 1 (rollTrace 9).
Proof.
  eapply (group_rollout_completes (servingKey vllmServing) rollScaled (merge_sort ScaleDown.before) rollCompare 3 rollConfig "r0" "r1" (fun _ => None) rollKnown
    ltac:(by intros group [? _]) ltac:(by apply (bool_decide_eq_true_1 (newline ∉ String.list_ascii_of_string "ms"))) (merge_sort_Permutation ScaleDown.before)
    ltac:(intros l; apply (StronglySorted_strengthen ScaleDown.before); [apply (StronglySorted_merge_sort ScaleDown.before)|intros x y _ _; by apply notGreater_before])
    1 1 0 eq_refl eq_refl eq_refl ltac:(lia) ltac:(lia) ltac:(lia) ltac:(unfold MaxInt32; lia) rollOld roll_compare ltac:(done)
    ltac:(intros group status Hs [_ Hk]; by split) roll_fresh
    ltac:(intros name group Hf; unfold rollOld; by rewrite (fresh_revision _ _ _ Hf)) ltac:(lia) rollTrace 9 roll_start roll_round).
  by vm_compute; lia.
Defined.

(** Exceptions to the budget: a protected group that is down and whose
    comparison is known leaves room for the update of a running group. *)
Definition downStore : State := storing [newGroup "ms-0" "r1"; oldGroup 1; oldGroup 2; oldGroup 3].
Definition rollManage (st : State) : State :=
  (manageServingGroups rollScaled rollCompare (servingKey vllmServing) 4 rollConfig (fun group => deleteGroup (GroupName group)) st).1.
Definition runningNames (st : State) : list string :=
  GroupName <$> filter (fun group => isRunningGroup group = true) (groupsOf (servingKey vllmServing) st).

Example protected_down_is_spent :
  GetMaxUnavailable rollScaled 4 rollConfig = Some 1 /\ runningNames downStore = ["ms-1"; "ms-2"; "ms-3"]%string /\
  runningNames (rollManage downStore) = ["ms-1"; "ms-2"]%string.
Proof. by vm_compute. Qed.

Lemma rollout_disrupts_within_budget_witness : exists chosen,
  disturbance rollCompare (servingKey vllmServing) 4 downStore (rollManage downStore) 1 1 chosen.
Proof.
  apply (rollout_disrupts_within_budget rollScaled rollCompare (servingKey vllmServing) 4 rollConfig (fun group => deleteGroup (GroupName group))
    (fun group w name Hn => delete_others (GroupName group) w name Hn) downStore).
  intros name group Hl. by apply storing_lookup in Hl as [-> _].
Defined.
