(* ===== verification/RoleReconcile.v ===== *)
(** * pkg/model-serving-controller: the instances of the roles of a group

    model_serving_controller.go (syncRoleReplicas, manageRoleReplicasPerGroup,
    scaleUpRoles and what they call), for a serving without coordination:
    every reconcile brings the number of instances of each role to the desired
    one, creates the pods that are missing, each from the template its instance
    runs, and lets the statuses follow. *)
From S2P Require Import Prelude Effects Names ServingStore ServingPods InPlaceState RevisionHistory Readiness ServingStatus ScaleDown.
From S2P Require Import PodEvents PodCreation GroupRollout GroupRounds GroupReconcile.
Local Open Scope Z_scope.

Section roles.
Context `{Workloads} `{ImageReference}.
Context (EntryTemplate : Workload -> string -> PodTemplate) (WorkerTemplate : Workload -> string -> option PodTemplate).
(** intstr.GetScaledValueFromIntOrPercent and slices.SortFunc of the scale-down. *)
Context (GetScaledValueFromIntOrPercent : IntOrString -> Z -> bool -> option Z) (SortFunc : list WithScore -> list WithScore).
(** The model serving, what its handlers and creations find outside, whether
    the API server lists the pods of a unit, and whether a pod group is synced. *)
Context (ms : ModelServing) (events : PodEvents.Env) (creation : PodCreation.Env) (podsListable : bool) (podGroupSynced : string -> bool).
(** The controls of the serving and of its roles, whether a role is updated in
    place, and the recorded current revision. *)
Context (config : RollingUpdateConfiguration) (roleConfig : string -> RollingUpdateConfiguration) (roleUpdatesInPlace : string -> bool)
        (replicas : Z) (currentRevision : string).
(** The comparison of an instance with the target, the deletion costs of the
    pods of an instance, and the plugins' hook. *)
Context (compareRole : ServingGroup -> string -> Role -> templateComparison) (costs : string -> string -> string -> option (list (option string)))
        (onRoleSync : Workload -> string -> string -> bool).

Abbreviation key := (servingKey ms).

(** ** Steps on the state of a reconcile *)

Definition updateStore (f : store -> option storeError * store) : run State unit :=
  onWorld (fun w => let '(err, s) := f (state w) in (setState w s, bool_decide (err = None))).

(** The error is logged. *)
Definition try (m : run State unit) : run State unit := fun st => ((m st).1, Some ()).

(** The error is collected: the answer is whether there was one. *)
Definition attempt (m : run State unit) : run State bool := fun st => let '(st, r) := m st in (st, Some (negb (bool_decide (is_Some r)))).

Definition onHistory {A} (question : revisionHistory -> A * revisionHistory) : run State A :=
  call (fun st => let '(x, h) := question (reconcileHistory st) in (x, MkState (world st) (podsThere st) h)).

Definition recordError (e : comparisonError) : run State unit := onHistory (fun h => ((), recordComparisonError h e)).

Definition enqueue : run State unit := onWorld (fun w => (enqueueModelServing ms w, true)).

Definition currentStore : run State store := call (fun st => (state (world st), st)).

Definition resolveRevision (revision : string) : run State Workload :=
  onHistory (fun h => workload (fetchRevision creation) h revision) ≫= need.

Definition appliedTemplate (group roleName : string) (instance : Role) : run State (option (RoleTemplate * string * string)) :=
  s ← currentStore;
  onHistory (fun h => appliedRoleTemplate ms (fetchRevision creation) s h group roleName instance).

(** ** Controls *)

Definition rolePartition (roleName : string) : option IntOrString :=
  if roleMode ms then rollingPartition (roleConfig roleName) else None.

(** [None] is an error. *)
Definition partitionOf (role : RoleTemplate) : option Z :=
  getPartition GetScaledValueFromIntOrPercent (rolePartition (templateName role)) (templateReplicas role).

Definition partitionConfigured (role : RoleTemplate) : bool := bool_decide (is_Some (rolePartition (templateName role))).

Definition GetMaxSurgeForRole (role : RoleTemplate) : option Z :=
  match rollingMaxSurge (roleConfig (templateName role)) with
  | None => Some 0
  | Some v => GetScaledValueFromIntOrPercent v (templateReplicas role) true
  end.

Definition hasUpdateableOutdatedRole (group : string) (role : RoleTemplate) (roleList : list Role) : bool :=
  match partitionOf role with
  | None => false
  | Some partition =>
    existsb (fun r => negb (bool_decide (ServingStore.Status r = RoleDeleting)) &&
                      bool_decide (compareRole (newGroup group (RoleRevision r)) (templateName role) r = templateDifferent))
            (drop (Z.to_nat partition) roleList)
  end.

Definition expectedRoles (group : string) (role : RoleTemplate) (roleList : list Role) : Z :=
  if roleMode ms && negb (roleUpdatesInPlace (templateName role)) && hasUpdateableOutdatedRole group role roleList
  then templateReplicas role + default 0 (GetMaxSurgeForRole role) else templateReplicas role.

(** ** Scaling down *)

(** [scaleDownRoles]: an invalid partition protects nothing. *)
Definition reduceRole (group : string) (role : RoleTemplate) (roleList : list Role) (expectedCount : Z) : run State unit :=
  s ← currentStore;
  let live := filter (fun r => ServingStore.Status r <> RoleDeleting) roleList in
  if Z.of_nat (length live) <=? expectedCount then mret ()
  else
    updateStore (fun s => UpdateServingGroupStatus s key group ServingGroupScaling) ≫= fun _ =>
    forEach (fun roleID => onWorld (PodEvents.DeleteRole events ms group (templateName role) roleID))
      (from_option fst [] (ScaleDown.scaleDownRoles SortFunc (default 0 (partitionOf role)) (GetRoleStatus s key group (templateName role))
                             (costs group (templateName role)) true (fun _ => false) roleList expectedCount)).

(** ** The pods of an instance *)

Definition ownedHere (meta : ObjectMeta) : bool := IsOwnedByModelServingWithUID meta (servingUID ms).

(** In the informer's cache, else at the API server. The ID is empty for the
    whole group. *)
Definition unitHasPods (group roleID : string) : run State bool :=
  let cached := if bool_decide (roleID = ""%string) then getPodsByIndex (cache events) groupIndexKey (groupKey ms group)
                else getPodsByIndex (cache events) roleIDIndexKey (roleKey ms group (GetParentNameAndOrdinal roleID).1 roleID) in
  let selector : labels := if bool_decide (roleID = ""%string) then {[GroupNameLabelKey := group]}
                           else <[ServingPods.RoleIDKey := roleID]> {[GroupNameLabelKey := group]} in
  if existsb (fun pod => ownedHere (Meta pod)) cached then mret true
  else require podsListable ≫= fun _ =>
    call (fun st => (existsb (fun x => ownedHere (Meta (livePod x.2)) && Matches selector (Labels (Meta (livePod x.2)))) (map_to_list (podsThere st)), st)).

Definition withRevision (revision : string) (r : Role) : Role := MkRole (ServingStore.RoleName r) revision (RoleTemplateHash r) (ServingStore.Status r).

(** The revision of an instance that has to start over. *)
Definition recreatedRevision (partition : Z) (roleID newRevision : string) : string :=
  if ordinalOf roleID <? partition then currentRevision else newRevision.

Definition resetInstance (group roleName roleID revision hash : string) : run State unit :=
  onWorld (fun w => (setState w (AddRole (ServingStore.DeleteRole (state w) key group roleName roleID) key group roleName roleID revision hash), true)) ≫= fun _ =>
  enqueue.

(** The template the pods of an instance are created from. [None]: the instance
    is left for a later reconcile. *)
Definition chooseTemplate (group : string) (role : RoleTemplate) (newRevision : string) (allowTargetStart : bool) (instance : Role)
    (recorded : RoleTemplate * string * string) : run State (option (RoleTemplate * string * string)) :=
  let roleID := ServingStore.RoleName instance in
  if negb (roleMode ms) then mret (Some recorded)
  else fun st =>
    match unitHasPods group roleID st with
    | (st, None) => (recordError (ErrGroupRole group roleID) ≫= fun _ => mret None) st
    | (st, Some true) => (st, Some (Some recorded))
    | (st, Some false) =>
      match partitionOf role with
      | None => (recordError (ErrGroupRole group roleID) ≫= fun _ => mret None) st
      | Some partition =>
        let revision := recreatedRevision partition roleID newRevision in
        if bool_decide (revision = newRevision) && negb allowTargetStart then (st, Some None)
        else
          (chosen ← appliedTemplate group (templateName role) (withRevision revision instance);
           match chosen with
           | None => mret None
           | Some (role', revision, hash) =>
             (if bool_decide (revision = RoleRevision instance) then mret () else resetInstance group (templateName role) roleID revision hash) ≫= fun _ =>
             mret (Some (role', revision, hash))
           end) st
      end
    end.

(** The body of the loop over the instances. The answer is whether an error of
    the history is to be returned. *)
Definition syncInstance (group : string) (role : RoleTemplate) (groupOrdinal : Z) (newRevision : string) (allowTargetStart : bool) (instance : Role) : run State bool :=
  let roleID := ServingStore.RoleName instance in
  if bool_decide (ServingStore.Status instance = RoleDeleting) then mret false
  else
    let pods := getPodsByIndex (cache events) roleIDIndexKey (roleKey ms group (templateName role) roleID) in
    recorded ← appliedTemplate group (templateName role) instance;
    match recorded with
    | None =>
      recordError (ErrGroupRole group roleID) ≫= fun _ =>
      (if bool_decide (ServingStore.Status instance = RoleRunning)
       then try (updateStore (fun s => UpdateRoleStatus s key group (templateName role) roleID RoleCreating)) else mret ()) ≫= fun _ =>
      mret true
    | Some recorded =>
      chosen ← chooseTemplate group role newRevision allowTargetStart instance recorded;
      match chosen with
      | None => mret false
      | Some (role', revision, hash) =>
        w ← resolveRevision revision;
        require (buildPluginChain creation w) ≫= fun _ =>
        let status := if rolePodsComplete ms group roleID role' revision pods true then RoleRunning else RoleCreating in
        failed ← (if bool_decide (ServingStore.Status instance = status) then mret false
                  else attempt (updateStore (fun s => UpdateRoleStatus s key group (templateName role) roleID status)));
        if failed : bool then mret false
        else
          (if rolePodsComplete ms group roleID role' revision pods false then mret ()
           else onCluster ms (createPodsByRoleWithContext EntryTemplate WorkerTemplate creation (applied ms w) false role' (ordinalOf roleID) groupOrdinal revision hash)) ≫= fun _ =>
          require (onRoleSync w group roleID) ≫= fun _ =>
          mret false
      end
    end.

Fixpoint syncInstances (group : string) (role : RoleTemplate) (groupOrdinal : Z) (newRevision : string) (allowTargetStart : bool) (l : list Role) : run State bool :=
  match l with
  | [] => mret false
  | instance :: l =>
    a ← syncInstance group role groupOrdinal newRevision allowTargetStart instance;
    b ← syncInstances group role groupOrdinal newRevision allowTargetStart l;
    mret ((a : bool) || b)
  end.

(** ** Scaling up *)

(** The revision of a missing instance below the partition: the current one, or
    what the protected instances run. [None]: they run different ones. *)
Fixpoint pinnedRevision (newRevision : string) (l : list Role) (revision : string) : option string :=
  match l with
  | [] => Some revision
  | observed :: l =>
    if bool_decide (RoleRevision observed = ""%string) || bool_decide (RoleRevision observed = newRevision) then pinnedRevision newRevision l revision
    else if negb (bool_decide (revision = newRevision)) && negb (bool_decide (revision = RoleRevision observed)) then None
    else pinnedRevision newRevision l (RoleRevision observed)
  end.

Definition protectedRevision (partition : Z) (roleList : list Role) (newRevision : string) : option string :=
  let revisionToUse := if bool_decide (currentRevision = ""%string) then newRevision else currentRevision in
  if bool_decide (revisionToUse = newRevision) then pinnedRevision newRevision (take (Z.to_nat partition) roleList) revisionToUse
  else Some revisionToUse.

Definition createRole (group : string) (role : RoleTemplate) (groupOrdinal ordinal : Z) (revision : string) : run State unit :=
  onCluster ms (
    w ← resolveWorkload creation revision;
    need (RoleRevisionHash w (templateName role)) ≫= fun _ =>
    need (historicalRole w (templateName role)) ≫= fun _ =>
    appliedHash ← createPodsByRole EntryTemplate WorkerTemplate creation ms false (templateName role) ordinal groupOrdinal revision;
    addRole ms group (templateName role) (GenerateRoleID (templateName role) ordinal) revision appliedHash) ≫= fun _ =>
  enqueue.

(** The revision an ordinal is created at; [None]: it is not created. *)
Definition missingRevision (role : RoleTemplate) (roleList : list Role) (newRevision : string) (allowTargetStart : bool) (ordinal : Z) : option string :=
  let partition := default 0 (partitionOf role) in
  if partitionConfigured role && (0 <? partition) && (ordinal <? partition) then protectedRevision partition roleList newRevision
  else if allowTargetStart then Some newRevision else None.

(** The handler of [forEachMissingOrdinal]: the flag is the error. *)
Definition createMissingRole (group : string) (role : RoleTemplate) (roleList : list Role) (groupOrdinal : Z) (newRevision : string) (allowTargetStart : bool)
    (ordinal : Z) (st : State * bool) : bool * (State * bool) :=
  match missingRevision role roleList newRevision allowTargetStart ordinal with
  | None =>
    let protected_ := partitionConfigured role && (0 <? default 0 (partitionOf role)) && (ordinal <? default 0 (partitionOf role)) in
    (false, (if protected_ then (recordError (ErrGroupRole group (templateName role)) st.1).1 else st.1, st.2))
  | Some revision =>
    match createRole group role groupOrdinal ordinal revision st.1 with
    | (w, Some _) => (true, (w, false))
    | (w, None) => (false, (w, true))
    end
  end.

Definition createMissingRoles (group : string) (role : RoleTemplate) (roleList : list Role) (expectedCount groupOrdinal : Z) (newRevision : string) (allowTargetStart : bool) : run State unit := fun st =>
  let existingOrdinals := filter (fun o => 0 <= o) ((fun r => ordinalOf (ServingStore.RoleName r)) <$> roleList) in
  match forEachMissingOrdinal (createMissingRole group role roleList groupOrdinal newRevision allowTargetStart) expectedCount existingOrdinals
          (Z.max 0 (expectedCount - Z.of_nat (length existingOrdinals))) (st, false) with
  | Some (st, failed) => (st, if failed : bool then None else Some ())
  | None => (st, None)
  end.

Definition scaleUpRoles (group : string) (role : RoleTemplate) (roleList : list Role) (expectedCount groupOrdinal : Z) (newRevision : string) (allowTargetStart : bool) : run State unit :=
  updateStore (fun s => UpdateServingGroupStatus s key group ServingGroupScaling) ≫= fun _ =>
  createMissingRoles group role roleList expectedCount groupOrdinal newRevision allowTargetStart.

(** ** One role of a group *)

Definition roleListOf (group : string) (role : RoleTemplate) : run State (list Role) :=
  s ← currentStore; need (match GetRoleList s key group (templateName role) with inl l => Some l | inr _ => None end).

(** The first half: the instances that remain and how many there are to be. *)
Definition shrinkRole (group : string) (role : RoleTemplate) : run State (list Role * Z) :=
  roleList ← roleListOf group role;
  let expectedCount := expectedRoles group role roleList in
  if expectedCount <? Z.of_nat (length roleList) then
    reduceRole group role roleList expectedCount ≫= fun _ =>
    roleList ← roleListOf group role;
    mret (roleList, expectedCount)
  else mret (roleList, expectedCount).

Definition growRole (group : string) (role : RoleTemplate) (groupOrdinal : Z) (newRevision : string) (allowTargetStart : bool) (roleList : list Role) (expectedCount : Z) : run State unit :=
  historyErrors ← syncInstances group role groupOrdinal newRevision allowTargetStart roleList;
  (if Z.of_nat (length roleList) <? expectedCount then scaleUpRoles group role roleList expectedCount groupOrdinal newRevision allowTargetStart else mret ()) ≫= fun _ =>
  require (negb historyErrors).

Definition manageRoleReplicasPerGroup (group : string) (role : RoleTemplate) (groupOrdinal : Z) (newRevision : string) (allowTargetStart : bool) : run State unit :=
  '(roleList, expectedCount) ← shrinkRole group role;
  growRole group role groupOrdinal newRevision allowTargetStart roleList expectedCount.

(** ** All roles of all groups *)

Definition servingPartition : option Z := getPartition GetScaledValueFromIntOrPercent (rollingPartition config) replicas.

(** The errors of the roles are collected. *)
Fixpoint syncRolesOf (group : string) (groupOrdinal : Z) (newRevision : string) (allowTargetStart : string -> bool) (l : list RoleTemplate) : run State bool :=
  match l with
  | [] => mret false
  | role :: l =>
    a ← attempt (manageRoleReplicasPerGroup group role groupOrdinal newRevision (allowTargetStart (templateName role)));
    b ← syncRolesOf group groupOrdinal newRevision allowTargetStart l;
    mret ((a : bool) || b)
  end.

Definition followReadiness (group : string) : run State bool :=
  s ← currentStore;
  ready ← onHistory (fun h => checkServingGroupReady ms (fetchRevision creation) s (cache events) None h group);
  match ready with
  | None => mret true
  | Some ready =>
    let status := GetServingGroupStatus s key group in
    if bool_decide (status = ServingGroupDeleting) then mret false
    else if ready : bool then attempt (updateStore (fun s => UpdateServingGroupStatus s key group ServingGroupRunning))
    else if bool_decide (status = ServingGroupRunning) then attempt (updateStore (fun s => UpdateServingGroupStatus s key group ServingGroupCreating))
    else mret false
  end.

Definition syncRolesAndStatus (group : string) (groupOrdinal : Z) (newRevision : string) (allowTargetStart : string -> bool) (l : list RoleTemplate) : run State bool :=
  a ← syncRolesOf group groupOrdinal newRevision allowTargetStart l;
  b ← followReadiness group;
  mret ((a : bool) || b).

(** A group whose revision cannot be read may only shrink. *)
Definition syncUnreadable (index : nat) (group : ServingGroup) : run State bool :=
  (if bool_decide (GroupStatus group = ServingGroupRunning) then try (updateStore (fun s => UpdateServingGroupStatus s key (GroupName group) ServingGroupCreating)) else mret ()) ≫= fun _ =>
  (match servingPartition with
   | Some partition =>
     if partition <=? Z.of_nat index then
       forEach (fun role => s ← currentStore;
                match GetRoleList s key (GroupName group) (templateName role) with
                | inl instances => if templateReplicas role <? Z.of_nat (length instances) then try (reduceRole (GroupName group) role instances (templateReplicas role)) else mret ()
                | inr _ => mret ()
                end) (Roles (desired ms))
     else mret ()
   | None => mret ()
   end) ≫= fun _ =>
  mret true.

(** A group without pods starts over at the revision its ordinal asks for. *)
Definition recreateGroup (group : string) (groupOrdinal : Z) (revision : string) : run State bool :=
  attempt (
    w ← resolveRevision revision;
    require (podGroupSynced group) ≫= fun _ =>
    onWorld (fun w => (setState w (AddServingGroup (DeleteServingGroup (state w) key group) key groupOrdinal revision), true)) ≫= fun _ =>
    onCluster ms (CreatePodsForServingGroup EntryTemplate WorkerTemplate creation (applied ms w) groupOrdinal revision (Roles w))).

(** A group in group mode, with the snapshot of its revision. *)
Definition syncReadable (newRevision : string) (allowTargetStart : string -> string -> bool) (group : ServingGroup) (w : Workload) : run State bool := fun st =>
  let name := GroupName group in
  let groupOrdinal := ordinalOf name in
  match unitHasPods name "" st with
  | (st, None) => (st, Some true)
  | (st, Some true) => syncRolesAndStatus name groupOrdinal (GroupRevision group) (allowTargetStart name) (Roles w) st
  | (st, Some false) =>
    match servingPartition with
    | None => (st, Some true)
    | Some partition =>
      let revision := if groupOrdinal <? partition then currentRevision else newRevision in
      if bool_decide (revision = GroupRevision group)
      then syncRolesAndStatus name groupOrdinal (GroupRevision group) (allowTargetStart name) (Roles w) st
      else recreateGroup name groupOrdinal revision st
    end
  end.

Definition syncGroupUnit (newRevision : string) (allowTargetStart : string -> string -> bool) (index : nat) (group : ServingGroup) : run State bool :=
  w ← onHistory (fun h => workload (fetchRevision creation) h (GroupRevision group));
  match w with
  | None => syncUnreadable index group
  | Some w => syncReadable newRevision allowTargetStart group w
  end.

Definition syncGroup (newRevision : string) (allowTargetStart : string -> string -> bool) (index : nat) (group : ServingGroup) : run State bool :=
  if bool_decide (GroupStatus group = ServingGroupDeleting) then mret false
  else if roleMode ms then syncRolesAndStatus (GroupName group) (ordinalOf (GroupName group)) newRevision (allowTargetStart (GroupName group)) (Roles (desired ms))
  else syncGroupUnit newRevision allowTargetStart index group.

Fixpoint syncGroups (newRevision : string) (allowTargetStart : string -> string -> bool) (index : nat) (groups : list ServingGroup) : run State bool :=
  match groups with
  | [] => mret false
  | group :: groups =>
    a ← syncGroup newRevision allowTargetStart index group;
    b ← syncGroups newRevision allowTargetStart (S index) groups;
    mret ((a : bool) || b)
  end.

Definition syncRoleReplicas (newRevision : string) (allowTargetStart : string -> string -> bool) : run State unit :=
  require (buildPluginChain creation (desired ms)) ≫= fun _ =>
  s ← currentStore;
  failed ← syncGroups newRevision allowTargetStart 0 (match GetServingGroupByModelServing s key with inl groups => groups | inr _ => [] end);
  require (negb failed).

(** ** What a creation adds *)

Lemma follows_needed {St A B} (R : St -> St -> Prop) `{!PreOrder R} (o : option A) (f : A -> run St B) :
  (forall x, o = Some x -> follows R (f x)) -> follows R (need o ≫= f).
Proof. intros Hf s. unfold mbind, run_bind, need. destruct o as [x|]; [by apply Hf|done]. Qed.

Section adds.
Context (new : string -> LivePod -> Prop).

Definition addsPods (m m' : gmap string LivePod) : Prop := m ⊆ m' /\ forall n p, m' !! n = Some p -> m !! n = Some p \/ new n p.

#[local] Instance addsPods_preorder : PreOrder addsPods.
Proof.
  split; [intros m; split; [done|by left]|]. intros a b c [A1 A2] [B1 B2]. split; [by etrans|].
  intros n p Hp. destruct (B2 _ _ Hp) as [Hb|]; [by apply A2|by right].
Qed.

(** A group that is there keeps its revision. *)
Definition revisionsKept (group : string) (s s' : store) : Prop := forall G, vGroup (view s) key group = Some G ->
  exists G', vGroup (view s') key group = Some G' /\ gRevision G' = gRevision G.

#[local] Instance revisionsKept_preorder group : PreOrder (revisionsKept group).
Proof.
  split; [intros s G HG; by exists G|]. intros a b c Hab Hbc G HG. destruct (Hab G HG) as (G1 & H1 & E1). destruct (Hbc G1 H1) as (G2 & H2 & E2).
  exists G2. split; [done|congruence].
Qed.

Lemma kept_op op group s : (match op with
    | OpUpdateRoleStatus _ _ _ _ _ | OpDeleteRole _ _ _ _ | OpAddRole _ _ _ _ _ _ | OpUpdateServingGroupStatus _ _ _ => True | _ => False end) ->
  revisionsKept group s (storeStep op s).2.
Proof.
  intros Hop G HG. pose proof (proj1 (proj2 (proj1 (step_refines op s))) key group) as E. rewrite E. clear E.
  revert HG. generalize (view s). intros v HG. destruct op as [n g| | |n g| |n g r i rev h| | | |n g st| |]; try done; cbn [specStep snd].
  - destruct (vRole v _ _ _ _); cbn; by exists G.
  - cbn. by exists G.
  - cbn. case_decide as Ek; [|by exists G]. injection Ek as En Eg. rewrite <- En, <- Eg, HG. cbn. by eexists.
  - destruct (vGroup v n g) as [G0|] eqn:E0; cbn; [|by exists G]. case_decide as Ek; [|by exists G]. injection Ek as En Eg. rewrite <- En, <- Eg, HG in E0.
    injection E0 as <-. by eexists.
Qed.

Definition clusterAdds (group : string) (c c' : Cluster) : Prop := addsPods (server c) (server c') /\ revisionsKept group (stored c) (stored c').

#[local] Instance clusterAdds_preorder group : PreOrder (clusterAdds group).
Proof. split; [intros c; split; reflexivity|]. intros a b c [A1 A2] [B1 B2]. split; by etrans. Qed.

Lemma clusterAdds_same group c c' : server c' = server c -> stored c' = stored c -> clusterAdds group c c'.
Proof. intros E1 E2. unfold clusterAdds. rewrite E1, E2. split; reflexivity. Qed.

Hypothesis identity_kept : identityKept EntryTemplate WorkerTemplate creation.

Lemma createPod_adds group ms' temporary isEntry g r i pod : (forall p mark, keepsIdentity pod p -> new (PodName (Meta pod)) (MkLive p mark)) ->
  follows (clusterAdds group) (createPod creation ms' temporary isEntry g r i pod).
Proof using identity_kept.
  intros Hnew. unfold createPod. intros c. destruct (onPodCreate creation (desired ms') isEntry pod) as [p|] eqn:Ep; [|by apply clusterAdds_same].
  cbn. unfold mbind, run_bind, need. cbn. pose proof (plugins_keep _ _ _ identity_kept _ _ _ _ Ep) as Hk. unfold sendPod. destruct (createFails creation _); [by apply clusterAdds_same|].
  destruct (server c !! _) as [q|] eqn:Eq.
  - revert c Eq. intros c _. revert c. change (follows (clusterAdds group) (acceptExisting creation ms' g r i p)).
    unfold acceptExisting, roleTemplateHashMatches, history.
    repeat first [follow_step|destruct (_ || _)|destruct (_ && _)|by apply clusterAdds_same|destruct (workload _ _ _)].
  - cbn. split; [|reflexivity]. split; [by apply insert_subseteq|]. intros n x. cbn. rewrite lookup_insert_Some. intros [[<- <-]|[_ Hx]]; [|by left]. right.
    pose proof (admission_keeps _ _ _ identity_kept p) as Ha. destruct Hk as (K1 & K2 & K3), Ha as (A1 & A2 & A3).
    rewrite K1. apply Hnew. split; [congruence|]. split; [congruence|]. intros k Hin. rewrite A3 by done. by apply K3.
Qed.
End adds.

(** *** One instance *)

Section instance.
Hypothesis uncoordinated : roleCoordination ms = None.
Hypothesis identity_kept : identityKept EntryTemplate WorkerTemplate creation.
Context (new : string -> LivePod -> Prop) (groupOrdinal : Z).
Abbreviation groupName := (GenerateServingGroupName (ServingStore.Name key) groupOrdinal).

#[local] Existing Instance clusterAdds_preorder.

Lemma uncoordinated_applied w : coordinatedServing (applied ms w) = false.
Proof using uncoordinated. apply bool_decide_eq_false. change (roleCoordination (applied ms w)) with (roleCoordination ms). rewrite uncoordinated. by intros [? [=]]. Qed.

Lemma instance_adds group w role i revision hash :
  (forall j p mark, rendered ms groupOrdinal revision role i j hash p -> new (memberName ms groupOrdinal role i j) (MkLive p mark)) ->
  follows (clusterAdds new group) (createPodsByRoleWithContext EntryTemplate WorkerTemplate creation (applied ms w) false role i groupOrdinal revision hash).
Proof using identity_kept uncoordinated.
  intros Hnew. unfold createPodsByRoleWithContext. rewrite uncoordinated_applied. follow_step.
  - apply createPod_adds; [done|]. intros p mark Hk. apply (Hnew 0). eapply rendered_keeps; [exact Hk|]. exact (rendered_entry _ _ creation ms w groupOrdinal revision identity_kept role i hash).
  - follow_step; [follow_step|]. destruct (WorkerTemplate _ _) as [t|] eqn:Et; [|follow_step]. follow_step. apply createPod_adds; [done|]. intros p mark Hk.
    apply (Hnew _ p mark). eapply rendered_keeps; [exact Hk|]. exact (rendered_worker _ _ creation ms w groupOrdinal revision identity_kept role t i _ hash Et).
Qed.

Definition there (c : Cluster) (name : string) : Prop := is_Some (server c !! name).

Definition serverGrows (c c' : Cluster) : Prop := server c ⊆ server c'.
#[local] Instance serverGrows_preorder : PreOrder serverGrows.
Proof. split; [intros c; unfold serverGrows; done|]. intros a b c. unfold serverGrows. by etrans. Qed.

Lemma there_grows c c' name : serverGrows c c' -> there c name -> there c' name.
Proof. intros Hg [p Hp]. exists p. by eapply lookup_weaken. Qed.

Lemma createPod_grows ms' temporary isEntry g r i pod : follows serverGrows (createPod creation ms' temporary isEntry g r i pod).
Proof using identity_kept ms. intros c. by apply (createPod_adds (fun _ _ => True) identity_kept ""%string ms' temporary isEntry g r i pod ltac:(done) c). Qed.

Lemma createPod_there ms' temporary isEntry g r i pod : spec (fun _ => True) (createPod creation ms' temporary isEntry g r i pod) (fun _ c => there c (PodName (Meta pod))) (fun _ => True).
Proof using identity_kept ms.
  intros c _. pose proof (createPod_grows ms' temporary isEntry g r i pod c) as Hg. revert Hg. unfold createPod, mbind, run_bind, need.
  destruct (onPodCreate creation (desired ms') isEntry pod) as [p|] eqn:Ep; [|done]. rewrite <- (proj1 (plugins_keep _ _ _ identity_kept _ _ _ _ Ep)).
  unfold sendPod. destruct (createFails creation _); [done|]. destruct (server c !! PodName (Meta p)) as [q|] eqn:Eq.
  - cbn [fst]. destruct (acceptExisting _ _ _ _ _ _ c) as [c' [[]|]]; [|done]. cbn [fst]. intros Hg. eapply there_grows; [exact Hg|]. by exists q.
  - intros _. cbn. unfold there. cbn. rewrite lookup_insert_eq. by eexists.
Qed.

Lemma instance_there w role i revision hash :
  spec (fun _ => True) (createPodsByRoleWithContext EntryTemplate WorkerTemplate creation (applied ms w) false role i groupOrdinal revision hash)
    (fun _ c => forall j, j ∈ members WorkerTemplate w role -> there c (memberName ms groupOrdinal role i j)) (fun _ => True).
Proof using identity_kept uncoordinated.
  unfold createPodsByRoleWithContext. rewrite uncoordinated_applied. eapply spec_bind; [apply createPod_there|]. intros [].
  eapply (spec_bind _ (fun _ c => there c (memberName ms groupOrdinal role i 0))); [by apply spec_ret|]. intros [].
  change (desired (applied ms w)) with w. unfold members. destruct (WorkerTemplate w (templateName role)) as [t|].
  - eapply spec_weaken; [apply (spec_collect serverGrows _ (fun c => there c (memberName ms groupOrdinal role i 0)) (fun j c => there c (memberName ms groupOrdinal role i j)) (fun _ => True))|done| |done].
    + intros j _ c Hc. pose proof (createPod_there (applied ms w) false false groupName (templateName role) (GenerateRoleID (templateName role) i)
        (GenerateWorkerPod (applied ms w) role t groupName (GenerateRoleID (templateName role) i) j revision hash) c I) as Hp.
      pose proof (createPod_grows (applied ms w) false false groupName (templateName role) (GenerateRoleID (templateName role) i)
        (GenerateWorkerPod (applied ms w) role t groupName (GenerateRoleID (templateName role) i) j revision hash) c) as Hg.
      change (GenerateServingGroupName (ServingStore.Name (servingKey (applied ms w))) groupOrdinal) with groupName.
      destruct (createPod _ _ _ _ _ _ _ _ c) as [c' [[]|]]; [|done]. cbn [fst] in Hg. split; [by eapply there_grows|exact Hp].
    + intros j. apply createPod_grows.
    + intros j c c'. apply there_grows.
    + intros [] c [H1 H2] j [->|Hj]%elem_of_cons; [exact H1|by apply H2].
  - apply spec_ret. intros c Hc j Hj. apply list_elem_of_singleton in Hj as ->. exact Hc.
Qed.
End instance.

(** ** What the reconcile of a role adds *)

Section sync.
Hypothesis uncoordinated : roleCoordination ms = None.
Hypothesis identity_kept : identityKept EntryTemplate WorkerTemplate creation.
Context (groupOrdinal : Z) (role : RoleTemplate) (newRevision : string) (allowTargetStart : bool).
Context (start : State) (roleList : list Role).
Abbreviation groupName := (GenerateServingGroupName (ServingStore.Name key) groupOrdinal).
Abbreviation roleIDOf i := (GenerateRoleID (templateName role) i).

#[local] Existing Instance addsPods_preorder.
#[local] Existing Instance revisionsKept_preorder.
#[local] Existing Instance clusterAdds_preorder.

(** No pod of the instance is known, nor is there any at the API server. *)
Definition podless (roleID : string) : Prop :=
  (forall pod, pod ∈ getPodsByIndex (cache events) roleIDIndexKey (roleKey ms groupName (GetParentNameAndOrdinal roleID).1 roleID) -> ownedHere (Meta pod) = false) /\
  forall n p, podsThere start !! n = Some p -> ownedHere (Meta (livePod p)) = true ->
    Matches (<[ServingPods.RoleIDKey := roleID]> {[GroupNameLabelKey := groupName]}) (Labels (Meta (livePod p))) = false.

(** The revisions an instance may get pods at. *)
Inductive justified (i : Z) (revision : string) : Prop :=
| repaired r : r ∈ roleList -> ServingStore.RoleName r = roleIDOf i -> ServingStore.Status r <> RoleDeleting ->
    revision = appliedRevision ms (state (world start)) groupName r -> justified i revision
| restarted r partition : roleMode ms = true -> r ∈ roleList -> ServingStore.RoleName r = roleIDOf i -> ServingStore.Status r <> RoleDeleting ->
    podless (roleIDOf i) -> partitionOf role = Some partition -> revision = recreatedRevision partition (roleIDOf i) newRevision ->
    (revision = newRevision -> allowTargetStart = true) -> justified i revision
| added : (forall r, r ∈ roleList -> ordinalOf (ServingStore.RoleName r) <> i) ->
    missingRevision role roleList newRevision allowTargetStart i = Some revision -> justified i revision.

Definition memberOf (n : string) (p : LivePod) : Prop := exists i j revision hash, justified i revision /\
  n = memberName ms groupOrdinal role i j /\ rendered ms groupOrdinal revision role i j hash (livePod p).

Definition stateAdds (st st' : State) : Prop :=
  addsPods memberOf (podsThere st) (podsThere st') /\ revisionsKept groupName (state (world st)) (state (world st')).

#[local] Instance stateAdds_preorder : PreOrder stateAdds.
Proof. split; [intros st; split; reflexivity|]. intros a b c [A1 A2] [B1 B2]. split; by etrans. Qed.

Lemma stateAdds_same st st' : podsThere st' = podsThere st -> state (world st') = state (world st) -> stateAdds st st'.
Proof. intros E1 E2. unfold stateAdds. rewrite E1, E2. split; reflexivity. Qed.

Lemma onCluster_adds {A} (m : run Cluster A) : follows (clusterAdds memberOf groupName) m -> follows stateAdds (onCluster ms m).
Proof.
  intros Hm st. specialize (Hm (MkCluster (podsThere st) (state (world st)) (reconcileHistory st) false)). unfold onCluster. destruct (m _) as [c r]. cbn [fst] in *.
  destruct Hm as [H1 H2]. split; [exact H1|]. cbn [world podsThere]. destruct (requeued c); exact H2.
Qed.

Lemma onWorld_adds f : (forall w, revisionsKept groupName (state w) (state (f w).1)) -> follows stateAdds (onWorld f).
Proof. intros Hf st. unfold onWorld. specialize (Hf (world st)). destruct (f (world st)) as [w b]. split; [reflexivity|exact Hf]. Qed.

Lemma updateStore_adds f op : (forall s, f s = storeStep op s) ->
  (match op with OpUpdateRoleStatus _ _ _ _ _ | OpDeleteRole _ _ _ _ | OpAddRole _ _ _ _ _ _ | OpUpdateServingGroupStatus _ _ _ => True | _ => False end) ->
  follows stateAdds (updateStore f).
Proof. intros Hf Hop. apply onWorld_adds. intros w. rewrite Hf. pose proof (kept_op op groupName (state w) Hop) as Hk. destruct (storeStep op (state w)) as [err s]. exact Hk. Qed.

Lemma onHistory_adds {A} (q : revisionHistory -> A * revisionHistory) : follows stateAdds (onHistory q).
Proof. intros st. unfold onHistory, call. destruct (q (reconcileHistory st)). by apply stateAdds_same. Qed.

Lemma enqueue_adds : follows stateAdds enqueue.
Proof. apply onWorld_adds. intros w. reflexivity. Qed.

Lemma attempt_adds (m : run State unit) : follows stateAdds m -> follows stateAdds (attempt m).
Proof. intros Hm st. specialize (Hm st). unfold attempt. by destruct (m st). Qed.

Lemma try_adds (m : run State unit) : follows stateAdds m -> follows stateAdds (try m).
Proof. intros Hm st. exact (Hm st). Qed.

Lemma roleStatus_adds roleID status : follows stateAdds (updateStore (fun s => UpdateRoleStatus s key groupName (templateName role) roleID status)).
Proof. by apply (updateStore_adds _ (OpUpdateRoleStatus key groupName (templateName role) roleID status)). Qed.

Lemma resolveRevision_adds revision : follows stateAdds (resolveRevision revision).
Proof. unfold resolveRevision. follow_step; [apply onHistory_adds|follow_step]. Qed.

(** A pod of an instance whose revision is justified. *)
Lemma repair_adds w role' i revision hash : justified i revision -> templateName role' = templateName role ->
  follows stateAdds (onCluster ms (createPodsByRoleWithContext EntryTemplate WorkerTemplate creation (applied ms w) false role' i groupOrdinal revision hash)).
Proof using uncoordinated identity_kept.
  intros Hj En. apply onCluster_adds, instance_adds; [done..|]. intros j p mark Hr. exists i, j, revision, hash. split; [done|].
  revert Hr. unfold rendered, memberName, baseLabels. rewrite En. done.
Qed.

Definition along (st : State) : Prop := stateAdds start st.

Lemma along_step st st' : along st -> stateAdds st st' -> along st'.
Proof. unfold along. intros. by etrans. Qed.

Lemma along_follows {A} (m : run State A) : follows stateAdds m -> spec along m (fun _ => along) along.
Proof. intros Hm st Hst. specialize (Hm st). destruct (m st) as [st' [x|]]; by eapply along_step. Qed.

Hypothesis group_there : is_Some (vGroup (view (state (world start))) key groupName).
Hypothesis name_parses : name_ok (templateName role).
Hypothesis instances_named : forall r, r ∈ roleList -> exists i, 0 <= i <= MaxInt32 /\ ServingStore.RoleName r = roleIDOf i.

Lemma role_instance_ordinal i : 0 <= i <= MaxInt32 -> ordinalOf (roleIDOf i) = i.
Proof using name_parses. intros Hi. unfold ordinalOf, GenerateRoleID. by rewrite parent_ordinal. Qed.

Lemma roleID_nonempty i : roleIDOf i <> ""%string.
Proof. unfold GenerateRoleID. by destruct (templateName role). Qed.

Lemma applied_kept st r : along st -> appliedRevision ms (state (world st)) groupName r = appliedRevision ms (state (world start)) groupName r.
Proof using group_there.
  intros [_ Hk]. unfold appliedRevision. destruct (roleMode ms); [done|]. destruct group_there as [G HG]. destruct (Hk G HG) as (G' & HG' & E).
  cbn in HG, HG'. unfold GetServingGroupRevision. destruct (lookupGroup (state (world start)) key groupName) as [g|]; [|done].
  destruct (lookupGroup (state (world st)) key groupName) as [g'|]; [|done]. cbn in *. by simplify_eq.
Qed.

Lemma appliedTemplate_spec r : spec along (appliedTemplate groupName (templateName role) r)
  (fun o st => along st /\ forall role' revision hash, o = Some (role', revision, hash) ->
     templateName role' = templateName role /\ revision = appliedRevision ms (state (world start)) groupName r) along.
Proof using group_there.
  intros st Hst. unfold appliedTemplate, currentStore, onHistory, call, mbind, run_bind. cbn [fst snd].
  destruct (appliedRoleTemplate ms (fetchRevision creation) (state (world st)) (reconcileHistory st) groupName (templateName role) r) as [o h] eqn:E.
  split; [eapply along_step; [exact Hst|by apply stateAdds_same]|]. intros role' revision hash ->. unfold appliedRoleTemplate in E. rewrite (applied_kept st r Hst) in E.
  destruct (workload _ _ _) as [[w|] h']; [|done]. cbn in E. destruct (findRole w (templateName role)) as [r'|] eqn:Ef; [|done]. cbn in E.
  destruct (RoleRevisionHash w (templateName role)); [|done]. cbn in E. injection E as <- <- <- _. split; [|done]. apply findName_Some in Ef. exact (proj2 Ef).
Qed.

Lemma unitHasPods_spec i : spec along (unitHasPods groupName (roleIDOf i)) (fun present st => along st /\ (present = false -> podless (roleIDOf i))) along.
Proof.
  intros st Hst. unfold unitHasPods. rewrite (bool_decide_false _ (roleID_nonempty i)). destruct (existsb _ _) eqn:Ec; [by split|].
  unfold mbind, run_bind, require, stop, call, mret, run_ret. destruct podsListable; [|done]. cbn [fst snd]. split; [done|]. intros Es. split.
  - intros pod Hin. apply not_true_iff_false. intros Ho. apply not_true_iff_false in Ec. apply Ec, existsb_exists. exists pod. split; [by apply list_elem_of_In|done].
  - intros n p Hp Ho. apply not_true_iff_false. intros Hm. apply not_true_iff_false in Es. apply Es, existsb_exists. exists (n, p). split; [|exact (andb_true_intro (conj Ho Hm))].
    apply list_elem_of_In, elem_of_map_to_list. eapply lookup_weaken; [exact Hp|apply Hst].
Qed.

(** The template that is chosen has a revision that is justified. *)
Lemma chooseTemplate_spec r i recorded : r ∈ roleList -> ServingStore.RoleName r = roleIDOf i -> ServingStore.Status r <> RoleDeleting ->
  templateName recorded.1.1 = templateName role -> recorded.1.2 = appliedRevision ms (state (world start)) groupName r ->
  spec along (chooseTemplate groupName role newRevision allowTargetStart r recorded)
    (fun o st => along st /\ forall role' revision hash, o = Some (role', revision, hash) -> templateName role' = templateName role /\ justified i revision) along.
Proof using group_there name_parses instances_named.
  intros Hin Hname Hs Hr1 Hr2. assert (Hrep : justified i recorded.1.2) by by eapply repaired.
  assert (Hsame : forall role' revision hash, Some recorded = Some (role', revision, hash) -> templateName role' = templateName role /\ justified i revision)
    by (intros role' revision hash [= E]; rewrite E in *; by split).
  assert (Hskip : spec along (recordError (ErrGroupRole groupName (ServingStore.RoleName r)) ≫= fun _ => mret (M := run State) (A := option (RoleTemplate * string * string)) None)
    (fun o st => along st /\ forall role' revision hash, o = Some (role', revision, hash) -> templateName role' = templateName role /\ justified i revision) along).
  { eapply spec_bind; [apply along_follows, onHistory_adds|]. intros []. by apply spec_ret. }
  unfold chooseTemplate. destruct (roleMode ms) eqn:Emode; cbn [negb]; [|by apply spec_ret]. rewrite Hname in *. intros st Hst.
  pose proof (unitHasPods_spec i st Hst) as Hu. destruct (unitHasPods groupName (roleIDOf i) st) as [st1 [present|]]; [|by apply Hskip]. destruct Hu as [H1 Hu].
  destruct present; [by split|]. specialize (Hu eq_refl). destruct (partitionOf role) as [partition|] eqn:Ep; [|by apply Hskip].
  set (revision := recreatedRevision partition (roleIDOf i) newRevision). destruct (bool_decide (revision = newRevision) && negb allowTargetStart) eqn:Eg; [by split|].
  assert (Hj : justified i revision).
  { eapply restarted; try done. intros E. rewrite (bool_decide_true _ E) in Eg. by destruct allowTargetStart. }
  revert st1 H1. eapply spec_bind; [apply appliedTemplate_spec|]. intros [[[role' rev'] hash]|]; [|apply spec_ret; by intros st' [? _]].
  apply (spec_bind _ (fun _ st => along st /\ templateName role' = templateName role /\ rev' = revision)).
  - intros st' [H1 H2]. destruct (H2 _ _ _ eq_refl) as [En Er]. unfold appliedRevision in Er. rewrite Emode in Er. cbn in Er.
    assert (Hf : follows stateAdds (if bool_decide (rev' = RoleRevision r) then mret () else resetInstance groupName (templateName role) (roleIDOf i) rev' hash)).
    { destruct (bool_decide (rev' = RoleRevision r)); [by follow_step|]. unfold resetInstance. follow_step; [|apply enqueue_adds]. apply onWorld_adds. intros w. cbn [fst state setState].
      etrans; [apply (kept_op (OpDeleteRole key groupName (templateName role) (roleIDOf i))); done|].
      by apply (kept_op (OpAddRole key groupName (templateName role) (roleIDOf i) rev' hash)). }
    specialize (Hf st'). set (m := if bool_decide _ then _ else _) in *. destruct (m st') as [st2 [[]|]]; cbn [fst] in Hf; [split; [by eapply along_step|done]|by eapply along_step].
  - intros []. apply spec_ret. intros st' (H1 & H2 & H3). split; [done|]. intros r2 rev2 h2 [= <- <- <-]. subst rev'. by split.
Qed.

Lemma syncInstance_along r : r ∈ roleList -> spec along (syncInstance groupName role groupOrdinal newRevision allowTargetStart r) (fun _ => along) along.
Proof using uncoordinated identity_kept group_there name_parses instances_named.
  intros Hin. destruct (instances_named r Hin) as (i & Hi & Hname). unfold syncInstance. destruct (bool_decide (ServingStore.Status r = RoleDeleting)) eqn:Es; [by apply spec_ret|].
  apply bool_decide_eq_false in Es. eapply spec_bind; [apply appliedTemplate_spec|]. intros [recorded|].
  2: { apply (spec_weaken along _ _ (fun _ => along) _ along); [|by intros st [? _]|done|done]. apply along_follows. follow_step; [apply onHistory_adds|]. follow_step; [|follow_step].
       destruct (bool_decide _); [apply try_adds, roleStatus_adds|follow_step]. }
  intros st [Hst Hr]. destruct recorded as [[role' rev'] hash']. destruct (Hr _ _ _ eq_refl) as [Hr1 Hr2]. clear Hr. revert st Hst.
  eapply spec_bind; [by apply (chooseTemplate_spec r i (role', rev', hash'))|]. intros [[[role1 revision] hash]|]; [|apply spec_ret; by intros st [? _]].
  intros st [Hst Hc]. destruct (Hc _ _ _ eq_refl) as [Hn Hj]. clear Hc. revert st Hst. apply along_follows.
  follow_step; [apply resolveRevision_adds|]. follow_step; [follow_step|]. follow_step; [destruct (bool_decide _); [follow_step|apply attempt_adds, roleStatus_adds]|].
  match goal with |- follows _ (if ?b then _ else _) => destruct b end; [follow_step|]. follow_step; [|follow_step; follow_step].
  destruct (rolePodsComplete _ _ _ _ _ _ _); [follow_step|]. rewrite Hname, role_instance_ordinal by done. by apply repair_adds.
Qed.

Lemma syncInstances_along l : l ⊆ roleList -> spec along (syncInstances groupName role groupOrdinal newRevision allowTargetStart l) (fun _ => along) along.
Proof using uncoordinated identity_kept group_there name_parses instances_named.
  induction l as [|r l IH]; intros Hl; cbn [syncInstances]; [by apply spec_ret|]. eapply spec_bind; [apply syncInstance_along, Hl; by left|]. intros a.
  eapply spec_bind; [apply IH; intros x Hx; apply Hl; by right|]. intros b. by apply spec_ret.
Qed.

Lemma createRole_adds i revision : justified i revision -> follows stateAdds (createRole groupName role groupOrdinal i revision).
Proof using uncoordinated identity_kept.
  intros Hj. unfold createRole. follow_step; [|apply enqueue_adds]. apply onCluster_adds. unfold resolveWorkload, createPodsByRole, history, resolveWorkload, history.
  assert (Hworkload : forall (c : Cluster) rev, clusterAdds memberOf groupName c (let '(x, h) := workload (fetchRevision creation) (hist c) rev in (x, setHist c h)).2)
    by (intros c rev; destruct (workload _ _ _); by apply clusterAdds_same).
  repeat first [apply Hworkload|apply follows_needed; [apply _|intros ? ?]|follow_step].
  - match goal with Hf : historicalRole _ _ = Some ?r |- follows _ (createPodsByRoleWithContext _ _ _ _ _ ?r _ _ _ _) => apply findName_Some in Hf as [_ Hnm] end. apply instance_adds; [done..|]. intros j p mark Hr.
    eexists i, j, revision, _. split; [done|]. revert Hr. unfold rendered, memberName, baseLabels. by rewrite Hnm.
  - intros c. split; [reflexivity|]. by apply (kept_op (OpAddRole key groupName (templateName role) (roleIDOf i) revision _)).
Qed.

(** *** Missing instances *)

(** The ordinals a scale-up fills: the lowest that are free. *)
Definition slots (expectedCount : Z) : list Z :=
  let existingOrdinals := filter (fun o => 0 <= o) ((fun r => ordinalOf (ServingStore.RoleName r)) <$> roleList) in
  take (Z.to_nat (Z.max 0 (expectedCount - Z.of_nat (length existingOrdinals)))) (missing existingOrdinals 0 expectedCount).

Lemma slots_free expectedCount o : o ∈ slots expectedCount -> 0 <= o < expectedCount /\ forall r, r ∈ roleList -> ordinalOf (ServingStore.RoleName r) <> o.
Proof.
  intros Hin. unfold slots in Hin. apply elem_of_take in Hin as (k & Hk & _). apply list_elem_of_lookup_2 in Hk. unfold missing in Hk.
  apply list_elem_of_filter in Hk as [Hn Ho]. apply elem_of_seqZ in Ho. split; [lia|]. intros r Hr E. apply Hn. apply list_elem_of_filter. split; [lia|].
  rewrite <- E. by apply (list_elem_of_fmap_2 (fun r => ordinalOf (ServingStore.RoleName r))).
Qed.

Abbreviation createMissing := (createMissingRole groupName role roleList groupOrdinal newRevision allowTargetStart).

Lemma createMissingRoles_visit expectedCount st : createMissingRoles groupName role roleList expectedCount groupOrdinal newRevision allowTargetStart st =
  let '(st', failed) := (visitWhile createMissing (slots expectedCount) (st, false)).2 in (st', if failed : bool then None else Some ()).
Proof.
  unfold createMissingRoles. cbv zeta. match goal with |- context [forEachMissingOrdinal _ _ ?e ?l _] => rewrite (proj1 (scale_up_ordinals createMissing expectedCount 0 e l (st, false))) end.
  unfold slots. by destruct (visitWhile _ _ _).2 as [st' failed].
Qed.

Lemma createMissing_along o st failed : (forall r, r ∈ roleList -> ordinalOf (ServingStore.RoleName r) <> o) -> along st -> along (createMissing o (st, failed)).2.1.
Proof using uncoordinated identity_kept.
  intros Hfree Hst. unfold createMissingRole. cbn [fst snd]. destruct (missingRevision role roleList newRevision allowTargetStart o) as [revision|] eqn:Er.
  - pose proof (createRole_adds o revision (added o revision Hfree Er) st) as Hc. destruct (createRole _ _ _ _ _ st) as [st' [[]|]]; by eapply along_step.
  - destruct (_ && _); [|done]. eapply along_step; [exact Hst|]. apply onHistory_adds.
Qed.

Lemma visit_along l : (forall o, o ∈ l -> forall r, r ∈ roleList -> ordinalOf (ServingStore.RoleName r) <> o) ->
  forall st failed, along st -> along (visitWhile createMissing l (st, failed)).2.1.
Proof using uncoordinated identity_kept.
  induction l as [|o l IH]; intros Hl st failed Hst; [done|]. cbn [visitWhile].
  pose proof (createMissing_along o st failed (Hl o ltac:(by left)) Hst) as Hc. destruct (createMissing o (st, failed)) as [[|] [st' failed']]; [|done].
  apply IH; [intros o' Ho'; apply Hl; by right|done].
Qed.

Lemma growRole_along expectedCount st : along st -> along (growRole groupName role groupOrdinal newRevision allowTargetStart roleList expectedCount st).1.
Proof using uncoordinated identity_kept group_there name_parses instances_named.
  intros Hst. enough (H' : spec along (growRole groupName role groupOrdinal newRevision allowTargetStart roleList expectedCount) (fun _ => along) along)
    by (specialize (H' st Hst); by destruct (growRole _ _ _ _ _ _ _ st) as [st' [[]|]]).
  unfold growRole. eapply spec_bind; [by apply syncInstances_along|]. intros failed. apply (spec_bind _ (fun _ => along)); [|intros []; by apply spec_require].
  destruct (_ <? _); [|by apply spec_ret]. unfold scaleUpRoles. eapply spec_bind.
  - apply along_follows, (updateStore_adds _ (OpUpdateServingGroupStatus key groupName ServingGroupScaling)); done.
  - intros [] st1 H1. rewrite createMissingRoles_visit. pose proof (visit_along (slots expectedCount) (fun o Ho => proj2 (slots_free _ o Ho)) st1 false H1) as Hv.
    destruct (visitWhile _ _ _).2 as [st' [|]]; exact Hv.
Qed.

(** *** What a creation leaves behind *)

(** The instance is recorded, and every member of its template at the revision
    is at the API server. *)
Definition presentAt (m : gmap string LivePod) (h : revisionHistory) (o : Z) (revision : string) : Prop :=
  exists w role', snapshots h !! revision = Some (Some w) /\ findRole w (templateName role) = Some role' /\
    forall j, j ∈ members WorkerTemplate w role' -> is_Some (m !! memberName ms groupOrdinal role' o j).

Definition createdAt (o : Z) (revision : string) (st : State) : Prop :=
  is_Some (vRole (view (state (world st))) key groupName (templateName role) (roleIDOf o)) /\ presentAt (podsThere st) (reconcileHistory st) o revision.

Definition builds (m m' : gmap string LivePod) (h h' : revisionHistory) (s s' : store) : Prop := m ⊆ m' /\ snapshots h ⊆ snapshots h' /\
  forall n g r i, is_Some (vRole (view s) n g r i) -> is_Some (vRole (view s') n g r i).

Lemma presentAt_builds m m' h h' s s' o revision : builds m m' h h' s s' -> presentAt m h o revision -> presentAt m' h' o revision.
Proof.
  intros (H1 & H2 & _) (w & role' & Hs & Hf & Hj). exists w, role'. split; [by eapply lookup_weaken|]. split; [done|]. intros j Hin.
  destruct (Hj j Hin) as [p Hp]. exists p. by eapply lookup_weaken.
Qed.

Definition clusterBuilds (c c' : Cluster) : Prop := builds (server c) (server c') (hist c) (hist c') (stored c) (stored c').
#[local] Instance clusterBuilds_preorder : PreOrder clusterBuilds.
Proof.
  split; [intros c; by split_and!|]. intros a b c (A1 & A2 & A3) (B1 & B2 & B3). split; [by etrans|]. split; [by etrans|]. intros n g r i Hi. by apply B3, A3.
Qed.

Lemma grows_builds {A} (m : run Cluster A) : follows grows m -> follows (fun c c' => snapshots (hist c) ⊆ snapshots (hist c')) m -> follows clusterBuilds m.
Proof. intros Hg Hh c. destruct (Hg c) as [H1 H2]. split; [done|]. split; [apply Hh|]. intros n g r i [x Hx]. exists x. by apply H2. Qed.

Lemma history_builds revision : follows clusterBuilds (history (fun h => workload (fetchRevision creation) h revision)).
Proof.
  intros c. unfold history, call. destruct (workload_extends (fetchRevision creation) (hist c) revision) as [[Hx _] _]. destruct (workload _ _ _) as [x h]. by split_and!.
Qed.

#[local] Instance remembers_preorder : PreOrder (fun c c' : Cluster => snapshots (hist c) ⊆ snapshots (hist c')).
Proof. split; [by intros c|]. intros a b c H1 H2. by etrans. Qed.

Lemma createPod_builds ms' temporary isEntry g r i pod : follows clusterBuilds (createPod creation ms' temporary isEntry g r i pod).
Proof.
  apply grows_builds; [apply grows_createPod|]. assert (Hh : forall rev, follows (fun c c' : Cluster => snapshots (hist c) ⊆ snapshots (hist c')) (history (fun h => workload (fetchRevision creation) h rev)))
    by (intros rev c; apply (history_builds rev c)).
  unfold createPod. follow_step; [follow_step|]. intros c. unfold sendPod. destruct (createFails creation _); [done|]. destruct (server c !! _); [|done].
  revert c. change (follows (fun c c' : Cluster => snapshots (hist c) ⊆ snapshots (hist c')) (acceptExisting creation ms' g r i x)).
  unfold acceptExisting, roleTemplateHashMatches. repeat first [apply Hh|follow_step|destruct (_ || _)|destruct (_ && _)|done].
Qed.

Lemma instance_builds w role' i revision hash : follows clusterBuilds (createPodsByRoleWithContext EntryTemplate WorkerTemplate creation (applied ms w) false role' i groupOrdinal revision hash).
Proof using uncoordinated.
  unfold createPodsByRoleWithContext. rewrite (uncoordinated_applied uncoordinated). repeat first [apply createPod_builds|follow_step|destruct (WorkerTemplate _ _)].
Qed.

Lemma resolve_known revision : spec (fun _ => True) (resolveWorkload creation revision) (fun w c => snapshots (hist c) !! revision = Some (Some w)) (fun _ => True).
Proof.
  intros c _. unfold resolveWorkload, history, call, mbind, run_bind, need. destruct (workload_extends (fetchRevision creation) (hist c) revision) as [_ Hs].
  destruct (workload _ _ _) as [[w|] h]; [exact Hs|done].
Qed.

Lemma createPods_present o revision : spec (fun _ => True) (createPodsByRole EntryTemplate WorkerTemplate creation ms false (templateName role) o groupOrdinal revision)
  (fun _ c => presentAt (server c) (hist c) o revision) (fun _ => True).
Proof using uncoordinated identity_kept.
  unfold createPodsByRole. eapply (spec_bind _ (fun _ _ => True)); [by apply spec_require|]. intros []. eapply spec_bind; [apply resolve_known|]. intros w.
  apply (spec_bind _ (fun role' c => snapshots (hist c) !! revision = Some (Some w) /\ findRole w (templateName role) = Some role')); [by apply spec_need|]. intros role'.
  apply (spec_bind _ (fun _ c => snapshots (hist c) !! revision = Some (Some w) /\ findRole w (templateName role) = Some role')); [by apply spec_need|]. intros hash.
  apply (spec_bind _ (fun _ c => snapshots (hist c) !! revision = Some (Some w) /\ findRole w (templateName role) = Some role')); [by apply spec_require|]. intros [].
  apply (spec_bind _ (fun _ c => presentAt (server c) (hist c) o revision)); [|intros []; by apply spec_ret].
  eapply spec_weaken; [apply (spec_frame clusterBuilds _ (fun _ => True) (fun c => snapshots (hist c) !! revision = Some (Some w) /\ findRole w (templateName role) = Some role'));
    [by apply instance_there|apply instance_builds|]|..].
  - intros c c' (_ & Hh & _) [Hs Hf]. split; [by eapply lookup_weaken|done].
  - intros c [Hs Hf]. by split.
  - intros [] c [Hj [Hs Hf]]. by exists w, role'.
  - done.
Qed.

Lemma createRole_created o revision : spec (fun _ => True) (createRole groupName role groupOrdinal o revision) (fun _ => createdAt o revision) (fun _ => True).
Proof using uncoordinated identity_kept.
  unfold createRole. apply (spec_bind _ (fun _ => createdAt o revision)).
  2: { intros [] st Hst. cbn. exact Hst. }
  set (prog := (_ ≫= _ : run Cluster unit)).
  assert (Hp : spec (fun _ => True) prog (fun _ c => is_Some (vRole (view (stored c)) key groupName (templateName role) (roleIDOf o)) /\ presentAt (server c) (hist c) o revision) (fun _ => True)).
  { unfold prog. eapply (spec_bind _ (fun _ _ => True)); [eapply spec_weaken; [apply resolve_known|done..]|]. intros w.
    eapply (spec_bind _ (fun _ _ => True)); [by apply spec_need|]. intros h. eapply (spec_bind _ (fun _ _ => True)); [by apply spec_need|]. intros r.
    eapply spec_bind; [apply createPods_present|]. intros hash. apply spec_modify. intros c Hc. split; [|exact Hc]. cbn [stored setStored]. rewrite vRole_AddRole, decide_True by done. by eexists. }
  clearbody prog. intros st _. unfold onCluster. specialize (Hp (MkCluster (podsThere st) (state (world st)) (reconcileHistory st) false) I). destruct (prog _) as [c [[]|]]; [|done].
  destruct Hp as [H1 H2]. split; [|exact H2]. cbn [world]. by destruct (requeued c).
Qed.

Definition stateBuilds (st st' : State) : Prop :=
  builds (podsThere st) (podsThere st') (reconcileHistory st) (reconcileHistory st') (state (world st)) (state (world st')).

Lemma createRole_builds o revision : follows stateBuilds (createRole groupName role groupOrdinal o revision).
Proof using uncoordinated.
  assert (Hc : forall (m : run Cluster unit), follows clusterBuilds m -> follows stateBuilds (onCluster ms m ≫= fun _ => enqueue)).
  { intros m Hm st. specialize (Hm (MkCluster (podsThere st) (state (world st)) (reconcileHistory st) false)). unfold mbind, run_bind, onCluster. destruct (m _) as [c [[]|]];
      unfold stateBuilds; cbn; destruct (requeued c); exact Hm. }
  apply Hc. unfold resolveWorkload, createPodsByRole, resolveWorkload.
  repeat first [apply history_builds|apply instance_builds|follow_step]. apply grows_builds; [apply grows_addRole|by intros c].
Qed.

Lemma visit_created l : (forall o, o ∈ l -> missingRevision role roleList newRevision allowTargetStart o <> None) ->
  forall st, (visitWhile createMissing l (st, false)).2.2 = false ->
  let st' := (visitWhile createMissing l (st, false)).2.1 in stateBuilds st st' /\
  forall o revision, o ∈ l -> missingRevision role roleList newRevision allowTargetStart o = Some revision -> createdAt o revision st'.
Proof using uncoordinated identity_kept.
  induction l as [|o l IH]; intros Hl st Hf; [by split; [split_and!|intros o r ?%not_elem_of_nil]|]. cbn [visitWhile] in *. unfold createMissingRole at 1 in Hf. unfold createMissingRole at 1 3.
  destruct (missingRevision role roleList newRevision allowTargetStart o) as [revision|] eqn:Er; [|by destruct (Hl o ltac:(by left))]. cbn [fst snd] in *.
  pose proof (createRole_builds o revision st) as Hb. pose proof (createRole_created o revision st I) as Hc.
  destruct (createRole groupName role groupOrdinal o revision st) as [st1 [[]|]]; [|done]. cbn [fst] in Hb.
  destruct (IH ltac:(intros o' Ho'; apply Hl; by right) st1 Hf) as [Hb' Hl']. split.
  - destruct Hb as (A1 & A2 & A3), Hb' as (B1 & B2 & B3). split; [by etrans|]. split; [by etrans|]. intros n g r i Hi. by apply B3, A3.
  - intros o' revision' [->|Ho']%elem_of_cons Er'; [|by apply Hl']. assert (revision' = revision) as -> by congruence. destruct Hc as [C1 C2]. split; [by apply Hb'|by eapply presentAt_builds].
Qed.
End sync.

(** ** Scaling down keeps what remains *)

Section shrink.
Context (group : string) (role : RoleTemplate).

(** The instances of the role are among those there were, and are otherwise the
    same unless they are being deleted. *)
Definition remain (s s' : store) : Prop := revisionsKept group s s' /\
  forall i r', lookupRole s' key group (templateName role) i = Some r' -> exists r, lookupRole s key group (templateName role) i = Some r /\
    ServingStore.RoleName r' = ServingStore.RoleName r /\ RoleRevision r' = RoleRevision r /\
    (ServingStore.Status r' = ServingStore.Status r \/ ServingStore.Status r' = RoleDeleting).

#[local] Existing Instance revisionsKept_preorder.

#[local] Instance remain_preorder : PreOrder remain.
Proof.
  split; [intros s; split; [reflexivity|]; intros i r Hr; exists r; by split_and!; [..|left]|]. intros a b c [K1 A] [K2 B]. split; [by etrans|].
  intros i r Hr. destruct (B i r Hr) as (r1 & H1 & N1 & R1 & S1). destruct (A i r1 H1) as (r2 & H2 & N2 & R2 & S2). exists r2.
  split; [done|]. split; [congruence|]. split; [congruence|]. destruct S1 as [->|]; [|by right]. exact S2.
Qed.

Lemma remain_groupStatus s status : remain s (UpdateServingGroupStatus s key group status).2.
Proof.
  split; [by apply (kept_op (OpUpdateServingGroupStatus key group status))|]. intros i r. unfold UpdateServingGroupStatus.
  destruct (s !! key) as [groups|] eqn:Es; cbn [snd]; [|intros Hr; exists r; by split_and!; [..|left]]. destruct (groups !! group) as [g|] eqn:Eg; cbn [snd]; [|intros Hr; exists r; by split_and!; [..|left]].
  rewrite (put_known _ _ _ _ _ Es), lookupRole_put, decide_True by done. intros Hr. exists r. split_and!; [|done..|by left].
  unfold lookupRole, lookupGroup. rewrite Es. cbn. rewrite Eg. exact Hr.
Qed.

Lemma remain_deleting s roleID : remain s (UpdateRoleStatus s key group (templateName role) roleID RoleDeleting).2.
Proof.
  split; [by apply (kept_op (OpUpdateRoleStatus key group (templateName role) roleID RoleDeleting))|]. intros i r. unfold UpdateRoleStatus.
  assert (Hsame : lookupRole s key group (templateName role) i = Some r -> exists r0, lookupRole s key group (templateName role) i = Some r0 /\
    ServingStore.RoleName r = ServingStore.RoleName r0 /\ RoleRevision r = RoleRevision r0 /\ (ServingStore.Status r = ServingStore.Status r0 \/ ServingStore.Status r = RoleDeleting))
    by (intros Hr; exists r; by split_and!; [..|left]).
  destruct (s !! key) as [groups|] eqn:Es; [|done]. destruct (groups !! group) as [g|] eqn:Eg; [|done]. destruct (roles g !! templateName role) as [m|] eqn:Em; [|done].
  destruct (m !! roleID) as [x|] eqn:Ex; [|done]. cbn [snd]. rewrite (put_known _ _ _ _ _ Es), lookupRole_put, decide_True by done. cbn. rewrite lookup_insert_eq. cbn.
  assert (El : lookupRole s key group (templateName role) i = m !! i) by (unfold lookupRole, lookupGroup; rewrite Es; cbn; rewrite Eg; cbn; by rewrite Em).
  rewrite El. rewrite lookup_insert_Some. intros [[<- <-]|[_ Hr]]; [exists x; by split_and!; [..|right]|exists r; by split_and!; [..|left]].
Qed.

Lemma remain_deleted s roleID : remain s (ServingStore.DeleteRole s key group (templateName role) roleID).
Proof.
  split; [by apply (kept_op (OpDeleteRole key group (templateName role) roleID))|]. intros i r. unfold ServingStore.DeleteRole.
  assert (Hsame : lookupRole s key group (templateName role) i = Some r -> exists r0, lookupRole s key group (templateName role) i = Some r0 /\
    ServingStore.RoleName r = ServingStore.RoleName r0 /\ RoleRevision r = RoleRevision r0 /\ (ServingStore.Status r = ServingStore.Status r0 \/ ServingStore.Status r = RoleDeleting))
    by (intros Hr; exists r; by split_and!; [..|left]).
  destruct (s !! key) as [groups|] eqn:Es; [|done]. destruct (groups !! group) as [g|] eqn:Eg; [|done]. destruct (roles g !! templateName role) as [m|] eqn:Em; [|done].
  rewrite (put_known _ _ _ _ _ Es), lookupRole_put, decide_True by done. cbn. rewrite lookup_insert_eq. cbn.
  assert (El : lookupRole s key group (templateName role) i = m !! i) by (unfold lookupRole, lookupGroup; rewrite Es; cbn; rewrite Eg; cbn; by rewrite Em).
  rewrite El. intros [_ Hr]%lookup_delete_Some. exists r; by split_and!; [..|left].
Qed.

Lemma remain_DeleteRole roleID w : remain (state w) (state (PodEvents.DeleteRole events ms group (templateName role) roleID w).1).
Proof.
  unfold PodEvents.DeleteRole. pose proof (remain_deleting (state w) roleID) as Hd. destruct (UpdateRoleStatus _ _ _ _ _ _) as [err s]. cbn [snd] in Hd.
  destruct (negb _); [done|]. destruct (negb _); [done|]. destruct (deletePods _ _ _ _) as [w1 o] eqn:Ed. apply deletePods_state in Ed as (Es & _). cbn [state setState] in Es.
  rewrite <- Es in Hd. destruct o as [[[|x l]|]|]; try done. destruct (negb _); [done|]. destruct (isRoleDeleted _ _ _ _ _ _); [|done]. cbn.
  etrans; [exact Hd|]. apply remain_deleted.
Qed.

Definition shrinks (st st' : State) : Prop := podsThere st' = podsThere st /\ remain (state (world st)) (state (world st')).
#[local] Instance shrinks_preorder : PreOrder shrinks.
Proof. split; [intros st; split; reflexivity|]. intros a b c [A1 A2] [B1 B2]. split; [congruence|by etrans]. Qed.

Lemma shrinkRole_shrinks : follows shrinks (shrinkRole group role).
Proof.
  assert (Hw : forall f, (forall w, remain (state w) (state (f w).1)) -> follows shrinks (onWorld f)).
  { intros f Hf st. unfold onWorld. specialize (Hf (world st)). destruct (f (world st)) as [w b]. by split. }
  unfold shrinkRole, roleListOf, currentStore. repeat first [follow_step|destruct (_ <? _); [|follow_step]|reflexivity].
  unfold reduceRole, currentStore. follow_step; [by follow_step|]. destruct (_ <=? _); [follow_step|]. follow_step.
  - apply Hw. intros w. pose proof (remain_groupStatus (state w) ServingGroupScaling). by destruct (UpdateServingGroupStatus _ _ _ _).
  - follow_step. apply Hw. intros w. apply remain_DeleteRole.
Qed.
End shrink.

(** ** The theorem *)

Lemma GetRoleList_elem s group name l r : GetRoleList s key group name = inl l -> r ∈ l -> exists i, lookupRole s key group name i = Some r.
Proof.
  unfold GetRoleList, lookupRole, lookupGroup. destruct (s !! key) as [groups|]; [|done]. cbn. destruct (groups !! group) as [g|]; [|done]. cbn.
  destruct (roles g !! name) as [m|]; cbn; intros [= <-] Hin; [|by apply not_elem_of_nil in Hin]. rewrite (merge_sort_Permutation roleLe) in Hin.
  apply list_elem_of_fmap in Hin as ([i r'] & -> & Hin). apply elem_of_map_to_list in Hin. by exists i.
Qed.

Lemma GetRoleList_group s group name l : GetRoleList s key group name = inl l -> is_Some (vGroup (view s) key group).
Proof. unfold GetRoleList. cbn. unfold lookupGroup. destruct (s !! key) as [groups|]; [|done]. cbn. destruct (groups !! group); [|done]. intros _. by eexists. Qed.

Lemma shrinkRole_list group role st st1 roleList expectedCount : shrinkRole group role st = (st1, Some (roleList, expectedCount)) ->
  GetRoleList (state (world st1)) key group (templateName role) = inl roleList.
Proof.
  unfold shrinkRole, roleListOf, currentStore, mbind, run_bind, need, call. destruct (GetRoleList (state (world st)) _ _ _) as [l|] eqn:El; [|done].
  destruct (_ <? _); [|by intros [= <- <- _]]. destruct (reduceRole _ _ _ _ st) as [st' [[]|]]; [|done].
  destruct (GetRoleList (state (world st')) _ _ _) as [l'|] eqn:El'; [|done]. by intros [= <- <- _].
Qed.

(** Reconciling the instances of a role never mixes templates. The
    scale-down that comes first changes no pod at the API server by itself and
    leaves the instances it keeps with their names and revisions. Of what
    follows, whether it succeeds or stops anywhere, every pod that is created
    has the name and the identity of a member of one instance, at a revision
    the instance may have: a recorded instance is repaired at the revision it
    runs; in role mode one that has no pod left, in the cache or at the API server,
    starts over at the current revision below the partition and at the target
    beyond, and then only if the role may start targets; and an ordinal that is
    free gets the revision of the protected instances below the partition and
    the target beyond, on the same condition. No pod that was there is
    replaced. On success every free ordinal of the scale-up is recorded, with
    all the members of its template at the API server. *)
Theorem role_sync_keeps_templates groupOrdinal role newRevision allowTargetStart st : let group := GenerateServingGroupName (ServingStore.Name key) groupOrdinal in
  roleCoordination ms = None -> identityKept EntryTemplate WorkerTemplate creation -> name_ok (templateName role) -> store_wf (state (world st)) ->
  (forall i r, lookupRole (state (world st)) key group (templateName role) i = Some r -> exists o, 0 <= o <= MaxInt32 /\ i = GenerateRoleID (templateName role) o) ->
  let '(st1, kept) := shrinkRole group role st in
  let '(st2, result) := manageRoleReplicasPerGroup group role groupOrdinal newRevision allowTargetStart st in
  podsThere st1 = podsThere st /\ remain group role (state (world st)) (state (world st1)) /\
  match kept with
  | None => st2 = st1 /\ result = None
  | Some (roleList, expectedCount) =>
    addsPods (memberOf groupOrdinal role newRevision allowTargetStart st1 roleList) (podsThere st1) (podsThere st2) /\
    (result = Some () -> Z.of_nat (length roleList) < expectedCount ->
     (forall o, o ∈ slots roleList expectedCount -> missingRevision role roleList newRevision allowTargetStart o <> None) ->
     forall o revision, o ∈ slots roleList expectedCount -> missingRevision role roleList newRevision allowTargetStart o = Some revision ->
     createdAt groupOrdinal role o revision st2)
  end.
Proof.
  intros group Hu Hk Hn Hwf Hnames. pose proof (shrinkRole_shrinks group role st) as Hs. destruct (shrinkRole group role st) as [st1 kept] eqn:Es. cbn [fst] in Hs.
  destruct Hs as [Hp Hr]. unfold manageRoleReplicasPerGroup, mbind, run_bind. rewrite Es. destruct kept as [[roleList expectedCount]|]; [|by split_and!].
  apply shrinkRole_list in Es as El. assert (Hnamed : forall r, r ∈ roleList -> exists i, 0 <= i <= MaxInt32 /\ ServingStore.RoleName r = GenerateRoleID (templateName role) i).
  { intros r Hin. destruct (GetRoleList_elem _ _ _ _ _ El Hin) as [i Hi]. destruct (proj2 Hr i r Hi) as (r0 & Hr0 & -> & _ & _). destruct (Hnames i r0 Hr0) as (o & Ho & ->).
    exists o. split; [done|]. by apply (proj2 Hwf) in Hr0. }
  pose proof (growRole_along Hu Hk groupOrdinal role newRevision allowTargetStart st1 roleList (GetRoleList_group _ _ _ _ El) Hn Hnamed expectedCount st1) as Ha.
  destruct (growRole group role groupOrdinal newRevision allowTargetStart roleList expectedCount st1) as [st2 result] eqn:Eg. split; [done|]. split; [done|]. split.
  - fold group in Ha. rewrite Eg in Ha. apply Ha. split; [split; [done|by left]|by intros G HG; exists G].
  - intros -> Hlt Hall o revision Ho Er. revert Eg. unfold growRole, mbind, run_bind.
    destruct (syncInstances _ _ _ _ _ roleList st1) as [st' [failed|]]; [|done]. destruct (Z.ltb_spec (Z.of_nat (length roleList)) expectedCount); [|lia].
    unfold scaleUpRoles, mbind, run_bind. destruct (updateStore _ st') as [st'' [[]|]]; [|done]. unfold group at 1. rewrite createMissingRoles_visit.
    pose proof (visit_created Hu Hk groupOrdinal role newRevision allowTargetStart roleList (slots roleList expectedCount) Hall st'') as Hv. fold group in Hv.
    destruct (visitWhile _ _ (st'', false)) as [go [st3 [|]]]; [done|]. unfold require, stop, mret, run_ret. destruct failed; [done|]. cbn [negb fst snd] in *. intros [= <-].
    by apply (proj2 (Hv eq_refl)).
Qed.

(** ** The whole reconcile replaces no pod *)

Definition podsKept (st st' : State) : Prop := podsThere st ⊆ podsThere st'.
#[local] Instance podsKept_preorder : PreOrder podsKept.
Proof. split; [intros st; unfold podsKept; done|]. intros a b c. unfold podsKept. by etrans. Qed.

Lemma onWorld_kept f : follows podsKept (onWorld f).
Proof. intros st. unfold onWorld, podsKept. by destruct (f (world st)). Qed.

Lemma onHistory_kept {A} (q : revisionHistory -> A * revisionHistory) : follows podsKept (onHistory q).
Proof. intros st. unfold onHistory, call, podsKept. by destruct (q (reconcileHistory st)). Qed.

Lemma onCluster_kept {A} (m : run Cluster A) : follows grows m -> follows podsKept (onCluster ms m).
Proof. intros Hm st. unfold onCluster, podsKept. destruct (Hm (MkCluster (podsThere st) (state (world st)) (reconcileHistory st) false)) as [H1 _]. by destruct (m _) as [c r]. Qed.

Lemma attempt_kept (m : run State unit) : follows podsKept m -> follows podsKept (attempt m).
Proof. intros Hm st. specialize (Hm st). unfold attempt. by destruct (m st). Qed.

Lemma try_kept (m : run State unit) : follows podsKept m -> follows podsKept (try m).
Proof. intros Hm st. exact (Hm st). Qed.

Lemma currentStore_kept : follows podsKept currentStore.
Proof. intros st. unfold podsKept. done. Qed.

Lemma match_kept {A B} (m : run State B) (f : option B -> run State A) : follows podsKept m -> (forall o, follows podsKept (f o)) ->
  follows podsKept (fun st => let '(st, o) := m st in f o st).
Proof. intros Hm Hf st. specialize (Hm st). destruct (m st) as [st' o]. etrans; [exact Hm|apply Hf]. Qed.
#[local] Existing Instance grows_preorder.

Ltac kept_step :=
  lazymatch goal with
  | |- follows _ (if ?b then _ else _) => destruct b
  | |- follows _ (onWorld _) => apply onWorld_kept
  | |- follows _ (onHistory _) => apply onHistory_kept
  | |- follows _ (attempt _) => apply attempt_kept
  | |- follows _ (try _) => apply try_kept
  | |- follows _ currentStore => apply currentStore_kept
  | |- follows _ (onCluster _ _) => apply onCluster_kept
  | |- follows _ (history _) => apply grows_history
  | |- follows _ (addRole _ _ _ _ _ _) => apply grows_addRole
  | |- follows _ (createPodsByRoleWithContext _ _ _ _ _ _ _ _ _ _) => apply grows_createPodsByRoleWithContext
  | |- follows _ (createInstance _ _ _ _ _ _ _ _) => apply grows_createInstance
  | |- follows _ (match ?x with _ => _ end) => destruct x
  | |- _ => follow_step
  end.

Lemma unitHasPods_kept group roleID : follows podsKept (unitHasPods group roleID).
Proof. unfold unitHasPods. destruct (existsb _ _); [follow_step|]. follow_step; [follow_step|]. intros st. unfold podsKept. done. Qed.

Lemma chooseTemplate_kept group role newRevision allow instance recorded : follows podsKept (chooseTemplate group role newRevision allow instance recorded).
Proof.
  unfold chooseTemplate. destruct (negb (roleMode ms)); [follow_step|]. intros st. pose proof (unitHasPods_kept group (ServingStore.RoleName instance) st) as Hu.
  destruct (unitHasPods _ _ st) as [st' o]. cbn [fst] in Hu.
  assert (Hk : forall (m : run State (option (RoleTemplate * string * string))), follows podsKept m -> podsKept st (m st').1) by (intros m Hm; etrans; [exact Hu|apply Hm]).
  destruct o as [[|]|]; [done| |apply Hk; unfold recordError; repeat kept_step].
  destruct (partitionOf role); [|apply Hk; unfold recordError; repeat kept_step]. destruct (_ && _); [done|]. apply Hk. unfold appliedTemplate, resetInstance, enqueue. repeat kept_step.
Qed.

Lemma manageRole_kept group role groupOrdinal newRevision allow : follows podsKept (manageRoleReplicasPerGroup group role groupOrdinal newRevision allow).
Proof.
  assert (Hinstance : forall r, follows podsKept (syncInstance group role groupOrdinal newRevision allow r)).
  { intros r. unfold syncInstance, appliedTemplate, recordError, updateStore, resolveRevision. repeat first [apply chooseTemplate_kept|kept_step]. }
  assert (Hinstances : forall l, follows podsKept (syncInstances group role groupOrdinal newRevision allow l)).
  { induction l as [|r l IH]; cbn [syncInstances]; [follow_step|]. follow_step; [apply Hinstance|]. follow_step; [exact IH|follow_step]. }
  assert (Hcreate : forall o revision, follows podsKept (createRole group role groupOrdinal o revision)).
  { intros o revision. unfold createRole, resolveWorkload, createPodsByRole, resolveWorkload, enqueue. repeat kept_step. }
  assert (Hmissing : forall roleList n, follows podsKept (createMissingRoles group role roleList n groupOrdinal newRevision allow)).
  { intros roleList n st. unfold createMissingRoles. cbv zeta.
    match goal with |- context [forEachMissingOrdinal ?h _ ?e ?l _] => rewrite (proj1 (scale_up_ordinals h n 0 e l (st, false))); generalize (take (Z.to_nat l) (missing e 0 n)) end.
    intros l. enough (Hv : forall failed st, podsKept st (visitWhile (createMissingRole group role roleList groupOrdinal newRevision allow) l (st, failed)).2.1)
      by (specialize (Hv false st); by destruct (visitWhile _ _ _).2 as [st' [|]]).
    clear st. induction l as [|o l IH]; intros failed st; [unfold podsKept; done|]. cbn [visitWhile]. unfold createMissingRole at 1. cbn [fst snd].
    destruct (missingRevision _ _ _ _ _) as [revision|].
    - pose proof (Hcreate o revision st) as Hc. destruct (createRole group role groupOrdinal o revision st) as [st' [[]|]]; cbn [fst] in Hc; [|exact Hc]. etrans; [exact Hc|apply IH].
    - destruct (_ && _); [apply (onHistory_kept _ st)|unfold podsKept; done]. }
  unfold manageRoleReplicasPerGroup. follow_step; [intros st; unfold podsKept; by rewrite (proj1 (shrinkRole_shrinks group role st))|]. destruct x as [roleList n]. unfold growRole, scaleUpRoles, updateStore.
  repeat first [apply Hinstances|apply Hmissing|kept_step].
Qed.

Lemma syncRoleReplicas_kept newRevision allow : follows podsKept (syncRoleReplicas newRevision allow).
Proof.
  assert (Hroles : forall group o rev a l, follows podsKept (syncRolesOf group o rev a l)).
  { intros group o rev a l. induction l as [|role l IH]; cbn [syncRolesOf]; [follow_step|]. follow_step; [apply attempt_kept, manageRole_kept|]. follow_step; [exact IH|follow_step]. }
  assert (Hready : forall group, follows podsKept (followReadiness group)) by (intros group; unfold followReadiness, updateStore; repeat kept_step).
  assert (Hboth : forall group o rev a l, follows podsKept (syncRolesAndStatus group o rev a l)) by (intros; unfold syncRolesAndStatus; repeat first [apply Hroles|apply Hready|kept_step]).
  assert (Hgroup : forall i group, follows podsKept (syncGroup newRevision allow i group)).
  { intros i group. unfold syncGroup. destruct (bool_decide _); [follow_step|]. destruct (roleMode ms); [apply Hboth|]. unfold syncGroupUnit. follow_step; [apply onHistory_kept|]. destruct x as [w|].
    - intros st. unfold syncReadable. pose proof (unitHasPods_kept (GroupName group) ""%string st) as Hu. destruct (unitHasPods _ _ st) as [st' o]. cbn [fst] in Hu.
      assert (Hk : forall (m : run State bool), follows podsKept m -> podsKept st (m st').1) by (intros m Hm; etrans; [exact Hu|apply Hm]).
      destruct o as [[|]|]; [apply Hk, Hboth| |exact Hu]. destruct servingPartition; [|exact Hu]. destruct (bool_decide (_ = GroupRevision group)); [apply Hk, Hboth|]. apply Hk.
      unfold recreateGroup, resolveRevision, CreatePodsForServingGroup. repeat kept_step.
    - unfold syncUnreadable, reduceRole, updateStore. repeat kept_step. }
  unfold syncRoleReplicas. follow_step; [follow_step|]. follow_step; [apply currentStore_kept|]. follow_step; [|follow_step]. generalize 0%nat. intros i.
  match goal with |- follows _ (syncGroups _ _ _ ?l) => generalize l end. intros groups. revert i.
  induction groups as [|group groups IH]; intros i; cbn [syncGroups]; [follow_step|]. follow_step; [apply Hgroup|]. follow_step; [apply IH|follow_step].
Qed.
End roles.

(** ** Example: a role in the middle of a rollout

    Three instances are wanted and the first is protected. The second runs the
    old template and lost a worker, the third lost all its pods. *)
#[local] Existing Instance plainWorkloads.
#[local] Existing Instance plainReference.

Definition midRole : RoleTemplate := MkRoleTemplate "vllm" 3 1.
Definition midServing : ModelServing := MkModelServing _ (MkName "ns" "ms") "u" "1" ([midRole] : Workload) true None RoleRecreate None false.
Definition midConfig (role : string) : RollingUpdateConfiguration := MkRolling None None (Some (IntVal 1)).
Definition midEntry (i : Z) : Role := MkRole (GenerateRoleID "vllm" i) "r0" "" RoleRunning.
Definition midGroup : ServingGroup :=
  MkGroup "ms-0" ∅ "r0" ServingGroupRunning {["vllm"%string := {[GenerateRoleID "vllm" 1 := midEntry 1; GenerateRoleID "vllm" 2 := midEntry 2]}]}.
Definition midPod : Pod :=
  GenerateEntryPod vllmEntry midServing (MkRoleTemplate "vllm" 3 2) "ms-0" (GenerateRoleID "vllm" 1) "r0" "".
Definition midStart : State :=
  MkState (MkWorld {[servingKey midServing := {["ms-0"%string := midGroup]}]} ∅ [] ∅ ∅) {[PodName (Meta midPod) := MkLive midPod false]} newHistory.

Definition midManage (allowTargetStart : bool) :=
  manageRoleReplicasPerGroup vllmEntry vllmWorker rollScaled (merge_sort ScaleDown.before) midServing rollEvents rollCreation true midConfig (fun _ => false) "r0"
    (fun _ _ _ => templateEquivalent) (fun _ _ _ => None) (fun _ _ _ => true) "ms-0" midRole 0 "r1" allowTargetStart midStart.

(** The names and revisions of the pods. *)
Definition podRevisions (st : State) : list (string * string) := (fun x => (x.1, ObjectRevision (Meta (livePod x.2)))) <$> map_to_list (podsThere st).

(** The second is completed as it was, the third starts over at the target if it
    may, and the first is created at the current revision. *)
Example mid_pods :
  podRevisions (midManage true).1 =
    [("ms-0-vllm-1-1", "r0"); ("ms-0-vllm-1-2", "r0"); ("ms-0-vllm-1-0", "r0"); ("ms-0-vllm-2-1", "r1"); ("ms-0-vllm-2-0", "r1");
     ("ms-0-vllm-0-1", "r0"); ("ms-0-vllm-0-2", "r0"); ("ms-0-vllm-0-0", "r0")]%string /\
  podRevisions (midManage false).1 =
    [("ms-0-vllm-1-1", "r0"); ("ms-0-vllm-1-2", "r0"); ("ms-0-vllm-1-0", "r0"); ("ms-0-vllm-0-1", "r0"); ("ms-0-vllm-0-2", "r0"); ("ms-0-vllm-0-0", "r0")]%string.
Proof. by vm_compute. Qed.

Lemma mid_identity : identityKept vllmEntry vllmWorker rollCreation.
Proof. destruct (vllm_identity [] ∅) as [H1 H2 _ _]. split; [exact H1|exact H2|by intros w e p p' [= <-]|done]. Qed.

Lemma mid_group n g G : lookupGroup (state (world midStart)) n g = Some G -> g = "ms-0"%string /\ G = midGroup.
Proof.
  unfold lookupGroup. change (state (world midStart)) with ({[servingKey midServing := {["ms-0"%string := midGroup]}]} : store).
  intros (groups & Hg & HG)%bind_Some. apply lookup_singleton_Some in Hg as [<- <-]. by apply lookup_singleton_Some in HG as [<- <-].
Qed.

Lemma mid_lookup n g r i R : lookupRole (state (world midStart)) n g r i = Some R -> (i = GenerateRoleID "vllm" 1 \/ i = GenerateRoleID "vllm" 2) /\ ServingStore.RoleName R = i.
Proof.
  intros (G & m & [_ ->]%mid_group & Hm & HR)%lookupRole_group. unfold midGroup in Hm. cbn [roles] in Hm. apply lookup_singleton_Some in Hm as [<- <-].
  apply lookup_insert_Some in HR as [[<- <-]|[_ HR]]; [by split; [left|]|]. apply lookup_singleton_Some in HR as [<- <-]. by split; [right|].
Qed.

Lemma mid_wf : store_wf (state (world midStart)).
Proof. split; [by intros n g G [-> ->]%mid_group|intros n g r i R HR; by apply (mid_lookup n g r i R)]. Qed.

Lemma mid_named i r : lookupRole (state (world midStart)) (servingKey midServing) (GenerateServingGroupName "ms" 0) "vllm" i = Some r ->
  exists o, 0 <= o <= MaxInt32 /\ i = GenerateRoleID "vllm" o.
Proof. intros [[->| ->] _]%mid_lookup; [exists 1|exists 2]; by split. Qed.

Definition midShrink := shrinkRole rollScaled (merge_sort ScaleDown.before) midServing rollEvents midConfig (fun _ => false) (fun _ _ _ => templateEquivalent) (fun _ _ _ => None) "ms-0" midRole midStart.

Lemma mid_shrunk : midShrink = (midStart, Some ([midEntry 1; midEntry 2], 3)).
Proof. by vm_compute. Qed.

Lemma mid_success : (midManage true).2 = Some ().
Proof. by vm_compute. Qed.

Lemma mid_slots : slots [midEntry 1; midEntry 2] 3 = [0] /\
  missingRevision rollScaled midServing midConfig "r0" midRole [midEntry 1; midEntry 2] "r1" true 0 = Some "r0"%string.
Proof. by vm_compute. Qed.

Lemma role_sync_keeps_templates_witness :
  podsThere midStart ⊆ podsThere (midManage true).1 /\ createdAt vllmWorker midServing 0 midRole 0 "r0" (midManage true).1.
Proof.
  pose proof (role_sync_keeps_templates vllmEntry vllmWorker rollScaled (merge_sort ScaleDown.before) midServing rollEvents rollCreation true midConfig (fun _ => false) "r0"
    (fun _ _ _ => templateEquivalent) (fun _ _ _ => None) (fun _ _ _ => true) 0 midRole "r1" true midStart eq_refl mid_identity
    ltac:(by apply (bool_decide_eq_true_1 (newline ∉ String.list_ascii_of_string "vllm"))) mid_wf mid_named) as Hs.
  cbv zeta in Hs. change (shrinkRole _ _ _ _ _ _ _ _ _ _ midStart) with midShrink in Hs. rewrite mid_shrunk in Hs.
  change (manageRoleReplicasPerGroup _ _ _ _ _ _ _ _ _ _ _ _ _ _ _ _ _ _ _ midStart) with (midManage true) in Hs.
  pose proof mid_success as Hok. destruct (midManage true) as [st2 result]. destruct Hs as (_ & _ & Ha & Hc). destruct mid_slots as [Es Er]. rewrite Es in Hc.
  split; [exact (proj1 Ha)|]. apply (Hc Hok eq_refl); [|by left|exact Er]. intros o ->%list_elem_of_singleton. by rewrite Er.
Defined.
