(* ===== verification/KvIndex.v ===== *)
(** * pkg/kthena-router/scheduler/plugins/kvcache_memory_index.go: the index of KV cache blocks

    Which pod holds which block of the KV cache, by model: an index from blocks
    to pods, the reverse index from pods to blocks, and the number of blocks of
    every pod, which is bounded. The lock makes every call one step; log lines
    are left out. *)
From S2P Require Import Prelude Names.
Local Open Scope Z_scope.

Record ownerModelKey := MkOwnerModel { keyOwner : string; keyModel : string }.
#[global] Instance ownerModelKey_eq_dec : EqDecision ownerModelKey.
Proof. solve_decision. Defined.
#[global] Instance ownerModelKey_countable : Countable ownerModelKey.
Proof. apply (inj_countable' (fun k => (keyOwner k, keyModel k)) (fun p => MkOwnerModel p.1 p.2)). by intros []. Defined.

Record KVBlockMemoryIndex := MkIndex {
  maxBlocksPerOwner : Z;
  blocks : gmap string (gmap Z (gmap string Z));
  ownerBlocks : gmap ownerModelKey (gmap Z Z);
  ownerTotals : gmap string Z;
}.

Definition setBlocks (idx : KVBlockMemoryIndex) (b : gmap string (gmap Z (gmap string Z))) : KVBlockMemoryIndex :=
  MkIndex (maxBlocksPerOwner idx) b (ownerBlocks idx) (ownerTotals idx).
Definition setOwnerBlocks (idx : KVBlockMemoryIndex) (o : gmap ownerModelKey (gmap Z Z)) : KVBlockMemoryIndex :=
  MkIndex (maxBlocksPerOwner idx) (blocks idx) o (ownerTotals idx).
Definition setTotals (idx : KVBlockMemoryIndex) (t : gmap string Z) : KVBlockMemoryIndex :=
  MkIndex (maxBlocksPerOwner idx) (blocks idx) (ownerBlocks idx) t.

Definition defaultMaxBlocksPerPod : Z := 1048576.

Definition NewKVBlockMemoryIndex (max : Z) : KVBlockMemoryIndex :=
  MkIndex (if max <=? 0 then defaultMaxBlocksPerPod else max) ∅ ∅ ∅.

Inductive KVEventType := kvEventStored | kvEventRemoved | kvEventCleared | kvEventOther (name : string).

Record KVEvent := MkEvent {
  EventType : KVEventType;
  BlockHashes : list Z;
  Timestamp : Z;
  Timestamps : list Z;
}.

Definition clampStoreTime (ts now : Z) : Z := if (ts <=? 0) || (now <? ts) then now else ts.

(** The blocks of the pods by model, and the store times of those that are held. *)
Abbreviation block := (ownerModelKey * Z)%type.
Abbreviation flat := (gmap block Z).

Section index.
(** The order in which Go ranges over the entries of a map. *)
Context (range : forall A, list A -> list A).
Abbreviation entries m := (range _ (map_to_list m)).

(** ** Parts that the operations share

    A map that is looked up is a reference into the index. *)

Definition owned (idx : KVBlockMemoryIndex) (key : ownerModelKey) : gmap Z Z := default ∅ (ownerBlocks idx !! key).
Definition modelBlocks (idx : KVBlockMemoryIndex) (model : string) : gmap Z (gmap string Z) := default ∅ (blocks idx !! model).

Definition forgetOwner (owner : string) (hash : Z) (b : gmap Z (gmap string Z)) : gmap Z (gmap string Z) :=
  match b !! hash with
  | None => b
  | Some owners => let owners := delete owner owners in if bool_decide (owners = ∅) then delete hash b else <[hash := owners]> b
  end.

Definition forget (key : ownerModelKey) (hash : Z) (idx : KVBlockMemoryIndex) : KVBlockMemoryIndex :=
  setBlocks idx (alter (forgetOwner (keyOwner key) hash) (keyModel key) (blocks idx)).
Definition disown (key : ownerModelKey) (hash : Z) (idx : KVBlockMemoryIndex) : KVBlockMemoryIndex :=
  setOwnerBlocks idx (alter (delete hash) key (ownerBlocks idx)).

Definition pruneOwner (key : ownerModelKey) (idx : KVBlockMemoryIndex) : KVBlockMemoryIndex :=
  if bool_decide (owned idx key = ∅) then setOwnerBlocks idx (delete key (ownerBlocks idx)) else idx.
Definition pruneModel (model : string) (idx : KVBlockMemoryIndex) : KVBlockMemoryIndex :=
  if bool_decide (modelBlocks idx model = ∅) then setBlocks idx (delete model (blocks idx)) else idx.

Definition releaseLocked (owner : string) (count : Z) (idx : KVBlockMemoryIndex) : KVBlockMemoryIndex :=
  let remaining := default 0 (ownerTotals idx !! owner) - count in
  setTotals idx (if 0 <? remaining then <[owner := remaining]> (ownerTotals idx) else delete owner (ownerTotals idx)).

(** ** Eviction *)

Definition countTime (counts : gmap Z Z) (ts : Z) : gmap Z Z := <[ts := default 0 (counts !! ts) + 1]> counts.
Definition countTimes (times : list Z) : gmap Z Z := fold_left countTime times ∅.

Fixpoint findCutoff (counts : gmap Z Z) (sorted : list Z) (cutoff atCutoff : Z) : Z * Z :=
  match sorted with
  | [] => (cutoff, atCutoff)
  | ts :: sorted =>
    let count := default 0 (counts !! ts) in
    if atCutoff <=? count then (ts, atCutoff) else findCutoff counts sorted ts (atCutoff - count)
  end.

(** The state of the loops: the index, [atCutoff] and [evicted]. *)
Definition evictBlock (key : ownerModelKey) (cutoff : Z) (st : KVBlockMemoryIndex * Z * Z) (entry : Z * Z) : KVBlockMemoryIndex * Z * Z :=
  let '(idx, atCutoff, evicted) := st in
  let '(hash, ts) := entry in
  if (cutoff <? ts) || ((ts =? cutoff) && (atCutoff =? 0)) then st
  else (forget key hash (disown key hash idx), if ts =? cutoff then atCutoff - 1 else atCutoff, evicted + 1).

Definition evictKey (owner : string) (cutoff : Z) (st : KVBlockMemoryIndex * Z * Z) (entry : ownerModelKey * gmap Z Z) : KVBlockMemoryIndex * Z * Z :=
  let '(key, owned) := entry in
  if negb (bool_decide (keyOwner key = owner)) then st
  else
    let '(idx, atCutoff, evicted) := fold_left (evictBlock key cutoff) (entries owned) st in
    (pruneModel (keyModel key) (pruneOwner key idx), atCutoff, evicted).

(** The store times of the owner's blocks. *)
Definition ownerTimes (owner : string) (idx : KVBlockMemoryIndex) : list Z :=
  mjoin ((fun '(key, owned) => if bool_decide (keyOwner key = owner) then (entries owned).*2 else []) <$> entries (ownerBlocks idx)).

Definition evictOldestLocked (owner : string) (idx : KVBlockMemoryIndex) : KVBlockMemoryIndex :=
  let n := Z.max 1 (maxBlocksPerOwner idx / 10) in
  let counts := countTimes (ownerTimes owner idx) in
  let '(cutoff, atCutoff) := findCutoff counts (merge_sort Z.le (map_to_list counts).*1) 0 n in
  let '(idx, _, evicted) := fold_left (evictKey owner cutoff) (entries (ownerBlocks idx)) (idx, atCutoff, 0) in
  releaseLocked owner evicted idx.

(** ** The operations *)

Definition ownerModelLocked (key : ownerModelKey) (idx : KVBlockMemoryIndex) : KVBlockMemoryIndex :=
  setOwnerBlocks (setBlocks idx (<[keyModel key := modelBlocks idx (keyModel key)]> (blocks idx)))
                 (<[key := owned idx key]> (ownerBlocks idx)).

Definition storeBlock (key : ownerModelKey) (hash ts : Z) (idx : KVBlockMemoryIndex) : KVBlockMemoryIndex :=
  let owner := keyOwner key in
  let idx :=
    match owned idx key !! hash with
    | Some _ => idx
    | None =>
      let idx := if maxBlocksPerOwner idx <=? default 0 (ownerTotals idx !! owner)
                 then ownerModelLocked key (evictOldestLocked owner idx) else idx in
      setTotals idx (<[owner := default 0 (ownerTotals idx !! owner) + 1]> (ownerTotals idx))
    end in
  let mb := modelBlocks idx (keyModel key) in
  setOwnerBlocks (setBlocks idx (<[keyModel key := <[hash := <[owner := ts]> (default ∅ (mb !! hash))]> mb]> (blocks idx)))
                 (<[key := <[hash := ts]> (owned idx key)]> (ownerBlocks idx)).

(** The time of a block: its own or that of the event. *)
Fixpoint storeLoop (key : ownerModelKey) (hashes : list Z) (timestamp : Z) (timestamps : list Z) (now : Z) (idx : KVBlockMemoryIndex) : KVBlockMemoryIndex :=
  match hashes with
  | [] => idx
  | hash :: hashes =>
    let ts := match timestamps with ts :: _ => if 0 <? ts then ts else timestamp | [] => timestamp end in
    storeLoop key hashes timestamp (tail timestamps) now (storeBlock key hash (clampStoreTime ts now) idx)
  end.

Definition storeLocked (model owner : string) (hashes : list Z) (timestamp : Z) (timestamps : list Z) (now : Z) (idx : KVBlockMemoryIndex) : KVBlockMemoryIndex :=
  if bool_decide (hashes = []) then idx
  else let key := MkOwnerModel owner model in storeLoop key hashes timestamp timestamps now (ownerModelLocked key idx).

Definition removeBlock (key : ownerModelKey) (idx : KVBlockMemoryIndex) (hash : Z) : KVBlockMemoryIndex :=
  match owned idx key !! hash with
  | None => idx
  | Some _ => forget key hash (releaseLocked (keyOwner key) 1 (disown key hash idx))
  end.

Definition removeLocked (model owner : string) (hashes : list Z) (idx : KVBlockMemoryIndex) : KVBlockMemoryIndex :=
  let key := MkOwnerModel owner model in
  pruneModel model (pruneOwner key (fold_left (removeBlock key) hashes idx)).

Definition clearLocked (model owner : string) (idx : KVBlockMemoryIndex) : KVBlockMemoryIndex :=
  let key := MkOwnerModel owner model in
  let idx' := fold_left (fun idx entry => forget key entry.1 idx) (entries (owned idx key)) idx in
  let idx' := releaseLocked owner (Z.of_nat (size (owned idx key))) idx' in
  pruneModel model (setOwnerBlocks idx' (delete key (ownerBlocks idx'))).

Definition applyEvent (model owner : string) (now : Z) (event : KVEvent) (idx : KVBlockMemoryIndex) : option KVBlockMemoryIndex :=
  if negb (bool_decide (Timestamps event = [])) && negb (bool_decide (length (Timestamps event) = length (BlockHashes event))) then None
  else
    match EventType event with
    | kvEventStored => Some (storeLocked model owner (BlockHashes event) (Timestamp event) (Timestamps event) now idx)
    | kvEventRemoved => Some (removeLocked model owner (BlockHashes event) idx)
    | kvEventCleared => Some (clearLocked model owner idx)
    | kvEventOther _ => None
    end.

(** The events before an error stay applied. *)
Fixpoint applyEvents (model owner : string) (now : Z) (events : list KVEvent) (idx : KVBlockMemoryIndex) : KVBlockMemoryIndex * bool :=
  match events with
  | [] => (idx, true)
  | event :: events =>
    match applyEvent model owner now event idx with
    | None => (idx, false)
    | Some idx => applyEvents model owner now events idx
    end
  end.

Definition Apply (owner model : string) (now : Z) (events : list KVEvent) (idx : KVBlockMemoryIndex) : KVBlockMemoryIndex * bool :=
  if bool_decide (owner = ""%string) || bool_decide (model = ""%string) then (idx, false) else applyEvents model owner now events idx.

Definition GetBlockOwners (model : string) (hashes : list Z) (idx : KVBlockMemoryIndex) : gmap Z (gmap string string) :=
  match blocks idx !! model with
  | None => ∅
  | Some mb =>
    fold_left (fun result hash =>
      match mb !! hash with
      | Some owners => if bool_decide (owners = ∅) then result else <[hash := Itoa <$> owners]> result
      | None => result
      end) hashes ∅
  end.

Definition RemoveOwner (owner : string) (idx : KVBlockMemoryIndex) : KVBlockMemoryIndex :=
  fold_left (fun idx entry => if bool_decide (keyOwner entry.1 = owner) then clearLocked (keyModel entry.1) (keyOwner entry.1) idx else idx)
    (entries (ownerBlocks idx)) idx.

(** *** Garbage collection *)

Definition gcEntry (cutoff : Z) (model : string) (hash : Z) (idx : KVBlockMemoryIndex) (entry : string * Z) : KVBlockMemoryIndex :=
  let '(owner, ts) := entry in
  if ts <? cutoff then
    let key := MkOwnerModel owner model in
    let idx := setBlocks idx (alter (alter (delete owner) hash) model (blocks idx)) in
    pruneOwner key (releaseLocked owner 1 (disown key hash idx))
  else idx.

Definition gcHash (cutoff : Z) (model : string) (idx : KVBlockMemoryIndex) (entry : Z * gmap string Z) : KVBlockMemoryIndex :=
  let '(hash, owners) := entry in
  let idx := fold_left (gcEntry cutoff model hash) (entries owners) idx in
  if bool_decide (default ∅ (modelBlocks idx model !! hash) = ∅) then setBlocks idx (alter (delete hash) model (blocks idx)) else idx.

Definition gcModel (cutoff : Z) (idx : KVBlockMemoryIndex) (entry : string * gmap Z (gmap string Z)) : KVBlockMemoryIndex :=
  let '(model, mb) := entry in
  pruneModel model (fold_left (gcHash cutoff model) (entries mb) idx).

Definition gcStaleEntries (cutoff : Z) (idx : KVBlockMemoryIndex) : KVBlockMemoryIndex :=
  fold_left (gcModel cutoff) (entries (blocks idx)) idx.

(** ** The abstract index: the store times of the blocks that are held *)

(** How many blocks a pod holds. *)
Definition held (owner : string) (F : flat) : Z := Z.of_nat (size (filter (fun x : block * Z => keyOwner x.1.1 = owner) F)).

Definition deletes (F : flat) (l : list block) : flat := foldl (fun F b => delete b F) F l.

Lemma deletes_lookup l : forall F b, deletes F l !! b = if decide (b ∈ l) then None else F !! b.
Proof.
  induction l as [|x l IH]; intros F b; [done|]. cbn [deletes foldl]. unfold deletes in IH. rewrite IH. destruct (decide (b = x)) as [->|Hn].
  - rewrite lookup_delete_eq. rewrite (decide_True (P := x ∈ x :: l)) by (by left). by case_decide.
  - rewrite lookup_delete_ne by congruence. repeat case_decide; try done; set_solver.
Qed.

Lemma deletes_app F a b : deletes F (a ++ b) = deletes (deletes F a) b.
Proof. apply foldl_app. Qed.

Lemma held_delete owner F b ts : F !! b = Some ts -> held owner (delete b F) = held owner F - (if decide (keyOwner b.1 = owner) then 1 else 0).
Proof.
  intros Hb. unfold held. rewrite map_filter_delete. case_decide as E.
  - assert (Hf : filter (fun x : block * Z => keyOwner x.1.1 = owner) F !! b = Some ts) by by apply map_lookup_filter_Some.
    rewrite map_size_delete, Hf. destruct (size _) eqn:Es; [|lia]. apply map_size_empty_inv in Es. rewrite Es in Hf. by rewrite lookup_empty in Hf.
  - rewrite delete_id; [lia|]. apply map_lookup_filter_None. right. by intros x _.
Qed.

Lemma held_insert owner F b ts : held owner (<[b := ts]> F) = held owner F + (if decide (keyOwner b.1 = owner /\ F !! b = None) then 1 else 0).
Proof.
  unfold held. rewrite map_filter_insert. case_decide as E; cbn in E.
  - rewrite map_size_insert. case_decide as E'.
    + assert (Hf : filter (fun x : block * Z => keyOwner x.1.1 = owner) F !! b = None) by (apply map_lookup_filter_None; by left; apply E'). rewrite Hf. lia.
    + destruct (F !! b) as [t|] eqn:Eb; [|by destruct E'].
      assert (Hf : filter (fun x : block * Z => keyOwner x.1.1 = owner) F !! b = Some t) by by apply map_lookup_filter_Some. rewrite Hf. cbn. lia.
  - rewrite map_filter_delete, decide_False by tauto. rewrite delete_id; [lia|]. apply map_lookup_filter_None. right. by intros x _.
Qed.

Lemma held_nonneg owner F : 0 <= held owner F.
Proof. unfold held. lia. Qed.

Lemma held_deletes owner l : forall F, NoDup l -> (forall b, b ∈ l -> is_Some (F !! b)) -> (forall b, b ∈ l -> keyOwner b.1 = owner) ->
  held owner (deletes F l) = held owner F - Z.of_nat (length l).
Proof.
  induction l as [|x l IH]; intros F Hnd Hin Ho; cbn [length]; [cbn; lia|]. apply NoDup_cons in Hnd as [Hx Hnd].
  cbn [deletes foldl]. destruct (Hin x ltac:(by left)) as [ts Hts]. fold (deletes (delete x F) l). rewrite IH; [|done| |].
  - rewrite (held_delete _ _ _ ts) by done. rewrite decide_True by (apply Ho; by left). lia.
  - intros b Hb. rewrite lookup_delete_ne by (intros ->; done). apply Hin. by right.
  - intros b Hb. apply Ho. by right.
Qed.

Lemma held_deletes_other owner l : forall F, (forall b, b ∈ l -> keyOwner b.1 <> owner) -> held owner (deletes F l) = held owner F.
Proof.
  intros F Ho. unfold held. do 2 f_equal. apply map_eq. intros b. apply option_eq. intros ts. rewrite !map_lookup_filter_Some, deletes_lookup. cbn.
  case_decide as E; [|done]. split; [by intros [? _]|]. intros [_ Hb]. by destruct (Ho b E).
Qed.

(** *** What an index represents *)

Record mirrorsBlocks (idx : KVBlockMemoryIndex) (F : flat) : Prop := {
  mirror_blocks model hash owner : modelBlocks idx model !! hash ≫= (fun owners => owners !! owner) = F !! (MkOwnerModel owner model, hash);
}.
Definition mirrorsOwned (idx : KVBlockMemoryIndex) (F : flat) : Prop := forall key hash, owned idx key !! hash = F !! (key, hash).

(** No map is empty, but for those of the keys [X] and of the hashes [Y]. *)
Record compact (X : ownerModelKey -> Prop) (Y : string -> Z -> Prop) (idx : KVBlockMemoryIndex) : Prop := {
  compact_hash model hash : modelBlocks idx model !! hash = Some ∅ -> Y model hash;
  compact_model model : blocks idx !! model = Some ∅ -> exists key, X key /\ keyModel key = model;
  compact_owner key : ownerBlocks idx !! key = Some ∅ -> X key;
}.

Definition positive (n : Z) : option Z := if n =? 0 then None else Some n.
Definition tallies (idx : KVBlockMemoryIndex) (F : flat) : Prop := forall owner, ownerTotals idx !! owner = positive (held owner F).

(** In the middle of an operation. *)
Record inside (X : ownerModelKey -> Prop) (Y : string -> Z -> Prop) (F : flat) (idx : KVBlockMemoryIndex) : Prop := {
  in_blocks : mirrorsBlocks idx F;
  in_owned : mirrorsOwned idx F;
  in_compact : compact X Y idx;
  in_tallies : tallies idx F;
}.

Definition never {A B} (a : A) (b : B) : Prop := False.
Definition nowhere {A} (a : A) : Prop := False.

Record represents (F : flat) (idx : KVBlockMemoryIndex) : Prop := {
  represents_inside : inside nowhere never F idx;
  limit_positive : 0 < maxBlocksPerOwner idx;
  within_limit owner : held owner F <= maxBlocksPerOwner idx;
}.

Lemma compact_weaken (X X' : ownerModelKey -> Prop) Y Y' idx : (forall k, X k -> X' k) -> (forall m h, Y m h -> Y' m h) -> compact X Y idx -> compact X' Y' idx.
Proof. intros HX HY [C1 C2 C3]. split; [auto| |auto]. intros m Hm. destruct (C2 m Hm) as (k & ? & ?). exists k. auto. Qed.

(** *** The parts *)

Lemma owned_disown key hash idx k : owned (disown key hash idx) k = if decide (k = key) then delete hash (owned idx k) else owned idx k.
Proof.
  unfold owned, disown. cbn. case_decide as E; [subst|by rewrite lookup_alter_ne by congruence].
  rewrite lookup_alter_eq. by destruct (ownerBlocks idx !! key).
Qed.

Lemma forgetOwner_lookup owner hash b h o :
  forgetOwner owner hash b !! h ≫= (fun owners => owners !! o) = if decide (h = hash /\ o = owner) then None else b !! h ≫= (fun owners => owners !! o).
Proof.
  unfold forgetOwner. destruct (decide (h = hash)) as [->|Hn].
  2: { rewrite decide_False by tauto. destruct (b !! hash); [|done]. cbn zeta. case_bool_decide; [by rewrite lookup_delete_ne|by rewrite lookup_insert_ne]. }
  destruct (b !! hash) as [owners|] eqn:Eb.
  - cbn zeta. cbn [mbind option_bind]. assert (Ed : delete owner owners !! o = if decide (hash = hash /\ o = owner) then None else owners !! o).
    { destruct (decide (o = owner)) as [->|Ho]; [by rewrite decide_True, lookup_delete_eq|rewrite decide_False by tauto; by rewrite lookup_delete_ne]. }
    rewrite <- Ed. case_bool_decide as E; [rewrite lookup_delete_eq, E; cbn; by rewrite lookup_empty|by rewrite lookup_insert_eq].
  - rewrite Eb. by case_decide.
Qed.

Lemma forgetOwner_empty owner hash b h : forgetOwner owner hash b !! h = Some ∅ -> b !! h = Some ∅.
Proof.
  unfold forgetOwner. destruct (b !! hash) as [owners|] eqn:Eb; [|done]. cbn zeta. case_bool_decide as E.
  - destruct (decide (h = hash)) as [->|Hn]; [by rewrite lookup_delete_eq|by rewrite lookup_delete_ne].
  - destruct (decide (h = hash)) as [->|Hn]; [by rewrite lookup_insert_eq; intros [= ?]|by rewrite lookup_insert_ne].
Qed.

Lemma modelBlocks_alter f idx model m : f ∅ = ∅ ->
  modelBlocks (setBlocks idx (alter f model (blocks idx))) m = if decide (m = model) then f (modelBlocks idx m) else modelBlocks idx m.
Proof.
  intros Hf. unfold modelBlocks. cbn. case_decide as E; [subst|by rewrite lookup_alter_ne by congruence].
  rewrite lookup_alter_eq. by destruct (blocks idx !! model).
Qed.

Lemma modelBlocks_forget key hash idx m :
  modelBlocks (forget key hash idx) m = if decide (m = keyModel key) then forgetOwner (keyOwner key) hash (modelBlocks idx m) else modelBlocks idx m.
Proof. apply modelBlocks_alter. unfold forgetOwner. by rewrite lookup_empty. Qed.

(** A lookup that leaves no empty map at other keys. *)
Lemma alter_empty {K} `{Countable K} {A} `{Countable B} (f : gmap B A -> gmap B A) (k k' : K) (m : gmap K (gmap B A)) :
  alter f k m !! k' = Some ∅ -> k' = k \/ m !! k' = Some ∅.
Proof. destruct (decide (k' = k)) as [->|Hn]; [by left|]. rewrite lookup_alter_ne by congruence. by right. Qed.

Lemma mirrors_forget key hash idx F : mirrorsBlocks idx F -> mirrorsBlocks (forget key hash idx) (delete (key, hash) F).
Proof.
  intros [HB]. split. intros m h o. rewrite modelBlocks_forget. case_decide as Em.
  - subst. rewrite forgetOwner_lookup, HB. case_decide as E.
    + destruct E as [-> ->]. destruct key. by rewrite lookup_delete_eq.
    + rewrite lookup_delete_ne; [done|]. intros [= Ek ->]. apply E. split; [done|]. by rewrite Ek.
  - rewrite HB, lookup_delete_ne; [done|]. intros [= Ek ->]. by rewrite Ek in Em.
Qed.

Lemma mirrors_disown key hash idx F : mirrorsOwned idx F -> mirrorsOwned (disown key hash idx) (delete (key, hash) F).
Proof.
  intros HO k h. rewrite owned_disown. case_decide as E.
  - subst. destruct (decide (h = hash)) as [->|Hn]; [by rewrite !lookup_delete_eq|]. rewrite !lookup_delete_ne by congruence. apply HO.
  - rewrite lookup_delete_ne by congruence. apply HO.
Qed.

Lemma compact_forget X Y key hash idx : X key -> compact X Y idx -> compact X Y (forget key hash idx).
Proof.
  intros HX [C1 C2 C3]. split; [| |done].
  - intros m h. rewrite modelBlocks_forget. case_decide; [|apply C1]. intros E%forgetOwner_empty. by apply C1.
  - intros m E. cbn in E. apply alter_empty in E as [->|E]; [by exists key|by apply C2].
Qed.

Lemma compact_disown X Y key hash idx : X key -> compact X Y idx -> compact X Y (disown key hash idx).
Proof. intros HX [C1 C2 C3]. split; [done|done|]. intros k E. cbn in E. apply alter_empty in E as [->|E]; [done|by apply C3]. Qed.

Lemma owned_pruneOwner key idx k : owned (pruneOwner key idx) k = owned idx k.
Proof.
  unfold pruneOwner. case_bool_decide as E; [|done]. unfold owned in *. cbn. destruct (decide (k = key)) as [->|Hn].
  - by rewrite lookup_delete_eq, E.
  - by rewrite lookup_delete_ne.
Qed.

Lemma modelBlocks_pruneModel model idx m : modelBlocks (pruneModel model idx) m = modelBlocks idx m.
Proof.
  unfold pruneModel. case_bool_decide as E; [|done]. unfold modelBlocks in *. cbn. destruct (decide (m = model)) as [->|Hn].
  - by rewrite lookup_delete_eq, E.
  - by rewrite lookup_delete_ne.
Qed.

Lemma pruneOwner_blocks key idx : blocks (pruneOwner key idx) = blocks idx.
Proof. unfold pruneOwner. by case_bool_decide. Qed.
Lemma pruneOwner_totals key idx : ownerTotals (pruneOwner key idx) = ownerTotals idx.
Proof. unfold pruneOwner. by case_bool_decide. Qed.
Lemma pruneOwner_max key idx : maxBlocksPerOwner (pruneOwner key idx) = maxBlocksPerOwner idx.
Proof. unfold pruneOwner. by case_bool_decide. Qed.
Lemma pruneModel_owned model idx : ownerBlocks (pruneModel model idx) = ownerBlocks idx.
Proof. unfold pruneModel. by case_bool_decide. Qed.
Lemma pruneModel_totals model idx : ownerTotals (pruneModel model idx) = ownerTotals idx.
Proof. unfold pruneModel. by case_bool_decide. Qed.
Lemma pruneModel_max model idx : maxBlocksPerOwner (pruneModel model idx) = maxBlocksPerOwner idx.
Proof. unfold pruneModel. by case_bool_decide. Qed.

Lemma pruneOwner_empty key idx k : ownerBlocks (pruneOwner key idx) !! k = Some ∅ -> k <> key /\ ownerBlocks idx !! k = Some ∅.
Proof.
  unfold pruneOwner. case_bool_decide as E; cbn.
  - destruct (decide (k = key)) as [->|Hn]; [by rewrite lookup_delete_eq|by rewrite lookup_delete_ne].
  - intros Hk. split; [|done]. intros ->. apply E. unfold owned. by rewrite Hk.
Qed.

Lemma pruneModel_empty model idx m : blocks (pruneModel model idx) !! m = Some ∅ -> m <> model /\ blocks idx !! m = Some ∅.
Proof.
  unfold pruneModel. case_bool_decide as E; cbn.
  - destruct (decide (m = model)) as [->|Hn]; [by rewrite lookup_delete_eq|by rewrite lookup_delete_ne].
  - intros Hm. split; [|done]. intros ->. apply E. unfold modelBlocks. by rewrite Hm.
Qed.

(** After the maps of a key are pruned, only the other exceptions are left. *)
Lemma compact_prune (X : ownerModelKey -> Prop) Y key idx : compact (fun k => X k \/ k = key) Y idx -> compact X Y (pruneModel (keyModel key) (pruneOwner key idx)).
Proof.
  intros [C1 C2 C3]. split.
  - intros m h. rewrite modelBlocks_pruneModel. unfold modelBlocks. rewrite pruneOwner_blocks. apply C1.
  - intros m [Hm E]%pruneModel_empty. rewrite pruneOwner_blocks in E. destruct (C2 m E) as (k & [Hk| ->] & <-); [by exists k|done].
  - intros k. rewrite pruneModel_owned. intros [Hk E]%pruneOwner_empty. by destruct (C3 k E).
Qed.

Lemma mirrors_prune F key idx : let idx' := pruneModel (keyModel key) (pruneOwner key idx) in
  (mirrorsBlocks idx F -> mirrorsBlocks idx' F) /\ (mirrorsOwned idx F -> mirrorsOwned idx' F).
Proof.
  split.
  - intros [HB]. split. intros m h o. rewrite modelBlocks_pruneModel. unfold modelBlocks. rewrite pruneOwner_blocks. apply HB.
  - intros HO k h. unfold owned. rewrite pruneModel_owned. fold (owned (pruneOwner key idx) k). rewrite owned_pruneOwner. apply HO.
Qed.

Lemma inside_prune (X : ownerModelKey -> Prop) Y F key idx :
  inside (fun k => X k \/ k = key) Y F idx -> inside X Y F (pruneModel (keyModel key) (pruneOwner key idx)).
Proof.
  intros [HB HO HC HT]. split; [by apply mirrors_prune..|by apply compact_prune|].
  intros o. rewrite pruneModel_totals, pruneOwner_totals. apply HT.
Qed.

Lemma release_totals owner count idx o : 0 <= default 0 (ownerTotals idx !! owner) - count ->
  ownerTotals (releaseLocked owner count idx) !! o = if decide (o = owner) then positive (default 0 (ownerTotals idx !! owner) - count) else ownerTotals idx !! o.
Proof.
  intros Hc. unfold releaseLocked, positive. cbn. destruct (Z.ltb_spec 0 (default 0 (ownerTotals idx !! owner) - count)); case_decide; subst.
  - rewrite lookup_insert_eq. by destruct (Z.eqb_spec (default 0 (ownerTotals idx !! owner) - count) 0); [lia|].
  - by rewrite lookup_insert_ne by congruence.
  - rewrite lookup_delete_eq. by destruct (Z.eqb_spec (default 0 (ownerTotals idx !! owner) - count) 0); [|lia].
  - by rewrite lookup_delete_ne by congruence.
Qed.

Lemma positive_default n : default 0 (positive n) = n.
Proof. unfold positive. by destruct (Z.eqb_spec n 0). Qed.

(** The number that is released fits the blocks that are gone. *)
Lemma release_tallies owner count idx F F' : tallies idx F -> held owner F' = held owner F - count ->
  (forall o, o <> owner -> held o F' = held o F) -> tallies (releaseLocked owner count idx) F'.
Proof.
  intros HT Hc Ho o. rewrite release_totals; rewrite HT, positive_default.
  - case_decide; [subst; by rewrite Hc|]. by rewrite HT, Ho.
  - rewrite <- Hc. apply held_nonneg.
Qed.

(** *** Choosing what to evict *)

Definition occurs (t : Z) (l : list Z) : Z := Z.of_nat (length (filter (fun ts => ts = t) l)).
Definition below (t : Z) (l : list Z) : Z := Z.of_nat (length (filter (fun ts => ts < t) l)).

Lemma countTimes_from l : forall counts t,
  let counts' := fold_left countTime l counts in
  default 0 (counts' !! t) = default 0 (counts !! t) + occurs t l /\ (is_Some (counts' !! t) <-> is_Some (counts !! t) \/ t ∈ l).
Proof.
  induction l as [|x l IH]; intros counts t; cbn [fold_left].
  - unfold occurs. cbn. split; [lia|]. split; [by left|]. intros [?|Hin]; [done|by apply not_elem_of_nil in Hin].
  - destruct (IH (countTime counts x) t) as [I1 I2]. split.
    + rewrite I1. unfold occurs, countTime. rewrite filter_cons. destruct (decide (t = x)) as [->|Hn].
      * rewrite lookup_insert_eq, decide_True by done. cbn. lia.
      * by rewrite lookup_insert_ne, decide_False by congruence.
    + rewrite I2, elem_of_cons. unfold countTime. destruct (decide (t = x)) as [->|Hn].
      * rewrite lookup_insert_eq. split; [by right; left|]. intros _. left. by eexists.
      * rewrite lookup_insert_ne by congruence. tauto.
Qed.

Lemma countTimes_spec l t : default 0 (countTimes l !! t) = occurs t l /\ (is_Some (countTimes l !! t) <-> t ∈ l).
Proof.
  destruct (countTimes_from l ∅ t) as [H1 H2]. fold (countTimes l) in H1, H2. split.
  - rewrite H1, lookup_empty. cbn. lia.
  - rewrite H2, lookup_empty. split; [|by right]. intros [[? ?]|?]; done.
Qed.

Definition timesSorted (l : list Z) : list Z := merge_sort Z.le (map_to_list (countTimes l)).*1.

Lemma timesSorted_elem l t : t ∈ timesSorted l <-> t ∈ l.
Proof.
  unfold timesSorted. rewrite merge_sort_Permutation. rewrite <- (proj2 (countTimes_spec l t)), list_elem_of_fmap. split.
  - intros ([k n] & -> & Hin). apply elem_of_map_to_list in Hin. by eexists.
  - intros [n Hn]. exists (t, n). split; [done|]. by apply elem_of_map_to_list.
Qed.

Lemma timesSorted_sorted l : StronglySorted Z.lt (timesSorted l).
Proof.
  assert (Hnd : NoDup (timesSorted l)) by (unfold timesSorted; rewrite merge_sort_Permutation; apply NoDup_fst_map_to_list).
  assert (Hs : StronglySorted Z.le (timesSorted l)) by apply (StronglySorted_merge_sort Z.le). revert Hnd Hs.
  induction (timesSorted l) as [|x k IH]; intros Hnd Hs; [constructor|]. apply NoDup_cons in Hnd as [Hx Hnd].
  apply StronglySorted_inv in Hs as [Hs Hall]. constructor; [by apply IH|]. rewrite Forall_forall in *. intros y Hy. specialize (Hall y Hy).
  destruct (decide (x = y)) as [->|]; [done|lia].
Qed.

Lemma findCutoff_from l ks : forall P a c, timesSorted l = P ++ ks ->
  1 <= a -> a + Z.of_nat (length (filter (fun t => t ∈ P) l)) <= Z.of_nat (length l) ->
  let '(c', a') := findCutoff (countTimes l) ks c a in
  1 <= a' <= occurs c' l /\ below c' l + a' = a + Z.of_nat (length (filter (fun t => t ∈ P) l)).
Proof.
  induction ks as [|k ks IH]; intros P a c HP Ha Hl; cbn [findCutoff].
  - exfalso. rewrite app_nil_r in HP. rewrite (proj2 (filter_full (fun t => t ∈ P) l)) in Hl; [lia|]. intros t Ht. rewrite <- HP. by apply timesSorted_elem.
  - rewrite (proj1 (countTimes_spec l k)). pose proof (timesSorted_sorted l) as Hs. rewrite HP in Hs.
    apply StronglySorted_app_inv in Hs as (HsP & Hs & Hlt). apply StronglySorted_inv in Hs as [Hs Hk]. rewrite Forall_forall in Hk.
    assert (Hbelow : below k l = Z.of_nat (length (filter (fun t => t ∈ P) l))).
    { unfold below. do 2 f_equal. apply filter_ext_in. intros t Ht. apply timesSorted_elem in Ht. rewrite HP, elem_of_app, elem_of_cons in Ht. split.
      - intros Htk. destruct Ht as [?|[->|Ht]]; [done|lia|]. specialize (Hk t Ht). lia.
      - intros Hin. apply (Hlt t k Hin). by left. }
    destruct (Z.leb_spec a (occurs k l)); [lia|].
    assert (Hstep : Z.of_nat (length (filter (fun t => t ∈ P ++ [k]) l)) = Z.of_nat (length (filter (fun t => t ∈ P) l)) + occurs k l).
    { unfold occurs. assert (HkP : k ∉ P) by (intros Hin; specialize (Hlt k k Hin ltac:(by left)); lia). clear -HkP.
      induction l as [|x l IHl]; [done|]. rewrite !filter_cons. repeat case_decide; cbn [length]; set_solver by lia. }
    specialize (IH (P ++ [k]) (a - occurs k l) k). rewrite <- app_assoc in IH. specialize (IH HP ltac:(lia) ltac:(lia)).
    destruct (findCutoff _ _ _ _) as [c' a']. lia.
Qed.

(** The cutoff splits the [n] oldest times off. *)
Lemma findCutoff_spec l n : 1 <= n <= Z.of_nat (length l) ->
  let '(cutoff, atCutoff) := findCutoff (countTimes l) (timesSorted l) 0 n in
  1 <= atCutoff <= occurs cutoff l /\ below cutoff l + atCutoff = n.
Proof.
  intros Hn. pose proof (findCutoff_from l (timesSorted l) [] n 0 eq_refl) as H.
  assert (E : filter (fun t : Z => t ∈ []) l = []) by (apply filter_none, Forall_forall; intros t _; apply not_elem_of_nil). rewrite E in H. cbn [length] in H.
  specialize (H ltac:(lia) ltac:(lia)). destruct (findCutoff _ _ _ _). lia.
Qed.

(** What the loops evict, and what is left of [atCutoff]. *)
Fixpoint pick (cutoff atCutoff : Z) (l : list (block * Z)) : list block * Z :=
  match l with
  | [] => ([], atCutoff)
  | (b, ts) :: l =>
    if (cutoff <? ts) || ((ts =? cutoff) && (atCutoff =? 0)) then pick cutoff atCutoff l
    else let '(v, atCutoff) := pick cutoff (if ts =? cutoff then atCutoff - 1 else atCutoff) l in (b :: v, atCutoff)
  end.

Lemma pick_app c a l1 l2 : pick c a (l1 ++ l2) = let '(v1, a) := pick c a l1 in let '(v2, a) := pick c a l2 in (v1 ++ v2, a).
Proof.
  revert a. induction l1 as [|[b ts] l1 IH]; intros a; cbn [pick app]; [by destruct (pick c a l2)|].
  destruct (_ || _); [apply IH|]. rewrite IH. destruct (pick c _ l1) as [v1 a1]. by destruct (pick c a1 l2).
Qed.

Lemma pick_length c l : forall a, 0 <= a -> Z.of_nat (length (pick c a l).1) = below c l.*2 + Z.min a (occurs c l.*2).
Proof.
  induction l as [|[b ts] l IH]; intros a Ha; cbn [pick]; [unfold below, occurs; cbn; lia|].
  assert (Ho : 0 <= occurs c l.*2) by (unfold occurs; lia).
  assert (E : below c ((b, ts) :: l).*2 = below c l.*2 + (if decide (ts < c) then 1 else 0) /\
              occurs c ((b, ts) :: l).*2 = occurs c l.*2 + (if decide (ts = c) then 1 else 0)).
  { unfold below, occurs. rewrite fmap_cons, !filter_cons. cbn [snd]. repeat case_decide; cbn [length]; lia. }
  destruct E as [-> ->].
  destruct (Z.ltb_spec c ts); cbn [orb]; [rewrite IH by done; repeat case_decide; lia|].
  destruct (Z.eqb_spec ts c) as [->|]; cbn [andb]; [destruct (Z.eqb_spec a 0); cbn [orb]|].
  - rewrite IH by done. repeat case_decide; lia.
  - specialize (IH (a - 1) ltac:(lia)). destruct (pick c (a - 1) l) as [v a']. cbn [fst length] in *. repeat case_decide; lia.
  - specialize (IH a ltac:(lia)). destruct (pick c a l) as [v a']. cbn [fst length] in *. repeat case_decide; lia.
Qed.

Lemma pick_sub c l : forall a, sublist (pick c a l).1 l.*1.
Proof.
  induction l as [|[b ts] l IH]; intros a; cbn [pick]; [constructor|]. destruct (_ || _); [constructor; apply IH|].
  specialize (IH (if ts =? c then a - 1 else a)). destruct (pick c _ l). by constructor.
Qed.

Lemma pick_old c l : forall a b, b ∈ (pick c a l).1 -> exists ts, (b, ts) ∈ l /\ ts <= c.
Proof.
  induction l as [|[x ts] l IH]; intros a b; cbn [pick]; [by intros Hin%not_elem_of_nil|].
  destruct ((c <? ts) || _) eqn:E.
  - intros Hin. destruct (IH a b Hin) as (t & Ht & ?). exists t. split; [by right|done].
  - apply orb_false_iff in E as [E _]. apply Z.ltb_ge in E. specialize (IH (if ts =? c then a - 1 else a) b). destruct (pick c _ l) as [v a'].
    intros [->|Hin]%elem_of_cons; [exists ts; split; [by left|done]|]. destruct (IH Hin) as (t & Ht & ?). exists t. split; [by right|done].
Qed.

Lemma pick_kept c l : forall a b ts, (b, ts) ∈ l -> b ∉ (pick c a l).1 -> c <= ts.
Proof.
  induction l as [|[x t] l IH]; intros a b ts; cbn [pick]; [by intros Hin%not_elem_of_nil|].
  destruct ((c <? t) || _) eqn:E.
  - intros [[= -> ->]|Hin]%elem_of_cons; [|by apply (IH a)]. intros _. apply orb_true_iff in E as [E%Z.ltb_lt|[E%Z.eqb_eq _]%andb_true_iff]; lia.
  - specialize (IH (if t =? c then a - 1 else a) b ts). destruct (pick c _ l) as [v a']. cbn [fst] in *.
    intros [[= -> ->]|Hin]%elem_of_cons Hn; [by destruct Hn; left|]. apply IH; [done|]. intros Hv. apply Hn. by right.
Qed.

(** *** The loops of an eviction *)

Hypothesis range_perm : forall A (l : list A), range A l ≡ₚ l.

Lemma entries_elem `{Countable K} {A} (m : gmap K A) k x : (k, x) ∈ (entries m : list (K * A)) <-> m !! k = Some x.
Proof using range_perm. rewrite range_perm. apply elem_of_map_to_list. Qed.

Lemma entries_nodup `{Countable K} {A} (m : gmap K A) : NoDup (entries m : list (K * A)).*1.
Proof using range_perm. rewrite range_perm. apply NoDup_fst_map_to_list. Qed.

(** What the loops do not change. *)
Definition same_rest (idx idx' : KVBlockMemoryIndex) : Prop :=
  ownerTotals idx' = ownerTotals idx /\ maxBlocksPerOwner idx' = maxBlocksPerOwner idx.

Record evictState (X : ownerModelKey -> Prop) (Y : string -> Z -> Prop) (F : flat) (a e : Z) (idx : KVBlockMemoryIndex)
    (picked : list block * Z) (st : KVBlockMemoryIndex * Z * Z) : Prop := {
  evict_blocks : mirrorsBlocks st.1.1 (deletes F picked.1);
  evict_owned : mirrorsOwned st.1.1 (deletes F picked.1);
  evict_compact : compact X Y st.1.1;
  evict_rest : same_rest idx st.1.1;
  evict_left : st.1.2 = picked.2;
  evict_count : st.2 = e + Z.of_nat (length picked.1);
}.

Lemma evictBlock_fold key cutoff X Y l : X key -> forall F a e idx, mirrorsBlocks idx F -> mirrorsOwned idx F -> compact X Y idx ->
  evictState X Y F a e idx (pick cutoff a ((fun x => ((key, x.1), x.2)) <$> l)) (fold_left (evictBlock key cutoff) l (idx, a, e)).
Proof.
  intros HX. induction l as [|[h ts] l IH]; intros F a e idx HB HO HC; [split; cbn; try done; lia|]. cbn [fold_left fmap list_fmap pick evictBlock fst snd].
  destruct (_ || _); [by apply IH|].
  specialize (IH (delete (key, h) F) (if ts =? cutoff then a - 1 else a) (e + 1) (forget key h (disown key h idx))).
  destruct IH as [I1 I2 I3 [I4 I4'] I5 I6].
  - apply mirrors_forget. destruct HB as [HB]. by split.
  - apply (mirrors_disown key h idx F HO).
  - apply compact_forget; [done|]. by apply compact_disown.
  - fold (list_fmap (Z * Z)%type (block * Z)%type). destruct (pick cutoff _ _) as [v a']. cbn [fst snd] in *. split; cbn [fst snd]; try done.
    rewrite I6. cbn [length]. lia.
Qed.

Definition entriesOf (owner : string) (l : list (ownerModelKey * gmap Z Z)) : list (block * Z) :=
  mjoin ((fun '(key, m) => if bool_decide (keyOwner key = owner) then (fun x => ((key, x.1), x.2)) <$> entries m else []) <$> l).

Lemma entriesOf_cons owner key m l : entriesOf owner ((key, m) :: l) =
  (if bool_decide (keyOwner key = owner) then (fun x => ((key, x.1), x.2)) <$> entries m else []) ++ entriesOf owner l.
Proof. done. Qed.

Lemma evictKey_fold owner cutoff X Y l : forall F a e idx, mirrorsBlocks idx F -> mirrorsOwned idx F -> compact X Y idx ->
  evictState X Y F a e idx (pick cutoff a (entriesOf owner l)) (fold_left (evictKey owner cutoff) l (idx, a, e)).
Proof.
  induction l as [|[key m] l IH]; intros F a e idx HB HO HC; [split; cbn; try done; lia|]. cbn [fold_left]. rewrite entriesOf_cons. unfold evictKey at 2. destruct (bool_decide (keyOwner key = owner)) eqn:Eo; cbn [negb]; [|by apply IH].
  pose proof (evictBlock_fold key cutoff (fun k => X k \/ k = key) Y (entries m) ltac:(by right) F a e idx HB HO ltac:(eapply compact_weaken; [by left|by intros|exact HC])) as HK.
  rewrite pick_app. destruct (pick cutoff a _) as [v1 a1]. destruct (fold_left (evictBlock key cutoff) (entries m) (idx, a, e)) as [[idx1 a1'] e1].
  destruct HK as [K1 K2 K3 [K4 K4'] K5 K6]. cbn [fst snd] in *. subst a1' e1.
  destruct (mirrors_prune (deletes F v1) key idx1) as [P1 P2].
  specialize (IH (deletes F v1) a1 (e + Z.of_nat (length v1)) _ (P1 K1) (P2 K2) (compact_prune X Y key idx1 K3)).
  destruct (pick cutoff a1 (entriesOf owner l)) as [v2 a2]. destruct IH as [I1 I2 I3 [I4 I4'] I5 I6]. cbn [fst snd] in *.
  rewrite pruneModel_totals, pruneOwner_totals in I4. rewrite pruneModel_max, pruneOwner_max in I4'.
  split; cbn [fst snd]; rewrite ?deletes_app; try done.
  - split; [by rewrite I4|by rewrite I4'].
  - rewrite I6, length_app. lia.
Qed.

(** *** An eviction

    It makes room for a tenth of the limit, at the expense of the oldest blocks
    of the pod alone. *)
Record evicts (owner : string) (n : Z) (F F' : flat) : Prop := {
  evicts_sub : F' ⊆ F;
  evicts_own b ts : F !! b = Some ts -> F' !! b = None -> keyOwner b.1 = owner;
  evicts_number : held owner F' = held owner F - n;
  evicts_oldest b b' ts ts' : F !! b = Some ts -> F' !! b = None -> F' !! b' = Some ts' -> keyOwner b'.1 = owner -> ts <= ts';
}.

Lemma ownerTimes_entries owner idx : ownerTimes owner idx = (entriesOf owner (entries (ownerBlocks idx))).*2.
Proof.
  unfold ownerTimes. set (l := range _ _). clearbody l. induction l as [|[key m] l IH]; [done|]. rewrite entriesOf_cons, fmap_app, <- IH.
  match goal with |- _ = _ ++ ?B => change ((if bool_decide (keyOwner key = owner) then (entries m).*2 else []) ++ B =
    (if bool_decide (keyOwner key = owner) then (fun x => ((key, x.1), x.2)) <$> entries m else []).*2 ++ B) end.
  f_equal. case_bool_decide; [|done]. by rewrite <- list_fmap_compose.
Qed.

Lemma ownerEntries_elem owner idx F b ts : mirrorsOwned idx F ->
  (b, ts) ∈ entriesOf owner (entries (ownerBlocks idx)) <-> F !! b = Some ts /\ keyOwner b.1 = owner.
Proof using range_perm.
  intros HO. unfold entriesOf. rewrite list_elem_of_join. split.
  - intros (x & Hin & Hx). apply list_elem_of_fmap in Hx as ([key m] & -> & Hx). apply entries_elem in Hx. case_bool_decide as Eo; [|by apply not_elem_of_nil in Hin].
    apply list_elem_of_fmap in Hin as ([h t] & [= -> ->] & Hin). apply entries_elem in Hin. split; [|done]. rewrite <- HO. unfold owned. by rewrite Hx.
  - intros [Hb Ho]. destruct b as [key h]. rewrite <- HO in Hb. unfold owned in Hb. destruct (ownerBlocks idx !! key) as [m|] eqn:Ek; cbn in Ho, Hb; [|by rewrite lookup_empty in Hb].
    eexists. split; [|apply list_elem_of_fmap; exists (key, m); split; [reflexivity|by apply entries_elem]].
    rewrite bool_decide_true by done. apply list_elem_of_fmap. exists (h, ts). split; [done|by apply entries_elem].
Qed.

Lemma ownerEntries_nodup owner idx : NoDup (entriesOf owner (entries (ownerBlocks idx))).*1.
Proof using range_perm.
  pose proof (entries_nodup (ownerBlocks idx)) as Hnd. set (l := range _ _) in *. clearbody l.
  induction l as [|[key m] l IH]; [constructor|]. rewrite entriesOf_cons. rewrite fmap_cons in Hnd. apply NoDup_cons in Hnd as [Hk Hnd]. cbn [fst] in Hk.
  rewrite fmap_app. apply NoDup_app. split_and!; [| |by apply IH].
  - case_bool_decide; [|constructor]. rewrite <- list_fmap_compose. change (fst ∘ _) with (pair key ∘ (@fst Z Z)).
    rewrite list_fmap_compose. apply NoDup_fmap_2; [by intros ? ? [=]|]. apply entries_nodup.
  - intros [k h] H1 H2. apply Hk. assert (Ek : k = key).
    { case_bool_decide; [|by apply not_elem_of_nil in H1]. apply list_elem_of_fmap in H1 as ([b t] & E & H1). cbn in E. subst b. by apply list_elem_of_fmap in H1 as (y & [= -> _ _] & _). }
    subst k. apply list_elem_of_fmap in H2 as ([b t] & E & H2). cbn in E. subst b. apply list_elem_of_join in H2 as (x & Hin & Hx).
    apply list_elem_of_fmap in Hx as ([k' m'] & -> & Hx). destruct (bool_decide (keyOwner k' = owner)); [|by apply not_elem_of_nil in Hin].
    apply list_elem_of_fmap in Hin as (y & [= -> _ _] & _). apply list_elem_of_fmap. by exists (k', m').
Qed.

Lemma ownerEntries_held owner idx F : mirrorsOwned idx F -> held owner F = Z.of_nat (length (entriesOf owner (entries (ownerBlocks idx)))).
Proof using range_perm.
  intros HO. unfold held. rewrite <- length_map_to_list. f_equal. apply Permutation_length, NoDup_Permutation; [apply NoDup_map_to_list|eapply NoDup_fmap_1, ownerEntries_nodup|].
  intros [b ts]. rewrite elem_of_map_to_list, map_lookup_filter_Some. by rewrite (ownerEntries_elem owner idx F).
Qed.

Lemma evictOldest_spec X Y F owner idx : inside X Y F idx -> 0 < maxBlocksPerOwner idx <= held owner F ->
  let idx' := evictOldestLocked owner idx in
  exists F', evicts owner (Z.max 1 (maxBlocksPerOwner idx / 10)) F F' /\ inside X Y F' idx' /\ maxBlocksPerOwner idx' = maxBlocksPerOwner idx.
Proof using range_perm.
  intros [HB HO HC HT] Hmax idx'. unfold idx', evictOldestLocked. rewrite ownerTimes_entries. fold (timesSorted (entriesOf owner (entries (ownerBlocks idx))).*2).
  set (L := entriesOf owner (entries (ownerBlocks idx))). set (n := Z.max 1 (maxBlocksPerOwner idx / 10)).
  pose proof (ownerEntries_held owner idx F HO) as Hheld. fold L in Hheld.
  assert (Hn : 1 <= n <= Z.of_nat (length L.*2)). { rewrite length_fmap. assert (maxBlocksPerOwner idx / 10 <= maxBlocksPerOwner idx) by (apply Z.div_le_upper_bound; lia). lia. }
  pose proof (findCutoff_spec L.*2 n Hn) as Hc. destruct (findCutoff _ _ 0 n) as [cutoff a].
  pose proof (evictKey_fold owner cutoff X Y (entries (ownerBlocks idx)) F a 0 idx HB HO HC) as HE. fold L in HE.
  pose proof (pick_length cutoff L a ltac:(lia)) as Hlen. pose proof (pick_sub cutoff L a) as Hsub.
  destruct (fold_left _ _ _) as [[idx1 a1] e1]. destruct HE as [E1 E2 E3 [E4 E5] _ E6]. cbn [fst snd] in *.
  set (v := (pick cutoff a L).1) in *. assert (Hv : forall b, b ∈ v -> exists ts, F !! b = Some ts /\ keyOwner b.1 = owner /\ ts <= cutoff).
  { intros b Hb. apply pick_old in Hb as (ts & Hb & Ht). apply (ownerEntries_elem owner idx F) in Hb as [? ?]; [|done]. by exists ts. }
  assert (Hnd : NoDup v) by (eapply sublist_NoDup; [apply (ownerEntries_nodup owner idx)|exact Hsub]).
  assert (Hnum : held owner (deletes F v) = held owner F - Z.of_nat (length v)).
  { apply held_deletes; [done| |]; intros b Hb; destruct (Hv b Hb) as (ts & ? & ? & _); [by eexists|done]. }
  exists (deletes F v). split; [|split; [split|done]].
  - split.
    + apply map_subseteq_spec. intros b ts. rewrite deletes_lookup. by case_decide.
    + intros b ts Hb. rewrite deletes_lookup. case_decide as Ev; [|by rewrite Hb]. intros _. by destruct (Hv b Ev) as (t & _ & ? & _).
    + rewrite Hnum. lia.
    + intros b b' ts ts' Hb. rewrite !deletes_lookup. case_decide as Ev; [|by rewrite Hb]. intros _. case_decide as Ev'; [done|]. intros Hb' Ho.
      destruct (Hv b Ev) as (t & Hb2 & _ & Ht). rewrite Hb in Hb2. injection Hb2 as <-.
      pose proof (pick_kept cutoff L a b' ts' ltac:(by apply (ownerEntries_elem owner idx F)) Ev'). lia.
  - by split; destruct E1.
  - exact E2.
  - destruct E3. by split.
  - eapply (release_tallies owner e1 idx1 F); [|rewrite Hnum; lia|].
    + intros o. rewrite E4. apply HT.
    + intros o Hon. apply held_deletes_other. intros b Hb. destruct (Hv b Hb) as (t & _ & -> & _). congruence.
Qed.

(** ** Stores *)

(** What storing blocks of a pod does: a block that is held is refreshed; a new
    one takes a free place, or evicts when there is none. *)
Inductive stores (max : Z) (key : ownerModelKey) : list (Z * Z) -> flat -> flat -> Prop :=
| stores_nil F : stores max key [] F F
| stores_held hash ts l F F' : is_Some (F !! (key, hash)) -> stores max key l (<[(key, hash) := ts]> F) F' -> stores max key ((hash, ts) :: l) F F'
| stores_room hash ts l F F' : F !! (key, hash) = None -> held (keyOwner key) F < max ->
    stores max key l (<[(key, hash) := ts]> F) F' -> stores max key ((hash, ts) :: l) F F'
| stores_full hash ts l F F1 F' : F !! (key, hash) = None -> held (keyOwner key) F = max -> evicts (keyOwner key) (Z.max 1 (max / 10)) F F1 ->
    stores max key l (<[(key, hash) := ts]> F1) F' -> stores max key ((hash, ts) :: l) F F'.

Fixpoint storeTimes (hashes : list Z) (timestamp : Z) (timestamps : list Z) (now : Z) : list (Z * Z) :=
  match hashes with
  | [] => []
  | hash :: hashes =>
    (hash, clampStoreTime (match timestamps with ts :: _ => if 0 <? ts then ts else timestamp | [] => timestamp end) now)
      :: storeTimes hashes timestamp (tail timestamps) now
  end.

(** A representation but for the maps of one key. *)
Record representsBut (key : ownerModelKey) (F : flat) (idx : KVBlockMemoryIndex) : Prop := {
  but_inside : inside (fun k => k = key) never F idx;
  but_positive : 0 < maxBlocksPerOwner idx;
  but_limit owner : held owner F <= maxBlocksPerOwner idx;
}.

Lemma owned_set key m idx k : owned (setOwnerBlocks idx (<[key := m]> (ownerBlocks idx))) k = if decide (k = key) then m else owned idx k.
Proof. unfold owned. cbn. case_decide as E; [subst; by rewrite lookup_insert_eq|by rewrite lookup_insert_ne]. Qed.
Lemma modelBlocks_set model b idx m : modelBlocks (setBlocks idx (<[model := b]> (blocks idx))) m = if decide (m = model) then b else modelBlocks idx m.
Proof. unfold modelBlocks. cbn. case_decide as E; [subst; by rewrite lookup_insert_eq|by rewrite lookup_insert_ne]. Qed.

Lemma ownerModelLocked_inside (X : ownerModelKey -> Prop) F key idx : (forall k, X k -> k = key) -> inside X never F idx ->
  inside (fun k => k = key) never F (ownerModelLocked key idx).
Proof.
  intros HX [[HB] HO [C1 C2 C3] HT]. unfold ownerModelLocked. split; [| | |done].
  - split. intros m h o. change (modelBlocks (setOwnerBlocks ?i _) m) with (modelBlocks i m). rewrite modelBlocks_set. case_decide; subst; apply HB.
  - intros k h. change (ownerBlocks idx) with (ownerBlocks (setBlocks idx (<[keyModel key:=modelBlocks idx (keyModel key)]> (blocks idx)))).
    rewrite owned_set. case_decide; subst; apply HO.
  - split.
    + intros m h. change (modelBlocks (setOwnerBlocks ?i _) m) with (modelBlocks i m). rewrite modelBlocks_set. case_decide; subst; apply C1.
    + intros m E. cbn in E. destruct (decide (m = keyModel key)) as [->|Hn]; [by exists key|]. rewrite lookup_insert_ne in E by done.
      destruct (C2 m E) as (k & Hk & <-). by rewrite (HX k Hk) in Hn.
    + intros k E. cbn in E. destruct (decide (k = key)) as [->|Hn]; [done|]. rewrite lookup_insert_ne in E by done. by apply HX, C3.
Qed.

Lemma insert_inside F key hash ts idx (n : gmap string Z) : mirrorsBlocks idx F -> mirrorsOwned idx F -> compact (fun k => k = key) never idx ->
  tallies (setTotals idx n) (<[(key, hash) := ts]> F) ->
  let idx := setTotals idx n in
  let mb := modelBlocks idx (keyModel key) in
  inside nowhere never (<[(key, hash) := ts]> F)
    (setOwnerBlocks (setBlocks idx (<[keyModel key := <[hash := <[keyOwner key := ts]> (default ∅ (mb !! hash))]> mb]> (blocks idx)))
                    (<[key := <[hash := ts]> (owned idx key)]> (ownerBlocks idx))).
Proof.
  intros [HB] HO [C1 C2 C3] HT idx' mb. split; [| | |done].
  - split. intros m h o. change (modelBlocks (setOwnerBlocks ?i _) m) with (modelBlocks i m). rewrite modelBlocks_set.
    change (modelBlocks idx' m) with (modelBlocks idx m). case_decide as Em.
    + subst m. destruct (decide (h = hash)) as [->|Hh].
      * rewrite lookup_insert_eq. cbn [mbind option_bind]. destruct (decide (o = keyOwner key)) as [->|Ho].
        { rewrite lookup_insert_eq. destruct key. by rewrite lookup_insert_eq. }
        rewrite lookup_insert_ne by done. rewrite lookup_insert_ne by (intros [= E]; by rewrite E in Ho). rewrite <- HB. unfold mb.
        change (modelBlocks idx' (keyModel key)) with (modelBlocks idx (keyModel key)). by destruct (modelBlocks idx (keyModel key) !! hash).
      * rewrite lookup_insert_ne by done. rewrite lookup_insert_ne by congruence. apply HB.
    + rewrite lookup_insert_ne by (intros [= E]; by rewrite E in Em). apply HB.
  - intros k h. change (ownerBlocks idx') with (ownerBlocks (setBlocks idx' (<[keyModel key := <[hash := <[keyOwner key := ts]> (default ∅ (mb !! hash))]> mb]> (blocks idx')))).
    rewrite owned_set. case_decide as Ek.
    + subst k. destruct (decide (h = hash)) as [->|Hh]; [by rewrite !lookup_insert_eq|]. rewrite !lookup_insert_ne by congruence. apply HO.
    + rewrite lookup_insert_ne by congruence. apply HO.
  - split.
    + intros m h. change (modelBlocks (setOwnerBlocks ?i _) m) with (modelBlocks i m). rewrite modelBlocks_set. case_decide as Em; [|apply C1].
      subst m. destruct (decide (h = hash)) as [->|Hh]; [|rewrite lookup_insert_ne by done; apply C1]. rewrite lookup_insert_eq. intros [= E]. by apply insert_non_empty in E.
    + intros m E. cbn in E. destruct (decide (m = keyModel key)) as [->|Hn].
      * rewrite lookup_insert_eq in E. injection E as E. by apply insert_non_empty in E.
      * rewrite lookup_insert_ne in E by done. destruct (C2 m E) as (k & -> & <-). done.
    + intros k E. cbn in E. destruct (decide (k = key)) as [->|Hn].
      * rewrite lookup_insert_eq in E. injection E as E. by apply insert_non_empty in E.
      * rewrite lookup_insert_ne in E by done. by destruct (Hn (C3 k E)).
Qed.

Lemma tallies_insert F key hash ts idx : tallies idx F -> F !! (key, hash) = None ->
  tallies (setTotals idx (<[keyOwner key := default 0 (ownerTotals idx !! keyOwner key) + 1]> (ownerTotals idx))) (<[(key, hash) := ts]> F).
Proof.
  intros HT Hn o. cbn. rewrite held_insert. destruct (decide (o = keyOwner key)) as [->|Ho].
  - rewrite lookup_insert_eq, decide_True by done. rewrite HT, positive_default. pose proof (held_nonneg (keyOwner key) F). unfold positive.
    by destruct (Z.eqb_spec (held (keyOwner key) F + 1) 0); [lia|].
  - rewrite lookup_insert_ne by done. rewrite decide_False by (intros [E _]; by rewrite <- E in Ho). rewrite Z.add_0_r. apply HT.
Qed.

Lemma tallies_again F key hash ts idx : tallies idx F -> is_Some (F !! (key, hash)) -> tallies idx (<[(key, hash) := ts]> F).
Proof. intros HT [t Ht] o. rewrite held_insert, decide_False, Z.add_0_r by (intros [_ E]; by rewrite Ht in E). apply HT. Qed.

Lemma limit_insert F key hash ts max : F !! (key, hash) = None -> held (keyOwner key) F < max -> (forall o, held o F <= max) ->
  forall o, held o (<[(key, hash) := ts]> F) <= max.
Proof. intros Hn Hlt Hmax o. specialize (Hmax o). rewrite held_insert. case_decide as E; [cbn in E; destruct E as [E _]; subst o|]; lia. Qed.

Lemma evicts_limit owner n F F' max : evicts owner n F F' -> 0 <= n -> (forall o, held o F <= max) -> forall o, held o F' <= max.
Proof.
  intros [E1 _ _ _] _ Hmax o. specialize (Hmax o). enough (held o F' <= held o F) by lia. unfold held. apply Nat2Z.inj_le, map_subseteq_size.
  apply map_subseteq_spec. intros b ts. rewrite !map_lookup_filter_Some. intros [Hb ?]. split; [|done]. by eapply lookup_weaken.
Qed.

Lemma represents_but key F idx : represents F idx -> representsBut key F (ownerModelLocked key idx).
Proof. intros [Hi Hp Hl]. split; [|done|done]. by apply (ownerModelLocked_inside nowhere). Qed.

Lemma storeBlock_spec key hash ts F idx : representsBut key F idx ->
  exists F', (forall l F'', stores (maxBlocksPerOwner idx) key l F' F'' -> stores (maxBlocksPerOwner idx) key ((hash, ts) :: l) F F'') /\
    represents F' (storeBlock key hash ts idx) /\ maxBlocksPerOwner (storeBlock key hash ts idx) = maxBlocksPerOwner idx.
Proof using range_perm.
  intros [[HB HO HC HT] Hp Hl]. unfold storeBlock. rewrite HO. destruct (F !! (key, hash)) as [t|] eqn:Et.
  - exists (<[(key, hash) := ts]> F). split; [by intros l F'' Hs; eapply stores_held|]. split; [|done]. split; [|done|].
    + apply (insert_inside F key hash ts idx (ownerTotals idx)); [done..|]. by apply tallies_again.
    + intros o. cbn. rewrite held_insert, decide_False, Z.add_0_r by (intros [_ E]; by rewrite E in Et). apply Hl.
  - rewrite HT, positive_default. destruct (Z.leb_spec (maxBlocksPerOwner idx) (held (keyOwner key) F)) as [Hfull|Hroom].
    + pose proof (Hl (keyOwner key)) as Hk.
      destruct (evictOldest_spec (fun k => k = key) never F (keyOwner key) idx ltac:(by split) ltac:(lia)) as (F1 & Hev & Hin1 & Hm1).
      set (idx1 := evictOldestLocked (keyOwner key) idx) in *. destruct (ownerModelLocked_inside (fun k => k = key) F1 key idx1 ltac:(done) Hin1) as [HB1 HO1 HC1 HT1].
      set (idx2 := ownerModelLocked key idx1) in *. assert (Hn1 : F1 !! (key, hash) = None) by (eapply lookup_weaken_None; [exact Et|apply Hev]).
      exists (<[(key, hash) := ts]> F1). split; [|split; [|exact Hm1]].
      * intros l F'' Hs. eapply stores_full; [done|lia|exact Hev|done].
      * split; [apply (insert_inside F1 key hash ts idx2 _ HB1 HO1 HC1), tallies_insert; done|by rewrite <- Hm1 in Hp|].
        change (forall o, held o (<[(key, hash) := ts]> F1) <= maxBlocksPerOwner idx1). rewrite Hm1.
        apply limit_insert; [done| |eapply evicts_limit; [exact Hev|lia|done]]. rewrite (evicts_number _ _ _ _ Hev). lia.
    + exists (<[(key, hash) := ts]> F). split; [by intros l F'' Hs; eapply stores_room|]. split; [|done]. split; [|done|by apply limit_insert].
      apply (insert_inside F key hash ts idx); [done..|]. by apply tallies_insert.
Qed.

Lemma represents_as_but key F idx : represents F idx -> representsBut key F idx.
Proof. intros [[HB HO HC HT] Hp Hl]. split; [|done|done]. split; [done|done| |done]. eapply compact_weaken; [..|exact HC]; [by intros|done]. Qed.

Lemma storeLoop_spec key hashes timestamp now : forall timestamps F idx, hashes <> [] -> representsBut key F idx ->
  exists F', stores (maxBlocksPerOwner idx) key (storeTimes hashes timestamp timestamps now) F F' /\
    represents F' (storeLoop key hashes timestamp timestamps now idx) /\
    maxBlocksPerOwner (storeLoop key hashes timestamp timestamps now idx) = maxBlocksPerOwner idx.
Proof using range_perm.
  induction hashes as [|h hashes IH]; intros timestamps F idx Hne Hr; [done|]. cbn [storeLoop storeTimes].
  set (ts := clampStoreTime _ _). destruct (storeBlock_spec key h ts F idx Hr) as (F1 & Hs & H1 & Hm). destruct hashes as [|h' hashes].
  - exists F1. split; [apply Hs; constructor|]. by split.
  - destruct (IH (tail timestamps) F1 (storeBlock key h ts idx) ltac:(done) (represents_as_but _ _ _ H1)) as (F' & Hs' & H' & Hm').
    exists F'. rewrite Hm in Hs', Hm'. split; [by apply Hs|]. by split.
Qed.

Lemma storeLocked_spec model owner hashes timestamp timestamps now F idx : represents F idx ->
  let idx' := storeLocked model owner hashes timestamp timestamps now idx in
  exists F', stores (maxBlocksPerOwner idx) (MkOwnerModel owner model) (storeTimes hashes timestamp timestamps now) F F' /\
    represents F' idx' /\ maxBlocksPerOwner idx' = maxBlocksPerOwner idx.
Proof using range_perm.
  intros Hr idx'. unfold idx', storeLocked. case_bool_decide as E; [subst; exists F; split; [constructor|by split]|].
  by apply (storeLoop_spec (MkOwnerModel owner model) hashes timestamp now timestamps F (ownerModelLocked (MkOwnerModel owner model) idx)), represents_but.
Qed.

(** ** Removals *)

Lemma removeBlock_spec key hash F idx : inside (fun k => k = key) never F idx ->
  let idx' := removeBlock key idx hash in
  inside (fun k => k = key) never (delete (key, hash) F) idx' /\ maxBlocksPerOwner idx' = maxBlocksPerOwner idx.
Proof.
  intros [HB HO HC HT] idx'. unfold idx', removeBlock. rewrite HO. destruct (F !! (key, hash)) as [t|] eqn:Et.
  2: { rewrite delete_id by done. by split. }
  split; [|done]. split.
  - apply (mirrors_forget key hash (releaseLocked (keyOwner key) 1 (disown key hash idx)) F). destruct HB as [HB]. by split.
  - exact (mirrors_disown key hash idx F HO).
  - apply compact_forget; [done|]. apply (compact_disown (fun k => k = key) never key hash idx) in HC; [|done]. destruct HC. by split.
  - apply (release_tallies (keyOwner key) 1 (disown key hash idx) F); [exact HT| |].
    + rewrite (held_delete _ _ _ t) by done. by rewrite decide_True.
    + intros o Ho. rewrite (held_delete _ _ _ t) by done. rewrite decide_False by (cbn; congruence). lia.
Qed.

Lemma held_sub o F F' : F' ⊆ F -> held o F' <= held o F.
Proof.
  intros Hs. unfold held. apply Nat2Z.inj_le, map_subseteq_size, map_subseteq_spec. intros b ts. rewrite !map_lookup_filter_Some.
  intros [Hb ?]. split; [|done]. by eapply lookup_weaken.
Qed.

Lemma deletes_sub F l : deletes F l ⊆ F.
Proof. apply map_subseteq_spec. intros b ts. rewrite deletes_lookup. by case_decide. Qed.

Lemma compact_but key idx : compact nowhere never idx -> compact (fun k => k = key) never idx.
Proof. by apply compact_weaken. Qed.

Lemma removeLocked_spec model owner hashes F idx : represents F idx ->
  let idx' := removeLocked model owner hashes idx in
  represents (deletes F (pair (MkOwnerModel owner model) <$> hashes)) idx' /\ maxBlocksPerOwner idx' = maxBlocksPerOwner idx.
Proof.
  intros [[HB HO HC HT] Hp Hl] idx'. set (key := MkOwnerModel owner model).
  assert (Hfold : forall l F idx, inside (fun k => k = key) never F idx ->
    inside (fun k => k = key) never (deletes F (pair key <$> l)) (fold_left (removeBlock key) l idx) /\
    maxBlocksPerOwner (fold_left (removeBlock key) l idx) = maxBlocksPerOwner idx).
  { induction l as [|h l IH]; intros F0 idx0 Hin; [done|]. destruct (removeBlock_spec key h F0 idx0 Hin) as [H1 Hm].
    destruct (IH _ _ H1) as [H2 Hm2]. split; [exact H2|]. cbn [fold_left]. by rewrite Hm2. }
  destruct (Hfold hashes F idx) as [Hin Hm]; [by split; [..|apply compact_but|]|].
  assert (Hm' : maxBlocksPerOwner idx' = maxBlocksPerOwner idx) by (unfold idx', removeLocked; by rewrite pruneModel_max, pruneOwner_max).
  split; [|done]. split; [|by rewrite Hm'|].
  - apply (inside_prune nowhere never _ key). destruct Hin as [I1 I2 I3 I4]. split; [done|done| |done]. eapply compact_weaken; [..|exact I3]; [by right|done].
  - intros o. rewrite Hm'. etrans; [apply held_sub, deletes_sub|done].
Qed.

(** The blocks of one key. *)
Definition clears (key : ownerModelKey) (F : flat) : flat := filter (fun x : block * Z => x.1.1 <> key) F.

Lemma forget_fold key l : forall F idx, mirrorsBlocks idx F -> compact (fun k => k = key) never idx ->
  let idx' := fold_left (fun idx (entry : Z * Z) => forget key entry.1 idx) l idx in
  mirrorsBlocks idx' (deletes F (pair key <$> l.*1)) /\ compact (fun k => k = key) never idx' /\
  ownerBlocks idx' = ownerBlocks idx /\ same_rest idx idx'.
Proof.
  induction l as [|[h ts] l IH]; intros F idx HB HC; [done|]. cbn [fold_left fst].
  destruct (IH (delete (key, h) F) (forget key h idx)) as (I1 & I2 & I3 & I4 & I5); [by apply mirrors_forget|by apply compact_forget|]. by split_and!.
Qed.

Lemma clearLocked_spec model owner F idx : represents F idx ->
  let idx' := clearLocked model owner idx in
  represents (clears (MkOwnerModel owner model) F) idx' /\ maxBlocksPerOwner idx' = maxBlocksPerOwner idx.
Proof using range_perm.
  intros [[HB HO HC HT] Hp Hl] idx'. set (key := MkOwnerModel owner model). set (l := entries (owned idx key)).
  destruct (forget_fold key l F idx HB (compact_but key idx HC)) as (HB1 & HC1 & Eo & Et & Em). unfold idx', clearLocked. fold key. fold l.
  set (idx1 := fold_left _ l idx) in *.
  assert (Hin : forall h, h ∈ l.*1 <-> is_Some (F !! (key, h))).
  { intros h. rewrite <- HO, list_elem_of_fmap. split; [intros ([k t] & -> & Hx); apply entries_elem in Hx; by eexists|].
    intros [t Ht]. exists (h, t). split; [done|]. by apply entries_elem. }
  assert (EF : deletes F (pair key <$> l.*1) = clears key F).
  { apply map_eq. intros [k h]. apply option_eq. intros ts. rewrite deletes_lookup. unfold clears. rewrite map_lookup_filter_Some. cbn. case_decide as E.
    - apply list_elem_of_fmap in E as (y & [= -> ->] & _). split; [done|]. by intros [_ ?].
    - split; [|by intros [? _]]. intros Hk. split; [done|]. intros ->. apply E, list_elem_of_fmap. exists h. split; [done|]. apply Hin. by eexists. }
  rewrite EF in HB1.
  assert (Hlen : Z.of_nat (size (owned idx key)) = Z.of_nat (length (pair key <$> l.*1))).
  { rewrite !length_fmap. unfold l. by rewrite range_perm, length_map_to_list. }
  assert (Hnd : NoDup (pair key <$> l.*1)) by (apply NoDup_fmap_2; [by intros ? ? [=]|apply entries_nodup]).
  assert (Hheld : forall o, held o (clears key F) = if decide (o = owner) then held o F - Z.of_nat (size (owned idx key)) else held o F).
  { intros o. rewrite <- EF. case_decide as E.
    - subst o. rewrite Hlen. apply held_deletes; [done| |]; intros b Hb; apply list_elem_of_fmap in Hb as (h & -> & Hb); [by apply Hin|done].
    - apply held_deletes_other. intros b Hb. apply list_elem_of_fmap in Hb as (h & -> & Hb). cbn. congruence. }
  split; [|by rewrite pruneModel_max]. split.
  - destruct HB1 as [HB1]. split.
    + split. intros m h o. rewrite modelBlocks_pruneModel. apply HB1.
    + intros k h. unfold owned. rewrite pruneModel_owned. cbn. rewrite Eo. fold (owned idx k). unfold clears. destruct (decide (k = key)) as [->|Hk].
      * rewrite lookup_delete_eq. cbn. rewrite lookup_empty. symmetry. apply map_lookup_filter_None. right. intros x _ Hx. by apply Hx.
      * rewrite lookup_delete_ne by done. fold (owned idx k). rewrite HO. apply option_eq. intros ts. rewrite map_lookup_filter_Some. cbn. tauto.
    + destruct HC1 as [C1 C2 C3]. split.
      * intros m h. rewrite modelBlocks_pruneModel. apply C1.
      * intros m [Hm E]%pruneModel_empty. cbn in E. by destruct (C2 m E) as (k & -> & <-).
      * intros k. rewrite pruneModel_owned. cbn. destruct (decide (k = key)) as [->|Hk]; [by rewrite lookup_delete_eq|]. rewrite lookup_delete_ne by done.
        intros E. by destruct (Hk (C3 k E)).
    + intros o. rewrite pruneModel_totals. apply (release_tallies owner (Z.of_nat (size (owned idx key))) idx1 F).
      * intros o'. rewrite Et. apply HT.
      * by rewrite Hheld, decide_True.
      * intros o' Ho. by rewrite Hheld, decide_False.
  - rewrite pruneModel_max. cbn. by rewrite Em.
  - intros o. rewrite pruneModel_max. cbn. rewrite Em. specialize (Hl o). rewrite Hheld. case_decide; lia.
Qed.

Lemma represents_eq F F' idx : represents F idx -> F = F' -> represents F' idx.
Proof. by intros ? <-. Qed.

Lemma RemoveOwner_spec owner F idx : represents F idx ->
  let idx' := RemoveOwner owner idx in
  represents (filter (fun x : block * Z => keyOwner x.1.1 <> owner) F) idx' /\ maxBlocksPerOwner idx' = maxBlocksPerOwner idx.
Proof using range_perm.
  intros Hr idx'. unfold idx', RemoveOwner.
  assert (Hfold : forall (l : list (ownerModelKey * gmap Z Z)) F idx, represents F idx ->
    let idx' := fold_left (fun idx entry => if bool_decide (keyOwner entry.1 = owner) then clearLocked (keyModel entry.1) (keyOwner entry.1) idx else idx) l idx in
    represents (filter (fun x : block * Z => ~ (keyOwner x.1.1 = owner /\ x.1.1 ∈ l.*1)) F) idx' /\ maxBlocksPerOwner idx' = maxBlocksPerOwner idx).
  { induction l as [|[key m] l IH]; intros F0 idx0 H0; cbn [fold_left].
    - rewrite map_filter_id; [by split|]. intros b ts _ [_ Hin]. by apply not_elem_of_nil in Hin.
    - cbn [fst]. assert (H1 : exists F1, represents F1 (if bool_decide (keyOwner key = owner) then clearLocked (keyModel key) (keyOwner key) idx0 else idx0) /\
        maxBlocksPerOwner (if bool_decide (keyOwner key = owner) then clearLocked (keyModel key) (keyOwner key) idx0 else idx0) = maxBlocksPerOwner idx0 /\
        F1 = filter (fun x : block * Z => ~ (keyOwner x.1.1 = owner /\ x.1.1 = key)) F0).
      { case_bool_decide as Eo.
        - destruct (clearLocked_spec (keyModel key) (keyOwner key) F0 idx0 H0) as [H1 H2]. eexists. split; [exact H1|]. split; [done|].
          unfold clears. apply map_filter_ext. intros b ts _. cbn. destruct key as [o mo]. cbn in *. split; [tauto|]. intros Hn E. apply Hn. by rewrite E.
        - eexists. split; [exact H0|]. split; [done|]. symmetry. apply map_filter_id. intros b ts _ [E1 E2]. cbn in *. congruence. }
      destruct H1 as (F1 & H1 & Hm & ->). destruct (IH _ _ H1) as [H2 Hm2]. split; [|by rewrite Hm2].
      rewrite map_filter_filter in H2. eapply represents_eq; [exact H2|]. apply map_filter_ext. intros b ts _. cbn. rewrite elem_of_cons. tauto. }
  destruct (Hfold (entries (ownerBlocks idx)) F idx Hr) as [H1 Hm]. split; [|exact Hm]. eapply represents_eq; [exact H1|]. apply map_filter_strong_ext.
  intros b ts. cbn. destruct Hr as [[_ HO _ _] _ _]. split; intros [Hn Hb]; (split; [|done]); [|tauto]. intros Eo. apply Hn. split; [done|].
  destruct b as [key h]. rewrite <- HO in Hb. unfold owned in Hb. destruct (ownerBlocks idx !! key) as [m|] eqn:Ek; cbn in Hb; [|by rewrite lookup_empty in Hb].
  apply list_elem_of_fmap. exists (key, m). split; [done|]. by apply entries_elem.
Qed.

(** ** Garbage collection *)

Definition fresh (cutoff : Z) (x : option Z) : option Z := x ≫= fun ts => if ts <? cutoff then None else Some ts.

Lemma fresh_idem cutoff x : fresh cutoff (fresh cutoff x) = fresh cutoff x.
Proof. destruct x as [ts|]; [|done]. cbn. destruct (ts <? cutoff) eqn:E; [done|]. cbn. by rewrite E. Qed.

(** During a sweep: the maps of the pods are never empty. *)
Record sweeping (X : ownerModelKey -> Prop) (Y : string -> Z -> Prop) (max : Z) (F : flat) (idx : KVBlockMemoryIndex) : Prop := {
  sweep_inside : inside X Y F idx;
  sweep_owners key : ownerBlocks idx !! key <> Some ∅;
  sweep_max : maxBlocksPerOwner idx = max;
}.

Lemma alterDelete_lookup owner hash (b : gmap Z (gmap string Z)) h o :
  alter (delete owner) hash b !! h ≫= (fun owners => owners !! o) = if decide (h = hash /\ o = owner) then None else b !! h ≫= (fun owners => owners !! o).
Proof.
  destruct (decide (h = hash)) as [->|Hn]; [|rewrite lookup_alter_ne by done; by rewrite decide_False by tauto].
  rewrite lookup_alter_eq. destruct (b !! hash) as [owners|]; cbn; [|by case_decide]. destruct (decide (o = owner)) as [->|Ho].
  - by rewrite lookup_delete_eq, decide_True.
  - rewrite lookup_delete_ne by done. by rewrite decide_False by tauto.
Qed.

Lemma gcEntry_spec cutoff model hash X Y max F idx owner ts : Y model hash -> sweeping X Y max F idx -> F !! (MkOwnerModel owner model, hash) = Some ts ->
  exists F', sweeping X Y max F' (gcEntry cutoff model hash idx (owner, ts)) /\
    forall b, F' !! b = if decide (b = (MkOwnerModel owner model, hash)) then fresh cutoff (F !! b) else F !! b.
Proof.
  intros HY [[HB HO HC HT] Hown Hm] Hts. unfold gcEntry. destruct (ts <? cutoff) eqn:E.
  2: { exists F. split; [done|]. intros b. case_decide; [subst; rewrite Hts; cbn; by rewrite E|done]. }
  set (key := MkOwnerModel owner model). exists (delete (key, hash) F). split.
  2: { intros b. case_decide as Eb; [subst b; unfold key; rewrite Hts; cbn; rewrite E; by rewrite lookup_delete_eq|by rewrite lookup_delete_ne]. }
  set (idx1 := setBlocks idx _). split; [split| |by rewrite pruneOwner_max].
  - split. intros m h o. unfold modelBlocks. rewrite pruneOwner_blocks. change (blocks (releaseLocked owner 1 (disown key hash idx1))) with (blocks idx1).
    fold (modelBlocks idx1 m). unfold idx1. rewrite modelBlocks_alter by (apply map_eq; intros x; by rewrite lookup_alter, lookup_empty; case_decide).
    destruct HB as [HB]. case_decide as Em.
    + subst m. rewrite alterDelete_lookup, HB. case_decide as Eh; [destruct Eh as [-> ->]; by rewrite lookup_delete_eq|].
      rewrite lookup_delete_ne; [done|]. intros [= -> ->]. by apply Eh.
    + rewrite HB, lookup_delete_ne; [done|]. intros [= -> ->]. done.
  - intros k h. rewrite owned_pruneOwner. exact (mirrors_disown key hash idx F HO k h).
  - destruct HC as [C1 C2 C3]. split.
    + intros m h. unfold modelBlocks. rewrite pruneOwner_blocks. change (blocks (releaseLocked owner 1 (disown key hash idx1))) with (blocks idx1).
      fold (modelBlocks idx1 m). unfold idx1. rewrite modelBlocks_alter by (apply map_eq; intros x; by rewrite lookup_alter, lookup_empty; case_decide).
      case_decide as Em; [|apply C1]. subst m. destruct (decide (h = hash)) as [->|Hn]; [done|]. rewrite lookup_alter_ne by done. apply C1.
    + intros m. rewrite pruneOwner_blocks. cbn. destruct (decide (m = model)) as [->|Hn]; [|rewrite lookup_alter_ne by done; apply C2].
      rewrite lookup_alter_eq. destruct (blocks idx !! model) as [mb|] eqn:Eb; [|done]. cbn. intros [= E1]. apply C2. rewrite Eb. f_equal.
      apply map_eq. intros h. rewrite lookup_empty. pose proof (f_equal (fun m => m !! h) E1) as E2. cbn in E2. rewrite lookup_empty in E2.
      destruct (decide (h = hash)) as [->|Hh]; [rewrite lookup_alter_eq in E2; by destruct (mb !! hash)|by rewrite lookup_alter_ne in E2].
    + intros k [Hk E1]%pruneOwner_empty. cbn in E1. apply alter_empty in E1 as [->|E1]; [done|by apply C3].
  - intros o. rewrite pruneOwner_totals. apply (release_tallies owner 1 (disown key hash idx1) F); [exact HT| |].
    + rewrite (held_delete _ _ _ ts) by done. by rewrite decide_True.
    + intros o' Ho. rewrite (held_delete _ _ _ ts) by done. rewrite decide_False by (cbn; congruence). lia.
  - intros k [Hk E1]%pruneOwner_empty. cbn in E1. apply alter_empty in E1 as [->|E1]; [done|by apply (Hown k)].
Qed.

Lemma gcEntry_fold cutoff model hash X Y max l : Y model hash -> forall F idx, sweeping X Y max F idx -> NoDup l.*1 ->
  (forall owner ts, (owner, ts) ∈ l -> F !! (MkOwnerModel owner model, hash) = Some ts) ->
  exists F', sweeping X Y max F' (fold_left (gcEntry cutoff model hash) l idx) /\
    forall b, F' !! b = if decide (keyModel b.1 = model /\ b.2 = hash /\ keyOwner b.1 ∈ l.*1) then fresh cutoff (F !! b) else F !! b.
Proof.
  intros HY. induction l as [|[owner ts] l IH]; intros F idx Hs Hnd Hin.
  - exists F. split; [done|]. intros b. rewrite decide_False; [done|]. intros (_ & _ & E). by apply not_elem_of_nil in E.
  - rewrite fmap_cons in Hnd. apply NoDup_cons in Hnd as [Ho Hnd]. cbn [fst] in Ho.
    destruct (gcEntry_spec cutoff model hash X Y max F idx owner ts HY Hs (Hin owner ts ltac:(by left))) as (F1 & H1 & E1).
    destruct (IH F1 _ H1 Hnd) as (F2 & H2 & E2).
    + intros o t Hot. rewrite E1, decide_False; [apply Hin; by right|]. intros [= ->]. apply Ho, list_elem_of_fmap. by exists (owner, t).
    + exists F2. split; [done|]. intros [[o m] h]. rewrite E2, E1. cbn [fst snd keyModel keyOwner fmap list_fmap].
      pose proof (elem_of_cons l.*1 o owner) as Hc. fold (list_fmap (string * Z)%type string fst l). change (list_fmap (string * Z)%type string fst l) with (l.*1).
      repeat case_decide; try done; rewrite ?fresh_idem; try done; exfalso; naive_solver.
Qed.

Lemma gcHash_spec cutoff model X max F idx hash owners : X (MkOwnerModel "" model) -> sweeping X never max F idx ->
  (forall owner, owners !! owner = F !! (MkOwnerModel owner model, hash)) ->
  exists F', sweeping X never max F' (gcHash cutoff model idx (hash, owners)) /\
    forall b, F' !! b = if decide (keyModel b.1 = model /\ b.2 = hash) then fresh cutoff (F !! b) else F !! b.
Proof using range_perm.
  intros HX [[HB HO HC HT] Hown Hm] Howners. unfold gcHash.
  destruct (gcEntry_fold cutoff model hash X (fun m h => m = model /\ h = hash) max (entries owners) ltac:(done) F idx) as (F1 & [[[HB1] HO1 [C1 C2 C3] HT1] Hown1 Hm1] & E1).
  { split; [|done|done]. split; [done|done| |done]. eapply compact_weaken; [..|exact HC]; [done|by intros]. }
  { apply entries_nodup. }
  { intros o ts Hin. apply entries_elem in Hin. by rewrite <- Howners. }
  set (idx1 := fold_left _ _ idx) in *. exists F1. split.
  2: { intros [[o m] h]. rewrite E1. cbn. destruct (decide (m = model /\ h = hash)) as [[-> ->]|Hn]; [|by rewrite decide_False by tauto].
    case_decide as Eo; [done|]. destruct (F !! (MkOwnerModel o model, hash)) as [ts|] eqn:Ef; [|done]. exfalso. apply Eo. split; [done|]. split; [done|].
    apply list_elem_of_fmap. exists (o, ts). split; [done|]. apply entries_elem. by rewrite Howners. }
  assert (Hkeep : forall m h, modelBlocks idx1 m !! h = Some ∅ -> m = model /\ h = hash) by (intros m h; apply C1).
  case_bool_decide as Ee; (split; [split|done|done]); try done.
  - split. intros m h o. rewrite modelBlocks_alter by (apply map_eq; intros x; by rewrite lookup_delete, lookup_empty; case_decide).
    rewrite <- HB1. case_decide as Em; [|done]. subst m. destruct (decide (h = hash)) as [->|Hh]; [|by rewrite lookup_delete_ne].
    rewrite lookup_delete_eq. cbn. destruct (modelBlocks idx1 model !! hash) as [ow|]; [|done]. cbn in *. by rewrite Ee, lookup_empty.
  - split; [| |done].
    + intros m h. rewrite modelBlocks_alter by (apply map_eq; intros x; by rewrite lookup_delete, lookup_empty; case_decide).
      case_decide as Em.
      * subst m. destruct (decide (h = hash)) as [->|Hh]; [by rewrite lookup_delete_eq|]. rewrite lookup_delete_ne by done. intros E. by destruct (Hkeep _ _ E).
      * intros E. by destruct (Hkeep _ _ E).
    + intros m E. cbn in E. destruct (decide (m = model)) as [->|Hn]; [by exists (MkOwnerModel "" model)|]. rewrite lookup_alter_ne in E by done. by apply C2.
  - split; [|done|done]. intros m h E. destruct (Hkeep _ _ E) as [-> ->]. apply Ee. by rewrite E.
Qed.

Lemma gcHash_fold cutoff model X max l : X (MkOwnerModel "" model) -> forall F idx, sweeping X never max F idx -> NoDup l.*1 ->
  (forall hash owners, (hash, owners) ∈ l -> forall owner, owners !! owner = F !! (MkOwnerModel owner model, hash)) ->
  exists F', sweeping X never max F' (fold_left (gcHash cutoff model) l idx) /\
    forall b, F' !! b = if decide (keyModel b.1 = model /\ b.2 ∈ l.*1) then fresh cutoff (F !! b) else F !! b.
Proof using range_perm.
  intros HX. induction l as [|[hash owners] l IH]; intros F idx Hs Hnd Hin.
  - exists F. split; [done|]. intros b. rewrite decide_False; [done|]. intros (_ & E). by apply not_elem_of_nil in E.
  - rewrite fmap_cons in Hnd. apply NoDup_cons in Hnd as [Hh Hnd]. cbn [fst] in Hh.
    destruct (gcHash_spec cutoff model X max F idx hash owners HX Hs (Hin hash owners ltac:(by left))) as (F1 & H1 & E1).
    destruct (IH F1 _ H1 Hnd) as (F2 & H2 & E2).
    + intros h ow How o. rewrite E1, decide_False; [apply (Hin h ow); by right|]. cbn. intros [_ ->]. apply Hh, list_elem_of_fmap. by exists (hash, ow).
    + exists F2. split; [done|]. intros [[o m] h]. rewrite E2, E1. cbn [fst snd keyModel keyOwner]. pose proof (elem_of_cons l.*1 h hash) as Hc.
      rewrite fmap_cons. cbn [fst]. repeat case_decide; try done; rewrite ?fresh_idem; try done; exfalso; naive_solver.
Qed.

Lemma gcModel_spec cutoff max F idx model mb : sweeping nowhere never max F idx ->
  (forall hash owner, mb !! hash ≫= (fun owners => owners !! owner) = F !! (MkOwnerModel owner model, hash)) ->
  exists F', sweeping nowhere never max F' (gcModel cutoff idx (model, mb)) /\
    forall b, F' !! b = if decide (keyModel b.1 = model) then fresh cutoff (F !! b) else F !! b.
Proof using range_perm.
  intros [[HB HO HC HT] Hown Hm] Hmb. unfold gcModel.
  destruct (gcHash_fold cutoff model (fun k => keyModel k = model) max (entries mb) ltac:(done) F idx) as (F1 & [[[HB1] HO1 [C1 C2 C3] HT1] Hown1 Hm1] & E1).
  { split; [|done|done]. split; [done|done| |done]. eapply compact_weaken; [..|exact HC]; done. }
  { apply entries_nodup. }
  { intros h owners Hin o. apply entries_elem in Hin. rewrite <- Hmb, Hin. done. }
  set (idx1 := fold_left _ _ idx) in *. exists F1. split.
  - split; [split| |by rewrite pruneModel_max].
    + split. intros m h o. rewrite modelBlocks_pruneModel. apply HB1.
    + intros k h. unfold owned. rewrite pruneModel_owned. apply HO1.
    + split.
      * intros m h. rewrite modelBlocks_pruneModel. apply C1.
      * intros m [Hn E]%pruneModel_empty. by destruct (C2 m E) as (k & -> & <-).
      * intros k. rewrite pruneModel_owned. intros E. by destruct (Hown1 k).
    + intros o. rewrite pruneModel_totals. apply HT1.
    + intros k. rewrite pruneModel_owned. apply Hown1.
  - intros [[o m] h]. rewrite E1. cbn. destruct (decide (m = model)) as [->|Hn]; [|by rewrite decide_False by tauto].
    case_decide as Eh; [done|]. rewrite <- Hmb. destruct (mb !! h) as [owners|] eqn:Eo; [|done]. exfalso. apply Eh. split; [done|].
    apply list_elem_of_fmap. exists (h, owners). split; [done|]. by apply entries_elem.
Qed.

Lemma gcStaleEntries_spec cutoff F idx : represents F idx ->
  let idx' := gcStaleEntries cutoff idx in
  represents (filter (fun x : block * Z => cutoff <= x.2) F) idx' /\ maxBlocksPerOwner idx' = maxBlocksPerOwner idx.
Proof using range_perm.
  intros [Hi Hp Hl] idx'. set (max := maxBlocksPerOwner idx) in *.
  assert (Hfold : forall l F idx, sweeping nowhere never max F idx -> NoDup l.*1 ->
    (forall model mb, (model, mb) ∈ l -> forall hash owner, mb !! hash ≫= (fun owners => owners !! owner) = F !! (MkOwnerModel owner model, hash)) ->
    exists F', sweeping nowhere never max F' (fold_left (gcModel cutoff) l idx) /\
      forall b, F' !! b = if decide (keyModel b.1 ∈ l.*1) then fresh cutoff (F !! b) else F !! b).
  { induction l as [|[model mb] l IH]; intros F0 idx0 Hs Hnd Hin.
    - exists F0. split; [done|]. intros b. rewrite decide_False; [done|]. apply not_elem_of_nil.
    - rewrite fmap_cons in Hnd. apply NoDup_cons in Hnd as [Hk Hnd]. cbn [fst] in Hk.
      destruct (gcModel_spec cutoff max F0 idx0 model mb Hs (Hin model mb ltac:(by left))) as (F1 & H1 & E1).
      destruct (IH F1 _ H1 Hnd) as (F2 & H2 & E2).
      + intros m mb' Hmb h o. rewrite E1, decide_False; [apply (Hin m mb'); by right|]. cbn. intros ->. apply Hk, list_elem_of_fmap. by exists (model, mb').
      + exists F2. split; [done|]. intros [[o m] h]. rewrite E2, E1. cbn [fst snd keyModel keyOwner]. pose proof (elem_of_cons l.*1 m model) as Hc.
        rewrite fmap_cons. cbn [fst]. repeat case_decide; try done; rewrite ?fresh_idem; try done; exfalso; naive_solver. }
  destruct (Hfold (entries (blocks idx)) F idx) as (F1 & [H1 _ Hm] & E1).
  { split; [done| |done]. intros k E. by destruct (compact_owner _ _ _ (in_compact _ _ _ _ Hi) k E). }
  { apply entries_nodup. }
  { intros m mb Hin h o. apply entries_elem in Hin. destruct Hi as [[HB] _ _ _]. rewrite <- HB. unfold modelBlocks. by rewrite Hin. }
  assert (EF : F1 = filter (fun x : block * Z => cutoff <= x.2) F).
  { apply map_eq. intros [[o m] h]. rewrite E1. cbn. apply option_eq. intros ts. rewrite map_lookup_filter_Some. cbn.
    destruct (F !! (MkOwnerModel o m, h)) as [t|] eqn:Et.
    - rewrite decide_True.
      + cbn. destruct (Z.ltb_spec t cutoff); split; try done; [intros [[= ->] ?]; lia|intros [= ->]; split; [done|lia]|by intros [? _]].
      + destruct Hi as [[HB] _ _ _]. rewrite <- HB in Et. unfold modelBlocks in Et. destruct (blocks idx !! m) as [mb|] eqn:Eb; cbn in Et; [|by rewrite lookup_empty in Et].
        apply list_elem_of_fmap. exists (m, mb). split; [done|]. by apply entries_elem.
    - case_decide; cbn; by split; [|intros [? _]]. }
  subst F1. change (maxBlocksPerOwner idx' = max) in Hm. split; [|done]. split; [done|by rewrite Hm|]. intros o. rewrite Hm. etrans; [apply held_sub|apply Hl].
  apply map_filter_subseteq.
Qed.

(** ** Queries *)

Lemma GetBlockOwners_spec model hashes F idx : represents F idx ->
  let answer := GetBlockOwners model hashes idx in
  (forall hash owner, answer !! hash ≫= (fun owners => owners !! owner) =
     if decide (hash ∈ hashes) then Itoa <$> F !! (MkOwnerModel owner model, hash) else None) /\
  forall hash, answer !! hash <> Some ∅.
Proof.
  intros [[[HB] _ [C1 _ _] _] _ _] answer. unfold answer, GetBlockOwners.
  unfold modelBlocks in *. destruct (blocks idx !! model) as [mb|] eqn:Eb.
  2: { split; [|by intros h; rewrite lookup_empty]. intros h o. rewrite <- HB, Eb. cbn. rewrite !lookup_empty. by case_decide. }
  set (step := fun (result : gmap Z (gmap string string)) hash => match mb !! hash with
    | Some owners => if bool_decide (owners = ∅) then result else <[hash := Itoa <$> owners]> result | None => result end).
  assert (Hne : forall h owners, mb !! h = Some owners -> owners <> ∅).
  { intros h owners Eh ->. specialize (C1 model h). rewrite Eb in C1. cbn in C1. by apply C1. }
  assert (Hfold : forall l r, (forall h, r !! h <> Some ∅) ->
    (forall h o, fold_left step l r !! h ≫= (fun owners => owners !! o) =
       if decide (h ∈ l) then match mb !! h with Some owners => Itoa <$> owners !! o | None => r !! h ≫= (fun owners => owners !! o) end
       else r !! h ≫= (fun owners => owners !! o)) /\ forall h, fold_left step l r !! h <> Some ∅).
  { induction l as [|x l IH]; intros r Hr; cbn [fold_left].
    - split; [|done]. intros h o. rewrite decide_False; [done|]. apply not_elem_of_nil.
    - assert (Es : forall h, step r x !! h = if decide (h = x) then match mb !! x with Some owners => Some (Itoa <$> owners) | None => r !! x end else r !! h).
      { intros h. unfold step. destruct (mb !! x) as [owners|] eqn:Ex; [rewrite bool_decide_false by (by eapply Hne)|by case_decide; subst].
        case_decide; [subst; by rewrite lookup_insert_eq|by rewrite lookup_insert_ne]. }
      destruct (IH (step r x)) as [I1 I2].
      { intros h. rewrite Es. case_decide; [|apply Hr]. destruct (mb !! x) as [owners|] eqn:Ex; [|apply Hr]. intros [= E%fmap_empty_inv]. by apply (Hne x owners). }
      split; [|done]. intros h o. rewrite I1, Es. pose proof (elem_of_cons l h x) as Hc. destruct (decide (h = x)) as [->|Hn].
      + rewrite (decide_True (P := x ∈ x :: l)) by (by left). destruct (mb !! x) as [owners|] eqn:Ex; cbn; [rewrite lookup_fmap|]; by case_decide.
      + repeat case_decide; try done; exfalso; naive_solver. }
  destruct (Hfold hashes ∅) as [H1 H2]; [by intros h; rewrite lookup_empty|]. split; [|done]. intros h o. rewrite H1, <- HB, Eb, !lookup_empty. cbn.
  case_decide; [|done]. by destruct (mb !! h).
Qed.

(** ** Any sequence of calls *)

Inductive call :=
| CApply (owner model : string) (now : Z) (events : list KVEvent)
| CGetBlockOwners (model : string) (hashes : list Z)
| CRemoveOwner (owner : string)
| CGcStaleEntries (cutoff : Z).

Inductive answer := Applied (ok : bool) | Owners (owners : gmap Z (gmap string string)) | Nothing.

Definition runCall (c : call) (idx : KVBlockMemoryIndex) : KVBlockMemoryIndex * answer :=
  match c with
  | CApply owner model now events => let '(idx, ok) := Apply owner model now events idx in (idx, Applied ok)
  | CGetBlockOwners model hashes => (idx, Owners (GetBlockOwners model hashes idx))
  | CRemoveOwner owner => (RemoveOwner owner idx, Nothing)
  | CGcStaleEntries cutoff => (gcStaleEntries cutoff idx, Nothing)
  end.

Fixpoint runCalls (calls : list call) (idx : KVBlockMemoryIndex) : KVBlockMemoryIndex * list answer :=
  match calls with
  | [] => (idx, [])
  | c :: calls => let '(idx, a) := runCall c idx in let '(idx, answers) := runCalls calls idx in (idx, a :: answers)
  end.

(** *** The same on the abstract index *)

Definition wellFormed (event : KVEvent) : Prop :=
  (Timestamps event = [] \/ length (Timestamps event) = length (BlockHashes event)) /\ forall name, EventType event <> kvEventOther name.

Inductive appliesEvent (max : Z) (key : ownerModelKey) (now : Z) (event : KVEvent) (F : flat) : flat -> Prop :=
| applies_stored F' : EventType event = kvEventStored -> stores max key (storeTimes (BlockHashes event) (Timestamp event) (Timestamps event) now) F F' ->
    appliesEvent max key now event F F'
| applies_removed : EventType event = kvEventRemoved -> appliesEvent max key now event F (deletes F (pair key <$> BlockHashes event))
| applies_cleared : EventType event = kvEventCleared -> appliesEvent max key now event F (clears key F).

Inductive appliesEvents (max : Z) (key : ownerModelKey) (now : Z) : list KVEvent -> flat -> flat -> bool -> Prop :=
| applies_none F : appliesEvents max key now [] F F true
| applies_malformed event events F : ~ wellFormed event -> appliesEvents max key now (event :: events) F F false
| applies_next event events F F1 F2 ok : wellFormed event -> appliesEvent max key now event F F1 -> appliesEvents max key now events F1 F2 ok ->
    appliesEvents max key now (event :: events) F F2 ok.

Inductive specCall (max : Z) : call -> flat -> flat -> answer -> Prop :=
| spec_anonymous owner model now events F : owner = ""%string \/ model = ""%string -> specCall max (CApply owner model now events) F F (Applied false)
| spec_apply owner model now events F F' ok : owner <> ""%string -> model <> ""%string -> appliesEvents max (MkOwnerModel owner model) now events F F' ok ->
    specCall max (CApply owner model now events) F F' (Applied ok)
| spec_owners model hashes F (owners : gmap Z (gmap string string)) :
    (forall hash owner, owners !! hash ≫= (fun m => m !! owner) = if decide (hash ∈ hashes) then Itoa <$> F !! (MkOwnerModel owner model, hash) else None) ->
    (forall hash, owners !! hash <> Some ∅) -> specCall max (CGetBlockOwners model hashes) F F (Owners owners)
| spec_remove owner F : specCall max (CRemoveOwner owner) F (filter (fun x : block * Z => keyOwner x.1.1 <> owner) F) Nothing
| spec_gc cutoff F : specCall max (CGcStaleEntries cutoff) F (filter (fun x : block * Z => cutoff <= x.2) F) Nothing.

Inductive specCalls (max : Z) : list call -> flat -> flat -> list answer -> Prop :=
| spec_done F : specCalls max [] F F []
| spec_step c calls F F1 F2 a answers : specCall max c F F1 a -> specCalls max calls F1 F2 answers -> specCalls max (c :: calls) F F2 (a :: answers).

Lemma applyEvent_spec model owner now event F idx : represents F idx ->
  match applyEvent model owner now event idx with
  | None => ~ wellFormed event
  | Some idx' => wellFormed event /\ exists F', appliesEvent (maxBlocksPerOwner idx) (MkOwnerModel owner model) now event F F' /\
                 represents F' idx' /\ maxBlocksPerOwner idx' = maxBlocksPerOwner idx
  end.
Proof using range_perm.
  intros Hr. unfold applyEvent, wellFormed. destruct (decide (Timestamps event = [] \/ length (Timestamps event) = length (BlockHashes event))) as [Hw|Hw].
  - assert (E : negb (bool_decide (Timestamps event = [])) && negb (bool_decide (length (Timestamps event) = length (BlockHashes event))) = false).
    { destruct Hw as [Hw|Hw]; rewrite (bool_decide_true _ Hw); [done|by rewrite andb_false_r]. }
    rewrite E. destruct (EventType event) eqn:Et.
    + split; [by split|]. destruct (storeLocked_spec model owner (BlockHashes event) (Timestamp event) (Timestamps event) now F idx Hr) as (F' & Hs & Hr' & Hm).
      exists F'. split; [by eapply applies_stored|by split].
    + split; [by split|]. destruct (removeLocked_spec model owner (BlockHashes event) F idx Hr) as [Hr' Hm]. eexists. split; [by eapply applies_removed|by split].
    + split; [by split|]. destruct (clearLocked_spec model owner F idx Hr) as [Hr' Hm]. eexists. split; [by eapply applies_cleared|by split].
    + intros [_ Hn]. by apply (Hn name).
  - rewrite !bool_decide_false by tauto. cbn. tauto.
Qed.

Lemma applyEvents_spec model owner now events : forall F idx, represents F idx ->
  let '(idx', ok) := applyEvents model owner now events idx in
  exists F', appliesEvents (maxBlocksPerOwner idx) (MkOwnerModel owner model) now events F F' ok /\ represents F' idx' /\ maxBlocksPerOwner idx' = maxBlocksPerOwner idx.
Proof using range_perm.
  induction events as [|event events IH]; intros F idx Hr; cbn [applyEvents]; [exists F; split; [constructor|by split]|].
  pose proof (applyEvent_spec model owner now event F idx Hr) as He. destruct (applyEvent model owner now event idx) as [idx1|].
  - destruct He as (Hw & F1 & H1 & Hr1 & Hm1). specialize (IH F1 idx1 Hr1). rewrite Hm1 in IH. destruct (applyEvents model owner now events idx1) as [idx2 ok].
    destruct IH as (F2 & H2 & Hr2 & Hm2). exists F2. split; [by eapply applies_next|by split].
  - exists F. split; [by apply applies_malformed|by split].
Qed.

Lemma runCall_spec c F idx : represents F idx -> let '(idx', a) := runCall c idx in
  exists F', specCall (maxBlocksPerOwner idx) c F F' a /\ represents F' idx' /\ maxBlocksPerOwner idx' = maxBlocksPerOwner idx.
Proof using range_perm.
  intros Hr. destruct c as [owner model now events|model hashes|owner|cutoff]; cbn [runCall].
  - unfold Apply. destruct (decide (owner = ""%string)) as [->|Ho]; [exists F; split; [by apply spec_anonymous; left|by split]|].
    destruct (decide (model = ""%string)) as [->|Hm]; [rewrite orb_true_r; exists F; split; [by apply spec_anonymous; right|by split]|].
    rewrite !bool_decide_false by done. cbn [orb]. pose proof (applyEvents_spec model owner now events F idx Hr) as H.
    destruct (applyEvents model owner now events idx) as [idx' ok]. destruct H as (F' & H1 & H2). exists F'. split; [by apply spec_apply|done].
  - exists F. destruct (GetBlockOwners_spec model hashes F idx Hr) as [H1 H2]. split; [by apply spec_owners|by split].
  - destruct (RemoveOwner_spec owner F idx Hr) as [H1 H2]. eexists. split; [apply spec_remove|by split].
  - destruct (gcStaleEntries_spec cutoff F idx Hr) as [H1 H2]. eexists. split; [apply spec_gc|by split].
Qed.

Lemma runCalls_spec calls : forall F idx, represents F idx -> let '(idx', answers) := runCalls calls idx in
  exists F', specCalls (maxBlocksPerOwner idx) calls F F' answers /\ represents F' idx'.
Proof using range_perm.
  induction calls as [|c calls IH]; intros F idx Hr; cbn [runCalls]; [exists F; split; [constructor|done]|].
  pose proof (runCall_spec c F idx Hr) as H. destruct (runCall c idx) as [idx1 a]. destruct H as (F1 & H1 & Hr1 & Hm1). specialize (IH F1 idx1 Hr1). rewrite Hm1 in IH.
  destruct (runCalls calls idx1) as [idx2 answers]. destruct IH as (F2 & H2 & Hr2). exists F2. split; [by eapply spec_step|done].
Qed.

(** *** What can be in the index *)

(** The block was reported by its own pod for its own model, at a time that
    the router's clock had reached. *)
Definition reported (calls : list call) (b : block) (ts : Z) : Prop :=
  exists now events, CApply (keyOwner b.1) (keyModel b.1) now events ∈ calls /\ ts <= now.

Lemma clampStoreTime_le ts now : clampStoreTime ts now <= now.
Proof. unfold clampStoreTime. destruct (Z.leb_spec ts 0), (Z.ltb_spec now ts); cbn; lia. Qed.

Lemma storeTimes_le hashes timestamp now : forall timestamps h ts, (h, ts) ∈ storeTimes hashes timestamp timestamps now -> ts <= now.
Proof.
  induction hashes as [|x hashes IH]; intros timestamps h ts; cbn [storeTimes]; [by intros ?%not_elem_of_nil|].
  intros [[= _ ->]|Hin]%elem_of_cons; [apply clampStoreTime_le|by eapply IH].
Qed.

Lemma stores_entries max key l F F' : stores max key l F F' -> forall b ts, F' !! b = Some ts -> F !! b = Some ts \/ b.1 = key /\ (b.2, ts) ∈ l.
Proof.
  assert (Hins : forall (F0 : flat) hash (t : Z) (b : block) ts (l : list (Z * Z)), (<[(key, hash) := t]> F0 !! b = Some ts \/ b.1 = key /\ (b.2, ts) ∈ l) ->
    F0 !! b = Some ts \/ b.1 = key /\ (b.2, ts) ∈ (hash, t) :: l).
  { intros F0 hash t b ts l0 [H|[H1 H2]]; [|right; split; [done|by right]].
    destruct (decide (b = (key, hash))) as [->|Hn]; [rewrite lookup_insert_eq in H; injection H as ->; right; split; [done|by left]|].
    rewrite lookup_insert_ne in H by done. by left. }
  induction 1 as [F0|hash t l0 F0 F1 Hh _ IH|hash t l0 F0 F1 Hn Hlt _ IH|hash t l0 F0 F1 F2 Hn He Hev _ IH]; intros b ts Hb; [by left|by apply Hins, IH|by apply Hins, IH|].
  destruct (Hins F1 hash t b ts l0 (IH b ts Hb)) as [H|H]; [left|by right]. eapply lookup_weaken; [exact H|apply Hev].
Qed.

Lemma appliesEvents_entries max key now events F F' ok : appliesEvents max key now events F F' ok ->
  forall b ts, F' !! b = Some ts -> F !! b = Some ts \/ b.1 = key /\ ts <= now.
Proof.
  induction 1 as [F0|event events F0 _|event events F0 F1 F2 ok _ H1 _ IH]; intros b ts Hb; [by left..|].
  destruct (IH b ts Hb) as [Hb1|?]; [|by right]. destruct H1 as [F1 _ Hs|_|_].
  - destruct (stores_entries _ _ _ _ _ Hs b ts Hb1) as [?|[? Hin]]; [by left|right]. split; [done|]. by eapply storeTimes_le.
  - left. by eapply lookup_weaken, deletes_sub.
  - left. by eapply lookup_weaken, map_filter_subseteq.
Qed.

Lemma specCalls_entries max done calls : forall F F' answers before, specCalls max calls F F' answers -> done = before ++ calls ->
  (forall b ts, F !! b = Some ts -> reported done b ts) -> forall b ts, F' !! b = Some ts -> reported done b ts.
Proof.
  induction calls as [|c calls IH]; intros F F' answers before Hs Ed HF b ts Hb; inversion Hs as [|? ? ? F1 ? a answers' Hc Hs']; subst; [by apply HF|].
  apply (IH F1 F' answers' (before ++ [c]) Hs'); [by rewrite <- app_assoc| |done]. clear b ts Hb. intros b ts Hb.
  inversion Hc; subst; try by apply HF.
  - match goal with H : appliesEvents _ _ _ _ _ _ _ |- _ => destruct (appliesEvents_entries _ _ _ _ _ _ _ H b ts Hb) as [?|[E ?]] end; [by apply HF|].
    eexists _, _. rewrite E. cbn. split; [apply elem_of_app; right; by left|done].
  - apply HF. by eapply lookup_weaken, map_filter_subseteq.
  - apply HF. by eapply lookup_weaken, map_filter_subseteq.
Qed.

Lemma represents_new max : represents ∅ (NewKVBlockMemoryIndex max).
Proof.
  split; [split| |].
  - split. intros m h o. unfold modelBlocks. cbn. by rewrite !lookup_empty.
  - intros k h. unfold owned. cbn. by rewrite !lookup_empty.
  - split; [intros m h; unfold modelBlocks; cbn; by rewrite !lookup_empty|intros m; cbn; by rewrite lookup_empty|intros k; cbn; by rewrite lookup_empty].
  - intros o. cbn. by rewrite lookup_empty.
  - cbn. unfold defaultMaxBlocksPerPod. destruct (Z.leb_spec max 0); lia.
  - intros o. change (held o ∅) with 0. cbn. unfold defaultMaxBlocksPerPod. destruct (Z.leb_spec max 0); lia.
Qed.

(** C20: the index of KV cache blocks is what its calls say. After any sequence
    of event messages, queries, removed pods and garbage collections, in
    whatever order Go ranges over its maps, the index from blocks to pods and
    the reverse index hold the same blocks, no empty map is left, the counters
    are exact, and no pod holds more blocks than the limit. The calls and their
    answers are those of one flat map from pod, model and block to store time:
    a stored block is refreshed or takes a free place, and at the limit exactly
    a tenth of the pod's own blocks go, none of them younger than one that
    stays; a malformed event ends its message with an error, and the events
    before it stay applied. Every block was reported by its own pod, and its
    store time is not after the report. *)
Theorem kv_index_refines_flat_map max calls :
  let '(idx, answers) := runCalls calls (NewKVBlockMemoryIndex max) in
  exists F, specCalls (if max <=? 0 then defaultMaxBlocksPerPod else max) calls ∅ F answers /\ represents F idx /\
    forall b ts, F !! b = Some ts -> reported calls b ts.
Proof using range_perm.
  pose proof (runCalls_spec calls ∅ _ (represents_new max)) as H. destruct (runCalls calls (NewKVBlockMemoryIndex max)) as [idx answers].
  destruct H as (F & Hs & Hr). exists F. split; [done|]. split; [done|]. apply (specCalls_entries _ calls calls ∅ F answers [] Hs); [done|].
  intros b ts. by rewrite lookup_empty.
Qed.
End index.

(** ** Example: a pod with room for two blocks *)

Definition demoCalls : list call :=
  [ CApply "a" "llm" 100 [MkEvent kvEventStored [1; 2] 50 [40; 90]; MkEvent kvEventStored [3] 500 []];
    CApply "b" "llm" 110 [MkEvent kvEventStored [2] 0 []; MkEvent kvEventStored [4] 1 [1; 2]; MkEvent kvEventCleared [] 0 []];
    CGetBlockOwners "llm" [1; 2; 3];
    CGcStaleEntries 105;
    CGetBlockOwners "llm" [1; 2; 3] ].

(** The oldest block of the pod makes room, a store time in the future is cut
    to the receive time, and the message of the second pod ends at the event
    whose times do not fit. *)
Example demo_answers : (runCalls (fun _ l => l) demoCalls (NewKVBlockMemoryIndex 2)).2 =
  [Applied true; Applied false; Owners {[2 := {["a"%string := "90"%string; "b"%string := "110"%string]}; 3 := {["a"%string := "100"%string]}]};
   Nothing; Owners {[2 := {["b"%string := "110"%string]}]}].
Proof. vm_compute. reflexivity. Qed.

Lemma kv_index_refines_flat_map_witness :
  let '(idx, answers) := runCalls (fun _ l => l) demoCalls (NewKVBlockMemoryIndex 2) in
  exists F, specCalls 2 demoCalls ∅ F answers /\ represents F idx /\ forall b ts, F !! b = Some ts -> reported demoCalls b ts.
Proof. exact (kv_index_refines_flat_map (fun _ l => l) (fun _ l => Permutation_refl l) 2 demoCalls). Defined.
