(* ===== verification/KvScore.v ===== *)
(** * pkg/kthena-router/scheduler/plugins/kvcache_aware.go: the scores of the KV cache

    How much of a prompt a pod has in its KV cache: the prompt is cut into
    blocks of tokens, the blocks are looked up in the index in memory, and a
    pod scores the share of the leading blocks it holds. The tokenizer, SHA-256
    and the order of Go's maps are parameters; metrics and log lines are left
    out. *)
From Stdlib Require Import Ascii String.
From S2P Require Import Prelude Float64 Names KvIndex.
Local Open Scope Z_scope.

(** A candidate: the start times of its containers that run. *)
Record PodInfo := MkPodInfo {
  podName : string;
  podNamespace : string;
  containersStarted : list (option Z);
}.

Section score.
Context (range : forall A, list A -> list A) (Sum256 : list Z -> list Z).
Abbreviation entries m := (range _ (map_to_list m)).

(** ** Blocks of tokens *)

Definition bigEndian32 (token : Z) : list Z :=
  [Z.land (Z.shiftr token 24) 255; Z.land (Z.shiftr token 16) 255; Z.land (Z.shiftr token 8) 255; Z.land token 255].

Definition bigEndian64 (bytes : list Z) : Z := fold_left (fun n b => Z.lor (Z.shiftl n 8) b) (take 8 bytes) 0.

Definition computeStandardizedHash (tokens : list Z) : Z :=
  if bool_decide (tokens = []) then 0
  else Z.land (bigEndian64 (Sum256 (mjoin (bigEndian32 <$> tokens)))) 9223372036854775807.

Fixpoint chunkTokens (blockSize maxBlocks : nat) (tokens : list Z) : list (list Z) :=
  match maxBlocks, tokens with
  | S maxBlocks, _ :: _ => take blockSize tokens :: chunkTokens blockSize maxBlocks (drop blockSize tokens)
  | _, _ => []
  end.

Definition TokensToBlockHashes (blockSize maxBlocks : nat) (tokens : list Z) : list Z :=
  computeStandardizedHash <$> chunkTokens blockSize maxBlocks tokens.

(** ** Owners *)

Definition cacheOwnerIdentifier (pod : PodInfo) : string := (podName pod ++ "." ++ podNamespace pod)%string.

Definition podLastContainerStartUnix (pod : PodInfo) : Z :=
  fold_left (fun newest started => match started with Some t => if newest <? t then t else newest | None => newest end) (containersStarted pod) 0.

Definition ownerStartTimes (pods : list PodInfo) : gmap string Z :=
  fold_left (fun owners p => let started := podLastContainerStartUnix p in
                             if 0 <? started then <[cacheOwnerIdentifier p := started]> owners else owners) pods ∅.

(** A time that cannot be parsed keeps its owner. *)
Definition freshOwner (ownerStartedAt : gmap string Z) (owner writtenAt : string) : bool :=
  match ownerStartedAt !! owner, Atoi (list_ascii_of_string writtenAt) with
  | Some startedAt, Some written => startedAt <? written
  | _, _ => true
  end.

Definition freshOwners (m : gmap string string) (ownerStartedAt : gmap string Z) : list string :=
  (filter (fun x : string * string => freshOwner ownerStartedAt x.1 x.2 = true) (entries m)).*1.

Definition nonempty {A} (l : list A) : option (list A) := match l with [] => None | _ => Some l end.

Definition queryMemoryForBlocks (idx : KVBlockMemoryIndex) (blockHashes : list Z) (model : string) (ownerStartedAt : gmap string Z) : gmap Z (list string) :=
  omap (fun m => nonempty (freshOwners m ownerStartedAt)) (GetBlockOwners model blockHashes idx).

(** ** Scores *)

(** [int(float64(matchLen) / float64(totalBlocks) * 100)]; the conversion is
    in the range of an int. *)
Definition percentOf (matchLen totalBlocks : Z) : Z :=
  match f_mul (f_div (f_of_Z matchLen) (f_of_Z totalBlocks)) (f_of_Z 100) with
  | S754_finite s m e => truncZ s m e
  | _ => 0
  end.

Definition bump (i : Z) (st : gmap string Z * bool) (podName : string) : gmap string Z * bool :=
  let '(podScores, stillActive) := st in
  if default 0 (podScores !! podName) =? i then (<[podName := i + 1]> podScores, true) else st.

(** The loop over the blocks from the second on; the last number is
    [lastMatchedBlock]. *)
Fixpoint matchBlocks (blockToPods : gmap Z (list string)) (blockHashes : list Z) (i : Z) (podScores : gmap string Z) (lastMatchedBlock : Z) : gmap string Z * Z :=
  match blockHashes with
  | [] => (podScores, lastMatchedBlock)
  | hash :: blockHashes =>
    match blockToPods !! hash with
    | None | Some [] => (podScores, lastMatchedBlock)
    | Some blockPods =>
      let '(podScores, stillActive) := fold_left (bump i) blockPods (podScores, false) in
      if stillActive : bool then matchBlocks blockToPods blockHashes (i + 1) podScores i else (podScores, lastMatchedBlock)
    end
  end.

Definition calculatePodScores (blockHashes : list Z) (blockToPods : gmap Z (list string)) : gmap string Z * Z :=
  match blockHashes with
  | [] => (∅, 0)
  | first :: rest =>
    match blockToPods !! first with
    | None | Some [] => (∅, 0)
    | Some firstBlockPods =>
      let podScores := fold_left (fun m podName => <[podName := 1]> m) firstBlockPods ∅ in
      let '(podScores, lastMatchedBlock) := matchBlocks blockToPods rest 1 podScores 0 in
      ((fun matchLen => percentOf matchLen (Z.of_nat (length blockHashes))) <$> podScores, lastMatchedBlock + 1)
    end
  end.

(** [tokens] is what the tokenizer answers for the prompt; the result is nil
    ([None]) or the scores of the pods that have one, and the longest match. *)
Definition Score (idx : KVBlockMemoryIndex) (blockSize maxBlocks : nat) (promptEmpty : bool) (model : string) (tokens : option (list Z)) (pods : list PodInfo) : option (list (PodInfo * Z) * Z) :=
  if promptEmpty || bool_decide (model = ""%string) then None
  else
    tokens ← tokens;
    let blockHashes := TokensToBlockHashes blockSize maxBlocks tokens in
    if bool_decide (blockHashes = []) then None
    else
      let blockToPods := queryMemoryForBlocks idx blockHashes model (ownerStartTimes pods) in
      let candidateNames : gset string := list_to_set (cacheOwnerIdentifier <$> pods) in
      let blockToPods := omap (fun podNames => nonempty (filter (fun name => name ∈ candidateNames) podNames)) blockToPods in
      let '(podScores, longestMatch) := calculatePodScores blockHashes blockToPods in
      Some (omap (fun pod => score ← podScores !! cacheOwnerIdentifier pod; Some (pod, score)) pods, longestMatch).

End score.

(** ** What a pod scores *)

(** The leading elements that satisfy [f]. *)
Fixpoint lead {A} (f : A -> bool) (l : list A) : nat :=
  match l with
  | x :: l => if f x then S (lead f l) else O
  | [] => O
  end.

Lemma lead_le {A} (f : A -> bool) l : (lead f l <= length l)%nat.
Proof. induction l as [|x l IH]; cbn; [lia|]. destruct (f x); lia. Qed.

Lemma lead_app {A} (f : A -> bool) l k : lead f (l ++ k) = if decide (lead f l = length l) then (length l + lead f k)%nat else lead f l.
Proof.
  induction l as [|x l IH]; [done|]. cbn. destruct (f x); [|done]. rewrite IH. repeat case_decide; lia.
Qed.

Lemma lead_ext {A} (f g : A -> bool) l : (forall x, x ∈ l -> f x = g x) -> lead f l = lead g l.
Proof. induction l as [|x l IH]; intros Hl; [done|]. cbn. rewrite Hl by by left. rewrite IH; [done|]. intros y Hy. apply Hl. by right. Qed.

Lemma omap_ext_in {A B} (f g : A -> option B) (l : list A) : (forall x, x ∈ l -> f x = g x) -> omap f l = omap g l.
Proof. induction l as [|x l IH]; intros Hl; [done|]. cbn. rewrite Hl by by left. rewrite IH; [done|]. intros y Hy. apply Hl. by right. Qed.

(** Whether a pod has a block: it holds it, and stored it after each of its
    running containers started. *)
Definition cached (F : flat) (model : string) (pod : PodInfo) (hash : Z) : bool :=
  match F !! (MkOwnerModel (cacheOwnerIdentifier pod) model, hash) with
  | Some ts => forallb (fun started => match started with Some t => (t <=? 0) || (t <? ts) | None => true end) (containersStarted pod)
  | None => false
  end.

Lemma newest_start l ts : forall newest, 0 <= newest ->
  let started := fold_left (fun newest started => match started with Some t => if newest <? t then t else newest | None => newest end) l newest in
  (if 0 <? started then started <? ts else true) =
  (if 0 <? newest then newest <? ts else true) && forallb (fun started => match started with Some t => (t <=? 0) || (t <? ts) | None => true end) l.
Proof.
  induction l as [|[t|] l IH]; intros newest Hn; cbn [fold_left forallb]; cbn zeta; [by rewrite andb_true_r| |by rewrite IH].
  destruct (Z.ltb_spec newest t); rewrite IH by lia; rewrite andb_assoc; f_equal;
    destruct (Z.ltb_spec 0 t), (Z.leb_spec t 0), (Z.ltb_spec 0 newest), (Z.ltb_spec newest ts), (Z.ltb_spec t ts); cbn; lia.
Qed.

Lemma podLastContainerStart_spec pod ts : (if 0 <? podLastContainerStartUnix pod then podLastContainerStartUnix pod <? ts else true) =
  forallb (fun started => match started with Some t => (t <=? 0) || (t <? ts) | None => true end) (containersStarted pod).
Proof. exact (newest_start (containersStarted pod) ts 0 ltac:(lia)). Qed.

(** *** Blocks of a prompt *)

(** The blocks of a prompt are its consecutive parts of [blockSize] tokens, of
    which only the last may be shorter, up to the limit; each is hashed on its
    own. *)
Definition blocksOf (Sum256 : list Z -> list Z) (blockSize maxBlocks : nat) (tokens hashes : list Z) : Prop :=
  (forall i, (i < length hashes)%nat -> hashes !! i = Some (computeStandardizedHash Sum256 (take blockSize (drop (i * blockSize) tokens)))) /\
  (length hashes <= maxBlocks)%nat /\
  (length hashes = maxBlocks \/ (length tokens <= length hashes * blockSize)%nat) /\
  (length hashes = O \/ ((length hashes - 1) * blockSize < length tokens)%nat).

Lemma chunkTokens_lookup blockSize maxBlocks : forall tokens i, (i < length (chunkTokens blockSize maxBlocks tokens))%nat ->
  chunkTokens blockSize maxBlocks tokens !! i = Some (take blockSize (drop (i * blockSize) tokens)).
Proof.
  induction maxBlocks as [|maxBlocks IH]; intros [|x tokens] i Hi; cbn [chunkTokens length] in *; [lia..|].
  destruct i as [|i]; [done|]. cbn [lookup list_lookup]. rewrite (IH _ i), drop_drop by lia. done.
Qed.

Lemma chunkTokens_length blockSize maxBlocks : (0 < blockSize)%nat -> forall tokens, let n := length (chunkTokens blockSize maxBlocks tokens) in
  (n <= maxBlocks)%nat /\ (n = maxBlocks \/ (length tokens <= n * blockSize)%nat) /\ (n = O \/ ((n - 1) * blockSize < length tokens)%nat).
Proof.
  intros Hb. induction maxBlocks as [|maxBlocks IH]; intros [|x tokens]; cbn zeta; cbn [chunkTokens length]; [cbn; lia..|].
  destruct (IH (drop blockSize (x :: tokens))) as (H1 & H2 & H3). rewrite length_drop in H2, H3. cbn [length] in H2, H3.
  set (n := length (chunkTokens blockSize maxBlocks (drop blockSize (x :: tokens)))) in *. destruct n as [|n]; cbn in *; nia.
Qed.

Lemma TokensToBlockHashes_spec Sum256 blockSize maxBlocks tokens : (0 < blockSize)%nat ->
  blocksOf Sum256 blockSize maxBlocks tokens (TokensToBlockHashes Sum256 blockSize maxBlocks tokens).
Proof.
  intros Hb. unfold TokensToBlockHashes, blocksOf. rewrite length_fmap. split; [|by apply chunkTokens_length].
  intros i Hi. by rewrite list_lookup_fmap, chunkTokens_lookup.
Qed.

Lemma TokensToBlockHashes_nil Sum256 blockSize maxBlocks tokens : TokensToBlockHashes Sum256 blockSize maxBlocks tokens = [] -> maxBlocks = O \/ tokens = [].
Proof. unfold TokensToBlockHashes. destruct maxBlocks, tokens; cbn; auto; discriminate. Qed.

Lemma Atoi_Itoa n : - 2 ^ 63 <= n < 2 ^ 63 -> Atoi (list_ascii_of_string (Itoa n)) = Some n.
Proof.
  intros Hn. unfold Itoa. rewrite list_ascii_of_string_of_list_ascii. unfold Atoi.
  assert (Hbound : (- 2 ^ 63 <=? n) && (n <? 2 ^ 63) = true) by (apply andb_true_iff; split; [apply Z.leb_le|apply Z.ltb_lt]; lia).
  assert (Hds : forall m, 0 <= m -> bool_decide (digits m = []) || negb (forallb isDigit (digits m)) = false /\ digitsValue (digits m) = m).
  { intros m Hm. destruct (digits_spec m Hm) as (D1 & D2 & D3). split; [|done]. rewrite bool_decide_false by done. apply negb_false_iff, forallb_forall.
    intros c Hc%list_elem_of_In. rewrite Forall_forall in D2. by apply D2. }
  destruct (Z.ltb_spec n 0).
  - rewrite bool_decide_true by done. destruct (Hds (- n) ltac:(lia)) as [-> ->]. rewrite Z.opp_involutive. by rewrite Hbound.
  - destruct (Hds n ltac:(lia)) as [H1 H2]. destruct (digits_spec n ltac:(lia)) as (D1 & D2 & _).
    destruct (digits n) as [|c l]; [done|]. apply Forall_cons in D2 as [Hc _].
    assert (Hnot : c <> dash /\ c <> "+"%char) by (split; intros ->; by vm_compute in Hc).
    rewrite !bool_decide_false by apply Hnot. rewrite H1, H2. by rewrite Hbound.
Qed.

Definition podsOf (m : gmap Z (list string)) (hash : Z) : list string := default [] (m !! hash).

(** *** The loop *)

Section matching.
(** Which pods have which blocks. *)
Context (m : gmap Z (list string)) (has : string -> Z -> bool) (hashes : list Z).
Hypothesis has_iff : forall hash name, hash ∈ hashes -> name ∈ podsOf m hash <-> has name hash = true.
Hypothesis has_nodup : forall hash, hash ∈ hashes -> NoDup (podsOf m hash).
Hypothesis never_empty : forall hash, hash ∈ hashes -> m !! hash <> Some [].

Definition scored (l : list Z) (podScores : gmap string Z) : Prop := forall name,
  podScores !! name = let k := lead (has name) l in if decide (k = O) then None else Some (Z.of_nat k).

Lemma bump_fold i l : forall podScores stillActive, NoDup l ->
  let '(podScores', stillActive') := fold_left (bump i) l (podScores, stillActive) in
  (forall name, podScores' !! name = if decide (name ∈ l /\ default 0 (podScores !! name) = i) then Some (i + 1) else podScores !! name) /\
  (stillActive' = true <-> stillActive = true \/ exists name, name ∈ l /\ default 0 (podScores !! name) = i).
Proof.
  induction l as [|x l IH]; intros podScores stillActive Hnd; cbn [fold_left].
  - split; [intros name; rewrite decide_False; [done|]; by intros [?%not_elem_of_nil _]|]. split; [by left|]. intros [?|(? & ?%not_elem_of_nil & _)]; done.
  - apply NoDup_cons in Hnd as [Hx Hnd]. unfold bump at 2. destruct (Z.eqb_spec (default 0 (podScores !! x)) i) as [E|E].
    + specialize (IH (<[x := i + 1]> podScores) true Hnd). destruct (fold_left _ _ _) as [s' b']. destruct IH as [I1 I2]. split.
      * intros name. rewrite I1. pose proof (elem_of_cons l name x) as Hc. destruct (decide (name = x)) as [->|Hn].
        { rewrite lookup_insert_eq. rewrite (decide_True (P := x ∈ x :: l /\ _)) by (split; [by left|done]). by case_decide. }
        rewrite lookup_insert_ne by done. repeat case_decide; try done; exfalso; naive_solver.
      * rewrite I2. split; [|by left]. intros _. right. exists x. split; [by left|done].
    + specialize (IH podScores stillActive Hnd). destruct (fold_left _ _ _) as [s' b']. destruct IH as [I1 I2]. split.
      * intros name. rewrite I1. pose proof (elem_of_cons l name x) as Hc. repeat case_decide; try done; exfalso; naive_solver.
      * rewrite I2. setoid_rewrite elem_of_cons. split; [naive_solver|]. intros [?|(name & [->|?] & ?)]; [by left|done|right; by exists name].
Qed.

(** One more block. *)
Lemma lead_snoc name P hash : lead (has name) (P ++ [hash]) =
  if decide (lead (has name) P = length P) then (if has name hash then S (length P) else length P) else lead (has name) P.
Proof. rewrite lead_app. cbn. case_decide; [|done]. destruct (has name hash); lia. Qed.

Lemma lead_stop P rest : (forall name, (lead (has name) P < length P)%nat) -> forall name, lead (has name) (P ++ rest) = lead (has name) P.
Proof. intros Hall name. rewrite lead_app, decide_False; [done|]. specialize (Hall name). lia. Qed.

Record longestOf (l : list Z) (longest : Z) : Prop := {
  longest_bound name : Z.of_nat (lead (has name) l) <= longest;
  longest_reached : exists name, Z.of_nat (lead (has name) l) = longest;
}.

Lemma scored_default P podScores name i : scored P podScores -> i = Z.of_nat (length P) -> (0 < length P)%nat ->
  default 0 (podScores !! name) = i <-> lead (has name) P = length P.
Proof. intros Hs -> HP. rewrite (Hs name). cbn zeta. case_decide; cbn; lia. Qed.

Lemma matchBlocks_spec rest : forall P podScores i, hashes = P ++ rest -> i = Z.of_nat (length P) -> (0 < length P)%nat -> scored P podScores ->
  (exists name, lead (has name) P = length P) ->
  let '(podScores', last) := matchBlocks m rest i podScores (i - 1) in scored (P ++ rest) podScores' /\ longestOf (P ++ rest) (last + 1).
Proof using has_iff has_nodup never_empty.
  induction rest as [|hash rest IH]; intros P podScores i Eh Ei HP Hs Hact; cbn [matchBlocks].
  - rewrite app_nil_r. split; [done|]. split.
    + intros name. pose proof (lead_le (has name) P). lia.
    + destruct Hact as [name Hn]. exists name. lia.
  - assert (Hin : hash ∈ hashes) by (rewrite Eh; apply elem_of_app; right; by left).
    assert (Hstop : (forall name, lead (has name) (P ++ [hash]) <> S (length P)) -> scored (P ++ hash :: rest) podScores /\ longestOf (P ++ hash :: rest) (i - 1 + 1)).
    { intros Hnone.
      assert (Hsame : forall name, lead (has name) (P ++ hash :: rest) = lead (has name) P).
      { intros name. change (hash :: rest) with ([hash] ++ rest). rewrite app_assoc. specialize (Hnone name). pose proof (lead_snoc name P hash) as El.
        rewrite lead_app. rewrite decide_False; [|rewrite length_app; cbn; pose proof (lead_le (has name) (P ++ [hash])) as Hl; rewrite length_app in Hl; cbn in Hl; lia].
        rewrite El in Hnone |- *. case_decide; [|done]. destruct (has name hash); [done|lia]. }
      split; [intros name; rewrite Hsame; apply Hs|]. split.
      - intros name. rewrite Hsame. pose proof (lead_le (has name) P). lia.
      - destruct Hact as [name Hn]. exists name. rewrite Hsame. lia. }
    assert (Hnone : forall name, has name hash = false -> lead (has name) (P ++ [hash]) <> S (length P)).
    { intros name Hf. rewrite lead_snoc, Hf. pose proof (lead_le (has name) P). case_decide; lia. }
    destruct (m !! hash) as [blockPods|] eqn:Em.
    2: { apply Hstop. intros name. apply Hnone, not_true_iff_false. rewrite <- (has_iff hash name Hin). unfold podsOf. rewrite Em. apply not_elem_of_nil. }
    destruct blockPods as [|p blockPods]; [by destruct (never_empty hash Hin)|]. set (l := p :: blockPods) in *.
    assert (El : podsOf m hash = l) by (unfold podsOf; by rewrite Em).
    pose proof (has_nodup hash Hin) as Hnd. rewrite El in Hnd. pose proof (bump_fold i l podScores false Hnd) as Hb.
    destruct (fold_left (bump i) l (podScores, false)) as [podScores1 active]. destruct Hb as [Hb1 Hb2].
    assert (Hd : forall name, default 0 (podScores !! name) = i <-> lead (has name) P = length P) by (intros; by apply (scored_default P)).
    assert (Hl : forall name, name ∈ l <-> has name hash = true) by (intros name; rewrite <- El; by apply has_iff).
    destruct active.
    + specialize (IH (P ++ [hash]) podScores1 (i + 1)). rewrite <- app_assoc in IH. replace (i + 1 - 1) with i in IH by lia. apply IH; [done|rewrite length_app; cbn; lia|rewrite length_app; lia| |].
      * intros name. rewrite Hb1, lead_snoc. cbn zeta. pose proof (Hd name) as Hdn. pose proof (Hl name) as Hln. pose proof (Hs name) as Hsn. cbn zeta in Hsn.
        destruct (decide (lead (has name) P = length P)) as [E|E].
        { destruct (has name hash).
          - rewrite decide_True by tauto. rewrite decide_False by lia. f_equal. lia.
          - rewrite decide_False by (intros [Hx _]; by apply Hln in Hx). rewrite Hsn, E. done. }
        rewrite decide_False by tauto. exact Hsn.
      * destruct Hb2 as [Hb2 _]. destruct (Hb2 eq_refl) as [?|(name & Hn & Hi)]; [done|]. exists name. rewrite lead_snoc, length_app. cbn.
        rewrite decide_True by by apply Hd. rewrite (proj1 (Hl name) Hn). lia.
    + assert (Hno : forall name, name ∈ l -> default 0 (podScores !! name) <> i).
      { intros name Hn Hi. destruct Hb2 as [_ Hb2]. assert (false = true) by (apply Hb2; right; by exists name). done. }
      assert (Es : podScores1 = podScores) by (apply map_eq; intros name; rewrite Hb1, decide_False; [done|]; intros [H1 H2]; by apply (Hno name)).
      rewrite Es. apply Hstop. intros name. rewrite lead_snoc. case_decide as E; [|pose proof (lead_le (has name) P); lia].
      destruct (has name hash) eqn:Eh'; [|lia]. exfalso. apply (Hno name); [by apply Hl|by apply Hd].
Qed.

Lemma calculatePodScores_spec : hashes <> [] ->
  let '(podScores, longest) := calculatePodScores hashes m in
  (forall name, podScores !! name = let k := lead (has name) hashes in if decide (k = O) then None else Some (percentOf (Z.of_nat k) (Z.of_nat (length hashes)))) /\
  longestOf hashes longest.
Proof using has_iff has_nodup never_empty.
  intros Hne. unfold calculatePodScores.
  assert (Hc : forall l : list Z, l <> [] -> exists x k, l = x :: k) by (intros [|x k] ?; [done|by exists x, k]).
  destruct (Hc hashes Hne) as (first & rest & Eh). clear Hc Hne. assert (Hin : first ∈ hashes) by (rewrite Eh; by left).
  rewrite Eh. cbn beta iota. rewrite <- Eh.
  destruct (m !! first) as [l|] eqn:Em.
  2: { assert (Hno : forall name, lead (has name) hashes = O).
       { intros name. rewrite Eh. cbn. destruct (has name first) eqn:E; [|done]. apply has_iff in E; [|done]. unfold podsOf in E. rewrite Em in E. by apply not_elem_of_nil in E. }
       split; [intros name; by rewrite Hno, lookup_empty|]. split; [intros name; rewrite Hno; lia|]. exists ""%string. by rewrite Hno. }
  destruct l as [|p l']; [by destruct (never_empty first Hin)|]. set (l := p :: l') in *.
  assert (El : podsOf m first = l) by (unfold podsOf; by rewrite Em).
  set (init := fold_left (fun m podName => <[podName := 1]> m) l (∅ : gmap string Z)).
  assert (Hinit : forall l m0 name, fold_left (fun (m : gmap string Z) podName => <[podName := 1]> m) l m0 !! name = if decide (name ∈ l) then Some 1 else m0 !! name).
  { clear. induction l as [|x l IH]; intros m0 name; cbn [fold_left]; [rewrite decide_False; [done|apply not_elem_of_nil]|]. rewrite IH. pose proof (elem_of_cons l name x) as Hc.
    destruct (decide (name = x)) as [->|Hn]; [rewrite lookup_insert_eq, (decide_True (P := x ∈ x :: l)) by (by left); by case_decide|].
    rewrite lookup_insert_ne by done. repeat case_decide; try done; exfalso; naive_solver. }
  pose proof (matchBlocks_spec rest [first] init 1) as Hm. destruct (matchBlocks m rest 1 init (1 - 1)) as [podScores last] eqn:Ematch.
  change (1 - 1) with 0 in Ematch. rewrite Ematch. destruct Hm as [Hsc Hlong]; [done|done|cbn; lia| | |].
  - intros name. unfold init. rewrite Hinit, <- El. cbn. rewrite lookup_empty. destruct (has name first) eqn:E.
    + rewrite decide_True; [done|]. by apply has_iff.
    + rewrite decide_False; [done|]. rewrite has_iff by done. congruence.
  - exists p. cbn. assert (E : has p first = true) by (apply has_iff; [done|]; rewrite El; by left). by rewrite E.
  - cbn [app] in Hsc, Hlong. rewrite <- Eh in Hsc, Hlong. split; [|done]. intros name. rewrite lookup_fmap, Hsc. cbn zeta. by case_decide.
Qed.
End matching.

(** *** The percentages

    For the numbers of blocks the plugin matches by default. *)

Definition percentsFor (n : nat) : list Z := (fun k => percentOf (Z.of_nat k) (Z.of_nat n)) <$> seq 0 (S n).

Fixpoint ascending (lower : Z) (l : list Z) : bool :=
  match l with
  | x :: l => (lower <=? x) && ascending x l
  | [] => lower =? 100
  end.

Lemma percents_ascend : forallb (fun n => ascending 0 (percentsFor n)) (seq 1 128) = true.
Proof. vm_compute. reflexivity. Qed.

Lemma ascending_spec l : forall lower i j x y, ascending lower l = true -> l !! i = Some x -> l !! j = Some y -> (i <= j)%nat -> lower <= x <= y /\ y <= 100.
Proof.
  assert (Hup : forall l lower, ascending lower l = true -> lower <= 100).
  { clear. induction l as [|z l IH]; intros lower; cbn; [intros E%Z.eqb_eq; lia|]. intros [E1%Z.leb_le E2]%andb_true_iff. specialize (IH z E2). lia. }
  induction l as [|z l IH]; intros lower i j x y Ha Hi Hj Hij; [done|]. cbn in Ha. apply andb_true_iff in Ha as [E1%Z.leb_le E2].
  destruct j as [|j].
  - replace i with O in Hi by lia. cbn in Hi, Hj. injection Hi as ->. injection Hj as ->. specialize (Hup l _ E2). lia.
  - destruct i as [|i].
    + cbn in Hi. injection Hi as ->. destruct (IH x j j y y E2 Hj Hj ltac:(lia)). lia.
    + destruct (IH z i j x y E2 Hi Hj ltac:(lia)). lia.
Qed.

Lemma percentOf_monotone n i j : (1 <= n <= 128)%nat -> (i <= j <= n)%nat ->
  0 <= percentOf (Z.of_nat i) (Z.of_nat n) <= percentOf (Z.of_nat j) (Z.of_nat n) /\ percentOf (Z.of_nat j) (Z.of_nat n) <= 100.
Proof.
  intros Hn Hij. pose proof percents_ascend as Ht. rewrite forallb_forall in Ht.
  apply (ascending_spec (percentsFor n) 0 i j); [apply Ht, in_seq; lia| | |lia]; unfold percentsFor; rewrite list_lookup_fmap, lookup_seq_lt by lia; done.
Qed.

(** The rounding loses one point at most. *)
Lemma percents_near : forallb (fun n => forallb (fun k => let p := percentOf (Z.of_nat k) (Z.of_nat n) in
  (p * Z.of_nat n <=? 100 * Z.of_nat k) && (100 * Z.of_nat k <? (p + 2) * Z.of_nat n)) (seq 0 (S n))) (seq 1 128) = true.
Proof. vm_compute. reflexivity. Qed.

Lemma percentOf_near n k : (1 <= n <= 128)%nat -> (k <= n)%nat ->
  percentOf (Z.of_nat k) (Z.of_nat n) * Z.of_nat n <= 100 * Z.of_nat k < (percentOf (Z.of_nat k) (Z.of_nat n) + 2) * Z.of_nat n.
Proof.
  intros Hn Hk. pose proof percents_near as Ht. rewrite forallb_forall in Ht. specialize (Ht n ltac:(apply in_seq; lia)). cbv beta in Ht.
  rewrite forallb_forall in Ht. specialize (Ht k ltac:(apply in_seq; lia)). cbn zeta in Ht. apply andb_true_iff in Ht as [H1%Z.leb_le H2%Z.ltb_lt]. done.
Qed.

Section exact.
Context (range : forall A, list A -> list A) (Sum256 : list Z -> list Z).
Hypothesis range_perm : forall A (l : list A), range A l ≡ₚ l.
Context (F : flat) (idx : KVBlockMemoryIndex) (model : string) (pods : list PodInfo).
Hypothesis Hrep : represents F idx.
Hypothesis int64_times : forall b ts, F !! b = Some ts -> - 2 ^ 63 <= ts < 2 ^ 63.
Hypothesis pods_distinct : NoDup (cacheOwnerIdentifier <$> pods).

Lemma ownerStartTimes_lookup pod : pod ∈ pods -> ownerStartTimes pods !! cacheOwnerIdentifier pod =
  (let started := podLastContainerStartUnix pod in if 0 <? started then Some started else None).
Proof using pods_distinct.
  unfold ownerStartTimes. set (step := fun owners p => _).
  assert (Hother : forall l owners name, name ∉ cacheOwnerIdentifier <$> l -> fold_left step l owners !! name = owners !! name).
  { induction l as [|p l IH]; intros owners name Hn; [done|]. rewrite fmap_cons, not_elem_of_cons in Hn. destruct Hn as [Hp Hl].
    cbn [fold_left]. rewrite IH by done. unfold step. cbn zeta. destruct (_ <? _); [by rewrite lookup_insert_ne|done]. }
  assert (Hin : forall l owners, NoDup (cacheOwnerIdentifier <$> l) -> pod ∈ l -> owners !! cacheOwnerIdentifier pod = None ->
    fold_left step l owners !! cacheOwnerIdentifier pod = (let started := podLastContainerStartUnix pod in if 0 <? started then Some started else None)).
  { induction l as [|p l IH]; intros owners Hnd Hp Hnone; [by apply not_elem_of_nil in Hp|]. rewrite fmap_cons in Hnd. apply NoDup_cons in Hnd as [Hn Hnd].
    cbn [fold_left]. apply elem_of_cons in Hp as [->|Hp].
    - rewrite Hother by done. unfold step. cbn zeta. by destruct (_ <? _); [rewrite lookup_insert_eq|].
    - apply IH; [done|done|]. unfold step. cbn zeta. destruct (_ <? _); [|done]. rewrite lookup_insert_ne; [done|].
      intros E. apply Hn. rewrite E. by apply list_elem_of_fmap_2. }
  intros Hp. apply Hin; [done|done|]. by rewrite lookup_empty.
Qed.

(** What the query answers for the candidates. *)
Definition blockToPods (blockHashes : list Z) : gmap Z (list string) :=
  omap (fun podNames => nonempty (filter (fun name => name ∈ (list_to_set (cacheOwnerIdentifier <$> pods) : gset string)) podNames))
    (queryMemoryForBlocks range idx blockHashes model (ownerStartTimes pods)).

Lemma nonempty_Some {A} (l k : list A) : nonempty l = Some k <-> l = k /\ k <> [].
Proof. destruct l; cbn; split; [done|by intros [<- ?]|by intros [= <-]|by intros [-> _]]. Qed.

Lemma freshOwners_elem m started name : name ∈ freshOwners range m started <-> exists writtenAt, m !! name = Some writtenAt /\ freshOwner started name writtenAt = true.
Proof using range_perm.
  unfold freshOwners. rewrite list_elem_of_fmap. split.
  - intros ([k w] & -> & Hin). apply list_elem_of_filter in Hin as [Hf Hin]. rewrite range_perm in Hin. apply elem_of_map_to_list in Hin. by exists w.
  - intros (w & Hm & Hf). exists (name, w). split; [done|]. apply list_elem_of_filter. split; [done|]. rewrite range_perm. by apply elem_of_map_to_list.
Qed.

Lemma freshOwners_nodup m started : NoDup (freshOwners range m started).
Proof using range_perm.
  unfold freshOwners. eapply sublist_NoDup; [|apply fmap_sublist, sublist_filter]. rewrite range_perm. apply NoDup_fst_map_to_list.
Qed.

Lemma blockToPods_spec blockHashes hash : hash ∈ blockHashes ->
  blockToPods blockHashes !! hash <> Some [] /\ NoDup (podsOf (blockToPods blockHashes) hash) /\
  (forall name, name ∈ podsOf (blockToPods blockHashes) hash <-> exists pod, pod ∈ pods /\ name = cacheOwnerIdentifier pod /\ cached F model pod hash = true).
Proof using range_perm Hrep int64_times pods_distinct.
  intros Hh. destruct (GetBlockOwners_spec model blockHashes F idx Hrep) as [Howners Hne]. unfold podsOf, blockToPods, queryMemoryForBlocks.
  rewrite !lookup_omap. set (answer := GetBlockOwners model blockHashes idx) in *. set (m := default ∅ (answer !! hash)).
  assert (Hm : forall name, m !! name = Itoa <$> F !! (MkOwnerModel name model, hash)).
  { intros name. specialize (Howners hash name). rewrite decide_True in Howners by done. rewrite <- Howners. unfold m. destruct (answer !! hash); [done|]. cbn. by rewrite lookup_empty. }
  set (fresh := freshOwners range m (ownerStartTimes pods)).
  assert (Eq : (answer !! hash ≫= fun m => nonempty (freshOwners range m (ownerStartTimes pods))) = nonempty fresh).
  { unfold fresh, m. destruct (answer !! hash) as [owners|]; [done|]. cbn. unfold freshOwners. cbn. pose proof (range_perm _ (map_to_list (∅ : gmap string string))) as Hp.
    rewrite map_to_list_empty in *. apply Permutation_nil_r in Hp. by rewrite Hp. }
  rewrite Eq. clear Eq. set (kept := filter (fun name => name ∈ (list_to_set (cacheOwnerIdentifier <$> pods) : gset string)) fresh).
  assert (Eq : (nonempty fresh ≫= fun podNames => nonempty (filter (fun name => name ∈ (list_to_set (cacheOwnerIdentifier <$> pods) : gset string)) podNames)) = nonempty kept).
  { unfold kept. by destruct fresh. }
  rewrite Eq. clear Eq. assert (Ed : default [] (nonempty kept) = kept) by by destruct kept. rewrite Ed. split; [by intros [_ ?]%nonempty_Some|]. split.
  { apply NoDup_filter, freshOwners_nodup. }
  intros name. unfold kept. rewrite list_elem_of_filter, elem_of_list_to_set, list_elem_of_fmap. unfold fresh. rewrite freshOwners_elem. setoid_rewrite Hm.
  assert (Hiff : forall pod, pod ∈ pods -> ((exists writtenAt, Itoa <$> F !! (MkOwnerModel (cacheOwnerIdentifier pod) model, hash) = Some writtenAt /\
      freshOwner (ownerStartTimes pods) (cacheOwnerIdentifier pod) writtenAt = true) <-> cached F model pod hash = true)).
  { intros pod Hp. unfold cached, freshOwner. rewrite (ownerStartTimes_lookup pod Hp). cbn zeta.
    destruct (F !! (MkOwnerModel (cacheOwnerIdentifier pod) model, hash)) as [ts|] eqn:Ef; cbn; [|by split; [intros (? & ? & _)|]].
    pose proof (Atoi_Itoa ts ltac:(by eapply int64_times)) as HA. split.
    - intros (w & [= <-] & Hf). rewrite HA in Hf. rewrite <- podLastContainerStart_spec. by destruct (0 <? podLastContainerStartUnix pod).
    - rewrite <- podLastContainerStart_spec. intros Hf. eexists. split; [done|]. rewrite HA. by destruct (0 <? podLastContainerStartUnix pod). }
  split.
  - intros [(pod & -> & Hp) Hw]. exists pod. split; [done|]. split; [done|]. by apply Hiff.
  - intros (pod & Hp & -> & Hc). split; [by exists pod|]. by apply Hiff.
Qed.

Definition scoreOf (hashes : list Z) (pod : PodInfo) : option (PodInfo * Z) :=
  let k := lead (cached F model pod) hashes in
  if decide (k = O) then None else Some (pod, percentOf (Z.of_nat k) (Z.of_nat (length hashes))).

End exact.

(** ** Example: two pods, one of them restarted *)

Definition demoHash (bytes : list Z) : list Z := replicate 8 (fold_left (fun n b => n + b) bytes 0 mod 128).
Definition demoPods : list PodInfo := [MkPodInfo "p" "ns" [None]; MkPodInfo "q" "ns" [Some 100; Some 120; None]].
Definition demoTokens : list Z := [1; 2; 3; 4; 5].
Definition demoHashes : list Z := TokensToBlockHashes demoHash 2 128 demoTokens.
(** Both pods stored the first two blocks, the second one partly before its
    restart. *)
Definition demoEvents : list call :=
  [ CApply "p.ns" "llm" 200 [MkEvent kvEventStored (take 2 demoHashes) 90 []];
    CApply "q.ns" "llm" 200 [MkEvent kvEventStored demoHashes 0 [130; 119; 200]] ].
Definition demoIndex : KVBlockMemoryIndex := (runCalls (fun _ l => l) demoEvents (NewKVBlockMemoryIndex 0)).1.

Example demo_scores : Score (fun _ l => l) demoHash demoIndex 2 128 false "llm" (Some demoTokens) demoPods =
  Some ([(MkPodInfo "p" "ns" [None], 66); (MkPodInfo "q" "ns" [Some 100; Some 120; None], 33)], 2).
Proof. vm_compute. reflexivity. Qed.

(** The percentage is rounded down after a rounded product: 29 of 100 blocks
    score 28. *)
Example percent_rounded_down : percentOf 29 100 = 28 /\ percentOf 28 100 = 28.
Proof. by vm_compute. Qed.

Lemma demo_represented : exists F : flat, represents F demoIndex /\ forall b ts, F !! b = Some ts -> - 2 ^ 63 <= ts < 2 ^ 63.
Proof.
  pose proof (runCalls_spec (fun _ l => l) (fun _ l => Permutation_refl l) demoEvents ∅ _ (represents_new 0)) as H. unfold demoIndex.
  assert (Ht : map_Forall (fun _ hashes => map_Forall (fun _ ts => - 2 ^ 63 <= ts < 2 ^ 63) hashes) (ownerBlocks demoIndex)).
  { apply (bool_decide_eq_true_1 _). by vm_compute. }
  unfold demoIndex in Ht. destruct (runCalls _ demoEvents _) as [idx answers]. destruct H as (F & _ & Hr). exists F. split; [done|]. intros [key hash] ts Hb.
  cbn [fst] in Ht. rewrite <- (in_owned _ _ _ _ (represents_inside _ _ Hr)) in Hb. unfold owned in Hb. destruct (ownerBlocks idx !! key) as [hashes|] eqn:Ek; [|done].
  exact (Ht key hashes Ek hash ts Hb).
Qed.

