(* ===== verification/HttpMatch.v ===== *)
(** * pkg/kthena-router/router/httproute_match.go: the choice of an HTTPRoute

    Which rule of which HTTPRoute serves a request, which backend of the rule,
    and how router.go rewrites the request. Hosts are ASCII text, as patterns
    of hostnames are; compiled regular expressions and random numbers are
    parameters. *)
From Stdlib Require Import Ascii String.
From S2P Require Import Prelude Names.
Local Open Scope Z_scope.

Abbreviation text := (list ascii).

(** ** Data *)

Record ParentReference := MkParentRef {
  refGroup : option string;
  refKind : option string;
  refNamespace : option string;
  refName : string;
  refSectionName : option string;
  refPort : option Z;
}.

Inductive PathMatchType := PathMatchExact | PathMatchPathPrefix | PathMatchRegularExpression | PathMatchOther.
Record HTTPPathMatch := MkPathMatch { pathType : option PathMatchType; pathValue : option text }.

(** The names of the headers and query parameters that a match constrains. *)
Record HTTPRouteMatch := MkRouteMatch {
  matchPath : option HTTPPathMatch;
  matchMethod : option string;
  matchHeaders : list string;
  matchQueryParams : list string;
}.

Record HTTPBackendRef := MkBackendRef {
  backendGroup : option string;
  backendKind : option string;
  backendNamespace : option string;
  backendName : string;
  backendWeight : option Z;
}.

Inductive HTTPPathModifier := ReplaceFullPath (path : option text) | ReplacePrefixMatch (prefix : option text) | OtherModifier.
Record HTTPURLRewriteFilter := MkURLRewrite { rewriteHostname : option text; rewritePath : option HTTPPathModifier }.

(** The filters that rewrite the URL, in the order of the rule. *)
Record HTTPRouteRule := MkHTTPRule { ruleMatches : list HTTPRouteMatch; ruleBackends : list HTTPBackendRef; ruleRewrites : list HTTPURLRewriteFilter }.

Record HTTPRoute := MkHTTPRoute {
  httpNamespace : string;
  httpName : string;
  httpCreated : Z;
  httpParents : list ParentReference;
  httpHostnames : list text;
  httpRules : list HTTPRouteRule;
}.

(** The parts of a request that are looked at, with the listener it came by. *)
Record Request := MkRequest { reqHost : text; reqPath : text; listenerName : string; listenerPort : Z }.

(** ** Text *)

Definition slash : ascii := "/".
Definition colon : ascii := ":".
Definition dot : ascii := ".".
Definition openBracket : ascii := "[".
Definition closeBracket : ascii := "]".

Definition HasPrefix (s prefix : text) : bool := bool_decide (prefix `prefix_of` s).
Definition HasSuffix (s suffix : text) : bool := bool_decide (suffix `suffix_of` s).
Definition TrimPrefix (s prefix : text) : text := if HasPrefix s prefix then drop (length prefix) s else s.
Definition TrimSuffix (s suffix : text) : text := if HasSuffix s suffix then take (length s - length suffix) s else s.
Definition TrimRight (s : text) (c : ascii) : text := drop_back_until (fun x => negb (bool_decide (x = c))) s.

Definition lowerChar (c : ascii) : ascii :=
  let n := nat_of_ascii c in if (65 <=? n)%nat && (n <=? 90)%nat then ascii_of_nat (n + 32) else c.
Definition ToLower (s : text) : text := lowerChar <$> s.

Definition isSpace (c : ascii) : bool := let n := nat_of_ascii c in ((9 <=? n)%nat && (n <=? 13)%nat) || (n =? 32)%nat.
Definition TrimSpace (s : text) : text := drop_back_until (fun c => negb (isSpace c)) (drop_until (fun c => negb (isSpace c)) s).

(** The text before and after the last [c]. *)
Definition cutLast (c : ascii) (s : text) : option (text * text) :=
  match span (fun x => negb (bool_decide (x = c))) (rev s) with
  | (after, _ :: before) => Some (rev before, rev after)
  | (_, []) => None
  end.

(** net.SplitHostPort: the host. *)
Definition SplitHostPort (hostport : text) : option text :=
  '(host, _) ← cutLast colon hostport;
  match hostport with
  | "["%char :: rest =>
    let inside := (span (fun x => negb (bool_decide (x = closeBracket))) rest).1 in
    let tail := drop (S (S (length inside))) hostport in
    if bool_decide (length host = S (S (length inside))) && negb (bool_decide (openBracket ∈ rest)) && negb (bool_decide (closeBracket ∈ tail))
    then Some inside else None
  | _ => if bool_decide (colon ∈ host) || bool_decide (openBracket ∈ hostport) || bool_decide (closeBracket ∈ hostport) then None else Some host
  end.

Definition normalizeHTTPRouteHost (host : text) : text :=
  let host := TrimSpace host in
  if bool_decide (host = []) then []
  else
    let host :=
      match SplitHostPort host with
      | Some hostOnly => hostOnly
      | None => match cutLast colon host with Some (before, _) => if bool_decide (colon ∈ before) then host else before | None => host end
      end in
    ToLower (TrimSuffix (TrimSuffix (TrimPrefix host [openBracket]) [closeBracket]) [dot]).

(** ** Precedence *)

Record httpRouteHostnamePrecedence := MkHostPrec { hostMatchType : Z; hostCharacters : Z }.
Record httpRoutePathPrecedence := MkPathPrec { pathMatchType : Z; pathCharacters : Z; ruleIndex : Z; matchIndex : Z }.

Definition httpRouteHostnameAnyPrecedence : Z := 0.
Definition httpRouteHostnameWildcardPrecedence : Z := 1.
Definition httpRouteHostnameExactPrecedence : Z := 2.
Definition httpPathRegularExpressionPrecedence : Z := 1.
Definition httpPathPrefixPrecedence : Z := 2.
Definition httpPathExactPrecedence : Z := 3.

Record httpRouteMatchResult := MkMatchResult {
  route : HTTPRoute;
  rule : HTTPRouteRule;
  matchedPrefix : text;
  matchedPathTemplate : text;
  path : httpRoutePathPrecedence;
  hostname : httpRouteHostnamePrecedence;
}.

Definition setHostname (r : httpRouteMatchResult) (h : httpRouteHostnamePrecedence) : httpRouteMatchResult :=
  MkMatchResult (route r) (rule r) (matchedPrefix r) (matchedPathTemplate r) (path r) h.

Definition compareHTTPRouteHostnamePrecedence (a b : httpRouteHostnamePrecedence) : Z :=
  if negb (hostMatchType a =? hostMatchType b) then if hostMatchType b <? hostMatchType a then -1 else 1
  else if negb (hostCharacters a =? hostCharacters b) then if hostCharacters b <? hostCharacters a then -1 else 1
  else 0.

Definition compareHTTPRoutePathSpecificity (a b : httpRoutePathPrecedence) : Z :=
  if negb (pathMatchType a =? pathMatchType b) then if pathMatchType b <? pathMatchType a then -1 else 1
  else if negb (pathCharacters a =? pathCharacters b) then if pathCharacters b <? pathCharacters a then -1 else 1
  else 0.

Definition compareHTTPRoutePathPrecedence (a b : httpRoutePathPrecedence) : Z :=
  let result := compareHTTPRoutePathSpecificity a b in
  if negb (result =? 0) then result
  else if negb (ruleIndex a =? ruleIndex b) then if ruleIndex a <? ruleIndex b then -1 else 1
  else if matchIndex a <? matchIndex b then -1
  else if matchIndex b <? matchIndex a then 1
  else 0.

Definition compareHTTPRouteMatchPrecedence (a b : httpRouteMatchResult) : Z :=
  let byHost := compareHTTPRouteHostnamePrecedence (hostname a) (hostname b) in
  let byPath := compareHTTPRoutePathSpecificity (path a) (path b) in
  if negb (byHost =? 0) then byHost
  else if negb (byPath =? 0) then byPath
  else if negb (httpCreated (route a) =? httpCreated (route b)) then if httpCreated (route a) <? httpCreated (route b) then -1 else 1
  else if negb (bool_decide (httpNamespace (route a) = httpNamespace (route b)))
       then if String.ltb (httpNamespace (route a)) (httpNamespace (route b)) then -1 else 1
  else if String.ltb (httpName (route a)) (httpName (route b)) then -1
  else if String.ltb (httpName (route b)) (httpName (route a)) then 1
  else 0.

(** Each of the loops keeps the best result so far. *)
Definition better {A} (compare : A -> A -> Z) (best : option A) (result : A) : option A :=
  match best with Some b => if compare result b <? 0 then Some result else best | None => Some result end.

(** ** Hostnames *)

Definition wildcard : text := ["*"%char; dot].

(** [host] is normalized. *)
Definition matchHTTPRouteHostnamePattern (pattern host : text) : option httpRouteHostnamePrecedence :=
  let pattern := ToLower (TrimSuffix pattern [dot]) in
  if bool_decide (pattern = host) then Some (MkHostPrec httpRouteHostnameExactPrecedence (Z.of_nat (length pattern)))
  else if negb (HasPrefix pattern wildcard) then None
  else
    let suffix := TrimPrefix pattern ["*"%char] in
    if negb (HasSuffix host suffix) then None
    else if bool_decide (TrimSuffix host suffix = []) then None
    else Some (MkHostPrec httpRouteHostnameWildcardPrecedence (Z.of_nat (length suffix))).

Definition matchHTTPRouteHostnamePrecedence (hostnames : list text) (requestHost : text) : option httpRouteHostnamePrecedence :=
  if bool_decide (hostnames = []) then Some (MkHostPrec httpRouteHostnameAnyPrecedence 0)
  else
    let normalizedHost := normalizeHTTPRouteHost requestHost in
    if bool_decide (normalizedHost = []) then None
    else
      fold_left (fun best pattern =>
        match matchHTTPRouteHostnamePattern pattern normalizedHost with
        | Some precedence => better compareHTTPRouteHostnamePrecedence best precedence
        | None => best
        end) hostnames None.

(** ** Paths *)

Definition matchHTTPPathPrefix (path prefix : text) : option text :=
  let normalizedPrefix := TrimRight prefix slash in
  if bool_decide (normalizedPrefix = []) then if HasPrefix path [slash] then Some [slash] else None
  else if bool_decide (path = normalizedPrefix) || HasPrefix path (normalizedPrefix ++ [slash]) then Some normalizedPrefix else None.

Definition httpPathMatchType (p : HTTPPathMatch) : PathMatchType := default PathMatchPathPrefix (pathType p).
Definition httpPathMatchValue (p : HTTPPathMatch) : text := default [slash] (pathValue p).

Definition httpRouteMatchedPathTemplate (p : option HTTPPathMatch) (matchedPrefix : text) : text :=
  if negb (bool_decide (matchedPrefix = [])) then matchedPrefix
  else match p with None => [slash] | Some p => httpPathMatchValue p end.

Definition hasUnsupportedHTTPRouteMatchPredicates (m : HTTPRouteMatch) : bool :=
  bool_decide (is_Some (matchMethod m)) || negb (bool_decide (matchHeaders m = [])) || negb (bool_decide (matchQueryParams m = [])).

Section matching.
(** regexp.Compile and MatchString. *)
Context {Regexp : Type} (Compile : text -> option Regexp) (MatchString : Regexp -> text -> bool).

(** The matched prefix and the precedence, without the indexes. *)
Definition matchHTTPRoutePath (p : option HTTPPathMatch) (requestPath : text) : option (text * httpRoutePathPrecedence) :=
  match p with
  | None => Some ([slash], MkPathPrec httpPathPrefixPrecedence 1 0 0)
  | Some p =>
    let value := httpPathMatchValue p in
    match httpPathMatchType p with
    | PathMatchExact => if bool_decide (requestPath = value) then Some ([], MkPathPrec httpPathExactPrecedence (Z.of_nat (length value)) 0 0) else None
    | PathMatchPathPrefix =>
      prefix ← matchHTTPPathPrefix requestPath value;
      Some (prefix, MkPathPrec httpPathPrefixPrecedence (Z.of_nat (length prefix)) 0 0)
    | PathMatchRegularExpression =>
      expression ← Compile value;
      if MatchString expression requestPath : bool then Some ([], MkPathPrec httpPathRegularExpressionPrecedence 0 0 0) else None
    | PathMatchOther => None
    end
  end.

Definition noHostname : httpRouteHostnamePrecedence := MkHostPrec 0 0.

Definition matchOf (r : HTTPRoute) (rl : HTTPRouteRule) (requestPath : text) (i j : Z) (m : HTTPRouteMatch) : option httpRouteMatchResult :=
  if hasUnsupportedHTTPRouteMatchPredicates m then None
  else
    '(prefix, p) ← matchHTTPRoutePath (matchPath m) requestPath;
    Some (MkMatchResult r rl prefix (httpRouteMatchedPathTemplate (matchPath m) prefix) (MkPathPrec (pathMatchType p) (pathCharacters p) i j) noHostname).

Definition byPath (a b : httpRouteMatchResult) : Z := compareHTTPRoutePathPrecedence (path a) (path b).

Fixpoint matchLoop (r : HTTPRoute) (rl : HTTPRouteRule) (requestPath : text) (i j : Z) (matches : list HTTPRouteMatch) (best : option httpRouteMatchResult) : option httpRouteMatchResult :=
  match matches with
  | [] => best
  | m :: matches =>
    matchLoop r rl requestPath i (j + 1) matches
      (match matchOf r rl requestPath i j m with Some result => better byPath best result | None => best end)
  end.

(** A rule without matches matches every path. *)
Definition defaultMatch (r : HTTPRoute) (rl : HTTPRouteRule) (i : Z) : httpRouteMatchResult :=
  MkMatchResult r rl [slash] [slash] (MkPathPrec httpPathPrefixPrecedence 1 i 0) noHostname.

Fixpoint ruleLoop (r : HTTPRoute) (requestPath : text) (i : Z) (rules : list HTTPRouteRule) (best : option httpRouteMatchResult) : option httpRouteMatchResult :=
  match rules with
  | [] => best
  | rl :: rules =>
    ruleLoop r requestPath (i + 1) rules
      (if bool_decide (ruleMatches rl = []) then better byPath best (defaultMatch r rl i)
       else matchLoop r rl requestPath i 0 (ruleMatches rl) best)
  end.

Definition findBestHTTPRouteRuleMatch (r : HTTPRoute) (requestPath : text) : option httpRouteMatchResult :=
  ruleLoop r requestPath 0 (httpRules r) None.

(** ** Listeners *)

Definition isGatewayParentRef (p : ParentReference) : bool :=
  match refGroup p with Some g => bool_decide (g = "gateway.networking.k8s.io"%string) | None => true end &&
  match refKind p with Some k => bool_decide (k = "Gateway"%string) | None => true end.

Definition gatewayOf (namespace : string) (p : ParentReference) : string := (default namespace (refNamespace p) ++ "/" ++ refName p)%string.

Definition refAccepts (r : HTTPRoute) (gatewayKey : string) (req : Request) (p : ParentReference) : bool :=
  isGatewayParentRef p && bool_decide (gatewayOf (httpNamespace r) p = gatewayKey) &&
  (if bool_decide (listenerName req = ""%string) && (listenerPort req =? 0) then bool_decide (refSectionName p = None) && bool_decide (refPort p = None)
   else match refSectionName p with Some n => bool_decide (n = listenerName req) | None => true end &&
        match refPort p with Some n => n =? listenerPort req | None => true end).

Definition httpRouteMatchesGatewayListener (r : HTTPRoute) (gatewayKey : string) (req : Request) : bool :=
  existsb (refAccepts r gatewayKey req) (httpParents r).

(** ** The match of a request *)

Definition routeMatch (gatewayKey : string) (req : Request) (r : HTTPRoute) : option httpRouteMatchResult :=
  if negb (httpRouteMatchesGatewayListener r gatewayKey req) then None
  else
    h ← matchHTTPRouteHostnamePrecedence (httpHostnames r) (reqHost req);
    result ← findBestHTTPRouteRuleMatch r (reqPath req);
    Some (setHostname result h).

Definition findHTTPRouteMatch (httpRoutes : list HTTPRoute) (gatewayKey : string) (req : Request) : option httpRouteMatchResult :=
  fold_left (fun best r => match routeMatch gatewayKey req r with Some result => better compareHTTPRouteMatchPrecedence best result | None => best end) httpRoutes None.

(** ** Backends *)

Definition inferencePoolBackendGroup : string := "inference.networking.k8s.io".
Definition inferencePoolBackendKind : string := "InferencePool".

(** The namespace and name of a pool, and its weight. *)
Abbreviation pool := (string * string)%type.

Definition weightedPool (r : HTTPRoute) (b : HTTPBackendRef) : option (pool * Z) :=
  if bool_decide (backendGroup b = Some inferencePoolBackendGroup) && bool_decide (backendKind b = Some inferencePoolBackendKind) then
    let weight := default 1 (backendWeight b) in
    if weight <=? 0 then None else Some ((default (httpNamespace r) (backendNamespace b), backendName b), weight)
  else None.

Fixpoint selectWeightedInferencePool (pools : list (pool * Z)) (selection : Z) : option pool :=
  match pools with
  | [] => None
  | (name, weight) :: pools => if selection - weight <? 0 then Some name else selectWeightedInferencePool pools (selection - weight)
  end.

(** [Intn] is rand.Intn. *)
Definition inferencePoolFromHTTPRouteRule (Intn : Z -> Z) (r : HTTPRoute) (rl : HTTPRouteRule) : option pool :=
  let pools := omap (weightedPool r) (ruleBackends rl) in
  let totalWeight := sumZ (snd <$> pools) in
  if totalWeight =? 0 then None else selectWeightedInferencePool pools (Intn totalWeight).

(** ** The rewriting of a request (router.go) *)

(** [matched] is the prefix kept in the context of the request, if any. *)
Definition rewrittenPath (matched : option text) (original : text) (modifier : HTTPPathModifier) : text :=
  match modifier with
  | ReplaceFullPath (Some path) => path
  | ReplacePrefixMatch (Some replacement) =>
    match matched with
    | Some prefix => if bool_decide (prefix = []) then original else replacement ++ TrimPrefix original prefix
    | None => original
    end
  | _ => original
  end.

Definition applyURLRewrite (matched : option text) (f : HTTPURLRewriteFilter) (req : Request) : Request :=
  MkRequest (default (reqHost req) (rewriteHostname f))
            (match rewritePath f with Some modifier => rewrittenPath matched (reqPath req) modifier | None => reqPath req end)
            (listenerName req) (listenerPort req).

Inductive handled := NoRoute | NoBackend | Forwarded (to : pool) (rewritten : Request).

(** The context of a request holds no prefix before. *)
Definition handleHTTPRoute (Intn : Z -> Z) (httpRoutes : list HTTPRoute) (gatewayKey : string) (req : Request) : handled :=
  match findHTTPRouteMatch httpRoutes gatewayKey req with
  | None => NoRoute
  | Some m =>
    let matched := if bool_decide (matchedPrefix m = []) then None else Some (matchedPrefix m) in
    match inferencePoolFromHTTPRouteRule Intn (route m) (rule m) with
    | None => NoBackend
    | Some p => Forwarded p (fold_left (fun req f => applyURLRewrite matched f req) (ruleRewrites (rule m)) req)
    end
  end.
End matching.

(** ** Lexicographic comparisons *)

Class Comparison {A} (c : A -> A -> Z) : Prop := {
  comparison_flip a b : Z.sgn (c b a) = - Z.sgn (c a b);
  comparison_trans a b d : c a b <= 0 -> c b d <= 0 -> c a d <= 0;
}.

Section comparisons.
Context {A : Type}.
Implicit Types c : A -> A -> Z.

Lemma comparison_refl c `{!Comparison c} a : c a a = 0.
Proof. pose proof (comparison_flip (c := c) a a). destruct (c a a); cbn in *; lia. Qed.

Lemma comparison_eq c `{!Comparison c} a b d : c a b = 0 -> (c a d <= 0 <-> c b d <= 0).
Proof.
  intros E. pose proof (comparison_flip (c := c) a b) as F. rewrite E in F.
  split; intros H; eapply (comparison_trans (c := c)); try exact H; destruct (c b a); cbn in F; lia.
Qed.

Lemma comparison_strict c `{!Comparison c} a b d : c a b <= 0 -> c b d < 0 -> c a d < 0.
Proof.
  intros H1 H2. assert (H3 : c a d <= 0) by (eapply (comparison_trans (c := c)); [exact H1|lia]).
  destruct (Z.eq_dec (c a d) 0) as [E|]; [|lia]. exfalso. pose proof (comparison_flip (c := c) a d) as F1. pose proof (comparison_flip (c := c) b d) as F2.
  assert (Hda : c d a <= 0) by (rewrite E in F1; destruct (c d a); cbn in *; lia).
  pose proof (comparison_trans (c := c) d a b Hda H1). destruct (c d b) eqn:E1, (c b d) eqn:E2; cbn in *; lia.
Qed.

(** [c1] decides first. *)
Definition thenBy c1 c2 : A -> A -> Z := fun a b => if c1 a b =? 0 then c2 a b else c1 a b.

#[export] Instance thenBy_comparison c1 c2 `{!Comparison c1} `{!Comparison c2} : Comparison (thenBy c1 c2).
Proof.
  split; unfold thenBy.
  - intros a b. pose proof (comparison_flip (c := c1) a b). pose proof (comparison_flip (c := c2) a b).
    destruct (Z.eqb_spec (c1 a b) 0) as [E|E], (Z.eqb_spec (c1 b a) 0) as [E'|E']; try done; [rewrite E in *; cbn in *; destruct (c1 b a); cbn in *; lia|rewrite E' in *; cbn in *; destruct (c1 a b); cbn in *; lia].
  - intros a b d H1 H2.
    destruct (Z.eqb_spec (c1 a b) 0) as [E1|E1], (Z.eqb_spec (c1 b d) 0) as [E2|E2].
    + assert (c1 a d = 0) as ->.
      { pose proof (proj2 (comparison_eq c1 a b d E1)). pose proof (comparison_flip (c := c1) a d). pose proof (comparison_flip (c := c1) b a).
        assert (c1 d a <= 0). { eapply (comparison_trans (c := c1)); [|exact (Z.eq_le_incl (c1 b a) 0 ltac:(rewrite E1 in *; cbn in *; destruct (c1 b a); cbn in *; lia))].
          pose proof (comparison_flip (c := c1) b d). rewrite E2 in *. cbn in *. destruct (c1 d b); cbn in *; lia. }
        destruct (c1 a d), (c1 d a); cbn in *; lia. }
      cbn. by eapply (comparison_trans (c := c2)).
    + assert (c1 a d < 0) by (eapply (comparison_strict c1); [|instantiate (1 := b); lia]; lia). destruct (Z.eqb_spec (c1 a d) 0); lia.
    + assert (c1 a d < 0).
      { assert (c1 a d <= 0) by (eapply (comparison_trans (c := c1)); [|instantiate (1 := b); lia]; lia). destruct (Z.eq_dec (c1 a d) 0) as [E|]; [|lia]. exfalso.
        pose proof (comparison_flip (c := c1) a d). pose proof (comparison_flip (c := c1) a b). pose proof (comparison_flip (c := c1) b d). rewrite E, E2 in *. cbn in *.
        assert (c1 b a <= 0) by (eapply (comparison_trans (c := c1) b d a); [lia|destruct (c1 d a); cbn in *; lia]). destruct (c1 a b), (c1 b a); cbn in *; lia. }
      destruct (Z.eqb_spec (c1 a d) 0); lia.
    + assert (c1 a d < 0) by (eapply (comparison_strict c1); [|instantiate (1 := b); lia]; lia). destruct (Z.eqb_spec (c1 a d) 0); lia.
Qed.

(** Ascending keys. *)
Definition up {K} (lt : K -> K -> bool) (f : A -> K) : A -> A -> Z := fun a b => if lt (f a) (f b) then -1 else if lt (f b) (f a) then 1 else 0.

#[export] Instance up_comparison {K} (lt : K -> K -> bool) f `{!StrictWeakOrder lt} : Comparison (up lt f).
Proof.
  assert (Hle : forall a b, up lt f a b <= 0 <-> lt (f b) (f a) = false).
  { intros a b. unfold up. destruct (lt (f a) (f b)) eqn:E1; [rewrite (swo_asym lt _ _ E1)|destruct (lt (f b) (f a))]; split; intros H; done || lia. }
  split.
  - intros a b. unfold up. destruct (lt (f a) (f b)) eqn:E1, (lt (f b) (f a)) eqn:E2; try done. by rewrite (swo_asym lt _ _ E1) in E2.
  - intros a b d. rewrite !Hle. intros H1 H2. by eapply swo_neg_trans.
Qed.

Lemma up_zero {K} (lt : K -> K -> bool) f a b : (forall x y, lt x y = false -> lt y x = false -> x = y) -> up lt f a b = 0 -> f a = f b.
Proof. intros Ht. unfold up. destruct (lt (f a) (f b)) eqn:E1; [done|]. destruct (lt (f b) (f a)) eqn:E2; [done|]. auto. Qed.

Lemma thenBy_zero c1 c2 a b : thenBy c1 c2 a b = 0 -> c1 a b = 0 /\ c2 a b = 0.
Proof. unfold thenBy. by destruct (Z.eqb_spec (c1 a b) 0). Qed.

Lemma better_loop c `{!Comparison c} l : forall b, exists x, fold_left (better c) l (Some b) = Some x /\ (x = b \/ x ∈ l) /\ c x b <= 0 /\ forall y, y ∈ l -> c x y <= 0.
Proof.
  induction l as [|y l IH]; intros b; cbn [fold_left]; [exists b; split_and!; [done|by left|by rewrite comparison_refl|by intros y ?%not_elem_of_nil]|].
  cbn [better]. destruct (Z.ltb_spec (c y b) 0) as [Hlt|Hge].
  - destruct (IH y) as (x & E & Hx & Hxy & Hl). exists x. split; [done|]. split; [destruct Hx as [->|]; right; [by left|by right]|].
    split; [eapply (comparison_trans (c := c)); [exact Hxy|lia]|]. intros z [->|Hz]%elem_of_cons; [done|by apply Hl].
  - destruct (IH b) as (x & E & Hx & Hxb & Hl). exists x. split; [done|]. split; [destruct Hx as [->|]; [by left|right; by right]|].
    split; [done|]. intros z [->|Hz]%elem_of_cons; [|by apply Hl]. eapply (comparison_trans (c := c)); [exact Hxb|].
    pose proof (comparison_flip (c := c) b y). destruct (c b y), (c y b); cbn in *; lia.
Qed.

(** The loop ends with a first element. *)
Lemma better_first c `{!Comparison c} l : match fold_left (better c) l None with
  | None => l = []
  | Some x => x ∈ l /\ forall y, y ∈ l -> c x y <= 0
  end.
Proof.
  destruct l as [|b l]; [done|]. cbn [fold_left better]. destruct (better_loop c l b) as (x & -> & Hx & Hb & Hl).
  split; [destruct Hx as [->|]; [by left|by right]|]. intros y [->|Hy]%elem_of_cons; auto.
Qed.
End comparisons.


(** ** The order of the matches

    Hostnames decide before paths, then the age and the name of the route and
    at last the place in the route. *)
Definition byHostname : httpRouteHostnamePrecedence -> httpRouteHostnamePrecedence -> Z := thenBy (up Z.gtb hostMatchType) (up Z.gtb hostCharacters).
Definition bySpecificity : httpRoutePathPrecedence -> httpRoutePathPrecedence -> Z := thenBy (up Z.gtb pathMatchType) (up Z.gtb pathCharacters).
Definition byPlace : httpRoutePathPrecedence -> httpRoutePathPrecedence -> Z := thenBy (up Z.ltb ruleIndex) (up Z.ltb matchIndex).
Definition byRoute : HTTPRoute -> HTTPRoute -> Z := thenBy (up Z.ltb httpCreated) (thenBy (up String.ltb httpNamespace) (up String.ltb httpName)).

Definition on {A B} (f : A -> B) (c : B -> B -> Z) : A -> A -> Z := fun a b => c (f a) (f b).

#[export] Instance on_comparison {A B} (f : A -> B) c `{!Comparison c} : Comparison (on f c).
Proof. split; intros *; unfold on; [apply comparison_flip|apply comparison_trans]. Qed.

Definition precedence : httpRouteMatchResult -> httpRouteMatchResult -> Z :=
  thenBy (on hostname byHostname) (thenBy (on path bySpecificity) (thenBy (on route byRoute) (on path byPlace))).

#[export] Instance byHostname_comparison : Comparison byHostname.
Proof. unfold byHostname. apply _. Qed.
#[export] Instance byRoute_comparison : Comparison byRoute.
Proof. unfold byRoute. apply _. Qed.
#[export] Instance byPath_keys_comparison : Comparison (thenBy bySpecificity byPlace).
Proof. unfold bySpecificity, byPlace. apply _. Qed.
#[export] Instance bySpecificity_comparison : Comparison bySpecificity.
Proof. unfold bySpecificity. apply _. Qed.
#[export] Instance byPlace_comparison : Comparison byPlace.
Proof. unfold byPlace. apply _. Qed.
#[export] Instance precedence_comparison : Comparison precedence.
Proof. unfold precedence. apply _. Qed.

(** One step of the code's comparisons. *)
Lemma compare_step (x y r : Z) : (if negb (x =? y) then if y <? x then -1 else 1 else r) = (let c := if Z.gtb x y then -1 else if Z.gtb y x then 1 else 0 in if c =? 0 then r else c).
Proof. rewrite !Z.gtb_ltb. destruct (Z.eqb_spec x y), (Z.ltb_spec y x), (Z.ltb_spec x y); cbn; lia. Qed.
Lemma compare_step_up (x y r : Z) : (if negb (x =? y) then if x <? y then -1 else 1 else r) = (let c := if x <? y then -1 else if y <? x then 1 else 0 in if c =? 0 then r else c).
Proof. destruct (Z.eqb_spec x y), (Z.ltb_spec y x), (Z.ltb_spec x y); cbn; lia. Qed.
Lemma compare_last (x y : Z) : (if negb (x =? y) then if y <? x then -1 else 1 else 0) = (if Z.gtb x y then -1 else if Z.gtb y x then 1 else 0).
Proof. rewrite !Z.gtb_ltb. destruct (Z.eqb_spec x y), (Z.ltb_spec y x), (Z.ltb_spec x y); cbn; lia. Qed.
Lemma compare_string (x y : string) r : (if negb (bool_decide (x = y)) then if String.ltb x y then -1 else 1 else r) =
  (let c := if String.ltb x y then -1 else if String.ltb y x then 1 else 0 in if c =? 0 then r else c).
Proof.
  case_bool_decide as E; cbn [negb]; [subst; by rewrite swo_irrefl|]. destruct (String.ltb x y) eqn:E1; [done|]. destruct (String.ltb y x) eqn:E2; [done|].
  by apply ltb_total in E1.
Qed.

Lemma compare_hostname a b : compareHTTPRouteHostnamePrecedence a b = byHostname a b.
Proof. unfold compareHTTPRouteHostnamePrecedence, byHostname, thenBy, up. by rewrite compare_step, compare_last. Qed.
Lemma compare_specificity a b : compareHTTPRoutePathSpecificity a b = bySpecificity a b.
Proof. unfold compareHTTPRoutePathSpecificity, bySpecificity, thenBy, up. by rewrite compare_step, compare_last. Qed.

Lemma compare_path a b : compareHTTPRoutePathPrecedence a b = thenBy bySpecificity byPlace a b.
Proof.
  unfold compareHTTPRoutePathPrecedence. rewrite compare_specificity, compare_step_up. unfold thenBy at 1. cbn zeta.
  by destruct (bySpecificity a b =? 0).
Qed.

Lemma compare_match a b : compareHTTPRouteMatchPrecedence a b = thenBy (on hostname byHostname) (thenBy (on path bySpecificity) (on route byRoute)) a b.
Proof.
  unfold compareHTTPRouteMatchPrecedence. rewrite compare_hostname, compare_specificity, compare_step_up, compare_string. cbn zeta. unfold thenBy at 1 2, on.
  destruct (byHostname _ _ =? 0); cbn [negb]; [|done]. by destruct (bySpecificity _ _ =? 0).
Qed.

Lemma byRoute_zero a b : byRoute a b = 0 -> httpNamespace a = httpNamespace b /\ httpName a = httpName b.
Proof.
  intros H. apply thenBy_zero in H as [_ H]. apply thenBy_zero in H as [H1 H2].
  split; [eapply (up_zero String.ltb httpNamespace)|eapply (up_zero String.ltb httpName)]; eauto using ltb_total.
Qed.

Lemma fold_better_ext {A} (c c' : A -> A -> Z) l best : (forall a b, c a b = c' a b) -> fold_left (better c) l best = fold_left (better c') l best.
Proof. intros E. revert best. induction l as [|x l IH]; intros best; cbn; [done|]. rewrite IH. f_equal. unfold better. destruct best; [by rewrite E|done]. Qed.

(** A loop that skips. *)
Lemma fold_better_omap {A B} (c : B -> B -> Z) (f : A -> option B) l best :
  fold_left (fun best x => match f x with Some y => better c best y | None => best end) l best = fold_left (better c) (omap f l) best.
Proof. revert best. induction l as [|x l IH]; intros best; cbn; [done|]. by destruct (f x). Qed.

(** ** Which matches accept a request

    The text between the slashes of a path. *)
Fixpoint segmentsFrom (segment : text) (s : text) : list text :=
  match s with
  | [] => [segment]
  | c :: s => if bool_decide (c = slash) then segment :: segmentsFrom [] s else segmentsFrom (segment ++ [c]) s
  end.
Definition segments (s : text) : list text := segmentsFrom [] s.

Lemma segmentsFrom_add pre segment s : segmentsFrom (pre ++ segment) s = match segmentsFrom segment s with x :: l => (pre ++ x) :: l | [] => [] end.
Proof.
  revert pre segment. induction s as [|c s IH]; intros pre segment; cbn; [done|]. case_bool_decide; [done|]. by rewrite <- app_assoc, IH.
Qed.

Lemma segments_nonempty s : exists x l, segments s = x :: l.
Proof.
  unfold segments. generalize (@nil ascii). induction s as [|c s IH]; intros segment; cbn; [by eexists _, _|]. case_bool_decide; [by eexists _, _|]. apply IH.
Qed.

Lemma segments_cons c s : segments (c :: s) = if bool_decide (c = slash) then [] :: segments s else match segments s with x :: l => (c :: x) :: l | [] => [] end.
Proof. unfold segments. cbn. case_bool_decide; [done|]. by rewrite (segmentsFrom_add [c] []). Qed.

Lemma segments_app a b : segments (a ++ slash :: b) = segments a ++ segments b.
Proof.
  induction a as [|c a IH]; cbn [app]; [by rewrite segments_cons, bool_decide_true|]. rewrite !segments_cons, IH. case_bool_decide; [done|].
  destruct (segments_nonempty a) as (x & l & ->). done.
Qed.

Lemma prefix_cons_iff {A} (x y : A) l k : x :: l `prefix_of` y :: k <-> x = y /\ l `prefix_of` k.
Proof. split; [intros H; split; [by eapply prefix_cons_inv_1|by eapply prefix_cons_inv_2]|intros [-> H]; by apply prefix_cons]. Qed.

(** Whole segments are compared. *)
Lemma prefix_segments p : forall s, segments p `prefix_of` segments s <-> s = p \/ (p ++ [slash]) `prefix_of` s.
Proof.
  induction p as [|c p IH]; intros [|d s]; cbn [app].
  - split; [by left|done].
  - rewrite segments_cons. destruct (segments_nonempty s) as (x & l & E). rewrite prefix_cons_iff. case_bool_decide as Ed.
    + subst. split; [intros _; right; split; [done|apply prefix_nil]|intros _; by exists (segments s)].
    + rewrite E. split; [intros [k Hk]; done|intros [?|[? _]]; congruence].
  - rewrite segments_cons. destruct (segments_nonempty p) as (x & l & E). split; [|by intros [?|[k Hk]]].
    case_bool_decide; rewrite E; intros [k Hk]; done.
  - specialize (IH s). rewrite !segments_cons, prefix_cons_iff. destruct (segments_nonempty s) as (y & k & Es), (segments_nonempty p) as (x & l & Ep).
    assert (E : segments p `prefix_of` segments s <-> x = y /\ l `prefix_of` k) by (rewrite Es, Ep; apply prefix_cons_iff). rewrite E in IH.
    repeat case_bool_decide; subst; rewrite ?Es, ?Ep, !prefix_cons_iff; naive_solver.
Qed.

(** What a path match accepts, with the matched prefix and the specificity. *)
Section accepted.
Context {Regexp : Type} (Compile : text -> option Regexp) (MatchString : Regexp -> text -> bool).

Inductive pathAccepts (requestPath : text) : option HTTPPathMatch -> text -> Z -> Z -> Prop :=
| accepts_any : pathAccepts requestPath None [slash] httpPathPrefixPrecedence 1
| accepts_exact p : httpPathMatchType p = PathMatchExact -> requestPath = httpPathMatchValue p ->
    pathAccepts requestPath (Some p) [] httpPathExactPrecedence (Z.of_nat (length (httpPathMatchValue p)))
| accepts_prefix p prefix : httpPathMatchType p = PathMatchPathPrefix ->
    segments (TrimRight (httpPathMatchValue p) slash) `prefix_of` segments requestPath ->
    prefix = (if decide (TrimRight (httpPathMatchValue p) slash = []) then [slash] else TrimRight (httpPathMatchValue p) slash) ->
    pathAccepts requestPath (Some p) prefix httpPathPrefixPrecedence (Z.of_nat (length prefix))
| accepts_regex p expression : httpPathMatchType p = PathMatchRegularExpression -> Compile (httpPathMatchValue p) = Some expression ->
    MatchString expression requestPath = true -> pathAccepts requestPath (Some p) [] httpPathRegularExpressionPrecedence 0.

(** The [j]-th match that a rule offers; without matches it offers one. *)
Definition offers (rl : HTTPRouteRule) (j : nat) (p : option HTTPPathMatch) : Prop :=
  match ruleMatches rl with
  | [] => j = 0%nat /\ p = None
  | matches => exists m, matches !! j = Some m /\ matchMethod m = None /\ matchHeaders m = [] /\ matchQueryParams m = [] /\ matchPath m = p
  end.

(** What a hostname pattern accepts; [pattern] and [host] are normalized. *)
Inductive hostAccepts (host : text) : text -> httpRouteHostnamePrecedence -> Prop :=
| host_exact : hostAccepts host host (MkHostPrec httpRouteHostnameExactPrecedence (Z.of_nat (length host)))
| host_wildcard name domain : name <> [] -> host = name ++ dot :: domain -> host <> "*"%char :: dot :: domain ->
    hostAccepts host ("*"%char :: dot :: domain) (MkHostPrec httpRouteHostnameWildcardPrecedence (Z.of_nat (S (length domain)))).

Definition normalPattern (pattern : text) : text := ToLower (TrimSuffix pattern [dot]).

(** The most specific of the hostnames decides. *)
Definition routeHost (r : HTTPRoute) (req : Request) (h : httpRouteHostnamePrecedence) : Prop :=
  httpHostnames r = [] /\ h = MkHostPrec httpRouteHostnameAnyPrecedence 0 \/
  normalizeHTTPRouteHost (reqHost req) <> [] /\
  (exists pattern, pattern ∈ httpHostnames r /\ hostAccepts (normalizeHTTPRouteHost (reqHost req)) (normalPattern pattern) h) /\
  forall pattern h', pattern ∈ httpHostnames r -> hostAccepts (normalizeHTTPRouteHost (reqHost req)) (normalPattern pattern) h' -> byHostname h h' <= 0.

(** The matches of a route that accept a request. *)
Inductive candidate (r : HTTPRoute) (req : Request) : httpRouteMatchResult -> Prop :=
| candidate_match i j rl p prefix kind characters h : httpRules r !! i = Some rl -> offers rl j p ->
    pathAccepts (reqPath req) p prefix kind characters -> routeHost r req h ->
    candidate r req (MkMatchResult r rl prefix (httpRouteMatchedPathTemplate p prefix) (MkPathPrec kind characters (Z.of_nat i) (Z.of_nat j)) h).

Lemma path_prefix_spec requestPath value : requestPath <> [] -> matchHTTPPathPrefix requestPath value =
  if decide (segments (TrimRight value slash) `prefix_of` segments requestPath)
  then Some (if decide (TrimRight value slash = []) then [slash] else TrimRight value slash) else None.
Proof.
  intros Hne. unfold matchHTTPPathPrefix, HasPrefix. set (t := TrimRight value slash). pose proof (prefix_segments t requestPath) as H.
  clearbody t. case_bool_decide as Et.
  - subst t. cbn [app] in H. rewrite (decide_True (P := @nil ascii = [])) by done. case_bool_decide as Ep; case_decide; try done; exfalso; naive_solver.
  - rewrite (decide_False (P := t = [])) by done. repeat case_bool_decide; cbn [orb]; case_decide; try done; exfalso; naive_solver.
Qed.

Lemma path_accepts requestPath p prefix kind characters : requestPath <> [] ->
  pathAccepts requestPath p prefix kind characters <-> matchHTTPRoutePath Compile MatchString p requestPath = Some (prefix, MkPathPrec kind characters 0 0).
Proof.
  intros Hne. unfold matchHTTPRoutePath. destruct p as [p|]; [|split; [by inversion 1|intros [= <- <- <-]; apply accepts_any]].
  split.
  - inversion 1 as [|? Et Ev|? ? Et Hs Ep|? re Et Ec Em]; subst; rewrite Et.
    + by rewrite bool_decide_true.
    + rewrite path_prefix_spec by done. by rewrite decide_True by done.
    + rewrite Ec. cbn. by rewrite Em.
  - destruct (httpPathMatchType p) eqn:Et.
    + case_bool_decide as Ev; [|done]. intros [= <- <- <-]. by apply accepts_exact.
    + rewrite path_prefix_spec by done. case_decide; [|done]. intros [= <- <- <-]. by apply accepts_prefix.
    + destruct (Compile (httpPathMatchValue p)) as [re|] eqn:Ec; [|done]. cbn. destruct (MatchString re requestPath) eqn:Em; [|done].
      intros [= <- <- <-]. by eapply accepts_regex.
    + done.
Qed.
End accepted.

(** ** The code finds the first candidate *)

Lemma HasPrefix_spec s prefix : HasPrefix s prefix = true <-> exists rest, s = prefix ++ rest.
Proof. unfold HasPrefix. rewrite bool_decide_eq_true. split; intros [rest H]; by exists rest. Qed.

Lemma TrimPrefix_app prefix rest : TrimPrefix (prefix ++ rest) prefix = rest.
Proof. unfold TrimPrefix. rewrite (proj2 (HasPrefix_spec _ _)) by (by exists rest). by rewrite drop_app_length. Qed.

Lemma TrimSuffix_app s suffix : TrimSuffix (s ++ suffix) suffix = s.
Proof.
  unfold TrimSuffix, HasSuffix. rewrite bool_decide_true by (by exists s). rewrite length_app. replace (length s + length suffix - length suffix)%nat with (length s) by lia.
  by rewrite take_app_length.
Qed.

Lemma host_pattern_spec pattern host h : matchHTTPRouteHostnamePattern pattern host = Some h <-> hostAccepts host (normalPattern pattern) h.
Proof.
  unfold matchHTTPRouteHostnamePattern. fold (normalPattern pattern). generalize (normalPattern pattern) as p. clear pattern. intros p. case_bool_decide as E.
  { subst. split; [intros [= <-]; apply host_exact|]. intros Ha. inversion Ha; subst; done. }
  destruct (HasPrefix p wildcard) eqn:Ew; cbn [negb].
  2: { split; [done|]. intros Ha; inversion Ha as [|name domain Hn Eh Hne]; subst; try done. all: exfalso; enough (HasPrefix ("*"%char :: dot :: domain) wildcard = true) by congruence; apply HasPrefix_spec; by exists domain. }
  apply HasPrefix_spec in Ew as [domain ->]. unfold wildcard in *. cbn [app] in *. change ("*"%char :: dot :: domain) with (["*"%char] ++ dot :: domain). rewrite TrimPrefix_app.
  unfold HasSuffix. case_bool_decide as Es; cbn [negb].
  - destruct Es as [name ->]. rewrite TrimSuffix_app. case_bool_decide as En.
    + subst. split; [done|]. cbn [app]. intros Ha; inversion Ha; subst; try done.
      match goal with H : _ = ?n ++ _ |- _ => destruct n; [done|]; apply (f_equal length) in H; rewrite length_app in H; cbn in H; lia end.
    + split; [intros [= <-]; by apply (host_wildcard _ name)|]. intros Ha; by inversion Ha; subst.
  - split; [done|]. intros Ha; inversion Ha; subst; try done. all: exfalso; apply Es; by eexists.
Qed.

Lemma byHostname_zero h h' : byHostname h h' = 0 -> h = h'.
Proof.
  intros [H1 H2]%thenBy_zero. destruct h, h'. f_equal; [apply (up_zero Z.gtb hostMatchType) in H1|apply (up_zero Z.gtb hostCharacters) in H2]; try done; intros *; rewrite Z.gtb_ltb, !Z.ltb_ge; lia.
Qed.

Lemma comparison_anti {A} (c : A -> A -> Z) `{!Comparison c} a b : c a b <= 0 -> c b a <= 0 -> c a b = 0.
Proof. intros H1 H2. pose proof (comparison_flip (c := c) a b). destruct (c a b), (c b a); cbn in *; lia. Qed.

Lemma route_host_spec r req h : matchHTTPRouteHostnamePrecedence (httpHostnames r) (reqHost req) = Some h <-> routeHost r req h.
Proof.
  unfold matchHTTPRouteHostnamePrecedence, routeHost. case_bool_decide as Eh.
  { rewrite Eh. split; [intros [= <-]; by left|intros [[_ ->]|(_ & (p & Hp & _) & _)]; [done|by apply not_elem_of_nil in Hp]]. }
  set (host := normalizeHTTPRouteHost (reqHost req)). case_bool_decide as En; [split; [done|intros [[? _]|[? _]]; done]|].
  rewrite fold_better_omap, (fold_better_ext _ byHostname) by apply compare_hostname.
  pose proof (better_first byHostname (omap (fun pattern => matchHTTPRouteHostnamePattern pattern host) (httpHostnames r))) as Hb.
  assert (Hin : forall h', h' ∈ omap (fun pattern => matchHTTPRouteHostnamePattern pattern host) (httpHostnames r) <-> exists pattern, pattern ∈ httpHostnames r /\ hostAccepts host (normalPattern pattern) h').
  { intros h'. rewrite list_elem_of_omap. by setoid_rewrite host_pattern_spec. }
  destruct (fold_left _ _ None) as [x|].
  - destruct Hb as [Hx Hb]. apply Hin in Hx. split.
    + intros [= <-]. right. split; [done|]. split; [done|]. intros p h' Hp Ha. apply Hb, Hin. eauto.
    + intros [[? _]|(_ & Hh & Hmin)]; [done|]. f_equal. destruct Hx as (px & Hpx & Hax). apply byHostname_zero, (comparison_anti byHostname); [by apply Hb, Hin|by eapply Hmin].
  - split; [done|]. intros [[? _]|(_ & Hh & _)]; [done|]. apply Hin in Hh. rewrite Hb in Hh. by apply not_elem_of_nil in Hh.
Qed.

Section found.
Context {Regexp : Type} (Compile : text -> option Regexp) (MatchString : Regexp -> text -> bool).

Lemma matchLoop_fold r rl requestPath i matches : forall j best, exists l,
  matchLoop Compile MatchString r rl requestPath i j matches best = fold_left (better byPath) l best /\
  forall x, x ∈ l <-> exists k m, matches !! k = Some m /\ matchOf Compile MatchString r rl requestPath i (j + Z.of_nat k) m = Some x.
Proof.
  induction matches as [|m matches IH]; intros j best; cbn [matchLoop].
  - exists []. split; [done|]. intros x. rewrite elem_of_nil. split; [done|]. intros (k & m & ? & _). by destruct k.
  - destruct (IH (j + 1) (match matchOf Compile MatchString r rl requestPath i j m with Some result => better byPath best result | None => best end)) as (l & -> & Hl).
    exists (match matchOf Compile MatchString r rl requestPath i j m with Some x => [x] | None => [] end ++ l).
    split; [by destruct (matchOf _ _ _ _ _ _ _ _)|]. intros x. rewrite elem_of_app, Hl. split.
    + intros [Hx|(k & m' & Hk & Hx)].
      * exists 0%nat, m. split; [done|]. rewrite Z.add_0_r. destruct (matchOf _ _ _ _ _ _ _ _); [|by apply not_elem_of_nil in Hx]. by apply list_elem_of_singleton in Hx as ->.
      * exists (S k), m'. split; [done|]. by replace (j + Z.of_nat (S k)) with (j + 1 + Z.of_nat k) by lia.
    + intros (k & m' & Hk & Hx). destruct k as [|k].
      * left. injection Hk as ->. rewrite Z.add_0_r in Hx. rewrite Hx. by left.
      * right. exists k, m'. split; [done|]. by replace (j + 1 + Z.of_nat k) with (j + Z.of_nat (S k)) by lia.
Qed.

(** The matches of one route, before the hostname is known. *)
Definition accepted (r : HTTPRoute) (requestPath : text) (x : httpRouteMatchResult) : Prop :=
  exists i j rl p prefix kind characters, httpRules r !! i = Some rl /\ offers rl j p /\ pathAccepts Compile MatchString requestPath p prefix kind characters /\
    x = MkMatchResult r rl prefix (httpRouteMatchedPathTemplate p prefix) (MkPathPrec kind characters (Z.of_nat i) (Z.of_nat j)) noHostname.

Lemma matchOf_spec r rl requestPath i j m x : requestPath <> [] -> matchOf Compile MatchString r rl requestPath i j m = Some x <->
  matchMethod m = None /\ matchHeaders m = [] /\ matchQueryParams m = [] /\ exists prefix kind characters,
    pathAccepts Compile MatchString requestPath (matchPath m) prefix kind characters /\
    x = MkMatchResult r rl prefix (httpRouteMatchedPathTemplate (matchPath m) prefix) (MkPathPrec kind characters i j) noHostname.
Proof.
  intros Hne. unfold matchOf, hasUnsupportedHTTPRouteMatchPredicates. destruct (matchMethod m); [split; [done|by intros [? _]]|].
  rewrite bool_decide_false by (by intros [? ?]). case_bool_decide as E1; [|split; [done|naive_solver]]. case_bool_decide as E2; [|split; [done|naive_solver]]. cbn [negb orb].
  split.
  - destruct (matchHTTPRoutePath Compile MatchString (matchPath m) requestPath) as [[prefix [kind characters a b]]|] eqn:Em; [|done]. cbn. intros [= <-].
    split_and!; [done..|]. exists prefix, kind, characters. split; [|done]. apply path_accepts; [done|]. rewrite Em. do 2 f_equal.
    assert (H0 : a = 0 /\ b = 0); [|by destruct H0 as [-> ->]]. revert Em. unfold matchHTTPRoutePath. destruct (matchPath m) as [p|]; [|by intros [= <- <- <- <- <-]].
    destruct (httpPathMatchType p); [case_bool_decide; [by intros [= <- <- <- <- <-]|done]|destruct (matchHTTPPathPrefix _ _); [by intros [= <- <- <- <- <-]|done]| |done].
    destruct (Compile _) as [re|]; [|done]. cbn. destruct (MatchString _ _); [by intros [= <- <- <- <- <-]|done].
  - intros (_ & _ & _ & prefix & kind & characters & Ha & ->). apply path_accepts in Ha; [|done]. by rewrite Ha.
Qed.

Lemma ruleLoop_fold r requestPath rules : requestPath <> [] -> forall i best, exists l, ruleLoop Compile MatchString r requestPath i rules best = fold_left (better byPath) l best /\
  forall x, x ∈ l <-> exists k j rl p prefix kind characters, rules !! k = Some rl /\ offers rl j p /\ pathAccepts Compile MatchString requestPath p prefix kind characters /\
    x = MkMatchResult r rl prefix (httpRouteMatchedPathTemplate p prefix) (MkPathPrec kind characters (i + Z.of_nat k) (Z.of_nat j)) noHostname.
Proof.
  intros Hne. induction rules as [|rl rules IH]; intros i best; cbn [ruleLoop].
  { exists []. split; [done|]. intros x. rewrite elem_of_nil. split; [done|]. intros (k & j & rl & p & prefix & kind & ch & ? & _). by destruct k. }
  assert (Hhere : exists l, (if bool_decide (ruleMatches rl = []) then better byPath best (defaultMatch r rl i) else matchLoop Compile MatchString r rl requestPath i 0 (ruleMatches rl) best) = fold_left (better byPath) l best /\
    forall x, x ∈ l <-> exists j p prefix kind characters, offers rl j p /\ pathAccepts Compile MatchString requestPath p prefix kind characters /\
      x = MkMatchResult r rl prefix (httpRouteMatchedPathTemplate p prefix) (MkPathPrec kind characters i (Z.of_nat j)) noHostname).
  { unfold offers. case_bool_decide as Em.
    - exists [defaultMatch r rl i]. split; [done|]. intros x. rewrite Em, list_elem_of_singleton. split.
      + intros ->. exists 0%nat, None, [slash], httpPathPrefixPrecedence, 1. split; [done|]. split; [apply accepts_any|done].
      + intros (j & p & prefix & kind & ch & [-> ->] & Ha & ->). inversion Ha. done.
    - destruct (matchLoop_fold r rl requestPath i (ruleMatches rl) 0 best) as (l & -> & Hl). exists l. split; [done|]. intros x. rewrite Hl.
      assert (Hof : forall (j : nat) p, (match ruleMatches rl with [] => j = 0%nat /\ p = None | matches => exists m, matches !! j = Some m /\ matchMethod m = None /\ matchHeaders m = [] /\ matchQueryParams m = [] /\ matchPath m = p end) <->
        exists m, ruleMatches rl !! j = Some m /\ matchMethod m = None /\ matchHeaders m = [] /\ matchQueryParams m = [] /\ matchPath m = p) by (by destruct (ruleMatches rl)).
      setoid_rewrite Hof. split.
      + intros (k & m & Hk & (Hm1 & Hm2 & Hm3 & prefix & kind & ch & Ha & ->)%matchOf_spec); [|done]. rewrite Z.add_0_l. exists k, (matchPath m), prefix, kind, ch. split; [by exists m|done].
      + intros (j & p & prefix & kind & ch & (m & Hj & Hm1 & Hm2 & Hm3 & <-) & Ha & ->). exists j, m. split; [done|]. apply matchOf_spec; [done|]. split_and!; [done..|]. by exists prefix, kind, ch. }
  destruct Hhere as (l1 & -> & Hl1). destruct (IH (i + 1) (fold_left (better byPath) l1 best)) as (l2 & -> & Hl2).
  exists (l1 ++ l2). split; [by rewrite fold_left_app|]. intros x. rewrite elem_of_app, Hl1, Hl2. split.
  - intros [(j & p & prefix & kind & ch & Ho & Ha & ->)|(k & j & rl' & p & prefix & kind & ch & Hk & Ho & Ha & ->)].
    + exists 0%nat, j, rl, p, prefix, kind, ch. by rewrite Z.add_0_r.
    + exists (S k), j, rl', p, prefix, kind, ch. split_and!; [done..|]. by replace (i + Z.of_nat (S k)) with (i + 1 + Z.of_nat k) by lia.
  - intros (k & j & rl' & p & prefix & kind & ch & Hk & Ho & Ha & ->). destruct k as [|k].
    + left. injection Hk as ->. exists j, p, prefix, kind, ch. by rewrite Z.add_0_r.
    + right. exists k, j, rl', p, prefix, kind, ch. split_and!; [done..|]. by replace (i + 1 + Z.of_nat k) with (i + Z.of_nat (S k)) by lia.
Qed.

Lemma find_in_route r requestPath : requestPath <> [] -> match findBestHTTPRouteRuleMatch Compile MatchString r requestPath with
  | None => forall x, ~ accepted r requestPath x
  | Some best => accepted r requestPath best /\ forall x, accepted r requestPath x -> thenBy bySpecificity byPlace (path best) (path x) <= 0
  end.
Proof.
  intros Hne. unfold findBestHTTPRouteRuleMatch. destruct (ruleLoop_fold r requestPath (httpRules r) Hne 0 None) as (l & -> & Hl).
  assert (Hin : forall x, x ∈ l <-> accepted r requestPath x) by (intros x; apply Hl).
  rewrite (fold_better_ext byPath (on path (thenBy bySpecificity byPlace))) by (intros; apply compare_path).
  pose proof (better_first (on path (thenBy bySpecificity byPlace)) l) as Hb. destruct (fold_left _ l None) as [best|].
  - destruct Hb as [Hb1 Hb2]. split; [by apply Hin|]. intros x Hx. by apply Hb2, Hin.
  - intros x Hx. apply Hin in Hx. rewrite Hb in Hx. by apply not_elem_of_nil in Hx.
Qed.

Lemma candidate_accepted r req c : candidate Compile MatchString r req c <-> accepted r (reqPath req) (setHostname c noHostname) /\ routeHost r req (hostname c).
Proof.
  split.
  - intros [i j rl p prefix kind ch h Hi Ho Ha Hh]. split; [|done]. by exists i, j, rl, p, prefix, kind, ch.
  - destruct c as [r0 rl0 pre0 t0 p0 h0]. intros [(i & j & rl & p & prefix & kind & ch & Hi & Ho & Ha & [= -> -> -> -> ->]) Hh]. by apply candidate_match.
Qed.

(** Two matches of a route at one place are the same. *)
Lemma accepted_place r requestPath x y : requestPath <> [] -> accepted r requestPath x -> accepted r requestPath y -> byPlace (path x) (path y) = 0 -> x = y.
Proof.
  intros Hne (i & j & rl & p & prefix & kind & ch & Hi & Ho & Ha & ->) (i' & j' & rl' & p' & prefix' & kind' & ch' & Hi' & Ho' & Ha' & ->) [E1 E2]%thenBy_zero.
  assert (Ht : forall a b, (a <? b) = false -> (b <? a) = false -> a = b) by lia.
  apply (up_zero Z.ltb ruleIndex) in E1; [|done]. apply (up_zero Z.ltb matchIndex) in E2; [|done]. cbn in E1, E2. apply Nat2Z.inj in E1, E2. subst i' j'.
  rewrite Hi in Hi'. injection Hi' as <-. assert (Ep : p = p').
  { unfold offers in Ho, Ho'. destruct (ruleMatches rl) as [|m ms]; [by destruct Ho as [_ ->], Ho' as [_ ->]|].
    destruct Ho as (m1 & E1 & _ & _ & _ & <-), Ho' as (m2 & E2 & _ & _ & _ & <-). rewrite E1 in E2. by injection E2 as <-. }
  subst p'. apply path_accepts in Ha, Ha'; [|done..]. rewrite Ha in Ha'. by injection Ha' as <- <- <-.
Qed.

Lemma accepted_route r requestPath x : accepted r requestPath x -> route x = r /\ hostname x = noHostname.
Proof. by intros (i & j & rl & p & prefix & kind & ch & _ & _ & _ & ->). Qed.

(** A parent of the route is the gateway and leaves the listener open or names
    the one of the request; without a listener it must leave it open. *)
Definition listensAt (r : HTTPRoute) (gatewayKey : string) (req : Request) : Prop :=
  exists p, p ∈ httpParents r /\ (refGroup p = None \/ refGroup p = Some "gateway.networking.k8s.io"%string) /\
    (refKind p = None \/ refKind p = Some "Gateway"%string) /\ gatewayKey = (default (httpNamespace r) (refNamespace p) ++ "/" ++ refName p)%string /\
    ((listenerName req = ""%string /\ listenerPort req = 0) /\ refSectionName p = None /\ refPort p = None \/
     ~ (listenerName req = ""%string /\ listenerPort req = 0) /\ (refSectionName p = None \/ refSectionName p = Some (listenerName req)) /\
       (refPort p = None \/ refPort p = Some (listenerPort req))).

Lemma when_set {A} (test : A -> bool) (o : option A) x : (forall y, test y = true <-> y = x) ->
  match o with Some y => test y | None => true end = true <-> o = None \/ o = Some x.
Proof. intros Ht. destruct o as [y|]; [rewrite Ht|]; naive_solver. Qed.

Lemma listensAt_spec r gatewayKey req : httpRouteMatchesGatewayListener r gatewayKey req = true <-> listensAt r gatewayKey req.
Proof.
  unfold httpRouteMatchesGatewayListener, listensAt. rewrite existsb_exists. apply exist_proper. intros p. rewrite list_elem_of_In. apply and_iff_compat_l.
  unfold refAccepts, isGatewayParentRef, gatewayOf. rewrite !andb_true_iff, bool_decide_eq_true.
  rewrite (when_set _ (refGroup p) "gateway.networking.k8s.io"%string), (when_set _ (refKind p) "Gateway"%string) by (intros; apply bool_decide_eq_true).
  rewrite (eq_comm _ gatewayKey).
  destruct (bool_decide (listenerName req = ""%string) && (listenerPort req =? 0)) eqn:E.
  - apply andb_true_iff in E as [E1%bool_decide_eq_true E2%Z.eqb_eq]. rewrite andb_true_iff, !bool_decide_eq_true. naive_solver.
  - assert (Hn : ~ (listenerName req = ""%string /\ listenerPort req = 0)) by (intros [E1 E2]; rewrite E1, E2 in E; done).
    rewrite andb_true_iff, (when_set _ (refSectionName p) (listenerName req)), (when_set _ (refPort p) (listenerPort req)) by (intros; first [apply bool_decide_eq_true|apply Z.eqb_eq]).
    naive_solver.
Qed.

(** What [findHTTPRouteMatch] is to find among routes. *)
Definition firstMatch (routes : HTTPRoute -> Prop) (gatewayKey : string) (req : Request) (found : option httpRouteMatchResult) : Prop :=
  match found with
  | None => forall r c, routes r -> listensAt r gatewayKey req -> ~ candidate Compile MatchString r req c
  | Some m =>
    routes (route m) /\ listensAt (route m) gatewayKey req /\ candidate Compile MatchString (route m) req m /\
    forall r c, routes r -> listensAt r gatewayKey req -> candidate Compile MatchString r req c -> c = m \/ precedence m c < 0
  end.

Lemma routeMatch_spec gatewayKey req r : reqPath req <> [] -> match routeMatch Compile MatchString gatewayKey req r with
  | None => listensAt r gatewayKey req -> forall c, ~ candidate Compile MatchString r req c
  | Some m => listensAt r gatewayKey req /\ route m = r /\ candidate Compile MatchString r req m /\
    forall c, candidate Compile MatchString r req c -> hostname c = hostname m /\ thenBy bySpecificity byPlace (path m) (path c) <= 0
  end.
Proof.
  intros Hne. unfold routeMatch. pose proof (listensAt_spec r gatewayKey req) as Hlisten.
  destruct (httpRouteMatchesGatewayListener r gatewayKey req); [|by intros Hx%Hlisten]. cbn [negb].
  destruct (matchHTTPRouteHostnamePrecedence (httpHostnames r) (reqHost req)) as [h|] eqn:Eh; cbn [mbind option_bind].
  2: { intros _ c [_ Hc]%candidate_accepted. apply route_host_spec in Hc. congruence. }
  pose proof (find_in_route r (reqPath req) Hne) as Hf. destruct (findBestHTTPRouteRuleMatch Compile MatchString r (reqPath req)) as [b|]; cbn [mbind option_bind].
  2: { intros _ c [Hc _]%candidate_accepted. by eapply Hf. }
  destruct Hf as [Hb Hmin]. destruct (accepted_route _ _ _ Hb) as [Hr Hn]. split; [by apply Hlisten|]. split; [done|]. split.
  - apply candidate_accepted. split; [|by apply route_host_spec]. by destruct b; cbn in *; subst.
  - intros c [Hc Hh]%candidate_accepted. split; [|by apply (Hmin _ Hc)]. cbn. apply route_host_spec in Hh. congruence.
Qed.

Lemma thenBy_le {A} (c1 c2 : A -> A -> Z) a b : thenBy c1 c2 a b <= 0 -> c1 a b < 0 \/ c1 a b = 0 /\ c2 a b <= 0.
Proof. unfold thenBy. destruct (Z.eqb_spec (c1 a b) 0); lia. Qed.

Lemma precedence_full a b : precedence a b =
  if thenBy (on hostname byHostname) (thenBy (on path bySpecificity) (on route byRoute)) a b =? 0 then on path byPlace a b
  else thenBy (on hostname byHostname) (thenBy (on path bySpecificity) (on route byRoute)) a b.
Proof.
  unfold precedence, thenBy. destruct (Z.eqb_spec (on hostname byHostname a b) 0) as [|E]; [|by apply Z.eqb_neq in E as ->].
  destruct (Z.eqb_spec (on path bySpecificity a b) 0) as [|E]; [done|by apply Z.eqb_neq in E as ->].
Qed.

Lemma find_first routes gatewayKey req : reqPath req <> [] ->
  (forall r r', r ∈ routes -> r' ∈ routes -> httpNamespace r = httpNamespace r' -> httpName r = httpName r' -> r = r') ->
  firstMatch (fun r => r ∈ routes) gatewayKey req (findHTTPRouteMatch Compile MatchString routes gatewayKey req).
Proof.
  intros Hne Hdistinct. unfold findHTTPRouteMatch. rewrite fold_better_omap.
  rewrite (fold_better_ext _ (thenBy (on hostname byHostname) (thenBy (on path bySpecificity) (on route byRoute)))) by (intros; apply compare_match).
  set (full := thenBy _ _). pose proof (better_first full (omap (routeMatch Compile MatchString gatewayKey req) routes)) as Hb.
  assert (Hin : forall m, m ∈ omap (routeMatch Compile MatchString gatewayKey req) routes <-> exists r, r ∈ routes /\ routeMatch Compile MatchString gatewayKey req r = Some m) by (intros m; apply list_elem_of_omap).
  assert (Hof : forall r c, r ∈ routes -> listensAt r gatewayKey req -> candidate Compile MatchString r req c ->
    exists m, routeMatch Compile MatchString gatewayKey req r = Some m).
  { intros r c _ Hl Hc. pose proof (routeMatch_spec gatewayKey req r Hne) as Hs. destruct (routeMatch _ _ _ _ r) as [m|]; [by exists m|]. by destruct (Hs Hl c). }
  destruct (fold_left _ _ None) as [m|]; cbn [firstMatch].
  2: { intros r c Hr Hl Hc. destruct (Hof r c Hr Hl Hc) as [m Hm]. assert (Hx : m ∈ omap (routeMatch Compile MatchString gatewayKey req) routes) by (apply Hin; eauto).
       rewrite Hb in Hx. by apply not_elem_of_nil in Hx. }
  destruct Hb as [Hm Hmin]. apply Hin in Hm as (r & Hr & Em). pose proof (routeMatch_spec gatewayKey req r Hne) as Hs. rewrite Em in Hs. destruct Hs as (Hl & Er & Hc & Hown).
  rewrite Er. split_and!; [done..|]. intros r' c Hr' Hl' Hc'. destruct (Hof r' c Hr' Hl' Hc') as [m' Em']. pose proof (routeMatch_spec gatewayKey req r' Hne) as Hs.
  rewrite Em' in Hs. destruct Hs as (_ & Er' & Hcm' & Hown'). destruct (Hown' c Hc') as [Hhost Hplace].
  assert (Hle : full m m' <= 0) by (apply Hmin, Hin; eauto).
  assert (Hrc : route c = r') by (destruct (proj1 (candidate_accepted _ _ _) Hc') as [Ha _]; by apply accepted_route in Ha as [? _]).
  assert (Hfull : full m c <= 0).
  { eapply (comparison_trans (c := full)); [exact Hle|]. unfold full, thenBy, on. rewrite Hhost, (comparison_refl byHostname). cbn [Z.eqb]. apply thenBy_le in Hplace as [Hp|[Hp _]].
    - destruct (Z.eqb_spec (bySpecificity (path m') (path c)) 0); lia.
    - rewrite Hp. cbn [Z.eqb]. rewrite Er', Hrc, (comparison_refl byRoute). lia. }
  rewrite precedence_full. fold full. destruct (Z.eqb_spec (full m c) 0) as [E|E]; [|right; lia].
  apply thenBy_zero in E as [_ [Es Ero]%thenBy_zero]. unfold on in Es, Ero. rewrite Er, Hrc in Ero. apply byRoute_zero in Ero as [E1 E2].
  assert (r' = r) as -> by (symmetry; by apply Hdistinct). assert (m' = m) as -> by congruence.
  apply thenBy_le in Hplace as [Hp|[_ Hp]]; [lia|]. unfold on. destruct (Z.eq_dec (byPlace (path m) (path c)) 0) as [E|]; [|right; lia]. left.
  apply candidate_accepted in Hc as [Ha _]. apply candidate_accepted in Hc' as [Ha' _].
  assert (Ex : setHostname m noHostname = setHostname c noHostname) by (by apply (accepted_place r (reqPath req))).
  destruct c, m; cbn in *. by injection Ex as -> -> -> -> ->; subst.
Qed.
End found.
