(* ===== verification/HttpStore.v ===== *)
(** * pkg/kthena-router/datastore/store.go: HTTP routes and inference pools

    The part of the router's store that holds HTTPRoutes and InferencePools,
    and how router.go serves a request by them: the routes attached to a
    gateway are matched by HttpMatch, and the pool of the rule names the pods.
    The order in which Go ranges over a set is a parameter. *)
From Stdlib Require Import Ascii String.
From S2P Require Import Prelude HttpMatch.
Local Open Scope Z_scope.

(** The namespace and name of a pool. *)
Abbreviation pool := (string * string)%type.

(** ** The store *)

Record InferencePool := MkPool {
  poolNamespace : string;
  poolName : string;
  poolMatchLabels : gmap string string;
  poolTargetPorts : list Z;
}.

Record httpStore := MkHttpStore {
  inferencePools : gmap string InferencePool;
  httpRoutes : gmap string HTTPRoute;
  gatewayRoutes : gmap string (gset string);
}.

Definition newHttpStore : httpStore := MkHttpStore ∅ ∅ ∅.

Definition keyOf (namespace name : string) : string := (namespace ++ "/" ++ name)%string.
Definition httpRouteKey (r : HTTPRoute) : string := keyOf (httpNamespace r) (httpName r).
Definition poolKey (p : InferencePool) : string := keyOf (poolNamespace p) (poolName p).

Definition AddOrUpdateInferencePool (p : InferencePool) (s : httpStore) : httpStore :=
  MkHttpStore (<[poolKey p := p]> (inferencePools s)) (httpRoutes s) (gatewayRoutes s).
Definition DeleteInferencePool (k : string) (s : httpStore) : httpStore :=
  MkHttpStore (delete k (inferencePools s)) (httpRoutes s) (gatewayRoutes s).
Definition GetInferencePool (s : httpStore) (k : string) : option InferencePool := inferencePools s !! k.

(** A set that becomes empty is dropped. *)
Definition forgetRoute (k : string) (routeSet : gset string) : option (gset string) :=
  let rest := routeSet ∖ {[k]} in if bool_decide (rest = ∅) then None else Some rest.

Definition detach (k namespace : string) (m : gmap string (gset string)) (p : ParentReference) : gmap string (gset string) :=
  if isGatewayParentRef p then
    match m !! gatewayOf namespace p with
    | Some routeSet => partial_alter (fun _ => forgetRoute k routeSet) (gatewayOf namespace p) m
    | None => m
    end
  else m.

Definition attach (k namespace : string) (m : gmap string (gset string)) (p : ParentReference) : gmap string (gset string) :=
  if isGatewayParentRef p then <[gatewayOf namespace p := {[k]} ∪ default ∅ (m !! gatewayOf namespace p)]> m else m.

Definition AddOrUpdateHTTPRoute (r : HTTPRoute) (s : httpStore) : httpStore :=
  let k := httpRouteKey r in
  let m := match httpRoutes s !! k with Some old => fold_left (detach k (httpNamespace old)) (httpParents old) (gatewayRoutes s) | None => gatewayRoutes s end in
  MkHttpStore (inferencePools s) (<[k := r]> (httpRoutes s)) (fold_left (attach k (httpNamespace r)) (httpParents r) m).

Definition DeleteHTTPRoute (k : string) (s : httpStore) : httpStore :=
  match httpRoutes s !! k with
  | Some _ => MkHttpStore (inferencePools s) (delete k (httpRoutes s)) (omap (forgetRoute k) (gatewayRoutes s))
  | None => s
  end.

Definition GetHTTPRoute (s : httpStore) (k : string) : option HTTPRoute := httpRoutes s !! k.

Section store.
Context (range : list string -> list string).

Definition GetHTTPRoutesByGateway (s : httpStore) (gatewayKey : string) : list HTTPRoute :=
  match gatewayRoutes s !! gatewayKey with
  | Some routeSet => omap (fun k => httpRoutes s !! k) (range (elements routeSet))
  | None => []
  end.

(** ** Pods of a pool *)

(** [pods] are the pods of the store, with their namespaces and labels;
    metav1.LabelSelectorAsSelector fails on labels that are not valid. *)
Context {Pod : Type} (podNamespace : Pod -> string) (podLabels : Pod -> gmap string string).
Context (LabelSelectorAsSelector : gmap string string -> option (gmap string string -> bool)).

Inductive poolPods := PoolMissing | SelectorInvalid | PoolPods (pods : list Pod).

Definition GetPodsByInferencePool (s : httpStore) (pods : list Pod) (namespace name : string) : poolPods :=
  match inferencePools s !! keyOf namespace name with
  | None => PoolMissing
  | Some ip =>
    match LabelSelectorAsSelector (poolMatchLabels ip) with
    | None => SelectorInvalid
    | Some selects => PoolPods (filter (fun p => podNamespace p = namespace /\ selects (podLabels p) = true) pods)
    end
  end.

(** ** A request that no ModelRoute serves ([doLoadbalance])

    The error answers with their status, or the candidates for scheduling with
    the port and the rewritten request. *)
Context {Regexp : Type} (Compile : text -> option Regexp) (MatchString : Regexp -> text -> bool).

Inductive answer := Error (status : Z) | Candidates (pods : list Pod) (port : Z) (rewritten : Request).

Definition serveHTTPRoute (Intn : Z -> Z) (s : httpStore) (pods : list Pod) (gatewayKey : string) (req : Request) : answer :=
  match handleHTTPRoute Compile MatchString Intn (GetHTTPRoutesByGateway s gatewayKey) gatewayKey req with
  | NoRoute => Error 404
  | NoBackend => Error 503
  | Forwarded (namespace, name) rewritten =>
    match GetInferencePool s (keyOf namespace name) with
    | None => Error 404
    | Some ip =>
      match GetPodsByInferencePool s pods namespace name with
      | PoolMissing => Error 404
      | SelectorInvalid => Error 500
      | PoolPods [] => Error 503
      | PoolPods found => match poolTargetPorts ip with [] => Error 400 | port :: _ => Candidates found port rewritten end
      end
    end
  end.

(** ** Histories *)

Inductive storeOp :=
| OpAddRoute (r : HTTPRoute)
| OpDeleteRoute (k : string)
| OpAddPool (p : InferencePool)
| OpDeletePool (k : string).

Definition storeStep (s : httpStore) (op : storeOp) : httpStore :=
  match op with
  | OpAddRoute r => AddOrUpdateHTTPRoute r s
  | OpDeleteRoute k => DeleteHTTPRoute k s
  | OpAddPool p => AddOrUpdateInferencePool p s
  | OpDeletePool k => DeleteInferencePool k s
  end.

(** The routes and the pools that are there. *)
Definition routesStep (F : gmap string HTTPRoute) (op : storeOp) : gmap string HTTPRoute :=
  match op with OpAddRoute r => <[httpRouteKey r := r]> F | OpDeleteRoute k => delete k F | _ => F end.
Definition poolsStep (P : gmap string InferencePool) (op : storeOp) : gmap string InferencePool :=
  match op with OpAddPool p => <[poolKey p := p]> P | OpDeletePool k => delete k P | _ => P end.
End store.

(** ** The index by gateways *)

Definition attachedTo (r : HTTPRoute) (gatewayKey : string) : Prop :=
  exists p, p ∈ httpParents r /\ isGatewayParentRef p = true /\ gatewayOf (httpNamespace r) p = gatewayKey.

Definition atGateway (m : gmap string (gset string)) (g : string) : gset string := default ∅ (m !! g).

Record indexed (F : gmap string HTTPRoute) (s : httpStore) : Prop := {
  indexed_routes : httpRoutes s = F;
  indexed_keys k r : F !! k = Some r -> k = httpRouteKey r;
  indexed_gateways g k : k ∈ atGateway (gatewayRoutes s) g <-> exists r, F !! k = Some r /\ attachedTo r g;
  indexed_nonempty g : gatewayRoutes s !! g <> Some ∅;
}.

Lemma forgetRoute_elem k routeSet x : x ∈ default ∅ (forgetRoute k routeSet) <-> x ∈ routeSet /\ x <> k.
Proof. unfold forgetRoute. cbn zeta. case_bool_decide as E; cbn; set_solver. Qed.

Lemma forgetRoute_nonempty k routeSet : forgetRoute k routeSet <> Some ∅.
Proof. unfold forgetRoute. cbn zeta. case_bool_decide as E; [done|]. by intros [= ?]. Qed.

Lemma detachRoutes_spec k namespace parents : forall m, (forall g, m !! g <> Some ∅) ->
  (forall g, fold_left (detach k namespace) parents m !! g <> Some ∅) /\
  forall g x, x ∈ atGateway (fold_left (detach k namespace) parents m) g <->
    x ∈ atGateway m g /\ ~ (x = k /\ exists p, p ∈ parents /\ isGatewayParentRef p = true /\ gatewayOf namespace p = g).
Proof.
  induction parents as [|p parents IH]; intros m Hm; cbn [fold_left].
  { split; [done|]. intros g x. split; [intros H; split; [done|intros (_ & p & Hp & _); by apply not_elem_of_nil in Hp]|by intros [? _]]. }
  assert (Hd : (forall g, detach k namespace m p !! g <> Some ∅) /\
    forall g x, x ∈ atGateway (detach k namespace m p) g <-> x ∈ atGateway m g /\ ~ (x = k /\ isGatewayParentRef p = true /\ gatewayOf namespace p = g)).
  { unfold detach, atGateway. destruct (isGatewayParentRef p); [|split; [done|]; intros g x; split; [intros H; split; [done|by intros (_ & ? & _)]|by intros [? _]]].
    destruct (m !! gatewayOf namespace p) as [routeSet|] eqn:Eg.
    - split.
      + intros g. destruct (decide (g = gatewayOf namespace p)) as [->|Hn]; [rewrite lookup_partial_alter_eq; apply forgetRoute_nonempty|by rewrite lookup_partial_alter_ne].
      + intros g x. destruct (decide (g = gatewayOf namespace p)) as [->|Hn].
        * rewrite lookup_partial_alter_eq, forgetRoute_elem, Eg. cbn. naive_solver.
        * rewrite lookup_partial_alter_ne by done. naive_solver.
    - split; [done|]. intros g x. split; [|by intros [? _]]. intros Hx. split; [done|]. intros (_ & _ & <-). rewrite Eg in Hx. cbn in Hx. set_solver. }
  destruct Hd as [Hd1 Hd2]. destruct (IH _ Hd1) as [H1 H2]. split; [done|]. intros g x. rewrite H2, Hd2. setoid_rewrite elem_of_cons. naive_solver.
Qed.

Lemma attachRoutes_spec k namespace parents : forall m, (forall g, m !! g <> Some ∅) ->
  (forall g, fold_left (attach k namespace) parents m !! g <> Some ∅) /\
  forall g x, x ∈ atGateway (fold_left (attach k namespace) parents m) g <->
    x ∈ atGateway m g \/ x = k /\ exists p, p ∈ parents /\ isGatewayParentRef p = true /\ gatewayOf namespace p = g.
Proof.
  induction parents as [|p parents IH]; intros m Hm; cbn [fold_left].
  { split; [done|]. intros g x. split; [by left|]. intros [?|(_ & p & Hp & _)]; [done|by apply not_elem_of_nil in Hp]. }
  assert (Ha : (forall g, attach k namespace m p !! g <> Some ∅) /\
    forall g x, x ∈ atGateway (attach k namespace m p) g <-> x ∈ atGateway m g \/ x = k /\ isGatewayParentRef p = true /\ gatewayOf namespace p = g).
  { unfold attach, atGateway. destruct (isGatewayParentRef p); [|split; [done|naive_solver]]. split.
    - intros g. destruct (decide (g = gatewayOf namespace p)) as [->|Hn]; [rewrite lookup_insert_eq; intros [= E]; set_solver|by rewrite lookup_insert_ne].
    - intros g x. destruct (decide (g = gatewayOf namespace p)) as [->|Hn]; [rewrite lookup_insert_eq; cbn; set_solver|rewrite lookup_insert_ne by done; naive_solver]. }
  destruct Ha as [Ha1 Ha2]. destruct (IH _ Ha1) as [H1 H2]. split; [done|]. intros g x. rewrite H2, Ha2. setoid_rewrite elem_of_cons. naive_solver.
Qed.

Lemma indexed_add F s r : indexed F s -> indexed (<[httpRouteKey r := r]> F) (AddOrUpdateHTTPRoute r s).
Proof.
  intros [E1 E2 E3 E4]. unfold AddOrUpdateHTTPRoute. cbn zeta. set (k := httpRouteKey r). set (m := match httpRoutes s !! k with Some _ => _ | None => _ end).
  assert (Hm : (forall g, m !! g <> Some ∅) /\ forall g x, x ∈ atGateway m g <-> x <> k /\ exists r0, F !! x = Some r0 /\ attachedTo r0 g).
  { unfold m. rewrite E1. destruct (F !! k) as [old|] eqn:Eo.
    - destruct (detachRoutes_spec k (httpNamespace old) (httpParents old) (gatewayRoutes s) E4) as [H1 H2]. split; [done|]. intros g x. rewrite H2, E3. split.
      + intros [(r0 & Hr & Ha) Hn]. split; [|by exists r0]. intros ->. apply Hn. split; [done|]. rewrite Eo in Hr. by injection Hr as ->.
      + intros [Hn (r0 & Hr & Ha)]. split; [by exists r0|]. by intros [? _].
    - split; [done|]. intros g x. rewrite E3. split; [intros (r0 & Hr & Ha); split; [congruence|by exists r0]|by intros [_ ?]]. }
  destruct Hm as [Hm1 Hm2]. destruct (attachRoutes_spec k (httpNamespace r) (httpParents r) m Hm1) as [H1 H2]. split; cbn [httpRoutes gatewayRoutes].
  - by rewrite E1.
  - intros k' r' [[<- <-]|[Hn Hr]]%lookup_insert_Some; [done|by apply E2].
  - intros g x. rewrite H2, Hm2. destruct (decide (x = k)) as [->|Hn].
    + rewrite lookup_insert_eq. split; [intros [[? _]|[_ Ha]]; [done|by exists r]|]. intros (r0 & [= <-] & Ha). by right.
    + rewrite lookup_insert_ne by done. naive_solver.
  - exact H1.
Qed.

Lemma indexed_delete F s k : indexed F s -> indexed (delete k F) (DeleteHTTPRoute k s).
Proof.
  intros [E1 E2 E3 E4]. unfold DeleteHTTPRoute. rewrite E1. destruct (F !! k) as [old|] eqn:Eo.
  - split; cbn [httpRoutes gatewayRoutes].
    + done.
    + intros k' r' [_ Hr]%lookup_delete_Some. by apply E2.
    + intros g x. unfold atGateway. rewrite lookup_omap. assert (Ho : default ∅ (gatewayRoutes s !! g ≫= forgetRoute k) = default ∅ (forgetRoute k (atGateway (gatewayRoutes s) g))).
      { unfold atGateway. destruct (gatewayRoutes s !! g); [done|]. cbn. unfold forgetRoute. cbn zeta. by rewrite bool_decide_true by set_solver. }
      rewrite Ho, forgetRoute_elem, E3. setoid_rewrite lookup_delete_Some. naive_solver.
    + intros g. rewrite lookup_omap. destruct (gatewayRoutes s !! g); [apply forgetRoute_nonempty|done].
  - rewrite delete_id by done. by split.
Qed.

Lemma indexed_run ops : indexed (fold_left routesStep ops ∅) (fold_left storeStep ops newHttpStore) /\
  inferencePools (fold_left storeStep ops newHttpStore) = fold_left poolsStep ops ∅.
Proof.
  assert (H : forall ops F P s, indexed F s -> inferencePools s = P ->
    indexed (fold_left routesStep ops F) (fold_left storeStep ops s) /\ inferencePools (fold_left storeStep ops s) = fold_left poolsStep ops P).
  { clear ops. intros ops. induction ops as [|op ops IH]; intros F P s Hi Hp; [done|]. cbn [fold_left]. apply IH; destruct op as [r|k|p|k]; cbn [storeStep routesStep poolsStep].
    - by apply indexed_add.
    - by apply indexed_delete.
    - by destruct Hi; split.
    - by destruct Hi; split.
    - done.
    - unfold DeleteHTTPRoute. by destruct (httpRoutes s !! k).
    - cbn. by rewrite Hp.
    - cbn. by rewrite Hp. }
  apply H; [|done]. split; [done|intros *; by rewrite lookup_empty| |intros g; cbn; by rewrite lookup_empty].
  intros g k. unfold atGateway. cbn. rewrite lookup_empty. cbn. split; [set_solver|]. intros (r & Hr & _). by rewrite lookup_empty in Hr.
Qed.

(** ** What a request gets *)

Section served.
Context (range : list string -> list string) {Regexp : Type} (Compile : text -> option Regexp) (MatchString : Regexp -> text -> bool).
Hypothesis range_perm : forall l, range l ≡ₚ l.

Lemma routes_by_gateway F s g r : indexed F s -> r ∈ GetHTTPRoutesByGateway range s g <-> F !! httpRouteKey r = Some r /\ attachedTo r g.
Proof using range_perm.
  intros [E1 E2 E3 E4]. unfold GetHTTPRoutesByGateway. specialize (E3 g). unfold atGateway in E3. destruct (gatewayRoutes s !! g) as [routeSet|] eqn:Eg; cbn in E3.
  - rewrite list_elem_of_omap. setoid_rewrite range_perm. setoid_rewrite elem_of_elements. setoid_rewrite E3. rewrite E1. split.
    + intros (k & (r0 & Hr & Ha) & Hk). rewrite Hr in Hk. injection Hk as ->. split; [|done]. by rewrite <- (E2 _ _ Hr).
    + intros [Hr Ha]. exists (httpRouteKey r). split; [by exists r|done].
  - rewrite elem_of_nil. split; [done|]. intros [Hr Ha]. assert (H : httpRouteKey r ∈ (∅ : gset string)) by (apply E3; by exists r). set_solver.
Qed.

Lemma listener_attached r g req : listensAt r g req -> attachedTo r g.
Proof.
  rewrite <- listensAt_spec. unfold httpRouteMatchesGatewayListener, refAccepts. intros (p & Hp & H)%existsb_true. exists p. split; [done|].
  apply andb_prop in H as [[H1 H2]%andb_prop _]. split; [done|]. by apply bool_decide_eq_true in H2.
Qed.

Lemma store_first ops gatewayKey req : reqPath req <> [] ->
  let F := fold_left routesStep ops ∅ in
  let s := fold_left storeStep ops newHttpStore in
  firstMatch Compile MatchString (fun r => F !! httpRouteKey r = Some r) gatewayKey req
    (findHTTPRouteMatch Compile MatchString (GetHTTPRoutesByGateway range s gatewayKey) gatewayKey req).
Proof using range_perm.
  intros Hne F s. destruct (indexed_run ops) as [Hi _]. fold F s in Hi.
  pose proof (find_first Compile MatchString (GetHTTPRoutesByGateway range s gatewayKey) gatewayKey req Hne) as H.
  assert (Hin : forall r, r ∈ GetHTTPRoutesByGateway range s gatewayKey <-> F !! httpRouteKey r = Some r /\ attachedTo r gatewayKey) by (intros r; by apply routes_by_gateway).
  destruct (findHTTPRouteMatch _ _ _ _ _) as [m|]; cbn [firstMatch] in *.
  - destruct H as (H1 & H2 & H3 & H4).
    { intros r r' [Hr _]%Hin [Hr' _]%Hin En Em. unfold httpRouteKey in *. rewrite En, Em in Hr. rewrite Hr in Hr'. by injection Hr'. }
    apply Hin in H1 as [H1 _]. split; [done|]. split; [done|]. split; [done|]. intros r c Hr Hl Hc. apply (H4 r c); [|done|done]. apply Hin. split; [done|]. by eapply listener_attached.
  - intros r c Hr Hl Hc. eapply H; [| |exact Hl|exact Hc].
    + intros r1 r2 [Hr1 _]%Hin [Hr2 _]%Hin En Em. unfold httpRouteKey in *. rewrite En, Em in Hr1. rewrite Hr1 in Hr2. by injection Hr2.
    + apply Hin. split; [done|]. by eapply listener_attached.
Qed.

(** C14: every request gets the first match of all routes. After any history of
    routes and pools that come, change and go, and in whatever order Go ranges
    over the set of a gateway, the match of a request is the first one, in the
    order of precedence, among all matches that accept it in all stored routes
    that listen at its gateway: the more specific hostname, then the more
    specific path, then the older route, the namespace and the name, the rule
    and the match. A hostname is accepted exactly or by a wildcard with
    something before the domain, a path by its value, by whole segments or by a
    regular expression. There is no match only if nothing accepts. *)
Theorem http_request_first_match ops gatewayKey req : reqPath req <> [] ->
  let F := fold_left routesStep ops ∅ in
  let s := fold_left storeStep ops newHttpStore in
  firstMatch Compile MatchString (fun r => F !! httpRouteKey r = Some r) gatewayKey req
    (findHTTPRouteMatch Compile MatchString (GetHTTPRoutesByGateway range s gatewayKey) gatewayKey req).
Proof using range_perm. apply store_first. Qed.

(** *** Backends *)

Definition eligible (m : httpRouteMatchResult) : list (pool * Z) := omap (weightedPool (route m)) (ruleBackends (rule m)).
Definition weightOf (p : pool) (pools : list (pool * Z)) : Z := sumZ (snd <$> filter (fun x : pool * Z => x.1 = p) pools).

Lemma eligible_positive m p w : (p, w) ∈ eligible m -> 0 < w.
Proof.
  intros (b & _ & Hb)%list_elem_of_omap. unfold weightedPool in Hb. destruct (_ && _); [|done]. cbn zeta in Hb. destruct (Z.leb_spec (default 1 (backendWeight b)) 0); [done|].
  by injection Hb as _ <-.
Qed.

Lemma select_beyond pools n : (forall x, x ∈ pools -> 0 < x.2) -> 0 <= n < sumZ (snd <$> pools) -> is_Some (selectWeightedInferencePool pools n).
Proof.
  revert n. induction pools as [|[q w] pools IH]; intros n Hp Hn; [cbn in Hn; lia|]. cbn [selectWeightedInferencePool]. destruct (Z.ltb_spec (n - w) 0); [by eexists|].
  apply IH; [intros x Hx; apply Hp; by right|]. change (sumZ (snd <$> (q, w) :: pools)) with (w + sumZ (snd <$> pools)) in Hn. lia.
Qed.

Lemma select_elem pools p : forall n, selectWeightedInferencePool pools n = Some p -> p ∈ pools.*1.
Proof.
  induction pools as [|[q w] pools IH]; intros n; cbn [selectWeightedInferencePool]; [done|]. rewrite fmap_cons.
  destruct (n - w <? 0); [intros [= <-]; by left|]. intros Es. right. by eapply IH.
Qed.

Lemma select_share pools p : (forall x, x ∈ pools -> 0 < x.2) ->
  Z.of_nat (length (filter (fun n => selectWeightedInferencePool pools n = Some p) (seqZ 0 (sumZ (snd <$> pools))))) = weightOf p pools.
Proof.
  induction pools as [|[q w] pools IH]; intros Hp; [done|]. unfold weightOf. rewrite filter_cons. cbn [fst]. rewrite fmap_cons. change (sumZ (snd (q, w) :: (snd <$> pools))) with (w + sumZ (snd <$> pools)).
  assert (Hw : 0 < w) by (apply (Hp (q, w)); by left). assert (Hl : forall x, x ∈ pools -> 0 < x.2) by (intros x Hx; apply Hp; by right). specialize (IH Hl).
  assert (Ht : 0 <= sumZ (snd <$> pools)) by (apply sumZ_fmap_nonneg; intros x Hx; specialize (Hl x Hx); lia).
  rewrite seqZ_app by lia. rewrite filter_app, length_app, Nat2Z.inj_add. cbn [selectWeightedInferencePool].
  assert (H1 : Z.of_nat (length (filter (fun n => (if n - w <? 0 then Some q else selectWeightedInferencePool pools (n - w)) = Some p) (seqZ 0 w))) = if decide (q = p) then w else 0).
  { case_decide as E.
    - rewrite (proj2 (filter_full _ _)); [rewrite length_seqZ; lia|]. intros n Hn. apply elem_of_seqZ in Hn. destruct (Z.ltb_spec (n - w) 0); [by subst|lia].
    - rewrite filter_none; [done|]. apply Forall_forall. intros n Hn. apply elem_of_seqZ in Hn. destruct (Z.ltb_spec (n - w) 0); [congruence|lia]. }
  assert (H2 : Z.of_nat (length (filter (fun n => (if n - w <? 0 then Some q else selectWeightedInferencePool pools (n - w)) = Some p) (seqZ (0 + w) (sumZ (snd <$> pools))))) = weightOf p pools).
  { rewrite <- IH. replace (0 + w) with (w + 0) by lia. rewrite <- fmap_add_seqZ, filter_fmap, length_fmap. do 2 f_equal. apply filter_ext_in. intros n Hn. apply elem_of_seqZ in Hn.
    replace (w + n - w) with n by lia. destruct (Z.ltb_spec n 0); [lia|done]. }
  rewrite H1, H2. case_decide; [cbn [fmap list_fmap sumZ foldr snd]; unfold weightOf, sumZ; lia|unfold weightOf; lia].
Qed.

(** *** Rewriting *)

(** The request that is sent: the filters of the matched rule in their order. *)
Definition sent (m : httpRouteMatchResult) (req : Request) : Request :=
  fold_left (fun req f => applyURLRewrite (if bool_decide (matchedPrefix m = []) then None else Some (matchedPrefix m)) f req) (ruleRewrites (rule m)) req.

Lemma replaced_segments matched replacement original : segments matched `prefix_of` segments original -> matched <> [] ->
  segments (rewrittenPath (Some matched) original (ReplacePrefixMatch (Some replacement))) = segments replacement ++ drop (length (segments matched)) (segments original).
Proof.
  intros Hs Hne. cbn [rewrittenPath]. rewrite bool_decide_false by done. apply prefix_segments in Hs as [->|[rest ->]].
  - rewrite <- (app_nil_r matched) at 1. rewrite TrimPrefix_app, app_nil_r, drop_all. by rewrite app_nil_r.
  - rewrite <- app_assoc, TrimPrefix_app. cbn [app]. rewrite !segments_app. by rewrite drop_app_length.
Qed.

#[local] Instance Request_eq_dec : EqDecision Request.
Proof. solve_decision. Defined.
#[local] Instance handled_eq_dec : EqDecision handled.
Proof. solve_decision. Defined.

Lemma handle_found Intn routes gatewayKey req m : findHTTPRouteMatch Compile MatchString routes gatewayKey req = Some m ->
  handleHTTPRoute Compile MatchString Intn routes gatewayKey req =
    match eligible m with [] => NoBackend | pools => match selectWeightedInferencePool pools (Intn (sumZ (snd <$> pools))) with Some p => Forwarded p (sent m req) | None => NoBackend end end.
Proof.
  intros Em. unfold handleHTTPRoute, inferencePoolFromHTTPRouteRule, sent. rewrite Em. fold (eligible m). destruct (eligible m) as [|[q w] pools] eqn:El; [done|].
  destruct (Z.eqb_spec (sumZ (snd <$> (q, w) :: pools)) 0) as [E|]; [|done]. exfalso.
  assert (Hp : forall x, x ∈ (q, w) :: pools -> 0 < x.2) by (intros [q' w'] Hx; rewrite <- El in Hx; by eapply eligible_positive).
  change (sumZ (snd <$> (q, w) :: pools)) with (w + sumZ (snd <$> pools)) in E. pose proof (Hp (q, w) ltac:(by left)). cbn in *.
  assert (0 <= sumZ (snd <$> pools)) by (apply sumZ_fmap_nonneg; intros x Hx; specialize (Hp x ltac:(by right)); lia). lia.
Qed.

(** The matched prefix is one of the path's. *)
Lemma candidate_prefix r req m : candidate Compile MatchString r req m -> matchedPrefix m <> [] -> matchedPrefix m <> [slash] ->
  segments (matchedPrefix m) `prefix_of` segments (reqPath req).
Proof.
  intros [i j rl p prefix kind ch h _ _ Ha _]. cbn [matchedPrefix]. intros H1 H2. destruct Ha as [|? ? ?|? ? ? Hs ->|? ? ? ? ?]; try done. by case_decide.
Qed.

(** A matched request goes to one of its rule's pools, each with its share.
    A rule without a pool of positive weight answers that there is no backend.
    Otherwise every value of the random number below the total weight sends the
    request to one of the pools of the rule, to each for exactly as many values
    as its backends weigh together, and what is sent does not depend on the
    value. Replacing the matched prefix exchanges whole segments of the path:
    those of the prefix for those of the replacement, and nothing else; except
    for the root prefix, which has none. *)
Theorem http_backends_by_weight ops gatewayKey req m : reqPath req <> [] ->
  let routes := GetHTTPRoutesByGateway range (fold_left storeStep ops newHttpStore) gatewayKey in
  findHTTPRouteMatch Compile MatchString routes gatewayKey req = Some m ->
  let serve n := handleHTTPRoute Compile MatchString (fun _ => n) routes gatewayKey req in
  let total := sumZ (snd <$> eligible m) in
  match eligible m with
  | [] => forall n, serve n = NoBackend
  | pools =>
    (forall n, 0 <= n < total -> exists p, p ∈ pools.*1 /\ serve n = Forwarded p (sent m req)) /\
    forall p, Z.of_nat (length (filter (fun n => serve n = Forwarded p (sent m req)) (seqZ 0 total))) = weightOf p pools
  end /\
  forall replacement, ruleRewrites (rule m) = [MkURLRewrite None (Some (ReplacePrefixMatch (Some replacement)))] -> matchedPrefix m <> [] -> matchedPrefix m <> [slash] ->
    segments (reqPath (sent m req)) = segments replacement ++ drop (length (segments (matchedPrefix m))) (segments (reqPath req)).
Proof using range_perm.
  intros Hne routes Em serve total. split.
  - pose proof (fun n => handle_found (fun _ => n) routes gatewayKey req m Em) as Hs. fold total in Hs. cbn beta in Hs.
    assert (Hp : forall x, x ∈ eligible m -> 0 < x.2) by (intros [q w]; apply eligible_positive). unfold serve.
    assert (Hlast : eligible m <> [] -> forall n, handleHTTPRoute Compile MatchString (fun _ => n) routes gatewayKey req =
      match selectWeightedInferencePool (eligible m) n with Some p => Forwarded p (sent m req) | None => NoBackend end)
      by (intros Hn n; rewrite Hs; unfold total; by destruct (eligible m)).
    pose proof (fun n => select_beyond (eligible m) n Hp) as Hin. pose proof (fun p => select_share (eligible m) p Hp) as Hshare. fold total in Hin, Hshare.
    destruct (eligible m) as [|x pools]; [done|]. specialize (Hlast ltac:(done)). split.
    + intros n Hn. destruct (Hin n Hn) as [p Es]. exists p. rewrite Hlast, Es. split; [by eapply select_elem|done].
    + intros p. rewrite <- Hshare. do 2 f_equal. apply filter_ext_in. intros n _. rewrite Hlast. destruct (selectWeightedInferencePool _ n); split; congruence.
  - intros replacement Er H1 H2. unfold sent. rewrite Er. cbn [fold_left applyURLRewrite rewritePath reqPath]. rewrite bool_decide_false by done.
    pose proof (store_first ops gatewayKey req Hne) as Hf. cbn zeta in Hf. unfold routes in Em. rewrite Em in Hf. destruct Hf as (_ & _ & Hc & _).
    apply replaced_segments; [|done]. by eapply candidate_prefix.
Qed.
End served.

(** ** Example: a gateway with three routes *)

Definition chars : string -> text := list_ascii_of_string.
Definition parent : ParentReference := MkParentRef None (Some "Gateway"%string) None "gw" None None.
Definition poolRef (name : string) (weight : option Z) : HTTPBackendRef :=
  MkBackendRef (Some inferencePoolBackendGroup) (Some inferencePoolBackendKind) None name weight.
Definition prefixRule (prefix : string) (backends : list HTTPBackendRef) (rewrites : list HTTPURLRewriteFilter) : HTTPRouteRule :=
  MkHTTPRule [MkRouteMatch (Some (MkPathMatch None (Some (chars prefix)))) None [] []] backends rewrites.
Definition replaceBy (replacement : string) : HTTPURLRewriteFilter := MkURLRewrite None (Some (ReplacePrefixMatch (Some (chars replacement)))).

Definition chatRoute : HTTPRoute := MkHTTPRoute "ns" "chat" 20 [parent] [chars "*.Example.com"]
  [MkHTTPRule [] [poolRef "spare" None] []; prefixRule "/chat/" [poolRef "a" (Some 3); poolRef "b" (Some 1); poolRef "off" (Some 0)] [replaceBy "/v1"]].
Definition anyRoute : HTTPRoute := MkHTTPRoute "ns" "any" 10 [parent] [] [prefixRule "/chat/completions" [poolRef "any" None] []].
Definition rootRoute : HTTPRoute := MkHTTPRoute "ns" "root" 10 [parent] [chars "root.org"] [prefixRule "/" [poolRef "root" None] [replaceBy "/v1"]].

Definition gatewayHistory : list storeOp :=
  [OpAddRoute anyRoute; OpAddRoute chatRoute; OpAddRoute rootRoute; OpAddPool (MkPool "ns" "a" ∅ [8000]); OpDeleteRoute "ns/other"].

(** Regular expressions that match themselves. *)
Definition literal (pattern s : text) : bool := bool_decide (pattern = s).
Definition sameRange (l : list string) : list string := l.

Definition request (host path : string) : Request := MkRequest (chars host) (chars path) "" 0.
Definition served (n : Z) (req : Request) : answer (Pod := string) :=
  serveHTTPRoute sameRange (fun _ => "ns"%string) (fun _ => ∅) (fun _ => Some (fun _ => true)) Some literal (fun _ => n)
    (fold_left storeStep gatewayHistory newHttpStore) ["pod"%string] "ns/gw" req.

(** The hostname decides before the longer path; one pool of two is known. *)
Example hostname_before_path : served 2 (request "api.example.COM:8080" "/chat/completions") =
    Candidates ["pod"%string] 8000 (MkRequest (chars "api.example.COM:8080") (chars "/v1/completions") "" 0) /\
  served 3 (request "api.example.com" "/chat/completions") = Error 404 /\
  served 0 (request "[::1]:80" "/chats") = Error 404.
Proof. by vm_compute. Qed.

(** The replacement of the root prefix is glued to the first segment. *)
Example root_prefix_glued : match handleHTTPRoute Some literal (fun _ => 0) [rootRoute] "ns/gw" (request "root.org" "/chat") with
  | Forwarded _ req => reqPath req = chars "/v1chat" | _ => False end.
Proof. by vm_compute. Qed.

Lemma http_request_first_match_witness :
  firstMatch Some literal (fun r => fold_left routesStep gatewayHistory ∅ !! httpRouteKey r = Some r) "ns/gw" (request "api.example.com:80" "/chat/completions")
    (findHTTPRouteMatch Some literal (GetHTTPRoutesByGateway sameRange (fold_left storeStep gatewayHistory newHttpStore) "ns/gw") "ns/gw" (request "api.example.com:80" "/chat/completions")).
Proof. apply (http_request_first_match sameRange Some literal (fun l => Permutation_refl l) gatewayHistory). vm_compute. discriminate. Defined.

Definition chatMatch : httpRouteMatchResult := MkMatchResult chatRoute (prefixRule "/chat/" [poolRef "a" (Some 3); poolRef "b" (Some 1); poolRef "off" (Some 0)] [replaceBy "/v1"])
  (chars "/chat") (chars "/chat") (MkPathPrec 2 5 1 0) (MkHostPrec 1 12).

Lemma http_backends_by_weight_witness :
  let serve n := handleHTTPRoute Some literal (fun _ => n) (GetHTTPRoutesByGateway sameRange (fold_left storeStep gatewayHistory newHttpStore) "ns/gw") "ns/gw" (request "api.example.com" "/chat/completions") in
  (forall n, 0 <= n < 4 -> exists p, p ∈ [("ns", "a"); ("ns", "b")]%string /\ serve n = Forwarded p (request "api.example.com" "/v1/completions")) /\
  segments (reqPath (sent chatMatch (request "api.example.com" "/chat/completions"))) = segments (chars "/v1") ++ [chars "completions"].
Proof.
  pose proof (http_backends_by_weight sameRange Some literal (fun l => Permutation_refl l) gatewayHistory "ns/gw" (request "api.example.com" "/chat/completions") chatMatch) as H.
  assert (Hne : reqPath (request "api.example.com" "/chat/completions") <> []) by (vm_compute; discriminate).
  specialize (H Hne ltac:(vm_compute; reflexivity)). cbn zeta in H. destruct H as [H1 H2]. split.
  - change (eligible chatMatch) with [(("ns", "a")%string, 3); (("ns", "b")%string, 1)] in H1. destruct H1 as [H1 _]. exact H1.
  - rewrite (H2 (chars "/v1")); [vm_compute; reflexivity|reflexivity|vm_compute; discriminate|vm_compute; discriminate].
Defined.
