(* ===== verification/SessionSticky.v ===== *)
(** * pkg/kthena-router/sessionsticky: bindings of sessions to pods

    A session stays with the pod that served it first, for as long as its
    requests keep coming and the pod can be chosen. store.go has two stores for
    the bindings, in memory and in Redis; both implement the interface
    [StickyStore]. router.go looks a binding up, schedules the request and
    commits what was chosen. Redis answers and runs a script at once, and its
    clock is the router's; times are nanoseconds. *)
From Stdlib Require Import Ascii String.
From S2P Require Import Prelude HttpMatch Float64 ServingStore PodStore Scheduler.
Local Open Scope Z_scope.

(** ** binding.go, ttl.go *)

Record Binding := MkBinding { bindingServer : string; bindingPod : string; bindingPrefill : string }.

#[global] Instance Binding_eq_dec : EqDecision Binding.
Proof. solve_decision. Defined.

Definition Valid (b : Binding) : bool := negb (bool_decide (bindingServer b = ""%string)) && negb (bool_decide (bindingPod b = ""%string)).
Definition ValidPD (b : Binding) : bool := Valid b && negb (bool_decide (bindingPrefill b = ""%string)).
Definition Equal (a b : Binding) : bool :=
  bool_decide (bindingServer a = bindingServer b) && bool_decide (bindingPod a = bindingPod b) && bool_decide (bindingPrefill a = bindingPrefill b).

Definition second : Z := 1000000000.
Definition defaultSessionAffinitySeconds : Z := 300.
Definition TTL (sessionAffinitySeconds : option Z) : Z :=
  match sessionAffinitySeconds with
  | Some sec => if 1 <=? sec then sec * second else defaultSessionAffinitySeconds * second
  | None => defaultSessionAffinitySeconds * second
  end.

(** ** The interface

    [Commit] answers the binding that holds, or an error. *)
Class StickyStore (S : Type) := {
  Get : Z -> string -> S -> option Binding;
  Delete : string -> S -> S;
  Commit : Z -> string -> Binding -> Z -> S -> S * option Binding;
  Sweep : Z -> S -> S;
}.

(** [live now s k] is the binding of a key and the time at which it expires. *)
Class StickyLaws (S : Type) `{!StickyStore S} := {
  storeOk : S -> Prop;
  live : Z -> S -> string -> option (Binding * Z);
  live_valid now s k b until : storeOk s -> live now s k = Some (b, until) -> Valid b = true;
  get_live now s k : storeOk s -> Get now k s = fst <$> live now s k;
  live_later now now' s k : storeOk s -> now <= now' -> live now' s k = live now s k ≫= fun x => if now' <? x.2 then Some x else None;
  live_delete now s k k' : storeOk s -> storeOk (Delete k s) /\ live now (Delete k s) k' = if decide (k' = k) then None else live now s k';
  commit_invalid now s k b ttl : storeOk s -> Valid b = false -> Commit now k b ttl s = (s, None);
  commit_live now s k b seconds : storeOk s -> Valid b = true -> 1 <= seconds ->
    let '(s', answer) := Commit now k b (seconds * second) s in
    storeOk s' /\
    match live now s k with
    | Some (b0, until) => if decide (b0 = b) then answer = Some b /\ live now s' k = Some (b, now + seconds * second)
                          else answer = Some b0 /\ live now s' k = Some (b0, until)
    | None => answer = Some b /\ live now s' k = Some (b, now + seconds * second)
    end /\
    forall k', k' <> k -> live now s' k' = live now s k';
  live_sweep now now' s k : storeOk s -> storeOk (Sweep now s) /\ (now <= now' -> live now' (Sweep now s) k = live now' s k);
}.

Lemma Equal_spec a b : Equal a b = true <-> a = b.
Proof.
  unfold Equal. rewrite !andb_true_iff, !bool_decide_eq_true. destruct a, b; cbn. split; [by intros [[-> ->] ->]|by intros [= -> -> ->]].
Qed.

(** ** The store in memory *)

Record memoryEntry := MkEntry { entryBinding : Binding; entryUntil : Z }.
Record MemoryStore := MkMemory { entries : gmap string memoryEntry }.

Definition NewMemoryStore : MemoryStore := MkMemory ∅.

Definition sweepExpired (now : Z) (s : MemoryStore) : MemoryStore :=
  MkMemory (filter (fun x : string * memoryEntry => now < entryUntil x.2) (entries s)).

Definition memoryGet (now : Z) (k : string) (s : MemoryStore) : option Binding :=
  match entries s !! k with
  | None => None
  | Some e => if negb (now <? entryUntil e) || negb (Valid (entryBinding e)) then None else Some (entryBinding e)
  end.

Definition memoryDelete (k : string) (s : MemoryStore) : MemoryStore := MkMemory (delete k (entries s)).

Definition memoryCommit (now : Z) (k : string) (binding : Binding) (ttl : Z) (s : MemoryStore) : MemoryStore * option Binding :=
  if negb (Valid binding) then (s, None)
  else
    let until := now + (if ttl <=? 0 then second else ttl) in
    let stored := (MkMemory (<[k := MkEntry binding until]> (entries s)), Some binding) in
    match entries s !! k with
    | Some cur => if (now <? entryUntil cur) && Valid (entryBinding cur) then
                    if negb (Equal (entryBinding cur) binding) then (s, Some (entryBinding cur)) else stored
                  else stored
    | None => stored
    end.

#[export] Instance memoryStore : StickyStore MemoryStore := {| Get := memoryGet; Delete := memoryDelete; Commit := memoryCommit; Sweep := sweepExpired |}.

Definition memoryLive (now : Z) (s : MemoryStore) (k : string) : option (Binding * Z) :=
  e ← entries s !! k; if (now <? entryUntil e) && Valid (entryBinding e) then Some (entryBinding e, entryUntil e) else None.

(** ** The store in Redis

    The fields of a hash and when it expires. *)
Record redisHash := MkHash { hashFields : gmap string string; hashExpires : Z }.
Record RedisStore := MkRedis { hashes : gmap string redisHash }.

Definition redisFieldModelServer : string := "modelServer".
Definition redisFieldPod : string := "pod".
Definition redisFieldPrefillPod : string := "prefillPod".

(** A hash that has expired is not there. *)
Definition fieldsOf (now : Z) (k : string) (s : RedisStore) : gmap string string :=
  match hashes s !! k with Some h => if now <? hashExpires h then hashFields h else ∅ | None => ∅ end.

(** What is not a string reads as empty. *)
Definition bindingFromRedisFields (modelServer pod prefill : option string) : option Binding :=
  let b := MkBinding (default ""%string modelServer) (default ""%string pod) (default ""%string prefill) in
  if Valid b then Some b else None.

Definition redisGet (now : Z) (k : string) (s : RedisStore) : option Binding :=
  let f := fieldsOf now k s in
  bindingFromRedisFields (f !! redisFieldModelServer) (f !! redisFieldPod) (f !! redisFieldPrefillPod).

Definition redisDelete (k : string) (s : RedisStore) : RedisStore := MkRedis (delete k (hashes s)).

(** [HSET] and [EXPIRE]: the other fields and hashes stay. *)
Definition redisWrite (now : Z) (k : string) (b : Binding) (sec : Z) (s : RedisStore) : RedisStore :=
  MkRedis (<[k := MkHash (<[redisFieldModelServer := bindingServer b]> (<[redisFieldPod := bindingPod b]> (<[redisFieldPrefillPod := bindingPrefill b]> (fieldsOf now k s))))
                         (now + sec * second)]> (hashes s)).
Definition redisExpire (now : Z) (k : string) (sec : Z) (s : RedisStore) : RedisStore :=
  MkRedis (<[k := MkHash (fieldsOf now k s) (now + sec * second)]> (hashes s)).

Definition stickyCommitScript (now : Z) (k : string) (b : Binding) (sec : Z) (s : RedisStore) : RedisStore * (string * string * string) :=
  let f := fieldsOf now k s in
  match f !! redisFieldModelServer, f !! redisFieldPod with
  | Some ms, Some pod =>
    let prefill := default ""%string (f !! redisFieldPrefillPod) in
    if bool_decide (ms = bindingServer b) && bool_decide (pod = bindingPod b) && bool_decide (prefill = bindingPrefill b)
    then (redisExpire now k sec s, (bindingServer b, bindingPod b, bindingPrefill b))
    else (s, (ms, pod, prefill))
  | _, _ => (redisWrite now k b sec s, (bindingServer b, bindingPod b, bindingPrefill b))
  end.

Definition redisCommit (now : Z) (k : string) (binding : Binding) (ttl : Z) (s : RedisStore) : RedisStore * option Binding :=
  if negb (Valid binding) then (s, None)
  else
    let sec := Z.max 1 (ttl ÷ second) in
    let '(s, (ms, pod, prefill)) := stickyCommitScript now k binding sec s in
    (s, Some (default binding (bindingFromRedisFields (Some ms) (Some pod) (Some prefill)))).

#[export] Instance redisStore : StickyStore RedisStore := {| Get := redisGet; Delete := redisDelete; Commit := redisCommit; Sweep _ s := s |}.

(** Only [Commit] writes hashes. *)
Definition redisOk (s : RedisStore) : Prop := forall k h, hashes s !! k = Some h ->
  exists b, Valid b = true /\ hashFields h !! redisFieldModelServer = Some (bindingServer b) /\ hashFields h !! redisFieldPod = Some (bindingPod b) /\
            hashFields h !! redisFieldPrefillPod = Some (bindingPrefill b).

Definition redisLive (now : Z) (s : RedisStore) (k : string) : option (Binding * Z) :=
  h ← hashes s !! k; if now <? hashExpires h then (fun b => (b, hashExpires h)) <$> redisGet now k s else None.

(** ** Both implement the interface *)

(** The sweeper removes what has expired only. *)
Lemma sweep_live now now' s k : now <= now' -> memoryLive now' (sweepExpired now s) k = memoryLive now' s k.
Proof.
  intros Hle. unfold memoryLive, sweepExpired. cbn. destruct (entries s !! k) as [e|] eqn:Ek.
  - destruct (decide (now < entryUntil e)) as [Hl|Hl].
    + rewrite (proj2 (map_lookup_filter_Some _ _ _ _)) by (by split). done.
    + rewrite (proj2 (map_lookup_filter_None _ _ _)); [cbn; by destruct (Z.ltb_spec now' (entryUntil e)); [lia|]|]. right. intros e' He'. rewrite Ek in He'. injection He' as <-. cbn. lia.
  - rewrite (proj2 (map_lookup_filter_None _ _ _)); [done|]. by left.
Qed.

#[export] Program Instance memory_laws : StickyLaws MemoryStore := {| storeOk _ := True; live := memoryLive |}.
Next Obligation. intros now s k b until _. unfold memoryLive. destruct (entries s !! k) as [e|]; [|done]. cbn. destruct (now <? entryUntil e), (Valid (entryBinding e)) eqn:E; try done. by intros [= <- <-]. Qed.
Next Obligation. intros now s k _. cbn. unfold memoryGet, memoryLive. destruct (entries s !! k) as [e|]; [|done]. cbn. by destruct (now <? entryUntil e), (Valid (entryBinding e)). Qed.
Next Obligation.
  intros now now' s k _ Hle. unfold memoryLive. destruct (entries s !! k) as [e|]; [|done]. cbn. destruct (Valid (entryBinding e)); rewrite ?andb_false_r, ?andb_true_r; [|done].
  destruct (Z.ltb_spec now (entryUntil e)), (Z.ltb_spec now' (entryUntil e)); cbn; try lia; try done; destruct (Z.ltb_spec now' (entryUntil e)); try lia; done.
Qed.
Next Obligation.
  intros now s k k' _. split; [done|]. unfold memoryLive, Delete. cbn. case_decide; [subst; by rewrite lookup_delete_eq|by rewrite lookup_delete_ne].
Qed.
Next Obligation. intros now s k b ttl _ Hb. cbn. unfold memoryCommit. by rewrite Hb. Qed.
Next Obligation.
  intros now s k b seconds _ Hb Hs. cbn. unfold memoryCommit. rewrite Hb. cbn [negb]. assert (Hp : (seconds * second <=? 0) = false) by (unfold second; lia). rewrite Hp.
  assert (Hstored : memoryLive now (MkMemory (<[k := MkEntry b (now + seconds * second)]> (entries s))) k = Some (b, now + seconds * second)).
  { unfold memoryLive. cbn. rewrite lookup_insert_eq. cbn. rewrite Hb. assert (Hl : (now <? now + seconds * second) = true) by (unfold second; lia). by rewrite Hl. }
  assert (Hother : forall k', k' <> k -> memoryLive now (MkMemory (<[k := MkEntry b (now + seconds * second)]> (entries s))) k' = memoryLive now s k') by (intros k' Hn; unfold memoryLive; cbn; by rewrite lookup_insert_ne).
  unfold memoryLive at 1. destruct (entries s !! k) as [cur|] eqn:Ek; cbn [mbind option_bind]; [|by split_and!].
  destruct ((now <? entryUntil cur) && Valid (entryBinding cur)) eqn:El; cbn [fst snd]; [|by split_and!].
  destruct (Equal (entryBinding cur) b) eqn:Eq; cbn [negb].
  - apply Equal_spec in Eq. rewrite decide_True by done. by split_and!.
  - rewrite decide_False by (intros E%Equal_spec; congruence). split_and!; [done|done| |done]. unfold memoryLive. rewrite Ek. cbn. by rewrite El.
Qed.

Next Obligation. intros now now' s k _. split; [done|apply sweep_live]. Qed.

Lemma read_fields b : Valid b = true -> bindingFromRedisFields (Some (bindingServer b)) (Some (bindingPod b)) (Some (bindingPrefill b)) = Some b.
Proof. intros Hv. unfold bindingFromRedisFields. cbn [default from_option id]. destruct b. cbn [bindingServer bindingPod bindingPrefill]. by rewrite Hv. Qed.

Lemma redis_fields now s k h b : hashes s !! k = Some h -> Valid b = true -> hashFields h !! redisFieldModelServer = Some (bindingServer b) ->
  hashFields h !! redisFieldPod = Some (bindingPod b) -> hashFields h !! redisFieldPrefillPod = Some (bindingPrefill b) ->
  redisGet now k s = if now <? hashExpires h then Some b else None.
Proof.
  intros Hk Hv H1 H2 H3. unfold redisGet, fieldsOf. rewrite Hk. destruct (now <? hashExpires h); [|by rewrite !lookup_empty].
  rewrite H1, H2, H3. by apply read_fields.
Qed.

Lemma redisLive_lookup now s k : redisOk s -> match redisLive now s k with
  | Some (b, until) => exists h, hashes s !! k = Some h /\ hashExpires h = until /\ now < until /\ redisGet now k s = Some b /\ Valid b = true /\
      hashFields h !! redisFieldModelServer = Some (bindingServer b) /\ hashFields h !! redisFieldPod = Some (bindingPod b) /\ hashFields h !! redisFieldPrefillPod = Some (bindingPrefill b)
  | None => redisGet now k s = None /\ fieldsOf now k s = ∅
  end.
Proof.
  intros Hok. unfold redisLive. destruct (hashes s !! k) as [h|] eqn:Ek; cbn [mbind option_bind].
  2: { unfold redisGet, fieldsOf. rewrite Ek, !lookup_empty. done. }
  destruct (Hok k h Ek) as (b & Hv & H1 & H2 & H3). pose proof (redis_fields now s k h b Ek Hv H1 H2 H3) as Hg. rewrite Hg.
  destruct (Z.ltb_spec now (hashExpires h)); cbn; [by exists h|]. split; [done|]. unfold fieldsOf. rewrite Ek. destruct (Z.ltb_spec now (hashExpires h)); [lia|done].
Qed.

Lemma redisOk_write now k b sec s : redisOk s -> Valid b = true -> redisOk (redisWrite now k b sec s).
Proof.
  intros Hok Hb k' h'. unfold redisWrite. cbn [hashes]. intros [[<- <-]|[_ Hk]]%lookup_insert_Some; [|by apply (Hok k')]. exists b. by simplify_map_eq.
Qed.

#[export] Program Instance redis_laws : StickyLaws RedisStore := {| storeOk := redisOk; live := redisLive |}.
Next Obligation. intros now s k b until Hok E. pose proof (redisLive_lookup now s k Hok) as H. rewrite E in H. by destruct H as (h & _ & _ & _ & _ & ? & _). Qed.
Next Obligation. intros now s k Hok. cbn. pose proof (redisLive_lookup now s k Hok) as H. destruct (redisLive now s k) as [[b until]|]; [by destruct H as (h & _ & _ & _ & -> & _)|by destruct H]. Qed.
Next Obligation.
  intros now now' s k Hok Hle. pose proof (redisLive_lookup now s k Hok) as H. pose proof (redisLive_lookup now' s k Hok) as H'.
  destruct (redisLive now s k) as [[b until]|], (redisLive now' s k) as [[b' until']|]; cbn.
  - destruct H as (h & Ek & <- & Hu & Hg & Hv & H1 & H2 & H3), H' as (h' & Ek' & <- & Hu' & Hg' & Hv' & H1' & H2' & H3').
    rewrite Ek in Ek'. injection Ek' as <-. destruct (Z.ltb_spec now' (hashExpires h)); [|lia]. do 2 f_equal. rewrite H1 in H1'. rewrite H2 in H2'. rewrite H3 in H3'. destruct b, b'. cbn in *. by simplify_eq.
  - destruct H as (h & Ek & <- & Hu & Hg & Hv & H1 & H2 & H3), H' as [Hg' _]. pose proof (redis_fields now' s k h b Ek Hv H1 H2 H3) as E. destruct (now' <? hashExpires h); congruence.
  - destruct H as [_ Hf], H' as (h' & Ek' & <- & Hu' & Hg' & Hv' & H1' & _). unfold fieldsOf in Hf. rewrite Ek' in Hf. destruct (Z.ltb_spec now (hashExpires h')); [|lia]. rewrite Hf, lookup_empty in H1'. done.
  - done.
Qed.
Next Obligation.
  intros now s k k' Hok. split; [intros k0 h0; cbn; intros [_ Hk]%lookup_delete_Some; by apply (Hok k0)|]. unfold redisLive, redisGet, fieldsOf. cbn.
  case_decide; [subst; by rewrite lookup_delete_eq|by rewrite lookup_delete_ne].
Qed.
Next Obligation. intros now s k b ttl _ Hb. cbn. unfold redisCommit. by rewrite Hb. Qed.
Next Obligation.
  intros now s k b seconds Hok Hb Hs. cbn [Commit redisStore]. unfold redisCommit. rewrite Hb. cbn [negb].
  assert (Hsec : Z.max 1 (seconds * second ÷ second) = seconds) by (rewrite Z.quot_mul by done; lia). rewrite Hsec.
  assert (Hlater : now < now + seconds * second) by (unfold second; lia).
  assert (Hread : bindingFromRedisFields (Some (bindingServer b)) (Some (bindingPod b)) (Some (bindingPrefill b)) = Some b) by (by apply read_fields).
  assert (Hput : forall h, hashFields h !! redisFieldModelServer = Some (bindingServer b) -> hashFields h !! redisFieldPod = Some (bindingPod b) -> hashFields h !! redisFieldPrefillPod = Some (bindingPrefill b) ->
    hashExpires h = now + seconds * second -> redisLive now (MkRedis (<[k := h]> (hashes s))) k = Some (b, now + seconds * second)).
  { intros h H1 H2 H3 H4. unfold redisLive. cbn [hashes]. rewrite lookup_insert_eq. cbn [mbind option_bind]. rewrite (redis_fields now (MkRedis (<[k := h]> (hashes s))) k h b) by (cbn; by rewrite ?lookup_insert_eq).
    rewrite H4. destruct (Z.ltb_spec now (now + seconds * second)); [done|lia]. }
  assert (Hother : forall h k', k' <> k -> redisLive now (MkRedis (<[k := h]> (hashes s))) k' = redisLive now s k').
  { intros h k' Hn. unfold redisLive, redisGet, fieldsOf. cbn. by rewrite lookup_insert_ne. }
  unfold stickyCommitScript. pose proof (redisLive_lookup now s k Hok) as Hl. destruct (redisLive now s k) as [[b0 until]|] eqn:El.
  - destruct Hl as (h & Ek & <- & Hu & Hg & Hv & H1 & H2 & H3). assert (Hf : fieldsOf now k s = hashFields h) by (unfold fieldsOf; rewrite Ek; destruct (Z.ltb_spec now (hashExpires h)); [done|lia]).
    rewrite Hf, H1, H2, H3. cbn [default from_option id]. change (_ && _ && _) with (Equal b0 b). case_decide as Eb.
    + subst b0. rewrite (proj2 (Equal_spec b b)) by done. rewrite Hread. cbn [default from_option id]. split; [|split; [split; [done|]|]].
      * intros k' h'. unfold redisExpire. cbn [hashes]. intros [[<- <-]|[_ Hk]]%lookup_insert_Some; [|by apply (Hok k')]. exists b. cbn. by rewrite Hf.
      * apply Hput; cbn; by rewrite ?Hf.
      * intros k' Hn. by apply Hother.
    + destruct (Equal b0 b) eqn:Eq; [by apply Equal_spec in Eq|]. assert (Hread0 : bindingFromRedisFields (Some (bindingServer b0)) (Some (bindingPod b0)) (Some (bindingPrefill b0)) = Some b0) by (by apply read_fields).
      rewrite Hread0. cbn [default from_option id]. split; [done|]. by rewrite El.
  - destruct Hl as [_ Hf]. rewrite Hf, !lookup_empty. rewrite Hread. cbn [default from_option id]. split; [by apply redisOk_write|]. split; [split; [done|]|].
    + unfold redisWrite. apply Hput; cbn; by simplify_map_eq.
    + intros k' Hn. by apply Hother.
Qed.

Next Obligation. by intros now now' s k Hok. Qed.

(** ** The two stores answer alike *)

Inductive storeCall := CallGet (k : string) | CallDelete (k : string) | CallCommit (k : string) (b : Binding) (sessionAffinitySeconds : option Z) | CallSweep.

Definition runStoreCall {S} `{!StickyStore S} (now : Z) (c : storeCall) (s : S) : S * option Binding :=
  match c with
  | CallGet k => (s, Get now k s)
  | CallDelete k => (Delete k s, None)
  | CallCommit k b seconds => Commit now k b (TTL seconds) s
  | CallSweep => (Sweep now s, None)
  end.

(** The calls, each with the time that passed before it. *)
Fixpoint runStoreCalls {S} `{!StickyStore S} (now : Z) (calls : list (Z * storeCall)) (s : S) : list (option Binding) :=
  match calls with
  | [] => []
  | (wait, c) :: calls => let '(s, answer) := runStoreCall (now + wait) c s in answer :: runStoreCalls (now + wait) calls s
  end.

Lemma TTL_seconds seconds : exists sec, TTL seconds = sec * second /\ 1 <= sec.
Proof. unfold TTL, defaultSessionAffinitySeconds. destruct seconds as [sec|]; [|by exists 300]. destruct (Z.leb_spec 1 sec); [by exists sec|by exists 300]. Qed.

Section agree.
Context {S1 S2 : Type} `{!StickyStore S1} `{!StickyStore S2} `{!StickyLaws S1} `{!StickyLaws S2}.

Definition alike (now : Z) (s1 : S1) (s2 : S2) : Prop := storeOk s1 /\ storeOk s2 /\ forall k, live now s1 k = live now s2 k.

Lemma alike_later now now' s1 s2 : now <= now' -> alike now s1 s2 -> alike now' s1 s2.
Proof. intros Hle (H1 & H2 & H). split_and!; [done..|]. intros k. by rewrite (live_later now now' s1), (live_later now now' s2), H. Qed.

Lemma alike_call now c s1 s2 : alike now s1 s2 ->
  (runStoreCall now c s1).2 = (runStoreCall now c s2).2 /\ alike now (runStoreCall now c s1).1 (runStoreCall now c s2).1.
Proof.
  intros (H1 & H2 & H). destruct c as [k|k|k b seconds|]; cbn [runStoreCall].
  - split; [cbn; by rewrite !get_live, H|done].
  - split; [done|]. cbn. split_and!; [exact (proj1 (live_delete now s1 k k H1))|exact (proj1 (live_delete now s2 k k H2))|]. intros k'.
    by rewrite (proj2 (live_delete now s1 k k' H1)), (proj2 (live_delete now s2 k k' H2)), H.
  - destruct (Valid b) eqn:Hb; [|rewrite !commit_invalid by done; by split]. destruct (TTL_seconds seconds) as (sec & -> & Hs).
    pose proof (commit_live now s1 k b sec H1 Hb Hs) as C1. pose proof (commit_live now s2 k b sec H2 Hb Hs) as C2. destruct (Commit _ _ _ _ s1) as [s1' a1], (Commit _ _ _ _ s2) as [s2' a2].
    destruct C1 as (O1 & L1 & R1), C2 as (O2 & L2 & R2). rewrite <- H in L2. cbn [fst snd].
    assert (Hk : a1 = a2 /\ live now s1' k = live now s2' k).
    { destruct (live now s1 k) as [[b0 until]|]; [case_decide|]; destruct L1 as [-> ->], L2 as [-> ->]; done. }
    split; [apply Hk|]. split_and!; [done..|]. intros k'. destruct (decide (k' = k)) as [->|Hn]; [apply Hk|by rewrite R1, R2].
  - split; [done|]. cbn. split_and!; [exact (proj1 (live_sweep now now s1 ""%string H1))|exact (proj1 (live_sweep now now s2 ""%string H2))|]. intros k.
    rewrite (proj2 (live_sweep now now s1 k H1)), (proj2 (live_sweep now now s2 k H2)); [apply H|lia..].
Qed.

Lemma alike_calls calls : forall now s1 s2, Forall (fun x => 0 <= x.1) calls -> alike now s1 s2 -> runStoreCalls now calls s1 = runStoreCalls now calls s2.
Proof.
  induction calls as [|[wait c] calls IH]; intros now s1 s2 Hw Ha; [done|]. apply Forall_cons in Hw as [Hw Hws]. cbn [fst] in Hw. cbn [runStoreCalls].
  apply (alike_later now (now + wait)) in Ha; [|lia]. destruct (alike_call (now + wait) c s1 s2 Ha) as [E Ha'].
  destruct (runStoreCall (now + wait) c s1) as [s1' a1], (runStoreCall (now + wait) c s2) as [s2' a2]. cbn [fst snd] in *. subst. f_equal. by apply IH.
Qed.
End agree.

(** C21: the two stores of session bindings are interchangeable. Any sequence of
    lookups, deletions, commits and sweeps at times that do not go back gets the
    same answers from the store in memory and from the one in Redis: a binding
    is answered until its time is over, a commit of the same binding extends
    it, and one of another binding is refused in favour of the one that holds. *)
Theorem sticky_stores_agree now calls : Forall (fun x => 0 <= x.1) calls -> runStoreCalls now calls NewMemoryStore = runStoreCalls now calls (MkRedis ∅).
Proof.
  intros Hw. apply alike_calls; [done|]. split_and!; [done|intros k h; cbn; by rewrite lookup_empty|]. intros k. cbn. unfold memoryLive, redisLive. cbn. by rewrite !lookup_empty.
Qed.

(** ** Requests of a session (extract.go, key.go, router.go) *)

Inductive SessionKeySourceType := SessionKeySourceHeader | SessionKeySourceQuery | SessionKeySourceCookie | SessionKeySourceJWTClaim | SessionKeySourceOther.
Record SessionKeySource := MkSource { sourceType : SessionKeySourceType; sourceName : string }.
Record SessionSticky := MkSticky { Sources : list SessionKeySource; SessionAffinitySeconds : option Z }.

Section sessions.
(** SHA-256 in hexadecimal. *)
Context (Sum256Hex : string -> string).

(** [valueOf] reads a header, a query parameter, a cookie or a claim; what is
    missing is empty. *)
Definition extractOne (valueOf : SessionKeySourceType -> string -> text) (src : SessionKeySource) : text :=
  if bool_decide (sourceName src = ""%string) then []
  else match sourceType src with SessionKeySourceOther => [] | kind => TrimSpace (valueOf kind (sourceName src)) end.

Fixpoint ExtractSessionKey (valueOf : SessionKeySourceType -> string -> text) (sources : list SessionKeySource) : text :=
  match sources with
  | [] => []
  | src :: sources => let v := extractOne valueOf src in if bool_decide (v = []) then ExtractSessionKey valueOf sources else v
  end.

Definition MappingKey (modelServer : NamespacedName) (sessionMaterial : text) : string :=
  ("kthena/sticky/" ++ Sum256Hex (Namespace modelServer ++ "/" ++ Name modelServer ++ "|" ++ string_of_list_ascii sessionMaterial))%string.

Context {St : Type} `{!StickyStore St}.

(** The key of the session, its key in the store, and the binding. *)
Definition LookupBinding (now : Z) (owner : NamespacedName) (spec : SessionSticky) (valueOf : SessionKeySourceType -> string -> text) (s : St) : text * string * option Binding :=
  let sessionKey := ExtractSessionKey valueOf (Sources spec) in
  if bool_decide (sessionKey = []) then ([], ""%string, None)
  else
    let storeKey := MappingKey owner sessionKey in
    (sessionKey, storeKey, match Get now storeKey s with Some b => if Valid b then Some b else None | None => None end).

(** A model server without affinity looks nothing up. *)
Definition lookupSessionStickyBinding (now : Z) (owner : NamespacedName) (stickySpec : option SessionSticky) (valueOf : SessionKeySourceType -> string -> text) (s : St) : text * string * option Binding :=
  match stickySpec with None => ([], ""%string, None) | Some spec => LookupBinding now owner spec valueOf s end.

(** What was chosen, if it can be bound. *)
Definition selectedBinding (selectedModelServer : string) (ctx : Context) : option Binding :=
  if PDMode ctx then
    match PrefillPods ctx, DecodePods ctx with
    | prefill :: _, decode :: _ => Some (MkBinding selectedModelServer (Name decode) (Name prefill))
    | _, _ => None
    end
  else
    match BestPods ctx with
    | best :: _ => if bool_decide (Name best = ""%string) then None else Some (MkBinding selectedModelServer (Name best) ""%string)
    | [] => None
    end.

Definition finalizeSessionSticky (now : Z) (ctx : Context) (stickySpec : option SessionSticky) (sessionKey : text) (stickyStoreKey : string) (prev : option Binding) (selectedModelServer : string) (s : St) : St :=
  match stickySpec with
  | None => s
  | Some spec =>
    if bool_decide (sessionKey = []) || bool_decide (stickyStoreKey = ""%string) || bool_decide (selectedModelServer = ""%string) then s
    else
      match selectedBinding selectedModelServer ctx with
      | None => s
      | Some selected =>
        let s := match prev with Some prev => if Equal prev selected then s else Delete stickyStoreKey s | None => s end in
        (Commit now stickyStoreKey selected (TTL (SessionAffinitySeconds spec)) s).1
      end
  end.

(** A binding without a prefill pod does not pin a disaggregated request. *)
Definition stickyContext (binding : option Binding) (ctx : Context) : Context :=
  match binding with
  | Some b => if PDMode ctx && negb (ValidPD b) then ctx else set_sticky (bindingPod b) (bindingPrefill b) ctx
  | None => ctx
  end.

(** What the scheduler finds at the time of a request: the plugins with the
    metrics they read, the pods of the store, and the order in which Go visits
    a map and sorts what is equal. *)
Record moment := MkMoment {
  visitScores : gmap podName Z -> list (podName * Z);
  sortSlice : list (podName * Z) -> list (podName * Z);
  filters : list FilterPlugin;
  scorers : list ScorePlugin;
  getDecodePods : NamespacedName -> option (list podName);
  getPrefillPods : NamespacedName -> podName -> option (list podName);
}.

Definition scheduleAt (m : moment) : Context -> list podName -> Context * option ScheduleError :=
  Schedule (visitScores m) (sortSlice m) (filters m) (scorers m) (getDecodePods m) (getPrefillPods m).

(** A request of [doLoadbalance] up to the choice of pods, and after it. *)
Record request := MkSessionRequest {
  rqContext : Context;
  rqPods : list podName;
  rqSticky : option SessionSticky;
  rqValues : SessionKeySourceType -> string -> text;
  rqMoment : moment;
}.

Definition choosePods (now : Z) (rq : request) (s : St) : (text * string * option Binding) * (Context * option ScheduleError) :=
  let found := lookupSessionStickyBinding now (ModelServerName (rqContext rq)) (rqSticky rq) (rqValues rq) s in
  (found, scheduleAt (rqMoment rq) (stickyContext found.2 (rqContext rq)) (rqPods rq)).

Definition bindSession (now : Z) (rq : request) (chosen : (text * string * option Binding) * (Context * option ScheduleError)) (s : St) : St :=
  let '((sessionKey, storeKey, prev), (ctx, err)) := chosen in
  match err with Some _ => s | None => finalizeSessionSticky now ctx (rqSticky rq) sessionKey storeKey prev (Name (ModelServerName (rqContext rq))) s end.

(** ** A session keeps its pods

    What other sessions, the sweeper and the clock do in between. *)
Inductive others (k : string) : Z -> St -> Z -> St -> Prop :=
| others_wait now now' s : now <= now' -> others k now s now' s
| others_delete now s k' : k' <> k -> others k now s now (Delete k' s)
| others_commit now s k' b seconds : k' <> k -> others k now s now (Commit now k' b (TTL seconds) s).1
| others_sweep now s : others k now s now (Sweep now s)
| others_then now s now1 s1 now2 s2 : others k now s now1 s1 -> others k now1 s1 now2 s2 -> others k now s now2 s2.

Context `{!StickyLaws St}.

Lemma others_live k now s now' s' : others k now s now' s' -> storeOk s ->
  storeOk s' /\ now <= now' /\ forall t, now' <= t -> live t s' k = live t s k.
Proof.
  induction 1 as [now now' s Hle|now s k' Hn|now s k' b seconds Hn|now s|now s now1 s1 now2 s2 _ IH1 _ IH2]; intros Hok.
  - by split_and!.
  - split; [apply (live_delete now s k' k Hok)|]. split; [lia|]. intros t _. by rewrite (proj2 (live_delete t s k' k Hok)), decide_False.
  - destruct (Valid b) eqn:Hb; [|rewrite commit_invalid by done; by split_and!]. destruct (TTL_seconds seconds) as (sec & -> & Hs).
    pose proof (commit_live now s k' b sec Hok Hb Hs) as H. destruct (Commit now k' b (sec * second) s) as [s' a]. destruct H as (Hok' & _ & Ho). cbn [fst].
    split; [done|]. split; [lia|]. intros t Ht. rewrite (live_later now t s'), (live_later now t s), Ho by done. done.
  - split; [exact (proj1 (live_sweep now now s k Hok))|]. split; [lia|]. intros t Ht. by apply (live_sweep now t s k).
  - destruct (IH1 Hok) as (Hok1 & Hle1 & H1), (IH2 Hok1) as (Hok2 & Hle2 & H2). split; [done|]. split; [lia|]. intros t Ht. rewrite H2, H1 by lia. done.
Qed.

(** A request of the session with the key [k]. *)
Definition inSession (k : string) (spec : SessionSticky) (rq : request) : Prop :=
  rqSticky rq = Some spec /\ ExtractSessionKey (rqValues rq) (Sources spec) <> [] /\
  MappingKey (ModelServerName (rqContext rq)) (ExtractSessionKey (rqValues rq) (Sources spec)) = k /\ Name (ModelServerName (rqContext rq)) <> ""%string.

(** The binding is one of the model server, and its pods can be chosen. *)
Definition selectable (b : Binding) (rq : request) : Prop :=
  let ctx := set_sticky (bindingPod b) (bindingPrefill b) (rqContext rq) in
  let m := rqMoment rq in
  bindingServer b = Name (ModelServerName ctx) /\
  if PDMode ctx
  then bindingPrefill b <> ""%string /\ exists all l d p, getDecodePods m (ModelServerName ctx) = Some all /\ all <> [] /\ RunFilterPlugins (filters m) ctx all = inl l /\
       stickyPair (filters m) (getPrefillPods m) ctx l = Some (d, p)
  else bindingPrefill b = ""%string /\ exists l p, RunFilterPlugins (filters m) ctx (rqPods rq) = inl l /\ p ∈ l /\ Name p = bindingPod b.

Definition servedBy (b : Binding) (ctx : Context) : Prop :=
  if PDMode ctx then Name <$> DecodePods ctx = [bindingPod b] /\ Name <$> PrefillPods ctx = [bindingPrefill b] else Name <$> BestPods ctx = [bindingPod b].

(** The binding names the model server and the first pods that were chosen. *)
Definition firstChoice (b : Binding) (rq : request) (ctx : Context) : Prop :=
  bindingServer b = Name (ModelServerName (rqContext rq)) /\
  if PDMode ctx
  then (exists d, head (DecodePods ctx) = Some d /\ Name d = bindingPod b) /\ exists p, head (PrefillPods ctx) = Some p /\ Name p = bindingPrefill b
  else bindingPrefill b = ""%string /\ exists best, head (BestPods ctx) = Some best /\ Name best = bindingPod b.

Lemma firstChoice_selected b rq ctx : Valid b = true -> firstChoice b rq ctx -> selectedBinding (Name (ModelServerName (rqContext rq))) ctx = Some b.
Proof.
  intros [_ Hpod%negb_true_iff%bool_decide_eq_false]%andb_prop [Hserver H]. unfold selectedBinding. destruct (PDMode ctx), b as [server pod prefill]; cbn in *; subst server.
  - destruct H as [(d & Hd & <-) (p & Hp & <-)]. by destruct (DecodePods ctx), (PrefillPods ctx); simplify_eq/=.
  - destruct H as [-> (best & Hb & <-)]. destruct (BestPods ctx); simplify_eq/=. by rewrite bool_decide_false.
Qed.

Lemma lookup_session k spec now rq s : storeOk s -> inSession k spec rq ->
  lookupSessionStickyBinding now (ModelServerName (rqContext rq)) (rqSticky rq) (rqValues rq) s =
    (ExtractSessionKey (rqValues rq) (Sources spec), k, fst <$> live now s k).
Proof.
  intros Hok (Hs & Hk & Hm & _). unfold lookupSessionStickyBinding, LookupBinding. rewrite Hs. cbn zeta. rewrite bool_decide_false by done. rewrite Hm, get_live by done.
  destruct (live now s k) as [[b until]|] eqn:El; [|done]. cbn. by rewrite (live_valid now s k b until Hok El).
Qed.

Lemma schedule_selectable b rq : Valid b = true -> selectable b rq ->
  let '(ctx, err) := scheduleAt (rqMoment rq) (stickyContext (Some b) (rqContext rq)) (rqPods rq) in
  err = None /\ servedBy b ctx /\ selectedBinding (Name (ModelServerName (rqContext rq))) ctx = Some b.
Proof.
  intros Hv [Hserver Hsel]. apply andb_prop in Hv as Hv'. destruct Hv' as [_ Hpod]. apply negb_true_iff, bool_decide_eq_false in Hpod.
  unfold stickyContext, ValidPD. rewrite Hv. cbn [andb]. cbn [PDMode set_sticky ModelServerName] in *.
  destruct (PDMode (rqContext rq)) eqn:Em; cbn [andb].
  - unfold scheduleAt; destruct Hsel as (Hpre & all & l & d & p & Hall & Hne & Hf & Hp). rewrite (bool_decide_false _ Hpre). cbn [negb andb].
    unfold Schedule. cbn [PDMode set_sticky]. rewrite Em. unfold schedulePD. cbn [ModelServerName set_sticky]. rewrite Hall. destruct all as [|a all]; [done|]. rewrite Hf.
    cbn [StickyPodName StickyPrefillPodName set_sticky]. rewrite (bool_decide_false _ Hpod), (bool_decide_false _ Hpre). cbn [negb andb]. rewrite Hp.
    assert (En : Name d = bindingPod b /\ Name p = bindingPrefill b).
    { revert Hp. unfold stickyPair. destruct (list_find _ l) as [[i d']|] eqn:E1; [|done]. cbn. destruct (getPrefillPods _ _ d') as [prefills|]; [|done]. cbn.
      destruct (RunFilterPlugins _ _ prefills) as [kept|]; [|done]. destruct (list_find _ kept) as [[j p']|] eqn:E2; [|done]. cbn. intros [= <- <-].
      apply list_find_Some in E1 as (_ & E1 & _), E2 as (_ & E2 & _). done. }
    destruct En as [E1 E2]. unfold servedBy, selectedBinding. cbn [PDMode set_pairs set_sticky DecodePods PrefillPods]. rewrite Em, E1, E2, <- Hserver.
    split_and!; [done|cbn; by rewrite E1|cbn; by rewrite E2|by destruct b].
  - unfold scheduleAt; destruct Hsel as (Hpre & l & p & Hf & Hp & En). unfold Schedule. cbn [PDMode set_sticky]. rewrite Em, Hf. cbn [StickyPodName set_sticky]. rewrite (bool_decide_false _ Hpod).
    destruct (list_find _ l) as [[i q]|] eqn:E; [|apply list_find_None in E; rewrite Forall_forall in E; by destruct (E p Hp)].
    apply list_find_Some in E as (_ & E & _). unfold servedBy, selectedBinding. cbn [PDMode set_best set_sticky BestPods]. rewrite Em, E, (bool_decide_false _ Hpod), <- Hserver, <- Hpre.
    split_and!; [done|cbn; by rewrite E|by destruct b].
Qed.

(** After a request that chose [b], the session is bound to [b]. *)
Lemma bound_after k spec now now' rq s s' ctx b : storeOk s -> inSession k spec rq -> others k now s now' s' ->
  selectedBinding (Name (ModelServerName (rqContext rq))) ctx = Some b -> Valid b = true -> k <> ""%string ->
  let s2 := bindSession now' rq (lookupSessionStickyBinding now (ModelServerName (rqContext rq)) (rqSticky rq) (rqValues rq) s, (ctx, None)) s' in
  storeOk s2 /\ live now' s2 k = Some (b, now' + TTL (SessionAffinitySeconds spec)).
Proof.
  intros Hok Hin Ho Hsel Hv Hk s2. unfold s2. rewrite (lookup_session k spec) by done. destruct Hin as (Hs & He & _ & Hn). unfold bindSession, finalizeSessionSticky. rewrite Hs.
  rewrite (bool_decide_false _ He), (bool_decide_false _ Hk). rewrite (bool_decide_false _ Hn). cbn [orb]. rewrite Hsel.
  destruct (others_live _ _ _ _ _ Ho Hok) as (Hok' & Hle & Hl). specialize (Hl now' ltac:(lia)). rewrite (live_later now now' s k Hok Hle) in Hl.
  destruct (TTL_seconds (SessionAffinitySeconds spec)) as (sec & -> & Hsec).
  assert (Hcommit : forall s1, storeOk s1 -> (live now' s1 k = None \/ exists until, live now' s1 k = Some (b, until)) ->
    storeOk (Commit now' k b (sec * second) s1).1 /\ live now' (Commit now' k b (sec * second) s1).1 k = Some (b, now' + sec * second)).
  { intros s1 Hok1 Hlive. pose proof (commit_live now' s1 k b sec Hok1 Hv Hsec) as H. destruct (Commit now' k b (sec * second) s1) as [s1' a]. destruct H as (H1 & H2 & _). split; [done|].
    cbn [fst]. destruct Hlive as [E|[until E]]; rewrite E in H2; [by destruct H2|]. rewrite decide_True in H2 by done. by destruct H2. }
  destruct (live now s k) as [[b0 until]|]; cbn [fmap option_fmap option_map fst].
  - destruct (Equal b0 b) eqn:Eq.
    + apply Equal_spec in Eq. subst b0. apply Hcommit; [done|]. rewrite Hl. cbn. destruct (now' <? until); [right; by exists until|by left].
    + destruct (live_delete now' s' k k Hok') as [Hok1 Hd]. rewrite decide_True in Hd by done. apply Hcommit; [done|by left].
  - apply Hcommit; [done|by left].
Qed.

(** A request that was served, with the times of its lookup and its commit. *)
Record sessionVisit := MkVisit { visitRequest : request; lookedUp : Z; committed : Z; chosen : (text * string * option Binding) * (Context * option ScheduleError) }.

(** The requests of one session, one after the other, among the work of others. *)
Inductive session (k : string) : Z -> St -> list sessionVisit -> Prop :=
| session_end now s : session k now s []
| session_visit now s t s1 t' s2 rq visits : others k now s t s1 -> others k t s1 t' s2 ->
    session k t' (bindSession t' rq (choosePods t rq s1) s2) visits -> session k now s (MkVisit rq t t' (choosePods t rq s1) :: visits).

(** Every request arrives before the binding expires that the one before it
    refreshed. *)
Fixpoint timely (spec : SessionSticky) (until : Z) (visits : list sessionVisit) : Prop :=
  match visits with
  | [] => True
  | v :: visits => lookedUp v < until /\ timely spec (committed v + TTL (SessionAffinitySeconds spec)) visits
  end.

Lemma session_keeps k spec b visits : k <> ""%string -> Valid b = true -> forall now s until, storeOk s -> session k now s visits -> live now s k = Some (b, until) ->
  timely spec until visits -> (forall v, v ∈ visits -> inSession k spec (visitRequest v) /\ selectable b (visitRequest v)) ->
  forall v, v ∈ visits -> (chosen v).2.2 = None /\ servedBy b (chosen v).2.1.
Proof.
  intros Hk Hv. induction visits as [|v visits IH]; intros now s until Hok Hs Hl Ht Hall; [by intros v ?%not_elem_of_nil|].
  inversion Hs as [|? ? t s1 t' s2 rq ? Ho1 Ho2 Hrest]; subst. destruct Ht as [Hu Ht]. cbn [lookedUp committed] in *.
  destruct (Hall _ ltac:(by left)) as [Hin Hsel]. cbn [visitRequest] in *.
  destruct (others_live _ _ _ _ _ Ho1 Hok) as (Hok1 & Hle1 & Hl1). pose proof (Hl1 t ltac:(lia)) as E1. rewrite (live_later now t s k Hok Hle1), Hl in E1. cbn in E1.
  destruct (Z.ltb_spec t until); [|lia]. pose proof (schedule_selectable b rq Hv Hsel) as Hsch.
  assert (Ec : choosePods t rq s1 = (lookupSessionStickyBinding t (ModelServerName (rqContext rq)) (rqSticky rq) (rqValues rq) s1,
    scheduleAt (rqMoment rq) (stickyContext (Some b) (rqContext rq)) (rqPods rq))).
  { unfold choosePods. rewrite (lookup_session k spec) by done. by rewrite E1. }
  rewrite Ec in Hrest. destruct (scheduleAt _ (stickyContext (Some b) (rqContext rq)) (rqPods rq)) as [ctx err] eqn:Es. destruct Hsch as (-> & Hserved & Hselected).
  destruct (bound_after k spec t t' rq s1 s2 ctx b Hok1 Hin Ho2 Hselected Hv Hk) as [Hok2 Hl2].
  intros v [->|Hin']%elem_of_cons; [cbn [chosen]; rewrite Ec; cbn [fst snd]; by rewrite ?Es|].
  eapply (IH t' _ _ Hok2 Hrest Hl2 Ht); [|done]. intros w Hw. apply Hall. by right.
Qed.

(** C15: a session keeps the pods of its first request. Let the requests of one
    session come one after the other, among any lookups, commits and deletions
    of other sessions and sweeps, and let the first choose pods that can be
    bound. As long as each request comes before the time of affinity is over
    since the one before it was bound, and the bound pods pass the filters and
    are still a pair, every later request is given exactly those pods: the pod
    of an aggregated model, or the decode and prefill pod. This holds for every
    store that keeps the interface, thus for both. *)
Theorem session_keeps_pods k spec b now s first rest : storeOk s -> k <> ""%string -> session k now s (first :: rest) ->
  (forall v, v ∈ first :: rest -> inSession k spec (visitRequest v)) ->
  (chosen first).2.2 = None -> firstChoice b (visitRequest first) (chosen first).2.1 -> Valid b = true ->
  timely spec (committed first + TTL (SessionAffinitySeconds spec)) rest -> (forall v, v ∈ rest -> selectable b (visitRequest v)) ->
  forall v, v ∈ rest -> (chosen v).2.2 = None /\ servedBy b (chosen v).2.1.
Proof.
  intros Hok Hk Hs Hin He Hsel Hv Ht Hall. pose proof (firstChoice_selected _ _ _ Hv Hsel) as Hsel'. clear Hsel. inversion Hs as [|? ? t s1 t' s2 rq ? Ho1 Ho2 Hrest]; subst. cbn [chosen visitRequest committed] in *.
  destruct (others_live _ _ _ _ _ Ho1 Hok) as (Hok1 & _ & _). unfold choosePods in He, Hsel', Hrest. cbn [fst snd] in *.
  destruct (scheduleAt _ _ (rqPods rq)) as [ctx err]. cbn [fst snd] in *. subst err.
  destruct (bound_after k spec t t' rq s1 s2 ctx b Hok1 (Hin _ ltac:(by left)) Ho2 Hsel' Hv Hk) as [Hok2 Hl2].
  apply (session_keeps k spec b rest Hk Hv t' _ _ Hok2 Hrest Hl2 Ht). intros v Hv'. split; [apply Hin; by right|by apply Hall].
Qed.
End sessions.

(** ** On concrete requests

    A disaggregated model with two pairs of pods. A session is named by a header
    or by a cookie. *)
Definition ex_llm : NamespacedName := MkName "default" "llm".
Definition ex_pd : Context := MkContext "llm" ex_llm true [] [] [] [] "" "".
Definition ex_spec : SessionSticky := MkSticky [MkSource SessionKeySourceHeader "x-session"; MkSource SessionKeySourceCookie "sid"] (Some 60).
Definition ex_decodes (server : NamespacedName) : option (list podName) := Some [MkName "default" "d0"; MkName "default" "d1"].
Definition ex_prefills (server : NamespacedName) (decode : podName) : option (list podName) :=
  Some [if bool_decide (Name decode = "d0"%string) then MkName "default" "p0" else MkName "default" "p1"].

(** One decode pod is busy: the other scores higher. *)
Definition ex_moment (busy : string) : moment :=
  MkMoment map_to_list (merge_sort lower) []
    [MkScorer (LeastRequestScore (fun p => if bool_decide (Name p = busy) then 3 else 0) (fun _ => f_zero) (fun _ => 0)) 1] ex_decodes ex_prefills.

Definition ex_values (place : SessionKeySourceType) (material : string) (kind : SessionKeySourceType) (name : string) : text :=
  match place, kind with
  | SessionKeySourceHeader, SessionKeySourceHeader | SessionKeySourceCookie, SessionKeySourceCookie => list_ascii_of_string material
  | _, _ => []
  end.
Definition ex_request (place : SessionKeySourceType) (material busy : string) : request :=
  MkSessionRequest ex_pd [] (Some ex_spec) (ex_values place material) (ex_moment busy).

Definition ex_d1 : Binding := MkBinding "llm" "d1" "p1".
Definition ex_key : string := "kthena/sticky/default/llm|alice".
Definition ex_rq1 : request := ex_request SessionKeySourceHeader " alice " "d0".
Definition ex_rq2 : request := ex_request SessionKeySourceCookie "alice" "d1".
Definition ex_bob : string := "kthena/sticky/default/llm|bob".

(** The first request is bound after a second. Before the second request, a
    minute later, another session is bound and the store is swept. *)
Definition ex_chosen1 := choosePods id 0 ex_rq1 NewMemoryStore.
Definition ex_store1 : MemoryStore := bindSession second ex_rq1 ex_chosen1 NewMemoryStore.
Definition ex_store1' : MemoryStore := (Commit second ex_bob (MkBinding "llm" "d0" "p0") (TTL None) ex_store1).1.
Definition ex_store2 : MemoryStore := Sweep (60 * second) ex_store1'.
Definition ex_chosen2 := choosePods id (60 * second) ex_rq2 ex_store2.
Definition ex_store3 : MemoryStore := bindSession (61 * second) ex_rq2 ex_chosen2 ex_store2.
Definition ex_chosen3 := choosePods id (120 * second) ex_rq1 ex_store3.

(** Without its session the second request would go to the other pair. *)
Example binding_beats_scores :
  selectedBinding "llm" ex_chosen1.2.1 = Some ex_d1 /\ selectedBinding "llm" ex_chosen2.2.1 = Some ex_d1 /\
  selectedBinding "llm" (choosePods id (60 * second) ex_rq2 NewMemoryStore).2.1 = Some (MkBinding "llm" "d0" "p0").
Proof. by vm_compute. Qed.

(** The first two requests of a session at the same time, each looked up before
    the other is bound: [Commit] answers the second that [d1] holds, which
    [finalizeSessionSticky] does not read, and the second request is served by
    [d0] although the session is bound to [d1]. *)
Example racing_requests_split :
  let rq := ex_request SessionKeySourceHeader "alice" "d1" in
  let '(first, other) := (choosePods id 0 ex_rq1 NewMemoryStore, choosePods id 0 rq NewMemoryStore) in
  let s := bindSession 1 rq other (bindSession 1 ex_rq1 first NewMemoryStore) in
  (Commit 1 ex_key (MkBinding "llm" "d0" "p0") (TTL (Some 60)) s).2 = Some ex_d1 /\ Get 1 ex_key s = Some ex_d1 /\ other.2.2 = None /\ selectedBinding "llm" other.2.1 = Some (MkBinding "llm" "d0" "p0").
Proof. by vm_compute. Qed.

Definition ex_visits : list sessionVisit :=
  [MkVisit ex_rq1 0 second ex_chosen1; MkVisit ex_rq2 (60 * second) (61 * second) ex_chosen2; MkVisit ex_rq1 (120 * second) (120 * second) ex_chosen3].

Lemma ex_session : session id ex_key 0 NewMemoryStore ex_visits.
Proof.
  apply (session_visit _ _ 0 _ 0 NewMemoryStore second NewMemoryStore); [by apply others_wait|by apply others_wait|].
  apply (session_visit _ _ second ex_store1 (60 * second) ex_store2 (61 * second) ex_store2); [|by apply others_wait|].
  - apply (others_then _ _ _ second ex_store1' _ _); [by apply others_commit|]. apply (others_then _ _ _ (60 * second) ex_store1' _ _); [by apply others_wait|apply others_sweep].
  - apply (session_visit _ _ (61 * second) ex_store3 (120 * second) ex_store3 (120 * second) ex_store3); [by apply others_wait|by apply others_wait|]. apply session_end.
Qed.

Lemma sticky_stores_agree_witness :
  let calls := [(0, CallCommit "s" ex_d1 (Some 60)); (30 * second, CallCommit "s" (MkBinding "llm" "d0" "p0") None); (29 * second, CallGet "s"); (second, CallGet "s");
                (0, CallCommit "s" (MkBinding "llm" "d0" "p0") None); (0, CallGet "s")] in
  runStoreCalls 0 calls NewMemoryStore = runStoreCalls 0 calls (MkRedis ∅) /\
  runStoreCalls 0 calls NewMemoryStore = [Some ex_d1; Some ex_d1; Some ex_d1; None; Some (MkBinding "llm" "d0" "p0"); Some (MkBinding "llm" "d0" "p0")].
Proof. cbv zeta. split; [apply sticky_stores_agree; repeat constructor; cbn; unfold second; lia|by vm_compute]. Defined.

Lemma session_keeps_pods_witness : Forall (fun v => (chosen v).2.2 = None /\ servedBy ex_d1 (chosen v).2.1) (tail ex_visits).
Proof.
  apply Forall_forall, (session_keeps_pods id ex_key ex_spec ex_d1 0 NewMemoryStore (MkVisit ex_rq1 0 second ex_chosen1)).
  - done.
  - done.
  - apply ex_session.
  - apply Forall_forall. repeat constructor; done.
  - by vm_compute.
  - split; [vm_compute; reflexivity|]. cbv beta. replace (PDMode (chosen (MkVisit ex_rq1 0 second ex_chosen1)).2.1) with true by (vm_compute; reflexivity).
    split; [exists (MkName "default" "d1")|exists (MkName "default" "p1")]; (split; [vm_compute; reflexivity|reflexivity]).
  - done.
  - by vm_compute.
  - apply Forall_forall. cbv [tail ex_visits]. repeat constructor; cbn [visitRequest].
    1, 3: done.
    all: exists [MkName "default" "d0"; MkName "default" "d1"], [MkName "default" "d0"; MkName "default" "d1"], (MkName "default" "d1"), (MkName "default" "p1"); by split_and!.
Defined.
